(* ===== verification/_CoqProject ===== *)
-Q . S2P
Prelude.v
Kernel.v
Dfb.v
DfbCalendar.v
DfbEdf.v
DfbSystem.v
DfbProps.v
KernelQueues.v
KCarousel.v
KTree.v
KEiffel.v
Ring.v
Pool.v
Buckets.v
Ledger.v
Shapers.v
BitMaps.v
Carousel.v
Eiffel.v
Bundler.v
BundlerProps.v
Tasks.v
PrioQueue.v
TrafficClass.v
Scheduler.v
TrafficWake.v
TrafficProps.v
TreeBuild.v
Gates.v
GateProps.v
Dataplane.v
DataplaneProps.v
TaskGraph.v
TaskGraphProps.v
Metadata.v
MetaOffsets.v
MetaScopes.v
MetaCover.v
MetaProps.v
Checksum.v
Addresses.v
Cuckoo.v
Llring.v
LlringShared.v
QueueModule.v
Trie.v
Drr.v
DrrTurns.v
DrrProps.v
L2Forward.v
L2Props.v
NatModule.v
NatPackets.v
NatProps.v
