(* ===== verification/Prelude.v ===== *)
(** * FlowBundler: verification library (root)

    FlowBundler releases every packet at a time chosen for it, at line rate and
    for many flows: a packet is stamped with a send time and filed in a
    calendar queue, and is given out in the order of (rounded) times.  The
    repository holds it twice, as a queueing discipline of the Linux kernel
    ([src/kernel]) and as a module of the BESS software switch
    ([src/bess/core/modules/flowbundler.cc]), beside the two shapers it is
    compared with, Carousel (a timing wheel) and Eiffel (buckets under a tree of
    bits).  The rest of [src/bess/core] is BESS, which calls the modules: a
    scheduler of traffic classes on each worker, the queues between tasks, and
    utilities.

    ** Parts of the program and files of the library

    Shared: this file (machine words, bit scanning, loops with fuel, lists).

    The kernel, [src/kernel]:
    - [Kernel.v]: [struct sk_buff] in a store with [next] pointers, the lists
      threaded through it, and the kernel functions the disciplines call, as the
      class [KernelApi] with its laws [KernelApiOk];
    - [Dfb.v] (definitions), [DfbCalendar.v] (the calendar), [DfbEdf.v] (the scan
      for the least deadline), [DfbSystem.v] (entry points and invariant) and
      [DfbProps.v] (theorems): [sch_dfb/sch_dfb.c], FlowBundler;
    - [KernelQueues.v], what the other two disciplines share; [KCarousel.v]:
      [sch_carousel/sch_carousel.c]; [KTree.v], the tree of counters, and
      [KEiffel.v]: [sch_eiffel/sch_eiffel.c].

    The shapers in BESS, [src/bess/core]:
    - [Ring.v] ([utils/circular-queue.h]), [Pool.v] ([utils/mempool-list.h]),
      [Buckets.v] and [Ledger.v] ([utils/list-bucket.h], [utils/hb-list-bucket.h]
      with [utils/easy-map.cc] and [utils/flow_rate_estimator.cc]): where packets
      are kept and what is counted for them.  [Buckets.v] declares the interface
      [BucketOps] with its laws [BucketLaws]; the shapers are proved against it;
    - [Shapers.v] (stamping and configuration, with [utils/PacketGenerator.cc]),
      [BitMaps.v] ([utils/flow.h]), [Carousel.v] ([modules/carousel.cc]),
      [Eiffel.v] ([modules/eiffel.cc]), [Bundler.v] and [BundlerProps.v]
      ([modules/flowbundler.cc]): the three shapers;
    - [Tasks.v]: [Init], [AddFlow] and [RunTask] of all three.

    BESS itself, [src/bess/core]:
    - [PrioQueue.v] ([utils/extended_priority_queue.h]), [TrafficClass.v]
      ([traffic_class.h], [traffic_class.cc]), [Scheduler.v] ([scheduler.h]),
      [TrafficWake.v] (the queue of classes that wait to be woken) and
      [TrafficProps.v]: which task runs next; [TreeBuild.v]: the trees of classes
      that these operations build;
    - [Llring.v] and [LlringShared.v] ([kmod/llring.h], alone and shared by
      threads), [QueueModule.v] ([modules/queue.cc]): queues between tasks;
    - [Drr.v] (definitions), [DrrTurns.v] (specification) and [DrrProps.v]
      (theorems): [modules/drr.cc], the module that serves flows in turn; it keeps
      its flows in a table through the interface [FlowTable], which the hash table
      of [Cuckoo.v] implements;
    - [Gates.v] (definitions) and [GateProps.v] (theorems): the graph of modules,
      its gates and the hooks on them ([gate.h], [gate.cc], [module.cc],
      [module_graph.cc]);
    - [Dataplane.v] (definitions) and [DataplaneProps.v] (theorems): a run of a
      task over that graph ([task.h], [task.cc], [pktbatch.h], the gates of
      [module.h]); what modules do with packets is an argument, and the queue of
      input gates is that of [PrioQueue.v];
    - [TaskGraph.v] (definitions) and [TaskGraphProps.v] (theorems): what runs of
      tasks need to know of the graph, updated when workers resume
      ([module_graph.cc]);
    - [Metadata.v] (definitions), [MetaOffsets.v] (assignment of offsets),
      [MetaScopes.v] and [MetaCover.v] (the traversals: that they end and what they
      add, and what they do not leave out) and [MetaProps.v] (theorem): the places of
      metadata attributes in a packet ([metadata.h], [metadata.cc]), computed from
      the graph of [Gates.v];
    - [L2Forward.v] (definitions) and [L2Props.v] (theorems):
      [modules/l2_forward.cc], the module that forwards by MAC address; its table
      has buckets of one, two or four slots;
    - [NatModule.v] (definitions), [NatPackets.v] (packets and checksums) and
      [NatProps.v] (the table): [modules/nat.cc], the module that translates
      addresses; it keeps its endpoints in a table through the interface
      [NatTable], which [Cuckoo.v] implements too;
    - utilities: [Addresses.v] ([utils/ip.cc], [ip.h], masks of [bits.h] and byte
      order of [endian.h]), [Checksum.v] ([utils/checksum.h]), [Cuckoo.v]
      ([utils/cuckoo_map.h]), [Trie.v] ([utils/trie.h]).

    ** How they interact

    A worker runs rounds of the scheduler ([Scheduler.v]); a round picks a leaf
    of the tree of classes and runs its task, whose result (packets, bits,
    blocked or not) goes back up the tree.  The task of a shaper ([Tasks.v])
    makes packets, enqueues them in the shaper and sends what the shaper's
    [Dequeue] gives; the shaper keeps packets in buckets, which take their nodes
    from a pool and tell the flows that may send again through a ring.  In the
    kernel the networking core calls [enqueue] and [dequeue] of the discipline
    and, when a super-packet cannot be sent whole, the discipline cuts it with
    [skb_gso_segment].  Each arrow of that chain is either a call of the callee's
    definition or of an interface (a class with laws, or an argument) that the
    callee's file discharges.

    ** Reading the models

    A function of the source is a definition of the same name where possible;
    state is a record passed in and out, an object reached through a pointer is
    an entry of a store (a finite map or a function from addresses), and [None]
    is a fault of the code (bad pointer, index, shift or division, or a loop
    that does not end), as the head of each file says.  Machine integers are [Z]
    (in [Checksum.v] [N]) with the wrap-around written where the type wraps;
    [double] is [SpecFloat.spec_float] with 53 bits.  What the code obtains from
    outside of [src] is an argument: clocks, allocation, devices, kernel
    functions, hash functions.

    ** What the theorems show

    - Release in order: [DfbProps.dequeue_edf], [enqueue_files] and
      [drain_sorted] for the kernel, [BundlerProps.bundler_dequeue] and
      [bundler_insert] for the module: the calendars with many widths of slot are
      stable priority queues on deadlines, although no packet is ever moved from
      one width to another.  [Carousel.carousel_dequeue], [Eiffel.eiffel_dequeue],
      [KCarousel.wheel_dequeue], [KEiffel.gradient_dequeue] and their enqueue
      counterparts state what the baselines do, each against an array of
      unbounded extent.
    - No fault and no loss over histories: [DfbProps.history_no_fault],
      [history_holds].
    - Choice of tasks: [TrafficProps.default_round], [experimental_round] (a round
      keeps the invariant of the tree and runs the task that the policies on the
      way to it choose), [rate_bound] (a rate limit is kept).  What a round asks of
      the tree holds in every tree that can be built: [TreeBuild.classes_well_formed].
    - Containers refine their specification: [Llring.llring_fifo],
      [Cuckoo.cuckoo_insert] and [cuckoo_lookup_remove], [Ring.ring_roundtrip],
      [PrioQueue.heap_operations], [BitMaps.bitmap_set_free],
      [QueueModule.queue_transfers]; and under concurrency
      [LlringShared.shared_fifo].
    - Optimised routines equal references: [Checksum.checksum_reference],
      [Trie.trie_search], [LlringShared.shared_alone]; round trips:
      [Trie.trie_dump], [Ring.ring_roundtrip].
    - Termination and fairness of deficit round robin: [DrrProps.drr_batch],
      [drr_arrivals], [drr_fair].
    - The graph of modules: [GateProps.gates_refine] (the linked gates are a finite
      set of edges, and the operations change just those they should);
      [MetaProps.metadata_computed] (the search for scope components ends in any
      graph, and the offsets are as the modules rely on, with the condition under
      which they cannot overlap).
    - Forwarding: [L2Props.l2_table_refines] (with one or two slots a bucket the
      table is a finite map, of which an insertion may lose an entry); the corners
      of the default of four slots are [L2Props.find_four],
      [L2Props.second_slot_unseen] and [L2Props.entry_lost].
    - Translation: [NatProps.nat_batch] (the table pairs internal and external
      endpoints, and mappings in use stay), [NatProps.nat_reply] (replies find the
      way back), [NatPackets.nat_checksums] (checksums stay valid); corners are in
      [NatProps.nat_corners]; [NatProps.nat_init_ok] and [NatProps.initial_arg] are
      about the configuration.  Addresses as text are read as they were written
      ([Addresses.parse_print], [Addresses.prefix_ok]).
    - Runs of tasks: [DataplaneProps.run_conserves] (with hooks on all output gates
      no packet is lost or doubled, and without cycles the run ends);
      [DataplaneProps.packets_lost] and [DataplaneProps.pool_used_up] are runs that
      go wrong.
    - [TaskGraphProps.task_graph_updated]: parents of tasks, priorities and places
      of gates; the places are as [DataplaneProps.run_conserves] wants them
      ([DataplaneProps.indexed], [TaskGraphProps.indexed_mono],
      [TaskGraphProps.room_rest]).
    - Faults of the code itself are proved too, as theorems about particular runs
      or corners ([DfbProps], [Cuckoo.cuckoo_corners],
      [LlringShared.empty_enqueue_hangs], [QueueModule.queue_stays_overloaded] and
      others): the manifest lists them as findings.

    ** Bounds and fuel

    Loops whose exit is not structural are [iter_until fuel64], at most 2^64
    steps: more than any counter of the code can take, and every theorem that
    states a result shows that the loop ends with it, so fuel never hides a
    loop that goes on.  [iter_until] is computed by halving, so that loops run
    inside the kernel.  The recursions of [TrafficClass.v] towards the root take
    fuel, and the invariant bounds the depth by the number of classes.
    [Cuckoo.DoEmplace] rehashes recursively, to tables twice as large each; when
    too many keys share their buckets under the hash function the code never
    ends, so the depth [n] is an argument; [Cuckoo.cuckoo_insert] says when no
    table is nested, and that more depth does not change an answer.  In [LlringShared.v] a thread
    that sleeps while 2^32 objects go through the ring can be fooled by its
    compare-and-swap; the hypothesis [timely] excludes such runs, and says so in
    terms of counters that do not wrap.
    [Drr.v] bounds the length of a queue by 2^27, beyond which the size of the
    ring in bytes overflows an [int] in the code.
    The traversals of [Metadata.v] take fuel; three times the number of modules is
    enough ([MetaScopes.identify_single_ok]).  Components are numbered with 16
    bits, hence the bound of 2,047 modules.
    Tables of [L2Forward.v] have at most 2^26 buckets ([MAX_TABLE_SIZE]), and the
    theorem wants two at least: one bucket makes the code shift by -1
    ([L2Props.one_bucket_undefined]).
    The search for a port in [NatModule.v] is bounded by the code, 128 trials; its
    random numbers are exact for ranges below 2^52 ([NatProps.GetRange_lt]), ports
    have 16 bits.
    The loop of [Dataplane.v] takes fuel, a unit for each batch; every batch is
    either passed on to a lower layer of the graph or one of the 256 of the pool,
    so [257 * (M + 2)] is enough for [M + 1] layers.

    ** Not modelled

    - Device and operating system work: ports and drivers ([port.cc],
      [drivers]), packet memory ([packet.cc], [packet_pool.cc], [dpdk.cc]), the
      kernel module of virtual ports ([kmod/sn_*.c]), the daemon and its gRPC
      services ([bessctl.cc], [bessd.cc]), threads and events ([worker.cc]): calls
      of the system, of DPDK and of generated message classes, with little state
      of their own.
    - Third-party code: [utils/bpf.cc], [utils/http_parser.cc].
    - Forwarding modules that come with BESS and that FlowBundler does not use,
      other than those above.
    - [sch_eiffel/sch_gq_origin.c], an earlier version that is not built.
    - In modelled files: code compiled out ([DFB_DEBUG], [DFB_PROFILE]), netlink
      dumps, destructors that only free memory, registration with the kernel or
      with BESS, and text made for the user. *)

From Stdlib Require Export ZArith Lia.
From stdpp Require Export base numbers gmap functions option.
From stdpp Require Export list.

#[global] Open Scope Z_scope.

(** ** Machine integers

    A [w]-bit unsigned value is a [Z] in [0, 2^w); every operation that can
    leave the range is wrapped where the code's type wraps it. *)

Definition wrap (w x : Z) : Z := x mod 2 ^ w.

Abbreviation u8 := (wrap 8).
Abbreviation u16 := (wrap 16).
Abbreviation u32 := (wrap 32).
Abbreviation u64 := (wrap 64).

(** Two's complement reading of the low [w] bits: the conversion to [int]
    ([w = 32]) or [long] ([w = 64]). *)
Definition to_signed (w x : Z) : Z :=
  let y := wrap w x in if y <? 2 ^ (w - 1) then y else y - 2 ^ w.

Definition b2z (b : bool) : Z := if b then 1 else 0.

(** ** Bit scanning

    [ctz x] is the number of trailing zero bits of [x > 0]; [bitlen x] the
    number of significant bits.  They are the reference functions to which the
    bit-scan primitives of the compiler and of the kernel are related. *)

Fixpoint pos_ctz (p : positive) : Z :=
  match p with
  | xO q => 1 + pos_ctz q
  | _ => 0
  end.

Definition ctz (x : Z) : Z :=
  match x with
  | Zpos p => pos_ctz p
  | _ => 0
  end.

Definition bitlen (x : Z) : Z := if x <=? 0 then 0 else Z.log2 x + 1.

(** The gcc built-ins used by the user space code: [__builtin_ffsll] and
    [__builtin_clzll].  The latter is undefined at 0, which is [None] here. *)
Definition builtin_ffsll (x : Z) : Z := if wrap 64 x =? 0 then 0 else ctz (wrap 64 x) + 1.

Definition builtin_clzll (x : Z) : option Z :=
  if wrap 64 x =? 0 then None else Some (64 - bitlen (wrap 64 x)).

(** Clearing bit [i] of a 64-bit word: [w &= ~(1L << i)]. *)
Definition clear_bit (bm i : Z) : Z := Z.land bm (Z.lxor (2 ^ 64 - 1) (Z.shiftl 1 i)).

(** ** Loops

    [iter_until fuel f s] runs the loop body [f] from [s] until it answers
    [inr], at most [fuel] times.  The fuel is a binary number and the recursion
    on it is logarithmic in depth, so that a bound such as [2^64] costs nothing
    when the loop exits early. *)

Fixpoint iter_until {S R : Type} (fuel : positive) (f : S -> S + R) (s : S) : S + R :=
  match fuel with
  | xH => f s
  | xO p =>
      match iter_until p f s with
      | inl s' => iter_until p f s'
      | inr r => inr r
      end
  | xI p =>
      match f s with
      | inl s1 =>
          match iter_until p f s1 with
          | inl s' => iter_until p f s'
          | inr r => inr r
          end
      | inr r => inr r
      end
  end.

(** Fuel for a loop whose counter is a 64-bit word. *)
Definition fuel64 : positive := (2 ^ 64)%positive.

(** ** Sums over a range of indices *)

Fixpoint sum_upto (n : nat) (f : Z -> Z) : Z :=
  match n with
  | O => 0
  | S k => sum_upto k f + f (Z.of_nat k)
  end.

(** * Lemmas *)

(** Linear arithmetic with division and remainder by constants. *)
Ltac dlia := Z.to_euclidean_division_equations; lia.

Create HintDb words discriminated.

(** ** Wrapping *)

Lemma wrap_range w x : 0 <= w -> 0 <= wrap w x < 2 ^ w.
Proof. intros; unfold wrap; apply Z.mod_pos_bound; lia. Qed.

Lemma wrap_small w x : 0 <= x < 2 ^ w -> wrap w x = x.
Proof. intros; unfold wrap; by apply Z.mod_small. Qed.

Lemma wrap_wrap w x : 0 <= w -> wrap w (wrap w x) = wrap w x.
Proof. intros; apply wrap_small, wrap_range; lia. Qed.

#[export] Hint Resolve wrap_range wrap_small : words.

(** ** Powers of two *)

Lemma pow2_pos n : 0 <= n -> 0 < 2 ^ n.
Proof. intros; apply Z.pow_pos_nonneg; lia. Qed.

Lemma pow2_mono a b : 0 <= a <= b -> 2 ^ a <= 2 ^ b.
Proof. intros; apply Z.pow_le_mono_r; lia. Qed.

Lemma pow2_split a b : 0 <= a <= b -> 2 ^ b = 2 ^ a * 2 ^ (b - a).
Proof. intros; rewrite <- Z.pow_add_r by lia; f_equal; lia. Qed.

Lemma pow2_divide a b : 0 <= a <= b -> (2 ^ a | 2 ^ b).
Proof. intros; rewrite (pow2_split a b) by lia; by apply Z.divide_factor_l. Qed.

#[export] Hint Resolve pow2_pos pow2_mono : words.

(** [mask_low x k]: [x & (~0 << k)] rounds [x] down to a multiple of [2^k]. *)
Lemma div_mul_le x m : 0 < m -> m * (x / m) <= x < m * (x / m) + m.
Proof.
  intros Hm. pose proof (Z.mod_pos_bound x m Hm). pose proof (Z.div_mod x m ltac:(lia)). lia.
Qed.

Lemma divide_gap m a b : 0 < m -> (m | a) -> (m | b) -> a < b -> a + m <= b.
Proof.
  intros Hm [x ->] [y ->] Hlt. assert (x < y) by (apply (Z.mul_lt_mono_pos_r m); lia).
  replace (x * m + m) with ((x + 1) * m) by ring. apply Z.mul_le_mono_nonneg_r; lia.
Qed.

Lemma shiftr_pow2 x k : 0 <= k -> Z.shiftr x k = x / 2 ^ k.
Proof. intros; by apply Z.shiftr_div_pow2. Qed.

Lemma shiftl_pow2 x k : 0 <= k -> Z.shiftl x k = x * 2 ^ k.
Proof. intros; by apply Z.shiftl_mul_pow2. Qed.

Lemma land_ones_mod x k : 0 <= k -> Z.land x (2 ^ k - 1) = x mod 2 ^ k.
Proof. intros; rewrite <- Z.land_ones, Z.ones_equiv by lia; f_equal; lia. Qed.

(** Masking stays in range. *)
Lemma land_range x y k : 0 <= k -> 0 <= x < 2 ^ k -> 0 <= Z.land x y < 2 ^ k.
Proof.
  intros Hk Hx. assert (E : Z.land x y = wrap k (Z.land x y)).
  { unfold wrap. rewrite <- Z.land_ones, <- Z.land_assoc, (Z.land_comm y), Z.land_assoc by lia.
    by rewrite Z.land_ones, Z.mod_small by lia. }
  rewrite E. by apply wrap_range.
Qed.

(** Rounding down with a mask of high ones. *)
Lemma land_high_ones x k w :
  0 <= k -> 0 <= x < 2 ^ w -> k <= w ->
  Z.land x (wrap w (Z.shiftl (2 ^ w - 1) k)) = 2 ^ k * (x / 2 ^ k).
Proof.
  intros Hk Hx Hw. rewrite (Z.mul_comm (2 ^ k)), <- Z.shiftr_div_pow2, <- Z.shiftl_mul_pow2 by lia.
  replace (2 ^ w - 1) with (Z.ones w) by (rewrite Z.ones_equiv; lia).
  unfold wrap. rewrite <- Z.land_ones by lia. apply Z.bits_inj'. intros n Hn.
  rewrite !Z.land_spec. rewrite !Z.shiftl_spec by lia.
  destruct (Z_lt_le_dec n w).
  - rewrite (Z.ones_spec_low w n) by lia. rewrite andb_true_r.
    destruct (Z_lt_le_dec n k).
    + rewrite (Z.testbit_neg_r (Z.ones w)), (Z.testbit_neg_r (Z.shiftr x k)) by lia.
      by rewrite andb_false_r.
    + rewrite Z.ones_spec_low, Z.shiftr_spec, andb_true_r by lia. f_equal. lia.
  - rewrite (Z.ones_spec_high w n), !andb_false_r by lia. symmetry.
    rewrite Z.shiftr_spec by lia. replace (n - k + k) with n by lia.
    destruct (decide (x = 0)) as [->|]; [by rewrite Z.bits_0|].
    apply Z.bits_above_log2; [lia|]. pose proof (Z.log2_lt_pow2 x w). lia.
Qed.

(** ** Trailing zeros *)

Lemma pos_ctz_nonneg p : 0 <= pos_ctz p.
Proof. induction p; simpl; lia. Qed.

Lemma ctz_nonneg x : 0 <= ctz x.
Proof. destruct x; simpl; try lia; apply pos_ctz_nonneg. Qed.

#[export] Hint Resolve ctz_nonneg : words.

Lemma pos_ctz_spec p : exists m, Zpos p = (2 * m + 1) * 2 ^ pos_ctz p /\ 0 <= m.
Proof.
  induction p as [p IH|p IH|]; simpl.
  - exists (Zpos p); lia.
  - destruct IH as (m & Hm & ?). exists m. split; [|lia].
    rewrite Z.pow_add_r by (pose proof (pos_ctz_nonneg p); lia).
    change (Zpos p~0) with (2 * Zpos p). lia.
  - exists 0; lia.
Qed.

(** A positive number is an odd number shifted left by [ctz]. *)
Lemma ctz_spec x : 0 < x -> exists m, x = (2 * m + 1) * 2 ^ ctz x /\ 0 <= m.
Proof. destruct x; try lia. intros _. apply pos_ctz_spec. Qed.

Lemma ctz_odd_shift m k : 0 <= m -> 0 <= k -> ctz ((2 * m + 1) * 2 ^ k) = k.
Proof.
  intros Hm Hk. pattern k. apply natlike_ind; [| |lia].
  - rewrite Z.mul_1_r. destruct m; simpl; try lia; reflexivity.
  - intros j Hj IH. rewrite Z.pow_succ_r by lia.
    replace ((2 * m + 1) * (2 * 2 ^ j)) with (2 * ((2 * m + 1) * 2 ^ j)) by ring.
    destruct ((2 * m + 1) * 2 ^ j) as [|p|p] eqn:E.
    + pose proof (pow2_pos j Hj); nia.
    + change (1 + ctz (Zpos p) = Z.succ j). lia.
    + pose proof (pow2_pos j Hj); nia.
Qed.

(** [ctz] is characterised by its decomposition. *)
Lemma ctz_unique x m k : 0 <= m -> 0 <= k -> x = (2 * m + 1) * 2 ^ k -> ctz x = k.
Proof. intros ? ? ->. by apply ctz_odd_shift. Qed.

Lemma ctz_mul_pow2 x k : 0 < x -> 0 <= k -> ctz (x * 2 ^ k) = ctz x + k.
Proof.
  intros Hx Hk. destruct (ctz_spec x Hx) as (m & E & Hm). pose proof (ctz_nonneg x).
  apply (ctz_unique _ m); [lia|lia|].
  rewrite Z.pow_add_r by auto with words. rewrite E at 1. ring.
Qed.

Lemma ctz_divide x : 0 < x -> (2 ^ ctz x | x).
Proof. intros Hx. destruct (ctz_spec x Hx) as (m & E & _). by exists (2 * m + 1). Qed.

Lemma ctz_le_pow2 x : 0 < x -> 2 ^ ctz x <= x.
Proof. intros Hx. apply Z.divide_pos_le; auto using ctz_divide. Qed.

Lemma divide_ctz x k : 0 < x -> 0 <= k -> (2 ^ k | x) -> k <= ctz x.
Proof.
  intros Hx Hk [y E]. subst x. pose proof (pow2_pos k Hk).
  assert (0 < y) by (apply (Z.mul_pos_cancel_r _ (2 ^ k)); lia).
  rewrite ctz_mul_pow2 by lia. pose proof (ctz_nonneg y); lia.
Qed.

Lemma ctz_lt x k : 0 < x < 2 ^ k -> ctz x < k.
Proof.
  intros [Hx Hk]. pose proof (ctz_le_pow2 x Hx). pose proof (ctz_nonneg x).
  destruct (Z_lt_le_dec (ctz x) k) as [|Hge]; auto.
  destruct (Z_lt_le_dec k 0); [rewrite Z.pow_neg_r in Hk by lia; lia|].
  pose proof (pow2_mono k (ctz x)); lia.
Qed.

(** Dividing by [2^ctz] leaves an odd number. *)
Lemma ctz_div_odd x : 0 < x -> Z.odd (x / 2 ^ ctz x) = true.
Proof.
  intros Hx. destruct (ctz_spec x Hx) as (m & E & _). rewrite E at 1.
  rewrite Z.div_mul by (pose proof (pow2_pos (ctz x)); pose proof (ctz_nonneg x); lia).
  by rewrite Z.odd_add, Z.odd_mul.
Qed.

Lemma testbit_ctz x : 0 < x -> Z.testbit x (ctz x) = true.
Proof.
  intros Hx. pose proof (ctz_div_odd x Hx) as Ho. pose proof (ctz_nonneg x).
  rewrite <- Z.bit0_odd, <- Z.shiftr_div_pow2, Z.shiftr_spec in Ho by lia. by rewrite Z.add_0_l in Ho.
Qed.

Lemma testbit_below_ctz x i : 0 < x -> 0 <= i < ctz x -> Z.testbit x i = false.
Proof.
  intros Hx Hi. destruct (ctz_spec x Hx) as (m & E & _). rewrite E.
  by rewrite Z.mul_pow2_bits_low by lia.
Qed.

(** A set bit with no set bit below it is at index [ctz]. *)
Lemma ctz_least_bit x k :
  0 < x -> 0 <= k -> Z.testbit x k = true ->
  (forall i, 0 <= i < k -> Z.testbit x i = false) -> k = ctz x.
Proof.
  intros Hx Hk Hb Hlow. pose proof (ctz_nonneg x).
  destruct (Z.lt_trichotomy k (ctz x)) as [H1|[H1|H1]]; auto.
  - rewrite testbit_below_ctz in Hb by lia; discriminate.
  - pose proof (testbit_ctz x Hx) as E. rewrite Hlow in E by lia. discriminate.
Qed.

(** ** Bit length *)

Lemma bitlen_pos x : 0 < x -> bitlen x = Z.log2 x + 1.
Proof. intros; unfold bitlen. destruct (Z.leb_spec x 0); lia. Qed.

Lemma bitlen_nonneg x : 0 <= bitlen x.
Proof. unfold bitlen. destruct (Z.leb_spec x 0); [lia|]. pose proof (Z.log2_nonneg x); lia. Qed.

Lemma bitlen_bounds x : 0 < x -> 2 ^ (bitlen x - 1) <= x < 2 ^ bitlen x.
Proof.
  intros Hx. rewrite bitlen_pos by lia. replace (Z.log2 x + 1 - 1) with (Z.log2 x) by lia.
  pose proof (Z.log2_spec x Hx). by rewrite <- Z.add_1_r in *.
Qed.

Lemma bitlen_mono x y : x <= y -> bitlen x <= bitlen y.
Proof.
  intros. unfold bitlen. pose proof (Z.log2_nonneg y).
  destruct (Z.leb_spec x 0), (Z.leb_spec y 0); try lia.
  pose proof (Z.log2_le_mono x y); lia.
Qed.

Lemma bitlen_unique x k : 0 < k -> 2 ^ (k - 1) <= x < 2 ^ k -> bitlen x = k.
Proof.
  intros Hk Hb. pose proof (pow2_pos (k - 1)).
  rewrite bitlen_pos by lia. rewrite (Z.log2_unique x (k - 1)); [lia|lia|].
  by replace (Z.succ (k - 1)) with k by lia.
Qed.

Lemma bitlen_le x k : 0 <= k -> x < 2 ^ k -> bitlen x <= k.
Proof.
  intros Hk Hx. unfold bitlen. destruct (Z.leb_spec x 0); [lia|].
  pose proof (Z.log2_lt_pow2 x k). lia.
Qed.

Lemma builtin_ffsll_pos x : 0 < x < 2 ^ 64 -> builtin_ffsll x = ctz x + 1.
Proof.
  intros. unfold builtin_ffsll. rewrite wrap_small by lia. destruct (Z.eqb_spec x 0); lia.
Qed.

Lemma builtin_clzll_pos x : 0 < x < 2 ^ 64 -> builtin_clzll x = Some (64 - bitlen x).
Proof.
  intros. unfold builtin_clzll. rewrite wrap_small by lia. destruct (Z.eqb_spec x 0); [lia|done].
Qed.

(** ** Setting and clearing a bit *)

Lemma bitmap_set bm i j :
  0 <= i -> 0 <= j -> Z.testbit (Z.lor bm (Z.shiftl 1 i)) j = Z.testbit bm j || (i =? j).
Proof.
  intros. rewrite Z.lor_spec, Z.shiftl_1_l. f_equal. apply Z.pow2_bits_eqb. lia.
Qed.

Lemma bitmap_set_range bm i : 0 <= bm < 2 ^ 64 -> 0 <= i < 64 -> 0 <= Z.lor bm (Z.shiftl 1 i) < 2 ^ 64.
Proof.
  intros Hb Hi. rewrite Z.shiftl_1_l. pose proof (pow2_pos i).
  assert (0 <= Z.lor bm (2 ^ i)) by (apply Z.lor_nonneg; lia). split; [done|].
  destruct (decide (Z.lor bm (2 ^ i) = 0)) as [->|]; [lia|].
  apply Z.log2_lt_pow2; [lia|]. rewrite Z.log2_lor, Z.log2_pow2 by lia.
  assert (Z.log2 bm < 64); [|lia].
  destruct (decide (bm = 0)) as [->|]; [done|]. apply Z.log2_lt_pow2; lia.
Qed.

Lemma clear_bit_spec bm i j :
  0 <= i < 64 -> 0 <= j < 64 -> Z.testbit (clear_bit bm i) j = Z.testbit bm j && negb (i =? j).
Proof.
  intros Hi Hj. unfold clear_bit. rewrite Z.land_spec, Z.lxor_spec, Z.shiftl_1_l.
  rewrite Z.pow2_bits_eqb by lia. change (2 ^ 64 - 1) with (Z.ones 64).
  rewrite Z.ones_spec_low by lia. by destruct (i =? j), (Z.testbit bm j).
Qed.

Lemma clear_bit_range bm i : 0 <= bm < 2 ^ 64 -> 0 <= clear_bit bm i < 2 ^ 64.
Proof. apply land_range; lia. Qed.

(** ** Loops *)

Fixpoint iter_nat {S R : Type} (n : nat) (f : S -> S + R) (s : S) : S + R :=
  match n with
  | O => inl s
  | Datatypes.S k => match f s with inl s' => iter_nat k f s' | inr r => inr r end
  end.

Lemma iter_nat_add {S R : Type} n m (f : S -> S + R) s :
  iter_nat (n + m) f s =
  match iter_nat n f s with inl s' => iter_nat m f s' | inr r => inr r end.
Proof. revert s. induction n as [|n IH]; intros s; simpl; auto. destruct (f s); auto. Qed.

Lemma iter_until_nat {S R : Type} p (f : S -> S + R) s :
  iter_until p f s = iter_nat (Pos.to_nat p) f s.
Proof.
  revert s. induction p as [p IH|p IH|]; intros s; simpl iter_until.
  - replace (Pos.to_nat p~1) with (1 + (Pos.to_nat p + Pos.to_nat p))%nat by lia.
    simpl. destruct (f s) as [s1|]; auto. rewrite iter_nat_add, IH.
    destruct (iter_nat _ f s1); auto.
  - replace (Pos.to_nat p~0) with (Pos.to_nat p + Pos.to_nat p)%nat by lia.
    rewrite iter_nat_add, IH. destruct (iter_nat _ f s); auto.
  - simpl. destruct (f s); auto.
Qed.

(** Total correctness of a loop: an invariant [P], a decreasing bound [m] that
    the fuel exceeds, and a postcondition [Q] established by every exit. *)
Lemma iter_until_now {S R : Type} p (f : S -> S + R) s r : f s = inr r -> iter_until p f s = inr r.
Proof. intros E. by induction p; simpl; rewrite ?IHp, ?E. Qed.

(** Rewriting under a bind, where conversion might run a loop. *)
Lemma bind_some {T U} (f : T -> option U) x : (Some x ≫= f) = f x.
Proof. done. Qed.

Lemma iter_until_total {S R : Type} (P : S -> Prop) (Q : R -> Prop) (m : S -> Z)
    fuel (f : S -> S + R) s :
  (forall s, P s ->
    match f s with
    | inl s' => P s' /\ 0 <= m s' < m s
    | inr r => Q r
    end) ->
  P s -> m s < Zpos fuel ->
  exists r, iter_until fuel f s = inr r /\ Q r.
Proof.
  intros Hf HP Hm. rewrite iter_until_nat.
  assert (Hn : m s < Z.of_nat (Pos.to_nat fuel)) by lia. clear Hm.
  remember (Pos.to_nat fuel) as n eqn:En.
  assert (Hpos : (0 < n)%nat) by lia. clear En. revert s HP Hn.
  induction n as [|n IH]; intros s HP Hn; [lia|]. simpl.
  specialize (Hf s HP). destruct (f s) as [s'|r]; [|eauto].
  destruct Hf as (HP' & H0 & Hlt). destruct n as [|n]; [lia|]. apply IH; auto; lia.
Qed.

(** Partial correctness, when the loop is known to have exited. *)
Lemma iter_until_inv {S R : Type} (P : S -> Prop) (Q : R -> Prop) fuel (f : S -> S + R) s r :
  (forall s, P s -> match f s with inl s' => P s' | inr r => Q r end) ->
  P s -> iter_until fuel f s = inr r -> Q r.
Proof.
  intros Hf HP. rewrite iter_until_nat. generalize (Pos.to_nat fuel). intros n.
  revert s HP. induction n as [|n IH]; intros s HP E; simpl in *; [done|].
  specialize (Hf s HP). destruct (f s); [eauto|by simplify_eq].
Qed.

(** ** Sums *)

Lemma sum_upto_ext n f g : (forall i, 0 <= i < Z.of_nat n -> f i = g i) -> sum_upto n f = sum_upto n g.
Proof. induction n; intros H; simpl; auto. rewrite IHn, H; auto; intros; try apply H; lia. Qed.

Lemma sum_upto_nonneg n f : (forall i, 0 <= f i) -> 0 <= sum_upto n f.
Proof. intros H. induction n; simpl; [lia|]. specialize (H (Z.of_nat n)); lia. Qed.

(** ** Lists *)

(** The first element of a filtered list, and where it sits in the list. *)
Lemma filter_first {A} (P : A -> Prop) `{!forall x, Decision (P x)} (l : list A) x k :
  filter P l = x :: k ->
  exists l1 l2, l = l1 ++ x :: l2 /\ filter P l1 = [] /\ filter P l2 = k /\ P x.
Proof.
  induction l as [|y l IH]; [done|]. rewrite filter_cons. case_decide.
  - intros [= <- <-]. exists [], l. auto.
  - intros E. destruct (IH E) as (l1 & l2 & -> & ? & ? & ?).
    exists (y :: l1), l2. rewrite filter_cons, decide_False by done. auto.
Qed.

Lemma filter_nil_not {A} (P : A -> Prop) `{!forall x, Decision (P x)} (l : list A) x :
  filter P l = [] -> x ∈ l -> ~ P x.
Proof.
  intros E Hx Px. assert (x ∈ filter P l) by (by apply list_elem_of_filter). rewrite E in *. set_solver.
Qed.

Lemma filter_ext_in {A} (P Q : A -> Prop) `{!forall x, Decision (P x)} `{!forall x, Decision (Q x)}
    (l : list A) :
  (forall x, x ∈ l -> P x <-> Q x) -> filter P l = filter Q l.
Proof.
  induction l as [|y l IH]; intros Hx; [done|]. rewrite !filter_cons.
  rewrite IH by (intros; apply Hx; by constructor).
  specialize (Hx y ltac:(constructor)). repeat case_decide; tauto.
Qed.

(** Updating one entry of an array. *)
Lemma fn_insert_eq {A B} `{EqDecision A} (f : A -> B) i v : <[i := v]> f i = v.
Proof. apply fn_lookup_insert. Qed.

Lemma fn_insert_ne {A B} `{EqDecision A} (f : A -> B) i j v : i <> j -> <[i := v]> f j = f j.
Proof. apply fn_lookup_insert_ne. Qed.

Lemma insert_same {I T} `{EqDecision I} (f : I -> T) i j : <[i := f i]> f j = f j.
Proof. destruct (decide (i = j)) as [->|]; [by rewrite fn_insert_eq|by rewrite fn_insert_ne]. Qed.

Lemma insert_again {I T} `{EqDecision I} (f : I -> T) i j u v : <[i := u]> (<[i := v]> f) j = <[i := u]> f j.
Proof. destruct (decide (i = j)) as [->|]; [by rewrite !fn_insert_eq|by rewrite !fn_insert_ne]. Qed.

(** Sum of an array after one entry changes. *)
Lemma sum_upto_insert n f i v :
  0 <= i < Z.of_nat n -> sum_upto n (<[i := v]> f) = sum_upto n f - f i + v.
Proof.
  intros Hi. induction n as [|n IH]; [lia|]. simpl.
  destruct (Z.eq_dec i (Z.of_nat n)) as [->|].
  - rewrite fn_insert_eq. rewrite (sum_upto_ext n (<[Z.of_nat n := v]> f) f); [lia|].
    intros j Hj. apply fn_insert_ne. lia.
  - rewrite IH, fn_insert_ne by lia. lia.
Qed.

Lemma sum_upto_bounds n f lo hi :
  (forall i, 0 <= i < Z.of_nat n -> lo <= f i <= hi) ->
  lo * Z.of_nat n <= sum_upto n f <= hi * Z.of_nat n.
Proof.
  intros Hf. induction n as [|n IH]; simpl; [lia|].
  specialize (IH ltac:(intros; apply Hf; lia)). specialize (Hf (Z.of_nat n) ltac:(lia)). lia.
Qed.

Lemma sum_upto_nonzero n f : sum_upto n f <> 0 -> exists i, 0 <= i < Z.of_nat n /\ f i <> 0.
Proof.
  induction n as [|n IH]; simpl; [done|]. intros Hs.
  destruct (decide (f (Z.of_nat n) = 0)) as [E|]; [|exists (Z.of_nat n); lia].
  destruct IH as (i & Hi & ?); [lia|]. exists i. lia.
Qed.

Lemma sum_upto_elem n f i :
  (forall j, 0 <= j < Z.of_nat n -> 0 <= f j) -> 0 <= i < Z.of_nat n -> 0 <= f i <= sum_upto n f.
Proof.
  intros Hf Hi. induction n as [|n IH]; simpl; [lia|].
  assert (Hn : 0 <= f (Z.of_nat n)) by (apply Hf; lia).
  assert (Hs : 0 <= sum_upto n f).
  { rewrite (sum_upto_ext n f (fun j => Z.max 0 (f j))).
    - apply sum_upto_nonneg. lia.
    - intros j Hj. specialize (Hf j ltac:(lia)). lia. }
  destruct (decide (i = Z.of_nat n)) as [->|]; [lia|].
  specialize (IH ltac:(intros; apply Hf; lia) ltac:(lia)). lia.
Qed.

Lemma filter_all {A} (P : A -> Prop) `{!forall x, Decision (P x)} (l : list A) :
  (forall x, x ∈ l -> P x) -> filter P l = l.
Proof.
  induction l as [|x l IH]; intros Hl; [done|].
  rewrite filter_cons_True by (apply Hl; by constructor). f_equal. apply IH.
  intros y Hy. apply Hl. by constructor.
Qed.

Lemma size_of_list `{Countable A} (l : list A) : (size (list_to_set l : gset A) <= length l)%nat.
Proof.
  induction l as [|x l IH]; [done|]. simpl. rewrite size_union_alt, size_singleton.
  pose proof (subseteq_size (list_to_set l ∖ {[x]} : gset A) (list_to_set l) ltac:(set_solver)). lia.
Qed.
