(* ===== verification/Kernel.v ===== *)
(** * The kernel objects shared by the three queueing disciplines

    [sch_dfb.c], [sch_carousel.c] and [sch_eiffel.c] all keep packets in
    singly linked lists threaded through [sk_buff.next].  This file holds the
    packet store (a finite map from addresses to packets, so that the links are
    pointers and sharing is visible), the head/tail list operations written by
    the three disciplines, and the interface to the kernel functions they call
    (class [KernelApi], laws in [KernelApiOk]).  The representation predicate
    [list_rep] relates a head/tail pair in a store to the list of addresses it
    holds. *)

From S2P Require Import Prelude.

(** ** Packets and sockets *)

Definition addr := positive.
(** A pointer: [None] is [NULL]. *)
Definition ptr := option addr.

Record iphdr := Iphdr { saddr : Z; daddr : Z; version : Z; protocol : Z }.
Record tcphdr := Tcphdr { source : Z; dest : Z; fin : bool; rst : bool }.

(** The fields of [struct sk_buff] that the disciplines read or write.  [iph]
    and [tcph] are what [ip_hdr] and [tcp_hdr] return ([None] for [NULL]);
    [is_gso] is [skb_is_gso]; [hdr_off] and [tcp_hdrlen] are what
    [skb_transport_offset] and [tcp_hdrlen] return; [pkt_len] is the field of
    [qdisc_skb_cb]. *)
Record sk_buff := SkBuff {
  next : ptr;
  skb_mstamp_ns : Z;
  len : Z;
  pkt_len : Z;
  sk : ptr;
  iph : option iphdr;
  tcph : option tcphdr;
  is_gso : bool;
  hdr_off : Z;
  tcp_hdrlen : Z
}.

Record sock := Sock {
  sk_pacing_rate : Z;
  sk_pacing_status : Z;
  icsk_ca_state : Z
}.

Definition set_next (v : ptr) (s : sk_buff) : sk_buff :=
  SkBuff v (skb_mstamp_ns s) (len s) (pkt_len s) (sk s) (iph s) (tcph s) (is_gso s)
    (hdr_off s) (tcp_hdrlen s).
Definition set_mstamp (v : Z) (s : sk_buff) : sk_buff :=
  SkBuff (next s) v (len s) (pkt_len s) (sk s) (iph s) (tcph s) (is_gso s)
    (hdr_off s) (tcp_hdrlen s).
Definition set_pkt_len (v : Z) (s : sk_buff) : sk_buff :=
  SkBuff (next s) (skb_mstamp_ns s) (len s) v (sk s) (iph s) (tcph s) (is_gso s)
    (hdr_off s) (tcp_hdrlen s).

Abbreviation heap := (gmap addr sk_buff).

(** Reading and writing through a pointer: [None] when it is [NULL] or dangling. *)
Definition deref (h : heap) (p : ptr) : option sk_buff := a ← p; h !! a.

Definition store (f : sk_buff -> sk_buff) (p : ptr) (h : heap) : option heap :=
  a ← p; s ← h !! a; Some (<[a := f s]> h).

(** ** Kernel functions

    Functions and macros of the kernel that the disciplines call.  Their code
    is not part of the repository: they are the operations of a class, and the
    class [KernelApiOk] states the documented behaviour the proofs use. *)

Class KernelApi := {
  __ffs : Z -> Z;                 (* index of the least significant set bit *)
  fls64 : Z -> Z;                 (* one plus the index of the highest set bit *)
  unlikely : Z -> Z;              (* branch hint: the truth value of its argument *)
  jhash2 : list Z -> Z -> Z       (* hash of an array of words *)
}.

Class KernelApiOk (K : KernelApi) : Prop := {
  __ffs_ok : forall x, 0 < x < 2 ^ 64 ->
    0 <= __ffs x /\ Z.testbit x (__ffs x) = true /\
    (forall i, 0 <= i < __ffs x -> Z.testbit x i = false);
  fls64_zero : fls64 0 = 0;
  fls64_ok : forall x, 0 < x < 2 ^ 64 -> 0 < fls64 x /\ 2 ^ (fls64 x - 1) <= x < 2 ^ fls64 x;
  unlikely_ok : forall x, unlikely x = if x =? 0 then 0 else 1
}.

(** [TCP_CA_Disorder] and [IPPROTO_TCP], [SK_PACING_FQ]: kernel constants. *)
Definition TCP_CA_Disorder : Z := 1.
Definition IPPROTO_TCP : Z := 6.
Definition SK_PACING_FQ : Z := 2.
Definition NET_XMIT_SUCCESS : Z := 0.
Definition NET_XMIT_DROP : Z := 1.
Definition NSEC_PER_SEC : Z := 1000000000.

(** The FIFO of the default queueing discipline embedded in [struct Qdisc], and
    the drop function; [Sch] is the state they work on. *)
Class QdiscApi (Sch : Type) := {
  qdisc_enqueue_tail : addr -> Sch -> Z * Sch;
  qdisc_dequeue_head : Sch -> ptr * Sch;
  qdisc_drop : addr -> Sch -> Z * Sch;
  (* the segments of a packet, as a list linked through [next], and the store
     that holds them; [None] stands for an error or NULL *)
  skb_gso_segment : addr -> heap -> ptr * heap;
  consume_skb : addr -> heap -> heap
}.

(** ** Head/tail lists *)

Record bucket := Bucket { head : ptr; tail : ptr }.

Definition empty_bucket : bucket := Bucket None None.

(** Appending a packet: the link of the last packet, or the head of an empty
    list, is redirected to it. *)
Definition list_append (h : heap) (b : bucket) (skb : addr) : option (heap * bucket) :=
  h1 ← store (set_next None) (Some skb) h;
  match head b with
  | None => Some (h1, Bucket (Some skb) (Some skb))
  | Some _ =>
      h2 ← store (set_next (Some skb)) (tail b) h1;
      Some (h2, Bucket (head b) (Some skb))
  end.

(** Taking the first packet off: [tail] is left as it is. *)
Definition list_take (h : heap) (b : bucket) : option (heap * bucket * ptr) :=
  match head b with
  | None => Some (h, b, None)
  | Some a =>
      s ← h !! a;
      h1 ← store (set_next None) (Some a) h;
      Some (h1, Bucket (next s) (tail b), Some a)
  end.

(** * Representation *)

(** [chain h p l]: following [next] from [p] visits exactly [l], ending in NULL. *)
Fixpoint chain (h : heap) (p : ptr) (l : list addr) : Prop :=
  match l with
  | [] => p = None
  | a :: l' => p = Some a /\ exists s, h !! a = Some s /\ chain h (next s) l'
  end.

Definition list_rep (h : heap) (b : bucket) (l : list addr) : Prop :=
  chain h (head b) l /\ (l <> [] -> tail b = last l).

Lemma chain_frame h h' p l :
  (forall a, a ∈ l -> h' !! a = h !! a) -> chain h p l -> chain h' p l.
Proof.
  revert p. induction l as [|a l IH]; intros p Hf; simpl; auto.
  intros (-> & s & Hs & Hc). split; auto. exists s. split.
  - rewrite Hf; [done|constructor].
  - apply IH; auto. intros; apply Hf; by constructor.
Qed.

Lemma list_rep_frame h h' b l :
  (forall a, a ∈ l -> h' !! a = h !! a) -> list_rep h b l -> list_rep h' b l.
Proof. intros Hf [Hc Ht]. split; auto. by eapply chain_frame. Qed.

Lemma chain_snoc h p l a x s :
  chain h p (l ++ [a]) -> NoDup (l ++ [a]) -> x ∉ l ++ [a] ->
  h !! x = Some s -> next s = None ->
  exists s', h !! a = Some s' /\ chain (<[a := set_next (Some x) s']> h) p (l ++ [a; x]).
Proof.
  revert p. induction l as [|b l IH]; intros p; simpl.
  - intros (-> & s' & Hs' & Hn) _ Hx Hh Hnx. exists s'. split; [done|]. split; [done|].
    rewrite elem_of_cons in Hx. assert (a <> x) by naive_solver.
    eexists. rewrite lookup_insert_eq. split; [done|]. split; [done|].
    exists s. by rewrite lookup_insert_ne.
  - intros (-> & sb & Hsb & Hc) Hnd Hx Hh Hnx.
    apply NoDup_cons in Hnd as [Hb Hnd].
    destruct (IH (next sb)) as (s' & Hs' & Hc'); [done|done|set_solver|done|done|].
    exists s'. split; [done|]. split; [done|]. exists sb. split; auto.
    rewrite lookup_insert_ne; auto. intros ->. apply Hb. set_solver.
Qed.

(** Appending succeeds on a represented list and represents the list with the
    packet at its end; only [skb] and the packets of the list change. *)
Lemma list_append_rep h b l skb :
  list_rep h b l -> NoDup (l ++ [skb]) -> is_Some (h !! skb) ->
  exists h' b', list_append h b skb = Some (h', b') /\ list_rep h' b' (l ++ [skb]) /\
    (forall a, a ∉ l ++ [skb] -> h' !! a = h !! a) /\
    (forall a s, h !! a = Some s -> exists v, h' !! a = Some (set_next v s)).
Proof.
  intros [Hc Ht] Hnd [s0 Hs]. unfold list_append, store. simpl. rewrite Hs. simpl.
  pose proof Hnd as Hnd2. apply NoDup_app in Hnd2 as (Hl & Hdis & _).
  assert (Hskb : skb ∉ l) by (intros Hin; apply (Hdis _ Hin); set_solver).
  assert (Hsame : forall a s, h !! a = Some s ->
    exists v, <[skb := set_next None s0]> h !! a = Some (set_next v s)).
  { intros a s Ha. destruct (decide (a = skb)) as [->|].
    - rewrite lookup_insert_eq. simplify_eq. eauto.
    - rewrite lookup_insert_ne by done. exists (next s). by destruct s. }
  destruct l as [|a0 l0] using rev_ind.
  - simpl in Hc. rewrite Hc. eexists _, _. split; [done|]. split; [|split].
    + split; [|done]. simpl. split; auto. eexists. rewrite lookup_insert_eq. eauto.
    + intros a Ha. rewrite lookup_insert_ne; set_solver.
    + auto.
  - clear IHl0. destruct (head b) as [hd|] eqn:Eh.
    2:{ destruct l0; simpl in Hc; destruct Hc; discriminate. }
    rewrite Ht by (by destruct l0). rewrite last_snoc. simpl.
    set (h1 := <[skb := set_next None s0]> h) in *.
    assert (Hc1 : chain h1 (Some hd) (l0 ++ [a0])).
    { eapply chain_frame; [|done]. intros a Ha. unfold h1.
      rewrite lookup_insert_ne; [done|]. intros ->. done. }
    destruct (chain_snoc h1 (Some hd) l0 a0 skb (set_next None s0)) as (s' & Hs' & Hc');
      auto; [by apply lookup_insert_eq|].
    rewrite Hs'. simpl. eexists _, _. split; [done|]. split; [|split].
    + split; simpl; [by rewrite <- app_assoc|intros _; by rewrite last_snoc].
    + intros a Ha. rewrite !elem_of_app in Ha.
      rewrite lookup_insert_ne by set_solver. unfold h1. rewrite lookup_insert_ne; set_solver.
    + intros a s Ha. destruct (Hsame a s Ha) as [v Hv].
      destruct (decide (a = a0)) as [->|].
      * rewrite lookup_insert_eq. rewrite Hs' in Hv. simplify_eq.
        by exists (Some skb).
      * rewrite lookup_insert_ne by done. eauto.
Qed.

(** Taking from a represented list gives its first packet and represents the
    rest; only that packet changes. *)
Lemma list_take_rep h b l :
  list_rep h b l -> NoDup l ->
  match l with
  | [] => list_take h b = Some (h, b, None)
  | a :: l' => exists h' b',
      list_take h b = Some (h', b', Some a) /\ list_rep h' b' l' /\
      (forall x, x <> a -> h' !! x = h !! x) /\
      (forall x s, h !! x = Some s -> exists v, h' !! x = Some (set_next v s))
  end.
Proof.
  intros [Hc Ht] Hnd. unfold list_take. destruct l as [|a l]; simpl in Hc.
  - by rewrite Hc.
  - destruct Hc as (Eh & s & Hs & Hc). apply NoDup_cons in Hnd as [Ha Hnd].
    rewrite Eh. unfold store. simpl. rewrite Hs. simpl. eexists _, _. split; [done|].
    split; [|split].
    + split; simpl.
      * eapply chain_frame; [|done]. intros x Hx. rewrite lookup_insert_ne; [done|].
        intros ->. done.
      * intros Hne. rewrite Ht by done. by destruct l.
    + intros x Hx. by rewrite lookup_insert_ne.
    + intros x s' Hs'. destruct (decide (x = a)) as [->|].
      * rewrite lookup_insert_eq. simplify_eq. eauto.
      * rewrite lookup_insert_ne by done. exists (next s'). by destruct s'.
Qed.

Lemma list_rep_empty h : list_rep h empty_bucket [].
Proof. by split. Qed.

(** The head is NULL exactly when the represented list is empty. *)
Lemma list_rep_head h b l : list_rep h b l -> (head b = None <-> l = []).
Proof. intros [Hc _]. destruct l; simpl in Hc; [done|]. destruct Hc as [-> _]. naive_solver. Qed.

(** ** Reference pacing of the segments of a super-packet: the send time of each,
    one transmission time after the one before it *)

Definition seg_len (h : heap) (a : addr) : Z :=
  match h !! a with Some s => len s | None => 0 end.

Fixpoint seg_times (hdr rate t : Z) (lens : list Z) : list Z :=
  match lens with
  | [] => []
  | n :: lens' =>
      t :: seg_times hdr rate (u64 (t + u64 ((n - Z.min hdr n) * NSEC_PER_SEC) / rate)) lens'
  end.

(** ** Consequences of the kernel laws *)

Section api.
Context `{K : KernelApi} `{!KernelApiOk K}.

Lemma ffs_ctz x : 0 < x < 2 ^ 64 -> __ffs x = ctz x.
Proof. intros Hx. destruct (__ffs_ok x Hx) as (? & ? & ?). apply ctz_least_bit; auto; lia. Qed.

Lemma fls64_bitlen x : 0 <= x < 2 ^ 64 -> fls64 x = bitlen x.
Proof.
  intros Hx. destruct (decide (x = 0)) as [->|]; [by rewrite fls64_zero|].
  destruct (fls64_ok x) as [? ?]; [lia|]. symmetry. apply bitlen_unique; auto.
Qed.

End api.

(** The laws have a model. *)
Definition demo_api : KernelApi := {|
  __ffs := ctz;
  fls64 := bitlen;
  unlikely x := if x =? 0 then 0 else 1;
  jhash2 l seed := u32 (fold_left (fun acc x => acc * 31 + x) l seed)
|}.

Lemma demo_api_ok : KernelApiOk demo_api.
Proof.
  split; simpl; intros; auto.
  - split; [apply ctz_nonneg|]. split; [apply testbit_ctz; lia|].
    intros. apply testbit_below_ctz; lia.
  - split; [rewrite bitlen_pos by lia; pose proof (Z.log2_nonneg x); lia|].
    apply bitlen_bounds; lia.
Qed.

(** ** A concrete discipline for the runs: a FIFO of addresses, and a super-packet
    cut in two *)

#[export] Instance demo_qdisc : QdiscApi (list addr) := {|
  qdisc_enqueue_tail skb f := (NET_XMIT_SUCCESS, f ++ [skb]);
  qdisc_dequeue_head f := match f with [] => (None, []) | a :: f' => (Some a, f') end;
  qdisc_drop skb f := (NET_XMIT_DROP, f);
  skb_gso_segment skb h :=
    match h !! skb with
    | None => (None, h)
    | Some s =>
        let part v := SkBuff v (skb_mstamp_ns s) (len s / 2) 0 (sk s) (iph s) (tcph s) false
                        (hdr_off s) (tcp_hdrlen s) in
        (Some (skb + 1)%positive,
         <[(skb + 1)%positive := part (Some (skb + 2)%positive)]>
           (<[(skb + 2)%positive := part None]> h))
    end;
  consume_skb skb h := delete skb h
|}.

Definition demo_packet (t : Z) : sk_buff := SkBuff None t 3000 0 (Some 1%positive) None None true 34 20.
