(* ===== verification/Dfb.v ===== *)
(** * The FlowBundler queueing discipline: [kernel/sch_dfb/sch_dfb.c]

    The definitions.  [struct dfb_sched_data] is split in two records, the
    multi-level calendar queue ([calendar]) and the congestion bookkeeping
    ([congestion]).  Arrays are functions of their index with the range check of
    an access written out; [None] is a fault of the C code: a NULL or dangling
    dereference, an index out of range, a shift by 64 or more, a division by
    zero, or a loop that never ends.  The debugging and profiling blocks
    ([DFB_DEBUG], [DFB_PROFILE]), which are compiled out, are left out. *)

From S2P Require Import Prelude Kernel.

Definition HASHTABLE_SIZE_SCALE : Z := 8.
Definition HASHTABLE_SIZE : Z := Z.shiftl 1 HASHTABLE_SIZE_SCALE.
Definition BUCKET_NUM_SCALE : Z := 10.
Definition BUCKET_NUM : Z := Z.shiftl 1 BUCKET_NUM_SCALE.
Definition QUEUE_NUM : Z := 64.
Definition MTU : Z := 1500.
Definition MIN_GRAN_SCALE : Z := 0.

Definition bid_mask : Z := u32 (Z.shiftl 1 BUCKET_NUM_SCALE - 1).
Definition max_rate : Z := u64 (Z.shiftr (NSEC_PER_SEC * MTU) MIN_GRAN_SCALE).

Record dfb_location := Location { queue_id : Z; bucket_id : Z }.

Record calendar := Calendar {
  mlcq : Z -> Z -> bucket;
  n_packets_total : Z;
  n_packets : Z -> Z;
  bitmap : Z;
  head_time : Z;
  highest_rate_qid : Z
}.

Record congestion := Congestion {
  hash_table : Z -> Z;
  deq_rst : Z;
  n_cong_flows : Z;
  deq_cnt : Z;
  deq_time : Z;
  cong_rate : Z
}.

(** [watchdog] lists the times given to [qdisc_watchdog_schedule_ns], the latest
    first. *)
Record dfb_sched_data := SchedData {
  cal : calendar;
  cong : congestion;
  real_qid_cache : Z -> Z -> Z;
  watchdog : list Z
}.

Definition set_cal (c : calendar) (q : dfb_sched_data) : dfb_sched_data :=
  SchedData c (cong q) (real_qid_cache q) (watchdog q).
Definition set_cong (c : congestion) (q : dfb_sched_data) : dfb_sched_data :=
  SchedData (cal q) c (real_qid_cache q) (watchdog q).
Definition set_head_time (t : Z) (c : calendar) : calendar :=
  Calendar (mlcq c) (n_packets_total c) (n_packets c) (bitmap c) t (highest_rate_qid c).
Definition set_hrq (i : Z) (c : calendar) : calendar :=
  Calendar (mlcq c) (n_packets_total c) (n_packets c) (bitmap c) (head_time c) i.

(** ** Locations *)

Definition dfb_find_bucket_index (queue_id send_time : Z) : option Z :=
  guard (queue_id + MIN_GRAN_SCALE < 64);;
  Some (u64 (Z.shiftr send_time (queue_id + MIN_GRAN_SCALE) + 1)).

Definition dfb_head_time_mask (queue_id : Z) : Z := u64 (Z.shiftl (2 ^ 64 - 1) queue_id).

Definition dfb_get_bucket (c : calendar) (loc : dfb_location) : option bucket :=
  guard (0 <= queue_id loc < QUEUE_NUM);;
  Some (mlcq c (queue_id loc) (Z.land (bucket_id loc) bid_mask)).

Definition dfb_put_bucket (c : calendar) (loc : dfb_location) (b : bucket) : calendar :=
  Calendar
    (<[queue_id loc := <[Z.land (bucket_id loc) bid_mask := b]> (mlcq c (queue_id loc))]> (mlcq c))
    (n_packets_total c) (n_packets c) (bitmap c) (head_time c) (highest_rate_qid c).

Definition dfb_bucket_is_empty (b : bucket) : bool :=
  match head b with None => true | Some _ => false end.

(** ** The calendar queue *)

(** Accounting for [k] packets more (push) or less (pop) in queue [i]. *)
Definition add_packets (c : calendar) (i k : Z) (bm : Z) : calendar :=
  Calendar (mlcq c) (u32 (n_packets_total c + k)) (<[i := u32 (n_packets c i + k)]> (n_packets c))
    bm (head_time c) (highest_rate_qid c).

Definition dfb_push_to_bucket (h : heap) (c : calendar) (loc : dfb_location) (skb : addr) :
    option (heap * calendar) :=
  bkt ← dfb_get_bucket c loc;
  '(h', bkt') ← list_append h bkt skb;
  Some (h', add_packets (dfb_put_bucket c loc bkt') (queue_id loc) 1
              (Z.lor (bitmap c) (Z.shiftl 1 (queue_id loc)))).

Definition dfb_pop_from_bucket (h : heap) (c : calendar) (loc : dfb_location) :
    option (heap * calendar * ptr) :=
  bkt ← dfb_get_bucket c loc;
  '(h', bkt', skb) ← list_take h bkt;
  match skb with
  | None => Some (h', c, None)
  | Some a =>
      let n := u32 (n_packets c (queue_id loc) + -1) in
      let bm := if n =? 0 then clear_bit (bitmap c) (queue_id loc) else bitmap c in
      Some (h', add_packets (dfb_put_bucket c loc bkt') (queue_id loc) (-1) bm, Some a)
  end.

(** The counting loop of [dfb_pop_bucket]: one step per packet of the list. *)
Definition dfb_pop_bucket_step (h : heap) (i : Z) (st : calendar * ptr) :
    (calendar * ptr) + option calendar :=
  let '(c, skb) := st in
  match skb with
  | None => inr (Some c)
  | Some _ =>
      match deref h skb with
      | None => inr None
      | Some s => inl (add_packets c i (-1) (bitmap c), next s)
      end
  end.

Definition dfb_pop_bucket (h : heap) (c : calendar) (loc : dfb_location) :
    option (calendar * ptr) :=
  bkt ← dfb_get_bucket c loc;
  match iter_until fuel64 (dfb_pop_bucket_step h (queue_id loc)) (c, head bkt) with
  | inr (Some c1) =>
      let c2 := dfb_put_bucket c1 loc (Bucket None (tail bkt)) in
      let bm := if n_packets c2 (queue_id loc) =? 0 then clear_bit (bitmap c2) (queue_id loc)
                else bitmap c2 in
      Some (Calendar (mlcq c2) (n_packets_total c2) (n_packets c2) bm (head_time c2)
              (highest_rate_qid c2), head bkt)
  | _ => None
  end.

Section api.
Context `{K : KernelApi}.

(** Set by [dfb_module_init]. *)
Definition max_rate_highest_bit : Z := u32 (fls64 max_rate).

Definition dfb_find_queue_index (rate : Z) : Z :=
  let rate := Z.min max_rate rate in
  u8 (max_rate_highest_bit - fls64 rate).

Definition dfb_find_real_location (qid send_time : Z) : option dfb_location :=
  bid ← dfb_find_bucket_index qid send_time;
  let rq := u8 (qid + __ffs (Z.lor bid (Z.shiftl 1 (QUEUE_NUM - 1)))) in
  let rq := if unlikely rq >=? QUEUE_NUM then QUEUE_NUM - 1 else rq in
  rb ← dfb_find_bucket_index rq send_time;
  Some (Location rq rb).

Definition dfb_enqueue_to_cq (h : heap) (c : calendar) (skb : addr) (qid : Z) :
    option (heap * calendar) :=
  guard (qid + MIN_GRAN_SCALE < 64);;
  let granularity := u64 (Z.shiftl 1 (qid + MIN_GRAN_SCALE)) in
  let horizon := u64 (u64 (Z.shiftl granularity BUCKET_NUM_SCALE) - granularity) in
  s ← h !! skb;
  let send_time := skb_mstamp_ns s in
  let c := if bitmap c =? 0
           then set_hrq qid (set_head_time (Z.land send_time (dfb_head_time_mask qid)) c)
           else c in
  let send_time := Z.min (Z.max send_time (head_time c)) (u64 (head_time c + horizon)) in
  real_loc ← dfb_find_real_location qid send_time;
  dfb_push_to_bucket h c real_loc skb.

(** ** Congested flows *)

Definition is_tcp4 (s : sk_buff) : option (iphdr * tcphdr) :=
  ip ← iph s;
  guard (version ip = 4 /\ protocol ip = IPPROTO_TCP);;
  tcp ← tcph s;
  Some (ip, tcp).

Definition flow_hash (s : sk_buff) : Z :=
  match is_tcp4 s with
  | None => 0
  | Some (ip, tcp) =>
      let key2 := Z.lor (u32 (Z.shiftl (u16 (source tcp)) 16)) (u16 (dest tcp)) in
      Z.land (u32 (jhash2 [saddr ip; daddr ip; key2] 0)) (HASHTABLE_SIZE - 1)
  end.

(** A packet of a flow in recovery, or closing one, updates the table. *)
Definition mark_congested (g : congestion) (hv rate : Z) : congestion :=
  let g := if hash_table g hv =? 0
           then Congestion (hash_table g) 1 (u32 (n_cong_flows g + 1)) (deq_cnt g) (deq_time g)
                  (u64 (cong_rate g + rate))
           else g in
  Congestion (<[hv := 1]> (hash_table g)) (deq_rst g) (n_cong_flows g) (deq_cnt g) (deq_time g)
    (cong_rate g).

Definition unmark_congested (g : congestion) (hv rate : Z) : congestion :=
  let g := if hash_table g hv =? 1
           then let n := u32 (n_cong_flows g - 1) in
                let r := if n =? 0 then 0 else u64 (cong_rate g - rate) in
                Congestion (hash_table g) 1 n (deq_cnt g) (deq_time g) r
           else g in
  Congestion (<[hv := 0]> (hash_table g)) (deq_rst g) (n_cong_flows g) (deq_cnt g) (deq_time g)
    (cong_rate g).

Definition update_congestion (g : congestion) (s : sk_buff) (sck : option sock) : congestion :=
  match sck, is_tcp4 s with
  | Some k, Some (_, tcp) =>
      if to_signed 32 (sk_pacing_rate k) <=? 0 then g
      else
        let g := if icsk_ca_state k >? TCP_CA_Disorder
                 then mark_congested g (flow_hash s) (sk_pacing_rate k) else g in
        if fin tcp || rst tcp then unmark_congested g (flow_hash s) (sk_pacing_rate k) else g
  | _, _ => g
  end.

Definition query_congestion (g : congestion) (s : sk_buff) : Z :=
  match is_tcp4 s with
  | None => 0
  | Some _ => hash_table g (flow_hash s)
  end.

(** ** Enqueue *)

Record world (Sch : Type) := World {
  hp : heap;
  socks : gmap addr sock;
  q : dfb_sched_data;
  sch : Sch
}.
Arguments World {Sch}.
Arguments hp {Sch}.
Arguments socks {Sch}.
Arguments q {Sch}.
Arguments sch {Sch}.

Context {Sch : Type} `{Q : QdiscApi Sch}.

Definition lookup_sock (w : world Sch) (p : ptr) : option sock := a ← p; socks w !! a.

(** The queue a packet of a flow with pacing rate [rate] is put in, and the
    update of the highest rate queue with it. *)
Definition choose_qid (g : congestion) (s : sk_buff) (rate : Z) : Z :=
  if query_congestion g s =? 0 then dfb_find_queue_index rate
  else dfb_find_queue_index (cong_rate g).

Definition lower_hrq (c : calendar) (qid : Z) : calendar :=
  set_hrq (Z.min (highest_rate_qid c) qid) c.

(** The loop of [dfb_segment] over the segments: [nb] counts them, [ntime] is
    the send time of the next one. *)
Definition segment_step (qid hdr_len rate : Z) (st : heap * calendar * ptr * Z * Z) :
    (heap * calendar * ptr * Z * Z) + option (heap * calendar * Z) :=
  let '(h, c, segs, ntime, nb) := st in
  match segs with
  | None => inr (Some (h, c, nb))
  | Some a =>
      match h !! a with
      | None => inr None
      | Some s =>
          let send_time := ntime in
          let s' := set_mstamp send_time (set_pkt_len (len s) (set_next None s)) in
          match dfb_enqueue_to_cq (<[a := s']> h) c a qid with
          | None => inr None
          | Some (h', c') =>
              let payload_len := len s - Z.min hdr_len (len s) in
              let ntime := u64 (send_time + u64 (payload_len * NSEC_PER_SEC) / rate) in
              inl (h', c', next s, ntime, nb + 1)
          end
      end
  end.

Definition dfb_segment (w : world Sch) (skb : addr) : option (Z * world Sch) :=
  s ← hp w !! skb;
  let rate := match lookup_sock w (sk s) with Some k => sk_pacing_rate k | None => 0 end in
  let hdr_len := u8 (hdr_off s + tcp_hdrlen s) in
  if rate =? 0 then
    let '(ret, sch') := qdisc_enqueue_tail skb (sch w) in
    Some (ret, World (hp w) (socks w) (q w) sch')
  else
    let '(segs, h) := skb_gso_segment skb (hp w) in
    match segs with
    | None => let '(ret, sch') := qdisc_drop skb (sch w) in
              Some (ret, World h (socks w) (q w) sch')
    | Some _ =>
        let qid := choose_qid (cong (q w)) s rate in
        let c := lower_hrq (cal (q w)) qid in
        match iter_until fuel64 (segment_step qid hdr_len rate) (h, c, segs, skb_mstamp_ns s, 0) with
        | inr (Some (h', c', nb)) =>
            Some (if nb >? 0 then NET_XMIT_SUCCESS else NET_XMIT_DROP,
                  World (consume_skb skb h') (socks w) (set_cal c' (q w)) (sch w))
        | _ => None
        end
    end.

(** [queue_limit] and [gso_split] are the parameters of the module. *)
Definition dfb_enqueue (queue_limit : Z) (gso_split : bool) (w : world Sch) (skb : addr) :
    option (Z * world Sch) :=
  s ← hp w !! skb;
  let sck := lookup_sock w (sk s) in
  let rate := match sck with Some k => sk_pacing_rate k | None => 0 end in
  let socks1 :=
    match sk s, sck with
    | Some a, Some k =>
        if sk_pacing_status k =? SK_PACING_FQ then socks w
        else <[a := Sock (sk_pacing_rate k) SK_PACING_FQ (icsk_ca_state k)]> (socks w)
    | _, _ => socks w
    end in
  if n_packets_total (cal (q w)) <? queue_limit then
    if rate =? 0 then
      let '(ret, sch') := qdisc_enqueue_tail skb (sch w) in
      Some (ret, World (hp w) socks1 (q w) sch')
    else
      let q1 := set_cong (update_congestion (cong (q w)) s sck) (q w) in
      if gso_split && is_gso s then dfb_segment (World (hp w) socks1 q1 (sch w)) skb
      else
        let qid := choose_qid (cong q1) s rate in
        '(h', c') ← dfb_enqueue_to_cq (hp w) (lower_hrq (cal q1) qid) skb qid;
        Some (NET_XMIT_SUCCESS, World h' socks1 (set_cal c' q1) (sch w))
  else
    let '(ret, sch') := qdisc_drop skb (sch w) in
    Some (ret, World (hp w) socks1 (q w) sch').

(** ** Dequeue *)

Inductive scan_result :=
  | Found (h : heap) (c : calendar) (t : Z) (skb : addr)
  | Passed (t : Z)
  | Fault.

(** The body of [while (now >= head_time)]. *)
Definition scan_step (h : heap) (c : calendar) (hrq granularity now t : Z) : Z + scan_result :=
  if now >=? t then
    match dfb_find_real_location hrq t with
    | None => inr Fault
    | Some loc =>
        match dfb_pop_from_bucket h c loc with
        | None => inr Fault
        | Some (h', c', Some skb) => inr (Found h' c' t skb)
        | Some (_, _, None) => inl (u64 (t + granularity))
        end
    end
  else inr (Passed t).

(** The body of the search for the next packet, [do ... while]. *)
Definition next_step (c : calendar) (hrq granularity t : Z) : Z + option Z :=
  let t := u64 (t + granularity) in
  match dfb_find_real_location hrq t with
  | None => inr None
  | Some loc =>
      match dfb_get_bucket c loc with
      | None => inr None
      | Some b => if dfb_bucket_is_empty b then inl t else inr (Some t)
      end
  end.

(** The statements after the label [dfb_dequeue_done]; [now2] is the clock. *)
Definition account_dequeue (now2 : Z) (g : congestion) (s : sk_buff) : option congestion :=
  if hash_table g (flow_hash s) =? 0 then Some g
  else if negb (deq_rst g =? 0) then
    Some (Congestion (hash_table g) 0 (n_cong_flows g) 0 now2 (cong_rate g))
  else
    let cnt := u32 (deq_cnt g + 1) in
    if cnt =? 50 then
      guard (u64 (now2 - deq_time g) <> 0);;
      let t_rate := (50 * 1500 * NSEC_PER_SEC) / u64 (now2 - deq_time g) in
      Some (Congestion (hash_table g) (deq_rst g) (n_cong_flows g) 0 now2
              (u64 (u64 (3 * cong_rate g) + t_rate) / 4))
    else
      Some (Congestion (hash_table g) (deq_rst g) (n_cong_flows g) cnt (deq_time g) (cong_rate g)).

Definition finish_dequeue (now2 : Z) (w : world Sch) (skb : ptr) : option (ptr * world Sch) :=
  match skb with
  | None => Some (None, w)
  | Some a =>
      s ← hp w !! a;
      g ← account_dequeue now2 (cong (q w)) s;
      Some (skb, World (hp w) (socks w) (set_cong g (q w)) (sch w))
  end.

(** The calendar part of [dfb_dequeue], from [granularity = ...] to the label:
    the packet taken, if any, and the time the watchdog is set to. *)
Definition dequeue_calendar (now : Z) (h : heap) (c : calendar) :
    option (heap * calendar * ptr * option Z) :=
  let hrq := highest_rate_qid c in
  let t0 := Z.land (head_time c) (dfb_head_time_mask hrq) in
  guard (hrq + MIN_GRAN_SCALE < 64);;
  let granularity := u64 (Z.shiftl 1 (hrq + MIN_GRAN_SCALE)) in
  match iter_until fuel64 (scan_step h c hrq granularity now) t0 with
  | inr (Found h' c' t skb) =>
      let c' := set_head_time t c' in
      let c' := if n_packets c' hrq =? 0
                then set_hrq (if bitmap c' =? 0 then QUEUE_NUM - 1 else __ffs (bitmap c')) c'
                else c' in
      Some (h', c', Some skb, None)
  | inr (Passed t) =>
      let c' := set_head_time (Z.land now (dfb_head_time_mask hrq)) c in
      match iter_until fuel64 (next_step c' hrq granularity) (u64 (t - granularity)) with
      | inr (Some next_time) => Some (h, c', None, Some next_time)
      | _ => None
      end
  | _ => None
  end.

(** [now] and [now2] are the two readings of the clock. *)
Definition dfb_dequeue (now now2 : Z) (w : world Sch) : option (ptr * world Sch) :=
  let '(skb, sch1) := qdisc_dequeue_head (sch w) in
  let w1 := World (hp w) (socks w) (q w) sch1 in
  match skb with
  | Some _ => finish_dequeue now2 w1 skb
  | None =>
      if bitmap (cal (q w)) =? 0 then finish_dequeue now2 w1 None
      else
        '(h', c', skb, wd) ← dequeue_calendar now (hp w) (cal (q w));
        let q' := SchedData c' (cong (q w)) (real_qid_cache (q w))
                    (match wd with Some t => t :: watchdog (q w) | None => watchdog (q w) end) in
        finish_dequeue now2 (World h' (socks w) q' sch1) skb
  end.

(** ** Initialisation *)

Definition dfb_init_bucket : bucket := empty_bucket.

(** [q0] is the private data before the call: zeroed memory when the discipline
    is created, the current state when it is changed ([.change = dfb_init]). *)
Definition dfb_init (now : Z) (q0 : dfb_sched_data) : dfb_sched_data :=
  SchedData
    (Calendar (fun _ _ => dfb_init_bucket) 0 (fun _ => 0) 0 now (QUEUE_NUM - 1))
    (Congestion (fun _ => 0) 1 0 0 (deq_time (cong q0)) 0)
    (fun qid bid => u8 (qid + (if bid =? 0 then BUCKET_NUM_SCALE else __ffs bid)))
    (watchdog q0).

End api.

Arguments World {Sch}.
Arguments hp {Sch}.
Arguments socks {Sch}.
Arguments q {Sch}.
Arguments sch {Sch}.
