(* ===== verification/DfbCalendar.v ===== *)
(** * The multi-level calendar queue of [sch_dfb.c]: specification and proofs

    A packet is filed under a deadline: the end of the slot, of the width of the
    queue chosen for its flow, that its send time falls in.  The first part shows
    that the location computed by the code is a function of that deadline alone;
    this is what lets packets of flows of different rates share a bucket.  The
    second part relates the calendar to the list of its packets with their
    deadlines, in arrival order ([cal_rel]), and shows that the operations
    implement a stable priority queue on it. *)

From S2P Require Import Prelude Kernel Dfb.

(** ** The abstract calendar *)

(** The end of the slot of width [2^qid] that [t] falls in. *)
Definition deadline (qid t : Z) : Z := (t / 2 ^ qid + 1) * 2 ^ qid.

Definition loc_of (D : Z) : dfb_location := Location (ctz D) (D / 2 ^ ctz D).

(** A packet with its deadline. *)
Definition item : Type := addr * Z.

Definition in_bucket (i b : Z) (p : item) : Prop := ctz p.2 = i /\ (p.2 / 2 ^ i) mod 1024 = b.

#[export] Instance in_bucket_dec i b p : Decision (in_bucket i b p).
Proof. unfold in_bucket. apply _. Defined.

Definition in_queue (i : Z) (p : item) : Prop := ctz p.2 = i.

#[export] Instance in_queue_dec i p : Decision (in_queue i p).
Proof. unfold in_queue. apply _. Defined.

(** The calendar [c], in the store [h], holds the packets [l], in arrival order. *)
Record cal_rel (h : heap) (c : calendar) (l : list item) : Prop := {
  rel_buckets : forall i b, 0 <= i < 64 -> 0 <= b < 1024 ->
    list_rep h (mlcq c i b) (filter (in_bucket i b) l).*1;
  rel_nodup : NoDup l.*1;
  rel_total : n_packets_total c = Z.of_nat (length l) /\ Z.of_nat (length l) < 2 ^ 32;
  rel_count : forall i, 0 <= i < 64 ->
    n_packets c i = Z.of_nat (length (filter (in_queue i) l));
  rel_bitmap : 0 <= bitmap c < 2 ^ 64 /\
    forall i, 0 <= i < 64 -> Z.testbit (bitmap c) i = negb (n_packets c i =? 0);
  rel_deadline : forall p, p ∈ l -> 0 < p.2 < 2 ^ 63
}.

(** Every packet is due after the head of the calendar and within the round of
    its queue that starts there. *)
Record timely (c : calendar) (l : list item) : Prop := {
  timely_window : forall p, p ∈ l ->
    head_time c < p.2 <= head_time c + 2 ^ (ctz p.2 + 10) /\ highest_rate_qid c <= ctz p.2;
  timely_head : 0 <= head_time c < 2 ^ 62;
  timely_hrq : 0 <= highest_rate_qid c < 64
}.

(** ** Deadlines *)

Lemma deadline_divide qid t : (2 ^ qid | deadline qid t).
Proof. apply Z.divide_factor_r. Qed.

Lemma deadline_bounds qid t : 0 <= qid -> t < deadline qid t <= t + 2 ^ qid.
Proof.
  intros Hq. unfold deadline. pose proof (pow2_pos qid Hq).
  pose proof (div_mul_le t (2 ^ qid)). lia.
Qed.

Lemma deadline_pos qid t : 0 <= qid -> 0 <= t -> 0 < deadline qid t.
Proof. intros. pose proof (deadline_bounds qid t). lia. Qed.

Lemma deadline_ctz qid t : 0 <= qid -> 0 <= t -> qid <= ctz (deadline qid t).
Proof. intros. apply divide_ctz; auto using deadline_divide, deadline_pos. Qed.

(** At the start of a slot the deadline is the start of the next one. *)
Lemma deadline_aligned qid t : 0 <= qid -> (2 ^ qid | t) -> deadline qid t = t + 2 ^ qid.
Proof.
  intros Hq [k ->]. unfold deadline. pose proof (pow2_pos qid Hq).
  rewrite Z.div_mul by lia. ring.
Qed.

Lemma lor_top_ctz x : 0 < x < 2 ^ 64 -> ctz (Z.lor x (2 ^ 63)) = ctz x.
Proof.
  intros Hx. pose proof (ctz_nonneg x). pose proof (ctz_lt x 64 Hx).
  symmetry. apply ctz_least_bit; [|lia| |].
  - assert (0 <= Z.lor x (2 ^ 63)) by (apply Z.lor_nonneg; lia).
    assert (Z.lor x (2 ^ 63) <> 0) by (rewrite Z.lor_eq_0_iff; lia). lia.
  - rewrite Z.lor_spec, testbit_ctz by lia. done.
  - intros i Hi. rewrite Z.lor_spec, testbit_below_ctz by lia.
    rewrite Z.pow2_bits_false by lia. done.
Qed.

Lemma lor_top_range x : 0 <= x < 2 ^ 64 -> 0 < Z.lor x (2 ^ 63) < 2 ^ 64.
Proof.
  intros Hx. assert (0 <= Z.lor x (2 ^ 63)) by (apply Z.lor_nonneg; lia).
  assert (Z.lor x (2 ^ 63) <> 0) by (rewrite Z.lor_eq_0_iff; lia).
  split; [lia|]. apply Z.log2_lt_pow2; [lia|]. rewrite Z.log2_lor by lia.
  assert (Z.log2 x < 64).
  { destruct (decide (x = 0)) as [->|]; [done|]. apply Z.log2_lt_pow2; lia. }
  change (Z.log2 (2 ^ 63)) with 63. lia.
Qed.

(** The index of the slot before the deadline. *)
Lemma deadline_slot D g t :
  0 < D -> 0 <= g <= ctz D -> D - 2 ^ g <= t < D -> t / 2 ^ ctz D + 1 = D / 2 ^ ctz D.
Proof.
  intros HD Hg Ht. pose proof (ctz_nonneg D). destruct (ctz_divide D HD) as [m Hm].
  remember (ctz D) as e eqn:Ee. clear Ee. pose proof (pow2_pos e). pose proof (pow2_mono g e).
  subst D. rewrite Z.div_mul by lia. assert (t / 2 ^ e = m - 1); [|lia].
  symmetry. apply (Z.div_unique _ _ _ (t - (m - 1) * 2 ^ e)); [left|]; lia.
Qed.

Section location.
Context `{K : KernelApi} `{!KernelApiOk K}.

Lemma find_bucket_index_ok i t :
  0 <= i < 64 -> 0 <= t / 2 ^ i + 1 < 2 ^ 64 -> dfb_find_bucket_index i t = Some (t / 2 ^ i + 1).
Proof.
  intros Hi Ht. unfold dfb_find_bucket_index, MIN_GRAN_SCALE. rewrite Z.add_0_r.
  rewrite option_guard_True by lia. simpl. by rewrite shiftr_pow2, wrap_small by lia.
Qed.

(** The location is that of the deadline. *)
Lemma find_real_location_deadline qid t :
  0 <= qid < 64 -> 0 <= t -> t + 2 ^ qid < 2 ^ 64 ->
  dfb_find_real_location qid t = Some (loc_of (deadline qid t)).
Proof.
  intros Hq Ht Hlt. pose proof (deadline_bounds qid t) as HD.
  pose proof (deadline_pos qid t). pose proof (deadline_ctz qid t).
  set (D := deadline qid t) in *. set (bid := t / 2 ^ qid + 1).
  assert (EqD : D = bid * 2 ^ qid) by done. pose proof (pow2_pos qid).
  assert (Hbid : 0 < bid < 2 ^ 64).
  { assert (0 <= t / 2 ^ qid) by (apply Z.div_pos; lia). unfold bid in *. split; [lia|].
    assert (bid * 1 <= bid * 2 ^ qid) by (apply Z.mul_le_mono_nonneg_l; unfold bid; lia).
    unfold bid in *. lia. }
  assert (Hrq : ctz D = qid + ctz bid) by (rewrite EqD, ctz_mul_pow2 by lia; lia).
  assert (HcD : ctz D < 64) by (apply ctz_lt; lia).
  unfold dfb_find_real_location. rewrite find_bucket_index_ok by (fold bid; lia).
  fold bid. cbn [mbind option_bind]. change (Z.shiftl 1 (QUEUE_NUM - 1)) with (2 ^ 63).
  rewrite ffs_ctz by (apply lor_top_range; lia). rewrite lor_top_ctz by lia.
  rewrite <- Hrq. pose proof (ctz_nonneg D). rewrite (wrap_small 8) by lia.
  rewrite unlikely_ok. unfold QUEUE_NUM.
  replace ((if ctz D =? 0 then 0 else 1) >=? 64) with false by (destruct (ctz D =? 0); done).
  assert (Hslot : t / 2 ^ ctz D + 1 = D / 2 ^ ctz D).
  { apply (deadline_slot D qid); lia. }
  rewrite find_bucket_index_ok; [by rewrite Hslot|lia|rewrite Hslot].
  pose proof (pow2_pos (ctz D)). split.
  - apply Z.div_pos; lia.
  - apply (Z.le_lt_trans _ D); [|lia]. apply Z.div_le_upper_bound; [lia|].
    assert (1 * D <= 2 ^ ctz D * D) by (apply Z.mul_le_mono_nonneg_r; lia). lia.
Qed.

End location.

(** Deadlines are recovered from their location. *)
Lemma loc_of_inj D D' : 0 < D -> 0 < D' -> loc_of D = loc_of D' -> D = D'.
Proof.
  intros HD HD' [= Hc Hb]. destruct (ctz_divide D HD) as [m Hm], (ctz_divide D' HD') as [m' Hm'].
  rewrite Hc in *. pose proof (ctz_nonneg D'). remember (ctz D') as e. pose proof (pow2_pos e).
  subst D D'. rewrite !Z.div_mul in Hb by lia. congruence.
Qed.

(** ** Buckets of the abstract calendar *)

Lemma bucket_mask b : Z.land b bid_mask = b mod 1024.
Proof. unfold bid_mask. change (u32 _) with (2 ^ 10 - 1). by rewrite land_ones_mod by lia. Qed.

(** The bucket of a deadline. *)
Definition slot_of (D : Z) : Z := (D / 2 ^ ctz D) mod 1024.

Lemma slot_range D : 0 <= slot_of D < 1024.
Proof. apply Z.mod_pos_bound; lia. Qed.

Lemma in_bucket_iff i b p : in_bucket i b p <-> ctz p.2 = i /\ slot_of p.2 = b.
Proof. unfold in_bucket, slot_of. split; intros [<- ?]; done. Qed.

Lemma ctz_range D : 0 < D < 2 ^ 63 -> 0 <= ctz D < 63.
Proof. intros. split; [apply ctz_nonneg|apply ctz_lt; lia]. Qed.

Lemma get_bucket_loc c D :
  0 < D < 2 ^ 63 -> dfb_get_bucket c (loc_of D) = Some (mlcq c (ctz D) (slot_of D)).
Proof.
  intros HD. pose proof (ctz_range D HD). unfold dfb_get_bucket. simpl.
  rewrite option_guard_True by (unfold QUEUE_NUM; lia). by rewrite bucket_mask.
Qed.

(** The array entry read after a bucket is replaced. *)
Lemma put_bucket_lookup c D bkt i b :
  mlcq (dfb_put_bucket c (loc_of D) bkt) i b =
  if decide (i = ctz D /\ b = slot_of D) then bkt else mlcq c i b.
Proof.
  simpl. rewrite bucket_mask. fold (slot_of D).
  destruct (decide (i = ctz D)) as [->|].
  - rewrite fn_insert_eq. destruct (decide (b = slot_of D)) as [->|].
    + by rewrite fn_insert_eq, decide_True.
    + rewrite fn_insert_ne by done. rewrite decide_False; [done|]. naive_solver.
  - rewrite fn_insert_ne by done. rewrite decide_False; [done|]. naive_solver.
Qed.

Lemma filter_queue_bucket i b (l : list item) :
  filter (in_bucket i b) (filter (in_queue i) l) = filter (in_bucket i b) l.
Proof.
  induction l as [|p l IH]; [done|]. rewrite !filter_cons.
  unfold in_queue at 1. destruct (decide (ctz p.2 = i)).
  - rewrite filter_cons, IH. done.
  - rewrite IH, (decide_False (P := in_bucket _ _ _)); [done|]. unfold in_bucket. naive_solver.
Qed.

Lemma nodup_filter (P : item -> Prop) `{!forall p, Decision (P p)} (l : list item) :
  NoDup l.*1 -> NoDup (filter P l).*1.
Proof.
  induction l as [|p l IH]; simpl; [done|]. rewrite NoDup_cons. intros [Hp Hl].
  rewrite filter_cons. case_decide; auto. simpl. rewrite NoDup_cons. split; auto.
  intros Hin. apply Hp. apply list_elem_of_fmap in Hin as (x & -> & Hx).
  apply list_elem_of_filter in Hx as [_ Hx]. apply list_elem_of_fmap. eauto.
Qed.

(** A packet of one bucket is not in another one. *)
Lemma buckets_disjoint (l : list item) i b i' b' a :
  NoDup l.*1 -> a ∈ (filter (in_bucket i b) l).*1 -> a ∈ (filter (in_bucket i' b') l).*1 ->
  i = i' /\ b = b'.
Proof.
  intros Hnd Ha Ha'.
  apply list_elem_of_fmap in Ha as (p & -> & Hp). apply list_elem_of_fmap in Ha' as (p' & E & Hp').
  apply list_elem_of_filter in Hp as [Hb Hp]. apply list_elem_of_filter in Hp' as [Hb' Hp'].
  assert (p = p') as <-.
  { apply list_elem_of_lookup in Hp as [j Hj]. apply list_elem_of_lookup in Hp' as [j' Hj'].
    assert (j = j') as <-.
    { eapply (NoDup_lookup l.*1 _ _ p.1); eauto; rewrite list_lookup_fmap, ?Hj, ?Hj'; simpl; congruence. }
    congruence. }
  unfold in_bucket in *. destruct Hb, Hb'. subst. done.
Qed.

(** ** Adding a packet *)

Lemma push_rel h c l skb D :
  cal_rel h c l -> is_Some (h !! skb) -> skb ∉ l.*1 -> 0 < D < 2 ^ 63 ->
  Z.of_nat (length l) + 1 < 2 ^ 32 ->
  exists h' c', dfb_push_to_bucket h c (loc_of D) skb = Some (h', c') /\
    cal_rel h' c' (l ++ [(skb, D)]) /\
    head_time c' = head_time c /\ highest_rate_qid c' = highest_rate_qid c /\
    (forall a s, h !! a = Some s -> exists v, h' !! a = Some (set_next v s)) /\
    (forall a, a ∉ l.*1 -> a <> skb -> h' !! a = h !! a).
Proof.
  intros R Hs Hnew HD Hlen. pose proof (ctz_range D HD) as Hc. pose proof (slot_range D).
  pose proof (rel_buckets _ _ _ R (ctz D) (slot_of D) ltac:(lia) ltac:(lia)) as Hb.
  destruct R as [Rb Rn [Rt Rl] Rc [Rbm Rbit] Rd].
  assert (Hin : forall i b a, a ∈ (filter (in_bucket i b) l).*1 -> a ∈ l.*1).
  { intros i b a Ha. apply list_elem_of_fmap in Ha as (p & -> & Hp).
    apply list_elem_of_filter in Hp as [_ Hp]. apply list_elem_of_fmap. eauto. }
  assert (Hnd : NoDup ((filter (in_bucket (ctz D) (slot_of D)) l).*1 ++ [skb])).
  { apply NoDup_app. split; [by apply nodup_filter|]. split; [|apply NoDup_singleton].
    intros a Ha Ha'. apply list_elem_of_singleton in Ha' as ->. eauto. }
  destruct (list_append_rep _ _ _ _ Hb Hnd Hs) as (h' & bkt' & E & Hrep & Hframe & Hsame).
  exists h'. eexists. split; [|split; [|split; [|split; [|split]]]].
  - unfold dfb_push_to_bucket. rewrite get_bucket_loc by done. simpl. rewrite E. simpl. done.
  - assert (Hcount : forall i, 0 <= i < 64 ->
      <[ctz D := u32 (n_packets c (ctz D) + 1)]> (n_packets c) i =
      Z.of_nat (length (filter (in_queue i) (l ++ [(skb, D)])))).
    { intros i Hi. rewrite filter_app, length_app, filter_cons, filter_nil.
      unfold in_queue at 2. simpl. destruct (decide (ctz D = i)) as [<-|].
      - rewrite fn_insert_eq, Rc by lia. simpl.
        pose proof (length_filter (in_queue (ctz D)) l). rewrite wrap_small by lia. lia.
      - rewrite fn_insert_ne, Rc by lia. simpl. lia. }
    split; cbn [mlcq n_packets_total n_packets bitmap add_packets].
    + intros i b Hi Hbb. rewrite put_bucket_lookup, filter_app, fmap_app, filter_cons, filter_nil.
      case_decide as Hd; case_decide as Hib; rewrite in_bucket_iff in Hib; simpl in Hib.
      * destruct Hd as [-> ->]. done.
      * naive_solver.
      * destruct Hib; naive_solver.
      * simpl. rewrite app_nil_r. eapply list_rep_frame; [|apply Rb; lia].
        intros a Ha. apply Hframe. rewrite elem_of_app, list_elem_of_singleton.
        intros [Ha'| ->]; [|eauto].
        destruct (buckets_disjoint _ _ _ _ _ _ Rn Ha Ha'). naive_solver.
    + rewrite fmap_app. apply NoDup_app. split; [done|]. split; [|apply NoDup_singleton].
      intros a Ha Ha'. apply list_elem_of_singleton in Ha' as ->. eauto.
    + simpl. rewrite length_app. simpl. rewrite wrap_small by lia. split; lia.
    + simpl. apply Hcount.
    + split; [by apply bitmap_set_range; lia|]. intros i Hi. simpl. rewrite bitmap_set, Hcount by lia.
      rewrite Rbit, Rc by lia. rewrite filter_app, length_app, filter_cons, filter_nil.
      unfold in_queue at 2. simpl. destruct (Z.eqb_spec (ctz D) i); case_decide; try done.
      * simpl. rewrite orb_true_r. symmetry. apply negb_true_iff, Z.eqb_neq. lia.
      * simpl. by rewrite orb_false_r, Nat.add_0_r.
    + intros p Hp. apply elem_of_app in Hp as [Hp|Hp]; [eauto|].
      apply list_elem_of_singleton in Hp as ->. done.
  - done.
  - done.
  - done.
  - intros a Ha Hsk. apply Hframe. rewrite elem_of_app, list_elem_of_singleton. naive_solver.
Qed.

(** ** Removing a packet *)

Lemma pop_rel h c l D :
  cal_rel h c l -> 0 < D < 2 ^ 63 ->
  match filter (in_bucket (ctz D) (slot_of D)) l with
  | [] => dfb_pop_from_bucket h c (loc_of D) = Some (h, c, None)
  | p :: _ => exists h' c' l1 l2,
      dfb_pop_from_bucket h c (loc_of D) = Some (h', c', Some p.1) /\
      l = l1 ++ p :: l2 /\ filter (in_bucket (ctz D) (slot_of D)) l1 = [] /\
      in_bucket (ctz D) (slot_of D) p /\ cal_rel h' c' (l1 ++ l2) /\
      head_time c' = head_time c /\ highest_rate_qid c' = highest_rate_qid c /\
      (forall a s, h !! a = Some s -> exists v, h' !! a = Some (set_next v s))
  end.
Proof.
  intros R HD. pose proof (ctz_range D HD) as Hc. pose proof (slot_range D).
  pose proof (rel_buckets _ _ _ R (ctz D) (slot_of D) ltac:(lia) ltac:(lia)) as Hb.
  pose proof (list_take_rep _ _ _ Hb (nodup_filter _ _ (rel_nodup _ _ _ R))) as Ht.
  destruct (filter (in_bucket (ctz D) (slot_of D)) l) as [|p k] eqn:Ef.
  { unfold dfb_pop_from_bucket. rewrite get_bucket_loc by done. simpl in *. by rewrite Ht. }
  simpl in Ht. destruct Ht as (h' & bkt' & E & Hrep & Hframe & Hsame).
  destruct (filter_first _ _ _ _ Ef) as (l1 & l2 & El & Ef1 & Ef2 & Hp).
  destruct R as [Rb Rn [Rt Rl] Rc [Rbm Rbit] Rd].
  assert (Hcount : forall i, 0 <= i < 64 ->
    <[ctz D := u32 (n_packets c (ctz D) + -1)]> (n_packets c) i =
    Z.of_nat (length (filter (in_queue i) (l1 ++ l2)))).
  { intros i Hi. destruct Hp as [Hp _]. specialize (Rc i Hi). subst l.
    rewrite filter_app, length_app, filter_cons in Rc. unfold in_queue at 2 in Rc.
    rewrite filter_app, length_app. destruct (decide (ctz D = i)) as [<-|].
    - rewrite fn_insert_eq, Rc, decide_True by done. simpl.
      pose proof (length_filter (in_queue (ctz D)) l1).
      pose proof (length_filter (in_queue (ctz D)) l2).
      rewrite length_app in Rl. simpl in Rl. rewrite wrap_small by lia. lia.
    - rewrite fn_insert_ne, Rc, decide_False by (done || congruence). lia. }
  exists h'. eexists _, l1, l2. split; [|split; [done|split; [done|split; [done|split; [|split; [|split]]]]]].
  - unfold dfb_pop_from_bucket. rewrite get_bucket_loc by done. simpl. rewrite E. simpl. done.
  - split; cbn [mlcq n_packets_total n_packets bitmap add_packets queue_id loc_of].
    + intros i b Hi Hbb. rewrite put_bucket_lookup. case_decide as Hd.
      * destruct Hd as [-> ->]. rewrite filter_app, Ef1, Ef2. done.
      * assert (Ei : filter (in_bucket i b) (l1 ++ l2) = filter (in_bucket i b) l).
        { subst l. rewrite !filter_app, filter_cons, decide_False; [done|].
          rewrite in_bucket_iff in Hp |- *. naive_solver. }
        rewrite Ei. eapply list_rep_frame; [|apply Rb; lia].
        intros a Ha. apply Hframe. intros ->. apply Hd.
        eapply (buckets_disjoint l); [done|apply Ha|]. rewrite Ef. simpl. by constructor.
    + subst l. rewrite fmap_app in *. simpl in Rn. rewrite NoDup_app in *.
      setoid_rewrite NoDup_cons in Rn. setoid_rewrite elem_of_cons in Rn. naive_solver.
    + subst l. rewrite length_app in *. simpl in *. rewrite wrap_small by lia. lia.
    + apply Hcount.
    + assert (Hn : u32 (n_packets c (ctz D) + -1) = <[ctz D := u32 (n_packets c (ctz D) + -1)]> (n_packets c) (ctz D))
        by (by rewrite fn_insert_eq).
      change (n_packets (dfb_put_bucket c (loc_of D) bkt')) with (n_packets c).
      split; [case_match; auto using clear_bit_range|]. intros i Hi.
      destruct (decide (i = ctz D)) as [->|Hne].
      * rewrite fn_insert_eq. destruct (Z.eqb_spec (u32 (n_packets c (ctz D) + -1)) 0) as [Hz|Hnz].
        -- rewrite clear_bit_spec, Z.eqb_refl by lia. by rewrite andb_false_r.
        -- rewrite Rbit by lia. apply negb_true_iff, Z.eqb_neq. intros E0. apply Hnz.
           rewrite Rc in E0 by lia. rewrite Hn, Hcount by lia. subst l.
           rewrite filter_app, filter_cons, length_app in E0.
           destruct Hp as [Hp _]. rewrite decide_True in E0 by done. simpl in E0. lia.
      * rewrite fn_insert_ne by done. rewrite <- Rbit by lia. case_match; [|done].
        rewrite clear_bit_spec by lia. destruct (Z.eqb_spec (ctz D) i); [congruence|].
        by rewrite andb_true_r.
    + intros q Hq. apply Rd. subst l. set_solver.
  - done.
  - done.
  - done.
Qed.
