(* ===== verification/DfbEdf.v ===== *)
(** * Earliest deadline first: the enqueue and dequeue of [sch_dfb.c]

    The scan of [dfb_dequeue] over the slots of the highest rate queue finds, among
    all the queued packets, the one with the least deadline (the first queued, of
    those), and both of its loops end. *)

From S2P Require Import Prelude Kernel Dfb DfbCalendar.

(** ** The abstract operations *)

(** [p] is the packet a stable priority queue gives next, [l1 ++ l2] what is left. *)
Definition takes_min (l : list item) (p : item) (l1 l2 : list item) : Prop :=
  l = l1 ++ p :: l2 /\ (forall x, x ∈ l -> p.2 <= x.2) /\ (forall x, x ∈ l1 -> p.2 < x.2).

(** The send time after [clamp_t]: within the round that starts at [head]. *)
Definition clamp_send (head qid t : Z) : Z :=
  Z.min (Z.max t head) (head + (2 ^ (qid + 10) - 2 ^ qid)).

(** The head of the calendar and the deadline of a packet sent at [t] in queue [qid]. *)
Definition enq_head (c : calendar) (l : list item) (qid t : Z) : Z :=
  match l with [] => 2 ^ qid * (t / 2 ^ qid) | _ => head_time c end.

Definition enq_deadline (c : calendar) (l : list item) (qid t : Z) : Z :=
  deadline qid (clamp_send (enq_head c l qid t) qid t).

(** * Lemmas *)

Lemma bitmap_empty h c l : cal_rel h c l -> (bitmap c = 0 <-> l = []).
Proof.
  intros R. destruct (rel_bitmap _ _ _ R) as [Hb Hbit]. split.
  - intros E. destruct l as [|p l]; [done|]. exfalso.
    pose proof (rel_deadline _ _ _ R p ltac:(constructor)) as Hp. pose proof (ctz_range _ Hp).
    specialize (Hbit (ctz p.2) ltac:(lia)). rewrite E, Z.bits_0 in Hbit.
    symmetry in Hbit. apply negb_false_iff, Z.eqb_eq in Hbit.
    rewrite (rel_count _ _ _ R), filter_cons in Hbit by lia. unfold in_queue at 1 in Hbit.
    rewrite decide_True in Hbit by done. simpl in Hbit. lia.
  - intros ->. apply Z.bits_inj'. intros n Hn. rewrite Z.bits_0.
    destruct (Z_lt_le_dec n 64).
    + by rewrite Hbit, (rel_count _ _ _ R) by lia.
    + destruct (decide (bitmap c = 0)) as [->|]; [apply Z.bits_0|].
      apply Z.bits_above_log2; [lia|]. pose proof (Z.log2_lt_pow2 (bitmap c) 64). lia.
Qed.

(** The least queue with packets bounds the queue of every packet. *)
Lemma bitmap_ffs h c l p : cal_rel h c l -> p ∈ l -> 0 < bitmap c /\ ctz (bitmap c) <= ctz p.2.
Proof.
  intros R Hp. destruct (rel_bitmap _ _ _ R) as [Hb Hbit].
  assert (bitmap c <> 0). { rewrite (bitmap_empty h c l R). intros ->. set_solver. }
  split; [lia|]. pose proof (rel_deadline _ _ _ R p Hp) as HD. pose proof (ctz_range _ HD).
  destruct (Z_lt_le_dec (ctz p.2) (ctz (bitmap c))) as [Hlt|]; [|done]. exfalso.
  pose proof (testbit_below_ctz (bitmap c) (ctz p.2) ltac:(lia) ltac:(lia)) as E.
  rewrite Hbit in E by lia. apply negb_false_iff, Z.eqb_eq in E.
  rewrite (rel_count _ _ _ R) in E by lia.
  assert (Hin : p ∈ filter (in_queue (ctz p.2)) l) by (by apply list_elem_of_filter).
  destruct (filter _ l); [set_solver|]. simpl in E. lia.
Qed.

Lemma cal_rel_same h c c' l :
  mlcq c' = mlcq c -> n_packets_total c' = n_packets_total c -> n_packets c' = n_packets c ->
  bitmap c' = bitmap c -> cal_rel h c l -> cal_rel h c' l.
Proof. intros E1 E2 E3 E4 R. split; rewrite ?E1, ?E2, ?E3, ?E4; apply R. Qed.

Lemma cal_rel_head h c l t : cal_rel h c l -> cal_rel h (set_head_time t c) l.
Proof. by apply cal_rel_same. Qed.

Lemma cal_rel_hrq h c l i : cal_rel h c l -> cal_rel h (set_hrq i c) l.
Proof. by apply cal_rel_same. Qed.

#[export] Hint Resolve cal_rel_head cal_rel_hrq : words.

(** Two deadlines of one bucket within a round of it are equal. *)
Lemma no_alias head D D' :
  0 < D -> 0 < D' -> ctz D' = ctz D -> slot_of D' = slot_of D ->
  head < D <= D' -> D' <= head + 2 ^ (ctz D' + 10) -> D' = D.
Proof.
  intros HD HD' Hc Hs Hle Hr. pose proof (ctz_nonneg D).
  destruct (ctz_divide D HD) as [m Hm], (ctz_divide D' HD') as [m' Hm']. unfold slot_of in Hs.
  rewrite Hc in *. rewrite Z.pow_add_r in Hr by lia. remember (ctz D) as e. pose proof (pow2_pos e).
  subst D D'. rewrite !Z.div_mul in Hs by lia.
  assert (m <= m') by (apply (Z.mul_le_mono_pos_r _ _ (2 ^ e)); lia).
  pose proof (Z.div_mod m 1024 ltac:(lia)). pose proof (Z.div_mod m' 1024 ltac:(lia)).
  destruct (Z.eq_dec m m') as [->|]; [done|]. exfalso.
  assert (m + 1024 <= m') by lia.
  assert ((m + 1024) * 2 ^ e <= m' * 2 ^ e) by (apply Z.mul_le_mono_nonneg_r; lia). lia.
Qed.

Lemma mask_down qid t :
  0 <= qid < 64 -> 0 <= t < 2 ^ 64 -> Z.land t (dfb_head_time_mask qid) = 2 ^ qid * (t / 2 ^ qid).
Proof. intros. unfold dfb_head_time_mask. apply land_high_ones; lia. Qed.

Lemma round_down_bounds qid t :
  0 <= qid -> 2 ^ qid * (t / 2 ^ qid) <= t < 2 ^ qid * (t / 2 ^ qid) + 2 ^ qid.
Proof. intros. apply div_mul_le, pow2_pos; lia. Qed.

Lemma round_down_divide qid t : (2 ^ qid | 2 ^ qid * (t / 2 ^ qid)).
Proof. apply Z.divide_factor_l. Qed.

Lemma granularity_pow2 i : 0 <= i < 64 -> u64 (Z.shiftl 1 (i + MIN_GRAN_SCALE)) = 2 ^ i.
Proof.
  intros. unfold MIN_GRAN_SCALE. rewrite Z.add_0_r, Z.shiftl_1_l. apply wrap_small.
  split; [apply Z.pow_nonneg; lia|apply Z.pow_lt_mono_r; lia].
Qed.

#[export] Hint Resolve round_down_divide : words.

(** Moving the head within or past the slot of the old one keeps the packets
    within their round. *)
Lemma round_kept head t D i :
  0 <= i <= ctz D -> 0 < D -> (2 ^ i | t) -> head < t + 2 ^ i -> D <= head + 2 ^ (ctz D + 10) ->
  D <= t + 2 ^ (ctz D + 10).
Proof.
  intros Hi HD Ht Hh Hr. pose proof (ctz_nonneg D). pose proof (pow2_pos i).
  destruct (Z_lt_le_dec (t + 2 ^ (ctz D + 10)) D) as [Hlt|]; [|done]. exfalso.
  assert (t + 2 ^ (ctz D + 10) + 2 ^ i <= D); [|lia].
  apply divide_gap; [lia| | |done].
  - apply Z.divide_add_r; [done|]. apply pow2_divide; lia.
  - eapply Z.divide_trans; [|apply ctz_divide; lia]. apply pow2_divide; lia.
Qed.

Section edf.
Context `{K : KernelApi} `{!KernelApiOk K}.

(** ** The scan *)

Section scan.
Context (h : heap) (c : calendar) (l : list item).
Context (R : cal_rel h c l) (T : timely c l) (Hne : l <> []).

Let hrq := highest_rate_qid c.

Lemma hrq_range : 0 <= hrq < 63.
Proof.
  destruct l as [|p l']; [done|]. destruct (timely_window _ _ T p) as [_ ?]; [constructor|].
  pose proof (rel_deadline _ _ _ R p ltac:(constructor)) as HD. pose proof (ctz_range _ HD).
  destruct T. unfold hrq. lia.
Qed.

Lemma hrq_divide p : p ∈ l -> (2 ^ hrq | p.2).
Proof.
  intros Hp. destruct (timely_window _ _ T p Hp) as [_ ?]. pose proof hrq_range.
  eapply Z.divide_trans; [|apply ctz_divide; apply (rel_deadline _ _ _ R p Hp)].
  apply pow2_divide. unfold hrq in *. lia.
Qed.

(** The scan has reached [t]: the start of a slot, before every deadline. *)
Definition scan_inv (t : Z) : Prop :=
  2 ^ hrq * (head_time c / 2 ^ hrq) <= t /\ (2 ^ hrq | t) /\ forall p, p ∈ l -> t < p.2.

Lemma scan_slot t p : scan_inv t -> p ∈ l -> t + 2 ^ hrq <= p.2.
Proof.
  intros (_ & Ht & Hlt) Hp. pose proof hrq_range. apply divide_gap; auto using hrq_divide.
  apply pow2_pos; lia.
Qed.

Lemma scan_start : scan_inv (2 ^ hrq * (head_time c / 2 ^ hrq)).
Proof.
  pose proof hrq_range. split; [lia|]. split; [auto with words|]. intros p Hp.
  destruct (timely_window _ _ T p Hp). pose proof (round_down_bounds hrq (head_time c)). lia.
Qed.

Lemma scan_bounds t : scan_inv t -> 0 <= t < 2 ^ 63 - 2 ^ hrq.
Proof.
  intros Ht. pose proof hrq_range.
  assert (exists p, p ∈ l) as [p Hp] by (destruct l as [|p ?]; [done|exists p; constructor]).
  pose proof (rel_deadline _ _ _ R p Hp). pose proof (scan_slot t p Ht Hp).
  destruct Ht as (? & _). pose proof (timely_head _ _ T).
  assert (0 <= head_time c / 2 ^ hrq) by (apply Z.div_pos; [lia|apply pow2_pos; lia]).
  pose proof (pow2_pos hrq). nia.
Qed.

Lemma scan_location t :
  scan_inv t -> dfb_find_real_location hrq t = Some (loc_of (t + 2 ^ hrq)) /\ 0 < t + 2 ^ hrq < 2 ^ 63.
Proof.
  intros Ht. pose proof (scan_bounds t Ht). pose proof hrq_range. pose proof (pow2_pos hrq).
  rewrite find_real_location_deadline, deadline_aligned by (try apply Ht; lia). split; [done|lia].
Qed.

(** A packet found in the bucket of a slot is due at the end of the slot, and
    none is due before. *)
Lemma scan_hit t p :
  scan_inv t -> p ∈ l -> in_bucket (ctz (t + 2 ^ hrq)) (slot_of (t + 2 ^ hrq)) p ->
  p.2 = t + 2 ^ hrq.
Proof.
  intros Ht Hp [Hc Hs]%in_bucket_iff. destruct (scan_location t Ht) as [_ HD].
  pose proof (scan_slot t p Ht Hp). destruct (timely_window _ _ T p Hp) as [Hw _].
  destruct Ht as (Ht0 & _). pose proof hrq_range. pose proof (round_down_bounds hrq (head_time c)).
  eapply (no_alias (head_time c)); try done; lia.
Qed.

Lemma scan_min t p :
  scan_inv t -> p ∈ l -> p.2 = t + 2 ^ hrq -> in_bucket (ctz (t + 2 ^ hrq)) (slot_of (t + 2 ^ hrq)) p.
Proof. intros Ht Hp E. apply in_bucket_iff. by rewrite E. Qed.

(** If the bucket of the slot is empty, the scan may advance. *)
Lemma scan_advance t :
  scan_inv t -> filter (in_bucket (ctz (t + 2 ^ hrq)) (slot_of (t + 2 ^ hrq))) l = [] ->
  scan_inv (t + 2 ^ hrq).
Proof.
  intros Ht E. pose proof hrq_range. pose proof (pow2_pos hrq). split; [|split].
  - destruct Ht. lia.
  - apply Z.divide_add_r; [apply Ht|done].
  - intros p Hp. pose proof (scan_slot t p Ht Hp).
    destruct (Z.eq_dec p.2 (t + 2 ^ hrq)) as [Ep|]; [|lia]. exfalso.
    eapply filter_nil_not; [done|apply Hp|]. by apply scan_min.
Qed.

Definition scan_post (now : Z) (r : scan_result) : Prop :=
  match r with
  | Found h' c' t skb => exists l1 l2,
      takes_min l (skb, t + 2 ^ hrq) l1 l2 /\ t <= now /\ scan_inv t /\ cal_rel h' c' (l1 ++ l2) /\
      head_time c' = head_time c /\ highest_rate_qid c' = hrq /\
      (forall a s, h !! a = Some s -> exists v, h' !! a = Some (set_next v s))
  | Passed t => now < t /\ scan_inv t
  | Fault => False
  end.

Lemma scan_step_ok now t :
  0 <= now < 2 ^ 62 -> scan_inv t ->
  match scan_step h c hrq (2 ^ hrq) now t with
  | inl t' => scan_inv t' /\ 0 <= now + 2 ^ hrq - t' < now + 2 ^ hrq - t
  | inr r => scan_post now r
  end.
Proof.
  intros Hnow Ht. pose proof (scan_bounds t Ht). pose proof hrq_range. pose proof (pow2_pos hrq).
  unfold scan_step. rewrite Z.geb_leb. destruct (Z.leb_spec t now); [|by split].
  destruct (scan_location t Ht) as [-> HD].
  pose proof (pop_rel h c l (t + 2 ^ hrq) R HD) as Hpop.
  destruct (filter _ l) as [|p k] eqn:Ef.
  - rewrite Hpop, wrap_small by lia. split; [by apply scan_advance|lia].
  - destruct Hpop as (h' & c' & l1 & l2 & -> & El & Ef1 & Hin & R' & ? & ? & ?).
    assert (Hp : p ∈ l) by (rewrite El; set_solver).
    pose proof (scan_hit t p Ht Hp Hin) as Ep. exists l1, l2. destruct p as [a D]. simpl in *.
    subst D. split; [split; [done|split]|done].
    + intros x Hx. simpl. by apply scan_slot.
    + intros x Hx. simpl. assert (x ∈ l) by (rewrite El; set_solver).
      pose proof (scan_slot t x Ht ltac:(done)).
      destruct (Z.eq_dec x.2 (t + 2 ^ hrq)) as [Ex|]; [|lia]. exfalso.
      eapply (filter_nil_not _ l1 x); [done|done|]. by apply scan_min.
Qed.

(** The scan ends, at the packet with the least deadline or past [now]. *)
Lemma scan_ok now :
  0 <= now < 2 ^ 62 ->
  exists r, iter_until fuel64 (scan_step h c hrq (2 ^ hrq) now) (2 ^ hrq * (head_time c / 2 ^ hrq))
            = inr r /\ scan_post now r.
Proof.
  intros Hnow. pose proof scan_start as H0. pose proof (scan_bounds _ H0).
  pose proof hrq_range. assert (2 ^ hrq < 2 ^ 63) by (apply Z.pow_lt_mono_r; lia).
  apply (iter_until_total scan_inv (scan_post now) (fun t => now + 2 ^ hrq - t)); auto.
  - intros t Ht. by apply scan_step_ok.
  - unfold fuel64. lia.
Qed.

(** ** The search for the next packet *)

Definition next_post (r : option Z) : Prop :=
  match r with
  | Some u => exists p, p ∈ l /\ p.2 = u + 2 ^ hrq /\ forall x, x ∈ l -> p.2 <= x.2
  | None => False
  end.

Lemma next_step_ok c' u :
  mlcq c' = mlcq c -> scan_inv u ->
  match next_step c' hrq (2 ^ hrq) (u64 (u - 2 ^ hrq)) with
  | inl s => s = u64 (u + 2 ^ hrq - 2 ^ hrq) /\ scan_inv (u + 2 ^ hrq)
  | inr r => next_post r
  end.
Proof.
  intros Em Hu. pose proof (scan_bounds u Hu). pose proof hrq_range. pose proof (pow2_pos hrq).
  unfold next_step. replace (u64 (u64 (u - 2 ^ hrq) + 2 ^ hrq)) with u.
  2:{ unfold wrap. rewrite Z.add_mod_idemp_l by lia. rewrite Z.mod_small; lia. }
  destruct (scan_location u Hu) as [-> HD]. rewrite get_bucket_loc, Em by done.
  pose proof (ctz_range _ HD). pose proof (slot_range (u + 2 ^ hrq)).
  pose proof (list_rep_head _ _ _ (rel_buckets _ _ _ R (ctz (u + 2 ^ hrq)) (slot_of (u + 2 ^ hrq))
    ltac:(lia) ltac:(lia))) as Hh.
  unfold dfb_bucket_is_empty. destruct (head _) as [a|].
  - destruct (filter _ l) as [|p k] eqn:Ef; [naive_solver|].
    assert (Hp : p ∈ filter (in_bucket (ctz (u + 2 ^ hrq)) (slot_of (u + 2 ^ hrq))) l)
      by (rewrite Ef; constructor).
    apply list_elem_of_filter in Hp as [Hin Hp]. simpl. exists p.
    rewrite (scan_hit u p Hu Hp Hin). split; [done|]. split; [done|]. intros. by apply scan_slot.
  - destruct Hh as [Hh _]. specialize (Hh eq_refl). split.
    + rewrite wrap_small; lia.
    + apply scan_advance; [done|]. by apply fmap_nil_inv in Hh.
Qed.

(** The search ends, since the calendar is not empty. *)
Lemma next_ok c' u :
  mlcq c' = mlcq c -> scan_inv u ->
  exists r, iter_until fuel64 (next_step c' hrq (2 ^ hrq)) (u64 (u - 2 ^ hrq)) = inr r /\ next_post r.
Proof.
  intros Em Hu. pose proof hrq_range. pose proof (pow2_pos hrq).
  assert (Hsmall : forall v, scan_inv v -> u64 (u64 (v - 2 ^ hrq) + 2 ^ hrq) = v).
  { intros v Hv. pose proof (scan_bounds v Hv). unfold wrap. rewrite Z.add_mod_idemp_l by lia.
    rewrite Z.mod_small; lia. }
  apply (iter_until_total (fun s => exists v, s = u64 (v - 2 ^ hrq) /\ scan_inv v) next_post
    (fun s => 2 ^ 63 - u64 (s + 2 ^ hrq))).
  - intros s (v & -> & Hv). pose proof (next_step_ok c' v Em Hv) as Hs.
    destruct (next_step _ _ _ _) as [s'|r]; [|done]. destruct Hs as [-> Hv'].
    split; [eauto|]. rewrite !Hsmall by done. pose proof (scan_bounds _ Hv'). lia.
  - eauto.
  - rewrite Hsmall by done. pose proof (scan_bounds u Hu). unfold fuel64. lia.
Qed.

End scan.

(** ** Dequeue *)

(** What [dequeue_calendar] does at time [now] to a calendar that holds [l]. *)
Definition dequeue_post (now : Z) (h : heap) (c : calendar) (l : list item)
    (r : heap * calendar * ptr * option Z) : Prop :=
  let '(h', c', skb, wd) := r in
  match skb with
  | Some a => exists D l1 l2,
      takes_min l (a, D) l1 l2 /\ D - 2 ^ highest_rate_qid c <= now /\ wd = None /\
      cal_rel h' c' (l1 ++ l2) /\ timely c' (l1 ++ l2) /\
      (forall x s, h !! x = Some s -> exists v, h' !! x = Some (set_next v s))
  | None => exists D,
      (exists p, p ∈ l /\ p.2 = D) /\ (forall x, x ∈ l -> D <= x.2) /\
      now < D - 2 ^ highest_rate_qid c /\ wd = Some (D - 2 ^ highest_rate_qid c) /\
      h' = h /\ cal_rel h c' l /\ head_time c' = Z.land now (dfb_head_time_mask (highest_rate_qid c)) /\
      (head_time c <= now -> timely c' l)
  end.

(** The least queue that still has packets is at most that of each packet. *)
Lemma next_hrq_ok h c l i :
  cal_rel h c l -> 0 <= i < 64 -> (forall p, p ∈ l -> i <= ctz p.2) ->
  let j := if n_packets c i =? 0
           then if bitmap c =? 0 then QUEUE_NUM - 1 else __ffs (bitmap c) else i in
  0 <= j < 64 /\ forall p, p ∈ l -> j <= ctz p.2.
Proof.
  intros R Hi Hl. simpl. destruct (rel_bitmap _ _ _ R) as [Hb _].
  destruct (n_packets c i =? 0); [|done]. destruct (Z.eqb_spec (bitmap c) 0) as [E|E].
  - split; [unfold QUEUE_NUM; lia|]. apply (bitmap_empty _ _ _ R) in E as ->. set_solver.
  - rewrite ffs_ctz by lia. pose proof (ctz_nonneg (bitmap c)).
    pose proof (ctz_lt (bitmap c) 64 ltac:(lia)). split; [lia|].
    intros p Hp. by destruct (bitmap_ffs h c l p R Hp).
Qed.

Lemma dequeue_calendar_ok now h c l :
  cal_rel h c l -> timely c l -> l <> [] -> 0 <= now < 2 ^ 62 ->
  exists r, dequeue_calendar now h c = Some r /\ dequeue_post now h c l r.
Proof.
  intros R T Hne Hnow. pose proof (hrq_range h c l R T Hne) as Hh. pose proof (timely_head _ _ T).
  unfold dequeue_calendar. rewrite option_guard_True by (unfold MIN_GRAN_SCALE; lia).
  cbn [mbind option_bind]. rewrite mask_down, granularity_pow2 by lia.
  destruct (scan_ok h c l R T Hne now Hnow) as (r & -> & Hr). destruct r as [h' c' t skb|t|].
  - destruct Hr as (l1 & l2 & Hm & Htn & Ht & R' & E1 & E2 & Hsame).
    assert (Hl : forall p, p ∈ l1 ++ l2 -> p ∈ l) by (destruct Hm as [-> _]; set_solver).
    assert (Rh : cal_rel h' (set_head_time t c') (l1 ++ l2)) by auto with words.
    destruct (next_hrq_ok h' (set_head_time t c') (l1 ++ l2) (highest_rate_qid c)) as [Hj Hjl];
      [done|lia|intros p Hp; apply (timely_window _ _ T p (Hl p Hp))|].
    eexists. split; [done|]. exists (t + 2 ^ highest_rate_qid c), l1, l2.
    split; [done|]. split; [lia|]. split; [done|]. split; [|split; [|done]].
    + destruct (_ =? 0); auto with words.
    + pose proof (scan_bounds h c l R T Hne t Ht). destruct Hm as (El & Hmin & _).
      pose proof (pow2_pos (highest_rate_qid c)).
      split; [|by destruct (n_packets _ _ =? 0); simpl; lia|].
      * intros p Hp. pose proof (Hl p Hp) as Hpl. specialize (Hmin p Hpl). simpl in Hmin.
        destruct (timely_window _ _ T p Hpl) as [Hw Hq].
        assert (head_time c < t + 2 ^ highest_rate_qid c).
        { destruct Ht as [Ht0 _]. pose proof (round_down_bounds (highest_rate_qid c) (head_time c)). lia. }
        assert (p.2 <= t + 2 ^ (ctz p.2 + 10)).
        { eapply round_kept; [|lia|apply Ht|done|lia]. lia. }
        specialize (Hjl p Hp). destruct (n_packets _ _ =? 0); simpl in *; lia.
      * destruct (n_packets _ _ =? 0); simpl in *; lia.
  - destruct Hr as [Htn Ht].
    set (c' := set_head_time (Z.land now (dfb_head_time_mask (highest_rate_qid c))) c).
    destruct (next_ok h c l R T Hne c' t) as (r & -> & Hr); [done|done|].
    destruct r as [u|]; [|done]. destruct Hr as (p & Hp & Ep & Hmin).
    eexists. split; [done|]. exists p.2. replace (p.2 - 2 ^ highest_rate_qid c) with u by lia.
    pose proof (scan_slot h c l R T Hne t p Ht Hp).
    split; [eauto|]. split; [done|]. split; [lia|]. split; [done|]. split; [done|].
    split; [unfold c'; auto with words|]. split; [done|]. intros Hhn. unfold c'. rewrite mask_down by lia.
    pose proof (round_down_bounds (highest_rate_qid c) now).
    pose proof (round_down_bounds (highest_rate_qid c) (head_time c)).
    split; simpl; [|split; [|lia]|lia].
    + intros x Hx. destruct (timely_window _ _ T x Hx) as [Hw Hq]. split; [|done].
      split; [pose proof (proj2 (proj2 Ht) x Hx); lia|].
      eapply round_kept; [| |apply round_down_divide| |apply Hw]; lia.
    + apply Z.mul_nonneg_nonneg; [apply Z.pow_nonneg; lia|]. apply Z.div_pos; [lia|apply pow2_pos; lia].
  - done.
Qed.

(** ** Enqueue *)

Lemma clamp_send_bounds head qid t :
  0 <= qid -> 0 <= head -> head <= clamp_send head qid t <= head + 2 ^ (qid + 10) - 2 ^ qid.
Proof.
  intros Hq Hh. unfold clamp_send. pose proof (pow2_mono qid (qid + 10)). lia.
Qed.

Lemma enq_head_range c l qid t :
  0 <= qid -> 0 <= t < 2 ^ 62 -> 0 <= head_time c < 2 ^ 62 -> 0 <= enq_head c l qid t < 2 ^ 62.
Proof.
  intros. unfold enq_head. destruct l; [|done].
  pose proof (round_down_bounds qid t). pose proof (pow2_pos qid).
  assert (0 <= t / 2 ^ qid) by (apply Z.div_pos; lia). nia.
Qed.

(** The deadline of an accepted packet: within the round of its queue. *)
Lemma enq_deadline_window c l qid t :
  0 <= qid <= 41 -> 0 <= t < 2 ^ 62 -> 0 <= head_time c < 2 ^ 62 ->
  let head := enq_head c l qid t in
  let D := enq_deadline c l qid t in
  head < D <= head + 2 ^ (ctz D + 10) /\ qid <= ctz D /\ D < 2 ^ 63.
Proof.
  intros Hq Ht Hh head D. pose proof (enq_head_range c l qid t ltac:(lia) Ht Hh) as Hr. fold head in Hr.
  pose proof (clamp_send_bounds head qid t ltac:(lia) ltac:(lia)) as Hc.
  set (u := clamp_send head qid t) in *. pose proof (deadline_bounds qid u ltac:(lia)) as Hd.
  change (deadline qid u) with D in Hd.
  assert (qid <= ctz D) by (apply (deadline_ctz qid u); lia).
  pose proof (pow2_mono (qid + 10) (ctz D + 10) ltac:(lia)).
  pose proof (pow2_mono (qid + 10) 51 ltac:(lia)).
  split; [lia|]. split; [done|]. lia.
Qed.

Lemma enqueue_to_cq_ok h c l skb s qid :
  cal_rel h c l -> timely c l -> h !! skb = Some s -> skb ∉ l.*1 ->
  0 <= skb_mstamp_ns s < 2 ^ 62 -> 0 <= qid <= 41 -> (l <> [] -> highest_rate_qid c <= qid) ->
  Z.of_nat (length l) + 1 < 2 ^ 32 ->
  exists h' c', dfb_enqueue_to_cq h c skb qid = Some (h', c') /\
    cal_rel h' c' (l ++ [(skb, enq_deadline c l qid (skb_mstamp_ns s))]) /\
    timely c' (l ++ [(skb, enq_deadline c l qid (skb_mstamp_ns s))]) /\
    head_time c' = enq_head c l qid (skb_mstamp_ns s) /\
    highest_rate_qid c' = (match l with [] => qid | _ => highest_rate_qid c end) /\
    (forall a s, h !! a = Some s -> exists v, h' !! a = Some (set_next v s)) /\
    (forall a, a ∉ l.*1 -> a <> skb -> h' !! a = h !! a).
Proof.
  intros R T Hs Hnew Ht Hq Hhq Hlen. set (t := skb_mstamp_ns s) in *.
  pose proof (timely_head _ _ T) as Hh. pose proof (timely_hrq _ _ T).
  destruct (enq_deadline_window c l qid t Hq Ht Hh) as (Hw & Hqc & H63).
  pose proof (enq_head_range c l qid t ltac:(lia) Ht Hh) as Hr.
  set (D := enq_deadline c l qid t) in *. set (hd := enq_head c l qid t) in *.
  set (c1 := if bitmap c =? 0
             then set_hrq qid (set_head_time (Z.land t (dfb_head_time_mask qid)) c) else c).
  assert (E1 : head_time c1 = hd /\ cal_rel h c1 l /\
    highest_rate_qid c1 = (match l with [] => qid | _ => highest_rate_qid c end)).
  { unfold c1, hd, enq_head. pose proof (bitmap_empty h c l R) as Hbm.
    destruct (Z.eqb_spec (bitmap c) 0) as [E|E].
    - apply Hbm in E. subst l. split; [apply mask_down; lia|]. auto with words.
    - destruct l; [by destruct E; apply Hbm|]. auto. }
  destruct E1 as (Eh & R1 & Eq). pose proof (pow2_mono (qid + 10) 51 ltac:(lia)).
  pose proof (pow2_mono qid (qid + 10) ltac:(lia)). pose proof (pow2_pos qid ltac:(lia)).
  destruct (push_rel h c1 l skb D R1) as (h' & c' & E & R' & Hh' & Hq' & Hsame & Hfr);
    [by eexists|done|lia|done|].
  exists h', c'. split; [|split; [done|split; [|split; [congruence|split; [congruence|done]]]]].
  - unfold dfb_enqueue_to_cq. rewrite option_guard_True by (unfold MIN_GRAN_SCALE; lia).
    cbn [mbind option_bind]. rewrite Hs. cbn [mbind option_bind]. fold t. fold c1.
    rewrite granularity_pow2, Eh by lia. unfold BUCKET_NUM_SCALE.
    rewrite shiftl_pow2, <- Z.pow_add_r by lia.
    rewrite (wrap_small 64 (2 ^ (qid + 10))), (wrap_small 64 (2 ^ (qid + 10) - 2 ^ qid)) by lia.
    rewrite (wrap_small 64 (hd + _)) by lia.
    change (Z.min (Z.max t hd) (hd + (2 ^ (qid + 10) - 2 ^ qid))) with (clamp_send hd qid t).
    pose proof (clamp_send_bounds hd qid t ltac:(lia) ltac:(lia)).
    rewrite find_real_location_deadline by lia. cbn [mbind option_bind]. exact E.
  - split; rewrite ?Hh', ?Hq', ?Eh, ?Eq.
    + intros p [Hp|Hp]%elem_of_app.
      * destruct (timely_window _ _ T p Hp) as [? ?].
        unfold hd, enq_head. destruct l; [set_solver|]. done.
      * apply list_elem_of_singleton in Hp as ->. simpl. split; [done|].
        destruct l; [done|]. specialize (Hhq ltac:(done)). lia.
    + done.
    + destruct l; lia.
Qed.

(** ** The queue of a rate *)

Lemma max_rate_bits : max_rate_highest_bit = 41.
Proof. unfold max_rate_highest_bit. rewrite fls64_bitlen by (vm_compute; split; congruence). done. Qed.

Lemma find_queue_index_eq rate :
  0 <= rate < 2 ^ 64 -> dfb_find_queue_index rate = 41 - bitlen (Z.min max_rate rate).
Proof.
  intros Hr. change max_rate with 1500000000000. unfold dfb_find_queue_index.
  rewrite max_rate_bits. change max_rate with 1500000000000.
  rewrite fls64_bitlen by lia. pose proof (bitlen_nonneg (Z.min 1500000000000 rate)).
  pose proof (bitlen_le (Z.min 1500000000000 rate) 41 ltac:(lia) ltac:(lia)).
  rewrite wrap_small; lia.
Qed.

Lemma find_queue_index_range rate : 0 <= rate < 2 ^ 64 -> 0 <= dfb_find_queue_index rate <= 41.
Proof.
  intros Hr. rewrite find_queue_index_eq by done. change max_rate with 1500000000000.
  pose proof (bitlen_nonneg (Z.min 1500000000000 rate)).
  pose proof (bitlen_le (Z.min 1500000000000 rate) 41 ltac:(lia) ltac:(lia)). lia.
Qed.

End edf.
