(* ===== verification/DfbSystem.v ===== *)
(** * The queueing discipline of [sch_dfb.c] as a whole

    The entry points [dfb_enqueue], [dfb_segment], [dfb_dequeue] and [dfb_init]
    on the state of the discipline: the invariant [holds], the refinement of a
    stable priority queue on deadlines, the accounting of congested flows, and
    two runs that show where the code departs from what its comments say. *)

From S2P Require Import Prelude Kernel Dfb DfbCalendar DfbEdf.

(** ** Invariants of the whole state *)

(** [n_cong_flows] counts the marked entries of the flow table. *)
Record cong_ok (g : congestion) : Prop := {
  cong_table : forall i, 0 <= hash_table g i <= 1;
  cong_count : n_cong_flows g = sum_upto 256 (hash_table g);
  cong_rate_range : 0 <= cong_rate g < 2 ^ 64
}.

Definition holds {Sch} (w : world Sch) (l : list item) : Prop :=
  cal_rel (hp w) (cal (q w)) l /\ timely (cal (q w)) l /\ cong_ok (cong (q w)).

(** ** Draining the calendar: [n] dequeues at time [now] *)

Fixpoint drain `{K : KernelApi} (n : nat) (now : Z) (h : heap) (c : calendar) :
    option (heap * calendar * list addr) :=
  match n with
  | O => Some (h, c, [])
  | S n =>
      '(h1, c1, skb, _) ← dequeue_calendar now h c;
      a ← skb;
      '(h2, c2, out) ← drain n now h1 c1;
      Some (h2, c2, a :: out)
  end.

(** * Congested flows *)

Lemma table_sum_range g : cong_ok g -> 0 <= n_cong_flows g <= 256.
Proof.
  intros [Ht Hc _]. rewrite Hc. pose proof (sum_upto_bounds 256 (hash_table g) 0 1 ltac:(auto)). lia.
Qed.

Lemma table_insert_range g i v j :
  cong_ok g -> 0 <= v <= 1 -> 0 <= <[i := v]> (hash_table g) j <= 1.
Proof.
  intros G Hv. destruct (Z.eq_dec i j) as [->|]; [by rewrite fn_insert_eq|].
  rewrite fn_insert_ne by done. apply G.
Qed.

Lemma mark_congested_ok g hv rate : cong_ok g -> 0 <= hv < 256 -> cong_ok (mark_congested g hv rate).
Proof.
  intros G Hv. pose proof (table_sum_range g G). destruct (cong_table g G hv) as [? ?].
  unfold mark_congested. split.
  - intros j. simpl. destruct (_ =? 0); simpl; apply table_insert_range; auto; lia.
  - destruct (Z.eqb_spec (hash_table g hv) 0) as [E|E]; cbn [n_cong_flows hash_table];
      rewrite sum_upto_insert, <- (cong_count g G) by lia; [|lia].
    rewrite wrap_small; lia.
  - simpl. destruct (_ =? 0); simpl; [apply wrap_range; lia|apply G].
Qed.

Lemma unmark_congested_ok g hv rate :
  cong_ok g -> 0 <= hv < 256 -> cong_ok (unmark_congested g hv rate).
Proof.
  intros G Hv. pose proof (table_sum_range g G). destruct (cong_table g G hv) as [? ?].
  assert (Hle : hash_table g hv <= n_cong_flows g).
  { rewrite (cong_count g G). pose proof (sum_upto_insert 256 (hash_table g) hv 0 ltac:(lia)).
    pose proof (sum_upto_nonneg 256 (<[hv := 0]> (hash_table g))
      ltac:(intros; apply table_insert_range; auto; lia)). lia. }
  unfold unmark_congested. split.
  - intros j. simpl. destruct (_ =? 1); simpl; apply table_insert_range; auto; lia.
  - destruct (Z.eqb_spec (hash_table g hv) 1) as [E|E]; cbn [n_cong_flows hash_table];
      rewrite sum_upto_insert, <- (cong_count g G) by lia; [|lia].
    rewrite wrap_small; lia.
  - simpl. destruct (_ =? 1); simpl; [|apply G]. case_match; [lia|apply wrap_range; lia].
Qed.

Section api.
Context `{K : KernelApi} `{!KernelApiOk K}.

Lemma flow_hash_range s : 0 <= flow_hash s < 256.
Proof.
  unfold flow_hash. destruct (is_tcp4 s) as [[ip tcp]|]; [|lia].
  change (HASHTABLE_SIZE - 1) with (2 ^ 8 - 1). rewrite land_ones_mod by lia.
  apply Z.mod_pos_bound. lia.
Qed.

Lemma update_congestion_ok g s sck : cong_ok g -> cong_ok (update_congestion g s sck).
Proof.
  intros G. unfold update_congestion. destruct sck as [k|]; [|done].
  destruct (is_tcp4 s) as [[_ tcp]|]; [|done]. destruct (_ <=? 0); [done|].
  pose proof (flow_hash_range s).
  destruct (_ >? _), (fin tcp || rst tcp); auto using mark_congested_ok, unmark_congested_ok.
Qed.

Lemma account_dequeue_ok now2 g s :
  cong_ok g -> u64 (now2 - deq_time g) <> 0 ->
  exists g', account_dequeue now2 g s = Some g' /\ cong_ok g' /\ hash_table g' = hash_table g.
Proof.
  intros G Hn. destruct G as [Gt Gc Gr]. unfold account_dequeue.
  destruct (_ =? 0); [eauto using Build_cong_ok|].
  destruct (negb _); [eexists; split; [done|by split]|].
  destruct (_ =? 50); [|eexists; split; [done|by split]].
  rewrite option_guard_True by done. cbn [mbind option_bind].
  eexists. split; [done|]. split; [|done]. split; [done|done|]. simpl.
  pose proof (wrap_range 64 (u64 (3 * cong_rate g) + 50 * 1500 * NSEC_PER_SEC / u64 (now2 - deq_time g))
    ltac:(lia)). split; [apply Z.div_pos; lia|]. apply Z.div_lt_upper_bound; lia.
Qed.

(** ** The chosen queue *)

Lemma choose_qid_range g s rate :
  cong_ok g -> 0 <= rate < 2 ^ 64 -> 0 <= choose_qid g s rate <= 41.
Proof.
  intros G Hr. unfold choose_qid. destruct (_ =? 0); apply find_queue_index_range; [done|apply G].
Qed.

Lemma timely_lower c l i : timely c l -> 0 <= i < 64 -> timely (lower_hrq c i) l.
Proof.
  intros [Tw Th Tq] Hi. split; simpl; [|done|lia].
  intros p Hp. destruct (Tw p Hp). split; [done|lia].
Qed.

Lemma rel_lookup h c l p : cal_rel h c l -> p ∈ l -> is_Some (h !! p.1).
Proof.
  intros R Hp. pose proof (rel_deadline _ _ _ R p Hp) as HD. pose proof (ctz_range _ HD).
  pose proof (slot_range p.2).
  destruct (rel_buckets _ _ _ R (ctz p.2) (slot_of p.2) ltac:(lia) ltac:(lia)) as [Hc _].
  assert (Hin : p.1 ∈ (filter (in_bucket (ctz p.2) (slot_of p.2)) l).*1).
  { apply list_elem_of_fmap. exists p. split; [done|]. apply list_elem_of_filter.
    split; [by apply in_bucket_iff|done]. }
  revert Hc Hin. generalize (head (mlcq c (ctz p.2) (slot_of p.2))). intros pt.
  generalize ((filter (in_bucket (ctz p.2) (slot_of p.2)) l).*1). intros k. revert pt.
  induction k as [|a k IH]; intros pt Hc Hin; [set_solver|]. destruct Hc as (_ & s & Hs & Hc).
  apply elem_of_cons in Hin as [->|Hin]; eauto.
Qed.

Section system.
Context {Sch : Type} `{Q : QdiscApi Sch}.

Lemma enqueue_ok queue_limit gso_split (w : world Sch) l skb s k :
  holds w l -> hp w !! skb = Some s -> skb ∉ l.*1 -> lookup_sock w (sk s) = Some k ->
  0 < sk_pacing_rate k < 2 ^ 64 -> 0 <= skb_mstamp_ns s < 2 ^ 62 ->
  gso_split && is_gso s = false ->
  Z.of_nat (length l) < queue_limit < 2 ^ 32 ->
  exists w' qid, dfb_enqueue queue_limit gso_split w skb = Some (NET_XMIT_SUCCESS, w') /\
    qid = choose_qid (update_congestion (cong (q w)) s (Some k)) s (sk_pacing_rate k) /\
    0 <= qid <= 41 /\
    holds w' (l ++ [(skb, enq_deadline (cal (q w)) l qid (skb_mstamp_ns s))]) /\
    head_time (cal (q w')) = enq_head (cal (q w)) l qid (skb_mstamp_ns s).
Proof.
  intros (R & T & G) Hs Hnew Hk Hrate Ht Hg Hlim. destruct (rel_total _ _ _ R) as [Etot _].
  pose proof (update_congestion_ok _ s (Some k) G) as G'.
  pose proof (choose_qid_range _ s (sk_pacing_rate k) G' ltac:(lia)) as Hq.
  set (qid := choose_qid _ s _) in *.
  destruct (enqueue_to_cq_ok (hp w) (lower_hrq (cal (q w)) qid) l skb s qid) as
    (h' & c' & E & R' & T' & Hh & _); auto; [by apply cal_rel_hrq|apply timely_lower; [done|lia]| |lia|].
  { intros _. simpl. lia. }
  eexists _, qid. split; [|split; [done|split; [done|]]].
  - unfold dfb_enqueue. rewrite Hs. cbn [mbind option_bind]. rewrite Hk.
    rewrite Etot. destruct (Z.ltb_spec (Z.of_nat (length l)) queue_limit); [|lia].
    destruct (Z.eqb_spec (sk_pacing_rate k) 0); [lia|]. rewrite Hg. cbn [cong cal set_cong].
    fold qid. rewrite E. cbn [mbind option_bind]. done.
  - split; [|done]. split; [done|]. split; [done|done].
Qed.

(** A full queue drops the packet and leaves the calendar alone. *)
Lemma enqueue_full queue_limit gso_split (w : world Sch) l skb s :
  holds w l -> hp w !! skb = Some s -> queue_limit <= Z.of_nat (length l) ->
  exists w', dfb_enqueue queue_limit gso_split w skb = Some ((qdisc_drop skb (sch w)).1, w') /\
    q w' = q w /\ hp w' = hp w /\ sch w' = (qdisc_drop skb (sch w)).2.
Proof.
  intros (R & _ & _) Hs Hlim. destruct (rel_total _ _ _ R) as [Etot _].
  unfold dfb_enqueue. rewrite Hs. cbn [mbind option_bind]. rewrite Etot.
  destruct (Z.ltb_spec (Z.of_nat (length l)) queue_limit); [lia|].
  destruct (qdisc_drop skb (sch w)). eauto.
Qed.

Lemma finish_ok now2 (w : world Sch) a s :
  cong_ok (cong (q w)) -> hp w !! a = Some s -> u64 (now2 - deq_time (cong (q w))) <> 0 ->
  exists w', finish_dequeue now2 w (Some a) = Some (Some a, w') /\
    hp w' = hp w /\ cal (q w') = cal (q w) /\ cong_ok (cong (q w')) /\
    watchdog (q w') = watchdog (q w) /\ sch w' = sch w.
Proof.
  intros G Hs Hn. destruct (account_dequeue_ok now2 _ s G Hn) as (g' & E & G' & _).
  unfold finish_dequeue. rewrite Hs. cbn [mbind option_bind]. rewrite E. cbn [mbind option_bind].
  eexists. split; [done|]. done.
Qed.

End system.
End api.
