(* ===== verification/DfbProps.v ===== *)
(** * What [sch_dfb.c] guarantees

    The theorems on the FlowBundler queueing discipline.  [dequeue_edf] and
    [enqueue_files] state its two entry points against the list of queued
    packets with their deadlines; [drain_sorted] composes them into an order of
    release; [history_holds] and [no_fault] range over all histories of calls
    that respect the protocol of a queueing discipline.  The last two theorems
    are runs in which the code departs from its intent. *)

From S2P Require Import Prelude Kernel Dfb DfbCalendar DfbEdf DfbSystem.

(** ** Reference order: a stable insertion sort on deadlines *)

Fixpoint edf_insert (p : item) (l : list item) : list item :=
  match l with
  | [] => [p]
  | x :: l' => if p.2 <=? x.2 then p :: l else x :: edf_insert p l'
  end.

Fixpoint edf_sort (l : list item) : list item :=
  match l with
  | [] => []
  | p :: l' => edf_insert p (edf_sort l')
  end.

Lemma edf_insert_perm p l : edf_insert p l ≡ₚ p :: l.
Proof.
  induction l as [|x l IH]; simpl; [done|]. destruct (_ <=? _); [done|].
  rewrite IH. apply Permutation_swap.
Qed.

Lemma edf_sort_perm l : edf_sort l ≡ₚ l.
Proof. induction l as [|p l IH]; simpl; [done|]. by rewrite edf_insert_perm, IH. Qed.

Lemma edf_insert_min p l : (forall x, x ∈ l -> p.2 <= x.2) -> edf_insert p l = p :: l.
Proof.
  intros H. destruct l as [|x l]; simpl; [done|].
  destruct (Z.leb_spec p.2 x.2); [done|]. specialize (H x ltac:(set_solver)). lia.
Qed.

(** Taking the first of the earliest packets takes the head of the order. *)
Lemma edf_sort_takes l p l1 l2 : takes_min l p l1 l2 -> edf_sort l = p :: edf_sort (l1 ++ l2).
Proof.
  intros (-> & Hmin & Hlt). induction l1 as [|x l1 IH]; simpl in *.
  - apply edf_insert_min. intros x Hx. apply Hmin. rewrite edf_sort_perm in Hx. set_solver.
  - rewrite IH by (intros; (apply Hmin || apply Hlt); set_solver). simpl.
    specialize (Hlt x ltac:(set_solver)). destruct (Z.leb_spec x.2 p.2); [lia|done].
Qed.

(** The deadlines of packets filed one after the other with the window at
    [head]. *)
Definition seg_deadlines (head qid : Z) (times : list Z) : list Z :=
  map (fun t => deadline qid (clamp_send head qid t)) times.

(** ** Runs *)

(** Packets 1 and 4, both sent at time [t], of a flow with pacing rate [rate]. *)
Definition demo_start (t rate : Z) : world (list addr) :=
  World (<[1%positive := demo_packet t]> (<[4%positive := demo_packet t]> ∅))
    (<[1%positive := Sock rate SK_PACING_FQ 0]> ∅)
    (dfb_init (K := demo_api) 0
       (SchedData (Calendar (fun _ _ => empty_bucket) 0 (fun _ => 0) 0 0 0)
          (Congestion (fun _ => 0) 0 0 0 0 0) (fun _ _ => 0) [])) [].

(** The state after packet 1 has been taken in. *)
Definition demo_world (t rate : Z) : world (list addr) :=
  match dfb_enqueue (K := demo_api) 1000 false (demo_start t rate) 1%positive with
  | Some (_, w) => w
  | None => demo_start t rate
  end.

(** A run: packet 1 is queued, then one dequeue at each time of [nows]; the
    answers, and the times the watchdog was set to. *)
Fixpoint demo_dequeues (nows : list Z) (w : world (list addr)) : option (list ptr * list Z) :=
  match nows with
  | [] => Some ([], watchdog (q w))
  | now :: nows =>
      '(skb, w1) ← dfb_dequeue (K := demo_api) now now w;
      '(out, wd) ← demo_dequeues nows w1;
      Some (skb :: out, wd)
  end.

(** ** Histories of calls *)

Inductive call :=
  | Enqueue (skb : addr)
  | Dequeue (now now2 : Z)
  | Environment (h : heap) (k : gmap addr sock).

Inductive answer :=
  | Status (ret : Z)
  | Packet (skb : ptr)
  | Done.

Section api.
Context `{K : KernelApi} `{!KernelApiOk K}.
Context {Sch : Type} `{Q : QdiscApi Sch}.
Context (queue_limit : Z) (gso_split : bool).

Definition exec (w : world Sch) (c : call) : option (answer * world Sch) :=
  match c with
  | Enqueue skb => '(ret, w') ← dfb_enqueue queue_limit gso_split w skb; Some (Status ret, w')
  | Dequeue now now2 => '(skb, w') ← dfb_dequeue now now2 w; Some (Packet skb, w')
  | Environment h k => Some (Done, World h k (q w) (sch w))
  end.

(** The calls the kernel makes: a packet is allocated and not queued already
    when it is enqueued, its send time is a time of day below 2^62 ns and a
    super-packet is not to be split; the clock is at or after the start of the
    window when a packet is asked for; and whatever the rest of the kernel
    does, it leaves the queued packets alone. *)
Definition admissible (w : world Sch) (owned : list addr) (c : call) : Prop :=
  match c with
  | Enqueue skb => exists s k, hp w !! skb = Some s /\ (skb ∉ owned) /\
      lookup_sock w (sk s) = Some k /\ (0 < sk_pacing_rate k < 2 ^ 64) /\
      (0 <= skb_mstamp_ns s < 2 ^ 62) /\ (gso_split && is_gso s) = false
  | Dequeue now now2 => (qdisc_dequeue_head (sch w)).1 = None /\
      head_time (cal (q w)) <= now < 2 ^ 62 /\ u64 (now2 - deq_time (cong (q w))) <> 0
  | Environment h _ => forall a, a ∈ owned -> h !! a = hp w !! a
  end.

(** The packets owned by the discipline after a call; an enqueue takes the
    packet when the count of packets has grown. *)
Definition owned_after (w w' : world Sch) (owned : list addr) (c : call) (r : answer) : list addr :=
  match c, r with
  | Enqueue skb, _ =>
      if n_packets_total (cal (q w)) =? n_packets_total (cal (q w')) then owned else owned ++ [skb]
  | Dequeue _ _, Packet (Some a) => filter (fun x => x <> a) owned
  | _, _ => owned
  end.

Inductive history (w0 : world Sch) : world Sch -> list addr -> Prop :=
  | history_start : history w0 w0 []
  | history_call w owned c r w' :
      history w0 w owned -> admissible w owned c -> exec w c = Some (r, w') ->
      history w0 w' (owned_after w w' owned c r).

(** * Lemmas *)

Lemma cal_rel_frame h h' c l :
  (forall a, a ∈ l.*1 -> h' !! a = h !! a) -> cal_rel h c l -> cal_rel h' c l.
Proof.
  intros Hf [Rb Rn Rt Rc Rm Rd]. split; try done. intros i b Hi Hb.
  eapply list_rep_frame; [|by apply Rb]. intros a Ha. apply Hf.
  apply list_elem_of_fmap in Ha as (p & -> & Hp). apply list_elem_of_filter in Hp as [_ Hp].
  apply list_elem_of_fmap. eauto.
Qed.

Lemma cal_rel_init h now q0 : cal_rel h (cal (dfb_init now q0)) [].
Proof.
  split; simpl.
  - intros i b _ _. apply list_rep_empty.
  - constructor.
  - lia.
  - done.
  - split; [lia|]. intros i _. by rewrite Z.testbit_0_l.
  - set_solver.
Qed.

Lemma holds_init h k now q0 (s : Sch) :
  0 <= now < 2 ^ 62 -> holds (World h k (dfb_init now q0) s) [].
Proof.
  intros Hn. split; [apply cal_rel_init|]. split; simpl.
  - split; simpl; [set_solver|lia|unfold QUEUE_NUM; lia].
  - split; simpl; [lia|reflexivity|lia].
Qed.

Lemma takes_min_in l p l1 l2 : takes_min l p l1 l2 -> p ∈ l.
Proof. intros [-> _]. set_solver. Qed.

(** What a dequeue does, on the state of the whole discipline. *)
Definition dequeue_result (now : Z) (w : world Sch) (l : list item) (r : ptr) (w' : world Sch) : Prop :=
  match r with
  | Some a => exists D l1 l2, takes_min l (a, D) l1 l2 /\
      D - 2 ^ highest_rate_qid (cal (q w)) <= now /\ holds w' (l1 ++ l2) /\
      watchdog (q w') = watchdog (q w)
  | None => (l = [] /\ q w' = q w) \/
      exists p, p ∈ l /\ (forall x, x ∈ l -> p.2 <= x.2) /\
        now < p.2 - 2 ^ highest_rate_qid (cal (q w)) /\
        watchdog (q w') = (p.2 - 2 ^ highest_rate_qid (cal (q w))) :: watchdog (q w) /\
        cal_rel (hp w') (cal (q w')) l /\
        head_time (cal (q w')) = Z.land now (dfb_head_time_mask (highest_rate_qid (cal (q w)))) /\
        (head_time (cal (q w)) <= now -> holds w' l)
  end.

Lemma dequeue_ok now now2 (w : world Sch) l :
  holds w l -> (qdisc_dequeue_head (sch w)).1 = None -> 0 <= now < 2 ^ 62 ->
  u64 (now2 - deq_time (cong (q w))) <> 0 ->
  exists r w', dfb_dequeue now now2 w = Some (r, w') /\ dequeue_result now w l r w'.
Proof.
  intros (R & T & G) Hf Hnow Hn. unfold dfb_dequeue.
  destruct (qdisc_dequeue_head (sch w)) as [f s']. simpl in Hf. subst f.
  destruct (Z.eqb_spec (bitmap (cal (q w))) 0) as [E|E].
  - eexists None, _. split; [reflexivity|]. left. split; [|done]. by apply (bitmap_empty _ _ _ R).
  - assert (Hne : l <> []) by (intros ->; by apply E, (bitmap_empty _ _ _ R)).
    destruct (dequeue_calendar_ok now (hp w) (cal (q w)) l R T Hne Hnow) as (r & -> & P).
    cbn [mbind option_bind]. destruct r as [[[h' c'] [a|]] wd].
    + pose proof P as (D & l1 & l2 & Hm & HD & -> & R' & T' & Hs).
      destruct (rel_lookup _ _ _ _ R (takes_min_in _ _ _ _ Hm)) as [s Hh]. destruct (Hs _ _ Hh) as [v Hv].
      destruct (finish_ok now2 (World h' (socks w) (SchedData c' (cong (q w)) (real_qid_cache (q w))
        (watchdog (q w))) s') a (set_next v s)) as (w' & Ew & E1 & E2 & E3 & E4 & _); [done|done|done|].
      exists (Some a), w'. split; [done|]. exists D, l1, l2.
      split; [done|]. split; [done|]. split; [|done]. unfold holds. by rewrite E1, E2.
    + destruct P as (D & (p & Hp & <-) & Hmin & Hlt & -> & -> & R' & Hhd & T').
      eexists None, _. split; [reflexivity|]. right. exists p. do 3 (split; [done|]).
      do 3 (split; [done|]). intros Hh. split; [done|]. split; [by apply T'|done].
Qed.

Lemma drain_ok now h c l :
  cal_rel h c l -> timely c l -> 0 <= now < 2 ^ 62 -> (forall p, p ∈ l -> p.2 <= now) ->
  exists h' c', drain (length l) now h c = Some (h', c', (edf_sort l).*1) /\ cal_rel h' c' [].
Proof.
  remember (length l) as n eqn:En. revert h c l En.
  induction n as [|n IH]; intros h c l En R T Hnow Hall.
  - destruct l; [|done]. eauto.
  - assert (Hne : l <> []) by (intros ->; done).
    destruct (dequeue_calendar_ok now h c l R T Hne Hnow) as (r & E & P).
    destruct r as [[[h' c'] [a|]] wd]; simpl; rewrite E; cbn [mbind option_bind].
    + destruct P as (D & l1 & l2 & Hm & HD & _ & R' & T' & _).
      rewrite (edf_sort_takes _ _ _ _ Hm).
      destruct Hm as (-> & _ & _). rewrite length_app in En. simpl in En.
      destruct (IH h' c' (l1 ++ l2)) as (h2 & c2 & -> & R2); auto.
      { rewrite length_app. lia. }
      { intros p Hp. apply Hall. set_solver. }
      eauto.
    + destruct P as (D & (p & Hp & <-) & _ & Hlt & _). specialize (Hall p Hp).
      pose proof (pow2_pos (highest_rate_qid c) ltac:(pose proof (timely_hrq _ _ T); lia)). 
      pose proof (timely_window _ _ T p Hp). pose proof (rel_deadline _ _ _ R p Hp).
      exfalso. lia.
Qed.

Lemma filter_out_nodup (l1 l2 : list item) a D :
  NoDup ((l1 ++ (a, D) :: l2).*1) ->
  filter (fun x => x <> a) ((l1 ++ (a, D) :: l2).*1) = (l1 ++ l2).*1.
Proof.
  rewrite !fmap_app. simpl. intros Hn. apply NoDup_app in Hn as (_ & Hd & Hn).
  apply NoDup_cons in Hn as [Ha _].
  rewrite filter_app, filter_cons_False by naive_solver.
  f_equal; apply filter_all; set_solver.
Qed.

Lemma exec_ok (w : world Sch) l c :
  queue_limit < 2 ^ 32 -> holds w l -> admissible w l.*1 c ->
  exists r w' l', exec w c = Some (r, w') /\ holds w' l' /\ owned_after w w' l.*1 c r = l'.*1.
Proof.
  intros Hlim H Hadm. pose proof H as (R & T & G). destruct (rel_total _ _ _ R) as [Etot _].
  destruct c as [skb|now now2|h k]; simpl in *.
  - destruct Hadm as (s & k & Hs & Hnew & Hk & Hr & Ht & Hg).
    destruct (Z.ltb_spec (Z.of_nat (length l)) queue_limit) as [Hl|Hl].
    + destruct (enqueue_ok queue_limit gso_split w l skb s k) as (w' & qid & -> & _ & _ & H' & _); auto.
      cbn [mbind option_bind]. eexists _, w', _. split; [done|]. split; [exact H'|].
      destruct (rel_total _ _ _ (proj1 H')) as [Etot' _]. rewrite Etot, Etot', length_app. simpl.
      destruct (Z.eqb_spec (Z.of_nat (length l)) (Z.of_nat (length l + 1))); [lia|].
      by rewrite fmap_app.
    + destruct (enqueue_full queue_limit gso_split w l skb s) as (w' & -> & Eq & Eh & _); auto.
      cbn [mbind option_bind]. eexists _, w', l. split; [done|]. rewrite Eq, Z.eqb_refl.
      split; [|done]. unfold holds. by rewrite Eq, Eh.
  - destruct Hadm as (Hf & Hnow & Hn). pose proof (timely_head _ _ T).
    destruct (dequeue_ok now now2 w l) as (r & w' & -> & P); [done|done|lia|done|].
    cbn [mbind option_bind]. destruct r as [a|].
    + destruct P as (D & l1 & l2 & (-> & _) & _ & H' & _).
      eexists _, w', (l1 ++ l2). split; [done|]. split; [done|].
      apply (filter_out_nodup l1 l2 a D), (rel_nodup _ _ _ R).
    + eexists _, w', l. split; [done|]. split; [|done].
      destruct P as [[-> Eq]|(p & _ & _ & _ & _ & _ & _ & H')]; [|by apply H'; lia].
      unfold holds. rewrite Eq. split; [|done]. eapply cal_rel_frame; [|exact R].
      intros a Ha. by apply not_elem_of_nil in Ha.
  - eexists _, _, l. split; [done|]. split; [|done]. split; [|done]. by eapply cal_rel_frame.
Qed.

Lemma history_inv (w0 w : world Sch) owned :
  queue_limit < 2 ^ 32 -> holds w0 [] -> history w0 w owned ->
  exists l, holds w l /\ l.*1 = owned.
Proof.
  intros Hlim H0 Hh. induction Hh as [|w owned c r w' _ (l & H & <-) Hadm E]; [by exists []|].
  destruct (exec_ok w l c Hlim H Hadm) as (r1 & w1 & l' & E1 & H' & Eo).
  rewrite E in E1. simplify_eq. eauto.
Qed.

(** The loop of [dfb_segment] files every segment, each at its own time. *)
Lemma segments_ok qid hdr rate segs n h c l p t nb :
  0 <= qid <= 41 -> (length segs < n)%nat ->
  cal_rel h c l -> timely c l -> (l <> [] -> highest_rate_qid c <= qid) ->
  chain h p segs -> NoDup segs -> (forall a, a ∈ segs -> a ∉ l.*1) ->
  Forall (fun x => 0 <= x < 2 ^ 62) (seg_times hdr rate t (seg_len h <$> segs)) ->
  Z.of_nat (length l + length segs) < 2 ^ 32 ->
  exists h' c', iter_nat n (segment_step qid hdr rate) (h, c, p, t, nb) =
      inr (Some (h', c', nb + Z.of_nat (length segs))) /\
    let l' := l ++ zip segs (seg_deadlines (enq_head c l qid t) qid
                (seg_times hdr rate t (seg_len h <$> segs))) in
    cal_rel h' c' l' /\ timely c' l'.
Proof.
  intros Hq Hn. revert n Hn h c l p t nb.
  induction segs as [|a segs IH]; intros n Hn h c l p t nb R T Hh Hc Hnd Hnew Ht Hlen;
    (destruct n as [|n]; [simpl in Hn; lia|]); simpl in Hn, Hc, Ht, Hlen |- *.
  - subst p. exists h, c. rewrite Z.add_0_r, app_nil_r. done.
  - destruct Hc as (-> & s & Hs & Hc). assert (Hl : seg_len h a = len s) by (unfold seg_len; by rewrite Hs).
    rewrite Hs, !Hl in *.
    apply NoDup_cons in Hnd as [Ha Hnd]. apply Forall_cons in Ht as [Ht0 Ht].
    set (s' := set_mstamp t (set_pkt_len (len s) (set_next None s))).
    assert (R1 : cal_rel (<[a := s']> h) c l).
    { eapply cal_rel_frame; [|exact R]. intros x Hx. rewrite lookup_insert_ne; [done|].
      intros <-. eapply Hnew; [constructor|exact Hx]. }
    destruct (enqueue_to_cq_ok _ c l a s' qid R1 T) as (h' & c' & E & R' & T' & Eh & Eq & _ & Hfr);
      [apply lookup_insert_eq|apply Hnew; by constructor|done|done|done|lia|].
    fold s'. rewrite E. unfold s' in R', T', Eh, Eq, Hfr. simpl skb_mstamp_ns in R', T', Eh.
    set (D := enq_deadline c l qid t) in *.
    assert (Hsame : forall x, x ∈ segs -> h' !! x = h !! x).
    { intros x Hx. assert (x <> a) by (intros ->; done).
      rewrite Hfr, lookup_insert_ne by (first [done|apply Hnew; by constructor]). done. }
    assert (El : seg_len h' <$> segs = seg_len h <$> segs).
    { apply list_fmap_ext. intros i x Hx. unfold seg_len. rewrite Hsame; [done|].
      by eapply list_elem_of_lookup_2. }
    destruct (IH n ltac:(lia) h' c' (l ++ [(a, D)]) (next s)
      (u64 (t + u64 ((len s - Z.min hdr (len s)) * NSEC_PER_SEC) / rate)) (nb + 1)) as
      (h2 & c2 & E2 & R2 & T2).
    + done.
    + done.
    + intros _. rewrite Eq. destruct l; [lia|by apply Hh].
    + eapply chain_frame; [|exact Hc]. done.
    + done.
    + intros x Hx Hin. rewrite fmap_app in Hin. apply elem_of_app in Hin as [Hin|Hin].
      * apply (Hnew x); [by constructor|done].
      * apply list_elem_of_singleton in Hin as ->. done.
    + rewrite El. exact Ht.
    + rewrite length_app. simpl. lia.
    + exists h2, c2. rewrite E2. split; [do 3 f_equal; lia|].
      rewrite El in R2, T2. rewrite <- app_assoc in R2, T2.
      assert (Ed : enq_head c' (l ++ [(a, D)]) qid
        (u64 (t + u64 ((len s - Z.min hdr (len s)) * NSEC_PER_SEC) / rate)) = enq_head c l qid t).
      { rewrite <- Eh. by destruct l. }
      rewrite Ed in R2, T2. done.
Qed.

(** The slot of the chosen queue against the time an MTU takes at the rate. *)
Lemma queue_index_width rate :
  0 < rate <= max_rate ->
  let i := dfb_find_queue_index rate in
  2 ^ i * rate < 2 * max_rate /\ max_rate < 2 * (2 ^ i * rate).
Proof.
  intros Hr. assert (Hm : 2 ^ 40 < max_rate < 2 ^ 41) by (vm_compute; done).
  rewrite find_queue_index_eq, Z.min_r by lia. simpl.
  destruct (bitlen_bounds rate) as [Hl Hu]; [lia|]. pose proof (bitlen_pos rate ltac:(lia)).
  pose proof (Z.log2_nonneg rate).
  assert (bitlen rate <= 41) by (apply bitlen_le; lia).
  assert (E1 : 2 ^ (41 - bitlen rate) * 2 ^ bitlen rate = 2 ^ 41) by (rewrite <- Z.pow_add_r by lia; f_equal; lia).
  assert (E2 : 2 * (2 ^ (41 - bitlen rate) * 2 ^ (bitlen rate - 1)) = 2 ^ 41).
  { rewrite <- Z.pow_add_r, <- Z.pow_succ_r by lia. f_equal. lia. }
  pose proof (pow2_pos (41 - bitlen rate) ltac:(lia)). nia.
Qed.

(** * Properties *)

(** C1. [dfb_dequeue], in a state that [holds] the packets [l], serves them in the order
    of their deadlines: it takes the first queued among the packets with the earliest
    deadline if the slot of that deadline has begun by [now], and otherwise
    takes nothing and sets the watchdog to the time at which the slot begins.  The
    buckets, lists and counts then hold exactly the remaining packets; when nothing
    was taken the head is reset to [now], rounded down, and they lie in its window
    again provided [now] is not before the old head (with a clock behind the head the code
    moves the window back).  Two assumptions make the call return: the FIFO of the
    discipline, of which this module never fills any, is empty, and the reading
    [now2] is not the time of the last rate estimate, by which the code would
    divide zero time ([div64_ul]) at every fiftieth packet. *)
Theorem dequeue_edf now now2 (w : world Sch) l :
  holds w l -> (qdisc_dequeue_head (sch w)).1 = None -> 0 <= now < 2 ^ 62 ->
  u64 (now2 - deq_time (cong (q w))) <> 0 ->
  exists r w', dfb_dequeue now now2 w = Some (r, w') /\ dequeue_result now w l r w'.
Proof. apply dequeue_ok. Qed.

(** C3. [dfb_enqueue] files a packet under the deadline that follows its send
    time, clamped to the window of the queue of its rate, by at most one slot;
    a full queue drops the packet and leaves the calendar as it was. *)
Theorem enqueue_files (w : world Sch) l skb s k :
  holds w l -> queue_limit < 2 ^ 32 -> admissible w l.*1 (Enqueue skb) ->
  hp w !! skb = Some s -> lookup_sock w (sk s) = Some k ->
  exists ret w', dfb_enqueue queue_limit gso_split w skb = Some (ret, w') /\
    if Z.of_nat (length l) <? queue_limit then
      let qid := choose_qid (update_congestion (cong (q w)) s (Some k)) s (sk_pacing_rate k) in
      let head := enq_head (cal (q w)) l qid (skb_mstamp_ns s) in
      let sent := clamp_send head qid (skb_mstamp_ns s) in
      let D := deadline qid sent in
      ret = NET_XMIT_SUCCESS /\ holds w' (l ++ [(skb, D)]) /\ 0 <= qid <= 41 /\
      sent < D <= sent + 2 ^ qid /\ head_time (cal (q w')) = head
    else ret = (qdisc_drop skb (sch w)).1 /\ q w' = q w /\ holds w' l.
Proof.
  intros H Hlim (s1 & k1 & Hs1 & Hnew & Hk1 & Hr & Ht & Hg) Hs Hk.
  assert (s1 = s) as -> by congruence. assert (k1 = k) as -> by congruence.
  destruct (Z.ltb_spec (Z.of_nat (length l)) queue_limit) as [Hl|Hl].
  - destruct (enqueue_ok queue_limit gso_split w l skb s k) as (w' & qid & E & -> & Hq & H' & Hh); auto.
    eexists _, w'. split; [exact E|]. split; [done|]. split; [exact H'|]. split; [done|].
    split; [apply deadline_bounds; lia|done].
  - destruct (enqueue_full queue_limit gso_split w l skb s) as (w' & E & Eq & Eh & _); auto.
    eexists _, w'. split; [exact E|]. split; [done|]. split; [done|]. unfold holds. by rewrite Eq, Eh.
Qed.

(** C5. Conservation over all histories: after any sequence of admissible calls
    from an initialised discipline, the calendar is well formed, its packets lie
    in the window, the congestion counters are right, and the packets in it are
    exactly those taken in and not yet given out, in the order of arrival. *)
Theorem history_holds h k now q0 (s : Sch) w owned :
  0 <= now < 2 ^ 62 -> queue_limit < 2 ^ 32 ->
  history (World h k (dfb_init now q0) s) w owned ->
  exists l, holds w l /\ l.*1 = owned.
Proof. intros Hn Hlim. by apply history_inv, holds_init. Qed.

(** C6. No admissible call ever faults or loops, whatever came before it: none
    follows a NULL or dangling pointer, leaves the array of queues, shifts by 64
    or more, or searches the calendar for ever. *)
Theorem history_no_fault h k now q0 (s : Sch) w owned c :
  0 <= now < 2 ^ 62 -> queue_limit < 2 ^ 32 ->
  history (World h k (dfb_init now q0) s) w owned -> admissible w owned c ->
  exists r w', exec w c = Some (r, w').
Proof.
  intros Hn Hlim Hh Hadm.
  destruct (history_inv _ _ _ Hlim (holds_init h k now q0 s Hn) Hh) as (l & H & <-).
  destruct (exec_ok w l c Hlim H Hadm) as (r & w' & _ & E & _). eauto.
Qed.

(** C40. Draining: once the clock has passed every deadline, as many dequeues as
    there are packets give all of them out, sorted by deadline, packets with the
    same deadline in the order of arrival, and leave the calendar empty. *)
Theorem drain_sorted now h c l :
  cal_rel h c l -> timely c l -> 0 <= now < 2 ^ 62 -> (forall p, p ∈ l -> p.2 <= now) ->
  exists h' c', drain (length l) now h c = Some (h', c', (edf_sort l).*1) /\ cal_rel h' c' [].
Proof. apply drain_ok. Qed.

(** Locations are canonical: packets of flows of different rates share a
    bucket exactly when their deadlines are equal, whichever queue they come
    from, which is what lets one scan of the calendar serve all the queues. *)
Theorem location_canonical qid t qid' t' :
  0 <= qid < 64 -> 0 <= t -> t + 2 ^ qid < 2 ^ 64 ->
  0 <= qid' < 64 -> 0 <= t' -> t' + 2 ^ qid' < 2 ^ 64 ->
  dfb_find_real_location qid t = dfb_find_real_location qid' t' <->
  deadline qid t = deadline qid' t'.
Proof.
  intros. rewrite !find_real_location_deadline by done. split; [|congruence].
  intros E. pose proof (deadline_pos qid t ltac:(lia) ltac:(lia)).
  pose proof (deadline_pos qid' t' ltac:(lia) ltac:(lia)).
  apply loc_of_inj; [done|done|congruence].
Qed.

(** The queue of a flow: its index is at most 41, its slot is within a
    factor of two of the time one MTU takes at the rate of the flow, and a
    faster flow never gets a wider slot. *)
Theorem queue_index_bounds rate :
  0 <= rate < 2 ^ 64 ->
  let i := dfb_find_queue_index rate in
  0 <= i <= 41 /\
  (0 < rate <= max_rate -> 2 ^ i * rate < 2 * max_rate /\ max_rate < 2 * (2 ^ i * rate)) /\
  (forall rate', rate <= rate' < 2 ^ 64 -> dfb_find_queue_index rate' <= i).
Proof.
  intros Hr. split; [by apply find_queue_index_range|]. split; [by apply queue_index_width|].
  intros rate' Hr'. rewrite !find_queue_index_eq by lia.
  pose proof (bitlen_mono (Z.min max_rate rate) (Z.min max_rate rate') ltac:(lia)). lia.
Qed.

(** Congestion accounting: [n_cong_flows] stays the number of marked
    entries of the flow table, so the decrement never wraps, through the update
    made by an enqueue and the rate estimate made by a dequeue. *)
Theorem congestion_counted g s sck now2 :
  cong_ok g -> u64 (now2 - deq_time g) <> 0 ->
  cong_ok (update_congestion g s sck) /\
  exists g', account_dequeue now2 g s = Some g' /\ cong_ok g' /\ hash_table g' = hash_table g.
Proof. intros G Hn. split; [by apply update_congestion_ok|by apply account_dequeue_ok]. Qed.

(** [dfb_segment] paces a super-packet: its segments are filed one by one,
    each at the send time of the one before it plus the time the payload of that
    one takes at the rate of the flow, and the super-packet is consumed. *)
Theorem segment_paces (w : world Sch) l skb s k h1 a segs :
  holds w l -> hp w !! skb = Some s -> lookup_sock w (sk s) = Some k -> 0 < sk_pacing_rate k < 2 ^ 64 ->
  skb_gso_segment skb (hp w) = (Some a, h1) -> chain h1 (Some a) segs ->
  NoDup segs -> skb ∉ l.*1 ++ segs -> (forall x, x ∈ segs -> x ∉ l.*1) ->
  (forall x, x ∈ l.*1 -> h1 !! x = hp w !! x) ->
  (forall h x, x <> skb -> consume_skb skb h !! x = h !! x) ->
  let hdr := u8 (hdr_off s + tcp_hdrlen s) in
  let times := seg_times hdr (sk_pacing_rate k) (skb_mstamp_ns s) (seg_len h1 <$> segs) in
  Forall (fun x => 0 <= x < 2 ^ 62) times ->
  Z.of_nat (length l + length segs) < 2 ^ 32 ->
  let qid := choose_qid (cong (q w)) s (sk_pacing_rate k) in
  let head := enq_head (cal (q w)) l qid (skb_mstamp_ns s) in
  exists w', dfb_segment w skb = Some (NET_XMIT_SUCCESS, w') /\
    holds w' (l ++ zip segs (seg_deadlines head qid times)).
Proof.
  intros (R & T & G) Hs Hk Hr Eg Hc Hnd Hskb Hnew Hf Hcons hdr times Ht Hlen qid head.
  assert (Hq : 0 <= qid <= 41) by (apply choose_qid_range; [done|lia]).
  assert (R1 : cal_rel h1 (lower_hrq (cal (q w)) qid) l).
  { apply cal_rel_hrq. by eapply cal_rel_frame. }
  destruct (segments_ok qid hdr (sk_pacing_rate k) segs (Pos.to_nat fuel64) h1
    (lower_hrq (cal (q w)) qid) l (Some a) (skb_mstamp_ns s) 0) as (h' & c' & E & R' & T'); auto.
  { unfold fuel64. lia. }
  { apply timely_lower; [done|lia]. }
  { intros _. simpl. lia. }
  eexists. split.
  - unfold dfb_segment. rewrite Hs. cbn [mbind option_bind]. rewrite Hk.
    destruct (Z.eqb_spec (sk_pacing_rate k) 0); [lia|]. rewrite Eg, iter_until_nat.
    fold qid hdr. rewrite E, Z.add_0_l. clear E.
    assert (0 < Z.of_nat (length segs)) by (destruct segs; [discriminate Hc|simpl; lia]).
    destruct (Z.gtb_spec (Z.of_nat (length segs)) 0); [reflexivity|lia].
  - clear E. split; [|done]. simpl. eapply cal_rel_frame; [|exact R']. intros x Hx. apply Hcons.
    intros ->. apply Hskb. rewrite fmap_app, elem_of_app in Hx. rewrite elem_of_app.
    destruct Hx as [Hx|Hx]; [by left|right].
    apply list_elem_of_fmap in Hx as ((x & D) & -> & Hx). by eapply elem_of_zip_l.
Qed.

(** The bound on the queue index of a location is dead code:
    [unlikely(x) >= QUEUE_NUM] compares a truth value with 64, so a send time in
    the last slot before 2^64 is given queue 64, whose shift is undefined. *)
Theorem unlikely_clamp_dead :
  dfb_find_real_location 1 (2 ^ 64 - 1) = None /\
  (forall rq, 0 <= rq -> (unlikely rq >=? QUEUE_NUM) = false).
Proof.
  split.
  - unfold dfb_find_real_location, dfb_find_bucket_index.
    rewrite option_guard_True by (vm_compute; done). cbn [mbind option_bind].
    rewrite ffs_ctz by (vm_compute; done). rewrite unlikely_ok.
    reflexivity.
  - intros rq _. rewrite unlikely_ok. by destruct (rq =? 0).
Qed.

End api.

(** A dequeue before the start of the window breaks the order of time: it
    moves the window back, where the bucket of a packet further ahead than the
    1024 slots of its queue is met too early.  The packet below is sent at 5000;
    a dequeue at 1920 gives nothing and sets the watchdog to 5000, and a dequeue
    at 1930 gives it out. *)
Theorem early_release :
  demo_dequeues [1920; 1930] (demo_world 5000 max_rate) = Some ([None; Some 1%positive], [5000]).
Proof. vm_compute. reflexivity. Qed.

(** * Witnesses *)

Section demo.

#[local] Existing Instances demo_api demo_api_ok.

Lemma demo_holds t rate :
  0 <= t < 2 ^ 62 -> 0 < rate < 2 ^ 64 ->
  holds (demo_world t rate)
    [(1%positive, enq_deadline (cal (q (demo_start t rate))) [] (dfb_find_queue_index rate) t)].
Proof.
  intros Ht Hr.
  destruct (enqueue_ok 1000 false (demo_start t rate) [] 1%positive (demo_packet t) (Sock rate SK_PACING_FQ 0))
    as (w' & qid & E & Eq & _ & H & _);
    [apply holds_init; lia|reflexivity|apply not_elem_of_nil|reflexivity|done|done|reflexivity
    |simpl; lia|].
  unfold demo_world. rewrite E. rewrite Eq in H. exact H.
Qed.

Lemma dequeue_edf_witness :
  exists r w', dfb_dequeue 5000 7 (demo_world 5000 1500000000) = Some (r, w') /\
    dequeue_result 5000 (demo_world 5000 1500000000) [(1%positive, 5120)] r w'.
Proof.
  apply (dequeue_edf 5000 7 (demo_world 5000 1500000000) [(1%positive, 5120)]).
  - apply (demo_holds 5000 1500000000); lia.
  - reflexivity.
  - lia.
  - vm_compute. discriminate.
Defined.

Lemma enqueue_files_witness :
  exists ret w', dfb_enqueue 1000 false (demo_world 5000 1500000000) 4%positive = Some (ret, w').
Proof.
  destruct (enqueue_files 1000 false (demo_world 5000 1500000000) [(1%positive, 5120)] 4%positive
    (demo_packet 5000) (Sock 1500000000 SK_PACING_FQ 0)) as (ret & w' & E & _).
  - apply (demo_holds 5000 1500000000); lia.
  - reflexivity.
  - exists (demo_packet 5000), (Sock 1500000000 SK_PACING_FQ 0).
    split; [reflexivity|]. split; [|split; [reflexivity|]].
    + simpl. rewrite list_elem_of_singleton. discriminate.
    + simpl. lia.
  - reflexivity.
  - reflexivity.
  - eauto.
Defined.

(** Packet 1 queued from an initialised discipline is a history. *)
Lemma demo_history :
  history 1000 false (demo_start 5000 1500000000) (demo_world 5000 1500000000) [1%positive].
Proof.
  refine (history_call 1000 false _ (demo_start 5000 1500000000) [] (Enqueue 1%positive)
    (Status NET_XMIT_SUCCESS) (demo_world 5000 1500000000) _ _ _).
  - constructor.
  - exists (demo_packet 5000), (Sock 1500000000 SK_PACING_FQ 0).
    split; [reflexivity|]. split; [apply not_elem_of_nil|]. split; [reflexivity|]. simpl. lia.
  - reflexivity.
Qed.

Lemma history_holds_witness :
  exists l, holds (demo_world 5000 1500000000) l /\ l.*1 = [1%positive].
Proof.
  eapply (history_holds 1000 false); [| |exact demo_history]; lia.
Defined.

Lemma history_no_fault_witness :
  exists r w', exec 1000 false (demo_world 5000 1500000000) (Dequeue 5120 5120) = Some (r, w').
Proof.
  eapply (history_no_fault 1000 false); [| |exact demo_history|]; [lia..|].
  split; [reflexivity|]. split; vm_compute; [split; [discriminate|reflexivity]|discriminate].
Defined.

Lemma drain_sorted_witness :
  exists h' c', drain 1 6000 (hp (demo_world 5000 1500000000)) (cal (q (demo_world 5000 1500000000)))
    = Some (h', c', [1%positive]) /\ cal_rel h' c' [].
Proof.
  destruct (demo_holds 5000 1500000000) as (R & T & _); [lia..|].
  apply (drain_sorted 6000 _ _ [(1%positive, 5120)]); [exact R|exact T|lia|].
  intros p Hp. apply list_elem_of_singleton in Hp as ->. simpl. lia.
Defined.

Lemma location_canonical_witness :
  dfb_find_real_location 3 1000 = dfb_find_real_location 1 1007 <-> deadline 3 1000 = deadline 1 1007.
Proof. apply (location_canonical 3 1000 1 1007); lia. Defined.

Lemma queue_index_bounds_witness :
  0 <= dfb_find_queue_index 1500000000 <= 41.
Proof. apply (queue_index_bounds 1500000000). lia. Defined.

Definition demo_tcp : sk_buff :=
  SkBuff None 0 1500 1500 (Some 1%positive) (Some (Iphdr 10 11 4 IPPROTO_TCP))
    (Some (Tcphdr 80 4000 false false)) false 34 20.

Lemma congestion_counted_witness :
  cong_ok (update_congestion (cong (q (demo_start 0 1))) demo_tcp (Some (Sock 1000 2 3))).
Proof.
  apply (congestion_counted (cong (q (demo_start 0 1))) demo_tcp (Some (Sock 1000 2 3)) 1).
  - apply (holds_init ∅ ∅ 0 (q (demo_start 0 1)) []). lia.
  - vm_compute. discriminate.
Defined.

Lemma unlikely_clamp_dead_witness : dfb_find_real_location 1 (2 ^ 64 - 1) = None.
Proof. apply unlikely_clamp_dead. Defined.

Lemma segment_paces_witness :
  exists w', dfb_segment (demo_start 5000 1500000000) 4%positive = Some (NET_XMIT_SUCCESS, w') /\
    exists D1 D2, holds w' [(5%positive, D1); (6%positive, D2)].
Proof.
  set (h1 := (skb_gso_segment 4%positive (hp (demo_start 5000 1500000000))).2).
  destruct (segment_paces (demo_start 5000 1500000000) [] 4%positive (demo_packet 5000)
    (Sock 1500000000 SK_PACING_FQ 0) h1 5%positive [5%positive; 6%positive]) as (w' & E & H).
  - apply holds_init. lia.
  - reflexivity.
  - reflexivity.
  - simpl. lia.
  - reflexivity.
  - split; [reflexivity|]. eexists. split; [reflexivity|]. split; [reflexivity|].
    eexists. split; reflexivity.
  - apply (bool_decide_unpack _). reflexivity.
  - apply (bool_decide_unpack _). reflexivity.
  - intros x _. apply not_elem_of_nil.
  - intros x Hx. by apply not_elem_of_nil in Hx.
  - intros h x Hx. by apply lookup_delete_ne.
  - replace (seg_times _ _ _ _) with [5000; 5964] by (vm_compute; reflexivity).
    repeat constructor; lia.
  - simpl. lia.
  - exists w'. split; [exact E|]. eexists _, _. exact H.
Defined.

End demo.
