(* ===== verification/KernelQueues.v ===== *)
(** * What [sch_carousel.c] and [sch_eiffel.c] share

    The two disciplines keep packets in arrays of buckets, each a list with its
    length, and cut super-packets in the same way.  The specification of an array
    of buckets is [gq_family]: the packets queued, in order of arrival with their
    time stamps, of which each bucket holds those with its key. *)

From S2P Require Import Prelude Kernel.

Definition item : Type := addr * Z.

(** ** Buckets *)

Record gq_bucket := GqBucket { links : bucket; qlen : Z }.

Definition empty_gq_bucket : gq_bucket := GqBucket empty_bucket 0.

Definition gq_bucket_dequeue_head (h : heap) (b : gq_bucket) : option (heap * gq_bucket * ptr) :=
  '(h, l, skb) ← list_take h (links b);
  Some (h, match skb with Some _ => GqBucket l (to_signed 32 (qlen b - 1)) | None => b end, skb).

Definition bucket_queue_add (h : heap) (b : gq_bucket) (skb : addr) : option (heap * gq_bucket) :=
  '(h, l) ← list_append h (links b) skb;
  Some (h, GqBucket l (to_signed 32 (qlen b + 1))).

(** ** Disciplines *)

(** The statistics of [struct Qdisc]; [set_backlog] is the assignment. *)
Class QdiscStats (Sch : Type) := {
  qdisc_qstats_backlog_inc : sk_buff -> Sch -> Sch;
  qdisc_qstats_backlog_dec : sk_buff -> Sch -> Sch;
  qdisc_bstats_update : sk_buff -> Sch -> Sch;
  set_backlog : Z -> Sch -> Sch
}.

(** The private data [gq], the times given to [qdisc_watchdog_schedule_ns] (the
    latest first), [sch->q.qlen], [sch->limit], and what else [sch] holds. *)
Record kqdisc (G Sch : Type) := KQ {
  gq : G;
  gwatchdog : list Z;
  sch_qlen : Z;
  sch_limit : Z;
  rest : Sch
}.
Arguments KQ {G Sch}.
Arguments gq {G Sch}.
Arguments gwatchdog {G Sch}.
Arguments sch_qlen {G Sch}.
Arguments sch_limit {G Sch}.
Arguments rest {G Sch}.

(** The pacing rate of the socket of a packet, 0 when it has none. *)
Definition sock_rate (socks : gmap addr sock) (s : sk_buff) : Z :=
  match (a ← sk s; socks !! a) with Some x => sk_pacing_rate x | None => 0 end.

Section discipline.
Context {G Sch : Type} `{Q : QdiscApi Sch}.

Definition with_gq (g : G) (k : kqdisc G Sch) : kqdisc G Sch :=
  KQ g (gwatchdog k) (sch_qlen k) (sch_limit k) (rest k).
Definition with_rest (s : Sch) (k : kqdisc G Sch) : kqdisc G Sch :=
  KQ (gq k) (gwatchdog k) (sch_qlen k) (sch_limit k) s.
Definition with_qlen (n : Z) (k : kqdisc G Sch) : kqdisc G Sch :=
  KQ (gq k) (gwatchdog k) n (sch_limit k) (rest k).
Definition with_watchdog (t : Z) (k : kqdisc G Sch) : kqdisc G Sch :=
  KQ (gq k) (t :: gwatchdog k) (sch_qlen k) (sch_limit k) (rest k).

Definition drop_skb (skb : addr) (k : kqdisc G Sch) : Z * kqdisc G Sch :=
  let '(ret, s) := qdisc_drop skb (rest k) in (ret, with_rest s k).

(** [gq_push] of the discipline, and how many packets it holds. *)
Context (push : heap -> G -> addr -> option (heap * G)) (held : G -> Z).

(** The loop of [gq_segment]; [nb] counts the segments taken. *)
Definition gq_segment_step (hdr_len rate : Z) (st : heap * kqdisc G Sch * ptr * Z * Z) :
    (heap * kqdisc G Sch * ptr * Z * Z) + option (heap * kqdisc G Sch * Z) :=
  let '(h, k, segs, send_time, nb) := st in
  match segs with
  | None => inr (Some (h, k, nb))
  | Some a =>
      match h !! a with
      | None => inr None
      | Some s =>
          let payload_len := len s - Z.min hdr_len (len s) in
          let ntime := u64 (send_time + u64 (payload_len * NSEC_PER_SEC) / rate) in
          let h := <[a := set_mstamp send_time (set_pkt_len (len s) (set_next None s))]> h in
          let count k := with_qlen (u32 (sch_qlen k + 1)) k in
          if held (gq k) >=? sch_limit k then
            inl (h, count (snd (drop_skb a k)), next s, ntime, nb)
          else
            match push h (gq k) a with
            | None => inr None
            | Some (h, g) => inl (h, count (with_gq g k), next s, ntime, nb + 1)
            end
      end
  end.

Definition gq_segment (h : heap) (socks : gmap addr sock) (k : kqdisc G Sch) (skb : addr) :
    option (Z * heap * kqdisc G Sch) :=
  s ← h !! skb;
  let rate := sock_rate socks s in
  let hdr_len := u8 (hdr_off s + tcp_hdrlen s) in
  if rate =? 0 then
    '(h, g) ← push h (gq k) skb;
    Some (NET_XMIT_SUCCESS, h, with_qlen (u32 (sch_qlen k + 1)) (with_gq g k))
  else
    let '(segs, h) := skb_gso_segment skb h in
    match segs with
    | None => let '(ret, k) := drop_skb skb k in Some (ret, h, k)
    | Some _ =>
        match iter_until fuel64 (gq_segment_step hdr_len rate) (h, k, segs, skb_mstamp_ns s, 0) with
        | inr (Some (h, k, nb)) =>
            Some (if nb >? 0 then NET_XMIT_SUCCESS else NET_XMIT_DROP, consume_skb skb h, k)
        | _ => None
        end
    end.

End discipline.

(** The socket of a packet is told that packets are paced. *)
Definition mark_paced (socks : gmap addr sock) (s : sk_buff) : gmap addr sock :=
  match sk s with
  | Some a =>
      match socks !! a with
      | Some x => if sk_pacing_status x =? SK_PACING_FQ then socks
                  else <[a := Sock (sk_pacing_rate x) SK_PACING_FQ (icsk_ca_state x)]> socks
      | None => socks
      end
  | None => socks
  end.

Lemma mark_paced_rate socks s : sock_rate (mark_paced socks s) s = sock_rate socks s.
Proof.
  unfold sock_rate, mark_paced. destruct (sk s) as [a|]; [|done]. cbn [mbind option_bind].
  destruct (socks !! a) as [x|] eqn:E; [|by rewrite E]. destruct (_ =? _); [by rewrite E|].
  by rewrite lookup_insert_eq.
Qed.

(** ** Arrays of buckets *)

(** The first packet of the earliest slot. *)
Definition first_of (f : Z -> Z) (l : list item) (p : item) (l1 l2 : list item) : Prop :=
  l = l1 ++ p :: l2 /\ (forall x, x ∈ l -> f p.2 <= f x.2) /\ (forall x, x ∈ l1 -> f p.2 < f x.2).

(** [h'] differs from [h] in the links of packets only. *)
Definition same_packets (h h' : heap) : Prop :=
  forall a s, h !! a = Some s -> exists v, h' !! a = Some (set_next v s).

Lemma same_packets_refl h : same_packets h h.
Proof. intros a s Ha. exists (next s). by destruct s. Qed.

Lemma same_packets_trans h1 h2 h3 : same_packets h1 h2 -> same_packets h2 h3 -> same_packets h1 h3.
Proof. intros H12 H23 a s Ha. destruct (H12 a s Ha) as [v Hv]. destruct (H23 _ _ Hv) as [v' Hv']. eauto. Qed.

Section family.
Context {I : Type} `{EqDecision I} (key : item -> I).
(** How the time a packet is filed under relates to its time stamp. *)
Context (stamped : Z -> Z -> Prop).

Definition keyed (i : I) (p : item) : Prop := key p = i.

#[export] Instance keyed_dec i p : Decision (keyed i p).
Proof. unfold keyed. apply _. Defined.

Record gq_family (h : heap) (bks : I -> gq_bucket) (l : list item) : Prop := {
  gf_links : forall i, list_rep h (links (bks i)) (filter (keyed i) l).*1;
  gf_qlen : forall i, qlen (bks i) = Z.of_nat (length (filter (keyed i) l));
  gf_nodup : NoDup l.*1;
  gf_stamp : forall p, p ∈ l -> exists s, h !! p.1 = Some s /\ stamped p.2 (skb_mstamp_ns s);
  gf_len : Z.of_nat (length l) < 2 ^ 31
}.

Lemma keyed_nodup i (l : list item) : NoDup l.*1 -> NoDup (filter (keyed i) l).*1.
Proof.
  induction l as [|p l IH]; simpl; [done|]. rewrite NoDup_cons. intros [Hp Hl].
  rewrite filter_cons. case_decide; auto. simpl. rewrite NoDup_cons. split; auto.
  intros Hin. apply Hp. apply list_elem_of_fmap in Hin as (x & -> & Hx).
  apply list_elem_of_filter in Hx as [_ Hx]. apply list_elem_of_fmap. eauto.
Qed.

Lemma keyed_in i (l : list item) a : a ∈ (filter (keyed i) l).*1 -> a ∈ l.*1.
Proof.
  intros Ha. apply list_elem_of_fmap in Ha as (p & -> & Hp).
  apply list_elem_of_filter in Hp as [_ Hp]. apply list_elem_of_fmap. eauto.
Qed.

Lemma keyed_unique i j (l : list item) a :
  NoDup l.*1 -> a ∈ (filter (keyed i) l).*1 -> a ∈ (filter (keyed j) l).*1 -> i = j.
Proof.
  intros Hnd Ha Ha'.
  apply list_elem_of_fmap in Ha as (p & -> & Hp). apply list_elem_of_fmap in Ha' as (p' & E & Hp').
  apply list_elem_of_filter in Hp as [Hb Hp]. apply list_elem_of_filter in Hp' as [Hb' Hp'].
  apply list_elem_of_lookup in Hp as [n Hn]. apply list_elem_of_lookup in Hp' as [n' Hn'].
  assert (n = n') as <-.
  { eapply (NoDup_lookup l.*1 _ _ p.1); eauto; rewrite list_lookup_fmap, ?Hn, ?Hn'; simpl; congruence. }
  unfold keyed in *. congruence.
Qed.

Lemma signed_len n : 0 <= n < 2 ^ 31 -> to_signed 32 n = n.
Proof.
  intros H. unfold to_signed. rewrite wrap_small by lia. change (2 ^ (32 - 1)) with (2 ^ 31).
  destruct (Z.ltb_spec n (2 ^ 31)); lia.
Qed.

Lemma family_stamps h h' (l : list item) :
  same_packets h h' ->
  (forall p, p ∈ l -> exists s, h !! p.1 = Some s /\ stamped p.2 (skb_mstamp_ns s)) ->
  forall p, p ∈ l -> exists s, h' !! p.1 = Some s /\ stamped p.2 (skb_mstamp_ns s).
Proof.
  intros Hs H p Hp. destruct (H p Hp) as (s & Ha & E). destruct (Hs _ _ Ha) as [v Hv].
  exists (set_next v s). by destruct s.
Qed.

Lemma family_push h bks l skb s t :
  gq_family h bks l -> h !! skb = Some s -> stamped t (skb_mstamp_ns s) -> skb ∉ l.*1 ->
  Z.of_nat (length l) + 1 < 2 ^ 31 ->
  let p := (skb, t) in
  exists h' b', bucket_queue_add h (bks (key p)) skb = Some (h', b') /\
    gq_family h' (<[key p := b']> bks) (l ++ [p]) /\ same_packets h h' /\
    (forall a, a ∉ l.*1 -> a <> skb -> h' !! a = h !! a).
Proof.
  intros [Fl Fq Fn Fs Fb] Hs Hst Hnew Hlen p. set (i := key p).
  assert (Hnd : NoDup ((filter (keyed i) l).*1 ++ [skb])).
  { apply NoDup_app. split; [by apply keyed_nodup|]. split; [|apply NoDup_singleton].
    intros a Ha Ha'. apply list_elem_of_singleton in Ha' as ->. apply Hnew. by eapply keyed_in. }
  destruct (list_append_rep _ _ _ skb (Fl i) Hnd ltac:(eauto)) as (h' & b' & E & Hrep & Hframe & Hsame).
  exists h', (GqBucket b' (to_signed 32 (qlen (bks i) + 1))).
  unfold bucket_queue_add. rewrite E. split; [done|].
  assert (Hf : forall j, filter (keyed j) (l ++ [p]) = filter (keyed j) l ++ (if decide (i = j) then [p] else [])).
  { intros j. rewrite filter_app, filter_cons, filter_nil. unfold keyed at 2. fold i. by destruct (decide (i = j)). }
  split; [split|split].
  - intros j. rewrite Hf, fmap_app. destruct (decide (i = j)) as [<-|Hne].
    + rewrite fn_insert_eq. exact Hrep.
    + rewrite fn_insert_ne by done. simpl. rewrite app_nil_r. eapply list_rep_frame; [|apply Fl].
      intros a Ha. apply Hframe. rewrite elem_of_app, list_elem_of_singleton. intros [Ha'| ->].
      * apply Hne. by eapply keyed_unique.
      * apply Hnew. by eapply keyed_in.
  - intros j. rewrite Hf, length_app. destruct (decide (i = j)) as [<-|Hne].
    + rewrite fn_insert_eq. simpl. rewrite Fq. pose proof (length_filter (keyed i) l). rewrite signed_len by lia. lia.
    + rewrite fn_insert_ne, Fq by done. simpl. lia.
  - rewrite fmap_app. apply NoDup_app. split; [done|]. split; [|apply NoDup_singleton].
    intros a Ha Ha'. apply list_elem_of_singleton in Ha' as ->. done.
  - apply (family_stamps h); [done|]. intros x Hx. apply elem_of_app in Hx as [Hx|Hx]; [by apply Fs|].
    apply list_elem_of_singleton in Hx as ->. exists s. done.
  - rewrite length_app. simpl. lia.
  - done.
  - intros a Ha Hsk. apply Hframe. rewrite elem_of_app, list_elem_of_singleton. intros [Ha'|?]; [|done].
    apply Ha. by eapply keyed_in.
Qed.

Lemma family_pop h bks l i :
  gq_family h bks l ->
  match filter (keyed i) l with
  | [] => gq_bucket_dequeue_head h (bks i) = Some (h, bks i, None)
  | p :: _ => exists h' b' l1 l2,
      gq_bucket_dequeue_head h (bks i) = Some (h', b', Some p.1) /\
      l = l1 ++ p :: l2 /\ filter (keyed i) l1 = [] /\ key p = i /\
      gq_family h' (<[i := b']> bks) (l1 ++ l2) /\ same_packets h h' /\
      qlen b' = Z.of_nat (length (filter (keyed i) (l1 ++ l2)))
  end.
Proof.
  intros F. destruct F as [Fl Fq Fn Fs Fb]. pose proof (list_take_rep _ _ _ (Fl i) (keyed_nodup i l Fn)) as Ht.
  unfold gq_bucket_dequeue_head. destruct (filter (keyed i) l) as [|p k] eqn:Ef; simpl in Ht; [by rewrite Ht|].
  destruct Ht as (h' & b' & E & Hrep & Hframe & Hsame). rewrite E. cbn [mbind option_bind].
  destruct (filter_first _ _ _ _ Ef) as (l1 & l2 & El & Ef1 & Ef2 & Hp).
  assert (Hq : to_signed 32 (qlen (bks i) - 1) = Z.of_nat (length (filter (keyed i) (l1 ++ l2)))).
  { rewrite Fq, Ef, filter_app, Ef1, Ef2. simpl. pose proof (length_filter (keyed i) l). rewrite Ef in *.
    rewrite signed_len by (simpl in *; lia). simpl. lia. }
  eexists h', _, l1, l2. split; [done|]. split; [done|]. split; [done|]. split; [done|].
  split; [split|split; [done|exact Hq]].
  - intros j. destruct (decide (i = j)) as [<-|Hne].
    + rewrite fn_insert_eq, filter_app, Ef1, Ef2. exact Hrep.
    + assert (Ej : filter (keyed j) (l1 ++ l2) = filter (keyed j) l).
      { rewrite El, !filter_app, filter_cons. rewrite decide_False; [done|]. unfold keyed in *. congruence. }
      rewrite fn_insert_ne, Ej by done. eapply list_rep_frame; [|apply Fl]. intros a Ha. apply Hframe. intros ->.
      apply Hne. apply (keyed_unique i j l p.1 Fn); [|done]. rewrite Ef. simpl. by left.
  - intros j. destruct (decide (i = j)) as [<-|Hne].
    + rewrite fn_insert_eq. exact Hq.
    + assert (Ej : filter (keyed j) (l1 ++ l2) = filter (keyed j) l).
      { rewrite El, !filter_app, filter_cons. rewrite decide_False; [done|]. unfold keyed in *. congruence. }
      by rewrite fn_insert_ne, Ej, Fq.
  - subst l. rewrite fmap_app in *. simpl in Fn. rewrite NoDup_app in *.
    setoid_rewrite NoDup_cons in Fn. setoid_rewrite elem_of_cons in Fn. naive_solver.
  - apply (family_stamps h); [done|]. intros x Hx. apply Fs. subst l. set_solver.
  - subst l. rewrite length_app in *. simpl in *. lia.
Qed.

Lemma family_frame h h' bks l :
  (forall a, a ∈ l.*1 -> h' !! a = h !! a) -> gq_family h bks l -> gq_family h' bks l.
Proof.
  intros Hf [Fl Fq Fn Fs Fb]. split; try done.
  - intros i. eapply list_rep_frame; [|apply Fl]. intros a Ha. apply Hf. by eapply keyed_in.
  - intros p Hp. rewrite Hf; [by apply Fs|]. apply list_elem_of_fmap. eauto.
Qed.

Lemma family_empty h bks : (forall i, bks i = empty_gq_bucket) -> gq_family h bks [].
Proof.
  intros Hb. split; try (intros i; rewrite Hb); try done; try constructor; try done. intros p Hp. set_solver.
Qed.

End family.

(** The same packets when the arrays are renamed by [f]. *)
Lemma family_rekey {I} `{EqDecision I} (key key' : item -> I) stamped (f : I -> I) h bks bks' l :
  (forall i, f (f i) = i) -> (forall p, p ∈ l -> key' p = f (key p)) -> (forall i, bks' i = bks (f i)) ->
  gq_family key stamped h bks l -> gq_family key' stamped h bks' l.
Proof.
  intros Hff Hkey Hb [Fl Fq Fn Fs Fb].
  assert (E : forall i, filter (keyed key' i) l = filter (keyed key (f i)) l).
  { intros i. apply filter_ext_in. intros p Hp. unfold keyed. rewrite (Hkey p Hp).
    split; [intros <-; by rewrite Hff|intros ->; by rewrite Hff]. }
  split; try done; intros i; rewrite E, Hb; [apply Fl|apply Fq].
Qed.

Lemma family_ext {I} `{EqDecision I} (key : item -> I) stamped h bks bks' l :
  (forall i, bks' i = bks i) -> gq_family key stamped h bks l -> gq_family key stamped h bks' l.
Proof. intros Hb. by apply (family_rekey key key stamped (fun i => i)). Qed.

(** ** Super-packets *)

Section segments.
Context {G Sch : Type} `{Q : QdiscApi Sch} (push : heap -> G -> addr -> option (heap * G)) (held : G -> Z).

(** What a discipline promises of [push]: the packet is added with a stamp that
    is a function of its own, as long as nothing is taken. *)
Context (rel : heap -> G -> list item -> Prop) (stamp : G -> Z -> Z).
Context (Hheld : forall h g l, rel h g l -> held g = Z.of_nat (length l)).
Context (Hframe : forall h h' g l, (forall a, a ∈ l.*1 -> h' !! a = h !! a) -> rel h g l -> rel h' g l).
Context (Hpush : forall h g l skb s, rel h g l -> h !! skb = Some s -> 0 <= skb_mstamp_ns s < 2 ^ 64 -> skb ∉ l.*1 ->
  Z.of_nat (length l) + 1 < 2 ^ 31 ->
  exists h' g', push h g skb = Some (h', g') /\ rel h' g' (l ++ [(skb, stamp g (skb_mstamp_ns s))]) /\
    (forall t, stamp g' t = stamp g t) /\ (forall a, a ∉ l.*1 -> a <> skb -> h' !! a = h !! a)).

(** The segments are added, each at its own time, until the limit is reached; the
    rest are dropped.  [qlen] counts them all. *)
Lemma gq_segments_ok hdr rate segs : forall n h (k : kqdisc G Sch) l p t nb,
  (length segs < n)%nat -> rel h (gq k) l -> 0 <= t < 2 ^ 64 -> chain h p segs -> NoDup segs -> (forall a, a ∈ segs -> a ∉ l.*1) ->
  Z.of_nat (length l + length segs) < 2 ^ 31 -> 0 <= sch_qlen k < 2 ^ 32 ->
  let room := Z.to_nat (sch_limit k - Z.of_nat (length l)) in
  exists h' k', iter_nat n (gq_segment_step push held hdr rate) (h, k, p, t, nb) =
      inr (Some (h', k', nb + Z.of_nat (Nat.min room (length segs)))) /\
    rel h' (gq k') (l ++ take room (zip segs (stamp (gq k) <$> seg_times hdr rate t (seg_len h <$> segs)))) /\
    sch_qlen k' = u32 (sch_qlen k + Z.of_nat (length segs)) /\ sch_limit k' = sch_limit k /\
    gwatchdog k' = gwatchdog k.
Proof.
  induction segs as [|a segs IH]; intros n h k l p t nb Hn R Ht Hc Hnd Hnew Hlen Hq;
    (destruct n as [|n]; [simpl in Hn; lia|]); simpl in Hn, Hc, Hlen; cbn [iter_nat]; unfold gq_segment_step at 1.
  - subst p. exists h, k. cbn [length zip_with fmap list_fmap seg_times]. rewrite Nat.min_0_r, !Z.add_0_r, firstn_nil, app_nil_r, wrap_small by lia. done.
  - destruct Hc as (-> & s & Hs & Hc). apply NoDup_cons in Hnd as [Ha Hnd]. rewrite Hs.
    set (s' := set_mstamp t (set_pkt_len (len s) (set_next None s))).
    set (ntime := u64 (t + u64 ((len s - Z.min hdr (len s)) * NSEC_PER_SEC) / rate)).
    assert (Hal : a ∉ l.*1) by (apply Hnew; by left).
    assert (R1 : rel (<[a := s']> h) (gq k) l).
    { eapply Hframe; [|exact R]. intros x Hx. rewrite lookup_insert_ne; [done|]. intros ->. done. }
    assert (Hlens : forall h2, (forall x, x ∈ segs -> h2 !! x = h !! x) -> seg_len h2 <$> segs = seg_len h <$> segs).
    { intros h2 H2. apply list_fmap_ext. intros i x Hx. unfold seg_len. rewrite H2; [done|]. by eapply list_elem_of_lookup_2. }
    assert (Es : seg_times hdr rate t (seg_len h <$> a :: segs) = t :: seg_times hdr rate ntime (seg_len h <$> segs)).
    { simpl. unfold seg_len at 1 2 3. by rewrite Hs. }
    rewrite Es. rewrite (Hheld _ _ _ R).
    destruct (Z.geb_spec (Z.of_nat (length l)) (sch_limit k)) as [Hge|Hlt].
    + unfold drop_skb. destruct (qdisc_drop a (rest k)) as [ret r]. cbn [snd].
      set (k1 := with_qlen _ _).
      destruct (IH n (<[a := s']> h) k1 l (next s) ntime nb) as (h' & k' & E & R' & E1 & E2 & E3).
      * lia.
      * exact R1.
      * apply wrap_range. lia.
      * eapply chain_frame; [|exact Hc]. intros x Hx. rewrite lookup_insert_ne; [done|]. intros ->. done.
      * done.
      * intros x Hx. apply Hnew. by right.
      * lia.
      * simpl. apply wrap_range. lia.
      * exists h', k'. cbn zeta in *. change (sch_limit k1) with (sch_limit k) in *.
        replace (Z.to_nat (sch_limit k - Z.of_nat (length l))) with O in * by lia. rewrite take_0 in *.
        split; [exact E|]. split; [exact R'|]. split; [|done]. rewrite E1. unfold k1. simpl sch_qlen. simpl length.
        unfold wrap. rewrite Z.add_mod_idemp_l by lia. f_equal. lia.
    + destruct (Hpush _ _ _ a s' R1) as (h1 & g1 & -> & Rp & Est & Hfr); [apply lookup_insert_eq|done|done|lia|].
      change (skb_mstamp_ns s') with t in Rp. set (k1 := with_qlen _ _).
      assert (Hsame : forall x, x ∈ segs -> h1 !! x = h !! x).
      { intros x Hx. assert (x <> a) by (intros ->; done). rewrite Hfr by (first [done|apply Hnew; by right]).
        by rewrite lookup_insert_ne. }
      destruct (IH n h1 k1 (l ++ [(a, stamp (gq k) t)]) (next s) ntime (nb + 1)) as (h' & k' & E & R' & E1 & E2 & E3).
      * lia.
      * exact Rp.
      * apply wrap_range. lia.
      * eapply chain_frame; [|exact Hc]. done.
      * done.
      * intros x Hx Hin. rewrite fmap_app in Hin. apply elem_of_app in Hin as [Hin|Hin].
        -- apply (Hnew x); [by right|done].
        -- apply list_elem_of_singleton in Hin as ->. done.
      * rewrite length_app. simpl. lia.
      * simpl. apply wrap_range. lia.
      * exists h', k'. cbn zeta in *. change (sch_limit k1) with (sch_limit k) in *. rewrite length_app in E, R'.
        simpl length in E, R'.
        replace (Z.to_nat (sch_limit k - Z.of_nat (length l))) with
          (S (Z.to_nat (sch_limit k - Z.of_nat (length l + 1)))) by lia.
        split; [rewrite E; cbn [length Nat.min]; do 3 f_equal; lia|]. split; [|split; [|done]].
        -- rewrite (Hlens h1 Hsame) in R'. change (gq k1) with g1 in R'.
           rewrite (list_fmap_ext (stamp g1) (stamp (gq k))) in R' by (intros; apply Est).
           cbn [fmap list_fmap zip_with take]. rewrite <- app_assoc in R'. exact R'.
        -- rewrite E1. unfold k1. simpl sch_qlen. simpl length. unfold wrap. rewrite Z.add_mod_idemp_l by lia. f_equal. lia.
Qed.

(** [skb] is cut into [segs], new packets, and is released in the end. *)
Record cut (h : heap) (l : list item) (skb : addr) (h1 : heap) (segs : list addr) : Prop := {
  cut_into : exists a, skb_gso_segment skb h = (Some a, h1) /\ chain h1 (Some a) segs;
  cut_nodup : NoDup segs;
  cut_new : (skb ∉ segs) /\ (forall a, a ∈ segs -> a ∉ l.*1);
  cut_frame : forall a, a ∈ l.*1 -> h1 !! a = h !! a;
  cut_consumed : forall h2 a, a <> skb -> consume_skb skb h2 !! a = h2 !! a
}.

Definition seg_stamps (socks : gmap addr sock) (s : sk_buff) (g : G) (h1 : heap) (segs : list addr) : list Z :=
  stamp g <$> seg_times (u8 (hdr_off s + tcp_hdrlen s)) (sock_rate socks s) (skb_mstamp_ns s) (seg_len h1 <$> segs).

(** A super-packet of a paced flow: the segments that fit are added, each at the
    time the one before it has been sent. *)
Lemma gq_segment_ok h h1 socks (k : kqdisc G Sch) l skb s segs :
  rel h (gq k) l -> h !! skb = Some s -> 0 <= skb_mstamp_ns s < 2 ^ 64 -> sock_rate socks s <> 0 -> cut h l skb h1 segs -> skb ∉ l.*1 ->
  Z.of_nat (length l + length segs) < 2 ^ 31 -> 0 <= sch_qlen k < 2 ^ 32 ->
  let room := Z.to_nat (sch_limit k - Z.of_nat (length l)) in
  exists h' k', gq_segment push held h socks k skb =
      Some (if sch_limit k >? Z.of_nat (length l) then NET_XMIT_SUCCESS else NET_XMIT_DROP, h', k') /\
    rel h' (gq k') (l ++ take room (zip segs (seg_stamps socks s (gq k) h1 segs))) /\
    sch_qlen k' = u32 (sch_qlen k + Z.of_nat (length segs)) /\ sch_limit k' = sch_limit k /\
    gwatchdog k' = gwatchdog k.
Proof.
  intros R Hs Ht Hr [(a & Eg & Hc) Hnd [Hsk Hnew] Hf Hcons] Hskl Hlen Hq room.
  assert (R1 : rel h1 (gq k) l) by (by eapply Hframe).
  destruct (gq_segments_ok (u8 (hdr_off s + tcp_hdrlen s)) (sock_rate socks s) segs (Pos.to_nat fuel64) h1 k l (Some a)
    (skb_mstamp_ns s) 0) as (h' & k' & E & R' & E1 & E2 & E3); [unfold fuel64; lia|done..|].
  exists (consume_skb skb h'), k'. unfold gq_segment. rewrite Hs. cbn [mbind option_bind].
  cbn zeta.
  destruct (Z.eqb_spec (sock_rate socks s) 0); [contradiction|]. rewrite Eg. cbn beta iota. rewrite iter_until_nat.
  rewrite E. clear E. split; [|split; [|done]].
  - assert (0 < length segs)%nat by (destruct segs; [discriminate Hc|simpl; lia]). fold room. do 3 f_equal.
    destruct (Z.gtb_spec (sch_limit k) (Z.of_nat (length l))), (Z.gtb_spec (0 + Z.of_nat (Nat.min room (length segs))) 0);
      try done; unfold room in *; lia.
  - eapply Hframe; [|exact R']. intros x Hx. apply Hcons. intros ->. rewrite fmap_app, elem_of_app in Hx.
    destruct Hx as [Hx|Hx]; [done|]. apply list_elem_of_fmap in Hx as ((x & D) & -> & Hx).
    apply elem_of_take in Hx as (i & Hi & _). apply Hsk. simpl. eapply elem_of_zip_l. by eapply list_elem_of_lookup_2.
Qed.

(** A super-packet of a flow that is not paced is added whole; one that the kernel
    cannot cut is dropped. *)
Lemma gq_segment_unpaced h socks (k : kqdisc G Sch) l skb s :
  rel h (gq k) l -> h !! skb = Some s -> 0 <= skb_mstamp_ns s < 2 ^ 64 -> sock_rate socks s = 0 -> skb ∉ l.*1 -> Z.of_nat (length l) + 1 < 2 ^ 31 ->
  exists h' k', gq_segment push held h socks k skb = Some (NET_XMIT_SUCCESS, h', k') /\
    rel h' (gq k') (l ++ [(skb, stamp (gq k) (skb_mstamp_ns s))]) /\ sch_qlen k' = u32 (sch_qlen k + 1) /\
    sch_limit k' = sch_limit k /\ gwatchdog k' = gwatchdog k.
Proof.
  intros R Hs Ht Hr Hnew Hlen. destruct (Hpush h (gq k) l skb s R Hs Ht Hnew Hlen) as (h' & g' & E & R' & _).
  exists h', (with_qlen (u32 (sch_qlen k + 1)) (with_gq g' k)). unfold gq_segment. rewrite Hs. cbn [mbind option_bind].
  cbn zeta. rewrite Hr. cbn [Z.eqb]. rewrite E. done.
Qed.

End segments.

#[export] Instance demo_stats : QdiscStats (list addr) := {|
  qdisc_qstats_backlog_inc _ f := f;
  qdisc_qstats_backlog_dec _ f := f;
  qdisc_bstats_update _ f := f;
  set_backlog _ f := f
|}.

(** ** The concrete packets of the runs: 1 and 4, to be sent at [t]; packet 1 is
    a super-packet that the kernel cuts in 2 and 3 *)

Definition demo_heap (t : Z) : heap := <[1%positive := demo_packet t]> (<[4%positive := demo_packet t]> ∅).
Definition demo_socks (rate : Z) : gmap addr sock := <[1%positive := Sock rate SK_PACING_FQ 0]> ∅.

Lemma demo_cut t : cut (demo_heap t) [] 1%positive (skb_gso_segment 1%positive (demo_heap t)).2 [2%positive; 3%positive].
Proof.
  split.
  - exists 2%positive. split; [reflexivity|]. simpl. split; [reflexivity|]. eexists. split; [reflexivity|].
    split; [reflexivity|]. eexists. split; reflexivity.
  - apply (bool_decide_unpack _). reflexivity.
  - split; [apply (bool_decide_unpack _); reflexivity|]. intros a _. apply not_elem_of_nil.
  - intros a Ha. by apply not_elem_of_nil in Ha.
  - intros h2 a Ha. by apply lookup_delete_ne.
Qed.
