(* ===== verification/KCarousel.v ===== *)
(** * The Carousel queueing discipline: [kernel/sch_carousel/sch_carousel.c]

    A timing wheel: the bucket of a packet is the slot of its time stamp modulo
    the number of buckets.  The array is a function of its index, which
    [time_to_index] keeps in range.  [None] is a fault of the C code: a NULL or
    dangling dereference, a division by zero, or a loop that never ends. *)

From S2P Require Import Prelude Kernel KernelQueues.

Record gradient_queue := Wheel {
  head_ts : Z;
  grnlrty : Z;
  num_of_elements : Z;
  num_of_buckets : Z;
  main_ts : Z;
  max_ts : Z;
  horizon : Z;
  main_buckets : Z -> gq_bucket
}.

Definition set_times (head main mx : Z) (g : gradient_queue) : gradient_queue :=
  Wheel head (grnlrty g) (num_of_elements g) (num_of_buckets g) main mx (horizon g) (main_buckets g).
Definition set_bucket (i : Z) (b : gq_bucket) (n : Z) (g : gradient_queue) : gradient_queue :=
  Wheel (head_ts g) (grnlrty g) n (num_of_buckets g) (main_ts g) (max_ts g) (horizon g) (<[i := b]> (main_buckets g)).

(** The empty wheel starts at [now]. *)
Definition restart (now : Z) (g : gradient_queue) : gradient_queue := set_times now now (u64 (now + horizon g)) g.

Definition time_to_index (g : gradient_queue) (time : Z) : option Z :=
  guard (grnlrty g <> 0 /\ num_of_buckets g <> 0);; Some ((time / grnlrty g) mod num_of_buckets g).

Definition clamp_stamp (g : gradient_queue) (t : Z) : Z :=
  let t := if t <? head_ts g then head_ts g else t in
  if t >? max_ts g then max_ts g else t.

Definition gq_push (h : heap) (g : gradient_queue) (skb : addr) : option (heap * gradient_queue) :=
  s ← h !! skb;
  let t := clamp_stamp g (skb_mstamp_ns s) in
  let h := <[skb := set_mstamp t s]> h in
  index ← time_to_index g t;
  '(h, b) ← bucket_queue_add h (main_buckets g index) skb;
  Some (h, set_bucket index b (u64 (num_of_elements g + 1)) g).

(** The body of the loop of [get_min_index]. *)
Definition min_step (g : gradient_queue) (now t : Z) : Z + option Z :=
  match time_to_index g t with
  | None => inr None
  | Some index =>
      if (qlen (main_buckets g index) =? 0) && (t <? now) then inl (u64 (t + grnlrty g)) else inr (Some t)
  end.

Definition get_min_index (g : gradient_queue) (now : Z) : option (gradient_queue * Z) :=
  match iter_until fuel64 (min_step g now) (head_ts g) with
  | inr (Some t) =>
      index ← time_to_index g t;
      Some (set_times t (main_ts g) (u64 (t + horizon g)) g, index)
  | _ => None
  end.

Definition gq_extract (h : heap) (g : gradient_queue) (now : Z) : option (heap * gradient_queue * ptr) :=
  if num_of_elements g =? 0 then Some (h, restart now g, None)
  else
    '(g, index) ← get_min_index g now;
    if qlen (main_buckets g index) =? 0 then Some (h, g, None)
    else
      '(h, b, skb) ← gq_bucket_dequeue_head h (main_buckets g index);
      Some (h, set_bucket index b (u64 (num_of_elements g - 1)) g, skb).

Section discipline.
Context {Sch : Type} `{Q : QdiscApi Sch} `{P : QdiscStats Sch}.

(** The clock reads [now]. *)
Definition gq_enqueue (gso_split : bool) (now : Z) (h : heap) (socks : gmap addr sock)
    (k : kqdisc gradient_queue Sch) (skb : addr) :
    option (Z * heap * gmap addr sock * kqdisc gradient_queue Sch) :=
  let k := if num_of_elements (gq k) =? 0 then with_gq (restart now (gq k)) k else k in
  if num_of_elements (gq k) >=? sch_limit k then let '(ret, k) := drop_skb skb k in Some (ret, h, socks, k)
  else
    s ← h !! skb;
    let k := with_rest (qdisc_qstats_backlog_inc s (rest k)) k in
    let socks := mark_paced socks s in
    if gso_split && is_gso s then
      '(ret, h, k) ← gq_segment gq_push num_of_elements h socks k skb; Some (ret, h, socks, k)
    else
      '(h, g) ← gq_push h (gq k) skb;
      Some (NET_XMIT_SUCCESS, h, socks, with_qlen (u32 (sch_qlen k + 1)) (with_gq g k)).

Definition gq_dequeue (now : Z) (h : heap) (k : kqdisc gradient_queue Sch) :
    option (ptr * heap * kqdisc gradient_queue Sch) :=
  '(h, g, skb) ← gq_extract h (gq k) now;
  let k := with_gq g k in
  match skb with
  | None => Some (None, h, if num_of_elements g =? 0 then k else with_watchdog (u64 (now + grnlrty g)) k)
  | Some a =>
      s ← h !! a;
      let k := with_qlen (u32 (sch_qlen k - 1)) k in
      Some (skb, h, with_rest (qdisc_bstats_update s (qdisc_qstats_backlog_dec s (rest k))) k)
  end.

Definition gq_reset (k : kqdisc gradient_queue Sch) : kqdisc gradient_queue Sch :=
  let g := gq k in
  KQ (Wheel (head_ts g) (grnlrty g) (num_of_elements g) (num_of_buckets g) (main_ts g) (max_ts g) (horizon g)
        (fun _ => empty_gq_bucket))
    (gwatchdog k) 0 (sch_limit k) (set_backlog 0 (rest k)).

Definition gq_change : Z := -1.

(** With the module's parameters, in nanoseconds and in seconds; memory is not
    short. *)
Definition gq_init (granularity horizon_s now : Z) (k : kqdisc gradient_queue Sch) :
    option (kqdisc gradient_queue Sch) :=
  let horizon_ns := u64 (horizon_s * NSEC_PER_SEC) in
  guard (granularity <> 0);;
  Some (KQ (Wheel now granularity 0 (u64 (1 + horizon_ns / granularity)) now (u64 (now + horizon_ns)) horizon_ns
              (fun _ => empty_gq_bucket)) (gwatchdog k) (sch_qlen k) 80000 (rest k)).

End discipline.

(** * Specification *)

Definition slot (g : gradient_queue) (t : Z) : Z := t / grnlrty g.

Definition wheel_key (gr n : Z) (p : item) : Z := (p.2 / gr) mod n.

(** The wheel holds the packets [l], in order of arrival with their stamps: as
    many slots as there are buckets, from that of [head_ts] on. *)
Record wheel_rel (h : heap) (g : gradient_queue) (l : list item) : Prop := {
  w_gran : 0 < grnlrty g;
  w_num : num_of_buckets g = 1 + horizon g / grnlrty g;
  w_horizon : 0 <= horizon g < 2 ^ 62;
  w_whole : (grnlrty g | horizon g);
  w_head : 0 <= head_ts g < 2 ^ 62;
  w_max : max_ts g = head_ts g + horizon g;
  w_family : gq_family (wheel_key (grnlrty g) (num_of_buckets g)) eq h (main_buckets g) l;
  w_elements : num_of_elements g = Z.of_nat (length l);
  w_window : forall p, p ∈ l -> slot g (head_ts g) <= slot g p.2 < slot g (head_ts g) + num_of_buckets g
}.

(** ** Lemmas *)

Lemma clamp_bounds g t :
  0 <= horizon g -> max_ts g = head_ts g + horizon g ->
  clamp_stamp g t = Z.min (Z.max t (head_ts g)) (max_ts g) /\ head_ts g <= clamp_stamp g t <= max_ts g.
Proof.
  intros H E. unfold clamp_stamp. destruct (Z.ltb_spec t (head_ts g)); [|destruct (Z.gtb_spec t (max_ts g))];
    try destruct (Z.gtb_spec (head_ts g) (max_ts g)); lia.
Qed.

Lemma slot_mono g s t : 0 < grnlrty g -> s <= t -> slot g s <= slot g t.
Proof. intros. unfold slot. by apply Z.div_le_mono. Qed.

(** Slots less than a turn apart are in different buckets. *)
Lemma slot_apart n a b s : a <= b < a + n -> a <= s < a + n -> b mod n = s mod n -> b = s.
Proof.
  intros Hb Hs E. pose proof (Z.div_mod b n ltac:(lia)). pose proof (Z.div_mod s n ltac:(lia)).
  assert (b - s = n * (b / n - s / n)) by lia. assert (b / n - s / n = 0) by nia. lia.
Qed.

Lemma window_horizon g t :
  0 < grnlrty g -> (grnlrty g | horizon g) -> num_of_buckets g = 1 + horizon g / grnlrty g ->
  head_ts g <= t <= head_ts g + horizon g -> slot g (head_ts g) <= slot g t < slot g (head_ts g) + num_of_buckets g.
Proof.
  intros Hg [m Hm] Hn Ht. split; [apply slot_mono; lia|]. rewrite Hn. unfold slot.
  assert (Hd : t / grnlrty g <= (head_ts g + m * grnlrty g) / grnlrty g) by (apply Z.div_le_mono; lia).
  rewrite Z.div_add in Hd by lia. rewrite Hm, Z.div_mul by lia. lia.
Qed.

Lemma wheel_restart h g now :
  wheel_rel h g [] -> 0 <= now < 2 ^ 62 -> wheel_rel h (restart now g) [].
Proof.
  intros [R1 R2 R3 R4 R5 R6 R7 R8 R9] Hn. split; cbn [grnlrty num_of_buckets horizon head_ts max_ts main_buckets num_of_elements restart set_times]; try done.
  - apply wrap_small. lia.
  - intros p Hp. set_solver.
Qed.

Lemma index_of g t : 0 < grnlrty g -> 0 < num_of_buckets g -> time_to_index g t = Some (wheel_key (grnlrty g) (num_of_buckets g) (1%positive, t)).
Proof. intros. unfold time_to_index. by rewrite option_guard_True by lia. Qed.

Lemma num_pos h g l : wheel_rel h g l -> 0 < num_of_buckets g.
Proof.
  intros R. rewrite (w_num _ _ _ R). pose proof (w_gran _ _ _ R). pose proof (w_horizon _ _ _ R).
  pose proof (Z.div_pos (horizon g) (grnlrty g)). lia.
Qed.

(** ** Filing a packet *)

Lemma wheel_push_ok h g l skb s :
  wheel_rel h g l -> h !! skb = Some s -> skb ∉ l.*1 -> Z.of_nat (length l) + 1 < 2 ^ 31 ->
  exists h' g', gq_push h g skb = Some (h', g') /\ wheel_rel h' g' (l ++ [(skb, clamp_stamp g (skb_mstamp_ns s))]) /\
    head_ts g' = head_ts g /\ grnlrty g' = grnlrty g /\ horizon g' = horizon g /\ max_ts g' = max_ts g /\
    same_packets (<[skb := set_mstamp (clamp_stamp g (skb_mstamp_ns s)) s]> h) h' /\
    (forall a, a ∉ l.*1 -> a <> skb -> h' !! a = h !! a).
Proof.
  intros R Hs Hnew Hlen. pose proof (num_pos _ _ _ R) as Hnum. destruct R as [R1 R2 R3 R4 R5 R6 R7 R8 R9].
  set (t := clamp_stamp g (skb_mstamp_ns s)). destruct (clamp_bounds g (skb_mstamp_ns s)) as [_ Ht]; [lia|done|]. fold t in Ht.
  set (h1 := <[skb := set_mstamp t s]> h).
  assert (F1 : gq_family (wheel_key (grnlrty g) (num_of_buckets g)) eq h1 (main_buckets g) l).
  { eapply family_frame; [|exact R7]. intros a Ha. unfold h1. rewrite lookup_insert_ne; [done|]. intros ->. done. }
  destruct (family_push _ _ h1 (main_buckets g) l skb (set_mstamp t s) t F1) as (h' & b' & E & F' & Hsame & Hfr);
    [apply lookup_insert_eq|done|done|done|]. change (skb_mstamp_ns (set_mstamp t s)) with t in *.
  exists h'. eexists. split.
  - unfold gq_push. rewrite Hs. cbn [mbind option_bind]. fold t h1. rewrite index_of by done. cbn [mbind option_bind].
    change (wheel_key (grnlrty g) (num_of_buckets g) (1%positive, t)) with (wheel_key (grnlrty g) (num_of_buckets g) (skb, t)).
    rewrite E. reflexivity.
  - split; [|do 4 (split; [done|]); split; [done|]].
    + split; cbn [grnlrty num_of_buckets horizon head_ts max_ts main_buckets num_of_elements set_bucket]; try done.
      * rewrite R8, length_app. cbn [length]. rewrite wrap_small by lia. lia.
      * intros p Hp. apply elem_of_app in Hp as [Hp|Hp]; [by apply R9|]. apply list_elem_of_singleton in Hp as ->.
        assert (W : slot g (head_ts g) <= slot g t < slot g (head_ts g) + num_of_buckets g)
          by (apply window_horizon; [done..|lia]). exact W.
    + intros a Ha Hsk. rewrite Hfr by done. unfold h1. by rewrite lookup_insert_ne.
Qed.

(** ** Taking a packet *)

Lemma slot_next g t : 0 < grnlrty g -> slot g (t + grnlrty g) = slot g t + 1.
Proof. intros. unfold slot. replace (t + grnlrty g) with (t + 1 * grnlrty g) by lia. by rewrite Z.div_add by lia. Qed.

Lemma slot_lt g a b : 0 < grnlrty g -> slot g a < slot g b -> a < b.
Proof. intros Hg H. destruct (Z.lt_ge_cases a b) as [|Hge]; [done|]. pose proof (slot_mono g b a Hg Hge). lia. Qed.

(** The bucket of [t], when no packet is in an earlier slot. *)
Lemma bucket_at h g l t :
  wheel_rel h g l -> slot g (head_ts g) <= slot g t -> (forall p, p ∈ l -> slot g t <= slot g p.2) ->
  let i := wheel_key (grnlrty g) (num_of_buckets g) (1%positive, t) in
  (forall p, p ∈ l -> wheel_key (grnlrty g) (num_of_buckets g) p = i <-> slot g p.2 = slot g t) /\
  (qlen (main_buckets g i) = 0 -> forall p, p ∈ l -> slot g t < slot g p.2).
Proof.
  intros R Ht Hl i. pose proof (num_pos _ _ _ R) as Hn.
  assert (Hk : forall p, p ∈ l -> wheel_key (grnlrty g) (num_of_buckets g) p = i <-> slot g p.2 = slot g t).
  { intros p Hp. unfold i, wheel_key, slot. simpl. split; [|by intros ->]. intros E.
    pose proof (w_window _ _ _ R p Hp) as Hw. specialize (Hl p Hp). unfold slot in *.
    apply (slot_apart (num_of_buckets g) (t / grnlrty g)); [lia|lia|done]. }
  split; [done|]. intros Hq p Hp. specialize (Hl p Hp). destruct (decide (slot g p.2 = slot g t)) as [E|]; [|lia].
  rewrite (gf_qlen _ _ _ _ _ (w_family _ _ _ R)) in Hq.
  assert (Hin : p ∈ filter (keyed (wheel_key (grnlrty g) (num_of_buckets g)) i) l).
  { apply list_elem_of_filter. split; [|done]. by apply Hk. }
  destruct (filter _ l); [set_solver|simpl in Hq; lia].
Qed.

Definition seen (g : gradient_queue) (l : list item) (now t : Z) : Prop :=
  head_ts g <= t <= Z.max (head_ts g) (now + grnlrty g) /\ forall p, p ∈ l -> slot g t <= slot g p.2.

Lemma wheel_min_ok h g l now :
  wheel_rel h g l -> 0 <= now -> now + grnlrty g < 2 ^ 62 ->
  exists t, let i := wheel_key (grnlrty g) (num_of_buckets g) (1%positive, t) in
    get_min_index g now = Some (set_times t (main_ts g) (t + horizon g) g, i) /\ seen g l now t /\
    (qlen (main_buckets g i) = 0 -> now <= t).
Proof.
  intros R Hnow Hmax. pose proof (num_pos _ _ _ R) as Hn. pose proof (w_gran _ _ _ R) as Hg.
  pose proof (w_head _ _ _ R) as Hh. pose proof (w_horizon _ _ _ R) as Hho.
  destruct (iter_until_total (seen g l now)
    (fun r => exists t, r = Some t /\ seen g l now t /\
      (qlen (main_buckets g (wheel_key (grnlrty g) (num_of_buckets g) (1%positive, t))) = 0 -> now <= t))
    (fun t => Z.max 0 (now - t)) fuel64 (min_step g now) (head_ts g)) as (r & E & t & -> & Hs & Hq).
  - intros t [Ht Hl]. unfold min_step. rewrite index_of by done.
    destruct (bucket_at h g l t R) as [_ Hb]; [apply slot_mono; lia|done|].
    destruct (Z.eqb_spec (qlen (main_buckets g (wheel_key (grnlrty g) (num_of_buckets g) (1%positive, t)))) 0) as [Hz|Hz];
      [destruct (Z.ltb_spec t now) as [Hlt|Hge]|]; cbn [andb].
    + rewrite wrap_small by lia. split; [split; [lia|]|lia]. intros p Hp. rewrite slot_next by done.
      specialize (Hb Hz p Hp). lia.
    + exists t. split; [done|]. split; [done|]. lia.
    + exists t. split; [done|]. split; [done|]. lia.
  - split; [lia|]. intros p Hp. by apply (w_window _ _ _ R).
  - unfold fuel64. lia.
  - exists t. cbn zeta. unfold get_min_index. rewrite E, index_of by done. cbn [mbind option_bind].
    destruct Hs as [Ht Hl]. rewrite wrap_small by lia. split; [done|]. split; [by split|done].
Qed.

Lemma wheel_moved h g l now t :
  wheel_rel h g l -> seen g l now t -> 0 <= now -> now + grnlrty g < 2 ^ 62 ->
  wheel_rel h (set_times t (main_ts g) (t + horizon g) g) l.
Proof.
  intros [R1 R2 R3 R4 R5 R6 R7 R8 R9] [Ht Hl] Hnow Hmax. split;
    cbn [grnlrty num_of_buckets horizon head_ts max_ts main_buckets num_of_elements set_times]; try done.
  - lia.
  - intros p Hp. specialize (Hl p Hp). specialize (R9 p Hp). unfold slot in *.
    cbn [grnlrty set_times] in *. assert (head_ts g / grnlrty g <= t / grnlrty g) by (apply Z.div_le_mono; lia). lia.
Qed.

Lemma wheel_extract_ok h g l now :
  wheel_rel h g l -> 0 <= now -> now + grnlrty g < 2 ^ 62 ->
  exists h' g' r, gq_extract h g now = Some (h', g', r) /\ grnlrty g' = grnlrty g /\ horizon g' = horizon g /\
    head_ts g' <= Z.max (head_ts g) (now + grnlrty g) /\
    match r with
    | None => h' = h /\ wheel_rel h g' l /\ forall p, p ∈ l -> now < p.2
    | Some a => exists p l1 l2, a = p.1 /\ first_of (slot g) l p l1 l2 /\ wheel_rel h' g' (l1 ++ l2) /\
        same_packets h h' /\ slot g (head_ts g') = slot g p.2
    end.
Proof.
  intros R Hnow Hmax. pose proof (w_gran _ _ _ R) as Hg. unfold gq_extract. rewrite (w_elements _ _ _ R).
  destruct l as [|p0 l0].
  { exists h, (restart now g), None. do 3 (split; [done|]). split; [simpl; lia|]. split; [done|].
    split; [apply wheel_restart; [done|lia]|]. intros p Hp. set_solver. }
  destruct (Z.eqb_spec (Z.of_nat (length (p0 :: l0))) 0) as [Hz|_]; [simpl in Hz; lia|].
  set (l := p0 :: l0) in *. destruct (wheel_min_ok h g l now R Hnow Hmax) as (t & E & Hs & Hq). rewrite E.
  cbn [mbind option_bind]. pose proof (wheel_moved h g l now t R Hs Hnow Hmax) as R1.
  set (i := wheel_key (grnlrty g) (num_of_buckets g) (1%positive, t)) in *.
  set (g1 := set_times t (main_ts g) (t + horizon g) g) in *.
  change (main_buckets g1) with (main_buckets g).
  destruct (bucket_at h g l t R) as [Hkey Hempty]; [apply slot_mono; [done|apply Hs]|apply Hs|]. fold i in Hkey, Hempty.
  destruct (Z.eqb_spec (qlen (main_buckets g i)) 0) as [Hz|Hz].
  - exists h, g1, None. do 3 (split; [done|]). split; [apply Hs|]. split; [done|]. split; [done|].
    intros p Hp. apply (slot_lt g); [done|]. specialize (Hempty Hz p Hp). specialize (Hq Hz).
    pose proof (slot_mono g now t Hg Hq). lia.
  - pose proof (family_pop _ _ h (main_buckets g) l i (w_family _ _ _ R)) as Hpop.
    rewrite (gf_qlen _ _ _ _ _ (w_family _ _ _ R)) in Hz.
    destruct (filter (keyed (wheel_key (grnlrty g) (num_of_buckets g)) i) l) as [|p k]; [done|].
    destruct Hpop as (h' & b' & l1 & l2 & -> & El & Ef1 & Hp & F' & Hsame & _). cbn [mbind option_bind].
    eexists h', _, (Some p.1). split; [reflexivity|]. do 2 (split; [done|]). split; [apply Hs|].
    assert (Hpl : p ∈ l) by (rewrite El; set_solver).
    assert (Ep : slot g p.2 = slot g t) by (by apply Hkey).
    exists p, l1, l2. split; [done|]. split; [|split; [|split; [done|by rewrite Ep]]].
    + split; [done|]. rewrite Ep. split; [apply Hs|]. intros x Hx.
      assert (Hxl : x ∈ l) by (rewrite El; set_solver). pose proof (proj2 Hs x Hxl).
      destruct (decide (slot g x.2 = slot g t)) as [Ex|]; [|lia]. exfalso. apply Hkey in Ex; [|done].
      assert (Hin : x ∈ filter (keyed (wheel_key (grnlrty g) (num_of_buckets g)) i) l1) by (by apply list_elem_of_filter).
      rewrite Ef1 in Hin. set_solver.
    + destruct R1 as [Q1 Q2 Q3 Q4 Q5 Q6 Q7 Q8 Q9].
      split; cbn [grnlrty num_of_buckets horizon head_ts max_ts main_buckets num_of_elements set_bucket]; try done.
      * rewrite Q8, El, !length_app. cbn [length]. pose proof (gf_len _ _ _ _ _ Q7) as Hlen. rewrite El, length_app in Hlen.
        cbn [length] in Hlen. rewrite wrap_small by lia. lia.
      * intros x Hx. apply Q9. rewrite El. set_solver.
Qed.

(** ** The discipline *)

Lemma wheel_frame h h' g l : (forall a, a ∈ l.*1 -> h' !! a = h !! a) -> wheel_rel h g l -> wheel_rel h' g l.
Proof. intros Hf [R1 R2 R3 R4 R5 R6 R7 R8 R9]. split; try done. by eapply family_frame. Qed.

(** [gq_push] keeps the promise on which the cutting of super-packets relies. *)
Lemma wheel_push h g l skb s :
  wheel_rel h g l -> h !! skb = Some s -> 0 <= skb_mstamp_ns s < 2 ^ 64 -> skb ∉ l.*1 -> Z.of_nat (length l) + 1 < 2 ^ 31 ->
  exists h' g', gq_push h g skb = Some (h', g') /\ wheel_rel h' g' (l ++ [(skb, clamp_stamp g (skb_mstamp_ns s))]) /\
    (forall t, clamp_stamp g' t = clamp_stamp g t) /\ (forall a, a ∉ l.*1 -> a <> skb -> h' !! a = h !! a).
Proof.
  intros R Hs _ Hnew Hlen. destruct (wheel_push_ok h g l skb s R Hs Hnew Hlen) as (h' & g' & E & R' & E1 & _ & _ & E2 & _ & Hf).
  exists h', g'. split; [done|]. split; [done|]. split; [|done]. intros t. unfold clamp_stamp. by rewrite E1, E2.
Qed.

(** The start of the window when a packet arrives at [now]. *)
Definition arrival_head (now : Z) (g : gradient_queue) (l : list item) : Z :=
  match l with [] => now | _ => head_ts g end.

(** The time at which a packet stamped [t] is filed. *)
Definition filed_at (now : Z) (g : gradient_queue) (l : list item) (t : Z) : Z :=
  let head := arrival_head now g l in Z.min (Z.max t head) (head + horizon g).

Lemma wheel_arrival {Sch} now h (k : kqdisc gradient_queue Sch) l :
  wheel_rel h (gq k) l -> 0 <= now < 2 ^ 62 ->
  let k1 := if num_of_elements (gq k) =? 0 then with_gq (restart now (gq k)) k else k in
  wheel_rel h (gq k1) l /\ (forall t, clamp_stamp (gq k1) t = filed_at now (gq k) l t) /\
  rest k1 = rest k /\ sch_qlen k1 = sch_qlen k /\ sch_limit k1 = sch_limit k /\ gwatchdog k1 = gwatchdog k.
Proof.
  intros R Hn k1.
  assert (R1 : wheel_rel h (gq k1) l /\ head_ts (gq k1) = arrival_head now (gq k) l /\ horizon (gq k1) = horizon (gq k)).
  { unfold k1. rewrite (w_elements _ _ _ R). destruct l as [|p l]; simpl; [|done].
    split; [by apply wheel_restart|done]. }
  destruct R1 as (R1 & Eh & Eho). split; [done|]. split.
  - intros t. destruct (clamp_bounds (gq k1) t) as [-> _]; [apply (w_horizon _ _ _ R1)|apply (w_max _ _ _ R1)|].
    rewrite (w_max _ _ _ R1), Eh, Eho. done.
  - unfold k1. by destruct (_ =? 0).
Qed.

(** The packets that an arrival adds: the packet itself, or the segments of a
    super-packet that fit below the limit. *)
Definition arrivals (gso : bool) (now : Z) (g : gradient_queue) (l : list item) (socks : gmap addr sock) (skb : addr)
    (s : sk_buff) (h1 : heap) (segs : list addr) (limit : Z) : list item :=
  if gso then
    take (Z.to_nat (limit - Z.of_nat (length l)))
      (zip segs (filed_at now g l <$>
         seg_times (u8 (hdr_off s + tcp_hdrlen s)) (sock_rate socks s) (skb_mstamp_ns s) (seg_len h1 <$> segs)))
  else [(skb, filed_at now g l (skb_mstamp_ns s))].

Section properties.
Context {Sch : Type} `{Q : QdiscApi Sch} `{P : QdiscStats Sch}.

(** C12. Carousel's [gq_dequeue] serves the wheel in the order of its slots: it
    gives out the first packet of the earliest slot that is not empty, filed less than
    two granules after [now] (the scan stops up to a granule late, and takes what is
    filed anywhere in that slot) or less than one after the start of the window; it
    gives nothing only when every packet is filed after [now], and then sets the
    watchdog one granule ahead; the wheel keeps exactly the other packets. *)
Theorem wheel_dequeue now h (k : kqdisc gradient_queue Sch) l :
  wheel_rel h (gq k) l -> 0 <= now -> now + grnlrty (gq k) < 2 ^ 62 ->
  exists r h' k', gq_dequeue now h k = Some (r, h', k') /\ sch_limit k' = sch_limit k /\
    match r with
    | None => (forall p, p ∈ l -> now < p.2) /\ h' = h /\ wheel_rel h (gq k') l /\ sch_qlen k' = sch_qlen k /\
        gwatchdog k' = match l with [] => gwatchdog k | _ => (now + grnlrty (gq k)) :: gwatchdog k end
    | Some a => exists p l1 l2, a = p.1 /\ first_of (slot (gq k)) l p l1 l2 /\ wheel_rel h' (gq k') (l1 ++ l2) /\
        p.2 < Z.max (head_ts (gq k)) (now + grnlrty (gq k)) + grnlrty (gq k) /\
        sch_qlen k' = u32 (sch_qlen k - 1) /\ gwatchdog k' = gwatchdog k
    end.
Proof.
  intros R Hnow Hmax. destruct (wheel_extract_ok h (gq k) l now R Hnow Hmax) as (h' & g' & r & E & Eg & _ & Hh & H).
  unfold gq_dequeue. rewrite E. cbn [mbind option_bind]. destruct r as [a|].
  - destruct H as (p & l1 & l2 & -> & Hf & R' & Hsame & Hs).
    destruct (gf_stamp _ _ _ _ _ (w_family _ _ _ R) p) as (s & Hp & _); [destruct Hf as [-> _]; set_solver|].
    destruct (Hsame _ _ Hp) as [v ->]. cbn [mbind option_bind]. eexists _, _, _. split; [reflexivity|]. split; [done|].
    exists p, l1, l2. split; [done|]. split; [done|]. split; [exact R'|]. split; [|done].
    pose proof (w_gran _ _ _ R) as Hg. assert (p.2 < head_ts g' + grnlrty (gq k)); [|lia].
    apply (slot_lt (gq k)); [done|]. rewrite slot_next by done. lia.
  - destruct H as (-> & R' & Hall). eexists None, h, _. split; [reflexivity|]. rewrite (w_elements _ _ _ R'), Eg.
    pose proof (w_gran _ _ _ R). destruct l as [|p l]; [done|].
    destruct (Z.eqb_spec (Z.of_nat (length (p :: l))) 0) as [Hz|_]; [simpl in Hz; lia|]. split; [done|].
    split; [done|]. split; [done|]. split; [exact R'|]. split; [done|]. cbn [gwatchdog with_watchdog].
    rewrite wrap_small by lia. done.
Qed.

(** C14. Carousel's [gq_enqueue]: below the limit the packet, or each segment of a
    super-packet that still fits, is added at the time it is to be sent, brought
    into the window that starts at [head_ts] (at [now] when the wheel is empty);
    [sch->q.qlen] also counts the segments that did not fit.  At the limit the
    packet is dropped and the wheel keeps its packets. *)
Theorem wheel_enqueue gso_split now h socks (k : kqdisc gradient_queue Sch) l skb s h1 segs :
  let gso := gso_split && is_gso s in
  wheel_rel h (gq k) l -> 0 <= now < 2 ^ 62 -> h !! skb = Some s -> 0 <= skb_mstamp_ns s < 2 ^ 64 -> skb ∉ l.*1 ->
  Z.of_nat (length l) + Z.of_nat (length segs) + 1 < 2 ^ 31 -> 0 <= sch_qlen k < 2 ^ 32 ->
  (gso = true -> sock_rate socks s <> 0 /\ cut (Q := Q) h l skb h1 segs) ->
  exists ret h' socks' k', gq_enqueue gso_split now h socks k skb = Some (ret, h', socks', k') /\
    if Z.of_nat (length l) <? sch_limit k then
      ret = NET_XMIT_SUCCESS /\ wheel_rel h' (gq k') (l ++ arrivals gso now (gq k) l socks skb s h1 segs (sch_limit k)) /\
      sch_qlen k' = u32 (sch_qlen k + if gso then Z.of_nat (length segs) else 1)
    else ret = (qdisc_drop skb (rest k)).1 /\ h' = h /\ wheel_rel h (gq k') l /\ sch_qlen k' = sch_qlen k.
Proof.
  intros gso R Hn Hs Ht Hnew Hlen Hq Hgso. destruct (wheel_arrival now h k l R Hn) as (R1 & Ef & E1 & E2 & E3 & _).
  unfold gq_enqueue. set (k1 := if num_of_elements (gq k) =? 0 then _ else k) in *. cbn zeta.
  rewrite (w_elements _ _ _ R1), E3, Z.geb_leb, Z.leb_antisym.
  destruct (Z.ltb_spec (Z.of_nat (length l)) (sch_limit k)) as [Hlt|Hge]; cbn [negb].
  2:{ unfold drop_skb. rewrite E1. destruct (qdisc_drop skb (rest k)) as [ret r]. eexists _, _, _, _. done. }
  rewrite Hs. cbn [mbind option_bind]. set (k2 := with_rest _ k1). fold gso. destruct gso.
  - destruct (Hgso eq_refl) as [Hr Hcut].
    destruct (gq_segment_ok gq_push num_of_elements wheel_rel clamp_stamp w_elements (fun h h' g l => wheel_frame h h' g l)
      wheel_push h h1 (mark_paced socks s) k2 l skb s segs) as (h' & k' & -> & R' & Eq & _);
      [exact R1|done|done|by rewrite mark_paced_rate|done|done|lia|change (sch_qlen k2) with (sch_qlen k1); lia|].
    cbn [mbind option_bind]. eexists _, _, _, _. split; [reflexivity|].
    change (sch_limit k2) with (sch_limit k1) in *. change (sch_qlen k2) with (sch_qlen k1) in *.
    change (gq k2) with (gq k1) in *. rewrite E3, E2 in *.
    split; [by destruct (Z.gtb_spec (sch_limit k) (Z.of_nat (length l))); [|lia]|]. split; [|done].
    unfold arrivals. unfold seg_stamps in R'. rewrite mark_paced_rate in R'.
    rewrite (list_fmap_ext (clamp_stamp (gq k1)) (filed_at now (gq k) l)) in R' by (intros; apply Ef). exact R'.
  - destruct (wheel_push h (gq k1) l skb s R1 Hs Ht Hnew) as (h' & g' & E & R' & _); [lia|].
    change (gq k2) with (gq k1). rewrite E. cbn [mbind option_bind]. eexists _, _, _, _. split; [reflexivity|].
    split; [done|]. cbn [gq with_qlen with_gq sch_qlen]. change (sch_qlen k2) with (sch_qlen k1). rewrite E2.
    split; [|done]. rewrite Ef in R'. exact R'.
Qed.

End properties.

(** ** Runs *)

(** A wheel that [gq_init] sets up is empty. *)
Lemma wheel_init {Sch} granularity horizon_s now h (k : kqdisc gradient_queue Sch) :
  0 < granularity < 2 ^ 32 -> 0 <= horizon_s < 2 ^ 32 -> (granularity | horizon_s * NSEC_PER_SEC) -> 0 <= now < 2 ^ 62 ->
  exists k', gq_init granularity horizon_s now k = Some k' /\ wheel_rel h (gq k') [] /\ sch_limit k' = 80000 /\
    grnlrty (gq k') = granularity /\ head_ts (gq k') = now /\ sch_qlen k' = sch_qlen k.
Proof.
  intros Hg Hh Hd Hn. unfold gq_init. rewrite option_guard_True by lia. cbn [mbind option_bind].
  assert (Hr : 0 <= horizon_s * NSEC_PER_SEC < 2 ^ 62) by (unfold NSEC_PER_SEC; lia).
  eexists. split; [reflexivity|]. split; [|done]. cbn [gq]. rewrite (wrap_small 64 (horizon_s * _)) by lia.
  assert (0 <= horizon_s * NSEC_PER_SEC / granularity <= horizon_s * NSEC_PER_SEC) by
    (split; [apply Z.div_pos; lia|apply Z.div_le_upper_bound; nia]).
  split; cbn [grnlrty num_of_buckets horizon head_ts max_ts main_buckets num_of_elements]; try done; try lia.
  - by rewrite wrap_small by lia.
  - by rewrite wrap_small by lia.
  - by apply family_empty.
  - intros p Hp. set_solver.
Qed.

Definition demo_wheel : kqdisc gradient_queue (list addr) :=
  KQ (Wheel 0 1 0 1 0 0 0 (fun _ => empty_gq_bucket)) [] 0 0 [].

(** The clock starts at [now]; granularity [gr], horizon one second. *)
Definition demo_init (gr now : Z) : kqdisc gradient_queue (list addr) :=
  default demo_wheel (gq_init gr 1 now demo_wheel).

Definition demo_enqueued (gr now t : Z) : option (heap * kqdisc gradient_queue (list addr)) :=
  '(_, h, _, k) ← gq_enqueue false now (demo_heap t) (demo_socks 1000) (demo_init gr now) 1%positive;
  Some (h, k).

(** Two corners of the Carousel discipline.  [gq_reset] empties the buckets but
    keeps [num_of_elements]: a wheel reset with a packet in it has nothing to give
    and wakes up every granule for ever.  When the granularity does not divide the
    horizon, the last slot of the window is the first one's bucket: a packet to be
    sent a second from now is sent at once. *)
Theorem wheel_corners :
  (forall k : kqdisc gradient_queue (list addr), num_of_elements (gq (gq_reset k)) = num_of_elements (gq k) /\
     forall i, main_buckets (gq (gq_reset k)) i = empty_gq_bucket) /\
  ('(h, k) ← demo_enqueued 1000 0 5000; '(r, _, k) ← gq_dequeue 900000 h (gq_reset k); Some (r, gwatchdog k)) =
    Some (None, [901000]) /\
  ('(h, k) ← demo_enqueued 3 2 1000000002; '(r, _, k) ← gq_dequeue 2 h k; Some (r, gwatchdog k)) =
    Some (Some 1%positive, []).
Proof. split; [done|]. split; vm_compute; reflexivity. Qed.

(** ** Witnesses *)

Lemma demo_filed : exists h g, gq_push (demo_heap 5000) (gq (demo_init 1000 0)) 1%positive = Some (h, g) /\
  wheel_rel h g [(1%positive, 5000)] /\ grnlrty g = 1000.
Proof.
  destruct (wheel_init 1000 1 0 (demo_heap 5000) demo_wheel) as (k0 & E & R & _ & Hg & _);
    [lia..|by exists 1000000|lia|].
  unfold demo_init. rewrite E. cbn [default].
  destruct (wheel_push_ok (demo_heap 5000) (gq k0) [] 1%positive (demo_packet 5000) R) as (h & g & Ep & Rp & _ & Eg & _);
    [reflexivity|apply not_elem_of_nil|done|].
  exists h, g. split; [done|]. rewrite Eg, Hg. split; [|done].
  replace (clamp_stamp (gq k0) (skb_mstamp_ns (demo_packet 5000))) with 5000 in Rp; [exact Rp|].
  injection E as <-. reflexivity.
Qed.

Lemma wheel_dequeue_witness : exists h g r h' k',
  gq_dequeue 900000 h (with_gq g (demo_init 1000 0)) = Some (r, h', k') /\ sch_limit k' = 80000.
Proof.
  destruct demo_filed as (h & g & _ & R & Eg). exists h, g.
  destruct (wheel_dequeue 900000 h (with_gq g (demo_init 1000 0)) [(1%positive, 5000)] R) as (r & h' & k' & E & El & _);
    [lia|simpl; lia|]. exists r, h', k'. split; [exact E|]. rewrite El. reflexivity.
Defined.

(** A super-packet of a paced flow, cut in two. *)
Lemma wheel_enqueue_witness : exists k0 ret h' socks' k',
  gq_init 1000 1 0 demo_wheel = Some k0 /\
  gq_enqueue true 0 (demo_heap 5000) (demo_socks 1000) k0 1%positive = Some (ret, h', socks', k') /\
  ret = NET_XMIT_SUCCESS /\ sch_qlen k' = 2.
Proof.
  destruct (wheel_init 1000 1 0 (demo_heap 5000) demo_wheel) as (k0 & E & R & Hl & _ & _ & Hq);
    [lia..|by exists 1000000|lia|].
  destruct (wheel_enqueue true 0 (demo_heap 5000) (demo_socks 1000) k0 [] 1%positive (demo_packet 5000)
    (skb_gso_segment 1%positive (demo_heap 5000)).2 [2%positive; 3%positive] R) as (ret & h' & socks' & k' & Ee & H).
  - lia.
  - reflexivity.
  - simpl. lia.
  - apply not_elem_of_nil.
  - simpl. lia.
  - rewrite Hq. simpl. lia.
  - intros _. split; [vm_compute; discriminate|]. apply demo_cut.
  - rewrite Hl in H. destruct H as (Hr & _ & Hn). exists k0, ret, h', socks', k'.
    split; [exact E|]. split; [exact Ee|]. split; [exact Hr|]. rewrite Hn, Hq. reflexivity.
Defined.
