(* ===== verification/KTree.v ===== *)
(** * The tree of counters of [kernel/sch_eiffel/sch_eiffel.c]

    Above each array of buckets Eiffel keeps a tree with [w] = 32 children per
    node, stored in one array: the children of node [k] are [w k + 1 .. w k + w],
    and bucket [i] is the leaf [s + i].  A node holds the number of buckets under
    it that are not empty, and a word whose bits tell which children have one.
    The specification is [tree_ok]; the marks follow a path to the root, and
    [min_leaf] finds the smallest bucket that is not empty. *)

From S2P Require Import Prelude Kernel.

Record curvature_desc := Desc { cd_a : Z; cd_c : Z; abcI : Z; wwI : Z }.

(** An array of [s] descriptors; access out of range is [None]. *)
Definition desc_at (s : Z) (meta : Z -> curvature_desc) (k : Z) : option curvature_desc :=
  guard (0 <= k < s);; Some (meta k).

Lemma desc_in s meta k : 0 <= k < s -> desc_at s meta k = Some (meta k).
Proof. intros H. unfold desc_at. by rewrite option_guard_True by done. Qed.

(** A [for] loop of [n] rounds whose body may fault. *)
Fixpoint for_loop {S : Type} (n : nat) (f : S -> option S) (st : S) : option S :=
  match n with
  | O => Some st
  | Datatypes.S n => st' ← f st; for_loop n f st'
  end.

(** ** Operations *)

Definition walk : Type := (Z -> curvature_desc) * Z * Z * bool.

(** A bucket becomes non-empty, as in [gq_push], or empty, as in [gq_extract]. *)
Definition mark_step (s : Z) (st : walk) : option walk :=
  let '(meta, parentI, wI, done) := st in
  d ← desc_at s meta parentI;
  guard (0 <= wI < 64);;
  let a := if done then cd_a d else Z.lor (cd_a d) (Z.shiftl 1 wI) in
  let c := u64 (cd_c d + 1) in
  Some (<[parentI := Desc a c (abcI d) (wwI d)]> meta, abcI d, wwI d, done || (c >? 1)).

Definition unmark_step (s : Z) (st : walk) : option walk :=
  let '(meta, parentI, wI, done) := st in
  d ← desc_at s meta parentI;
  guard (0 <= wI < 64);;
  let a := if done then cd_a d else clear_bit (cd_a d) wI in
  let c := u64 (cd_c d - 1) in
  Some (<[parentI := Desc a c (abcI d) (wwI d)]> meta, abcI d, wwI d, done || (c >? 0)).

Definition walk_up (step : Z -> walk -> option walk) (w l s : Z) (meta : Z -> curvature_desc) (index : Z) :
    option (Z -> curvature_desc) :=
  '(meta, _, _, _) ← for_loop (Z.to_nat l) (step s)
    (meta, u64 (s + index - 1) / w, u64 (s + index - 1) mod w, false);
  Some meta.

Section api.
Context `{K : KernelApi}.

Definition min_leaf (w l s : Z) (meta : Z -> curvature_desc) : option Z :=
  d ← desc_at s meta 0;
  if cd_a d =? 0 then Some 0
  else
    I ← for_loop (Z.to_nat (l - 1)) (fun I => d ← desc_at s meta I; Some (u64 (w * I + __ffs (cd_a d) + 1)))
      (__ffs (cd_a d) + 1);
    Some (u64 (I - s)).

End api.

(** * Specification *)

Definition anc (x : Z) : Z := (x - 1) / 32.

(** The first node of level [d]. *)
Fixpoint level (d : nat) : Z := match d with O => 0 | S d => 32 * level d + 1 end.

Fixpoint path (n : nat) (x : Z) : list Z :=
  match n with O => [] | S n => anc x :: path n (anc x) end.

Section tree.
Context (n : nat).
Local Notation s := (level n).

(** Leaf [i] is below node [k]. *)
Definition under (k i : Z) : Prop := k ∈ (s + i) :: path n (s + i).

#[export] Instance under_dec k i : Decision (under k i).
Proof. unfold under. apply _. Defined.

Definition cnt (N : gset Z) (k : Z) : Z := Z.of_nat (size (filter (under k) N)).

Record node_ok (N : gset Z) (k : Z) (d : curvature_desc) : Prop := {
  n_count : cd_c d = cnt N k;
  n_bits : forall j, 0 <= j < 32 -> Z.testbit (cd_a d) j = (0 <? cnt N (32 * k + 1 + j));
  n_high : forall j, 32 <= j -> Z.testbit (cd_a d) j = false;
  n_word : 0 <= cd_a d < 2 ^ 64;
  n_parent : 1 <= k -> abcI d = anc k /\ wwI d = (k - 1) mod 32
}.

(** The buckets in [N] are those that are not empty. *)
Definition tree_ok (meta : Z -> curvature_desc) (N : gset Z) : Prop :=
  forall k, 0 <= k < s -> node_ok N k (meta k).

Definition leaves (N : gset Z) : Prop := forall i, i ∈ N -> 0 <= i < 32 ^ Z.of_nat n.

(** ** Levels and paths *)

Lemma level_pow d : 31 * level d = 32 ^ Z.of_nat d - 1.
Proof. induction d as [|d IH]; [done|]. rewrite Nat2Z.inj_succ, Z.pow_succ_r by lia. simpl level. lia. Qed.

Lemma level_next d : level (S d) = level d + 32 ^ Z.of_nat d.
Proof. pose proof (level_pow d). simpl level. lia. Qed.

Lemma level_mono d e : (d <= e)%nat -> level d <= level e.
Proof. induction 1 as [|e _ IH]; [lia|]. rewrite level_next. pose proof (Z.pow_pos_nonneg 32 (Z.of_nat e)). lia. Qed.

Lemma level_pos d : 0 <= level d.
Proof. apply (level_mono 0 d). lia. Qed.

Lemma anc_level d x : level (S d) <= x < level (S (S d)) -> level d <= anc x < level (S d).
Proof. simpl level. unfold anc. intros H. dlia. Qed.

Lemma anc_child k j : 0 <= j < 32 -> anc (32 * k + 1 + j) = k.
Proof. unfold anc. intros H. dlia. Qed.

Lemma anc_split x : 32 * anc x + 1 + (x - 1) mod 32 = x.
Proof. unfold anc. dlia. Qed.

Lemma anc_lt x : 1 <= x -> 0 <= anc x < x.
Proof. unfold anc. intros H. dlia. Qed.

Lemma anc_mono x y : x <= y -> anc x <= anc y.
Proof. unfold anc. intros H. dlia. Qed.

Lemma path_range d x k : level d <= x < level (S d) -> k ∈ path d x -> 0 <= k < level d /\ k <= anc x.
Proof.
  revert x. induction d as [|d IH]; intros x Hx Hk; [by apply not_elem_of_nil in Hk|].
  pose proof (anc_level d x Hx) as Ha. pose proof (level_pos d). pose proof (level_mono d (S d)).
  simpl in Hk. apply elem_of_cons in Hk as [->|Hk]; [lia|].
  destruct (IH _ Ha Hk). pose proof (anc_lt (anc x)). lia.
Qed.

(** Two nodes of a path with the same parent are the same. *)
Lemma path_sibling d x y z :
  level d <= x < level (S d) -> y ∈ x :: path d x -> z ∈ x :: path d x -> 1 <= y -> 1 <= z -> anc y = anc z -> y = z.
Proof.
  revert x. induction d as [|d IH]; intros x Hx Hy Hz Py Pz E.
  - apply list_elem_of_singleton in Hy, Hz. congruence.
  - pose proof (anc_level d x Hx) as Ha.
    assert (Hlow : forall u, u ∈ anc x :: path d (anc x) -> 1 <= u -> anc u <> anc x).
    { intros u Hu Pu E'. pose proof (anc_lt u Pu). apply elem_of_cons in Hu as [->|Hu]; [lia|].
      apply (path_range d) in Hu; [|done]. pose proof (level_pos d). pose proof (anc_lt (anc x)). lia. }
    simpl in Hy, Hz. apply elem_of_cons in Hy as [->|Hy], Hz as [->|Hz]; try done.
    + exfalso. by apply (Hlow z).
    + exfalso. by apply (Hlow y).
    + by apply (IH (anc x)).
Qed.

Lemma path_anc d x y :
  level d <= x < level (S d) -> y ∈ x :: path d x -> 1 <= y -> anc y ∈ path d x.
Proof.
  revert x. induction d as [|d IH]; intros x Hx Hy Py.
  - apply list_elem_of_singleton in Hy as ->. simpl in Hx. lia.
  - simpl in *. apply elem_of_cons in Hy as [->|Hy]; [by left|]. right. apply IH; [by apply anc_level|done|done].
Qed.

Lemma level_leaf i : 0 <= i < 32 ^ Z.of_nat n -> s <= s + i < level (S n).
Proof. rewrite level_next. lia. Qed.

(** ** Counts *)

Lemma cnt_nonneg N k : 0 <= cnt N k.
Proof. unfold cnt. lia. Qed.

Lemma cnt_pos N k : 0 < cnt N k <-> exists i, i ∈ N /\ under k i.
Proof.
  unfold cnt. split.
  - intros H. destruct (set_choose_L (filter (under k) N)) as [i Hi]; [|set_solver].
    intros E. rewrite E, size_empty in H. lia.
  - intros (i & Hi & Hu). assert (size (filter (under k) N) <> 0%nat); [|lia].
    rewrite size_non_empty_iff. set_solver.
Qed.

Lemma cnt_add N i k : i ∉ N -> cnt ({[i]} ∪ N) k = cnt N k + if decide (under k i) then 1 else 0.
Proof.
  intros Hi. unfold cnt. destruct (decide (under k i)) as [Hu|Hu].
  - assert (E : filter (under k) ({[i]} ∪ N) = {[i]} ∪ filter (under k) N).
    { apply set_eq. intros x. rewrite elem_of_filter, !elem_of_union, elem_of_filter, elem_of_singleton. naive_solver. }
    rewrite E, size_union by (apply disjoint_singleton_l; rewrite elem_of_filter; tauto). rewrite size_singleton. lia.
  - assert (E : filter (under k) ({[i]} ∪ N) = filter (under k) N); [|rewrite E; lia].
    apply set_eq. intros x. rewrite !elem_of_filter, elem_of_union, elem_of_singleton. naive_solver.
Qed.

Lemma cnt_remove N i k : i ∈ N -> cnt (N ∖ {[i]}) k = cnt N k - if decide (under k i) then 1 else 0.
Proof.
  intros Hi. assert (E : {[i]} ∪ (N ∖ {[i]}) = N).
  { apply set_eq. intros x. destruct (decide (x = i)) as [->|]; set_solver. }
  pose proof (cnt_add (N ∖ {[i]}) i k ltac:(set_solver)) as H. rewrite E in H. lia.
Qed.

(** A node has at least as many as a child of it. *)
Lemma cnt_parent N y : leaves N -> 1 <= y -> cnt N y <= cnt N (anc y).
Proof.
  intros HN Hy. unfold cnt. apply inj_le, subseteq_size. intros i. rewrite !elem_of_filter. intros [Hu Hi].
  split; [|done]. unfold under. right. apply path_anc; [by apply level_leaf, HN|done|done].
Qed.

Lemma cnt_size N k : cnt N k <= Z.of_nat (size N).
Proof. unfold cnt. apply inj_le, subseteq_size. intros i. rewrite elem_of_filter. tauto. Qed.

(** ** The walk up

    Going up from leaf [i], the nodes on the path count for [N'] once they have
    been passed and for [N] until then; [done] says whether the last node passed
    has a bucket in the smaller of the two sets. *)

Record walking (N N' small : gset Z) (i : Z) (d : nat) (y : Z) (done : bool) (meta : Z -> curvature_desc) : Prop := {
  wk_node : level d <= y < level (S d) /\ y ∈ (s + i) :: path n (s + i);
  wk_done : done = (0 <? cnt small y);
  wk_todo : forall k, k ∈ path d y -> node_ok N k (meta k);
  wk_passed : forall k, 0 <= k < s -> k ∉ path d y -> node_ok N' k (meta k)
}.

Lemma under_leaf i j : 0 <= i -> 0 <= j < 32 ^ Z.of_nat n -> under (s + i) j -> i = j.
Proof.
  intros Hi Hj Hu. apply elem_of_cons in Hu as [E|Hu]; [lia|].
  apply path_range in Hu; [lia|by apply level_leaf].
Qed.

Lemma leaf_cnt N i : leaves N -> 0 <= i -> i ∉ N -> cnt N (s + i) = 0.
Proof.
  intros HN Hi Hni. pose proof (cnt_nonneg N (s + i)). destruct (Z.lt_ge_cases 0 (cnt N (s + i))) as [Hc|]; [|lia].
  apply cnt_pos in Hc as (j & Hj & Hu). apply under_leaf in Hu as <-; [done|done|by apply HN].
Qed.

(** The count of a node off the path, and of its children, does not change. *)
Lemma node_ok_same N N' k d :
  cnt N' k = cnt N k -> (forall j, 0 <= j < 32 -> cnt N' (32 * k + 1 + j) = cnt N (32 * k + 1 + j)) ->
  node_ok N k d -> node_ok N' k d.
Proof. intros E Ej [H1 H2 H3 H4 H5]. split; try done; [lia|]. intros j Hj. by rewrite Ej, H2. Qed.

Lemma walking_start N N' small i meta :
  tree_ok meta N -> 0 <= i < 32 ^ Z.of_nat n -> leaves small -> i ∉ small ->
  (forall k, ~ under k i -> cnt N' k = cnt N k) -> walking N N' small i n (s + i) false meta.
Proof.
  intros Ht Hi HS Hs Hsame. pose proof (level_leaf i Hi). split.
  - split; [done|by left].
  - rewrite leaf_cnt by (done || lia). done.
  - intros k Hk. apply Ht. apply path_range in Hk; [apply Hk|done].
  - intros k Hk Hnk. apply (node_ok_same N); [|intros j Hj|by apply Ht]; apply Hsame; unfold under; intros Hu.
    + apply elem_of_cons in Hu as [E|Hu]; [lia|done].
    + apply path_anc in Hu; [|done|lia]. by rewrite anc_child in Hu.
Qed.

Lemma walking_end N N' small i y done meta : walking N N' small i 0 y done meta -> tree_ok meta N'.
Proof. intros W k Hk. apply (wk_passed _ _ _ _ _ _ _ _ W); [done|]. apply not_elem_of_nil. Qed.

(** A step to the parent, whose descriptor becomes [d']. *)
Lemma walking_step N N' small i d y done meta d' :
  0 <= i < 32 ^ Z.of_nat n -> leaves small ->
  walking N N' small i (S d) y done meta ->
  node_ok N' (anc y) d' ->
  walking N N' small i d (anc y) (0 <? cnt small (anc y)) (<[anc y := d']> meta).
Proof.
  intros Hi HS [[Hy Hyp] Hd Ht Hp] Hok. pose proof (anc_level d y Hy) as Ha. pose proof (level_pos d).
  assert (Hy1 : 1 <= y) by (simpl in Hy; lia). split.
  - split; [done|]. right. apply path_anc; [by apply level_leaf|done|done].
  - done.
  - intros k Hk. apply path_range in Hk as Hr; [|done]. pose proof (level_pos d).
    rewrite fn_insert_ne by lia. apply Ht. by right.
  - intros k Hk Hnk. destruct (decide (anc y = k)) as [<-|Hne]; [by rewrite fn_insert_eq|].
    rewrite fn_insert_ne by done. apply Hp; [done|]. simpl. rewrite elem_of_cons. intros [?|?]; congruence.
Qed.

(** The child of [anc y] on the path is [y]. *)
Lemma step_child i d y :
  0 <= i < 32 ^ Z.of_nat n -> level (S d) <= y < level (S (S d)) -> y ∈ (s + i) :: path n (s + i) ->
  1 <= y /\ 0 <= anc y < s /\ under y i /\ under (anc y) i /\
  forall j, 0 <= j < 32 -> (j = (y - 1) mod 32 /\ 32 * anc y + 1 + j = y) \/
    (j <> (y - 1) mod 32 /\ ~ under (32 * anc y + 1 + j) i).
Proof.
  intros Hi Hy Hp. pose proof (level_leaf i Hi) as Hl. pose proof (level_pos d).
  assert (H1 : 1 <= y) by (simpl in Hy; lia). pose proof (path_anc _ _ _ Hl Hp H1) as Ha.
  pose proof (proj1 (path_range _ _ _ Hl Ha)). split; [done|]. split; [done|]. split; [done|]. split; [by right|].
  intros j Hj. pose proof (anc_split y) as E. destruct (decide (j = (y - 1) mod 32)) as [->|Hne]; [by left|].
  right. split; [done|]. intros Hu. apply Hne.
  pose proof (path_sibling _ _ _ _ Hl Hu Hp ltac:(lia) H1 (anc_child _ _ Hj)). lia.
Qed.

Lemma next_parent N d y dd :
  level (S d) <= y < level (S (S d)) -> node_ok N (anc y) dd -> d <> O ->
  abcI dd = anc (anc y) /\ wwI dd = (anc y - 1) mod 32.
Proof.
  intros Hy Hok Hd. apply (n_parent _ _ _ Hok). pose proof (anc_level d y Hy). pose proof (level_mono 1 d ltac:(lia)).
  simpl in *. lia.
Qed.

(** One round of a walk whose node and bit are in range. *)
Ltac run_step step :=
  match goal with |- context [step s ?st] => let E := fresh in
    eassert (step s st = Some _) as E by
      (unfold step, desc_at; rewrite option_guard_True by done; cbn [mbind option_bind];
       rewrite option_guard_True by lia; reflexivity);
    rewrite E; clear E; cbn [mbind option_bind]
  end.

Section mark.
Context (N : gset Z) (i : Z) (Hi : 0 <= i < 32 ^ Z.of_nat n) (HN : leaves N) (Hsz : Z.of_nat (size N) < 2 ^ 62).

Lemma mark_node d y dd (done : bool) :
  i ∉ N -> level (S d) <= y < level (S (S d)) -> y ∈ (s + i) :: path n (s + i) ->
  node_ok N (anc y) dd -> done = (0 <? cnt N y) ->
  let c := u64 (cd_c dd + 1) in
  node_ok ({[i]} ∪ N) (anc y)
    (Desc (if done then cd_a dd else Z.lor (cd_a dd) (Z.shiftl 1 ((y - 1) mod 32))) c (abcI dd) (wwI dd)) /\
  (done || (c >? 1)) = (0 <? cnt N (anc y)).
Proof.
  intros Hni Hy Hp [H1 H2 H3 H4 H5] -> c. destruct (step_child i d y Hi Hy Hp) as (Py & _ & Hu & Hua & Hch).
  set (b := (y - 1) mod 32) in *. assert (Hb : 0 <= b < 32) by (apply Z.mod_pos_bound; lia).
  pose proof (cnt_nonneg N (anc y)) as Hc0. pose proof (cnt_size N (anc y)). pose proof (cnt_parent N y HN Py).
  assert (Ec : c = cnt N (anc y) + 1) by (unfold c; rewrite H1, wrap_small by lia; lia).
  assert (Hself : Z.testbit (cd_a dd) b = (0 <? cnt N y)).
  { rewrite H2 by done. destruct (Hch b Hb) as [[_ ->]|[? _]]; [done|contradiction]. }
  set (a' := if 0 <? cnt N y then _ else _).
  assert (Ha : 0 <= a' < 2 ^ 64) by (unfold a'; destruct (0 <? cnt N y); [done|apply bitmap_set_range; lia]).
  assert (Hbit : forall j, 0 <= j -> Z.testbit a' j = Z.testbit (cd_a dd) j || (b =? j)).
  { intros j Hj. unfold a'. destruct (0 <? cnt N y); [|apply bitmap_set; lia].
    destruct (Z.eqb_spec b j) as [<-|]; [by rewrite Hself|by rewrite orb_false_r]. }
  clearbody a'. split; [split; cbn [cd_a cd_c abcI wwI]|]; [| |intros j Hj|done|done|].
  - rewrite cnt_add, decide_True by done. lia.
  - intros j Hj. rewrite Hbit, H2, cnt_add by (done || lia). pose proof (cnt_nonneg N (32 * anc y + 1 + j)).
    destruct (Hch j Hj) as [[-> E]|[Hne Hnu]].
    + rewrite E in *. rewrite decide_True, Z.eqb_refl, orb_true_r by done. symmetry. apply Z.ltb_lt. lia.
    + rewrite decide_False by done. destruct (Z.eqb_spec b j); [congruence|]. by rewrite orb_false_r, Z.add_0_r.
  - rewrite Hbit, H3 by lia. apply Z.eqb_neq. lia.
  - rewrite Ec. destruct (Z.ltb_spec 0 (cnt N y)), (Z.gtb_spec (cnt N (anc y) + 1) 1), (Z.ltb_spec 0 (cnt N (anc y))); lia || done.
Qed.

Lemma mark_loop d : forall y done meta p wi,
  i ∉ N -> walking N ({[i]} ∪ N) N i d y done meta -> (d <> O -> p = anc y /\ wi = (y - 1) mod 32) ->
  exists meta' p' wi' done', for_loop d (mark_step s) (meta, p, wi, done) = Some (meta', p', wi', done') /\
    tree_ok meta' ({[i]} ∪ N).
Proof.
  induction d as [|d IH]; intros y done meta p wi Hni W Hp; cbn [for_loop].
  { eexists _, _, _, _. split; [reflexivity|]. by eapply walking_end. }
  destruct (Hp ltac:(done)) as [-> ->]. destruct (wk_node _ _ _ _ _ _ _ _ W) as [Hy Hyp].
  destruct (step_child i d y Hi Hy Hyp) as (_ & Hr & _). pose proof (Z.mod_pos_bound (y - 1) 32).
  assert (Hok : node_ok N (anc y) (meta (anc y))) by (apply (wk_todo _ _ _ _ _ _ _ _ W); by left).
  destruct (mark_node d y (meta (anc y)) done Hni Hy Hyp Hok (wk_done _ _ _ _ _ _ _ _ W)) as [Hok' Ed].
  run_step mark_step. rewrite Ed.
  eapply (IH (anc y)); [done|by eapply walking_step|]. intros Hd. by apply (next_parent N d y).
Qed.

(** ** A bucket becomes empty *)

Lemma unmark_node d y dd (done : bool) :
  i ∈ N -> level (S d) <= y < level (S (S d)) -> y ∈ (s + i) :: path n (s + i) ->
  node_ok N (anc y) dd -> done = (0 <? cnt (N ∖ {[i]}) y) ->
  let c := u64 (cd_c dd - 1) in
  node_ok (N ∖ {[i]}) (anc y)
    (Desc (if done then cd_a dd else clear_bit (cd_a dd) ((y - 1) mod 32)) c (abcI dd) (wwI dd)) /\
  (done || (c >? 0)) = (0 <? cnt (N ∖ {[i]}) (anc y)).
Proof.
  intros Hni Hy Hp [H1 H2 H3 H4 H5] -> c. destruct (step_child i d y Hi Hy Hp) as (Py & _ & Hu & Hua & Hch).
  set (b := (y - 1) mod 32) in *. assert (Hb : 0 <= b < 32) by (apply Z.mod_pos_bound; lia).
  assert (HN' : leaves (N ∖ {[i]})) by (intros x Hx; apply HN; set_solver).
  pose proof (cnt_nonneg (N ∖ {[i]}) (anc y)) as Hc0. pose proof (cnt_size N (anc y)).
  pose proof (cnt_parent (N ∖ {[i]}) y HN' Py) as Hpar.
  rewrite !cnt_remove, !(decide_True _ _ Hu), !(decide_True _ _ Hua) in * by done.
  assert (Ec : c = cnt N (anc y) - 1) by (unfold c; rewrite H1, wrap_small by lia; lia).
  set (a' := if 0 <? cnt N y - 1 then _ else _).
  assert (Ha : 0 <= a' < 2 ^ 64) by (unfold a'; destruct (0 <? cnt N y - 1); [done|apply clear_bit_range; lia]).
  assert (Hbit : forall j, 0 <= j < 64 ->
    Z.testbit a' j = Z.testbit (cd_a dd) j && ((0 <? cnt N y - 1) || negb (b =? j))).
  { intros j Hj. unfold a'. destruct (0 <? cnt N y - 1); [by rewrite andb_true_r|apply clear_bit_spec; lia]. }
  assert (Hhigh : forall j, 64 <= j -> Z.testbit a' j = false).
  { intros j Hj. destruct (decide (a' = 0)) as [->|]; [apply Z.bits_0|]. apply Z.bits_above_log2; [lia|].
    assert (Z.log2 a' < 64); [|lia]. apply Z.log2_lt_pow2; lia. }
  clearbody a'. split; [split; cbn [cd_a cd_c abcI wwI]|]; [| |intros j Hj|done|done|].
  - rewrite cnt_remove, decide_True by done. lia.
  - intros j Hj. rewrite Hbit, H2, cnt_remove by (done || lia). pose proof (cnt_nonneg N (32 * anc y + 1 + j)).
    destruct (Hch j Hj) as [[-> E]|[Hne Hnu]].
    + rewrite E in *. rewrite decide_True, Z.eqb_refl, orb_false_r by done.
      destruct (Z.ltb_spec 0 (cnt N y)), (Z.ltb_spec 0 (cnt N y - 1)); lia || done.
    + rewrite decide_False by done. destruct (Z.eqb_spec b j); [congruence|]. by rewrite orb_true_r, andb_true_r, Z.sub_0_r.
  - destruct (Z.lt_ge_cases j 64); [rewrite Hbit, H3 by lia; done|by apply Hhigh].
  - rewrite Ec. destruct (Z.ltb_spec 0 (cnt N y - 1)), (Z.gtb_spec (cnt N (anc y) - 1) 0), (Z.ltb_spec 0 (cnt N (anc y) - 1)); lia || done.
Qed.

Lemma unmark_loop d : forall y done meta p wi,
  i ∈ N -> walking N (N ∖ {[i]}) (N ∖ {[i]}) i d y done meta -> (d <> O -> p = anc y /\ wi = (y - 1) mod 32) ->
  exists meta' p' wi' done', for_loop d (unmark_step s) (meta, p, wi, done) = Some (meta', p', wi', done') /\
    tree_ok meta' (N ∖ {[i]}).
Proof.
  induction d as [|d IH]; intros y done meta p wi Hni W Hp; cbn [for_loop].
  { eexists _, _, _, _. split; [reflexivity|]. by eapply walking_end. }
  destruct (Hp ltac:(done)) as [-> ->]. destruct (wk_node _ _ _ _ _ _ _ _ W) as [Hy Hyp].
  destruct (step_child i d y Hi Hy Hyp) as (_ & Hr & _). pose proof (Z.mod_pos_bound (y - 1) 32).
  assert (Hok : node_ok N (anc y) (meta (anc y))) by (apply (wk_todo _ _ _ _ _ _ _ _ W); by left).
  destruct (unmark_node d y (meta (anc y)) done Hni Hy Hyp Hok (wk_done _ _ _ _ _ _ _ _ W)) as [Hok' Ed].
  run_step unmark_step. rewrite Ed.
  eapply (IH (anc y)); [done|eapply walking_step; try done; intros x Hx; apply HN; set_solver|].
  intros Hd. by apply (next_parent N d y).
Qed.

End mark.

(** A bucket that becomes non-empty, and one that becomes empty. *)
Lemma mark_ok meta N i :
  tree_ok meta N -> leaves N -> Z.of_nat (size N) < 2 ^ 62 -> level (S n) < 2 ^ 62 ->
  0 <= i < 32 ^ Z.of_nat n -> i ∉ N ->
  exists meta', walk_up mark_step 32 (Z.of_nat n) s meta i = Some meta' /\ tree_ok meta' ({[i]} ∪ N).
Proof.
  intros Ht HN Hsz Hl Hi Hni. pose proof (level_leaf i Hi). unfold walk_up. rewrite Nat2Z.id.
  destruct (mark_loop N i Hi HN Hsz n (s + i) false meta (u64 (s + i - 1) / 32) (u64 (s + i - 1) mod 32))
    as (meta' & p' & wi' & done' & -> & Ht'); [done| | |by exists meta'].
  - apply walking_start; try done. intros k Hk. rewrite cnt_add, decide_False by done. lia.
  - intros Hn. pose proof (level_mono 1 n ltac:(lia)). simpl in *. rewrite wrap_small by lia. done.
Qed.

Lemma unmark_ok meta N i :
  tree_ok meta N -> leaves N -> Z.of_nat (size N) < 2 ^ 62 -> level (S n) < 2 ^ 62 -> i ∈ N ->
  exists meta', walk_up unmark_step 32 (Z.of_nat n) s meta i = Some meta' /\ tree_ok meta' (N ∖ {[i]}).
Proof.
  intros Ht HN Hsz Hl Hni. pose proof (HN i Hni) as Hi. pose proof (level_leaf i Hi). unfold walk_up. rewrite Nat2Z.id.
  destruct (unmark_loop N i Hi HN Hsz n (s + i) false meta (u64 (s + i - 1) / 32) (u64 (s + i - 1) mod 32))
    as (meta' & p' & wi' & done' & -> & Ht'); [done| | |by exists meta'].
  - apply walking_start; [done|done|intros x Hx; apply HN; set_solver|set_solver|].
    intros k Hk. rewrite cnt_remove, decide_False by done. lia.
  - intros Hn. pose proof (level_mono 1 n ltac:(lia)). simpl in *. rewrite wrap_small by lia. done.
Qed.

(** ** The walk down *)

Definition up (e : nat) (x : Z) : Z := Nat.iter e anc x.

Lemma up_S e x : up (S e) x = up e (anc x).
Proof. unfold up. induction e as [|e IH]; [done|]. rewrite Nat.iter_succ, IH. done. Qed.

Lemma up_mono e x y : x <= y -> up e x <= up e y.
Proof. revert x y. induction e as [|e IH]; intros x y H; [done|]. rewrite !up_S. by apply IH, anc_mono. Qed.

Lemma up_level e d x : level (e + d) <= x < level (S (e + d)) -> level d <= up e x < level (S d).
Proof. revert x. induction e as [|e IH]; intros x H; [done|]. rewrite up_S. by apply IH, (anc_level (e + d)). Qed.

Lemma up_path e d x : (e <= d)%nat -> up e x ∈ x :: path d x.
Proof.
  revert d x. induction e as [|e IH]; intros d x H; [by left|]. destruct d as [|d]; [lia|]. rewrite up_S. right.
  apply IH. lia.
Qed.

Lemma path_up e d x y :
  level (e + d) <= x < level (S (e + d)) -> y ∈ x :: path (e + d) x -> level d <= y < level (S d) -> y = up e x.
Proof.
  revert x. induction e as [|e IH]; intros x Hx Hy Hl.
  - apply elem_of_cons in Hy as [->|Hy]; [done|]. apply path_range in Hy; [simpl in *; lia|done].
  - rewrite up_S. apply IH; [by apply (anc_level (e + d))| |done]. simpl in Hy. apply elem_of_cons in Hy as [->|Hy]; [|done].
    pose proof (level_mono (S d) (S e + d) ltac:(lia)). lia.
Qed.

Section api.
Context `{K : KernelApi} `{!KernelApiOk K}.

(** The lowest marked child of a node above the smallest bucket is above it too. *)
Lemma descend meta N m e d :
  tree_ok meta N -> leaves N -> m ∈ N -> (forall x, x ∈ N -> m <= x) -> n = (S e + d)%nat ->
  let I := up (S e) (s + m) in
  0 <= I < s /\ cd_a (meta I) <> 0 /\ 32 * I + __ffs (cd_a (meta I)) + 1 = up e (s + m).
Proof.
  intros Ht HN Hm Hmin En I. pose proof (level_leaf m (HN m Hm)) as Hl. set (z := up e (s + m)).
  assert (HI : I = anc z) by (unfold I, z; by apply Nat.iter_succ).
  assert (Hzl : level (S d) <= z < level (S (S d))).
  { apply up_level. replace (e + S d)%nat with n by lia. done. }
  pose proof (anc_level d z Hzl) as Hil. rewrite <- HI in Hil. pose proof (level_mono (S d) n ltac:(lia)). pose proof (level_pos d).
  assert (HIs : 0 <= I < s) by lia. destruct (Ht I HIs) as [H1 H2 H3 H4 H5].
  set (b := (z - 1) mod 32). assert (Hb : 0 <= b < 32) by (apply Z.mod_pos_bound; lia).
  assert (Ez : 32 * I + 1 + b = z) by (rewrite HI; apply anc_split).
  assert (Hset : Z.testbit (cd_a (meta I)) b = true).
  { rewrite H2, Ez by done. apply Z.ltb_lt, cnt_pos. exists m. split; [done|]. apply up_path. lia. }
  assert (Hlow : forall j, 0 <= j < b -> Z.testbit (cd_a (meta I)) j = false).
  { intros j Hj. rewrite H2 by lia. apply Z.ltb_ge. destruct (Z.lt_ge_cases 0 (cnt N (32 * I + 1 + j))) as [Hc|]; [|done].
    apply cnt_pos in Hc as (x & Hx & Hu). pose proof (level_leaf x (HN x Hx)) as Hlx.
    assert (E : 32 * I + 1 + j = up e (s + x)).
    { apply (path_up e (S d)); [by replace (e + S d)%nat with n by lia| |simpl in *; lia].
      replace (e + S d)%nat with n by lia. exact Hu. }
    pose proof (up_mono e (s + m) (s + x)). specialize (Hmin x Hx). unfold z in *. lia. }
  assert (Hne : cd_a (meta I) <> 0) by (intros E; by rewrite E, Z.bits_0 in Hset).
  split; [done|]. split; [done|]. rewrite ffs_ctz by lia. rewrite <- (ctz_least_bit _ b) by (done || lia). lia.
Qed.

Lemma descend_loop meta N m d e :
  tree_ok meta N -> leaves N -> m ∈ N -> (forall x, x ∈ N -> m <= x) -> level (S n) < 2 ^ 62 -> n = (e + d)%nat ->
  for_loop e (fun I => d ← desc_at s meta I; Some (u64 (32 * I + __ffs (cd_a d) + 1))) (up e (s + m)) = Some (s + m).
Proof.
  intros Ht HN Hm Hmin Hl. revert d. induction e as [|e IH]; intros d En; [done|]. cbn [for_loop].
  destruct (descend meta N m e d Ht HN Hm Hmin En) as (HI & _ & E). 
  rewrite desc_in by done. cbn [mbind option_bind]. rewrite E, wrap_small; [by apply (IH (S d)); lia|].
  pose proof (level_leaf m (HN m Hm)). assert (Hu : level (S d) <= up e (s + m) < level (S (S d))).
  { apply up_level. replace (e + S d)%nat with n by lia. done. }
  pose proof (level_mono (S (S d)) (S n) ltac:(lia)). pose proof (level_pos (S d)). lia.
Qed.

(** The smallest bucket that is not empty. *)
Lemma min_leaf_ok meta N :
  tree_ok meta N -> leaves N -> N <> ∅ -> level (S n) < 2 ^ 62 -> (1 <= n)%nat ->
  exists m, min_leaf 32 (Z.of_nat n) s meta = Some m /\ m ∈ N /\ forall x, x ∈ N -> m <= x.
Proof.
  intros Ht HN Hne Hl Hn. destruct (minimal_exists_elem_of_L Z.le N) as (m & Hm & Hmin); [done|].
  assert (Hmin' : forall x, x ∈ N -> m <= x).
  { intros x Hx. specialize (Hmin x Hx). destruct (Z.le_ge_cases x m); [by apply Hmin|done]. }
  exists m. split; [|done]. pose proof (level_leaf m (HN m Hm)). pose proof (level_mono 1 n Hn) as H1.
  assert (En : n = (S (n - 1) + 0)%nat) by lia.
  destruct (descend meta N m (n - 1) 0 Ht HN Hm Hmin' En) as (HI & Ha & E).
  assert (Hroot : up (S (n - 1)) (s + m) = 0).
  { pose proof (up_level (S (n - 1)) 0 (s + m)) as Hr. rewrite <- En in Hr. specialize (Hr H). simpl level in Hr. lia. }
  rewrite Hroot in *. unfold min_leaf. rewrite desc_in by done. cbn [mbind option_bind].
  destruct (Z.eqb_spec (cd_a (meta 0)) 0); [done|].
  replace (__ffs (cd_a (meta 0)) + 1) with (up (n - 1) (s + m)) by lia.
  replace (Z.to_nat (Z.of_nat n - 1)) with (n - 1)%nat by lia.
  rewrite (descend_loop meta N m 1) by (done || lia). cbn [mbind option_bind].
  pose proof (level_pos n). rewrite wrap_small by lia. f_equal. lia.
Qed.
End api.
(** The root is above every bucket. *)
Lemma root_count_pos N : leaves N -> (1 <= n)%nat -> cnt N 0 = 0 <-> N = ∅.
Proof.
  intros HN Hn. split.
  2:{ intros ->. pose proof (cnt_size ∅ 0) as H. rewrite size_empty in H. pose proof (cnt_nonneg ∅ 0). lia. }
  intros E. destruct (decide (N = ∅)) as [|Hne]; [done|]. exfalso. apply set_choose_L in Hne as [i Hi].
  assert (Hu : 0 < cnt N 0); [|lia]. apply cnt_pos. exists i. split; [done|]. unfold under.
  pose proof (level_leaf i (HN i Hi)) as Hl. replace 0 with (up n (s + i)); [by apply up_path|].
  pose proof (up_level n 0 (s + i)) as Hr. rewrite Nat.add_0_r in Hr. specialize (Hr Hl). simpl in Hr. lia.
Qed.

Lemma root_in : (1 <= n)%nat -> 0 < s.
Proof. intros Hn. pose proof (level_mono 1 n Hn). simpl in *. lia. Qed.

End tree.
