(* ===== verification/KEiffel.v ===== *)
(** * The Eiffel queueing discipline: [kernel/sch_eiffel/sch_eiffel.c]

    Two arrays of buckets, one for the horizon that starts at [main_ts] and one
    for the next, each under a tree of counters ([KTree.v]); they change places
    when the first is empty and its time is over.  [None] is a fault of the C
    code: a NULL or dangling dereference, an index out of an array, a division by
    zero. *)

From S2P Require Import Prelude Kernel KernelQueues KTree.

Record gradient_queue := GradientQueue {
  head_ts : Z;
  grnlrty : Z;
  num_of_elements : Z;
  num_of_buckets : Z;
  tree_w : Z;
  tree_l : Z;
  tree_s : Z;
  main_ts : Z;
  buffer_ts : Z;
  max_ts : Z;
  horizon : Z;
  main_buckets : Z -> gq_bucket;
  buffer_buckets : Z -> gq_bucket;
  meta1 : Z -> curvature_desc;
  meta2 : Z -> curvature_desc
}.

(** One of the two arrays, and its tree: [true] for the main one. *)
Definition buckets_of (b : bool) (g : gradient_queue) : Z -> gq_bucket := if b then main_buckets g else buffer_buckets g.
Definition meta_of (b : bool) (g : gradient_queue) : Z -> curvature_desc := if b then meta1 g else meta2 g.

Definition set_array (b : bool) (bks : Z -> gq_bucket) (meta : Z -> curvature_desc) (n : Z) (g : gradient_queue) : gradient_queue :=
  GradientQueue (head_ts g) (grnlrty g) n (num_of_buckets g) (tree_w g) (tree_l g) (tree_s g) (main_ts g) (buffer_ts g)
    (max_ts g) (horizon g) (if b then bks else main_buckets g) (if b then buffer_buckets g else bks)
    (if b then meta else meta1 g) (if b then meta2 g else meta).

(** The empty arrays start at [now]. *)
Definition restart (now : Z) (g : gradient_queue) : gradient_queue :=
  GradientQueue (head_ts g) (grnlrty g) (num_of_elements g) (num_of_buckets g) (tree_w g) (tree_l g) (tree_s g)
    now (u64 (now + horizon g)) (u64 (u64 (now + horizon g) + horizon g)) (horizon g)
    (main_buckets g) (buffer_buckets g) (meta1 g) (meta2 g).

(** The array, the index and the new stamp of a packet stamped [t]. *)
Definition place (g : gradient_queue) (t : Z) : option (bool * Z * Z) :=
  guard (grnlrty g <> 0);;
  Some (if t <? buffer_ts g then
          if t <=? main_ts g then (true, 0, main_ts g) else (true, u64 (t - main_ts g) / grnlrty g, t)
        else
          if t >=? max_ts g then (false, u64 (u64 (max_ts g - buffer_ts g) / grnlrty g - 1), max_ts g)
          else (false, u64 (t - buffer_ts g) / grnlrty g, t)).

Definition gq_push (h : heap) (g : gradient_queue) (skb : addr) : option (heap * gradient_queue) :=
  s ← h !! skb;
  '(b, index, t) ← place g (skb_mstamp_ns s);
  let h := <[skb := set_mstamp t s]> h in
  guard (0 <= index < num_of_buckets g);;
  meta ← (if qlen (buckets_of b g index) =? 0
          then walk_up mark_step (tree_w g) (tree_l g) (tree_s g) (meta_of b g) index
          else Some (meta_of b g));
  '(h, bk) ← bucket_queue_add h (buckets_of b g index) skb;
  Some (h, set_array b (<[index := bk]> (buckets_of b g)) meta (u64 (num_of_elements g + 1)) g).

(** [meta[0].c] of an array's tree. *)
Definition root_count (b : bool) (g : gradient_queue) : option Z :=
  d ← desc_at (tree_s g) (meta_of b g) 0; Some (cd_c d).

(** The rotation in [gq_dequeue]. *)
Definition rotate (g : gradient_queue) : gradient_queue :=
  let buffer := u64 (buffer_ts g + horizon g) in
  GradientQueue (head_ts g) (grnlrty g) (num_of_elements g) (num_of_buckets g) (tree_w g) (tree_l g) (tree_s g)
    (buffer_ts g) buffer (u64 (buffer + horizon g)) (horizon g)
    (buffer_buckets g) (main_buckets g) (meta2 g) (meta1 g).

Section discipline.
Context `{K : KernelApi}.

Definition get_min_index (g : gradient_queue) : option Z :=
  c1 ← root_count true g;
  if negb (c1 =? 0) then min_leaf (tree_w g) (tree_l g) (tree_s g) (meta1 g)
  else
    c2 ← root_count false g;
    if negb (c2 =? 0) then min_leaf (tree_w g) (tree_l g) (tree_s g) (meta2 g)
    else Some (2 ^ 64 - 1).

(** The time of bucket [index] of the array that is in use. *)
Definition index_time (b : bool) (g : gradient_queue) (index : Z) : Z :=
  u64 (u64 (index * grnlrty g) + if b then main_ts g else buffer_ts g).

Definition gq_extract (h : heap) (g : gradient_queue) (now : Z) : option (heap * gradient_queue * ptr * Z) :=
  index ← get_min_index g;
  if num_of_elements g =? 0 then Some (h, restart now g, None, index)
  else
    c1 ← root_count true g;
    let b := negb (c1 =? 0) in
    if index_time b g index >? now then Some (h, g, None, index)
    else
      guard (0 <= index < num_of_buckets g);;
      '(h, bk, skb) ← gq_bucket_dequeue_head h (buckets_of b g index);
      meta ← (if qlen bk =? 0
              then walk_up unmark_step (tree_w g) (tree_l g) (tree_s g) (meta_of b g) index
              else Some (meta_of b g));
      Some (h, set_array b (<[index := bk]> (buckets_of b g)) meta (u64 (num_of_elements g - 1)) g, skb, index).

Context {Sch : Type} `{Q : QdiscApi Sch} `{P : QdiscStats Sch}.

(** The clock reads [now].  Neither [sch->q.qlen] nor the backlog is kept, except
    by [gq_segment]. *)
Definition gq_enqueue (gso_split : bool) (now : Z) (h : heap) (socks : gmap addr sock)
    (k : kqdisc gradient_queue Sch) (skb : addr) :
    option (Z * heap * gmap addr sock * kqdisc gradient_queue Sch) :=
  let k := if num_of_elements (gq k) =? 0 then with_gq (restart now (gq k)) k else k in
  if num_of_elements (gq k) >=? sch_limit k then let '(ret, k) := drop_skb skb k in Some (ret, h, socks, k)
  else
    s ← h !! skb;
    let socks := mark_paced socks s in
    if gso_split && is_gso s then
      '(ret, h, k) ← gq_segment gq_push num_of_elements h socks k skb; Some (ret, h, socks, k)
    else
      '(h, g) ← gq_push h (gq k) skb;
      Some (NET_XMIT_SUCCESS, h, socks, with_gq g k).

(** [last_expires] is the field of the watchdog. *)
Definition gq_dequeue (now last_expires : Z) (h : heap) (k : kqdisc gradient_queue Sch) :
    option (ptr * heap * kqdisc gradient_queue Sch) :=
  '(h, g, skb, index) ← gq_extract h (gq k) now;
  match skb with
  | None =>
      if num_of_elements g =? 0 then Some (None, h, with_gq g k)
      else
        c1 ← root_count true g;
        let t := index_time (negb (c1 =? 0)) g index in
        if (t >? last_expires) && (t <? now) then Some (None, h, with_gq g k)
        else Some (None, h, with_watchdog t (with_gq g k))
  | Some _ =>
      g ← (if buffer_ts g <? now then
             c1 ← root_count true g; Some (if c1 =? 0 then rotate g else g)
           else Some g);
      Some (skb, h, with_gq g k)
  end.

Definition gq_reset (k : kqdisc gradient_queue Sch) : kqdisc gradient_queue Sch :=
  let g := gq k in
  KQ (GradientQueue (head_ts g) (grnlrty g) (num_of_elements g) (num_of_buckets g) (tree_w g) (tree_l g) (tree_s g)
        (main_ts g) (buffer_ts g) (max_ts g) (horizon g) (fun _ => empty_gq_bucket) (fun _ => empty_gq_bucket)
        (fun _ => Desc 0 0 0 0) (fun _ => Desc 0 0 0 0))
    (gwatchdog k) 0 (sch_limit k) (set_backlog 0 (rest k)).

Definition gq_change : Z := -1.

(** ** Initialisation *)

Definition log_approx_step (b S : Z) (st : Z * Z) : Z * Z :=
  let '(v, r) := st in if Z.land v b =? 0 then (v, r) else (Z.shiftr v S, Z.lor r S).

Definition log_approx (v : Z) : Z :=
  snd (log_approx_step 2 1 (log_approx_step 12 2 (log_approx_step 240 4
    (log_approx_step 65280 8 (log_approx_step 4294901760 16 (u32 v, 0)))))).

Definition init_desc (w i : Z) : curvature_desc := Desc 0 0 (u64 (i - 1) / w) (u64 (i - 1) mod w).

(** With the module's parameters, in nanoseconds and in seconds; memory is not
    short, and no array has 2^31 entries or more. *)
Definition gq_init (granularity horizon_s now : Z) (k : kqdisc gradient_queue Sch) :
    option (kqdisc gradient_queue Sch) :=
  let horizon_ns := u64 (horizon_s * NSEC_PER_SEC) in
  guard (granularity <> 0);;
  let num := horizon_ns / granularity in
  let w := 32 in
  let l := (log_approx num + log_approx w - 1) / log_approx w in
  let s := (u64 (w ^ l) - 1) / (w - 1) in
  guard (num < 2 ^ 31 /\ s < 2 ^ 31);;
  Some (KQ (GradientQueue (now / granularity) granularity 0 num w l s now (u64 (now + horizon_ns))
              (u64 (u64 (now + horizon_ns) + horizon_ns)) horizon_ns (fun _ => empty_gq_bucket) (fun _ => empty_gq_bucket)
              (init_desc w) (init_desc w))
          (gwatchdog k) (sch_qlen k) 80000 (rest k)).

End discipline.

(** * Specification *)

(** The array and the index that hold the times of [t]'s granule. *)
Definition array_key (main buffer gr : Z) (p : item) : bool * Z :=
  if p.2 <? buffer then (true, (p.2 - main) / gr) else (false, (p.2 - buffer) / gr).

Definition key_of (g : gradient_queue) : item -> bool * Z := array_key (main_ts g) (buffer_ts g) (grnlrty g).

(** A packet filed under time [e] has time stamp [e], or the end of the window
    when it was sent further ahead. *)
Definition end_stamped (e m : Z) : Prop := m = e \/ m = e + 1.

Definition slot (g : gradient_queue) (t : Z) : Z := (t - main_ts g) / grnlrty g.
Definition slot_start (g : gradient_queue) (t : Z) : Z := main_ts g + slot g t * grnlrty g.

(** The buckets of an array that hold one of the packets [l]. *)
Definition occupied (key : item -> bool * Z) (b : bool) (l : list item) : gset Z :=
  list_to_set (snd <$> filter (fun x => fst x = b) (key <$> l)).

Definition depth (g : gradient_queue) : nat := Z.to_nat (tree_l g).

(** The discipline holds the packets [l], in order of arrival with their times:
    the two arrays cover two horizons from [main_ts] on, and each tree marks the
    buckets that are not empty. *)
Record eiffel_rel (h : heap) (g : gradient_queue) (l : list item) : Prop := {
  e_gran : 0 < grnlrty g;
  e_num : 0 < num_of_buckets g;
  e_horizon : horizon g = num_of_buckets g * grnlrty g /\ horizon g < 2 ^ 61;
  e_tree : tree_w g = 32 /\ 1 <= tree_l g /\ tree_s g = level (depth g) /\
    num_of_buckets g <= 32 ^ tree_l g /\ level (S (depth g)) < 2 ^ 62;
  e_times : 0 <= main_ts g < 2 ^ 62 /\ buffer_ts g = main_ts g + horizon g /\ max_ts g = buffer_ts g + horizon g;
  e_family : gq_family (key_of g) end_stamped h (fun i => buckets_of (fst i) g (snd i)) l;
  e_elements : num_of_elements g = Z.of_nat (length l);
  e_window : forall p, p ∈ l -> main_ts g <= p.2 < max_ts g;
  e_marks : forall b, tree_ok (depth g) (meta_of b g) (occupied (key_of g) b l)
}.

(** ** Lemmas *)

Lemma elem_of_occupied key b l i : i ∈ occupied key b l <-> exists p, p ∈ l /\ key p = (b, i).
Proof.
  unfold occupied. rewrite elem_of_list_to_set, list_elem_of_fmap. split.
  - intros ([b' i'] & -> & H). apply list_elem_of_filter in H as [E H]. simpl in E. subst b'.
    apply list_elem_of_fmap in H as (p & E & Hp). by exists p.
  - intros (p & Hp & E). exists (b, i). split; [done|]. apply list_elem_of_filter. split; [done|].
    rewrite <- E. apply list_elem_of_fmap. by exists p.
Qed.

Lemma occupied_size key b l : (size (occupied key b l) <= length l)%nat.
Proof.
  unfold occupied. etransitivity; [apply size_of_list|]. rewrite length_fmap.
  etransitivity; [apply length_filter|]. by rewrite length_fmap.
Qed.

Lemma occupied_ext key key' b b' l l' :
  (forall i, (exists p, p ∈ l /\ key p = (b, i)) <-> (exists p, p ∈ l' /\ key' p = (b', i))) ->
  occupied key b l = occupied key' b' l'.
Proof. intros H. apply set_eq. intros i. rewrite !elem_of_occupied. apply H. Qed.

Lemma occupied_add key b b' l p i :
  key p = (b, i) -> occupied key b' (l ++ [p]) = if decide (b' = b) then {[i]} ∪ occupied key b' l else occupied key b' l.
Proof.
  intros E. apply set_eq. intros j.
  assert (Hj : j ∈ occupied key b' (l ++ [p]) <-> j ∈ occupied key b' l \/ key p = (b', j)).
  { rewrite !elem_of_occupied. setoid_rewrite elem_of_app. setoid_rewrite list_elem_of_singleton. naive_solver. }
  rewrite Hj, E. destruct (decide (b' = b)); rewrite ?elem_of_union, ?elem_of_singleton; naive_solver.
Qed.

(** A packet goes: its bucket stays marked when another one is in it. *)
Lemma occupied_drop key b b' l1 l2 p i :
  key p = (b, i) ->
  occupied key b' (l1 ++ l2) =
    if decide (b' = b /\ filter (keyed key (b, i)) (l1 ++ l2) = []) then occupied key b' (l1 ++ p :: l2) ∖ {[i]}
    else occupied key b' (l1 ++ p :: l2).
Proof.
  intros E. apply set_eq. intros j.
  assert (Hj : j ∈ occupied key b' (l1 ++ p :: l2) <-> j ∈ occupied key b' (l1 ++ l2) \/ key p = (b', j)).
  { rewrite !elem_of_occupied. setoid_rewrite elem_of_app. setoid_rewrite elem_of_cons. naive_solver. }
  destruct (decide _) as [[-> Hf]|Hn]; rewrite ?elem_of_difference, ?elem_of_singleton, Hj, E.
  - assert (i ∉ occupied key b (l1 ++ l2)); [|naive_solver].
    rewrite elem_of_occupied. intros (q & Hq & Eq). by apply (filter_nil_not (keyed key (b, i)) (l1 ++ l2) q).
  - split; [naive_solver|]. intros [?|[= <- <-]]; [done|]. rewrite elem_of_occupied.
    destruct (filter (keyed key (b, i)) (l1 ++ l2)) as [|q k] eqn:Ef; [naive_solver|]. exists q.
    assert (Hq : q ∈ filter (keyed key (b, i)) (l1 ++ l2)) by (rewrite Ef; by left).
    apply list_elem_of_filter in Hq as [? ?]. done.
Qed.

(** ** Times and indices *)

Section window.
Context (g : gradient_queue) (Hg : 0 < grnlrty g) (Hh : horizon g = num_of_buckets g * grnlrty g)
  (Hb : buffer_ts g = main_ts g + horizon g) (Hm : max_ts g = buffer_ts g + horizon g).

Lemma key_slot p : main_ts g <= p.2 < max_ts g ->
  exists b i, key_of g p = (b, i) /\ 0 <= i < num_of_buckets g /\
    slot g p.2 = (if b then i else num_of_buckets g + i) /\
    slot_start g p.2 = (if b then main_ts g else buffer_ts g) + i * grnlrty g /\
    slot_start g p.2 <= p.2 < slot_start g p.2 + grnlrty g.
Proof.
  intros Hp. unfold key_of, array_key, slot_start, slot.
  pose proof (Z.div_mod (p.2 - main_ts g) (grnlrty g) ltac:(lia)). pose proof (Z.mod_pos_bound (p.2 - main_ts g) (grnlrty g) Hg).
  set (d := (p.2 - main_ts g) / grnlrty g) in *. destruct (Z.ltb_spec p.2 (buffer_ts g)).
  - exists true, d. split; [done|]. split; [nia|]. lia.
  - exists false, (d - num_of_buckets g). replace (p.2 - buffer_ts g) with (p.2 - main_ts g + - num_of_buckets g * grnlrty g) by lia.
    rewrite Z.div_add by lia. fold d. split; [f_equal; lia|]. split; [nia|]. lia.
Qed.

(** The time under which a packet stamped [t] is filed. *)
Definition filed_at (t : Z) : Z := Z.min (Z.max t (main_ts g)) (max_ts g - 1).

Lemma place_ok t skb : 0 < num_of_buckets g -> 0 <= t < 2 ^ 64 -> 0 <= main_ts g < 2 ^ 62 -> horizon g < 2 ^ 61 ->
  exists b i t', place g t = Some (b, i, t') /\ key_of g (skb, filed_at t) = (b, i) /\ end_stamped (filed_at t) t' /\
    0 <= i < num_of_buckets g /\ main_ts g <= filed_at t < max_ts g.
Proof.
  intros Hn Ht Hmain Hhor. assert (1 <= horizon g) by nia.
  assert (Hf : main_ts g <= filed_at t < max_ts g) by (unfold filed_at; lia).
  destruct (key_slot (skb, filed_at t)) as (b & i & Ek & Hi & _); [done|]. exists b, i.
  unfold place. rewrite option_guard_True by lia. cbn [mbind option_bind]. unfold key_of, array_key in Ek. simpl in Ek.
  unfold key_of, array_key, end_stamped, filed_at in *. simpl.
  destruct (Z.ltb_spec t (buffer_ts g)) as [H1|H1].
  - replace (Z.min (Z.max t (main_ts g)) (max_ts g - 1)) with (Z.max t (main_ts g)) in * by lia.
    rewrite (proj2 (Z.ltb_lt (Z.max t (main_ts g)) (buffer_ts g))) in * by lia.
    destruct (Z.leb_spec t (main_ts g)) as [H2|H2].
    + exists (main_ts g). rewrite Z.max_r, Z.sub_diag, Z.div_0_l in * by lia. simplify_eq. naive_solver.
    + exists t. rewrite Z.max_l in * by lia. rewrite wrap_small by lia. simplify_eq. naive_solver.
  - destruct (Z.geb_spec t (max_ts g)) as [H2|H2].
    + replace (Z.min (Z.max t (main_ts g)) (max_ts g - 1)) with (max_ts g - 1) in * by lia.
      rewrite (proj2 (Z.ltb_ge (max_ts g - 1) (buffer_ts g))) in * by lia.
      assert (E : (max_ts g - 1 - buffer_ts g) / grnlrty g = num_of_buckets g - 1).
      { symmetry. apply (Z.div_unique_pos _ _ _ (grnlrty g - 1)); lia. }
      exists (max_ts g). rewrite E in *. rewrite (wrap_small 64 (max_ts g - buffer_ts g)) by lia.
      replace ((max_ts g - buffer_ts g) / grnlrty g) with (num_of_buckets g) by
        (replace (max_ts g - buffer_ts g) with (num_of_buckets g * grnlrty g) by lia; by rewrite Z.div_mul by lia).
      rewrite wrap_small by nia. simplify_eq. split; [done|]. split; [done|]. split; [lia|]. split; lia.
    + replace (Z.min (Z.max t (main_ts g)) (max_ts g - 1)) with t in * by lia.
      rewrite (proj2 (Z.ltb_ge t (buffer_ts g))) in * by lia. exists t. rewrite wrap_small by lia. simplify_eq. naive_solver.
Qed.
End window.

(** ** Filing a packet *)

Lemma rel_leaves h g l b : eiffel_rel h g l -> leaves (depth g) (occupied (key_of g) b l).
Proof.
  intros R i Hi. apply elem_of_occupied in Hi as (p & Hp & E). pose proof (e_times _ _ _ R) as (_ & Hb & Hm).
  destruct (key_slot g (e_gran _ _ _ R) (proj1 (e_horizon _ _ _ R)) Hb Hm p (e_window _ _ _ R p Hp)) as (b' & i' & E' & Hr & _).
  pose proof (e_tree _ _ _ R) as (_ & Hl & _ & Hn & _). unfold depth. rewrite Z2Nat.id by lia.
  assert (i = i') by congruence. lia.
Qed.

Lemma rel_small h g l b : eiffel_rel h g l -> Z.of_nat (size (occupied (key_of g) b l)) < 2 ^ 31.
Proof. intros R. pose proof (occupied_size (key_of g) b l). pose proof (gf_len _ _ _ _ _ (e_family _ _ _ R)). lia. Qed.

Lemma rel_occupied h g l b i :
  eiffel_rel h g l -> qlen (buckets_of b g i) = 0 <-> i ∉ occupied (key_of g) b l.
Proof.
  intros R. pose proof (gf_qlen _ _ _ _ _ (e_family _ _ _ R) (b, i)) as Hq. simpl in Hq. rewrite Hq, elem_of_occupied. split.
  - intros Hz (p & Hp & E). destruct (filter (keyed (key_of g) (b, i)) l) eqn:Ef; [|simpl in Hz; lia].
    by apply (filter_nil_not (keyed (key_of g) (b, i)) l p).
  - intros Hn. destruct (filter (keyed (key_of g) (b, i)) l) as [|p k] eqn:Ef; [done|]. exfalso. apply Hn. exists p.
    assert (Hp : p ∈ filter (keyed (key_of g) (b, i)) l) by (rewrite Ef; by left).
    apply list_elem_of_filter in Hp as [? ?]. done.
Qed.

Lemma eiffel_frame h h' g l : (forall a, a ∈ l.*1 -> h' !! a = h !! a) -> eiffel_rel h g l -> eiffel_rel h' g l.
Proof. intros Hf [R1 R2 R3 R4 R5 R6 R7 R8 R9]. split; try done. by eapply family_frame. Qed.

Lemma set_array_at b i bk meta n g j :
  buckets_of (fst j) (set_array b (<[i := bk]> (buckets_of b g)) meta n g) (snd j) =
  <[(b, i) := bk]> (fun i => buckets_of (fst i) g (snd i)) j.
Proof.
  destruct j as [c j]. unfold buckets_of, set_array. simpl. destruct (decide ((b, i) = (c, j))) as [E|Hne].
  - rewrite E, fn_insert_eq. injection E as -> ->. destruct c; simpl; by rewrite fn_insert_eq.
  - rewrite fn_insert_ne by done. simpl. destruct c, b; simpl; try done; rewrite fn_insert_ne; congruence.
Qed.

(** What filing and taking change: one bucket, its tree and the count. *)
Lemma eiffel_set h' g l l' b bks meta n :
  (forall h, eiffel_rel h g l -> forall p, p ∈ l' -> main_ts g <= p.2 < max_ts g) ->
  (exists h, eiffel_rel h g l) ->
  gq_family (key_of g) end_stamped h' (fun i => buckets_of (fst i) (set_array b bks meta n g) (snd i)) l' ->
  n = Z.of_nat (length l') ->
  (forall b', tree_ok (depth g) (meta_of b' (set_array b bks meta n g)) (occupied (key_of g) b' l')) ->
  eiffel_rel h' (set_array b bks meta n g) l'.
Proof.
  intros Hw [h [R1 R2 R3 R4 R5 R6 R7 R8 R9]] HF Hn Hm. split; try done. intros p Hp. by eapply (Hw h).
Qed.

Lemma gradient_push_ok h g l skb s :
  eiffel_rel h g l -> h !! skb = Some s -> 0 <= skb_mstamp_ns s < 2 ^ 64 -> skb ∉ l.*1 -> Z.of_nat (length l) + 1 < 2 ^ 31 ->
  exists h' g', gq_push h g skb = Some (h', g') /\ eiffel_rel h' g' (l ++ [(skb, filed_at g (skb_mstamp_ns s))]) /\
    main_ts g' = main_ts g /\ max_ts g' = max_ts g /\ (forall a, a ∉ l.*1 -> a <> skb -> h' !! a = h !! a).
Proof.
  intros R Hs Ht Hnew Hlen. pose proof R as [R1 R2 [R3 R3'] R4 (R5 & R5b & R5m) R6 R7 R8 R9].
  set (e := filed_at g (skb_mstamp_ns s)).
  destruct (place_ok g R1 R3 R5b R5m (skb_mstamp_ns s) skb R2 Ht R5 R3') as (b & i & t & Ep & Ek & Est & Hi & He). fold e in Ek, Est, He.
  unfold gq_push. rewrite Hs. cbn [mbind option_bind]. rewrite Ep. cbn [mbind option_bind].
  set (h1 := <[skb := set_mstamp t s]> h). rewrite option_guard_True by done. cbn [mbind option_bind].
  assert (F1 : gq_family (key_of g) end_stamped h1 (fun i => buckets_of (fst i) g (snd i)) l).
  { eapply family_frame; [|exact R6]. intros a Ha. unfold h1. rewrite lookup_insert_ne; [done|]. intros ->. done. }
  destruct (family_push _ _ h1 _ l skb (set_mstamp t s) e F1) as (h' & b' & E & F' & _ & Hfr);
    [apply lookup_insert_eq|done|done|done|].
  cbn zeta in E, F'. rewrite Ek in E, F'. simpl fst in E. simpl snd in E.
  assert (Hocc : forall c, occupied (key_of g) c (l ++ [(skb, e)]) =
    if decide (c = b) then {[i]} ∪ occupied (key_of g) c l else occupied (key_of g) c l)
    by (intros c; exact (occupied_add _ b c l (skb, e) i Ek)).
  assert (Hmark : exists meta', (if qlen (buckets_of b g i) =? 0
      then walk_up mark_step (tree_w g) (tree_l g) (tree_s g) (meta_of b g) i else Some (meta_of b g)) = Some meta' /\
      tree_ok (depth g) meta' (occupied (key_of g) b (l ++ [(skb, e)]))).
  { rewrite Hocc, decide_True by done.
    destruct (Z.eqb_spec (qlen (buckets_of b g i)) 0) as [Hz|Hz].
    - apply (rel_occupied h g l b i R) in Hz. destruct R4 as (-> & Hl1 & -> & Hn & Hlev).
      replace (tree_l g) with (Z.of_nat (depth g)) by (unfold depth; lia).
      apply mark_ok; [apply R9|by eapply rel_leaves| |done| |done].
      + pose proof (rel_small h g l b R). lia.
      + unfold depth. rewrite Z2Nat.id by lia. lia.
    - exists (meta_of b g). split; [done|]. replace ({[i]} ∪ occupied (key_of g) b l) with (occupied (key_of g) b l); [apply R9|].
      apply set_eq. intros x. rewrite elem_of_union, elem_of_singleton. split; [by right|]. intros [->|]; [|done].
      destruct (decide (i ∈ occupied (key_of g) b l)) as [|Hni]; [done|]. by apply (rel_occupied h g l b i R) in Hni. }
  destruct Hmark as (meta' & -> & Hmark). cbn [mbind option_bind]. rewrite E. cbn [mbind option_bind].
  eexists h', _. split; [reflexivity|]. split; [|split; [done|split; [done|]]].
  - apply (eiffel_set h' g l); [|by exists h| | |].
    + intros _ _ p Hp. apply elem_of_app in Hp as [Hp|Hp]; [by apply R8|]. by apply list_elem_of_singleton in Hp as ->.
    + eapply family_ext; [|exact F']. apply set_array_at.
    + rewrite R7, length_app. cbn [length]. rewrite wrap_small by lia. lia.
    + intros c. destruct (decide (c = b)) as [->|Hc].
      * replace (meta_of b (set_array _ _ _ _ _)) with meta'; [done|by destruct b].
      * rewrite Hocc, decide_False by done.
        replace (meta_of c (set_array _ _ _ _ _)) with (meta_of c g); [apply R9|by destruct b, c].
  - intros a Ha Hsk. rewrite Hfr by done. unfold h1. by rewrite lookup_insert_ne.
Qed.

(** ** Taking a packet *)

Lemma root_ok h g l b : eiffel_rel h g l ->
  exists c, root_count b g = Some c /\ (c = 0 <-> occupied (key_of g) b l = ∅).
Proof.
  intros R. pose proof (e_tree _ _ _ R) as (_ & Hl & Hs & _). assert (Hd : (1 <= depth g)%nat) by (unfold depth; lia).
  pose proof (root_in (depth g) Hd) as H0. unfold root_count. rewrite Hs, desc_in by lia. cbn [mbind option_bind].
  eexists. split; [done|]. rewrite (n_count _ _ _ _ (e_marks _ _ _ R b 0 ltac:(lia))).
  apply root_count_pos; [by eapply rel_leaves|done].
Qed.

(** [b] is the array in use, and [m] its first bucket that is not empty. *)
Record first_bucket (g : gradient_queue) (l : list item) (b : bool) (m : Z) : Prop := {
  fb_main : b = negb (bool_decide (occupied (key_of g) true l = ∅));
  fb_in : m ∈ occupied (key_of g) b l;
  fb_min : forall i, i ∈ occupied (key_of g) b l -> m <= i
}.

Lemma first_bucket_slot h g l b m p q :
  eiffel_rel h g l -> first_bucket g l b m -> p ∈ l -> key_of g p = (b, m) -> q ∈ l ->
  slot g p.2 <= slot g q.2 /\ (slot g q.2 = slot g p.2 -> key_of g q = (b, m)).
Proof.
  intros R [Hb Hin Hmin] Hp Ep Hq. pose proof (e_times _ _ _ R) as (_ & Hbuf & Hmax).
  pose proof (proj1 (e_horizon _ _ _ R)) as Hh. pose proof (e_gran _ _ _ R) as Hg.
  destruct (key_slot g Hg Hh Hbuf Hmax p (e_window _ _ _ R p Hp)) as (b1 & i1 & E1 & Hi1 & Hs1 & _).
  destruct (key_slot g Hg Hh Hbuf Hmax q (e_window _ _ _ R q Hq)) as (c & j & Eq & Hj & Hsq & _).
  assert (b1 = b /\ i1 = m) as [-> ->] by (split; congruence). rewrite Hs1, Hsq, Eq.
  assert (Hjc : j ∈ occupied (key_of g) c l) by (apply elem_of_occupied; by exists q).
  destruct b.
  - destruct c; [|split; [lia|intros; exfalso; lia]]. specialize (Hmin j Hjc). split; [lia|]. intros. f_equal. lia.
  - destruct c.
    + exfalso. case_bool_decide as H; [|done]. rewrite H in Hjc. set_solver.
    + specialize (Hmin j Hjc). split; [lia|]. intros. f_equal. lia.
Qed.

Section api.
Context `{K : KernelApi} `{!KernelApiOk K}.

Lemma gradient_min_ok h g l :
  eiffel_rel h g l ->
  exists index, get_min_index g = Some index /\
    (l <> [] -> exists b, first_bucket g l b index /\ exists c, root_count true g = Some c /\ b = negb (c =? 0)).
Proof.
  intros R. destruct (root_ok h g l true R) as (c1 & E1 & H1). destruct (root_ok h g l false R) as (c2 & E2 & H2).
  unfold get_min_index. rewrite E1. cbn [mbind option_bind].
  pose proof (e_tree _ _ _ R) as (-> & Hl & Hs & _ & Hlev). assert (Hd : (1 <= depth g)%nat) by (unfold depth; lia).
  assert (Hleaf : forall b, occupied (key_of g) b l <> ∅ -> exists m, min_leaf 32 (tree_l g) (tree_s g) (meta_of b g) = Some m /\
    m ∈ occupied (key_of g) b l /\ forall i, i ∈ occupied (key_of g) b l -> m <= i).
  { intros b Hne. rewrite Hs. replace (tree_l g) with (Z.of_nat (depth g)) by (unfold depth; lia).
    apply min_leaf_ok; [exact _|apply (e_marks _ _ _ R)|by eapply rel_leaves|done..]. }
  destruct (Z.eqb_spec c1 0) as [Ez1|Hz1]; cbn [negb].
  - rewrite E2. cbn [mbind option_bind]. destruct (Z.eqb_spec c2 0) as [Ez2|Hz2]; cbn [negb].
    + eexists. split; [done|]. intros Hne. exfalso. destruct l as [|p l']; [done|].
      destruct (key_of g p) as [c j] eqn:Ek.
      assert (Hj : j ∈ occupied (key_of g) c (p :: l')) by (apply elem_of_occupied; exists p; split; [by left|done]).
      apply H1 in Ez1. apply H2 in Ez2. destruct c; [rewrite Ez1 in Hj|rewrite Ez2 in Hj]; set_solver.
    + destruct (Hleaf false) as (m & Em & Hm & Hmin); [tauto|]. exists m. split; [exact Em|]. intros _. exists false.
      split; [|by exists c1; subst c1]. split; [|done|done]. rewrite bool_decide_eq_true_2 by tauto. done.
  - destruct (Hleaf true) as (m & Em & Hm & Hmin); [tauto|]. exists m. split; [exact Em|]. intros _. exists true.
    split; [|exists c1; split; [done|by destruct (Z.eqb_spec c1 0)]]. split; [|done|done]. rewrite bool_decide_eq_false_2 by tauto. done.
Qed.

Lemma gradient_extract_ok h g l now :
  eiffel_rel h g l -> 0 <= now < 2 ^ 62 ->
  exists h' g' r index, gq_extract h g now = Some (h', g', r, index) /\
    match r with
    | None => h' = h /\ eiffel_rel h g' l /\
        if decide (l = []) then g' = restart now g
        else g' = g /\ exists p c, p ∈ l /\ root_count true g = Some c /\
          index_time (negb (c =? 0)) g index = slot_start g p.2 /\ now < slot_start g p.2 /\
          forall q, q ∈ l -> slot g p.2 <= slot g q.2
    | Some a => exists p l1 l2, a = p.1 /\ first_of (slot g) l p l1 l2 /\ slot_start g p.2 <= now /\
        eiffel_rel h' g' (l1 ++ l2) /\ main_ts g' = main_ts g /\ grnlrty g' = grnlrty g
    end.
Proof.
  intros R Hnow. pose proof R as [R1 R2 [R3 R3'] R4 (R5 & R5b & R5m) R6 R7 R8 R9].
  destruct (gradient_min_ok h g l R) as (index & E & Hl). unfold gq_extract. rewrite E. cbn [mbind option_bind]. rewrite R7.
  destruct l as [|p0 l0].
  - exists h, (restart now g), None, index. split; [done|]. split; [done|]. split; [|done].
    split; try done; simpl.
    + split; [lia|]. rewrite wrap_small by lia. split; [done|]. rewrite wrap_small by lia. done.
    + split; [apply R6|apply R6|apply R6|..]; set_solver.
    + intros p Hp. set_solver.
  - set (l := p0 :: l0) in *. destruct (Z.eqb_spec (Z.of_nat (length l)) 0) as [Hz|_]; [simpl in Hz; lia|].
    destruct (Hl ltac:(done)) as (b & Hb & c & Ec & Ebc). rewrite Ec. cbn [mbind option_bind]. rewrite <- Ebc.
    pose proof (fb_in _ _ _ _ Hb) as Hin. apply elem_of_occupied in Hin as (p & Hp & Ep).
    destruct (key_slot g R1 R3 R5b R5m p (R8 p Hp)) as (b1 & i1 & E1 & Hi1 & _ & Est & _).
    assert (b1 = b /\ i1 = index) as [-> ->] by (split; congruence).
    assert (Et : index_time b g index = slot_start g p.2).
    { unfold index_time. rewrite (wrap_small 64 (index * grnlrty g)), wrap_small by (destruct b; nia). rewrite Est. lia. }
    rewrite Et. destruct (Z.gtb_spec (slot_start g p.2) now) as [Hlt|Hge].
    + exists h, g, None, index. split; [done|]. split; [done|]. split; [done|]. rewrite decide_False by done. split; [done|].
      exists p, c. rewrite <- Ebc. do 4 (split; [done|]). intros q Hq. by eapply first_bucket_slot.
    + rewrite option_guard_True by done. cbn [mbind option_bind].
      pose proof (family_pop _ _ h _ l (b, index) R6) as Hpop. cbn [fst snd] in Hpop.
      destruct (filter (keyed (key_of g) (b, index)) l) as [|p1 k] eqn:Ef.
      { exfalso. by apply (filter_nil_not (keyed (key_of g) (b, index)) l p). }
      destruct Hpop as (h' & bk & l1 & l2 & -> & El & Ef1 & Ep1 & F' & _ & Hq). cbn [mbind option_bind].
      assert (Hp1 : p1 ∈ l) by (rewrite El; set_solver).
      destruct (key_slot g R1 R3 R5b R5m p1 (R8 p1 Hp1)) as (b2 & i2 & E2 & _ & _ & Est1 & _).
      assert (b2 = b /\ i2 = index) as [-> ->] by (split; congruence).
      assert (Hmark : exists meta', (if qlen bk =? 0
          then walk_up unmark_step (tree_w g) (tree_l g) (tree_s g) (meta_of b g) index else Some (meta_of b g)) = Some meta' /\
          tree_ok (depth g) meta' (occupied (key_of g) b (l1 ++ l2))).
      { rewrite (occupied_drop (key_of g) b b l1 l2 p1 index Ep1), <- El, Hq.
        destruct (filter (keyed (key_of g) (b, index)) (l1 ++ l2)) as [|x xs].
        - rewrite decide_True by done. destruct R4 as (-> & Hl1 & -> & Hn & Hlev). cbn [length Z.of_nat Z.eqb].
          replace (tree_l g) with (Z.of_nat (depth g)) by (unfold depth; lia).
          apply unmark_ok; [apply R9|by eapply rel_leaves| |done|apply Hb].
          pose proof (rel_small h g l b R). lia.
        - rewrite decide_False by naive_solver. destruct (Z.eqb_spec (Z.of_nat (length (x :: xs))) 0) as [Hz|]; [simpl in Hz; lia|].
          exists (meta_of b g). split; [done|apply R9]. }
      destruct Hmark as (meta' & -> & Hmark). cbn [mbind option_bind].
      eexists h', _, (Some p1.1), index. split; [reflexivity|]. exists p1, l1, l2. split; [done|].
      assert (Hslot : forall q, q ∈ l -> slot g p1.2 <= slot g q.2 /\ (slot g q.2 = slot g p1.2 -> key_of g q = (b, index)))
        by (intros q Hql; by eapply first_bucket_slot).
      split; [|split; [lia|split; [|done]]].
      * split; [done|]. split; [intros q Hql; by apply Hslot|]. intros q Hql.
        assert (Hqin : q ∈ l) by (rewrite El; set_solver). destruct (Hslot q Hqin) as [Hle Heq].
        destruct (decide (slot g q.2 = slot g p1.2)) as [e|]; [|lia]. exfalso.
        by apply (filter_nil_not (keyed (key_of g) (b, index)) l1 q Ef1 Hql), Heq.
      * apply (eiffel_set h' g l); [|by exists h| | |].
        -- intros _ _ q Hql. apply R8. rewrite El. set_solver.
        -- eapply family_ext; [|exact F']. apply set_array_at.
        -- pose proof (gf_len _ _ _ _ _ R6) as Hlen. rewrite El, !length_app in *. cbn [length] in *. rewrite wrap_small by lia. lia.
        -- intros c'. destruct (decide (c' = b)) as [->|Hc].
           ++ replace (meta_of b (set_array _ _ _ _ _)) with meta'; [done|by destruct b].
           ++ rewrite (occupied_drop (key_of g) b c' l1 l2 p1 index Ep1), <- El, decide_False by tauto.
              replace (meta_of c' (set_array _ _ _ _ _)) with (meta_of c' g); [apply R9|by destruct b, c'].
Qed.
End api.

(** ** Rotation *)

Definition swap (i : bool * Z) : bool * Z := (negb (fst i), snd i).

Lemma rotate_ok h g l :
  eiffel_rel h g l -> occupied (key_of g) true l = ∅ -> buffer_ts g < 2 ^ 62 -> eiffel_rel h (rotate g) l.
Proof.
  intros R Hmain Hlt. pose proof R as [R1 R2 [R3 R3'] R4 (R5 & R5b & R5m) R6 R7 R8 R9]. assert (1 <= horizon g) by nia.
  assert (Hlate : forall p, p ∈ l -> buffer_ts g <= p.2).
  { intros p Hp. destruct (Z.lt_ge_cases p.2 (buffer_ts g)) as [Hp2|]; [|done]. exfalso.
    assert (Hin : (p.2 - main_ts g) / grnlrty g ∈ occupied (key_of g) true l); [|rewrite Hmain in Hin; set_solver].
    apply elem_of_occupied. exists p. split; [done|]. unfold key_of, array_key. by rewrite (proj2 (Z.ltb_lt _ _)). }
  assert (Eb : buffer_ts (rotate g) = buffer_ts g + horizon g) by (simpl; rewrite wrap_small by lia; done).
  assert (Em : max_ts (rotate g) = buffer_ts (rotate g) + horizon g).
  { simpl. rewrite !wrap_small by (rewrite ?wrap_small by lia; lia). done. }
  assert (Hkey : forall p, p ∈ l -> key_of (rotate g) p = swap (key_of g p)).
  { intros p Hp. specialize (Hlate p Hp). specialize (R8 p Hp). unfold key_of, array_key. rewrite Eb.
    rewrite (proj2 (Z.ltb_lt p.2 (buffer_ts g + horizon g))), (proj2 (Z.ltb_ge p.2 (buffer_ts g))) by lia. done. }
  split; try done.
  - rewrite Em, Eb. split; [change (main_ts (rotate g)) with (buffer_ts g); lia|done].
  - apply (family_rekey (key_of g) (key_of (rotate g)) end_stamped swap _ (fun i => buckets_of (fst i) g (snd i)));
      [by intros [[] ?]|done|by intros [[] ?]|done].
  - intros p Hp. specialize (Hlate p Hp). specialize (R8 p Hp). rewrite Em, Eb. change (main_ts (rotate g)) with (buffer_ts g). lia.
  - intros b. replace (meta_of b (rotate g)) with (meta_of (negb b) g) by (by destruct b).
    replace (occupied (key_of (rotate g)) b l) with (occupied (key_of g) (negb b) l); [apply R9|].
    apply occupied_ext. intros i. split; intros (p & Hp & Ek); exists p; (split; [done|]); rewrite Hkey in * by done.
    + rewrite Ek. unfold swap. simpl. by rewrite negb_involutive.
    + unfold swap in Ek. destruct (key_of g p) as [c j]. simpl in Ek. injection Ek as <- <-. by rewrite negb_involutive.
Qed.

(** ** The discipline *)

(** [gq_push] keeps the promise on which the cutting of super-packets relies. *)
Lemma eiffel_push h g l skb s :
  eiffel_rel h g l -> h !! skb = Some s -> 0 <= skb_mstamp_ns s < 2 ^ 64 -> skb ∉ l.*1 -> Z.of_nat (length l) + 1 < 2 ^ 31 ->
  exists h' g', gq_push h g skb = Some (h', g') /\ eiffel_rel h' g' (l ++ [(skb, filed_at g (skb_mstamp_ns s))]) /\
    (forall t, filed_at g' t = filed_at g t) /\ (forall a, a ∉ l.*1 -> a <> skb -> h' !! a = h !! a).
Proof.
  intros R Hs Ht Hnew Hlen. destruct (gradient_push_ok h g l skb s R Hs Ht Hnew Hlen) as (h' & g' & E & R' & E1 & E2 & Hf).
  exists h', g'. split; [done|]. split; [done|]. split; [|done]. intros t. unfold filed_at. by rewrite E1, E2.
Qed.

Lemma restart_ok h g now : eiffel_rel h g [] -> 0 <= now < 2 ^ 62 -> eiffel_rel h (restart now g) [].
Proof.
  intros [R1 R2 [R3 R3'] R4 (R5 & R5b & R5m) R6 R7 R8 R9] Hnow. assert (1 <= horizon g) by nia. split; try done; simpl.
  - split; [lia|]. rewrite (wrap_small 64 (now + horizon g)), wrap_small by lia. done.
  - split; [apply R6|apply R6|apply R6|..]; set_solver.
  - intros p Hp. set_solver.
Qed.

(** The start of the first horizon when a packet arrives at [now], and the time
    at which a packet stamped [t] is then filed. *)
Definition arrival_main (now : Z) (g : gradient_queue) (l : list item) : Z :=
  match l with [] => now | _ => main_ts g end.

Definition arrival_time (now : Z) (g : gradient_queue) (l : list item) (t : Z) : Z :=
  let main := arrival_main now g l in Z.min (Z.max t main) (main + 2 * horizon g - 1).

Lemma eiffel_arrival {Sch} now h (k : kqdisc gradient_queue Sch) l :
  eiffel_rel h (gq k) l -> 0 <= now < 2 ^ 62 ->
  let k1 := if num_of_elements (gq k) =? 0 then with_gq (restart now (gq k)) k else k in
  eiffel_rel h (gq k1) l /\ (forall t, filed_at (gq k1) t = arrival_time now (gq k) l t) /\
  rest k1 = rest k /\ sch_qlen k1 = sch_qlen k /\ sch_limit k1 = sch_limit k /\ gwatchdog k1 = gwatchdog k.
Proof.
  intros R Hn k1.
  assert (R1 : eiffel_rel h (gq k1) l /\ main_ts (gq k1) = arrival_main now (gq k) l /\ horizon (gq k1) = horizon (gq k)).
  { unfold k1. rewrite (e_elements _ _ _ R). destruct l as [|p l]; simpl; [|done].
    split; [by apply restart_ok|done]. }
  destruct R1 as (R1 & Eh & Eho). split; [done|]. split.
  - intros t. unfold filed_at, arrival_time.
    pose proof (e_times _ _ _ R1) as (_ & E1 & E2). rewrite E2, E1, Eh, Eho. f_equal. lia.
  - unfold k1. by destruct (_ =? 0).
Qed.

(** The packets that an arrival adds: the packet itself, or the segments of a
    super-packet that fit below the limit. *)
Definition arrivals (gso : bool) (now : Z) (g : gradient_queue) (l : list item) (socks : gmap addr sock) (skb : addr)
    (s : sk_buff) (h1 : heap) (segs : list addr) (limit : Z) : list item :=
  if gso then
    take (Z.to_nat (limit - Z.of_nat (length l)))
      (zip segs (arrival_time now g l <$>
         seg_times (u8 (hdr_off s + tcp_hdrlen s)) (sock_rate socks s) (skb_mstamp_ns s) (seg_len h1 <$> segs)))
  else [(skb, arrival_time now g l (skb_mstamp_ns s))].

Section properties.
Context `{K : KernelApi} `{!KernelApiOk K}.
Context {Sch : Type} `{Q : QdiscApi Sch} `{P : QdiscStats Sch}.

(** C13. Eiffel's [gq_dequeue] serves the two arrays in the order of their
    granules: it gives out the first packet of the earliest granule that is not
    empty as soon as that granule begins; it gives nothing only when no granule
    has begun, and then sets the watchdog to the beginning of the earliest; the
    arrays and the trees, rotated or not, keep exactly the other packets. *)
Theorem gradient_dequeue now last_expires h (k : kqdisc gradient_queue Sch) l :
  eiffel_rel h (gq k) l -> 0 <= now < 2 ^ 62 ->
  exists r h' k', gq_dequeue now last_expires h k = Some (r, h', k') /\ sch_qlen k' = sch_qlen k /\
    match r with
    | None => h' = h /\ eiffel_rel h (gq k') l /\
        if decide (l = []) then gwatchdog k' = gwatchdog k
        else exists p, p ∈ l /\ (forall q, q ∈ l -> slot_start (gq k) p.2 <= slot_start (gq k) q.2) /\
          now < slot_start (gq k) p.2 /\ gwatchdog k' = slot_start (gq k) p.2 :: gwatchdog k
    | Some a => exists p l1 l2, a = p.1 /\ first_of (slot (gq k)) l p l1 l2 /\ slot_start (gq k) p.2 <= now /\
        eiffel_rel h' (gq k') (l1 ++ l2) /\ gwatchdog k' = gwatchdog k
    end.
Proof.
  intros R Hnow. destruct (gradient_extract_ok h (gq k) l now R Hnow) as (h' & g' & r & index & E & H).
  unfold gq_dequeue. rewrite E. cbn [mbind option_bind]. destruct r as [a|].
  - destruct H as (p & l1 & l2 & -> & Hf & Hs & R' & _). destruct (root_ok h' g' (l1 ++ l2) true R') as (c & Ec & Hc).
    assert (Hrot : exists g2, (if buffer_ts g' <? now then c1 ← root_count true g'; Some (if c1 =? 0 then rotate g' else g')
      else Some g') = Some g2 /\ eiffel_rel h' g2 (l1 ++ l2)).
    { destruct (Z.ltb_spec (buffer_ts g') now); [|by exists g']. rewrite Ec. cbn [mbind option_bind].
      destruct (Z.eqb_spec c 0) as [Hz|]; [|by exists g']. exists (rotate g'). split; [done|].
      apply rotate_ok; [done|by apply Hc|lia]. }
    destruct Hrot as (g2 & -> & R2). cbn [mbind option_bind]. eexists _, h', _. split; [reflexivity|]. split; [done|].
    exists p, l1, l2. done.
  - destruct H as (-> & R' & H). destruct (decide (l = [])) as [->|Hne].
    + rewrite (e_elements _ _ _ R'). eexists None, h, _. split; [reflexivity|]. done.
    + destruct H as (-> & p & c & Hp & Ec & Et & Hlt & Hmin). rewrite (e_elements _ _ _ R').
      destruct (Z.eqb_spec (Z.of_nat (length l)) 0); [destruct l; [done|simpl in *; lia]|].
      rewrite Ec. cbn [mbind option_bind]. cbn zeta. rewrite Et.
      destruct (Z.ltb_spec (slot_start (gq k) p.2) now) as [?|_]; [lia|]. rewrite andb_false_r.
      eexists None, h, _. split; [reflexivity|]. split; [done|]. split; [done|]. split; [done|].
      exists p. split; [done|]. split; [|done]. intros q Hq. specialize (Hmin q Hq). unfold slot_start.
      pose proof (e_gran _ _ _ R'). nia.
Qed.

(** C15. Eiffel's [gq_enqueue]: below the limit the packet, or each segment of a
    super-packet that still fits, is added at the time it is to be sent, brought
    into the two horizons that start at [main_ts] (at [now] when the arrays are
    empty).  At the limit the packet is dropped and the arrays keep theirs. *)
Theorem gradient_enqueue gso_split now h socks (k : kqdisc gradient_queue Sch) l skb s h1 segs :
  let gso := gso_split && is_gso s in
  eiffel_rel h (gq k) l -> 0 <= now < 2 ^ 62 -> h !! skb = Some s -> 0 <= skb_mstamp_ns s < 2 ^ 64 -> skb ∉ l.*1 ->
  Z.of_nat (length l) + Z.of_nat (length segs) + 1 < 2 ^ 31 -> 0 <= sch_qlen k < 2 ^ 32 ->
  (gso = true -> sock_rate socks s <> 0 /\ cut (Q := Q) h l skb h1 segs) ->
  exists ret h' socks' k', gq_enqueue gso_split now h socks k skb = Some (ret, h', socks', k') /\
    if Z.of_nat (length l) <? sch_limit k then
      ret = NET_XMIT_SUCCESS /\ eiffel_rel h' (gq k') (l ++ arrivals gso now (gq k) l socks skb s h1 segs (sch_limit k)) /\
      sch_qlen k' = u32 (sch_qlen k + if gso then Z.of_nat (length segs) else 0)
    else ret = (qdisc_drop skb (rest k)).1 /\ h' = h /\ eiffel_rel h (gq k') l /\ sch_qlen k' = sch_qlen k.
Proof.
  intros gso R Hn Hs Ht Hnew Hlen Hq Hgso. destruct (eiffel_arrival now h k l R Hn) as (R1 & Ef & E1 & E2 & E3 & _).
  unfold gq_enqueue. set (k1 := if num_of_elements (gq k) =? 0 then _ else k) in *. cbn zeta.
  rewrite (e_elements _ _ _ R1), E3, Z.geb_leb, Z.leb_antisym.
  destruct (Z.ltb_spec (Z.of_nat (length l)) (sch_limit k)) as [Hlt|Hge]; cbn [negb].
  2:{ unfold drop_skb. rewrite E1. destruct (qdisc_drop skb (rest k)) as [ret r]. eexists _, _, _, _. done. }
  rewrite Hs. cbn [mbind option_bind]. fold gso. destruct gso.
  - destruct (Hgso eq_refl) as [Hr Hcut].
    destruct (gq_segment_ok gq_push num_of_elements eiffel_rel filed_at e_elements (fun h h' g l => eiffel_frame h h' g l)
      eiffel_push h h1 (mark_paced socks s) k1 l skb s segs) as (h' & k' & -> & R' & Eq & _);
      [exact R1|done|done|by rewrite mark_paced_rate|done|done|lia|lia|].
    cbn [mbind option_bind]. eexists _, _, _, _. split; [reflexivity|]. rewrite E3, E2 in *.
    split; [by destruct (Z.gtb_spec (sch_limit k) (Z.of_nat (length l))); [|lia]|]. split; [|done].
    unfold arrivals. unfold seg_stamps in R'. rewrite mark_paced_rate in R'.
    rewrite (list_fmap_ext (filed_at (gq k1)) (arrival_time now (gq k) l)) in R' by (intros; apply Ef). exact R'.
  - destruct (eiffel_push h (gq k1) l skb s R1 Hs Ht Hnew) as (h' & g' & E & R' & _); [lia|].
    rewrite E. cbn [mbind option_bind]. eexists _, _, _, _. split; [reflexivity|].
    split; [done|]. cbn [gq with_gq sch_qlen]. rewrite E2, Z.add_0_r, wrap_small by lia.
    split; [|done]. rewrite Ef in R'. exact R'.
Qed.

End properties.

(** ** Initialisation *)

(** One step of [log_approx]: [log2] of the value is [r] plus that of [v], where
    [r] is a multiple of twice the width [S] = 2^e of the step. *)
Lemma log_step e S x v r b :
  0 <= e -> S = 2 ^ e ->
  b = wrap (2 * S) (Z.shiftl (2 ^ (2 * S) - 1) S) ->
  0 < v < 2 ^ (2 * S) -> 0 <= r -> (2 * S | r) -> Z.log2 x = r + Z.log2 v ->
  exists v' r', log_approx_step b S (v, r) = (v', r') /\
    0 < v' < 2 ^ S /\ 0 <= r' /\ (S | r') /\ Z.log2 x = r' + Z.log2 v'.
Proof.
  intros He ES -> Hv Hr [m Hm] Hx. assert (HS : 0 < S) by (subst S; by apply pow2_pos). unfold log_approx_step.
  rewrite (land_high_ones v S (2 * S)) by lia. pose proof (pow2_pos S ltac:(lia)) as Hp.
  destruct (Z.eqb_spec (2 ^ S * (v / 2 ^ S)) 0) as [Hz|Hz].
  - exists v, r. split; [done|]. assert (v / 2 ^ S = 0) by nia. apply Z.div_small_iff in H; [|lia].
    split; [lia|]. split; [done|]. split; [exists (2 * m); lia|done].
  - assert (Hv' : 0 < v / 2 ^ S) by (pose proof (Z.div_pos v (2 ^ S)); nia).
    exists (Z.shiftr v S), (r + S). rewrite shiftr_pow2 by lia. split.
    + f_equal. pose proof (Z.add_lor_land r S) as Hl. assert (Z.land r S = 0); [|lia].
      apply Z.bits_inj'. intros j Hj. rewrite Z.land_spec, Z.bits_0, ES. rewrite Z.pow2_bits_eqb by lia.
      destruct (Z.eqb_spec e j) as [<-|]; [|by rewrite andb_false_r]. rewrite andb_true_r.
      rewrite Hm. replace (m * (2 * S)) with (m * 2 ^ (e + 1)) by (rewrite ES, Z.pow_add_r by lia; lia).
      apply Z.mul_pow2_bits_low. lia.
    + split; [split; [done|]|split; [lia|split; [exists (2 * m + 1); lia|]]].
      * apply Z.div_lt_upper_bound; [lia|].
        assert (E2 : 2 ^ (2 * S) = 2 ^ S * 2 ^ S) by (rewrite <- Z.pow_add_r by lia; f_equal; lia). lia.
      * rewrite <- shiftr_pow2, Z.log2_shiftr, Hx by lia.
        assert (S <= Z.log2 v); [|lia]. apply (proj1 (Z.log2_le_pow2 v S ltac:(lia))).
        pose proof (Z.mul_div_le v (2 ^ S) ltac:(lia)). nia.
Qed.

(** [log_approx] is the logarithm rounded down. *)
Lemma log_approx_log2 v : 0 < v < 2 ^ 32 -> log_approx v = Z.log2 v.
Proof.
  intros Hv. unfold log_approx. rewrite (wrap_small 32) by lia.
  destruct (log_step 4 16 v v 0 4294901760) as (v1 & r1 & -> & ? & ? & ? & ?); [lia|reflexivity|reflexivity|lia|lia|by exists 0|lia|].
  destruct (log_step 3 8 v v1 r1 65280) as (v2 & r2 & -> & ? & ? & ? & ?); [lia|reflexivity|reflexivity|done..|].
  destruct (log_step 2 4 v v2 r2 240) as (v3 & r3 & -> & ? & ? & ? & ?); [lia|reflexivity|reflexivity|done..|].
  destruct (log_step 1 2 v v3 r3 12) as (v4 & r4 & -> & ? & ? & ? & ?); [lia|reflexivity|reflexivity|done..|].
  destruct (log_step 0 1 v v4 r4 2) as (v5 & r5 & -> & Hv5 & ? & ? & E); [lia|reflexivity|reflexivity|done..|].
  simpl. assert (v5 = 1) as -> by lia. simpl in E. lia.
Qed.

Lemma tree_empty n meta : (forall k, 0 <= k < level n -> meta k = init_desc 32 k) -> level n < 2 ^ 62 -> tree_ok n meta ∅.
Proof.
  intros Hm Hl k Hk. rewrite Hm by done.
  assert (Hc : forall j, cnt n ∅ j = 0).
  { intros j. pose proof (cnt_size n ∅ j) as H. rewrite size_empty in H. pose proof (cnt_nonneg n ∅ j). lia. }
  split; simpl; [by rewrite Hc|intros j Hj; by rewrite Hc, Z.bits_0|intros; apply Z.bits_0|lia|].
  intros Hk1. rewrite wrap_small by lia. done.
Qed.

(** The depth that [gq_init] chooses. *)
Definition init_depth (num : Z) : Z := (Z.log2 num + 4) / 5.

(** [gq_init] sets up empty arrays when the granularity divides the horizon and
    the leaves of the trees are enough for the buckets. *)
Lemma eiffel_init `{K : KernelApi} {Sch} granularity horizon_s now h (k : kqdisc gradient_queue Sch) :
  0 < granularity -> 0 <= horizon_s < 2 ^ 31 -> (granularity | horizon_s * NSEC_PER_SEC) -> 0 <= now < 2 ^ 62 ->
  let num := horizon_s * NSEC_PER_SEC / granularity in
  1 < num < 2 ^ 31 -> num <= 32 ^ init_depth num ->
  exists k', gq_init granularity horizon_s now k = Some k' /\ eiffel_rel h (gq k') [] /\ sch_limit k' = 80000 /\
    sch_qlen k' = sch_qlen k /\ main_ts (gq k') = now.
Proof.
  intros Hg Hh [m Hd] Hn num Hnum Hcov. assert (Em : num = m) by (unfold num; rewrite Hd; by apply Z.div_mul; lia).
  assert (Hhor : 0 <= horizon_s * NSEC_PER_SEC < 2 ^ 61) by (unfold NSEC_PER_SEC; lia).
  assert (Hlog : 1 <= Z.log2 num <= 30).
  { split; [apply Z.log2_le_pow2; lia|]. assert (Z.log2 num < 31); [|lia]. apply Z.log2_lt_pow2; lia. }
  assert (Hdep : 1 <= init_depth num <= 6) by (unfold init_depth; dlia).
  set (d := Z.to_nat (init_depth num)). pose proof (level_pow d) as Hlev. replace (Z.of_nat d) with (init_depth num) in Hlev by lia.
  assert (Hpow : 32 ^ init_depth num <= 32 ^ 6) by (apply Z.pow_le_mono_r; lia).
  assert (Hs : (u64 (32 ^ init_depth num) - 1) / 31 = level d).
  { pose proof (Z.pow_pos_nonneg 32 (init_depth num)). rewrite wrap_small by lia. rewrite <- Hlev, Z.mul_comm. apply Z.div_mul. lia. }
  assert (Hl : (log_approx num + log_approx 32 - 1) / log_approx 32 = init_depth num).
  { change (log_approx 32) with 5. rewrite log_approx_log2 by lia. unfold init_depth. f_equal. lia. }
  assert (Hlev1 : level (S d) < 2 ^ 62).
  { rewrite level_next. replace (Z.of_nat d) with (init_depth num) by lia. lia. }
  unfold gq_init. rewrite option_guard_True by lia. cbn [mbind option_bind].
  rewrite (wrap_small 64 (horizon_s * _)) by lia. fold num. rewrite Hl. change (32 - 1) with 31. rewrite Hs.
  rewrite option_guard_True by lia. cbn [mbind option_bind]. eexists. split; [reflexivity|]. split; [|done].
  cbn [gq].
  split; cbn [grnlrty num_of_buckets horizon main_ts buffer_ts max_ts main_buckets buffer_buckets meta1 meta2 num_of_elements
    tree_w tree_l tree_s]; try done.
  - lia.
  - split; [|lia]. lia.
  - split; [done|]. split; [lia|]. split; [done|]. split; [done|]. exact Hlev1.
  - split; [done|]. rewrite !wrap_small by (rewrite ?wrap_small by lia; lia). done.
  - apply family_empty. by intros [[] i].
  - intros p Hp. set_solver.
  - intros b. replace (meta_of b _) with (init_desc 32) by (by destruct b). apply tree_empty; [done|].
    pose proof (level_mono d (S d)). unfold depth. cbn [tree_l]. fold d. lia.
Qed.

(** ** Runs *)

#[local] Existing Instances demo_api demo_api_ok.

Definition demo_queue : kqdisc gradient_queue (list addr) :=
  KQ (GradientQueue 0 1 0 1 32 0 0 0 0 0 0 (fun _ => empty_gq_bucket) (fun _ => empty_gq_bucket)
        (init_desc 32) (init_desc 32)) [] 0 0 [].

(** The clock starts at 0. *)
Definition demo_init (gr hor : Z) : kqdisc gradient_queue (list addr) := default demo_queue (gq_init gr hor 0 demo_queue).
Definition demo_enqueued (gr hor t : Z) : option (heap * kqdisc gradient_queue (list addr)) :=
  '(_, h, _, k) ← gq_enqueue false 0 (demo_heap t) (demo_socks 1000) (demo_init gr hor) 1%positive;
  Some (h, k).

Definition faults {A} (o : option A) : bool := match o with None => true | Some _ => false end.

(** Three faults of the Eiffel discipline.  With a granularity of 5000 ns and
    the default horizon the trees have too few leaves, and a packet to be sent in
    six seconds is marked past their end.  When the granularity does not divide
    the horizon, a packet at its end is filed past the end of the buckets.  After
    [gq_reset], which keeps [num_of_elements], a dequeue late enough takes from
    bucket 2^64 - 1. *)
Theorem gradient_corners :
  map (fun '(gr, hor, t) => faults (demo_enqueued gr hor t))
    [(5000, 10, 6000000000); (5000, 10, 5000000000); (3000, 1, 999999999); (3000, 1, 999000000)] =
    [true; false; true; false] /\
  map (fun reset : bool => faults ('(h, k) ← demo_enqueued 1000 1 5000;
        gq_dequeue 1000000000 0 h (if reset then gq_reset k else k))) ([true; false] : list bool) = [true; false].
Proof. split; vm_compute; reflexivity. Qed.

(** ** Witnesses *)

Lemma demo_started : exists k0, gq_init 1000 1 0 demo_queue = Some k0 /\ eiffel_rel (demo_heap 5000) (gq k0) [] /\
  sch_limit k0 = 80000 /\ sch_qlen k0 = 0 /\ main_ts (gq k0) = 0.
Proof.
  apply (eiffel_init 1000 1 0 (demo_heap 5000) demo_queue); [lia|lia|by exists 1000000|lia|vm_compute; done|vm_compute; done].
Qed.

Lemma gradient_dequeue_witness : exists k0 h g r h' k',
  gq_init 1000 1 0 demo_queue = Some k0 /\ gq_push (demo_heap 5000) (gq k0) 1%positive = Some (h, g) /\
  gq_dequeue 900000 0 h (with_gq g k0) = Some (r, h', k') /\ sch_qlen k' = 0.
Proof.
  destruct demo_started as (k0 & E & R & _ & Hq & _).
  destruct (eiffel_push (demo_heap 5000) (gq k0) [] 1%positive (demo_packet 5000) R) as (h & g & Ep & Rp & _);
    [reflexivity|simpl; lia|apply not_elem_of_nil|done|].
  destruct (gradient_dequeue 900000 0 h (with_gq g k0) _ Rp) as (r & h' & k' & Ed & Eq & _); [lia|].
  exists k0, h, g, r, h', k'. split; [exact E|]. split; [exact Ep|]. split; [exact Ed|]. rewrite Eq. exact Hq.
Defined.

(** A super-packet of a paced flow, cut in two. *)
Lemma gradient_enqueue_witness : exists k0 ret h' socks' k',
  gq_init 1000 1 0 demo_queue = Some k0 /\
  gq_enqueue true 0 (demo_heap 5000) (demo_socks 1000) k0 1%positive = Some (ret, h', socks', k') /\
  ret = NET_XMIT_SUCCESS /\ sch_qlen k' = 2.
Proof.
  destruct demo_started as (k0 & E & R & Hl & Hq & _).
  destruct (gradient_enqueue true 0 (demo_heap 5000) (demo_socks 1000) k0 [] 1%positive (demo_packet 5000)
    (skb_gso_segment 1%positive (demo_heap 5000)).2 [2%positive; 3%positive] R) as (ret & h' & socks' & k' & Ee & H).
  - lia.
  - reflexivity.
  - simpl. lia.
  - apply not_elem_of_nil.
  - simpl. lia.
  - rewrite Hq. lia.
  - intros _. split; [vm_compute; discriminate|]. apply demo_cut.
  - rewrite Hl in H. destruct H as (Hr & _ & Hn). exists k0, ret, h', socks', k'.
    split; [exact E|]. split; [exact Ee|]. split; [exact Hr|]. rewrite Hn, Hq. reflexivity.
Defined.
