(* ===== verification/Ring.v ===== *)
(** * The ring buffer: [bess/core/utils/circular-queue.h]

    [CircularQueue<T>], a ring of a power-of-two size that keeps one cell free,
    and its refinement of a bounded FIFO.  The loop that rounds a requested size
    up to a power of two is shared with [EasyMap]. *)

From S2P Require Import Prelude.

(** ** Rounding a size up *)

Definition MAX_SIZE : Z := u32 (Z.shiftl 1 31).

(** The body of [while (m < size) m *= 2]. *)
Definition round_step (size m : Z) : Z + Z :=
  if m <? size then inl (u32 (m * 2)) else inr m.

(** [None] is a loop that has not ended after 64 steps. *)
Definition round_size (size : Z) : option Z :=
  if size >=? MAX_SIZE then Some MAX_SIZE
  else match iter_until 64 (round_step size) 1 with
       | inr m => Some m
       | inl _ => None
       end.

(** ** The ring *)

(** [memory] is the array allocated by the constructor; [temp_pos] is the
    scratch field of [Pop]. *)
Record CircularQueue (T : Type) := CQ {
  size_ : Z;
  head_pos : Z;
  tail_pos : Z;
  temp_pos : Z;
  memory : Z -> T
}.
Arguments CQ {T}.
Arguments size_ {T}.
Arguments head_pos {T}.
Arguments tail_pos {T}.
Arguments temp_pos {T}.
Arguments memory {T}.

(** The constructor; [fresh] is the content of the new array. *)
Definition new_ring {T} (fresh : Z -> T) (size : Z) : option (CircularQueue T) :=
  n ← round_size size; Some (CQ n 0 0 0 fresh).

Definition IsFull {T} (c : CircularQueue T) : bool :=
  u32 (tail_pos c + 1) mod size_ c =? head_pos c.

Definition IsEmpty {T} (c : CircularQueue T) : bool := head_pos c =? tail_pos c.

Definition QueueSize {T} (c : CircularQueue T) : Z := size_ c.

Definition Reset {T} (c : CircularQueue T) : CircularQueue T :=
  CQ (size_ c) 0 0 (temp_pos c) (memory c).

Definition ElementsNum {T} (c : CircularQueue T) : Z :=
  Z.land (u32 (size_ c - head_pos c + tail_pos c)) (u32 (size_ c - 1)).

(** [default] is the value-initialised [T] that [Pop] returns when empty. *)
Definition Pop {T} (default : T) (c : CircularQueue T) : T * CircularQueue T :=
  if IsEmpty c then (default, c)
  else
    let t := head_pos c in
    (memory c t,
     CQ (size_ c) (Z.land (u32 (head_pos c + 1)) (u32 (size_ c - 1))) (tail_pos c) t (memory c)).

Definition Push {T} (data : T) (c : CircularQueue T) : Z * CircularQueue T :=
  if IsFull c then (-1, c)
  else
    (0, CQ (size_ c) (head_pos c) (Z.land (u32 (tail_pos c + 1)) (u32 (size_ c - 1))) (temp_pos c)
          (<[tail_pos c := data]> (memory c))).

(** Pushing a list of values, the way [AddFlow] fills the ring. *)
Fixpoint push_all {T} (l : list T) (c : CircularQueue T) : CircularQueue T :=
  match l with
  | [] => c
  | x :: l' => push_all l' (Push x c).2
  end.

(** Popping [n] values. *)
Fixpoint pop_n {T} (default : T) (n : nat) (c : CircularQueue T) : list T * CircularQueue T :=
  match n with
  | O => ([], c)
  | S n =>
      let '(x, c1) := Pop default c in
      let '(l, c2) := pop_n default n c1 in
      (x :: l, c2)
  end.

(** ** The contents of a ring *)

(** [ring_rep c l]: the cells from [head_pos] up to [tail_pos] hold [l]. *)
Record ring_rep {T} (c : CircularQueue T) (l : list T) : Prop := {
  ring_size : exists k, 0 <= k <= 31 /\ size_ c = 2 ^ k;
  ring_head : 0 <= head_pos c < size_ c;
  ring_tail : tail_pos c = (head_pos c + Z.of_nat (length l)) mod size_ c;
  ring_room : Z.of_nat (length l) < size_ c;
  ring_cells : forall i x, l !! i = Some x ->
    memory c ((head_pos c + Z.of_nat i) mod size_ c) = x
}.

(** * Lemmas *)

Lemma round_size_spec size :
  0 <= size < 2 ^ 32 ->
  exists k, 0 <= k <= 31 /\ round_size size = Some (2 ^ k) /\
    (size <= 2 ^ 31 -> size <= 2 ^ k) /\ (forall j, 0 <= j -> size <= 2 ^ j -> k <= j).
Proof.
  intros Hs. unfold round_size. change MAX_SIZE with (2 ^ 31).
  destruct (Z.geb_spec size (2 ^ 31)) as [H|H].
  - exists 31. split; [lia|]. split; [done|]. split; [lia|]. intros j Hj Hsj.
    destruct (Z.le_gt_cases 31 j); [done|]. pose proof (pow2_mono (j + 1) 31 ltac:(lia)).
    rewrite Z.pow_add_r in * by lia. lia.
  - destruct (iter_until_total
      (fun m => exists k, 0 <= k <= 31 /\ m = 2 ^ k /\ forall j, 0 <= j -> size <= 2 ^ j -> k <= j)
      (fun m => exists k, 0 <= k <= 31 /\ m = 2 ^ k /\ size <= m /\ forall j, 0 <= j -> size <= 2 ^ j -> k <= j)
      (fun m => 31 - Z.log2 m) 64 (round_step size) 1) as (m & E & k & Hk & -> & Hm & Hj).
    + intros m (k & Hk & -> & Hj). unfold round_step. destruct (Z.ltb_spec (2 ^ k) size) as [Hlt|Hge].
      * assert (k < 31).
        { apply (Z.pow_lt_mono_r_iff 2); lia. }
        rewrite Z.mul_comm, <- Z.pow_succ_r, wrap_small by
          (try split; try (apply Z.pow_nonneg; lia); try (apply Z.pow_lt_mono_r; lia); lia).
        rewrite !Z.log2_pow2 by lia. split; [|lia].
        exists (Z.succ k). split; [lia|]. split; [done|]. intros j Hj0 Hsj.
        assert (2 ^ k < 2 ^ j) as Hp by lia. apply (Z.pow_lt_mono_r_iff 2) in Hp; lia.
      * exists k. auto.
    + exists 0. split; [lia|]. split; [done|]. auto.
    + simpl. lia.
    + rewrite E. exists k. auto.
Qed.

Section ring.
Context {T : Type}.
Implicit Types (c : CircularQueue T) (l : list T).

Lemma ring_bounds c l : ring_rep c l ->
  0 < size_ c <= 2 ^ 31 /\ 0 <= tail_pos c < size_ c.
Proof.
  intros R. destruct (ring_size _ _ R) as (k & Hk & E). pose proof (pow2_mono k 31 ltac:(lia)).
  pose proof (pow2_pos k). rewrite (ring_tail _ _ R).
  pose proof (Z.mod_pos_bound (head_pos c + Z.of_nat (length l)) (size_ c) ltac:(lia)). lia.
Qed.

(** The mask written by the code is a remainder. *)
Lemma ring_mask c l x : ring_rep c l -> Z.land x (u32 (size_ c - 1)) = x mod size_ c.
Proof.
  intros R. destruct (ring_size _ _ R) as (k & Hk & E). pose proof (ring_bounds _ _ R).
  rewrite wrap_small, E by lia. apply land_ones_mod. lia.
Qed.

Lemma ring_next c l x : ring_rep c l -> 0 <= x < size_ c ->
  Z.land (u32 (x + 1)) (u32 (size_ c - 1)) = (x + 1) mod size_ c.
Proof.
  intros R Hx. pose proof (ring_bounds _ _ R). rewrite (ring_mask _ _ _ R), wrap_small; lia.
Qed.

Lemma mod_shift_eq a i j n :
  0 < n -> 0 <= i < n -> 0 <= j < n -> (a + i) mod n = (a + j) mod n -> i = j.
Proof.
  intros Hn Hi Hj. assert (Hn0 : n <> 0) by lia. intros E.
  pose proof (Z.div_mod (a + i) n Hn0) as H1. pose proof (Z.div_mod (a + j) n Hn0) as H2.
  rewrite E in H1. clear E. revert H1 H2. generalize ((a + j) mod n).
  generalize ((a + i) / n) ((a + j) / n). intros x y r H1 H2.
  destruct (Z.lt_trichotomy x y) as [|[|]]; nia.
Qed.

Lemma mod_stay a i n : 0 <= a < n -> 0 <= i < n -> a = (a + i) mod n -> i = 0.
Proof.
  intros Ha Hi E. apply (mod_shift_eq a i 0 n); [lia..|].
  by rewrite <- E, Z.add_0_r, Z.mod_small.
Qed.

Lemma empty_iff c l : ring_rep c l -> (IsEmpty c = true <-> l = []).
Proof.
  intros R. pose proof (ring_bounds _ _ R) as [Hs _]. pose proof (ring_head _ _ R) as Hh.
  pose proof (ring_room _ _ R). unfold IsEmpty. rewrite (ring_tail _ _ R), Z.eqb_eq. split.
  - intros E. apply mod_stay in E; [|lia..]. destruct l; [done|simpl in E; lia].
  - intros ->. simpl. rewrite Z.add_0_r, Z.mod_small; lia.
Qed.

Lemma full_iff c l : ring_rep c l -> (IsFull c = true <-> Z.of_nat (length l) = size_ c - 1).
Proof.
  intros R. pose proof (ring_bounds _ _ R) as [Hs Ht]. pose proof (ring_head _ _ R) as Hh.
  pose proof (ring_room _ _ R). unfold IsFull.
  rewrite wrap_small, Z.eqb_eq, (ring_tail _ _ R), Z.add_mod_idemp_l by lia.
  rewrite <- Z.add_assoc. split.
  - intros E. destruct (Z.eq_dec (Z.of_nat (length l) + 1) (size_ c)) as [|Hne]; [lia|].
    symmetry in E. apply mod_stay in E; lia.
  - intros E. replace (Z.of_nat (length l) + 1) with (1 * size_ c) by lia.
    rewrite Z.mod_add, Z.mod_small; lia.
Qed.

Lemma ring_rep_new fresh size :
  0 <= size < 2 ^ 32 -> exists c, new_ring fresh size = Some c /\ ring_rep c [] /\
    (size <= 2 ^ 31 -> size <= size_ c).
Proof.
  intros Hs. destruct (round_size_spec size Hs) as (k & Hk & E & Hle & _). unfold new_ring. rewrite E.
  eexists. split; [done|]. split; [|done]. pose proof (pow2_pos k ltac:(lia)).
  split; simpl; [eauto|lia|by rewrite Z.mod_small by lia|lia|done].
Qed.

Lemma ring_rep_reset c l : ring_rep c l -> ring_rep (Reset c) [].
Proof.
  intros R. pose proof (ring_bounds _ _ R).
  split; simpl; [apply (ring_size _ _ R)|lia|by rewrite Z.mod_small by lia|lia|done].
Qed.

Lemma ring_rep_push c l x :
  ring_rep c l ->
  if Z.of_nat (length l) <? size_ c - 1
  then exists c', Push x c = (0, c') /\ ring_rep c' (l ++ [x]) /\ size_ c' = size_ c
  else Push x c = (-1, c).
Proof.
  intros R. pose proof (full_iff _ _ R) as Hf. pose proof (ring_bounds _ _ R) as [Hs Ht].
  pose proof (ring_head _ _ R). pose proof (ring_room _ _ R).
  unfold Push. destruct (Z.ltb_spec (Z.of_nat (length l)) (size_ c - 1)) as [Hl|Hl].
  - destruct (IsFull c); [assert (Z.of_nat (length l) = size_ c - 1) by (by apply Hf); lia|].
    eexists. split; [reflexivity|]. split; [|done].
    rewrite (ring_next _ _ _ R Ht). split; simpl.
    + apply (ring_size _ _ R).
    + lia.
    + rewrite length_app, (ring_tail _ _ R), Z.add_mod_idemp_l by lia. simpl. f_equal. lia.
    + rewrite length_app. simpl. lia.
    + intros i y Hi. rewrite (ring_tail _ _ R). apply lookup_snoc_Some in Hi as [[Hi Hy]|[-> ->]].
      * rewrite fn_insert_ne; [by apply (ring_cells _ _ R)|].
        intros E. apply mod_shift_eq in E; lia.
      * apply fn_insert_eq.
  - destruct (IsFull c); [done|]. exfalso.
    assert (false = true) by (apply Hf; lia). congruence.
Qed.

Lemma ring_rep_pop d c l :
  ring_rep c l ->
  match l with
  | [] => Pop d c = (d, c)
  | x :: l' => exists c', Pop d c = (x, c') /\ ring_rep c' l' /\ size_ c' = size_ c
  end.
Proof.
  intros R. pose proof (empty_iff _ _ R) as He. pose proof (ring_bounds _ _ R) as [Hs _].
  pose proof (ring_head _ _ R) as Hh. pose proof (ring_room _ _ R) as Hr.
  unfold Pop. destruct l as [|x l].
  - by rewrite (proj2 He).
  - destruct (IsEmpty c); [by destruct He as [He _]; specialize (He eq_refl)|].
    eexists. split; [|split].
    + f_equal. pose proof (ring_cells _ _ R 0%nat x eq_refl) as Hx.
      by rewrite Z.add_0_r, Z.mod_small in Hx by lia.
    + rewrite (ring_next _ _ _ R Hh). pose proof (Z.mod_pos_bound (head_pos c + 1) (size_ c) ltac:(lia)).
      simpl in Hr. split; simpl.
      * apply (ring_size _ _ R).
      * done.
      * rewrite (ring_tail _ _ R), Z.add_mod_idemp_l by lia. simpl. f_equal. lia.
      * lia.
      * intros i y Hi. rewrite Z.add_mod_idemp_l by lia.
        rewrite <- (ring_cells _ _ R (S i) y Hi). f_equal. f_equal. lia.
    + done.
Qed.

Lemma ring_elements c l : ring_rep c l -> ElementsNum c = Z.of_nat (length l).
Proof.
  intros R. pose proof (ring_bounds _ _ R) as [Hs Ht]. pose proof (ring_head _ _ R) as Hh.
  pose proof (ring_room _ _ R). unfold ElementsNum. rewrite (ring_mask _ _ _ R).
  rewrite wrap_small by lia. rewrite (ring_tail _ _ R), Z.add_mod_idemp_r by lia.
  replace (size_ c - head_pos c + _) with (Z.of_nat (length l) + 1 * size_ c) by lia.
  rewrite Z.mod_add, Z.mod_small; lia.
Qed.

Lemma push_all_rep xs c l :
  ring_rep c l -> ring_rep (push_all xs c) (l ++ take (Z.to_nat (size_ c - 1) - length l) xs).
Proof.
  revert c l. induction xs as [|x xs IH]; intros c l R; simpl; [by rewrite take_nil, app_nil_r|].
  pose proof (ring_rep_push c l x R) as P. pose proof (ring_room _ _ R). case_match eqn:E.
  - apply Z.ltb_lt in E. destruct P as (c' & -> & R' & Hs). simpl. specialize (IH c' _ R').
    rewrite Hs, length_app, <- app_assoc in IH. simpl in IH.
    destruct (Z.to_nat (size_ c - 1) - length l)%nat as [|n] eqn:En; [lia|].
    simpl. by replace (Z.to_nat (size_ c - 1) - (length l + 1))%nat with n in IH by lia.
  - apply Z.ltb_ge in E. rewrite P. simpl. specialize (IH c l R).
    replace (Z.to_nat (size_ c - 1) - length l)%nat with O in * by lia. done.
Qed.

Lemma pop_n_rep d n c l :
  ring_rep c l -> (n <= length l)%nat ->
  exists c', pop_n d n c = (take n l, c') /\ ring_rep c' (drop n l).
Proof.
  revert c l. induction n as [|n IH]; intros c l R Hn; simpl; [eauto|].
  destruct l as [|x l]; simpl in Hn; [lia|].
  destruct (ring_rep_pop d c (x :: l) R) as (c1 & -> & R1 & _).
  destruct (IH c1 l R1 ltac:(lia)) as (c2 & -> & R2). eauto.
Qed.

(** * Properties *)

(** The ring refines a bounded FIFO: [Push] appends while fewer than
    [size_ - 1] values are held and is refused, with no change, when full; [Pop]
    removes the oldest value, or gives the default when there is none;
    [ElementsNum], [IsEmpty] and [IsFull] agree with the number held. *)
Theorem ring_fifo (d x : T) c l :
  ring_rep c l ->
  ElementsNum c = Z.of_nat (length l) /\
  (IsEmpty c = true <-> l = []) /\
  (IsFull c = true <-> Z.of_nat (length l) = size_ c - 1) /\
  (if Z.of_nat (length l) <? size_ c - 1
   then exists c', Push x c = (0, c') /\ ring_rep c' (l ++ [x]) /\ size_ c' = size_ c
   else Push x c = (-1, c)) /\
  match l with
  | [] => Pop d c = (d, c)
  | y :: l' => exists c', Pop d c = (y, c') /\ ring_rep c' l' /\ size_ c' = size_ c
  end.
Proof.
  intros R. split; [by apply ring_elements|]. split; [by apply empty_iff|].
  split; [by apply full_iff|]. split; [by apply ring_rep_push|by apply ring_rep_pop].
Qed.

(** C37. Filling a new ring and reading it back gives the values in order, up to
    its capacity: the size asked for, rounded up to a power of two, less one. *)
Theorem ring_roundtrip (d : T) fresh size xs :
  0 <= size <= 2 ^ 31 ->
  exists c n c', new_ring fresh size = Some c /\ size <= size_ c /\
    n = Nat.min (Z.to_nat (size_ c - 1)) (length xs) /\
    pop_n d n (push_all xs c) = (take n xs, c') /\ IsEmpty c' = true.
Proof.
  intros Hs. destruct (ring_rep_new fresh size ltac:(lia)) as (c & E & R & Hle).
  pose proof (push_all_rep xs c [] R) as P. simpl in P. rewrite Nat.sub_0_r in P.
  set (n := Nat.min (Z.to_nat (size_ c - 1)) (length xs)).
  assert (En : length (take (Z.to_nat (size_ c - 1)) xs) = n) by (rewrite length_take; done).
  destruct (pop_n_rep d n _ _ P ltac:(lia)) as (c' & E' & R').
  exists c, n, c'. split; [done|]. split; [by apply Hle; lia|]. split; [done|]. split.
  - rewrite E'. f_equal. rewrite take_take. f_equal. lia.
  - apply (empty_iff _ _ R'). rewrite drop_ge by lia. done.
Qed.

End ring.

Lemma ring_fifo_witness :
  ring_rep (push_all [7; 8] (CQ 4 3 3 0 (fun _ => 0))) [7; 8] /\
  ElementsNum (push_all [7; 8] (CQ 4 3 3 0 (fun _ => 0))) = 2.
Proof.
  assert (R : ring_rep (push_all [7; 8] (CQ 4 3 3 0 (fun _ => 0))) [7; 8]).
  { apply (push_all_rep [7; 8] (CQ 4 3 3 0 (fun _ => 0)) []).
    split; simpl; [exists 2; lia|lia|done|lia|done]. }
  split; [exact R|]. apply (ring_fifo 0 0 _ _ R).
Defined.

Lemma ring_roundtrip_witness :
  exists c n c', new_ring (fun _ => 0) 5 = Some c /\ 5 <= size_ c /\
    n = Nat.min (Z.to_nat (size_ c - 1)) 3 /\
    pop_n 0 n (push_all [1; 2; 3] c) = (take n [1; 2; 3], c') /\ IsEmpty c' = true.
Proof. apply (ring_roundtrip 0 (fun _ => 0) 5 [1; 2; 3]). lia. Defined.
