(* ===== verification/Pool.v ===== *)
(** * The memory pool: [bess/core/utils/mempool-list.h]

    [MemoryPool<T>]: blocks in a doubly linked free list with a sentinel at its
    head, used as a stack from its tail.  A block is named by its address, and
    the pointer to its element, which the code converts to and from the address
    of the block by a fixed offset, is represented by the same name.  [None] is
    a fault: a NULL or dangling dereference, or a loop that has not ended. *)

From S2P Require Import Prelude.

Definition addr := positive.
Definition ptr := option addr.

Record MemoryBlock (T : Type) := Block {
  prev : ptr;
  next : ptr;
  data_ : T;
  parent_id : Z
}.
Arguments Block {T}.
Arguments prev {T}.
Arguments next {T}.
Arguments data_ {T}.
Arguments parent_id {T}.

Definition set_prev {T} (p : ptr) (b : MemoryBlock T) := Block p (next b) (data_ b) (parent_id b).
Definition set_next {T} (p : ptr) (b : MemoryBlock T) := Block (prev b) p (data_ b) (parent_id b).
Definition set_data {T} (d : T) (b : MemoryBlock T) := Block (prev b) (next b) d (parent_id b).
Definition set_parent {T} (u : Z) (b : MemoryBlock T) := Block (prev b) (next b) (data_ b) u.

Abbreviation blocks T := (gmap addr (MemoryBlock T)).

Definition update {T} (f : MemoryBlock T -> MemoryBlock T) (a : addr) (m : blocks T) :
    option (blocks T) :=
  b ← m !! a; Some (<[a := f b]> m).

Record MemoryPool := Pool {
  phead : addr;
  ptail : addr;
  block_num : Z;
  size : Z;
  uuid : Z
}.

(** One round of the constructor's loop, linking block [a] after the tail. *)
Definition link_block {T} (fresh : T) (u : Z) (a : addr) (st : blocks T * addr) :
    option (blocks T * addr) :=
  let '(m, tl) := st in
  m1 ← update (set_next (Some a)) tl m;
  let m2 := <[a := Block None None fresh 0]> m1 in
  m3 ← update (set_prev (Some tl)) a m2;
  m4 ← update (set_parent u) a m3;
  Some (m4, a).

Fixpoint link_blocks {T} (fresh : T) (u : Z) (addrs : list addr) (st : blocks T * addr) :
    option (blocks T * addr) :=
  match addrs with
  | [] => Some st
  | a :: addrs' => st' ← link_block fresh u a st; link_blocks fresh u addrs' st'
  end.

(** The constructor: [u] is the hash of the name of the pool, [hd] the address
    of the sentinel, and [addrs] those of the array of blocks. *)
Definition new_pool {T} (fresh : T) (u : Z) (hd : addr) (addrs : list addr) (m : blocks T) :
    option (blocks T * MemoryPool) :=
  let n := Z.of_nat (length addrs) in
  '(m', tl) ← link_blocks fresh u addrs (<[hd := Block None None fresh 0]> m, hd);
  Some (m', Pool hd tl n n u).

Definition GetElement {T} (m : blocks T) (p : MemoryPool) : option (blocks T * MemoryPool * ptr) :=
  if block_num p =? 0 then Some (m, p, None)
  else
    let block := ptail p in
    b ← m !! block;
    tl ← prev b;
    m' ← update (set_next None) tl m;
    Some (m', Pool (phead p) tl (u64 (block_num p - 1)) (size p) (uuid p), Some block).

Definition PutElement {T} (m : blocks T) (p : MemoryPool) (elt : ptr) :
    option (blocks T * MemoryPool * Z) :=
  match elt with
  | None => Some (m, p, -1)
  | Some block =>
      b ← m !! block;
      if negb (parent_id b =? uuid p) then Some (m, p, -1)
      else
        m1 ← update (set_next (Some block)) (ptail p) m;
        m2 ← update (set_next None) block m1;
        m3 ← update (set_prev (Some (ptail p))) block m2;
        Some (m3, Pool (phead p) block (u64 (block_num p + 1)) (size p) (uuid p), 0)
  end.

(** The loop of [GetNum], from the sentinel to the tail. *)
Definition count_step {T} (m : blocks T) (tl : addr) (st : addr * Z) : (addr * Z) + option Z :=
  let '(a, count) := st in
  if (a =? tl)%positive then inr (Some count)
  else match m !! a with
       | Some (Block _ (Some b) _ _) => inl (b, count + 1)
       | _ => inr None
       end.

Definition GetNum {T} (m : blocks T) (p : MemoryPool) : option Z :=
  match iter_until (2 ^ 64) (count_step m (ptail p)) (phead p, 0) with
  | inr r => r
  | inl _ => None
  end.

(** ** The free list *)

(** Neighbours point at each other. *)
Fixpoint linked {T} (m : blocks T) (l : list addr) : Prop :=
  match l with
  | a :: ((b :: _) as l') =>
      (exists x, m !! a = Some x /\ next x = Some b) /\
      (exists y, m !! b = Some y /\ prev y = Some a) /\ linked m l'
  | _ => True
  end.

Definition allocated {T} (m : blocks T) (a : addr) : Prop := is_Some (m !! a).

(** [pool_rep m p free]: the free blocks of [p], in the order they were put
    back, are [free]. *)
Record pool_rep {T} (m : blocks T) (p : MemoryPool) (free : list addr) : Prop := {
  pool_linked : linked m (phead p :: free);
  pool_nodup : NoDup (phead p :: free);
  pool_tail : last (phead p :: free) = Some (ptail p);
  pool_count : block_num p = Z.of_nat (length free) /\ Z.of_nat (length free) < 2 ^ 64;
  pool_alloc : forall a, a ∈ phead p :: free -> allocated m a
}.

(** * Lemmas *)

Section pool.
Context {T : Type}.
Implicit Types (m : blocks T) (p : MemoryPool) (free : list addr).

Lemma update_Some f a m b : m !! a = Some b -> update f a m = Some (<[a := f b]> m).
Proof. intros E. unfold update. by rewrite E. Qed.

(** Links survive a change that keeps them. *)
Lemma linked_mono m m' l :
  (forall a b, a ∈ l -> m !! a = Some b ->
    exists b', m' !! a = Some b' /\ prev b' = prev b /\ next b' = next b) ->
  linked m l -> linked m' l.
Proof.
  induction l as [|a [|b l] IH]; intros Hf; [done|done|].
  intros ((x & Hx & Ex) & (y & Hy & Ey) & Hl). split; [|split].
  - destruct (Hf a x ltac:(set_solver) Hx) as (x' & ? & _ & E). exists x'. by rewrite E.
  - destruct (Hf b y ltac:(set_solver) Hy) as (y' & ? & E & _). exists y'. by rewrite E.
  - apply IH; [|done]. intros c z Hc. apply Hf. set_solver.
Qed.

Lemma linked_snoc m l a b :
  linked m (l ++ [a]) ->
  (exists x, m !! a = Some x /\ next x = Some b) -> (exists y, m !! b = Some y /\ prev y = Some a) ->
  linked m (l ++ [a; b]).
Proof.
  induction l as [|c [|d l] IH]; simpl; intros Hl Hx Hy; [done|tauto|].
  destruct Hl as (? & ? & Hl). split; [done|]. split; [done|]. by apply IH.
Qed.

Lemma linked_init m l a : linked m (l ++ [a]) -> linked m l.
Proof.
  induction l as [|c [|d l] IH]; simpl; intros Hl; [done|done|].
  destruct Hl as (? & ? & Hl). split; [done|]. split; [done|]. by apply IH.
Qed.

Lemma linked_last m l a b :
  linked m (l ++ [a; b]) -> exists y, m !! b = Some y /\ prev y = Some a.
Proof.
  induction l as [|c l IH]; [intros (_ & H & _); done|]. intros Hl. apply IH.
  destruct l; apply Hl.
Qed.

(** Appending block [a] after the tail, by whatever updates. *)
Lemma pool_append m m' hd free tl a :
  linked m (hd :: free) -> NoDup (hd :: free) -> last (hd :: free) = Some tl ->
  a ∉ hd :: free -> (forall x, x ∈ hd :: free -> allocated m x) ->
  (exists x, m !! tl = Some x /\ m' !! tl = Some (set_next (Some a) x)) ->
  (exists y, m' !! a = Some y /\ prev y = Some tl) ->
  (forall x, x ∈ hd :: free -> x <> tl -> m' !! x = m !! x) ->
  linked m' (hd :: free ++ [a]) /\ (forall x, x ∈ hd :: free ++ [a] -> allocated m' x).
Proof.
  intros Hl Hn Ht Ha Hal (x & Hx & Hx') Hy Hf.
  apply last_Some in Ht as (pre & E).
  assert (El : linked m' (pre ++ [tl; a])).
  { apply linked_snoc; [|by exists (set_next (Some a) x)|done]. rewrite E in *.
    clear Hy. revert Hl. destruct (decide (pre = [])) as [->|Hpre]; [done|]. intros Hl.
    apply NoDup_app in Hn as (_ & Hd & _).
    assert (Hm : forall c, c ∈ pre -> m' !! c = m !! c).
    { intros c Hc. apply Hf; [set_solver|]. intros ->. apply (Hd tl Hc). set_solver. }
    destruct (exists_last Hpre) as (pre' & z & ->). rewrite <- app_assoc in *. simpl in *.
    apply linked_snoc.
    - eapply linked_mono; [|eapply linked_init; rewrite <- app_assoc; exact Hl].
      intros c b Hc Hb. exists b. rewrite Hm by set_solver. auto.
    - assert (Hz : exists b, m !! z = Some b /\ next b = Some tl).
      { clear -Hl. induction pre' as [|c pre' IH]; [by destruct Hl|]. apply IH. destruct pre'; apply Hl. }
      destruct Hz as (b & Hb & En). exists b. rewrite Hm by set_solver. auto.
    - destruct (linked_last _ _ _ _ Hl) as (y & Hy & Ey). simplify_eq.
      eexists. split; [exact Hx'|]. done. }
  replace (hd :: free ++ [a]) with (pre ++ [tl; a]).
  2:{ rewrite app_comm_cons, E, <- app_assoc. done. }
  split; [done|]. intros c Hc. rewrite E in *.
  destruct (decide (c = a)) as [->|]; [destruct Hy as (y & ? & _); by exists y|].
  destruct (decide (c = tl)) as [->|]; [by eexists|].
  assert (c ∈ pre ++ [tl]) by set_solver. unfold allocated. rewrite Hf by done. by apply Hal.
Qed.

Lemma put_ok m p free a b :
  pool_rep m p free -> m !! a = Some b -> parent_id b = uuid p -> a ∉ phead p :: free ->
  Z.of_nat (length free) + 1 < 2 ^ 64 ->
  exists m' p', PutElement m p (Some a) = Some (m', p', 0) /\ pool_rep m' p' (free ++ [a]) /\
    phead p' = phead p /\ uuid p' = uuid p /\
    (forall x, x ∉ phead p :: free -> x <> a -> m' !! x = m !! x) /\
    (forall x y, m !! x = Some y -> exists y', m' !! x = Some y' /\ data_ y' = data_ y /\
      parent_id y' = parent_id y).
Proof.
  intros R Hb Hu Ha Hlen. destruct (pool_count _ _ _ R) as [Hc _].
  assert (Htl : ptail p ∈ phead p :: free).
  { pose proof (pool_tail _ _ _ R) as E. apply last_Some in E as (pre & ->). set_solver. }
  destruct (pool_alloc _ _ _ R _ Htl) as [t Ht]. assert (a <> ptail p) by (intros ->; done).
  set (m1 := <[ptail p := set_next (Some a) t]> m).
  set (m2 := <[a := set_next None b]> m1).
  set (m3 := <[a := set_prev (Some (ptail p)) (set_next None b)]> m2).
  exists m3. eexists. split; [|split; [|split; [|split; [|split]]]].
  - unfold PutElement. rewrite Hb. cbn [mbind option_bind]. rewrite Hu, Z.eqb_refl. cbn [negb].
    rewrite (update_Some _ _ m t) by done. cbn [mbind option_bind]. fold m1.
    rewrite (update_Some _ _ m1 b) by (unfold m1; by rewrite lookup_insert_ne).
    cbn [mbind option_bind]. fold m2.
    rewrite (update_Some _ _ m2 (set_next None b)) by (apply lookup_insert_eq).
    cbn [mbind option_bind]. fold m3. reflexivity.
  - assert (Hpt : m3 !! ptail p = Some (set_next (Some a) t)).
    { unfold m3, m2, m1. by rewrite !lookup_insert_ne, lookup_insert_eq by done. }
    destruct (pool_append m m3 (phead p) free (ptail p) a) as [Hl Hal]; try apply R.
    + done.
    + eauto.
    + eexists. unfold m3. rewrite lookup_insert_eq. done.
    + intros x Hx Hne. unfold m3, m2, m1. rewrite !lookup_insert_ne; [done| |set_solver..]. done.
    + split; simpl.
      * done.
      * rewrite app_comm_cons. apply NoDup_app. split; [apply R|]. split; [|apply NoDup_singleton].
        intros x Hx Hx'. apply list_elem_of_singleton in Hx' as ->. done.
      * by rewrite app_comm_cons, last_snoc.
      * rewrite length_app, Hc, wrap_small; simpl; lia.
      * done.
  - done.
  - done.
  - intros x Hx Hxa. unfold m3, m2, m1. rewrite !lookup_insert_ne; [done|..]; congruence.
  - intros x y Hy. unfold m3. destruct (decide (x = a)) as [->|].
    + rewrite lookup_insert_eq. simplify_eq. by eexists.
    + unfold m2, m1. rewrite !lookup_insert_ne by done. destruct (decide (x = ptail p)) as [->|].
      * rewrite lookup_insert_eq. simplify_eq. by eexists.
      * rewrite lookup_insert_ne by done. eauto.
Qed.

Lemma get_ok m p free a :
  pool_rep m p (free ++ [a]) ->
  exists m' p', GetElement m p = Some (m', p', Some a) /\ pool_rep m' p' free /\
    phead p' = phead p /\ uuid p' = uuid p /\
    (forall x, x ∉ phead p :: free -> m' !! x = m !! x) /\
    (forall x y, m !! x = Some y -> exists y', m' !! x = Some y' /\ data_ y' = data_ y /\
      parent_id y' = parent_id y).
Proof.
  intros R. destruct (pool_count _ _ _ R) as [Hc Hc']. rewrite length_app in Hc, Hc'. simpl in Hc, Hc'.
  pose proof (pool_tail _ _ _ R) as Et. rewrite app_comm_cons, last_snoc in Et. injection Et as Et.
  destruct (exists_last (l := phead p :: free) ltac:(done)) as (pre & tl & E).
  pose proof (pool_linked _ _ _ R) as Hl. rewrite app_comm_cons, E, <- app_assoc in Hl. simpl in Hl.
  destruct (linked_last _ _ _ _ Hl) as (y & Hy & Ep).
  destruct (pool_alloc _ _ _ R tl) as [t Ht].
  { rewrite app_comm_cons, E. set_solver. }
  pose proof (pool_nodup _ _ _ R) as Hn. rewrite app_comm_cons in Hn.
  assert (Hn' : NoDup (pre ++ [tl])) by (rewrite <- E; apply NoDup_app in Hn; tauto).
  assert (Hf : forall x, x <> tl -> <[tl := set_next None t]> m !! x = m !! x).
  { intros x Hx. by rewrite lookup_insert_ne. }
  eexists _, _. split; [|split; [|split; [|split; [|split]]]].
  - unfold GetElement. destruct (Z.eqb_spec (block_num p) 0); [lia|]. rewrite <- Et, Hy.
    cbn [mbind option_bind]. rewrite Ep. cbn [mbind option_bind].
    rewrite (update_Some _ _ m t) by done. cbn [mbind option_bind]. reflexivity.
  - split; cbn [phead ptail block_num].
    + rewrite E. assert (Hl' : linked m (pre ++ [tl])).
      { apply (linked_init m _ a). by rewrite <- app_assoc. }
      clear -Hl' Hf Hn' Ht. apply NoDup_app in Hn' as (_ & Hd & _).
      induction pre as [|c [|d pre] IH]; simpl in *; [done| |].
      * destruct Hl' as ((x & ? & ?) & (z & Hz & Ez) & _). split; [|split; [|done]].
        -- exists x. rewrite Hf; [auto|]. intros ->. apply (Hd tl); set_solver.
        -- simplify_eq. eexists. rewrite lookup_insert_eq. split; [done|]. done.
      * destruct Hl' as ((x & ? & ?) & (z & Hz & Ez) & Hl'). split; [|split].
        -- exists x. rewrite Hf; [auto|]. intros ->. apply (Hd tl); set_solver.
        -- exists z. rewrite Hf; [auto|]. intros ->. apply (Hd tl); set_solver.
        -- apply IH; [intros x' Hx'; apply Hd; set_solver|exact Hl'].
    + apply NoDup_app in Hn. tauto.
    + by rewrite E, last_snoc.
    + rewrite Hc, wrap_small; lia.
    + intros x Hx. unfold allocated. destruct (decide (x = tl)) as [->|].
      * rewrite lookup_insert_eq. by eexists.
      * rewrite Hf by done. apply (pool_alloc _ _ _ R). set_solver.
  - done.
  - done.
  - intros x Hx. apply Hf. intros ->. apply Hx. rewrite E. set_solver.
  - intros x z Hz. destruct (decide (x = tl)) as [->|].
    + rewrite lookup_insert_eq. simplify_eq. by eexists.
    + rewrite Hf by done. eauto.
Qed.

Lemma get_empty m p : pool_rep m p [] -> GetElement m p = Some (m, p, None).
Proof. intros R. unfold GetElement. by rewrite (proj1 (pool_count _ _ _ R)). Qed.

Lemma linked_next m l1 a b l2 :
  linked m (l1 ++ a :: b :: l2) -> exists x, m !! a = Some x /\ next x = Some b.
Proof.
  induction l1 as [|c l1 IH]; [intros (H & _ & _); done|]. intros Hl. apply IH.
  destruct l1; apply Hl.
Qed.

Lemma count_from m tl pre a l k :
  linked m (pre ++ a :: l) -> NoDup (pre ++ a :: l) -> last (a :: l) = Some tl ->
  forall n, (length l < n)%nat ->
  iter_nat n (count_step m tl) (a, k) = inr (Some (k + Z.of_nat (length l))).
Proof.
  revert pre a k. induction l as [|b l IH]; intros pre a k Hl Hn Ht n Hlen;
    (destruct n as [|n]; [simpl in Hlen; lia|]); cbn [iter_nat]; unfold count_step at 1.
  - simpl in Ht. simplify_eq. rewrite Pos.eqb_refl. simpl. do 2 f_equal. lia.
  - destruct (linked_next _ _ _ _ _ Hl) as (x & Hx & En).
    assert (a <> tl) as Hne.
    { intros ->. apply NoDup_app in Hn as (_ & _ & Hn). apply NoDup_cons in Hn as [Ha _].
      apply Ha. apply last_Some in Ht as (l' & E). destruct l'; simplify_eq/=.
      rewrite H0. set_solver. }
    rewrite (proj2 (Pos.eqb_neq a tl)) by done. rewrite Hx. destruct x as [px nx dx ux]. simpl in En. subst nx.
    rewrite (IH (pre ++ [a])); [do 2 f_equal; simpl; lia|by rewrite <- app_assoc..| |simpl in Hlen; lia].
    done.
Qed.

Lemma getnum_ok m p free : pool_rep m p free -> GetNum m p = Some (Z.of_nat (length free)).
Proof.
  intros R. unfold GetNum. rewrite iter_until_nat.
  rewrite (count_from m (ptail p) [] (phead p) free 0); try apply R; [by rewrite Z.add_0_l|].
  destruct (pool_count _ _ _ R). lia.
Qed.

Lemma link_blocks_ok fresh u addrs m hd free tl :
  pool_rep m (Pool hd tl (Z.of_nat (length free)) 0 u) free ->
  NoDup addrs -> (forall a, a ∈ addrs -> a ∉ hd :: free) ->
  Z.of_nat (length free + length addrs) < 2 ^ 64 ->
  exists m' tl', link_blocks fresh u addrs (m, tl) = Some (m', tl') /\
    pool_rep m' (Pool hd tl' (Z.of_nat (length (free ++ addrs))) 0 u) (free ++ addrs) /\
    (forall a, a ∈ addrs -> exists b, m' !! a = Some b /\ parent_id b = u) /\
    (forall a b, a ∈ free -> m !! a = Some b -> exists b', m' !! a = Some b' /\ parent_id b' = parent_id b).
Proof.
  revert m free tl. induction addrs as [|a addrs IH]; intros m free tl R Hn Ha Hlen; cbn [link_blocks].
  - exists m, tl. rewrite app_nil_r. split; [done|]. split; [done|]. split; [set_solver|eauto].
  - apply NoDup_cons in Hn as [Hna Hn]. simpl in Hlen.
    assert (Htl : tl ∈ hd :: free).
    { pose proof (pool_tail _ _ _ R) as E. simpl ptail in E. apply last_Some in E as (pre & E).
      simpl phead in E. rewrite E. set_solver. }
    destruct (pool_alloc _ _ _ R tl Htl) as [t Ht]. specialize (Ha a ltac:(set_solver)) as Haf.
    assert (a <> tl) by (intros ->; done).
    set (m1 := <[tl := set_next (Some a) t]> m).
    set (m2 := <[a := Block None None fresh 0]> m1).
    set (m3 := <[a := Block (Some tl) None fresh 0]> m2).
    set (m4 := <[a := Block (Some tl) None fresh u]> m3).
    assert (E4 : link_block fresh u a (m, tl) = Some (m4, a)).
    { unfold link_block. rewrite (update_Some _ _ m t) by done. cbn [mbind option_bind]. fold m1 m2.
      rewrite (update_Some _ _ m2 (Block None None fresh 0)) by apply lookup_insert_eq.
      cbn [mbind option_bind]. unfold set_prev. simpl. fold m3.
      rewrite (update_Some _ _ m3 (Block (Some tl) None fresh 0)) by apply lookup_insert_eq. done. }
    assert (Hother : forall x, x <> a -> x <> tl -> m4 !! x = m !! x).
    { intros x Hxa Hxt. unfold m4, m3, m2, m1. by rewrite !lookup_insert_ne by congruence. }
    assert (Htl4 : m4 !! tl = Some (set_next (Some a) t)).
    { unfold m4, m3, m2, m1. by rewrite !lookup_insert_ne, lookup_insert_eq by congruence. }
    destruct (pool_append m m4 hd free tl a) as [Hl Hal]; try apply R.
    + done.
    + eauto.
    + eexists. unfold m4. rewrite lookup_insert_eq. done.
    + intros x Hx Hne. apply Hother; [|done]. intros ->. done.
    + assert (R4 : pool_rep m4 (Pool hd a (Z.of_nat (length (free ++ [a]))) 0 u) (free ++ [a])).
      { split; simpl; [done| |by rewrite app_comm_cons, last_snoc|rewrite length_app; simpl; lia|done].
        rewrite app_comm_cons. apply NoDup_app. split; [apply R|]. split; [|apply NoDup_singleton].
        intros x Hx Hx'. apply list_elem_of_singleton in Hx' as ->. done. }
      destruct (IH m4 (free ++ [a]) a R4 Hn) as (m' & tl' & E' & R' & Hp & Hold).
      { intros x Hx. specialize (Ha x ltac:(set_solver)). set_solver. }
      { rewrite length_app. simpl. lia. }
      rewrite E4. cbn [mbind option_bind]. exists m', tl'. rewrite <- app_assoc in R'. simpl in R'.
      split; [done|]. split; [done|]. split.
      * intros x [->|Hx]%elem_of_cons; [|by apply Hp].
        destruct (Hold a (Block (Some tl) None fresh u)) as (b & ? & Eb);
          [set_solver|apply lookup_insert_eq|]. exists b. auto.
      * intros x b Hx Hb. destruct (decide (x = tl)) as [->|].
        -- destruct (Hold tl (set_next (Some a) t)) as (b' & ? & Eb); [set_solver|done|].
           exists b'. split; [done|]. rewrite Eb. simplify_eq. done.
        -- apply Hold; [set_solver|]. rewrite Hother; [done| |done]. intros ->. apply Haf. set_solver.
Qed.

Lemma new_pool_ok fresh u hd addrs m :
  NoDup (hd :: addrs) -> Z.of_nat (length addrs) < 2 ^ 32 ->
  exists m' p, new_pool fresh u hd addrs m = Some (m', p) /\ pool_rep m' p addrs /\
    uuid p = u /\ forall a, a ∈ addrs -> exists b, m' !! a = Some b /\ parent_id b = uuid p.
Proof.
  intros Hn Hlen. apply NoDup_cons in Hn as [Hhd Hn]. unfold new_pool.
  destruct (link_blocks_ok fresh u addrs (<[hd := Block None None fresh 0]> m) hd [] hd)
    as (m' & tl & E & R & Hp & _).
  - split; simpl; [done|apply NoDup_singleton|done|lia|].
    intros a Ha. apply list_elem_of_singleton in Ha as ->. unfold allocated. rewrite lookup_insert_eq. eauto.
  - done.
  - intros a Ha. rewrite list_elem_of_singleton. intros ->. done.
  - simpl. lia.
  - rewrite E. cbn [mbind option_bind]. eexists _, _. split; [reflexivity|]. simpl in *.
    split; [|split; [done|done]]. destruct R as [R1 R2 R3 R4 R5]. split; done.
Qed.

(** * Properties *)

(** The pool is a stack of blocks: [GetElement] takes the block put back
    last, or gives NULL when none is left; [PutElement] gives a block of the
    pool back and refuses NULL and blocks of other pools; [block_num] and
    [GetNum] are the number of free blocks; no other block is touched beyond
    its links, and no data is lost. *)
Theorem pool_stack m p free :
  pool_rep m p free ->
  GetNum m p = Some (block_num p) /\ block_num p = Z.of_nat (length free) /\
  PutElement m p None = Some (m, p, -1) /\
  (forall a b, m !! a = Some b -> parent_id b <> uuid p -> PutElement m p (Some a) = Some (m, p, -1)) /\
  (forall a b, m !! a = Some b -> parent_id b = uuid p -> a ∉ phead p :: free ->
    Z.of_nat (length free) + 1 < 2 ^ 64 ->
    exists m' p', PutElement m p (Some a) = Some (m', p', 0) /\ pool_rep m' p' (free ++ [a]) /\
      forall x, x ∉ phead p :: free -> x <> a -> m' !! x = m !! x) /\
  match last free with
  | None => GetElement m p = Some (m, p, None)
  | Some a => exists m' p', GetElement m p = Some (m', p', Some a) /\
      pool_rep m' p' (removelast free) /\
      forall x y, m !! x = Some y -> exists y', m' !! x = Some y' /\ data_ y' = data_ y
  end.
Proof.
  intros R. pose proof (pool_count _ _ _ R) as [Hc _].
  split; [by rewrite (getnum_ok _ _ _ R), Hc|]. split; [done|]. split; [done|]. split; [|split].
  - intros a b Hb Hu. unfold PutElement. rewrite Hb. cbn [mbind option_bind].
    by rewrite (proj2 (Z.eqb_neq _ _) Hu).
  - intros a b Hb Hu Ha Hlen. destruct (put_ok m p free a b) as (m' & p' & ? & ? & _ & _ & ? & _); eauto.
  - destruct free as [|a free] using rev_ind; [by apply get_empty|]. clear IHfree.
    rewrite last_snoc, removelast_last.
    destruct (get_ok m p free a R) as (m' & p' & E & R' & _ & _ & _ & Hd).
    exists m', p'. split; [done|]. split; [done|]. intros x y Hy.
    destruct (Hd x y Hy) as (y' & ? & ? & _). eauto.
Qed.

(** The constructor makes a pool in which every block is free and belongs
    to the pool, so each can be taken and given back. *)
Theorem new_pool_full fresh u hd addrs m :
  NoDup (hd :: addrs) -> Z.of_nat (length addrs) < 2 ^ 32 ->
  exists m' p, new_pool fresh u hd addrs m = Some (m', p) /\ pool_rep m' p addrs /\
    uuid p = u /\ forall a, a ∈ addrs -> exists b, m' !! a = Some b /\ parent_id b = uuid p.
Proof. apply new_pool_ok. Qed.

End pool.

Definition demo_pool : option (blocks Z * MemoryPool) :=
  new_pool 0 77 1%positive [2; 3; 4]%positive ∅.

Lemma new_pool_full_witness :
  exists m' p, new_pool 0 77 1%positive [2; 3; 4]%positive ∅ = Some (m', p) /\
    pool_rep m' p [2; 3; 4]%positive /\ uuid p = 77 /\
    forall a, a ∈ [2; 3; 4]%positive -> exists b, m' !! a = Some b /\ parent_id b = uuid p.
Proof.
  apply (new_pool_full 0 77 1%positive [2; 3; 4]%positive ∅); [|simpl; lia].
  apply (bool_decide_unpack _). reflexivity.
Defined.

Lemma pool_stack_witness :
  exists m p, new_pool 0 77 1%positive [2; 3]%positive ∅ = Some (m, p) /\ GetNum m p = Some (block_num p).
Proof.
  destruct (new_pool_ok 0 77 1%positive [2; 3]%positive ∅) as (m & p & E & R & _).
  - apply (bool_decide_unpack _). reflexivity.
  - simpl. lia.
  - exists m, p. split; [exact E|]. apply (pool_stack m p [2; 3]%positive R).
Defined.
