(* ===== verification/Buckets.v ===== *)
(** * Buckets of packets: [list-bucket.h] and [hb-list-bucket.h]

    [ListBucket] and [HBListBucket] keep their packets in singly linked lists of
    nodes taken from a memory pool, newest first.  The code of the two differs
    in what a node carries and in the accounting done for each packet, so the
    list operations are written once, over an entry type [E] and an accounting
    state [A].  The class [BucketOps] is the interface the shapers use;
    [BucketLaws] states what it promises for a whole family of buckets that
    share a pool, and the instance at the end of the file discharges it. *)

From S2P Require Import Prelude Ring Pool.

(** ** The interface *)

(** [X] is what a dequeue is told beside its burst (the bucket number, in
    [HBListBucket]); [St] is the state shared by the buckets. *)
Class BucketOps (X St B E : Type) := {
  enqueue_packet : St -> B -> E -> option (St * B * Z);
  dequeue_packet_bulk : X -> St -> B -> Z -> option (St * B * list E);
  bucket_IsEmpty : B -> bool
}.

(** How many packets a dequeue takes: [burst], an [int], is compared with the
    unsigned number of nodes. *)
Definition bulk_quota (burst n : Z) : Z :=
  if u32 burst >? n then to_signed 32 n else burst.

(** [family st bs cs n]: bucket [i] holds [cs i], newest first, and [n] more
    packets fit in the pool. *)
Class BucketLaws (I : Type) `{EqDecision I} (X St B E : Type) `{BucketOps X St B E} := {
  family : St -> (I -> B) -> (I -> list E) -> nat -> Prop;
  entry_ok : St -> E -> Prop;
  family_enqueue : forall st bs cs n i e,
    family st bs cs n -> entry_ok st e ->
    match n with
    | O => enqueue_packet st (bs i) e = Some (st, bs i, -1)
    | S n' => exists st' b', enqueue_packet st (bs i) e = Some (st', b', 0) /\
        family st' (<[i := b']> bs) (<[i := e :: cs i]> cs) n' /\
        (forall e', entry_ok st e' -> entry_ok st' e')
    end;
  family_dequeue : forall x st bs cs n i burst,
    -2 ^ 31 <= burst < 2 ^ 31 -> family st bs cs n ->
    let k := Z.to_nat (bulk_quota burst (Z.of_nat (length (cs i)))) in
    exists st' b', dequeue_packet_bulk x st (bs i) burst = Some (st', b', take k (cs i)) /\
      family st' (<[i := b']> bs) (<[i := drop k (cs i)]> cs) (n + length (take k (cs i))) /\
      (forall e', entry_ok st e' -> entry_ok st' e');
  family_ext : forall st bs bs' cs cs' n,
    (forall i, bs' i = bs i) -> (forall i, cs' i = cs i) -> family st bs cs n -> family st bs' cs' n;
  family_empty : forall st bs cs n i,
    family st bs cs n -> (bucket_IsEmpty (bs i) = true <-> cs i = []);
  family_small : forall st bs cs n i,
    family st bs cs n -> Z.of_nat (length (cs i)) < 2 ^ 31
}.

(** ** Nodes, and the state of a bucket *)

Record node (E : Type) := Node { entry : E; nnext : ptr }.
Arguments Node {E}.
Arguments entry {E}.
Arguments nnext {E}.

(** [bhead] is [head->next], the only field of the sentinel that is used. *)
Record ListBucket := LBucket { node_num : Z; MAX_BYTES_PER_FLOW : Z; bhead : ptr }.

(** The constructor of a bucket. *)
Definition new_bucket (max_bytes : Z) : ListBucket := LBucket 0 max_bytes None.

Definition GetNodeNum (b : ListBucket) : Z := to_signed 32 (node_num b).
Definition LIsEmpty (b : ListBucket) : bool := node_num b =? 0.

(** The blocks, the pool, and the accounting state shared by the buckets. *)
Record shared (E A : Type) := Shared { blk : blocks (node E); pool : MemoryPool; acct : A }.
Arguments Shared {E A}.
Arguments blk {E A}.
Arguments pool {E A}.
Arguments acct {E A}.

Section list_bucket.
Context {E A X : Type}.
(** The accounting of the two kinds of bucket for a packet that goes in or out;
    [None] is an index out of range. *)
Context (on_enqueue : ListBucket -> A -> E -> option A).
Context (on_dequeue : X -> ListBucket -> A -> E -> option A).

Definition list_enqueue (st : shared E A) (b : ListBucket) (e : E) :
    option (shared E A * ListBucket * Z) :=
  '(m, p, pkt) ← GetElement (blk st) (pool st);
  match pkt with
  | None => Some (Shared m p (acct st), b, -1)
  | Some a =>
      m' ← update (set_data (Node e (bhead b))) a m;
      acct' ← on_enqueue b (acct st) e;
      Some (Shared m' p acct', LBucket (u32 (node_num b + 1)) (MAX_BYTES_PER_FLOW b) (Some a), 0)
  end.

(** The loop [while (quota > 0)]; [out] is what [batch->add] has been given. *)
Fixpoint list_take (x : X) (b : ListBucket) (quota : nat) (st : shared E A) (hd : ptr) (out : list E) :
    option (shared E A * ptr * list E) :=
  match quota with
  | O => Some (st, hd, out)
  | S quota =>
      a ← hd;
      pkt ← blk st !! a;
      let e := entry (data_ pkt) in
      acct' ← on_dequeue x b (acct st) e;
      '(m, p, _) ← PutElement (blk st) (pool st) (Some a);
      list_take x b quota (Shared m p acct') (nnext (data_ pkt)) (out ++ [e])
  end.

Definition list_dequeue (x : X) (st : shared E A) (b : ListBucket) (burst : Z) :
    option (shared E A * ListBucket * list E) :=
  let quota := bulk_quota burst (node_num b) in
  match bhead b with
  | None => Some (st, b, [])
  | Some _ =>
      '(st', hd, out) ← list_take x b (Z.to_nat quota) st (bhead b) [];
      let dequeue_num := Z.max 0 quota in
      Some (st', LBucket (u32 (node_num b - dequeue_num)) (MAX_BYTES_PER_FLOW b) hd, out)
  end.

(** * The contents of a family of buckets *)

(** Following [nnext] from [p] visits the blocks [l], which hold [es]. *)
Fixpoint nodes (m : blocks (node E)) (p : ptr) (l : list addr) (es : list E) : Prop :=
  match l, es with
  | [], [] => p = None
  | a :: l', e :: es' => p = Some a /\
      exists b, m !! a = Some b /\ entry (data_ b) = e /\ nodes m (nnext (data_ b)) l' es'
  | _, _ => False
  end.

Context (acct_ok : A -> Prop) (ok : A -> E -> Prop).
Context {I : Type} `{EqDecision I}.

(** [all] are the blocks of the pool, [own i] those bucket [i] has. *)
Record owned (st : shared E A) (all : list addr) (bs : I -> ListBucket) (own : I -> list addr)
    (cs : I -> list E) (free : list addr) : Prop := {
  own_pool : pool_rep (blk st) (pool st) free;
  own_nodes : forall i, nodes (blk st) (bhead (bs i)) (own i) (cs i);
  own_num : forall i, node_num (bs i) = Z.of_nat (length (cs i));
  own_nodup : forall i, NoDup (own i ++ free);
  own_disjoint : forall i j a, a ∈ own i -> a ∈ own j -> i = j;
  own_all : forall a, a ∈ free \/ (exists i, a ∈ own i) -> a ∈ all;
  own_parent : forall a, a ∈ all ->
    exists b, blk st !! a = Some b /\ parent_id b = uuid (pool st) /\ a <> phead (pool st);
  own_size : NoDup all /\ Z.of_nat (length all) < 2 ^ 31;
  own_acct : acct_ok (acct st);
  own_entries : forall i e, e ∈ cs i -> ok (acct st) e
}.

Definition bucket_family (st : shared E A) (bs : I -> ListBucket) (cs : I -> list E) (n : nat) : Prop :=
  exists all own free, owned st all bs own cs free /\ length free = n.

(** ** Lemmas *)

Lemma nodes_mono m m' p l es :
  (forall a b, a ∈ l -> m !! a = Some b -> exists b', m' !! a = Some b' /\ data_ b' = data_ b) ->
  nodes m p l es -> nodes m' p l es.
Proof.
  revert p es. induction l as [|a l IH]; intros p [|e es] Hf; try done.
  intros (-> & b & Hb & He & Hn). split; [done|].
  destruct (Hf a b ltac:(constructor) Hb) as (b' & Hb' & Ed). exists b'. rewrite Ed.
  split; [done|]. split; [done|]. apply IH; [|done]. intros c d Hc. apply Hf. by constructor.
Qed.

Lemma nodes_length m p l es : nodes m p l es -> length l = length es.
Proof.
  revert p es. induction l as [|a l IH]; intros p [|e es]; simpl; try done.
  intros (_ & b & _ & _ & Hn). f_equal. eauto.
Qed.

Lemma nodes_head m p l es : nodes m p l es -> (p = None <-> es = []).
Proof. destruct l, es; simpl; try done. intros (-> & _). naive_solver. Qed.

Lemma own_bound st all bs own cs free i :
  owned st all bs own cs free -> (length (cs i) + length free <= length all)%nat.
Proof.
  intros O. rewrite <- (nodes_length _ _ _ _ (own_nodes _ _ _ _ _ _ O i)), <- length_app.
  apply submseteq_length, NoDup_submseteq; [apply (own_nodup _ _ _ _ _ _ O)|].
  intros a Ha. apply (own_all _ _ _ _ _ _ O). rewrite elem_of_app in Ha.
  destruct Ha; eauto.
Qed.

Lemma to_signed_small n : 0 <= n < 2 ^ 31 -> to_signed 32 n = n.
Proof.
  intros Hn. unfold to_signed. rewrite wrap_small by lia.
  destruct (Z.ltb_spec n (2 ^ (32 - 1))); lia.
Qed.

Lemma bulk_quota_range burst n :
  0 <= n < 2 ^ 31 -> -2 ^ 31 <= burst < 2 ^ 31 -> bulk_quota burst n <= n.
Proof.
  intros Hn Hb. unfold bulk_quota. destruct (Z.gtb_spec (u32 burst) n) as [H|H].
  - rewrite to_signed_small; lia.
  - destruct (Z.le_gt_cases 0 burst); [rewrite wrap_small in H by lia; lia|lia].
Qed.

Context (on_enqueue_ok : forall b s e, acct_ok s -> ok s e ->
  exists s', on_enqueue b s e = Some s' /\ acct_ok s' /\ forall e', ok s e' -> ok s' e').
Context (on_dequeue_ok : forall x b s e, acct_ok s -> ok s e ->
  exists s', on_dequeue x b s e = Some s' /\ acct_ok s' /\ forall e', ok s e' -> ok s' e').

Lemma list_enqueue_ok st all bs own cs free a i e :
  owned st all bs own cs (free ++ [a]) -> ok (acct st) e ->
  exists st' b', list_enqueue st (bs i) e = Some (st', b', 0) /\
    owned st' all (<[i := b']> bs) (<[i := a :: own i]> own) (<[i := e :: cs i]> cs) free /\
    (forall e', ok (acct st) e' -> ok (acct st') e').
Proof.
  intros O He. pose proof (own_bound _ _ _ _ _ _ i O) as Hb. destruct O as [Op On Om Od Oj Oa Or Os Oc Oe].
  rewrite length_app in Hb. simpl in Hb.
  destruct (get_ok _ _ _ _ Op) as (m & p & Eg & Rp & Ehd & Eu & _ & Hm).
  assert (Ha : a ∈ all) by (apply Oa; left; set_solver).
  destruct (Or a Ha) as (b0 & Hb0 & Hp0 & Hah).
  destruct (Hm a b0 Hb0) as (ba & Hba & _ & Hpa).
  destruct (on_enqueue_ok (bs i) (acct st) e Oc He) as (s' & Es & Hs & Hok).
  assert (Hnot : forall j, a ∉ own j).
  { intros j Hj. specialize (Od j). apply NoDup_app in Od as (_ & Od & _). apply (Od a Hj). set_solver. }
  set (m' := <[a := set_data (Node e (bhead (bs i))) ba]> m).
  assert (Hm' : forall x y, x <> a -> blk st !! x = Some y ->
    exists y', m' !! x = Some y' /\ data_ y' = data_ y /\ parent_id y' = parent_id y).
  { intros x y Hx Hy. unfold m'. rewrite lookup_insert_ne by done. eauto. }
  eexists _, _. split; [|split].
  - unfold list_enqueue. rewrite Eg. cbn [mbind option_bind].
    rewrite (update_Some _ _ m ba) by done. cbn [mbind option_bind]. rewrite Es.
    cbn [mbind option_bind]. fold m'. reflexivity.
  - split; cbn [blk pool acct].
    + destruct Rp as [R1 R2 R3 R4 R5]. split; [|done|done|done|].
      * eapply linked_mono; [|exact R1]. intros x y Hx Hy.
        unfold m'. destruct (decide (x = a)) as [->|].
        -- rewrite lookup_insert_eq. simplify_eq. eauto.
        -- rewrite lookup_insert_ne by done. eauto.
      * intros x Hx. unfold allocated, m'. destruct (decide (x = a)) as [->|].
        -- rewrite lookup_insert_eq. eauto.
        -- rewrite lookup_insert_ne by done. by apply R5.
    + intros j. destruct (decide (j = i)) as [->|].
      * rewrite !fn_insert_eq. simpl. split; [done|]. eexists. unfold m' at 1. rewrite lookup_insert_eq.
        split; [done|]. split; [done|]. simpl. eapply nodes_mono; [|apply On].
        intros x y Hx Hy. destruct (Hm' x y) as (y' & ? & ? & _); [|done|eauto].
        intros ->. by apply (Hnot i).
      * rewrite !fn_insert_ne by done. eapply nodes_mono; [|apply On].
        intros x y Hx Hy. destruct (Hm' x y) as (y' & ? & ? & _); [|done|eauto].
        intros ->. by apply (Hnot j).
    + intros j. destruct (decide (j = i)) as [->|].
      * rewrite !fn_insert_eq. simpl. rewrite Om, wrap_small; lia.
      * by rewrite !fn_insert_ne by done.
    + intros j. specialize (Od j) as Odj. rewrite app_assoc in Odj. apply NoDup_app in Odj as (Odj & Hd & _).
      destruct (decide (j = i)) as [->|].
      * rewrite !fn_insert_eq. simpl. apply NoDup_cons. split; [|done].
        intros Hin. apply (Hd a Hin). set_solver.
      * by rewrite !fn_insert_ne by done.
    + intros j k x. destruct (decide (j = i)) as [->|], (decide (k = i)) as [->|];
        rewrite ?fn_insert_eq, ?(fn_insert_ne _ i) by done; [done| | |apply Oj].
      * intros [->|Hx]%elem_of_cons Hk; [by destruct (Hnot k)|]. by apply (Oj _ _ x).
      * intros Hj [->|Hx]%elem_of_cons; [by destruct (Hnot j)|]. by apply (Oj _ _ x).
    + intros x [Hx|(j & Hx)]; [apply Oa; left; set_solver|].
      destruct (decide (j = i)) as [->|].
      * rewrite fn_insert_eq in Hx. apply elem_of_cons in Hx as [->|Hx]; [done|]. apply Oa. eauto.
      * rewrite fn_insert_ne in Hx by done. apply Oa. eauto.
    + intros x Hx. destruct (Or x Hx) as (y & Hy & Hpy & Hxh). rewrite Ehd, Eu.
      destruct (decide (x = a)) as [->|Hne].
      * eexists. unfold m'. rewrite lookup_insert_eq. split; [done|]. simplify_eq. simpl. split; congruence.
      * destruct (Hm' x y Hne Hy) as (y' & ? & _ & E'). exists y'. split; [done|]. split; congruence.
    + done.
    + done.
    + intros j e' Hj. apply Hok. destruct (decide (j = i)) as [->|].
      * rewrite fn_insert_eq in Hj. apply elem_of_cons in Hj as [->|Hj]; eauto.
      * rewrite fn_insert_ne in Hj by done. eauto.
  - done.
Qed.

Lemma owned_ext st all bs own cs bs' own' cs' free :
  (forall j, bs' j = bs j) -> (forall j, own' j = own j) -> (forall j, cs' j = cs j) ->
  owned st all bs own cs free -> owned st all bs' own' cs' free.
Proof.
  intros Hb Ho Hc [Op On Om Od Oj Oa Or Os Oc Oe]. split; try done.
  - intros j. by rewrite Hb, Ho, Hc.
  - intros j. by rewrite Hb, Hc.
  - intros j. by rewrite Ho.
  - intros i j a. rewrite !Ho. apply Oj.
  - intros a [?|(j & Hj)]; [by apply Oa; left|]. rewrite Ho in Hj. eauto.
  - intros j e. rewrite Hc. apply Oe.
Qed.

(** One round of the loop: the first node of bucket [i] goes back to the pool. *)
Lemma owned_pop x b st all bs own cs free i e es :
  owned st all bs own cs free -> cs i = e :: es ->
  exists a nd s' m p, bhead (bs i) = Some a /\ blk st !! a = Some nd /\ entry (data_ nd) = e /\
    on_dequeue x b (acct st) e = Some s' /\
    PutElement (blk st) (pool st) (Some a) = Some (m, p, 0) /\
    owned (Shared m p s') all
      (<[i := LBucket (node_num (bs i) - 1) (MAX_BYTES_PER_FLOW (bs i)) (nnext (data_ nd))]> bs)
      (<[i := tail (own i)]> own) (<[i := es]> cs) (free ++ [a]) /\
    (forall e', ok (acct st) e' -> ok s' e').
Proof.
  intros O Ecs. pose proof (own_bound _ _ _ _ _ _ i O) as Hb. destruct O as [Op On Om Od Oj Oa Or Os Oc Oe].
  pose proof (On i) as Oni. rewrite Ecs in Oni, Hb. simpl in Hb.
  destruct (own i) as [|a l] eqn:Eo; [done|]. destruct Oni as (Ehd & nd & Hnd & He & Hl).
  destruct (on_dequeue_ok x b (acct st) e Oc) as (s' & Es & Hs & Hok); [apply (Oe i); rewrite Ecs; by constructor|].
  assert (Ha : a ∈ all) by (apply Oa; right; exists i; rewrite Eo; constructor).
  destruct (Or a Ha) as (nd' & Hnd' & Hpa & Hah). assert (nd' = nd) as -> by congruence. clear Hnd'.
  assert (Haf : a ∉ phead (pool st) :: free).
  { specialize (Od i). rewrite Eo in Od. simpl in Od. apply NoDup_cons in Od as [Hna _].
    rewrite elem_of_cons. intros [?|?]; [done|]. apply Hna. set_solver. }
  destruct (put_ok _ _ _ a nd Op Hnd Hpa Haf) as (m & p & Ep & Rp & Eh & Eu & _ & Hm); [lia|].
  exists a, nd, s', m, p. do 5 (split; [done|]). split; [|done].
  assert (Hmono : forall q l' es', nodes (blk st) q l' es' -> nodes m q l' es').
  { intros q l' es'. apply nodes_mono. intros c d _ Hc. destruct (Hm c d Hc) as (d' & ? & ? & _). eauto. }
  assert (Hown : forall j, own j = if decide (j = i) then a :: l else own j).
  { intros j. case_decide; subst; done. }
  split; cbn [blk pool acct].
  - done.
  - intros j. destruct (decide (j = i)) as [->|].
    + rewrite !fn_insert_eq. by apply Hmono.
    + rewrite !fn_insert_ne by done. by apply Hmono.
  - intros j. destruct (decide (j = i)) as [->|].
    + rewrite !fn_insert_eq. simpl. rewrite Om, Ecs. simpl. lia.
    + by rewrite !fn_insert_ne.
  - intros j. specialize (Od j) as Odj. destruct (decide (j = i)) as [->|].
    + rewrite fn_insert_eq. rewrite Eo in Odj. simpl in *. rewrite app_assoc.
      apply NoDup_app. apply NoDup_cons in Odj as [Hna Odj]. split; [done|]. split; [|apply NoDup_singleton].
      intros c Hc Hc'. apply list_elem_of_singleton in Hc' as ->. done.
    + rewrite fn_insert_ne, app_assoc by done. apply NoDup_app. split; [done|]. split; [|apply NoDup_singleton].
      intros c Hc Hc'. apply list_elem_of_singleton in Hc' as ->. apply elem_of_app in Hc as [Hc|Hc].
      * assert (j = i); [|done]. apply (Oj j i a); [done|]. rewrite Eo. constructor.
      * apply Haf. by constructor.
  - intros j k c. assert (Hsub : forall j, c ∈ <[i := tail (a :: l)]> own j -> c ∈ own j).
    { intros j'. destruct (decide (j' = i)) as [->|]; [rewrite fn_insert_eq, Eo; simpl; set_solver|].
      by rewrite fn_insert_ne. }
    intros ?%Hsub ?%Hsub. eauto.
  - intros c [Hc|(j & Hc)].
    + apply elem_of_app in Hc as [Hc|Hc]; [by apply Oa; left|]. by apply list_elem_of_singleton in Hc as ->.
    + destruct (decide (j = i)) as [->|].
      * rewrite fn_insert_eq in Hc. simpl in Hc. apply Oa. right. exists i. rewrite Eo. set_solver.
      * rewrite fn_insert_ne in Hc by done. eauto.
  - intros c Hc. destruct (Or c Hc) as (y & Hy & Hpy & Hch). destruct (Hm c y Hy) as (y' & ? & _ & E').
    exists y'. split; [done|]. split; congruence.
  - done.
  - done.
  - intros j e' Hj. apply Hok. destruct (decide (j = i)) as [->|].
    + rewrite fn_insert_eq in Hj. apply (Oe i). rewrite Ecs. by constructor.
    + rewrite fn_insert_ne in Hj by done. eauto.
Qed.

(** The loop takes the first [k] nodes of the list. *)
Lemma list_take_ok x k b : forall st all bs own cs free i out,
  owned st all bs own cs free -> (k <= length (cs i))%nat ->
  exists st' hd free', list_take x b k st (bhead (bs i)) out = Some (st', hd, out ++ take k (cs i)) /\
    owned st' all (<[i := LBucket (node_num (bs i) - Z.of_nat k) (MAX_BYTES_PER_FLOW (bs i)) hd]> bs)
      (<[i := drop k (own i)]> own) (<[i := drop k (cs i)]> cs) free' /\
    length free' = (length free + k)%nat /\ (forall e', ok (acct st) e' -> ok (acct st') e').
Proof.
  induction k as [|k IH]; intros st all bs own cs free i out O Hk; cbn [list_take].
  - exists st, (bhead (bs i)), free. rewrite app_nil_r, Nat.add_0_r. split; [done|]. split; [|done].
    rewrite !drop_0. eapply owned_ext; [..|exact O]; intros j; [|apply insert_same..].
    destruct (decide (i = j)) as [->|]; [|by rewrite fn_insert_ne].
    rewrite fn_insert_eq. destruct (bs j). simpl. f_equal. lia.
  - destruct (cs i) as [|e es] eqn:Ecs; [simpl in Hk; lia|]. simpl in Hk.
    destruct (owned_pop x b _ _ _ _ _ _ _ _ _ O Ecs) as (a & nd & s' & m & p & Eh & Hnd & He & Ea & Ep & O1 & Hok).
    set (bs1 := <[i := _]> bs) in O1. set (own1 := <[i := _]> own) in O1. set (cs1 := <[i := es]> cs) in O1.
    assert (E1 : bs1 i = LBucket (node_num (bs i) - 1) (MAX_BYTES_PER_FLOW (bs i)) (nnext (data_ nd)))
      by apply fn_insert_eq.
    assert (E2 : own1 i = tail (own i)) by apply fn_insert_eq.
    assert (E3 : cs1 i = es) by apply fn_insert_eq.
    destruct (IH _ _ _ _ _ _ i (out ++ [e]) O1) as (st' & hd & free' & Et & O' & Hf & Hok'); [rewrite E3; lia|].
    rewrite E1, E2, E3 in *. simpl bhead in Et. simpl node_num in O'. simpl MAX_BYTES_PER_FLOW in O'.
    exists st', hd, free'. rewrite Eh. cbn [mbind option_bind]. rewrite Hnd. cbn [mbind option_bind].
    rewrite He, Ea. cbn [mbind option_bind]. rewrite Ep. cbn [mbind option_bind]. rewrite Et.
    split; [by rewrite <- app_assoc|]. split; [|split; [rewrite Hf, length_app; simpl; lia|eauto]].
    eapply owned_ext; [..|exact O']; intros j.
    + unfold bs1. rewrite insert_again.
      by replace (node_num (bs i) - 1 - Z.of_nat k) with (node_num (bs i) - Z.of_nat (S k)) by lia.
    + unfold own1. rewrite insert_again. destruct (own i); [|done].
      cbn [tail]. by rewrite !drop_nil.
    + unfold cs1. by rewrite insert_again.
Qed.

Lemma bucket_family_ext st bs bs' cs cs' n :
  (forall i, bs' i = bs i) -> (forall i, cs' i = cs i) ->
  bucket_family st bs cs n -> bucket_family st bs' cs' n.
Proof.
  intros Hb Hc (all & own & free & O & En). exists all, own, free. split; [|done].
  by eapply owned_ext; [..|exact O].
Qed.

Lemma list_dequeue_ok x st bs cs n i burst :
  -2 ^ 31 <= burst < 2 ^ 31 -> bucket_family st bs cs n ->
  let k := Z.to_nat (bulk_quota burst (Z.of_nat (length (cs i)))) in
  exists st' b', list_dequeue x st (bs i) burst = Some (st', b', take k (cs i)) /\
    bucket_family st' (<[i := b']> bs) (<[i := drop k (cs i)]> cs) (n + length (take k (cs i))) /\
    (forall e', ok (acct st) e' -> ok (acct st') e').
Proof.
  intros Hbu (all & own & free & O & En) k. pose proof (own_bound _ _ _ _ _ _ i O) as Hb.
  pose proof (own_size _ _ _ _ _ _ O) as [_ Hs]. pose proof (own_num _ _ _ _ _ _ O i) as Em.
  pose proof (bulk_quota_range burst (Z.of_nat (length (cs i))) ltac:(lia) Hbu) as Hq.
  pose proof (nodes_head _ _ _ _ (own_nodes _ _ _ _ _ _ O i)) as Hh.
  unfold list_dequeue. rewrite Em. destruct (bhead (bs i)) as [a|] eqn:Eh.
  - destruct (list_take_ok x k (bs i) _ _ _ _ _ _ i [] O) as (st' & hd & free' & Et & O' & Hf & Hok); [lia|].
    rewrite Eh in Et. fold k. rewrite Et. cbn [mbind option_bind]. eexists st', _. split; [reflexivity|].
    split; [|done]. exists all, (<[i := drop k (own i)]> own), free'. split.
    + eapply owned_ext; [..|exact O']; intros j; try done.
      replace (u32 _) with (node_num (bs i) - Z.of_nat k); [done|].
      rewrite Em. unfold k. rewrite wrap_small; lia.
    + rewrite Hf, length_take. lia.
  - assert (Ecs : cs i = []) by (by apply Hh). exists st, (bs i). rewrite Ecs, take_nil, drop_nil.
    split; [done|]. split; [|done]. exists all, own, free. split; [|simpl; lia].
    eapply owned_ext; [..|exact O]; intros j; try done; [apply insert_same|].
    rewrite <- Ecs. apply insert_same.
Qed.

Lemma list_enqueue_full st bs cs i e :
  bucket_family st bs cs 0 -> list_enqueue st (bs i) e = Some (st, bs i, -1).
Proof.
  intros (all & own & free & O & En). apply length_zero_iff_nil in En as ->.
  unfold list_enqueue. rewrite (get_empty _ _ (own_pool _ _ _ _ _ _ O)). by destruct st.
Qed.

Lemma family_enqueue_ok st bs cs n i e :
  bucket_family st bs cs n -> ok (acct st) e ->
  match n with
  | O => list_enqueue st (bs i) e = Some (st, bs i, -1)
  | S n' => exists st' b', list_enqueue st (bs i) e = Some (st', b', 0) /\
      bucket_family st' (<[i := b']> bs) (<[i := e :: cs i]> cs) n' /\
      (forall e', ok (acct st) e' -> ok (acct st') e')
  end.
Proof.
  intros F He. destruct n as [|n]; [by eapply list_enqueue_full|].
  destruct F as (all & own & free & O & En).
  destruct free as [|a free _] using rev_ind; [done|]. rewrite length_app in En. simpl in En.
  destruct (list_enqueue_ok _ _ _ _ _ _ _ i e O He) as (st' & b' & Et & O' & Hok).
  exists st', b'. split; [done|]. split; [|done]. exists all, (<[i := a :: own i]> own), free.
  split; [done|lia].
Qed.

(** A new pool with empty buckets is a family. *)
Lemma family_new m p all b0 s :
  pool_rep m p all -> NoDup (phead p :: all) -> Z.of_nat (length all) < 2 ^ 31 ->
  (forall a, a ∈ all -> exists b, m !! a = Some b /\ parent_id b = uuid p) -> acct_ok s ->
  bucket_family (Shared m p s) (fun _ => new_bucket b0) (fun _ => []) (length all).
Proof.
  intros R Hn Hl Hp Hs. apply NoDup_cons in Hn as [Hh Hn].
  exists all, (fun _ => []), all. split; [|done].
  split; cbn [blk pool acct]; try done; intros; set_solver.
Qed.

End list_bucket.
