(* ===== verification/Ledger.v ===== *)
(** * Per-flow accounting of the buckets

    What [list-bucket.h] and [hb-list-bucket.h] do for each packet beside moving
    it: the bytes queued per flow ([pkts_num]), the queue of flows that may send
    again ([flow_to_gen]), and, in the second, the estimate of the rate of a
    destination ([easy-map.cc], [flow_rate_estimator.cc]).  A [double] is a value
    of [SpecFloat.spec_float] with the precision and exponent range of IEEE
    binary64; [None] is an index out of range or a conversion whose result is
    not defined. *)

From Stdlib Require Import SpecFloat.
From S2P Require Import Prelude Ring Pool Buckets.

(** ** Packets: the parts of [bess::Packet] and of its IP header that are read *)

Record Packet := Pkt { total_len : Z; ip_src : Z; ip_dst : Z }.

(** ** The integer hash table *)

Record EstimateInfo := Info {
  rate : spec_float;
  total_bytes : Z;
  max_ts : Z;
  min_ts : Z;
  last_bucket : Z;
  count : Z
}.

Definition of_u64 (x : Z) : spec_float := binary_normalize 53 1024 x 0 false.

Definition UINT64_MAX : Z := 2 ^ 64 - 1.
Definition UINT32_MAX : Z := 2 ^ 32 - 1.

(** The default constructor, and [Reset]. *)
Definition new_info : EstimateInfo := Info (of_u64 20000000) 0 0 UINT64_MAX UINT32_MAX 0.

Record EasyMap := EMap { flow_num_ : Z; mbucket : Z -> EstimateInfo }.

Definition new_map (flow_num : Z) : option EasyMap :=
  n ← round_size flow_num; Some (EMap n (fun _ => new_info)).

Definition GetEstimateInfo (m : EasyMap) (n : Z) : option EstimateInfo :=
  guard (0 <= n < flow_num_ m);; Some (mbucket m n).

Definition put_info (m : EasyMap) (n : Z) (i : EstimateInfo) : EasyMap :=
  EMap (flow_num_ m) (<[n := i]> (mbucket m)).

(** [Insert] stores a rate, converted to a [double]. *)
Definition map_insert (m : EasyMap) (n r : Z) : option EasyMap :=
  i ← GetEstimateInfo m n;
  Some (put_info m n (Info (of_u64 r) (total_bytes i) (max_ts i) (min_ts i) (last_bucket i) (count i))).

(** The conversion of a [double] to [uint64_t]. *)
Definition to_u64 (x : spec_float) : option Z :=
  match x with
  | S754_zero _ => Some 0
  | S754_finite false m e =>
      let v := if 0 <=? e then Z.pos m * 2 ^ e else Z.pos m / 2 ^ (- e) in
      guard (v < 2 ^ 64);; Some v
  | S754_finite true m e => guard (Z.pos m < 2 ^ (- e));; Some 0
  | _ => None
  end.

Definition do_hash (key : Z) : Z :=
  let key := u32 (Z.lxor (Z.shiftr key 16) key * 0x45d9f3b) in
  let key := u32 (Z.lxor (Z.shiftr key 16) key * 0x45d9f3b) in
  Z.lxor (Z.shiftr key 16) key.

(** The slot of a key. *)
Definition map_slot (m : EasyMap) (key : Z) : Z := Z.land (do_hash key) (u32 (flow_num_ m - 1)).

(** [Get] answers the rate and the slot [n] of a key. *)
Definition map_get (m : EasyMap) (key : Z) : option (Z * Z) :=
  let n := map_slot m key in
  i ← GetEstimateInfo m n;
  r ← to_u64 (rate i);
  Some (r, n).

Definition map_reset (m : EasyMap) : EasyMap := EMap (flow_num_ m) (fun _ => new_info).

(** ** The estimator *)

Definition dbl_add := SFadd 53 1024.
Definition dbl_sub := SFsub 53 1024.
Definition dbl_mul := SFmul 53 1024.
Definition dbl_div := SFdiv 53 1024.

(** [estimate_interval] and [a] of the global [estimator(5)]. *)
Definition estimate_interval : Z := 5.
Definition smoothing : spec_float := binary_normalize 53 1024 1 (-2) false.

Definition new_rate (i : EstimateInfo) (mx mn : Z) : spec_float :=
  let loss_rate := dbl_div (of_u64 (u64 (Z.shiftl (total_bytes i) 3))) (of_u64 (u64 (mx - mn))) in
  dbl_add (dbl_mul (rate i) (dbl_sub (of_u64 1) smoothing))
          (dbl_mul (dbl_mul smoothing loss_rate) (of_u64 1000000)).

Definition update_info (i : EstimateInfo) (pkt_bytes send_ts bucket_id : Z) : EstimateInfo :=
  if last_bucket i =? bucket_id then
    Info (rate i) (u64 (total_bytes i + pkt_bytes)) (max_ts i) (min_ts i) (last_bucket i) (count i)
  else
    let count1 := u32 (count i + 1) in
    let mx := if send_ts >? max_ts i then send_ts else max_ts i in
    let mn := if send_ts <? min_ts i then send_ts else min_ts i in
    if count1 =? u32 (estimate_interval + 1) then
      Info (new_rate i mx mn) (u64 (0 + pkt_bytes)) send_ts send_ts (u32 bucket_id) 1
    else Info (rate i) (u64 (total_bytes i + pkt_bytes)) mx mn (u32 bucket_id) count1.

Definition UpdateRate (m : EasyMap) (pkt_bytes send_ts hash_id bucket_id : Z) : option EasyMap :=
  i ← GetEstimateInfo m hash_id;
  Some (put_info m hash_id (update_info i pkt_bytes send_ts bucket_id)).

(** ** The entries and the accounting state *)

(** A [PacketNode] and an [HBPacketNode] without their links. *)
Record PacketEntry := PEntry { packet : addr; flow_id : Z }.
Record HBEntry := HEntry { hpacket : addr; hflow_id : Z; send_ts : Z; hash_id : Z }.

Record ledger := Ledger {
  packets : gmap addr Packet;
  pkts_num : list Z;
  flow_to_gen : CircularQueue Z;
  aggregation_rates : EasyMap
}.

Definition set_num (l : ledger) (f v : Z) : ledger :=
  Ledger (packets l) (<[Z.to_nat f := v]> (pkts_num l)) (flow_to_gen l) (aggregation_rates l).
Definition push_flow (l : ledger) (f : Z) : ledger :=
  Ledger (packets l) (pkts_num l) (Push f (flow_to_gen l)).2 (aggregation_rates l).
Definition set_rates (l : ledger) (m : EasyMap) : ledger :=
  Ledger (packets l) (pkts_num l) (flow_to_gen l) m.

Definition flow_bytes (l : ledger) (f : Z) : option Z :=
  guard (0 <= f);; pkts_num l !! Z.to_nat f.

(** [ListBucket::enqueue_packet]: the bytes are added to those of the flow. *)
Definition lb_on_enqueue (_ : ListBucket) (l : ledger) (e : PacketEntry) : option ledger :=
  pkt ← packets l !! packet e;
  n ← flow_bytes l (flow_id e);
  Some (set_num l (flow_id e) (u64 (n + total_len pkt))).

(** [ListBucket::dequeue_packet_bulk]: they are taken off, and the flow may
    send again once it has fewer than [MAX_BYTES_PER_FLOW] queued. *)
Definition lb_on_dequeue (_ : unit) (b : ListBucket) (l : ledger) (e : PacketEntry) : option ledger :=
  pkt ← packets l !! packet e;
  n ← flow_bytes l (flow_id e);
  let left := u64 (n - total_len pkt) in
  let l := set_num l (flow_id e) left in
  Some (if left <? MAX_BYTES_PER_FLOW b then push_flow l (flow_id e) else l).

(** In [HBListBucket] the module itself counts the bytes of an enqueue. *)
Definition hb_on_enqueue (_ : ListBucket) (l : ledger) (_ : HBEntry) : option ledger := Some l.

Definition hb_on_dequeue (bucket_id : Z) (b : ListBucket) (l : ledger) (e : HBEntry) : option ledger :=
  pkt ← packets l !! hpacket e;
  n ← flow_bytes l (hflow_id e);
  let left_bytes := u64 (n - total_len pkt) in
  let l := if left_bytes <? MAX_BYTES_PER_FLOW b then push_flow l (hflow_id e) else l in
  let l := set_num l (hflow_id e) left_bytes in
  m ← UpdateRate (aggregation_rates l) (total_len pkt) (send_ts e) (hash_id e) bucket_id;
  Some (set_rates l m).

(** The two kinds of bucket. *)
#[export] Instance ListBucket_ops : BucketOps unit (shared PacketEntry ledger) ListBucket PacketEntry := {|
  enqueue_packet := list_enqueue lb_on_enqueue;
  dequeue_packet_bulk := list_dequeue lb_on_dequeue;
  bucket_IsEmpty := LIsEmpty
|}.

#[export] Instance HBListBucket_ops : BucketOps Z (shared HBEntry ledger) ListBucket HBEntry := {|
  enqueue_packet := list_enqueue hb_on_enqueue;
  dequeue_packet_bulk := list_dequeue hb_on_dequeue;
  bucket_IsEmpty := LIsEmpty
|}.

(** * Invariants *)

(** Every counter is a word, the ring is a ring, and the hash table has a power
    of two of slots. *)
Record ledger_ok (l : ledger) : Prop := {
  ledger_num : forall i n, pkts_num l !! i = Some n -> 0 <= n < 2 ^ 64;
  ledger_ring : exists fs, ring_rep (flow_to_gen l) fs;
  ledger_map : exists k, 0 <= k <= 31 /\ flow_num_ (aggregation_rates l) = 2 ^ k
}.

Definition flow_known (l : ledger) (f : Z) : Prop := 0 <= f < Z.of_nat (length (pkts_num l)).

Definition lb_ok (l : ledger) (e : PacketEntry) : Prop :=
  is_Some (packets l !! packet e) /\ flow_known l (flow_id e).

Definition hb_ok (l : ledger) (e : HBEntry) : Prop :=
  is_Some (packets l !! hpacket e) /\ flow_known l (hflow_id e) /\
  0 <= hash_id e < flow_num_ (aggregation_rates l).

(** * Lemmas *)

Lemma flow_bytes_known l f : flow_known l f -> exists n, flow_bytes l f = Some n.
Proof.
  intros Hf. unfold flow_bytes. rewrite option_guard_True by apply Hf. cbn [mbind option_bind].
  apply lookup_lt_is_Some_2. destruct Hf. lia.
Qed.

Lemma set_num_ok l f v : ledger_ok l -> 0 <= v < 2 ^ 64 -> ledger_ok (set_num l f v).
Proof.
  intros [Hn Hr Hm] Hv. split; simpl; [|done|done]. intros i n Hi.
  apply list_lookup_insert_Some in Hi as [(_ & <- & _)|[_ Hi]]; eauto.
Qed.

Lemma push_flow_ok l f : ledger_ok l -> ledger_ok (push_flow l f).
Proof.
  intros [Hn (fs & Hr) Hm]. split; simpl; [done| |done].
  pose proof (ring_rep_push _ _ f Hr) as P. destruct (_ <? _).
  - destruct P as (c & -> & R & _). eauto.
  - rewrite P. eauto.
Qed.

Lemma set_num_length l f v : length (pkts_num (set_num l f v)) = length (pkts_num l).
Proof. apply length_insert. Qed.

Lemma lb_enqueue_ok b l e :
  ledger_ok l -> lb_ok l e ->
  exists l', lb_on_enqueue b l e = Some l' /\ ledger_ok l' /\ forall e', lb_ok l e' -> lb_ok l' e'.
Proof.
  intros L [[pkt Hp] Hf]. destruct (flow_bytes_known _ _ Hf) as (n & Hn).
  unfold lb_on_enqueue. rewrite Hp. cbn [mbind option_bind]. rewrite Hn. cbn [mbind option_bind].
  eexists. split; [done|]. split; [apply set_num_ok; [done|apply wrap_range; lia]|].
  intros e' [? ?]. split; [done|]. unfold flow_known. by rewrite set_num_length.
Qed.

Lemma lb_dequeue_ok x b l e :
  ledger_ok l -> lb_ok l e ->
  exists l', lb_on_dequeue x b l e = Some l' /\ ledger_ok l' /\ forall e', lb_ok l e' -> lb_ok l' e'.
Proof.
  intros L [[pkt Hp] Hf]. destruct (flow_bytes_known _ _ Hf) as (n & Hn).
  unfold lb_on_dequeue. rewrite Hp. cbn [mbind option_bind]. rewrite Hn. cbn [mbind option_bind].
  eexists. split; [done|]. split.
  - destruct (_ <? _); [apply push_flow_ok|]; (apply set_num_ok; [done|apply wrap_range; lia]).
  - intros e' [? ?]. destruct (_ <? _); (split; [done|]; unfold flow_known; simpl; by rewrite length_insert).
Qed.

Lemma hb_enqueue_ok b l e :
  ledger_ok l -> hb_ok l e ->
  exists l', hb_on_enqueue b l e = Some l' /\ ledger_ok l' /\ forall e', hb_ok l e' -> hb_ok l' e'.
Proof. intros L H. exists l. done. Qed.

Lemma hb_dequeue_ok x b l e :
  ledger_ok l -> hb_ok l e ->
  exists l', hb_on_dequeue x b l e = Some l' /\ ledger_ok l' /\ forall e', hb_ok l e' -> hb_ok l' e'.
Proof.
  intros L ([pkt Hp] & Hf & Hh). destruct (flow_bytes_known _ _ Hf) as (n & Hn).
  unfold hb_on_dequeue. rewrite Hp. cbn [mbind option_bind]. rewrite Hn. cbn [mbind option_bind].
  set (l1 := if _ <? _ then _ else _).
  assert (E1 : aggregation_rates l1 = aggregation_rates l /\ packets l1 = packets l /\
    pkts_num l1 = pkts_num l /\ ledger_ok l1).
  { unfold l1. destruct (_ <? _); simpl; auto using push_flow_ok. }
  destruct E1 as (Em & Ep & En & L1).
  unfold UpdateRate, GetEstimateInfo. simpl. rewrite Em.
  rewrite option_guard_True by done. cbn [mbind option_bind]. eexists. split; [done|]. split.
  - pose proof (set_num_ok l1 (hflow_id e) (u64 (n - total_len pkt)) L1 ltac:(apply wrap_range; lia)) as [H1 H2 H3].
    split; simpl; [done|done|]. simpl in H3. by rewrite Em in H3.
  - intros e' (? & ? & ?). unfold hb_ok, flow_known. simpl. rewrite Ep, En, length_insert. done.
Qed.

Section laws.
Context {I : Type} `{EqDecision I}.

#[export] Instance ListBucket_laws : BucketLaws I unit (shared PacketEntry ledger) ListBucket PacketEntry.
Proof.
  refine {| family := bucket_family ledger_ok lb_ok; entry_ok st e := lb_ok (acct st) e |}.
  - intros st bs cs n i e. apply (family_enqueue_ok lb_on_enqueue lb_on_dequeue _ _ lb_enqueue_ok lb_dequeue_ok).
  - intros x st bs cs n i burst. apply (list_dequeue_ok lb_on_enqueue lb_on_dequeue _ _ lb_enqueue_ok lb_dequeue_ok).
  - intros st bs bs' cs cs' n. apply bucket_family_ext.
  - intros st bs cs n i (all & own & free & O & _). simpl. unfold LIsEmpty.
    rewrite (own_num _ _ _ _ _ _ _ _ O), Z.eqb_eq. destruct (cs i); simpl; [done|].
    split; [lia|done].
  - intros st bs cs n i (all & own & free & O & _). pose proof (own_bound _ _ _ _ _ _ _ _ i O).
    pose proof (own_size _ _ _ _ _ _ _ _ O). lia.
Defined.

#[export] Instance HBListBucket_laws : BucketLaws I Z (shared HBEntry ledger) ListBucket HBEntry.
Proof.
  refine {| family := bucket_family ledger_ok hb_ok; entry_ok st e := hb_ok (acct st) e |}.
  - intros st bs cs n i e. apply (family_enqueue_ok hb_on_enqueue hb_on_dequeue _ _ hb_enqueue_ok hb_dequeue_ok).
  - intros x st bs cs n i burst. apply (list_dequeue_ok hb_on_enqueue hb_on_dequeue _ _ hb_enqueue_ok hb_dequeue_ok).
  - intros st bs bs' cs cs' n. apply bucket_family_ext.
  - intros st bs cs n i (all & own & free & O & _). simpl. unfold LIsEmpty.
    rewrite (own_num _ _ _ _ _ _ _ _ O), Z.eqb_eq. destruct (cs i); simpl; [done|].
    split; [lia|done].
  - intros st bs cs n i (all & own & free & O & _). pose proof (own_bound _ _ _ _ _ _ _ _ i O).
    pose proof (own_size _ _ _ _ _ _ _ _ O). lia.
Defined.

End laws.

(** ** Bytes queued per flow *)

Definition len_of (l : ledger) (a : addr) : Z :=
  match packets l !! a with Some p => total_len p | None => 0 end.

(** The bytes of flow [f] among the entries [es]. *)
Definition queued_bytes (l : ledger) (es : list PacketEntry) (f : Z) : Z :=
  foldr (fun e n => (if flow_id e =? f then len_of l (packet e) else 0) + n) 0 es.

(** [pkts_num] is exact for the packets [es]. *)
Definition exact (l : ledger) (es : list PacketEntry) : Prop :=
  (forall a p, packets l !! a = Some p -> 0 <= total_len p) /\
  forall f n, 0 <= f -> flow_bytes l f = Some n -> n = queued_bytes l es f /\ n < 2 ^ 64.

Lemma queued_bytes_perm l es es' f : es ≡ₚ es' -> queued_bytes l es f = queued_bytes l es' f.
Proof. induction 1; simpl; try lia. Qed.

Lemma queued_bytes_nonneg l es f :
  (forall a p, packets l !! a = Some p -> 0 <= total_len p) -> 0 <= queued_bytes l es f.
Proof.
  intros Hp. induction es as [|e es IH]; simpl; [lia|].
  destruct (_ =? _); [|lia]. unfold len_of. destruct (packets l !! packet e) eqn:E; [|lia].
  specialize (Hp _ _ E). lia.
Qed.

Lemma flow_bytes_set l f v g n :
  0 <= f -> flow_bytes (set_num l f v) g = Some n ->
  (g = f /\ n = v) \/ (g <> f /\ flow_bytes l g = Some n).
Proof.
  intros Hf. unfold flow_bytes. destruct (decide (0 <= g)) as [Hg|Hg];
    [rewrite !option_guard_True by done|by rewrite option_guard_False].
  cbn [mbind option_bind]. simpl. intros E.
  apply list_lookup_insert_Some in E as [(E & -> & _)|[E Hn]]; [left; lia|right].
  split; [|done]. intros ->. done.
Qed.

Lemma queued_bytes_same l l' es f : packets l' = packets l -> queued_bytes l' es f = queued_bytes l es f.
Proof. intros E. unfold queued_bytes, len_of. by rewrite E. Qed.

Lemma exact_enqueue b l e l' es :
  lb_on_enqueue b l e = Some l' -> 0 <= flow_id e -> exact l es ->
  queued_bytes l (e :: es) (flow_id e) < 2 ^ 64 -> exact l' (e :: es).
Proof.
  intros E Hf [Hp Hx] Hs. unfold lb_on_enqueue in E.
  destruct (packets l !! packet e) as [pkt|] eqn:Epk; [|done]. cbn [mbind option_bind] in E.
  destruct (flow_bytes l (flow_id e)) as [n|] eqn:En; [|done]. cbn [mbind option_bind] in E.
  simplify_eq. split; [done|]. intros f m Hf0 Hm.
  rewrite (queued_bytes_same l) by done. destruct (Hx _ _ Hf En) as [-> _].
  apply flow_bytes_set in Hm as [[-> ->]|[Hne Hm]]; [|..|done].
  - simpl in Hs |- *. rewrite Z.eqb_refl in *. unfold len_of at 1 in Hs. unfold len_of at 1.
    rewrite Epk in *. pose proof (queued_bytes_nonneg l es (flow_id e) Hp). specialize (Hp _ _ Epk).
    rewrite wrap_small; lia.
  - destruct (Hx _ _ Hf0 Hm) as [-> ?]. simpl. destruct (Z.eqb_spec (flow_id e) f); [congruence|lia].
Qed.

Lemma exact_dequeue x b l e l' es es' :
  lb_on_dequeue x b l e = Some l' -> 0 <= flow_id e -> exact l es -> es ≡ₚ e :: es' ->
  exact l' es' /\
  flow_to_gen l' = if queued_bytes l es' (flow_id e) <? MAX_BYTES_PER_FLOW b
                   then (Push (flow_id e) (flow_to_gen l)).2 else flow_to_gen l.
Proof.
  intros E Hf [Hp Hx] Hes. unfold lb_on_dequeue in E.
  destruct (packets l !! packet e) as [pkt|] eqn:Epk; [|done]. cbn [mbind option_bind] in E.
  destruct (flow_bytes l (flow_id e)) as [n|] eqn:En; [|done]. cbn [mbind option_bind] in E.
  destruct (Hx _ _ Hf En) as [Hn Hn64]. rewrite (queued_bytes_perm _ _ _ _ Hes) in Hn. simpl in Hn.
  rewrite Z.eqb_refl in Hn. unfold len_of at 1 in Hn. rewrite Epk in Hn.
  pose proof (queued_bytes_nonneg l es' (flow_id e) Hp). pose proof (Hp _ _ Epk).
  assert (Eleft : u64 (n - total_len pkt) = queued_bytes l es' (flow_id e)) by (rewrite wrap_small; lia).
  rewrite Eleft in E. split.
  - assert (E1 : packets l' = packets l /\ forall f, flow_bytes l' f =
      flow_bytes (set_num l (flow_id e) (queued_bytes l es' (flow_id e))) f).
    { simplify_eq. by destruct (_ <? _). }
    destruct E1 as [Epl Efl]. split; [by rewrite Epl|]. intros f m Hf0 Hm. rewrite Efl in Hm.
    rewrite (queued_bytes_same l) by done.
    apply flow_bytes_set in Hm as [[-> ->]|[Hne Hm]]; [|..|done]; [lia|].
    destruct (Hx _ _ Hf0 Hm) as [-> ?]. rewrite (queued_bytes_perm _ _ _ _ Hes) in *. simpl in *.
    destruct (Z.eqb_spec (flow_id e) f); [congruence|lia].
  - simplify_eq. by destruct (_ <? _).
Qed.

(** ** The estimator *)

(** At most [estimate_interval] buckets are in the window, whose bounds are in
    order once there is one. *)
Record info_ok (i : EstimateInfo) : Prop := {
  info_count : 0 <= count i <= estimate_interval;
  info_window : (count i = 0 /\ max_ts i = 0 /\ min_ts i = UINT64_MAX) \/
    (0 < count i /\ 0 <= min_ts i <= max_ts i /\ max_ts i < 2 ^ 64)
}.

Definition update_all (i : EstimateInfo) (us : list (Z * Z * Z)) : EstimateInfo :=
  fold_left (fun i '(b, t, k) => update_info i b t k) us i.

Lemma update_info_ok i bytes ts k : info_ok i -> 0 <= ts < 2 ^ 64 -> info_ok (update_info i bytes ts k).
Proof.
  intros [[Hc1 Hc2] Hw] Ht. unfold update_info, estimate_interval in *.
  destruct (_ =? k); [by split|]. rewrite (wrap_small 32 (count i + 1)), (wrap_small 32 (5 + 1)) by lia.
  unfold UINT64_MAX in Hw. destruct (Z.eqb_spec (count i + 1) (5 + 1)) as [E|E].
  - split; simpl; [unfold estimate_interval; lia|right; lia].
  - split; simpl; [unfold estimate_interval; lia|right].
    destruct (Z.gtb_spec ts (max_ts i)), (Z.ltb_spec ts (min_ts i)); lia.
Qed.

(** * Properties *)

(** A family of [ListBucket]s over one pool: each bucket is a stack of the
    packets put in it, an enqueue fails only when the pool is empty and then
    changes nothing, a dequeue takes the newest packets up to its burst, and
    no bucket ever disturbs another. *)
Theorem list_bucket_stack (st : shared PacketEntry ledger) (bs : Z -> ListBucket)
    (cs : Z -> list PacketEntry) n i e burst :
  bucket_family ledger_ok lb_ok st bs cs n -> lb_ok (acct st) e -> -2 ^ 31 <= burst < 2 ^ 31 ->
  (LIsEmpty (bs i) = true <-> cs i = []) /\
  match n with
  | O => list_enqueue lb_on_enqueue st (bs i) e = Some (st, bs i, -1)
  | S n' => exists st' b', list_enqueue lb_on_enqueue st (bs i) e = Some (st', b', 0) /\
      bucket_family ledger_ok lb_ok st' (<[i := b']> bs) (<[i := e :: cs i]> cs) n'
  end /\
  let k := Z.to_nat (bulk_quota burst (Z.of_nat (length (cs i)))) in
  exists st' b', list_dequeue lb_on_dequeue tt st (bs i) burst = Some (st', b', take k (cs i)) /\
    bucket_family ledger_ok lb_ok st' (<[i := b']> bs) (<[i := drop k (cs i)]> cs)
      (n + length (take k (cs i))).
Proof.
  intros F He Hb. split; [apply (family_empty (BucketLaws := ListBucket_laws) _ _ _ _ i F)|]. split.
  - pose proof (family_enqueue (BucketLaws := ListBucket_laws) st bs cs n i e F He) as P.
    destruct n; [exact P|]. destruct P as (st' & b' & ? & ? & _). eauto.
  - destruct (family_dequeue (BucketLaws := ListBucket_laws) tt st bs cs n i burst Hb F)
      as (st' & b' & ? & ? & _). eauto.
Qed.

(** C38. The accounting is exact: [pkts_num] of a flow is the sum of the lengths
    of its queued packets through every enqueue and dequeue, and a dequeue lets
    the flow send again exactly when fewer than [MAX_BYTES_PER_FLOW] of its
    bytes are left. *)
Theorem flow_accounting b x l e l' es es' :
  0 <= flow_id e -> exact l es ->
  (lb_on_enqueue b l e = Some l' -> queued_bytes l (e :: es) (flow_id e) < 2 ^ 64 ->
   exact l' (e :: es)) /\
  (lb_on_dequeue x b l e = Some l' -> es ≡ₚ e :: es' ->
   exact l' es' /\
   flow_to_gen l' = if queued_bytes l es' (flow_id e) <? MAX_BYTES_PER_FLOW b
                    then (Push (flow_id e) (flow_to_gen l)).2 else flow_to_gen l).
Proof.
  intros Hf Hx. split; intros; [by eapply exact_enqueue|by eapply exact_dequeue].
Qed.

(** The window of the rate estimator: whatever packets are reported, it
    never spans more than five buckets and its bounds stay ordered, so its
    length never wraps; and the slot of a key is always a slot of the table, so
    neither a lookup nor an update reads or writes outside it. *)
Theorem estimator_window us i m key bytes ts k :
  Forall (fun '(b, t, k) => 0 <= t < 2 ^ 64) us -> info_ok i ->
  (exists s, 0 <= s <= 31 /\ flow_num_ m = 2 ^ s) ->
  info_ok (update_all i us) /\
  0 <= map_slot m key < flow_num_ m /\
  map_get m key = (r ← to_u64 (rate (mbucket m (map_slot m key))); Some (r, map_slot m key)) /\
  UpdateRate m bytes ts (map_slot m key) k =
    Some (put_info m (map_slot m key) (update_info (mbucket m (map_slot m key)) bytes ts k)).
Proof.
  intros Hus Hi (s & Hs & Em). pose proof (pow2_mono s 31 ltac:(lia)). pose proof (pow2_pos s ltac:(lia)).
  assert (Hn : 0 <= map_slot m key < flow_num_ m).
  { unfold map_slot. rewrite Em, wrap_small, land_ones_mod by lia. apply Z.mod_pos_bound. lia. }
  split; [|split; [done|]].
  - clear -Hus Hi. revert i Hi. induction us as [|[[b t] k] us IH]; intros i Hi; simpl; [done|].
    apply Forall_cons in Hus as [Ht Hus]. apply IH; [done|]. by apply update_info_ok.
  - unfold map_get, UpdateRate, GetEstimateInfo. by rewrite option_guard_True by done.
Qed.

(** ** Witnesses *)

Definition demo_packets : gmap addr Packet :=
  <[1%positive := Pkt 1500 0 9]> (<[2%positive := Pkt 300 1 9]> ∅).

Definition demo_ledger : ledger :=
  Ledger demo_packets [0; 0] (CQ 4 0 0 0 (fun _ => 0)) (EMap 4 (fun _ => new_info)).

Lemma demo_ledger_ok : ledger_ok demo_ledger.
Proof.
  split.
  - intros [|[|i]] n Hn; simpl in Hn; simplify_eq; lia.
  - exists []. split; simpl; [exists 2; lia|lia|done|lia|done].
  - exists 2. simpl. lia.
Qed.

Lemma demo_family {I : Type} `{EqDecision I} : exists m p,
  new_pool (Node (PEntry 1%positive 0) None) 5 10%positive [11; 12]%positive ∅ = Some (m, p) /\
  bucket_family ledger_ok lb_ok (Shared m p demo_ledger) (fun _ : I => new_bucket 3000) (fun _ => []) 2.
Proof.
  destruct (new_pool_ok (Node (PEntry 1%positive 0) None) 5 10%positive [11; 12]%positive ∅)
    as (m & p & E & R & Eu & Hp).
  - apply (bool_decide_unpack _). reflexivity.
  - simpl. lia.
  - exists m, p. split; [done|].
    apply (family_new lb_on_enqueue lb_on_dequeue ledger_ok lb_ok lb_enqueue_ok lb_dequeue_ok
      m p [11; 12]%positive 3000 demo_ledger); try done.
    + apply (pool_nodup _ _ _ R).
    + apply demo_ledger_ok.
Qed.

Lemma list_bucket_stack_witness :
  exists st st' b', list_enqueue lb_on_enqueue st (new_bucket 3000) (PEntry 1%positive 0) = Some (st', b', 0).
Proof.
  destruct (demo_family (I := Z)) as (m & p & _ & F).
  destruct (list_bucket_stack _ _ _ _ 7 (PEntry 1%positive 0) 32 F) as (_ & (st' & b' & E & _) & _).
  - split; [by eexists|]. unfold flow_known. simpl. lia.
  - lia.
  - eauto.
Defined.

Lemma flow_accounting_witness : exists l',
  lb_on_enqueue (new_bucket 3000) demo_ledger (PEntry 1%positive 0) = Some l' /\
  exact l' [PEntry 1%positive 0].
Proof.
  eexists. split; [reflexivity|].
  apply (flow_accounting (new_bucket 3000) tt demo_ledger (PEntry 1%positive 0) _ [] []).
  - simpl. lia.
  - split.
    + intros a pk Hpk. simpl in Hpk. unfold demo_packets in Hpk.
      apply lookup_insert_Some in Hpk as [[_ <-]|[_ Hpk]]; [simpl; lia|].
      apply lookup_insert_Some in Hpk as [[_ <-]|[_ Hpk]]; [simpl; lia|done].
    + intros f n Hf Hn. unfold flow_bytes in Hn. rewrite option_guard_True in Hn by done. cbn [mbind option_bind] in Hn.
      change (pkts_num demo_ledger) with [0; 0] in Hn.
      destruct (Z.to_nat f) as [|[|k]]; simpl in Hn; simplify_eq; simpl; lia.
  - reflexivity.
  - reflexivity.
Defined.

Lemma estimator_window_witness :
  info_ok (update_all new_info [(1500, 10, 1); (1500, 20, 2)]) /\
  0 <= map_slot (EMap 4 (fun _ => new_info)) 77 < 4.
Proof.
  destruct (estimator_window [(1500, 10, 1); (1500, 20, 2)] new_info (EMap 4 (fun _ => new_info)) 77 1 1 1)
    as (H1 & H2 & _).
  - repeat constructor; lia.
  - split; [simpl; unfold estimate_interval; lia|left; done].
  - exists 2. simpl. lia.
  - split; [exact H1|exact H2].
Defined.
