(* ===== verification/Shapers.v ===== *)
(** * What the three user-space shapers share

    [modules/flowbundler.cc], [modules/eiffel.cc] and [modules/carousel.cc]
    stamp packets the same way, are configured with flows the same way and feed
    on the same packet generator ([utils/PacketGenerator.cc]).  Clock readings
    are arguments.  [None] is an index out of range or a division by zero. *)

From S2P Require Import Prelude Ring Pool Buckets Ledger.

Definition RATE_SCALE : Z := 1000000.
Definition DEFAULT_FLOW_RATE : Z := 200.

Record FlowInfo := Flow { last_stamp : Z; frate : Z }.

(** ** Stamping a packet *)

(** A flow without a rate gets the default one when its first packet comes. *)
Definition flow_ready (info : FlowInfo) (now : Z) : FlowInfo :=
  if frate info =? 0 then Flow now DEFAULT_FLOW_RATE else info.

(** [last_stamp + (pkt_bytes << 3) * RATE_SCALE / rate]. *)
Definition next_stamp (info : FlowInfo) (pkt_bytes : Z) : option Z :=
  guard (frate info <> 0);;
  Some (u64 (last_stamp info + u64 (u32 (Z.shiftl pkt_bytes 3) * RATE_SCALE) / frate info)).

(** The time one packet takes at the rate of the flow, in nanoseconds. *)
Definition packet_time (info : FlowInfo) (pkt_bytes : Z) : Z :=
  pkt_bytes * 8 * RATE_SCALE / frate info.

(** ** [AddFlow] *)

(** The argument: the rates of the flows, or their number and total rate. *)
Record AddArg := Add { flows : list Z; flow_num : Z; total_rate : Z }.

Definition add_flow_num (arg : AddArg) : Z :=
  if Z.of_nat (length (flows arg)) >? 0 then Z.of_nat (length (flows arg)) else flow_num arg.

(** [now] is the clock before the loop, [tick i] in its round [i]. *)
Definition add_flow_info (arg : AddArg) (now : Z) (tick : nat -> Z) : option (list FlowInfo) :=
  if Z.of_nat (length (flows arg)) >? 0 then Some (map (fun r => Flow now (u32 r)) (flows arg))
  else
    guard (flow_num arg <> 0);;
    Some (map (fun i => Flow (tick i) (u32 (total_rate arg / flow_num arg)))
              (seq 0 (Z.to_nat (flow_num arg)))).

(** The order in which the flows are first asked for packets. *)
Definition first_flows (max_bytes n : Z) : list Z :=
  mjoin (replicate (Z.to_nat (max_bytes / 1500)) (map Z.of_nat (seq 0 (Z.to_nat n)))).

(** [reset_rates] is whether the hash table is reset too, in FlowBundler. *)
Definition add_flow (reset_rates : bool) (max_bytes : Z) (arg : AddArg) (now : Z) (tick : nat -> Z)
    (l : ledger) : option (list FlowInfo * ledger) :=
  infos ← add_flow_info arg now tick;
  let n := add_flow_num arg in
  let ring := push_all (first_flows max_bytes n) (Reset (flow_to_gen l)) in
  let rates := if reset_rates then map_reset (aggregation_rates l) else aggregation_rates l in
  Some (infos, Ledger (packets l) (replicate (Z.to_nat n) 0) ring rates).

(** ** The packet generator

    Of a template only the IP addresses matter here; the template string is at
    least as long as the headers.  A template that was never filled has length
    0 and is [None]. *)

Record PacketGenerator := Gen {
  generate_burst_ : Z;
  generate_pkt_size_ : Z;
  templates_ : list (option (Z * Z))     (* source and destination *)
}.

(** The constructor, when the pool has a packet to build the templates in:
    [rand i] is the [i]th number drawn. *)
Definition new_generator (burst n flows_per_dst : Z) (rand : Z -> Z) : option PacketGenerator :=
  guard (0 <= n /\ flows_per_dst <> 0);;
  let filled := n / flows_per_dst * flows_per_dst in
  Some (Gen burst 1500
    (map (fun i => let f := Z.of_nat i in
                   if f <? filled then Some (f, rand (f / flows_per_dst)) else None)
         (seq 0 (Z.to_nat n)))).

Definition SetGenerateBurst (b : Z) (g : PacketGenerator) : PacketGenerator :=
  Gen b (generate_pkt_size_ g) (templates_ g).
Definition SetGenerateSize (s : Z) (g : PacketGenerator) : PacketGenerator :=
  Gen (generate_burst_ g) s (templates_ g).

(** How many packets [AllocPackets] asks the packet pool for. *)
Definition generate_num (g : PacketGenerator) (l : ledger) : Z :=
  if ElementsNum (flow_to_gen l) >? generate_burst_ g then generate_burst_ g
  else ElementsNum (flow_to_gen l).

(** [AllocPackets]: [alloc n] are the packets the pool gives, if it has [n]. *)
Definition AllocPackets (alloc : Z -> option (list addr)) (g : PacketGenerator) (l : ledger) :
    option (list addr) :=
  alloc (generate_num g l).

(** The packet [old] after a template has been copied over it. *)
Definition rewrite_packet (size : Z) (t : option (Z * Z)) (old : option Packet) : option Packet :=
  match t with
  | Some (src, dst) => Some (Pkt size src dst)
  | None => old ← old; Some (Pkt size (ip_src old) (ip_dst old))
  end.

(** [RewriteUsingSingleTemplate]: each packet becomes one of the next flow in
    the ring, whose number is its source address. *)
Fixpoint RewriteUsingSingleTemplate (g : PacketGenerator) (batch : list addr) (l : ledger) : option ledger :=
  match batch with
  | [] => Some l
  | a :: batch =>
      let '(pos, ring) := Pop 0 (flow_to_gen l) in
      guard (0 <= pos);;
      t ← templates_ g !! Z.to_nat pos;
      pkt ← rewrite_packet (generate_pkt_size_ g) t (packets l !! a);
      RewriteUsingSingleTemplate g batch
        (Ledger (<[a := pkt]> (packets l)) (pkts_num l) ring (aggregation_rates l))
  end.

(** ** The result of [RunTask] *)

Record task_result := Task { block : bool; tpackets : Z; bits : Z }.

Definition total_bytes (pk : gmap addr Packet) (batch : list addr) : Z :=
  foldr (fun a n => match pk !! a with Some p => total_len p | None => 0 end + n) 0 batch.

(** What is counted at the output port. *)
Record port_stats := Stats { st_packets : Z; st_dropped : Z; st_bytes : Z }.

Definition count_sent (pk : gmap addr Packet) (batch : list addr) (sent : nat) (s : port_stats) : port_stats :=
  Stats (st_packets s + Z.of_nat sent) (st_dropped s + (Z.of_nat (length batch) - Z.of_nat sent))
    (st_bytes s + total_bytes pk (take sent batch)).

(** * Lemmas *)

Lemma next_stamp_ok info bytes now :
  0 <= last_stamp info < 2 ^ 62 -> 0 < frate info < 2 ^ 32 -> 0 <= bytes < 2 ^ 16 ->
  next_stamp info bytes = Some (last_stamp info + packet_time info bytes) /\
  0 <= packet_time info bytes < 2 ^ 40 /\ flow_ready info now = info.
Proof.
  intros Hl Hr Hb. unfold next_stamp, packet_time, flow_ready.
  rewrite option_guard_True by lia. cbn [mbind option_bind].
  rewrite shiftl_pow2 by lia. change (2 ^ 3) with 8. unfold RATE_SCALE.
  rewrite (wrap_small 32), (wrap_small 64 (_ * _)) by lia.
  pose proof (div_mul_le (bytes * 8 * 1000000) (frate info) ltac:(lia)).
  assert (0 <= bytes * 8 * 1000000 / frate info) by (apply Z.div_pos; lia).
  assert (bytes * 8 * 1000000 / frate info <= bytes * 8 * 1000000) by (apply Z.div_le_upper_bound; nia).
  rewrite wrap_small by lia. split; [done|]. split; [lia|].
  destruct (Z.eqb_spec (frate info) 0); [lia|done].
Qed.

Lemma first_flows_in max_bytes n f : f ∈ first_flows max_bytes n -> 0 <= f < n.
Proof.
  unfold first_flows. rewrite list_elem_of_join. intros (l & Hf & Hl).
  apply elem_of_replicate in Hl as [-> _]. apply list_elem_of_In, in_map_iff in Hf as (i & <- & Hi).
  apply in_seq in Hi. lia.
Qed.

Lemma exact_empty l n :
  (forall a p, packets l !! a = Some p -> 0 <= total_len p) ->
  exact (Ledger (packets l) (replicate n 0) (flow_to_gen l) (aggregation_rates l)) [].
Proof.
  intros Hp. split; [done|]. intros f m Hf Hm. unfold flow_bytes in Hm.
  rewrite option_guard_True in Hm by done. cbn [mbind option_bind] in Hm.
  apply lookup_replicate in Hm as [-> _]. simpl. lia.
Qed.

(** * Properties *)

(** [AddFlow] starts the accounting afresh: no bytes are queued for any
    flow, every flow has its rate and is asked for packets round after round up
    to [MAX_BYTES_PER_FLOW], in the order of its number, as far as the ring has
    room, and only flows that exist are asked. *)
Theorem add_flow_fresh reset max_bytes arg now tick l fs :
  ledger_ok l -> ring_rep (flow_to_gen l) fs ->
  (forall a p, packets l !! a = Some p -> 0 <= total_len p) -> 0 < add_flow_num arg ->
  exists infos l', add_flow reset max_bytes arg now tick l = Some (infos, l') /\
    ledger_ok l' /\ exact l' [] /\ Z.of_nat (length infos) = add_flow_num arg /\
    ring_rep (flow_to_gen l')
      (take (Z.to_nat (size_ (flow_to_gen l) - 1)) (first_flows max_bytes (add_flow_num arg))) /\
    (forall f, f ∈ first_flows max_bytes (add_flow_num arg) -> flow_known l' f).
Proof.
  intros [Hn Hr (k & Hk & Em)] R Hp Hpos. unfold add_flow.
  assert (E : exists infos, add_flow_info arg now tick = Some infos /\
    Z.of_nat (length infos) = add_flow_num arg).
  { unfold add_flow_info, add_flow_num in *. destruct (Z.gtb_spec (Z.of_nat (length (flows arg))) 0).
    - eexists. split; [done|]. by rewrite length_map.
    - rewrite option_guard_True by lia. eexists. split; [reflexivity|]. rewrite length_map, length_seq. lia. }
  destruct E as (infos & -> & El). cbn [mbind option_bind].
  pose proof (push_all_rep (first_flows max_bytes (add_flow_num arg)) _ _ (ring_rep_reset _ _ R)) as R'.
  simpl in R'. rewrite Nat.sub_0_r in R'.
  eexists _, _. split; [reflexivity|]. split; [|split; [|split; [done|split; [exact R'|]]]].
  - split; simpl.
    + intros i m Hm. apply lookup_replicate in Hm as [-> _]. lia.
    + eauto.
    + exists k. split; [done|]. by destruct reset.
  - destruct (exact_empty l (Z.to_nat (add_flow_num arg)) Hp) as [? H]. split; [done|]. exact H.
  - intros f Hf. apply first_flows_in in Hf. unfold flow_known. simpl. rewrite length_replicate. lia.
Qed.

Lemma add_flow_fresh_witness : exists infos l',
  add_flow true 3000 (Add [100; 200] 0 0) 50 (fun _ => 0) demo_ledger = Some (infos, l') /\
  Z.of_nat (length infos) = 2.
Proof.
  destruct (add_flow_fresh true 3000 (Add [100; 200] 0 0) 50 (fun _ => 0) demo_ledger [] demo_ledger_ok)
    as (infos & l' & E & _ & _ & El & _).
  - split; simpl; [exists 2; lia|lia|done|lia|done].
  - intros a pk Hpk. simpl in Hpk. unfold demo_packets in Hpk.
    apply lookup_insert_Some in Hpk as [[_ <-]|[_ Hpk]]; [simpl; lia|].
    apply lookup_insert_Some in Hpk as [[_ <-]|[_ Hpk]]; [simpl; lia|done].
  - reflexivity.
  - exists infos, l'. split; [exact E|exact El].
Defined.
