(* ===== verification/BitMaps.v ===== *)
(** * The hierarchical bitmap of [bess/core/utils/flow.h]

    [struct BitMap] is a tree of 64-bit words, layer [i] of which has [64^i]: a
    bit of the last layer stands for a slot, and a bit of any other layer says
    whether the word below it has a bit set.  [SetBitMap] and [FreeBitMap] keep
    the layers in step, and the search of [ffs] in [modules/eiffel.cc] follows
    first set bits from the root.  [None] is a word out of range. *)

From S2P Require Import Prelude.

(** [bit_map i k] is word [k] of layer [i]. *)
Record BitMap := BMap { n_layers : nat; bit_map : Z -> Z -> Z }.

(** The body of [while (slots > tmp)]; [tmp] is a word. *)
Definition layers_step (slots : Z) (st : Z * nat) : (Z * nat) + nat :=
  let '(tmp, n) := st in
  if slots >? tmp then inl (u64 (tmp * 64), S n) else inr n.

(** The constructor; [None] is a loop that does not end. *)
Definition new_bitmap (slots : Z) : option BitMap :=
  match iter_until 64 (layers_step slots) (1, O) with
  | inr n => Some (BMap (if slots =? 1 then S n else n) (fun _ _ => 0))
  | inl _ => None
  end.

(** The word and the bit of position [layer_seq], as both functions find them. *)
Definition word_of (layer_seq : Z) : Z :=
  let next := u64 (layer_seq + 1) in
  if Z.land next 63 =? 0 then u64 (Z.shiftr next 6 - 1) else Z.shiftr next 6.
Definition bit_of (layer_seq : Z) : Z :=
  let tail := Z.land (u64 (layer_seq + 1)) 63 in
  if tail =? 0 then 63 else tail - 1.

Definition write (bm : Z -> Z -> Z) (i k v : Z) : Z -> Z -> Z := <[i := <[k := v]> (bm i)]> bm.

(** The loop of [SetBitMap] over the layers [n-1], ..., [0]. *)
Fixpoint set_layers (n : nat) (bm : Z -> Z -> Z) (layer_seq : Z) : option (Z -> Z -> Z) :=
  match n with
  | O => Some bm
  | S i =>
      let k := word_of layer_seq in
      let seq := bit_of layer_seq in
      guard (0 <= k < 64 ^ Z.of_nat i);;
      let w := bm (Z.of_nat i) k in
      let bm' := write bm (Z.of_nat i) k (Z.lor w (Z.shiftl 1 seq)) in
      if w =? 0 then set_layers i bm' k else Some bm'
  end.

Definition SetBitMap (index : Z) (map : BitMap) : option BitMap :=
  bm ← set_layers (n_layers map) (bit_map map) index; Some (BMap (n_layers map) bm).

(** The loop of [FreeBitMap]. *)
Fixpoint free_layers (n : nat) (bm : Z -> Z -> Z) (layer_seq : Z) : option (Z -> Z -> Z) :=
  match n with
  | O => Some bm
  | S i =>
      let k := word_of layer_seq in
      let seq := bit_of layer_seq in
      guard (0 <= k < 64 ^ Z.of_nat i);;
      let w := clear_bit (bm (Z.of_nat i) k) seq in
      let bm' := write bm (Z.of_nat i) k w in
      if negb (w =? 0) then Some bm' else free_layers i bm' k
  end.

Definition FreeBitMap (index : Z) (map : BitMap) : option BitMap :=
  bm ← free_layers (n_layers map) (bit_map map) index; Some (BMap (n_layers map) bm).

(** The loop of [ffs] over the layers [i], ..., [i + n - 1]. *)
Fixpoint ffs_layers (n : nat) (i : Z) (bm : Z -> Z -> Z) (seq count : Z) : option (Z * Z) :=
  match n with
  | O => Some (seq, count)
  | S n =>
      let count := u64 (seq - 1 + Z.shiftl count 6) in
      guard (0 <= count < 64 ^ i);;
      ffs_layers n (i + 1) bm (builtin_ffsll (bm i count)) count
  end.

(** The search of one map: [Some (-1)] when its root is empty. *)
Definition ffs_map (map : BitMap) : option Z :=
  guard (0 < Z.of_nat (n_layers map));;
  let root := bit_map map 0 0 in
  if root =? 0 then Some (-1)
  else
    '(seq, count) ← ffs_layers (n_layers map - 1) 1 (bit_map map) (builtin_ffsll root) 0;
    Some (to_signed 64 (seq - 1 + Z.shiftl count 6)).

(** * The set of slots a map stands for *)

(** Bit [x] of layer [i], counted over the whole layer. *)
Definition bit (bm : Z -> Z -> Z) (i x : Z) : bool := Z.testbit (bm i (x / 64)) (x mod 64).

Definition words_ok (n : Z) (bm : Z -> Z -> Z) : Prop :=
  forall i k, 0 <= i < n -> 0 <= k < 64 ^ i -> 0 <= bm i k < 2 ^ 64.

(** Bit [x] of layer [i] agrees with word [x] of the layer below. *)
Definition in_step (bm : Z -> Z -> Z) (i x : Z) : Prop := bit bm i x = negb (bm (i + 1) x =? 0).

Record bitmap_ok (map : BitMap) : Prop := {
  bitmap_layers : (0 < n_layers map <= 10)%nat;
  bitmap_words : words_ok (Z.of_nat (n_layers map)) (bit_map map);
  bitmap_steps : forall i x, 0 <= i -> i + 1 < Z.of_nat (n_layers map) -> 0 <= x < 64 ^ (i + 1) ->
    in_step (bit_map map) i x
}.

Definition slots_of (map : BitMap) : Z := 64 ^ Z.of_nat (n_layers map).

(** Whether slot [x] is set. *)
Definition slot (map : BitMap) (x : Z) : bool := bit (bit_map map) (Z.of_nat (n_layers map) - 1) x.

(** * Lemmas *)

Lemma word_of_div x : 0 <= x < 2 ^ 64 - 1 -> word_of x = x / 64.
Proof.
  intros Hx. unfold word_of. rewrite wrap_small by lia. change 63 with (2 ^ 6 - 1).
  rewrite land_ones_mod by lia. rewrite shiftr_pow2 by lia. change (2 ^ 6) with 64.
  destruct (Z.eqb_spec ((x + 1) mod 64) 0); [rewrite wrap_small|]; dlia.
Qed.

Lemma bit_of_mod x : 0 <= x < 2 ^ 64 - 1 -> bit_of x = x mod 64.
Proof.
  intros Hx. unfold bit_of. rewrite wrap_small by lia.
  assert (E : Z.land (x + 1) 63 = (x + 1) mod 64) by (change 63 with (2 ^ 6 - 1); apply land_ones_mod; lia).
  rewrite E. destruct (Z.eqb_spec ((x + 1) mod 64) 0); dlia.
Qed.

Lemma write_lookup bm i k v i' k' :
  write bm i k v i' k' = if decide (i' = i /\ k' = k) then v else bm i' k'.
Proof.
  unfold write. case_decide as Hd.
  - destruct Hd as [-> ->]. by rewrite !fn_insert_eq.
  - destruct (decide (i = i')) as [<-|]; [|by rewrite fn_insert_ne].
    rewrite fn_insert_eq. destruct (decide (k = k')) as [<-|]; [naive_solver|by rewrite fn_insert_ne].
Qed.

Lemma words_write n bm i k v : words_ok n bm -> 0 <= v < 2 ^ 64 -> words_ok n (write bm i k v).
Proof. intros H Hv i' k' Hi Hk. rewrite write_lookup. case_decide; auto. Qed.

Lemma pow64_split i x : 0 <= i -> 0 <= x < 64 ^ (i + 1) -> 0 <= x / 64 < 64 ^ i.
Proof. intros Hi Hx. rewrite Z.pow_add_r in Hx by lia. change (64 ^ 1) with 64 in Hx. dlia. Qed.

Lemma pow64_word i x : 0 <= x < 64 ^ (i + 1) -> 0 <= i -> i + 1 <= 10 -> 0 <= x < 2 ^ 64 - 1.
Proof.
  intros Hx Hi Hi'. assert (64 ^ (i + 1) <= 64 ^ 10) by (apply Z.pow_le_mono_r; lia). lia.
Qed.

(** A word is zero exactly when none of its bits is set. *)
Lemma word_zero w : 0 <= w < 2 ^ 64 -> (w = 0 <-> forall j, 0 <= j < 64 -> Z.testbit w j = false).
Proof.
  intros Hw. split; [intros -> j _; apply Z.testbit_0_l|].
  intros Hj. destruct (decide (w = 0)) as [|Hne]; [done|].
  pose proof (testbit_ctz w ltac:(lia)) as Ht. pose proof (ctz_nonneg w). pose proof (ctz_lt w 64 ltac:(lia)).
  rewrite Hj in Ht by lia. done.
Qed.

(** Writing the word of position [x] of layer [i] changes its bit only. *)
Lemma bit_write bm i x f b :
  (forall j, 0 <= j < 64 -> Z.testbit f j = if decide (j = x mod 64) then b else Z.testbit (bm i (x / 64)) j) ->
  forall i' y, bit (write bm i (x / 64) f) i' y =
    if decide (i' = i /\ y = x) then b else bit bm i' y.
Proof.
  intros Hf i' y. unfold bit. rewrite write_lookup.
  destruct (decide (i' = i /\ y / 64 = x / 64)) as [[-> E]|Hn].
  - rewrite Hf by dlia. rewrite E. destruct (decide (y mod 64 = x mod 64)) as [E'|E'].
    + rewrite decide_True; [done|]. split; [done|]. dlia.
    + rewrite decide_False; [done|]. intros [_ ->]. done.
  - rewrite decide_False; [done|]. intros [-> ->]. naive_solver.
Qed.

Lemma set_bits w s j :
  0 <= s < 64 -> 0 <= j < 64 ->
  Z.testbit (Z.lor w (Z.shiftl 1 s)) j = if decide (j = s) then true else Z.testbit w j.
Proof.
  intros Hs Hj. rewrite bitmap_set by lia.
  case_decide; subst; [rewrite Z.eqb_refl; apply orb_true_r|].
  destruct (Z.eqb_spec s j); [lia|apply orb_false_r].
Qed.

Lemma clear_bits w s j :
  0 <= s < 64 -> 0 <= j < 64 ->
  Z.testbit (clear_bit w s) j = if decide (j = s) then false else Z.testbit w j.
Proof.
  intros Hs Hj. rewrite clear_bit_spec by lia.
  case_decide; subst; [rewrite Z.eqb_refl; apply andb_false_r|].
  destruct (Z.eqb_spec s j); [lia|apply andb_true_r].
Qed.

(** All the layers below [n] agree, except perhaps at bit [x] of layer [h]. *)
Definition steps_but (n : Z) (bm : Z -> Z -> Z) (h x : Z) : Prop :=
  forall i y, 0 <= i -> i + 1 < n -> 0 <= y < 64 ^ (i + 1) -> (i <> h \/ y <> x) -> in_step bm i y.

Definition steps (n : Z) (bm : Z -> Z -> Z) : Prop :=
  forall i y, 0 <= i -> i + 1 < n -> 0 <= y < 64 ^ (i + 1) -> in_step bm i y.

(** After the bit of layer [h] at [x] has been put right, only the bit above the
    word that holds it may be wrong. *)
Lemma steps_up n bm h x f b :
  (forall j, 0 <= j < 64 -> Z.testbit f j = if decide (j = x mod 64) then b else Z.testbit (bm h (x / 64)) j) ->
  steps_but n bm h x -> (h + 1 < n -> b = negb (bm (h + 1) x =? 0)) ->
  steps_but n (write bm h (x / 64) f) (h - 1) (x / 64).
Proof.
  intros Hf Hs Hb i y Hi Hn Hy Hne. unfold in_step. rewrite (bit_write _ _ _ _ _ Hf), write_lookup.
  rewrite (decide_False (P := i + 1 = h /\ y = x / 64)) by lia.
  case_decide as Hd.
  - destruct Hd as [-> ->]. rewrite <- Hb by lia. done.
  - apply Hs; try done. lia.
Qed.

Lemma steps_close n bm h x :
  steps_but n bm h x -> (0 <= h -> h + 1 < n -> 0 <= x < 64 ^ (h + 1) -> in_step bm h x) -> steps n bm.
Proof.
  intros Hs Hx i y Hi Hn Hy. destruct (decide (i = h /\ y = x)) as [[-> ->]|]; [by apply Hx|].
  apply Hs; try done. lia.
Qed.

Section loops.
Context (n : Z) (Hn : n <= 10).

(** What both loops achieve from layer [i] up: the bit at [x] becomes [b], the
    layers agree again, and the layers below are not touched. *)
Definition fixed (i : nat) (bm : Z -> Z -> Z) (x : Z) (b : bool) (bm' : Z -> Z -> Z) : Prop :=
  words_ok n bm' /\ steps n bm' /\
  (forall y, bit bm' (Z.of_nat i) y = if decide (y = x) then b else bit bm (Z.of_nat i) y) /\
  (forall j k, Z.of_nat i < j -> bm' j k = bm j k).

Lemma layers_common i bm x b f :
  (forall j, 0 <= j < 64 ->
     Z.testbit f j = if decide (j = x mod 64) then b else Z.testbit (bm (Z.of_nat i) (x / 64)) j) ->
  Z.of_nat i < n -> 0 <= x < 64 ^ (Z.of_nat i + 1) -> 0 <= f < 2 ^ 64 ->
  words_ok n bm -> steps_but n bm (Z.of_nat i) x ->
  (Z.of_nat i + 1 < n -> b = negb (bm (Z.of_nat i + 1) x =? 0)) ->
  let bm1 := write bm (Z.of_nat i) (x / 64) f in
  (i = O \/ (f =? 0) = (bm (Z.of_nat i) (x / 64) =? 0) -> fixed i bm x b bm1) /\
  (forall i' bm', S i' = i -> fixed i' bm1 (x / 64) (negb (f =? 0)) bm' -> fixed i bm x b bm').
Proof.
  intros Hf Hi Hx Hr Hw Hs Hb bm1. pose proof (pow64_split (Z.of_nat i) x ltac:(lia) Hx) as Hk.
  pose proof (steps_up _ _ _ _ _ _ Hf Hs Hb) as Hs1. fold bm1 in Hs1.
  assert (Hbit : forall y, bit bm1 (Z.of_nat i) y = if decide (y = x) then b else bit bm (Z.of_nat i) y).
  { intros y. unfold bm1. rewrite (bit_write _ _ _ _ _ Hf).
    destruct (decide (y = x)) as [->|]; [by rewrite decide_True|rewrite decide_False; naive_solver]. }
  split.
  - intros Ez. split; [by apply words_write|]. split; [|split; [done|]].
    + eapply steps_close; [exact Hs1|]. intros Hh Hh' Hxx. unfold in_step.
      destruct Ez as [->|Ez]; [lia|].
      replace (Z.of_nat i - 1 + 1) with (Z.of_nat i) in * by lia.
      assert (E1 : bm1 (Z.of_nat i) (x / 64) = f).
      { unfold bm1. rewrite write_lookup. by rewrite decide_True. }
      rewrite E1, Ez. unfold bm1. rewrite (bit_write _ _ _ _ _ Hf), decide_False by lia.
      specialize (Hs (Z.of_nat i - 1) (x / 64) ltac:(lia) ltac:(lia)).
      replace (Z.of_nat i - 1 + 1) with (Z.of_nat i) in Hs by lia. unfold in_step in Hs.
      replace (Z.of_nat i - 1 + 1) with (Z.of_nat i) in Hs by lia. apply Hs; lia.
    + intros j k Hj. unfold bm1. rewrite write_lookup, decide_False by lia. done.
  - intros i' bm' <- (Hw' & Hs' & Hb' & Hold). split; [done|]. split; [done|]. split.
    + intros y. unfold bit at 1. rewrite Hold by lia. apply Hbit.
    + intros j k Hj. rewrite Hold by lia. unfold bm1. rewrite write_lookup, decide_False by lia. done.
Qed.

Lemma word_clear f w s :
  0 <= w < 2 ^ 64 -> 0 <= s < 64 -> f = clear_bit w s -> f <> 0 -> w <> 0.
Proof. intros Hw Hs -> Hf ->. by apply Hf. Qed.

Lemma set_layers_ok i : forall bm x,
  Z.of_nat i < n -> 0 <= x < 64 ^ (Z.of_nat i + 1) -> words_ok n bm -> steps_but n bm (Z.of_nat i) x ->
  (Z.of_nat i + 1 < n -> bm (Z.of_nat i + 1) x <> 0) ->
  exists bm', set_layers (S i) bm x = Some bm' /\ fixed i bm x true bm'.
Proof.
  induction i as [|i IH]; intros bm x Hi Hx Hw Hs Hne;
    pose proof (pow64_split _ x (Zle_0_nat _) Hx) as Hk;
    pose proof (pow64_word _ x Hx ltac:(lia) ltac:(lia)) as H64;
    cbn [set_layers]; rewrite word_of_div, bit_of_mod by done; rewrite option_guard_True by done;
    cbn [mbind option_bind];
    match goal with |- context [write bm (Z.of_nat ?j) _ ?f] =>
      destruct (layers_common j bm x true f) as [Hstop Hgo] end;
    try done; try (intros; apply set_bits; dlia);
    try (apply bitmap_set_range; [apply Hw; lia|dlia]);
    try (intros H; symmetry; apply negb_true_iff, Z.eqb_neq, Hne, H).
  - eexists. split; [|apply Hstop; by left]. by case_match.
  - set (w := bm (Z.of_nat (S i)) (x / 64)) in *. set (f := Z.lor w _) in *.
    assert (Hf : f <> 0).
    { intros E. pose proof (set_bits w (x mod 64) (x mod 64) ltac:(dlia) ltac:(dlia)) as Ht.
      fold f in Ht. rewrite E, Z.testbit_0_l, decide_True in Ht; done. }
    destruct (Z.eqb_spec w 0) as [E|E].
    + destruct (IH (write bm (Z.of_nat (S i)) (x / 64) f) (x / 64)) as (bm' & Eq & Hfix).
      * lia.
      * by replace (Z.of_nat i + 1) with (Z.of_nat (S i)) by lia.
      * apply words_write; [done|]. apply bitmap_set_range; [apply Hw; lia|dlia].
      * replace (Z.of_nat i) with (Z.of_nat (S i) - 1) by lia. apply steps_up with (b := true); [|done|].
        -- intros j Hj. apply set_bits; dlia.
        -- intros H. symmetry. apply negb_true_iff, Z.eqb_neq, Hne, H.
      * intros _. rewrite write_lookup, decide_True by lia. done.
      * exists bm'. split; [exact Eq|]. apply (Hgo i); [done|].
        destruct (Z.eqb_spec f 0); [done|exact Hfix].
    + eexists. split; [reflexivity|]. apply Hstop. right.
      destruct (Z.eqb_spec f 0), (Z.eqb_spec w 0); done.
Qed.

Lemma free_layers_ok i : forall bm x,
  Z.of_nat i < n -> 0 <= x < 64 ^ (Z.of_nat i + 1) -> words_ok n bm -> steps_but n bm (Z.of_nat i) x ->
  (Z.of_nat i + 1 < n -> bm (Z.of_nat i + 1) x = 0) ->
  exists bm', free_layers (S i) bm x = Some bm' /\ fixed i bm x false bm'.
Proof.
  induction i as [|i IH]; intros bm x Hi Hx Hw Hs Hz;
    pose proof (pow64_split _ x (Zle_0_nat _) Hx) as Hk;
    pose proof (pow64_word _ x Hx ltac:(lia) ltac:(lia)) as H64;
    cbn [free_layers]; rewrite word_of_div, bit_of_mod by done; rewrite option_guard_True by done;
    cbn [mbind option_bind];
    match goal with |- context [write bm (Z.of_nat ?j) _ ?f] =>
      destruct (layers_common j bm x false f) as [Hstop Hgo] end;
    try done; try (intros; apply clear_bits; dlia);
    try (apply clear_bit_range; apply Hw; lia);
    try (intros H; by rewrite (Hz H)).
  - eexists. split; [|apply Hstop; by left]. by case_match.
  - set (w := bm (Z.of_nat (S i)) (x / 64)) in *. set (f := clear_bit w _) in *.
    destruct (Z.eqb_spec f 0) as [E|E]; cbn [negb].
    + destruct (IH (write bm (Z.of_nat (S i)) (x / 64) f) (x / 64)) as (bm' & Eq & Hfix).
      * lia.
      * by replace (Z.of_nat i + 1) with (Z.of_nat (S i)) by lia.
      * apply words_write; [done|]. apply clear_bit_range, Hw; lia.
      * replace (Z.of_nat i) with (Z.of_nat (S i) - 1) by lia. apply steps_up with (b := false); [|done|].
        -- intros j Hj. apply clear_bits; dlia.
        -- intros H. by rewrite (Hz H).
      * intros _. rewrite write_lookup, decide_True by lia. done.
      * exists bm'. split; [exact Eq|]. by apply (Hgo i).
    + eexists. split; [reflexivity|]. apply Hstop. right.
      pose proof (word_clear f w (x mod 64) ltac:(apply Hw; lia) ltac:(dlia) eq_refl E).
      destruct (Z.eqb_spec w 0); done.
Qed.

End loops.

Lemma set_ok map x :
  bitmap_ok map -> 0 <= x < slots_of map ->
  exists map', SetBitMap x map = Some map' /\ bitmap_ok map' /\ n_layers map' = n_layers map /\
    forall y, slot map' y = if decide (y = x) then true else slot map y.
Proof.
  intros [Hl Hw Hs] Hx. unfold SetBitMap, slots_of, slot in *. destruct map as [[|i] bm]; simpl n_layers in *; [lia|].
  replace (Z.of_nat (S i)) with (Z.of_nat i + 1) in * by lia.
  destruct (set_layers_ok (Z.of_nat i + 1) ltac:(lia) i bm x) as (bm' & E & Hw' & Hs' & Hb & _);
    [lia|done|done|intros j y Hj Hj' Hy _; by apply Hs|lia|].
  exists (BMap (S i) bm'). simpl bit_map. rewrite E. split; [done|]. split; [|split; [done|]].
  - split; simpl n_layers; simpl bit_map; [lia|..];
      replace (Z.of_nat (S i)) with (Z.of_nat i + 1) by lia; done.
  - intros y. simpl n_layers. simpl bit_map. replace (Z.of_nat (S i) - 1) with (Z.of_nat i) by lia.
    replace (Z.of_nat i + 1 - 1) with (Z.of_nat i) by lia. apply Hb.
Qed.

Lemma free_ok map x :
  bitmap_ok map -> 0 <= x < slots_of map ->
  exists map', FreeBitMap x map = Some map' /\ bitmap_ok map' /\ n_layers map' = n_layers map /\
    forall y, slot map' y = if decide (y = x) then false else slot map y.
Proof.
  intros [Hl Hw Hs] Hx. unfold FreeBitMap, slots_of, slot in *. destruct map as [[|i] bm]; simpl n_layers in *; [lia|].
  replace (Z.of_nat (S i)) with (Z.of_nat i + 1) in * by lia.
  destruct (free_layers_ok (Z.of_nat i + 1) ltac:(lia) i bm x) as (bm' & E & Hw' & Hs' & Hb & _);
    [lia|done|done|intros j y Hj Hj' Hy _; by apply Hs|lia|].
  exists (BMap (S i) bm'). simpl bit_map. rewrite E. split; [done|]. split; [|split; [done|]].
  - split; simpl n_layers; simpl bit_map; [lia|..];
      replace (Z.of_nat (S i)) with (Z.of_nat i + 1) by lia; done.
  - intros y. simpl n_layers. simpl bit_map. replace (Z.of_nat (S i) - 1) with (Z.of_nat i) by lia.
    replace (Z.of_nat i + 1 - 1) with (Z.of_nat i) by lia. apply Hb.
Qed.

(** ** Searching *)

(** [p] is the first set bit of layer [i]. *)
Definition first_bit (bm : Z -> Z -> Z) (i p : Z) : Prop :=
  0 <= p < 64 ^ (i + 1) /\ bit bm i p = true /\ forall y, 0 <= y < p -> bit bm i y = false.

Lemma first_in_word bm n i k :
  words_ok n bm -> 0 <= i < n -> 0 <= k < 64 ^ i -> bm i k <> 0 ->
  (forall k', 0 <= k' < k -> bm i k' = 0) ->
  first_bit bm i (k * 64 + ctz (bm i k)).
Proof.
  intros Hw Hi Hk Hne Hlow. pose proof (Hw i k Hi Hk) as Hwk. pose proof (ctz_nonneg (bm i k)).
  pose proof (ctz_lt (bm i k) 64 ltac:(lia)).
  assert (Ed : (k * 64 + ctz (bm i k)) / 64 = k) by dlia.
  assert (Em : (k * 64 + ctz (bm i k)) mod 64 = ctz (bm i k)) by dlia.
  split; [rewrite Z.pow_add_r by lia; change (64 ^ 1) with 64; lia|]. split.
  - unfold bit. rewrite Ed, Em. apply testbit_ctz. lia.
  - intros y Hy. unfold bit. destruct (Z.lt_ge_cases (y / 64) k) as [Hlt|Hge].
    + rewrite Hlow by dlia. apply Z.testbit_0_l.
    + assert (y / 64 = k) as -> by dlia. apply testbit_below_ctz; [lia|]. dlia.
Qed.

Lemma ffs_layers_ok m n bm : forall i seq count,
  words_ok n bm -> steps n bm -> n <= 10 -> 0 < i -> i + Z.of_nat m = n -> 0 <= count ->
  first_bit bm (i - 1) (count * 64 + (seq - 1)) ->
  exists seq' count', ffs_layers m i bm seq count = Some (seq', count') /\ 0 <= count' /\
    first_bit bm (n - 1) (count' * 64 + (seq' - 1)).
Proof.
  induction m as [|m IH]; intros i seq count Hw Hs Hn Hi Em Hc Hf; cbn [ffs_layers].
  - exists seq, count. replace (n - 1) with (i - 1) by lia. done.
  - pose proof Hf as (Hp & Hb & Hlow). replace (i - 1 + 1) with i in Hp by lia.
    assert (E : u64 (seq - 1 + Z.shiftl count 6) = count * 64 + (seq - 1)).
    { rewrite shiftl_pow2 by lia. change (2 ^ 6) with 64.
      pose proof (Z.pow_le_mono_r 64 i 10 ltac:(lia) ltac:(lia)). rewrite wrap_small; lia. }
    rewrite E. set (p := count * 64 + (seq - 1)) in *. rewrite option_guard_True by done.
    cbn [mbind option_bind].
    assert (Hstep : forall y, 0 <= y < 64 ^ i -> bit bm (i - 1) y = negb (bm i y =? 0)).
    { intros y Hy. specialize (Hs (i - 1) y ltac:(lia) ltac:(lia)).
      replace (i - 1 + 1) with i in Hs by lia. unfold in_step in Hs.
      replace (i - 1 + 1) with i in Hs by lia. by apply Hs. }
    assert (Hne : bm i p <> 0).
    { rewrite Hstep in Hb by done. by destruct (Z.eqb_spec (bm i p) 0). }
    assert (Hz : forall k, 0 <= k < p -> bm i k = 0).
    { intros k Hk. specialize (Hlow k Hk). rewrite Hstep in Hlow by lia.
      by destruct (Z.eqb_spec (bm i k) 0). }
    pose proof (Hw i p ltac:(lia) Hp). rewrite builtin_ffsll_pos by lia.
    apply IH; try done; try lia.
    replace (i + 1 - 1) with i by lia. replace (ctz (bm i p) + 1 - 1) with (ctz (bm i p)) by lia.
    apply (first_in_word bm n); [done|lia|done|done|done].
Qed.

Lemma root_zero n bm : words_ok n bm -> steps n bm -> 0 < n -> bm 0 0 = 0 ->
  forall i, 0 <= i < n -> forall y, 0 <= y < 64 ^ (i + 1) -> bit bm i y = false.
Proof.
  intros Hw Hs Hn H0 i Hi. assert (H0i : 0 <= i) by lia. revert Hi. pattern i.
  apply natlike_ind; [| |done].
  - intros _ y Hy. unfold bit. assert (y / 64 = 0) as -> by (simpl in Hy; dlia). rewrite H0. apply Z.testbit_0_l.
  - intros j Hj IH Hi y Hy. unfold bit. assert (E : bm (Z.succ j) (y / 64) = 0).
    { pose proof (pow64_split (Z.succ j) y ltac:(lia) Hy) as Hk.
      specialize (Hs j (y / 64) Hj ltac:(lia)). unfold in_step in Hs. rewrite Z.add_1_r in Hs.
      rewrite IH in Hs by (try lia; by rewrite Z.add_1_r).
      specialize (Hs Hk). by destruct (Z.eqb_spec (bm (Z.succ j) (y / 64)) 0). }
    rewrite E. apply Z.testbit_0_l.
Qed.

Lemma ffs_map_ok map :
  bitmap_ok map ->
  if bit_map map 0 0 =? 0
  then ffs_map map = Some (-1) /\ forall y, 0 <= y < slots_of map -> slot map y = false
  else exists r, ffs_map map = Some r /\ 0 <= r < slots_of map /\ slot map r = true /\
    forall y, 0 <= y < r -> slot map y = false.
Proof.
  intros [Hl Hw Hs]. unfold ffs_map, slot, slots_of. rewrite option_guard_True by lia. cbn [mbind option_bind].
  set (n := Z.of_nat (n_layers map)) in *. destruct (Z.eqb_spec (bit_map map 0 0) 0) as [E|E].
  - split; [done|]. intros y Hy.
    apply (root_zero n); try done; [lia..|]. by replace (n - 1 + 1) with n by lia.
  - pose proof (Hw 0 0 ltac:(lia) ltac:(simpl; lia)) as H0. rewrite builtin_ffsll_pos by lia.
    destruct (ffs_layers_ok (n_layers map - 1) n (bit_map map) 1 (ctz (bit_map map 0 0) + 1) 0)
      as (seq & count & Eq & Hc & Hf); try done; try lia.
    { replace (ctz (bit_map map 0 0) + 1 - 1) with (ctz (bit_map map 0 0)) by lia.
      apply (first_in_word (bit_map map) n 0 0); try done; try lia. }
    rewrite Eq. cbn [mbind option_bind]. eexists. split; [reflexivity|].
    destruct Hf as (Hp & Hb & Hlow). replace (n - 1 + 1) with n in Hp by lia.
    assert (E1 : to_signed 64 (seq - 1 + Z.shiftl count 6) = count * 64 + (seq - 1)).
    { rewrite shiftl_pow2 by lia. change (2 ^ 6) with 64.
      pose proof (Z.pow_le_mono_r 64 n 10 ltac:(lia) ltac:(lia)). unfold to_signed.
      rewrite wrap_small by lia. destruct (Z.ltb_spec (seq - 1 + count * 64) (2 ^ (64 - 1))); lia. }
    rewrite E1. done.
Qed.

(** ** The constructor *)

Lemma new_bitmap_ok slots :
  0 < slots <= 64 ^ 10 ->
  exists map, new_bitmap slots = Some map /\ bitmap_ok map /\ slots <= slots_of map /\
    forall y, slot map y = false.
Proof.
  intros Hs. unfold new_bitmap.
  destruct (iter_until_total
    (fun '(tmp, n) => (n <= 10)%nat /\ tmp = 64 ^ Z.of_nat n)
    (fun n => (n <= 10)%nat /\ slots <= 64 ^ Z.of_nat n)
    (fun '(tmp, n) => 10 - Z.of_nat n) 64 (layers_step slots) (1, O)) as (n & E & Hn & Hle).
  - intros [tmp n] [Hn ->]. unfold layers_step. destruct (Z.gtb_spec slots (64 ^ Z.of_nat n)) as [Hgt|Hle].
    + assert (n < 10)%nat.
      { apply Nat2Z.inj_lt. apply (Z.pow_lt_mono_r_iff 64); lia. }
      pose proof (Z.pow_le_mono_r 64 (Z.of_nat n) 9 ltac:(lia) ltac:(lia)).
      pose proof (Z.pow_pos_nonneg 64 (Z.of_nat n) ltac:(lia) ltac:(lia)).
      split; [|lia]. split; [lia|].
      rewrite wrap_small by lia. rewrite Nat2Z.inj_succ, Z.pow_succ_r by lia. lia.
    + done.
  - split; [lia|done].
  - simpl. lia.
  - rewrite E. set (m := if slots =? 1 then S n else n).
    assert (Hm : (0 < m <= 10)%nat /\ slots <= 64 ^ Z.of_nat m).
    { unfold m. destruct (Z.eqb_spec slots 1) as [->|Hne].
      - assert (n = O) as ->; [|simpl; lia].
        unfold iter_until in E. vm_compute in E. by simplify_eq.
      - split; [|done]. split; [|done]. destruct n; [simpl in Hle; lia|lia]. }
    destruct Hm as [Hm1 Hm2]. eexists. split; [reflexivity|]. split; [|split; [done|]].
    + split; simpl; [done| |].
      * intros i k _ _. lia.
      * intros i x _ _ _. unfold in_step, bit. by rewrite Z.testbit_0_l.
    + intros y. unfold slot, bit. simpl. apply Z.testbit_0_l.
Qed.

(** * Properties *)

(** C35. The bitmap is a set of slots: setting or freeing a slot changes that
    slot only and keeps every layer in step with the one below it, on every path
    through the early exits. *)
Theorem bitmap_set_free map x :
  bitmap_ok map -> 0 <= x < slots_of map ->
  (exists map', SetBitMap x map = Some map' /\ bitmap_ok map' /\ n_layers map' = n_layers map /\
    forall y, slot map' y = if decide (y = x) then true else slot map y) /\
  (exists map', FreeBitMap x map = Some map' /\ bitmap_ok map' /\ n_layers map' = n_layers map /\
    forall y, slot map' y = if decide (y = x) then false else slot map y).
Proof. intros H Hx. split; [by apply set_ok|by apply free_ok]. Qed.

(** The search finds the least slot of the set, or [-1] when it is empty;
    a new map for up to [64^10] slots is empty and has room for all of them. *)
Theorem bitmap_search slots map :
  0 < slots <= 64 ^ 10 -> bitmap_ok map ->
  (exists map0, new_bitmap slots = Some map0 /\ bitmap_ok map0 /\ slots <= slots_of map0 /\
    forall y, slot map0 y = false) /\
  exists r, ffs_map map = Some r /\
    ((r = -1 /\ forall y, 0 <= y < slots_of map -> slot map y = false) \/
     (0 <= r < slots_of map /\ slot map r = true /\ forall y, 0 <= y < r -> slot map y = false)).
Proof.
  intros Hs H. split; [by apply new_bitmap_ok|]. pose proof (ffs_map_ok map H) as P.
  destruct (_ =? 0); [destruct P; eauto|]. destruct P as (r & ? & ?). eauto.
Qed.

Lemma demo_bitmap_ok : bitmap_ok (BMap 2 (fun _ _ => 0)).
Proof.
  split; simpl; [lia|intros i k _ _; lia|]. intros i x _ _ _. unfold in_step, bit. by rewrite Z.testbit_0_l.
Qed.

Lemma bitmap_set_free_witness :
  exists map', SetBitMap 4095 (BMap 2 (fun _ _ => 0)) = Some map' /\ slot map' 4095 = true.
Proof.
  destruct (bitmap_set_free (BMap 2 (fun _ _ => 0)) 4095 demo_bitmap_ok) as [(map' & E & _ & _ & Hs) _].
  - unfold slots_of. simpl. lia.
  - exists map'. split; [exact E|]. by rewrite Hs.
Defined.

Lemma bitmap_search_witness : exists r, ffs_map (BMap 2 (fun _ _ => 0)) = Some r.
Proof.
  destruct (bitmap_search 100 (BMap 2 (fun _ _ => 0)) ltac:(lia) demo_bitmap_ok) as [_ (r & E & _)]. eauto.
Defined.
