(* ===== verification/Carousel.v ===== *)
(** * The Carousel shaper: [modules/carousel.cc]

    A timing wheel of [slots] buckets.  The buckets are used through the
    interface [BucketOps]; the theorems hold for any implementation of
    [BucketLaws].  The wheel refines an array of unbounded extent, [pend]:
    [pend g] are the packets due in the [g]th slot of time.  The batch that
    [Dequeue] fills is its result. *)

From S2P Require Import Prelude Ring Pool Buckets Ledger Shapers.

Record Carousel (St B : Type) := Wheel {
  queue_ : Z -> B;
  flow_info : list FlowInfo;
  max_dequeue_burst_ : Z;
  dequeue_burst : Z;
  header_ts : Z;
  granularity_ : Z;
  horizon_ : Z;
  slots : Z;
  buckets_st : St;
  packets_num : Z;
  enqueue_pkts_num : Z
}.
Arguments Wheel {St B}.
Arguments queue_ {St B}.
Arguments flow_info {St B}.
Arguments max_dequeue_burst_ {St B}.
Arguments dequeue_burst {St B}.
Arguments header_ts {St B}.
Arguments granularity_ {St B}.
Arguments horizon_ {St B}.
Arguments slots {St B}.
Arguments buckets_st {St B}.
Arguments packets_num {St B}.
Arguments enqueue_pkts_num {St B}.

Definition kMaxBurst : Z := 32.

Section carousel.
Context {St B : Type} `{Ops : BucketOps unit St B PacketEntry}.
Implicit Types (c : Carousel St B).

(** ** Field updates *)

Definition set_queue (i : Z) (b : B) (st : St) c : Carousel St B :=
  Wheel (<[i := b]> (queue_ c)) (flow_info c) (max_dequeue_burst_ c) (dequeue_burst c) (header_ts c)
    (granularity_ c) (horizon_ c) (slots c) st (packets_num c) (enqueue_pkts_num c).
Definition set_flows (fi : list FlowInfo) c : Carousel St B :=
  Wheel (queue_ c) fi (max_dequeue_burst_ c) (dequeue_burst c) (header_ts c)
    (granularity_ c) (horizon_ c) (slots c) (buckets_st c) (packets_num c) (enqueue_pkts_num c).
Definition set_header (t : Z) c : Carousel St B :=
  Wheel (queue_ c) (flow_info c) (max_dequeue_burst_ c) (dequeue_burst c) t
    (granularity_ c) (horizon_ c) (slots c) (buckets_st c) (packets_num c) (enqueue_pkts_num c).
Definition set_counts (n e : Z) c : Carousel St B :=
  Wheel (queue_ c) (flow_info c) (max_dequeue_burst_ c) (dequeue_burst c) (header_ts c)
    (granularity_ c) (horizon_ c) (slots c) (buckets_st c) n e.
Definition set_burst (n : Z) c : Carousel St B :=
  Wheel (queue_ c) (flow_info c) (max_dequeue_burst_ c) n (header_ts c)
    (granularity_ c) (horizon_ c) (slots c) (buckets_st c) (packets_num c) (enqueue_pkts_num c).

(** ** Configuration *)

(** The part of [Init] that builds the wheel, at time [now]; [b0] is a new
    bucket.  The constructor has set [max_dequeue_burst_] to 0. *)
Definition init_wheel (granularity nslots now : Z) (b0 : B) (st : St) : option (Carousel St B) :=
  guard (u32 granularity <> 0);;
  Some (Wheel (fun _ => b0) [] 0 0 (now / u32 granularity) (u32 granularity)
          (u32 (u64 (u32 granularity * u64 nslots))) (u64 nslots) st 0 0).

Definition SetMaxDequeueBurst (arg : Z) c : Carousel St B :=
  Wheel (queue_ c) (flow_info c) (if arg >? kMaxBurst then kMaxBurst else arg) (dequeue_burst c)
    (header_ts c) (granularity_ c) (horizon_ c) (slots c) (buckets_st c) (packets_num c)
    (enqueue_pkts_num c).

(** ** Enqueue *)

(** The answer is [-1] for a packet refused, and the send time, which is a
    reference parameter. *)
Definition Insert c (e : PacketEntry) (send_time : Z) : option (Carousel St B * Z * Z) :=
  guard (granularity_ c <> 0 /\ slots c <> 0);;
  let grn := send_time / granularity_ c in
  if grn >? u64 (u64 (header_ts c + slots c) - 1) then Some (c, -1, send_time)
  else
    let late := grn <? header_ts c in
    let send_time := if late then u64 (header_ts c * granularity_ c) else send_time in
    let grn := if late then header_ts c else grn in
    let index := grn mod slots c in
    '(st, b, enqueue_num) ← enqueue_packet (buckets_st c) (queue_ c index) e;
    Some (set_queue index b st c, enqueue_num, send_time).

(** One round of the loop of [Enqueue]; the flag says whether the packet was
    dropped. *)
Definition enqueue_one (pk : gmap addr Packet) c (a : addr) (now : Z) : option (Carousel St B * bool) :=
  pkt ← pk !! a;
  let flow_id := ip_src pkt in
  guard (0 <= flow_id);;
  info ← flow_info c !! Z.to_nat flow_id;
  let info := flow_ready info now in
  let c := set_flows (<[Z.to_nat flow_id := info]> (flow_info c)) c in
  stamp ← next_stamp info (total_len pkt);
  guard (granularity_ c <> 0);;
  let c := if packets_num c =? 0 then set_header (now / granularity_ c) c else c in
  let stamp := if stamp >=? now then stamp else now in
  '(c, enqueue_result, stamp) ← Insert c (PEntry a flow_id) stamp;
  if enqueue_result <? 0 then Some (c, true)
  else
    Some (set_counts (u64 (packets_num c + 1)) (u64 (enqueue_pkts_num c + 1))
            (set_flows (<[Z.to_nat flow_id := Flow stamp (frate info)]> (flow_info c)) c), false).

(** The batch, with the clock reading of each round; the answer lists the
    packets dropped. *)
Fixpoint Enqueue (pk : gmap addr Packet) c (batch : list (addr * Z)) : option (Carousel St B * list addr) :=
  match batch with
  | [] => Some (c, [])
  | (a, now) :: batch =>
      '(c, dropped) ← enqueue_one pk c a now;
      '(c, drops) ← Enqueue pk c batch;
      Some (c, if dropped : bool then a :: drops else drops)
  end.

(** ** Dequeue *)

(** The body of [while (now >= header_ts and quota > 0)]: the header moves on,
    or the packets of a bucket are taken. *)
Definition dequeue_step (now quota : Z) c : Carousel St B + option (Carousel St B * list PacketEntry) :=
  if (now >=? header_ts c) && (quota >? 0) then
    if slots c =? 0 then inr None
    else
      let index := header_ts c mod slots c in
      if bucket_IsEmpty (queue_ c index) then inl (set_header (u64 (header_ts c + 1)) c)
      else
        match dequeue_packet_bulk tt (buckets_st c) (queue_ c index) quota with
        | None => inr None
        | Some (st, b, out) =>
            let c := set_queue index b st c in
            inr (Some (if bucket_IsEmpty b then set_header (u64 (header_ts c + 1)) c else c, out))
        end
  else inr (Some (c, [])).

(** [clock] is the reading of the clock. *)
Definition Dequeue (clock : Z) c : option (Carousel St B * list PacketEntry) :=
  guard (granularity_ c <> 0);;
  match iter_until fuel64 (dequeue_step (clock / granularity_ c) (max_dequeue_burst_ c)) c with
  | inr (Some (c, out)) => Some (set_burst (u32 (Z.of_nat (length out))) c, out)
  | _ => None
  end.

(** The end of [RunTask], for [sent] packets of the batch that left through the
    port. *)
Definition after_send (sent : Z) c : Carousel St B :=
  set_counts (u64 (packets_num c - sent)) (enqueue_pkts_num c) c.

(** * The wheel as an array of unbounded extent *)

Context `{L : !BucketLaws Z unit St B PacketEntry}.

Record wheel_ok c (cs : Z -> list PacketEntry) (pend : Z -> list PacketEntry) (free : nat) : Prop := {
  wheel_family : family (buckets_st c) (queue_ c) cs free;
  wheel_config : 0 < slots c < 2 ^ 32 /\ 0 < granularity_ c < 2 ^ 32;
  wheel_header : 0 <= header_ts c <= 2 ^ 62 /\ header_ts c * granularity_ c < 2 ^ 63;
  wheel_window : forall g, pend g <> [] -> header_ts c <= g < header_ts c + slots c;
  wheel_slot : forall g, header_ts c <= g < header_ts c + slots c -> cs (g mod slots c) = pend g;
  wheel_count : sum_upto (Z.to_nat (slots c)) (fun i => Z.of_nat (length (cs i))) <= packets_num c < 2 ^ 63
}.

(** ** Lemmas *)

Lemma slot_unique h n g g' :
  0 < n -> h <= g < h + n -> h <= g' < h + n -> g mod n = g' mod n -> g = g'.
Proof.
  intros Hn Hg Hg' E. assert (g - h = g' - h); [|lia].
  apply (mod_shift_eq h (g - h) (g' - h) n); [lia..|].
  by replace (h + (g - h)) with g by lia; replace (h + (g' - h)) with g' by lia.
Qed.

(** Changing the bucket of slot [g], here from [l] to [l']. *)
Lemma wheel_update c cs pend free g b st l' free' :
  wheel_ok c cs pend free -> header_ts c <= g < header_ts c + slots c ->
  family st (<[g mod slots c := b]> (queue_ c)) (<[g mod slots c := l']> cs) free' ->
  Z.of_nat (length l') <= Z.of_nat (length (pend g)) + 1 ->
  packets_num c + 1 < 2 ^ 63 ->
  wheel_ok (set_counts (packets_num c + Z.max 0 (Z.of_nat (length l') - Z.of_nat (length (pend g))))
              (enqueue_pkts_num c) (set_queue (g mod slots c) b st c))
    (<[g mod slots c := l']> cs) (<[g := l']> pend) free'.
Proof.
  intros [Wf Wc Wh Ww Ws Wn] Hg F Hl Hp. split; simpl; try done.
  - intros g' Hne. destruct (decide (g = g')) as [<-|]; [done|].
    rewrite fn_insert_ne in Hne by done. by apply Ww.
  - intros g' Hg'. destruct (decide (g = g')) as [<-|Hne]; [by rewrite !fn_insert_eq|].
    rewrite !fn_insert_ne; [by apply Ws|done|]. intros E. apply Hne.
    apply (slot_unique (header_ts c) (slots c)); [lia..|done].
  - pose proof (Z.mod_pos_bound g (slots c) ltac:(lia)) as Hm.
    rewrite (sum_upto_ext _ _ (<[g mod slots c := Z.of_nat (length l')]> (fun i => Z.of_nat (length (cs i))))).
    2:{ intros i Hi. destruct (decide (g mod slots c = i)) as [<-|]; [by rewrite !fn_insert_eq|].
        by rewrite !fn_insert_ne. }
    rewrite sum_upto_insert by lia. rewrite (Ws g Hg). lia.
Qed.

(** An empty first slot can be passed. *)
Lemma wheel_advance c cs pend free :
  wheel_ok c cs pend free -> pend (header_ts c) = [] ->
  header_ts c + 1 <= 2 ^ 62 -> (header_ts c + 1) * granularity_ c < 2 ^ 63 ->
  wheel_ok (set_header (header_ts c + 1) c) cs pend free.
Proof.
  intros [Wf Wc Wh Ww Ws Wn] He Hh Hh'. split; simpl; try done; try lia.
  - intros g Hg. specialize (Ww g Hg). destruct (Z.eq_dec g (header_ts c)) as [->|]; [done|lia].
  - intros g Hg. destruct (Z.eq_dec g (header_ts c + slots c)) as [->|]; [|apply Ws; lia].
    replace ((header_ts c + slots c) mod slots c) with (header_ts c mod slots c).
    2:{ rewrite <- (Z.mul_1_l (slots c)) at 2. by rewrite Z.mod_add by lia. }
    rewrite (Ws (header_ts c)), He by lia.
    destruct (pend (header_ts c + slots c)) eqn:E; [done|].
    assert (pend (header_ts c + slots c) <> []) as H by (by rewrite E). apply Ww in H. lia.
Qed.

(** With nothing queued the header can be put anywhere. *)
Lemma sum_zero n f : (forall i, 0 <= f i) -> sum_upto n f <= 0 -> forall i, 0 <= i < Z.of_nat n -> f i = 0.
Proof.
  intros Hf Hs i Hi. pose proof (sum_upto_insert n f i 0 Hi).
  assert (0 <= sum_upto n (<[i := 0]> f)); [|specialize (Hf i); lia].
  apply sum_upto_nonneg. intros j. destruct (decide (i = j)) as [<-|]; [by rewrite fn_insert_eq|by rewrite fn_insert_ne].
Qed.

Lemma wheel_reset c cs pend free t :
  wheel_ok c cs pend free -> packets_num c = 0 -> 0 <= t <= 2 ^ 62 -> t * granularity_ c < 2 ^ 63 ->
  wheel_ok (set_header t c) cs pend free /\ forall g, pend g = [].
Proof.
  intros [Wf Wc Wh Ww Ws Wn] H0 Ht Ht'.
  assert (Hcs : forall i, 0 <= i < slots c -> cs i = []).
  { intros i Hi. pose proof (sum_zero (Z.to_nat (slots c)) (fun i => Z.of_nat (length (cs i)))
      ltac:(intros; cbv beta; lia) ltac:(lia) i ltac:(lia)) as E. simpl in E. destruct (cs i); [done|simpl in E; lia]. }
  assert (Hp : forall g, pend g = []).
  { intros g. destruct (pend g) eqn:E; [done|]. assert (Hne : pend g <> []) by (by rewrite E).
    specialize (Ww g Hne). specialize (Ws g Ww). rewrite Hcs in Ws; [congruence|].
    apply Z.mod_pos_bound. lia. }
  split; [|done]. split; simpl; try done.
  - intros g Hg. by rewrite Hp in Hg.
  - intros g Hg. rewrite Hp. apply Hcs. apply Z.mod_pos_bound. lia.
Qed.

Lemma wheel_counts c cs pend free n e :
  wheel_ok c cs pend free -> packets_num c <= n < 2 ^ 63 -> wheel_ok (set_counts n e c) cs pend free.
Proof. intros [Wf Wc Wh Ww Ws Wn] Hn. split; simpl; try done. lia. Qed.

Lemma set_counts_same c : set_counts (packets_num c) (enqueue_pkts_num c) c = c.
Proof. by destruct c. Qed.

(** What [Insert] does with a packet due in slot [grn]. *)
Definition insert_post c (cs pend : Z -> list PacketEntry) (free : nat) (e : PacketEntry) (send_time : Z)
    (c' : Carousel St B) (ret send_time' : Z) : Prop :=
  let grn := send_time / granularity_ c in
  let g := Z.max (header_ts c) grn in
  if grn >? header_ts c + slots c - 1 then ret = -1 /\ c' = c /\ send_time' = send_time
  else
    send_time' = (if grn <? header_ts c then header_ts c * granularity_ c else send_time) /\
    match free with
    | O => ret = -1 /\ wheel_ok c' cs pend O /\ packets_num c' = packets_num c /\ flow_info c' = flow_info c /\
        buckets_st c' = buckets_st c
    | S n => ret = 0 /\ exists cs',
        wheel_ok (set_counts (packets_num c + 1) (enqueue_pkts_num c) c') cs' (<[g := e :: pend g]> pend) n /\
        (forall e', entry_ok (buckets_st c) e' -> entry_ok (buckets_st c') e') /\
        packets_num c' = packets_num c /\ enqueue_pkts_num c' = enqueue_pkts_num c /\
        flow_info c' = flow_info c
    end.

Lemma wheel_insert_ok c cs pend free e send_time :
  wheel_ok c cs pend free -> entry_ok (buckets_st c) e -> 0 <= send_time ->
  packets_num c + 1 < 2 ^ 63 ->
  exists c' ret t', Insert c e send_time = Some (c', ret, t') /\
    insert_post c cs pend free e send_time c' ret t'.
Proof.
  intros W He Ht Hp. pose proof (wheel_config _ _ _ _ W) as [Hs Hg].
  pose proof (wheel_header _ _ _ _ W) as [Hh Hov]. pose proof (Z.div_pos send_time (granularity_ c) Ht ltac:(lia)).
  unfold Insert, insert_post. rewrite option_guard_True by lia. cbn [mbind option_bind].
  rewrite (wrap_small 64 (header_ts c + slots c)), (wrap_small 64 (_ - 1)) by lia.
  set (grn := send_time / granularity_ c) in *. destruct (Z.gtb_spec grn (header_ts c + slots c - 1)) as [Hf|Hf].
  { eexists _, _, _. split; [reflexivity|]. done. }
  rewrite (wrap_small 64 (header_ts c * granularity_ c)) by nia.
  set (g := Z.max (header_ts c) grn).
  assert (Eg : (if grn <? header_ts c then header_ts c else grn) = g).
  { unfold g. destruct (Z.ltb_spec grn (header_ts c)); lia. }
  rewrite Eg. assert (Hgw : header_ts c <= g < header_ts c + slots c) by lia.
  pose proof (family_enqueue _ _ _ _ (g mod slots c) e (wheel_family _ _ _ _ W) He) as P.
  pose proof (wheel_slot _ _ _ _ W g Hgw) as Eslot. destruct free as [|n].
  - rewrite P. cbn [mbind option_bind]. eexists _, _, _. split; [reflexivity|]. split; [done|]. split; [done|].
    split; [|done]. pose proof W as [Wf Wc Wh Ww Ws Wn]. split; simpl; try done.
    eapply family_ext; [| |exact Wf]; [intros i; apply insert_same|done].
  - destruct P as (st' & b' & -> & F & Hok). cbn [mbind option_bind].
    eexists _, _, _. split; [reflexivity|]. split; [done|]. split; [done|].
    exists (<[g mod slots c := e :: pend g]> cs). rewrite Eslot in F.
    pose proof (wheel_update _ _ _ _ g b' st' (e :: pend g) n W Hgw F ltac:(simpl; lia) Hp) as W'.
    simpl in W'. replace (Z.max 0 _) with 1 in W' by lia. done.
Qed.

Lemma bulk_quota_min burst n : 0 <= burst < 2 ^ 31 -> 0 <= n < 2 ^ 31 -> bulk_quota burst n = Z.min burst n.
Proof.
  intros Hb Hn. unfold bulk_quota. rewrite wrap_small by lia.
  destruct (Z.gtb_spec burst n); [rewrite to_signed_small; lia|lia].
Qed.

(** What [Dequeue] does at slot [now], with the quota [max_dequeue_burst_]. *)
Inductive dequeue_post (now : Z) c (cs pend : Z -> list PacketEntry) (free : nat) :
    Carousel St B -> list PacketEntry -> Prop :=
  | dequeue_nothing c' :
      max_dequeue_burst_ c <= 0 \/ (forall g, g <= now -> pend g = []) ->
      wheel_ok c' cs pend free -> flow_info c' = flow_info c -> packets_num c' = packets_num c ->
      dequeue_post now c cs pend free c' []
  | dequeue_some c' g cs' :
      g <= now -> pend g <> [] -> (forall g', g' < g -> pend g' = []) ->
      let k := Z.to_nat (Z.min (max_dequeue_burst_ c) (Z.of_nat (length (pend g)))) in
      wheel_ok c' cs' (<[g := drop k (pend g)]> pend) (free + length (take k (pend g))) ->
      flow_info c' = flow_info c -> packets_num c' = packets_num c ->
      dequeue_post now c cs pend free c' (take k (pend g)).

Definition scan_inv (now : Z) c cs pend free (c1 : Carousel St B) : Prop :=
  exists t, c1 = set_header t c /\ wheel_ok c1 cs pend free.

Lemma dequeue_step_ok clock c cs pend free c1 :
  0 <= clock < 2 ^ 62 -> -2 ^ 31 <= max_dequeue_burst_ c < 2 ^ 31 -> packets_num c + 1 < 2 ^ 63 ->
  scan_inv (clock / granularity_ c) c cs pend free c1 ->
  match dequeue_step (clock / granularity_ c) (max_dequeue_burst_ c) c1 with
  | inl c2 => scan_inv (clock / granularity_ c) c cs pend free c2 /\
      0 <= clock / granularity_ c + 1 - header_ts c2 < clock / granularity_ c + 1 - header_ts c1
  | inr (Some (c', out)) => dequeue_post (clock / granularity_ c) c cs pend free c' out
  | inr None => False
  end.
Proof.
  intros Hc Hb Hp (t & -> & W). pose proof (wheel_config _ _ _ _ W) as [Hs Hg]. simpl in Hs, Hg.
  pose proof (wheel_header _ _ _ _ W) as [Hh Hov]. simpl in Hh, Hov.
  set (now := clock / granularity_ c) in *.
  assert (Hnow : 0 <= now /\ now * granularity_ c <= clock).
  { pose proof (Z.div_pos clock (granularity_ c)). pose proof (div_mul_le clock (granularity_ c) ltac:(lia)). nia. }
  unfold dequeue_step. cbn [header_ts set_header slots queue_ buckets_st].
  destruct (Z.geb_spec now t) as [Hnt|Hnt], (Z.gtb_spec (max_dequeue_burst_ c) 0) as [Hq|Hq]; cbn [andb].
  2,3,4: eapply dequeue_nothing; [|exact W|done|done].
  2: left; lia.
  2: { right. intros g Hgn. destruct (pend g) eqn:E; [done|].
       assert (pend g <> []) as Hne by (by rewrite E). pose proof (wheel_window _ _ _ _ W g Hne) as Hw. simpl in Hw. lia. }
  2: left; lia.
  destruct (Z.eqb_spec (slots c) 0) as [|_]; [lia|].
  assert (Hwin : t <= t < t + slots c) by lia.
  pose proof (wheel_slot _ _ _ _ W t Hwin) as Et. simpl in Et.
  pose proof (family_empty _ _ _ _ (t mod slots c) (wheel_family _ _ _ _ W)) as He. simpl in He.
  assert (Hlow : forall g', g' < t -> pend g' = []).
  { intros g' Hg'. destruct (pend g') eqn:E; [done|].
    assert (pend g' <> []) as Hne by (by rewrite E). pose proof (wheel_window _ _ _ _ W g' Hne) as Hw. simpl in Hw. lia. }
  assert (Hnext : 0 <= t + 1 <= 2 ^ 62 /\ (t + 1) * granularity_ c < 2 ^ 63).
  { assert (t * granularity_ c <= clock) by nia. assert (now <= clock) by nia. split; [lia|nia]. }
  destruct (bucket_IsEmpty (queue_ c (t mod slots c))) eqn:Eb.
  - rewrite wrap_small by lia. split; [|simpl; lia]. exists (t + 1). split; [done|].
    apply (wheel_advance _ _ _ _ W); simpl; [|lia|lia]. rewrite <- Et. by apply He.
  - pose proof (family_small _ _ _ _ (t mod slots c) (wheel_family _ _ _ _ W)) as Hsm. simpl in Hsm.
    assert (Hne : pend t <> []) by (rewrite <- Et; intros E; apply He in E; congruence).
    destruct (family_dequeue tt _ _ _ _ (t mod slots c) (max_dequeue_burst_ c) Hb (wheel_family _ _ _ _ W))
      as (st' & b' & Eq & F & _). simpl in Eq, F. rewrite Eq. rewrite Et in F, Hsm |- *.
    rewrite bulk_quota_min in F |- * by lia.
    set (k := Z.to_nat (Z.min (max_dequeue_burst_ c) (Z.of_nat (length (pend t))))) in *.
    pose proof (wheel_update _ _ _ _ t b' st' (drop k (pend t)) _ W Hwin F
      ltac:(rewrite length_drop; lia) ltac:(simpl; lia)) as W'.
    replace (Z.max 0 _) with 0 in W' by (rewrite length_drop; lia). simpl packets_num in W'. rewrite Z.add_0_r in W'.
    pose proof (family_empty _ _ _ _ (t mod slots c) F) as He'. rewrite !fn_insert_eq in He'.
    destruct (bucket_IsEmpty b') eqn:Eb'.
    + rewrite wrap_small by (simpl; lia).
      eapply (dequeue_some _ _ _ _ _ _ t); [lia|done|done| |done|done].
      apply (wheel_advance _ _ _ _ W'); simpl; [|lia|lia]. rewrite fn_insert_eq. by apply He'.
    + eapply (dequeue_some _ _ _ _ _ _ t); [lia|done|done|exact W'|done|done].
Qed.

Lemma wheel_burst c cs pend free n : wheel_ok c cs pend free -> wheel_ok (set_burst n c) cs pend free.
Proof. intros [Wf Wc Wh Ww Ws Wn]. split; done. Qed.

Lemma wheel_dequeue_ok clock c cs pend free :
  wheel_ok c cs pend free -> 0 <= clock < 2 ^ 62 -> -2 ^ 31 <= max_dequeue_burst_ c < 2 ^ 31 ->
  packets_num c + 1 < 2 ^ 63 ->
  exists c' out, Dequeue clock c = Some (c', out) /\
    dequeue_post (clock / granularity_ c) c cs pend free c' out.
Proof.
  intros W Hc Hb Hp. pose proof (wheel_config _ _ _ _ W) as [Hs Hg].
  pose proof (wheel_header _ _ _ _ W) as [Hh _].
  unfold Dequeue. rewrite option_guard_True by lia. cbn [mbind option_bind].
  destruct (iter_until_total (scan_inv (clock / granularity_ c) c cs pend free)
    (fun r => match r with Some (c', out) => dequeue_post (clock / granularity_ c) c cs pend free c' out | None => False end)
    (fun c1 => clock / granularity_ c + 1 - header_ts c1) fuel64
    (dequeue_step (clock / granularity_ c) (max_dequeue_burst_ c)) c) as (r & -> & Hr).
  - intros c1 H1. pose proof (dequeue_step_ok clock c cs pend free c1 Hc Hb Hp H1) as P.
    destruct (dequeue_step _ _ c1) as [c2|[[c2 out]|]]; done.
  - exists (header_ts c). split; [by destruct c|done].
  - assert (clock / granularity_ c <= clock) by (apply Z.div_le_upper_bound; nia). unfold fuel64. lia.
  - destruct r as [[c' out]|]; [|done]. eexists _, _. split; [reflexivity|].
    destruct Hr as [c' H1 W' H2 H3|c' g cs' H1 H2 H3 k W' H4 H5].
    + apply dequeue_nothing; auto using wheel_burst.
    + eapply dequeue_some; eauto using wheel_burst.
Qed.

Lemma wheel_nonneg c cs pend free : wheel_ok c cs pend free -> 0 <= packets_num c.
Proof.
  intros W. pose proof (wheel_count _ _ _ _ W).
  pose proof (sum_upto_nonneg (Z.to_nat (slots c)) (fun i => Z.of_nat (length (cs i))) ltac:(intros; cbv beta; lia)).
  lia.
Qed.

Lemma wheel_flows c cs pend free fi : wheel_ok c cs pend free -> wheel_ok (set_flows fi c) cs pend free.
Proof. intros [Wf Wc Wh Ww Ws Wn]. split; done. Qed.

(** What the loop of [Enqueue] does with one packet of flow [f]. *)
Definition enqueue_post c (pend : Z -> list PacketEntry) (free : nat) (f : Z) (info : FlowInfo)
    (a : addr) (bytes now : Z) (c' : Carousel St B) (dropped : bool) : Prop :=
  let info := flow_ready info now in
  let wanted := Z.max now (last_stamp info + packet_time info bytes) in
  let head := if packets_num c =? 0 then now / granularity_ c else header_ts c in
  exists cs' pend' free', wheel_ok c' cs' pend' free' /\
    if dropped then pend' = pend /\ free' = free /\ packets_num c' = packets_num c /\
      flow_info c' !! Z.to_nat f = Some info /\
      (head + slots c <= wanted / granularity_ c \/ free = O)
    else exists stamp,
      stamp = (if wanted / granularity_ c <? head then head * granularity_ c else wanted) /\
      last_stamp info + packet_time info bytes <= stamp /\ now <= stamp /\
      stamp / granularity_ c < head + slots c /\
      flow_info c' !! Z.to_nat f = Some (Flow stamp (frate info)) /\
      pend' = <[stamp / granularity_ c := PEntry a f :: pend (stamp / granularity_ c)]> pend /\
      free = S free' /\ packets_num c' = packets_num c + 1.

Lemma enqueue_one_ok pk c cs pend free a pkt info now :
  wheel_ok c cs pend free -> packets_num c + 1 < 2 ^ 63 -> enqueue_pkts_num c + 1 < 2 ^ 64 ->
  pk !! a = Some pkt -> 0 <= total_len pkt < 2 ^ 16 -> 0 <= ip_src pkt ->
  flow_info c !! Z.to_nat (ip_src pkt) = Some info ->
  0 <= last_stamp info < 2 ^ 61 -> 0 <= frate info < 2 ^ 32 -> 0 <= now < 2 ^ 61 ->
  entry_ok (buckets_st c) (PEntry a (ip_src pkt)) ->
  exists c' dropped, enqueue_one pk c a now = Some (c', dropped) /\
    enqueue_post c pend free (ip_src pkt) info a (total_len pkt) now c' dropped.
Proof.
  intros W Hp He Hpk Hl Hf Hi Hst Hr Hn Hok. pose proof (wheel_nonneg _ _ _ _ W) as Hp0. pose proof (wheel_config _ _ _ _ W) as [Hs Hg].
  unfold enqueue_one, enqueue_post. rewrite Hpk. cbn [mbind option_bind].
  rewrite option_guard_True by done. cbn [mbind option_bind]. rewrite Hi. cbn [mbind option_bind].
  set (inf := flow_ready info now).
  assert (Hinf : 0 <= last_stamp inf < 2 ^ 61 /\ 0 < frate inf < 2 ^ 32).
  { unfold inf, flow_ready. destruct (Z.eqb_spec (frate info) 0); simpl; unfold DEFAULT_FLOW_RATE; lia. }
  destruct (next_stamp_ok inf (total_len pkt) now ltac:(lia) ltac:(lia) Hl) as (-> & Hpt & _).
  cbn [mbind option_bind granularity_ set_flows packets_num].
  rewrite option_guard_True by (simpl; lia). cbn [mbind option_bind].
  set (c0 := set_flows (<[Z.to_nat (ip_src pkt) := inf]> (flow_info c)) c).
  assert (Hinf0 : flow_info c0 !! Z.to_nat (ip_src pkt) = Some inf).
  { apply list_lookup_insert_eq. by eapply lookup_lt_Some. }
  set (c1 := if packets_num c =? 0 then _ else _).
  assert (H1 : wheel_ok c1 cs pend free /\ flow_info c1 = flow_info c0 /\ packets_num c1 = packets_num c /\
    granularity_ c1 = granularity_ c /\ slots c1 = slots c /\
    header_ts c1 = (if packets_num c =? 0 then now / granularity_ c else header_ts c) /\ buckets_st c1 = buckets_st c /\ enqueue_pkts_num c1 = enqueue_pkts_num c).
  { unfold c1. pose proof (wheel_flows _ _ _ _ (<[Z.to_nat (ip_src pkt) := inf]> (flow_info c)) W) as W0.
    destruct (Z.eqb_spec (packets_num c) 0) as [E0|]; [|done]. split; [|done].
    pose proof (div_mul_le now (granularity_ c) ltac:(lia)).
    pose proof (Z.div_pos now (granularity_ c) ltac:(lia) ltac:(lia)).
    apply (wheel_reset _ _ _ _ (now / granularity_ c) W0); simpl; [done|split; [done|nia]|lia]. }
  destruct H1 as (W1 & Ef & En & Egr & Esl & Ehd & Est & Een).
  set (stamp := last_stamp inf + packet_time inf (total_len pkt)).
  assert (Estamp : stamp = last_stamp inf + packet_time inf (total_len pkt)) by done.
  set (t := if stamp >=? now then stamp else now).
  assert (Ht : t = Z.max now stamp) by (unfold t; destruct (Z.geb_spec stamp now); lia).
  rewrite <- Ehd, <- Ht, <- Esl.
  destruct (wheel_insert_ok c1 cs pend free (PEntry a (ip_src pkt)) t W1) as (c2 & ret & t' & Ei & P);
    [by rewrite Est|lia|lia|].
  rewrite Ei. cbn [mbind option_bind]. unfold insert_post in P. rewrite Egr in P.
  pose proof (wheel_header _ _ _ _ W1) as [Hh _].
  destruct (Z.gtb_spec (t / granularity_ c) (header_ts c1 + slots c1 - 1)) as [Hfar|Hfar].
  { destruct P as (-> & -> & ->). eexists _, true. split; [reflexivity|]. exists cs, pend, free.
    do 4 (split; [done|]). split; [by rewrite Ef|left; lia]. }
  destruct P as (Et' & P). destruct free as [|n].
  - destruct P as (-> & W2 & En2 & Ef2 & _). eexists _, true. split; [reflexivity|].
    exists cs, pend, O. do 3 (split; [done|]). split; [lia|]. split; [by rewrite Ef2, Ef|by right].
  - destruct P as (-> & cs' & W2 & _ & En2 & Een2 & Ef2). eexists _, false. split; [reflexivity|].
    exists cs', (<[t' / granularity_ c := PEntry a (ip_src pkt) :: pend (t' / granularity_ c)]> pend), n.
    assert (Hg' : Z.max (header_ts c1) (t / granularity_ c) = t' / granularity_ c /\ t <= t').
    { rewrite Et'. destruct (Z.ltb_spec (t / granularity_ c) (header_ts c1)) as [Hlt|].
      - rewrite Z.div_mul by lia. split; [lia|].
        pose proof (Z.mul_div_le t (granularity_ c) ltac:(lia)).
        pose proof (Z.mul_succ_div_gt t (granularity_ c) ltac:(lia)). nia.
      - split; lia. }
    destruct Hg' as [Eg Htt]. rewrite Eg in W2. split.
    + pose proof (wheel_count _ _ _ _ W2) as Hcnt. simpl in Hcnt.
      rewrite En2, Een2. rewrite (wrap_small 64 (packets_num c1 + 1)) by lia.
      destruct W2 as [Wf Wc Wh Ww Ws Wn]. split; done.
    + exists t'. split; [exact Et'|]. split; [lia|]. split; [lia|]. split; [lia|]. split; [|split; [done|split; [done|]]].
      * simpl. apply list_lookup_insert_eq. rewrite Ef2, Ef. simpl. rewrite length_insert.
        by eapply lookup_lt_Some.
      * simpl. rewrite En2, En, wrap_small; lia.
Qed.

(** * Properties *)

(** C7. [Dequeue] never gives a packet out before its slot of time, serves the
    slots in order, at most [max_dequeue_burst_] packets and only of one slot at
    a time, skips empty slots only, and ends; the wheel then holds the rest. *)
Theorem carousel_dequeue clock c cs pend free :
  wheel_ok c cs pend free -> 0 <= clock < 2 ^ 62 -> -2 ^ 31 <= max_dequeue_burst_ c < 2 ^ 31 ->
  packets_num c + 1 < 2 ^ 63 ->
  exists c' out, Dequeue clock c = Some (c', out) /\
    dequeue_post (clock / granularity_ c) c cs pend free c' out.
Proof. apply wheel_dequeue_ok. Qed.

(** C10. The loop of [Enqueue] paces each flow: the packet is filed in the slot of
    its stamp, one transmission time after the last stamp of its flow but not before
    the present, or that of the header when it is late; this becomes the last stamp
    of the flow. It is dropped only when its slot lies beyond the horizon or the
    pool is empty, and then the stamp of its flow stays. The header of an empty wheel is moved
    to the present first. *)
Theorem carousel_enqueue pk c cs pend free a pkt info now :
  wheel_ok c cs pend free -> packets_num c + 1 < 2 ^ 63 -> enqueue_pkts_num c + 1 < 2 ^ 64 ->
  pk !! a = Some pkt -> 0 <= total_len pkt < 2 ^ 16 -> 0 <= ip_src pkt ->
  flow_info c !! Z.to_nat (ip_src pkt) = Some info ->
  0 <= last_stamp info < 2 ^ 61 -> 0 <= frate info < 2 ^ 32 -> 0 <= now < 2 ^ 61 ->
  entry_ok (buckets_st c) (PEntry a (ip_src pkt)) ->
  exists c' dropped, enqueue_one pk c a now = Some (c', dropped) /\
    enqueue_post c pend free (ip_src pkt) info a (total_len pkt) now c' dropped.
Proof. apply enqueue_one_ok. Qed.

End carousel.

(** ** A wheel of four slots of 1000 ns over a real pool *)

Definition demo_wheel (m : blocks (node PacketEntry)) (p : MemoryPool) :
    Carousel (shared PacketEntry ledger) ListBucket :=
  Wheel (fun _ => new_bucket 3000) [Flow 0 8000; Flow 0 8000] 32 0 0 1000 4000 4 (Shared m p demo_ledger) 0 0.

Lemma demo_wheel_ok : exists m p,
  wheel_ok (L := ListBucket_laws) (demo_wheel m p) (fun _ => []) (fun _ => []) 2.
Proof.
  destruct (demo_family (I := Z)) as (m & p & _ & F). exists m, p. split; simpl; try lia; done.
Qed.

Lemma carousel_dequeue_witness : exists m p c' out, Dequeue 5000 (demo_wheel m p) = Some (c', out).
Proof.
  destruct demo_wheel_ok as (m & p & W).
  destruct (carousel_dequeue 5000 _ _ _ _ W) as (c' & out & E & _); [simpl; lia..|]. eauto.
Defined.

Lemma carousel_enqueue_witness : exists m p c' d, enqueue_one demo_packets (demo_wheel m p) 1%positive 500 = Some (c', d).
Proof.
  destruct demo_wheel_ok as (m & p & W).
  destruct (carousel_enqueue demo_packets _ _ _ _ 1%positive (Pkt 1500 0 9) (Flow 0 8000) 500 W)
    as (c' & d & E & _).
  - simpl. lia.
  - simpl. lia.
  - reflexivity.
  - simpl. lia.
  - simpl. lia.
  - reflexivity.
  - simpl. lia.
  - simpl. lia.
  - lia.
  - split; [by eexists|]. unfold flow_known. simpl. lia.
  - eauto.
Defined.
