(* ===== verification/Eiffel.v ===== *)
(** * The Eiffel shaper: [modules/eiffel.cc]

    Two arrays of buckets, the main one for the next [slots] slots of time and
    the buffer for the [slots] after those, each with a hierarchical bitmap of
    the buckets that may hold packets; when the main array is exhausted the two
    change places.  The pointers [main_queue], [buffer_queue], [main_map] and
    [buffer_map] name one of two banks.  The state refines an array of unbounded
    extent, [pend]: [pend t] are the packets of the slot that begins at [t]. *)

From S2P Require Import Prelude Ring Pool Buckets Ledger Shapers BitMaps.

Record Eiffel (St B : Type) := Eif {
  queues : bool * Z -> B;
  maps : bool -> BitMap;
  main_queue : bool;
  buffer_queue : bool;
  main_map : bool;
  buffer_map : bool;
  eflow_info : list FlowInfo;
  emax_burst : Z;
  eburst : Z;
  main_ts : Z;
  buffer_ts : Z;
  egran : Z;
  ehorizon : Z;
  eslots : Z;
  est : St;
  epackets_num : Z;
  eenq_num : Z
}.
Arguments Eif {St B}.
Arguments queues {St B}.
Arguments maps {St B}.
Arguments main_queue {St B}.
Arguments buffer_queue {St B}.
Arguments main_map {St B}.
Arguments buffer_map {St B}.
Arguments eflow_info {St B}.
Arguments emax_burst {St B}.
Arguments eburst {St B}.
Arguments main_ts {St B}.
Arguments buffer_ts {St B}.
Arguments egran {St B}.
Arguments ehorizon {St B}.
Arguments eslots {St B}.
Arguments est {St B}.
Arguments epackets_num {St B}.
Arguments eenq_num {St B}.

Section eiffel.
Context {St B : Type} `{Ops : BucketOps unit St B PacketEntry}.
Implicit Types (e : Eiffel St B).

(** ** Field updates *)

Definition put_bucket (q : bool) (i : Z) (b : B) (st : St) e : Eiffel St B :=
  Eif (<[(q, i) := b]> (queues e)) (maps e) (main_queue e) (buffer_queue e) (main_map e) (buffer_map e)
    (eflow_info e) (emax_burst e) (eburst e) (main_ts e) (buffer_ts e) (egran e) (ehorizon e) (eslots e)
    st (epackets_num e) (eenq_num e).
Definition put_map (m : bool) (bm : BitMap) e : Eiffel St B :=
  Eif (queues e) (<[m := bm]> (maps e)) (main_queue e) (buffer_queue e) (main_map e) (buffer_map e)
    (eflow_info e) (emax_burst e) (eburst e) (main_ts e) (buffer_ts e) (egran e) (ehorizon e) (eslots e)
    (est e) (epackets_num e) (eenq_num e).
Definition put_ts (m b : Z) e : Eiffel St B :=
  Eif (queues e) (maps e) (main_queue e) (buffer_queue e) (main_map e) (buffer_map e)
    (eflow_info e) (emax_burst e) (eburst e) m b (egran e) (ehorizon e) (eslots e)
    (est e) (epackets_num e) (eenq_num e).
Definition put_flows (fi : list FlowInfo) e : Eiffel St B :=
  Eif (queues e) (maps e) (main_queue e) (buffer_queue e) (main_map e) (buffer_map e)
    fi (emax_burst e) (eburst e) (main_ts e) (buffer_ts e) (egran e) (ehorizon e) (eslots e)
    (est e) (epackets_num e) (eenq_num e).
Definition put_counts (n m : Z) e : Eiffel St B :=
  Eif (queues e) (maps e) (main_queue e) (buffer_queue e) (main_map e) (buffer_map e)
    (eflow_info e) (emax_burst e) (eburst e) (main_ts e) (buffer_ts e) (egran e) (ehorizon e) (eslots e)
    (est e) n m.
Definition put_burst (n : Z) e : Eiffel St B :=
  Eif (queues e) (maps e) (main_queue e) (buffer_queue e) (main_map e) (buffer_map e)
    (eflow_info e) (emax_burst e) n (main_ts e) (buffer_ts e) (egran e) (ehorizon e) (eslots e)
    (est e) (epackets_num e) (eenq_num e).

(** ** Configuration: the part of [Init] that builds the two arrays *)

Definition init_eiffel (granularity nslots now : Z) (b0 : B) (st : St) : option (Eiffel St B) :=
  let granularity := u32 granularity in
  let nslots := u64 nslots in
  let horizon := u32 (u64 (granularity * nslots)) in
  bm ← new_bitmap nslots;
  Some (Eif (fun _ => b0) (fun _ => bm) true false true false [] 0 0 now (u64 (now + horizon))
          granularity horizon nslots st 0 0).

(** ** Searching *)

Inductive queue_choice := MAIN_QUEUE | BUFFER_QUEUE | NO_QUEUE.

(** [ffs]: the first bucket of the main array that may hold packets, or of the
    buffer; both searches go down the layers of the main map. *)
Definition ffs e : option (Z * queue_choice) :=
  let m := maps e (main_map e) in
  let b := maps e (buffer_map e) in
  i ← ffs_map m;
  if negb (bit_map m 0 0 =? 0) then Some (i, MAIN_QUEUE)
  else
    j ← ffs_map (BMap (n_layers m) (bit_map b));
    if negb (bit_map b 0 0 =? 0) then Some (j, BUFFER_QUEUE) else Some (-1, NO_QUEUE).

Definition AdjustRotation e : Eiffel St B :=
  Eif (queues e) (maps e) (buffer_queue e) (main_queue e) (buffer_map e) (main_map e)
    (eflow_info e) (emax_burst e) (eburst e) (buffer_ts e) (u64 (buffer_ts e + ehorizon e))
    (egran e) (ehorizon e) (eslots e) (est e) (epackets_num e) (eenq_num e).

(** ** Enqueue *)

Definition DropPacketInsert e (p : PacketEntry) (send_time : Z) : option (Eiffel St B * Z * Z) :=
  guard (egran e <> 0);;
  if send_time <? buffer_ts e then
    let late := send_time <? main_ts e in
    let index := if late then 0 else (send_time - main_ts e) / egran e in
    let send_time := if late then main_ts e else send_time in
    bm ← SetBitMap index (maps e (main_map e));
    guard (0 <= index < eslots e);;
    let e := put_map (main_map e) bm e in
    '(st, b, enqueue_num) ← enqueue_packet (est e) (queues e (main_queue e, index)) p;
    Some (put_bucket (main_queue e) index b st e, enqueue_num, send_time)
  else if send_time >=? u64 (u64 (main_ts e + ehorizon e) + ehorizon e) then Some (e, -1, send_time)
  else
    let index := u64 (send_time - buffer_ts e) / egran e in
    bm ← SetBitMap index (maps e (buffer_map e));
    guard (0 <= index < eslots e);;
    let e := put_map (buffer_map e) bm e in
    '(st, b, enqueue_num) ← enqueue_packet (est e) (queues e (buffer_queue e, index)) p;
    Some (put_bucket (buffer_queue e) index b st e, enqueue_num, send_time).

(** One round of the loop of [Enqueue]. *)
Definition eiffel_enqueue_one (pk : gmap addr Packet) e (a : addr) (now : Z) : option (Eiffel St B * bool) :=
  pkt ← pk !! a;
  let flow_id := ip_src pkt in
  guard (0 <= flow_id);;
  info ← eflow_info e !! Z.to_nat flow_id;
  let info := flow_ready info now in
  let e := put_flows (<[Z.to_nat flow_id := info]> (eflow_info e)) e in
  stamp ← next_stamp info (total_len pkt);
  let stamp := if stamp >=? now then stamp else now in
  '(e, enqueue_result, stamp) ← DropPacketInsert e (PEntry a flow_id) stamp;
  if enqueue_result <? 0 then Some (e, true)
  else
    Some (put_counts (u64 (epackets_num e + 1)) (u64 (eenq_num e + 1))
            (put_flows (<[Z.to_nat flow_id := Flow stamp (frate info)]> (eflow_info e)) e), false).

Fixpoint eiffel_Enqueue (pk : gmap addr Packet) e (batch : list (addr * Z)) :
    option (Eiffel St B * list addr) :=
  match batch with
  | [] => Some (e, [])
  | (a, now) :: batch =>
      '(e, dropped) ← eiffel_enqueue_one pk e a now;
      '(e, drops) ← eiffel_Enqueue pk e batch;
      Some (e, if dropped : bool then a :: drops else drops)
  end.

(** ** Dequeue *)

(** From [send_ts = ...] to the end, for the bucket [index] of the main array. *)
Definition dequeue_bucket (now index : Z) e : option (Eiffel St B * list PacketEntry) :=
  let send_ts := u64 (u64 (index * egran e) + main_ts e) in
  if send_ts >? now then Some (e, [])
  else
    guard (0 <= index < eslots e);;
    '(st, b, out) ← dequeue_packet_bulk tt (est e) (queues e (main_queue e, index)) (emax_burst e);
    let e := put_burst (u32 (Z.of_nat (length out))) (put_bucket (main_queue e) index b st e) in
    if bucket_IsEmpty b then
      bm ← FreeBitMap index (maps e (main_map e));
      Some (put_map (main_map e) bm e, out)
    else Some (e, out).

Definition eiffel_Dequeue (now : Z) e : option (Eiffel St B * list PacketEntry) :=
  let e := put_burst 0 e in
  '(index, queue_id) ← ffs e;
  match queue_id with
  | NO_QUEUE => Some (put_ts now (u64 (now + ehorizon e)) e, [])
  | BUFFER_QUEUE => dequeue_bucket now index (AdjustRotation e)
  | MAIN_QUEUE => dequeue_bucket now index e
  end.

Definition SetMaxBurst (arg : Z) e : Eiffel St B :=
  Eif (queues e) (maps e) (main_queue e) (buffer_queue e) (main_map e) (buffer_map e)
    (eflow_info e) (if arg >? 32 then 32 else arg) (eburst e) (main_ts e) (buffer_ts e) (egran e) (ehorizon e)
    (eslots e) (est e) (epackets_num e) (eenq_num e).

(** The end of [RunTask]: [up] is whether the port is administratively up, [cnt]
    the size of the batch. *)
Definition eiffel_after_send (up : bool) (cnt : Z) e : Eiffel St B :=
  if up then put_counts (u64 (epackets_num e - cnt)) (eenq_num e) e else e.

(** * The two arrays as one of unbounded extent *)

Context `{L : !BucketLaws (bool * Z) unit St B PacketEntry}.

(** The bank and the index of the [i]th slot from [main_ts]. *)
Definition bank_of e (i : Z) : bool := if i <? eslots e then main_queue e else buffer_queue e.
Definition index_of e (i : Z) : Z := if i <? eslots e then i else i - eslots e.

Record eiffel_ok e (cs : bool * Z -> list PacketEntry) (pend : Z -> list PacketEntry) (free : nat) : Prop := {
  eif_family : family (est e) (queues e) cs free;
  eif_config : 0 < eslots e <= 64 ^ 5 /\ 0 < egran e /\ ehorizon e = egran e * eslots e /\ ehorizon e < 2 ^ 32;
  eif_banks : main_queue e <> buffer_queue e /\ main_map e = main_queue e /\ buffer_map e = buffer_queue e;
  eif_time : 0 <= main_ts e < 2 ^ 62 /\ buffer_ts e = main_ts e + ehorizon e;
  eif_maps : forall b, bitmap_ok (maps e b) /\ eslots e <= slots_of (maps e b) /\
    n_layers (maps e b) = n_layers (maps e true);
  eif_bits : forall b i, cs (b, i) <> [] -> 0 <= i < eslots e -> slot (maps e b) i = true;
  eif_out : forall b i, slot (maps e b) i = true -> 0 <= i < slots_of (maps e b) -> i < eslots e;
  eif_slots : forall i, 0 <= i < 2 * eslots e ->
    cs (bank_of e i, index_of e i) = pend (main_ts e + i * egran e);
  eif_window : forall t, pend t <> [] -> exists i, 0 <= i < 2 * eslots e /\ t = main_ts e + i * egran e
}.

(** Every set bit stands for a bucket with packets. *)
Definition exact_bits e (cs : bool * Z -> list PacketEntry) : Prop :=
  forall b i, 0 <= i < eslots e -> slot (maps e b) i = true -> cs (b, i) <> [].

(** ** Lemmas *)

Lemma index_range e i : 0 <= i < 2 * eslots e -> 0 <= index_of e i < eslots e.
Proof. intros Hi. unfold index_of. destruct (Z.ltb_spec i (eslots e)); lia. Qed.

Lemma place_inj e i j :
  main_queue e <> buffer_queue e -> 0 <= i < 2 * eslots e -> 0 <= j < 2 * eslots e ->
  (bank_of e i, index_of e i) = (bank_of e j, index_of e j) -> i = j.
Proof.
  intros Hb Hi Hj E. unfold bank_of, index_of in E.
  destruct (Z.ltb_spec i (eslots e)), (Z.ltb_spec j (eslots e)); simplify_eq; lia || congruence.
Qed.

(** Every bucket has a place in the window. *)
Lemma place_surj e b k :
  main_queue e <> buffer_queue e -> 0 <= k < eslots e ->
  exists i, 0 <= i < 2 * eslots e /\ bank_of e i = b /\ index_of e i = k.
Proof.
  intros Hb Hk. destruct (decide (b = main_queue e)) as [->|Hne].
  - exists k. unfold bank_of, index_of. destruct (Z.ltb_spec k (eslots e)); [split; [lia|done]|lia].
  - exists (k + eslots e). unfold bank_of, index_of. destruct (Z.ltb_spec (k + eslots e) (eslots e)); [lia|].
    split; [lia|]. split; [|lia]. destruct b, (main_queue e), (buffer_queue e); congruence.
Qed.

Lemma pend_at e cs pend free i :
  eiffel_ok e cs pend free -> 0 <= i < 2 * eslots e -> pend (main_ts e + i * egran e) <> [] ->
  slot (maps e (bank_of e i)) (index_of e i) = true.
Proof.
  intros K Hi Hp. apply (eif_bits _ _ _ _ K); [|by apply index_range].
  by rewrite (eif_slots _ _ _ _ K).
Qed.

(** Nothing is pending in a slot before the first one whose bit is set. *)
Lemma pend_below e cs pend free i :
  eiffel_ok e cs pend free -> 0 <= i <= 2 * eslots e ->
  (forall j, 0 <= j < i -> slot (maps e (bank_of e j)) (index_of e j) = false) ->
  forall t, t < main_ts e + i * egran e -> pend t = [].
Proof.
  intros K Hi Hlow t Ht. pose proof (eif_config _ _ _ _ K) as (_ & Hg & _).
  destruct (pend t) eqn:E; [done|]. assert (Hne : pend t <> []) by (by rewrite E).
  destruct (eif_window _ _ _ _ K t Hne) as (j & Hj & ->).
  pose proof (pend_at _ _ _ _ _ K Hj Hne) as Hs. rewrite Hlow in Hs; [done|]. nia.
Qed.

Lemma eif_update e cs pend free i b st l' free' bm bit :
  eiffel_ok e cs pend free -> 0 <= i < 2 * eslots e ->
  family st (<[(bank_of e i, index_of e i) := b]> (queues e)) (<[(bank_of e i, index_of e i) := l']> cs) free' ->
  bitmap_ok bm -> n_layers bm = n_layers (maps e (bank_of e i)) ->
  (forall y, slot bm y = if decide (y = index_of e i) then bit else slot (maps e (bank_of e i)) y) ->
  (l' <> [] -> bit = true) ->
  eiffel_ok (put_bucket (bank_of e i) (index_of e i) b st (put_map (bank_of e i) bm e))
    (<[(bank_of e i, index_of e i) := l']> cs) (<[main_ts e + i * egran e := l']> pend) free' /\
  ((bit = true -> l' <> []) -> exact_bits e cs ->
   exact_bits (put_bucket (bank_of e i) (index_of e i) b st (put_map (bank_of e i) bm e)) (<[(bank_of e i, index_of e i) := l']> cs)).
Proof.
  intros [Kf Kc Kb Kt Km Ks Ko Kp Kw] Hi F Hbm Hn Hbits Hl. destruct Kc as (Hsl & Hg & Hh & Hh').
  assert (Eslots : slots_of bm = slots_of (maps e (bank_of e i))) by (unfold slots_of; by rewrite Hn).
  split; [split; simpl; try done|].
  - intros b'. destruct (decide (bank_of e i = b')) as [<-|]; [rewrite fn_insert_eq|rewrite fn_insert_ne by done].
    + destruct (Km (bank_of e i)) as (? & ? & En). rewrite Eslots. split; [done|]. split; [done|].
      destruct (decide (bank_of e i = true)) as [->|]; [by rewrite fn_insert_eq|].
      rewrite fn_insert_ne by done. by rewrite Hn.
    + destruct (Km b') as (? & ? & En). split; [done|]. split; [done|].
      destruct (decide (bank_of e i = true)) as [Ht|]; [|by rewrite fn_insert_ne].
      rewrite Ht, fn_insert_eq, Hn, Ht. done.
  - intros b' k Hk Hkr. destruct (decide ((b', k) = (bank_of e i, index_of e i))) as [E|Hne].
    + simplify_eq. rewrite fn_insert_eq in Hk. rewrite fn_insert_eq, Hbits, decide_True by done. by apply Hl.
    + rewrite fn_insert_ne in Hk by congruence. specialize (Ks _ _ Hk Hkr).
      destruct (decide (bank_of e i = b')) as [<-|]; [|by rewrite fn_insert_ne].
      rewrite fn_insert_eq, Hbits, decide_False; [done|]. intros ->. done.
  - intros b' k Hk Hkr. destruct (decide (bank_of e i = b')) as [<-|];
      [|rewrite fn_insert_ne in Hk, Hkr by done; eauto].
    rewrite fn_insert_eq in Hk, Hkr. rewrite Hbits in Hk. rewrite Eslots in Hkr.
    case_decide; [subst; by apply index_range|eauto].
  - intros j Hj. destruct (decide (i = j)) as [<-|Hne].
    + unfold bank_of, index_of. simpl. fold (bank_of e i) (index_of e i). by rewrite !fn_insert_eq.
    + change (bank_of _ j) with (bank_of e j). change (index_of _ j) with (index_of e j).
      rewrite !fn_insert_ne; [by apply Kp|nia|].
      intros E. apply Hne. by apply (place_inj e i j); [apply Kb|..].
  - intros t Ht. destruct (decide (main_ts e + i * egran e = t)) as [<-|]; [eauto|].
    rewrite fn_insert_ne in Ht by done. eauto.
  - intros Hbit Hx b' k Hk Hs. simpl in Hk, Hs.
    destruct (decide ((b', k) = (bank_of e i, index_of e i))) as [E|Hne].
    + simplify_eq. rewrite fn_insert_eq, Hbits, decide_True in Hs by done. rewrite fn_insert_eq. auto.
    + rewrite fn_insert_ne by congruence. apply Hx; [done|].
      destruct (decide (bank_of e i = b')) as [<-|]; [|by rewrite fn_insert_ne in Hs].
      rewrite fn_insert_eq, Hbits, decide_False in Hs; [done|]. intros ->. done.
Qed.

(** With the main bitmap empty the arrays can change places. *)
Lemma rotation_ok e cs pend free :
  eiffel_ok e cs pend free -> (forall k, 0 <= k < eslots e -> slot (maps e (main_queue e)) k = false) ->
  main_ts e + ehorizon e < 2 ^ 62 ->
  eiffel_ok (AdjustRotation e) cs pend free.
Proof.
  intros K Hm Hts. pose proof K as [Kf Kc Kb Kt Km Ks Ko Kp Kw].
  destruct Kc as (Hsl & Hg & Hh & Hh'). destruct Kb as (Hb & Hb1 & Hb2). destruct Kt as [Ht Hbt].
  split; simpl; try done.
  - rewrite Hbt, wrap_small by lia. split; [lia|done].
  - intros i Hi. unfold bank_of, index_of. simpl. rewrite Hbt, Hh. destruct (Z.ltb_spec i (eslots e)) as [Hl|Hl].
    + specialize (Kp (i + eslots e) ltac:(lia)). unfold bank_of, index_of in Kp.
      destruct (Z.ltb_spec (i + eslots e) (eslots e)); [lia|].
      replace (i + eslots e - eslots e) with i in Kp by lia. rewrite Kp. f_equal. lia.
    + assert (E1 : cs (main_queue e, i - eslots e) = []).
      { destruct (cs (main_queue e, i - eslots e)) eqn:E; [done|].
        assert (Hne : cs (main_queue e, i - eslots e) <> []) by (by rewrite E).
        specialize (Ks _ _ Hne ltac:(lia)). rewrite Hm in Ks by lia. done. }
      rewrite E1. destruct (pend _) eqn:E; [done|].
      assert (Hne : pend (main_ts e + egran e * eslots e + i * egran e) <> []) by (by rewrite E).
      destruct (Kw _ Hne) as (j & Hj & Ej). assert (j = i + eslots e) by nia. lia.
  - intros t Hp. destruct (Kw t Hp) as (j & Hj & ->).
    pose proof (pend_at _ _ _ _ _ K Hj Hp) as Hs. unfold bank_of, index_of in Hs.
    destruct (Z.ltb_spec j (eslots e)) as [Hl|Hl]; [by rewrite Hm in Hs by lia|].
    exists (j - eslots e). split; [lia|]. rewrite Hbt, Hh. lia.
Qed.

(** With both bitmaps empty time starts anew. *)
Lemma eif_reset e cs pend free now :
  eiffel_ok e cs pend free ->
  (forall b k, 0 <= k < eslots e -> slot (maps e b) k = false) -> 0 <= now < 2 ^ 62 ->
  eiffel_ok (put_ts now (u64 (now + ehorizon e)) e) cs pend free /\ forall t, pend t = [].
Proof.
  intros K Hm Hnow. pose proof K as [Kf Kc Kb Kt Km Ks Ko Kp Kw].
  destruct Kc as (Hsl & Hg & Hh & Hh').
  assert (Hcs : forall b k, 0 <= k < eslots e -> cs (b, k) = []).
  { intros b k Hk. destruct (cs (b, k)) eqn:E; [done|].
    assert (Hne : cs (b, k) <> []) by (by rewrite E). specialize (Ks _ _ Hne Hk). by rewrite Hm in Ks. }
  assert (Hp : forall t, pend t = []).
  { intros t. destruct (pend t) eqn:E; [done|]. assert (Hne : pend t <> []) by (by rewrite E).
    destruct (Kw t Hne) as (i & Hi & ->). rewrite <- (Kp i Hi), Hcs in E; [done|by apply index_range]. }
  split; [|done]. split; simpl; try done.
  - rewrite wrap_small by lia. done.
  - intros i Hi. rewrite Hp. apply Hcs. by apply (index_range e).
  - intros t Ht. by rewrite Hp in Ht.
Qed.

Lemma eif_burst e cs pend free n : eiffel_ok e cs pend free -> eiffel_ok (put_burst n e) cs pend free.
Proof. intros [Kf Kc Kb Kt Km Ks Ko Kp Kw]. split; done. Qed.
Lemma eif_flows e cs pend free fi : eiffel_ok e cs pend free -> eiffel_ok (put_flows fi e) cs pend free.
Proof. intros [Kf Kc Kb Kt Km Ks Ko Kp Kw]. split; done. Qed.
Lemma eif_counts e cs pend free n m : eiffel_ok e cs pend free -> eiffel_ok (put_counts n m e) cs pend free.
Proof. intros [Kf Kc Kb Kt Km Ks Ko Kp Kw]. split; done. Qed.

Lemma ffs_ok e cs pend free :
  eiffel_ok e cs pend free ->
  exists i choice, ffs e = Some (i, choice) /\
    match choice with
    | MAIN_QUEUE => 0 <= i < eslots e /\ slot (maps e (main_queue e)) i = true /\
        forall k, 0 <= k < i -> slot (maps e (main_queue e)) k = false
    | BUFFER_QUEUE => (forall k, 0 <= k < eslots e -> slot (maps e (main_queue e)) k = false) /\
        0 <= i < eslots e /\ slot (maps e (buffer_queue e)) i = true /\
        forall k, 0 <= k < i -> slot (maps e (buffer_queue e)) k = false
    | NO_QUEUE => forall b k, 0 <= k < eslots e -> slot (maps e b) k = false
    end.
Proof.
  intros K. destruct (eif_banks _ _ _ _ K) as (Hb & Em & Eb). unfold ffs. rewrite Em, Eb.
  destruct (eif_maps _ _ _ _ K (main_queue e)) as (Om & Sm & Nm).
  destruct (eif_maps _ _ _ _ K (buffer_queue e)) as (Ob & Sb & Nb).
  pose proof (ffs_map_ok _ Om) as Pm. pose proof (ffs_map_ok _ Ob) as Pb.
  replace (BMap (n_layers (maps e (main_queue e))) (bit_map (maps e (buffer_queue e))))
    with (maps e (buffer_queue e)) by (rewrite Nm, <- Nb; by destruct (maps e (buffer_queue e))).
  destruct (_ =? 0).
  - destruct Pm as [-> Hm]. cbn [mbind option_bind negb]. destruct (_ =? 0).
    + destruct Pb as [-> Hbb]. cbn [mbind option_bind negb]. eexists _, NO_QUEUE. split; [reflexivity|].
      intros b k Hk. destruct (decide (b = main_queue e)) as [->|Hne]; [apply Hm; lia|].
      replace b with (buffer_queue e) by (destruct b, (main_queue e), (buffer_queue e); congruence).
      apply Hbb. lia.
    + destruct Pb as (r & -> & Hr & Hs & Hlow). cbn [mbind option_bind negb].
      eexists _, BUFFER_QUEUE. split; [reflexivity|]. split; [intros; apply Hm; lia|].
      pose proof (eif_out _ _ _ _ K _ _ Hs Hr). split; [lia|]. done.
  - destruct Pm as (r & -> & Hr & Hs & Hlow). cbn [mbind option_bind negb].
    eexists _, MAIN_QUEUE. split; [reflexivity|]. pose proof (eif_out _ _ _ _ K _ _ Hs Hr). split; [lia|]. done.
Qed.

Lemma bulk_quota_some burst n :
  -2 ^ 31 <= burst < 2 ^ 31 -> 0 < burst -> 0 < n < 2 ^ 31 -> 0 < bulk_quota burst n.
Proof.
  intros Hb Hp Hn. unfold bulk_quota. rewrite wrap_small by lia.
  destruct (Z.gtb_spec burst n); [rewrite to_signed_small; lia|lia].
Qed.

(** The packets taken are the newest of the first slot with a bit set. *)
Definition taken (burst : Z) (l : list PacketEntry) : nat :=
  Z.to_nat (bulk_quota burst (Z.of_nat (length l))).

Definition eiffel_post (now : Z) e (cs : bool * Z -> list PacketEntry) (pend : Z -> list PacketEntry)
    (free : nat) (e' : Eiffel St B) (out : list PacketEntry) : Prop :=
  exists t cs' pend' free', eiffel_ok e' cs' pend' free' /\
    (forall t', t' < t -> pend t' = []) /\
    (if t <=? now then out = take (taken (emax_burst e) (pend t)) (pend t) /\
       pend' = <[t := drop (taken (emax_burst e) (pend t)) (pend t)]> pend /\
       free' = (free + length out)%nat
     else out = [] /\ pend' = pend /\ free' = free) /\
    (exact_bits e cs -> exact_bits e' cs' /\ (t <= now -> pend t <> [])) /\
    eflow_info e' = eflow_info e /\ epackets_num e' = epackets_num e.

Lemma dequeue_bucket_ok now e cs pend free i :
  eiffel_ok e cs pend free -> 0 <= i < eslots e -> slot (maps e (main_queue e)) i = true ->
  (forall k, 0 <= k < i -> slot (maps e (main_queue e)) k = false) ->
  -2 ^ 31 <= emax_burst e < 2 ^ 31 ->
  exists e' out, dequeue_bucket now i e = Some (e', out) /\ eiffel_post now e cs pend free e' out.
Proof.
  intros K Hi Hs Hlow Hb. pose proof K as [Kf Kc Kb Kt Km Ks Ko Kp Kw].
  destruct Kc as (Hsl & Hg & Hh & Hh'). destruct Kb as (Hbk & Em & Eb). destruct Kt as [Ht Hbt].
  assert (Ebank : bank_of e i = main_queue e) by (unfold bank_of; destruct (Z.ltb_spec i (eslots e)); [done|lia]).
  assert (Eidx : index_of e i = i) by (unfold index_of; destruct (Z.ltb_spec i (eslots e)); [done|lia]).
  set (t := main_ts e + i * egran e).
  assert (Hbelow : forall t', t' < t -> pend t' = []).
  { apply (pend_below e cs pend free i K ltac:(lia)). intros j Hj.
    unfold bank_of, index_of. destruct (Z.ltb_spec j (eslots e)); [by apply Hlow|lia]. }
  pose proof (Kp i ltac:(lia)) as Ept. rewrite Ebank, Eidx in Ept. fold t in Ept.
  assert (Hig : 0 <= i * egran e <= ehorizon e) by nia.
  unfold dequeue_bucket. rewrite (wrap_small 64 (i * egran e)), (wrap_small 64) by lia. replace (i * egran e + main_ts e) with t by (unfold t; lia).
  destruct (Z.gtb_spec t now) as [Hgt|Hle].
  - eexists _, _. split; [reflexivity|]. exists t, cs, pend, free. split; [done|]. split; [done|].
    destruct (Z.leb_spec t now); [lia|]. split; [done|]. split; [|done]. intros Hx. split; [done|lia].
  - rewrite option_guard_True by lia. cbn [mbind option_bind].
    destruct (family_dequeue tt _ _ _ _ (main_queue e, i) (emax_burst e) Hb Kf) as (st' & b' & Eq & F & _).
    rewrite Eq. cbn [mbind option_bind]. rewrite Ept in F |- *. fold (taken (emax_burst e) (pend t)) in F |- *.
    set (k := taken (emax_burst e) (pend t)) in *.
    pose proof (family_empty _ _ _ _ (main_queue e, i) F) as He. rewrite !fn_insert_eq in He.
    assert (Hupd : forall bm bit, bitmap_ok bm -> n_layers bm = n_layers (maps e (main_queue e)) ->
      (forall y, slot bm y = if decide (y = i) then bit else slot (maps e (main_queue e)) y) ->
      (drop k (pend t) <> [] -> bit = true) -> (bit = true -> drop k (pend t) <> []) ->
      eiffel_ok (put_bucket (main_queue e) i b' st' (put_map (main_queue e) bm e))
        (<[(main_queue e, i) := drop k (pend t)]> cs) (<[t := drop k (pend t)]> pend)
        (free + length (take k (pend t))) /\
      (exact_bits e cs -> exact_bits (put_bucket (main_queue e) i b' st' (put_map (main_queue e) bm e))
        (<[(main_queue e, i) := drop k (pend t)]> cs))).
    { intros bm bit H1 H2 H3 H4 H5.
      pose proof (eif_update e cs pend free i b' st' (drop k (pend t))
        (free + length (take k (pend t))) bm bit K ltac:(lia)) as U.
      rewrite Ebank, Eidx in U. destruct (U F H1 H2 H3 H4) as [U1 U2]. split; [exact U1|]. auto. }
    assert (Hpost : forall e2 bm, eiffel_ok e2 (<[(main_queue e, i) := drop k (pend t)]> cs)
        (<[t := drop k (pend t)]> pend) (free + length (take k (pend t))) ->
      (exact_bits e cs -> exact_bits e2 (<[(main_queue e, i) := drop k (pend t)]> cs)) ->
      eflow_info e2 = eflow_info e -> epackets_num e2 = epackets_num e -> bm = e2 ->
      eiffel_post now e cs pend free bm (take k (pend t))).
    { intros e2 bm K2 X2 F2 N2 ->. exists t, (<[(main_queue e, i) := drop k (pend t)]> cs),
        (<[t := drop k (pend t)]> pend), (free + length (take k (pend t)))%nat.
      split; [done|]. split; [done|]. destruct (Z.leb_spec t now); [|lia]. split; [done|].
      split; [|done]. intros Hx. split; [by apply X2|]. intros _. rewrite <- Ept.
      apply Hx; [lia|done]. }
    destruct (bucket_IsEmpty b') eqn:Eb'.
    + destruct (Km (main_queue e)) as (Om & Sm & _).
      destruct (free_ok (maps e (main_queue e)) i Om ltac:(lia)) as (bm & Ef & Obm & Nbm & Hbm).
      change (maps (put_burst _ (put_bucket _ _ _ _ _))) with (maps e).
      change (main_map (put_burst _ (put_bucket _ _ _ _ _))) with (main_map e). rewrite Em.
      rewrite Ef. cbn [mbind option_bind]. eexists _, _. split; [reflexivity|].
      assert (Ed : drop k (pend t) = []) by (by apply He).
      destruct (Hupd bm false Obm Nbm Hbm) as [K2 X2]; [by rewrite Ed|done|].
      eapply (Hpost (put_burst (u32 (Z.of_nat (length (take k (pend t)))))
        (put_bucket (main_queue e) i b' st' (put_map (main_queue e) bm e)))); try done.
      by apply eif_burst.
    + eexists _, _. split; [reflexivity|].
      assert (Hd : drop k (pend t) <> []) by (intros E; apply He in E; congruence).
      destruct (Km (main_queue e)) as (Om & Sm & _).
      destruct (Hupd (maps e (main_queue e)) true Om eq_refl) as [K2 X2]; [|done|done|].
      { intros y. case_decide as Ey; [by rewrite Ey|done]. }
      assert (Esame : forall b, <[main_queue e := maps e (main_queue e)]> (maps e) b = maps e b)
        by (intros; apply insert_same).
      eapply (Hpost (put_burst (u32 (Z.of_nat (length (take k (pend t))))) (put_bucket (main_queue e) i b' st' e)));
        try done.
      * destruct K2 as [Jf Jc Jb Jt Jm Js Jo Jp Jw]. split; try done;
          cbn [maps put_bucket put_map put_burst eslots] in *.
        intros b j. specialize (Js b j). by rewrite Esame in Js.
      * intros Hx b j Hj Hsj. apply (X2 Hx b j Hj). cbn [maps put_bucket put_map put_burst]. by rewrite Esame.
Qed.

Lemma eiffel_dequeue_ok now e cs pend free :
  eiffel_ok e cs pend free -> 0 <= now < 2 ^ 62 -> -2 ^ 31 <= emax_burst e < 2 ^ 31 ->
  main_ts e + ehorizon e < 2 ^ 62 ->
  exists e' out, eiffel_Dequeue now e = Some (e', out) /\
    (((forall t, pend t = []) /\ out = [] /\ main_ts e' = now /\ eiffel_ok e' cs pend free) \/
     eiffel_post now e cs pend free e' out).
Proof.
  intros K Hnow Hb Hts. unfold eiffel_Dequeue. pose proof (eif_burst _ _ _ _ 0 K) as K0.
  destruct (ffs_ok _ _ _ _ K0) as (i & choice & -> & P). cbn [mbind option_bind]. destruct choice.
  - destruct P as (Hi & Hs & Hlow).
    destruct (dequeue_bucket_ok now _ _ _ _ i K0 Hi Hs Hlow Hb) as (e' & out & E & Hp).
    exists e', out. split; [exact E|]. right. exact Hp.
  - destruct P as (Hm & Hi & Hs & Hlow).
    pose proof (rotation_ok _ _ _ _ K0 Hm Hts) as K1.
    destruct (dequeue_bucket_ok now _ _ _ _ i K1 Hi Hs Hlow Hb) as (e' & out & E & Hp).
    exists e', out. split; [exact E|]. right. exact Hp.
  - destruct (eif_reset _ _ _ _ now K0 P Hnow) as [K1 Hp].
    eexists _, _. split; [reflexivity|]. left. done.
Qed.

Lemma eif_ext e cs pend pend' free :
  (forall t, pend' t = pend t) -> eiffel_ok e cs pend free -> eiffel_ok e cs pend' free.
Proof.
  intros H [Kf Kc Kb Kt Km Ks Ko Kp Kw]. split; try done.
  - intros i Hi. rewrite H. by apply Kp.
  - intros t Ht. rewrite H in Ht. by apply Kw.
Qed.

(** Filing a packet in the [i]th slot from [main_ts]. *)
Lemma insert_at e cs pend free i p :
  eiffel_ok e cs pend free -> 0 <= i < 2 * eslots e -> entry_ok (est e) p ->
  let t := main_ts e + i * egran e in
  exists bm st b ret, SetBitMap (index_of e i) (maps e (bank_of e i)) = Some bm /\
    enqueue_packet (est e) (queues e (bank_of e i, index_of e i)) p = Some (st, b, ret) /\
    let e' := put_bucket (bank_of e i) (index_of e i) b st (put_map (bank_of e i) bm e) in
    match free with
    | O => ret = -1 /\ exists cs', eiffel_ok e' cs' pend O
    | S n => ret = 0 /\ exists cs', eiffel_ok e' cs' (<[t := p :: pend t]> pend) n /\
        (exact_bits e cs -> exact_bits e' cs') /\ (forall p', entry_ok (est e) p' -> entry_ok st p')
    end.
Proof.
  intros K Hi Hp t. pose proof (index_range _ _ Hi) as Hidx.
  destruct (eif_maps _ _ _ _ K (bank_of e i)) as (Obm & Sbm & _).
  destruct (set_ok (maps e (bank_of e i)) (index_of e i) Obm ltac:(lia)) as (bm & Es & Obm' & Nbm & Hbm).
  pose proof (family_enqueue _ _ _ _ (bank_of e i, index_of e i) p (eif_family _ _ _ _ K) Hp) as P.
  pose proof (eif_slots _ _ _ _ K i Hi) as Ep. fold t in Ep. exists bm. destruct free as [|n].
  - eexists _, _, _. split; [done|]. split; [exact P|]. split; [done|].
    assert (F : family (est e) (<[(bank_of e i, index_of e i) := queues e (bank_of e i, index_of e i)]> (queues e))
      (<[(bank_of e i, index_of e i) := pend t]> cs) O).
    { eapply family_ext; [| |exact (eif_family _ _ _ _ K)]; intros j; [apply insert_same|].
      rewrite <- Ep. apply insert_same. }
    destruct (eif_update _ _ _ _ i _ _ _ _ bm true K Hi F Obm' Nbm Hbm (fun _ => eq_refl)) as [K' _].
    eexists. eapply eif_ext; [|exact K']. intros t'. symmetry. fold t. apply insert_same.
  - destruct P as (st' & b' & E & F & Hok). exists st', b', 0. split; [done|]. split; [done|]. split; [done|].
    rewrite Ep in F.
    destruct (eif_update _ _ _ _ i _ _ _ _ bm true K Hi F Obm' Nbm Hbm (fun _ => eq_refl)) as [K' X'].
    eexists. split; [exact K'|]. split; [by apply X'|done].
Qed.

(** The slot, counted from [main_ts], of a packet sent at [send_time], and the
    time it is given. *)
Definition place_of e (send_time : Z) : Z := Z.max 0 ((send_time - main_ts e) / egran e).

Definition insert_post e (cs : bool * Z -> list PacketEntry) (pend : Z -> list PacketEntry) (free : nat)
    (p : PacketEntry) (send_time : Z) (e' : Eiffel St B) (ret send_time' : Z) : Prop :=
  if send_time >=? main_ts e + 2 * ehorizon e then ret = -1 /\ e' = e /\ send_time' = send_time
  else
    let t := main_ts e + place_of e send_time * egran e in
    send_time' = Z.max send_time (main_ts e) /\ t <= send_time' < t + egran e /\
    eflow_info e' = eflow_info e /\ epackets_num e' = epackets_num e /\ eenq_num e' = eenq_num e /\
    match free with
    | O => ret = -1 /\ exists cs', eiffel_ok e' cs' pend O
    | S n => ret = 0 /\ exists cs', eiffel_ok e' cs' (<[t := p :: pend t]> pend) n /\
        (exact_bits e cs -> exact_bits e' cs') /\ (forall p', entry_ok (est e) p' -> entry_ok (est e') p')
    end.

Lemma drop_insert_ok e cs pend free p send_time :
  eiffel_ok e cs pend free -> entry_ok (est e) p -> 0 <= send_time < 2 ^ 63 ->
  exists e' ret t', DropPacketInsert e p send_time = Some (e', ret, t') /\
    insert_post e cs pend free p send_time e' ret t'.
Proof.
  intros K Hp Hst. pose proof (eif_config _ _ _ _ K) as (Hsl & Hg & Hh & Hh').
  destruct (eif_banks _ _ _ _ K) as (Hb & Em & Eb). destruct (eif_time _ _ _ _ K) as [Ht Hbt].
  unfold DropPacketInsert, insert_post. rewrite option_guard_True by lia. cbn [mbind option_bind].
  rewrite (wrap_small 64 (main_ts e + ehorizon e)), (wrap_small 64 (_ + ehorizon e)) by lia.
  set (d := send_time - main_ts e).
  assert (Hd : send_time = main_ts e + d) by (unfold d; lia).
  set (i := place_of e send_time).
  assert (Hi : i = Z.max 0 (d / egran e)) by done.
  pose proof (Z.mul_div_le d (egran e) Hg) as Hd1. pose proof (Z.mul_succ_div_gt d (egran e) Hg) as Hd2.
  destruct (Z.ltb_spec send_time (buffer_ts e)) as [Hlt|Hge].
  - destruct (Z.geb_spec send_time (main_ts e + 2 * ehorizon e)) as [|_]; [lia|].
    assert (Hir : 0 <= i < eslots e) by nia.
    destruct (insert_at e cs pend free i p K ltac:(lia) Hp) as (bm & st & b & ret & Es & Ee & P).
    unfold bank_of, index_of in Es, Ee, P. destruct (Z.ltb_spec i (eslots e)); [|lia].
    assert (Eidx : (if send_time <? main_ts e then 0 else d / egran e) = i).
    { destruct (Z.ltb_spec send_time (main_ts e)); [|nia]. rewrite Hi. nia. }
    fold d. rewrite Eidx, Em, Es. cbn [mbind option_bind]. rewrite option_guard_True by lia.
    cbn [mbind option_bind]. cbn [est queues main_queue put_map]. rewrite Ee. cbn [mbind option_bind].
    eexists _, _, _. split; [reflexivity|].
    split; [destruct (Z.ltb_spec send_time (main_ts e)); lia|].
    split; [destruct (Z.ltb_spec send_time (main_ts e)); nia|].
    split; [done|]. split; [done|]. split; [done|]. exact P.
  - destruct (Z.geb_spec send_time (main_ts e + ehorizon e + ehorizon e)) as [Hfar|Hnear].
    + destruct (Z.geb_spec send_time (main_ts e + 2 * ehorizon e)) as [_|]; [|lia].
      eexists _, _, _. split; [reflexivity|]. done.
    + destruct (Z.geb_spec send_time (main_ts e + 2 * ehorizon e)) as [|_]; [lia|].
      assert (Hir : eslots e <= i < 2 * eslots e) by nia.
      destruct (insert_at e cs pend free i p K ltac:(lia) Hp) as (bm & st & b & ret & Es & Ee & P).
      unfold bank_of, index_of in Es, Ee, P. destruct (Z.ltb_spec i (eslots e)); [lia|].
      assert (Eidx : u64 (send_time - buffer_ts e) / egran e = i - eslots e).
      { rewrite wrap_small by lia. replace (send_time - buffer_ts e) with (d + (- eslots e) * egran e) by lia.
        rewrite Z.div_add by lia. nia. }
      rewrite Eidx, Eb, Es. cbn [mbind option_bind]. rewrite option_guard_True by lia.
      cbn [mbind option_bind]. cbn [est queues buffer_queue put_map]. rewrite Ee. cbn [mbind option_bind].
      eexists _, _, _. split; [reflexivity|]. split; [lia|]. split; [nia|].
      split; [done|]. split; [done|]. split; [done|]. exact P.
Qed.

(** What the loop of [Enqueue] does with one packet of flow [f]. *)
Definition eiffel_enqueue_post e (cs : bool * Z -> list PacketEntry) (pend : Z -> list PacketEntry) (free : nat)
    (f : Z) (info : FlowInfo) (a : addr) (bytes now : Z) (e' : Eiffel St B) (dropped : bool) : Prop :=
  let info := flow_ready info now in
  let stamp := Z.max now (last_stamp info + packet_time info bytes) in
  exists cs' pend' free', eiffel_ok e' cs' pend' free' /\
    if dropped then (forall t, pend' t = pend t) /\ free' = free /\ epackets_num e' = epackets_num e /\
      eflow_info e' !! Z.to_nat f = Some info /\
      (main_ts e + 2 * ehorizon e <= stamp \/ free = O)
    else exists t stamp', stamp' = Z.max stamp (main_ts e) /\ stamp < main_ts e + 2 * ehorizon e /\
      t = main_ts e + egran e * ((stamp' - main_ts e) / egran e) /\ t <= stamp' < t + egran e /\
      eflow_info e' !! Z.to_nat f = Some (Flow stamp' (frate info)) /\
      pend' = <[t := PEntry a f :: pend t]> pend /\ (exact_bits e cs -> exact_bits e' cs') /\
      free = S free' /\ epackets_num e' = epackets_num e + 1.

Lemma eiffel_enqueue_ok pk e cs pend free a pkt info now :
  eiffel_ok e cs pend free -> 0 <= epackets_num e < 2 ^ 63 ->
  pk !! a = Some pkt -> 0 <= total_len pkt < 2 ^ 16 -> 0 <= ip_src pkt ->
  eflow_info e !! Z.to_nat (ip_src pkt) = Some info ->
  0 <= last_stamp info < 2 ^ 61 -> 0 <= frate info < 2 ^ 32 -> 0 <= now < 2 ^ 61 ->
  entry_ok (est e) (PEntry a (ip_src pkt)) ->
  exists e' dropped, eiffel_enqueue_one pk e a now = Some (e', dropped) /\
    eiffel_enqueue_post e cs pend free (ip_src pkt) info a (total_len pkt) now e' dropped.
Proof.
  intros K Hn Hpk Hl Hf Hi Hst Hr Hnow Hok. unfold eiffel_enqueue_one, eiffel_enqueue_post.
  rewrite Hpk. cbn [mbind option_bind]. rewrite option_guard_True by done. cbn [mbind option_bind].
  rewrite Hi. cbn [mbind option_bind]. set (inf := flow_ready info now).
  assert (Hinf : 0 <= last_stamp inf < 2 ^ 61 /\ 0 < frate inf < 2 ^ 32).
  { unfold inf, flow_ready. destruct (Z.eqb_spec (frate info) 0); simpl; unfold DEFAULT_FLOW_RATE; lia. }
  destruct (next_stamp_ok inf (total_len pkt) now ltac:(lia) ltac:(lia) Hl) as (-> & Hpt & _).
  cbn [mbind option_bind]. pose proof (eif_flows _ _ _ _ (<[Z.to_nat (ip_src pkt) := inf]> (eflow_info e)) K) as K0.
  set (e0 := put_flows _ e) in *.
  assert (Hinf0 : eflow_info e0 !! Z.to_nat (ip_src pkt) = Some inf).
  { apply list_lookup_insert_eq. by eapply lookup_lt_Some. }
  set (stamp := Z.max now (last_stamp inf + packet_time inf (total_len pkt))).
  assert (Est : (if last_stamp inf + packet_time inf (total_len pkt) >=? now
    then last_stamp inf + packet_time inf (total_len pkt) else now) = stamp).
  { unfold stamp. destruct (Z.geb_spec (last_stamp inf + packet_time inf (total_len pkt)) now); lia. }
  rewrite Est. assert (Hs : 0 <= stamp < 2 ^ 63) by (unfold stamp; lia).
  destruct (drop_insert_ok e0 cs pend free (PEntry a (ip_src pkt)) stamp K0 Hok Hs) as (e1 & ret & t' & -> & P).
  cbn [mbind option_bind]. unfold insert_post in P.
  change (main_ts e0) with (main_ts e) in P. change (ehorizon e0) with (ehorizon e) in P.
  change (egran e0) with (egran e) in P.
  destruct (Z.geb_spec stamp (main_ts e + 2 * ehorizon e)) as [Hfar|Hnear].
  { destruct P as (-> & -> & ->). eexists _, true. split; [reflexivity|].
    exists cs, pend, free. split; [done|]. split; [done|]. split; [done|]. split; [done|].
    split; [done|]. left. lia. }
  destruct P as (Et' & Ht' & Ef & En & Een & P). destruct free as [|n].
  - destruct P as (-> & cs' & K1). eexists _, true. split; [reflexivity|].
    exists cs', pend, O. split; [done|]. split; [done|]. split; [done|]. split; [by rewrite En|].
    split; [by rewrite Ef|by right].
  - destruct P as (-> & cs' & K1 & X1 & _). eexists _, false. split; [reflexivity|].
    eexists cs', _, n. split; [apply eif_counts, eif_flows; exact K1|].
    eexists _, t'. split; [exact Et'|]. split; [done|]. split; [|split; [exact Ht'|]].
    { pose proof (eif_config _ _ _ _ K) as (_ & Hg & _). unfold place_of. change (main_ts e0) with (main_ts e).
      change (egran e0) with (egran e). subst t'. rewrite Z.mul_comm. do 2 f_equal.
      destruct (Z.max_spec stamp (main_ts e)) as [[Hlt ->]|[Hle ->]].
      - rewrite Z.sub_diag, Z.div_0_l by lia. pose proof (Z.div_lt_upper_bound (stamp - main_ts e) (egran e) 0). lia.
      - pose proof (Z.div_pos (stamp - main_ts e) (egran e)). lia. } split; [|split; [done|split; [|split; [done|]]]].
    + simpl. apply list_lookup_insert_eq. rewrite Ef. by eapply lookup_lt_Some.
    + exact X1.
    + simpl. rewrite En, wrap_small; [done|]. change (epackets_num e0) with (epackets_num e). lia.
Qed.

(** * Properties *)

(** C8. [Dequeue] never gives a packet out before its slot, goes through the
    slots in order and through the change of arrays without losing or reordering
    any, takes at most [max_dequeue_burst_] packets; when every set bit has a
    packet it stays so, and then a due packet is always found.  With nothing
    queued the window starts anew at the present. *)
Theorem eiffel_dequeue now e cs pend free :
  eiffel_ok e cs pend free -> 0 <= now < 2 ^ 62 -> -2 ^ 31 <= emax_burst e < 2 ^ 31 ->
  main_ts e + ehorizon e < 2 ^ 62 ->
  exists e' out, eiffel_Dequeue now e = Some (e', out) /\
    (((forall t, pend t = []) /\ out = [] /\ main_ts e' = now /\ eiffel_ok e' cs pend free) \/
     eiffel_post now e cs pend free e' out).
Proof. apply eiffel_dequeue_ok. Qed.

(** C11. The loop of [Enqueue]: a packet stamped at least one transmission time
    after the last of its flow and not before the clock goes into the slot that contains
    its stamp, or, when that is before the start of the main array, into the first slot,
    stamped with the start; it is dropped only when it lies beyond the
    two horizons or the pool is empty, and then the stamp of the flow stays. *)
Theorem eiffel_enqueue pk e cs pend free a pkt info now :
  eiffel_ok e cs pend free -> 0 <= epackets_num e < 2 ^ 63 ->
  pk !! a = Some pkt -> 0 <= total_len pkt < 2 ^ 16 -> 0 <= ip_src pkt ->
  eflow_info e !! Z.to_nat (ip_src pkt) = Some info ->
  0 <= last_stamp info < 2 ^ 61 -> 0 <= frate info < 2 ^ 32 -> 0 <= now < 2 ^ 61 ->
  entry_ok (est e) (PEntry a (ip_src pkt)) ->
  exists e' dropped, eiffel_enqueue_one pk e a now = Some (e', dropped) /\
    eiffel_enqueue_post e cs pend free (ip_src pkt) info a (total_len pkt) now e' dropped.
Proof. apply eiffel_enqueue_ok. Qed.

End eiffel.

(** ** Two arrays of four slots of 1000 ns over a real pool *)

Definition demo_eiffel (m : blocks (node PacketEntry)) (p : MemoryPool) :
    Eiffel (shared PacketEntry ledger) ListBucket :=
  Eif (fun _ => new_bucket 3000) (fun _ => BMap 1 (fun _ _ => 0)) true false true false
    [Flow 0 8000; Flow 0 8000] 32 0 0 4000 1000 4000 4 (Shared m p demo_ledger) 0 0.

Lemma demo_eiffel_ok : exists m p,
  eiffel_ok (L := ListBucket_laws) (demo_eiffel m p) (fun _ => []) (fun _ => []) 2.
Proof.
  destruct (demo_family (I := bool * Z)) as (m & p & _ & F). exists m, p. split; simpl; try lia; try done.
  - intros b. split; [|split; [unfold slots_of; simpl; lia|done]].
    split; simpl; [lia|intros i k _ _; lia|]. intros i x _ _ _. unfold in_step, bit. by rewrite Z.testbit_0_l.
  - intros b i Hs. unfold slot, bit in Hs. simpl in Hs. by rewrite Z.testbit_0_l in Hs.
Qed.

Lemma eiffel_dequeue_witness : exists m p e' out, eiffel_Dequeue 5000 (demo_eiffel m p) = Some (e', out).
Proof.
  destruct demo_eiffel_ok as (m & p & K).
  destruct (eiffel_dequeue 5000 _ _ _ _ K) as (e' & out & E & _); [simpl; lia..|]. eauto.
Defined.

Lemma eiffel_enqueue_witness : exists m p e' d,
  eiffel_enqueue_one demo_packets (demo_eiffel m p) 1%positive 500 = Some (e', d).
Proof.
  destruct demo_eiffel_ok as (m & p & K).
  destruct (eiffel_enqueue demo_packets _ _ _ _ 1%positive (Pkt 1500 0 9) (Flow 0 8000) 500 K)
    as (e' & d & E & _).
  - simpl. lia.
  - reflexivity.
  - simpl. lia.
  - simpl. lia.
  - reflexivity.
  - simpl. lia.
  - simpl. lia.
  - lia.
  - split; [by eexists|]. unfold flow_known. simpl. lia.
  - eauto.
Defined.
