(* ===== verification/Bundler.v ===== *)
(** * The FlowBundler shaper: [modules/flowbundler.h] and [modules/flowbundler.cc]

    The user-space version of the multi-level calendar queue.  [m_queue] has 64
    queues of [bucket_num] buckets; the queue of a packet follows the rate of
    its destination, and its place the time it is due, rounded up to the slot of
    that queue.  The buckets are used through [BucketOps].  [None] is undefined
    behaviour: a shift by 64 or more, a count of the leading zeros of 0, or an
    index out of range; [_fls] is [builtin_clzll] and [_ffs] [builtin_ffsll]. *)

From S2P Require Import Prelude Ring Pool Buckets Ledger Shapers.

Definition QUEUE_NUM : Z := 64.
Definition MTU : Z := 1500.

Record Location := Loc { queue_id : Z; bucket_id : Z }.

Record FlowBundler (St B : Type) := FB {
  bucket_num_scale : Z;
  bucket_num : Z;
  min_gran_scale : Z;
  bid_mask : Z;
  max_rate : Z;
  max_rate_highest_bit : Z;
  m_queue : Z * Z -> B;
  n_packets_total : Z;
  n_packets : Z -> Z;
  bitmap : Z;
  head_time : Z;
  highest_rate_qid : Z;
  fdequeue_burst : Z;
  last_dequeued : Z;
  fflow_info : list FlowInfo;
  fst_ : St;
  total_enqueue_pkts_num : Z
}.
Arguments FB {St B}.
Arguments bucket_num_scale {St B}.
Arguments bucket_num {St B}.
Arguments min_gran_scale {St B}.
Arguments bid_mask {St B}.
Arguments max_rate {St B}.
Arguments max_rate_highest_bit {St B}.
Arguments m_queue {St B}.
Arguments n_packets_total {St B}.
Arguments n_packets {St B}.
Arguments bitmap {St B}.
Arguments head_time {St B}.
Arguments highest_rate_qid {St B}.
Arguments fdequeue_burst {St B}.
Arguments last_dequeued {St B}.
Arguments fflow_info {St B}.
Arguments fst_ {St B}.
Arguments total_enqueue_pkts_num {St B}.

(** [~((uint64_t) 0) << queue_id]. *)
Definition HeadTimeMask (queue_id : Z) : option Z :=
  guard (queue_id < 64);; Some (u64 (Z.shiftl (2 ^ 64 - 1) queue_id)).

Section bundler.
Context {St B : Type} `{Ops : BucketOps Z St B HBEntry}.
Implicit Types (c : FlowBundler St B).

(** ** Field updates *)

Definition fset_head (t : Z) c : FlowBundler St B :=
  FB (bucket_num_scale c) (bucket_num c) (min_gran_scale c) (bid_mask c) (max_rate c)
    (max_rate_highest_bit c) (m_queue c) (n_packets_total c) (n_packets c) (bitmap c) t
    (highest_rate_qid c) (fdequeue_burst c) (last_dequeued c) (fflow_info c) (fst_ c)
    (total_enqueue_pkts_num c).
Definition fset_hrq (i : Z) c : FlowBundler St B :=
  FB (bucket_num_scale c) (bucket_num c) (min_gran_scale c) (bid_mask c) (max_rate c)
    (max_rate_highest_bit c) (m_queue c) (n_packets_total c) (n_packets c) (bitmap c) (head_time c)
    i (fdequeue_burst c) (last_dequeued c) (fflow_info c) (fst_ c) (total_enqueue_pkts_num c).
Definition fset_bucket (q i : Z) (b : B) (st : St) c : FlowBundler St B :=
  FB (bucket_num_scale c) (bucket_num c) (min_gran_scale c) (bid_mask c) (max_rate c)
    (max_rate_highest_bit c) (<[(q, i) := b]> (m_queue c)) (n_packets_total c) (n_packets c) (bitmap c)
    (head_time c) (highest_rate_qid c) (fdequeue_burst c) (last_dequeued c) (fflow_info c) st
    (total_enqueue_pkts_num c).
(** Queue [q] has [k] packets more, or less. *)
Definition fcount (q k bm : Z) c : FlowBundler St B :=
  FB (bucket_num_scale c) (bucket_num c) (min_gran_scale c) (bid_mask c) (max_rate c)
    (max_rate_highest_bit c) (m_queue c) (u64 (n_packets_total c + k))
    (<[q := u32 (n_packets c q + k)]> (n_packets c)) bm
    (head_time c) (highest_rate_qid c) (fdequeue_burst c) (last_dequeued c) (fflow_info c) (fst_ c)
    (total_enqueue_pkts_num c).
Definition fset_last (n : Z) c : FlowBundler St B :=
  FB (bucket_num_scale c) (bucket_num c) (min_gran_scale c) (bid_mask c) (max_rate c)
    (max_rate_highest_bit c) (m_queue c) (n_packets_total c) (n_packets c) (bitmap c) (head_time c)
    (highest_rate_qid c) (fdequeue_burst c) n (fflow_info c) (fst_ c) (total_enqueue_pkts_num c).
Definition fset_flows (fi : list FlowInfo) (st : St) (n : Z) c : FlowBundler St B :=
  FB (bucket_num_scale c) (bucket_num c) (min_gran_scale c) (bid_mask c) (max_rate c)
    (max_rate_highest_bit c) (m_queue c) (n_packets_total c) (n_packets c) (bitmap c) (head_time c)
    (highest_rate_qid c) (fdequeue_burst c) (last_dequeued c) fi st n.

(** ** Configuration: the part of [Init] that builds the calendar *)

Definition init_bundler (bns mgs burst now : Z) (b0 : B) (st : St) : option (FlowBundler St B) :=
  let bns := u8 bns in
  let mgs := u8 mgs in
  guard (bns < 32 /\ mgs < 32);;
  let mr := Z.shiftr (RATE_SCALE * Z.shiftl MTU 3) mgs in
  top ← builtin_clzll mr;
  Some (FB bns (u64 (to_signed 32 (Z.shiftl 1 bns))) mgs (u32 (Z.shiftl 1 bns - 1)) mr top (fun _ => b0)
          0 (fun _ => 0) 0 now (QUEUE_NUM - 1) burst 0 [] st 0).

(** ** Locations *)

Definition FindQueueIndex c (rate : Z) : option Z :=
  let rate := if rate <? max_rate c then rate else max_rate c in
  z ← builtin_clzll rate;
  Some (u32 (z - max_rate_highest_bit c)).

Definition FindBucketIndex c (queue_id send_time : Z) : option Z :=
  let s := u32 (queue_id + min_gran_scale c) in
  guard (s < 64);;
  let bucket_id := Z.shiftr send_time s in
  Some (if u64 (Z.shiftl bucket_id s) <? send_time then u64 (bucket_id + 1) else bucket_id).

Definition FindRealLocation c (queue_id send_time : Z) : option Location :=
  bid ← FindBucketIndex c queue_id send_time;
  let q := u32 (queue_id + builtin_ffsll (Z.lor bid (Z.shiftl 1 (QUEUE_NUM - 1))) - 1) in
  let q := if q >=? QUEUE_NUM then QUEUE_NUM - 1 else q in
  b ← FindBucketIndex c q send_time;
  Some (Loc q (Z.land b (bid_mask c))).

(** An element of [m_queue]. *)
Definition bucket_at c (l : Location) : option B :=
  guard (0 <= queue_id l < QUEUE_NUM /\ 0 <= bucket_id l < bucket_num c);;
  Some (m_queue c (queue_id l, bucket_id l)).

(** ** Enqueue *)

(** The queue of a packet due at [actual_time] that is beyond the horizon. *)
Definition wider_queue c (queue_id actual_time : Z) : option Z :=
  let s := queue_id + min_gran_scale c + bucket_num_scale c in
  guard (s < 64);;
  z ← builtin_clzll (Z.shiftr (u64 (actual_time - head_time c)) s);
  Some (u32 (queue_id + 64 - z)).

Definition Insert c (queue_id send_time : Z) (e : HBEntry) : option (FlowBundler St B * Z) :=
  guard (queue_id + min_gran_scale c < 64);;
  let granularity := u64 (Z.shiftl 1 (queue_id + min_gran_scale c)) in
  let horizon := u64 (u64 (Z.shiftl granularity (bucket_num_scale c)) - granularity) in
  mask ← HeadTimeMask queue_id;
  let c := if bitmap c =? 0 then fset_hrq queue_id (fset_head (Z.land send_time mask) c) else c in
  let actual_time := if send_time <? head_time c then head_time c else send_time in
  q ← (if actual_time >? u64 (head_time c + horizon) then wider_queue c queue_id actual_time
       else Some queue_id);
  loc ← FindRealLocation c q actual_time;
  b ← bucket_at c loc;
  '(st, b', enqueue_result) ← enqueue_packet (fst_ c) b e;
  let c := fset_bucket (Bundler.queue_id loc) (bucket_id loc) b' st c in
  Some (if enqueue_result =? 0
        then fcount (Bundler.queue_id loc) 1 (Z.lor (bitmap c) (Z.shiftl 1 (Bundler.queue_id loc))) c
        else c, enqueue_result).

(** ** Dequeue *)

(** The body of [while (now >= head_time)]; the second component is
    [dequeue_num], with [None] while it is not initialised. *)
Definition scan_step (now hrq granularity : Z) (st : FlowBundler St B * option Z) :
    (FlowBundler St B * option Z) + option (FlowBundler St B * option Z * list HBEntry) :=
  let '(c, dn) := st in
  if now >=? head_time c then
    match FindRealLocation c hrq (head_time c) with
    | None => inr None
    | Some loc =>
        match bucket_at c loc with
        | None => inr None
        | Some b =>
            let q := queue_id loc in
            if (n_packets c q >? 0) && negb (bucket_IsEmpty b) then
              match dequeue_packet_bulk (bucket_id loc) (fst_ c) b (to_signed 32 (fdequeue_burst c)) with
              | None => inr None
              | Some (st', b', out) =>
                  let n := Z.of_nat (length out) in
                  let c := fset_bucket q (bucket_id loc) b' st' c in
                  if n >? 0 then
                    let left := u32 (n_packets c q - n) in
                    let bm := if left =? 0 then clear_bit (bitmap c) q else bitmap c in
                    let c := fcount q (- n) bm c in
                    let c := if left =? 0
                             then fset_hrq (if bm =? 0 then QUEUE_NUM - 1 else builtin_ffsll bm - 1) c
                             else c in
                    inr (Some (c, Some n, out))
                  else inl (fset_head (u64 (head_time c + granularity)) c, Some n)
              end
            else inl (fset_head (u64 (head_time c + granularity)) c, dn)
        end
    end
  else inr (Some (c, dn, [])).

(** [now] is the clock, [junk] what the uninitialised [dequeue_num] happens to
    hold.  The answer is the batch and the count it is given. *)
Definition Dequeue (now junk : Z) c : option (FlowBundler St B * list HBEntry * Z) :=
  if n_packets_total c =? 0 then Some (fset_head now c, [], 0)
  else
    mask ← HeadTimeMask (highest_rate_qid c);
    let c := fset_head (Z.land (head_time c) mask) c in
    let s := u32 (highest_rate_qid c + min_gran_scale c) in
    guard (s < 64);;
    let granularity := u64 (Z.shiftl 1 s) in
    match iter_until fuel64 (scan_step now (highest_rate_qid c) granularity) (c, None) with
    | inr (Some (c, dn, out)) =>
        let cnt := match dn with Some n => n | None => junk end in
        Some (fset_last (u32 cnt) c, out, to_signed 32 (u32 cnt))
    | _ => None
    end.

End bundler.

(** ** The loop of [Enqueue], over the shared accounting *)

Section bundler_enqueue.
Context {B : Type} `{Ops : BucketOps Z (shared HBEntry ledger) B HBEntry}.

(** One round of the loop; the flag says whether the packet was dropped. *)
Definition bundler_enqueue_one (pk : gmap addr Packet) (c : FlowBundler (shared HBEntry ledger) B)
    (a : addr) (now : Z) : option (FlowBundler (shared HBEntry ledger) B * bool) :=
  pkt ← pk !! a;
  let flow_id := ip_src pkt in
  guard (0 <= flow_id);;
  info ← fflow_info c !! Z.to_nat flow_id;
  let info := flow_ready info now in
  let c := fset_flows (<[Z.to_nat flow_id := info]> (fflow_info c)) (fst_ c) (total_enqueue_pkts_num c) c in
  stamp ← next_stamp info (total_len pkt);
  let stamp := if stamp >=? now then stamp else now in
  left_bytes ← flow_bytes (acct (fst_ c)) flow_id;
  '(aggre_rate, hash_id) ← map_get (aggregation_rates (acct (fst_ c))) (ip_dst pkt);
  q ← FindQueueIndex c aggre_rate;
  let c := fset_hrq (if q <? highest_rate_qid c then q else highest_rate_qid c) c in
  '(c, enqueue_result) ← Insert c q stamp (HEntry a flow_id stamp hash_id);
  if enqueue_result <? 0 then Some (c, true)
  else
    let st := fst_ c in
    let st := Shared (blk st) (pool st)
                (set_num (acct st) flow_id (u64 (left_bytes + total_len pkt))) in
    Some (fset_flows (<[Z.to_nat flow_id := Flow stamp (frate info)]> (fflow_info c)) st
            (u64 (total_enqueue_pkts_num c + 1)) c, false).

Fixpoint bundler_Enqueue (pk : gmap addr Packet) (c : FlowBundler (shared HBEntry ledger) B)
    (batch : list (addr * Z)) : option (FlowBundler (shared HBEntry ledger) B * list addr) :=
  match batch with
  | [] => Some (c, [])
  | (a, now) :: batch =>
      '(c, dropped) ← bundler_enqueue_one pk c a now;
      '(c, drops) ← bundler_Enqueue pk c batch;
      Some (c, if dropped : bool then a :: drops else drops)
  end.

End bundler_enqueue.
