(* ===== verification/BundlerProps.v ===== *)
(** * The FlowBundler shaper: specification and proofs

    A packet sent at [t] through queue [q] is due at the end of the slot of width
    [2^(q + min_gran_scale)] that [t] falls in, and its place in [m_queue] is a
    function of that deadline alone.  [bundler_ok] relates the calendar to the
    packets pending at each deadline; it holds as long as every deadline lies
    within one round of its queue, counted from the slot [head_time] falls in. *)

From S2P Require Import Prelude Ring Pool Buckets Ledger Shapers Bundler.

(** The end of the slot of width [2^s] that [t] falls in; [t] itself when it is
    the boundary of two slots. *)
Definition slot_end (s t : Z) : Z := (t + 2 ^ s - 1) / 2 ^ s * 2 ^ s.

(** ** Deadlines *)

Lemma slot_end_bounds s t : 0 <= s -> t <= slot_end s t < t + 2 ^ s.
Proof.
  intros Hs. unfold slot_end. pose proof (pow2_pos s Hs).
  pose proof (div_mul_le (t + 2 ^ s - 1) (2 ^ s)). lia.
Qed.

Lemma slot_end_divide s t : (2 ^ s | slot_end s t).
Proof. apply Z.divide_factor_r. Qed.

Lemma slot_end_unique s t D : 0 <= s -> (2 ^ s | D) -> t <= D < t + 2 ^ s -> D = slot_end s t.
Proof.
  intros Hs HD Hb. pose proof (pow2_pos s Hs). pose proof (slot_end_bounds s t Hs).
  pose proof (slot_end_divide s t).
  destruct (Z.lt_trichotomy D (slot_end s t)) as [Hl|[|Hl]]; [|done|].
  - pose proof (divide_gap (2 ^ s) D (slot_end s t) ltac:(lia) ltac:(done) ltac:(done) Hl). lia.
  - pose proof (divide_gap (2 ^ s) (slot_end s t) D ltac:(lia) ltac:(done) ltac:(done) Hl). lia.
Qed.

Lemma slot_end_ctz s t : 0 <= s -> 0 < t -> s <= ctz (slot_end s t).
Proof. intros. pose proof (slot_end_bounds s t). apply divide_ctz; [lia|lia|apply slot_end_divide]. Qed.

(** A deadline is the end of a slot of every wider queue it is a boundary of. *)
Lemma slot_end_coarse s t c :
  0 <= s <= c -> (2 ^ c | slot_end s t) -> slot_end c t = slot_end s t.
Proof.
  intros Hs Hd. symmetry. apply slot_end_unique; [lia|done|].
  pose proof (slot_end_bounds s t). pose proof (pow2_mono s c). lia.
Qed.

Lemma slot_end_mono s t t' : 0 <= s -> t <= t' -> slot_end s t <= slot_end s t'.
Proof.
  intros Hs Ht. unfold slot_end. pose proof (pow2_pos s Hs). apply Z.mul_le_mono_nonneg_r; [lia|].
  apply Z.div_le_mono; lia.
Qed.

Lemma lor_bit63_ctz x : 0 < x < 2 ^ 63 -> ctz (Z.lor x (2 ^ 63)) = ctz x /\ 0 < Z.lor x (2 ^ 63) < 2 ^ 64.
Proof.
  intros Hx. pose proof (ctz_nonneg x). pose proof (ctz_lt x 63 Hx).
  assert (Hr : 0 < Z.lor x (2 ^ 63) < 2 ^ 64).
  { pose proof (bitmap_set_range x 63 ltac:(lia) ltac:(lia)) as Hb. rewrite Z.shiftl_1_l in Hb.
    assert (Z.lor x (2 ^ 63) <> 0) by (rewrite Z.lor_eq_0_iff; lia). lia. }
  split; [|done]. symmetry. apply ctz_least_bit; [lia|lia| |].
  - by rewrite Z.lor_spec, testbit_ctz by lia.
  - intros i Hi. by rewrite Z.lor_spec, testbit_below_ctz, Z.pow2_bits_false by lia.
Qed.

Section bundler_props.
Context {St B : Type} `{Ops : BucketOps Z St B HBEntry}.
Implicit Types (c : FlowBundler St B).

(** The place of the packets due at [D]. *)
Definition place c (D : Z) : Z * Z := (ctz D - min_gran_scale c, (D / 2 ^ ctz D) mod bucket_num c).

(** [D] is within one round of its queue from [head_time]. *)
Definition in_round c (D : Z) : Prop :=
  head_time c <= D /\ D / 2 ^ ctz D <= head_time c / 2 ^ ctz D + bucket_num c - 1.

Definition config_ok c : Prop :=
  1 <= bucket_num_scale c < 32 /\ bucket_num c = 2 ^ bucket_num_scale c /\
  0 <= min_gran_scale c < 32 /\ bid_mask c = bucket_num c - 1.

Lemma bucket_num_pos c : config_ok c -> 2 <= bucket_num c.
Proof. intros (? & -> & _). pose proof (pow2_mono 1 (bucket_num_scale c)). lia. Qed.

Lemma bucket_mask_mod c b : config_ok c -> Z.land b (bid_mask c) = b mod bucket_num c.
Proof. intros (? & E & _ & ->). rewrite E. by rewrite land_ones_mod by lia. Qed.

Lemma find_bucket_ok c q t :
  config_ok c -> 0 <= q -> q + min_gran_scale c < 62 -> 0 <= t < 2 ^ 62 ->
  FindBucketIndex c q t = Some (slot_end (q + min_gran_scale c) t / 2 ^ (q + min_gran_scale c)).
Proof.
  intros (_ & _ & Hg & _) Hq Hs Ht. unfold FindBucketIndex. rewrite (wrap_small 32) by lia.
  rewrite option_guard_True by lia. cbn [mbind option_bind]. set (s := q + min_gran_scale c) in *.
  rewrite shiftr_pow2, shiftl_pow2 by lia. pose proof (pow2_pos s ltac:(lia)) as Hp.
  unfold slot_end. rewrite Z.div_mul by lia. pose proof (div_mul_le t (2 ^ s) Hp) as Hb.
  pose proof (Z.div_pos t (2 ^ s) ltac:(lia) Hp).
  assert (t / 2 ^ s <= t) by (apply Z.div_le_upper_bound; nia).
  rewrite (wrap_small 64 (t / 2 ^ s * 2 ^ s)) by lia. f_equal.
  destruct (Z.ltb_spec (t / 2 ^ s * 2 ^ s) t).
  - rewrite wrap_small by lia. apply (Z.div_unique _ _ _ (t - 2 ^ s * (t / 2 ^ s) - 1)); [left|]; lia.
  - apply (Z.div_unique _ _ _ (2 ^ s - 1)); [left|]; lia.
Qed.

(** The location found by the code is the place of the deadline. *)
Lemma find_location_ok c q t :
  config_ok c -> 0 <= q -> q + min_gran_scale c < 62 -> 0 < t ->
  let D := slot_end (q + min_gran_scale c) t in D < 2 ^ 62 ->
  FindRealLocation c q t = Some (Loc (place c D).1 (place c D).2).
Proof.
  intros Hc Hq Hs Ht D HD. pose proof Hc as (_ & _ & Hg & _). set (s := q + min_gran_scale c) in *.
  pose proof (slot_end_bounds s t ltac:(lia)) as Hb. fold D in Hb.
  pose proof (pow2_pos s ltac:(lia)) as Hp.
  destruct (slot_end_divide s t) as [bid Ebid]. fold D in Ebid.
  assert (Hbid : 0 < bid < 2 ^ 62) by nia.
  assert (Ectz : ctz D = ctz bid + s) by (rewrite Ebid, ctz_mul_pow2 by lia; done).
  assert (Hlt : ctz D < 62) by (apply ctz_lt; lia). pose proof (ctz_nonneg bid).
  unfold FindRealLocation. rewrite find_bucket_ok by (done || lia). fold s D.
  rewrite Ebid at 1. rewrite Z.div_mul by lia. cbn [mbind option_bind].
  change (Z.shiftl 1 (QUEUE_NUM - 1)) with (2 ^ 63).
  destruct (lor_bit63_ctz bid ltac:(lia)) as [Ec Hr]. rewrite builtin_ffsll_pos, Ec by done.
  rewrite wrap_small by lia. unfold QUEUE_NUM.
  destruct (Z.geb_spec (q + (ctz bid + 1) - 1) 64) as [|_]; [lia|].
  replace (q + (ctz bid + 1) - 1) with (ctz D - min_gran_scale c) by lia.
  rewrite find_bucket_ok by (done || lia). cbn [mbind option_bind].
  replace (ctz D - min_gran_scale c + min_gran_scale c) with (ctz D) by lia.
  rewrite bucket_mask_mod by done. unfold place. simpl.
  rewrite (slot_end_coarse s t (ctz D)); [done|lia|]. apply ctz_divide. lia.
Qed.

(** Two deadlines of the same round never share a bucket. *)
Lemma fb_place_inj c D D' :
  config_ok c -> 0 < D -> 0 < D' -> in_round c D -> in_round c D' -> place c D = place c D' -> D = D'.
Proof.
  intros Hc HD HD' [H1 H2] [H1' H2'] E. pose proof (bucket_num_pos c Hc).
  unfold place in E. injection E as Eq Eb. assert (Ec : ctz D = ctz D') by lia. rewrite Ec in *.
  set (e := ctz D') in *. pose proof (ctz_nonneg D') as He. fold e in He. pose proof (pow2_pos e He).
  pose proof (Z.div_le_mono _ _ (2 ^ e) ltac:(lia) H1). pose proof (Z.div_le_mono _ _ (2 ^ e) ltac:(lia) H1').
  assert (Ed : D / 2 ^ e = D' / 2 ^ e).
  { pose proof (Z.div_mod (D / 2 ^ e) (bucket_num c) ltac:(lia)).
    pose proof (Z.div_mod (D' / 2 ^ e) (bucket_num c) ltac:(lia)).
    set (a := D / 2 ^ e / bucket_num c) in *. set (b := D' / 2 ^ e / bucket_num c) in *.
    assert (a = b) by nia. nia. }
  destruct (ctz_divide D HD) as [m Em], (ctz_divide D' HD') as [m' Em'].
  rewrite Ec in Em. fold e in Em, Em'. rewrite Em, Em', !Z.div_mul in Ed by lia. congruence.
Qed.

(** A time within the horizon of its queue, counted from the slot of
    [head_time], is due within the round. *)
Lemma near_in_round c q t :
  config_ok c -> 0 <= q -> 0 < t -> head_time c <= t ->
  let s := q + min_gran_scale c in
  t <= 2 ^ s * (head_time c / 2 ^ s) + (bucket_num c - 1) * 2 ^ s -> in_round c (slot_end s t).
Proof.
  intros Hc Hq Ht Hh s Hn. pose proof (bucket_num_pos c Hc). pose proof Hc as (_ & _ & Hg & _).
  set (D := slot_end s t). pose proof (slot_end_bounds s t ltac:(lia)) as Hb. fold D in Hb.
  split; [lia|]. pose proof (slot_end_ctz s t ltac:(lia) Ht) as He. fold D in He.
  set (e := ctz D) in *. pose proof (pow2_pos s ltac:(lia)) as Hp. pose proof (pow2_pos e ltac:(lia)) as Hpe.
  assert (HD : D <= 2 ^ s * (head_time c / 2 ^ s) + (bucket_num c - 1) * 2 ^ s).
  { assert (E : slot_end s (2 ^ s * (head_time c / 2 ^ s) + (bucket_num c - 1) * 2 ^ s) =
      2 ^ s * (head_time c / 2 ^ s) + (bucket_num c - 1) * 2 ^ s).
    { symmetry. apply slot_end_unique; [lia| |lia].
      exists (head_time c / 2 ^ s + (bucket_num c - 1)). ring. }
    rewrite <- E. by apply slot_end_mono; [lia|]. }
  pose proof (div_mul_le (head_time c) (2 ^ s) Hp) as Hs1.
  pose proof (div_mul_le (head_time c) (2 ^ e) Hpe) as He1.
  destruct (ctz_divide D ltac:(lia)) as [m Em]. fold e in Em. rewrite Em, Z.div_mul by lia.
  destruct (Z.eq_dec s e) as [<-|]; [nia|].
  assert (E2 : 2 ^ (s + 1) <= 2 ^ e) by (apply pow2_mono; lia).
  rewrite Z.pow_add_r in E2 by lia. change (2 ^ 1) with 2 in E2. nia.
Qed.

(** ** The calendar and the packets pending at each deadline *)

Context `{L : !BucketLaws (Z * Z) Z St B HBEntry}.

(** The packets of queue [q]. *)
Definition held c (cs : Z * Z -> list HBEntry) (q : Z) : Z :=
  sum_upto (Z.to_nat (bucket_num c)) (fun b => Z.of_nat (length (cs (q, b)))).

Record bundler_ok c (cs : Z * Z -> list HBEntry) (pend : Z -> list HBEntry) (free : nat) : Prop := {
  fb_family : family (fst_ c) (m_queue c) cs free;
  fb_config : config_ok c;
  fb_time : 0 <= head_time c < 2 ^ 62 /\ 0 <= highest_rate_qid c < 64;
  fb_placed : forall D, pend D <> [] ->
    0 < D < 2 ^ 62 /\ highest_rate_qid c + min_gran_scale c <= ctz D /\ in_round c D /\
    cs (place c D) = pend D;
  fb_only : forall x, cs x <> [] -> exists D, x = place c D /\ pend D <> [];
  fb_count : forall q, 0 <= q < 64 -> n_packets c q = held c cs q;
  fb_total : n_packets_total c = sum_upto 64 (n_packets c) /\ n_packets_total c + Z.of_nat free < 2 ^ 32;
  fb_bits : 0 <= bitmap c < 2 ^ 64 /\
    forall q, 0 <= q < 64 -> Z.testbit (bitmap c) q = (0 <? n_packets c q)
}.

Lemma cs_at c cs pend free D :
  bundler_ok c cs pend free -> 0 < D -> in_round c D -> cs (place c D) = pend D.
Proof.
  intros K HD HR. destruct (cs (place c D)) eqn:E.
  - destruct (pend D) eqn:Ep; [done|]. assert (Hne : pend D <> []) by (by rewrite Ep).
    destruct (fb_placed _ _ _ _ K D Hne) as (_ & _ & _ & E'). congruence.
  - assert (Hne : cs (place c D) <> []) by (by rewrite E).
    destruct (fb_only _ _ _ _ K _ Hne) as (D' & Ep & Hne').
    destruct (fb_placed _ _ _ _ K D' Hne') as ((? & _) & _ & HR' & E').
    rewrite (fb_place_inj c D D' (fb_config _ _ _ _ K)) by (done || lia). by rewrite <- E', <- Ep, E.
Qed.

Lemma place_range c D :
  config_ok c -> 0 < D < 2 ^ 62 -> min_gran_scale c <= ctz D ->
  0 <= (place c D).1 < 62 /\ 0 <= (place c D).2 < bucket_num c.
Proof.
  intros Hc HD Hg. pose proof (bucket_num_pos c Hc). pose proof (ctz_lt D 62 HD).
  destruct Hc as (_ & _ & ? & _). unfold place. simpl. split; [lia|]. apply Z.mod_pos_bound. lia.
Qed.

Lemma held_elem c cs q b :
  0 <= b < bucket_num c -> 0 <= Z.of_nat (length (cs (q, b))) <= held c cs q.
Proof. intros Hb. apply (sum_upto_elem _ (fun b => Z.of_nat (length (cs (q, b))))); lia. Qed.

Lemma held_nonneg c cs q : 0 <= held c cs q.
Proof. apply sum_upto_nonneg. lia. Qed.

Lemma count_range c cs pend free q :
  bundler_ok c cs pend free -> 0 <= q < 64 -> 0 <= n_packets c q <= n_packets_total c.
Proof.
  intros K Hq. destruct (fb_total _ _ _ _ K) as [-> _]. apply sum_upto_elem; [|lia].
  intros j Hj. rewrite (fb_count _ _ _ _ K) by lia. apply held_nonneg.
Qed.

(** A pending packet is counted in its queue, whose bit is set. *)
Lemma pend_counted c cs pend free D :
  bundler_ok c cs pend free -> pend D <> [] ->
  0 <= (place c D).1 < 62 /\ 0 < n_packets c (place c D).1 /\
  Z.testbit (bitmap c) (place c D).1 = true.
Proof.
  intros K Hne. destruct (fb_placed _ _ _ _ K D Hne) as (HD & Hg & _ & E).
  pose proof (fb_time _ _ _ _ K). destruct (place_range c D (fb_config _ _ _ _ K) HD) as [Hq Hb]; [lia|].
  split; [done|]. assert (Hn : 0 < n_packets c (place c D).1).
  { rewrite (fb_count _ _ _ _ K) by lia. pose proof (held_elem c cs (place c D).1 _ Hb) as Hh.
    change ((place c D).1, (place c D).2) with (place c D) in Hh. rewrite E in Hh.
    destruct (pend D); [done|]. cbn [length] in Hh. lia. }
  split; [done|]. destruct (fb_bits _ _ _ _ K) as [_ ->]; [|lia]. by apply Z.ltb_lt.
Qed.

Lemma total_zero c cs pend free :
  bundler_ok c cs pend free -> n_packets_total c = 0 \/ bitmap c = 0 -> forall D, pend D = [].
Proof.
  intros K Hz D. destruct (pend D) eqn:E; [done|]. assert (Hne : pend D <> []) by (by rewrite E).
  destruct (pend_counted _ _ _ _ _ K Hne) as (Hq & Hn & Hb). destruct Hz as [Hz|Hz].
  - pose proof (count_range _ _ _ _ (place c D).1 K ltac:(lia)). lia.
  - by rewrite Hz, Z.bits_0 in Hb.
Qed.

(** When anything is counted, something is pending. *)
Lemma total_some c cs pend free :
  bundler_ok c cs pend free -> n_packets_total c <> 0 -> exists D, pend D <> [].
Proof.
  intros K Hn. destruct (fb_total _ _ _ _ K) as [E _]. rewrite E in Hn.
  destruct (sum_upto_nonzero _ _ Hn) as (q & Hq & Hq'). rewrite (fb_count _ _ _ _ K) in Hq' by lia.
  destruct (sum_upto_nonzero _ _ Hq') as (b & _ & Hb). cbv beta in Hb.
  destruct (fb_only _ _ _ _ K (q, b)) as (D & _ & HD); [|eauto]. intros E'. by rewrite E' in Hb.
Qed.

Lemma fb_head c cs pend free h :
  bundler_ok c cs pend free -> 0 <= h < 2 ^ 62 ->
  (forall D, pend D <> [] -> in_round (fset_head h c) D) -> bundler_ok (fset_head h c) cs pend free.
Proof.
  intros [Kf Kc Kt Kp Ko Kn Ktot Kb] Hh HR. split; try done.
  - split; [done|]. apply Kt.
  - intros D HD. destruct (Kp D HD) as (? & ? & _ & ?). auto.
Qed.

Lemma fb_hrq c cs pend free h :
  bundler_ok c cs pend free -> 0 <= h < 64 ->
  (forall D, pend D <> [] -> h + min_gran_scale c <= ctz D) -> bundler_ok (fset_hrq h c) cs pend free.
Proof.
  intros [Kf Kc Kt Kp Ko Kn Ktot Kb] Hh HR. split; try done.
  - split; [apply Kt|done].
  - intros D HD. destruct (Kp D HD) as (? & _ & ? & ?). split; [done|]. split; [by apply HR|done].
Qed.

Lemma fb_ext c cs pend pend' free :
  (forall D, pend' D = pend D) -> bundler_ok c cs pend free -> bundler_ok c cs pend' free.
Proof.
  intros H [Kf Kc Kt Kp Ko Kn Ktot Kb]. split; try done.
  - intros D. rewrite H. apply Kp.
  - intros x Hx. destruct (Ko x Hx) as (D & ? & ?). exists D. by rewrite H.
Qed.

Lemma fb_flows c cs pend free fi n :
  bundler_ok c cs pend free -> bundler_ok (fset_flows fi (fst_ c) n c) cs pend free.
Proof. intros [Kf Kc Kt Kp Ko Kn Ktot Kb]. split; done. Qed.

Lemma fb_last c cs pend free n : bundler_ok c cs pend free -> bundler_ok (fset_last n c) cs pend free.
Proof. intros [Kf Kc Kt Kp Ko Kn Ktot Kb]. split; done. Qed.

(** The calendar after the bucket of [D] is changed to hold [l']. *)
Lemma fb_update c cs pend free D b st l' free' bm :
  let q := (place c D).1 in
  let k := Z.of_nat (length l') - Z.of_nat (length (pend D)) in
  bundler_ok c cs pend free -> 0 < D < 2 ^ 62 -> in_round c D ->
  highest_rate_qid c + min_gran_scale c <= ctz D ->
  family st (<[place c D := b]> (m_queue c)) (<[place c D := l']> cs) free' ->
  Z.of_nat free = Z.of_nat free' + k ->
  0 <= bm < 2 ^ 64 ->
  (forall i, 0 <= i < 64 -> Z.testbit bm i = if decide (i = q) then 0 <? n_packets c q + k else Z.testbit (bitmap c) i) ->
  bundler_ok (fcount q k bm (fset_bucket q (place c D).2 b st c))
    (<[place c D := l']> cs) (<[D := l']> pend) free' /\
  n_packets (fcount q k bm (fset_bucket q (place c D).2 b st c)) q = n_packets c q + k /\
  n_packets_total (fcount q k bm (fset_bucket q (place c D).2 b st c)) = n_packets_total c + k.
Proof.
  intros q k K HD HR Hg F Hk Hbm Hbits.
  destruct (place_range c D (fb_config _ _ _ _ K) HD) as [Hq Hb]; [pose proof (fb_time _ _ _ _ K); lia|].
  pose proof (cs_at _ _ _ _ D K ltac:(lia) HR) as Ecs.
  pose proof (count_range _ _ _ _ q K ltac:(unfold q; lia)) as Hc.
  pose proof (fb_total _ _ _ _ K) as [Etot Htot]. pose proof (held_nonneg c (<[place c D := l']> cs) q) as Hh'.
  assert (Hheld : forall i, held c (<[place c D := l']> cs) i = held c cs i + if decide (i = q) then k else 0).
  { intros i. unfold held. destruct (decide (i = q)) as [->|Hne].
    - rewrite (sum_upto_ext _ _ (<[(place c D).2 := Z.of_nat (length l')]> (fun b => Z.of_nat (length (cs (q, b)))))).
      + rewrite sum_upto_insert by lia. change (q, (place c D).2) with (place c D). rewrite Ecs. lia.
      + intros j _. destruct (decide ((place c D).2 = j)) as [<-|].
        * change (q, (place c D).2) with (place c D). by rewrite !fn_insert_eq.
        * rewrite !fn_insert_ne; [done|done|]. intros E. by apply (f_equal snd) in E.
    - rewrite Z.add_0_r. apply sum_upto_ext. intros j _. rewrite fn_insert_ne; [done|].
      intros E. apply (f_equal fst) in E. simpl in E. by rewrite <- E in Hne. }
  assert (Hq' : 0 <= n_packets c q + k).
  { rewrite Hheld, decide_True in Hh' by done. rewrite (fb_count _ _ _ _ K) by (unfold q; lia). done. }
  assert (En : u32 (n_packets c q + k) = n_packets c q + k) by (apply wrap_small; lia).
  assert (Et : u64 (n_packets_total c + k) = n_packets_total c + k) by (apply wrap_small; lia).
  split; [|split; [by cbn; rewrite fn_insert_eq|done]].
  split; cbn [fst_ m_queue n_packets n_packets_total bitmap head_time highest_rate_qid fcount fset_bucket];
    rewrite ?En, ?Et.
  - exact F.
  - apply K.
  - apply K.
  - intros D' HD'. destruct (decide (D = D')) as [<-|Hne].
    + split; [done|]. split; [done|]. split; [done|].
      change (place _ D) with (place c D). by rewrite !fn_insert_eq.
    + rewrite fn_insert_ne in HD' by done. destruct (fb_placed _ _ _ _ K D' HD') as (? & ? & HR' & E).
      split; [done|]. split; [done|]. split; [done|]. change (place _ D') with (place c D').
      rewrite !fn_insert_ne; [done|done|]. intros E'. apply Hne.
      by apply (fb_place_inj c); [apply K|lia|lia|..].
  - intros x Hx. destruct (decide (place c D = x)) as [<-|Hne].
    + rewrite fn_insert_eq in Hx. exists D. by rewrite fn_insert_eq.
    + rewrite fn_insert_ne in Hx by done. destruct (fb_only _ _ _ _ K x Hx) as (D' & -> & HD').
      exists D'. split; [done|]. rewrite fn_insert_ne; [done|]. by intros ->.
  - intros i Hi. change (held _ ?f i) with (held c f i). rewrite Hheld. destruct (decide (i = q)) as [->|].
    + rewrite fn_insert_eq. by rewrite (fb_count _ _ _ _ K).
    + rewrite fn_insert_ne by done. rewrite (fb_count _ _ _ _ K) by done. lia.
  - rewrite sum_upto_insert by (unfold q; lia). lia.
  - split; [done|]. intros i Hi. rewrite Hbits by done. destruct (decide (i = q)) as [->|].
    + by rewrite fn_insert_eq.
    + rewrite fn_insert_ne by done. by apply K.
Qed.

(** ** [Insert] *)

(** The first packet moves the head of the calendar to its own time. *)
Definition settled c (q t : Z) : FlowBundler St B :=
  if bitmap c =? 0 then fset_hrq q (fset_head (2 ^ q * (t / 2 ^ q)) c) else c.

(** The queue a packet due at [t] is filed through: that of its rate within the
    horizon, a wider one beyond it. *)
Definition filed_through c (q t q' : Z) : Prop :=
  if t >? head_time c + (bucket_num c - 1) * 2 ^ (q + min_gran_scale c)
  then wider_queue c q t = Some q' else q' = q.

Lemma filed_wider c q t q' : filed_through c q t q' -> 0 <= q < 2 ^ 31 -> q <= q' < 2 ^ 32.
Proof.
  unfold filed_through. destruct (_ >? _); [|lia]. unfold wider_queue. intros E Hq.
  apply bind_Some in E as (_ & _ & E). apply bind_Some in E as (z & E & [= <-]).
  unfold builtin_clzll in E. destruct (Z.eqb_spec (u64 (Z.shiftr (u64 (t - head_time c))
    (q + min_gran_scale c + bucket_num_scale c))) 0) as [|Hne]; simplify_eq.
  pose proof (wrap_range 64 (Z.shiftr (u64 (t - head_time c)) (q + min_gran_scale c + bucket_num_scale c)) ltac:(lia)) as Hw.
  pose proof (bitlen_bounds (u64 (Z.shiftr (u64 (t - head_time c)) (q + min_gran_scale c + bucket_num_scale c))) ltac:(lia)).
  pose proof (bitlen_le (u64 (Z.shiftr (u64 (t - head_time c)) (q + min_gran_scale c + bucket_num_scale c))) 64 ltac:(lia) ltac:(lia)).
  pose proof (bitlen_nonneg (u64 (Z.shiftr (u64 (t - head_time c)) (q + min_gran_scale c + bucket_num_scale c)))).
  rewrite wrap_small; lia.
Qed.

Lemma settled_ok c cs pend free q t :
  bundler_ok c cs pend free -> 0 <= q < 64 -> 0 <= t < 2 ^ 62 -> bundler_ok (settled c q t) cs pend free.
Proof.
  intros K Hq Ht. unfold settled. destruct (Z.eqb_spec (bitmap c) 0) as [Hz|]; [|done].
  pose proof (total_zero _ _ _ _ K (or_intror Hz)) as Hp. pose proof (pow2_pos q ltac:(lia)) as Hp2.
  pose proof (div_mul_le t (2 ^ q) Hp2). pose proof (Z.div_pos t (2 ^ q) ltac:(lia) Hp2).
  apply fb_hrq; [|done|]; [apply fb_head; [done|nia|]|]; intros D HD; by rewrite Hp in HD.
Qed.

Lemma settled_same c q t :
  min_gran_scale (settled c q t) = min_gran_scale c /\ bucket_num (settled c q t) = bucket_num c /\
  bucket_num_scale (settled c q t) = bucket_num_scale c /\ fflow_info (settled c q t) = fflow_info c /\
  fst_ (settled c q t) = fst_ c /\ n_packets_total (settled c q t) = n_packets_total c.
Proof. unfold settled. by destruct (bitmap c =? 0). Qed.

(** What [Insert] does with a packet due at [D], from the settled calendar [c]. *)
Definition insert_post c (pend : Z -> list HBEntry) (free : nat) (e : HBEntry) (D : Z)
    (c' : FlowBundler St B) (ret : Z) : Prop :=
  fflow_info c' = fflow_info c /\ total_enqueue_pkts_num c' = total_enqueue_pkts_num c /\
  fdequeue_burst c' = fdequeue_burst c /\ head_time c' = head_time c /\
  highest_rate_qid c' = highest_rate_qid c /\
  match free with
  | O => ret = -1 /\ n_packets_total c' = n_packets_total c /\ exists cs', bundler_ok c' cs' pend O
  | S n => ret = 0 /\ n_packets_total c' = n_packets_total c + 1 /\
      exists cs', bundler_ok c' cs' (<[D := e :: pend D]> pend) n /\
      (forall e', entry_ok (fst_ c) e' -> entry_ok (fst_ c') e')
  end.

(** The end of [Insert], for the calendar [c] after it has been settled. *)
Lemma file_ok c cs pend free e D :
  bundler_ok c cs pend free -> entry_ok (fst_ c) e -> 0 < D < 2 ^ 62 -> in_round c D ->
  highest_rate_qid c + min_gran_scale c <= ctz D ->
  let loc := Loc (place c D).1 (place c D).2 in
  exists b st b' ret, bucket_at c loc = Some b /\ enqueue_packet (fst_ c) b e = Some (st, b', ret) /\
    let c1 := fset_bucket (queue_id loc) (bucket_id loc) b' st c in
    insert_post c pend free e D
      (if ret =? 0 then fcount (queue_id loc) 1 (Z.lor (bitmap c1) (Z.shiftl 1 (queue_id loc))) c1 else c1) ret.
Proof.
  intros K He HD HR Hg loc. destruct (place_range c D (fb_config _ _ _ _ K) HD) as [Hq Hb];
    [pose proof (fb_time _ _ _ _ K); lia|].
  pose proof (cs_at _ _ _ _ D K ltac:(lia) HR) as Ecs.
  exists (m_queue c (place c D)). pose proof (family_enqueue _ _ _ _ (place c D) e (fb_family _ _ _ _ K) He) as P.
  assert (Eb : bucket_at c loc = Some (m_queue c (place c D))).
  { unfold bucket_at. rewrite option_guard_True by (unfold loc; simpl; unfold QUEUE_NUM; simpl in *; lia). done. }
  destruct (fb_bits _ _ _ _ K) as [Hbm Hbits]. destruct free as [|n].
  - exists (fst_ c), (m_queue c (place c D)), (-1). split; [done|]. split; [done|]. split; [done|]. split; [done|].
    split; [done|]. split; [done|]. split; [done|]. split; [done|]. split; [done|]. exists cs.
    destruct K as [Kf Kc Kt Kp Ko Kn Ktot Kb]. split; try done. simpl.
    eapply family_ext; [| |exact Kf]; intros i; [apply (insert_same (m_queue c) (place c D))|done].
  - destruct P as (st & b' & E & F & Hok). exists st, b', 0. split; [done|]. split; [done|].
    cbn [Z.eqb]. do 6 (split; [done|]). rewrite Ecs in F.
    assert (Hk : Z.of_nat (length (e :: pend D)) - Z.of_nat (length (pend D)) = 1) by (cbn [length]; lia).
    destruct (fb_update c cs pend (S n) D b' st (e :: pend D) n
      (Z.lor (bitmap c) (Z.shiftl 1 (place c D).1)) K HD HR Hg F) as (K' & _ & Et).
    + lia.
    + by apply bitmap_set_range; [|lia].
    + intros i Hi. rewrite Hk, bitmap_set by lia. destruct (Z.eqb_spec (place c D).1 i) as [<-|Hne].
      * rewrite decide_True, orb_true_r by done. symmetry. apply Z.ltb_lt.
        pose proof (count_range _ _ _ _ (place c D).1 K ltac:(lia)). lia.
      * by rewrite decide_False, orb_false_r by congruence.
    + rewrite Hk in K', Et. split; [exact Et|]. eexists. split; [exact K'|exact Hok].
Qed.

Lemma fb_insert_ok c cs pend free q t e q' :
  bundler_ok c cs pend free -> entry_ok (fst_ c) e ->
  0 <= q -> q + min_gran_scale c + bucket_num_scale c < 61 -> 0 < t < 2 ^ 61 ->
  (bitmap c <> 0 -> highest_rate_qid c <= q) ->
  let c0 := settled c q t in
  let t' := Z.max t (head_time c0) in
  let D := slot_end (q' + min_gran_scale c) t' in
  filed_through c0 q t' q' -> q' + min_gran_scale c < 62 -> D < 2 ^ 62 -> in_round c0 D ->
  exists c' ret, Insert c q t e = Some (c', ret) /\ insert_post c0 pend free e D c' ret.
Proof.
  intros K He Hq Hs Ht Hhrq c0 t' D Hf Hq' HD HR.
  destruct (fb_config _ _ _ _ K) as (Hbns & EN & Hg & _).
  pose proof (settled_ok _ _ _ _ q t K ltac:(lia) ltac:(lia)) as K0. fold c0 in K0.
  pose proof (filed_wider _ _ _ _ Hf ltac:(lia)) as Hw.
  pose proof (pow2_pos (q + min_gran_scale c) ltac:(lia)) as Hgp.
  assert (Egr : u64 (Z.shiftl 1 (q + min_gran_scale c)) = 2 ^ (q + min_gran_scale c)).
  { rewrite Z.shiftl_1_l. apply wrap_small. pose proof (pow2_mono (q + min_gran_scale c) 61). lia. }
  assert (Ehor : u64 (u64 (Z.shiftl (2 ^ (q + min_gran_scale c)) (bucket_num_scale c)) - 2 ^ (q + min_gran_scale c)) =
    (bucket_num c - 1) * 2 ^ (q + min_gran_scale c)).
  { rewrite shiftl_pow2 by lia. rewrite <- EN. pose proof (bucket_num_pos c (fb_config _ _ _ _ K)).
    assert (2 ^ (q + min_gran_scale c) * bucket_num c <= 2 ^ 61).
    { rewrite EN, <- Z.pow_add_r by lia. apply pow2_mono. lia. }
    rewrite (wrap_small 64 (_ * bucket_num c)) by nia. rewrite wrap_small by nia. ring. }
  assert (Hhor : 0 <= (bucket_num c - 1) * 2 ^ (q + min_gran_scale c) < 2 ^ 61).
  { assert (2 ^ (q + min_gran_scale c) * bucket_num c <= 2 ^ 61).
    { rewrite EN, <- Z.pow_add_r by lia. apply pow2_mono. lia. }
    pose proof (bucket_num_pos c (fb_config _ _ _ _ K)). nia. }
  pose proof (fb_config _ _ _ _ K0) as Hc0. destruct (settled_same c q t) as (Eg & En & Ebs & _ & Est & _).
  fold c0 in Eg, En, Ebs, Est.
  pose proof (fb_time _ _ _ _ K0) as [Hh0 Hhq0].
  assert (Hhrq0 : highest_rate_qid c0 <= q).
  { unfold c0, settled. destruct (Z.eqb_spec (bitmap c) 0); simpl; [lia|by apply Hhrq]. }
  unfold Insert. rewrite option_guard_True by lia. cbn [mbind option_bind]. rewrite Egr, Ehor.
  unfold HeadTimeMask. rewrite option_guard_True by lia. cbn [mbind option_bind].
  rewrite land_high_ones by lia. change (if bitmap c =? 0 then _ else c) with c0.
  assert (Et : (if t <? head_time c0 then head_time c0 else t) = t').
  { unfold t'. destruct (Z.ltb_spec t (head_time c0)); lia. }
  rewrite Et. rewrite wrap_small by lia.
  assert (Eq : (if t' >? head_time c0 + (bucket_num c - 1) * 2 ^ (q + min_gran_scale c)
    then wider_queue c0 q t' else Some q) = Some q').
  { unfold filed_through in Hf. rewrite En, Eg in Hf. destruct (_ >? _); [done|by subst]. }
  rewrite Eq. cbn [mbind option_bind].
  rewrite find_location_ok; rewrite ?Eg; try done; try lia. fold D.
  cbn [mbind option_bind].
  pose proof (slot_end_bounds (q' + min_gran_scale c) t' ltac:(lia)) as HDb. fold D in HDb.
  pose proof (slot_end_ctz (q' + min_gran_scale c) t' ltac:(lia) ltac:(lia)) as Hctz. fold D in Hctz.
  destruct (file_ok c0 cs pend free e D K0 ltac:(by rewrite Est) ltac:(lia) HR ltac:(lia))
    as (b & st & b' & ret & Eb & Ee & P).
  rewrite Eb. cbn [mbind option_bind]. rewrite Ee. cbn [mbind option_bind]. eexists _, _. split; [reflexivity|exact P].
Qed.

(** ** [Dequeue] *)

(** [highest_rate_qid] names the lowest queue that holds a packet, the last one if none does. *)
Definition lowest_rate_qid (c : FlowBundler St B) : Prop :=
  (forall i, 0 <= i < highest_rate_qid c -> n_packets c i = 0) /\
  (n_packets c (highest_rate_qid c) <> 0 \/ highest_rate_qid c = QUEUE_NUM - 1).

(** After queue [q] was served: kept while the queue holds packets, found anew else. *)
Definition rate_qid_after (q : Z) c (c' : FlowBundler St B) : Prop :=
  if n_packets c' q =? 0 then lowest_rate_qid c' else highest_rate_qid c' = highest_rate_qid c.

(** What a dequeue that serves the bucket due at [D] leaves. *)
Definition served (now : Z) c (pend : Z -> list HBEntry) (free : nat) (c' : FlowBundler St B) (out : list HBEntry) (D : Z) : Prop :=
  let k := Z.to_nat (bulk_quota (fdequeue_burst c) (Z.of_nat (length (pend D)))) in
  pend D <> [] /\ (forall D', D' < D -> pend D' = []) /\
  D < now + 2 ^ (highest_rate_qid c + min_gran_scale c) /\ (min_gran_scale c = 0 -> D <= now) /\
  out = take k (pend D) /\ 0 < Z.of_nat (length out) <= fdequeue_burst c /\
  n_packets_total c' = n_packets_total c - Z.of_nat (length out) /\
  rate_qid_after (place c D).1 c c' /\
  exists cs', bundler_ok c' cs' (<[D := drop k (pend D)]> pend) (free + length out).

Definition scanned (now : Z) c (cs : Z * Z -> list HBEntry) (pend : Z -> list HBEntry) (free : nat) (r : option (FlowBundler St B * option Z * list HBEntry)) : Prop :=
  match r with
  | None => False
  | Some (c', Some n, out) => n = Z.of_nat (length out) /\ exists D, served now c pend free c' out D
  | Some (c', None, out) => out = [] /\ bundler_ok c' cs pend free /\ now < head_time c' /\
      highest_rate_qid c' = highest_rate_qid c
  end.

(** Between two rounds of the scan only [head_time] has moved. *)
Definition scanning c (cs : Z * Z -> list HBEntry) (pend : Z -> list HBEntry) (free : nat) (st : FlowBundler St B * option Z) : Prop :=
  exists h, st = (fset_head h c, None) /\ bundler_ok (fset_head h c) cs pend free /\
    0 < h /\ (2 ^ highest_rate_qid c | h).

Lemma to_signed_burst n : 0 <= n < 2 ^ 31 -> to_signed 32 n = n.
Proof.
  intros Hn. unfold to_signed. rewrite wrap_small by lia. change (2 ^ (32 - 1)) with (2 ^ 31).
  by destruct (Z.ltb_spec n (2 ^ 31)); [|lia].
Qed.

Lemma quota_pos burst n : 0 < burst < 2 ^ 31 -> 0 < n < 2 ^ 31 ->
  0 < bulk_quota burst n <= burst /\ bulk_quota burst n <= n.
Proof.
  intros Hb Hn. unfold bulk_quota. rewrite wrap_small, to_signed_burst by lia.
  destruct (Z.gtb_spec burst n); lia.
Qed.

(** The lowest bit of the bitmap is that of the lowest queue with packets. *)
Lemma lowest_found c cs pend free :
  bundler_ok c cs pend free ->
  lowest_rate_qid (fset_hrq (if bitmap c =? 0 then QUEUE_NUM - 1 else builtin_ffsll (bitmap c) - 1) c).
Proof.
  intros K. destruct (fb_bits _ _ _ _ K) as [Hbm Hbits].
  assert (Hz : forall i, 0 <= i < 64 -> Z.testbit (bitmap c) i = false -> n_packets c i = 0).
  { intros i Hi Hb. rewrite Hbits in Hb by lia. pose proof (count_range _ _ _ _ i K ltac:(lia)). lia. }
  unfold lowest_rate_qid. simpl. destruct (Z.eqb_spec (bitmap c) 0) as [E0|E0].
  - split; [|by right]. unfold QUEUE_NUM. intros i Hi. apply Hz; [lia|]. by rewrite E0, Z.bits_0.
  - rewrite builtin_ffsll_pos by lia. pose proof (ctz_lt (bitmap c) 64 ltac:(lia)). pose proof (ctz_nonneg (bitmap c)).
    replace (ctz (bitmap c) + 1 - 1) with (ctz (bitmap c)) by lia. split.
    + intros i Hi. apply Hz; [lia|]. apply testbit_below_ctz; lia.
    + left. pose proof (Hbits (ctz (bitmap c)) ltac:(lia)) as Hb. rewrite testbit_ctz in Hb by lia. lia.
Qed.

(** Serving the bucket of [D], for the calendar [c] whose head is before [D]. *)
Lemma serve_ok c cs pend free D :
  bundler_ok c cs pend free -> pend D <> [] -> 0 < fdequeue_burst c < 2 ^ 31 ->
  let q := (place c D).1 in
  let b := m_queue c (place c D) in
  let k := Z.to_nat (bulk_quota (fdequeue_burst c) (Z.of_nat (length (pend D)))) in
  let n := Z.of_nat (length (take k (pend D))) in
  exists st b', dequeue_packet_bulk (place c D).2 (fst_ c) b (to_signed 32 (fdequeue_burst c)) =
      Some (st, b', take k (pend D)) /\ 0 < n <= fdequeue_burst c /\
    let c1 := fset_bucket q (place c D).2 b' st c in
    let left := u32 (n_packets c1 q - n) in
    let bm := if left =? 0 then clear_bit (bitmap c1) q else bitmap c1 in
    let c2 := fcount q (- n) bm c1 in
    let c3 := if left =? 0 then fset_hrq (if bm =? 0 then QUEUE_NUM - 1 else builtin_ffsll bm - 1) c2 else c2 in
    n_packets_total c3 = n_packets_total c - n /\ rate_qid_after q c c3 /\
    exists cs', bundler_ok c3 cs' (<[D := drop k (pend D)]> pend) (free + length (take k (pend D))).
Proof.
  intros K HD Hburst q b k n. pose proof (fb_placed _ _ _ _ K D HD) as (HDr & Hg & HR & Ecs).
  destruct (pend_counted _ _ _ _ _ K HD) as (Hq & Hn & Hbit). fold q in Hq, Hn, Hbit.
  destruct (fb_bits _ _ _ _ K) as [Hbm Hbits]. pose proof (fb_config _ _ _ _ K) as (_ & _ & Hgs & _).
  pose proof (family_dequeue (place c D).2 (fst_ c) (m_queue c) cs free (place c D)
    (to_signed 32 (fdequeue_burst c)) ltac:(rewrite to_signed_burst; lia) (fb_family _ _ _ _ K)) as P.
  pose proof (family_small _ _ _ _ (place c D) (fb_family _ _ _ _ K)) as Hsm.
  rewrite Ecs, to_signed_burst in P by lia. rewrite Ecs in Hsm. rewrite to_signed_burst by lia.
  fold k in P. destruct P as (st & b' & E & F & _). exists st, b'. split; [exact E|].
  assert (Hlen : 0 < Z.of_nat (length (pend D))) by (destruct (pend D); [done|cbn [length]; lia]).
  pose proof (quota_pos (fdequeue_burst c) (Z.of_nat (length (pend D))) ltac:(lia) ltac:(lia)) as Hquota.
  assert (En : n = bulk_quota (fdequeue_burst c) (Z.of_nat (length (pend D)))).
  { unfold n. rewrite length_take. lia. }
  split; [lia|]. intros c1 left bm c2 c3.
  assert (Hk : Z.of_nat (length (drop k (pend D))) - Z.of_nat (length (pend D)) = - n).
  { rewrite length_drop. lia. }
  pose proof (count_range _ _ _ _ q K ltac:(lia)) as Hcr. pose proof (fb_total _ _ _ _ K) as [_ Htot].
  assert (Hfit : n <= n_packets c q).
  { rewrite (fb_count _ _ _ _ K) by lia.
    destruct (place_range c D (fb_config _ _ _ _ K) HDr) as [_ Hb];
      [pose proof (fb_time _ _ _ _ K); lia|].
    pose proof (held_elem c cs q _ Hb) as Hh. change (q, (place c D).2) with (place c D) in Hh.
    rewrite Ecs in Hh. lia. }
  assert (Eleft : left = n_packets c q - n) by (apply wrap_small; simpl; lia).
  assert (Ebm : forall i, 0 <= i < 64 -> Z.testbit bm i =
    if decide (i = q) then 0 <? n_packets c q + - n else Z.testbit (bitmap c) i).
  { intros i Hi. unfold bm. change (bitmap c1) with (bitmap c).
    destruct (Z.eqb_spec left 0) as [El|El]; [rewrite clear_bit_spec by lia|].
    - destruct (Z.eqb_spec q i) as [<-|]; [|by rewrite decide_False, andb_true_r by congruence].
      rewrite decide_True, andb_false_r by done. symmetry. apply Z.ltb_ge. lia.
    - destruct (decide (i = q)) as [->|]; [|done]. rewrite Hbits by lia. rewrite Eleft in El.
      destruct (Z.ltb_spec 0 (n_packets c q)), (Z.ltb_spec 0 (n_packets c q + - n)); lia || done. }
  assert (Hbmr : 0 <= bm < 2 ^ 64).
  { unfold bm. change (bitmap c1) with (bitmap c). destruct (left =? 0); [by apply clear_bit_range|done]. }
  destruct (fb_update c cs pend free D b' st (drop k (pend D)) (free + length (take k (pend D)))%nat bm K HDr HR Hg F)
    as (K' & _ & Et).
  - fold n in Hk. rewrite Hk. unfold n. lia.
  - exact Hbmr.
  - rewrite Hk. exact Ebm.
  - rewrite Hk in K', Et. fold q in K', Et. change (bundler_ok c2 (<[place c D := drop k (pend D)]> cs)
      (<[D := drop k (pend D)]> pend) (free + length (take k (pend D)))%nat) in K'.
    assert (Hleft : n_packets c2 q = left).
    { unfold c2, left. simpl. by rewrite fn_lookup_insert. }
    unfold rate_qid_after. replace (n_packets c3 q) with left by (unfold c3; by case_match).
    unfold c3. destruct (Z.eqb_spec left 0) as [El|El]; [|split; [exact Et|split; [done|by eexists]]].
    split; [exact Et|]. split; [by apply (lowest_found c2 _ _ _ K')|]. eexists. apply fb_hrq; [exact K'| |].
    + destruct (Z.eqb_spec bm 0); [done|]. rewrite builtin_ffsll_pos by lia.
      pose proof (ctz_lt bm 64 ltac:(lia)). pose proof (ctz_nonneg bm). lia.
    + intros D' HD'. destruct (pend_counted _ _ _ _ _ K' HD') as (Hq' & _ & Hbit').
      change (bitmap c2) with bm in Hbit'.
      assert (Hbm0 : bm <> 0) by (intros E0; by rewrite E0, Z.bits_0 in Hbit').
      destruct (Z.eqb_spec bm 0); [done|]. rewrite builtin_ffsll_pos by lia.
      change (min_gran_scale c2) with (min_gran_scale c). change (place c2 D') with (place c D') in Hq', Hbit'.
      assert (ctz bm <= (place c D').1).
      { destruct (Z_lt_le_dec (place c D').1 (ctz bm)); [|done]. rewrite testbit_below_ctz in Hbit' by lia. done. }
      unfold place in *. simpl in *. lia.
Qed.

(** Every pending deadline is the end of a slot of the scan. *)
Lemma pend_slot c cs pend free D :
  let s := highest_rate_qid c + min_gran_scale c in
  bundler_ok c cs pend free -> pend D <> [] -> (2 ^ s | D) /\ slot_end s (head_time c) <= D.
Proof.
  intros s K HD. destruct (fb_placed _ _ _ _ K D HD) as (HDr & Hg & [HR _] & _). fold s in Hg.
  pose proof (fb_time _ _ _ _ K) as [_ Hq]. pose proof (fb_config _ _ _ _ K) as (_ & _ & Hgs & _).
  assert (Hd : (2 ^ s | D)).
  { apply (Z.divide_trans _ (2 ^ ctz D)); [apply pow2_divide; lia|apply ctz_divide; lia]. }
  split; [done|]. rewrite (slot_end_unique s D D ltac:(lia) Hd ltac:(pose proof (pow2_pos s); lia)).
  by apply slot_end_mono; [lia|].
Qed.

Lemma advance_ok c cs pend free :
  let s := highest_rate_qid c + min_gran_scale c in
  bundler_ok c cs pend free -> pend (slot_end s (head_time c)) = [] -> head_time c + 2 ^ s < 2 ^ 62 ->
  bundler_ok (fset_head (head_time c + 2 ^ s) c) cs pend free.
Proof.
  intros s K HE Hlt. pose proof (fb_time _ _ _ _ K) as [Hh Hq].
  pose proof (fb_config _ _ _ _ K) as (_ & _ & Hgs & _). pose proof (pow2_pos s ltac:(lia)).
  apply fb_head; [done|lia|]. intros D HD. destruct (fb_placed _ _ _ _ K D HD) as (HDr & _ & [HR1 HR2] & _).
  destruct (pend_slot _ _ _ _ D K HD) as [Hd Hle]. fold s in Hd, Hle.
  pose proof (slot_end_bounds s (head_time c) ltac:(lia)) as Hb. split; simpl.
  - assert (slot_end s (head_time c) <> D) by (intros E; by rewrite E in HE).
    pose proof (divide_gap (2 ^ s) (slot_end s (head_time c)) D ltac:(lia) (slot_end_divide _ _) Hd ltac:(lia)). lia.
  - pose proof (pow2_pos (ctz D) (ctz_nonneg D)).
    pose proof (Z.div_le_mono (head_time c) (head_time c + 2 ^ s) (2 ^ ctz D) ltac:(lia) ltac:(lia)). lia.
Qed.

Lemma fb_scan_step_ok now c cs pend free st :
  let s := highest_rate_qid c + min_gran_scale c in
  0 <= now < 2 ^ 61 -> s < 62 -> 0 < fdequeue_burst c < 2 ^ 31 ->
  scanning c cs pend free st ->
  match scan_step now (highest_rate_qid c) (2 ^ s) st with
  | inl st' => scanning c cs pend free st' /\
      0 <= now + 2 ^ s + 1 - head_time st'.1 < now + 2 ^ s + 1 - head_time st.1
  | inr r => scanned now c cs pend free r
  end.
Proof.
  intros s Hnow Hs Hburst (h & -> & K & Hh & Hdiv). pose proof (fb_time _ _ _ _ K) as [Hh' Hq].
  pose proof (fb_config _ _ _ _ K) as Hc. pose proof Hc as (_ & _ & Hgs & _). simpl in Hh', Hq, Hgs.
  pose proof (pow2_pos s ltac:(lia)) as Hp. pose proof (pow2_mono s 61 ltac:(lia)).
  unfold scan_step. cbn [fst]. change (head_time (fset_head h c)) with h.
  destruct (Z.geb_spec now h) as [Hle|Hgt]; [|split; [done|split; [exact K|split; [simpl; lia|done]]]].
  set (E := slot_end s h). pose proof (slot_end_bounds s h ltac:(lia)) as HE. fold E in HE.
  pose proof (bucket_num_pos _ Hc) as HN. simpl in HN.
  assert (HR : in_round (fset_head h c) E).
  { apply (near_in_round (fset_head h c) (highest_rate_qid c) h Hc); simpl; fold s; try lia.
    pose proof (div_mul_le h (2 ^ s) Hp). nia. }
  rewrite (find_location_ok (fset_head h c)) by (done || simpl; fold s E; lia).
  change (min_gran_scale (fset_head h c)) with (min_gran_scale c). fold s E.
  pose proof (slot_end_ctz s h ltac:(lia) Hh) as HcE. fold E in HcE.
  destruct (place_range (fset_head h c) E Hc ltac:(lia) ltac:(simpl; lia)) as [Hpq Hpb].
  unfold bucket_at. rewrite option_guard_True by (simpl in *; unfold QUEUE_NUM; lia). cbn [mbind option_bind].
  pose proof (cs_at _ _ _ _ E K ltac:(lia) HR) as Ecs.
  pose proof (family_empty _ _ _ _ (place (fset_head h c) E) (fb_family _ _ _ _ K)) as Hem. rewrite Ecs in Hem.
  cbn [Bundler.queue_id bucket_id].
  change ((place (fset_head h c) E).1, (place (fset_head h c) E).2) with (place (fset_head h c) E).
  destruct (pend E) as [|e l] eqn:Ep.
  - rewrite (proj2 Hem eq_refl), andb_false_r. rewrite wrap_small by lia.
    pose proof (advance_ok _ _ _ _ K Ep ltac:(simpl; fold s; lia)) as K'. split; [|simpl; lia].
    exists (h + 2 ^ s). split; [done|]. split; [exact K'|]. split; [lia|].
    apply Z.divide_add_r; [done|]. apply pow2_divide. lia.
  - assert (Hne : pend E <> []) by (by rewrite Ep).
    destruct (pend_counted _ _ _ _ _ K Hne) as (_ & Hcnt & _).
    destruct (bucket_IsEmpty _) eqn:Eem; [by specialize (proj1 Hem eq_refl)|].
    replace (n_packets (fset_head h c) (place (fset_head h c) E).1 >? 0) with true by lia. cbn [andb negb].
    destruct (serve_ok _ _ _ _ E K Hne Hburst) as (st & b' & -> & Hn & Et & Hr & K').
    set (out := take _ (pend E)) in *. replace (Z.of_nat (length out) >? 0) with true by lia.
    split; [done|]. exists E. split; [done|]. split; [|split; [fold s; lia|split]].
    + intros D' HD'. destruct (pend D') eqn:ED'; [done|]. assert (Hne' : pend D' <> []) by (by rewrite ED').
      destruct (pend_slot _ _ _ _ _ K Hne') as [_ Hle']. simpl in Hle'. fold s E in Hle'. lia.
    + intros Hg0. assert (Es : s = highest_rate_qid c) by lia.
      rewrite <- Es in Hdiv. unfold E. rewrite <- (slot_end_unique s h h); [done|lia|done|lia].
    + split; [done|]. split; [done|]. split; [exact Et|]. split; [exact Hr|exact K'].
Qed.

(** What [Dequeue] does; [None] is the case in which nothing is due, and then
    the count of the batch is whatever [dequeue_num] happened to hold. *)
Definition dequeue_post (now junk : Z) c cs pend (free : nat) (c' : FlowBundler St B)
    (out : list HBEntry) (cnt : Z) : Prop :=
  (n_packets_total c = 0 /\ (forall D, pend D = []) /\ out = [] /\ cnt = 0 /\ head_time c' = now /\
     highest_rate_qid c' = highest_rate_qid c /\ bundler_ok c' cs pend free) \/
  (n_packets_total c <> 0 /\ (forall D, D <= now -> pend D = []) /\ out = [] /\
     cnt = to_signed 32 (u32 junk) /\ now < head_time c' /\ highest_rate_qid c' = highest_rate_qid c /\
     bundler_ok c' cs pend free) \/
  exists D, served now c pend free c' out D /\ cnt = Z.of_nat (length out).

Lemma round_down_ok c cs pend free :
  bundler_ok c cs pend free ->
  bundler_ok (fset_head (2 ^ highest_rate_qid c * (head_time c / 2 ^ highest_rate_qid c)) c) cs pend free.
Proof.
  intros K. pose proof (fb_time _ _ _ _ K) as [Hh Hq]. set (q := highest_rate_qid c) in *.
  pose proof (fb_config _ _ _ _ K) as (_ & _ & Hgs & _).
  pose proof (pow2_pos q ltac:(lia)) as Hp. pose proof (div_mul_le (head_time c) (2 ^ q) Hp) as Hd.
  pose proof (Z.div_pos (head_time c) (2 ^ q) ltac:(lia) Hp).
  apply fb_head; [done|nia|]. intros D HD. destruct (fb_placed _ _ _ _ K D HD) as (HDr & Hg & [HR1 HR2] & _).
  split; simpl; [lia|]. fold q in Hg. pose proof (pow2_split q (ctz D) ltac:(lia)) as Es.
  pose proof (pow2_pos (ctz D - q) ltac:(lia)) as Hp'.
  assert (Ed : forall x, x / 2 ^ ctz D = x / 2 ^ q / 2 ^ (ctz D - q)).
  { intros x. rewrite Es. by rewrite Z.div_div by lia. }
  rewrite (Ed (2 ^ q * _)), (Z.mul_comm (2 ^ q) (_ / _)), Z.div_mul, <- Ed by lia. done.
Qed.

Lemma fb_dequeue_ok now junk c cs pend free :
  bundler_ok c cs pend free -> 0 <= now < 2 ^ 61 -> 0 < fdequeue_burst c < 2 ^ 31 ->
  2 ^ highest_rate_qid c <= head_time c \/ n_packets_total c = 0 ->
  exists c' out cnt, Dequeue now junk c = Some (c', out, cnt) /\ dequeue_post now junk c cs pend free c' out cnt.
Proof.
  intros K Hnow Hburst Hhead. unfold Dequeue, dequeue_post. pose proof (fb_time _ _ _ _ K) as [Hh Hq].
  destruct (Z.eqb_spec (n_packets_total c) 0) as [Hz|Hnz].
  { eexists _, _, _. split; [reflexivity|]. left. pose proof (total_zero _ _ _ _ K (or_introl Hz)) as Hp.
    do 6 (split; [done|]).
    apply fb_head; [done|lia|]. intros D HD. by rewrite Hp in HD. }
  destruct Hhead as [Hhead|]; [|done].
  destruct (total_some _ _ _ _ K Hnz) as (D0 & HD0). destruct (fb_placed _ _ _ _ K D0 HD0) as (HDr & Hg & _).
  pose proof (ctz_lt D0 62 HDr). pose proof (fb_config _ _ _ _ K) as (_ & _ & Hgs & _).
  set (s := highest_rate_qid c + min_gran_scale c) in *.
  unfold HeadTimeMask. rewrite option_guard_True by lia. cbn [mbind option_bind].
  change (min_gran_scale (fset_head _ c)) with (min_gran_scale c). change (highest_rate_qid (fset_head _ c)) with (highest_rate_qid c).
  fold s. rewrite land_high_ones by lia. rewrite (wrap_small 32) by lia. rewrite option_guard_True by lia.
  cbn [mbind option_bind]. rewrite Z.shiftl_1_l. pose proof (pow2_pos s ltac:(lia)). pose proof (pow2_mono s 61 ltac:(lia)).
  rewrite wrap_small by lia. pose proof (round_down_ok _ _ _ _ K) as K0.
  set (h := 2 ^ highest_rate_qid c * (head_time c / 2 ^ highest_rate_qid c)) in *.
  pose proof (fb_time _ _ _ _ K0) as [Hh0 _]. simpl in Hh0.
  assert (Hhpos : 0 < h).
  { unfold h. pose proof (pow2_pos (highest_rate_qid c) ltac:(lia)).
    assert (1 <= head_time c / 2 ^ highest_rate_qid c) by (apply Z.div_le_lower_bound; lia). nia. }
  destruct (iter_until_total (scanning c cs pend free) (scanned now c cs pend free)
    (fun st => now + 2 ^ s + 1 - head_time st.1) fuel64
    (scan_step now (highest_rate_qid c) (2 ^ s)) (fset_head h c, None)) as (r & -> & Hr).
  - intros st Hst. exact (fb_scan_step_ok now c cs pend free st Hnow ltac:(fold s; lia) Hburst Hst).
  - exists h. split; [done|]. split; [done|]. split; [done|]. apply Z.divide_factor_l.
  - simpl. unfold fuel64. lia.
  - destruct r as [[[c' [n|]] out]|]; [| |done]; simpl in Hr.
    + destruct Hr as (-> & D & Hs). eexists _, _, _. split; [reflexivity|]. right; right. exists D.
      pose proof Hs as (Hne & _ & _ & _ & _ & Hlen & _). split.
      * unfold served in *. destruct Hs as (? & ? & ? & ? & ? & ? & ? & ? & cs' & K').
        do 8 (split; [done|]). exists cs'. by apply fb_last.
      * by rewrite wrap_small, to_signed_burst by lia.
    + destruct Hr as (-> & K' & Hgt & Hrq). eexists _, _, _. split; [reflexivity|]. right; left.
      split; [done|]. split; [|split; [done|split; [done|split; [done|split; [done|by apply fb_last]]]]].
      intros D HD. destruct (pend D) eqn:E; [done|]. assert (Hne : pend D <> []) by (by rewrite E).
      destruct (fb_placed _ _ _ _ K' D Hne) as (_ & _ & [HR _] & _). lia.
Qed.

(** ** Configuration, and the queue of a rate *)

Lemma queue_index_ok c rate :
  0 < max_rate c < 2 ^ 63 -> max_rate_highest_bit c = 64 - bitlen (max_rate c) -> 0 < rate < 2 ^ 64 ->
  let r := Z.min rate (max_rate c) in
  let q := bitlen (max_rate c) - bitlen r in
  FindQueueIndex c rate = Some q /\ 0 <= q /\ max_rate c < 2 ^ (q + 1) * r /\ 2 ^ q * r < 2 * max_rate c.
Proof.
  intros Hm Hb Hr r q. assert (Er : (if rate <? max_rate c then rate else max_rate c) = r).
  { unfold r. destruct (Z.ltb_spec rate (max_rate c)); lia. }
  assert (Hr' : 0 < r <= max_rate c) by (unfold r; lia).
  pose proof (bitlen_bounds r ltac:(lia)) as B1. pose proof (bitlen_bounds (max_rate c) ltac:(lia)) as B2.
  pose proof (bitlen_mono r (max_rate c) ltac:(lia)) as Hmono.
  pose proof (bitlen_le (max_rate c) 63 ltac:(lia) ltac:(lia)) as H63.
  rewrite bitlen_pos in B1 at 1 by lia. rewrite bitlen_pos in B2 at 1 by lia.
  pose proof (Z.log2_nonneg r). pose proof (bitlen_pos r ltac:(lia)) as E1. pose proof (bitlen_pos (max_rate c) ltac:(lia)) as E2.
  split; [|split; [unfold q; lia|]].
  - unfold FindQueueIndex. rewrite Er, builtin_clzll_pos by lia. cbn [mbind option_bind]. rewrite Hb.
    f_equal. rewrite wrap_small; unfold q; lia.
  - replace (bitlen (max_rate c)) with (q + bitlen r) in B2 by (unfold q; lia).
    rewrite E1 in B1, B2. replace (Z.log2 (max_rate c) + 1 - 1) with (q + Z.log2 r) in B2 by (unfold q; lia).
    replace (Z.log2 r + 1 - 1) with (Z.log2 r) in B1 by lia.
    replace (q + (Z.log2 r + 1)) with ((q + 1) + Z.log2 r) in B2 by lia.
    assert (0 <= q) by (unfold q; lia). rewrite Z.pow_add_r in B1 by lia. change (2 ^ 1) with 2 in B1.
    rewrite !Z.pow_add_r in B2 by lia. rewrite Z.pow_add_r by lia. change (2 ^ 1) with 2 in *.
    pose proof (pow2_pos q ltac:(lia)). split; nia.
Qed.

(** * Properties *)

(** [Init] builds an empty calendar for any granularity below [2^32] ns, and
    the queue of a rate always exists: the slots of that queue are between half
    and twice as long as one full packet takes at that rate. *)
Theorem bundler_init bns mgs burst now b0 st free :
  1 <= bns <= 30 -> 0 <= mgs < 32 -> 0 <= now < 2 ^ 62 -> Z.of_nat free < 2 ^ 32 ->
  family st (fun _ => b0) (fun _ => []) free ->
  exists c, init_bundler bns mgs burst now b0 st = Some c /\
    bundler_ok c (fun _ => []) (fun _ => []) free /\
    forall rate, 0 < rate < 2 ^ 64 ->
      exists q, FindQueueIndex c rate = Some q /\ 0 <= q < 34 /\
        let r := Z.min rate (max_rate c) in
        RATE_SCALE * MTU * 8 < 2 * 2 ^ (q + min_gran_scale c) * r /\
        2 ^ (q + min_gran_scale c) * r < 2 * (RATE_SCALE * MTU * 8).
Proof.
  intros Hb Hg Hnow Hfree F. unfold init_bundler. rewrite (wrap_small 8 bns), (wrap_small 8 mgs) by lia.
  rewrite option_guard_True by lia. cbn [mbind option_bind]. set (M := RATE_SCALE * Z.shiftl MTU 3).
  assert (EM : M = RATE_SCALE * MTU * 8) by reflexivity. rewrite shiftr_pow2 by lia.
  pose proof (pow2_pos mgs ltac:(lia)) as Hp. pose proof (pow2_mono mgs 31 ltac:(lia)).
  pose proof (div_mul_le M (2 ^ mgs) Hp) as Hd. set (mr := M / 2 ^ mgs) in *.
  assert (Hmr : 0 < mr < 2 ^ 34).
  { unfold RATE_SCALE, MTU in EM. split; [apply Z.div_str_pos; lia|nia]. }
  rewrite builtin_clzll_pos by lia. cbn [mbind option_bind]. eexists. split; [reflexivity|].
  pose proof (pow2_mono 1 bns ltac:(lia)). pose proof (pow2_mono bns 30 ltac:(lia)).
  assert (EN : u64 (to_signed 32 (Z.shiftl 1 bns)) = 2 ^ bns /\ u32 (Z.shiftl 1 bns - 1) = 2 ^ bns - 1).
  { rewrite Z.shiftl_1_l, to_signed_burst, !wrap_small by lia. done. }
  destruct EN as [EN1 EN2]. split.
  - split; cbn [fst_ m_queue bucket_num bucket_num_scale min_gran_scale bid_mask head_time highest_rate_qid
      n_packets n_packets_total bitmap]; rewrite ?EN1, ?EN2; try done.
    + by split; simpl; rewrite ?EN1, ?EN2; [lia|].
    + intros q _. symmetry. apply Z.eq_dne. intros Hne. by destruct (sum_upto_nonzero _ _ Hne) as (i & _ & Hi).
    + split; [done|]. intros q Hq. by rewrite Z.bits_0.
  - intros rate Hr. destruct (queue_index_ok
      (FB bns (u64 (to_signed 32 (Z.shiftl 1 bns))) mgs (u32 (Z.shiftl 1 bns - 1)) mr (64 - bitlen mr)
          (fun _ => b0) 0 (fun _ => 0) 0 now (QUEUE_NUM - 1) burst 0 [] st 0) rate) as (E & Hq & B1 & B2);
      simpl; [lia|done|done|]. simpl in E, Hq, B1, B2. set (r := Z.min rate mr) in *.
    eexists. split; [exact E|]. pose proof (bitlen_le mr 34 ltac:(lia) ltac:(lia)).
    pose proof (bitlen_mono 1 r ltac:(unfold r; lia)) as Hb1. change (bitlen 1) with 1 in Hb1. split; [lia|].
    set (q := bitlen mr - bitlen r) in *. rewrite Z.pow_add_r in B1 by lia. change (2 ^ 1) with 2 in B1.
    rewrite Z.pow_add_r by lia. fold M. rewrite <- EM. pose proof (pow2_pos q ltac:(lia)).
    assert (mr + 1 <= 2 ^ q * 2 * r) by lia. split; nia.
Qed.

(** The location of a packet sent through queue [q] is the place of its
    deadline, the end of the slot its time falls in, and two deadlines within
    one round never share a bucket. *)
Theorem bundler_location c q t D' :
  config_ok c -> 0 <= q -> q + min_gran_scale c < 62 -> 0 < t ->
  let D := slot_end (q + min_gran_scale c) t in
  D < 2 ^ 62 ->
  FindRealLocation c q t = Some (Loc (place c D).1 (place c D).2) /\
  t <= D < t + 2 ^ (q + min_gran_scale c) /\
  0 <= (place c D).1 < 62 /\ 0 <= (place c D).2 < bucket_num c /\
  (0 < D' -> in_round c D -> in_round c D' -> place c D = place c D' -> D = D').
Proof.
  intros Hc Hq Hs Ht D HD. pose proof Hc as (_ & _ & Hg & _).
  pose proof (slot_end_bounds (q + min_gran_scale c) t ltac:(lia)) as Hb. fold D in Hb.
  pose proof (slot_end_ctz (q + min_gran_scale c) t ltac:(lia) Ht) as He. fold D in He.
  destruct (place_range c D Hc ltac:(lia) ltac:(lia)) as [H1 H2].
  split; [by apply find_location_ok|]. split; [done|]. split; [done|]. split; [done|].
  intros. apply (fb_place_inj c); done || lia.
Qed.

(** C4. [Insert] files a packet at its deadline, which is not before its send
    time nor before the head of the calendar, and keeps the counts and the bitmap
    exact; with the pool exhausted it answers -1 and files nothing.  The deadline
    has to lie within the round, which it does whenever the send time is within
    the horizon counted from the slot of the head ([bundler_near]). *)
Theorem bundler_insert c cs pend free q t e q' :
  bundler_ok c cs pend free -> entry_ok (fst_ c) e ->
  0 <= q -> q + min_gran_scale c + bucket_num_scale c < 61 -> 0 < t < 2 ^ 61 ->
  (bitmap c <> 0 -> highest_rate_qid c <= q) ->
  let c0 := settled c q t in
  let t' := Z.max t (head_time c0) in
  let D := slot_end (q' + min_gran_scale c) t' in
  filed_through c0 q t' q' -> q' + min_gran_scale c < 62 -> D < 2 ^ 62 -> in_round c0 D ->
  exists c' ret, Insert c q t e = Some (c', ret) /\ insert_post c0 pend free e D c' ret.
Proof. apply fb_insert_ok. Qed.

(** Within the horizon the round is never overrun. *)
Theorem bundler_near c cs pend free q t :
  bundler_ok c cs pend free -> 0 <= q -> q + min_gran_scale c < 61 -> 0 < t < 2 ^ 61 ->
  let c0 := settled c q t in
  let t' := Z.max t (head_time c0) in
  let s := q + min_gran_scale c in
  t <= 2 ^ s * (head_time c0 / 2 ^ s) + (bucket_num c - 1) * 2 ^ s ->
  filed_through c0 q t' q /\ in_round c0 (slot_end s t').
Proof.
  intros K Hq Hs Ht c0 t' s Hn. pose proof (fb_config _ _ _ _ K) as Hc. pose proof (bucket_num_pos c Hc).
  assert (E : min_gran_scale c0 = min_gran_scale c /\ bucket_num c0 = bucket_num c /\ config_ok c0).
  { unfold c0, settled. by destruct (bitmap c =? 0). }
  destruct E as (Eg & En & Hc0). pose proof Hc as (_ & _ & Hgs & _).
  pose proof (pow2_pos s ltac:(lia)). pose proof (div_mul_le (head_time c0) (2 ^ s) ltac:(lia)).
  assert (Ht' : t' <= 2 ^ s * (head_time c0 / 2 ^ s) + (bucket_num c - 1) * 2 ^ s) by (unfold t'; nia).
  split.
  - unfold filed_through. rewrite Eg, En. fold s. destruct (Z.gtb_spec t' (head_time c0 + (bucket_num c - 1) * 2 ^ s)); [lia|done].
  - pose proof (near_in_round c0 q t' Hc0 Hq ltac:(unfold t'; lia) ltac:(unfold t'; lia)) as P. cbv zeta in P.
    rewrite Eg, En in P. by apply P.
Qed.

(** C2. [Dequeue] ends, serves the earliest deadline, at most [dequeue_burst]
    packets of it, never one due more than a slot of the fastest queue after the
    present nor, with a granularity of 1 ns, any that is due later; the rest
    stays queued and the counts and the bitmap stay exact. [highest_rate_qid], of
    which the invariant only says that no pending packet is in a lower queue, is found
    anew as the lowest queue with packets when the queue served is empty, and is kept
    otherwise. When nothing is due nothing is taken, but the count of the batch is the
    value of a variable the code has not set. The head of a calendar that is not
    empty has to be at least a slot of the fastest queue after time 0, since
    rounding it down would give 0, for which the code has no location. *)
Theorem bundler_dequeue now junk c cs pend free :
  bundler_ok c cs pend free -> 0 <= now < 2 ^ 61 -> 0 < fdequeue_burst c < 2 ^ 31 ->
  2 ^ highest_rate_qid c <= head_time c \/ n_packets_total c = 0 ->
  exists c' out cnt, Dequeue now junk c = Some (c', out, cnt) /\ dequeue_post now junk c cs pend free c' out cnt.
Proof. apply fb_dequeue_ok. Qed.

End bundler_props.

(** ** One round of the loop of [Enqueue], over the buckets of [hb-list-bucket.h] *)

#[local] Existing Instance HBListBucket_laws.

Section enqueue_props.
Implicit Types (c : FlowBundler (shared HBEntry ledger) ListBucket).

(** The bytes of flow [f] are set to [v]. *)
Definition with_num (f v : Z) (st : shared HBEntry ledger) : shared HBEntry ledger :=
  Shared (blk st) (pool st) (set_num (acct st) f v).

Lemma family_num (st : shared HBEntry ledger) (bs : Z * Z -> ListBucket) cs n f v :
  family st bs cs n -> 0 <= v < 2 ^ 64 -> family (with_num f v st) bs cs n.
Proof.
  intros (all & own & free & [H1 H2 H3 H4 H5 H6 H7 H8 H9 H10] & El) Hv. exists all, own, free.
  split; [|done]. split; try done; simpl.
  - by apply set_num_ok.
  - intros i e He. destruct (H10 i e He) as (? & ? & ?). split; [done|]. split; [|done].
    unfold flow_known. by rewrite set_num_length.
Qed.

Lemma fb_num c cs pend free f v fi n :
  bundler_ok c cs pend free -> 0 <= v < 2 ^ 64 ->
  bundler_ok (fset_flows fi (with_num f v (fst_ c)) n c) cs pend free.
Proof. intros [Kf Kc Kt Kp Ko Kn Ktot Kb] Hv. split; try done. by apply family_num. Qed.

(** The calendar just before [Insert]. *)
Definition before_insert c (f : Z) (info : FlowInfo) (q : Z) : FlowBundler (shared HBEntry ledger) ListBucket :=
  let c := fset_flows (<[Z.to_nat f := info]> (fflow_info c)) (fst_ c) (total_enqueue_pkts_num c) c in
  fset_hrq (if q <? highest_rate_qid c then q else highest_rate_qid c) c.

Lemma before_insert_ok c cs pend free f info q :
  bundler_ok c cs pend free -> 0 <= q -> bundler_ok (before_insert c f info q) cs pend free.
Proof.
  intros K Hq. pose proof (fb_time _ _ _ _ K) as [_ Hh]. unfold before_insert. apply fb_hrq; [by apply fb_flows| |]; simpl.
  - destruct (Z.ltb_spec q (highest_rate_qid c)); lia.
  - intros D HD. destruct (fb_placed _ _ _ _ K D HD) as (_ & Hg & _).
    destruct (Z.ltb_spec q (highest_rate_qid c)); lia.
Qed.

Definition bundler_enqueue_post c pend (free : nat) (f bytes left : Z) (info : FlowInfo) (stamp D : Z) (e : HBEntry)
    (c' : FlowBundler (shared HBEntry ledger) ListBucket) (dropped : bool) : Prop :=
  exists cs' pend' free', bundler_ok c' cs' pend' free' /\
    if dropped then pend' = pend /\ free = O /\ free' = O /\ n_packets_total c' = n_packets_total c /\
      fflow_info c' !! Z.to_nat f = Some info
    else pend' = <[D := e :: pend D]> pend /\ free = S free' /\ n_packets_total c' = n_packets_total c + 1 /\
      fflow_info c' !! Z.to_nat f = Some (Flow stamp (frate info)) /\
      flow_bytes (acct (fst_ c')) f = Some (u64 (left + bytes)).

(** C9. The loop of [Enqueue]: a packet is stamped at least one transmission
    time after the last of its flow and not before the present, is filed at the
    deadline of its stamp in a queue at least as wide as that of the rate of its
    destination, and its bytes are counted; it is dropped only when the pool is
    exhausted, and then the stamp of the flow stays. This needs the deadline to lie
    within the round of the calendar ([in_round]; within the horizon of the head
    it does, [bundler_near]), the queue [q'] beyond the horizon to exist
    ([filed_through], which excludes the [__builtin_clzll(0)] of the code just
    beyond it) and to have slots below [2^62] ns; times are below [2^60] ns, and
    the flow and its destination have to be registered. *)
Theorem bundler_enqueue pk c cs pend free a pkt info now agg hid q left q' :
  let f := ip_src pkt in
  let info' := flow_ready info now in
  let stamp := Z.max (last_stamp info' + packet_time info' (total_len pkt)) now in
  let e := HEntry a f stamp hid in
  let c0 := settled (before_insert c f info' q) q stamp in
  let t' := Z.max stamp (head_time c0) in
  let D := slot_end (q' + min_gran_scale c) t' in
  bundler_ok c cs pend free -> hb_ok (acct (fst_ c)) e ->
  pk !! a = Some pkt -> 0 <= total_len pkt < 2 ^ 16 ->
  fflow_info c !! Z.to_nat f = Some info -> 0 <= last_stamp info < 2 ^ 60 -> 0 <= frate info < 2 ^ 32 ->
  0 < now < 2 ^ 60 -> flow_bytes (acct (fst_ c)) f = Some left ->
  map_get (aggregation_rates (acct (fst_ c))) (ip_dst pkt) = Some (agg, hid) ->
  FindQueueIndex c agg = Some q -> 0 <= q -> q + min_gran_scale c + bucket_num_scale c < 61 ->
  filed_through c0 q t' q' -> q' + min_gran_scale c < 62 -> D < 2 ^ 62 -> in_round c0 D ->
  exists c' dropped, bundler_enqueue_one pk c a now = Some (c', dropped) /\
    bundler_enqueue_post c pend free f (total_len pkt) left info' stamp D e c' dropped /\
    stamp <= D /\ last_stamp info' + packet_time info' (total_len pkt) <= stamp /\ q <= q'.
Proof.
  intros f info' stamp e c0 t' D K He Hpk Hl Hi Hst Hr Hnow Hleft Hmap Hfq Hq Hs Hf Hq' HD HR.
  assert (Hf0 : 0 <= f) by apply He. unfold bundler_enqueue_one.
  rewrite Hpk. cbn [mbind option_bind]. fold f. rewrite option_guard_True by done. cbn [mbind option_bind].
  rewrite Hi. cbn [mbind option_bind]. fold info'.
  assert (Hinf : 0 <= last_stamp info' < 2 ^ 60 /\ 0 < frate info' < 2 ^ 32).
  { unfold info', flow_ready. destruct (Z.eqb_spec (frate info) 0); simpl; unfold DEFAULT_FLOW_RATE; lia. }
  destruct (next_stamp_ok info' (total_len pkt) now ltac:(lia) ltac:(lia) Hl) as (-> & Hpt & _).
  cbn [mbind option_bind fst_ fset_flows].
  assert (Est : (if last_stamp info' + packet_time info' (total_len pkt) >=? now
    then last_stamp info' + packet_time info' (total_len pkt) else now) = stamp).
  { unfold stamp. destruct (Z.geb_spec (last_stamp info' + packet_time info' (total_len pkt)) now); lia. }
  rewrite Est, Hleft. cbn [mbind option_bind]. rewrite Hmap. cbn [mbind option_bind].
  change (FindQueueIndex (fset_flows _ _ _ c) agg) with (FindQueueIndex c agg). rewrite Hfq. cbn [mbind option_bind].
  set (c1 := before_insert c f info' q) in *. change (fset_hrq _ _) with c1.
  change (HEntry a f stamp hid) with e.
  pose proof (before_insert_ok _ _ _ _ f info' q K Hq) as K1. fold c1 in K1.
  pose proof (fb_config _ _ _ _ K) as (Hbns & _ & Hgs & _).
  assert (Hle : highest_rate_qid c1 <= q).
  { unfold c1, before_insert. simpl. destruct (Z.ltb_spec q (highest_rate_qid c)); lia. }
  destruct (fb_insert_ok c1 cs pend free q stamp e q' K1 He Hq Hs ltac:(unfold stamp; lia) (fun _ => Hle) Hf Hq' HD HR)
    as (c' & ret & -> & P). cbn [mbind option_bind]. destruct P as (Efl & Een & _ & _ & _ & P).
  destruct (settled_same c1 q stamp) as (_ & _ & _ & Efl1 & Est1 & Etot1).
  pose proof (filed_wider _ _ _ _ Hf ltac:(lia)) as Hw.
  assert (Hpost : stamp <= D /\ last_stamp info' + packet_time info' (total_len pkt) <= stamp /\ q <= q').
  { split; [|split; [unfold stamp|]; lia]. pose proof (slot_end_bounds (q' + min_gran_scale c) t' ltac:(lia)) as Hb.
    fold D in Hb. unfold t' in Hb. lia. }
  assert (Hinfo1 : fflow_info c1 !! Z.to_nat f = Some info').
  { apply list_lookup_insert_eq. by eapply lookup_lt_Some. }
  destruct free as [|n].
  - destruct P as (-> & Et & cs' & K'). eexists _, true. split; [reflexivity|]. split; [|exact Hpost].
    exists cs', pend, O. split; [exact K'|]. split; [done|]. split; [done|]. split; [done|]. split; [etransitivity; [exact Et|exact Etot1]|by rewrite Efl, Efl1].
  - destruct P as (-> & Et & cs' & K' & Hok). eexists _, false. split; [reflexivity|]. split; [|exact Hpost].
    eexists _, _, n. split; [apply fb_num; [exact K'|apply wrap_range; lia]|].
    split; [done|]. split; [done|]. split; [etransitivity; [exact Et|by rewrite Etot1]|]. split.
    + simpl. apply list_lookup_insert_eq. rewrite Efl, Efl1. by eapply lookup_lt_Some.
    + unfold flow_bytes. rewrite option_guard_True by done. cbn [mbind option_bind]. simpl.
      apply list_lookup_insert_eq. destruct (Hok e ltac:(by rewrite Est1)) as (_ & Hk & _). unfold flow_known in Hk. simpl in Hk. lia.
Qed.

End enqueue_props.

(** ** Sixty-four queues of four slots of 1 ns over a real pool *)

Definition demo_pool : option (blocks (node HBEntry) * MemoryPool) :=
  new_pool (Node (HEntry 1%positive 0 0 0) None) 5 10%positive [11; 12]%positive ∅.

Definition demo_bundler (m : blocks (node HBEntry)) (p : MemoryPool) :
    FlowBundler (shared HBEntry ledger) ListBucket :=
  FB 2 4 0 3 12000000000 30 (fun _ => new_bucket 3000) 0 (fun _ => 0) 0 0 63 32 0
    [Flow 0 8000; Flow 0 8000] (Shared m p demo_ledger) 0.

(** Packets inserted one by one, then one dequeue at [now]: the send times of
    the packets taken and the count of the batch. *)
Fixpoint insert_all (c : FlowBundler (shared HBEntry ledger) ListBucket) (l : list (Z * Z)) :
    option (FlowBundler (shared HBEntry ledger) ListBucket) :=
  match l with
  | [] => Some c
  | (q, t) :: l => '(c, _) ← Insert c q t (HEntry 1%positive 0 t 0); insert_all c l
  end.

Definition sent_by (l : list (Z * Z)) (now junk : Z) : option (list Z * Z) :=
  '(m, p) ← demo_pool;
  c ← insert_all (demo_bundler m p) l;
  '(_, out, cnt) ← Dequeue now junk c;
  Some (map send_ts out, cnt).

Definition inserted (l : list (Z * Z)) : bool :=
  match ('(m, p) ← demo_pool; insert_all (demo_bundler m p) l) with Some _ => true | None => false end.

(** Three behaviours of the code that its comments do not mention.  A packet
    due beyond the horizon may share the bucket of the present slot, one round of
    its queue early, and is then sent right away; one due beyond the horizon by
    less than a slot makes the code count the leading zeros of 0, which is not
    defined; and when nothing is due the batch is given an arbitrary count. *)
Theorem bundler_corners :
  sent_by [(0, 2); (0, 9)] 2 0 = Some ([9; 2], 2) /\
  inserted [(1, 4); (1, 10)] = true /\ inserted [(1, 4); (1, 11)] = false /\
  sent_by [(0, 5)] 3 77 = Some ([], 77).
Proof. repeat split; vm_compute; reflexivity. Qed.

Lemma demo_bundler_ok : exists m p,
  demo_pool = Some (m, p) /\
  bundler_ok (L := HBListBucket_laws) (demo_bundler m p) (fun _ => []) (fun _ => []) 2.
Proof.
  destruct (new_pool_ok (Node (HEntry 1%positive 0 0 0) None) 5 10%positive [11; 12]%positive ∅)
    as (m & p & E & R & Eu & Hp).
  - apply (bool_decide_unpack _). reflexivity.
  - simpl. lia.
  - exists m, p. split; [done|]. split; simpl; try done.
    + apply (family_new hb_on_enqueue hb_on_dequeue ledger_ok hb_ok hb_enqueue_ok hb_dequeue_ok
        m p [11; 12]%positive 3000 demo_ledger); try done.
      * apply (pool_nodup _ _ _ R).
      * apply demo_ledger_ok.
    + split; [done|]. intros q Hq. by rewrite Z.bits_0.
Qed.

Lemma bundler_init_witness : exists (m : blocks (node HBEntry)) p c,
  init_bundler 2 0 32 0 (new_bucket 3000) (Shared m p demo_ledger) = Some c /\
  exists q, FindQueueIndex c 20000000 = Some q /\ 0 <= q < 34.
Proof.
  destruct demo_bundler_ok as (m & p & _ & K).
  destruct (bundler_init (L := HBListBucket_laws) 2 0 32 0 (new_bucket 3000) (Shared m p demo_ledger) 2)
    as (c & E & _ & Hq).
  - lia.
  - lia.
  - lia.
  - reflexivity.
  - apply (fb_family _ _ _ _ K).
  - exists m, p, c. split; [exact E|]. destruct (Hq 20000000 ltac:(lia)) as (q & Eq & Hr & _).
    exists q. split; [exact Eq|exact Hr].
Defined.

Lemma bundler_location_witness : exists m p,
  FindRealLocation (demo_bundler m p) 0 9 = Some (Loc 0 1) /\
  FindRealLocation (demo_bundler m p) 1 9 = Some (Loc 1 1).
Proof.
  destruct demo_bundler_ok as (m & p & _ & K). exists m, p. pose proof (fb_config _ _ _ _ K) as Hc. split.
  - exact (proj1 (bundler_location (demo_bundler m p) 0 9 1 Hc ltac:(simpl; lia) ltac:(simpl; lia)
      ltac:(lia) ltac:(vm_compute; reflexivity))).
  - exact (proj1 (bundler_location (demo_bundler m p) 1 9 1 Hc ltac:(simpl; lia) ltac:(simpl; lia)
      ltac:(lia) ltac:(vm_compute; reflexivity))).
Defined.

Lemma demo_hb_ok m p t : hb_ok (acct (fst_ (demo_bundler m p))) (HEntry 1%positive 0 t 0).
Proof. split; [by eexists|]. unfold flow_known. simpl. lia. Qed.

Lemma bundler_insert_witness : exists m p c' ret,
  Insert (demo_bundler m p) 1 9 (HEntry 1%positive 0 9 0) = Some (c', ret) /\ ret = 0.
Proof.
  destruct demo_bundler_ok as (m & p & _ & K). exists m, p.
  destruct (bundler_insert _ _ _ _ 1 9 (HEntry 1%positive 0 9 0) 1 K) as (c' & ret & E & _ & _ & _ & _ & _ & Hr & _).
  - apply demo_hb_ok.
  - lia.
  - simpl. lia.
  - lia.
  - simpl. done.
  - reflexivity.
  - simpl. lia.
  - vm_compute. reflexivity.
  - split; apply Z.leb_le; vm_compute; reflexivity.
  - exists c', ret. split; [exact E|exact Hr].
Defined.

Lemma bundler_near_witness : exists m p, in_round (settled (demo_bundler m p) 1 9) 10.
Proof.
  destruct demo_bundler_ok as (m & p & _ & K). exists m, p.
  refine (proj2 (bundler_near _ _ _ _ 1 9 K _ _ _ _)).
  - lia.
  - simpl. lia.
  - lia.
  - apply Z.leb_le. vm_compute. reflexivity.
Defined.

(** One packet due at 10, taken at 10. *)
Lemma bundler_dequeue_witness : exists m p c cs pend c' out cnt,
  Insert (demo_bundler m p) 1 9 (HEntry 1%positive 0 9 0) = Some (c, 0) /\
  Dequeue 10 0 c = Some (c', out, cnt) /\ dequeue_post 10 0 c cs pend 1 c' out cnt.
Proof.
  destruct demo_bundler_ok as (m & p & _ & K). exists m, p.
  destruct (fb_insert_ok _ _ _ _ 1 9 (HEntry 1%positive 0 9 0) 1 K)
    as (c & ret & E & _ & _ & Eb & Eh & Eq & -> & En & cs & K' & _).
  - apply demo_hb_ok.
  - lia.
  - simpl. lia.
  - lia.
  - done.
  - reflexivity.
  - simpl. lia.
  - vm_compute. reflexivity.
  - split; apply Z.leb_le; vm_compute; reflexivity.
  - exists c, cs. eexists. destruct (bundler_dequeue 10 0 _ _ _ _ K') as (c' & out & cnt & E' & Hp).
    + lia.
    + rewrite Eb. simpl. lia.
    + left. rewrite Eh, Eq. apply Z.leb_le. vm_compute. reflexivity.
    + exists c', out, cnt. split; [exact E|]. split; [exact E'|].
      exact Hp.
Defined.

Lemma bundler_enqueue_witness : exists m p c' d,
  bundler_enqueue_one demo_packets (demo_bundler m p) 1%positive 5000 = Some (c', d).
Proof.
  destruct demo_bundler_ok as (m & p & _ & K). exists m, p.
  destruct (bundler_enqueue demo_packets _ _ _ _ 1%positive (Pkt 1500 0 9) (Flow 0 8000) 5000
    20000000 (map_slot (aggregation_rates demo_ledger) 9) 9 0 9 K) as (c' & d & E & _).
  - split; [by eexists|]. split; [unfold flow_known; simpl; lia|]. vm_compute. by split.
  - reflexivity.
  - simpl. lia.
  - reflexivity.
  - simpl. lia.
  - simpl. lia.
  - lia.
  - reflexivity.
  - vm_compute. reflexivity.
  - vm_compute. reflexivity.
  - lia.
  - simpl. lia.
  - vm_compute. reflexivity.
  - simpl. lia.
  - vm_compute. reflexivity.
  - split; apply Z.leb_le; vm_compute; reflexivity.
  - exists c', d. exact E.
Defined.
