(* ===== verification/Tasks.v ===== *)
(** * The modules as BESS runs them: [Init], [AddFlow] and [RunTask]

    [modules/carousel.cc], [modules/eiffel.cc] and [modules/flowbundler.cc] have
    the same [Init], up to the structure they build, and the same [RunTask], up
    to what is counted after sending, so both are written once over the module's
    operations.  What the rest of BESS answers is an argument: whether a task can
    be registered, which ports exist, what [AcquireQueues] returns, the packets
    the pool allocates and how many of a batch the port sends. *)

From S2P Require Import Prelude Ring Pool Buckets Ledger Shapers BitMaps Carousel Eiffel Bundler.

(** ** [Init] *)

Inductive CommandResponse := CommandSuccess | CommandFailure (code : Z).

Definition ENOMEM : Z := 12.
Definition ENODEV : Z := 19.
Definition EINVAL : Z := 22.

Record InitEnv := Env {
  tid_valid : bool;       (* RegisterTask gives a task id *)
  port_length : Z;        (* length of the argument [port] *)
  port_exists : bool;     (* it names a port *)
  acquire_ret : Z         (* AcquireQueues *)
}.

(** The end of [Init], from [init queue_out]. *)
Definition init_port (env : InitEnv) : CommandResponse :=
  if port_length env =? 0 then CommandFailure EINVAL
  else if negb (port_exists env) then CommandFailure ENODEV
  else if acquire_ret env <? 0 then CommandFailure (- acquire_ret env)
  else CommandSuccess.

(** The addresses and the contents that allocation gives the blocks of the pool. *)
Record Room (E : Type) := Mem { fresh : node E; uuid_of : Z; head_addr : addr; block_addrs : list addr; heap0 : blocks (node E) }.
Arguments Mem {E}.
Arguments fresh {E}.
Arguments uuid_of {E}.
Arguments head_addr {E}.
Arguments block_addrs {E}.
Arguments heap0 {E}.

Section init.
Context {E C : Type}.

(** [build b0 st] makes the queues, of buckets that start as [b0]; without a
    state nothing that matters later has been built. *)
Definition init_module (env : InitEnv) (room : Room E) (max_pkts_kbytes generate_burst : Z) (l : ledger)
    (build : ListBucket -> shared E ledger -> option C) : option (CommandResponse * option C) :=
  if negb (tid_valid env) then Some (CommandFailure ENOMEM, None)
  else
    '(m, p) ← new_pool (fresh room) (uuid_of room) (head_addr room) (block_addrs room) (heap0 room);
    if generate_burst >? kMaxBurst then Some (CommandFailure EINVAL, None)
    else
      c ← build (new_bucket (u32 (max_pkts_kbytes * 1000))) (Shared m p l);
      Some (init_port env, Some c).

End init.

Definition Carousel_Init (env : InitEnv) (room : Room PacketEntry) (granularity nslots kbytes burst now : Z) (l : ledger) :
    option (CommandResponse * option (Carousel (shared PacketEntry ledger) ListBucket)) :=
  init_module env room kbytes burst l (init_wheel granularity nslots now).

Definition Eiffel_Init (env : InitEnv) (room : Room PacketEntry) (granularity nslots kbytes burst now : Z) (l : ledger) :
    option (CommandResponse * option (Eiffel (shared PacketEntry ledger) ListBucket)) :=
  init_module env room kbytes burst l (init_eiffel granularity nslots now).

Definition FlowBundler_Init (env : InitEnv) (room : Room HBEntry) (bns mgs kbytes burst dequeue_burst now : Z) (l : ledger) :
    option (CommandResponse * option (FlowBundler (shared HBEntry ledger) ListBucket)) :=
  init_module env room kbytes burst l (init_bundler bns mgs dequeue_burst now).

(** ** The accounting inside a module *)

Definition with_acct {E} (l : ledger) (st : shared E ledger) : shared E ledger := Shared (blk st) (pool st) l.

Definition carousel_led (c : Carousel (shared PacketEntry ledger) ListBucket) : ledger := acct (buckets_st c).
Definition carousel_put (l : ledger) (c : Carousel (shared PacketEntry ledger) ListBucket) :=
  Wheel (queue_ c) (flow_info c) (max_dequeue_burst_ c) (dequeue_burst c) (header_ts c) (granularity_ c)
    (horizon_ c) (slots c) (with_acct l (buckets_st c)) (packets_num c) (enqueue_pkts_num c).

Definition eiffel_led (e : Eiffel (shared PacketEntry ledger) ListBucket) : ledger := acct (est e).
Definition eiffel_put (l : ledger) (e : Eiffel (shared PacketEntry ledger) ListBucket) :=
  Eif (queues e) (maps e) (main_queue e) (buffer_queue e) (main_map e) (buffer_map e) (eflow_info e)
    (emax_burst e) (eburst e) (main_ts e) (buffer_ts e) (egran e) (ehorizon e) (eslots e)
    (with_acct l (est e)) (epackets_num e) (eenq_num e).

Definition bundler_led (c : FlowBundler (shared HBEntry ledger) ListBucket) : ledger := acct (fst_ c).
Definition bundler_put (l : ledger) (c : FlowBundler (shared HBEntry ledger) ListBucket) :=
  fset_flows (fflow_info c) (with_acct l (fst_ c)) (total_enqueue_pkts_num c) c.

(** ** [AddFlow]: the flows, the accounting and a new packet generator *)

Section add.
Context {C : Type} (led : C -> ledger) (put : list FlowInfo -> ledger -> C -> C).

Definition AddFlow (reset_rates : bool) (max_bytes burst flows_per_dst : Z) (rand : Z -> Z) (arg : AddArg)
    (now : Z) (tick : nat -> Z) (c : C) : option (C * PacketGenerator) :=
  '(infos, l) ← add_flow reset_rates max_bytes arg now tick (led c);
  g ← new_generator burst (add_flow_num arg) flows_per_dst rand;
  Some (put infos l c, g).

End add.

Definition Carousel_AddFlow := AddFlow carousel_led (fun fi l c => set_flows fi (carousel_put l c)) false.
Definition Eiffel_AddFlow := AddFlow eiffel_led (fun fi l e => put_flows fi (eiffel_put l e)) false.
Definition FlowBundler_AddFlow :=
  AddFlow bundler_led (fun fi l c => fset_flows fi (with_acct l (fst_ c)) (total_enqueue_pkts_num c) c) true.

(** ** [RunTask] *)

(** What the port does: whether it is up, whether its driver counts for itself
    ([DRIVER_FLAG_SELF_OUT_STATS]) and how many of a batch it sends. *)
Record PortEnv := PEnv { admin_up : bool; self_stats : bool; send_packets : list addr -> nat }.

(** The end of a run: the module, the counters of the port, the result, the
    packets sent and those given back to the pool. *)
Record outcome (C : Type) := Out {
  o_state : C; o_stats : port_stats; o_result : task_result; o_sent : list addr; o_freed : list addr
}.
Arguments Out {C}.
Arguments o_state {C}.
Arguments o_stats {C}.
Arguments o_result {C}.
Arguments o_sent {C}.
Arguments o_freed {C}.

Section run_task.
Context {C : Type} (led : C -> ledger) (put_led : ledger -> C -> C).
Context (enqueue : gmap addr Packet -> C -> list (addr * Z) -> option (C * list addr)).
Context (dequeue : C -> option (C * list addr)).
(** What is counted in the module once [sent] of [cnt] packets have left, and
    how many packets the result reports the bits of. *)
Context (after : bool -> Z -> Z -> C -> C) (reported : nat -> nat -> nat).

(** From [Dequeue(batch)] to the end; [drops] are the packets that [Enqueue]
    gave back. *)
Definition send_batch (p : PortEnv) (ps : port_stats) (drops : list addr) (c : C) : option (outcome C) :=
  '(c, batch) ← dequeue c;
  let cnt := length batch in
  match batch with
  | [] => Some (Out c ps (Task true 0 0) [] drops)
  | _ =>
      let sent := if admin_up p then send_packets p batch else O in
      let pk := packets (led c) in
      Some (Out (after (admin_up p) (Z.of_nat sent) (Z.of_nat cnt) c)
              (if self_stats p then ps else count_sent pk batch sent ps)
              (Task false (u32 (Z.of_nat cnt)) (u64 (total_bytes pk (take (reported sent cnt) batch) * 8)))
              (take sent batch) (drops ++ drop sent batch))
  end.

Definition run_task (overload : bool) (alloc : Z -> option (list addr)) (tick : nat -> Z) (p : PortEnv)
    (g : PacketGenerator) (ps : port_stats) (c : C) : option (outcome C) :=
  if overload then Some (Out c ps (Task true 0 0) [] [])
  else if IsEmpty (flow_to_gen (led c)) then send_batch p ps [] c
  else
    match AllocPackets alloc g (led c) with
    | None => Some (Out c ps (Task true 0 0) [] [])
    | Some pkts =>
        l ← RewriteUsingSingleTemplate g pkts (led c);
        '(c, drops) ← enqueue (packets l) (put_led l c) (imap (fun i a => (a, tick i)) pkts);
        send_batch p ps drops c
    end.

End run_task.

Definition Carousel_RunTask (overload : bool) alloc tick (clock : Z) :=
  run_task carousel_led carousel_put Carousel.Enqueue
    (fun c => '(c, out) ← Carousel.Dequeue clock c; Some (c, map packet out))
    (fun up sent cnt c => if up then after_send sent c else c) (fun sent cnt => cnt) overload alloc tick.

Definition Eiffel_RunTask (overload : bool) alloc tick (clock : Z) :=
  run_task eiffel_led eiffel_put eiffel_Enqueue
    (fun e => '(e, out) ← eiffel_Dequeue clock e; Some (e, map packet out))
    (fun up sent cnt e => eiffel_after_send up cnt e) (fun sent cnt => sent) overload alloc tick.

(** A batch with a count that is not its length is read beyond its end. *)
Definition FlowBundler_RunTask (overload : bool) alloc tick (clock junk : Z) :=
  run_task bundler_led bundler_put bundler_Enqueue
    (fun c => '(c, out, cnt) ← Bundler.Dequeue clock junk c; guard (cnt = Z.of_nat (length out));; Some (c, map hpacket out))
    (fun up sent cnt c => c) (fun sent cnt => cnt) overload alloc tick.

(** * Lemmas *)

Lemma init_port_ok env :
  (init_port env = CommandSuccess <-> port_length env <> 0 /\ port_exists env = true /\ 0 <= acquire_ret env) /\
  (forall n, init_port env = CommandFailure n -> 0 < n).
Proof.
  unfold init_port. destruct (Z.eqb_spec (port_length env) 0), (port_exists env), (Z.ltb_spec (acquire_ret env) 0);
    simpl; split; try (by intros n' [= <-]); try (intros n' [= <-]; unfold EINVAL, ENODEV; lia);
    split; try done; intros (? & ? & ?); done || lia.
Qed.

(** * Properties *)

(** [Init] succeeds exactly when a task could be registered, the burst is no
    larger than a batch, and the port is named, exists and gives its queues; every
    failure has a positive code; and in all but the first two the queues have been
    built over a pool of all the blocks. *)
Theorem init_outcome {E C : Type} env (room : Room E) kbytes burst l (build : ListBucket -> shared E ledger -> option C) :
  NoDup (head_addr room :: block_addrs room) -> Z.of_nat (length (block_addrs room)) < 2 ^ 32 ->
  (forall b st, is_Some (build b st)) ->
  exists code st, init_module env room kbytes burst l build = Some (code, st) /\
    (code = CommandSuccess <->
       tid_valid env = true /\ burst <= kMaxBurst /\ port_length env <> 0 /\ port_exists env = true /\
       0 <= acquire_ret env) /\
    (forall n, code = CommandFailure n -> 0 < n) /\
    (tid_valid env = true /\ burst <= kMaxBurst ->
       exists c m p, st = Some c /\ pool_rep m p (block_addrs room) /\
         build (new_bucket (u32 (kbytes * 1000))) (Shared m p l) = Some c).
Proof.
  intros Hnd Hlen Hbuild. unfold init_module. destruct (tid_valid env) eqn:Et; simpl.
  2: { eexists _, _. split; [reflexivity|]. split; [by split; [|intros [? _]]|].
       split; [by intros n [= <-]|by intros [? _]]. }
  destruct (new_pool_ok (fresh room) (uuid_of room) (head_addr room) (block_addrs room) (heap0 room) Hnd Hlen)
    as (m & p & -> & R & _). cbn [mbind option_bind].
  destruct (Z.gtb_spec burst kMaxBurst) as [Hb|Hb].
  { eexists _, _. split; [reflexivity|]. split; [split; [done|lia]|]. split; [by intros n [= <-]|lia]. }
  destruct (Hbuild (new_bucket (u32 (kbytes * 1000))) (Shared m p l)) as [c Ec]. rewrite Ec. cbn [mbind option_bind].
  eexists _, _. split; [reflexivity|]. destruct (init_port_ok env) as [Hs Hn].
  split; [rewrite Hs; naive_solver|]. split; [exact Hn|]. intros _. by exists c, m, p.
Qed.

(** A run of the task: it blocks and touches nothing when the children are
    overloaded or no packets can be allocated; otherwise the batch dequeued is
    split into the packets sent, the first ones, and those freed, the port counts
    exactly these, and the result reports the size of the batch and never more
    than its bits.  It blocks exactly when nothing was dequeued. *)
Theorem run_task_accounts {C : Type} (led : C -> ledger) put enq deq after reported overload alloc tick p g ps c o :
  (forall b, (send_packets p b <= length b)%nat) ->
  run_task led put enq deq after reported overload alloc tick p g ps c = Some o ->
  (o = Out c ps (Task true 0 0) [] [] /\
     (overload = true \/ (IsEmpty (flow_to_gen (led c)) = false /\ AllocPackets alloc g (led c) = None))) \/
  exists c1 drops c2 batch, overload = false /\ deq c1 = Some (c2, batch) /\
    (IsEmpty (flow_to_gen (led c)) = true -> c1 = c /\ drops = []) /\
    block (o_result o) = bool_decide (batch = []) /\
    o_sent o ++ drop (length (o_sent o)) batch = batch /\
    o_freed o = drops ++ drop (length (o_sent o)) batch /\
    tpackets (o_result o) = u32 (Z.of_nat (length batch)) /\
    (admin_up p = false -> o_sent o = []) /\
    (batch <> [] -> o_stats o = if self_stats p then ps else
       Stats (st_packets ps + Z.of_nat (length (o_sent o)))
         (st_dropped ps + Z.of_nat (length (drop (length (o_sent o)) batch)))
         (st_bytes ps + total_bytes (packets (led c2)) (o_sent o))).
Proof.
  intros Hsend. unfold run_task. destruct overload; [intros [= <-]; left; split; [done|by left]|].
  assert (Hbatch : forall c1 drops, send_batch led deq after reported p ps drops c1 = Some o ->
    (IsEmpty (flow_to_gen (led c)) = true -> c1 = c /\ drops = []) ->
    exists c1 drops c2 batch, false = false /\ deq c1 = Some (c2, batch) /\
      (IsEmpty (flow_to_gen (led c)) = true -> c1 = c /\ drops = []) /\
      block (o_result o) = bool_decide (batch = []) /\
      o_sent o ++ drop (length (o_sent o)) batch = batch /\
      o_freed o = drops ++ drop (length (o_sent o)) batch /\
      tpackets (o_result o) = u32 (Z.of_nat (length batch)) /\
      (admin_up p = false -> o_sent o = []) /\
      (batch <> [] -> o_stats o = if self_stats p then ps else
         Stats (st_packets ps + Z.of_nat (length (o_sent o)))
           (st_dropped ps + Z.of_nat (length (drop (length (o_sent o)) batch)))
           (st_bytes ps + total_bytes (packets (led c2)) (o_sent o)))).
  { intros c1 drops H Hc1. exists c1, drops. unfold send_batch in H.
    destruct (deq c1) as [[c2 batch]|] eqn:Ed; [|done]. cbn [mbind option_bind] in H. exists c2, batch.
    split; [done|]. split; [done|]. split; [done|]. destruct batch as [|a b]; injection H as <-; cbn [o_result o_sent o_freed o_stats].
    { cbn. rewrite app_nil_r. by repeat split. }
    set (batch := a :: b) in *. set (n := if admin_up p then send_packets p batch else O).
    assert (Hn : (n <= length batch)%nat) by (unfold n; specialize (Hsend batch); destruct (admin_up p); lia).
    rewrite length_take_le by done. split; [done|]. split; [apply take_drop|]. split; [done|]. split; [done|].
    split; [unfold n; by intros ->|]. intros _. destruct (self_stats p); [done|]. unfold count_sent. f_equal.
    rewrite length_drop. lia. }
  destruct (IsEmpty (flow_to_gen (led c))) eqn:Ee; [intros H; right; by apply (Hbatch c []) in H|].
  destruct (AllocPackets alloc g (led c)) as [pkts|] eqn:Ea.
  - intros H. right. apply bind_Some in H as (l & _ & H). apply bind_Some in H as ([c1 drops] & _ & H).
    by apply (Hbatch c1 drops) in H.
  - intros [= <-]. left. split; [done|]. by right.
Qed.

(** ** Witnesses *)

Definition demo_room : Room HBEntry := Mem (Node (HEntry 1%positive 0 0 0) None) 5 10%positive [11; 12; 13; 14]%positive ∅.

Lemma init_outcome_witness :
  exists st, init_module (Env true 4 true 0) demo_room 10 32 demo_ledger (fun b _ => Some b) = Some (CommandSuccess, st).
Proof.
  destruct (init_outcome (Env true 4 true 0) demo_room 10 32 demo_ledger (fun b _ => Some b))
    as (code & st & E & Hs & _).
  - apply (bool_decide_unpack _). reflexivity.
  - simpl. lia.
  - intros b st. by eexists.
  - exists st. rewrite E. do 2 f_equal. apply Hs. simpl. unfold kMaxBurst. lia.
Defined.

(** Two packets dequeued, of which the port sends one. *)
Lemma run_task_accounts_witness : exists o,
  run_task (C := unit) (fun _ => demo_ledger) (fun _ c => c) (fun _ c _ => Some (c, []))
    (fun c => Some (c, [1; 2]%positive)) (fun _ _ _ c => c) (fun _ n => n) false (fun _ => None) (fun _ => 0)
    (PEnv true false (fun _ => 1%nat)) (Gen 32 1500 []) (Stats 0 0 0) tt = Some o /\
  o_sent o ++ drop (length (o_sent o)) [1; 2]%positive = [1; 2]%positive.
Proof.
  set (f := fun c : unit => Some (c, [1; 2]%positive)).
  eexists. split; [reflexivity|].
  destruct (run_task_accounts (C := unit) (fun _ => demo_ledger) (fun _ c => c) (fun _ c _ => Some (c, []))
    f (fun _ _ _ c => c) (fun _ n => n) false (fun _ => None) (fun _ => 0)
    (PEnv true false (fun b => Nat.min 1 (length b))) (Gen 32 1500 []) (Stats 0 0 0) tt
    (Out tt (Stats 1 1 1500) (Task false 2 14400) [1%positive] [2%positive])) as [[H _]|H].
  - intros b. apply Nat.le_min_r.
  - reflexivity.
  - done.
  - destruct H as (c1 & drops & c2 & batch & _ & E & _ & _ & Hb & _). injection E as <- <-. exact Hb.
Defined.
