(* ===== verification/PrioQueue.v ===== *)
(** * Priority queues: [extended_priority_queue.h]

    A binary heap in a vector, ordered by [cmp], with the largest element first,
    as [std::priority_queue] keeps it.  [decrease_key_top] and
    [delete_single_element] are the code's own; the standard leaves open how
    [push], [pop] and [make_heap] arrange the vector, and here they sift one
    element up or down. *)

From S2P Require Import Prelude.

(** What a comparison has to be: a strict weak order. *)
Class WeakOrder {A : Type} (cmp : A -> A -> bool) : Prop := {
  cmp_asym : forall x y, cmp x y = true -> cmp y x = false;
  cmp_trans : forall x y z, cmp x y = false -> cmp y z = false -> cmp x z = false
}.

Section prio_queue.
Context {A : Type} (cmp : A -> A -> bool).
Implicit Types (v : list A).

Definition swap v (i j : nat) (x y : A) : list A := <[i := y]> (<[j := x]> v).

(** One round of the loop of [decrease_key_top], at [node]. *)
Definition sift_step (st : list A * nat) : (list A * nat) + list A :=
  let '(v, node) := st in
  let left := (2 * node + 1)%nat in
  let right := (2 * node + 2)%nat in
  match v !! node, v !! left with
  | Some x, Some l =>
      let '(larger_child, y) :=
        match v !! right with
        | Some r => if cmp r l then (left, l) else (right, r)
        | None => (left, l)
        end in
      if cmp x y then inl (swap v node larger_child x y, larger_child) else inr v
  | _, _ => inr v
  end.

Definition decrease_key_top v : option (list A) :=
  match iter_until (Pos.of_succ_nat (length v)) sift_step (v, O) with inr v => Some v | inl _ => None end.

Definition top v : option A := head v.

(** A round of sifting up the element at [node]. *)
Definition rise_step (st : list A * nat) : (list A * nat) + list A :=
  let '(v, node) := st in
  let parent := Nat.div2 (node - 1) in
  match node, v !! parent, v !! node with
  | S _, Some x, Some y => if cmp x y then inl (swap v parent node x y, parent) else inr v
  | _, _, _ => inr v
  end.

Definition push (x : A) v : option (list A) :=
  match iter_until (Pos.of_succ_nat (length v)) rise_step (v ++ [x], length v) with inr v => Some v | inl _ => None end.

Definition pop v : option (list A) :=
  match v, last v with
  | _ :: v', Some x => if decide (v' = []) then Some [] else decrease_key_top (<[O := x]> (removelast v))
  | _, _ => None
  end.

Fixpoint make_heap (l v : list A) : option (list A) :=
  match l with
  | [] => Some v
  | x :: l => v ← push x v; make_heap l v
  end.

(** The first element for which [f] holds, and the vector without it. *)
Fixpoint find_erase (f : A -> bool) v : option (A * list A) :=
  match v with
  | [] => None
  | x :: v => if f x then Some (x, v) else '(y, v) ← find_erase f v; Some (y, x :: v)
  end.

(** [delete_single_element]; the element deleted comes with the answer. *)
Definition delete_single_element (f : A -> bool) v : option (option A * list A) :=
  match find_erase f v with
  | Some (x, v) => v ← make_heap v []; Some (Some x, v)
  | None => Some (None, v)
  end.

(** * Heaps *)

Definition child_of (n i : nat) : Prop := i = (2 * n + 1)%nat \/ i = (2 * n + 2)%nat.

(** No element is larger than its parent, the children of [hole] apart. *)
Definition heap_but (hole : nat) v : Prop :=
  forall n i x y, n <> hole -> child_of n i -> v !! n = Some x -> v !! i = Some y -> cmp x y = false.

Definition heap v : Prop :=
  forall n i x y, child_of n i -> v !! n = Some x -> v !! i = Some y -> cmp x y = false.

(** The children of [n] are not larger than its parent. *)
Definition bridged (n : nat) v : Prop :=
  forall g i x y, child_of g n -> child_of n i -> v !! g = Some x -> v !! i = Some y -> cmp x y = false.

(** No element is larger than its parent, [n] apart. *)
Definition heap_above (n : nat) v : Prop :=
  forall g i x y, i <> n -> child_of g i -> v !! g = Some x -> v !! i = Some y -> cmp x y = false.

Lemma child_inj n m i : child_of n i -> child_of m i -> n = m.
Proof. unfold child_of. lia. Qed.

Lemma swap_lookup v i j x y k :
  i <> j -> v !! i = Some x -> v !! j = Some y ->
  swap v i j x y !! k = if decide (k = i) then Some y else if decide (k = j) then Some x else v !! k.
Proof.
  intros Hne Hi Hj. unfold swap. pose proof (lookup_lt_Some _ _ _ Hi). pose proof (lookup_lt_Some _ _ _ Hj).
  destruct (decide (k = i)) as [->|]; [by rewrite list_lookup_insert_eq by (rewrite length_insert; lia)|].
  rewrite list_lookup_insert_ne by done.
  destruct (decide (k = j)) as [->|]; [by rewrite list_lookup_insert_eq|by rewrite list_lookup_insert_ne].
Qed.

Lemma insert_perm v j (x y : A) : v !! j = Some y -> x :: v ≡ₚ y :: <[j := x]> v.
Proof.
  revert j. induction v as [|z v IH]; intros [|j] Hj; simpl in *; simplify_eq; [apply perm_swap|].
  rewrite perm_swap, (IH j Hj). apply perm_swap.
Qed.

Lemma swap_perm v i j x y :
  i <> j -> v !! i = Some x -> v !! j = Some y -> swap v i j x y ≡ₚ v.
Proof.
  intros Hne Hi Hj. apply (Permutation.Permutation_cons_inv (a := x)). symmetry. unfold swap.
  rewrite (insert_perm v j x y Hj). apply insert_perm. by rewrite list_lookup_insert_ne.
Qed.

Lemma swap_length v i j x y : length (swap v i j x y) = length v.
Proof. unfold swap. by rewrite !length_insert. Qed.

(** Whatever [cmp] is, the operations end and keep the elements. *)

Lemma sift_step_perm v n :
  match sift_step (v, n) with
  | inl (v', n') => v' ≡ₚ v /\ (n < n' < length v)%nat
  | inr v' => v' ≡ₚ v
  end.
Proof.
  unfold sift_step. destruct (v !! n) as [x|] eqn:Ex; [|done].
  destruct (v !! (2 * n + 1)%nat) as [l|] eqn:El; [|done].
  set (p := match v !! _ with Some r => _ | None => _ end).
  assert (Hp : (n < p.1)%nat /\ v !! p.1 = Some p.2).
  { unfold p. destruct (v !! (2 * n + 2)%nat) as [r|] eqn:Er; [destruct (cmp r l)|]; simpl; (split; [lia|done]). }
  destruct p as [m y]. destruct Hp as [Hm Ey]. simpl in Hm, Ey. destruct (cmp x y); [|done].
  split; [by apply swap_perm; [lia|..]|]. by apply lookup_lt_Some in Ey.
Qed.

Lemma rise_step_perm v n :
  (n < length v)%nat ->
  match rise_step (v, n) with
  | inl (v', n') => v' ≡ₚ v /\ (n' < n)%nat
  | inr v' => v' ≡ₚ v
  end.
Proof.
  intros Hn. unfold rise_step. destruct n as [|n]; [done|].
  assert (Hd : (Nat.div2 (S n - 1) < S n)%nat).
  { pose proof (Nat.div2_odd n). replace (S n - 1)%nat with n by lia. destruct (Nat.odd n); unfold Nat.b2n in *; lia. }
  destruct (v !! Nat.div2 (S n - 1)) as [x|] eqn:Ex; [|done].
  destruct (v !! S n) as [y|] eqn:Ey; [|done]. destruct (cmp x y); [|done].
  split; [|done]. apply swap_perm; [lia|done|done].
Qed.

Lemma decrease_key_top_perm v : exists v', decrease_key_top v = Some v' /\ v' ≡ₚ v.
Proof.
  unfold decrease_key_top.
  destruct (iter_until_total (fun st => st.1 ≡ₚ v /\ (st.2 <= length v)%nat) (fun v' => v' ≡ₚ v)
    (fun st => Z.of_nat (length v) - Z.of_nat st.2) (Pos.of_succ_nat (length v)) sift_step (v, O)) as (r & -> & Hr).
  - intros [v1 n] (P & Hn). cbn [fst snd] in *. pose proof (sift_step_perm v1 n) as H1.
    destruct (sift_step (v1, n)) as [[v2 n2]|v2]; cbn [fst snd]; [|by rewrite H1].
    destruct H1 as [P1 H1]. rewrite (Permutation_length P) in H1. split; [|lia]. split; [by rewrite P1|lia].
  - split; [done|simpl; lia].
  - simpl. lia.
  - eauto.
Qed.

Lemma push_perm x v : exists v', push x v = Some v' /\ v' ≡ₚ x :: v.
Proof.
  unfold push.
  destruct (iter_until_total (fun st => st.1 ≡ₚ x :: v /\ (st.2 <= length v)%nat) (fun v' => v' ≡ₚ x :: v)
    (fun st => Z.of_nat st.2) (Pos.of_succ_nat (length v)) rise_step (v ++ [x], length v)) as (r & -> & Hr).
  - intros [v1 n] (P & Hn). cbn [fst snd] in *. pose proof (Permutation_length P) as Hl. simpl in Hl.
    pose proof (rise_step_perm v1 n ltac:(lia)) as H1.
    destruct (rise_step (v1, n)) as [[v2 n2]|v2]; cbn [fst snd]; [|by rewrite H1].
    destruct H1 as [P1 H1]. split; [split; [by rewrite P1|lia]|lia].
  - split; [by rewrite Permutation_app_comm|done].
  - simpl. lia.
  - eauto.
Qed.

Lemma make_heap_perm l v : exists v', make_heap l v = Some v' /\ v' ≡ₚ l ++ v.
Proof.
  revert v. induction l as [|x l IH]; intros v; simpl; [eauto|].
  destruct (push_perm x v) as (v1 & -> & P1). cbn [mbind option_bind].
  destruct (IH v1) as (v2 & -> & P2). exists v2. split; [done|]. rewrite P2, P1. symmetry. apply Permutation_middle.
Qed.

Lemma pop_perm x v : exists v', pop (x :: v) = Some v' /\ v' ≡ₚ v.
Proof.
  unfold pop. destruct (exists_last (l := x :: v) ltac:(done)) as (l & z & E).
  assert (El : last (x :: v) = Some z) by (rewrite E; apply last_snoc).
  assert (Er : removelast (x :: v) = l) by (rewrite E; apply removelast_last).
  rewrite El, Er. case_decide as Ev; [subst; eauto|].
  assert (Hl : exists l', l = x :: l' /\ v = l' ++ [z]).
  { destruct l as [|w l']; simplify_eq/=; eauto. }
  destruct Hl as (l' & -> & ->). destruct (decrease_key_top_perm (<[O := z]> (x :: l'))) as (v' & E' & P').
  exists v'. split; [exact E'|]. rewrite P'. simpl. by rewrite Permutation_app_comm.
Qed.

Lemma find_erase_ok f v :
  match find_erase f v with
  | Some (x, v') => f x = true /\ v ≡ₚ x :: v'
  | None => Forall (fun x => f x = false) v
  end.
Proof.
  induction v as [|x v IH]; simpl; [constructor|]. destruct (f x) eqn:Ef; [done|].
  destruct (find_erase f v) as [[y v']|]; cbn [mbind option_bind]; [|by constructor].
  destruct IH as [? ->]. split; [done|]. apply perm_swap.
Qed.

Lemma delete_single_perm f v :
  exists r v', delete_single_element f v = Some (r, v') /\
    match r with
    | Some x => f x = true /\ v ≡ₚ x :: v'
    | None => v' = v /\ Forall (fun x => f x = false) v
    end.
Proof.
  unfold delete_single_element. pose proof (find_erase_ok f v) as Hf.
  destruct (find_erase f v) as [[x v1]|]; [|by exists None, v].
  destruct (make_heap_perm v1 []) as (v2 & -> & P2). cbn [mbind option_bind].
  exists (Some x), v2. split; [done|]. destruct Hf as [? ->]. split; [done|]. by rewrite P2, app_nil_r.
Qed.

(** With a strict weak order they keep the heap too. *)

Context `{!WeakOrder cmp}.

Lemma sift_step_ok v0 v n :
  heap_but n v -> bridged n v -> v ≡ₚ v0 ->
  match sift_step (v, n) with
  | inl (v', n') => heap_but n' v' /\ bridged n' v' /\ v' ≡ₚ v0 /\ length v' = length v /\ (n < n' < length v)%nat
  | inr v' => heap v' /\ v' ≡ₚ v0
  end.
Proof.
  intros H B P. unfold sift_step. destruct (v !! n) as [x|] eqn:Ex.
  2: { split; [|done]. intros m i a b Hc Ha Hb. destruct (decide (m = n)) as [->|]; [congruence|by eapply H]. }
  destruct (v !! (2 * n + 1)%nat) as [l|] eqn:El.
  2: { split; [|done]. intros m i a b Hc Ha Hb. destruct (decide (m = n)) as [->|]; [|by eapply H].
       apply lookup_ge_None in El. pose proof (lookup_lt_Some _ _ _ Hb). unfold child_of in Hc. lia. }
  set (p := match v !! _ with Some r => _ | None => _ end).
  assert (Hp : child_of n p.1 /\ v !! p.1 = Some p.2 /\
    forall i z, child_of n i -> v !! i = Some z -> i = p.1 \/ cmp p.2 z = false).
  { unfold p. destruct (v !! (2 * n + 2)%nat) as [r|] eqn:Er; [destruct (cmp r l) eqn:Ec|]; simpl;
      (split; [unfold child_of; lia|split; [done|]]); intros i z [-> | ->] Hz; simplify_eq; auto using cmp_asym. }
  destruct p as [m y]. simpl in Hp. destruct Hp as (Hc & Hm & Hmax).
  assert (Hne : n <> m) by (unfold child_of in Hc; lia).
  destruct (cmp x y) eqn:Exy.
  - pose proof (swap_lookup v n m x y) as Hs.
    split; [|split; [|split; [by rewrite swap_perm|split; [apply swap_length|]]]].
    + intros g i a b Hg Hgi Ha Hb. rewrite Hs in Ha, Hb by done. destruct (decide (g = n)) as [->|Hgn].
      * simplify_eq. destruct (decide (i = n)) as [->|]; [unfold child_of in Hgi; lia|].
        destruct (decide (i = m)) as [->|]; [simplify_eq; by apply cmp_asym|].
        destruct (Hmax i b Hgi Hb); [done|done].
      * rewrite decide_False in Ha by done. destruct (decide (i = n)) as [->|].
        -- simplify_eq. by apply (B g m a b).
        -- destruct (decide (i = m)) as [->|]; [by destruct Hgn; eapply child_inj|].
           by apply (H g i a b).
    + intros g i a b Hg Hi Ha Hb. rewrite Hs in Ha, Hb by done.
      assert (g = n) as -> by (eapply child_inj; eauto). rewrite decide_True in Ha by done. simplify_eq.
      rewrite !decide_False in Hb by (unfold child_of in *; lia). by apply (H m i a b).
    + pose proof (lookup_lt_Some _ _ _ Hm). unfold child_of in Hc. lia.
  - split; [|done]. intros g i a b Hgi Ha Hb. destruct (decide (g = n)) as [->|]; [|by apply (H g i a b)].
    simplify_eq. destruct (Hmax i b Hgi Hb) as [-> | Hyz]; [by simplify_eq|]. by apply (cmp_trans _ y).
Qed.

Lemma rise_step_ok v0 v n :
  heap_above n v -> bridged n v -> v ≡ₚ v0 -> (n < length v)%nat ->
  match rise_step (v, n) with
  | inl (v', n') => heap_above n' v' /\ bridged n' v' /\ v' ≡ₚ v0 /\ (n' < length v')%nat /\ (n' < n)%nat
  | inr v' => heap v' /\ v' ≡ₚ v0
  end.
Proof.
  intros H B P Hlt. unfold rise_step. destruct n as [|n'].
  { split; [|done]. intros g i a b Hgi Ha Hb. apply (H g i a b); [|done..]. unfold child_of in Hgi. lia. }
  set (n := S n') in *. set (p := Nat.div2 (n - 1)).
  assert (Hp : child_of p n).
  { unfold p, child_of. replace (n - 1)%nat with n' by lia. pose proof (Nat.div2_odd n').
    unfold n. destruct (Nat.odd n'); unfold Nat.b2n in *; lia. }
  assert (Hpn : (p < n)%nat) by (unfold child_of in Hp; lia).
  destruct (lookup_lt_is_Some_2 v p ltac:(lia)) as [x Ex]. destruct (lookup_lt_is_Some_2 v n Hlt) as [y Ey].
  rewrite Ex, Ey. destruct (cmp x y) eqn:Exy.
  - assert (Hpne : p <> n) by lia. pose proof (fun k => swap_lookup v p n x y k Hpne Ex Ey) as Hs.
    split; [|split; [|split; [by rewrite (swap_perm v p n x y) by (done || lia)|split; [rewrite swap_length; lia|done]]]].
    + intros g i a b Hi Hgi Ha Hb. rewrite Hs in Ha, Hb. rewrite (decide_False (P := i = p)) in Hb by done.
      destruct (decide (i = n)) as [->|Hin].
      * assert (g = p) as -> by (eapply child_inj; eauto). rewrite decide_True in Ha by done. simplify_eq.
        by apply cmp_asym.
      * destruct (decide (g = p)) as [->|]; [|destruct (decide (g = n)) as [->|]].
        -- simplify_eq. apply (cmp_trans _ x); [by apply cmp_asym|]. by apply (H p i).
        -- simplify_eq. by apply (B p i).
        -- by apply (H g i).
    + intros g i a b Hgp Hpi Ha Hb. rewrite Hs in Ha, Hb.
      rewrite !decide_False in Ha by (unfold child_of in *; lia).
      rewrite (decide_False (P := i = p)) in Hb by (unfold child_of in *; lia).
      assert (Hax : cmp a x = false) by (apply (H g p); [lia|done..]).
      destruct (decide (i = n)) as [->|]; simplify_eq; [done|].
      apply (cmp_trans _ x); [done|]. by apply (H p i).
  - split; [|done]. intros g i a b Hgi Ha Hb. destruct (decide (i = n)) as [->|]; [|by apply (H g i)].
    assert (g = p) as -> by (eapply child_inj; eauto). by simplify_eq.
Qed.

(** Both loops end within as many rounds as the vector is long. *)
Lemma decrease_key_top_ok v :
  heap_but O v -> exists v', decrease_key_top v = Some v' /\ heap v' /\ v' ≡ₚ v.
Proof.
  intros H. unfold decrease_key_top.
  destruct (iter_until_total (fun st => heap_but st.2 st.1 /\ bridged st.2 st.1 /\ st.1 ≡ₚ v /\
      length st.1 = length v /\ (st.2 <= length v)%nat) (fun v' => heap v' /\ v' ≡ₚ v)
    (fun st => Z.of_nat (length v) - Z.of_nat st.2) (Pos.of_succ_nat (length v)) sift_step (v, O)) as (r & -> & Hr).
  - intros [v1 n] (H1 & B1 & P1 & L1 & Hn). cbn [fst snd] in *. pose proof (sift_step_ok v v1 n H1 B1 P1) as S1.
    destruct (sift_step (v1, n)) as [[v2 n2]|v2]; [|exact S1]. cbn [fst snd] in *.
    destruct S1 as (? & ? & ? & ? & ?). split; [|lia]. do 3 (split; [done|]). lia.
  - simpl. split; [done|]. split; [|split; [done|split; [done|lia]]].
    intros g i x y Hg. unfold child_of in Hg. lia.
  - simpl. lia.
  - eauto.
Qed.

Lemma push_ok x v : heap v -> exists v', push x v = Some v' /\ heap v' /\ v' ≡ₚ x :: v.
Proof.
  intros H. unfold push.
  destruct (iter_until_total (fun st => heap_above st.2 st.1 /\ bridged st.2 st.1 /\ st.1 ≡ₚ x :: v /\
      (st.2 < length st.1)%nat) (fun v' => heap v' /\ v' ≡ₚ x :: v)
    (fun st => Z.of_nat st.2) (Pos.of_succ_nat (length v)) rise_step (v ++ [x], length v)) as (r & -> & Hr).
  - intros [v1 n] (H1 & B1 & P1 & Hn). cbn [fst snd] in *. pose proof (rise_step_ok (x :: v) v1 n H1 B1 P1 Hn) as S1.
    destruct (rise_step (v1, n)) as [[v2 n2]|v2]; [|exact S1]. cbn [fst snd] in *.
    destruct S1 as (? & ? & ? & ? & ?). split; [done|lia].
  - simpl. rewrite length_app. simpl. split; [|split; [|split; [by rewrite Permutation_app_comm|lia]]].
    + intros g i a b Hi Hgi Ha Hb. assert (Hib : (i < length v)%nat).
      { pose proof (lookup_lt_Some _ _ _ Hb) as Hlt. rewrite length_app in Hlt. simpl in Hlt. lia. }
      rewrite lookup_app_l in Hb by done. rewrite lookup_app_l in Ha by (unfold child_of in Hgi; lia).
      by apply (H g i).
    + intros g i a b _ Hi _ Hb. pose proof (lookup_lt_Some _ _ _ Hb) as Hlt. rewrite length_app in Hlt. simpl in Hlt.
      unfold child_of in Hi. lia.
  - simpl. lia.
  - eauto.
Qed.

Lemma heap_nil : heap [].
Proof. intros n i x y _ Hx. done. Qed.

Lemma make_heap_ok l v : heap v -> exists v', make_heap l v = Some v' /\ heap v' /\ v' ≡ₚ l ++ v.
Proof.
  revert v. induction l as [|x l IH]; intros v H; simpl; [eauto|].
  destruct (push_ok x v H) as (v1 & -> & H1 & P1). cbn [mbind option_bind].
  destruct (IH v1 H1) as (v2 & -> & H2 & P2). exists v2. split; [done|]. split; [done|].
  rewrite P2, P1. symmetry. apply Permutation_middle.
Qed.

(** Sifting down from the root when only the root may be too small. *)
Lemma heap_replace_top x v : heap v -> heap_but O (<[O := x]> v).
Proof.
  intros H n i a b Hn Hc Ha Hb. rewrite list_lookup_insert_ne in Ha by done.
  rewrite list_lookup_insert_ne in Hb by (unfold child_of in Hc; lia). by apply (H n i).
Qed.

Lemma heap_prefix v l : heap (v ++ l) -> heap v.
Proof.
  intros H n i x y Hc Hx Hy. apply (H n i x y Hc); by apply lookup_app_l_Some.
Qed.

Lemma pop_ok x v : heap (x :: v) -> exists v', pop (x :: v) = Some v' /\ heap v' /\ v' ≡ₚ v.
Proof.
  intros H. unfold pop. destruct (exists_last (l := x :: v) ltac:(done)) as (l & z & E).
  assert (El : last (x :: v) = Some z) by (rewrite E; apply last_snoc).
  assert (Er : removelast (x :: v) = l) by (rewrite E; apply removelast_last).
  rewrite El, Er. case_decide as Ev; [subst; eauto using heap_nil|].
  assert (Hl : exists l', l = x :: l' /\ v = l' ++ [z]).
  { destruct l as [|w l']; simplify_eq/=; eauto. }
  destruct Hl as (l' & -> & ->).
  destruct (decrease_key_top_ok (<[O := z]> (x :: l'))) as (v' & E' & H' & P').
  - apply heap_replace_top. by apply (heap_prefix _ [z]).
  - exists v'. split; [exact E'|]. split; [done|]. rewrite P'. simpl. by rewrite Permutation_app_comm.
Qed.

(** No element is larger than the first. *)
Lemma top_max x v : heap (x :: v) -> forall y, y ∈ v -> cmp x y = false.
Proof.
  intros H. assert (Hi : forall i y, (x :: v) !! S i = Some y -> cmp x y = false).
  { intros i. induction (lt_wf i) as [i _ IH]. intros y Hy. set (n := Nat.div2 i).
    assert (Hc : child_of n (S i)).
    { unfold n, child_of. pose proof (Nat.div2_odd i). destruct (Nat.odd i); unfold Nat.b2n in *; lia. }
    destruct n as [|m] eqn:En; [by apply (H O (S i))|].
    assert (Hm : (m < i)%nat) by (unfold child_of in Hc; lia).
    pose proof (lookup_lt_Some _ _ _ Hy) as Hlt.
    destruct (lookup_lt_is_Some_2 (x :: v) (S m) ltac:(lia)) as [z Ez].
    apply (cmp_trans _ z); [by apply (IH m)|by apply (H (S m) (S i))]. }
  intros y Hy. apply list_elem_of_lookup in Hy as [i Hy]. by apply (Hi i).
Qed.

Lemma delete_single_ok f v :
  heap v ->
  exists r v', delete_single_element f v = Some (r, v') /\ heap v' /\
    match r with
    | Some x => f x = true /\ v ≡ₚ x :: v'
    | None => v' = v /\ Forall (fun x => f x = false) v
    end.
Proof.
  intros H. unfold delete_single_element. pose proof (find_erase_ok f v) as Hf.
  destruct (find_erase f v) as [[x v1]|]; [|by eauto 10].
  destruct (make_heap_ok v1 [] heap_nil) as (v2 & -> & H2 & P2). cbn [mbind option_bind].
  exists (Some x), v2. split; [done|]. split; [done|]. destruct Hf as [? ->]. split; [done|].
  by rewrite P2, app_nil_r.
Qed.

(** * Properties *)

(** After the key of the first element has changed, [decrease_key_top] ends
    with a heap of the same elements, whose first one is a largest; so do [push]
    and [pop], and [delete_single_element] takes out exactly one element that
    satisfies the predicate, or none when there is none. *)
Theorem heap_operations x y v f :
  heap (x :: v) ->
  (exists v', decrease_key_top (y :: v) = Some v' /\ heap v' /\ v' ≡ₚ y :: v /\
     (exists z, top v' = Some z /\ forall w, w ∈ y :: v -> w = z \/ cmp z w = false)) /\
  (exists v', push y (x :: v) = Some v' /\ heap v' /\ v' ≡ₚ y :: x :: v) /\
  (exists v', pop (x :: v) = Some v' /\ heap v' /\ v' ≡ₚ v) /\
  (exists r v', delete_single_element f (x :: v) = Some (r, v') /\ heap v' /\
     match r with
     | Some z => f z = true /\ x :: v ≡ₚ z :: v'
     | None => v' = x :: v /\ Forall (fun z => f z = false) (x :: v)
     end).
Proof.
  intros H. split; [|split; [by apply push_ok|split; [by apply pop_ok|by apply delete_single_ok]]].
  destruct (decrease_key_top_ok (y :: v)) as (v' & E & H' & P); [by apply (heap_replace_top y (x :: v))|].
  exists v'. split; [done|]. split; [done|]. split; [done|].
  destruct v' as [|z v']; [by apply Permutation_nil_cons in P|]. exists z. split; [done|].
  intros w Hw. rewrite <- P in Hw. apply elem_of_cons in Hw as [->|Hw]; [by left|right].
  by apply (top_max _ v').
Qed.

End prio_queue.

(** ** Numbers, largest first *)

#[export] Instance ltb_order : WeakOrder Z.ltb.
Proof. split; intros; lia. Qed.

Lemma heap_operations_witness :
  exists v', decrease_key_top Z.ltb [0; 5; 6; 1] = Some v' /\ heap Z.ltb v' /\ top v' = Some 6.
Proof.
  destruct (heap_operations Z.ltb 7 0 [5; 6; 1] (Z.eqb 5)) as ((v' & E & H & P & z & T & _) & _).
  - intros n i x y Hc Hx Hy. pose proof (lookup_lt_Some _ _ _ Hy) as Hi. simpl in Hi.
    unfold child_of in Hc. destruct n as [|[|n]]; [| |lia].
    + destruct Hc as [-> | ->]; simpl in *; simplify_eq; reflexivity.
    + destruct Hc as [-> | ->]; simpl in *; simplify_eq; reflexivity.
  - exists v'. split; [exact E|]. split; [exact H|]. vm_compute in E. injection E as <-. reflexivity.
Defined.
