(* ===== verification/TrafficClass.v ===== *)
(** * Traffic classes: [traffic_class.h] and [traffic_class.cc]

    The tree of classes that decides which task runs next.  Classes are objects
    in a store, linked both ways: a class knows its parent and its children.  The
    member functions that are virtual in the code are one function by cases on
    the policy.  Those that recurse towards the root take fuel, which a tree of
    [size] classes never uses up ([TrafficProps.v]).  [None] is a null or dangling
    pointer, an index out of range, or the top of an empty queue.  A [double] is a
    binary64 value of [SpecFloat.spec_float]. *)

From Stdlib Require Import SpecFloat.
From stdpp Require Import strings.
From S2P Require Import Prelude Pool Ledger PrioQueue.

(** ** Resources *)

Inductive resource_t := RESOURCE_COUNT | RESOURCE_CYCLE | RESOURCE_PACKET | RESOURCE_BIT.

Record resource_arr := Usage { u_count : Z; u_cycle : Z; u_packet : Z; u_bit : Z }.

Definition usage_of (u : resource_arr) (r : resource_t) : Z :=
  match r with
  | RESOURCE_COUNT => u_count u
  | RESOURCE_CYCLE => u_cycle u
  | RESOURCE_PACKET => u_packet u
  | RESOURCE_BIT => u_bit u
  end.

Definition ACCUMULATE (acc x : resource_arr) : resource_arr :=
  Usage (u64 (u_count acc + u_count x)) (u64 (u_cycle acc + u_cycle x))
    (u64 (u_packet acc + u_packet x)) (u64 (u_bit acc + u_bit x)).

Definition STRIDE1 : Z := 2 ^ 20.
Definition QUANTUM : Z := 2 ^ 10.

(** ** Classes *)

(** [pass] and [remain] share their storage. *)
Record ChildData := WFChild { stride : spec_float; pass : spec_float; wc : addr }.

Record rate_limit := RL {
  rl_resource : resource_t;
  limit_ : Z;
  limit_arg_ : Z;
  max_burst_ : Z;
  max_burst_arg_ : Z;
  tokens_ : Z;
  last_tsc_ : Z;
  child_ : option addr
}.

Inductive tc_body :=
  | Priority (first_runnable : nat) (children : list (Z * addr))
  | WeightedFair (resource : resource_t) (runnable blocked : list ChildData) (all : list (addr * Z))
  | RoundRobin (next_child : nat) (runnable blocked all : list addr)
  | RateLimit (r : rate_limit)
  | Leaf (wait_cycles : Z).

Record TrafficClass := TC {
  tname : string;
  parent_ : option addr;
  usage_ : resource_arr;
  cnt_throttled : Z;
  wakeup_time_ : Z;
  blocked_ : bool;
  body : tc_body
}.

Abbreviation store := (gmap addr TrafficClass).

Definition set_parent_ (p : option addr) (c : TrafficClass) : TrafficClass :=
  TC (tname c) p (usage_ c) (cnt_throttled c) (wakeup_time_ c) (blocked_ c) (body c).
Definition set_blocked (b : bool) (c : TrafficClass) : TrafficClass :=
  TC (tname c) (parent_ c) (usage_ c) (cnt_throttled c) (wakeup_time_ c) b (body c).
Definition set_wakeup (t : Z) (c : TrafficClass) : TrafficClass :=
  TC (tname c) (parent_ c) (usage_ c) (cnt_throttled c) t (blocked_ c) (body c).
Definition set_body (b : tc_body) (c : TrafficClass) : TrafficClass :=
  TC (tname c) (parent_ c) (usage_ c) (cnt_throttled c) (wakeup_time_ c) (blocked_ c) b.
Definition add_usage (u : resource_arr) (c : TrafficClass) : TrafficClass :=
  TC (tname c) (parent_ c) (ACCUMULATE (usage_ c) u) (cnt_throttled c) (wakeup_time_ c) (blocked_ c) (body c).
Definition throttle (c : TrafficClass) : TrafficClass :=
  TC (tname c) (parent_ c) (usage_ c) (u64 (cnt_throttled c + 1)) (wakeup_time_ c) true (body c).

(** The children a class can run now or later. *)
Definition kids (b : tc_body) : list addr :=
  match b with
  | Priority _ children => children.*2
  | WeightedFair _ runnable blocked _ => map wc (runnable ++ blocked)
  | RoundRobin _ runnable blocked _ => runnable ++ blocked
  | RateLimit r => option_list (child_ r)
  | Leaf _ => []
  end.

(** [Children()]. *)
Definition Children (b : tc_body) : list addr :=
  match b with
  | WeightedFair _ _ _ all => all.*1
  | RoundRobin _ _ _ all => all
  | _ => kids b
  end.

(** Whether the class at [a] is blocked; operations that ask it check first that
    the children are [live]. *)
Definition blocked_at (h : store) (a : addr) : bool :=
  match h !! a with Some c => blocked_ c | None => true end.

Definition live (h : store) (l : list addr) : Prop := Forall (fun a => is_Some (h !! a)) l.

#[export] Instance live_dec h l : Decision (live h l).
Proof. unfold live. apply _. Defined.

(** ** Choosing a child *)

Definition PickNextChild (b : tc_body) : option addr :=
  match b with
  | Priority f children => snd <$> children !! f
  | WeightedFair _ runnable _ _ => wc <$> top runnable
  | RoundRobin n runnable _ _ => runnable !! n
  | RateLimit r => child_ r
  | Leaf _ => None
  end.

(** The index of the first child of [l] that is not blocked, from index [n]. *)
Fixpoint skip_blocked (h : store) (l : list (Z * addr)) (n : nat) : nat :=
  match l with
  | [] => n
  | (_, k) :: l => if blocked_at h k then skip_blocked h l (S n) else n
  end.

(** ** Weighted fair queueing *)

(** [operator<]: the child with the least [pass] comes first. *)
Definition wf_lt (x y : ChildData) : bool := SFltb (pass y) (pass x).

Definition NextPass (runnable : list ChildData) : spec_float :=
  match runnable with [] => S754_zero false | x :: _ => pass x end.

Fixpoint wf_unblock (h : store) (runnable blocked : list ChildData) : option (list ChildData * list ChildData) :=
  match blocked with
  | [] => Some (runnable, [])
  | x :: blocked =>
      if blocked_at h (wc x) then
        '(run, blk) ← wf_unblock h runnable blocked; Some (run, x :: blk)
      else
        run ← push wf_lt (WFChild (stride x) (dbl_add (NextPass runnable) (pass x)) (wc x)) runnable;
        wf_unblock h run blocked
  end.

(** ** Round robin *)

Fixpoint rr_unblock (h : store) (runnable blocked : list addr) : list addr * list addr :=
  match blocked with
  | [] => (runnable, [])
  | x :: blocked =>
      if blocked_at h x then let '(run, blk) := rr_unblock h runnable blocked in (run, x :: blk)
      else rr_unblock h (runnable ++ [x]) blocked
  end.

(** After the runnable child at [i] is erased, of which [len] are left. *)
Definition rr_adjust (i len next : nat) : nat :=
  let next := if decide (i < next)%nat then (next - 1)%nat else next in
  if decide (len <= next)%nat then O else next.

(** The loop of [BlockTowardsRoot]; [kept] are the children before index [i]. *)
Fixpoint rr_block (h : store) (kept rest : list addr) (next : nat) (blocked : list addr) :
    list addr * nat * list addr :=
  match rest with
  | [] => (kept, next, blocked)
  | x :: rest =>
      if blocked_at h x
      then rr_block h kept rest (rr_adjust (length kept) (length (kept ++ rest)) next) (blocked ++ [x])
      else rr_block h (kept ++ [x]) rest next blocked
  end.

(** ** Rate limiting *)

(** A leaf waits this long the first time. *)
Definition kInitialWaitCycles : Z := 2 ^ 14.

Definition kUsageAmplifierPow : Z := 32.

Definition to_work_units (x : Z) : Z := u64 (Z.shiftl x kUsageAmplifierPow).

(** On a 64-bit system; [tsc_hz] is the frequency of the clock. *)
Definition to_work_units_per_cycle (tsc_hz x : Z) : option Z :=
  guard (tsc_hz <> 0);; Some (u64 (wrap 128 (Z.shiftl x kUsageAmplifierPow) / tsc_hz)).

Definition new_rate_limit (tsc_hz : Z) (r : resource_t) (limit burst : Z) : option rate_limit :=
  l ← to_work_units_per_cycle tsc_hz limit;
  Some (RL r l limit (to_work_units burst) burst 0 0 None).

Definition set_limit (tsc_hz limit : Z) (r : rate_limit) : option rate_limit :=
  l ← to_work_units_per_cycle tsc_hz limit;
  Some (RL (rl_resource r) l limit (max_burst_ r) (max_burst_arg_ r) (tokens_ r) (last_tsc_ r) (child_ r)).

Definition set_max_burst (burst : Z) (r : rate_limit) : rate_limit :=
  RL (rl_resource r) (limit_ r) (limit_arg_ r) (to_work_units burst) burst (tokens_ r) (last_tsc_ r) (child_ r).

(** The limit counts tokens from [tsc] on. *)
Definition touch (tsc : Z) (r : rate_limit) : rate_limit :=
  RL (rl_resource r) (limit_ r) (limit_arg_ r) (max_burst_ r) (max_burst_arg_ r) (tokens_ r) tsc (child_ r).

(** The tokens after [usage] has been used, at [tsc], and when to wake up if
    they did not suffice; without a limit there is no time to wake up. *)
Definition consume (r : rate_limit) (usage tsc : Z) : rate_limit * bool * option Z :=
  let elapsed_cycles := u64 (tsc - last_tsc_ r) in
  let tokens := u64 (tokens_ r + u64 (limit_ r * elapsed_cycles)) in
  let consumed := to_work_units usage in
  let rl t := RL (rl_resource r) (limit_ r) (limit_arg_ r) (max_burst_ r) (max_burst_arg_ r) t tsc (child_ r) in
  if tokens <? consumed then
    (rl 0, true, if limit_ r =? 0 then None else Some (u64 (tsc + (consumed - tokens) / limit_ r)))
  else (rl (Z.min (tokens - consumed) (max_burst_ r)), false, None).

(** ** Unblocking and blocking *)

(** The first half of [UnblockTowardsRoot], by policy: the class, and whether it is
    blocked now. *)
Definition Priority_Unblock (h : store) (children : list (Z * addr)) (c : TrafficClass) : option (TrafficClass * bool) :=
  let f := skip_blocked h children 0 in
  Some (set_body (Priority f children) c, bool_decide (length children <= f)%nat).

Definition WeightedFair_Unblock (h : store) r runnable blocked all (c : TrafficClass) : option (TrafficClass * bool) :=
  '(run, blk) ← wf_unblock h runnable blocked;
  Some (set_body (WeightedFair r run blk all) c, bool_decide (run = [])).

Definition RoundRobin_Unblock (h : store) n runnable blocked all (c : TrafficClass) : option (TrafficClass * bool) :=
  let '(run, blk) := rr_unblock h runnable blocked in
  Some (set_body (RoundRobin n run blk all) c, bool_decide (run = [])).

Definition child_blocked (h : store) (r : rate_limit) : bool :=
  match child_ r with Some k => blocked_at h k | None => true end.

Definition RateLimit_Unblock (h : store) (tsc : Z) r (c : TrafficClass) : option (TrafficClass * bool) :=
  Some (set_body (RateLimit (touch tsc r)) c, negb (wakeup_time_ c =? 0) || child_blocked h r).

Definition unblock_local (h : store) (tsc : Z) (c : TrafficClass) : option (TrafficClass * bool) :=
  guard (live h (kids (body c)));;
  match body c with
  | Priority _ children => Priority_Unblock h children c
  | WeightedFair r runnable blocked all => WeightedFair_Unblock h r runnable blocked all c
  | RoundRobin n runnable blocked all => RoundRobin_Unblock h n runnable blocked all c
  | RateLimit r => RateLimit_Unblock h tsc r c
  | Leaf w => Some (c, false)
  end.

(** [UnblockTowardsRoot], with [UnblockTowardsRootSetBlocked]. *)
Fixpoint UnblockTowardsRoot (fuel : nat) (tsc : Z) (a : addr) (h : store) : option store :=
  match fuel with
  | O => None
  | S fuel =>
      c ← h !! a;
      '(c', nowblocked) ← unblock_local h tsc c;
      let became_unblocked := negb nowblocked && blocked_ c in
      let h := <[a := set_blocked nowblocked c']> h in
      match parent_ c with
      | Some p => if became_unblocked then UnblockTowardsRoot fuel tsc p h else Some h
      | None => Some h
      end
  end.

(** The first half of [BlockTowardsRoot]. *)
Definition Priority_Block (h : store) f (children : list (Z * addr)) (c : TrafficClass) : option (TrafficClass * bool) :=
  let f := skip_blocked h (drop f children) f in
  Some (set_body (Priority f children) c, bool_decide (f = length children)).

Definition WeightedFair_Block (h : store) r runnable blocked all (c : TrafficClass) : option (TrafficClass * bool) :=
  '(x, run) ← delete_single_element wf_lt (fun x => blocked_at h (wc x)) runnable;
  Some (set_body (WeightedFair r run (blocked ++ option_list x) all) c, bool_decide (run = [])).

Definition RoundRobin_Block (h : store) n runnable blocked all (c : TrafficClass) : option (TrafficClass * bool) :=
  let '(run, n, blk) := rr_block h [] runnable n blocked in
  Some (set_body (RoundRobin n run blk all) c, bool_decide (run = [])).

Definition block_local (h : store) (c : TrafficClass) : option (TrafficClass * bool) :=
  guard (live h (kids (body c)));;
  match body c with
  | Priority f children => Priority_Block h f children c
  | WeightedFair r runnable blocked all => WeightedFair_Block h r runnable blocked all c
  | RoundRobin n runnable blocked all => RoundRobin_Block h n runnable blocked all c
  | RateLimit r => Some (c, child_blocked h r)
  | Leaf w => Some (c, false)
  end.

Fixpoint BlockTowardsRoot (fuel : nat) (a : addr) (h : store) : option store :=
  match fuel with
  | O => None
  | S fuel =>
      c ← h !! a;
      '(c', nowblocked) ← block_local h c;
      let became_blocked := nowblocked && negb (blocked_ c) in
      let h := <[a := set_blocked nowblocked c']> h in
      match parent_ c with
      | Some p => if became_blocked then BlockTowardsRoot fuel p h else Some h
      | None => Some h
      end
  end.

(** ** Accounting *)

(** [FinishAndAccountTowardsRoot] of one class, by policy; [c] has been charged
    already.  The flag tells to put the class into the wakeup queue. *)
Definition Priority_Finish (h : store) f children (child : addr) (c : TrafficClass) : option (TrafficClass * bool) :=
  guard (live h (child :: kids (body c)));;
  if blocked_at h child then
    let f := skip_blocked h (drop f children) f in
    Some (set_blocked (bool_decide (f = length children)) (set_body (Priority f children) c), false)
  else Some (c, false).

Definition WeightedFair_Finish (h : store) r runnable blocked all (child : addr) (usage : resource_arr)
    (c : TrafficClass) : option (TrafficClass * bool) :=
  guard (live h (child :: kids (body c)));;
  match runnable with
  | [] => None
  | item :: rest =>
      let pass_delta := dbl_div (dbl_mul (stride item) (of_u64 (usage_of usage r))) (of_u64 QUANTUM) in
      if blocked_at h child then
        run ← pop wf_lt runnable;
        Some (set_blocked (bool_decide (run = []))
                (set_body (WeightedFair r run (blocked ++ [WFChild (stride item) pass_delta (wc item)]) all) c), false)
      else
        run ← decrease_key_top wf_lt (WFChild (stride item) (dbl_add (pass item) pass_delta) (wc item) :: rest);
        Some (set_body (WeightedFair r run blocked all) c, false)
  end.

Definition RoundRobin_Finish (h : store) (n : nat) runnable blocked all (child : addr) (usage : resource_arr)
    (c : TrafficClass) : option (TrafficClass * bool) :=
  guard (live h (child :: kids (body c)));;
  let wrap_around n (run : list addr) := if decide (length run <= n)%nat then O else n in
  if blocked_at h child then
    guard (n < length runnable)%nat;;
    let run := delete n runnable in
    Some (set_blocked (bool_decide (run = []))
            (set_body (RoundRobin (wrap_around n run) run (blocked ++ [child]) all) c), false)
  else
    let n := (n + Z.to_nat (u_count usage))%nat in
    Some (set_body (RoundRobin (wrap_around n runnable) runnable blocked all) c, false).

Definition RateLimit_Finish (h : store) r (child : addr) (usage : resource_arr) (tsc : Z) (c : TrafficClass) :
    option (TrafficClass * bool) :=
  guard (live h [child]);;
  let '(r', throttled, wake) := consume r (usage_of usage (rl_resource r)) tsc in
  let c := set_body (RateLimit r') c in
  let c := if throttled : bool then throttle c else c in
  let c := match wake with Some t => set_wakeup t c | None => c end in
  Some (set_blocked (blocked_ c || blocked_at h child) c, match wake with Some _ => true | None => false end).

Definition finish_local (h : store) (c : TrafficClass) (child : addr) (usage : resource_arr) (tsc : Z) :
    option (TrafficClass * bool) :=
  let c := add_usage usage c in
  match body c with
  | Leaf _ => Some (c, false)
  | Priority f children => Priority_Finish h f children child c
  | WeightedFair r runnable blocked all => WeightedFair_Finish h r runnable blocked all child usage c
  | RoundRobin n runnable blocked all => RoundRobin_Finish h n runnable blocked all child usage c
  | RateLimit r => RateLimit_Finish h r child usage tsc c
  end.

(** [SchedWakeupQueue]: the class to wake up first comes first. *)
Definition wakeup_at (h : store) (x : addr) : Z := match h !! x with Some c => wakeup_time_ c | None => 0 end.
Definition wake_lt (h : store) (x y : addr) : bool := wakeup_at h y <? wakeup_at h x.

Definition wakeup_add (h : store) (a : addr) (q : list addr) : option (list addr) := push (wake_lt h) a q.
Definition wakeup_remove (h : store) (a : addr) (q : list addr) : option (list addr) :=
  '(_, q) ← delete_single_element (wake_lt h) (fun t => bool_decide (t = a)) q; Some q.

(** [FinishAndAccountTowardsRoot], from [a]; a leaf does not look at [child]. *)
Fixpoint FinishAndAccountTowardsRoot (fuel : nat) (q : list addr) (a child : addr) (usage : resource_arr)
    (tsc : Z) (h : store) : option (store * list addr) :=
  match fuel with
  | O => None
  | S fuel =>
      c ← h !! a;
      '(c', wake) ← finish_local h c child usage tsc;
      let h := <[a := c']> h in
      q ← (if wake : bool then wakeup_add h a q else Some q);
      match parent_ c with
      | Some p => FinishAndAccountTowardsRoot fuel q p a usage tsc h
      | None => Some (h, q)
      end
  end.

(** ** Adding and removing children *)

Definition put (a : addr) (f : TrafficClass -> TrafficClass) (h : store) : option store :=
  c ← h !! a; Some (<[a := f c]> h).

(** The fuel given to the recursions along the tree. *)
Definition depth_bound (h : store) : nat := S (base.size h).

(** [InsertSorted]: the new child moves forward past the larger priorities. *)
Fixpoint rise_sorted (d : Z * addr) (l : list (Z * addr)) : list (Z * addr) :=
  match l with
  | [] => [d]
  | e :: l' => if d.1 <? e.1 then e :: rise_sorted d l' else d :: l
  end.

Definition InsertSorted (l : list (Z * addr)) (d : Z * addr) : list (Z * addr) := rev (rise_sorted d (rev l)).

Definition Priority_AddChild (tsc : Z) (a child : addr) (priority : Z) f children (h : store) : option (store * bool) :=
  ck ← h !! child;
  if parent_ ck is Some _ then Some (h, false)
  else if existsb (fun d => d.1 =? priority) children then Some (h, false)
  else
    h ← put a (set_body (Priority f (InsertSorted children (priority, child)))) h;
    h ← put child (set_parent_ (Some a)) h;
    h ← UnblockTowardsRoot (depth_bound h) tsc a h;
    Some (h, true).

Definition WeightedFair_AddChild (tsc : Z) (a child : addr) (share : Z) r runnable blocked all (h : store) :
    option (store * bool) :=
  ck ← h !! child;
  if parent_ ck is Some _ then Some (h, false)
  else if share =? 0 then Some (h, false)
  else
    h ← put child (set_parent_ (Some a)) h;
    let d := WFChild (dbl_div (of_u64 STRIDE1) (binary_normalize 53 1024 share 0 false)) (NextPass runnable) child in
    if blocked_ ck then
      h ← put a (set_body (WeightedFair r runnable (blocked ++ [d]) (all ++ [(child, share)]))) h;
      Some (h, true)
    else
      run ← push wf_lt d runnable;
      h ← put a (set_body (WeightedFair r run blocked (all ++ [(child, share)]))) h;
      h ← UnblockTowardsRoot (depth_bound h) tsc a h;
      Some (h, true).

Definition RoundRobin_AddChild (tsc : Z) (a child : addr) n runnable blocked all (h : store) : option (store * bool) :=
  ck ← h !! child;
  if parent_ ck is Some _ then Some (h, false)
  else
    h ← put child (set_parent_ (Some a)) h;
    h ← put a (set_body (if blocked_ ck then RoundRobin n runnable (blocked ++ [child]) (all ++ [child])
                         else RoundRobin n (runnable ++ [child]) blocked (all ++ [child]))) h;
    h ← UnblockTowardsRoot (depth_bound h) tsc a h;
    Some (h, true).

(** The limiter with another child. *)
Definition with_child (k : option addr) (r : rate_limit) : rate_limit :=
  RL (rl_resource r) (limit_ r) (limit_arg_ r) (max_burst_ r) (max_burst_arg_ r) (tokens_ r) (last_tsc_ r) k.

Definition RateLimit_AddChild (tsc : Z) (a child : addr) r (h : store) : option (store * bool) :=
  ck ← h !! child;
  match parent_ ck, child_ r with
  | None, None =>
      h ← put a (set_body (RateLimit (with_child (Some child) r))) h;
      h ← put child (set_parent_ (Some a)) h;
      h ← UnblockTowardsRoot (depth_bound h) tsc a h;
      Some (h, true)
  | _, _ => Some (h, false)
  end.

(** [AddChild] of the policies; [arg] is the priority or the share.  A leaf has
    no such function. *)
Definition AddChild (tsc : Z) (a child : addr) (arg : Z) (h : store) : option (store * bool) :=
  c ← h !! a;
  match body c with
  | Priority f children => Priority_AddChild tsc a child arg f children h
  | WeightedFair r runnable blocked all => WeightedFair_AddChild tsc a child arg r runnable blocked all h
  | RoundRobin n runnable blocked all => RoundRobin_AddChild tsc a child n runnable blocked all h
  | RateLimit r => RateLimit_AddChild tsc a child r h
  | Leaf _ => None
  end.

(** The list without the first [x] for which [f] holds, and where that was. *)
Fixpoint erase_first {T} (f : T -> bool) (l : list T) : option (nat * list T) :=
  match l with
  | [] => None
  | x :: l => if f x then Some (O, l) else '(i, l) ← erase_first f l; Some (S i, x :: l)
  end.

Definition erased {T} (f : T -> bool) (l : list T) : list T :=
  match erase_first f l with Some (_, l) => l | None => l end.

Definition orphan (child : addr) : store -> option store := put child (set_parent_ None).

Definition Priority_RemoveChild (a child : addr) f children (h : store) : option (store * bool) :=
  match erase_first (fun d => bool_decide (d.2 = child)) children with
  | None => Some (h, false)
  | Some (i, children) =>
      h ← put a (set_body (Priority (if decide (i < f)%nat then (f - 1)%nat else f) children)) h;
      h ← orphan child h;
      h ← BlockTowardsRoot (depth_bound h) a h;
      Some (h, true)
  end.

Definition WeightedFair_RemoveChild (a child : addr) r runnable blocked all (h : store) : option (store * bool) :=
  let all := erased (fun d => bool_decide (d.1 = child)) all in
  match erase_first (fun x => bool_decide (wc x = child)) blocked with
  | Some (_, blocked) =>
      h ← put a (set_body (WeightedFair r runnable blocked all)) h;
      h ← orphan child h;
      Some (h, true)
  | None =>
      '(x, run) ← delete_single_element wf_lt (fun x => bool_decide (wc x = child)) runnable;
      h ← put a (set_body (WeightedFair r run blocked all)) h;
      match x with
      | Some _ => h ← orphan child h; h ← BlockTowardsRoot (depth_bound h) a h; Some (h, true)
      | None => Some (h, false)
      end
  end.

Definition RoundRobin_RemoveChild (a child : addr) n runnable blocked all (h : store) : option (store * bool) :=
  let all := erased (fun x => bool_decide (x = child)) all in
  match erase_first (fun x => bool_decide (x = child)) blocked with
  | Some (_, blocked) =>
      h ← put a (set_body (RoundRobin n runnable blocked all)) h;
      h ← orphan child h;
      Some (h, true)
  | None =>
      match erase_first (fun x => bool_decide (x = child)) runnable with
      | Some (i, run) =>
          h ← put a (set_body (RoundRobin (rr_adjust i (length run) n) run blocked all)) h;
          h ← orphan child h;
          h ← BlockTowardsRoot (depth_bound h) a h;
          Some (h, true)
      | None => h ← put a (set_body (RoundRobin n runnable blocked all)) h; Some (h, false)
      end
  end.

Definition RateLimit_RemoveChild (a child : addr) r (h : store) : option (store * bool) :=
  if decide (child_ r <> Some child) then Some (h, false)
  else
    h ← orphan child h;
    h ← put a (set_body (RateLimit (with_child None r))) h;
    h ← BlockTowardsRoot (depth_bound h) a h;
    Some (h, true).

Definition RemoveChild (a child : addr) (h : store) : option (store * bool) :=
  c ← h !! a;
  ck ← h !! child;
  if decide (parent_ ck <> Some a) then Some (h, false)
  else
    match body c with
    | Priority f children => Priority_RemoveChild a child f children h
    | WeightedFair r runnable blocked all => WeightedFair_RemoveChild a child r runnable blocked all h
    | RoundRobin n runnable blocked all => RoundRobin_RemoveChild a child n runnable blocked all h
    | RateLimit r => RateLimit_RemoveChild a child r h
    | Leaf _ => Some (h, false)
    end.

(** [Size] and [Root]. *)
Fixpoint Size (fuel : nat) (h : store) (a : addr) : option nat :=
  match fuel with
  | O => None
  | S fuel =>
      c ← h !! a;
      foldr (fun k n => n ← n; m ← Size fuel h k; Some (n + m)%nat) (Some 1%nat) (Children (body c))
  end.

Fixpoint Root (fuel : nat) (h : store) (a : addr) : option addr :=
  match fuel with
  | O => None
  | S fuel => c ← h !! a; match parent_ c with Some p => Root fuel h p | None => Some a end
  end.
