(* ===== verification/Scheduler.v ===== *)
(** * The scheduler of a worker: [scheduler.h], and the table of classes

    The state is the store of classes, the table of their names
    ([TrafficClassBuilder]), the root of the tree of this worker and the queue of
    the classes to wake up.  A task is an argument: the result of running the
    task of a leaf; so is the clock. *)

From stdpp Require Import strings.
From S2P Require Import Prelude Pool Ledger Shapers PrioQueue TrafficClass.

Record Sched := Sch {
  tcs : store;
  all_tcs_ : gmap string addr;
  root_ : option addr;
  default_rr_class_ : option addr;
  wakeup_queue_ : list addr;
  cnt_idle : Z;
  cycles_idle : Z;
  checkpoint_ : Z
}.

Definition with_tcs (h : store) (q : list addr) (s : Sched) : Sched :=
  Sch h (all_tcs_ s) (root_ s) (default_rr_class_ s) q (cnt_idle s) (cycles_idle s) (checkpoint_ s).
Definition with_root (r d : option addr) (s : Sched) : Sched :=
  Sch (tcs s) (all_tcs_ s) r d (wakeup_queue_ s) (cnt_idle s) (cycles_idle s) (checkpoint_ s).
Definition with_idle (n c : Z) (s : Sched) : Sched :=
  Sch (tcs s) (all_tcs_ s) (root_ s) (default_rr_class_ s) (wakeup_queue_ s) n c (checkpoint_ s).
Definition with_checkpoint (t : Z) (s : Sched) : Sched :=
  Sch (tcs s) (all_tcs_ s) (root_ s) (default_rr_class_ s) (wakeup_queue_ s) (cnt_idle s) (cycles_idle s) t.
Definition with_names (h : store) (n : gmap string addr) (s : Sched) : Sched :=
  Sch h n (root_ s) (default_rr_class_ s) (wakeup_queue_ s) (cnt_idle s) (cycles_idle s) (checkpoint_ s).

(** ** [TrafficClassBuilder] *)

(** The class at [a], which has just been allocated; [None] is the null pointer
    given for a name that is taken. *)
Definition CreateTrafficClass (a : addr) (name : string) (b : tc_body) (s : Sched) : Sched * option addr :=
  match all_tcs_ s !! name with
  | Some _ => (s, None)
  | None =>
      let blocked := match b with Leaf _ => false | _ => true end in
      (with_names (<[a := TC name None (Usage 0 0 0 0) 0 0 blocked b]> (tcs s)) (<[name := a]> (all_tcs_ s)) s, Some a)
  end.

(** [CreateTree]: the class and its children, each with its priority or share; a
    call through the null pointer is a fault. *)
Fixpoint add_children (tsc : Z) (a : addr) (l : list (addr * Z)) (h : store) : option store :=
  match l with
  | [] => Some h
  | (k, arg) :: l => '(h, _) ← AddChild tsc a k arg h; add_children tsc a l h
  end.

Definition CreateTree (tsc : Z) (a : addr) (name : string) (b : tc_body) (children : list (addr * Z)) (s : Sched) :
    option (Sched * option addr) :=
  match CreateTrafficClass a name b s, children with
  | (s, Some a), _ => h ← add_children tsc a children (tcs s); Some (with_tcs h (wakeup_queue_ s) s, Some a)
  | (s, None), [] => Some (s, None)
  | (_, None), _ => None
  end.

Definition Find (name : string) (s : Sched) : option addr := all_tcs_ s !! name.

Definition Clear (name : string) (s : Sched) : Sched * bool :=
  (with_names (tcs s) (delete name (all_tcs_ s)) s, bool_decide (is_Some (all_tcs_ s !! name))).

Definition ClearAll (s : Sched) : Sched * bool := (with_names (tcs s) ∅ s, true).

(** The destructor of a class, which deletes its children. *)
Fixpoint delete_tc (fuel : nat) (a : addr) (s : Sched) : option Sched :=
  match fuel with
  | O => None
  | S fuel =>
      c ← tcs s !! a;
      s ← foldl (fun s k => s ← s; delete_tc fuel k s) (Some s) (kids (body c));
      let '(s, _) := Clear (tname c) s in
      Some (with_names (delete a (tcs s)) (all_tcs_ s) s)
  end.

(** ** Attaching trees *)

(** [rr] is the address given to a new round-robin root, and [name] its name. *)
Definition AttachOrphan (tsc : Z) (c rr : addr) (name : string) (s : Sched) : option (Sched * bool) :=
  match root_ s with
  | None => Some (with_root (Some c) (default_rr_class_ s) s, true)
  | Some root =>
      match default_rr_class_ s with
      | Some d => '(h, ret) ← AddChild tsc d c 0 (tcs s); Some (with_tcs h (wakeup_queue_ s) s, ret)
      | None =>
          let '(s, d) := CreateTrafficClass rr name (RoundRobin 0 [] [] []) s in
          d ← d;
          '(h, _) ← AddChild tsc d root 0 (tcs s);
          '(h, _) ← AddChild tsc d c 0 h;
          Some (with_root (Some d) (Some d) (with_tcs h (wakeup_queue_ s) s), true)
      end
  end.

Definition AdjustDefault (s : Sched) : option Sched :=
  match root_ s, default_rr_class_ s with
  | Some root, Some d =>
      c ← tcs s !! d;
      match Children (body c) with
      | [] => s ← delete_tc (depth_bound (tcs s)) root s; Some (with_root None None s)
      | [k] =>
          '(h, _) ← RemoveChild root k (tcs s);
          s ← delete_tc (depth_bound h) root (with_tcs h (wakeup_queue_ s) s);
          Some (with_root (Some k) None s)
      | _ => Some s
      end
  | _, _ => Some s
  end.

Definition RemoveRoot (c : addr) (s : Sched) : Sched * bool :=
  if bool_decide (root_ s = Some c /\ default_rr_class_ s = None) then (with_root None (default_rr_class_ s) s, true)
  else (s, false).

Definition NumTcs (s : Sched) : option nat :=
  match root_ s with Some r => Size (depth_bound (tcs s)) (tcs s) r | None => Some O end.

(** ** Scheduling *)

(** The loop of [WakeTCs]. *)
Fixpoint wake_loop (n : nat) (tsc : Z) (h : store) (q : list addr) : option (store * list addr) :=
  match n with
  | O => None
  | S n =>
      match top q with
      | None => Some (h, q)
      | Some a =>
          c ← h !! a;
          if wakeup_time_ c <? tsc then
            q ← pop (wake_lt h) q;
            h ← UnblockTowardsRoot (depth_bound h) (wakeup_time_ c) a (<[a := set_wakeup 0 c]> h);
            wake_loop n tsc h q
          else Some (h, q)
      end
  end.

Definition WakeTCs (tsc : Z) (s : Sched) : option Sched :=
  '(h, q) ← wake_loop (S (length (wakeup_queue_ s))) tsc (tcs s) (wakeup_queue_ s);
  Some (with_tcs h q s).

(** Down from the class at [a] to a leaf. *)
Fixpoint pick_leaf (fuel : nat) (h : store) (a : addr) : option addr :=
  match fuel with
  | O => None
  | S fuel =>
      c ← h !! a;
      match body c with
      | Leaf _ => Some a
      | b => k ← PickNextChild b; pick_leaf fuel h k
      end
  end.

(** [Next]: the leaf to run, if there is one. *)
Definition Next (tsc : Z) (s : Sched) : option (Sched * option addr) :=
  s ← WakeTCs tsc s;
  match root_ s with
  | None => Some (s, None)
  | Some r =>
      c ← tcs s !! r;
      if blocked_ c then Some (s, None)
      else leaf ← pick_leaf (depth_bound (tcs s)) (tcs s) r; Some (s, Some leaf)
  end.

(** The use made by one run of a task. *)
Definition run_usage (now checkpoint : Z) (ret : task_result) : resource_arr :=
  Usage 1 (u64 (now - checkpoint)) (tpackets ret) (bits ret).

Definition idle (now : Z) (s : Sched) : Sched :=
  with_checkpoint now (with_idle (u64 (cnt_idle s + 1)) (u64 (cycles_idle s + u64 (now - checkpoint_ s))) s).

(** [DefaultScheduler::ScheduleOnce]; [run leaf] is the result of its task and
    [now] the clock afterwards. *)
Definition ScheduleOnce (run : addr -> task_result) (now : Z) (s : Sched) : option (Sched * option addr) :=
  '(s, leaf) ← Next (checkpoint_ s) s;
  match leaf with
  | None => Some (idle now s, None)
  | Some a =>
      '(h, q) ← FinishAndAccountTowardsRoot (depth_bound (tcs s)) (wakeup_queue_ s) a a
                  (run_usage now (checkpoint_ s) (run a)) now (tcs s);
      Some (with_checkpoint now (with_tcs h q s), Some a)
  end.

Definition kMaxWait : Z := 2 ^ 20.

(** [ExperimentalScheduler::ScheduleOnce]: a leaf whose task has nothing to do is
    blocked for a while that doubles each time. *)
Definition set_leaf_wait (w : Z) (c : TrafficClass) : TrafficClass := set_body (Leaf w) c.

Definition ScheduleOnceExperimental (run : addr -> task_result) (now : Z) (s : Sched) :
    option (Sched * option addr) :=
  '(s, leaf) ← Next (checkpoint_ s) s;
  match leaf with
  | None => Some (idle now s, None)
  | Some a =>
      c ← tcs s !! a;
      match body c with
      | Leaf w =>
          let ret := run a in
          if (tpackets ret =? 0) && block ret then
            let wait := Z.min kMaxWait (u64 (Z.shiftl w 1)) in
            let c := set_wakeup (u64 (now + wait)) (set_blocked true (set_leaf_wait wait c)) in
            let h := <[a := c]> (tcs s) in
            q ← wakeup_add h a (wakeup_queue_ s);
            '(h, q) ← FinishAndAccountTowardsRoot (depth_bound h) q a a (Usage 0 0 0 0) now h;
            Some (with_checkpoint now (with_tcs h q s), Some a)
          else
            let h := <[a := set_leaf_wait (Z.shiftr (u64 (w + 1)) 1) c]> (tcs s) in
            '(h, q) ← FinishAndAccountTowardsRoot (depth_bound h) (wakeup_queue_ s) a a
                        (run_usage now (checkpoint_ s) ret) now h;
            Some (with_checkpoint now (with_tcs h q s), Some a)
      | _ => None
      end
  end.
