(* ===== verification/TrafficWake.v ===== *)
(** * Classes that wait to be woken

    The queue of [SchedWakeupQueue] is a heap on the times of its classes, which
    are blocked leaves and rate limiters.  Its order is kept because the classes
    whose times the scheduler changes are not in the queue then. *)

From S2P Require Import Prelude Pool Ledger Shapers PrioQueue TrafficClass Scheduler.

(** The classes from [a] to the root. *)
Fixpoint path_up (fuel : nat) (h : store) (a : addr) : list addr :=
  match fuel with
  | O => []
  | S fuel => a :: match h !! a with
                   | Some c => match parent_ c with Some p => path_up fuel h p | None => [] end
                   | None => []
                   end
  end.

Lemma path_up_insert fuel h a c c' x :
  h !! a = Some c -> parent_ c' = parent_ c -> path_up fuel (<[a := c']> h) x = path_up fuel h x.
Proof.
  intros Ha Hp. revert x. induction fuel as [|fuel IH]; intros x; [done|]. simpl. f_equal.
  destruct (decide (a = x)) as [<-|]; [rewrite lookup_insert_eq, Ha, Hp|rewrite lookup_insert_ne by done].
  - by destruct (parent_ c).
  - destruct (h !! x) as [cx|]; [|done]. by destruct (parent_ cx).
Qed.

(** The order of the queue. *)
#[export] Instance wake_lt_order h : WeakOrder (wake_lt h).
Proof. split; unfold wake_lt; intros; lia. Qed.

Lemma heap_ext h h' q : (forall x, x ∈ q -> wakeup_at h' x = wakeup_at h x) -> heap (wake_lt h) q -> heap (wake_lt h') q.
Proof.
  intros He H n i x y Hc Hx Hy. specialize (H n i x y Hc Hx Hy). unfold wake_lt in *.
  by rewrite !He by (by eapply list_elem_of_lookup_2).
Qed.

(** The same policy, for a leaf and a rate limiter with the same child. *)
Definition same_kind (b b' : tc_body) : Prop :=
  match b, b' with
  | Leaf w, Leaf w' => w' = w
  | RateLimit r, RateLimit r' => child_ r' = child_ r
  | Leaf _, _ | RateLimit _, _ | _, Leaf _ | _, RateLimit _ => False
  | _, _ => True
  end.

Lemma same_kind_refl b : same_kind b b.
Proof. by destruct b. Qed.

Lemma same_kind_trans b1 b2 b3 : same_kind b1 b2 -> same_kind b2 b3 -> same_kind b1 b3.
Proof. destruct b1, b2, b3; simpl; congruence || done. Qed.

Definition is_leaf (b : tc_body) : Prop := match b with Leaf _ => True | _ => False end.
Definition is_limiter (b : tc_body) : Prop := match b with RateLimit _ => True | _ => False end.

(** What the queue holds. *)
Record waiting (h : store) (q : list addr) : Prop := {
  w_heap : heap (wake_lt h) q;
  w_once : NoDup q;
  w_kind : forall x, x ∈ q -> exists c, h !! x = Some c /\ (is_leaf (body c) \/ is_limiter (body c)) /\
    (wakeup_time_ c <> 0 -> blocked_ c = true)
}.

(** A class whose time has come and is over: a leaf can run, a rate limiter can run if
    its child can. *)
Definition awake (h : store) (a : addr) : Prop :=
  exists c, h !! a = Some c /\ wakeup_time_ c = 0 /\
    match body c with Leaf _ => blocked_ c = false | RateLimit r => blocked_ c = child_blocked h r | _ => False end.

(** The first of the queue is the earliest. *)
Lemma queue_first h a q x : heap (wake_lt h) (a :: q) -> x ∈ a :: q -> wakeup_at h a <= wakeup_at h x.
Proof.
  intros Hh [->|Hx]%elem_of_cons; [lia|]. pose proof (top_max (wake_lt h) a q Hh x Hx) as Hm. unfold wake_lt in Hm. lia.
Qed.

(** ** Unblocking *)

Lemma unblock_local_kind h tsc c c' nb :
  unblock_local h tsc c = Some (c', nb) ->
  wakeup_time_ c' = wakeup_time_ c /\ parent_ c' = parent_ c /\ same_kind (body c) (body c') /\
  (is_leaf (body c) -> c' = c) /\
  (forall r, body c = RateLimit r -> nb = negb (wakeup_time_ c =? 0) || child_blocked h r).
Proof.
  unfold unblock_local, Priority_Unblock, WeightedFair_Unblock, RoundRobin_Unblock, RateLimit_Unblock.
  case_guard; [|done]. cbn [mbind option_bind]. destruct (body c) as [f ch|r run bl all|n run bl all|r|w] eqn:Eb.
  - intros [= <- <-]. done.
  - destruct (wf_unblock h run bl) as [[run' bl']|]; [|done]. cbn [mbind option_bind]. intros [= <- <-]. done.
  - destruct (rr_unblock h run bl) as [run' bl']. intros [= <- <-]. done.
  - intros [= <- <-]. do 3 (split; [done|]). split; [done|]. by intros ? [= ->].
  - intros [= <- <-]. rewrite Eb. done.
Qed.

(** What it does to the classes that may wait. *)
Definition undisturbed (a : addr) (h h' : store) : Prop :=
  forall x c, h !! x = Some c -> exists c', h' !! x = Some c' /\ wakeup_time_ c' = wakeup_time_ c /\ same_kind (body c) (body c') /\
    (is_leaf (body c) -> x <> a -> c' = c) /\
    (is_limiter (body c) -> wakeup_time_ c <> 0 -> blocked_ c = true -> blocked_ c' = true).

(** The parents of classes are not leaves. *)
Definition inner_parents (h : store) : Prop :=
  forall a c p, h !! a = Some c -> parent_ c = Some p -> exists cp, h !! p = Some cp /\ ~ is_leaf (body cp).

Lemma unblock_undisturbed tsc fuel : forall a h h',
  inner_parents h -> UnblockTowardsRoot fuel tsc a h = Some h' -> undisturbed a h h'.
Proof.
  induction fuel as [|fuel IH]; intros a h h' Hin E; [done|]. simpl in E. destruct (h !! a) as [c|] eqn:Ha; [|done].
  cbn [mbind option_bind] in E. destruct (unblock_local h tsc c) as [[c' nb]|] eqn:El; [|done]. cbn [mbind option_bind] in E.
  destruct (unblock_local_kind _ _ _ _ _ El) as (Ew & Ep & Ek & Eleaf & Elim).
  set (h1 := <[a := set_blocked nb c']> h) in *.
  assert (U1 : undisturbed a h h1).
  { intros x cx Hx. unfold h1. destruct (decide (a = x)) as [<-|Hne].
    - rewrite lookup_insert_eq. rewrite Ha in Hx. injection Hx as <-. eexists. split; [done|]. do 2 (split; [done|]). split; [done|].
      intros Hl Hw Hb. simpl. destruct (body c) as [| | |r|] eqn:Eb; try done. rewrite (Elim r eq_refl).
      by rewrite (proj2 (Z.eqb_neq _ _) Hw).
    - rewrite lookup_insert_ne by done. exists cx. split; [done|]. split; [done|]. split; [apply same_kind_refl|]. done. }
  destruct (parent_ c) as [p|] eqn:Epar; [|by injection E as <-]. destruct (negb nb && blocked_ c); [|by injection E as <-].
  destruct (Hin a c p Ha Epar) as (cp & Hp & Hnl).
  assert (Hin1 : inner_parents h1).
  { intros y cy p' Hy Hpy. assert (Hy' : exists cy', h !! y = Some cy' /\ parent_ cy' = Some p').
    { unfold h1 in Hy. destruct (decide (a = y)) as [<-|]; [rewrite lookup_insert_eq in Hy|rewrite lookup_insert_ne in Hy by done; eauto].
      injection Hy as <-. simpl in Hpy. exists c. split; [done|congruence]. }
    destruct Hy' as (cy' & Hy' & Hpy'). destruct (Hin y cy' p' Hy' Hpy') as (cq & Hq & Hnq).
    destruct (U1 p' cq Hq) as (cq' & Hq' & _ & Kq & _). exists cq'. split; [done|]. destruct (body cq), (body cq'); done. }
  pose proof (IH p h1 h' Hin1 E) as U2. intros x cx Hx.
  destruct (U1 x cx Hx) as (c1 & H1 & W1 & K1 & F1 & B1). destruct (U2 x c1 H1) as (c2 & H2 & W2 & K2 & F2 & B2).
  exists c2. split; [done|]. split; [congruence|]. split; [by eapply same_kind_trans|]. split.
  - intros Hl Hne. pose proof (F1 Hl Hne) as E1. rewrite E1 in *. apply F2; [done|]. intros ->. assert (cx = cp) as -> by congruence. done.
  - intros Hl Hw Hb. apply B2; [by destruct (body cx), (body c1)|congruence|by apply B1].
Qed.

Lemma unblock_leaf tsc fuel a h h' c :
  inner_parents h -> h !! a = Some c -> is_leaf (body c) -> UnblockTowardsRoot fuel tsc a h = Some h' -> blocked_at h' a = false.
Proof.
  intros Hin Ha Hl E. destruct fuel as [|fuel]; [done|]. simpl in E. rewrite Ha in E. cbn [mbind option_bind] in E.
  destruct (unblock_local h tsc c) as [[c' nb]|] eqn:El; [|done]. cbn [mbind option_bind] in E.
  destruct (unblock_local_kind _ _ _ _ _ El) as (_ & _ & _ & Hc & _). specialize (Hc Hl). subst c'.
  assert (nb = false) as ->.
  { unfold unblock_local in El. destruct (guard _); [|done]. cbn [mbind option_bind] in El. destruct (body c); try done. by injection El. }
  set (h1 := <[a := set_blocked false c]> h) in *. assert (Ha1 : h1 !! a = Some (set_blocked false c)) by apply lookup_insert_eq.
  assert (Hb1 : blocked_at h1 a = false) by (unfold blocked_at; by rewrite Ha1).
  destruct (parent_ c) as [p|] eqn:Ep; [|by injection E as <-]. destruct (negb false && blocked_ c); [|by injection E as <-].
  destruct (Hin a c p Ha Ep) as (cp & Hp & Hnl).
  assert (Hpa : a <> p) by (intros ->; congruence).
  assert (Hin1 : inner_parents h1).
  { intros y cy q Hy Hq. assert (Hy' : exists cy', h !! y = Some cy' /\ parent_ cy' = Some q).
    { unfold h1 in Hy. destruct (decide (a = y)) as [<-|]; [rewrite lookup_insert_eq in Hy|rewrite lookup_insert_ne in Hy by done; eauto].
      injection Hy as <-. eauto. }
    destruct Hy' as (cy' & Hy' & Hq'). destruct (Hin y cy' q Hy' Hq') as (cq & Hcq & Hnq). exists cq. split; [|done].
    unfold h1. rewrite lookup_insert_ne; [done|]. intros <-. congruence. }
  destruct (unblock_undisturbed tsc fuel p h1 h' Hin1 E a _ Ha1) as (c2 & Hc2 & _ & _ & F & _).
  rewrite (F Hl Hpa) in Hc2. unfold blocked_at. by rewrite Hc2.
Qed.

(** The classes in the queue are left as they are. *)
Lemma waiting_undisturbed a h h' q : undisturbed a h h' -> a ∉ q -> waiting h q -> waiting h' q.
Proof.
  intros U Hno [Hh Ho Hk]. split; [|done|].
  - apply (heap_ext h); [|done]. intros x Hx. destruct (Hk x Hx) as (c & Hc & _). destruct (U x c Hc) as (c' & Hc' & E & _).
    unfold wakeup_at. by rewrite Hc, Hc'.
  - intros x Hx. destruct (Hk x Hx) as (c & Hc & Hkind & Hb). destruct (U x c Hc) as (c' & Hc' & E & K & F & B).
    exists c'. split; [done|]. split; [by destruct (body c), (body c'), Hkind; simpl in *; auto|]. rewrite E. intros Hw.
    destruct Hkind as [Hl|Hl]; [|by apply B; auto]. rewrite F; [auto|done|]. by intros ->.
Qed.

(** ** Accounting *)

Lemma finish_local_kind h c child usage tsc c' wake :
  finish_local h c child usage tsc = Some (c', wake) ->
  parent_ c' = parent_ c /\ same_kind (body c) (body c') /\
  (is_leaf (body c) -> wake = false /\ c' = add_usage usage c) /\
  (wake = true -> is_limiter (body c) /\ blocked_ c' = true).
Proof.
  unfold finish_local, Priority_Finish, WeightedFair_Finish, RoundRobin_Finish, RateLimit_Finish. cbn zeta.
  change (body (add_usage usage c)) with (body c). destruct (body c) as [f ch|r run bl all|n run bl all|r|w] eqn:Eb.
  - case_guard; [|done]. cbn [mbind option_bind]. case_match; intros [= <- <-]; simpl; rewrite ?Eb; done.
  - case_guard; [|done]. cbn [mbind option_bind]. destruct run as [|x run]; [done|]. case_match.
    + destruct (pop wf_lt (x :: run)) as [run'|]; [|done]. cbn [mbind option_bind]. intros [= <- <-]. simpl. done.
    + match goal with |- context [decrease_key_top wf_lt ?v] => destruct (decrease_key_top wf_lt v) as [run'|] end; [|done].
      cbn [mbind option_bind]. intros [= <- <-]. simpl. done.
  - destruct (guard (live _ _)); [|done]. cbn [mbind option_bind]. case_match.
    + destruct (guard (_ < _)%nat); [|done]. cbn [mbind option_bind]. intros [= <- <-]. simpl. done.
    + intros [= <- <-]. simpl. done.
  - case_guard; [|done]. cbn [mbind option_bind]. destruct (consume r _ tsc) as [[r' throttled] wake'] eqn:Ec.
    assert (Ech : child_ r' = child_ r) by (unfold consume in Ec; case_match; injection Ec as <- _ _; done).
    assert (Eth : wake' <> None -> throttled = true).
    { unfold consume in Ec. case_match; injection Ec as _ <- <-; [done|]. done. }
    intros [= <- <-]. split; [by destruct throttled, wake'|]. split; [by destruct throttled, wake'|]. split; [done|].
    intros Hw. split; [done|]. destruct wake' as [t|]; [|done]. rewrite Eth by done. done.
  - intros [= <- <-]. simpl. rewrite Eb. done.
Qed.

Lemma waiting_insert h q a c c' :
  h !! a = Some c -> a ∉ q \/ (wakeup_time_ c' = wakeup_time_ c /\ blocked_ c' = blocked_ c /\ same_kind (body c) (body c')) ->
  waiting h q -> waiting (<[a := c']> h) q.
Proof.
  intros Ha Hor [Hh Ho Hk]. split; [|done|].
  - apply (heap_ext h); [|done]. intros x Hx. unfold wakeup_at. destruct (decide (a = x)) as [<-|]; [|by rewrite lookup_insert_ne].
    rewrite lookup_insert_eq, Ha. by destruct Hor as [|[-> _]].
  - intros x Hx. destruct (Hk x Hx) as (cx & Hcx & Hkind & Hb). destruct (decide (a = x)) as [<-|].
    + rewrite lookup_insert_eq. exists c'. split; [done|]. destruct Hor as [|(-> & -> & K)]; [done|].
      assert (cx = c) as -> by congruence. split; [|done]. destruct (body c), (body c'), Hkind; simpl in *; auto.
    + rewrite lookup_insert_ne by done. eauto.
Qed.

(** A blocked class, with its new time, joins the queue. *)
Lemma waiting_push h q a c q' :
  h !! a = Some c -> a ∉ q -> is_leaf (body c) \/ is_limiter (body c) -> blocked_ c = true -> waiting h q ->
  wakeup_add h a q = Some q' -> waiting h q' /\ q' ≡ₚ a :: q.
Proof.
  intros Ha Hno Hkind Hb [Hh Ho Hk] E. destruct (push_ok (wake_lt h) a q Hh) as (q1 & E1 & H1 & P). unfold wakeup_add in E.
  assert (q1 = q') as -> by congruence. split; [|done]. split; [done|rewrite P; by constructor|].
  intros x. rewrite P. intros [->|Hx]%elem_of_cons; [|by apply Hk]. by exists c.
Qed.

Lemma finish_waiting usage tsc fuel : forall q a child h h' q',
  NoDup (path_up fuel h a) -> waiting h q ->
  (forall x, x ∈ path_up fuel h a -> x ∉ q \/ exists c, h !! x = Some c /\ is_leaf (body c)) ->
  FinishAndAccountTowardsRoot fuel q a child usage tsc h = Some (h', q') -> waiting h' q'.
Proof.
  induction fuel as [|fuel IH]; intros q a child h h' q' Hnd W Hpath E; [done|]. cbn [FinishAndAccountTowardsRoot path_up] in *.
  destruct (h !! a) as [c|] eqn:Ha; [|done]. cbn [mbind option_bind] in E.
  destruct (finish_local h c child usage tsc) as [[c' wake]|] eqn:El; [|done]. cbn [mbind option_bind] in E.
  destruct (finish_local_kind _ _ _ _ _ _ _ El) as (Ep & K & Hleaf & Hwake). set (h1 := <[a := c']> h) in *.
  assert (Ha1 : h1 !! a = Some c') by apply lookup_insert_eq.
  assert (Ha0 : a ∉ q \/ is_leaf (body c)).
  { destruct (Hpath a) as [?|(c2 & Hc2 & ?)]; [by left|by left|right]. congruence. }
  assert (W1 : waiting h1 q).
  { apply (waiting_insert h q a c); [done| |done]. destruct Ha0 as [?|Hl]; [by left|right]. by destruct (Hleaf Hl) as [_ ->]. }
  destruct (if wake then wakeup_add h1 a q else Some q) as [q1|] eqn:Eq; [|done]. cbn [mbind option_bind] in E.
  assert (H1 : waiting h1 q1 /\ (q1 = q \/ q1 ≡ₚ a :: q)).
  { destruct wake; [|injection Eq as <-; auto]. destruct (Hwake eq_refl) as [Hlim Hb].
    destruct (waiting_push h1 q a c' q1) as [W2 P]; try done; [|right; by destruct (body c), (body c')|auto].
    destruct Ha0 as [|Hl]; [done|]. by destruct (body c). }
  destruct H1 as [W2 Hq1]. destruct (parent_ c) as [p|] eqn:Epar; [|by injection E as <- <-].
  apply NoDup_cons in Hnd as [Hnot Hnd].
  assert (Epath : path_up fuel h1 p = path_up fuel h p) by (apply (path_up_insert fuel h a c); [done|congruence]).
  apply (IH q1 p a h1 h' q'); [by rewrite Epath|done| |done]. rewrite Epath. intros x Hx.
  assert (Hxa : x <> a) by (by intros ->). destruct (Hpath x) as [Hno|(cx & Hcx & Hl)]; [by right| |].
  - left. destruct Hq1 as [->|P]; [done|]. rewrite P. set_solver.
  - right. exists cx. unfold h1. by rewrite lookup_insert_ne.
Qed.
