(* ===== verification/TrafficProps.v ===== *)
(** * The tree of traffic classes: specification and proofs

    In a tree at rest every class knows its state ([node_ok]): the lists of
    runnable and blocked children agree with the children themselves, and a class
    is blocked exactly when nothing below it can run.  The operations change one
    class at a time on the way to the root, and at each step exactly one class
    is stale. *)

From Stdlib Require Import SpecFloat.
From stdpp Require Import strings.
From S2P Require Import Prelude Pool Ledger Shapers PrioQueue TrafficClass Scheduler TrafficWake.

Definition unblocked (h : store) (a : addr) : Prop := blocked_at h a = false.
Definition is_blocked (h : store) (a : addr) : Prop := blocked_at h a = true.

(** What a class knows of its children. *)
Definition node_ok (h : store) (c : TrafficClass) : Prop :=
  match body c with
  | Priority f children => (f <= length children)%nat /\
      (forall i d, (i < f)%nat -> children !! i = Some d -> is_blocked h d.2) /\
      (forall d, children !! f = Some d -> unblocked h d.2) /\
      blocked_ c = bool_decide (f = length children)
  | WeightedFair _ runnable blocked _ =>
      Forall (unblocked h) (map wc runnable) /\ Forall (is_blocked h) (map wc blocked) /\
      blocked_ c = bool_decide (runnable = [])
  | RoundRobin n runnable blocked _ =>
      Forall (unblocked h) runnable /\ Forall (is_blocked h) blocked /\
      blocked_ c = bool_decide (runnable = []) /\ (n < Nat.max 1 (length runnable))%nat
  | RateLimit r =>
      blocked_ c = false -> wakeup_time_ c = 0 /\ exists k, child_ r = Some k /\ unblocked h k
  | Leaf _ => True
  end.

(** The same when children may have become unblocked since. *)
Definition node_weak (h : store) (c : TrafficClass) : Prop :=
  match body c with
  | Priority f children => blocked_ c = false -> exists d, d ∈ children /\ unblocked h d.2
  | WeightedFair _ runnable blocked _ =>
      Forall (unblocked h) (map wc runnable) /\ (blocked_ c = false -> runnable <> [])
  | RoundRobin n runnable blocked _ =>
      Forall (unblocked h) runnable /\ (blocked_ c = false -> runnable <> []) /\
      (n < Nat.max 1 (length runnable))%nat
  | _ => node_ok h c
  end.

(** Parents and children point to each other, and the depth of a class is less
    than the number of classes. *)
Record tree_ok (h : store) (depth : addr -> nat) : Prop := {
  t_kid : forall a c k, h !! a = Some c -> k ∈ kids (body c) ->
    exists ck, h !! k = Some ck /\ parent_ ck = Some a /\ depth k = S (depth a);
  t_parent : forall k ck a, h !! k = Some ck -> parent_ ck = Some a ->
    exists c, h !! a = Some c /\ k ∈ kids (body c);
  t_depth : forall a c, h !! a = Some c -> (depth a < base.size h)%nat;
  t_nodup : forall a c, h !! a = Some c -> NoDup (kids (body c))
}.

(** The same classes with the same links. *)
Definition same_links (h h' : store) : Prop :=
  forall a, match h !! a, h' !! a with
            | Some c, Some c' => parent_ c' = parent_ c /\ kids (body c') ≡ₚ kids (body c)
            | None, None => True
            | _, _ => False
            end.

Definition at_rest (h : store) : Prop := forall a c, h !! a = Some c -> node_ok h c.

(** ** Lemmas *)

Lemma blocked_insert h a c x :
  blocked_at (<[a := c]> h) x = if decide (a = x) then blocked_ c else blocked_at h x.
Proof.
  unfold blocked_at. destruct (decide (a = x)) as [<-|]; [by rewrite lookup_insert_eq|by rewrite lookup_insert_ne].
Qed.

Lemma same_links_refl h : same_links h h.
Proof. intros a. by destruct (h !! a). Qed.

Lemma same_links_trans h1 h2 h3 : same_links h1 h2 -> same_links h2 h3 -> same_links h1 h3.
Proof.
  intros H12 H23 a. specialize (H12 a). specialize (H23 a).
  destruct (h1 !! a), (h2 !! a), (h3 !! a); try done.
  destruct H12 as [E1 P1], H23 as [E2 P2]. split; [congruence|by rewrite P2].
Qed.

Lemma same_links_insert h a c c' :
  h !! a = Some c -> parent_ c' = parent_ c -> kids (body c') ≡ₚ kids (body c) -> same_links h (<[a := c']> h).
Proof.
  intros Ha Hp Hk b. destruct (decide (a = b)) as [<-|].
  - by rewrite lookup_insert_eq, Ha.
  - rewrite lookup_insert_ne by done. by destruct (h !! b).
Qed.

Lemma same_links_back h h' a c' :
  same_links h h' -> h' !! a = Some c' ->
  exists c, h !! a = Some c /\ parent_ c' = parent_ c /\ kids (body c') ≡ₚ kids (body c).
Proof. intros H Ha. specialize (H a). rewrite Ha in H. destruct (h !! a); [eauto|done]. Qed.

Lemma same_links_size h h' : same_links h h' -> base.size h' = base.size h.
Proof.
  intros H. rewrite <- !size_dom. f_equal. apply set_eq. intros a. rewrite !elem_of_dom. specialize (H a).
  destruct (h !! a), (h' !! a); try done; split; intros [? ?]; done.
Qed.

Lemma tree_links h h' depth : same_links h h' -> tree_ok h depth -> tree_ok h' depth.
Proof.
  intros H [Tk Tp Td Tn]. split.
  - intros a c' k Ha Hk. destruct (same_links_back _ _ _ _ H Ha) as (c & Hc & _ & Ek). rewrite Ek in Hk.
    destruct (Tk a c k Hc Hk) as (ck & Hck & Hp & Hd). specialize (H k). rewrite Hck in H.
    destruct (h' !! k) as [ck'|]; [|done]. exists ck'. destruct H as [-> _]. done.
  - intros k ck' a Hk Hp. destruct (same_links_back _ _ _ _ H Hk) as (ck & Hck & Ep & _). rewrite Ep in Hp.
    destruct (Tp k ck a Hck Hp) as (c & Hc & Hin). specialize (H a). rewrite Hc in H.
    destruct (h' !! a) as [c'|]; [|done]. exists c'. destruct H as [_ ->]. done.
  - intros a c' Ha. destruct (same_links_back _ _ _ _ H Ha) as (c & Hc & _). rewrite (same_links_size _ _ H). eauto.
  - intros a c' Ha. destruct (same_links_back _ _ _ _ H Ha) as (c & Hc & _ & ->). eauto.
Qed.

Lemma live_kids h depth a c : tree_ok h depth -> h !! a = Some c -> live h (kids (body c)).
Proof.
  intros T Ha. apply Forall_forall. intros k Hk. destruct (t_kid _ _ T a c k Ha Hk) as (ck & -> & _). eauto.
Qed.

(** The children of two classes are different. *)
Lemma kid_unique h depth a b ca cb k :
  tree_ok h depth -> h !! a = Some ca -> h !! b = Some cb -> k ∈ kids (body ca) -> k ∈ kids (body cb) -> a = b.
Proof.
  intros T Ha Hb Hka Hkb. destruct (t_kid _ _ T a ca k Ha Hka) as (ck & Hk & Hp & _).
  destruct (t_kid _ _ T b cb k Hb Hkb) as (ck' & Hk' & Hp' & _). congruence.
Qed.

(** Only the children matter. *)
Lemma node_ok_ext h h' c :
  (forall k, k ∈ kids (body c) -> blocked_at h' k = blocked_at h k) -> node_ok h c -> node_ok h' c.
Proof.
  unfold node_ok, unblocked, is_blocked. destruct (body c) as [f ch|r run bl all|n run bl all|r|w]; simpl; intros Hk.
  - intros (H1 & H2 & H3 & H4). split; [done|]. split; [|split; [|done]].
    + intros i d Hi Hd. rewrite Hk; [eauto|]. apply list_elem_of_fmap. exists d. split; [done|]. by eapply list_elem_of_lookup_2.
    + intros d Hd. rewrite Hk; [eauto|]. apply list_elem_of_fmap. exists d. split; [done|]. by eapply list_elem_of_lookup_2.
  - rewrite map_app in Hk. intros (H1 & H2 & H3). split; [|split; [|done]].
    + apply Forall_forall. intros x Hx. rewrite Hk by (apply elem_of_app; by left). by eapply Forall_forall in H1.
    + apply Forall_forall. intros x Hx. rewrite Hk by (apply elem_of_app; by right). by eapply Forall_forall in H2.
  - intros (H1 & H2 & H3). split; [|split; [|done]].
    + apply Forall_forall. intros x Hx. rewrite Hk by (apply elem_of_app; by left). by eapply Forall_forall in H1.
    + apply Forall_forall. intros x Hx. rewrite Hk by (apply elem_of_app; by right). by eapply Forall_forall in H2.
  - intros H Hb. destruct (H Hb) as (? & k & E & ?). split; [done|]. exists k. split; [done|]. rewrite Hk; [done|].
    rewrite E. by apply list_elem_of_singleton.
  - done.
Qed.

(** When children have become unblocked, the class is stale but not wrong. *)
Lemma node_ok_weak h h' c :
  (forall k, blocked_at h k = false -> blocked_at h' k = false) -> node_ok h c -> node_weak h' c.
Proof.
  unfold node_ok, node_weak, unblocked. intros Hk.
  assert (HF : forall l, Forall (fun a => blocked_at h a = false) l -> Forall (fun a => blocked_at h' a = false) l).
  { intros l Hl. eapply Forall_impl; eauto. }
  unfold node_ok. destruct (body c) as [f ch|r run bl all|n run bl all|r|w]; simpl.
  - intros (H1 & H2 & H3 & H4) Hb. rewrite Hb in H4. symmetry in H4. apply bool_decide_eq_false in H4.
    destruct (lookup_lt_is_Some_2 ch f ltac:(lia)) as [d Hd]. exists d.
    split; [by eapply list_elem_of_lookup_2|]. apply Hk. by apply H3.
  - intros (H1 & H2 & ->). split; [auto|]. by intros ?%bool_decide_eq_false.
  - intros (H1 & H2 & -> & H4). split; [auto|]. split; [|done]. by intros ?%bool_decide_eq_false.
  - intros H Hb. destruct (H Hb) as (? & k & ? & ?). split; [done|]. exists k. split; [done|]. by apply Hk.
  - done.
Qed.

Lemma skip_blocked_ok h l n :
  let f := skip_blocked h l n in
  (n <= f <= n + length l)%nat /\
  (forall i d, (n + i < f)%nat -> l !! i = Some d -> is_blocked h d.2) /\
  (forall i d, (n + i = f)%nat -> l !! i = Some d -> unblocked h d.2).
Proof.
  revert n. induction l as [|[p k] l IH]; intros n; simpl; [split; [lia|split; intros ? ? ? Hd; done]|].
  destruct (blocked_at h k) eqn:E.
  - destruct (IH (S n)) as (H1 & H2 & H3). split; [lia|]. split.
    + intros [|i] d Hi Hd; simplify_eq/=; [done|]. apply (H2 i); [lia|done].
    + intros [|i] d Hi Hd; simplify_eq/=; [lia|]. apply (H3 i); [lia|done].
  - split; [lia|]. split; [intros; lia|]. intros [|i] d Hi Hd; simplify_eq/=; [done|lia].
Qed.

(** A class whose children are blocked up to [f] after the search from [f]. *)
Lemma skip_from h (ch : list (Z * addr)) f :
  (f <= length ch)%nat -> (forall i d, (i < f)%nat -> ch !! i = Some d -> is_blocked h d.2) ->
  let f' := skip_blocked h (drop f ch) f in
  (f' <= length ch)%nat /\ (forall i d, (i < f')%nat -> ch !! i = Some d -> is_blocked h d.2) /\
  (forall d, ch !! f' = Some d -> unblocked h d.2).
Proof.
  intros Hf Hlow f'. destruct (skip_blocked_ok h (drop f ch) f) as (H1 & H2 & H3).
  fold f' in H1, H2, H3. rewrite length_drop in H1. split; [lia|]. split.
  - intros i d Hi Hd. destruct (decide (i < f)%nat); [by apply (Hlow i)|].
    apply (H2 (i - f)%nat); [lia|]. rewrite lookup_drop. rewrite <- Hd. f_equal. lia.
  - intros d Hd. apply (H3 (f' - f)%nat); [lia|]. rewrite lookup_drop. rewrite <- Hd. f_equal. lia.
Qed.

(** ** One class *)

Lemma wf_unblock_ok h blocked : forall runnable,
  Forall (unblocked h) (map wc runnable) ->
  exists run blk, wf_unblock h runnable blocked = Some (run, blk) /\
    map wc (run ++ blk) ≡ₚ map wc (runnable ++ blocked) /\
    Forall (unblocked h) (map wc run) /\ Forall (is_blocked h) (map wc blk) /\ (runnable <> [] -> run <> []).
Proof.
  induction blocked as [|x blocked IH]; intros runnable H; simpl; [by eauto 10|].
  destruct (blocked_at h (wc x)) eqn:E.
  - destruct (IH runnable H) as (run & blk & -> & P & Hr & Hb & Hne). cbn [mbind option_bind].
    exists run, (x :: blk). split; [done|]. split; [|split; [done|split; [by constructor|done]]].
    rewrite !map_app in *. simpl. rewrite <- !Permutation_middle. by rewrite P.
  - destruct (push_perm wf_lt (WFChild (stride x) (dbl_add (NextPass runnable) (pass x)) (wc x)) runnable)
      as (run1 & -> & P1). cbn [mbind option_bind].
    assert (P1' : map wc run1 ≡ₚ wc x :: map wc runnable) by (by rewrite P1).
    destruct (IH run1) as (run & blk & -> & P & Hr & Hb & Hne); [rewrite P1'; by constructor|].
    exists run, blk. split; [done|]. split; [|split; [done|split; [done|]]].
    + rewrite P, !map_app, P1'. simpl. by rewrite <- Permutation_middle.
    + intros _. apply Hne. intros ->. by apply Permutation_nil_cons in P1'.
Qed.

Lemma rr_unblock_ok h blocked : forall runnable,
  Forall (unblocked h) runnable ->
  let '(run, blk) := rr_unblock h runnable blocked in
  run ++ blk ≡ₚ runnable ++ blocked /\ Forall (unblocked h) run /\ Forall (is_blocked h) blk /\
  (length runnable <= length run)%nat.
Proof.
  induction blocked as [|x blocked IH]; intros runnable H; simpl; [done|].
  destruct (blocked_at h x) eqn:E.
  - specialize (IH runnable H). destruct (rr_unblock h runnable blocked) as [run blk].
    destruct IH as (P & Hr & Hb & Hl). split; [|split; [done|split; [by constructor|done]]].
    rewrite <- !Permutation_middle. by rewrite P.
  - specialize (IH (runnable ++ [x])). destruct (rr_unblock h (runnable ++ [x]) blocked) as [run blk].
    destruct IH as (P & Hr & Hb & Hl); [apply Forall_app; split; [done|by constructor]|].
    rewrite length_app in Hl. simpl in Hl. split; [|split; [done|split; [done|lia]]].
    by rewrite P, <- app_assoc.
Qed.

Lemma unblock_local_ok h tsc c :
  live h (kids (body c)) -> node_weak h c ->
  exists c' nb, unblock_local h tsc c = Some (c', nb) /\
    parent_ c' = parent_ c /\ kids (body c') ≡ₚ kids (body c) /\
    node_ok h (set_blocked nb c') /\ (blocked_ c = false -> nb = false).
Proof.
  intros Hl Hw. unfold unblock_local, Priority_Unblock, WeightedFair_Unblock, RoundRobin_Unblock, RateLimit_Unblock, child_blocked. rewrite option_guard_True by done. cbn [mbind option_bind].
  unfold node_weak, node_ok in *. destruct (body c) as [f ch|r run bl all|n run bl all|r|w] eqn:Eb.
  - pose proof (skip_from h ch O ltac:(lia) ltac:(lia)) as (H1 & H2 & H3). rewrite drop_0 in *.
    set (f' := skip_blocked h ch 0) in *.
    eexists _, _. split; [reflexivity|]. split; [done|]. split; [done|]. split.
    + simpl. split; [done|]. split; [done|]. split; [done|]. apply bool_decide_ext. lia.
    + intros Hb. destruct (Hw Hb) as (d & Hd & Hu). apply bool_decide_eq_false. intros Hf.
      apply list_elem_of_lookup in Hd as [i Hi]. pose proof (lookup_lt_Some _ _ _ Hi).
      specialize (H2 i d ltac:(lia) Hi). unfold unblocked, is_blocked in *. congruence.
  - destruct Hw as [Hr Hb]. destruct (wf_unblock_ok h bl run Hr) as (run' & bl' & -> & P & Hr' & Hb' & Hne).
    cbn [mbind option_bind]. eexists _, _. split; [reflexivity|]. split; [done|].
    split; [exact P|]. split; [done|]. intros E. apply bool_decide_eq_false. auto.
  - destruct Hw as (Hr & Hb & Hn). pose proof (rr_unblock_ok h bl run Hr) as P.
    destruct (rr_unblock h run bl) as [run' bl']. destruct P as (P & Hr' & Hb' & Hlen).
    eexists _, _. split; [reflexivity|]. split; [done|]. split; [exact P|]. split.
    + simpl. split; [done|]. split; [done|]. split; [done|lia].
    + intros E. apply Hb in E. apply bool_decide_eq_false. destruct run, run'; simpl in *; done || lia.
  - eexists _, _. split; [reflexivity|]. split; [done|]. split; [done|]. split.
    + simpl. intros H. apply orb_false_iff in H as [H1 H2]. apply negb_false_iff, Z.eqb_eq in H1.
      split; [done|]. destruct (child_ r) as [k|]; [by exists k|done].
    + intros Hb. destruct (Hw Hb) as (-> & k & -> & Hk). by rewrite Hk.
  - eexists _, _. split; [reflexivity|]. split; [done|]. split; [by rewrite Eb|].
    split; [|done]. simpl. by rewrite Eb.
Qed.

(** The child a class that is not blocked picks can be run. *)
Lemma picked_ok h c :
  node_ok h c -> blocked_ c = false -> (forall w, body c <> Leaf w) ->
  exists k, PickNextChild (body c) = Some k /\ k ∈ kids (body c) /\ unblocked h k.
Proof.
  intros Hn Hb Hleaf. unfold node_ok in Hn. destruct (body c) as [f ch|r run bl all|n run bl all|r|w]; simpl.
  - destruct Hn as (H1 & H2 & H3 & H4). rewrite Hb in H4. symmetry in H4. apply bool_decide_eq_false in H4.
    destruct (lookup_lt_is_Some_2 ch f ltac:(lia)) as [d Hd]. exists d.2. rewrite Hd. split; [done|].
    split; [|by apply H3]. apply list_elem_of_fmap. exists d. split; [done|]. by eapply list_elem_of_lookup_2.
  - destruct Hn as (H1 & H2 & H3). rewrite Hb in H3. symmetry in H3. apply bool_decide_eq_false in H3.
    destruct run as [|x run]; [done|]. exists (wc x). split; [done|]. simpl in *.
    split; [by left|]. by apply Forall_cons in H1 as [? _].
  - destruct Hn as (H1 & H2 & H3 & H4). rewrite Hb in H3. symmetry in H3. apply bool_decide_eq_false in H3.
    destruct (lookup_lt_is_Some_2 run n) as [k Hk]; [destruct run; simpl in *; [done|lia]|].
    exists k. split; [done|]. split; [apply elem_of_app; left; by eapply list_elem_of_lookup_2|].
    eapply Forall_lookup_1 in H1; eauto.
  - destruct (Hn Hb) as (_ & k & -> & Hk). exists k. split; [done|]. split; [by apply list_elem_of_singleton|done].
  - by destruct (Hleaf w).
Qed.

(** ** Unblocking towards the root *)

Lemma own_kid h depth a c : tree_ok h depth -> h !! a = Some c -> a ∉ kids (body c).
Proof. intros T Ha Hin. destruct (t_kid _ _ T a c a Ha Hin) as (_ & _ & _ & Hd). lia. Qed.

(** A class that is not the parent of [a] does not see what happens to [a]. *)
Lemma node_ok_other h depth a ca c' b cb :
  tree_ok h depth -> h !! a = Some ca -> h !! b = Some cb -> parent_ ca <> Some b \/ blocked_ c' = blocked_ ca ->
  node_ok h cb -> node_ok (<[a := c']> h) cb.
Proof.
  intros T Ha Hb Hor. apply node_ok_ext. intros k Hk. rewrite blocked_insert.
  destruct (decide (a = k)) as [<-|]; [|done]. destruct Hor as [Hp|Hbl].
  - destruct (t_kid _ _ T b cb a Hb Hk) as (ck & Hck & Hpk & _). congruence.
  - unfold blocked_at. by rewrite Ha.
Qed.

Lemma node_ok_self h depth a c c' :
  tree_ok h depth -> h !! a = Some c -> kids (body c') ≡ₚ kids (body c) -> node_ok h c' -> node_ok (<[a := c']> h) c'.
Proof.
  intros T Ha Ek. apply node_ok_ext. intros k Hk. rewrite blocked_insert. rewrite Ek in Hk.
  destruct (decide (a = k)) as [<-|]; [|done]. by destruct (own_kid _ _ _ _ T Ha).
Qed.

(** A rate limiter whose time is over can run if its child can. *)
Definition exact (h : store) (x : addr) : Prop :=
  forall c r, h !! x = Some c -> body c = RateLimit r -> wakeup_time_ c = 0 -> blocked_ c = child_blocked h r.

Lemma child_blocked_insert h a c' r :
  child_blocked (<[a := c']> h) r = if decide (child_ r = Some a) then blocked_ c' else child_blocked h r.
Proof.
  unfold child_blocked. destruct (child_ r) as [k|]; [|by rewrite decide_False]. rewrite blocked_insert.
  destruct (decide (a = k)) as [->|]; [by rewrite decide_True|]. by rewrite decide_False by congruence.
Qed.

(** Other classes than the parent do not see it, and the parent does not if nothing changes. *)
Lemma exact_other h depth a c c' x :
  tree_ok h depth -> h !! a = Some c -> x <> a -> parent_ c <> Some x \/ blocked_ c' = blocked_ c ->
  exact h x -> exact (<[a := c']> h) x.
Proof.
  intros T Ha Hne Hor He cx r Hx Hr Hw. rewrite lookup_insert_ne in Hx by done. rewrite (He cx r Hx Hr Hw), child_blocked_insert.
  case_decide as Hk; [|done]. destruct Hor as [Hp|Hb].
  - destruct (t_kid _ _ T x cx a Hx) as (ck & Hck & Hpk & _); [rewrite Hr; simpl; rewrite Hk; by left|]. congruence.
  - rewrite Hb. unfold child_blocked, blocked_at. by rewrite Hk, Ha.
Qed.

Lemma exact_self h depth tsc a c c' nb :
  tree_ok h depth -> h !! a = Some c -> unblock_local h tsc c = Some (c', nb) -> exact (<[a := set_blocked nb c']> h) a.
Proof.
  intros T Ha El c1 r'. rewrite lookup_insert_eq. intros [= <-] Hr Hw. simpl in Hr, Hw.
  destruct (unblock_local_kind _ _ _ _ _ El) as (Ew & _ & K & _ & Elim). rewrite Hr in K.
  destruct (body c) as [| | |r|] eqn:Eb; try done. simpl in K. simpl. rewrite (Elim r eq_refl).
  rewrite <- Ew, Hw. cbn [negb orb Z.eqb]. rewrite child_blocked_insert. unfold child_blocked. rewrite K.
  case_decide as Hk; [|done]. exfalso. apply (own_kid h depth a c T Ha). rewrite Eb. simpl. rewrite Hk. by left.
Qed.

Lemma unblock_ok depth tsc : forall fuel a h,
  tree_ok h depth -> (depth a < fuel)%nat -> is_Some (h !! a) ->
  (forall b c, b <> a -> h !! b = Some c -> node_ok h c) ->
  (forall c, h !! a = Some c -> node_weak h c) ->
  exists h', UnblockTowardsRoot fuel tsc a h = Some h' /\ same_links h h' /\ at_rest h' /\
    (forall x, blocked_at h x = false -> blocked_at h' x = false) /\
    (forall x, x = a \/ exact h x -> exact h' x).
Proof.
  induction fuel as [|fuel IH]; intros a h T Hd [c Ha] Hother Hself; [lia|]. simpl. rewrite Ha. cbn [mbind option_bind].
  destruct (unblock_local_ok h tsc c (live_kids _ _ _ _ T Ha) (Hself c Ha)) as (c' & nb & El & Ep & Ek & Hok & Hnb).
  pose proof (exact_self h depth tsc a c c' nb T Ha El) as X0. rewrite El.
  cbn [mbind option_bind]. set (c1 := set_blocked nb c') in *. set (h1 := <[a := c1]> h) in *.
  assert (X1 : forall x, parent_ c <> Some x \/ nb = blocked_ c -> x = a \/ exact h x -> exact h1 x).
  { intros x Hor Hx. destruct (decide (x = a)) as [->|Hne]; [done|]. destruct Hx as [|Hx]; [done|]. by apply (exact_other h depth a c). }
  assert (L1 : same_links h h1) by (by apply (same_links_insert h a c)).
  pose proof (tree_links _ _ _ L1 T) as T1.
  assert (M1 : forall x, blocked_at h x = false -> blocked_at h1 x = false).
  { intros x Hx. unfold h1. rewrite blocked_insert. destruct (decide (a = x)) as [<-|]; [|done].
    unfold blocked_at in Hx. rewrite Ha in Hx. simpl. auto. }
  assert (S1 : forall c2, h1 !! a = Some c2 -> node_ok h1 c2).
  { intros c2 Hc2. unfold h1 in Hc2. rewrite lookup_insert_eq in Hc2. injection Hc2 as <-. by eapply node_ok_self. }
  assert (R1 : forall b cb, b <> a -> parent_ c <> Some b \/ nb = blocked_ c -> h1 !! b = Some cb -> node_ok h1 cb).
  { intros b cb Hne Hor Hb. unfold h1 in Hb. rewrite lookup_insert_ne in Hb by done.
    apply (node_ok_other h depth a c c1 b cb T Ha Hb Hor). by apply (Hother b). }
  destruct (parent_ c) as [p|] eqn:Epar.
  2: { exists h1. split; [done|]. split; [done|]. split; [|split; [done|intros x; apply X1; by left]]. intros b cb Hb.
       destruct (decide (b = a)) as [->|]; [auto|]. apply (R1 b); auto. }
  destruct (negb nb && blocked_ c) eqn:Ebec.
  - apply andb_true_iff in Ebec as [En Eb]. apply negb_true_iff in En.
    destruct (t_parent _ _ T a c p Ha Epar) as (cp & Hp & Hin).
    destruct (t_kid _ _ T p cp a Hp Hin) as (_ & _ & _ & Edp).
    assert (Hpa : p <> a) by (intros ->; lia).
    destruct (IH p h1 T1) as (h' & -> & L2 & R2 & M2 & X2).
    + lia.
    + unfold h1. rewrite lookup_insert_ne by done. eauto.
    + intros b cb Hne Hb. destruct (decide (b = a)) as [->|Hba]; [auto|]. apply (R1 b cb Hba); [left; congruence|done].
    + intros cp' Hcp'. unfold h1 in Hcp'. rewrite lookup_insert_ne in Hcp' by done.
      apply (node_ok_weak h); [done|]. by apply (Hother p).
    + exists h'. split; [done|]. split; [by eapply same_links_trans|]. split; [done|]. split; [auto|].
      intros x Hx. apply X2. destruct (decide (x = p)) as [->|Hxp]; [by left|right]. apply X1; [left; congruence|done].
  - assert (Enb : nb = blocked_ c).
    { destruct (blocked_ c) eqn:Eb; [|by apply Hnb]. by rewrite andb_true_r in Ebec; apply negb_false_iff in Ebec. }
    exists h1. split; [done|]. split; [done|]. split; [|split; [done|intros x; apply X1; by right]]. intros b cb Hb.
    destruct (decide (b = a)) as [->|]; [auto|]. apply (R1 b); [done|by right|done].
Qed.

(** [UnblockTowardsRoot] of a class in a tree at rest leaves it at rest. *)
Lemma unblock_rest depth tsc a h :
  tree_ok h depth -> at_rest h -> is_Some (h !! a) ->
  exists h', UnblockTowardsRoot (depth_bound h) tsc a h = Some h' /\ same_links h h' /\ at_rest h' /\
    (forall x, blocked_at h x = false -> blocked_at h' x = false) /\ (forall x, x = a \/ exact h x -> exact h' x) /\
    undisturbed a h h'.
Proof.
  intros T R [c Ha]. destruct (unblock_ok depth tsc (depth_bound h) a h) as (h' & E & L & R' & M & X); eauto.
  - pose proof (t_depth _ _ T a c Ha). unfold depth_bound. lia.
  - intros c' Hc'. apply (node_ok_weak h); eauto.
  - exists h'. do 5 (split; [done|]). apply (unblock_undisturbed tsc (depth_bound h)); [|done].
    intros b cb p Hb Hp. destruct (t_parent _ _ T b cb p Hb Hp) as (cp & Hcp & Hin). exists cp. split; [done|].
    destruct (body cp); simpl in *; set_solver.
Qed.

(** ** Waking up *)

Lemma tree_inner h depth : tree_ok h depth -> inner_parents h.
Proof.
  intros T b cb p Hb Hp. destruct (t_parent _ _ T b cb p Hb Hp) as (cp & Hcp & Hin). exists cp. split; [done|].
  destruct (body cp); simpl in *; set_solver.
Qed.

Lemma awake_exact h x : awake h x -> exact h x.
Proof. intros (c & Hc & Hw & Hb) c' r Hc' Hr _. assert (c' = c) as -> by congruence. by rewrite Hr in Hb. Qed.

(** A class that was awake stays so while others are woken. *)
Lemma awake_unblock h h' a x :
  x <> a -> undisturbed a h h' -> (exact h x -> exact h' x) -> awake h x -> awake h' x.
Proof.
  intros Hne U X Haw. pose proof (awake_exact h x Haw) as He. destruct Haw as (c & Hc & Hw & Hb).
  destruct (U x c Hc) as (c' & Hc' & Ew & K & F & _). exists c'. split; [done|]. split; [congruence|].
  destruct (body c) as [| | |r|] eqn:Eb; try done.
  - destruct (body c') as [| | |r'|] eqn:Eb'; try done. exact (X He c' r' Hc' Eb' ltac:(congruence)).
  - by rewrite (F I Hne), Eb.
Qed.

(** The class that is woken. *)
Lemma woken_awake h h' tsc a c fuel :
  inner_parents h -> h !! a = Some c -> is_leaf (body c) \/ is_limiter (body c) -> wakeup_time_ c = 0 ->
  UnblockTowardsRoot fuel tsc a h = Some h' -> exact h' a -> awake h' a.
Proof.
  intros Hin Ha Hkind Hw E X. destruct (unblock_undisturbed tsc fuel a h h' Hin E a c Ha) as (c' & Hc' & Ew & K & _).
  exists c'. split; [done|]. split; [congruence|]. destruct Hkind as [Hl|Hl].
  - pose proof (unblock_leaf tsc fuel a h h' c Hin Ha Hl E) as Hb. unfold blocked_at in Hb. rewrite Hc' in Hb.
    by destruct (body c), (body c').
  - destruct (body c) as [| | |r|] eqn:Eb; try done. destruct (body c') as [| | |r'|] eqn:Eb'; try done.
    exact (X c' r' Hc' Eb' ltac:(congruence)).
Qed.

Lemma wake_loop_ok depth tsc : forall n q h,
  tree_ok h depth -> at_rest h -> waiting h q -> (length q < n)%nat ->
  exists h' q' woken, wake_loop n tsc h q = Some (h', q') /\ same_links h h' /\ at_rest h' /\ waiting h' q' /\
    q ≡ₚ woken ++ q' /\
    (forall a, a ∈ woken -> wakeup_at h a < tsc /\ awake h' a) /\
    (forall a, a ∈ q' -> wakeup_at h' a = wakeup_at h a /\ tsc <= wakeup_at h' a) /\
    (forall x, blocked_at h x = false -> blocked_at h' x = false) /\
    (forall x, x ∉ q -> awake h x -> awake h' x).
Proof.
  induction n as [|n IH]; intros q h T R W Hn; [lia|]. destruct q as [|a q]; cbn [wake_loop top head].
  { exists h, [], []. split; [done|]. split; [apply same_links_refl|]. do 3 (split; [done|]).
    split; [by intros ? ?%elem_of_nil|]. split; [by intros ? ?%elem_of_nil|done]. }
  destruct (w_kind _ _ W a) as (c & Ha & Hkind & _); [by left|]. rewrite Ha. cbn [mbind option_bind].
  destruct (Z.ltb_spec (wakeup_time_ c) tsc) as [Hlt|Hge].
  2: { exists h, (a :: q), []. split; [done|]. split; [apply same_links_refl|]. do 3 (split; [done|]).
       split; [by intros ? ?%elem_of_nil|]. split; [|done]. intros b Hb. split; [done|].
       pose proof (queue_first h a q b (w_heap _ _ W) Hb) as Hf. unfold wakeup_at in Hf at 1. rewrite Ha in Hf. lia. }
  destruct (pop_ok (wake_lt h) a q (w_heap _ _ W)) as (q1 & -> & Hheap & P1). cbn [mbind option_bind].
  set (c0 := set_wakeup 0 c). set (h1 := <[a := c0]> h).
  pose proof (w_once _ _ W) as Hnd. apply NoDup_cons in Hnd as [Hno Hnd].
  assert (W1 : waiting h1 q1).
  { apply (waiting_insert h q1 a c); [done|left; by rewrite P1|]. split; [done|by rewrite P1|].
    intros x Hx. apply (w_kind _ _ W). right. by rewrite P1 in Hx. }
  assert (L1 : same_links h h1) by (by apply (same_links_insert h a c)).
  assert (B1 : forall x, blocked_at h1 x = blocked_at h x).
  { intros x. unfold h1. rewrite blocked_insert. case_decide as E; [|done]. subst x. unfold blocked_at. by rewrite Ha. }
  assert (R1 : at_rest h1).
  { intros b cb Hb. unfold h1 in *. destruct (decide (a = b)) as [<-|Hne].
    - rewrite lookup_insert_eq in Hb. injection Hb as <-. apply (node_ok_self h depth a c); [done|done|done|].
      pose proof (R a c Ha) as Hc. unfold node_ok in *. unfold c0. simpl.
      destruct (body c); try done. intros Hbl. by destruct (Hc Hbl).
    - rewrite lookup_insert_ne in Hb by done. exact (node_ok_other h depth a c c0 b cb T Ha Hb (or_intror eq_refl) (R b cb Hb)). }
  replace (depth_bound h) with (depth_bound h1) by (unfold depth_bound; f_equal; by apply same_links_size).
  assert (Ha1 : h1 !! a = Some c0) by apply lookup_insert_eq. pose proof (tree_links _ _ _ L1 T) as T1.
  destruct (unblock_rest depth (wakeup_time_ c) a h1 T1 R1 ltac:(eauto)) as (h2 & E2 & L2 & R2 & M2 & X2 & U2).
  rewrite E2. cbn [mbind option_bind]. pose proof (same_links_trans _ _ _ L1 L2) as L12.
  assert (K1 : forall x, x <> a -> wakeup_at h2 x = wakeup_at h x).
  { intros x Hx. transitivity (wakeup_at h1 x); [|unfold wakeup_at, h1; by rewrite lookup_insert_ne].
    unfold wakeup_at. destruct (h1 !! x) as [cx|] eqn:Hx1; [by destruct (U2 x cx Hx1) as (c' & -> & -> & _)|].
    specialize (L2 x). rewrite Hx1 in L2. by destruct (h2 !! x). }
  destruct (IH q1 h2 (tree_links _ _ _ L12 T) R2) as (h' & q' & wk & -> & L3 & R3 & W3 & Hwk & Hw & Hq & M3 & A3).
  - apply (waiting_undisturbed a h1); [done|by rewrite P1|done].
  - rewrite P1. simpl in Hn. lia.
  - exists h', q', (a :: wk). split; [done|]. split; [by eapply same_links_trans|]. do 2 (split; [done|]).
    split; [simpl; by rewrite <- Hwk, P1|].
    assert (Hin : forall x, x ∈ wk ++ q' -> x <> a) by (intros x Hx ->; rewrite <- Hwk, P1 in Hx; done).
    split; [|split; [|split]].
    + intros x [->|Hx]%elem_of_cons.
      * split; [unfold wakeup_at; by rewrite Ha|]. apply A3; [by rewrite P1|].
        apply (woken_awake h1 h2 (wakeup_time_ c) a c0 _ (tree_inner _ _ T1) Ha1 Hkind eq_refl E2). apply X2. by left.
      * destruct (Hw x Hx) as [Hlt' Haw]. split; [|done]. rewrite K1 in Hlt'; [done|]. apply Hin. set_solver.
    + intros x Hx. destruct (Hq x Hx) as [Eq Hle]. split; [|done]. rewrite Eq. apply K1, Hin. set_solver.
    + intros x Hx. apply M3, M2. by rewrite B1.
    + intros x Hx Haw. apply A3; [rewrite P1; set_solver|]. apply (awake_unblock h1 h2 a x); [set_solver|done|auto|].
      destruct Haw as (cx & Hcx & Hwx & Hbx). exists cx. unfold h1. rewrite lookup_insert_ne by set_solver.
      split; [done|]. split; [done|]. destruct (body cx) as [| | |r|]; try done. rewrite Hbx. fold h1.
      unfold child_blocked. destruct (child_ r); [|done]. by rewrite B1.
Qed.

(** ** Choosing a leaf *)

(** The classes above [a] can run and have chosen the one below. *)
Inductive chosen (h : store) : addr -> Prop :=
  | chosen_root a c : h !! a = Some c -> parent_ c = None -> chosen h a
  | chosen_kid a c p cp : h !! a = Some c -> parent_ c = Some p -> h !! p = Some cp ->
      PickNextChild (body cp) = Some a -> blocked_ cp = false -> chosen h p -> chosen h a.

Lemma pick_leaf_ok h depth : tree_ok h depth -> at_rest h ->
  forall fuel a, chosen h a -> unblocked h a -> is_Some (h !! a) -> (base.size h < fuel + depth a)%nat ->
  exists l c w, pick_leaf fuel h a = Some l /\ h !! l = Some c /\ body c = Leaf w /\ blocked_ c = false /\ chosen h l.
Proof.
  intros T R. induction fuel as [|fuel IH]; intros a Hch Hu [c Ha] Hf.
  { pose proof (t_depth _ _ T a c Ha). lia. }
  cbn [pick_leaf]. rewrite Ha. cbn [mbind option_bind]. unfold unblocked, blocked_at in Hu. rewrite Ha in Hu.
  assert (Hk : (exists w, body c = Leaf w) \/ forall w, body c <> Leaf w) by (destruct (body c); eauto).
  destruct Hk as [[w Hw]|Hnl]; [rewrite Hw; eauto 10|].
  destruct (picked_ok h c (R a c Ha) Hu Hnl) as (k & Ek & Hin & Hku).
  destruct (t_kid _ _ T a c k Ha Hin) as (ck & Hck & Hp & Hd).
  destruct (IH k) as (l & cl & w & E & Hl); [by eapply chosen_kid|done|eauto|lia|].
  exists l, cl, w. split; [|done].
  destruct (body c) as [| | | |w']; [..|by destruct (Hnl w')]; rewrite Ek; exact E.
Qed.

Lemma chosen_insert h depth a c' p :
  tree_ok h depth -> chosen h p -> (depth p < depth a)%nat -> chosen (<[a := c']> h) p.
Proof.
  intros T. induction 1 as [b c Hb Hp|b c p cp Hb Hp Hcp Hpick Hbl Hch IH]; intros Hd.
  - apply (chosen_root _ b c); [|done]. rewrite lookup_insert_ne; [done|intros ->; lia].
  - destruct (t_parent _ _ T b c p Hb Hp) as (c2 & Hc2 & Hin). destruct (t_kid _ _ T p c2 b Hc2 Hin) as (_ & _ & _ & E).
    apply (chosen_kid _ b c p cp); try done; [rewrite lookup_insert_ne; [done|intros ->; lia]..|]. apply IH. lia.
Qed.

(** ** Accounting *)

(** A class whose chosen child has run: before, the child could run. *)
Definition node_stale (h : store) (c : TrafficClass) (child : addr) : Prop :=
  blocked_ c = false /\ PickNextChild (body c) = Some child /\
  exists ck, h !! child = Some ck /\ node_ok (<[child := set_blocked false ck]> h) c.

Lemma opened_unblocked h k ck x :
  h !! k = Some ck -> blocked_at (<[k := set_blocked false ck]> h) x = if decide (k = x) then false else blocked_at h x.
Proof. intros _. by rewrite blocked_insert. Qed.

Lemma opened_blocked h k ck l :
  h !! k = Some ck -> Forall (is_blocked (<[k := set_blocked false ck]> h)) l -> Forall (is_blocked h) l.
Proof.
  intros Hk H. eapply Forall_impl; [exact H|]. intros x. unfold is_blocked. rewrite (opened_unblocked _ _ _ _ Hk). by case_decide.
Qed.

Lemma opened_others h k ck l :
  h !! k = Some ck -> k ∉ l -> Forall (unblocked (<[k := set_blocked false ck]> h)) l -> Forall (unblocked h) l.
Proof.
  intros Hk Hnot H. apply Forall_forall. intros x Hx. pose proof (proj1 (Forall_forall _ _) H x Hx) as Hu.
  unfold unblocked in *. rewrite (opened_unblocked _ _ _ _ Hk) in Hu. by case_decide; [subst|].
Qed.

Lemma finish_local_ok h c child usage tsc :
  live h (kids (body c)) -> NoDup (kids (body c)) -> node_stale h c child ->
  exists c' wake, finish_local h c child usage tsc = Some (c', wake) /\ parent_ c' = parent_ c /\
    usage_ c' = ACCUMULATE (usage_ c) usage /\ kids (body c') ≡ₚ kids (body c) /\ node_ok h c'.
Proof.
  intros Hl Hnd (Hb & Hpick & ck & Hck & Hn). unfold finish_local, Priority_Finish, WeightedFair_Finish, RoundRobin_Finish, RateLimit_Finish. cbn zeta.
  change (body (add_usage usage c)) with (body c).
  assert (Hl' : live h (child :: kids (body c))) by (constructor; [eauto|done]).
  assert (Hsame : blocked_at h child = false -> node_ok h c).
  { intros E. revert Hn. apply node_ok_ext. intros x _. rewrite (opened_unblocked _ _ _ _ Hck).
    by case_decide; [subst|]. }
  unfold node_ok in Hn. destruct (body c) as [f ch|r run bl all|n run bl all|r|w] eqn:Eb.
  - rewrite option_guard_True by done. cbn [mbind option_bind].
    destruct (blocked_at h child) eqn:Ec.
    + destruct Hn as (H1 & H2 & H3 & H4). eexists _, _. split; [reflexivity|]. do 3 (split; [done|]).
      destruct (skip_from h ch f H1) as (K1 & K2 & K3).
      { intros i d Hi Hd. specialize (H2 i d Hi Hd). unfold is_blocked in *.
        rewrite (opened_unblocked _ _ _ _ Hck) in H2. by case_decide. }
      unfold node_ok. simpl. auto.
    + eexists _, _. split; [reflexivity|]. do 2 (split; [done|]). split; [simpl; by rewrite Eb|].
      specialize (Hsame eq_refl). unfold node_ok in *. simpl. rewrite Eb in *. done.
  - rewrite option_guard_True by done. cbn [mbind option_bind].
    destruct Hn as (H1 & H2 & H3). destruct run as [|x run]; [done|]. simpl in Hpick. injection Hpick as Hx.
    simpl in Hnd. apply NoDup_cons in Hnd as [Hx1 Hnd]. rewrite map_app, Hx in Hx1.
    simpl in H1. apply Forall_cons in H1 as [_ H1]. apply (opened_others _ _ _ _ Hck) in H1; [|set_solver].
    apply (opened_blocked _ _ _ _ Hck) in H2.
    destruct (blocked_at h child) eqn:Ec.
    + destruct (pop_perm wf_lt x run) as (run' & -> & P). cbn [mbind option_bind].
      eexists _, _. split; [reflexivity|]. do 2 (split; [done|]). split.
      * simpl. rewrite P, !map_app. simpl. rewrite app_assoc. by rewrite Permutation_app_comm.
      * unfold node_ok. simpl. split; [by rewrite P|]. split; [|done]. rewrite map_app. apply Forall_app. split; [done|].
        constructor; [by rewrite Hx|constructor].
    + match goal with |- context [decrease_key_top wf_lt ?v] => destruct (decrease_key_top_perm wf_lt v) as (run' & -> & P) end.
      cbn [mbind option_bind]. assert (P' : map wc run' ≡ₚ wc x :: map wc run) by (by rewrite P).
      eexists _, _. split; [reflexivity|]. do 2 (split; [done|]). split.
      * simpl. rewrite !map_app, P'. done.
      * unfold node_ok. simpl. split; [rewrite P'; constructor; [by rewrite Hx|done]|]. split; [done|].
        rewrite Hb. symmetry. apply bool_decide_eq_false. intros ->. by apply Permutation_nil_cons in P'.
  - rewrite option_guard_True by done. cbn [mbind option_bind].
    destruct Hn as (H1 & H2 & H3 & H4). simpl in Hpick. pose proof (lookup_lt_Some _ _ _ Hpick) as Hlt.
    destruct (blocked_at h child) eqn:Ec.
    + rewrite option_guard_True by done. cbn [mbind option_bind]. simpl in Hnd.
      pose proof (delete_Permutation _ _ _ Hpick) as P. rewrite P in Hnd, H1. simpl in Hnd.
      apply NoDup_cons in Hnd as [Hx1 Hnd]. apply Forall_cons in H1 as [_ H1].
      apply (opened_others _ _ _ _ Hck) in H1; [|set_solver]. apply (opened_blocked _ _ _ _ Hck) in H2.
      eexists _, _. split; [reflexivity|]. do 2 (split; [done|]). split.
      * simpl. rewrite app_assoc, Permutation_app_comm. simpl. rewrite app_comm_cons. by rewrite <- P.
      * unfold node_ok. simpl. split; [done|]. split; [apply Forall_app; split; [done|by constructor]|].
        split; [done|]. case_decide; lia.
    + specialize (Hsame eq_refl). unfold node_ok in Hsame. rewrite Eb in Hsame. destruct Hsame as (S1 & S2 & S3 & S4).
      eexists _, _. split; [reflexivity|]. do 3 (split; [done|]). unfold node_ok. simpl.
      do 3 (split; [done|]). case_decide; lia.
  - rewrite option_guard_True by (constructor; [eauto|constructor]). cbn [mbind option_bind].
    destruct (Hn Hb) as (Hw & k & Hk & _). simpl in Hpick. rewrite Hk in Hpick. injection Hpick as ->.
    unfold consume. destruct (_ <? to_work_units _).
    + eexists _, _. split; [reflexivity|]. destruct (limit_ r =? 0); simpl;
        (split; [done|]; split; [done|]; split; [done|]; unfold node_ok; simpl; done).
    + eexists _, _. split; [reflexivity|]. do 3 (split; [done|]). unfold node_ok. simpl. rewrite Hb.
      intros E. simpl in E. split; [done|]. exists child. done.
  - done.
Qed.

(** The classes on the way up are not deeper. *)
Lemma path_up_depth h depth fuel : tree_ok h depth -> forall a x, x ∈ path_up fuel h a -> x = a \/ (depth x < depth a)%nat.
Proof.
  intros T. induction fuel as [|fuel IH]; intros a x Hx; [set_solver|]. simpl in Hx.
  apply elem_of_cons in Hx as [->|Hx]; [by left|right].
  destruct (h !! a) as [c|] eqn:Ha; [|set_solver]. destruct (parent_ c) as [p|] eqn:Ep; [|set_solver].
  destruct (t_parent _ _ T a c p Ha Ep) as (cp & Hp & Hin). destruct (t_kid _ _ T p cp a Hp Hin) as (_ & _ & _ & Ed).
  destruct (IH p x Hx) as [->|]; lia.
Qed.

(** What was used is charged to the classes of [path], once each. *)
Definition charged (u : resource_arr) (path : list addr) (h h' : store) : Prop :=
  forall x c, h !! x = Some c -> exists c', h' !! x = Some c' /\
    usage_ c' = if decide (x ∈ path) then ACCUMULATE (usage_ c) u else usage_ c.

Lemma live_links h h' l : same_links h h' -> live h l -> live h' l.
Proof.
  intros L H. eapply Forall_impl; [exact H|]. intros x [c Hx]. specialize (L x). rewrite Hx in L. destruct (h' !! x); [eauto|done].
Qed.

Lemma tree_finish_ok depth usage tsc : forall fuel q a child h c,
  tree_ok h depth -> (depth a < fuel)%nat -> live h q -> h !! a = Some c -> chosen h a ->
  (forall b cb, b <> a -> h !! b = Some cb -> node_ok (<[a := set_blocked false c]> h) cb) ->
  (exists w, body c = Leaf w) \/ node_stale h c child ->
  exists h' q', FinishAndAccountTowardsRoot fuel q a child usage tsc h = Some (h', q') /\
    same_links h h' /\ at_rest h' /\ live h' q' /\ charged usage (path_up fuel h a) h h' /\ q ⊆ q' /\
    (forall x, x ∉ path_up fuel h a -> h' !! x = h !! x) /\
    (forall w, body c = Leaf w -> h' !! a = Some (add_usage usage c)).
Proof.
  induction fuel as [|fuel IH]; intros q a child h c T Hd Hq Ha Hch Hother Hself; [lia|].
  cbn [FinishAndAccountTowardsRoot]. rewrite Ha. cbn [mbind option_bind].
  assert (exists c' wake, finish_local h c child usage tsc = Some (c', wake) /\ parent_ c' = parent_ c /\
    usage_ c' = ACCUMULATE (usage_ c) usage /\ kids (body c') ≡ₚ kids (body c) /\ node_ok h c' /\
    (forall w, body c = Leaf w -> c' = add_usage usage c))
    as (c' & wake & -> & Ep & Eu & Ek & Hok & Eleaf).
  { destruct Hself as [[w Hw]|Hs].
    - unfold finish_local. cbn zeta. change (body (add_usage usage c)) with (body c). rewrite Hw. eexists _, _. split; [reflexivity|]. simpl. rewrite Hw.
      do 3 (split; [done|]). split; [|done]. unfold node_ok. simpl. by rewrite Hw.
    - destruct (finish_local_ok h c child usage tsc) as (c' & wake & ? & ? & ? & ? & ?);
        [by eapply live_kids|by eapply t_nodup|done|]. exists c', wake. do 5 (split; [done|]). intros w Hw.
      destruct Hs as (_ & Hpick & _). by rewrite Hw in Hpick. }
  cbn [mbind option_bind]. set (h1 := <[a := c']> h).
  assert (L1 : same_links h h1) by (by apply (same_links_insert h a c)).
  pose proof (tree_links _ _ _ L1 T) as T1.
  assert (exists q1, (if wake then wakeup_add h1 a q else Some q) = Some q1 /\ live h1 q1 /\ q ⊆ q1)
    as (q1 & -> & Hq1 & Hsub).
  { apply (live_links _ _ _ L1) in Hq. destruct wake; [|eauto].
    destruct (push_perm (wake_lt h1) a q) as (q1 & E & P). exists q1. split; [exact E|]. unfold live. rewrite P.
    split; [|by apply list_subseteq_cons]. constructor; [|done]. unfold h1. rewrite lookup_insert_eq. eauto. }
  cbn [mbind option_bind].
  assert (S1 : node_ok h1 c') by (by eapply node_ok_self).
  assert (U1 : charged usage [a] h h1).
  { intros x cx Hx. unfold h1. destruct (decide (a = x)) as [<-|].
    - rewrite lookup_insert_eq, decide_True by set_solver. rewrite Ha in Hx. injection Hx as <-. eauto.
    - rewrite lookup_insert_ne, decide_False by (done || set_solver). eauto. }
  destruct (parent_ c) as [p|] eqn:Epar.
  2: { exists h1, q1. split; [done|]. split; [done|]. split; [|split; [done|split; [|split; [done|split]]]].
       - intros b cb Hb. unfold h1 in Hb. destruct (decide (a = b)) as [<-|Hne].
         + rewrite lookup_insert_eq in Hb. by injection Hb as <-.
         + rewrite lookup_insert_ne in Hb by done. specialize (Hother b cb ltac:(done) Hb). revert Hother.
           apply node_ok_ext. intros k Hk. unfold h1. rewrite !blocked_insert. case_decide as Hak; [|done].
           destruct (t_kid _ _ T b cb k Hb Hk) as (ck & Hck & Hpk & _). simplify_eq.
       - cbn [path_up]. rewrite Ha, Epar. exact U1.
       - intros x Hx. apply lookup_insert_ne. cbn [path_up] in Hx. set_solver.
       - intros w Hw. unfold h1. by rewrite lookup_insert_eq, (Eleaf w Hw). }
  destruct (t_parent _ _ T a c p Ha Epar) as (cp & Hp & Hin).
  destruct (t_kid _ _ T p cp a Hp Hin) as (_ & _ & _ & Edp).
  assert (Hpa : p <> a) by (intros ->; lia).
  inversion Hch as [? c2 Hc2 Hpn|? c2 p2 cp2 Hc2 Hp2 Hcp2 Hpick Hbl Hchp]; simplify_eq.
  assert (Hp1 : h1 !! p = Some cp) by (unfold h1; by rewrite lookup_insert_ne).
  destruct (IH q1 p a h1 cp T1) as (h' & q' & -> & L2 & R2 & Hq2 & U2 & Hsub2 & O2 & _).
  - lia.
  - done.
  - done.
  - apply (chosen_insert h depth); [done|done|lia].
  - intros b cb Hne Hb. unfold h1 in Hb. destruct (decide (a = b)) as [<-|Hab].
    + rewrite lookup_insert_eq in Hb. injection Hb as <-. revert S1. apply node_ok_ext. intros k Hk.
      rewrite blocked_insert. case_decide as Hpk; [|done]. subst k. unfold blocked_at. by rewrite Hp1.
    + rewrite lookup_insert_ne in Hb by done. specialize (Hother b cb ltac:(done) Hb). revert Hother.
      apply node_ok_ext. intros k Hk. rewrite blocked_insert. case_decide as Hpk.
      { subst k. rewrite blocked_insert, decide_False by done. unfold blocked_at. by rewrite Hp. }
      unfold h1. rewrite !blocked_insert. case_decide as Hak; [|done]. subst k.
      destruct Hne. exact (kid_unique h depth b p cb cp a T Hb Hp Hk Hin).
  - right. split; [done|]. split; [done|]. exists c'. unfold h1. rewrite lookup_insert_eq. split; [done|].
    specialize (Hother p cp Hpa Hp). rewrite insert_insert_eq. revert Hother. apply node_ok_ext. intros k Hk.
    by rewrite !blocked_insert.
  - exists h', q'. split; [done|]. split; [by eapply same_links_trans|]. split; [done|]. split; [done|].
    assert (Epath : path_up fuel h1 p = path_up fuel h p) by (apply (path_up_insert fuel h a c); [done|congruence]).
    rewrite Epath in U2, O2.
    assert (Hnot : a ∉ path_up fuel h p).
    { intros Hin'. destruct (path_up_depth h depth fuel T p a Hin') as [->|]; [done|lia]. }
    split; [|split; [by etrans|split]].
    + cbn [path_up]. rewrite Ha, Epar. intros x cx Hx. destruct (U1 x cx Hx) as (c1 & Hc1 & E1).
      destruct (U2 x c1 Hc1) as (c2 & Hc2' & E2). exists c2. split; [done|]. rewrite E2, E1.
      destruct (decide (x = a)) as [->|Hxa].
      * rewrite (decide_True (P := a ∈ [a])), (decide_True (P := a ∈ a :: _)) by set_solver. by rewrite decide_False.
      * rewrite (decide_False (P := x ∈ [a])) by set_solver. apply decide_ext. set_solver.
    + cbn [path_up]. rewrite Ha, Epar. intros x Hx. rewrite O2 by set_solver. apply lookup_insert_ne. set_solver.
    + intros w Hw. rewrite O2 by done. unfold h1. by rewrite lookup_insert_eq, (Eleaf w Hw).
Qed.

Lemma chosen_self h depth a c c' :
  tree_ok h depth -> chosen h a -> h !! a = Some c -> parent_ c' = parent_ c -> chosen (<[a := c']> h) a.
Proof.
  intros T Hch Ha Ep. inversion Hch as [? c2 Hc2 Hpn|? c2 p cp Hc2 Hp Hcp Hpick Hbl Hchp]; simplify_eq.
  - apply (chosen_root _ a c'); [by rewrite lookup_insert_eq|congruence].
  - destruct (t_parent _ _ T a c p Ha Hp) as (c2 & Hc2' & Hin).
    destruct (t_kid _ _ T p c2 a Hc2' Hin) as (_ & _ & _ & Ed).
    apply (chosen_kid _ a c' p cp); [by rewrite lookup_insert_eq|congruence| |done|done|].
    + rewrite lookup_insert_ne; [done|intros ->; lia].
    + apply (chosen_insert h depth); [done|done|lia].
Qed.

(** From a leaf that was chosen in a tree at rest, whatever the scheduler has done
    to the leaf meanwhile. *)
Lemma finish_leaf depth usage tsc h q a c w c1 w1 :
  tree_ok h depth -> at_rest h -> live (<[a := c1]> h) q -> h !! a = Some c -> chosen h a -> blocked_ c = false ->
  body c = Leaf w -> body c1 = Leaf w1 -> parent_ c1 = parent_ c ->
  exists h' q', FinishAndAccountTowardsRoot (depth_bound (<[a := c1]> h)) q a a usage tsc (<[a := c1]> h) = Some (h', q') /\
    same_links h h' /\ at_rest h' /\ live h' q' /\
    charged usage (path_up (depth_bound h) h a) (<[a := c1]> h) h' /\ q ⊆ q' /\
    (forall x, x ∉ path_up (depth_bound h) h a -> h' !! x = h !! x) /\ h' !! a = Some (add_usage usage c1).
Proof.
  intros T R Hq Ha Hch Hb Hw Hw1 Ep.
  assert (L : same_links h (<[a := c1]> h)) by (apply (same_links_insert h a c); [done|done|by rewrite Hw, Hw1]).
  pose proof (tree_links _ _ _ L T) as T1.
  destruct (tree_finish_ok depth usage tsc (depth_bound (<[a := c1]> h)) q a a (<[a := c1]> h) c1 T1)
    as (h' & q' & E & L2 & R2 & Hq2 & U2 & Hsub & O2 & Eleaf).
  - pose proof (t_depth _ _ T1 a c1 (lookup_insert_eq _ _ _)). unfold depth_bound. lia.
  - done.
  - by rewrite lookup_insert_eq.
  - by eapply chosen_self.
  - intros b cb Hne Hx. rewrite lookup_insert_ne in Hx by done. rewrite insert_insert_eq.
    pose proof (R b cb Hx) as Hok. revert Hok. apply node_ok_ext. intros k Hk. rewrite blocked_insert.
    case_decide as Hak; [|done]. subst k. unfold blocked_at. by rewrite Ha.
  - left. eauto.
  - assert (Hd : depth_bound (<[a := c1]> h) = depth_bound h) by (unfold depth_bound; f_equal; by apply same_links_size).
    rewrite Hd in *. rewrite (path_up_insert (depth_bound h) h a c c1 a Ha Ep) in U2, O2.
    exists h', q'. split; [exact E|]. split; [by eapply same_links_trans|]. do 4 (split; [done|]).
    split; [|eauto]. intros x Hx. rewrite O2 by done. apply lookup_insert_ne. unfold depth_bound in Hx. simpl in Hx. set_solver.
Qed.

(** ** The scheduler *)

Record sched_ok (depth : addr -> nat) (s : Sched) : Prop := {
  s_tree : tree_ok (tcs s) depth;
  s_rest : at_rest (tcs s);
  s_wait : waiting (tcs s) (wakeup_queue_ s);
  s_root : forall r, root_ s = Some r -> exists c, tcs s !! r = Some c /\ parent_ c = None
}.

Lemma waiting_live h q : waiting h q -> live h q.
Proof. intros W. apply Forall_forall. intros x Hx. destruct (w_kind _ _ W x Hx) as (c & -> & _). eauto. Qed.

Lemma sched_links depth s h' q' :
  sched_ok depth s -> same_links (tcs s) h' -> at_rest h' -> waiting h' q' -> sched_ok depth (with_tcs h' q' s).
Proof.
  intros [T R L Hr] Hl R' L'. split; cbn [tcs with_tcs wakeup_queue_ root_]; [by eapply tree_links|done|done|].
  intros r Er. destruct (Hr r Er) as (c & Hc & Hp). specialize (Hl r). rewrite Hc in Hl.
  destruct (h' !! r) as [c'|]; [|done]. exists c'. split; [done|]. by destruct Hl as [-> _].
Qed.

(** The classes whose time is before [tsc], and no others, have left the queue and are
    awake; those that stay keep their times. *)
Definition woken_due (tsc : Z) (s s1 : Sched) : Prop :=
  exists woken, wakeup_queue_ s ≡ₚ woken ++ wakeup_queue_ s1 /\
    (forall a, a ∈ woken -> wakeup_at (tcs s) a < tsc /\ awake (tcs s1) a) /\
    (forall a, a ∈ wakeup_queue_ s1 -> wakeup_at (tcs s1) a = wakeup_at (tcs s) a /\ tsc <= wakeup_at (tcs s1) a).

Lemma wake_ok depth tsc s :
  sched_ok depth s ->
  exists s1, WakeTCs tsc s = Some s1 /\ sched_ok depth s1 /\ root_ s1 = root_ s /\ checkpoint_ s1 = checkpoint_ s /\
    woken_due tsc s s1.
Proof.
  intros S. unfold WakeTCs.
  destruct (wake_loop_ok depth tsc (Datatypes.S (length (wakeup_queue_ s))) (wakeup_queue_ s) (tcs s))
    as (h' & q' & wk & -> & L & R & W & P & Hw & Hq & _); [apply S|apply S|apply S|lia|].
  cbn [mbind option_bind]. eexists. split; [reflexivity|]. split; [by apply sched_links|]. do 2 (split; [done|]).
  by exists wk.
Qed.

(** The leaf [Next] gives, or what it means that there is none. *)
Definition next_leaf (s1 : Sched) (leaf : option addr) : Prop :=
  match leaf with
  | None => forall r, root_ s1 = Some r -> is_blocked (tcs s1) r
  | Some a => exists c w, tcs s1 !! a = Some c /\ body c = Leaf w /\ blocked_ c = false /\ chosen (tcs s1) a
  end.

Lemma tree_next_ok depth tsc s :
  sched_ok depth s ->
  exists s1 leaf, WakeTCs tsc s = Some s1 /\ woken_due tsc s s1 /\ Next tsc s = Some (s1, leaf) /\ sched_ok depth s1 /\
    checkpoint_ s1 = checkpoint_ s /\ next_leaf s1 leaf.
Proof.
  intros S. destruct (wake_ok depth tsc s S) as (s1 & E & S1 & Er & Ec & Hd). exists s1. unfold Next. rewrite E.
  cbn [mbind option_bind]. destruct (root_ s1) as [r|] eqn:Hroot.
  2: { exists None. do 5 (split; [done|]). simpl. by rewrite Hroot. }
  destruct (s_root _ _ S1 r Hroot) as (c & Hc & Hp). rewrite Hc. cbn [mbind option_bind].
  destruct (blocked_ c) eqn:Hb.
  - exists None. do 5 (split; [done|]). simpl. rewrite Hroot. intros r' [= <-]. unfold is_blocked, blocked_at. by rewrite Hc.
  - destruct (pick_leaf_ok (tcs s1) depth (s_tree _ _ S1) (s_rest _ _ S1) (depth_bound (tcs s1)) r)
      as (l & cl & w & -> & Hl & Hw & Hbl & Hch).
    + by eapply chosen_root.
    + unfold unblocked, blocked_at. by rewrite Hc.
    + eauto.
    + unfold depth_bound. lia.
    + exists (Some l). do 5 (split; [done|]). simpl. eauto 10.
Qed.

(** Once the clock runs, a class that is still queued is blocked. *)
Lemma queued_blocked depth tsc s s1 x :
  sched_ok depth s1 -> woken_due tsc s s1 -> 0 < tsc -> x ∈ wakeup_queue_ s1 -> blocked_at (tcs s1) x = true.
Proof.
  intros S1 (wk & _ & _ & Hq) Ht Hx. destruct (w_kind _ _ (s_wait _ _ S1) x Hx) as (c & Hc & _ & Hb).
  destruct (Hq x Hx) as [_ Hle]. unfold wakeup_at in Hle. unfold blocked_at. rewrite Hc in *. apply Hb. lia.
Qed.

(** The classes from a leaf that was chosen to the root can run. *)
Lemma chosen_unblocked h fuel : forall a, chosen h a -> unblocked h a -> forall x, x ∈ path_up fuel h a -> unblocked h x.
Proof.
  induction fuel as [|fuel IH]; intros a Hch Hu x Hx; [set_solver|]. simpl in Hx. apply elem_of_cons in Hx as [->|Hx]; [done|].
  inversion Hch as [? c Hc Hp|? c p cp Hc Hp Hcp Hpick Hbl Hchp]; subst; rewrite Hc, Hp in Hx; [set_solver|].
  apply (IH p); [done| |done]. unfold unblocked, blocked_at. by rewrite Hcp.
Qed.

Lemma path_up_nodup h depth fuel : tree_ok h depth -> forall a, NoDup (path_up fuel h a).
Proof.
  intros T. induction fuel as [|fuel IH]; intros a; [constructor|]. simpl. destruct (h !! a) as [c|] eqn:Ha; [|by apply NoDup_singleton].
  destruct (parent_ c) as [p|] eqn:Ep; [|by apply NoDup_singleton]. apply NoDup_cons. split; [|apply IH]. intros Hin.
  destruct (t_parent _ _ T a c p Ha Ep) as (cp & Hp & Hk). destruct (t_kid _ _ T p cp a Hp Hk) as (_ & _ & _ & Ed).
  destruct (path_up_depth h depth fuel T p a Hin) as [->|]; lia.
Qed.

(** What a round has done to the classes: [c1] is the leaf before accounting. *)
Definition round_done (u : resource_arr) (a : addr) (c1 : TrafficClass) (s1 s' : Sched) : Prop :=
  let path := path_up (depth_bound (tcs s1)) (tcs s1) a in
  charged u path (<[a := c1]> (tcs s1)) (tcs s') /\
  (forall x, x ∉ path -> tcs s' !! x = tcs s1 !! x) /\
  tcs s' !! a = Some (add_usage u c1) /\ wakeup_queue_ s1 ⊆ wakeup_queue_ s'.

Lemma finish_round depth usage now s1 q a c w c1 w1 :
  sched_ok depth s1 -> waiting (<[a := c1]> (tcs s1)) q -> (forall x, x ∈ q -> x = a \/ is_blocked (tcs s1) x) -> wakeup_queue_ s1 ⊆ q ->
  tcs s1 !! a = Some c -> body c = Leaf w -> blocked_ c = false -> chosen (tcs s1) a ->
  body c1 = Leaf w1 -> parent_ c1 = parent_ c ->
  exists h' q', FinishAndAccountTowardsRoot (depth_bound (<[a := c1]> (tcs s1))) q a a usage now
                  (<[a := c1]> (tcs s1)) = Some (h', q') /\ q ⊆ q' /\
    let s' := with_checkpoint now (with_tcs h' q' s1) in sched_ok depth s' /\ round_done usage a c1 s1 s'.
Proof.
  intros S1 Hq Hbl Hsub Ha Hw Hb Hch Hw1 Hp.
  destruct (finish_leaf depth usage now (tcs s1) q a c w c1 w1) as (h' & q' & E & L & R & Lq & U & Hs & O & El);
    [apply S1|apply S1|by apply waiting_live|done..|].
  assert (W : waiting h' q').
  { eapply finish_waiting; [| |  |exact E]; [|done|]; rewrite (path_up_insert _ (tcs s1) a c) by done.
    - apply (path_up_nodup _ depth), S1.
    - intros x Hx. destruct (decide (x = a)) as [->|Hne].
      + right. exists c1. rewrite lookup_insert_eq, Hw1. done.
      + left. intros Hin. destruct (Hbl x Hin) as [|Hbx]; [done|].
        assert (Hu : unblocked (tcs s1) x) by (apply (chosen_unblocked (tcs s1) (depth_bound (<[a := c1]> (tcs s1))) a Hch); [unfold unblocked, blocked_at; by rewrite Ha|exact Hx]).
        unfold unblocked, is_blocked in *. congruence. }
  exists h', q'. split; [exact E|]. split; [done|]. split.
  - pose proof (sched_links depth s1 h' q' S1 L R W) as [? ? ? ?]. by split.
  - split; [done|]. split; [done|]. split; [done|]. by etrans.
Qed.

(** C16. A round of the default scheduler, whose clock is not 0, never faults.  The
    queued classes whose time has passed, and no others, leave the queue and can
    run, a rate limiter as far as its child can; if the root cannot run then, the
    round is idle and is counted as such; otherwise a leaf that can run is run,
    chosen class by class from the root down.  What the run used is charged once to each class from the
    leaf to the root and to no other, and all classes agree with their children
    again. *)
Theorem default_round depth run now s :
  sched_ok depth s -> 0 < checkpoint_ s ->
  exists s1 s' leaf, WakeTCs (checkpoint_ s) s = Some s1 /\ woken_due (checkpoint_ s) s s1 /\ sched_ok depth s1 /\ next_leaf s1 leaf /\
    ScheduleOnce run now s = Some (s', leaf) /\ sched_ok depth s' /\ checkpoint_ s' = now /\
    match leaf with
    | None => s' = idle now s1
    | Some a => exists c, tcs s1 !! a = Some c /\
        round_done (run_usage now (checkpoint_ s) (run a)) a c s1 s'
    end.
Proof.
  intros S H0. destruct (tree_next_ok depth (checkpoint_ s) s S) as (s1 & leaf & Ew & Hd & En & S1 & Ec & Hn).
  unfold ScheduleOnce. rewrite En. cbn [mbind option_bind]. exists s1.
  destruct leaf as [a|].
  2: { exists (idle now s1), None. do 5 (split; [done|]). split; [|done]. by destruct S1. }
  destruct Hn as (c & w & Hc & Hw & Hb & Hch).
  destruct (finish_round depth (run_usage now (checkpoint_ s1) (run a)) now s1 (wakeup_queue_ s1) a c w c w)
    as (h' & q' & E & _ & Hs & Hr); [done|rewrite insert_id by done; apply S1| |done..|].
  { intros x Hx. right. by apply (queued_blocked depth (checkpoint_ s) s). }
  rewrite insert_id in E by done. rewrite E. cbn [mbind option_bind].
  eexists _, (Some a). do 3 (split; [done|]). split; [simpl; eauto 10|]. split; [reflexivity|]. split; [exact Hs|].
  split; [done|]. exists c. split; [done|]. by rewrite <- Ec.
Qed.

(** C17. A round of the experimental scheduler does the same (it wakes, picks a leaf,
    charges and never faults as the default one does), and keeps count of
    how long a leaf has had nothing to do: a leaf whose task ran for nothing is
    blocked and put into the wakeup queue for twice as long as the last time, up
    to [2^20] cycles, and is charged nothing; any other run halves the wait. *)
Theorem experimental_round depth run now s :
  sched_ok depth s -> 0 < checkpoint_ s ->
  exists s1 s' leaf, WakeTCs (checkpoint_ s) s = Some s1 /\ woken_due (checkpoint_ s) s s1 /\ sched_ok depth s1 /\ next_leaf s1 leaf /\
    ScheduleOnceExperimental run now s = Some (s', leaf) /\ sched_ok depth s' /\ checkpoint_ s' = now /\
    match leaf with
    | None => s' = idle now s1
    | Some a => exists c w, tcs s1 !! a = Some c /\ body c = Leaf w /\
        if (tpackets (run a) =? 0) && block (run a) then
          let wait := Z.min (2 ^ 20) (wrap 64 (2 * w)) in
          round_done (Usage 0 0 0 0) a
            (set_wakeup (wrap 64 (now + wait)) (set_blocked true (set_leaf_wait wait c))) s1 s' /\
          a ∈ wakeup_queue_ s'
        else
          round_done (run_usage now (checkpoint_ s) (run a)) a (set_leaf_wait (wrap 64 (w + 1) / 2) c) s1 s'
    end.
Proof.
  intros S H0. destruct (tree_next_ok depth (checkpoint_ s) s S) as (s1 & leaf & Ew & Hd & En & S1 & Ec & Hn).
  unfold ScheduleOnceExperimental. rewrite En. cbn [mbind option_bind]. exists s1.
  destruct leaf as [a|].
  2: { exists (idle now s1), None. do 5 (split; [done|]). split; [|done]. by destruct S1. }
  pose proof Hn as (c & w & Hc & Hw & Hb & Hch). rewrite Hc. cbn [mbind option_bind]. rewrite Hw.
  rewrite (shiftl_pow2 w 1), (shiftr_pow2 _ 1) by lia. change (2 ^ 1) with 2. rewrite (Z.mul_comm w 2).
  change (u64 (2 * w)) with (wrap 64 (2 * w)). change (u64 (w + 1)) with (wrap 64 (w + 1)).
  assert (Hqb : forall x, x ∈ wakeup_queue_ s1 -> is_blocked (tcs s1) x).
  { intros x Hx. by apply (queued_blocked depth (checkpoint_ s) s). }
  assert (Hna : a ∉ wakeup_queue_ s1).
  { intros Hin. specialize (Hqb a Hin). unfold is_blocked, blocked_at in Hqb. rewrite Hc in Hqb. congruence. }
  destruct ((tpackets (run a) =? 0) && block (run a)) eqn:Eidle.
  - set (wait := Z.min kMaxWait (wrap 64 (2 * w))).
    set (c1 := set_wakeup _ _).
    assert (L : same_links (tcs s1) (<[a := c1]> (tcs s1))).
    { apply (same_links_insert _ a c); [done|done|by rewrite Hw]. }
    destruct (push_perm (wake_lt (<[a := c1]> (tcs s1))) a (wakeup_queue_ s1)) as (q1 & E1 & P1).
    assert (W1 : waiting (<[a := c1]> (tcs s1)) q1).
    { apply (waiting_push (<[a := c1]> (tcs s1)) (wakeup_queue_ s1) a c1); [apply lookup_insert_eq|done|left; done|done| |done].
      apply (waiting_insert _ _ a c); [done|by left|apply S1]. }
    unfold wakeup_add. rewrite E1. cbn [mbind option_bind].
    destruct (finish_round depth (Usage 0 0 0 0) now s1 q1 a c w c1 wait) as (h' & q' & -> & Hsub & Hs & Hr);
      [done|done| |by rewrite P1; apply list_subseteq_cons|done..|].
    { intros x Hx. rewrite P1 in Hx. apply elem_of_cons in Hx as [->|Hx]; [by left|right; by apply Hqb]. }
    cbn [mbind option_bind]. eexists _, (Some a). do 4 (split; [done|]). split; [reflexivity|]. split; [exact Hs|].
    split; [done|]. exists c, w. do 2 (split; [done|]). rewrite Eidle. split; [exact Hr|].
    cbn [wakeup_queue_ with_checkpoint with_tcs].
    apply Hsub. rewrite P1. by left.
  - destruct (finish_round depth (run_usage now (checkpoint_ s1) (run a)) now s1 (wakeup_queue_ s1) a c w
      (set_leaf_wait (wrap 64 (w + 1) / 2) c) (wrap 64 (w + 1) / 2)) as (h' & q' & -> & _ & Hs & Hr);
      [done|by apply (waiting_insert _ _ a c); [|left|apply S1]|intros x Hx; right; by apply Hqb|done..|].
    cbn [mbind option_bind]. eexists _, (Some a). do 4 (split; [done|]). split; [reflexivity|]. split; [exact Hs|].
    split; [done|]. exists c, w. do 2 (split; [done|]). rewrite Eidle, <- Ec. exact Hr.
Qed.

(** ** Rate limiting *)

(** Uses of a rate limiter, each of so much at such a time; after a use that was
    too much it is woken when it said.  The answer is the limiter, the work units
    used, and how many uses were too much. *)
Fixpoint limited (r : rate_limit) (l : list (Z * Z)) : rate_limit * Z * Z :=
  match l with
  | [] => (r, 0, 0)
  | (usage, tsc) :: l =>
      let '(r, throttled, wake) := consume r usage tsc in
      let r := match wake with Some t => touch t r | None => r end in
      let '(r, n, k) := limited r l in
      (r, to_work_units usage + n, b2z throttled + k)
  end.

(** The uses come in order of time, and nothing overflows. *)
Fixpoint on_time (r : rate_limit) (l : list (Z * Z)) : Prop :=
  match l with
  | [] => True
  | (usage, tsc) :: l =>
      0 <= usage < 2 ^ 32 /\ last_tsc_ r <= tsc < 2 ^ 63 /\
      tokens_ r + limit_ r * (tsc - last_tsc_ r) < 2 ^ 64 /\ usage * 2 ^ 32 / limit_ r < 2 ^ 63 /\
      let '(r, _, wake) := consume r usage tsc in on_time (match wake with Some t => touch t r | None => r end) l
  end.

Lemma consume_ok r usage tsc :
  0 < limit_ r -> 0 <= tokens_ r <= max_burst_ r -> 0 <= last_tsc_ r -> 0 <= usage < 2 ^ 32 ->
  last_tsc_ r <= tsc < 2 ^ 63 -> tokens_ r + limit_ r * (tsc - last_tsc_ r) < 2 ^ 64 ->
  usage * 2 ^ 32 / limit_ r < 2 ^ 63 ->
  let '(r1, throttled, wake) := consume r usage tsc in
  let r' := match wake with Some t => touch t r1 | None => r1 end in
  limit_ r' = limit_ r /\ max_burst_ r' = max_burst_ r /\ 0 <= tokens_ r' <= max_burst_ r /\ tsc <= last_tsc_ r' /\
  to_work_units usage + tokens_ r' <=
    tokens_ r + limit_ r * (last_tsc_ r' - last_tsc_ r) + b2z throttled * (limit_ r - 1).
Proof.
  intros Hlim Htok Hlast Hu Ht Hov Hdiv. unfold consume.
  assert (Ew : to_work_units usage = usage * 2 ^ 32).
  { unfold to_work_units, kUsageAmplifierPow. rewrite shiftl_pow2 by lia. apply wrap_small. lia. }
  rewrite (wrap_small 64 (tsc - last_tsc_ r)) by lia.
  rewrite (wrap_small 64 (limit_ r * (tsc - last_tsc_ r))) by nia.
  rewrite (wrap_small 64 (tokens_ r + _)) by nia.
  set (have := tokens_ r + limit_ r * (tsc - last_tsc_ r)) in *. rewrite Ew.
  assert (0 <= have) by (unfold have; nia).
  destruct (Z.ltb_spec have (usage * 2 ^ 32)) as [Hlt|Hge].
  - rewrite (proj2 (Z.eqb_neq (limit_ r) 0)) by lia. cbn [touch limit_ max_burst_ tokens_ last_tsc_ b2z].
    assert (Hd : 0 <= (usage * 2 ^ 32 - have) / limit_ r <= usage * 2 ^ 32 / limit_ r).
    { split; [apply Z.div_pos; lia|apply Z.div_le_mono; lia]. }
    rewrite (wrap_small 64) by lia. do 2 (split; [done|]). split; [lia|]. split; [lia|].
    pose proof (div_mul_le (usage * 2 ^ 32 - have) (limit_ r) Hlim). unfold have in *. lia.
  - cbn [limit_ max_burst_ tokens_ last_tsc_ b2z]. do 2 (split; [done|]). unfold have in *. lia.
Qed.

(** C18. A rate limiter lets through no more than its bucket holds and the time
    that has passed allows, but for the remainder of one division each time it
    blocks; the bucket never holds more than the burst. *)
Theorem rate_bound r l :
  0 < limit_ r -> 0 <= tokens_ r <= max_burst_ r -> 0 <= last_tsc_ r -> on_time r l ->
  let '(r', n, k) := limited r l in
  n + tokens_ r' <= tokens_ r + limit_ r * (last_tsc_ r' - last_tsc_ r) + k * (limit_ r - 1) /\
  n <= max_burst_ r + limit_ r * (last_tsc_ r' - last_tsc_ r) + k * (limit_ r - 1) /\
  0 <= tokens_ r' <= max_burst_ r.
Proof.
  revert r. induction l as [|[usage tsc] l IH]; intros r Hlim Htok Hlast; cbn [limited on_time]; [simpl; lia|].
  intros (Hu & Ht & Hov & Hdiv & Hl). pose proof (consume_ok r usage tsc Hlim Htok Hlast Hu Ht Hov Hdiv) as C.
  destruct (consume r usage tsc) as [[r1 throttled] wake]. set (r2 := match wake with Some _ => _ | None => _ end) in *.
  destruct C as (El & Em & Ht2 & Hlast2 & Hc). specialize (IH r2). rewrite El, Em in IH.
  specialize (IH Hlim Ht2 ltac:(lia) Hl). destruct (limited r2 l) as [[r3 n] k]. lia.
Qed.

(** ** Examples *)

Definition demo_tcs : store :=
  <[1%positive := TC "rr" None (Usage 0 0 0 0) 0 0 false (RoundRobin 0 [2]%positive [3]%positive [2; 3]%positive)]>
    (<[2%positive := TC "a" (Some 1%positive) (Usage 0 0 0 0) 0 0 false (Leaf 1)]>
      (<[3%positive := TC "b" (Some 1%positive) (Usage 0 0 0 0) 0 50 true (Leaf 1)]> ∅)).

Definition demo_depth (a : addr) : nat := if decide (a = 1%positive) then 0%nat else 1%nat.

Definition demo_sched : Sched := Sch demo_tcs ∅ (Some 1%positive) None [3%positive] 0 0 100.

Ltac demo_cases H :=
  repeat (apply lookup_insert_Some in H as [[<- <-]|[_ H]]); [..|by rewrite lookup_empty in H].

Lemma demo_sched_ok : sched_ok demo_depth demo_sched.
Proof.
  split; simpl; [split| |split|].
  - intros a c k Ha Hk. unfold demo_tcs in Ha. demo_cases Ha; simpl in Hk; [|set_solver..].
    apply elem_of_cons in Hk as [->|Hk]; [by eexists|]. apply list_elem_of_singleton in Hk as ->. by eexists.
  - intros k ck a Hk Hp. unfold demo_tcs in Hk. demo_cases Hk; simplify_eq/=; (eexists; split; [reflexivity|]; set_solver).
  - intros a c Ha. unfold demo_tcs in Ha. demo_cases Ha; vm_compute; lia.
  - intros a c Ha. unfold demo_tcs in Ha. demo_cases Ha; apply (bool_decide_unpack _); reflexivity.
  - intros a c Ha. unfold demo_tcs in Ha. demo_cases Ha; unfold node_ok; simpl; [|done..].
    split; [repeat constructor|split; [repeat constructor|split; [done|lia]]].
  - intros n i x y Hc Hx Hy. apply lookup_lt_Some in Hx, Hy. simpl in *. unfold child_of in Hc. lia.
  - apply NoDup_singleton.
  - intros x Hx. apply list_elem_of_singleton in Hx as ->. eexists. split; [reflexivity|]. split; [by left|done].
  - intros r [= <-]. by eexists.
Qed.

Definition demo_run (a : addr) : task_result := Task (bool_decide (a = 2%positive)) 0 0.

Lemma default_round_witness :
  exists s1 s' leaf, WakeTCs 100 demo_sched = Some s1 /\ woken_due 100 demo_sched s1 /\ sched_ok demo_depth s1 /\ next_leaf s1 leaf /\
    ScheduleOnce demo_run 130 demo_sched = Some (s', leaf) /\ sched_ok demo_depth s' /\ checkpoint_ s' = 130 /\
    match leaf with
    | None => s' = idle 130 s1
    | Some a => exists c, tcs s1 !! a = Some c /\ round_done (run_usage 130 100 (demo_run a)) a c s1 s'
    end.
Proof. apply (default_round demo_depth demo_run 130 demo_sched); [apply demo_sched_ok|done]. Defined.

Lemma experimental_round_witness :
  exists s1 s' leaf, WakeTCs 100 demo_sched = Some s1 /\ woken_due 100 demo_sched s1 /\ next_leaf s1 leaf /\
    ScheduleOnceExperimental demo_run 130 demo_sched = Some (s', leaf) /\ sched_ok demo_depth s' /\ checkpoint_ s' = 130.
Proof.
  destruct (experimental_round demo_depth demo_run 130 demo_sched demo_sched_ok eq_refl)
    as (s1 & s' & leaf & ? & ? & ? & ? & ? & ? & ? & _). exists s1, s', leaf. auto 10.
Defined.

Definition demo_limit : rate_limit := RL RESOURCE_PACKET (2 ^ 31) 0 (2 ^ 34) 0 (2 ^ 33) 0 None.

Lemma rate_bound_witness :
  on_time demo_limit [(1, 10); (9, 11)] /\
  let '(r', n, k) := limited demo_limit [(1, 10); (9, 11)] in
  n + tokens_ r' <= tokens_ demo_limit + limit_ demo_limit * (last_tsc_ r' - last_tsc_ demo_limit) +
    k * (limit_ demo_limit - 1) /\
  n <= max_burst_ demo_limit + limit_ demo_limit * (last_tsc_ r' - last_tsc_ demo_limit) + k * (limit_ demo_limit - 1) /\
  0 <= tokens_ r' <= max_burst_ demo_limit.
Proof.
  assert (H : on_time demo_limit [(1, 10); (9, 11)]).
  { cbn -[Z.pow Z.mul Z.div]. repeat split; try lia; vm_compute; done. }
  split; [exact H|]. apply (rate_bound demo_limit [(1, 10); (9, 11)]); [done|done|done|exact H].
Defined.
