(* ===== verification/TreeBuild.v ===== *)
(** * Building trees of traffic classes

    [AddChild], [RemoveChild] and [CreateTrafficClass] keep the classes in a
    forest in which every class agrees with its children: what the theorems on the
    scheduler ([TrafficProps.v]) ask for is what these operations build. *)

From Stdlib Require Import SpecFloat.
From stdpp Require Import strings.
From S2P Require Import Prelude Pool Ledger Shapers PrioQueue TrafficClass Scheduler TrafficProps.

(** A forest at rest. *)
Definition well_formed (h : store) : Prop := (exists depth, tree_ok h depth) /\ at_rest h.

(** [x] is [a] or an ancestor of it. *)
Inductive above (h : store) (x : addr) : addr -> Prop :=
  | above_refl : above h x x
  | above_parent a c p : h !! a = Some c -> parent_ c = Some p -> above h x p -> above h x a.

(** ** Depths *)

(** A forest, but for the bound on the depths. *)
Record ranked (h : store) (rank : addr -> nat) : Prop := {
  r_kid : forall a c k, h !! a = Some c -> k ∈ kids (body c) ->
    exists ck, h !! k = Some ck /\ parent_ ck = Some a /\ rank k = S (rank a);
  r_parent : forall k ck a, h !! k = Some ck -> parent_ ck = Some a ->
    exists c, h !! a = Some c /\ k ∈ kids (body c);
  r_nodup : forall a c, h !! a = Some c -> NoDup (kids (body c))
}.

Lemma tree_ranked h depth : tree_ok h depth -> ranked h depth.
Proof. by intros []. Qed.

Definition parent_at (h : store) (a : addr) : option addr := c ← h !! a; parent_ c.

Lemma rank_parent h rank a p : ranked h rank -> parent_at h a = Some p -> rank a = S (rank p) /\ is_Some (h !! p).
Proof.
  unfold parent_at. intros R Hp. destruct (h !! a) as [c|] eqn:Ha; [|done]. cbn in Hp.
  destruct (r_parent _ _ R a c p Ha Hp) as (cp & Hcp & Hin). destruct (r_kid _ _ R p cp a Hcp Hin) as (_ & _ & _ & E). eauto.
Qed.

(** The number of classes above. *)
Fixpoint ups (fuel : nat) (h : store) (a : addr) : nat :=
  match fuel with
  | O => O
  | S fuel => match parent_at h a with Some p => S (ups fuel h p) | None => O end
  end.

Lemma ups_enough h rank : ranked h rank -> forall fuel a, (rank a < fuel)%nat -> ups fuel h a = ups (S (rank a)) h a.
Proof.
  intros R. induction fuel as [|fuel IH]; intros a Hf; [lia|]. cbn [ups].
  destruct (parent_at h a) as [p|] eqn:Ep; [|done]. destruct (rank_parent _ _ _ _ R Ep) as [E _].
  rewrite (IH p) by lia. by rewrite E.
Qed.

Lemma ups_path h rank : ranked h rank -> forall n a, rank a = n -> is_Some (h !! a) ->
  exists l, NoDup l /\ length l = S (ups (S (rank a)) h a) /\ (forall x, x ∈ l -> is_Some (h !! x) /\ (rank x <= rank a)%nat).
Proof.
  intros R. induction n as [|n IH]; intros a Hn Ha; cbn [ups]; destruct (parent_at h a) as [p|] eqn:Ep;
    try (exists [a]; split; [apply NoDup_singleton|]; split; [done|]; by intros x ->%list_elem_of_singleton).
  - destruct (rank_parent _ _ _ _ R Ep) as [E _]. lia.
  - destruct (rank_parent _ _ _ _ R Ep) as [E Hp]. destruct (IH p ltac:(lia) Hp) as (l & Hnd & Hl & Hx).
    exists (a :: l). split; [|split].
    + constructor; [|done]. intros Hin. destruct (Hx a Hin). lia.
    + cbn [length]. by rewrite Hl, E.
    + intros x [->|Hin]%elem_of_cons; [by split|]. destruct (Hx x Hin). split; [done|lia].
Qed.

Lemma ranked_tree h rank : ranked h rank -> exists depth, tree_ok h depth.
Proof.
  intros R. exists (fun a => ups (S (rank a)) h a). pose proof R as [Rk Rp Rn]. split; [|done| |done].
  - intros a c k Ha Hk. destruct (Rk a c k Ha Hk) as (ck & Hck & Hp & E). exists ck. split; [done|]. split; [done|].
    cbn [ups]. unfold parent_at at 1. rewrite Hck. cbn [mbind option_bind]. by rewrite Hp, E.
  - intros a c Ha. destruct (ups_path h rank R (rank a) a eq_refl ltac:(eauto)) as (l & Hnd & Hl & Hx).
    assert (Hs : (length l <= base.size h)%nat); [|lia].
    rewrite <- size_dom, <- (size_list_to_set (C := gset addr)) by done. apply subseteq_size.
    intros x Hin%elem_of_list_to_set. apply elem_of_dom. by apply Hx.
Qed.

(** Whether [c] is [x] or above it. *)
Fixpoint under (fuel : nat) (h : store) (c x : addr) : bool :=
  match fuel with
  | O => false
  | S fuel => bool_decide (x = c) || match parent_at h x with Some p => under fuel h c p | None => false end
  end.

Lemma under_above h c : forall fuel x, under fuel h c x = true -> above h c x.
Proof.
  induction fuel as [|fuel IH]; intros x; cbn [under]; [done|]. intros [->%bool_decide_eq_true|Hu]%orb_true_iff; [constructor|].
  unfold parent_at in Hu. destruct (h !! x) as [cx|] eqn:Hx; [|done]. cbn in Hu. destruct (parent_ cx) as [p|] eqn:Hp; [|done].
  eapply above_parent; eauto.
Qed.

Lemma under_step h rank c x p fuel :
  ranked h rank -> parent_at h x = Some p -> parent_at h c = None -> (rank x < fuel)%nat ->
  under fuel h c x = under (S (rank p)) h c p.
Proof.
  intros R Ep Ec Hf. destruct (rank_parent _ _ _ _ R Ep) as [E _]. destruct fuel as [|fuel]; [lia|]. cbn [under]. rewrite Ep.
  rewrite bool_decide_false by congruence. cbn [orb]. assert (Hp : (rank p < fuel)%nat) by lia. clear E Ep Hf.
  revert p Hp. assert (G : forall f1 f2 p, (rank p < f1)%nat -> (rank p < f2)%nat -> under f1 h c p = under f2 h c p).
  { induction f1 as [|f1 IH]; intros [|f2] p H1 H2; try lia. cbn [under]. f_equal. destruct (parent_at h p) as [q|] eqn:Eq; [|done].
    destruct (rank_parent _ _ _ _ R Eq) as [E _]. apply IH; lia. }
  intros p Hp. apply (G fuel (S (rank p)) p); lia.
Qed.

(** ** Linking and unlinking *)

Lemma link_ok h depth a c c' child ck :
  tree_ok h depth -> h !! a = Some c -> h !! child = Some ck -> parent_ ck = None -> ~ above h child a ->
  parent_ c' = parent_ c -> kids (body c') ≡ₚ child :: kids (body c) ->
  exists depth', tree_ok (<[child := set_parent_ (Some a) ck]> (<[a := c']> h)) depth'.
Proof.
  intros T Ha Hck Hp Hab Hpc Hk. pose proof (tree_ranked _ _ T) as R.
  assert (Hne : child <> a) by (intros ->; destruct Hab; constructor).
  assert (Ec : parent_at h child = None) by (unfold parent_at; by rewrite Hck).
  set (h1 := <[child := _]> _).
  set (sub x := under (S (depth x)) h child x).
  set (rank x := if sub x then (depth x + S (depth a))%nat else (depth x + depth child)%nat).
  assert (Sa : sub a = false).
  { destruct (sub a) eqn:E; [|done]. by apply under_above in E. }
  assert (Sc : sub child = true) by (unfold sub; cbn [under]; by rewrite bool_decide_true).
  assert (Hlook : forall x cx', h1 !! x = Some cx' -> exists cx, h !! x = Some cx /\
    parent_ cx' = (if decide (x = child) then Some a else parent_ cx) /\
    (kids (body cx') ≡ₚ if decide (x = a) then child :: kids (body cx) else kids (body cx))).
  { intros x cx'. unfold h1. destruct (decide (x = child)) as [->|Hxc].
    - rewrite lookup_insert_eq. intros [= <-]. exists ck. by rewrite decide_False.
    - rewrite lookup_insert_ne by done. destruct (decide (x = a)) as [->|Hxa].
      + rewrite lookup_insert_eq. intros [= <-]. by exists c.
      + rewrite lookup_insert_ne by done. intros Hx. by exists cx'. }
  assert (Hsome : forall x cx, h !! x = Some cx -> exists cx', h1 !! x = Some cx' /\
    parent_ cx' = (if decide (x = child) then Some a else parent_ cx) /\
    (kids (body cx') ≡ₚ if decide (x = a) then child :: kids (body cx) else kids (body cx))).
  { intros x cx Hx. destruct (h1 !! x) as [cx'|] eqn:E.
    - destruct (Hlook x cx' E) as (cx2 & Hx2 & H1 & H2). rewrite Hx in Hx2. injection Hx2 as <-. by exists cx'.
    - unfold h1 in E. apply lookup_insert_None in E as [E _]. apply lookup_insert_None in E as [E _]. congruence. }
  assert (Hfresh : forall x cx, h !! x = Some cx -> child ∉ kids (body cx)).
  { intros x cx Hx Hin. destruct (t_kid _ _ T x cx child Hx Hin) as (ck' & Hck' & Hp' & _). congruence. }
  apply (ranked_tree h1 rank). split.
  - intros x cx' k Hx Hin. destruct (Hlook x cx' Hx) as (cx & Hcx & _ & Ek). rewrite Ek in Hin.
    assert (Hold : k ∈ kids (body cx) -> exists ck0, h1 !! k = Some ck0 /\ parent_ ck0 = Some x /\ rank k = S (rank x)).
    { intros Hkin. destruct (t_kid _ _ T x cx k Hcx Hkin) as (k0 & Hk0 & Hkp & Hd).
      assert (k <> child) by (intros ->; by destruct (Hfresh x cx Hcx)).
      destruct (Hsome k k0 Hk0) as (k1 & Hk1 & E1 & _). rewrite decide_False in E1 by done. exists k1. split; [done|].
      split; [congruence|]. unfold rank. replace (sub k) with (sub x); [destruct (sub x); lia|].
      unfold sub. symmetry. apply (under_step h depth child k x); [done| |done|lia]. unfold parent_at. by rewrite Hk0. }
    destruct (decide (x = a)) as [->|]; [|by apply Hold]. apply elem_of_cons in Hin as [->|Hin]; [|by apply Hold].
    destruct (Hsome child ck Hck) as (k1 & Hk1 & E1 & _). rewrite decide_True in E1 by done. exists k1. split; [done|].
    split; [done|]. unfold rank. rewrite Sa, Sc. lia.
  - intros k ck' x Hk' Hpk. destruct (Hlook k ck' Hk') as (k0 & Hk0 & E0 & _). rewrite E0 in Hpk.
    destruct (decide (k = child)) as [->|Hkc].
    + injection Hpk as <-. destruct (Hsome a c Ha) as (c1 & Hc1 & _ & E1). exists c1. split; [done|].
      rewrite E1, decide_True by done. by constructor.
    + destruct (t_parent _ _ T k k0 x Hk0 Hpk) as (cx & Hcx & Hin). destruct (Hsome x cx Hcx) as (c1 & Hc1 & _ & E1).
      exists c1. split; [done|]. rewrite E1. destruct (decide (x = a)); [by constructor|done].
  - intros x cx' Hx. destruct (Hlook x cx' Hx) as (cx & Hcx & _ & Ek). rewrite Ek.
    destruct (decide (x = a)); [|by apply (t_nodup _ _ T x)]. constructor; [by apply (Hfresh x)|by apply (t_nodup _ _ T x)].
Qed.

Lemma put_known h a c f : h !! a = Some c -> put a f h = Some (<[a := f c]> h).
Proof. intros Ha. unfold put. by rewrite Ha. Qed.

(** The links after [child] has become a child of [a]. *)
Definition added (h h' : store) (a child : addr) : Prop :=
  forall x, match h !! x, h' !! x with
    | Some c, Some c' => parent_ c' = (if decide (x = child) then Some a else parent_ c) /\
        kids (body c') ≡ₚ (if decide (x = a) then child :: kids (body c) else kids (body c))
    | None, None => True
    | _, _ => False
    end.

(** The links after [child] has left [a]. *)
Definition removed (h h' : store) (a child : addr) : Prop :=
  forall x, match h !! x, h' !! x with
    | Some c, Some c' => parent_ c' = (if decide (x = child) then None else parent_ c) /\
        (if decide (x = a) then kids (body c) ≡ₚ child :: kids (body c') else kids (body c') ≡ₚ kids (body c))
    | None, None => True
    | _, _ => False
    end.

Lemma added_links h h1 h' a child : added h h1 a child -> same_links h1 h' -> added h h' a child.
Proof.
  intros H1 H2 x. specialize (H1 x). specialize (H2 x). destruct (h !! x), (h1 !! x), (h' !! x); try done.
  destruct H1 as [E1 P1], H2 as [E2 P2]. split; [congruence|by rewrite P2].
Qed.

Lemma removed_links h h1 h' a child : removed h h1 a child -> same_links h1 h' -> removed h h' a child.
Proof.
  intros H1 H2 x. specialize (H1 x). specialize (H2 x). destruct (h !! x), (h1 !! x), (h' !! x); try done.
  destruct H1 as [E1 P1], H2 as [E2 P2]. split; [congruence|]. case_decide; by rewrite P2.
Qed.

Lemma node_weak_same h h' c :
  (forall x, blocked_at h' x = blocked_at h x) -> node_weak h c -> node_weak h' c.
Proof.
  intros Hs. assert (HF : forall l, Forall (unblocked h) l -> Forall (unblocked h') l).
  { intros l Hl. eapply Forall_impl; [exact Hl|]. intros x. unfold unblocked. by rewrite Hs. }
  pose proof (node_ok_ext h h' c (fun k _ => Hs k)) as Hn. unfold node_weak. destruct (body c) eqn:Eb; try exact Hn.
  - intros H Hb. destruct (H Hb) as (d & Hd & Hu). exists d. split; [done|]. unfold unblocked in *. by rewrite Hs.
  - intros [H1 H2]. auto.
  - intros (H1 & H2 & H3). auto.
Qed.

Section Link.
Context (h : store) (depth : addr -> nat) (a child : addr) (c ck : TrafficClass) (T : tree_ok h depth) (Rest : at_rest h).
Context (Ha : h !! a = Some c) (Hck : h !! child = Some ck).

Definition relinked (p : option addr) (c' : TrafficClass) : store := <[child := set_parent_ p ck]> (<[a := c']> h).

Lemma relinked_comm p c' : a <> child -> <[a := c']> (<[child := set_parent_ p ck]> h) = relinked p c'.
Proof. intros Hne. unfold relinked. by rewrite insert_insert_ne. Qed.

Lemma relinked_blocked p c' x : a <> child -> blocked_ c' = blocked_ c -> blocked_at (relinked p c') x = blocked_at h x.
Proof.
  intros Hne Hb. unfold relinked. rewrite !blocked_insert. destruct (decide (child = x)) as [<-|]; [by unfold blocked_at; rewrite Hck|].
  destruct (decide (a = x)) as [<-|]; [|done]. unfold blocked_at. by rewrite Ha.
Qed.

Lemma relinked_a p c' : a <> child -> relinked p c' !! a = Some c'.
Proof. intros Hne. unfold relinked. rewrite lookup_insert_ne by done. by rewrite lookup_insert_eq. Qed.

(** The classes other than [a] still agree with their children. *)
Lemma relinked_others p c' b cb :
  a <> child -> blocked_ c' = blocked_ c -> b <> a -> relinked p c' !! b = Some cb -> node_ok (relinked p c') cb.
Proof.
  intros Hne Hb Hba Hcb. assert (exists cb0, h !! b = Some cb0 /\ (cb = cb0 \/ cb = set_parent_ p cb0)) as (cb0 & Hcb0 & Ecb).
  { unfold relinked in Hcb. destruct (decide (child = b)) as [<-|].
    - rewrite lookup_insert_eq in Hcb. injection Hcb as <-. exists ck. auto.
    - rewrite !lookup_insert_ne in Hcb by done. exists cb. auto. }
  pose proof (node_ok_ext h (relinked p c') cb0 (fun k _ => relinked_blocked p c' k Hne Hb) (Rest b cb0 Hcb0)) as Hn.
  by destruct Ecb as [->| ->].
Qed.

Context (Hp : parent_ ck = None) (Hab : ~ above h child a).

Lemma child_ne : a <> child.
Proof. intros E. destruct Hab. rewrite E. constructor. Qed.

Lemma relinked_added c' :
  parent_ c' = parent_ c -> kids (body c') ≡ₚ child :: kids (body c) -> added h (relinked (Some a) c') a child.
Proof.
  intros Hpc Hk x. unfold relinked. pose proof child_ne. destruct (decide (child = x)) as [<-|].
  - rewrite Hck, lookup_insert_eq, decide_True, decide_False by done. done.
  - rewrite lookup_insert_ne by done. destruct (decide (a = x)) as [<-|].
    + by rewrite Ha, lookup_insert_eq, decide_False, decide_True by done.
    + rewrite lookup_insert_ne by done. destruct (h !! x); [|done]. by rewrite !decide_False by done.
Qed.

(** Linking, then unblocking. *)
Lemma link_unblock tsc c' :
  parent_ c' = parent_ c -> blocked_ c' = blocked_ c -> kids (body c') ≡ₚ child :: kids (body c) -> node_weak h c' ->
  exists h', UnblockTowardsRoot (depth_bound (relinked (Some a) c')) tsc a (relinked (Some a) c') = Some h' /\
    well_formed h' /\ added h h' a child.
Proof.
  intros Hpc Hb Hk Hw. pose proof child_ne as Hne.
  destruct (link_ok h depth a c c' child ck T Ha Hck Hp Hab Hpc Hk) as (depth' & T').
  destruct (unblock_ok depth' tsc (depth_bound (relinked (Some a) c')) a (relinked (Some a) c') T') as (h' & E & L & R & _).
  - pose proof (t_depth _ _ T' a c' (relinked_a _ _ Hne)). unfold depth_bound, relinked in *. lia.
  - rewrite relinked_a; eauto.
  - intros b cb Hba Hcb. by apply (relinked_others (Some a) c' b).
  - intros c2. rewrite relinked_a by done. intros [= <-]. apply (node_weak_same h); [|done].
    intros x. by apply relinked_blocked.
  - exists h'. split; [exact E|]. split; [split; [exists depth'; by apply (tree_links _ _ _ L)|done]|].
    apply (added_links _ (relinked (Some a) c')); [by apply relinked_added|done].
Qed.

(** Linking where nothing changes. *)
Lemma link_quiet c' :
  parent_ c' = parent_ c -> blocked_ c' = blocked_ c -> kids (body c') ≡ₚ child :: kids (body c) -> node_ok h c' ->
  well_formed (relinked (Some a) c') /\ added h (relinked (Some a) c') a child.
Proof.
  intros Hpc Hb Hk Hn. pose proof child_ne as Hne. split; [|by apply relinked_added]. split.
  - by apply (link_ok h depth a c c' child ck).
  - intros b cb Hcb. destruct (decide (b = a)) as [->|]; [|by apply (relinked_others (Some a) c' b)].
    rewrite relinked_a in Hcb by done. injection Hcb as <-. apply (node_ok_ext h); [|done]. intros k _. by apply relinked_blocked.
Qed.

End Link.

(** ** Adding *)

Definition can_add (c ck : TrafficClass) (arg : Z) : bool :=
  bool_decide (parent_ ck = None) &&
  match body c with
  | Priority _ children => negb (existsb (fun d => d.1 =? arg) children)
  | WeightedFair _ _ _ _ => negb (arg =? 0)
  | RoundRobin _ _ _ _ => true
  | RateLimit r => bool_decide (child_ r = None)
  | Leaf _ => false
  end.

Lemma insert_sorted_perm d l : InsertSorted l d ≡ₚ d :: l.
Proof.
  assert (H : forall l, rise_sorted d l ≡ₚ d :: l).
  { clear. induction l as [|e l IH]; cbn [rise_sorted]; [done|]. destruct (d.1 <? e.1); [|done]. rewrite IH. by constructor. }
  unfold InsertSorted. etrans; [symmetry; apply Permutation_rev|]. rewrite H. constructor. symmetry. apply Permutation_rev.
Qed.

Section Add.
Context (h : store) (depth : addr -> nat) (tsc : Z) (a child : addr) (arg : Z) (c ck : TrafficClass).
Context (T : tree_ok h depth) (Rest : at_rest h) (Ha : h !! a = Some c) (Hck : h !! child = Some ck) (Hab : ~ above h child a).

Definition add_done (o : option (store * bool)) (ret : bool) : Prop :=
  exists h', o = Some (h', ret) /\ well_formed h' /\ if ret then added h h' a child else h' = h.

Lemma add_refused : add_done (Some (h, false)) false.
Proof. exists h. split; [done|]. split; [|done]. split; [by exists depth|done]. Qed.

(** The last steps of the policies. *)
Lemma finish_add c' :
  parent_ ck = None -> parent_ c' = parent_ c -> blocked_ c' = blocked_ c -> kids (body c') ≡ₚ child :: kids (body c) -> node_weak h c' ->
  add_done (h ← UnblockTowardsRoot (depth_bound (relinked h a child ck (Some a) c')) tsc a (relinked h a child ck (Some a) c'); Some (h, true)) true.
Proof.
  intros Hp H1 H2 H3 H4. destruct (link_unblock h depth a child c ck T Rest Ha Hck Hp Hab tsc c' H1 H2 H3 H4) as (h' & -> & W & A).
  rewrite bind_some. by exists h'.
Qed.

Lemma put_both p (f : TrafficClass -> TrafficClass) :
  (h ← put a f h; put child (set_parent_ p) h) = Some (relinked h a child ck p (f c)) /\
  (h ← put child (set_parent_ p) h; put a f h) = Some (relinked h a child ck p (f c)).
Proof.
  pose proof (child_ne h a child Hab) as Hne. split.
  - rewrite (put_known h a c) by done. rewrite bind_some, (put_known _ child ck); [done|]. by rewrite lookup_insert_ne.
  - rewrite (put_known h child ck) by done. rewrite bind_some, (put_known _ a c) by (by rewrite lookup_insert_ne). by rewrite relinked_comm.
Qed.

Lemma bind_put {R} (o1 : option store) (f : store -> option store) (k : store -> option R) h1 :
  (h ← o1; f h) = Some h1 -> (h ← o1; h ← f h; k h) = k h1.
Proof. destruct o1 as [x|]; [|done]. cbn. by intros ->. Qed.

Lemma priority_add f children : body c = Priority f children -> add_done (Priority_AddChild tsc a child arg f children h) (can_add c ck arg).
Proof.
  intros Eb. unfold Priority_AddChild, can_add. rewrite Hck, bind_some, Eb.
  destruct (parent_ ck) eqn:Hp; [rewrite bool_decide_false by done; apply add_refused|]. rewrite bool_decide_true by done. cbn [andb].
  destruct (existsb _ children); [apply add_refused|]. cbn [negb].
  rewrite (bind_put _ _ _ _ (proj1 (put_both _ _))).
  apply finish_add; [done|done|done| |].
  - rewrite Eb. cbn [body set_body kids]. by rewrite insert_sorted_perm.
  - pose proof (node_ok_weak h h c ltac:(done) (Rest a c Ha)) as Hw. unfold node_weak in *. rewrite Eb in Hw. cbn [body set_body blocked_].
    intros Hb. destruct (Hw Hb) as (d & Hd & Hu). exists d. split; [|done]. rewrite insert_sorted_perm. by constructor.
Qed.

Lemma weighted_add r runnable blocked all :
  body c = WeightedFair r runnable blocked all -> add_done (WeightedFair_AddChild tsc a child arg r runnable blocked all h) (can_add c ck arg).
Proof.
  intros Eb. unfold WeightedFair_AddChild, can_add. rewrite Hck, bind_some, Eb.
  destruct (parent_ ck) eqn:Hp; [rewrite bool_decide_false by done; apply add_refused|]. rewrite bool_decide_true by done. cbn [andb].
  destruct (arg =? 0); [apply add_refused|]. cbn [negb]. set (d := WFChild _ _ _).
  pose proof (Rest a c Ha) as Hn. unfold node_ok in Hn. rewrite Eb in Hn. destruct Hn as (H1 & H2 & H3).
  destruct (blocked_ ck) eqn:Hbk.
  - rewrite (bind_put _ _ _ _ (proj2 (put_both _ _))).
    set (c' := set_body _ c). destruct (link_quiet h depth a child c ck T Rest Ha Hck Hp Hab c') as [W A]; [done|done| | |].
    + rewrite Eb. cbn. rewrite !map_app. cbn. by rewrite app_assoc, Permutation_app_comm.
    + unfold node_ok. cbn. split; [done|]. split; [|done]. rewrite map_app. apply Forall_app. split; [done|]. constructor; [|done].
      unfold is_blocked, blocked_at. cbn. by rewrite Hck.
    + eexists. split; [reflexivity|]. by split.
  - destruct (push_perm wf_lt d runnable) as (run & E & P). rewrite (put_known h child ck) by done. rewrite bind_some, E, bind_some.
    pose proof (proj2 (put_both (Some a) (set_body (WeightedFair r run blocked (all ++ [(child, arg)]))))) as E2.
    rewrite (put_known h child ck), bind_some in E2 by done. rewrite E2, bind_some.
    apply finish_add; [done|done|done| |].
    + rewrite Eb. cbn. by rewrite !map_app, P.
    + unfold node_weak. cbn. split.
      * rewrite P. cbn. constructor; [|done]. unfold unblocked, blocked_at. by rewrite Hck.
      * intros _ ->. by apply Permutation_nil_cons in P.
Qed.

Lemma robin_add n runnable blocked all :
  body c = RoundRobin n runnable blocked all -> add_done (RoundRobin_AddChild tsc a child n runnable blocked all h) (can_add c ck arg).
Proof.
  intros Eb. unfold RoundRobin_AddChild, can_add. rewrite Hck, bind_some, Eb.
  destruct (parent_ ck) eqn:Hp; [rewrite bool_decide_false by done; apply add_refused|]. rewrite bool_decide_true by done. cbn [andb].
  pose proof (Rest a c Ha) as Hn. unfold node_ok in Hn. rewrite Eb in Hn. destruct Hn as (H1 & H2 & H3 & H4).
  rewrite (bind_put _ _ _ _ (proj2 (put_both _ _))). destruct (blocked_ ck) eqn:Hbk.
  - apply finish_add; [done|done|done| |].
    + rewrite Eb. cbn. by rewrite app_assoc, Permutation_app_comm.
    + unfold node_weak. cbn. split; [done|]. split; [|done]. rewrite H3. by intros ?%bool_decide_eq_false.
  - apply finish_add; [done|done|done| |].
    + rewrite Eb. cbn. rewrite <- app_assoc. cbn [app]. by rewrite <- Permutation_middle.
    + unfold node_weak. cbn. split; [|split].
      * apply Forall_app. split; [done|]. constructor; [|done]. unfold unblocked, blocked_at. by rewrite Hck.
      * intros _ E. by apply app_nil in E as [_ ?].
      * rewrite length_app. simpl. lia.
Qed.

Lemma limit_add r : body c = RateLimit r -> add_done (RateLimit_AddChild tsc a child r h) (can_add c ck arg).
Proof.
  intros Eb. unfold RateLimit_AddChild, can_add. rewrite Hck, bind_some, Eb.
  destruct (parent_ ck) eqn:Hp; [rewrite bool_decide_false by done; apply add_refused|]. rewrite bool_decide_true by done. cbn [andb].
  destruct (child_ r) eqn:Er; [rewrite bool_decide_false by done; apply add_refused|]. rewrite bool_decide_true by done.
  rewrite (bind_put _ _ _ _ (proj1 (put_both _ _))).
  apply finish_add; [done|done|done| |].
  - rewrite Eb. cbn. by rewrite Er.
  - pose proof (Rest a c Ha) as Hn. unfold node_ok in Hn. rewrite Eb in Hn. unfold node_weak, node_ok. cbn. intros Hb.
    destruct (Hn Hb) as (_ & k & Ek & _). congruence.
Qed.

Lemma add_child_ok : (forall w, body c <> Leaf w) -> add_done (AddChild tsc a child arg h) (can_add c ck arg).
Proof.
  intros Hl. unfold AddChild. rewrite Ha, bind_some. destruct (body c) as [f ch|r run bl all|n run bl all|r|w] eqn:Eb.
  - by apply priority_add.
  - by apply weighted_add.
  - by apply robin_add.
  - by apply limit_add.
  - by destruct (Hl w).
Qed.

End Add.

(** ** Blocking towards the root *)

(** A class of whose children [k] may have become blocked, or been taken away. *)
Definition node_blk (h : store) (c : TrafficClass) : Prop :=
  match body c with
  | Priority f children => (f <= length children)%nat /\
      (forall i d, (i < f)%nat -> children !! i = Some d -> is_blocked h d.2) /\
      (blocked_ c = true -> f = length children)
  | WeightedFair _ runnable blocked _ =>
      (exists k, Forall (fun x => x = k \/ unblocked h x) (map wc runnable)) /\ Forall (is_blocked h) (map wc blocked) /\
      NoDup (map wc runnable) /\ (blocked_ c = true -> runnable = [])
  | RoundRobin n runnable blocked _ =>
      Forall (is_blocked h) blocked /\ (blocked_ c = true -> runnable = []) /\ (n < Nat.max 1 (length runnable))%nat
  | RateLimit r => child_blocked h r = true
  | Leaf _ => False
  end.

Lemma rr_adjust_ok i len next : (next < Nat.max 1 (S len))%nat -> (rr_adjust i len next < Nat.max 1 len)%nat.
Proof. unfold rr_adjust. intros H. repeat case_decide; lia. Qed.

Lemma rr_block_ok h : forall rest kept next blocked,
  (next < Nat.max 1 (length (kept ++ rest)))%nat -> Forall (unblocked h) kept -> Forall (is_blocked h) blocked ->
  let '(run, next', blk) := rr_block h kept rest next blocked in
  run ++ blk ≡ₚ kept ++ rest ++ blocked /\ Forall (unblocked h) run /\ Forall (is_blocked h) blk /\
  (next' < Nat.max 1 (length run))%nat.
Proof.
  induction rest as [|x rest IH]; intros kept next blocked Hn Hk Hb; cbn [rr_block].
  { rewrite app_nil_r in Hn. by split_and!. }
  destruct (blocked_at h x) eqn:E.
  - specialize (IH kept (rr_adjust (length kept) (length (kept ++ rest)) next) (blocked ++ [x])).
    destruct (rr_block _ _ _ _ _) as [[run next'] blk]. destruct IH as (P & H1 & H2 & H3); [|done| |].
    + apply rr_adjust_ok. rewrite length_app in *. cbn [length] in Hn. by replace (S (length kept + length rest))%nat with (length kept + S (length rest))%nat by lia.
    + apply Forall_app. split; [done|]. by constructor.
    + split; [|done]. rewrite P. f_equiv. rewrite app_assoc, Permutation_app_comm. done.
  - specialize (IH (kept ++ [x]) next blocked). destruct (rr_block _ _ _ _ _) as [[run next'] blk].
    destruct IH as (P & H1 & H2 & H3); [by rewrite <- app_assoc| |done|].
    + apply Forall_app. split; [done|]. by constructor.
    + split; [|done]. by rewrite P, <- app_assoc.
Qed.

Lemma block_local_ok h c :
  live h (kids (body c)) -> node_blk h c ->
  exists c' nb, block_local h c = Some (c', nb) /\ parent_ c' = parent_ c /\ kids (body c') ≡ₚ kids (body c) /\
    node_ok h (set_blocked nb c') /\ (blocked_ c = true -> nb = true).
Proof.
  intros Hl Hw. unfold block_local, Priority_Block, WeightedFair_Block, RoundRobin_Block. rewrite option_guard_True by done.
  rewrite bind_some || cbn [mbind option_bind]. unfold node_blk, node_ok in *. destruct (body c) as [f ch|r run bl all|n run bl all|r|w] eqn:Eb.
  - destruct Hw as (H1 & H2 & H3). destruct (skip_from h ch f H1 H2) as (K1 & K2 & K3). set (f' := skip_blocked _ _ _) in *.
    eexists _, _. split; [reflexivity|]. split; [done|]. split; [done|]. split; [done|].
    intros Hb. apply bool_decide_eq_true. specialize (H3 Hb). unfold f'. rewrite H3, drop_ge by lia. done.
  - destruct Hw as ((k & Hk) & Hbl & Hnd & Hb).
    destruct (delete_single_perm wf_lt (fun x => blocked_at h (wc x)) run) as (o & run' & -> & Ho). rewrite bind_some || cbn [mbind option_bind].
    eexists _, _. split; [reflexivity|]. split; [done|]. destruct o as [x|].
    + destruct Ho as (Hx & P). assert (P' : map wc run ≡ₚ wc x :: map wc run') by (by rewrite P).
      rewrite P' in Hk, Hnd. apply Forall_cons in Hk as [[<-|Hxu] Hk]; [|unfold unblocked in Hxu; congruence].
      apply NoDup_cons in Hnd as [Hnx _]. cbn. rewrite map_app. split; [|split].
      * rewrite !map_app, P'. cbn. rewrite app_assoc. by rewrite Permutation_app_comm.
      * split; [|split; [|done]].
        -- apply Forall_forall. intros y Hy. destruct (proj1 (Forall_forall _ _) Hk y Hy) as [->|?]; [done|done].
        -- cbn. rewrite map_app. apply Forall_app. split; [done|]. by constructor.
      * intros E. rewrite (Hb E) in P. by apply Permutation_nil_cons in P.
    + destruct Ho as (-> & Hf). cbn. rewrite app_nil_r. split; [done|]. split; [|intros E; by rewrite (Hb E)].
      split; [|by rewrite ?app_nil_r]. apply Forall_map. exact Hf.
  - destruct Hw as (H1 & H2 & H3). pose proof (rr_block_ok h run [] n bl H3 ltac:(done) H1) as P.
    destruct (rr_block h [] run n bl) as [[run' n'] bl']. destruct P as (P & K1 & K2 & K3).
    eexists _, _. split; [reflexivity|]. split; [done|]. split; [exact P|]. split; [done|].
    intros E. rewrite (H2 E) in *. apply bool_decide_eq_true. cbn in P. destruct run' as [|x run']; [done|]. exfalso.
    apply Forall_cons in K1 as [Hx _]. assert (Hin : x ∈ bl) by (rewrite <- P; by constructor).
    pose proof (proj1 (Forall_forall _ _) H1 x Hin). unfold is_blocked, unblocked in *. congruence.
  - eexists _, _. split; [reflexivity|]. split; [done|]. split; [by rewrite Eb|]. rewrite Hw. split; [|done].
    unfold node_ok. cbn. rewrite Eb. done.
  - done.
Qed.

(** The parent of a class that has become blocked. *)
Lemma node_ok_blk h h' c k :
  (forall x, x <> k -> blocked_at h' x = blocked_at h x) -> blocked_at h' k = true -> k ∈ kids (body c) -> NoDup (kids (body c)) ->
  node_ok h c -> node_blk h' c.
Proof.
  intros Hs Hk Hin Hnd. assert (Hm : forall x, blocked_at h x = true -> blocked_at h' x = true).
  { intros x Hx. destruct (decide (x = k)) as [->|]; [done|]. by rewrite Hs. }
  assert (HF : forall l, Forall (is_blocked h) l -> Forall (is_blocked h') l) by (intros l Hl; eapply Forall_impl; [exact Hl|done]).
  unfold node_ok, node_blk. destruct (body c) as [f ch|r run bl all|n run bl all|r|w].
  - intros (H1 & H2 & H3 & H4). split; [done|]. split; [intros i d Hi Hd; by apply Hm, (H2 i)|].
    rewrite H4. by intros ?%bool_decide_eq_true.
  - intros (H1 & H2 & H3). split; [|split; [by apply HF|split]].
    + exists k. eapply Forall_impl; [exact H1|]. intros x Hx. destruct (decide (x = k)); [by left|right]. unfold unblocked. by rewrite Hs.
    + cbn in Hnd. rewrite map_app in Hnd. by apply NoDup_app in Hnd as [? _].
    + rewrite H3. by intros ?%bool_decide_eq_true.
  - intros (H1 & H2 & H3 & H4). split; [by apply HF|]. split; [|done]. rewrite H3. by intros ?%bool_decide_eq_true.
  - intros _. unfold child_blocked. cbn in Hin. destruct (child_ r) as [k'|]; [|by apply elem_of_nil in Hin].
    by apply list_elem_of_singleton in Hin as <-.
  - by apply elem_of_nil in Hin.
Qed.

Lemma block_ok depth : forall fuel a h,
  tree_ok h depth -> (depth a < fuel)%nat ->
  (forall b c, b <> a -> h !! b = Some c -> node_ok h c) ->
  (exists c, h !! a = Some c /\ node_blk h c) ->
  exists h', BlockTowardsRoot fuel a h = Some h' /\ same_links h h' /\ at_rest h'.
Proof.
  induction fuel as [|fuel IH]; intros a h T Hd Hother (c & Ha & Hself); [lia|]. cbn [BlockTowardsRoot]. rewrite Ha, bind_some.
  destruct (block_local_ok h c (live_kids _ _ _ _ T Ha) Hself) as (c' & nb & -> & Ep & Ek & Hok & Hnb). rewrite bind_some.
  set (c1 := set_blocked nb c'). set (h1 := <[a := c1]> h).
  assert (L1 : same_links h h1) by (by apply (same_links_insert h a c)).
  pose proof (tree_links _ _ _ L1 T) as T1.
  assert (S1 : forall c2, h1 !! a = Some c2 -> node_ok h1 c2).
  { intros c2 Hc2. unfold h1 in Hc2. rewrite lookup_insert_eq in Hc2. injection Hc2 as <-. by eapply node_ok_self. }
  assert (R1 : forall b cb, b <> a -> parent_ c <> Some b \/ nb = blocked_ c -> h1 !! b = Some cb -> node_ok h1 cb).
  { intros b cb Hne Hor Hb. unfold h1 in Hb. rewrite lookup_insert_ne in Hb by done.
    apply (node_ok_other h depth a c c1 b cb T Ha Hb Hor). by apply (Hother b). }
  destruct (parent_ c) as [p|] eqn:Epar.
  2: { exists h1. split; [done|]. split; [done|]. intros b cb Hb. destruct (decide (b = a)) as [->|]; [auto|]. apply (R1 b); auto. }
  destruct (nb && negb (blocked_ c)) eqn:Ebec.
  - apply andb_true_iff in Ebec as [-> Eb]. apply negb_true_iff in Eb.
    destruct (t_parent _ _ T a c p Ha Epar) as (cp & Hp & Hin). destruct (t_kid _ _ T p cp a Hp Hin) as (_ & _ & _ & Edp).
    assert (Hpa : p <> a) by (intros ->; lia).
    destruct (IH p h1 T1) as (h' & -> & L2 & R2).
    + lia.
    + intros b cb Hne Hb. destruct (decide (b = a)) as [->|Hba]; [auto|]. apply (R1 b cb Hba); [left; congruence|done].
    + exists cp. unfold h1 at 1. rewrite lookup_insert_ne by done. split; [done|].
      apply (node_ok_blk h h1 cp a); [| |done|by apply (t_nodup _ _ T p)|by apply (Hother p)].
      * intros x Hx. unfold h1. rewrite blocked_insert, decide_False by done. done.
      * unfold h1. by rewrite blocked_insert, decide_True.
    + exists h'. split; [done|]. split; [by eapply same_links_trans|done].
  - exists h1. split; [done|]. split; [done|]. intros b cb Hb.
    destruct (decide (b = a)) as [->|]; [auto|]. apply (R1 b); [done|right|done].
    destruct (blocked_ c) eqn:Eb; [by apply Hnb|]. by rewrite andb_true_r in Ebec.
Qed.

(** ** Removing *)

(** The list without the element at [i]. *)
Lemma erased_perm {X Y} (g : X -> Y) (l : list X) i x : l !! i = Some x -> g <$> l ≡ₚ g x :: (g <$> delete i l).
Proof. intros Hi. apply (fmap_Permutation g _ (x :: delete i l)). by apply delete_Permutation. Qed.

Lemma erase_first_ok {X} (f : X -> bool) l :
  match erase_first f l with
  | Some (i, l') => exists x, l !! i = Some x /\ f x = true /\ l' = delete i l
  | None => Forall (fun x => f x = false) l
  end.
Proof.
  induction l as [|x l IH]; cbn [erase_first]; [constructor|]. destruct (f x) eqn:E; [by exists x|].
  destruct (erase_first f l) as [[i l']|]; cbn; [|by constructor]. destruct IH as (y & H1 & H2 & ->). by exists y.
Qed.

Lemma lookup_delete_spec {X} (l : list X) i j :
  delete i l !! j = if decide (j < i)%nat then l !! j else l !! S j.
Proof. destruct (decide (j < i)%nat); [by apply list_lookup_delete_lt|apply list_lookup_delete_ge; lia]. Qed.

Section Unlink.
Context (h : store) (depth : addr -> nat) (a child : addr) (c ck : TrafficClass) (T : tree_ok h depth) (Rest : at_rest h).
Context (Ha : h !! a = Some c) (Hck : h !! child = Some ck) (Hp : parent_ ck = Some a).

Lemma parent_ne : a <> child.
Proof.
  intros E. destruct (t_parent _ _ T child ck a Hck Hp) as (c2 & Hc2 & Hin).
  destruct (t_kid _ _ T a c2 child Hc2 Hin) as (_ & _ & _ & Hd). rewrite E in Hd. lia.
Qed.

Lemma child_kid : child ∈ kids (body c).
Proof. destruct (t_parent _ _ T child ck a Hck Hp) as (c2 & Hc2 & Hin). congruence. Qed.

Abbreviation h1 c' := (relinked h a child ck None c').

Lemma unlink_ok c' : parent_ c' = parent_ c -> kids (body c) ≡ₚ child :: kids (body c') -> removed h (h1 c') a child /\ tree_ok (h1 c') depth.
Proof.
  intros Hpc Hk. pose proof parent_ne as Hne. assert (R : removed h (h1 c') a child).
  { intros x. unfold relinked. destruct (decide (child = x)) as [<-|].
    - rewrite Hck, lookup_insert_eq, decide_True, decide_False by done. done.
    - rewrite lookup_insert_ne by done. destruct (decide (a = x)) as [<-|].
      + by rewrite Ha, lookup_insert_eq, decide_False, decide_True by done.
      + rewrite lookup_insert_ne by done. destruct (h !! x); [|done]. by rewrite !decide_False by done. }
  split; [done|]. assert (Hback : forall x cx', h1 c' !! x = Some cx' -> exists cx, h !! x = Some cx /\
      parent_ cx' = (if decide (x = child) then None else parent_ cx) /\
      (if decide (x = a) then kids (body cx) ≡ₚ child :: kids (body cx') else kids (body cx') ≡ₚ kids (body cx))).
  { intros x cx' Hx. specialize (R x). rewrite Hx in R. destruct (h !! x) as [cx|]; [|done]. by exists cx. }
  assert (Hfor : forall x cx, h !! x = Some cx -> exists cx', h1 c' !! x = Some cx' /\
      parent_ cx' = (if decide (x = child) then None else parent_ cx) /\
      (if decide (x = a) then kids (body cx) ≡ₚ child :: kids (body cx') else kids (body cx') ≡ₚ kids (body cx))).
  { intros x cx Hx. specialize (R x). rewrite Hx in R. destruct (h1 c' !! x) as [cx'|]; [|done]. by exists cx'. }
  assert (Hsize : base.size (h1 c') = base.size h).
  { rewrite <- !size_dom. f_equal. apply set_eq. intros x. rewrite !elem_of_dom. specialize (R x).
    destruct (h !! x), (h1 c' !! x); try done; split; intros [? ?]; done. }
  pose proof (t_nodup _ _ T a c Ha) as Hnd. rewrite Hk in Hnd. apply NoDup_cons in Hnd as [Hnot _].
  split.
  - intros x cx' k Hx Hin. destruct (Hback x cx' Hx) as (cx & Hcx & _ & Ek).
    assert (Hin' : k ∈ kids (body cx) /\ k <> child).
    { destruct (decide (x = a)) as [->|Hxa].
      - rewrite Ek. split; [by constructor|]. intros ->. unfold relinked in Hx. rewrite lookup_insert_ne, lookup_insert_eq in Hx by done.
        by injection Hx as <-.
      - rewrite Ek in Hin. split; [done|]. intros ->. apply Hxa. apply (kid_unique h depth x a cx c child); try done. apply child_kid. }
    destruct Hin' as [Hin' Hkc]. destruct (t_kid _ _ T x cx k Hcx Hin') as (k0 & Hk0 & Hkp & Hd).
    destruct (Hfor k k0 Hk0) as (k1 & Hk1 & E1 & _). rewrite decide_False in E1 by done. exists k1. split; [done|]. by rewrite E1.
  - intros k ck' x Hk' Hpk. destruct (Hback k ck' Hk') as (k0 & Hk0 & E0 & _). rewrite E0 in Hpk.
    destruct (decide (k = child)) as [->|Hkc]; [done|]. destruct (t_parent _ _ T k k0 x Hk0 Hpk) as (cx & Hcx & Hin).
    destruct (Hfor x cx Hcx) as (c1 & Hc1 & _ & E1). exists c1. split; [done|]. destruct (decide (x = a)) as [->|].
    + rewrite E1 in Hin. by apply elem_of_cons in Hin as [->|?].
    + by rewrite E1.
  - intros x cx' Hx. destruct (Hback x cx' Hx) as (cx & Hcx & _). rewrite Hsize. by apply (t_depth _ _ T x cx).
  - intros x cx' Hx. destruct (Hback x cx' Hx) as (cx & Hcx & _ & Ek). pose proof (t_nodup _ _ T x cx Hcx) as Hn.
    destruct (decide (x = a)); [|by rewrite Ek]. rewrite Ek in Hn. by apply NoDup_cons in Hn as [_ ?].
Qed.

Definition remove_done (o : option (store * bool)) : Prop := exists h', o = Some (h', true) /\ well_formed h' /\ removed h h' a child.

(** Unlinking, then blocking. *)
Lemma finish_remove c' :
  parent_ c' = parent_ c -> blocked_ c' = blocked_ c -> kids (body c) ≡ₚ child :: kids (body c') -> node_blk (h1 c') c' ->
  remove_done (h ← BlockTowardsRoot (depth_bound (h1 c')) a (h1 c'); Some (h, true)).
Proof.
  intros Hpc Hb Hk Hw. pose proof parent_ne as Hne. destruct (unlink_ok c' Hpc Hk) as [R T'].
  destruct (block_ok depth (depth_bound (h1 c')) a (h1 c') T') as (h' & -> & L & R').
  - pose proof (t_depth _ _ T' a c' (relinked_a h a child ck _ _ Hne)). unfold depth_bound. lia.
  - intros b cb Hba Hcb. by apply (relinked_others h a child c ck Rest Ha Hck None c' b).
  - exists c'. split; [by apply relinked_a|done].
  - rewrite bind_some. exists h'. split; [done|]. split; [split; [exists depth; by apply (tree_links _ _ _ L)|done]|].
    by apply (removed_links _ (h1 c')).
Qed.

(** Unlinking a child that was blocked. *)
Lemma remove_quiet c' :
  parent_ c' = parent_ c -> blocked_ c' = blocked_ c -> kids (body c) ≡ₚ child :: kids (body c') -> node_ok h c' ->
  remove_done (Some (h1 c', true)).
Proof.
  intros Hpc Hb Hk Hn. pose proof parent_ne as Hne. destruct (unlink_ok c' Hpc Hk) as [R T'].
  exists (h1 c'). split; [done|]. split; [split; [by exists depth|]|done].
  intros b cb Hcb. destruct (decide (b = a)) as [->|]; [|by apply (relinked_others h a child c ck Rest Ha Hck None c' b)].
  rewrite relinked_a in Hcb by done. injection Hcb as <-. apply (node_ok_ext h); [|done]. intros k _. by apply (relinked_blocked h a child c ck).
Qed.

Lemma put_unlink (f : TrafficClass -> TrafficClass) :
  (h ← put a f h; orphan child h) = Some (h1 (f c)) /\ (h ← orphan child h; put a f h) = Some (h1 (f c)).
Proof.
  pose proof parent_ne as Hne. unfold orphan. split.
  - rewrite (put_known h a c) by done. rewrite bind_some, (put_known _ child ck); [done|]. by rewrite lookup_insert_ne.
  - rewrite (put_known h child ck) by done. rewrite bind_some, (put_known _ a c) by (by rewrite lookup_insert_ne). by rewrite relinked_comm.
Qed.

Lemma same_blocked (c' : TrafficClass) x : blocked_ c' = blocked_ c -> blocked_at (h1 c') x = blocked_at h x.
Proof. intros Hb. apply (relinked_blocked h a child c ck Ha Hck None c' x parent_ne Hb). Qed.

Lemma priority_remove f children : body c = Priority f children -> remove_done (Priority_RemoveChild a child f children h).
Proof.
  intros Eb. unfold Priority_RemoveChild. pose proof (erase_first_ok (fun d : Z * addr => bool_decide (d.2 = child)) children) as He.
  pose proof child_kid as Hin. pose proof (Rest a c Ha) as Hn. unfold node_ok in Hn. rewrite Eb in Hn, Hin. destruct Hn as (H1 & H2 & H3 & H4).
  destruct (erase_first _ children) as [[i l]|].
  2: { exfalso. cbn in Hin. apply list_elem_of_fmap in Hin as (d & -> & Hd).
       apply (proj1 (Forall_forall _ _) He d) in Hd. by apply bool_decide_eq_false in Hd. }
  destruct He as (d & Hd & Ed%bool_decide_eq_true & ->). pose proof (lookup_lt_Some _ _ _ Hd) as Hi.
  pose proof (length_delete children i ltac:(eauto)) as Hlen.
  rewrite (bind_put _ _ _ _ (proj1 (put_unlink _))). apply finish_remove; [done|done| |].
  - rewrite Eb. cbn. by rewrite (erased_perm snd children i d), Ed.
  - unfold node_blk. cbn [body set_body blocked_]. split; [destruct (decide (i < f)%nat); lia|]. split.
    + intros j e Hj He. unfold is_blocked. rewrite same_blocked by done. rewrite lookup_delete_spec in He. revert Hj He.
      destruct (decide (i < f)%nat), (decide (j < i)%nat); intros Hj He; try lia; (eapply H2; [|exact He]); lia.
    + rewrite H4. intros E%bool_decide_eq_true. destruct (decide (i < f)%nat); lia.
Qed.

Lemma weighted_remove r runnable blocked all :
  body c = WeightedFair r runnable blocked all -> remove_done (WeightedFair_RemoveChild a child r runnable blocked all h).
Proof.
  intros Eb. unfold WeightedFair_RemoveChild. pose proof (erase_first_ok (fun x => bool_decide (wc x = child)) blocked) as He.
  pose proof child_kid as Hin. pose proof (t_nodup _ _ T a c Ha) as Hnd. pose proof (Rest a c Ha) as Hn. unfold node_ok in Hn.
  rewrite Eb in Hn, Hin, Hnd. destruct Hn as (H1 & H2 & H3). destruct (erase_first _ blocked) as [[i l]|].
  - destruct He as (d & Hd & Ed%bool_decide_eq_true & ->). rewrite (bind_put _ _ _ _ (proj1 (put_unlink _))).
    pose proof (delete_Permutation blocked i d Hd) as P. apply remove_quiet; [done|done| |].
    + rewrite Eb. cbn. rewrite !map_app, (erased_perm wc blocked i d Hd), Ed. by rewrite <- Permutation_middle.
    + unfold node_ok. cbn. split; [done|]. split; [|done]. rewrite P in H2. by apply Forall_cons in H2 as [_ ?].
  - destruct (delete_single_perm wf_lt (fun x => bool_decide (wc x = child)) runnable) as (o & run & -> & Ho). rewrite bind_some.
    destruct o as [x|].
    2: { exfalso. cbn in Hin. rewrite map_app in Hin. apply elem_of_app in Hin as [Hin|Hin];
         apply list_elem_of_fmap in Hin as (y & -> & Hy); [destruct Ho as [_ Ho]; apply (proj1 (Forall_forall _ _) Ho y) in Hy|
         apply (proj1 (Forall_forall _ _) He y) in Hy]; by apply bool_decide_eq_false in Hy. }
    destruct Ho as (Ex%bool_decide_eq_true & P). rewrite (bind_put _ _ _ _ (proj1 (put_unlink _))).
    pose proof (fmap_Permutation wc _ _ P) as Pw. cbn in Pw. apply finish_remove; [done|done| |].
    + rewrite Eb. cbn. rewrite !map_app. rewrite Pw. by rewrite Ex.
    + cbn in Hnd. rewrite map_app in Hnd. apply NoDup_app in Hnd as [Hnd _]. rewrite Pw in H1, Hnd.
      apply Forall_cons in H1 as [_ H1]. apply NoDup_cons in Hnd as [_ Hnd]. unfold node_blk. cbn. split; [|split; [|split; [done|]]].
      * exists child. eapply Forall_impl; [exact H1|]. intros y Hy. right. unfold unblocked. by rewrite same_blocked.
      * eapply Forall_impl; [exact H2|]. intros y Hy. unfold is_blocked. by rewrite same_blocked.
      * rewrite H3. intros ->%bool_decide_eq_true. by apply Permutation_nil_cons in P.
Qed.

Lemma robin_remove n runnable blocked all :
  body c = RoundRobin n runnable blocked all -> remove_done (RoundRobin_RemoveChild a child n runnable blocked all h).
Proof.
  intros Eb. unfold RoundRobin_RemoveChild. pose proof (erase_first_ok (fun x => bool_decide (x = child)) blocked) as He.
  pose proof child_kid as Hin. pose proof (Rest a c Ha) as Hn. unfold node_ok in Hn.
  rewrite Eb in Hn, Hin. destruct Hn as (H1 & H2 & H3 & H4). destruct (erase_first _ blocked) as [[i l]|].
  - destruct He as (d & Hd & ->%bool_decide_eq_true & ->). rewrite (bind_put _ _ _ _ (proj1 (put_unlink _))).
    pose proof (delete_Permutation blocked i child Hd) as P. apply remove_quiet; [done|done| |].
    + rewrite Eb. cbn. rewrite Permutation_middle. by f_equiv.
    + unfold node_ok. cbn. split; [done|]. split; [|done]. rewrite P in H2. by apply Forall_cons in H2 as [_ ?].
  - pose proof (erase_first_ok (fun x => bool_decide (x = child)) runnable) as Hr. destruct (erase_first _ runnable) as [[i l]|].
    2: { exfalso. cbn in Hin. apply elem_of_app in Hin as [Hin|Hin];
         [apply (proj1 (Forall_forall _ _) Hr child) in Hin|apply (proj1 (Forall_forall _ _) He child) in Hin];
         by apply bool_decide_eq_false in Hin. }
    destruct Hr as (d & Hd & ->%bool_decide_eq_true & ->). pose proof (delete_Permutation runnable i child Hd) as P.
    rewrite (bind_put _ _ _ _ (proj1 (put_unlink _))). apply finish_remove; [done|done| |].
    + rewrite Eb. cbn. rewrite app_comm_cons. by f_equiv.
    + unfold node_blk. cbn. split; [|split].
      * eapply Forall_impl; [exact H2|]. intros y Hy. unfold is_blocked. by rewrite same_blocked.
      * rewrite H3. intros ->%bool_decide_eq_true. done.
      * apply rr_adjust_ok. pose proof (length_delete runnable i ltac:(eauto)). pose proof (lookup_lt_Some _ _ _ Hd). lia.
Qed.

Lemma limit_remove r : body c = RateLimit r -> remove_done (RateLimit_RemoveChild a child r h).
Proof.
  intros Eb. unfold RateLimit_RemoveChild. pose proof child_kid as Hin. rewrite Eb in Hin. cbn in Hin.
  destruct (child_ r) as [k|] eqn:Er; [|by apply elem_of_nil in Hin]. apply list_elem_of_singleton in Hin as <-.
  rewrite decide_False by (intros E; by destruct E). rewrite (bind_put _ _ _ _ (proj2 (put_unlink _))).
  apply finish_remove; [done|done| |done]. rewrite Eb. cbn. by rewrite Er.
Qed.

Lemma unlinked_ok : remove_done (RemoveChild a child h).
Proof.
  unfold RemoveChild. rewrite Ha, Hck, !bind_some. rewrite decide_False by (intros E; by destruct E).
  destruct (body c) as [f ch|r run bl all|n run bl all|r|w] eqn:Eb.
  - by apply priority_remove.
  - by apply weighted_remove.
  - by apply robin_remove.
  - by apply limit_remove.
  - exfalso. pose proof child_kid as Hin. rewrite Eb in Hin. by apply elem_of_nil in Hin.
Qed.

End Unlink.

(** ** Creating *)

(** What the constructors leave. *)
Definition fresh_body (b : tc_body) : Prop :=
  match b with
  | Priority f children => f = O /\ children = []
  | WeightedFair _ runnable blocked all => runnable = [] /\ blocked = [] /\ all = []
  | RoundRobin n runnable blocked all => n = O /\ runnable = [] /\ blocked = [] /\ all = []
  | RateLimit r => child_ r = None
  | Leaf _ => True
  end.

Lemma empty_well_formed : well_formed ∅.
Proof.
  assert (E : forall (a : addr) (c : TrafficClass), (∅ : store) !! a = Some c -> False) by (intros a c; by rewrite lookup_empty).
  split; [exists (fun _ => O); split|unfold at_rest]; intros; exfalso; eauto.
Qed.

Lemma create_ok h a name blocked b :
  well_formed h -> h !! a = None -> fresh_body b -> (blocked = match b with Leaf _ => false | _ => true end) ->
  well_formed (<[a := TC name None (Usage 0 0 0 0) 0 0 blocked b]> h).
Proof.
  intros [[depth T] Rest] Ha Hb Hbl. set (c0 := TC _ _ _ _ _ _ _).
  assert (Hk : kids (body c0) = []).
  { cbn. destruct b; cbn in *; [by destruct Hb as [_ ->]|by destruct Hb as (-> & -> & _)|by destruct Hb as (_ & -> & -> & _)|by rewrite Hb|done]. }
  assert (Hne : forall x c, <[a := c0]> h !! x = Some c -> (x = a /\ c = c0) \/ h !! x = Some c).
  { intros x c. destruct (decide (x = a)) as [->|]; [rewrite lookup_insert_eq; intros [= <-]; by left|].
    rewrite lookup_insert_ne by done. by right. }
  assert (Hold : forall x c, h !! x = Some c -> <[a := c0]> h !! x = Some c) by (intros x c Hx; rewrite lookup_insert_ne; [done|congruence]).
  split.
  - apply (ranked_tree _ depth). split.
    + intros x c k Hx Hin. destruct (Hne x c Hx) as [[-> ->]|Hx']; [rewrite Hk in Hin; by apply elem_of_nil in Hin|].
      destruct (t_kid _ _ T x c k Hx' Hin) as (ck & Hck & E). exists ck. split; [by apply Hold|done].
    + intros k ck x Hx Hp. destruct (Hne k ck Hx) as [[-> ->]|Hx']; [done|].
      destruct (t_parent _ _ T k ck x Hx' Hp) as (c & Hc & Hin). exists c. split; [by apply Hold|done].
    + intros x c Hx. destruct (Hne x c Hx) as [[-> ->]|Hx']; [rewrite Hk; constructor|by apply (t_nodup _ _ T x)].
  - intros x c Hx. destruct (Hne x c Hx) as [[-> ->]|Hx'].
    + unfold node_ok. cbn. destruct b as [f ch|r run bl all|n run bl all|r|w]; cbn in *.
      * destruct Hb as [-> ->]. split_and!; [done|intros; lia|done|done].
      * by destruct Hb as (-> & -> & _).
      * destruct Hb as (-> & -> & -> & _). split_and!; try done. cbn. lia.
      * by rewrite Hbl.
      * done.
    + apply (node_ok_ext h); [|by apply (Rest x)]. intros k Hin. rewrite blocked_insert. destruct (decide (a = k)) as [<-|]; [|done].
      destruct (t_kid _ _ T x c a Hx' Hin) as (ck & Hck & _). congruence.
Qed.

(** ** What can be built *)

(** The states reached from [s] by creating, adding and removing classes, if no class
    is added below itself. *)
Inductive builds (s : Sched) : Sched -> Prop :=
  | builds_refl : builds s s
  | builds_create s1 a name b : builds s s1 -> tcs s1 !! a = None -> fresh_body b -> builds s (CreateTrafficClass a name b s1).1
  | builds_add s1 tsc a child arg h ret : builds s s1 -> ~ above (tcs s1) child a ->
      AddChild tsc a child arg (tcs s1) = Some (h, ret) -> builds s (with_tcs h (wakeup_queue_ s1) s1)
  | builds_remove s1 a child h ret : builds s s1 ->
      RemoveChild a child (tcs s1) = Some (h, ret) -> builds s (with_tcs h (wakeup_queue_ s1) s1).

Lemma well_formed_add h tsc a child arg c ck :
  well_formed h -> h !! a = Some c -> h !! child = Some ck -> ~ above h child a -> (forall w, body c <> Leaf w) ->
  add_done h a child (AddChild tsc a child arg h) (can_add c ck arg).
Proof. intros [[depth T] Rest] Ha Hck Hab Hl. by apply (add_child_ok h depth). Qed.

Lemma well_formed_remove h a child c ck :
  well_formed h -> h !! a = Some c -> h !! child = Some ck ->
  exists h', RemoveChild a child h = Some (h', bool_decide (parent_ ck = Some a)) /\ well_formed h' /\
    if decide (parent_ ck = Some a) then removed h h' a child else h' = h.
Proof.
  intros W Ha Hck. pose proof W as [[depth T] Rest]. destruct (decide (parent_ ck = Some a)) as [Hp|Hp].
  - destruct (unlinked_ok h depth a child c ck T Rest Ha Hck Hp) as (h' & -> & W' & R). exists h'. by rewrite bool_decide_true.
  - exists h. unfold RemoveChild. rewrite Ha, Hck, !bind_some, decide_True, bool_decide_false by done. done.
Qed.

Lemma builds_well_formed s s' : builds s s' -> well_formed (tcs s) -> well_formed (tcs s').
Proof.
  intros B W. induction B as [|s1 a name b _ IH Ha Hb|s1 tsc a child arg h ret _ IH Hab E|s1 a child h ret _ IH E]; [done| | |].
  - unfold CreateTrafficClass. destruct (all_tcs_ s1 !! name); [done|]. by apply create_ok.
  - unfold AddChild in E. destruct (tcs s1 !! a) as [c|] eqn:Ha; [|done]. rewrite bind_some in E.
    destruct (tcs s1 !! child) as [ck|] eqn:Hck.
    2: { destruct (body c); try done; cbn in E; unfold Priority_AddChild, WeightedFair_AddChild, RoundRobin_AddChild, RateLimit_AddChild in E;
         by rewrite Hck in E. }
    assert (Hl : forall w, body c <> Leaf w) by (intros w Ew; by rewrite Ew in E).
    destruct (well_formed_add _ tsc a child arg c ck IH Ha Hck Hab Hl) as (h' & E' & W' & _).
    unfold AddChild in E'. rewrite Ha, bind_some in E'. rewrite E in E'. by injection E' as -> _.
  - unfold RemoveChild in E. destruct (tcs s1 !! a) as [c|] eqn:Ha; [|done]. destruct (tcs s1 !! child) as [ck|] eqn:Hck; [|done].
    destruct (well_formed_remove _ a child c ck IH Ha Hck) as (h' & E' & W' & _).
    unfold RemoveChild in E'. rewrite Ha, Hck in E'. rewrite E in E'. by injection E' as -> _.
Qed.

(** C19. Every state of the scheduler that creating classes, adding and removing children
    leads to from a well-formed one, as long as no class is added to itself or to one
    below it (the code does not prevent it: [add_child_cycle]), is well formed: a forest, linked both ways, in which
    every class agrees with its children on what can run. In each such state a class is
    created under a name exactly when the name is free; [AddChild] of a class that is not
    above the parent returns, accepts exactly what the policy of the parent allows, and
    then changes these two links only; [RemoveChild] returns, and removes exactly a child of
    the class. *)
Theorem classes_well_formed s0 s :
  well_formed (tcs s0) -> builds s0 s ->
  well_formed (tcs s) /\
  (forall a name b, tcs s !! a = None -> fresh_body b ->
    match all_tcs_ s !! name with
    | Some _ => CreateTrafficClass a name b s = (s, None)
    | None => exists s', CreateTrafficClass a name b s = (s', Some a) /\ well_formed (tcs s') /\ Find name s' = Some a /\
        (forall x, x <> a -> tcs s' !! x = tcs s !! x)
    end) /\
  (forall tsc a child arg c ck, tcs s !! a = Some c -> tcs s !! child = Some ck -> ~ above (tcs s) child a ->
    (forall w, body c <> Leaf w) -> exists h',
      AddChild tsc a child arg (tcs s) = Some (h', can_add c ck arg) /\ well_formed h' /\
      if can_add c ck arg then added (tcs s) h' a child else h' = tcs s) /\
  (forall a child c ck, tcs s !! a = Some c -> tcs s !! child = Some ck -> exists h',
      RemoveChild a child (tcs s) = Some (h', bool_decide (parent_ ck = Some a)) /\ well_formed h' /\
      if decide (parent_ ck = Some a) then removed (tcs s) h' a child else h' = tcs s).
Proof.
  intros W0 B. pose proof (builds_well_formed _ _ B W0) as W. split; [done|]. split; [|split].
  - intros a name b Ha Hb. unfold CreateTrafficClass, Find. destruct (all_tcs_ s !! name) eqn:En; [done|].
    eexists. split; [reflexivity|]. split; [by apply create_ok|]. split; [apply lookup_insert_eq|].
    intros x Hx. by apply lookup_insert_ne.
  - intros tsc a child arg c ck Ha Hck Hab Hl. exact (well_formed_add _ tsc a child arg c ck W Ha Hck Hab Hl).
  - intros a child c ck. by apply well_formed_remove.
Qed.

(** ** On concrete classes *)

Definition new_sched : Sched := Sch ∅ ∅ None None [] 0 0 0.

(** A round-robin class and a leaf. *)
Definition two_classes : Sched :=
  (CreateTrafficClass 2%positive "leaf" (Leaf 0) (CreateTrafficClass 1%positive "root" (RoundRobin 0 [] [] []) new_sched).1).1.

Lemma two_classes_built : builds new_sched two_classes.
Proof. apply builds_create; [apply builds_create; [constructor|reflexivity|by cbn]|reflexivity|exact I]. Qed.

(** The leaf is added to the class, which can run then. *)
Lemma classes_well_formed_witness : exists h',
  AddChild 0 1%positive 2%positive 0 (tcs two_classes) = Some (h', true) /\ well_formed h' /\ added (tcs two_classes) h' 1%positive 2%positive /\
  blocked_at (tcs two_classes) 1%positive = true /\ blocked_at h' 1%positive = false.
Proof.
  destruct (classes_well_formed new_sched two_classes empty_well_formed two_classes_built) as (_ & _ & Hadd & _).
  edestruct (Hadd 0 1%positive 2%positive 0) as (h' & E & W & A); [reflexivity|reflexivity| |intros w; discriminate|].
  - intros H. inversion H as [|x c p Hc Hp]; subst. vm_compute in Hc. injection Hc as <-. discriminate.
  - exists h'. split; [exact E|]. split; [exact W|]. split; [exact A|]. split; [reflexivity|].
    vm_compute in E. injection E as <-. reflexivity.
Defined.

(** A class can be made its own child. *)
Lemma add_child_cycle : exists h' c,
  AddChild 0 1%positive 1%positive 0 (tcs two_classes) = Some (h', true) /\
  h' !! 1%positive = Some c /\ parent_ c = Some 1%positive /\ kids (body c) = [1%positive] /\ ~ well_formed h'.
Proof.
  destruct (AddChild 0 1%positive 1%positive 0 (tcs two_classes)) as [[h' ret]|] eqn:E; [|by vm_compute in E].
  vm_compute in E. injection E as <- <-. eexists _, _. split; [reflexivity|]. split; [reflexivity|]. split; [reflexivity|].
  split; [reflexivity|]. intros [[depth T] _]. destruct (t_kid _ _ T 1%positive _ 1%positive eq_refl) as (_ & _ & _ & Hd); [by constructor|lia].
Qed.
