(* ===== verification/Gates.v ===== *)
(** * Modules and gates: [gate.h], [gate.cc] and the gates of [module.cc]

    A module has vectors of pointers to its gates, an output gate points to the
    input gate it is connected to, and an input gate keeps the output gates
    upstream of it.  Modules and gates are objects in stores, as the code has
    them, so that a gate that is deleted while another object points to it would
    be seen: [None] is a null or dangling pointer, an index out of range, or a
    failed [CHECK]. *)

From stdpp Require Import strings pretty sorting.
From S2P Require Import Prelude Pool.

(** ** Data *)

Inductive AccessMode := kRead | kWrite | kUpdate.

#[export] Instance AccessMode_eq_dec : EqDecision AccessMode.
Proof. solve_decision. Defined.

Record Attribute := Attr { a_name : string; a_size : Z; mode : AccessMode; scope_id : Z }.

Record GateHook := Hook { class_name_ : string; hname : string; priority_ : Z }.

Record OGate := OG {
  og_module : addr;
  og_idx : nat;
  next_ : addr;
  igate_ : option addr;
  igate_idx_ : nat;
  og_hooks : list GateHook
}.

Record IGate := IG {
  ig_module : addr;
  ig_idx : nat;
  ogates_upstream : list addr;
  ig_priority : Z;
  mergeable_ : bool;
  ig_hooks : list GateHook
}.

Record Module := Mod {
  mname : string;
  num_igates : nat;
  num_ogates : nat;
  attrs_ : list Attribute;
  attr_offsets_ : list Z;
  igates_ : list (option addr);
  ogates_ : list (option addr)
}.

Record graph := Graph { mods : gmap addr Module; igs : gmap addr IGate; ogs : gmap addr OGate }.

Definition set_attrs (l : list Attribute) (m : Module) : Module :=
  Mod (mname m) (num_igates m) (num_ogates m) l (attr_offsets_ m) (igates_ m) (ogates_ m).
Definition set_offsets (l : list Z) (m : Module) : Module :=
  Mod (mname m) (num_igates m) (num_ogates m) (attrs_ m) l (igates_ m) (ogates_ m).
Definition set_igates (l : list (option addr)) (m : Module) : Module :=
  Mod (mname m) (num_igates m) (num_ogates m) (attrs_ m) (attr_offsets_ m) l (ogates_ m).
Definition set_ogates (l : list (option addr)) (m : Module) : Module :=
  Mod (mname m) (num_igates m) (num_ogates m) (attrs_ m) (attr_offsets_ m) (igates_ m) l.

Definition with_mods (h : gmap addr Module) (g : graph) : graph := Graph h (igs g) (ogs g).
Definition with_igs (h : gmap addr IGate) (g : graph) : graph := Graph (mods g) h (ogs g).
Definition with_ogs (h : gmap addr OGate) (g : graph) : graph := Graph (mods g) (igs g) h.

(** The object at [m] changed by [f]. *)
Definition upd_mod (m : addr) (f : Module -> Module) (g : graph) : option graph :=
  c ← mods g !! m; Some (with_mods (<[m := f c]> (mods g)) g).
Definition upd_ig (i : addr) (f : IGate -> IGate) (g : graph) : option graph :=
  c ← igs g !! i; Some (with_igs (<[i := f c]> (igs g)) g).
Definition upd_og (o : addr) (f : OGate -> OGate) (g : graph) : option graph :=
  c ← ogs g !! o; Some (with_ogs (<[o := f c]> (ogs g)) g).

Definition EBUSY : Z := 16.
Definition EEXIST : Z := 17.
Definition EINVAL : Z := 22.
Definition ENOSPC : Z := 28.
Definition MAX_GATES : Z := 8192.

(** ** Hooks *)

Definition hook_before (x y : GateHook) : bool :=
  (priority_ x <? priority_ y) || ((priority_ x =? priority_ y) && String.ltb (hname x) (hname y)).

Definition hook_le (x y : GateHook) : Prop := hook_before y x = false.

#[export] Instance hook_le_dec x y : Decision (hook_le x y).
Proof. unfold hook_le. apply _. Defined.

(** [AddHook]: 0, or the error. *)
Definition AddHook (hook : GateHook) (hooks_ : list GateHook) : list GateHook * Z :=
  if existsb (fun h => String.eqb (hname h) (hname hook)) hooks_ then (hooks_, EEXIST)
  else (merge_sort hook_le (hooks_ ++ [hook]), 0).

Definition FindHook (name : string) (hooks_ : list GateHook) : option GateHook :=
  snd <$> list_find (fun h => hname h = name) hooks_.
Definition FindHookByClass (class_name : string) (hooks_ : list GateHook) : option GateHook :=
  snd <$> list_find (fun h => class_name_ h = class_name) hooks_.

(** The hooks without the first of which [P] holds. *)
Definition remove_first (P : GateHook -> Prop) `{!forall h, Decision (P h)} (hooks_ : list GateHook) : list GateHook :=
  match list_find P hooks_ with Some (i, _) => delete i hooks_ | None => hooks_ end.

Definition RemoveHook (name : string) : list GateHook -> list GateHook := remove_first (fun h => hname h = name).
Definition RemoveHookByClass (class_name : string) : list GateHook -> list GateHook :=
  remove_first (fun h => class_name_ h = class_name).

(** The first free name; one of the first [length hooks_ + 1] is. *)
Fixpoint free_name (fuel : nat) (template : string) (i : N) (hooks_ : list GateHook) : option string :=
  match fuel with
  | O => None
  | S fuel =>
      let name := (template +:+ pretty i)%string in
      if existsb (fun h => String.eqb name (hname h)) hooks_ then free_name fuel template (i + 1) hooks_ else Some name
  end.

Definition GenerateDefaultName (template : string) (hooks_ : list GateHook) : option string :=
  free_name (S (length hooks_)) template 0 hooks_.

(** [CreateGateHook]: [init] is the error code of the initialisation of the hook. *)
Definition CreateGateHook (class template name : string) (priority init : Z) (hooks_ : list GateHook) :
    option (list GateHook * Z) :=
  if negb (init =? 0) then Some (hooks_, init)
  else
    name ← (if String.eqb name "" then GenerateDefaultName template hooks_ else Some name);
    Some (AddHook (Hook class name priority) hooks_).

(** ** Input and output gates *)

Definition PushOgate (og : addr) (i : IGate) : IGate :=
  let l := ogates_upstream i ++ [og] in
  IG (ig_module i) (ig_idx i) l (ig_priority i) (bool_decide (1 < length l)%nat) (ig_hooks i).

(** The flag is left alone when [og] is found. *)
Definition RemoveOgate (og : addr) (i : IGate) : IGate :=
  match list_find (fun o => o = og) (ogates_upstream i) with
  | Some (k, _) => IG (ig_module i) (ig_idx i) (delete k (ogates_upstream i)) (ig_priority i) (mergeable_ i) (ig_hooks i)
  | None =>
      IG (ig_module i) (ig_idx i) (ogates_upstream i) (ig_priority i)
        (bool_decide (1 < length (ogates_upstream i))%nat) (ig_hooks i)
  end.

Definition SetIgate (ig : addr) (r : IGate) (o : OGate) : OGate :=
  OG (og_module o) (og_idx o) (next_ o) (Some ig) (ig_idx r) (og_hooks o).

(** ** Connecting *)

Definition is_active_gate (gates : list (option addr)) (idx : nat) : bool :=
  match gates !! idx with Some (Some _) => true | _ => false end.

(** [resize], if the vector is shorter. *)
Definition extend (n : nat) (gates : list (option addr)) : list (option addr) :=
  if decide (length gates < n)%nat then resize n None gates else gates.

(** The gates that it may need are allocated at [og] and [ig]. *)
Definition ConnectGate (og ig m : addr) (ogate_idx : nat) (m_next : addr) (igate_idx : nat) (g : graph) :
    option (graph * Z) :=
  c ← mods g !! m;
  if is_active_gate (ogates_ c) ogate_idx then Some (g, - EBUSY)
  else
    g ← upd_mod m (fun c => set_ogates (extend (S ogate_idx) (ogates_ c)) c) g;
    g ← upd_mod m_next (fun c => set_igates (extend (S igate_idx) (igates_ c)) c) g;
    let g := with_ogs (<[og := OG m ogate_idx m_next None 0 []]> (ogs g)) g in
    n ← mods g !! m_next;
    slot ← igates_ n !! igate_idx;
    '(g, i) ← match slot with
      | Some i => Some (g, i)
      | None =>
          let g := with_igs (<[ig := IG m_next igate_idx [] 0 false []]> (igs g)) g in
          g ← upd_mod m_next (fun c => set_igates (<[igate_idx := Some ig]> (igates_ c)) c) g;
          Some (g, ig)
      end;
    g ← upd_mod m (fun c => set_ogates (<[ogate_idx := Some og]> (ogates_ c)) c) g;
    r ← igs g !! i;
    g ← upd_og og (SetIgate i r) g;
    g ← upd_ig i (PushOgate og) g;
    Some (g, 0).

Definition DisconnectGate (m : addr) (ogate_idx : nat) (g : graph) : option graph :=
  c ← mods g !! m;
  match ogates_ c !! ogate_idx with
  | Some (Some og) =>
      o ← ogs g !! og;
      i ← igate_ o;
      g ← upd_ig i (RemoveOgate og) g;
      r ← igs g !! i;
      g ← (if decide (ogates_upstream r = []) then
             g ← upd_mod (ig_module r) (fun c => set_igates (<[ig_idx r := None]> (igates_ c)) c) g;
             Some (with_igs (delete i (igs g)) g)
           else Some g);
      g ← upd_mod m (fun c => set_ogates (<[ogate_idx := None]> (ogates_ c)) c) g;
      Some (with_ogs (delete og (ogs g)) g)
  | _ => Some g
  end.

(** The loop of [DisconnectModulesUpstream]. *)
Fixpoint drop_upstream (l : list addr) (g : graph) : option graph :=
  match l with
  | [] => Some g
  | og :: l =>
      o ← ogs g !! og;
      g ← upd_mod (og_module o) (fun c => set_ogates (<[og_idx o := None]> (ogates_ c)) c) g;
      drop_upstream l (with_ogs (delete og (ogs g)) g)
  end.

Definition DisconnectModulesUpstream (m : addr) (igate_idx : nat) (g : graph) : option graph :=
  c ← mods g !! m;
  guard (igate_idx < num_igates c)%nat;;
  match igates_ c !! igate_idx with
  | Some (Some i) =>
      r ← igs g !! i;
      g ← drop_upstream (ogates_upstream r) g;
      g ← upd_mod m (fun c => set_igates (<[igate_idx := None]> (igates_ c)) c) g;
      Some (with_igs (delete i (igs g)) g)
  | _ => Some g
  end.

(** What [Destroy] does to the gates. *)
Definition DestroyGates (m : addr) (g : graph) : option graph :=
  c ← mods g !! m;
  g ← foldl (fun g i => g ← g; DisconnectModulesUpstream m i g) (Some g) (seq 0 (length (igates_ c)));
  c ← mods g !! m;
  foldl (fun g i => g ← g; DisconnectGate m i g) (Some g) (seq 0 (length (ogates_ c))).

(** [ModuleGraph]; the default hook of a gate is not part of the answer. *)
Definition ConnectModules (og ig m : addr) (ogate_idx : nat) (m_next : addr) (igate_idx : nat) (g : graph) :
    option (graph * Z) :=
  c ← mods g !! m;
  n ← mods g !! m_next;
  if decide ((num_ogates c <= ogate_idx)%nat \/ MAX_GATES <= Z.of_nat ogate_idx) then Some (g, - EINVAL)
  else if decide ((num_igates n <= igate_idx)%nat \/ MAX_GATES <= Z.of_nat igate_idx) then Some (g, - EINVAL)
  else ConnectGate og ig m ogate_idx m_next igate_idx g.

Definition DisconnectModule (m : addr) (ogate_idx : nat) (g : graph) : option (graph * Z) :=
  c ← mods g !! m;
  if decide (num_ogates c <= ogate_idx)%nat then Some (g, - EINVAL)
  else g ← DisconnectGate m ogate_idx g; Some (g, 0).
