(* ===== verification/GateProps.v ===== *)
(** * Gates: the invariant, and the graph that they stand for

    Pointers between modules and gates go both ways ([gates_ok]).  What the
    operations are for is the connection of output gates to input gates
    ([edge]): connecting adds one, disconnecting removes it, and disconnecting an
    input gate removes those to it. *)

From stdpp Require Import strings.
From S2P Require Import Prelude Pool Gates.

(** The input gate, by module and index, that output gate [k] of [m] leads to. *)
Definition edge (g : graph) (m : addr) (k : nat) : option (addr * nat) :=
  c ← mods g !! m; og ← mjoin (ogates_ c !! k); o ← ogs g !! og; i ← igate_ o; r ← igs g !! i;
  Some (ig_module r, ig_idx r).

(** What gate [k] of module [m] is. *)
Definition oslot (g : graph) (m : addr) (k : nat) (og : addr) : Prop :=
  exists c, mods g !! m = Some c /\ ogates_ c !! k = Some (Some og).
Definition islot (g : graph) (m : addr) (k : nat) (i : addr) : Prop :=
  exists c, mods g !! m = Some c /\ igates_ c !! k = Some (Some i).

Record gates_ok (g : graph) : Prop := {
  k_slot : forall m k og, oslot g m k og -> exists o, ogs g !! og = Some o /\ og_module o = m /\ og_idx o = k;
  k_og : forall og o, ogs g !! og = Some o -> oslot g (og_module o) (og_idx o) og;
  k_up : forall og o, ogs g !! og = Some o ->
    exists i r, igate_ o = Some i /\ igs g !! i = Some r /\ og ∈ ogates_upstream r /\ next_ o = ig_module r /\ igate_idx_ o = ig_idx r;
  k_down : forall i r og, igs g !! i = Some r -> og ∈ ogates_upstream r ->
    exists o, ogs g !! og = Some o /\ igate_ o = Some i;
  k_islot : forall m k i, islot g m k i -> exists r, igs g !! i = Some r /\ ig_module r = m /\ ig_idx r = k;
  k_ig : forall i r, igs g !! i = Some r -> islot g (ig_module r) (ig_idx r) i;
  k_list : forall i r, igs g !! i = Some r ->
    NoDup (ogates_upstream r) /\ ogates_upstream r <> [] /\ ((1 < length (ogates_upstream r))%nat -> mergeable_ r = true)
}.

Lemma oslot_inj g m k a b : oslot g m k a -> oslot g m k b -> a = b.
Proof. intros (c & Hc & Ha) (d & Hd & Hb). congruence. Qed.

Lemma islot_inj g m k a b : islot g m k a -> islot g m k b -> a = b.
Proof. intros (c & Hc & Ha) (d & Hd & Hb). congruence. Qed.

Lemma edge_spec g m k n j :
  edge g m k = Some (n, j) <-> exists og o i r, oslot g m k og /\ ogs g !! og = Some o /\ igate_ o = Some i /\ igs g !! i = Some r /\
    ig_module r = n /\ ig_idx r = j.
Proof.
  unfold edge, oslot. split.
  - destruct (mods g !! m) as [c|]; [|done]. cbn. destruct (ogates_ c !! k) as [[og|]|] eqn:Es; [|done|done]. cbn.
    destruct (ogs g !! og) as [o|] eqn:Eo; [|done]. cbn. destruct (igate_ o) as [i|] eqn:Ei; [|done]. cbn.
    destruct (igs g !! i) as [r|] eqn:Er; [|done]. intros [= <- <-]. exists og, o, i, r. split; [by exists c|done].
  - intros (og & o & i & r & (c & -> & Es) & Eo & Ei & Er & <- & <-). cbn. rewrite Es. cbn. rewrite Eo. cbn. rewrite Ei. cbn. by rewrite Er.
Qed.

(** What an edge is. *)
Lemma edge_eq (g : graph) m k (e : option (addr * nat)) :
  (forall n j, edge g m k = Some (n, j) <-> e = Some (n, j)) -> edge g m k = e.
Proof.
  intros H. destruct (edge g m k) as [[n j]|]; [symmetry; by apply H|]. destruct e as [[n j]|]; [|done]. by apply H.
Qed.

(** ** Vectors of gates *)

Lemma active_spec l k : is_active_gate l k = bool_decide (is_Some (mjoin (l !! k))).
Proof. unfold is_active_gate. by destruct (l !! k) as [[|]|]. Qed.

Lemma extend_lookup n (l : list (option addr)) k x : extend n l !! k = Some (Some x) <-> l !! k = Some (Some x).
Proof.
  unfold extend. case_decide as H; [|done]. destruct (decide (k < length l)%nat).
  - rewrite lookup_resize by lia. done.
  - rewrite (lookup_ge_None_2 l) by lia. destruct (decide (k < n)%nat); [rewrite lookup_resize_new by lia|rewrite lookup_resize_old by lia]; done.
Qed.

Lemma extend_length n (l : list (option addr)) : length (extend n l) = Nat.max n (length l).
Proof. unfold extend. case_decide; [rewrite length_resize|]; lia. Qed.

Lemma connect_lookup n (l : list (option addr)) j v k x :
  (j < n)%nat -> <[j := Some v]> (extend n l) !! k = Some (Some x) <-> (k = j /\ x = v) \/ (k <> j /\ l !! k = Some (Some x)).
Proof.
  intros Hj. destruct (decide (j = k)) as [->|Hne].
  - rewrite list_lookup_insert_eq by (rewrite extend_length; lia). naive_solver.
  - rewrite list_lookup_insert_ne, extend_lookup by done. naive_solver.
Qed.

Lemma clear_lookup (l : list (option addr)) j k x :
  <[j := None]> l !! k = Some (Some x) <-> k <> j /\ l !! k = Some (Some x).
Proof.
  destruct (decide (j = k)) as [->|Hne].
  - split; [|tauto]. intros H. rewrite list_lookup_insert in H. case_decide; [done|]. apply lookup_lt_Some in H as Hl.
    destruct (decide (k < length l)%nat); [naive_solver|lia].
  - rewrite list_lookup_insert_ne by done. naive_solver.
Qed.

(** ** Updates *)

Lemma upd_mod_some m f g c : mods g !! m = Some c -> exists g', upd_mod m f g = Some g' /\ igs g' = igs g /\ ogs g' = ogs g /\
  forall x, mods g' !! x = (if decide (x = m) then f else id) <$> mods g !! x.
Proof.
  intros Hm. unfold upd_mod. rewrite Hm, bind_some. eexists. split; [done|]. split; [done|]. split; [done|]. intros x. cbn.
  case_decide as E; [subst; by rewrite lookup_insert_eq, Hm|]. rewrite lookup_insert_ne by done. by destruct (mods g !! x).
Qed.

Lemma extend_slot n (l : list (option addr)) k : (k < n)%nat -> exists v, extend n l !! k = Some v /\ (v = None -> is_active_gate l k = false) /\
  (forall x, v = Some x -> l !! k = Some (Some x)).
Proof.
  intros Hk. destruct (lookup_lt_is_Some_2 (extend n l) k) as [v Hv]; [rewrite extend_length; lia|]. exists v. split; [done|]. split.
  - intros ->. rewrite active_spec. apply bool_decide_eq_false. intros [x Hx]. assert (l !! k = Some (Some x)) as Hl by (by destruct (l !! k) as [[|]|]; simplify_eq/=).
    apply (extend_lookup n) in Hl. congruence.
  - intros x ->. by apply (extend_lookup n).
Qed.

(** The module at [x] after output gate [k] of [m] has been connected to input gate [j] of [n]. *)
Definition connected (og i m : addr) (k : nat) (n : addr) (j : nat) (x : addr) (c : Module) : Module :=
  set_ogates (if decide (x = m) then <[k := Some og]> (extend (S k) (ogates_ c)) else ogates_ c)
    (set_igates (if decide (x = n) then <[j := Some i]> (extend (S j) (igates_ c)) else igates_ c) c).

Lemma connect_spec g og ig m k n j c d :
  mods g !! m = Some c -> mods g !! n = Some d -> is_active_gate (ogates_ c) k = false -> gates_ok g ->
  exists g' i r, ConnectGate og ig m k n j g = Some (g', 0) /\
    (igates_ d !! j = Some (Some i) /\ igs g !! i = Some r \/
     is_active_gate (igates_ d) j = false /\ i = ig /\ r = IG n j [] 0 false []) /\
    ogs g' = <[og := OG m k n (Some i) (ig_idx r) []]> (ogs g) /\ igs g' = <[i := PushOgate og r]> (igs g) /\
    (forall x, mods g' !! x = connected og i m k n j x <$> mods g !! x).
Proof.
  intros Hm Hn Hfree K. unfold ConnectGate. rewrite Hm, bind_some, Hfree.
  edestruct (upd_mod_some m (fun c => set_ogates (extend (S k) (ogates_ c)) c)) as (g1 & -> & Ei1 & Eo1 & M1); [done|]. rewrite bind_some.
  destruct (mods g1 !! n) as [d1|] eqn:Hn1; [|rewrite M1, Hn in Hn1; done].
  edestruct (upd_mod_some n (fun c => set_igates (extend (S j) (igates_ c)) c)) as (g2 & -> & Ei2 & Eo2 & M2); [done|]. rewrite bind_some.
  cbn [mods with_ogs]. set (r0 := IG n j [] 0 false []).
  assert (D2 : exists d2, mods g2 !! n = Some d2 /\ igates_ d2 = extend (S j) (igates_ d)).
  { rewrite M2, M1, Hn. rewrite (decide_True (P := n = n)) by done. eexists. split; [done|]. cbn. by destruct (decide (n = m)). }
  destruct D2 as (d2 & Hd2 & Ed2). rewrite Hd2, bind_some, Ed2.
  destruct (extend_slot (S j) (igates_ d) j ltac:(lia)) as (v & -> & Hv1 & Hv2). rewrite bind_some.
  set (g3 := with_ogs _ g2).
  assert (S3 : exists g4 i r, match v with
      | Some i => Some (g3, i)
      | None => g ← upd_mod n (fun c => set_igates (<[j := Some ig]> (igates_ c)) c) (with_igs (<[ig := r0]> (igs g3)) g3); Some (g, ig)
      end = Some (g4, i) /\
    (igates_ d !! j = Some (Some i) /\ igs g !! i = Some r \/ is_active_gate (igates_ d) j = false /\ i = ig /\ r = r0) /\
    ogs g4 = ogs g3 /\ igs g4 !! i = Some r /\ (forall r', <[i := r']> (igs g4) = <[i := r']> (igs g)) /\
    (forall x, mods g4 !! x = (if decide (x = n) then (fun c => set_igates (<[j := Some i]> (igates_ c)) c) else id) <$> mods g2 !! x)).
  { destruct v as [i|].
    - specialize (Hv2 i eq_refl). destruct (k_islot _ K n j i (ex_intro _ d (conj Hn Hv2))) as (r & Hr & _). exists g3, i, r.
      split; [done|]. split; [by left|]. split; [done|]. split; [cbn; by rewrite Ei2, Ei1|].
      split; [intros r'; cbn; by rewrite Ei2, Ei1|]. intros x. cbn. case_decide as E; [|by destruct (mods g2 !! x)]. subst x.
      rewrite Hd2. cbn. f_equal. destruct d2. cbn in *. unfold set_igates. cbn. f_equal. rewrite Ed2. symmetry. apply list_insert_id.
      by apply extend_lookup.
    - edestruct (upd_mod_some n (fun c => set_igates (<[j := Some ig]> (igates_ c)) c) (with_igs (<[ig := r0]> (igs g3)) g3)) as (g4 & -> & Ei4 & Eo4 & M4); [exact Hd2|].
      exists g4, ig, r0. split; [done|]. split; [right; auto|]. split; [done|]. cbn in Ei4. rewrite Ei4. split; [by rewrite lookup_insert_eq|].
      split; [intros r'; by rewrite insert_insert_eq, Ei2, Ei1|]. intros x. rewrite M4. done. }
  destruct S3 as (g4 & i & r & -> & Hor & Eo4 & Hr & Ei4 & M4). rewrite bind_some.
  destruct (mods g4 !! m) as [c4|] eqn:Hm4; [|rewrite M4, M2, M1, Hm in Hm4; done].
  edestruct (upd_mod_some m (fun c => set_ogates (<[k := Some og]> (ogates_ c)) c)) as (g5 & -> & Ei5 & Eo5 & M5); [done|].
  rewrite bind_some, Ei5, Hr, bind_some. unfold upd_og, upd_ig. rewrite Eo5, Eo4. cbn [ogs g3 with_ogs]. rewrite lookup_insert_eq, bind_some.
  rewrite bind_some. cbn [igs with_ogs ogs]. rewrite Ei5, Hr, !bind_some. eexists _, i, r. split; [done|]. split; [done|].
  split; [cbn; by rewrite insert_insert_eq, Eo2, Eo1|]. split; [cbn; by rewrite Ei4|]. intros x. cbn. rewrite M5, M4, M2, M1.
  destruct (mods g !! x) as [cx|]; [|done]. cbn. f_equal. unfold connected.
  destruct (decide (x = m)), (decide (x = n)); cbn; by destruct cx.
Qed.

(** ** The invariant and the edges *)

Section Connected.
Context (g g' : graph) (og ig i m n : addr) (k j : nat) (r : IGate) (K : gates_ok g).
Context (Hor : islot g n j i /\ igs g !! i = Some r \/ (forall v, ~ islot g n j v) /\ igs g !! i = None /\ r = IG n j [] 0 false []).
Context (Fo : ogs g !! og = None) (Fs : forall v, ~ oslot g m k v).
Context (Eo : ogs g' = <[og := OG m k n (Some i) (ig_idx r) []]> (ogs g)) (Ei : igs g' = <[i := PushOgate og r]> (igs g)).
Context (So : forall x l v, oslot g' x l v <-> (x = m /\ l = k /\ v = og) \/ (~ (x = m /\ l = k) /\ oslot g x l v)).
Context (Si : forall x l v, islot g' x l v <-> (x = n /\ l = j /\ v = i) \/ (~ (x = n /\ l = j) /\ islot g x l v)).

Lemma target_gate : ig_module r = n /\ ig_idx r = j.
Proof.
  destruct Hor as [[Hs Hr]|(_ & _ & ->)]; [|done]. destruct (k_islot _ K _ _ _ Hs) as (r' & Hr' & E). congruence.
Qed.

Lemma old_slot x l v : oslot g x l v -> oslot g' x l v.
Proof. intros Hv. apply So. right. split; [|done]. intros [-> ->]. by destruct (Fs v). Qed.

Lemma old_islot x l v : islot g x l v -> islot g' x l v.
Proof.
  intros Hv. apply Si. destruct (decide (x = n /\ l = j)) as [[-> ->]|]; [|by right]. left. split; [done|]. split; [done|].
  destruct Hor as [[Hs _]|[Hn _]]; [by apply (islot_inj g n j)|by destruct (Hn v)].
Qed.

Lemma fresh_up i' r' : igs g !! i' = Some r' -> og ∉ ogates_upstream r'.
Proof. intros Hr' Hin. destruct (k_down _ K _ _ _ Hr' Hin) as (o & Ho & _). congruence. Qed.

Lemma connected_ok : gates_ok g'.
Proof.
  destruct target_gate as [En Ej]. split.
  - intros x l v [(-> & -> & ->)|[_ Hv]]%So; [eexists; split; [by rewrite Eo, lookup_insert_eq|done]|].
    destruct (k_slot _ K _ _ _ Hv) as (o & Ho & E). exists o. split; [|done]. rewrite Eo, lookup_insert_ne; [done|congruence].
  - intros v o. rewrite Eo. intros [[<- <-]|[Hne Ho]]%lookup_insert_Some; [apply So; by left|]. apply old_slot. by apply (k_og _ K).
  - intros v o. rewrite Eo, Ei. intros [[<- <-]|[Hne Ho]]%lookup_insert_Some.
    + exists i, (PushOgate og r). rewrite lookup_insert_eq. repeat (split; [done|]). split; [|by rewrite <- En].
      cbn. apply elem_of_app. right. by constructor.
    + destruct (k_up _ K v o Ho) as (i' & r' & H1 & H2 & H3 & H4 & H5). destruct (decide (i = i')) as [<-|Hni].
      * exists i, (PushOgate og r). rewrite lookup_insert_eq. destruct Hor as [[_ Hr]|(_ & Hr & _)]; [|congruence].
        rewrite Hr in H2. injection H2 as <-. repeat (split; [done|]). split; [|done]. cbn. apply elem_of_app. by left.
      * exists i', r'. rewrite lookup_insert_ne by done. done.
  - intros i' r' v. rewrite Eo, Ei. intros [[<- <-]|[Hne Hr']]%lookup_insert_Some Hin.
    + cbn in Hin. apply elem_of_app in Hin as [Hin| ->%list_elem_of_singleton].
      * destruct Hor as [[_ Hr]|(_ & _ & ->)]; [|by apply elem_of_nil in Hin].
        destruct (k_down _ K _ _ _ Hr Hin) as (o & Ho & E). exists o. rewrite lookup_insert_ne; [done|congruence].
      * eexists. rewrite lookup_insert_eq. done.
    + destruct (k_down _ K _ _ _ Hr' Hin) as (o & Ho & E). exists o. rewrite lookup_insert_ne; [done|congruence].
  - intros x l v [(-> & -> & ->)|[Hx Hv]]%Si; [eexists; split; [by rewrite Ei, lookup_insert_eq|done]|].
    destruct (k_islot _ K _ _ _ Hv) as (r' & Hr' & E1 & E2). exists r'. split; [|done]. rewrite Ei, lookup_insert_ne; [done|]. intros <-.
    destruct Hor as [[Hs Hr]|(_ & Hr & _)]; [|congruence]. apply Hx. split; congruence.
  - intros i' r'. rewrite Ei. intros [[<- <-]|[Hne Hr']]%lookup_insert_Some; [apply Si; left; by cbn|]. apply old_islot. by apply (k_ig _ K).
  - intros i' r'. rewrite Ei. intros [[<- <-]|[Hne Hr']]%lookup_insert_Some; [|by apply (k_list _ K i')]. cbn. split; [|split].
    + destruct Hor as [[_ Hr]|(_ & _ & ->)]; [|apply NoDup_singleton]. apply NoDup_app. destruct (k_list _ K _ _ Hr) as (Hnd & _).
      split; [done|]. split; [|apply NoDup_singleton]. intros v Hv ->%list_elem_of_singleton. by apply (fresh_up i r).
    + by intros [_ ?]%app_nil.
    + intros Hl. by apply bool_decide_eq_true.
Qed.

Lemma connected_edges x l : edge g' x l = if decide (x = m /\ l = k) then Some (n, j) else edge g x l.
Proof.
  destruct target_gate as [En Ej]. apply edge_eq. intros n' j'. rewrite edge_spec. case_decide as Hx.
  - destruct Hx as [-> ->]. split.
    + intros (v & o & i' & r' & Hs & Ho & Hi & Hr & <- & <-). apply So in Hs as [(_ & _ & ->)|[[] _]]; [|done].
      rewrite Eo, lookup_insert_eq in Ho. injection Ho as <-. injection Hi as <-. rewrite Ei, lookup_insert_eq in Hr.
      injection Hr as <-. cbn. by rewrite En, Ej.
    + intros [= <- <-]. do 4 eexists. split; [apply So; by left|]. rewrite Eo, Ei, !lookup_insert_eq. repeat split; [done..].
  - rewrite edge_spec. split.
    + intros (v & o & i' & r' & [(-> & -> & _)|[_ Hs]]%So & Ho & Hi & Hr & <- & <-); [by destruct Hx|].
      destruct (k_slot _ K _ _ _ Hs) as (o' & Ho' & _). rewrite Eo, lookup_insert_ne in Ho by congruence.
      destruct (k_up _ K _ _ Ho) as (i2 & r2 & H1 & H2 & _). rewrite Hi in H1. injection H1 as <-.
      exists v, o, i', r2. repeat (split; [done|]). rewrite Ei in Hr. apply lookup_insert_Some in Hr as [[<- <-]|[_ Hr]]; [|by simplify_eq].
      cbn. destruct Hor as [[_ Hr]|(_ & Hr & _)]; [|congruence]. split; congruence.
    + intros (v & o & i' & r' & Hs & Ho & Hi & Hr & <- & <-). exists v, o, i'. destruct (decide (i = i')) as [<-|].
      * exists (PushOgate og r). split; [by apply old_slot|]. rewrite Eo, Ei, lookup_insert_eq, lookup_insert_ne by congruence.
        destruct Hor as [[_ Hr2]|(_ & Hr2 & _)]; [|congruence]. rewrite Hr in Hr2. injection Hr2 as <-. done.
      * exists r'. split; [by apply old_slot|]. rewrite Eo, Ei, !lookup_insert_ne by congruence. done.
Qed.

End Connected.

Section Removed.
Context (g g' : graph) (i : addr) (r r' : IGate) (D : list addr) (K : gates_ok g).
Context (Hr : igs g !! i = Some r) (HD : forall v, v ∈ D -> v ∈ ogates_upstream r).
Context (Hu : forall v, v ∈ ogates_upstream r' <-> v ∈ ogates_upstream r /\ v ∉ D) (Hnd : NoDup (ogates_upstream r')).
Context (Em : ig_module r' = ig_module r) (Ex : ig_idx r' = ig_idx r) (Hmg : (1 < length (ogates_upstream r'))%nat -> mergeable_ r' = true).
Context (Eo : forall v, ogs g' !! v = if decide (v ∈ D) then None else ogs g !! v).
Context (Ei : forall v, igs g' !! v = if decide (v = i) then (if decide (ogates_upstream r' = []) then None else Some r') else igs g !! v).
Context (So : forall x l v, oslot g' x l v <-> oslot g x l v /\ v ∉ D).
Context (Si : forall x l v, islot g' x l v <-> islot g x l v /\ ~ (ogates_upstream r' = [] /\ v = i)).

Lemma kept_og v o : ogs g' !! v = Some o <-> ogs g !! v = Some o /\ v ∉ D.
Proof. rewrite Eo. destruct (decide (v ∈ D)); [split; [done|by intros [_ ?]]|tauto]. Qed.

Lemma removed_ok : gates_ok g'.
Proof.
  split.
  - intros x l v [Hv HvD]%So. destruct (k_slot _ K _ _ _ Hv) as (o & Ho & E). exists o. split; [by apply kept_og|done].
  - intros v o [Ho HvD]%kept_og. apply So. split; [by apply (k_og _ K)|done].
  - intros v o [Ho HvD]%kept_og. destruct (k_up _ K v o Ho) as (i2 & r2 & H1 & H2 & H3 & H4 & H5). exists i2.
    destruct (decide (i2 = i)) as [->|Hne].
    + rewrite Hr in H2. injection H2 as <-. exists r'. rewrite Ei, decide_True by done.
      assert (Hin : v ∈ ogates_upstream r') by (by apply Hu). rewrite decide_False by (intros E; rewrite E in Hin; by apply elem_of_nil in Hin).
      split; [done|]. split; [done|]. split; [done|]. by rewrite Em, Ex.
    + exists r2. by rewrite Ei, decide_False.
  - intros i2 r2 v Hi2 Hin. rewrite Ei in Hi2. destruct (decide (i2 = i)) as [E|E].
    + destruct (decide (ogates_upstream r' = [])); [done|]. injection Hi2 as <-. subst i2. apply Hu in Hin as [Hin HvD].
      destruct (k_down _ K _ _ _ Hr Hin) as (o & Ho & E). exists o. split; [by apply kept_og|done].
    + destruct (k_down _ K _ _ _ Hi2 Hin) as (o & Ho & Eg). exists o. split; [|done]. apply kept_og. split; [done|]. intros Hv.
      destruct (k_down _ K _ _ _ Hr (HD v Hv)) as (o2 & Ho2 & Eg2). congruence.
  - intros x l v [Hv Hno]%Si. destruct (k_islot _ K _ _ _ Hv) as (r2 & Hr2 & E1 & E2). rewrite Ei. destruct (decide (v = i)) as [E|E].
    + subst v. rewrite Hr in Hr2. injection Hr2 as <-. exists r'. rewrite decide_False by tauto. by rewrite Em, Ex.
    + by exists r2.
  - intros i2 r2. rewrite Ei. destruct (decide (i2 = i)) as [E|E].
    + destruct (decide (ogates_upstream r' = [])) as [|En]; [done|]. intros [= <-]. subst i2. apply Si. split; [|tauto]. rewrite Em, Ex. by apply (k_ig _ K).
    + intros H2. apply Si. split; [by apply (k_ig _ K)|tauto].
  - intros i2 r2. rewrite Ei. destruct (decide (i2 = i)) as [E|E]; [|by apply (k_list _ K i2)]. destruct (decide (ogates_upstream r' = [])); [done|]. by intros [= <-].
Qed.

Lemma removed_edges x l n j : edge g' x l = Some (n, j) <-> edge g x l = Some (n, j) /\ forall v, oslot g x l v -> v ∉ D.
Proof.
  rewrite !edge_spec. split.
  - intros (v & o & i2 & r2 & [Hs HvD]%So & [Ho _]%kept_og & Hi & H2 & <- & <-). split.
    + exists v, o, i2. rewrite Ei in H2. destruct (decide (i2 = i)) as [E|E]; [|by exists r2]. destruct (decide (ogates_upstream r' = [])); [done|]. injection H2 as <-. subst i2. by exists r.
    + intros w Hw. by rewrite (oslot_inj _ _ _ _ _ Hw Hs).
  - intros [(v & o & i2 & r2 & Hs & Ho & Hi & H2 & <- & <-) HvD]. specialize (HvD v Hs). exists v, o, i2.
    assert (ogs g' !! v = Some o) by (by apply kept_og). assert (oslot g' x l v) by (by apply So).
    destruct (decide (i2 = i)) as [->|Hne]; [|exists r2; by rewrite Ei, decide_False].
    rewrite Hr in H2. injection H2 as <-. exists r'. rewrite Ei, decide_True by done. split; [done|]. split; [done|]. split; [done|].
    rewrite decide_False; [done|]. intros E. destruct (k_up _ K v o Ho) as (i3 & r3 & G1 & G2 & G3 & _). rewrite Hi in G1. injection G1 as <-.
    rewrite Hr in G2. injection G2 as <-. assert (Hin : v ∈ ogates_upstream r') by (by apply Hu). rewrite E in Hin. by apply elem_of_nil in Hin.
Qed.

End Removed.

(** ** The operations *)

Lemma connected_slots g g' og i m k n j :
  (forall x, mods g' !! x = connected og i m k n j x <$> mods g !! x) -> is_Some (mods g !! m) -> is_Some (mods g !! n) ->
  (forall x l v, oslot g' x l v <-> (x = m /\ l = k /\ v = og) \/ (~ (x = m /\ l = k) /\ oslot g x l v)) /\
  (forall x l v, islot g' x l v <-> (x = n /\ l = j /\ v = i) \/ (~ (x = n /\ l = j) /\ islot g x l v)).
Proof.
  intros M [cm Hm] [cn Hn].
  assert (Ho : forall x l v, oslot g' x l v <-> exists c, mods g !! x = Some c /\ ogates_ (connected og i m k n j x c) !! l = Some (Some v)).
  { intros x l v. unfold oslot. rewrite M. destruct (mods g !! x) as [c|]; cbn; [|by split; intros (? & ? & _)]. split; intros (d & [= <-] & Hd); eauto. }
  assert (Hi : forall x l v, islot g' x l v <-> exists c, mods g !! x = Some c /\ igates_ (connected og i m k n j x c) !! l = Some (Some v)).
  { intros x l v. unfold islot. rewrite M. destruct (mods g !! x) as [c|]; cbn; [|by split; intros (? & ? & _)]. split; intros (d & [= <-] & Hd); eauto. }
  split; intros x l v; [rewrite Ho|rewrite Hi]; unfold connected; cbn.
  - destruct (decide (x = m)) as [->|Hx]; [|unfold oslot; split; [intros H; right; split; [tauto|done]|by intros [[? _]|[_ H]]]].
    split; [intros (c & Hc & [[-> ->]|[Hl Hv]]%connect_lookup); [by left|right; split; [tauto|by exists c]|lia]|].
    intros [(_ & -> & ->)|[Hl (c & Hc & Hv)]]; [exists cm|exists c]; (split; [done|apply connect_lookup; [lia|]]); [by left|right; split; [tauto|done]].
  - destruct (decide (x = n)) as [->|Hx]; [|unfold islot; split; [intros H; right; split; [tauto|done]|by intros [[? _]|[_ H]]]].
    split; [intros (c & Hc & [[-> ->]|[Hl Hv]]%connect_lookup); [by left|right; split; [tauto|by exists c]|lia]|].
    intros [(_ & -> & ->)|[Hl (c & Hc & Hv)]]; [exists cn|exists c]; (split; [done|apply connect_lookup; [lia|]]); [by left|right; split; [tauto|done]].
Qed.

Lemma inactive_slot (l : list (option addr)) k v : is_active_gate l k = false -> l !! k <> Some (Some v).
Proof. unfold is_active_gate. by intros H E; rewrite E in H. Qed.

(** A module before and after input gate [j] of [n] may have been made. *)
Definition grown (n : addr) (j : nat) (x : addr) (c c' : option Module) : Prop :=
  match c, c' with
  | Some c, Some c' => mname c' = mname c /\ num_igates c' = num_igates c /\ num_ogates c' = num_ogates c /\ attrs_ c' = attrs_ c /\
      attr_offsets_ c' = attr_offsets_ c /\
      (length (igates_ c) <= length (igates_ c') <= if decide (x = n) then Nat.max (S j) (length (igates_ c)) else length (igates_ c))%nat
  | None, None => True
  | _, _ => False
  end.

Lemma connect_gate_ok g og ig m k n j c d :
  gates_ok g -> mods g !! m = Some c -> mods g !! n = Some d -> ogs g !! og = None -> igs g !! ig = None ->
  exists g', ConnectGate og ig m k n j g = Some (g', if is_active_gate (ogates_ c) k then - EBUSY else 0) /\ gates_ok g' /\
    (forall x, grown n j x (mods g !! x) (mods g' !! x)) /\
    forall x l, edge g' x l = if decide (is_active_gate (ogates_ c) k = false /\ x = m /\ l = k) then Some (n, j) else edge g x l.
Proof.
  intros K Hm Hn Fo Fi. destruct (is_active_gate (ogates_ c) k) eqn:Ha.
  { exists g. unfold ConnectGate. rewrite Hm, bind_some, Ha. split; [done|]. split; [done|]. split.
    - intros x. unfold grown. destruct (mods g !! x); [|done]. do 5 (split; [done|]). case_decide; lia.
    - intros x l. by rewrite decide_False by (by intros [? _]). }
  destruct (connect_spec g og ig m k n j c d Hm Hn Ha K) as (g' & i & r & E & Hor & Eo & Ei & M).
  destruct (connected_slots g g' og i m k n j M) as [So Si]; [eauto..|].
  assert (Hor' : islot g n j i /\ igs g !! i = Some r \/ (forall v, ~ islot g n j v) /\ igs g !! i = None /\ r = IG n j [] 0 false []).
  { destruct Hor as [[H1 H2]|(H1 & -> & ->)]; [left; split; [by exists d|done]|right]. split; [|done].
    intros v (d' & Hd' & Hv). rewrite Hn in Hd'. injection Hd' as <-. by apply (inactive_slot _ _ _ H1) in Hv. }
  assert (Fs : forall v, ~ oslot g m k v).
  { intros v (c' & Hc' & Hv). rewrite Hm in Hc'. injection Hc' as <-. by apply (inactive_slot _ _ _ Ha) in Hv. }
  exists g'. split; [done|]. split; [by eapply (connected_ok g g' og i m n k j r)|]. split.
  { intros x. rewrite M. unfold grown. destruct (mods g !! x) as [cx|]; [|done]. cbn. do 5 (split; [done|]).
    destruct (decide (x = n)); [rewrite length_insert, extend_length|]; lia. }
  intros x l.
  rewrite (connected_edges g g' og i m n k j r) by done. by repeat case_decide; try tauto.
Qed.

(** The modules but for the contents of their gates. *)
Definition shape (c : Module) : string * nat * nat * list Attribute * list Z * nat * nat :=
  (mname c, num_igates c, num_ogates c, attrs_ c, attr_offsets_ c, length (igates_ c), length (ogates_ c)).
Definition same_shape (g g' : graph) : Prop := forall x, shape <$> mods g' !! x = shape <$> mods g !! x.

Lemma same_shape_trans g1 g2 g3 : same_shape g1 g2 -> same_shape g2 g3 -> same_shape g1 g3.
Proof. intros H1 H2 x. by rewrite H2, H1. Qed.

Lemma same_shape_some g g' x c : same_shape g g' -> mods g !! x = Some c -> exists c', mods g' !! x = Some c' /\ shape c' = shape c.
Proof. intros H Hc. specialize (H x). rewrite Hc in H. destruct (mods g' !! x) as [c'|]; [|done]. exists c'. split; [done|]. by apply (inj Some) in H. Qed.

Lemma clear_ogate g m k c : mods g !! m = Some c ->
  exists g', upd_mod m (fun c => set_ogates (<[k := None]> (ogates_ c)) c) g = Some g' /\ igs g' = igs g /\ ogs g' = ogs g /\ same_shape g g' /\
    (forall x l v, oslot g' x l v <-> oslot g x l v /\ ~ (x = m /\ l = k)) /\ (forall x l v, islot g' x l v <-> islot g x l v).
Proof.
  intros Hm. edestruct (upd_mod_some m (fun c => set_ogates (<[k := None]> (ogates_ c)) c)) as (g' & E & E1 & E2 & M); [done|].
  exists g'. split; [done|]. split; [done|]. split; [done|]. unfold same_shape, oslot, islot. split; [|split]; intros x; [|intros l v..]; rewrite M;
    destruct (mods g !! x) as [d|] eqn:Hd; cbn; try done; try (by split; [intros (? & ? & _)|intros [(? & ? & _) _]]); destruct (decide (x = m)) as [->|Hx]; try done.
  - unfold shape. cbn. by rewrite length_insert.
  - split; [intros (d' & [= <-] & [H1 H2]%clear_lookup); split; [by exists d|by intros [_ ?]]|].
    intros [(d' & [= <-] & Hv) Hno]. eexists. split; [done|]. apply clear_lookup. split; [by intros ->; destruct Hno|done].
  - split; [intros (d' & [= <-] & Hv); split; [by exists d|by intros [? _]]|by intros [? _]].
  - split; intros (d' & [= <-] & Hv); eauto.
Qed.

Lemma clear_igate g n j c : mods g !! n = Some c ->
  exists g', upd_mod n (fun c => set_igates (<[j := None]> (igates_ c)) c) g = Some g' /\ igs g' = igs g /\ ogs g' = ogs g /\ same_shape g g' /\
    (forall x l v, islot g' x l v <-> islot g x l v /\ ~ (x = n /\ l = j)) /\ (forall x l v, oslot g' x l v <-> oslot g x l v).
Proof.
  intros Hm. edestruct (upd_mod_some n (fun c => set_igates (<[j := None]> (igates_ c)) c)) as (g' & E & E1 & E2 & M); [done|].
  exists g'. split; [done|]. split; [done|]. split; [done|]. unfold same_shape, oslot, islot. split; [|split]; intros x; [|intros l v..]; rewrite M;
    destruct (mods g !! x) as [d|] eqn:Hd; cbn; try done; try (by split; [intros (? & ? & _)|intros [(? & ? & _) _]]); destruct (decide (x = n)) as [->|Hx]; try done.
  - unfold shape. cbn. by rewrite length_insert.
  - split; [intros (d' & [= <-] & [H1 H2]%clear_lookup); split; [by exists d|by intros [_ ?]]|].
    intros [(d' & [= <-] & Hv) Hno]. eexists. split; [done|]. apply clear_lookup. split; [by intros ->; destruct Hno|done].
  - split; [intros (d' & [= <-] & Hv); split; [by exists d|by intros [? _]]|by intros [? _]].
  - split; intros (d' & [= <-] & Hv); eauto.
Qed.

Lemma slot_place g m k og o : gates_ok g -> oslot g m k og -> ogs g !! og = Some o -> og_module o = m /\ og_idx o = k.
Proof. intros K Hs Ho. destruct (k_slot _ K _ _ _ Hs) as (o' & Ho' & E). congruence. Qed.

(** Deleting [og], which is in one place. *)
Lemma erase_one (og : addr) l : NoDup l -> og ∈ l ->
  exists p, list_find (fun o => o = og) l = Some (p, og) /\ NoDup (delete p l) /\ (forall v, v ∈ delete p l <-> v ∈ l /\ v <> og) /\
    length l = S (length (delete p l)).
Proof.
  intros Hnd Hin. destruct (list_find_elem_of (fun o => o = og) l og Hin eq_refl) as [[p v] Hp]. pose proof Hp as (Hl & -> & _)%list_find_Some.
  exists p. split; [done|]. pose proof (delete_Permutation l p og Hl) as P. rewrite P in Hnd. apply NoDup_cons in Hnd as [Hno Hnd].
  split; [done|]. split; [|by rewrite P at 1]. intros v. rewrite P at 2. rewrite elem_of_cons. split; [|tauto].
  intros Hv. split; [by right|]. by intros ->.
Qed.

Lemma remove_spec og r : NoDup (ogates_upstream r) -> og ∈ ogates_upstream r -> ((1 < length (ogates_upstream r))%nat -> mergeable_ r = true) ->
  let r' := RemoveOgate og r in
  (forall v, v ∈ ogates_upstream r' <-> v ∈ ogates_upstream r /\ v ∉ [og]) /\ NoDup (ogates_upstream r') /\
  ig_module r' = ig_module r /\ ig_idx r' = ig_idx r /\ ((1 < length (ogates_upstream r'))%nat -> mergeable_ r' = true).
Proof.
  intros Hnd Hin Hm. unfold RemoveOgate. destruct (erase_one og _ Hnd Hin) as (p & -> & Hnd' & Hv & Hlen). cbn.
  split; [intros v; by rewrite Hv, list_elem_of_singleton|]. split; [done|]. split; [done|]. split; [done|]. intros H. apply Hm. lia.
Qed.

Lemma disconnect_gate_ok g m k c : gates_ok g -> mods g !! m = Some c ->
  exists g', DisconnectGate m k g = Some g' /\ gates_ok g' /\ same_shape g g' /\
    forall x l, edge g' x l = if decide (x = m /\ l = k) then None else edge g x l.
Proof.
  intros K Hm. unfold DisconnectGate. rewrite Hm, bind_some.
  assert (Hnone : (forall v, ~ oslot g m k v) -> forall x l, edge g x l = if decide (x = m /\ l = k) then None else edge g x l).
  { intros Hn x l. case_decide as E; [|done]. destruct E as [-> ->]. destruct (edge g m k) as [[n j]|] eqn:Ee; [|done].
    apply edge_spec in Ee as (v & _ & _ & _ & Hs & _). by destruct (Hn v). }
  destruct (ogates_ c !! k) as [[og|]|] eqn:Es.
  2,3: exists g; split; [done|]; split; [done|]; split; [done|]; apply Hnone; intros v (c' & Hc' & Hv); congruence.
  assert (Hs : oslot g m k og) by (by exists c). destruct (k_slot _ K _ _ _ Hs) as (o & Ho & Eom & Eok).
  destruct (k_up _ K og o Ho) as (i & r & Hi & Hr & Hin & _). destruct (k_list _ K i r Hr) as (Hnd & Hne & Hmg).
  destruct (remove_spec og r Hnd Hin Hmg) as (Hu & Hnd' & Em & Ex & Hmg'). set (r' := RemoveOgate og r) in *.
  rewrite Ho, bind_some, Hi, bind_some. unfold upd_ig. rewrite Hr, !bind_some. cbn [igs with_igs]. rewrite lookup_insert_eq, bind_some.
  fold r'. set (g1 := with_igs _ g).
  assert (S2 : exists g2, (if decide (ogates_upstream r' = []) then
        g ← upd_mod (ig_module r') (fun c => set_igates (<[ig_idx r' := None]> (igates_ c)) c) g1; Some (with_igs (delete i (igs g)) g)
      else Some g1) = Some g2 /\ ogs g2 = ogs g /\ same_shape g g2 /\
      (forall v, igs g2 !! v = if decide (v = i) then (if decide (ogates_upstream r' = []) then None else Some r') else igs g !! v) /\
      (forall x l v, oslot g2 x l v <-> oslot g x l v) /\
      (forall x l v, islot g2 x l v <-> islot g x l v /\ ~ (ogates_upstream r' = [] /\ v = i))).
  { destruct (decide (ogates_upstream r' = [])) as [E0|E0].
    - destruct (k_ig _ K i r Hr) as (d & Hd & Hds). rewrite Em, Ex.
      destruct (clear_igate g1 (ig_module r) (ig_idx r) d Hd) as (g2 & -> & Ei & Eo & Sh & Hsi & Hso). rewrite bind_some.
      exists (with_igs (delete i (igs g2)) g2). split; [done|]. split; [done|]. split; [done|]. split; [|split; [done|]].
      + intros v. cbn. rewrite Ei. cbn. destruct (decide (v = i)) as [->|]; [by rewrite lookup_delete_eq|].
        by rewrite lookup_delete_ne, lookup_insert_ne by done.
      + intros x l v. change (islot g2 x l v <-> islot g x l v /\ ~ (ogates_upstream r' = [] /\ v = i)). rewrite Hsi.
        change (islot g1 x l v) with (islot g x l v). split; intros [Hv Hno]; (split; [done|]); [intros [_ ->]|intros [-> ->]].
        * apply Hno. destruct (k_islot _ K _ _ _ Hv) as (r2 & Hr2 & <- & <-). split; congruence.
        * apply Hno. split; [done|]. apply (islot_inj g (ig_module r) (ig_idx r)); [done|by exists d].
    - exists g1. split; [done|]. split; [done|]. split; [done|]. split; [|split; [done|]].
      + intros v. cbn. destruct (decide (v = i)) as [->|]; [by rewrite lookup_insert_eq|by rewrite lookup_insert_ne].
      + intros x l v. change (islot g1 x l v) with (islot g x l v). tauto. }
  destruct S2 as (g2 & -> & Eo2 & Sh2 & Ei2 & So2 & Si2). rewrite bind_some.
  destruct (same_shape_some _ _ _ _ Sh2 Hm) as (c2 & Hc2 & _).
  destruct (clear_ogate g2 m k c2 Hc2) as (g3 & -> & Ei3 & Eo3 & Sh3 & So3 & Si3). rewrite bind_some.
  eexists. split; [done|]. set (g4 := with_ogs _ g3).
  assert (Eo4 : forall v, ogs g4 !! v = if decide (v ∈ [og]) then None else ogs g !! v).
  { intros v. cbn. rewrite Eo3, Eo2. destruct (decide (v ∈ [og])) as [E|E]; [apply list_elem_of_singleton in E as ->; by rewrite lookup_delete_eq|].
    rewrite lookup_delete_ne; [done|]. intros ->. apply E. by constructor. }
  assert (Ei4 : forall v, igs g4 !! v = if decide (v = i) then (if decide (ogates_upstream r' = []) then None else Some r') else igs g !! v).
  { intros v. cbn. by rewrite Ei3. }
  assert (So4 : forall x l v, oslot g4 x l v <-> oslot g x l v /\ v ∉ [og]).
  { intros x l v. change (oslot g4 x l v) with (oslot g3 x l v). rewrite So3, So2, list_elem_of_singleton. split; intros [Hv Hno]; (split; [done|]).
    - intros ->. apply Hno. destruct (slot_place _ _ _ _ _ K Hv Ho) as [<- <-]. done.
    - intros [-> ->]. apply Hno. by apply (oslot_inj g m k). }
  assert (Si4 : forall x l v, islot g4 x l v <-> islot g x l v /\ ~ (ogates_upstream r' = [] /\ v = i)).
  { intros x l v. change (islot g4 x l v) with (islot g3 x l v). by rewrite Si3, Si2. }
  assert (HD : forall v, v ∈ [og] -> v ∈ ogates_upstream r) by (by intros v ->%list_elem_of_singleton).
  split; [by eapply (removed_ok g g4 i r r' [og])|]. split; [by apply (same_shape_trans _ g2)|].
  intros x l. apply edge_eq. intros n j. etrans; [by eapply (removed_edges g g4 i r r' [og])|]. destruct (decide (x = m /\ l = k)) as [E|E].
  - destruct E as [-> ->]. split; [|done]. intros [_ Hno]. destruct (Hno og Hs). by constructor.
  - split; [tauto|]. intros He. split; [done|]. intros v Hv ->%list_elem_of_singleton.
    apply E. destruct (slot_place _ _ _ _ _ K Hv Ho) as [<- <-]. done.
Qed.

Lemma drop_upstream_ok l : forall g,
  (forall v, v ∈ l -> exists o, ogs g !! v = Some o /\ oslot g (og_module o) (og_idx o) v) ->
  (forall x k v, oslot g x k v -> exists o, ogs g !! v = Some o /\ og_module o = x /\ og_idx o = k) -> NoDup l ->
  exists g', drop_upstream l g = Some g' /\ igs g' = igs g /\ same_shape g g' /\
    (forall v, ogs g' !! v = if decide (v ∈ l) then None else ogs g !! v) /\
    (forall x k v, oslot g' x k v <-> oslot g x k v /\ v ∉ l) /\ (forall x k v, islot g' x k v <-> islot g x k v).
Proof.
  induction l as [|og l IH]; intros g Hl Hp Hnd.
  { exists g. split; [done|]. split; [done|]. split; [done|]. split; [done|]. split; [|done]. intros x k v. split; [|tauto].
    intros Hv. split; [done|]. apply not_elem_of_nil. }
  apply NoDup_cons in Hnd as [Hno Hnd]. cbn [drop_upstream]. destruct (Hl og ltac:(by constructor)) as (o & Ho & c & Hc & Hs).
  rewrite Ho, bind_some. destruct (clear_ogate g _ (og_idx o) c Hc) as (g1 & -> & Ei1 & Eo1 & Sh1 & So1 & Si1). rewrite bind_some.
  set (g2 := with_ogs _ g1). assert (So2 : forall x k v, oslot g2 x k v <-> oslot g x k v /\ v <> og).
  { intros x k v. change (oslot g2 x k v) with (oslot g1 x k v). rewrite So1. split; intros [Hv Hne]; (split; [done|]).
    - intros ->. apply Hne. destruct (Hp _ _ _ Hv) as (o' & Ho' & <- & <-). split; congruence.
    - intros [-> ->]. apply Hne. apply (oslot_inj g (og_module o) (og_idx o)); [done|by exists c]. }
  assert (Eo2 : forall v, v <> og -> ogs g2 !! v = ogs g !! v) by (intros v Hv; cbn; by rewrite lookup_delete_ne, Eo1).
  destruct (IH g2) as (g' & -> & Ei & Sh & Eo & So & Si); [| |done|].
  - intros v Hv. assert (v <> og) by (by intros ->). destruct (Hl v ltac:(by constructor)) as (o' & Ho' & Hs'). exists o'.
    split; [by rewrite Eo2|]. by apply So2.
  - intros x k v [Hv Hne]%So2. rewrite Eo2 by done. by apply Hp.
  - exists g'. split; [done|]. split; [by rewrite Ei|]. split; [by apply (same_shape_trans _ g2)|]. split; [|split].
    + intros v. rewrite Eo. destruct (decide (v = og)) as [->|Hne].
      * rewrite decide_False by done. rewrite decide_True by constructor. cbn. by rewrite lookup_delete_eq.
      * rewrite Eo2 by done. destruct (decide (v ∈ l)); [rewrite decide_True by (by constructor)|rewrite decide_False by (by intros [->|?]%elem_of_cons)]; done.
    + intros x k v. rewrite So, So2, elem_of_cons. tauto.
    + intros x k v. by rewrite Si, <- Si1.
Qed.

Lemma disconnect_upstream_ok g m j c : gates_ok g -> mods g !! m = Some c -> (j < num_igates c)%nat ->
  exists g', DisconnectModulesUpstream m j g = Some g' /\ gates_ok g' /\ same_shape g g' /\
    forall x l, edge g' x l = if decide (edge g x l = Some (m, j)) then None else edge g x l.
Proof.
  intros K Hm Hj. unfold DisconnectModulesUpstream. rewrite Hm, bind_some, option_guard_True by done.
  destruct (igates_ c !! j) as [[i|]|] eqn:Es.
  2,3: exists g; split; [done|]; split; [done|]; split; [done|]; intros x l; destruct (decide (edge g x l = Some (m, j))) as [E|]; [|done];
    apply edge_spec in E as (v & o & i & r & _ & _ & _ & Hr & <- & <-); destruct (k_ig _ K i r Hr) as (c' & Hc' & Hv); congruence.
  assert (Hs : islot g m j i) by (by exists c). destruct (k_islot _ K _ _ _ Hs) as (r & Hr & <- & <-). rewrite Hr, bind_some.
  destruct (k_list _ K i r Hr) as (Hnd & Hne & _).
  destruct (drop_upstream_ok (ogates_upstream r) g) as (g1 & -> & Ei1 & Sh1 & Eo1 & So1 & Si1); [|apply (k_slot _ K)|done|].
  { intros v Hv. destruct (k_down _ K _ _ _ Hr Hv) as (o & Ho & _). exists o. split; [done|]. by apply (k_og _ K). }
  rewrite bind_some. destruct (same_shape_some _ _ _ _ Sh1 Hm) as (c1 & Hc1 & _).
  destruct (clear_igate g1 _ (ig_idx r) c1 Hc1) as (g2 & -> & Ei2 & Eo2 & Sh2 & Si2 & So2). rewrite bind_some. eexists. split; [done|].
  set (g3 := with_igs _ g2). set (r' := IG (ig_module r) (ig_idx r) [] (ig_priority r) true (ig_hooks r)).
  assert (Eo : forall v, ogs g3 !! v = if decide (v ∈ ogates_upstream r) then None else ogs g !! v) by (intros v; cbn; by rewrite Eo2).
  assert (Ei : forall v, igs g3 !! v = if decide (v = i) then (if decide (ogates_upstream r' = []) then None else Some r') else igs g !! v).
  { intros v. cbn. rewrite Ei2, Ei1. destruct (decide (v = i)) as [->|]; [by rewrite lookup_delete_eq|by rewrite lookup_delete_ne]. }
  assert (So : forall x l v, oslot g3 x l v <-> oslot g x l v /\ v ∉ ogates_upstream r).
  { intros x l v. change (oslot g3 x l v) with (oslot g2 x l v). by rewrite So2, So1. }
  assert (Si : forall x l v, islot g3 x l v <-> islot g x l v /\ ~ (ogates_upstream r' = [] /\ v = i)).
  { intros x l v. change (islot g3 x l v) with (islot g2 x l v). rewrite Si2, Si1. split; intros [Hv Hno]; (split; [done|]); [intros [_ ->]|intros [-> ->]].
    - apply Hno. destruct (k_islot _ K _ _ _ Hv) as (r2 & Hr2 & <- & <-). split; congruence.
    - apply Hno. split; [done|]. by apply (islot_inj g (ig_module r) (ig_idx r)). }
  assert (Hu : forall v, v ∈ ogates_upstream r' <-> v ∈ ogates_upstream r /\ v ∉ ogates_upstream r).
  { intros v. split; [by intros ?%elem_of_nil|tauto]. }
  split; [eapply (removed_ok g g3 i r r' (ogates_upstream r)); try done; apply NoDup_nil_2|].
  split; [by apply (same_shape_trans _ g1)|]. intros x l. apply edge_eq. intros n j.
  etrans; [eapply (removed_edges g g3 i r r' (ogates_upstream r)); done|]. destruct (decide (edge g x l = Some (ig_module r, ig_idx r))) as [E|E].
  - split; [|done]. intros [_ Hno]. apply edge_spec in E as (v & o & i' & r2 & Hs' & Ho & Hi & Hr2 & E1 & E2). destruct (Hno v Hs').
    assert (i' = i) as ->.
    { apply (islot_inj g (ig_module r) (ig_idx r)); [|done]. rewrite <- E1, <- E2. by apply (k_ig _ K). }
    destruct (k_up _ K v o Ho) as (i3 & r3 & G1 & G2 & G3 & _). congruence.
  - split; [tauto|]. intros He. split; [done|]. intros v Hv Hin. apply E. destruct (k_down _ K _ _ _ Hr Hin) as (o & Ho & Hi).
    apply edge_spec. by exists v, o, i, r.
Qed.

(** ** What the operations do *)

(** Pointers agree, and no module has more input gates than its kind allows. *)
Definition graph_ok (g : graph) : Prop :=
  gates_ok g /\ forall x c, mods g !! x = Some c -> (length (igates_ c) <= num_igates c)%nat.

Lemma shape_ok g g' : graph_ok g -> gates_ok g' -> same_shape g g' -> graph_ok g'.
Proof.
  intros [_ B] K S. split; [done|]. intros x c' Hc'. specialize (S x). rewrite Hc' in S. destruct (mods g !! x) as [c|] eqn:Hc; [|done].
  apply (inj Some) in S. unfold shape in S. injection S as _ E _ _ _ E2 _. specialize (B x c Hc). lia.
Qed.

Lemma active_edge g m k c : gates_ok g -> mods g !! m = Some c -> is_active_gate (ogates_ c) k = bool_decide (is_Some (edge g m k)).
Proof.
  intros K Hm. unfold is_active_gate. destruct (ogates_ c !! k) as [[og|]|] eqn:Es.
  - symmetry. apply bool_decide_eq_true. destruct (k_slot _ K m k og) as (o & Ho & _); [by exists c|].
    destruct (k_up _ K og o Ho) as (i & r & Hi & Hr & _). exists (ig_module r, ig_idx r). apply edge_spec. exists og, o, i, r. split; [by exists c|done].
  - symmetry. apply bool_decide_eq_false. intros [[n j] (v & o & i & r & (c' & Hc' & Hv) & _)%edge_spec]. congruence.
  - symmetry. apply bool_decide_eq_false. intros [[n j] (v & o & i & r & (c' & Hc' & Hv) & _)%edge_spec]. congruence.
Qed.

(** The loops of [Destroy]. *)
Lemma drop_igates_ok m js : forall g c, graph_ok g -> mods g !! m = Some c -> Forall (fun j => (j < num_igates c)%nat) js ->
  exists g', foldl (fun g i => g ← g; DisconnectModulesUpstream m i g) (Some g) js = Some g' /\ graph_ok g' /\ same_shape g g' /\
    forall x l, edge g' x l = match edge g x l with Some (n, j) => if decide (n = m /\ j ∈ js) then None else Some (n, j) | None => None end.
Proof.
  induction js as [|j js IH]; intros g c G Hm Hj; cbn [foldl].
  { exists g. split; [done|]. split; [done|]. split; [done|]. intros x l. destruct (edge g x l) as [[n j]|]; [|done].
    rewrite decide_False; [done|]. by intros [_ ?%elem_of_nil]. }
  apply Forall_cons in Hj as [Hj Hjs]. destruct (disconnect_upstream_ok g m j c (proj1 G) Hm Hj) as (g1 & E1 & K1 & S1 & Ed1).
  rewrite bind_some, E1. destruct (same_shape_some _ _ _ _ S1 Hm) as (c1 & Hc1 & Sc). unfold shape in Sc. injection Sc as _ En _ _ _ _ _.
  destruct (IH g1 c1) as (g' & E & G' & S' & Ed'); [by eapply shape_ok|done|by rewrite En|].
  exists g'. split; [done|]. split; [done|]. split; [by apply (same_shape_trans _ g1)|]. intros x l. rewrite Ed', Ed1.
  destruct (edge g x l) as [[n i]|]; [|done]. destruct (decide (Some (n, i) = Some (m, j))) as [[= -> ->]|Hne].
  - rewrite decide_True; [done|]. split; [done|by constructor].
  - destruct (decide (n = m /\ i ∈ js)) as [[-> Hi]|Hno].
    + rewrite decide_True; [done|]. split; [done|by constructor].
    + rewrite decide_False; [done|]. intros [-> [->|Hi]%elem_of_cons]; [by destruct Hne|by destruct Hno].
Qed.

Lemma drop_ogates_ok m ks : forall g c, graph_ok g -> mods g !! m = Some c ->
  exists g', foldl (fun g i => g ← g; DisconnectGate m i g) (Some g) ks = Some g' /\ graph_ok g' /\ same_shape g g' /\
    forall x l, edge g' x l = if decide (x = m /\ l ∈ ks) then None else edge g x l.
Proof.
  induction ks as [|k ks IH]; intros g c G Hm; cbn [foldl].
  { exists g. split; [done|]. split; [done|]. split; [done|]. intros x l. rewrite decide_False; [done|]. by intros [_ ?%elem_of_nil]. }
  destruct (disconnect_gate_ok g m k c (proj1 G) Hm) as (g1 & E1 & K1 & S1 & Ed1).
  rewrite bind_some, E1. destruct (same_shape_some _ _ _ _ S1 Hm) as (c1 & Hc1 & _).
  destruct (IH g1 c1) as (g' & E & G' & S' & Ed'); [by eapply shape_ok|done|].
  exists g'. split; [done|]. split; [done|]. split; [by apply (same_shape_trans _ g1)|]. intros x l. rewrite Ed', Ed1.
  destruct (decide (x = m /\ l ∈ ks)) as [[-> Hl]|Hno].
  - rewrite decide_True; [done|]. split; [done|by constructor].
  - destruct (decide (x = m /\ l = k)) as [[-> ->]|Hne]; [rewrite decide_True; [done|]; split; [done|by constructor]|].
    rewrite decide_False; [done|]. intros [-> [->|Hl]%elem_of_cons]; [by destruct Hne|by destruct Hno].
Qed.

(** An index that the kind of the module does not have. *)
Definition bad_gates (c d : Module) (k j : nat) : Prop :=
  (num_ogates c <= k)%nat \/ MAX_GATES <= Z.of_nat k \/ (num_igates d <= j)%nat \/ MAX_GATES <= Z.of_nat j.

#[export] Instance bad_gates_dec c d k j : Decision (bad_gates c d k j).
Proof. unfold bad_gates. apply _. Defined.

Lemma connect_modules_ok g og ig m k n j c d :
  graph_ok g -> mods g !! m = Some c -> mods g !! n = Some d -> ogs g !! og = None -> igs g !! ig = None ->
  exists g' ret, ConnectModules og ig m k n j g = Some (g', ret) /\ graph_ok g' /\ (forall x, grown n j x (mods g !! x) (mods g' !! x)) /\
    ret = (if decide (bad_gates c d k j) then - EINVAL
           else if decide (is_Some (edge g m k)) then - EBUSY else 0) /\
    (forall x l, edge g' x l = if decide (ret = 0 /\ x = m /\ l = k) then Some (n, j) else edge g x l).
Proof.
  intros G Hm Hn Fo Fi. unfold ConnectModules. rewrite Hm, Hn, !bind_some.
  assert (Hbad : exists g' ret, Some (g, - EINVAL) = Some (g', ret) /\ graph_ok g' /\ (forall x, grown n j x (mods g !! x) (mods g' !! x)) /\
    ret = - EINVAL /\ (forall x l, edge g' x l = if decide (ret = 0 /\ x = m /\ l = k) then Some (n, j) else edge g x l)).
  { exists g, (- EINVAL). split; [done|]. split; [done|]. split; [|split; [done|]].
    - intros x. unfold grown. destruct (mods g !! x); [|done]. do 5 (split; [done|]). destruct (decide (x = n)); lia.
    - intros x l. by rewrite decide_False by (by intros [? _]). }
  destruct (decide ((num_ogates c <= k)%nat \/ MAX_GATES <= Z.of_nat k)) as [H1|H1];
    [rewrite (decide_True (P := bad_gates c d k j)) by (unfold bad_gates; tauto); exact Hbad|].
  destruct (decide ((num_igates d <= j)%nat \/ MAX_GATES <= Z.of_nat j)) as [H2|H2];
    [rewrite (decide_True (P := bad_gates c d k j)) by (unfold bad_gates; tauto); exact Hbad|].
  rewrite (decide_False (P := bad_gates c d k j)) by (unfold bad_gates; tauto). clear Hbad.
  destruct (connect_gate_ok g og ig m k n j c d (proj1 G) Hm Hn Fo Fi) as (g' & E & K & Gr & Ed).
  rewrite (active_edge g m k c (proj1 G) Hm) in E, Ed. exists g'. eexists. split; [exact E|]. split; [|split; [done|split]].
  - split; [done|]. intros x c' Hc'. specialize (Gr x). rewrite Hc' in Gr. destruct (mods g !! x) as [cx|] eqn:Hx; [|done].
    destruct Gr as (_ & En & _ & _ & _ & Hl). pose proof (proj2 G x cx Hx). destruct (decide (x = n)) as [->|]; [|lia].
    rewrite Hn in Hx. injection Hx as <-. lia.
  - case_bool_decide; [rewrite decide_True by done|rewrite decide_False by done]; done.
  - intros x l. rewrite Ed. case_bool_decide as Ea.
    + rewrite !decide_False; [done|by intros [? _]..].
    + destruct (decide (x = m /\ l = k)) as [E1|E1]; [rewrite !decide_True by tauto|rewrite !decide_False by tauto]; done.
Qed.

Lemma destroy_gates_ok g m c : graph_ok g -> mods g !! m = Some c ->
  exists g', DestroyGates m g = Some g' /\ graph_ok g' /\ same_shape g g' /\
    (forall x l, edge g' x l = if decide (x = m \/ fst <$> edge g x l = Some m) then None else edge g x l).
Proof.
  intros G Hm. unfold DestroyGates. rewrite Hm, bind_some.
  destruct (drop_igates_ok m (seq 0 (length (igates_ c))) g c G Hm) as (g1 & -> & G1 & S1 & Ed1).
  { apply Forall_forall. intros j [_ Hj]%elem_of_seq. pose proof (proj2 G m c Hm). lia. }
  rewrite bind_some. destruct (same_shape_some _ _ _ _ S1 Hm) as (c1 & Hc1 & _). rewrite Hc1, bind_some.
  destruct (drop_ogates_ok m (seq 0 (length (ogates_ c1))) g1 c1 G1 Hc1) as (g' & -> & G' & S' & Ed').
  exists g'. split; [done|]. split; [done|]. split; [by apply (same_shape_trans _ g1)|]. intros x l.
  assert (Hin : forall k n j, edge g1 m k = Some (n, j) -> k ∈ seq 0 (length (ogates_ c1))).
  { intros k n j (v & o & i & r & (c2 & Hc2 & Hv) & _)%edge_spec. rewrite Hc1 in Hc2. injection Hc2 as <-. apply lookup_lt_Some in Hv.
    apply elem_of_seq. lia. }
  assert (Hto : forall k j, edge g x k = Some (m, j) -> j ∈ seq 0 (length (igates_ c))).
  { intros k j (v & o & i & r & _ & _ & _ & Hr & <- & <-)%edge_spec. destruct (k_ig _ (proj1 G) i r Hr) as (c2 & Hc2 & Hv).
    rewrite Hm in Hc2. injection Hc2 as <-. apply lookup_lt_Some in Hv. apply elem_of_seq. lia. }
  rewrite Ed'. destruct (decide (x = m /\ l ∈ seq 0 (length (ogates_ c1)))) as [[-> _]|Hno]; [rewrite decide_True by (by left); done|].
  assert (E1 : x = m -> edge g1 x l = None).
  { intros ->. destruct (edge g1 m l) as [[n j]|] eqn:E; [|done]. destruct Hno. split; [done|]. by eapply Hin. }
  destruct (decide (x = m \/ fst <$> edge g x l = Some m)) as [[E|E]|Hn]; [by apply E1| |].
  + destruct (edge g x l) as [[n j]|] eqn:Ee; [|done]. injection E as ->. rewrite Ed1, Ee, decide_True; [done|]. split; [done|]. by eapply Hto.
  + rewrite Ed1. destruct (edge g x l) as [[n j]|] eqn:E; [|done]. rewrite decide_False; [done|]. intros [-> _]. apply Hn. by right.
Qed.

(** C22. The pointers between modules and gates stay consistent, and the operations never
    follow a dangling one. [ConnectModules] connects an output gate exactly when both
    indices exist and the gate is free, with the error of the code otherwise;
    [DisconnectModule] frees the output gate; destroying the gates of a module removes
    every connection from it and to it. No other connection changes. *)
Theorem gates_refine g : graph_ok g ->
  (forall og ig m k n j c d, mods g !! m = Some c -> mods g !! n = Some d -> ogs g !! og = None -> igs g !! ig = None ->
    exists g' ret, ConnectModules og ig m k n j g = Some (g', ret) /\ graph_ok g' /\ (forall x, grown n j x (mods g !! x) (mods g' !! x)) /\
      ret = (if decide (bad_gates c d k j) then - EINVAL
             else if decide (is_Some (edge g m k)) then - EBUSY else 0) /\
      (forall x l, edge g' x l = if decide (ret = 0 /\ x = m /\ l = k) then Some (n, j) else edge g x l)) /\
  (forall m k c, mods g !! m = Some c -> exists g' ret, DisconnectModule m k g = Some (g', ret) /\ graph_ok g' /\ same_shape g g' /\
      ret = (if decide (num_ogates c <= k)%nat then - EINVAL else 0) /\
      (forall x l, edge g' x l = if decide (ret = 0 /\ x = m /\ l = k) then None else edge g x l)) /\
  (forall m c, mods g !! m = Some c -> exists g', DestroyGates m g = Some g' /\ graph_ok g' /\ same_shape g g' /\
      (forall x l, edge g' x l = if decide (x = m \/ fst <$> edge g x l = Some m) then None else edge g x l)).
Proof.
  intros G. split; [|split].
  - intros og ig m k n j c d. by apply connect_modules_ok.
  - intros m k c Hm. unfold DisconnectModule. rewrite Hm, bind_some. destruct (decide (num_ogates c <= k)%nat).
    + exists g, (- EINVAL). split; [done|]. split; [done|]. split; [done|]. split; [done|]. intros x l1. by rewrite decide_False by (by intros [? _]).
    + destruct (disconnect_gate_ok g m k c (proj1 G) Hm) as (g' & -> & K & S & Ed). rewrite bind_some. exists g', 0. split; [done|].
      split; [by eapply shape_ok|]. split; [done|]. split; [done|]. intros x l. rewrite Ed.
      destruct (decide (x = m /\ l = k)); [rewrite decide_True by tauto|rewrite decide_False by tauto]; done.
  - intros m c. by apply destroy_gates_ok.
Qed.

(** ** On concrete modules *)

Definition new_module (name : string) : Module := Mod name 1 2 [] (replicate 16 0) [] [].
Definition two_modules : graph := Graph {[ 1%positive := new_module "a"; 2%positive := new_module "b" ]} ∅ ∅.

Lemma no_gates_ok h : (forall x c, h !! x = Some c -> ogates_ c = [] /\ igates_ c = []) -> graph_ok (Graph h ∅ ∅).
Proof.
  intros H. split; [split|].
  - intros m k og (c & Hc & Hs). destruct (H m c Hc) as [E _]. by rewrite E in Hs.
  - intros og o. cbn. by rewrite lookup_empty.
  - intros og o. cbn. by rewrite lookup_empty.
  - intros i r og. cbn. by rewrite lookup_empty.
  - intros m k i (c & Hc & Hs). destruct (H m c Hc) as [_ E]. by rewrite E in Hs.
  - intros i r. cbn. by rewrite lookup_empty.
  - intros i r. cbn. by rewrite lookup_empty.
  - intros x c Hc. destruct (H x c Hc) as [_ ->]. cbn. lia.
Qed.

Lemma two_modules_ok : graph_ok two_modules.
Proof.
  apply no_gates_ok. intros x c [[_ <-]|[_ [_ <-]%lookup_singleton_Some]]%lookup_insert_Some; done.
Qed.

(** An output gate of the first is connected to the second; a second connection of it is refused. *)
Lemma gates_refine_witness : exists g',
  ConnectModules 10%positive 20%positive 1%positive 1 2%positive 0 two_modules = Some (g', 0) /\ graph_ok g' /\
  edge g' 1%positive 1 = Some (2%positive, 0%nat) /\ edge g' 1%positive 0 = None /\
  ConnectModules 11%positive 21%positive 1%positive 1 1%positive 0 g' = Some (g', - EBUSY).
Proof.
  destruct (gates_refine two_modules two_modules_ok) as (Hc & _ & _).
  edestruct (Hc 10%positive 20%positive 1%positive 1%nat 2%positive 0%nat) as (g' & ret & E & G & _ & Er & Ed); [reflexivity..|].
  exists g'. vm_compute in Er. subst ret. split; [exact E|]. split; [exact G|].
  split; [rewrite Ed; reflexivity|]. split; [rewrite Ed; reflexivity|]. vm_compute in E. injection E as <-. reflexivity.
Defined.

(** An input gate that loses one of two output gates is still marked as shared. *)
Lemma stays_mergeable :
  ('(g, _) ← ConnectModules 10%positive 20%positive 1%positive 0 2%positive 0 two_modules;
   '(g, _) ← ConnectModules 11%positive 21%positive 1%positive 1 2%positive 0 g;
   '(g, _) ← DisconnectModule 1%positive 0 g;
   r ← igs g !! 20%positive; Some (length (ogates_upstream r), mergeable_ r)) = Some (1%nat, true).
Proof. by vm_compute. Qed.
