(* ===== verification/Dataplane.v ===== *)
(** * A run of a task: [task.h], [task.cc], [pktbatch.h] and the gates of [module.h]

    A task starts its module, whose packets go from gate to gate: an output gate
    collects a batch, a batch that is ready waits for its input gate, in the order
    of priorities, or, if nothing else feeds that gate, is run next.  Batches that
    wait for the same input gate are merged.

    Batches are numbered: those of the pool of the task, and 256 for the batch of
    the task itself.  What modules do with packets is an argument, [process]: for
    the packets of a batch it answers which packets are emitted or dropped, one by
    one, and whether the batch itself is then passed on.  Hooks get their batch as
    a constant, so it only matters whether there are any.

    An operation ends with a state, or with a fault: the pool of batches is used
    up ([DCHECK] only), more gates than the arrays of the context hold, out of
    fuel, or anything else ([Bad]: null pointer, index out of range, a batch that
    overflows). *)

From stdpp Require Import strings gmap.
From S2P Require Import Prelude Pool PrioQueue Gates.

Definition kMaxBurst : nat := 32.
Definition MAX_PBATCH_CNT : nat := 256.
Definition init_batch : nat := 256.

Inductive fault := NoBatch | TooManyGates | NoFuel | Bad.

Definition res (A : Type) : Type := (A + fault)%type.

Definition rbind {A B} (f : A -> res B) (x : res A) : res B := match x with inl a => f a | inr e => inr e end.

Declare Scope res_scope.
Delimit Scope res_scope with res.
Notation "x ←! e ; f" := (rbind (fun x => f) e) (at level 20, e at level 100, f at level 200, only parsing) : res_scope.
Notation "' pat ←! e ; f" := (rbind (fun x => match x with pat => f end) e)
  (at level 20, pat pattern, e at level 100, f at level 200, only parsing) : res_scope.
Notation "e ;;! f" := (rbind (fun _ : unit => f) e) (at level 100, f at level 200, right associativity, only parsing) : res_scope.
#[local] Open Scope res_scope.

(** A pointer that must not be null. *)
Definition some {A} (x : option A) : res A := match x with Some a => inl a | None => inr Bad end.
Definition check (P : Prop) `{Decision P} (e : fault) : res unit := if decide P then inl tt else inr e.

(** What a module does with the packets of a batch. *)
Record output := Out {
  emits : list (addr * option nat);
  pass : option (nat * list addr)
}.

Record TaskState := Task {
  batches : gmap nat (list addr);
  pbatch_idx_ : nat;
  gate_batch_ : list (option nat);
  next_gate_ : option (addr * nat);
  igates_to_run_ : list (addr * nat);
  dead_batch_ : list addr
}.

Record Ctx := Context_ { gate_with_hook : list nat; gate_without_hook : list nat; silent_drops : Z }.

(** [freed]: packets given back to their pool; [calls]: batches that modules have got. *)
Record Env (S : Type) := Env_ {
  mstate : S;
  deadends_ : gmap addr Z;
  freed : list addr;
  calls : list (addr * list addr * output)
}.
Arguments Env_ {S}. Arguments mstate {S}. Arguments deadends_ {S}. Arguments freed {S}. Arguments calls {S}.

Section Run.
Context {S R : Type}.
Context (process : S -> addr -> nat -> list addr -> S * output).
Context (g : graph) (ig_index og_index : addr -> nat).

Record state := St { task : TaskState; ctx : Ctx; env : Env S }.

Definition set_task (t : TaskState) (s : state) : state := St t (ctx s) (env s).
Definition set_ctx (c : Ctx) (s : state) : state := St (task s) c (env s).
Definition set_env (e : Env S) (s : state) : state := St (task s) (ctx s) e.

Definition set_batches (h : gmap nat (list addr)) (t : TaskState) : TaskState :=
  Task h (pbatch_idx_ t) (gate_batch_ t) (next_gate_ t) (igates_to_run_ t) (dead_batch_ t).
Definition set_gates (l : list (option nat)) (t : TaskState) : TaskState :=
  Task (batches t) (pbatch_idx_ t) l (next_gate_ t) (igates_to_run_ t) (dead_batch_ t).
Definition set_next (n : option (addr * nat)) (t : TaskState) : TaskState :=
  Task (batches t) (pbatch_idx_ t) (gate_batch_ t) n (igates_to_run_ t) (dead_batch_ t).
Definition set_queue (q : list (addr * nat)) (t : TaskState) : TaskState :=
  Task (batches t) (pbatch_idx_ t) (gate_batch_ t) (next_gate_ t) q (dead_batch_ t).
Definition set_dead (l : list addr) (t : TaskState) : TaskState :=
  Task (batches t) (pbatch_idx_ t) (gate_batch_ t) (next_gate_ t) (igates_to_run_ t) l.

(** [GateBatchGreater]. *)
Definition igate_prio (ig : addr) : Z := match igs g !! ig with Some r => ig_priority r | None => 0 end.
Definition GateBatchGreater (x y : addr * nat) : bool := igate_prio y.1 <? igate_prio x.1.

(** ** Batches *)

Definition batch_of (b : nat) (t : TaskState) : res (list addr) := some (batches t !! b).

(** [add], of a packet and of a batch. *)
Definition add_packet (p : addr) (b : nat) (t : TaskState) : res TaskState :=
  l ←! batch_of b t;
  check (length l < kMaxBurst)%nat Bad;;!
  inl (set_batches (<[b := l ++ [p]]> (batches t)) t).

Definition add_batch (b from : nat) (t : TaskState) : res TaskState :=
  l ←! batch_of b t;
  k ←! batch_of from t;
  check (length l + length k <= kMaxBurst)%nat Bad;;!
  inl (set_batches (<[b := l ++ k]> (batches t)) t).

Definition AllocPacketBatch (t : TaskState) : res (nat * TaskState) :=
  check (pbatch_idx_ t < MAX_PBATCH_CNT)%nat NoBatch;;!
  inl (pbatch_idx_ t,
    Task (<[pbatch_idx_ t := []]> (batches t)) (pbatch_idx_ t + 1) (gate_batch_ t) (next_gate_ t) (igates_to_run_ t) (dead_batch_ t)).

Definition get_gate_batch (i : nat) (t : TaskState) : res (option nat) := some (gate_batch_ t !! i).
Definition set_gate_batch (i : nat) (b : option nat) (t : TaskState) : res TaskState :=
  check (i < length (gate_batch_ t))%nat Bad;;! inl (set_gates (<[i := b]> (gate_batch_ t)) t).

Definition AddToRun (ig : addr) (b : nat) (t : TaskState) : res TaskState :=
  r ←! some (igs g !! ig);
  match next_gate_ t, mergeable_ r with
  | None, false => inl (set_next (Some (ig, b)) t)
  | _, _ =>
      ib ←! get_gate_batch (ig_index ig) t;
      l ←! batch_of b t;
      let new :=
        t ←! set_gate_batch (ig_index ig) (Some b) t;
        q ←! some (push GateBatchGreater (ig, b) (igates_to_run_ t));
        inl (set_queue q t) in
      match ib with
      | Some x =>
          k ←! batch_of x t;
          if decide (length k + length l <= kMaxBurst)%nat then add_batch x b t else new
      | None => new
      end
  end.

(** ** Packets that end here *)

Definition free (l : list addr) (s : state) : state :=
  St (task s) (Context_ (gate_with_hook (ctx s)) (gate_without_hook (ctx s)) (u64 (silent_drops (ctx s) + Z.of_nat (length l))))
    (Env_ (mstate (env s)) (deadends_ (env s)) (freed (env s) ++ l) (calls (env s))).

Definition count_deadend (m : addr) (n : nat) (s : state) : state :=
  set_env (Env_ (mstate (env s)) (<[m := u64 (default 0 (deadends_ (env s) !! m) + Z.of_nat n)]> (deadends_ (env s)))
    (freed (env s)) (calls (env s))) s.

(** [deadend] of a batch, and of the dead batch. *)
Definition deadend (b : nat) (s : state) : res state :=
  l ←! batch_of b (task s);
  inl (free l (set_task (set_batches (<[b := []]> (batches (task s))) (task s)) s)).

Definition deadend_dead (s : state) : state := free (dead_batch_ (task s)) (set_task (set_dead [] (task s)) s).

Definition DropPacket (m p : addr) (s : state) : res state :=
  check (length (dead_batch_ (task s)) < kMaxBurst)%nat Bad;;!
  let s := count_deadend m 1 (set_task (set_dead (dead_batch_ (task s) ++ [p]) (task s)) s) in
  inl (if decide (kMaxBurst <= length (dead_batch_ (task s)))%nat then deadend_dead s else s).

(** ** Gates *)

(** The output gate [k] of [m], if it is connected. *)
Definition ogate_of (m : addr) (k : nat) : res (option addr) :=
  c ←! some (mods g !! m); inl (mjoin (ogates_ c !! k)).

Definition on_task (f : TaskState -> res TaskState) (s : state) : res state := t ←! f (task s); inl (set_task t s).

Definition RunChooseModule (m : addr) (k b : nat) (s : state) : res state :=
  l ←! batch_of b (task s);
  if decide (l = []) then inl s
  else
    og ←! ogate_of m k;
    match og with
    | None => deadend b (count_deadend m (length l) s)
    | Some og =>
        o ←! some (ogs g !! og);
        ig ←! some (igate_ o);
        on_task (AddToRun ig b) s
    end.

Definition note_with_hook (k : nat) (s : state) : res state :=
  check (length (gate_with_hook (ctx s)) < kMaxBurst)%nat TooManyGates;;!
  inl (set_ctx (Context_ (gate_with_hook (ctx s) ++ [k]) (gate_without_hook (ctx s)) (silent_drops (ctx s))) s).

Definition note_without_hook (k : nat) (s : state) : res state :=
  check (length (gate_without_hook (ctx s)) < kMaxBurst)%nat TooManyGates;;!
  inl (set_ctx (Context_ (gate_with_hook (ctx s)) (gate_without_hook (ctx s) ++ [k]) (silent_drops (ctx s))) s).

(** The batch of an output gate that has none. *)
Definition first_batch (og ig : addr) (hooked : bool) (k : nat) (s : state) : res (nat * state) :=
  if hooked then
    '(b, t) ←! AllocPacketBatch (task s);
    t ←! set_gate_batch (og_index og) (Some b) t;
    s ←! note_with_hook k (set_task t s);
    inl (b, s)
  else
    ib ←! get_gate_batch (ig_index ig) (task s);
    '(b, t) ←!
      match ib with
      | None =>
          '(b, t) ←! AllocPacketBatch (task s);
          t ←! AddToRun ig b t;
          t ←! set_gate_batch (og_index og) (Some b) t;
          inl (b, t)
      | Some b => t ←! set_gate_batch (og_index og) ib (task s); inl (b, t)
      end;
    s ←! note_without_hook k (set_task t s);
    inl (b, s).

(** The next batch of an output gate whose batch [b] is full. *)
Definition next_batch (og ig : addr) (hooked : bool) (b : nat) (t : TaskState) : res (nat * TaskState) :=
  if hooked then
    t ←! AddToRun ig b t;
    '(b, t) ←! AllocPacketBatch t;
    t ←! set_gate_batch (og_index og) (Some b) t;
    inl (b, t)
  else
    '(b, t) ←! AllocPacketBatch t;
    t ←! set_gate_batch (og_index og) (Some b) t;
    t ←! AddToRun ig b t;
    inl (b, t).

Definition EmitPacket (m p : addr) (k : nat) (s : state) : res state :=
  og ←! ogate_of m k;
  match og with
  | None => DropPacket m p s
  | Some og =>
      o ←! some (ogs g !! og);
      ig ←! some (igate_ o);
      let hooked := bool_decide (og_hooks o <> []) in
      ob ←! get_gate_batch (og_index og) (task s);
      '(b, s) ←! match ob with Some b => inl (b, s) | None => first_batch og ig hooked k s end;
      l ←! batch_of b (task s);
      '(b, t) ←! (if decide (kMaxBurst <= length l)%nat then next_batch og ig hooked b (task s) else inl (b, task s));
      t ←! add_packet p b t;
      inl (set_task t s)
  end.

(** Output gates with a hook hand their batches on. *)
Fixpoint flush_hooked (m : addr) (ks : list nat) (t : TaskState) : res TaskState :=
  match ks with
  | [] => inl t
  | k :: ks =>
      og ←! ogate_of m k;
      og ←! some og;
      o ←! some (ogs g !! og);
      ig ←! some (igate_ o);
      ob ←! get_gate_batch (og_index og) t;
      b ←! some ob;
      t ←! AddToRun ig b t;
      t ←! set_gate_batch (og_index og) None t;
      flush_hooked m ks t
  end.

Fixpoint clear_unhooked (m : addr) (ks : list nat) (t : TaskState) : res TaskState :=
  match ks with
  | [] => inl t
  | k :: ks =>
      og ←! ogate_of m k;
      og ←! some og;
      t ←! set_gate_batch (og_index og) None t;
      clear_unhooked m ks t
  end.

Definition ProcessOGates (m : addr) (s : state) : res state :=
  t ←! flush_hooked m (gate_with_hook (ctx s)) (task s);
  t ←! clear_unhooked m (gate_without_hook (ctx s)) t;
  inl (St t (Context_ [] [] (silent_drops (ctx s))) (env s)).

(** ** Modules *)

Fixpoint emit_all (m : addr) (l : list (addr * option nat)) (s : state) : res state :=
  match l with
  | [] => inl s
  | (p, k) :: l =>
      s ←! match k with Some k => EmitPacket m p k s | None => DropPacket m p s end;
      emit_all m l s
  end.

(** [RunSplit]: each packet of batch [b] to its gate. *)
Definition RunSplit (m : addr) (out_gates : list nat) (b : nat) (s : state) : res state :=
  l ←! batch_of b (task s);
  if decide (l = []) then inl s
  else
    c ←! some (mods g !! m);
    if decide (ogates_ c = []) then deadend b (count_deadend m (length l) s)
    else
      check (length l <= length out_gates)%nat Bad;;!
      s ←! emit_all m (zip_with (fun p k => (p, Some k)) l out_gates) s;
      inl (set_task (set_batches (<[b := []]> (batches (task s))) (task s)) s).

(** What [m] does with batch [b]. *)
Definition perform (m : addr) (b : nat) (out : output) (s : state) : res state :=
  s ←! emit_all m (emits out) s;
  match pass out with
  | None => inl s
  | Some (k, l) =>
      check (length l <= kMaxBurst)%nat Bad;;!
      RunChooseModule m k b (set_task (set_batches (<[b := l]> (batches (task s))) (task s)) s)
  end.

(** The body of the loop: batch [b] at input gate [ig]. *)
Definition run_gate (ig : addr) (b : nat) (s : state) : res state :=
  r ←! some (igs g !! ig);
  l ←! batch_of b (task s);
  let '(ms, out) := process (mstate (env s)) (ig_module r) (ig_idx r) l in
  let s := set_env (Env_ ms (deadends_ (env s)) (freed (env s)) (calls (env s) ++ [(ig, l, out)])) s in
  s ←! perform (ig_module r) b out s;
  ProcessOGates (ig_module r) s.

Fixpoint run_gates (fuel : nat) (s : state) : res state :=
  match next_gate_ (task s) with
  | Some (ig, b) =>
      match fuel with
      | O => inr NoFuel
      | Datatypes.S fuel => s ←! run_gate ig b (set_task (set_next None (task s)) s); run_gates fuel s
      end
  | None =>
      match top (igates_to_run_ (task s)) with
      | None => inl s
      | Some (ig, b) =>
          match fuel with
          | O => inr NoFuel
          | Datatypes.S fuel =>
              q ←! some (pop GateBatchGreater (igates_to_run_ (task s)));
              t ←! set_gate_batch (ig_index ig) None (set_queue q (task s));
              s ←! run_gate ig b (set_task t s);
              run_gates fuel s
          end
      end
  end.

(** [Task::operator()]: [run_task] is [RunTask] of the module [m] of the task, which fills the
    initial batch and passes it on, if it has packets. *)
Definition run (fuel : nat) (m : addr) (run_task : S -> S * R * option (nat * list addr)) (s : state) : res (state * R) :=
  let t := Task (<[init_batch := []]> (batches (task s))) 0 (gate_batch_ (task s)) (next_gate_ (task s)) (igates_to_run_ (task s)) (dead_batch_ (task s)) in
  let '(ms, r, first) := run_task (mstate (env s)) in
  let s := St t (ctx s) (Env_ ms (deadends_ (env s)) (freed (env s)) (calls (env s))) in
  s ←! perform m init_batch (Out [] first) s;
  s ←! run_gates fuel s;
  inl (deadend_dead s, r).

(** [UpdatePerGateBatch]. *)
Definition UpdatePerGateBatch (gate_cnt : nat) (t : TaskState) : TaskState :=
  if decide (length (gate_batch_ t) < gate_cnt)%nat then set_gates (resize gate_cnt None (gate_batch_ t)) t else t.

End Run.
Arguments state : clear implicits.
