(* ===== verification/DataplaneProps.v ===== *)
(** * A run of a task: specification and proofs

    When all output gates have hooks, as they have by default, a run loses no packet:
    whatever is emitted at a connected gate reaches the module there, once, and
    whatever else is emitted is freed ([run_conserves]).  Without hooks packets can
    be lost ([packets_lost]). *)

From stdpp Require Import strings gmap.
From S2P Require Import Prelude Pool PrioQueue Gates GateProps Dataplane.

#[local] Open Scope res_scope.

(** The packets of batches on their way. *)
Definition flight (h : gmap nat (list addr)) (L : list (addr * nat)) : list (addr * addr) :=
  L ≫= fun x => (fun p => (x.1, p)) <$> default [] (h !! x.2).

Lemma flight_perm h L L' : L ≡ₚ L' -> flight h L ≡ₚ flight h L'.
Proof. intros P. unfold flight. by rewrite P. Qed.

Lemma flight_insert h b l L : b ∉ L.*2 -> flight (<[b := l]> h) L = flight h L.
Proof.
  intros Hb. unfold flight. induction L as [|x L IH]; [done|]. cbn in *. apply not_elem_of_cons in Hb as [Hx Hb].
  rewrite lookup_insert_ne by done. by rewrite IH.
Qed.

(** A batch, taken from the others. *)
Lemma take_out (L : list (addr * nat)) ig b : (ig, b) ∈ L -> NoDup L.*2 -> exists L', L ≡ₚ (ig, b) :: L' /\ b ∉ L'.*2.
Proof.
  intros Hin Hnd. apply elem_of_Permutation in Hin as [L' P]. exists L'. split; [done|]. rewrite P in Hnd.
  by apply NoDup_cons in Hnd as [? _].
Qed.

Section Conserve.
Context {S R : Type} (process : S -> addr -> nat -> list addr -> S * output).
Context (g : graph) (ig_index og_index : addr -> nat) (N : nat).

(** What [SetUniqueGateIdx] and [UpdatePerGateBatch] provide: each gate has its own place. *)
Record indexed : Prop := {
  x_ig : forall i r, igs g !! i = Some r -> (ig_index i < N)%nat;
  x_og : forall og o, ogs g !! og = Some o -> (og_index og < N)%nat;
  x_igs : forall i j r r', igs g !! i = Some r -> igs g !! j = Some r' -> ig_index i = ig_index j -> i = j;
  x_ogs : forall i j o o', ogs g !! i = Some o -> ogs g !! j = Some o' -> og_index i = og_index j -> i = j;
  x_apart : forall i og r o, igs g !! i = Some r -> ogs g !! og = Some o -> ig_index i <> og_index og
}.

Context (K : gates_ok g) (X : indexed).

(** Every output gate has a hook. *)
Definition all_hooked : Prop := forall og o, ogs g !! og = Some o -> og_hooks o <> [].

Context (HH : all_hooked).

Notation GBG := (GateBatchGreater g).

#[local] Instance prio_order : WeakOrder GBG.
Proof. split; unfold GateBatchGreater; intros; lia. Qed.

(** ** The state between operations *)

(** A batch at an output gate: the gate, the input gate it leads to, and the batch. *)
Definition pending : Type := addr * addr * nat.

(** The batches in use: run next, waiting, at output gates, and in hand ([H]). *)
Definition live (t : TaskState) (P : list pending) (H : list (addr * nat)) : list (addr * nat) :=
  option_list (next_gate_ t) ++ igates_to_run_ t ++ ((fun x => (x.1.2, x.2)) <$> P) ++ H.

(** [Z]: places that still hold what has been handed on. *)
Record inv (t : TaskState) (P : list pending) (H : list (addr * nat)) (Z : list nat) : Prop := {
  i_len : length (gate_batch_ t) = N;
  i_heap : heap GBG (igates_to_run_ t);
  i_live : forall ig b, (ig, b) ∈ live t P H -> is_Some (igs g !! ig) /\ (b = init_batch \/ (b < pbatch_idx_ t)%nat) /\
    exists l, batches t !! b = Some l /\ (length l <= kMaxBurst)%nat;
  i_nodup : NoDup (live t P H).*2;
  i_idx : (pbatch_idx_ t <= MAX_PBATCH_CNT)%nat;
  i_pend : forall og ig b, (og, ig, b) ∈ P -> (exists o, ogs g !! og = Some o /\ igate_ o = Some ig) /\ gate_batch_ t !! og_index og = Some (Some b);
  i_ogs : NoDup ((fun x : pending => x.1.1) <$> P);
  i_occ : forall i b, gate_batch_ t !! i = Some (Some b) ->
    (exists ig, is_Some (igs g !! ig) /\ i = ig_index ig /\ (ig, b) ∈ igates_to_run_ t) \/
    (exists og ig, (og, ig, b) ∈ P /\ i = og_index og) \/ i ∈ Z
}.

Definition inflight (t : TaskState) (P : list pending) (H : list (addr * nat)) : list (addr * addr) := flight (batches t) (live t P H).

(** ** Handing a batch on *)

Lemma live_hand t P H x : live t P (x :: H) ≡ₚ x :: live t P H.
Proof. unfold live. rewrite !(app_assoc _ _ (x :: H)), <- Permutation_middle, !app_assoc. done. Qed.

(** What an operation leaves alone. *)
Definition kept (t t' : TaskState) : Prop := pbatch_idx_ t' = pbatch_idx_ t /\ dead_batch_ t' = dead_batch_ t.

Lemma set_gate_ok i b t : length (gate_batch_ t) = N -> (i < N)%nat -> set_gate_batch i b t = inl (set_gates (<[i := b]> (gate_batch_ t)) t).
Proof. intros El Hi. unfold set_gate_batch, check. rewrite El, decide_True by done. done. Qed.

Lemma batch_ok b t l : batches t !! b = Some l -> batch_of b t = inl l.
Proof. unfold batch_of. by intros ->. Qed.

(** Waiting in the queue. *)
Lemma queue_ok t P H Z ig b r : inv t P ((ig, b) :: H) Z -> igs g !! ig = Some r -> ig_index ig ∉ Z ->
  exists t', (t ←! set_gate_batch (ig_index ig) (Some b) t; q ←! some (push GBG (ig, b) (igates_to_run_ t)); inl (set_queue q t)) = inl t' /\
    inv t' P H Z /\ live t' P H ≡ₚ live t P ((ig, b) :: H) /\ batches t' = batches t /\ kept t t'.
Proof.
  intros [I1 I2 I3 I4 I5 I6 I7 I8] Hr HZ. pose proof (x_ig X ig r Hr) as Hi. rewrite set_gate_ok by done. cbn [rbind igates_to_run_ set_gates].
  destruct (push_ok GBG (ig, b) (igates_to_run_ t) I2) as (q & -> & Hq & Pq). cbn [some rbind]. eexists. split; [done|].
  set (t' := set_queue q _). assert (PL : live t' P H ≡ₚ live t P ((ig, b) :: H)).
  { rewrite live_hand. unfold live, t'. cbn [next_gate_ igates_to_run_ set_queue set_gates]. rewrite Pq. cbn [app]. by rewrite <- Permutation_middle. }
  split; [|split; [done|split; [done|by split]]]. split; cbn [t' gate_batch_ igates_to_run_ batches pbatch_idx_ set_queue set_gates]; try done.
  - by rewrite length_insert.
  - intros ig' b' Hin. rewrite PL in Hin. by apply I3.
  - by rewrite PL.
  - intros og ig' b' Hin. destruct (I6 og ig' b' Hin) as [(o & Ho & Eo) Hg]. split; [by exists o|]. rewrite list_lookup_insert_ne; [done|]. by apply (x_apart X ig og r o).
  - intros i b' Hb. destruct (decide (i = ig_index ig)) as [->|Hne].
    + rewrite list_lookup_insert_eq in Hb by lia. injection Hb as <-. left. exists ig. split; [eauto|]. split; [done|]. rewrite Pq. by constructor.
    + rewrite list_lookup_insert_ne in Hb by done. destruct (I8 i b' Hb) as [(j & Hj & -> & Hin)|?]; [|by right]. left. exists j. split; [done|]. split; [done|].
      rewrite Pq. by constructor.
Qed.

(** Next to be run. *)
Lemma run_next_ok t P H Z ig b : inv t P ((ig, b) :: H) Z -> next_gate_ t = None ->
  let t' := set_next (Some (ig, b)) t in
  inv t' P H Z /\ live t' P H ≡ₚ live t P ((ig, b) :: H) /\ batches t' = batches t /\ kept t t'.
Proof.
  intros [I1 I2 I3 I4 I5 I6 I7 I8] Hn t'. assert (PL : live t' P H ≡ₚ live t P ((ig, b) :: H)) by (rewrite live_hand; unfold live; by rewrite Hn).
  split; [|split; [done|split; [done|by split]]]. split; try done; [|by rewrite PL]. intros ig' b' Hin. rewrite PL in Hin. by apply I3.
Qed.

(** Merged with batch [x], which waits. *)
Lemma merge_ok t P H Z ig b x k l : inv t P ((ig, b) :: H) Z -> (ig, x) ∈ igates_to_run_ t -> batches t !! x = Some k -> batches t !! b = Some l ->
  (length k + length l <= kMaxBurst)%nat ->
  exists t', add_batch x b t = inl t' /\ inv t' P H Z /\ kept t t' /\ live t' P H = live t P H /\
    inflight t' P H ≡ₚ inflight t P ((ig, b) :: H).
Proof.
  intros [I1 I2 I3 I4 I5 I6 I7 I8] Hx Hk Hl Hlen. unfold add_batch, batch_of. rewrite Hk, Hl. cbn [some rbind]. unfold check. rewrite decide_True by done.
  cbn [rbind]. eexists. split; [done|]. set (t' := set_batches _ t).
  assert (HxL : (ig, x) ∈ live t P H) by (unfold live; rewrite !elem_of_app; auto). rewrite live_hand in I4. apply NoDup_cons in I4 as [Hb I4].
  destruct (take_out _ _ _ HxL I4) as (L' & PL & HxL'). assert (Hbx : b <> x) by (intros ->; apply Hb; apply list_elem_of_fmap; by exists (ig, x)).
  split; [split; try done|split; [done|split; [done|]]].
  - intros ig' b' Hin. change (live t' P H) with (live t P H) in Hin. destruct (I3 ig' b') as (Hg & Hidx & l' & Hl' & Hle); [rewrite live_hand; by constructor|].
    split; [done|]. split; [done|]. cbn. destruct (decide (b' = x)) as [->|]; [|rewrite lookup_insert_ne by done; by exists l'].
    exists (k ++ l). rewrite lookup_insert_eq, length_app. done.
  - unfold inflight. change (live t' P H) with (live t P H). rewrite (flight_perm _ _ _ (live_hand t P H (ig, b))), !(flight_perm _ _ _ PL).
    assert (PL2 : (ig, b) :: live t P H ≡ₚ (ig, x) :: (ig, b) :: L') by (rewrite PL; apply Permutation_swap). rewrite (flight_perm _ _ _ PL2).
    unfold flight. cbn [mbind list_bind fst snd batches set_batches t']. rewrite lookup_insert_eq, Hk, Hl. cbn [default].
    fold (flight (<[x := k ++ l]> (batches t)) L'). fold (flight (batches t) L'). rewrite flight_insert by done. unfold id. by rewrite fmap_app, <- app_assoc.
Qed.

(** [AddToRun]: the batch waits, is run next, or is merged with one that waits for the same gate. *)
Lemma add_to_run_ok t P H Z ig b : inv t P ((ig, b) :: H) Z -> ig_index ig ∉ Z ->
  exists t', AddToRun g ig_index ig b t = inl t' /\ inv t' P H Z /\ kept t t' /\ inflight t' P H ≡ₚ inflight t P ((ig, b) :: H) /\
    (live t' P H ≡ₚ live t P ((ig, b) :: H) \/ live t' P H ≡ₚ live t P H).
Proof.
  intros I HZ. pose proof (i_live _ _ _ _ I ig b) as Hb. rewrite live_hand in Hb. destruct (Hb ltac:(constructor)) as ([r Hr] & _ & l & Hl & Hlen).
  unfold AddToRun. rewrite Hr. cbn [some rbind].
  assert (Hq : exists t', (t ←! set_gate_batch (ig_index ig) (Some b) t; q ←! some (push GBG (ig, b) (igates_to_run_ t)); inl (set_queue q t)) = inl t' /\
    inv t' P H Z /\ kept t t' /\ inflight t' P H ≡ₚ inflight t P ((ig, b) :: H) /\ (live t' P H ≡ₚ live t P ((ig, b) :: H) \/ live t' P H ≡ₚ live t P H)).
  { destruct (queue_ok t P H Z ig b r I Hr HZ) as (t' & -> & I' & PL & Eb & Hk). exists t'. split; [done|]. split; [done|]. split; [done|]. split; [|by left].
    unfold inflight. rewrite Eb. by apply flight_perm. }
  assert (Hwait : exists t', (ib ←! get_gate_batch (ig_index ig) t; l ←! batch_of b t;
    match ib with
    | Some x => k ←! batch_of x t; if decide (length k + length l <= kMaxBurst)%nat then add_batch x b t else
        (t ←! set_gate_batch (ig_index ig) (Some b) t; q ←! some (push GBG (ig, b) (igates_to_run_ t)); inl (set_queue q t))
    | None => t ←! set_gate_batch (ig_index ig) (Some b) t; q ←! some (push GBG (ig, b) (igates_to_run_ t)); inl (set_queue q t)
    end) = inl t' /\ inv t' P H Z /\ kept t t' /\ inflight t' P H ≡ₚ inflight t P ((ig, b) :: H) /\ (live t' P H ≡ₚ live t P ((ig, b) :: H) \/ live t' P H ≡ₚ live t P H)).
  { pose proof (x_ig X ig r Hr) as Hi. unfold get_gate_batch. destruct (lookup_lt_is_Some_2 (gate_batch_ t) (ig_index ig)) as [ib Hib]; [by rewrite (i_len _ _ _ _ I)|].
    rewrite Hib. cbn [some rbind]. rewrite (batch_ok _ _ _ Hl). cbn [rbind]. destruct ib as [x|]; [|exact Hq].
    destruct (i_occ _ _ _ _ I _ _ Hib) as [(ig' & [r' Hr'] & E & Hin)|[(og & ig' & Hin & E)|?]]; [|exfalso|done].
    - assert (ig' = ig) as -> by (symmetry; by apply (x_igs X ig ig' r r')). assert (HxL : (ig, x) ∈ live t P ((ig, b) :: H)) by (unfold live; rewrite !elem_of_app; auto).
      destruct (i_live _ _ _ _ I ig x HxL) as (_ & _ & k & Hk & _). rewrite (batch_ok _ _ _ Hk). cbn [rbind]. case_decide as Hfit; [|exact Hq].
      destruct (merge_ok t P H Z ig b x k l I Hin Hk Hl Hfit) as (t' & E' & I' & Hkept & EL & EF). exists t'. split; [exact E'|]. split; [done|]. split; [done|]. split; [done|].
      right. by rewrite EL.
    - destruct (i_pend _ _ _ _ I og ig' x Hin) as [(o & Ho & _) _]. by apply (x_apart X ig og r o). }
  destruct (next_gate_ t) as [nx|] eqn:En; [exact Hwait|]. destruct (mergeable_ r); [exact Hwait|].
  eexists. split; [done|]. destruct (run_next_ok t P H Z ig b I En) as (I' & PL & Eb & Hk). split; [done|]. split; [done|]. split; [|by left].
  unfold inflight. rewrite Eb. by apply flight_perm.
Qed.

(** ** Batches of output gates *)

Lemma live_perm t P P' H H' : P ≡ₚ P' -> H ≡ₚ H' -> live t P H ≡ₚ live t P' H'.
Proof. intros E1 E2. unfold live. by rewrite E1, E2. Qed.

Lemma inv_perm t P P' H Z : P ≡ₚ P' -> inv t P H Z -> inv t P' H Z.
Proof.
  intros E [I1 I2 I3 I4 I5 I6 I7 I8]. assert (PL : live t P H ≡ₚ live t P' H) by (by apply live_perm). split; try done.
  - intros ig b Hin. rewrite <- PL in Hin. by apply I3.
  - by rewrite <- PL.
  - intros og ig b Hin. rewrite <- E in Hin. by apply I6.
  - by rewrite <- E.
  - intros i b Hb. destruct (I8 i b Hb) as [?|[(og & ig & Hin & ?)|?]]; [by left| |by right; right]. right. left. exists og, ig. by rewrite <- E.
Qed.

(** Taking the batch of an output gate in hand, and giving it one. *)
Lemma unpend_ok t P H og ig b : inv t ((og, ig, b) :: P) H [] -> inv t P ((ig, b) :: H) [og_index og] /\ live t P ((ig, b) :: H) ≡ₚ live t ((og, ig, b) :: P) H.
Proof.
  intros [I1 I2 I3 I4 I5 I6 I7 I8]. assert (PL : live t P ((ig, b) :: H) ≡ₚ live t ((og, ig, b) :: P) H).
  { unfold live. cbn [fmap list_fmap fst snd]. apply Permutation_app_head, Permutation_app_head. by rewrite <- Permutation_middle. }
  split; [|done]. split; try done.
  - intros ig' b' Hin. rewrite PL in Hin. by apply I3.
  - by rewrite PL.
  - intros og' ig' b' Hin. apply I6. by constructor.
  - by apply NoDup_cons in I7 as [_ ?].
  - intros i b' Hb. destruct (I8 i b' Hb) as [?|[(og' & ig' & Hin & E)|Hz]]; [by left| |by apply elem_of_nil in Hz]. right.
    apply elem_of_cons in Hin as [[= -> -> ->]|Hin]; [right; subst; by apply list_elem_of_singleton|left; by exists og', ig'].
Qed.

Lemma pend_ok t P H Z og o ig b : inv t P ((ig, b) :: H) Z -> (forall i, i ∈ Z -> i = og_index og) -> ogs g !! og = Some o -> igate_ o = Some ig ->
  og ∉ (fun x : pending => x.1.1) <$> P ->
  exists t', set_gate_batch (og_index og) (Some b) t = inl t' /\ inv t' ((og, ig, b) :: P) H [] /\ live t' ((og, ig, b) :: P) H ≡ₚ live t P ((ig, b) :: H) /\
    batches t' = batches t /\ kept t t'.
Proof.
  intros [I1 I2 I3 I4 I5 I6 I7 I8] HZ Ho Hi Hno. pose proof (x_og X og o Ho) as Hlt. rewrite set_gate_ok by done. eexists. split; [done|]. set (t' := set_gates _ t).
  assert (PL : live t' ((og, ig, b) :: P) H ≡ₚ live t P ((ig, b) :: H)).
  { unfold live. cbn [fmap list_fmap fst snd]. apply Permutation_app_head, Permutation_app_head. by rewrite <- Permutation_middle. }
  split; [|split; [done|split; [done|by split]]]. split; cbn [t' gate_batch_ igates_to_run_ set_gates]; try done.
  - by rewrite length_insert.
  - intros ig' b' Hin. rewrite PL in Hin. by apply I3.
  - by rewrite PL.
  - intros og' ig' b' [[= -> -> ->]|Hin]%elem_of_cons; [split; [by exists o|]; apply list_lookup_insert_eq; lia|].
    destruct (I6 og' ig' b' Hin) as [(o' & Ho' & Eo) Hg]. split; [by exists o'|]. rewrite list_lookup_insert_ne; [done|]. intros E. apply Hno.
    rewrite (x_ogs X og og' o o' Ho Ho' E). apply list_elem_of_fmap. by exists (og', ig', b').
  - cbn. apply NoDup_cons. by split.
  - intros i b' Hb. destruct (decide (i = og_index og)) as [->|Hne].
    + rewrite list_lookup_insert_eq in Hb by lia. injection Hb as <-. right. left. exists og, ig. split; [by constructor|done].
    + rewrite list_lookup_insert_ne in Hb by done. destruct (I8 i b' Hb) as [?|[(og' & ig' & Hin & E)|Hz]]; [by left| |by destruct Hne; apply HZ].
      right. left. exists og', ig'. split; [by constructor|done].
Qed.

Lemma unset_ok t P H og o : inv t P H [og_index og] -> ogs g !! og = Some o -> og ∉ (fun x : pending => x.1.1) <$> P ->
  exists t', set_gate_batch (og_index og) None t = inl t' /\ inv t' P H [] /\ live t' P H = live t P H /\ batches t' = batches t /\ kept t t'.
Proof.
  intros [I1 I2 I3 I4 I5 I6 I7 I8] Ho Hno. pose proof (x_og X og o Ho) as Hlt. rewrite set_gate_ok by done. eexists. split; [done|].
  split; [|split; [done|split; [done|by split]]]. split; cbn [gate_batch_ igates_to_run_ set_gates]; try done.
  - by rewrite length_insert.
  - intros og' ig' b' Hin. destruct (I6 og' ig' b' Hin) as [(o' & Ho' & Eo) Hg]. split; [by exists o'|]. rewrite list_lookup_insert_ne; [done|]. intros E. apply Hno.
    rewrite (x_ogs X og og' o o' Ho Ho' E). apply list_elem_of_fmap. by exists (og', ig', b').
  - intros i b' Hb. destruct (decide (i = og_index og)) as [->|Hne]; [rewrite list_lookup_insert_eq in Hb by lia; done|].
    rewrite list_lookup_insert_ne in Hb by done. destruct (I8 i b' Hb) as [?|[?|Hz]]; [by left|by right; left|by apply list_elem_of_singleton in Hz].
Qed.

(** A new batch, for input gate [ig]. *)
Lemma alloc_ok t P H Z ig : inv t P H Z -> is_Some (igs g !! ig) ->
  AllocPacketBatch t = inr NoBatch \/
  exists b t', AllocPacketBatch t = inl (b, t') /\ inv t' P ((ig, b) :: H) Z /\ live t' P ((ig, b) :: H) ≡ₚ (ig, b) :: live t P H /\
    inflight t' P ((ig, b) :: H) ≡ₚ inflight t P H /\ batches t' !! b = Some [] /\ dead_batch_ t' = dead_batch_ t.
Proof.
  intros [I1 I2 I3 I4 I5 I6 I7 I8] Hig. unfold AllocPacketBatch, check. case_decide as Hlt; [|by left]. right. eexists _, _. split; [done|]. set (t' := Task _ _ _ _ _ _).
  assert (PL : live t' P ((ig, pbatch_idx_ t) :: H) ≡ₚ (ig, pbatch_idx_ t) :: live t P H) by (by rewrite live_hand).
  assert (Hfresh : pbatch_idx_ t ∉ (live t P H).*2).
  { intros ([ig' b'] & Eb & Hin)%list_elem_of_fmap. cbn in Eb. subst b'. destruct (I3 _ _ Hin) as (_ & [E|E] & _); [|lia]. unfold init_batch, MAX_PBATCH_CNT in *. lia. }
  split; [split; cbn [t' gate_batch_ igates_to_run_ pbatch_idx_ batches]; try done|split; [done|split; [|split; [apply lookup_insert_eq|done]]]].
  - intros ig' b' Hin. rewrite PL in Hin. apply elem_of_cons in Hin as [[= -> ->]|Hin].
    + split; [done|]. split; [right; lia|]. exists []. rewrite lookup_insert_eq. split; [done|]. cbn. lia.
    + destruct (I3 _ _ Hin) as (Hg & Hi & l & Hl & Hle). split; [done|]. split; [destruct Hi; [by left|right; lia]|]. exists l. rewrite lookup_insert_ne; [done|].
      intros <-. apply Hfresh, list_elem_of_fmap. by exists (ig', pbatch_idx_ t).
  - rewrite PL. cbn. apply NoDup_cons. by split.
  - lia.
  - unfold inflight. rewrite (flight_perm _ _ _ PL). unfold flight. cbn [mbind list_bind fst snd batches t']. rewrite lookup_insert_eq. cbn.
    fold (flight (<[pbatch_idx_ t := []]> (batches t)) (live t P H)). by rewrite flight_insert.
Qed.

(** A packet more in a batch. *)
Lemma add_packet_ok t P H Z ig b l p : inv t P H Z -> (ig, b) ∈ live t P H -> batches t !! b = Some l -> (length l < kMaxBurst)%nat ->
  exists t', add_packet p b t = inl t' /\ inv t' P H Z /\ live t' P H = live t P H /\ inflight t' P H ≡ₚ (ig, p) :: inflight t P H /\ kept t t'.
Proof.
  intros [I1 I2 I3 I4 I5 I6 I7 I8] Hin Hl Hlt. unfold add_packet. rewrite (batch_ok _ _ _ Hl). cbn [rbind]. unfold check. rewrite decide_True by done. cbn [rbind].
  eexists. split; [done|]. set (t' := set_batches _ t). destruct (take_out _ _ _ Hin I4) as (L' & PL & Hb).
  split; [split; try done|split; [done|split; [|by split]]].
  - intros ig' b' Hin'. destruct (I3 ig' b' Hin') as (Hg & Hi & l' & Hl' & Hle). split; [done|]. split; [done|]. cbn.
    destruct (decide (b' = b)) as [->|]; [|rewrite lookup_insert_ne by done; by exists l']. exists (l ++ [p]). rewrite lookup_insert_eq, length_app. cbn. split; [done|lia].
  - unfold inflight. change (live t' P H) with (live t P H). rewrite !(flight_perm _ _ _ PL). unfold flight. cbn [mbind list_bind fst snd batches set_batches t'].
    rewrite lookup_insert_eq, Hl. cbn [default]. fold (flight (<[b := l ++ [p]]> (batches t)) L'). fold (flight (batches t) L'). rewrite flight_insert by done.
    unfold id. rewrite fmap_app. cbn. rewrite <- app_assoc. cbn. by rewrite <- Permutation_middle.
Qed.

(** ** What an operation does to the batches in use *)

(** Input gates by layers: a module sends to lower ones only. *)
Definition layered (rank : addr -> nat) (M : nat) : Prop :=
  (forall i, is_Some (igs g !! i) -> (rank i <= M)%nat) /\
  forall i r og o ig, igs g !! i = Some r -> ogs g !! og = Some o -> og_module o = ig_module r -> igate_ o = Some ig -> (rank ig < rank i)%nat.

(** A bound of the batches still to run: each allocation makes room for a batch of any layer. *)
Definition height (rank : addr -> nat) : list (addr * nat) -> nat := sum_list_with (fun x : addr * nat => rank x.1 + 1)%nat.
Definition weight (rank : addr -> nat) (M : nat) (t : TaskState) (L : list (addr * nat)) : nat :=
  ((MAX_PBATCH_CNT - pbatch_idx_ t) * (M + 2) + height rank L)%nat.

Definition idle (t : TaskState) (L : list (addr * nat)) (b : nat) : Prop := (b = init_batch \/ (b < pbatch_idx_ t)%nat) /\ b ∉ L.*2.

Record adv (t : TaskState) (L : list (addr * nat)) (t' : TaskState) (L' : list (addr * nat)) (new : list (addr * addr)) : Prop := {
  a_flight : flight (batches t') L' ≡ₚ new ++ flight (batches t) L;
  a_idle : forall b, idle t L b -> idle t' L' b;
  a_weight : forall rank M, layered rank M -> (weight rank M t' L' <= weight rank M t L)%nat
}.

Lemma adv_trans t1 L1 t2 L2 t3 L3 n1 n2 : adv t1 L1 t2 L2 n1 -> adv t2 L2 t3 L3 n2 -> adv t1 L1 t3 L3 (n2 ++ n1).
Proof.
  intros [F1 I1 W1] [F2 I2 W2]. split; [by rewrite F2, F1, app_assoc|auto|].
  intros rank M HL. specialize (W1 rank M HL). specialize (W2 rank M HL). lia.
Qed.

Lemma height_perm rank L L' : L ≡ₚ L' -> height rank L = height rank L'.
Proof. intros E. unfold height. by rewrite E. Qed.

Lemma weight_pos rank M t x L : x ∈ L -> (0 < weight rank M t L)%nat.
Proof.
  intros Hx. apply Nat.lt_le_trans with (height rank L); [|apply Nat.le_add_l].
  pose proof (sum_list_with_in x (fun x : addr * nat => rank x.1 + 1)%nat L Hx) as Hs. cbn beta in Hs. unfold height. lia.
Qed.

(** Batches change places only. *)
Lemma adv_same t L t' L' : L' ≡ₚ L -> batches t' = batches t -> kept t t' -> adv t L t' L' [].
Proof.
  intros E Eb [Ei Ed]. split; [rewrite Eb; by apply flight_perm| |].
  - intros b [Hb Hn]. split; [by rewrite Ei|]. by rewrite E.
  - intros rank M _. unfold weight. rewrite Ei, (height_perm rank _ _ E). lia.
Qed.

Lemma adv_refl t L : adv t L t L [].
Proof. by apply adv_same. Qed.

Lemma add_to_run_adv t P H Z ig b : inv t P ((ig, b) :: H) Z -> ig_index ig ∉ Z ->
  exists t', AddToRun g ig_index ig b t = inl t' /\ inv t' P H Z /\ adv t (live t P ((ig, b) :: H)) t' (live t' P H) [] /\ dead_batch_ t' = dead_batch_ t.
Proof.
  intros I HZ. destruct (add_to_run_ok t P H Z ig b I HZ) as (t' & E & I' & [Ei Ed] & F & HL). exists t'. split; [done|]. split; [done|]. split; [|done].
  split; [done| |].
  - intros c [Hc Hn]. split; [by rewrite Ei|]. destruct HL as [->| ->]; [done|]. rewrite live_hand in Hn. cbn in Hn. by apply not_elem_of_cons in Hn as [_ ?].
  - intros rank M _. unfold weight. rewrite Ei. destruct HL as [E'|E']; rewrite (height_perm rank _ _ E'); [lia|].
    rewrite (height_perm rank _ _ (live_hand t P H (ig, b))). cbn. lia.
Qed.

Lemma alloc_adv t P H Z ig : inv t P H Z -> is_Some (igs g !! ig) ->
  AllocPacketBatch t = inr NoBatch \/
  exists b t', AllocPacketBatch t = inl (b, t') /\ inv t' P ((ig, b) :: H) Z /\ batches t' !! b = Some [] /\
    adv t (live t P H) t' (live t' P ((ig, b) :: H)) [] /\ dead_batch_ t' = dead_batch_ t.
Proof.
  intros I Hig. destruct (alloc_ok t P H Z ig I Hig) as [?|(b & t' & E & I' & HL & F & Hb & Hd)]; [by left|]. right. exists b, t'.
  assert (Ei : b = pbatch_idx_ t /\ (pbatch_idx_ t < MAX_PBATCH_CNT)%nat /\ pbatch_idx_ t' = (pbatch_idx_ t + 1)%nat).
  { revert E. unfold AllocPacketBatch, check. case_decide; [|done]. cbn. by intros [= <- <-]. } destruct Ei as (Eb & Hlt & Ei).
  split; [done|]. split; [done|]. split; [done|]. split; [|done]. split; [done| |].
  - intros c [Hc Hn]. split; [destruct Hc; [by left|right; lia]|]. rewrite HL. cbn. apply not_elem_of_cons. split; [|done].
    rewrite Eb. unfold init_batch, MAX_PBATCH_CNT in *. lia.
  - intros rank M [Hr _]. unfold weight. rewrite Ei, (height_perm rank _ _ HL). cbn [height sum_list_with fst]. fold (height rank (live t P H)).
    specialize (Hr ig Hig). replace (MAX_PBATCH_CNT - pbatch_idx_ t)%nat with (Datatypes.S (MAX_PBATCH_CNT - (pbatch_idx_ t + 1)))%nat by lia. cbn. lia.
Qed.

Lemma add_packet_adv t P H Z ig b l p : inv t P H Z -> (ig, b) ∈ live t P H -> batches t !! b = Some l -> (length l < kMaxBurst)%nat ->
  exists t', add_packet p b t = inl t' /\ inv t' P H Z /\ adv t (live t P H) t' (live t' P H) [(ig, p)] /\ dead_batch_ t' = dead_batch_ t.
Proof.
  intros I Hin Hl Hlt. destruct (add_packet_ok t P H Z ig b l p I Hin Hl Hlt) as (t' & E & I' & HL & F & [Ei Ed]). exists t'. split; [done|]. split; [done|]. split; [|done].
  split; [done| |].
  - intros c [Hc Hn]. split; [by rewrite Ei|]. by rewrite HL.
  - intros rank M _. unfold weight. by rewrite Ei, HL.
Qed.

(** ** Emitting a packet *)

(** Where output gate [k] of [m] leads. *)
Definition target (m : addr) (k : nat) : option addr := c ← mods g !! m; og ← mjoin (ogates_ c !! k); o ← ogs g !! og; igate_ o.

Lemma oslot_ogate m k og : oslot g m k og -> ogate_of g m k = inl (Some og).
Proof. intros (c & Hc & Hk). unfold ogate_of. rewrite Hc. cbn. by rewrite Hk. Qed.

Lemma target_cases m k : is_Some (mods g !! m) -> ogate_of g m k = inl None /\ target m k = None \/
  exists og o ig, oslot g m k og /\ ogs g !! og = Some o /\ og_module o = m /\ igate_ o = Some ig /\ is_Some (igs g !! ig) /\ target m k = Some ig.
Proof.
  intros [c Hc]. unfold ogate_of, target. rewrite Hc. cbn. destruct (ogates_ c !! k) as [[og|]|] eqn:Ek; [|by left|by left]. right. cbn.
  assert (Hs : oslot g m k og) by (by exists c). destruct (k_slot g K m k og Hs) as (o & Ho & Hm & _).
  destruct (k_up g K og o Ho) as (ig & r & Hi & Hr & _). exists og, o, ig. rewrite Ho. cbn. eauto 10.
Qed.

(** A module at work: its gates [W] in use are among [G], and their batches are those of [P]. *)
Record at_module (m : addr) (G : list nat) (s : state S) (P : list pending) : Prop := {
  m_inv : inv (task s) P [] [];
  m_slots : Forall2 (oslot g m) (gate_with_hook (ctx s)) ((fun x : pending => x.1.1) <$> P);
  m_none : gate_without_hook (ctx s) = [];
  m_nodup : NoDup (gate_with_hook (ctx s));
  m_sub : gate_with_hook (ctx s) ⊆ G;
  m_dead : (length (dead_batch_ (task s)) < kMaxBurst)%nat
}.

Lemma gate_batch_is t P og o ig b : inv t P [] [] -> ogs g !! og = Some o -> igate_ o = Some ig ->
  gate_batch_ t !! og_index og = Some (Some b) -> (og, ig, b) ∈ P.
Proof.
  intros I Ho Hi Hb. destruct (i_occ _ _ _ _ I _ _ Hb) as [(i & [r Hr] & E & _)|[(og' & ig' & Hin & E)|Hz]]; [|  |by apply elem_of_nil in Hz].
  - exfalso. by apply (x_apart X i og r o).
  - destruct (i_pend _ _ _ _ I _ _ _ Hin) as [(o' & Ho' & Hi') _]. assert (og' = og) as -> by (symmetry; by apply (x_ogs X og og' o o')). congruence.
Qed.

(** The first packet at a gate. *)
Lemma first_ok m G s P k og o ig : at_module m G s P -> (length G <= kMaxBurst)%nat -> k ∈ G -> oslot g m k og -> ogs g !! og = Some o -> igate_ o = Some ig ->
  is_Some (igs g !! ig) -> gate_batch_ (task s) !! og_index og = Some None ->
  first_batch g ig_index og_index og ig true k s = inr NoBatch \/
  exists b s' P', first_batch g ig_index og_index og ig true k s = inl (b, s') /\ at_module m G s' P' /\ (og, ig, b) ∈ P' /\
    batches (task s') !! b = Some [] /\ env s' = env s /\ silent_drops (ctx s') = silent_drops (ctx s) /\ dead_batch_ (task s') = dead_batch_ (task s) /\
    adv (task s) (live (task s) P []) (task s') (live (task s') P' []) [].
Proof.
  intros [A1 A2 A3 A4 A5 A6] HG Hk Hs Ho Hi Hig Hnb. unfold first_batch. destruct (alloc_adv _ P [] [] ig A1 Hig) as [->|(b & t & -> & I & Hb & Hadv & Hd)]; [by left|].
  cbn [rbind]. assert (Hno : og ∉ (fun x : pending => x.1.1) <$> P).
  { intros ([[og' ig'] b'] & -> & Hin)%list_elem_of_fmap. apply (i_pend _ _ _ _ A1) in Hin as [_ Hgb]. cbn in Hnb. congruence. }
  assert (Hkw : k ∉ gate_with_hook (ctx s)).
  { intros [j Hj]%list_elem_of_lookup. destruct (Forall2_lookup_l _ _ _ _ _ A2 Hj) as (og' & Hog' & Hs'). apply Hno. rewrite (oslot_inj g m k og og' Hs Hs').
    by apply list_elem_of_lookup_2 with j. }
  destruct (pend_ok t P [] [] og o ig b I) as (t' & -> & I' & HL & Eb & [Ei Ed]); [by intros i ?%elem_of_nil|done|done|done|]. cbn [rbind].
  unfold note_with_hook, check. rewrite decide_True.
  - right. cbn [rbind]. eexists _, _, (P ++ [(og, ig, b)]). assert (PP : (og, ig, b) :: P ≡ₚ P ++ [(og, ig, b)]) by (by rewrite Permutation_app_comm).
    assert (I2 : inv t' (P ++ [(og, ig, b)]) [] []) by (by apply (inv_perm t' _ _ _ _ PP)).
    split; [done|]. cbn [task ctx env set_ctx set_task gate_with_hook gate_without_hook silent_drops].
    split; [|split; [apply elem_of_app; right; by apply list_elem_of_singleton|split; [by rewrite Eb|split; [done|split; [done|split; [congruence|]]]]]].
    + split; cbn [task ctx set_ctx set_task gate_with_hook gate_without_hook]; try done.
      * rewrite fmap_app. apply Forall2_app; [done|]. by repeat constructor.
      * apply NoDup_app. split; [done|]. split; [|apply NoDup_singleton]. intros x Hx ->%list_elem_of_singleton. done.
      * intros x [Hx|Hx]%elem_of_app; [by apply A5|]. by apply list_elem_of_singleton in Hx as ->.
      * by rewrite Ed, Hd.
    + change (@nil (addr * addr)) with ([] ++ @nil (addr * addr)). apply (adv_trans _ _ _ _ _ _ _ _ Hadv). apply adv_same; [|done|done]. rewrite <- HL.
      apply live_perm; [by rewrite PP|done].
  - assert (length (k :: gate_with_hook (ctx s)) <= length G)%nat; [|cbn in *; lia]. apply submseteq_length, NoDup_submseteq; [by apply NoDup_cons|].
    intros x [->|Hx]%elem_of_cons; [done|by apply A5].
Qed.

(** A batch with room for a packet. *)
Lemma room_ok t P og o ig b l : inv t P [] [] -> (og, ig, b) ∈ P -> ogs g !! og = Some o -> igate_ o = Some ig -> batches t !! b = Some l ->
  (if decide (kMaxBurst <= length l)%nat then next_batch g ig_index og_index og ig true b t else inl (b, t)) = inr NoBatch \/
  exists b' t' P' l', (if decide (kMaxBurst <= length l)%nat then next_batch g ig_index og_index og ig true b t else inl (b, t)) = inl (b', t') /\
    inv t' P' [] [] /\ (og, ig, b') ∈ P' /\ (fun x : pending => x.1.1) <$> P' = (fun x : pending => x.1.1) <$> P /\
    batches t' !! b' = Some l' /\ (length l' < kMaxBurst)%nat /\ dead_batch_ t' = dead_batch_ t /\ adv t (live t P []) t' (live t' P' []) [].
Proof.
  intros I Hin Ho Hi Hl. case_decide as Hfull.
  2:{ right. exists b, t, P, l. split; [done|]. split; [done|]. split; [done|]. split; [done|]. split; [done|]. split; [lia|]. split; [done|apply adv_refl]. }
  apply list_elem_of_split in Hin as (P1 & P2 & ->). assert (PP : P1 ++ (og, ig, b) :: P2 ≡ₚ (og, ig, b) :: (P1 ++ P2)) by (by rewrite Permutation_middle).
  pose proof (inv_perm _ _ _ _ _ PP I) as I0. destruct (unpend_ok _ _ _ _ _ _ I0) as [I1 HL1].
  assert (Hno : og ∉ (fun x : pending => x.1.1) <$> (P1 ++ P2)) by (apply i_ogs, NoDup_cons in I0 as [? _]; done).
  destruct (k_up g K og o Ho) as (ig' & r & Hi' & Hr & _). assert (ig' = ig) as -> by congruence.
  unfold next_batch. destruct (add_to_run_adv _ _ _ _ _ _ I1) as (t1 & -> & I2 & A1 & D1); [intros E%list_elem_of_singleton; by apply (x_apart X ig og r o)|].
  cbn [rbind]. destruct (alloc_adv _ _ _ _ ig I2 ltac:(eauto)) as [->|(b' & t2 & -> & I3 & Hb & A2 & D2)]; [by left|]. cbn [rbind].
  destruct (pend_ok t2 _ _ _ og o ig b' I3) as (t3 & -> & I4 & HL & Eb & [Ei Ed]); [by intros i ?%list_elem_of_singleton|done|done|done|]. cbn [rbind].
  right. exists b', t3, (P1 ++ (og, ig, b') :: P2), []. assert (PP' : P1 ++ (og, ig, b') :: P2 ≡ₚ (og, ig, b') :: (P1 ++ P2)) by (by rewrite Permutation_middle).
  split; [done|]. split; [by apply (inv_perm _ _ _ _ _ (symmetry PP'))|]. split; [apply elem_of_app; right; by constructor|]. split; [by rewrite !fmap_app|].
  split; [by rewrite Eb|]. split; [unfold kMaxBurst; cbn; lia|]. split; [congruence|]. change (@nil (addr * addr)) with ([] ++ ([] ++ ([] ++ @nil (addr * addr)))).
  eapply adv_trans; [eapply adv_trans; [eapply adv_trans; [|exact A1]|exact A2]|].
  - apply adv_same; [|done|by split]. rewrite HL1. apply live_perm; [by rewrite PP|done].
  - apply adv_same; [|done|by split]. rewrite <- HL. apply live_perm; [by rewrite PP'|done].
Qed.

(** ** Packets that end here *)

(** The packets that output [out] of [m] sends, with their input gates, and those that end at [m]. *)
Definition sent1 (m : addr) (x : addr * option nat) : list (addr * addr) :=
  match x.2 ≫= target m with Some ig => [(ig, x.1)] | None => [] end.
Definition lost1 (m : addr) (x : addr * option nat) : list (addr * addr) :=
  match x.2 ≫= target m with Some _ => [] | None => [(m, x.1)] end.
Definition sent_by (m : addr) (out : output) : list (addr * addr) :=
  (emits out ≫= sent1 m) ++ match pass out with Some (k, l) => l ≫= (fun p => sent1 m (p, Some k)) | None => [] end.
Definition lost_by (m : addr) (out : output) : list (addr * addr) :=
  (emits out ≫= lost1 m) ++ match pass out with Some (k, l) => l ≫= (fun p => lost1 m (p, Some k)) | None => [] end.

(** The packets of [L] that end at [m]. *)
Definition ends_at (m : addr) (L : list (addr * addr)) : Z := Z.of_nat (length (filter (fun x => x.1 = m) L)).
Definition deadends (s : state S) (m : addr) : Z := default 0 (deadends_ (env s) !! m).

(** [L] is freed or in the dead batch, and counted. *)
Record spent (s s' : state S) (L : list (addr * addr)) : Prop := {
  s_freed : exists fl, freed (env s') = freed (env s) ++ fl /\ fl ++ dead_batch_ (task s') ≡ₚ L.*2 ++ dead_batch_ (task s) /\
    u64 (silent_drops (ctx s')) = u64 (silent_drops (ctx s) + Z.of_nat (length fl));
  s_count : forall m, u64 (deadends s' m) = u64 (deadends s m + ends_at m L)
}.

Lemma u64_add a b c x : u64 b = u64 (a + x) -> u64 (b + c) = u64 (a + x + c).
Proof. unfold wrap. intros E. by rewrite Z.add_mod, E, <- Z.add_mod. Qed.

Lemma spent_trans s1 s2 s3 L1 L2 : spent s1 s2 L1 -> spent s2 s3 L2 -> spent s1 s3 (L2 ++ L1).
Proof.
  intros [(f1 & E1 & P1 & U1) C1] [(f2 & E2 & P2 & U2) C2]. split; [|intros m].
  - exists (f1 ++ f2). split; [by rewrite E2, E1, app_assoc|]. split; [by rewrite <- app_assoc, P2, fmap_app, (Permutation_app_comm f1), <- !app_assoc, (Permutation_app_comm _ f1), P1|].
    rewrite U2, (u64_add _ _ _ _ U1), length_app. f_equal. lia.
  - rewrite C2, (u64_add _ _ _ _ (C1 m)). unfold ends_at. rewrite filter_app, length_app. f_equal. lia.
Qed.

Lemma spent_refl s s' : env s' = env s -> dead_batch_ (task s') = dead_batch_ (task s) -> silent_drops (ctx s') = silent_drops (ctx s) -> spent s s' [].
Proof.
  intros E D U. split; [|intros m].
  - exists []. rewrite E, D, U, app_nil_r, Z.add_0_r. done.
  - unfold deadends. rewrite E. cbn. by rewrite Z.add_0_r.
Qed.

Lemma ends_at_same m l : ends_at m (pair m <$> l) = Z.of_nat (length l).
Proof. unfold ends_at. f_equal. induction l as [|p l IH]; [done|]. cbn [fmap list_fmap]. rewrite filter_cons_True by done. cbn. by rewrite IH. Qed.

Lemma ends_at_other m m' l : m' <> m -> ends_at m' (pair m <$> l) = 0.
Proof. intros Hne. unfold ends_at. induction l as [|p l IH]; [done|]. cbn [fmap list_fmap]. rewrite filter_cons_False; [done|cbn; congruence]. Qed.

Lemma ended_ok m l s s' : (exists fl, freed (env s') = freed (env s) ++ fl /\ fl ++ dead_batch_ (task s') ≡ₚ l ++ dead_batch_ (task s) /\
    u64 (silent_drops (ctx s')) = u64 (silent_drops (ctx s) + Z.of_nat (length fl))) ->
  deadends_ (env s') = <[m := u64 (deadends s m + Z.of_nat (length l))]> (deadends_ (env s)) ->
  spent s s' (pair m <$> l).
Proof.
  intros HF HD. split; [|intros m'].
  - replace ((pair m <$> l).*2) with l; [done|]. rewrite <- list_fmap_compose. symmetry. apply list_fmap_id.
  - unfold deadends. rewrite HD. destruct (decide (m' = m)) as [->|Hne].
    + rewrite lookup_insert_eq, ends_at_same. cbn [default from_option]. unfold id. by rewrite wrap_wrap by lia.
    + rewrite lookup_insert_ne, ends_at_other by done. by rewrite Z.add_0_r.
Qed.

(** Only the dead batch of the task changes. *)
Definition task_kept (s s' : state S) : Prop :=
  exists d, task s' = set_dead d (task s) /\ (length d < kMaxBurst)%nat /\ gate_with_hook (ctx s') = gate_with_hook (ctx s) /\ gate_without_hook (ctx s') = gate_without_hook (ctx s).

Lemma drop_packet_ok m p s : (length (dead_batch_ (task s)) < kMaxBurst)%nat -> exists s', DropPacket m p s = inl s' /\ task_kept s s' /\ spent s s' [(m, p)] /\ calls (env s') = calls (env s).
Proof.
  intros Hd. unfold DropPacket, check. rewrite (decide_True _ _ Hd). cbn [rbind]. eexists. split; [done|]. cbn [task count_deadend set_env set_task set_dead dead_batch_].
  change [(m, p)] with (pair m <$> [p]). case_decide as Hfull.
  - split; [exists []; split; [done|split; [unfold kMaxBurst; cbn; lia|done]]|]. split; [|done]. apply ended_ok; [|done]. cbn. eexists. split; [done|]. rewrite app_nil_r.
    split; [by rewrite Permutation_app_comm|]. rewrite wrap_wrap by lia. done.
  - split; [eexists; split; [done|split; [lia|done]]|]. split; [|done]. apply ended_ok; [|done]. cbn. exists []. rewrite app_nil_r, Z.add_0_r.
    split; [done|]. split; [apply (Permutation_app_comm _ [p])|done].
Qed.

Lemma inv_dead d t P H Z : inv t P H Z -> inv (set_dead d t) P H Z.
Proof. by intros [I1 I2 I3 I4 I5 I6 I7 I8]. Qed.

Lemma adv_dead d t P H : adv t (live t P H) (set_dead d t) (live (set_dead d t) P H) [].
Proof. by split. Qed.

Lemma at_module_kept m G s s' P : at_module m G s P -> task_kept s s' -> at_module m G s' P.
Proof.
  intros [A1 A2 A3 A4 A5 A6] (d & Et & Hd & E1 & E2). split; rewrite ?E1, ?E2, ?Et; try done. by apply inv_dead.
Qed.

(** What a step does, to packets on their way and to those that end. *)
Definition moved (s : state S) (P : list pending) (s' : state S) (P' : list pending) (new lost : list (addr * addr)) : Prop :=
  adv (task s) (live (task s) P []) (task s') (live (task s') P' []) new /\ spent s s' lost /\ calls (env s') = calls (env s).

Lemma moved_trans s1 P1 s2 P2 s3 P3 n1 n2 l1 l2 : moved s1 P1 s2 P2 n1 l1 -> moved s2 P2 s3 P3 n2 l2 -> moved s1 P1 s3 P3 (n2 ++ n1) (l2 ++ l1).
Proof. intros (A1 & S1 & C1) (A2 & S2 & C2). split; [by eapply adv_trans|]. split; [by eapply spent_trans|congruence]. Qed.

Lemma moved_perm s P s' P' n n' l l' : n ≡ₚ n' -> l ≡ₚ l' -> moved s P s' P' n l -> moved s P s' P' n' l'.
Proof.
  intros En El ([F I W] & [S1 S2] & C). split; [|split; [|done]]; split; try done.
  - by rewrite <- En.
  - destruct S1 as (fl & E1 & E2 & E3). exists fl. split; [done|]. split; [by rewrite <- El|done].
  - intros m. rewrite S2. unfold ends_at. by rewrite El.
Qed.

Lemma drop_moved m n G p s P : at_module n G s P -> exists s', DropPacket m p s = inl s' /\ at_module n G s' P /\ moved s P s' P [] [(m, p)].
Proof.
  intros A. destruct (drop_packet_ok m p s (m_dead _ _ _ _ A)) as (s' & E & Hk & Hs & Hc). exists s'. split; [done|]. split; [by apply (at_module_kept _ _ s)|].
  split; [|by split]. destruct Hk as (d & -> & _). apply adv_dead.
Qed.

Lemma emit_ok m G s P p k : at_module m G s P -> is_Some (mods g !! m) -> (length G <= kMaxBurst)%nat -> k ∈ G ->
  EmitPacket g ig_index og_index m p k s = inr NoBatch \/
  exists s' P', EmitPacket g ig_index og_index m p k s = inl s' /\ at_module m G s' P' /\ moved s P s' P' (sent1 m (p, Some k)) (lost1 m (p, Some k)).
Proof.
  intros A Hm HG Hk. unfold EmitPacket, sent1, lost1. cbn [fst snd mbind option_bind].
  destruct (target_cases m k Hm) as [[-> ->]|(og & o & ig & Hs & Ho & Hom & Hi & Hig & ->)].
  { right. destruct (drop_moved m m G p s P A) as (s' & E & A' & M). exists s', P. by split. }
  rewrite (oslot_ogate _ _ _ Hs). cbn [rbind]. rewrite Ho. cbn [some rbind]. rewrite Hi. cbn [some rbind].
  rewrite (bool_decide_eq_true_2 _ (HH og o Ho)). unfold get_gate_batch.
  destruct (lookup_lt_is_Some_2 (gate_batch_ (task s)) (og_index og)) as [ob Hob]; [rewrite (i_len _ _ _ _ (m_inv _ _ _ _ A)); by apply (x_og X og o)|].
  rewrite Hob. cbn [some rbind].
  match goal with |- rbind _ ?x = _ \/ _ => set (e := x) end.
  assert (Hb : e = inr NoBatch \/
    exists b s1 P1 l, e = inl (b, s1) /\ at_module m G s1 P1 /\
      (og, ig, b) ∈ P1 /\ batches (task s1) !! b = Some l /\ moved s P s1 P1 [] []).
  { unfold e. clear e. destruct ob as [b|].
    - right. pose proof (gate_batch_is _ P og o ig b (m_inv _ _ _ _ A) Ho Hi Hob) as Hin.
      destruct (i_live _ _ _ _ (m_inv _ _ _ _ A) ig b) as (_ & _ & l & Hl & _); [unfold live; rewrite !elem_of_app; right; right; left; apply list_elem_of_fmap; by exists (og, ig, b)|].
      exists b, s, P, l. split; [done|]. split; [done|]. split; [done|]. split; [done|]. split; [apply adv_refl|]. split; [by apply spent_refl|done].
    - destruct (first_ok m G s P k og o ig A HG Hk Hs Ho Hi Hig Hob) as [?|(b & s1 & P1 & -> & A1 & Hin & Hl & He & Hu & Hd & Hadv)]; [by left|]. right.
      exists b, s1, P1, []. split; [done|]. split; [done|]. split; [done|]. split; [done|]. split; [done|]. split; [by apply spent_refl|by rewrite He]. }
  destruct Hb as [->|(b & s1 & P1 & l & -> & A1 & Hin & Hl & M1)]; [by left|]. cbn [rbind]. rewrite (batch_ok _ _ _ Hl). cbn [rbind].
  destruct (room_ok _ _ _ _ _ _ _ (m_inv _ _ _ _ A1) Hin Ho Hi Hl) as [->|(b2 & t2 & P2 & l2 & -> & I2 & Hin2 & EP & Hl2 & Hlen & Hd & A2)]; [by left|]. cbn [rbind].
  destruct (add_packet_adv t2 P2 [] [] ig b2 l2 p I2) as (t3 & -> & I3 & A3 & Hd3); [|done|done|].
  { unfold live. rewrite !elem_of_app. right; right; left. apply list_elem_of_fmap. by exists (og, ig, b2). }
  right. cbn [rbind]. exists (set_task t3 s1), P2. split; [done|]. destruct A1 as [B1 B2 B3 B4 B5 B6]. split.
  - split; cbn [task ctx set_task]; try done; [by rewrite EP|by rewrite Hd3, Hd].
  - change (moved s P (set_task t3 s1) P2 ([(ig, p)] ++ []) ([] ++ [])). eapply moved_trans; [exact M1|]. split; [|split; [apply spent_refl; cbn; congruence|done]].
    change [(ig, p)] with ([(ig, p)] ++ []). by eapply adv_trans.
Qed.

Lemma emit_all_ok m G l : is_Some (mods g !! m) -> (length G <= kMaxBurst)%nat -> omap snd l ⊆ G -> forall s P, at_module m G s P ->
  emit_all g ig_index og_index m l s = inr NoBatch \/
  exists s' P', emit_all g ig_index og_index m l s = inl s' /\ at_module m G s' P' /\ moved s P s' P' (l ≫= sent1 m) (l ≫= lost1 m).
Proof.
  intros Hm HG. induction l as [|[p k] l IH]; intros Hsub s P A; cbn [emit_all].
  { right. exists s, P. split; [done|]. split; [done|]. split; [apply adv_refl|]. split; [by apply spent_refl|done]. }
  assert (H1 : match k with Some k => EmitPacket g ig_index og_index m p k s | None => DropPacket m p s end = inr NoBatch \/
    exists s' P', match k with Some k => EmitPacket g ig_index og_index m p k s | None => DropPacket m p s end = inl s' /\ at_module m G s' P' /\
      moved s P s' P' (sent1 m (p, k)) (lost1 m (p, k))).
  { destruct k as [k|]; [apply (emit_ok m G s P p k A Hm HG); apply Hsub; cbn; by constructor|]. right.
    destruct (drop_moved m m G p s P A) as (s' & E & A' & M). by exists s', P. }
  destruct H1 as [->|(s1 & P1 & -> & A1 & M1)]; [by left|]. cbn [rbind].
  destruct (IH ltac:(intros x Hx; apply Hsub; destruct k; [by constructor|done]) s1 P1 A1) as [->|(s2 & P2 & -> & A2 & M2)]; [by left|]. right. exists s2, P2.
  split; [done|]. split; [done|]. eapply moved_perm; [| |eapply moved_trans; [exact M1|exact M2]]; apply Permutation_app_comm.
Qed.

(** ** The end of a module's work *)

Lemma flush_gates_ok m W : forall P t, inv t P [] [] -> Forall2 (oslot g m) W ((fun x : pending => x.1.1) <$> P) ->
  exists t', flush_hooked g ig_index og_index m W t = inl t' /\ inv t' [] [] [] /\ adv t (live t P []) t' (live t' [] []) [] /\ dead_batch_ t' = dead_batch_ t.
Proof.
  induction W as [|k W IH]; intros P t I HF; cbn [flush_hooked].
  - apply Forall2_nil_inv_l, fmap_nil_inv in HF as ->. exists t. split; [done|]. split; [done|]. split; [apply adv_refl|done].
  - apply Forall2_cons_inv_l in HF as (og & L & Hs & HF & E). destruct P as [|[[og' ig] b] P]; [done|]. injection E as <- <-. cbn in Hs.
    destruct (i_pend _ _ _ _ I og' ig b ltac:(constructor)) as [(o & Ho & Hi) Hb]. destruct (k_up g K og' o Ho) as (ig' & r & Hi' & Hr & _). assert (ig' = ig) as -> by congruence.
    rewrite (oslot_ogate _ _ _ Hs). cbn [some rbind]. rewrite Ho. cbn [some rbind]. rewrite Hi. cbn [some rbind]. unfold get_gate_batch. rewrite Hb. cbn [some rbind].
    destruct (unpend_ok _ _ _ _ _ _ I) as [I1 HL1]. assert (Hno : og' ∉ (fun x : pending => x.1.1) <$> P) by (apply i_ogs, NoDup_cons in I as [? _]; done).
    destruct (add_to_run_adv _ _ _ _ _ _ I1) as (t1 & -> & I2 & A1 & D1); [intros E%list_elem_of_singleton; by apply (x_apart X ig og' r o)|]. cbn [rbind].
    destruct (unset_ok _ _ _ og' o I2 Ho Hno) as (t2 & -> & I3 & HL & Eb & [Ei Ed]). cbn [rbind].
    destruct (IH P t2 I3 HF) as (t3 & -> & I4 & A3 & D3). exists t3. split; [done|]. split; [done|]. split; [|congruence].
    change (@nil (addr * addr)) with ([] ++ ([] ++ ([] ++ @nil (addr * addr)))). eapply adv_trans; [eapply adv_trans; [eapply adv_trans; [|exact A1]|]|exact A3].
    + apply adv_same; [by symmetry in HL1|done|by split].
    + apply adv_same; [by rewrite HL|done|by split].
Qed.

(** Between modules. *)
Record ready (s : state S) : Prop := {
  r_inv : inv (task s) [] [] [];
  r_with : gate_with_hook (ctx s) = [];
  r_without : gate_without_hook (ctx s) = [];
  r_dead : (length (dead_batch_ (task s)) < kMaxBurst)%nat
}.

Lemma ready_module m G s : ready s -> at_module m G s [].
Proof. intros [R1 R2 R3 R4]. split; rewrite ?R2; [done|by constructor|done|apply NoDup_nil_2|by intros x ?%elem_of_nil|done]. Qed.

Lemma process_ogates_ok m G s P : at_module m G s P ->
  exists s', ProcessOGates g ig_index og_index m s = inl s' /\ ready s' /\ moved s P s' [] [] [].
Proof.
  intros [A1 A2 A3 A4 A5 A6]. unfold ProcessOGates. rewrite A3. destruct (flush_gates_ok m _ P _ A1 A2) as (t & -> & I & A & D). cbn [rbind clear_unhooked].
  eexists. split; [done|]. split; [split; cbn; [done|done|done|by rewrite D]|]. split; [done|]. split; [by apply spent_refl|done].
Qed.

(** ** The work of a module *)

(** Output gates of [m] lead below layer [n]. *)
Definition below (rank : addr -> nat) (m : addr) (n : nat) : Prop :=
  forall og o ig, ogs g !! og = Some o -> og_module o = m -> igate_ o = Some ig -> (rank ig < n)%nat.

Record went (m : addr) (s s' : state S) (P P' : list pending) (new lost : list (addr * addr)) : Prop := {
  w_flight : inflight (task s') P' [] ≡ₚ new ++ inflight (task s) P [];
  w_spent : spent s s' lost;
  w_calls : calls (env s') = calls (env s);
  w_weight : forall rank M n, layered rank M -> below rank m n ->
    (weight rank M (task s') (live (task s') P' []) <= weight rank M (task s) (live (task s) P []) + n)%nat
}.

Lemma moved_went m s s' P P' new lost : moved s P s' P' new lost -> went m s s' P P' new lost.
Proof. intros ([F I W] & Hs & Hc). split; try done. intros rank M n HL _. specialize (W rank M HL). lia. Qed.

Lemma moved_went_trans m s1 s2 s3 P1 P2 P3 n1 n2 l1 l2 : moved s1 P1 s2 P2 n1 l1 -> went m s2 s3 P2 P3 n2 l2 -> went m s1 s3 P1 P3 (n1 ++ n2) (l1 ++ l2).
Proof.
  intros ([F1 I1 W1] & S1 & C1) [F2 S2 C2 W2]. assert (SS := spent_trans _ _ _ _ _ S1 S2). split.
  - rewrite F2. unfold inflight at 1. rewrite F1, !app_assoc. by rewrite (Permutation_app_comm n1).
  - destruct SS as [(fl & E & E2 & E3) HC]. split; [exists fl; split; [done|]; split; [rewrite E2; by rewrite (Permutation_app_comm l1)|done]|].
    intros a. rewrite HC. unfold ends_at. by rewrite (Permutation_app_comm l1).
  - congruence.
  - intros rank M n HL HB. specialize (W1 rank M HL). specialize (W2 rank M n HL HB). lia.
Qed.

(** An idle batch, filled, in hand. *)
Lemma take_up_ok t P ig b l : inv t P [] [] -> idle t (live t P []) b -> is_Some (igs g !! ig) -> (length l <= kMaxBurst)%nat ->
  inv (set_batches (<[b := l]> (batches t)) t) P [(ig, b)] [].
Proof.
  intros [I1 I2 I3 I4 I5 I6 I7 I8] [Hb Hn] Hig Hl. set (t' := set_batches _ t). assert (PL : live t' P [(ig, b)] ≡ₚ (ig, b) :: live t P []) by (by rewrite live_hand).
  split; try done.
  - intros ig' b' Hin. rewrite PL in Hin. apply elem_of_cons in Hin as [[= -> ->]|Hin].
    + split; [done|]. split; [done|]. exists l. cbn. by rewrite lookup_insert_eq.
    + destruct (I3 _ _ Hin) as (Hg & Hi & k & Hk & Hle). split; [done|]. split; [done|]. exists k. cbn. rewrite lookup_insert_ne; [done|].
      intros ->. apply Hn, list_elem_of_fmap. by exists (ig', b').
  - rewrite PL. cbn. by apply NoDup_cons.
Qed.

Lemma flight_cons h ig b l L : h !! b = Some l -> flight h ((ig, b) :: L) = (pair ig <$> l) ++ flight h L.
Proof. intros Hl. unfold flight. cbn [mbind list_bind fst snd]. by rewrite Hl. Qed.

Lemma bind_sent m k l : (l ≫= fun p => sent1 m (p, Some k)) = match target m k with Some ig => pair ig <$> l | None => [] end.
Proof. unfold sent1. cbn. destruct (target m k); induction l as [|p l IH]; cbn in *; congruence. Qed.

Lemma bind_lost m k l : (l ≫= fun p => lost1 m (p, Some k)) = match target m k with Some _ => [] | None => pair m <$> l end.
Proof. unfold lost1. cbn. destruct (target m k); induction l as [|p l IH]; cbn in *; congruence. Qed.

Lemma set_batches_idle t P b l : idle t (live t P []) b -> inflight (set_batches (<[b := l]> (batches t)) t) P [] = inflight t P [].
Proof. intros [_ Hn]. unfold inflight. change (live (set_batches _ t) P []) with (live t P []). cbn. by rewrite flight_insert. Qed.

Lemma inv_batches t P b l : inv t P [] [] -> idle t (live t P []) b -> inv (set_batches (<[b := l]> (batches t)) t) P [] [].
Proof.
  intros [I1 I2 I3 I4 I5 I6 I7 I8] [Hb Hn]. split; try done. intros ig' b' Hin. change (live (set_batches _ t) P []) with (live t P []) in Hin.
  destruct (I3 _ _ Hin) as (Hg & Hi & k & Hk & Hle). split; [done|]. split; [done|]. exists k. cbn. rewrite lookup_insert_ne; [done|].
  intros ->. apply Hn, list_elem_of_fmap. by exists (ig', b').
Qed.

(** Passing a batch of packets [l] on, as a whole. *)
Lemma choose_ok m G s P k b l : at_module m G s P -> is_Some (mods g !! m) -> idle (task s) (live (task s) P []) b -> (length l <= kMaxBurst)%nat ->
  exists s', RunChooseModule g ig_index m k b (set_task (set_batches (<[b := l]> (batches (task s))) (task s)) s) = inl s' /\ at_module m G s' P /\
    went m s s' P P (l ≫= fun p => sent1 m (p, Some k)) (l ≫= fun p => lost1 m (p, Some k)).
Proof.
  intros A Hm Hb Hl. rewrite bind_sent, bind_lost. unfold RunChooseModule. set (t1 := set_batches _ (task s)).
  assert (Hl1 : batches t1 !! b = Some l) by (cbn; by rewrite lookup_insert_eq). cbn [task set_task]. rewrite (batch_ok _ _ _ Hl1). cbn [rbind].
  destruct A as [A1 A2 A3 A4 A5 A6]. pose proof (inv_batches (task s) P b l A1 Hb) as I1. fold t1 in I1.
  pose proof (set_batches_idle (task s) P b l Hb) as F1. fold t1 in F1. case_decide as El.
  { subst l. exists (set_task t1 s). split; [done|]. split; [by split|]. assert (W0 : went m s (set_task t1 s) P P [] []).
    { split; [cbn [task set_task]; by rewrite F1|by apply spent_refl|done|]. intros rank M n _ _. apply Nat.le_add_r. }
    by destruct (target m k). }
  destruct (target_cases m k Hm) as [[-> ->]|(og & o & ig & Hs & Ho & Hom & Hi & Hig & ->)]; cbn [rbind].
  - unfold deadend. cbn [task count_deadend set_env set_task]. rewrite (batch_ok _ _ _ Hl1). cbn [rbind]. set (t2 := set_batches _ t1).
    assert (Hb1 : idle t1 (live t1 P []) b) by done. pose proof (inv_batches t1 P b [] I1 Hb1) as I2. fold t2 in I2.
    eexists. split; [done|]. split; [by split|]. split; cbn [task env free set_env count_deadend set_task calls].
    + cbn [app]. rewrite <- F1. unfold t2. by rewrite set_batches_idle.
    + apply ended_ok; [|done]. exists l. cbn. split; [done|]. split; [done|]. by rewrite wrap_wrap by lia.
    + done.
    + intros rank M n _ _. apply Nat.le_add_r.
  - rewrite (oslot_ogate _ _ _ Hs). cbn [rbind]. rewrite Ho. cbn [some rbind]. rewrite Hi. cbn [some rbind]. unfold on_task. cbn [task set_task].
    pose proof (take_up_ok (task s) P ig b l A1 Hb Hig Hl) as I2. fold t1 in I2.
    destruct (add_to_run_adv _ _ _ _ _ _ I2) as (t3 & -> & I3 & [F3 _ W3] & D3); [by intros ?%elem_of_nil|]. cbn [rbind]. eexists. split; [done|].
    assert (EL : live t1 P [(ig, b)] ≡ₚ (ig, b) :: live (task s) P []) by (by rewrite live_hand). split; [by split; cbn; rewrite ?D3|]. split; cbn [task env set_task].
    + unfold inflight in *. change (live t1 P []) with (live (task s) P []) in F1. rewrite F3. cbn [app].
      rewrite (flight_perm _ _ _ EL), (flight_cons _ _ _ _ _ Hl1). by rewrite F1.
    + by apply spent_refl.
    + done.
    + intros rank M n HL HB. specialize (W3 rank M HL). specialize (HB og o ig Ho Hom Hi). unfold weight in *. rewrite (height_perm rank _ _ EL) in W3. cbn in *.
      fold (height rank (live (task s) P [])) in *. lia.
Qed.

(** What a module answers fits the arrays: at most 32 different gates for single packets, and 32 packets. *)
Definition fits (out : output) : Prop :=
  (length (remove_dups (omap snd (emits out))) <= kMaxBurst)%nat /\ match pass out with Some (_, l) => (length l <= kMaxBurst)%nat | None => True end.

Lemma few_gates l : (length l <= kMaxBurst)%nat -> fits (Out l None).
Proof.
  intros Hl. split; [|done]. cbn [emits]. etransitivity; [|exact Hl]. transitivity (length (omap snd l)).
  - apply submseteq_length, NoDup_submseteq; [apply NoDup_remove_dups|]. intros x. by rewrite elem_of_remove_dups.
  - clear. induction l as [|[p [k|]] l IH]; cbn in *; lia.
Qed.

Lemma no_target m out : (forall k, target m k = None) -> (out ≫= sent1 m) = [] /\ (out ≫= lost1 m) = pair m <$> out.*1.
Proof.
  intros ET. unfold sent1, lost1. induction out as [|[p k] out [IH1 IH2]]; [done|]. cbn in *. rewrite IH1, IH2. destruct k as [k|]; cbn; by rewrite ?ET.
Qed.

(** [RunSplit] does what its packets, emitted one by one, do. *)
Lemma split_ok m s b l ks : ready s -> is_Some (mods g !! m) -> idle (task s) (live (task s) [] []) b -> batches (task s) !! b = Some l ->
  (length l <= kMaxBurst)%nat -> (length l <= length ks)%nat ->
  let out := zip_with (fun p k => (p, Some k)) l ks in
  RunSplit g ig_index og_index m ks b s = inr NoBatch \/
  exists s' G P', RunSplit g ig_index og_index m ks b s = inl s' /\ at_module m G s' P' /\ went m s s' [] P' (out ≫= sent1 m) (out ≫= lost1 m).
Proof.
  intros Hr [c Hc] Hb Hl Hlen Hks out. unfold RunSplit. rewrite (batch_ok _ _ _ Hl). cbn [rbind]. case_decide as El.
  { subst l. right. exists s, [], []. split; [done|]. split; [by apply ready_module|]. apply moved_went. split; [apply adv_refl|]. split; [by apply spent_refl|done]. }
  rewrite Hc. cbn [some rbind]. case_decide as Eg.
  - right. assert (ET : forall k, target m k = None) by (intros k; unfold target; by rewrite Hc; cbn; rewrite Eg).
    destruct (no_target m out ET) as [E1 E2]. unfold out in E2 at 2. rewrite fmap_zip_with_l in E2 by done.
    rewrite E1, E2. unfold deadend. cbn [task count_deadend set_env set_task]. rewrite (batch_ok _ _ _ Hl). cbn [rbind]. eexists _, [], []. split; [done|].
    destruct Hr as [R1 R2 R3 R4]. split; [apply ready_module; split; try done; by apply inv_batches|]. split; cbn [task env free set_env count_deadend set_task calls].
    + cbn [app]. by rewrite set_batches_idle.
    + apply ended_ok; [|done]. exists l. cbn. split; [done|]. split; [done|]. by rewrite wrap_wrap by lia.
    + done.
    + intros rank M n _ _. apply Nat.le_add_r.
  - unfold check. rewrite decide_True by done. cbn [rbind]. fold out. assert (Ho : (length out <= kMaxBurst)%nat) by (unfold out; rewrite length_zip_with; lia).
    destruct (few_gates out Ho) as [HG _]. cbn [emits] in HG. set (G := remove_dups (omap snd out)) in *.
    destruct (emit_all_ok m G out ltac:(eauto) HG ltac:(intros x Hx; by apply elem_of_remove_dups) s [] (ready_module m G s Hr)) as [->|(s1 & P1 & -> & A1 & M1)]; [by left|].
    right. cbn [rbind]. exists (set_task (set_batches (<[b:=[]]> (batches (task s1))) (task s1)) s1), G, P1. split; [done|].
    assert (Hb1 : idle (task s1) (live (task s1) P1 []) b) by (destruct M1 as [[_ Hid _] _]; by apply Hid).
    split; [destruct A1; split; try done; by apply inv_batches|]. pose proof (moved_went m _ _ _ _ _ _ M1) as [F1 S1 C1 W1]. split; [cbn [task set_task]; by rewrite set_batches_idle|destruct S1; by split|done|exact W1].
Qed.

Lemma perform_ok m s b out : ready s -> is_Some (mods g !! m) -> idle (task s) (live (task s) [] []) b -> fits out ->
  perform g ig_index og_index m b out s = inr NoBatch \/
  exists s' P', perform g ig_index og_index m b out s = inl s' /\ at_module m (remove_dups (omap snd (emits out))) s' P' /\ went m s s' [] P' (sent_by m out) (lost_by m out).
Proof.
  intros Hr Hm Hb [HG Hp]. unfold perform. set (G := remove_dups (omap snd (emits out))) in *.
  destruct (emit_all_ok m G (emits out) Hm HG ltac:(intros x Hx; by apply elem_of_remove_dups) s [] (ready_module m G s Hr)) as [->|(s1 & P1 & -> & A1 & M1)]; [by left|].
  cbn [rbind]. right. unfold sent_by, lost_by. destruct (pass out) as [[k l]|].
  - unfold check. rewrite decide_True by done. cbn [rbind]. assert (Hb1 : idle (task s1) (live (task s1) P1 []) b) by (destruct M1 as [[_ Hid _] _]; by apply Hid).
    destruct (choose_ok m G s1 P1 k b l A1 Hm Hb1 Hp) as (s2 & E & A2 & W2). exists s2, P1. split; [done|]. split; [done|]. by eapply moved_went_trans.
  - exists s1, P1. rewrite !app_nil_r. split; [done|]. split; [done|]. by apply moved_went.
Qed.

(** ** Runs *)

Context (HF : forall ms m i l, (length l <= kMaxBurst)%nat -> fits (process ms m i l).2).

(** A batch [l] that reached input gate [ig], whose module did [out] with it. *)
Definition call_got (c : addr * list addr * output) : list (addr * addr) := pair c.1.1 <$> c.1.2.
Definition call_sent (c : addr * list addr * output) : list (addr * addr) := match igs g !! c.1.1 with Some r => sent_by (ig_module r) c.2 | None => [] end.
Definition call_lost (c : addr * list addr * output) : list (addr * addr) := match igs g !! c.1.1 with Some r => lost_by (ig_module r) c.2 | None => [] end.

(** From [s] to [s'] the batches [new] are delivered. *)
Record ledger (s s' : state S) (new : list (addr * list addr * output)) : Prop := {
  l_calls : calls (env s') = calls (env s) ++ new;
  l_flight : inflight (task s) [] [] ++ (new ≫= call_sent) ≡ₚ (new ≫= call_got) ++ inflight (task s') [] [];
  l_spent : spent s s' (new ≫= call_lost)
}.

Lemma ledger_trans s1 s2 s3 n1 n2 : ledger s1 s2 n1 -> ledger s2 s3 n2 -> ledger s1 s3 (n1 ++ n2).
Proof.
  intros [C1 F1 S1] [C2 F2 S2]. split; [by rewrite C2, C1, app_assoc| |].
  - rewrite !bind_app, app_assoc, F1, <- app_assoc, F2. by rewrite app_assoc.
  - pose proof (spent_trans _ _ _ _ _ S1 S2) as [(fl & E1 & E2 & E3) HC]. rewrite bind_app. split.
    + exists fl. split; [done|]. split; [rewrite E2; by rewrite (Permutation_app_comm (n1 ≫= call_lost))|done].
    + intros m. rewrite HC. unfold ends_at. by rewrite (Permutation_app_comm (n1 ≫= call_lost)).
Qed.

(** Batch [b] is taken from those that wait. *)
Record taken (s s0 : state S) (ig : addr) (b : nat) : Prop := {
  t_ready : ready s0;
  t_live : live (task s) [] [] ≡ₚ (ig, b) :: live (task s0) [] [];
  t_batches : batches (task s0) = batches (task s);
  t_idx : pbatch_idx_ (task s0) = pbatch_idx_ (task s);
  t_dead : dead_batch_ (task s0) = dead_batch_ (task s);
  t_ctx : ctx s0 = ctx s;
  t_env : env s0 = env s
}.

Lemma run_gate_ok s s0 ig b : ready s -> taken s s0 ig b ->
  run_gate process g ig_index og_index ig b s0 = inr NoBatch \/
  exists s' c, run_gate process g ig_index og_index ig b s0 = inl s' /\ ready s' /\ ledger s s' [c] /\
    forall rank M, layered rank M -> (weight rank M (task s') (live (task s') [] []) < weight rank M (task s) (live (task s) [] []))%nat.
Proof.
  intros Hr [T1 T2 T3 T4 T5 T6 T7]. destruct (i_live _ _ _ _ (r_inv _ Hr) ig b) as ([r Hig] & Hb & l & Hl & Hlen); [rewrite T2; by constructor|].
  pose proof (i_nodup _ _ _ _ (r_inv _ Hr)) as Hnd. rewrite T2 in Hnd. cbn in Hnd. apply NoDup_cons in Hnd as [Hn _].
  assert (Hid : idle (task s0) (live (task s0) [] []) b) by (split; [by rewrite T4|done]).
  assert (Hm : is_Some (mods g !! ig_module r)) by (destruct (k_ig g K ig r Hig) as (c & -> & _); done).
  unfold run_gate. rewrite Hig. cbn [some rbind]. rewrite <- T3 in Hl. rewrite (batch_ok _ _ _ Hl). cbn [rbind].
  pose proof (HF (mstate (env s0)) (ig_module r) (ig_idx r) l Hlen) as Hfit. destruct (process _ _ _ _) as [ms out]. cbn [snd] in Hfit.
  set (s1 := set_env _ s0). assert (R1 : ready s1) by (destruct T1; by split).
  destruct (perform_ok (ig_module r) s1 b out R1 Hm Hid Hfit) as [->|(s2 & P2 & -> & A2 & [F2 S2 C2 W2])]; [by left|]. cbn [rbind].
  destruct (process_ogates_ok _ _ _ _ A2) as (s3 & -> & R3 & ([F3 _ W3] & S3 & C3)). right. exists s3, (ig, l, out). split; [done|]. split; [done|]. split.
  - split; cbn [mbind list_bind]; unfold call_sent, call_got, call_lost; cbn [fst snd]; rewrite ?Hig, ?app_nil_r.
    + rewrite C3, C2. cbn. by rewrite T7.
    + unfold inflight in *. rewrite F3. cbn [app]. rewrite F2. rewrite (flight_perm _ _ _ T2). rewrite (flight_cons _ ig b l) by (by rewrite <- T3). rewrite <- T3, <- !app_assoc.
      apply Permutation_app_head. change (batches (task s1)) with (batches (task s0)). change (live (task s1) [] []) with (live (task s0) [] []). apply Permutation_app_comm.
    + pose proof (spent_trans _ _ _ _ _ S2 S3) as [HA HC]. cbn [app] in *. split; [|intros m; rewrite HC; unfold deadends; cbn; by rewrite T7].
      destruct HA as (fl & E1 & E2 & E3). exists fl. cbn in E1, E2, E3. by rewrite T7, T5, T6 in *.
  - intros rank M HL. specialize (W3 rank M HL). specialize (W2 rank M (rank ig) HL).
    assert (HB : below rank (ig_module r) (rank ig)) by (intros og o i Ho Hom Hi; by apply (proj2 HL ig r og o i)). specialize (W2 HB).
    change (weight rank M (task s1) (live (task s1) [] [])) with (weight rank M (task s0) (live (task s0) [] [])) in W2. 
    assert (EW : weight rank M (task s) (live (task s) [] []) = (rank ig + 1 + weight rank M (task s0) (live (task s0) [] []))%nat).
    { unfold weight. rewrite (height_perm rank _ _ T2), T4. unfold height. cbn [sum_list_with fst]. lia. }
    lia.
Qed.

Lemma take_next s ig b : ready s -> next_gate_ (task s) = Some (ig, b) -> taken s (set_task (set_next None (task s)) s) ig b.
Proof.
  intros [[I1 I2 I3 I4 I5 I6 I7 I8] R2 R3 R4] Hn. set (t0 := set_next None (task s)).
  assert (HL : live (task s) [] [] = (ig, b) :: live t0 [] []) by (unfold live; by rewrite Hn). split; try done; [|by rewrite HL]. split; try done. split; try done.
  - intros ig' b' Hin. apply I3. rewrite HL. by constructor.
  - rewrite HL in I4. cbn in I4. by apply NoDup_cons in I4 as [_ ?].
Qed.

Lemma take_top s ig b v : ready s -> igates_to_run_ (task s) = (ig, b) :: v ->
  exists q t, pop GBG (igates_to_run_ (task s)) = Some q /\ set_gate_batch (ig_index ig) None (set_queue q (task s)) = inl t /\ taken s (set_task t s) ig b.
Proof.
  intros [[I1 I2 I3 I4 I5 I6 I7 I8] R2 R3 R4] Hq. rewrite Hq in I2 |- *. destruct (pop_ok GBG (ig, b) v I2) as (q & -> & Hh & Pq).
  assert (HL : live (task s) [] [] ≡ₚ (ig, b) :: live (set_queue q (task s)) [] []).
  { unfold live. rewrite Hq. cbn [igates_to_run_ next_gate_ set_queue]. rewrite Pq. cbn [app]. by rewrite <- Permutation_middle. }
  destruct (I3 ig b) as ([r Hr] & _ & _); [rewrite HL; by constructor|]. pose proof (x_ig X ig r Hr) as Hlt.
  eexists _, _. split; [done|]. split; [by apply set_gate_ok|]. split; try done. split; try done. split; cbn [task set_task set_gates set_queue gate_batch_ igates_to_run_ batches pbatch_idx_]; try done.
  - by rewrite length_insert.
  - intros ig' b' Hin. apply I3. rewrite HL. by constructor.
  - rewrite HL in I4. cbn in I4. by apply NoDup_cons in I4 as [_ ?].
  - by intros og ? ? ?%elem_of_nil.
  - intros i b' Hb. destruct (decide (i = ig_index ig)) as [->|Hne]; [by rewrite list_lookup_insert_eq in Hb by lia|].
    rewrite list_lookup_insert_ne in Hb by done. destruct (I8 i b' Hb) as [(j & Hj & -> & Hin)|[(? & ? & Hin%elem_of_nil & _)|Hz%elem_of_nil]]; [|done|done].
    left. exists j. split; [done|]. split; [done|]. rewrite Pq. rewrite Hq in Hin. apply elem_of_cons in Hin as [[= -> ->]|]; done.
Qed.

Lemma run_gates_ok fuel : forall s, ready s ->
  match run_gates process g ig_index og_index fuel s with
  | inl s' => ready s' /\ live (task s') [] [] = [] /\ exists new, ledger s s' new
  | inr NoBatch => True
  | inr NoFuel => forall rank M, layered rank M -> (fuel < weight rank M (task s) (live (task s) [] []))%nat
  | inr _ => False
  end.
Proof.
  induction fuel as [|fuel IH]; intros s Hr.
  - cbn [run_gates]. destruct (next_gate_ (task s)) as [[ig b]|] eqn:En; [intros rank M _; apply (weight_pos rank M _ (ig, b)); unfold live; rewrite En; by constructor|].
    destruct (igates_to_run_ (task s)) as [|[ig b] v] eqn:Eq; cbn [top head].
    + split; [done|]. split; [unfold live; by rewrite En, Eq|]. exists []. split; [by rewrite app_nil_r|by rewrite app_nil_r|by apply spent_refl].
    + intros rank M _. apply (weight_pos rank M _ (ig, b)). unfold live. rewrite En, Eq. by constructor.
  - assert (Hstep : forall ig b s0, taken s s0 ig b -> match (s ←! run_gate process g ig_index og_index ig b s0; run_gates process g ig_index og_index fuel s) with
      | inl s' => ready s' /\ live (task s') [] [] = [] /\ exists new, ledger s s' new
      | inr NoBatch => True
      | inr NoFuel => forall rank M, layered rank M -> (Datatypes.S fuel < weight rank M (task s) (live (task s) [] []))%nat
      | inr _ => False
      end).
    { intros ig b s0 Ht. destruct (run_gate_ok s s0 ig b Hr Ht) as [->|(s1 & c & -> & R1 & L1 & W1)]; [done|]. cbn [rbind]. specialize (IH s1 R1).
      destruct (run_gates process g ig_index og_index fuel s1) as [s2|[]]; try done.
      - destruct IH as (R2 & E2 & new & L2). split; [done|]. split; [done|]. exists ([c] ++ new). by eapply ledger_trans.
      - intros rank M HL. specialize (IH rank M HL). specialize (W1 rank M HL). lia. }
    cbn [run_gates]. destruct (next_gate_ (task s)) as [[ig b]|] eqn:En; [by apply Hstep, take_next|].
    destruct (igates_to_run_ (task s)) as [|[ig b] v] eqn:Eq; cbn [top head].
    + split; [done|]. split; [unfold live; by rewrite En, Eq|]. exists []. split; [by rewrite app_nil_r|by rewrite app_nil_r|by apply spent_refl].
    + destruct (take_top s ig b v Hr Eq) as (q & t & Ep & Es & Ht). rewrite Eq in Ep. rewrite Ep. cbn [some rbind]. rewrite Es. cbn [rbind]. by apply Hstep.
Qed.

(** Between runs. *)
Record at_rest (s : state S) : Prop := {
  q_len : length (gate_batch_ (task s)) = N;
  q_none : forall i b, gate_batch_ (task s) !! i = Some b -> b = None;
  q_next : next_gate_ (task s) = None;
  q_queue : igates_to_run_ (task s) = [];
  q_dead : dead_batch_ (task s) = [];
  q_with : gate_with_hook (ctx s) = [];
  q_without : gate_without_hook (ctx s) = []
}.

Lemma rest_ready s h : at_rest s ->
  let s0 := set_task (Task h 0 (gate_batch_ (task s)) (next_gate_ (task s)) (igates_to_run_ (task s)) (dead_batch_ (task s))) s in
  ready s0 /\ live (task s0) [] [] = [].
Proof.
  intros [Q1 Q2 Q3 Q4 Q5 Q6 Q7] s0. assert (E0 : live (task s0) [] [] = []) by (unfold live; cbn; by rewrite Q3, Q4). split; [|done].
  split; [|done|done|cbn; rewrite Q5; unfold kMaxBurst; cbn; lia]. split; rewrite ?E0; cbn; rewrite ?Q4; try done.
  - by intros ? ? ?%elem_of_nil.
  - apply NoDup_nil_2.
  - unfold MAX_PBATCH_CNT. lia.
  - by intros ? ? ? ?%elem_of_nil.
  - apply NoDup_nil_2.
  - intros i b Hb. by apply Q2 in Hb.
Qed.

Lemma ready_rest s : ready s -> live (task s) [] [] = [] -> dead_batch_ (task s) = [] -> at_rest s.
Proof.
  intros [R1 R2 R3 _] E D. unfold live in E. cbn in E. apply app_nil in E as [E1 E2]. apply app_nil in E2 as [E2 _].
  split; try done; [apply R1| |by destruct (next_gate_ (task s))]. intros i [b|] Hb; [|done].
  destruct (i_occ _ _ _ _ R1 _ _ Hb) as [(ig & _ & _ & Hin)|[(? & ? & Hin & _)|Hz]]; [rewrite E2 in Hin|..]; by apply elem_of_nil in Hin || apply elem_of_nil in Hz.
Qed.

Lemma module_ready m s P : at_module m [] s P -> ready s /\ P = [].
Proof.
  intros [A1 A2 A3 A4 A5 A6]. assert (EW : gate_with_hook (ctx s) = []).
  { destruct (gate_with_hook (ctx s)) as [|k W]; [done|]. by specialize (A5 k ltac:(constructor)) as ?%elem_of_nil. }
  rewrite EW in A2. apply Forall2_nil_inv_l, fmap_nil_inv in A2 as ->. by split.
Qed.

Lemma deadend_dead_ok s : spent s (deadend_dead s) [] /\ dead_batch_ (task (deadend_dead s)) = [].
Proof.
  split; [|done]. split; [|intros m; cbn; by rewrite Z.add_0_r]. exists (dead_batch_ (task s)). cbn. split; [done|]. split; [by rewrite app_nil_r|]. by rewrite wrap_wrap by lia.
Qed.

Lemma deadend_dead_ready s : ready s -> ready (deadend_dead s).
Proof. intros [R1 R2 R3 R4]. split; try done; [by apply (inv_dead [])|cbn; unfold kMaxBurst; lia]. Qed.

(** C20. Run of a task ([Task::operator()]), in a graph whose output gates all have
    hooks and for modules whose answers fit the arrays: no packet is lost or
    doubled.  The packets that the modules get are, input gate by input gate,
    those that the task and the modules sent there; those sent to unconnected
    gates or dropped are freed at the end and counted, at their module and in
    [silent_drops]; the task is at rest again.  The only fault is that the pool of
    256 batches is used up, and when the graph has layers (it has no cycle) the
    run ends after at most [257 * (M + 2)] batches. *)
Theorem run_conserves fuel m (run_task : S -> S * R * option (nat * list addr)) s : at_rest s -> is_Some (mods g !! m) -> fits (Out [] (run_task (mstate (env s))).2) ->
  match run process g ig_index og_index fuel m run_task s with
  | inl (s', r) => at_rest s' /\ r = (run_task (mstate (env s))).1.2 /\
      exists new fl, let first := Out [] (run_task (mstate (env s))).2 in let lost := lost_by m first ++ (new ≫= call_lost) in
        calls (env s') = calls (env s) ++ new /\ (new ≫= call_got) ≡ₚ sent_by m first ++ (new ≫= call_sent) /\
        freed (env s') = freed (env s) ++ fl /\ fl ≡ₚ lost.*2 /\ u64 (silent_drops (ctx s')) = u64 (silent_drops (ctx s) + Z.of_nat (length fl)) /\
        forall a, u64 (deadends s' a) = u64 (deadends s a + ends_at a lost)
  | inr NoBatch => True
  | inr NoFuel => forall rank M, layered rank M -> (fuel < 257 * (M + 2))%nat
  | inr _ => False
  end.
Proof.
  intros Q Hm Hfit. unfold run. destruct (run_task _) as [[ms r] first]. cbn [fst snd] in *. set (s0 := St _ _ _).
  assert (R0 : ready s0 /\ live (task s0) [] [] = []) by (destruct (rest_ready s (<[init_batch:=[]]> (batches (task s))) Q) as [[? ? ? ?] ?]; by split).
  destruct R0 as [R0 E0].
  destruct (perform_ok m s0 init_batch (Out [] first) R0 Hm) as [->|(s1 & P1 & -> & A1 & [F1 S1 C1 W1])]; [split; [by left|rewrite E0; apply not_elem_of_nil]|done|done|].
  cbn [rbind]. apply module_ready in A1 as [R1 ->]. pose proof (run_gates_ok fuel s1 R1) as HR.
  destruct (run_gates process g ig_index og_index fuel s1) as [s2|[]]; cbn [rbind]; try done.
  - destruct HR as (R2 & E2 & new & [C2 F2 S2]). destruct (deadend_dead_ok s2) as [S3 D3]. pose proof (spent_trans _ _ _ _ _ (spent_trans _ _ _ _ _ S1 S2) S3) as [(fl & HA & HP & HU) HC].
    split; [by apply ready_rest; [apply deadend_dead_ready| |]|]. split; [done|]. exists new, fl. cbn [app] in HA, HP, HU, HC.
    split; [change (calls (env (deadend_dead s2))) with (calls (env s2)); by rewrite C2, C1|]. split.
    { unfold inflight in *. rewrite E2 in F2. rewrite E0 in F1. cbn in F1, F2. rewrite !app_nil_r in *. by rewrite <- F2, F1. }
    split; [done|]. split; [rewrite D3, app_nil_r in HP; rewrite HP; cbn; rewrite (q_dead _ Q), app_nil_r; by rewrite (Permutation_app_comm (new ≫= call_lost))|]. split; [done|].
    intros b. rewrite HC. unfold ends_at. by rewrite (Permutation_app_comm (new ≫= call_lost)).
  - intros rank M HL. specialize (HR rank M HL). assert (HB : below rank m (M + 1)).
    { intros og o ig Ho _ Hi. destruct (k_up g K og o Ho) as (ig' & r' & Hi' & Hr' & _). assert (ig' = ig) as -> by congruence. pose proof (proj1 HL ig ltac:(eauto)). lia. }
    specialize (W1 rank M (M + 1)%nat HL HB). rewrite E0 in W1.
    change (weight rank M (task s0) []) with (256 * (M + 2) + 0)%nat in W1. lia.
Qed.

End Conserve.

(** ** On concrete modules *)

(** The default hook, on every output gate. *)
Definition track : GateHook := Hook "Track" "track0" 0.
Definition hook_all (g : graph) : graph :=
  with_ogs ((fun o => OG (og_module o) (og_idx o) (next_ o) (igate_ o) (igate_idx_ o) [track]) <$> ogs g) g.

Lemma hook_all_ok g : gates_ok g -> gates_ok (hook_all g) /\ all_hooked (hook_all g).
Proof.
  intros [K1 K2 K3 K4 K5 K6 K7].
  assert (HO : forall og o, ogs (hook_all g) !! og = Some o -> og_hooks o <> [] /\ exists o0, ogs g !! og = Some o0 /\ og_module o = og_module o0 /\ og_idx o = og_idx o0 /\
    igate_ o = igate_ o0 /\ next_ o = next_ o0 /\ igate_idx_ o = igate_idx_ o0).
  { intros og o. cbn. rewrite lookup_fmap, fmap_Some. intros (o0 & H0 & ->). split; [done|]. by exists o0. }
  assert (HI : forall og o0, ogs g !! og = Some o0 -> exists o, ogs (hook_all g) !! og = Some o /\ og_module o = og_module o0 /\ og_idx o = og_idx o0 /\ igate_ o = igate_ o0).
  { intros og o0 H0. cbn. rewrite lookup_fmap, H0. cbn. by eexists. }
  split; [split|]; try done.
  - intros m k og Hs. destruct (K1 m k og Hs) as (o0 & H0 & E1 & E2). destruct (HI og o0 H0) as (o & Ho & E3 & E4 & _). exists o. split; [done|]. split; congruence.
  - intros og o Ho. destruct (HO og o Ho) as (_ & o0 & H0 & -> & -> & _). by apply K2.
  - intros og o Ho. destruct (HO og o Ho) as (_ & o0 & H0 & _ & _ & -> & -> & ->). by apply K3.
  - intros i r og Hr Hin. destruct (K4 i r og Hr Hin) as (o0 & H0 & Hi). destruct (HI og o0 H0) as (o & Ho & _ & _ & E). exists o. split; [done|congruence].
  - intros og o Ho. by destruct (HO og o Ho).
Qed.

(** Three modules: 1 feeds 2, whose gates [ks] lead to 3; the output gates are 10, 11, 12, the input gates 20 and 21. *)
Definition three : graph := Graph {[ 1%positive := new_module "source"; 2%positive := new_module "work"; 3%positive := new_module "sink" ]} ∅ ∅.
Definition connected (l : list (addr * addr * addr * nat * addr)) : graph :=
  default three (foldl (fun g '(og, ig, m, k, n) => g ← g; '(g, _) ← ConnectModules og ig m k n 0 g; Some g) (Some three) l).
Definition line : graph := connected [(10, 20, 1, 0%nat, 2); (11, 21, 2, 1%nat, 3)]%positive.
Definition twice : graph := connected [(10, 20, 1, 0%nat, 2); (11, 21, 2, 0%nat, 3); (12, 22, 2, 1%nat, 3)]%positive.

(** Packets are freed by 3; 2 sends them in turn to gate 1, to gate 0, which is not connected in [line], or drops them. *)
Definition in_turn (n : nat) (m : addr) (i : nat) (l : list addr) : nat * output :=
  if decide (m = 2%positive) then (n + 1, Out (zip_with (fun j p => (p, match j mod 3 with 0 => Some 1 | 1 => Some 0 | _ => None end)) (seq 0 (length l)) l) None)%nat
  else (n, Out ((fun p => (p, None)) <$> l) None).
(** 2 sends copies to both gates. *)
Definition copies (n : nat) (m : addr) (i : nat) (l : list addr) : nat * output :=
  if decide (m = 2%positive) then (n + 1, Out (l ≫= fun p => [(p, Some 0); ((p + 100)%positive, Some 1)]) None)%nat
  else (n, Out ((fun p => (p, None)) <$> l) None).

Definition ig_place (i : addr) : nat := Pos.to_nat i - 20.
Definition og_place (o : addr) : nat := Pos.to_nat o - 7.
Definition resting (W : list nat) : state nat := St (Task ∅ 0 (replicate 6 None) None [] []) (Context_ W [] 0) (Env_ 0%nat ∅ [] []).
Definition source (n : nat) (st : nat) : nat * unit * option (nat * list addr) := (st, tt, Some (0%nat, Pos.of_nat <$> seq 1 n)).

Definition hooked_line : graph := hook_all line.

Lemma line_ok : gates_ok line.
Proof.
  assert (G : graph_ok three).
  { apply no_gates_ok. intros x c [[_ <-]|[_ [[_ <-]|[_ [_ <-]%lookup_singleton_Some]]%lookup_insert_Some]]%lookup_insert_Some; done. }
  unfold line, connected. cbn [foldl mbind option_bind].
  edestruct (connect_modules_ok three 10%positive 20%positive 1%positive 0%nat 2%positive 0%nat) as (g1 & r1 & E1 & G1 & _); [done|vm_compute; reflexivity..|].
  rewrite E1. vm_compute in E1. cbn [mbind option_bind].
  edestruct (connect_modules_ok g1 11%positive 21%positive 2%positive 1%nat 3%positive 0%nat) as (g2 & r2 & E2 & G2 & _); [done|injection E1 as <- <-; vm_compute; reflexivity..|].
  rewrite E2. cbn. apply G2.
Qed.

Lemma line_igs i r : igs hooked_line !! i = Some r -> i = 20%positive /\ ig_module r = 2%positive \/ i = 21%positive /\ ig_module r = 3%positive.
Proof.
  assert (H : map_Forall (fun i r => i = 20%positive /\ ig_module r = 2%positive \/ i = 21%positive /\ ig_module r = 3%positive) (igs hooked_line))
    by (apply (bool_decide_unpack _); vm_compute; exact I). apply H.
Qed.

Lemma line_ogs og o : ogs hooked_line !! og = Some o ->
  og = 10%positive /\ og_module o = 1%positive /\ igate_ o = Some 20%positive \/ og = 11%positive /\ og_module o = 2%positive /\ igate_ o = Some 21%positive.
Proof.
  assert (H : map_Forall (fun og o => og = 10%positive /\ og_module o = 1%positive /\ igate_ o = Some 20%positive \/
    og = 11%positive /\ og_module o = 2%positive /\ igate_ o = Some 21%positive) (ogs hooked_line)) by (apply (bool_decide_unpack _); vm_compute; exact I). apply H.
Qed.

Lemma line_indexed : indexed hooked_line ig_place og_place 6.
Proof.
  split.
  - by intros i r [[-> _]|[-> _]]%line_igs; cbv; lia.
  - by intros i r [[-> _]|[-> _]]%line_ogs; cbv; lia.
  - by intros i j r r' [[-> _]|[-> _]]%line_igs [[-> _]|[-> _]]%line_igs.
  - by intros i j r r' [[-> _]|[-> _]]%line_ogs [[-> _]|[-> _]]%line_ogs.
  - by intros i j r r' [[-> _]|[-> _]]%line_igs [[-> _]|[-> _]]%line_ogs.
Qed.

Lemma in_turn_fits ms m i l : (length l <= kMaxBurst)%nat -> fits (in_turn ms m i l).2.
Proof.
  intros Hl. unfold in_turn. case_decide; apply few_gates; [rewrite length_zip_with, length_seq|rewrite length_fmap]; lia.
Qed.

Lemma line_layered : layered hooked_line (fun i => if decide (i = 20%positive) then 1%nat else 0%nat) 1.
Proof.
  split; [intros i _; case_decide; lia|]. intros i r og o ig [[-> Er]|[-> Er]]%line_igs [(-> & Eo & Ei)|(-> & Eo & Ei)]%line_ogs Em; rewrite Eo, Er in Em; try done.
  rewrite Ei. intros [= <-]. exact Nat.lt_0_1.
Qed.

(** Seven packets on their way to the third module. *)
Lemma run_conserves_witness :
  exists s', run in_turn hooked_line ig_place og_place (257 * (1 + 2)) 1%positive (source 7) (resting []) = inl (s', tt) /\ at_rest 6 s' /\
    (calls (env s') ≫= call_got) ≡ₚ (pair 20%positive <$> (Pos.of_nat <$> seq 1 7)) ++ (pair 21%positive <$> (Pos.of_nat <$> [1; 4; 7]%nat)) /\
    freed (env s') ≡ₚ Pos.of_nat <$> seq 1 7 /\ u64 (deadends s' 2%positive) = 4.
Proof.
  assert (Q : at_rest 6 (resting [])) by (split; try done; intros i b [-> _]%lookup_replicate; done).
  assert (M1 : is_Some (mods hooked_line !! 1%positive)) by (vm_compute; eauto).
  assert (F1 : fits (Out [] (source 7 (mstate (env (resting [])))).2)) by (split; vm_compute; lia).
  pose proof (run_conserves in_turn hooked_line ig_place og_place 6 (proj1 (hook_all_ok line line_ok)) line_indexed (proj2 (hook_all_ok line line_ok)) in_turn_fits
    (257 * (1 + 2)) 1%positive (source 7) (resting []) Q M1 F1) as H.
  assert (E : (match run in_turn hooked_line ig_place og_place (257 * (1 + 2)) 1%positive (source 7) (resting []) with inl (s, _) => Some (calls (env s)) | inr _ => None end) =
    Some [(20%positive, Pos.of_nat <$> seq 1 7, (in_turn 0 2%positive 0 (Pos.of_nat <$> seq 1 7)).2);
          (21%positive, Pos.of_nat <$> [1; 4; 7]%nat, (in_turn 0 3%positive 0 (Pos.of_nat <$> [1; 4; 7]%nat)).2)]) by (vm_compute; reflexivity).
  destruct (run _ _ _ _ _ _ _ _) as [[s' []]|]; [|done]. injection E as E. exists s'. split; [reflexivity|].
  destruct H as (R & _ & new & fl & HC & HG & HF & HP & _ & HD). split; [exact R|]. cbn [calls env resting app] in HC. rewrite HC in E. rewrite HC, HF.
  split; [rewrite E; vm_compute; reflexivity|]. rewrite E in HP, HD. split; [cbn [freed env resting app]; rewrite HP; vm_compute; solve_Permutation|].
  rewrite HD. vm_compute. reflexivity.
Defined.

(** Copies of 32 packets for two gates without hooks that lead to the same input gate: the
    gates share the batch that waits there, and when it is full their new batches, still
    empty, are "merged" with it and never run.  Half of the packets is lost. *)
Lemma packets_lost :
  let got g := match run copies g ig_place og_place 100 1%positive (source 32) (resting []) with
    | inl (s, _) => Some (length <$> (calls (env s)).*1.*2, length (freed (env s))) | inr _ => None end in
  got twice = Some ([32; 32], 32)%nat /\ got (hook_all twice) = Some ([32; 32; 32], 64)%nat.
Proof. by vm_compute. Qed.

(** In a cycle batches are allocated until the pool is used up. *)
Definition cycle : graph := hook_all (connected [(10, 20, 1, 0%nat, 2); (11, 21, 2, 0%nat, 2)]%positive).
Lemma pool_used_up : match run copies cycle ig_place og_place 300 1%positive (source 1) (resting []) with inl _ => False | inr e => e = NoBatch end.
Proof. by vm_compute. Qed.
