(* ===== verification/TaskGraph.v ===== *)
(** * The graph of tasks: [module_graph.cc]

    When modules have been connected or disconnected, the next resume of the
    workers updates what tasks need to know ([UpdateTaskGraph]): for each task the
    tasks that feed it (its parents, for overload signals), the priorities of
    input gates, a place for each gate, and room for as many batches in each task.

    The graph is that of [Gates.v].  [is_task] says which modules have tasks;
    [all] are the modules in the order of [all_modules_], [tasks] those named in
    [tasks_].  The recursive functions take fuel; [None] is a null pointer, or out
    of fuel. *)

From stdpp Require Import strings gmap.
From S2P Require Import Prelude Pool PrioQueue Gates Dataplane.

Record task_graph := TaskGraph {
  gr : graph;
  parent_tasks_ : gmap addr (list addr);
  ig_index_ : gmap addr nat;
  og_index_ : gmap addr nat;
  gate_cnt_ : nat;
  changes_made_ : bool;
  task_states : list TaskState
}.

Section TaskGraph.
Context (is_task : addr -> bool).

(** ** Parents *)

(** The input gates that the output gates of [m] lead to, in order. *)
Definition next_igates (g : graph) (m : addr) : option (list addr) :=
  c ← mods g !! m; mapM (fun og => o ← ogs g !! og; igate_ o) (omap id (ogates_ c)).

Definition AddParentTask (t m : addr) (parents : gmap addr (list addr)) : gmap addr (list addr) :=
  <[m := default [] (parents !! m) ++ [t]]> parents.

(** The module of each of [igates] that was not visited yet, by [f]. *)
Fixpoint visit_children {A} (g : graph) (f : addr -> gset addr * A -> option (gset addr * A)) (igates : list addr) (st : gset addr * A) :
    option (gset addr * A) :=
  match igates with
  | [] => Some st
  | i :: igates =>
      r ← igs g !! i;
      st ← (if decide (ig_module r ∈ st.1) then Some st else f (ig_module r) st);
      visit_children g f igates st
  end.

Fixpoint UpdateParentsAs (g : graph) (fuel : nat) (t m : addr) (st : gset addr * gmap addr (list addr)) :
    option (gset addr * gmap addr (list addr)) :=
  match fuel with
  | O => None
  | S fuel =>
      let visited := {[m]} ∪ st.1 in
      if is_task m then Some (visited, AddParentTask t m st.2)
      else l ← next_igates g m; visit_children g (UpdateParentsAs g fuel t) l (visited, st.2)
  end.

Definition UpdateSingleTaskGraph (g : graph) (fuel : nat) (t : addr) (parents : gmap addr (list addr)) : option (gmap addr (list addr)) :=
  l ← next_igates g t; snd <$> visit_children g (UpdateParentsAs g fuel t) l ({[t]}, parents).

(** ** Priorities *)

Definition SetPriority (p : Z) (r : IGate) : IGate :=
  IG (ig_module r) (ig_idx r) (ogates_upstream r) p (mergeable_ r) (ig_hooks r).

(** Input gates, raised to [p] and further by [f], unless they have been visited or are there. *)
Fixpoint raise_all (f : addr -> graph -> option graph) (visited : gset addr) (p : Z) (igates : list addr) (g : graph) : option graph :=
  match igates with
  | [] => Some g
  | i :: igates =>
      r ← igs g !! i;
      g ← (if decide (i ∈ visited \/ p <= ig_priority r) then Some g else g ← upd_ig i (SetPriority p) g; f i g);
      raise_all f visited p igates g
  end.

Fixpoint PropagateIGatePriority (fuel : nat) (i : addr) (visited : gset addr) (p : Z) (g : graph) : option graph :=
  match fuel with
  | O => None
  | S fuel =>
      r ← igs g !! i;
      if is_task (ig_module r) then Some g
      else
        l ← next_igates g (ig_module r);
        raise_all (fun j => PropagateIGatePriority fuel j ({[j]} ∪ visited) (u32 (p + 1))) visited p l g
  end.

Definition SetIGatePriority (fuel : nat) (t : addr) (g : graph) : option graph :=
  l ← next_igates g t; raise_all (fun j => PropagateIGatePriority fuel j {[j]} 2) ∅ 1 l g.

(** ** Places *)

Definition IGateGreater (g : graph) (x y : addr) : bool := igate_prio g y <? igate_prio g x.

(** [std::less] on pointers. *)
Definition ogate_less (x y : addr) : bool := (x <? y)%positive.

(** Both queues, and the input gates pushed. *)
Definition queues : Type := list addr * list addr * gset addr.

Fixpoint push_gates (g : graph) (ogates : list addr) (q : queues) : option queues :=
  match ogates with
  | [] => Some q
  | og :: ogates =>
      let '(oq, iq, pushed) := q in
      oq ← push ogate_less og oq;
      o ← ogs g !! og;
      i ← igate_ o;
      q ← (if decide (i ∈ pushed) then Some (oq, iq, pushed) else iq ← push (IGateGreater g) i iq; Some (oq, iq, {[i]} ∪ pushed));
      push_gates g ogates q
  end.

Fixpoint push_modules (g : graph) (all : list addr) (q : queues) : option queues :=
  match all with
  | [] => Some q
  | m :: all => c ← mods g !! m; q ← push_gates g (omap id (ogates_ c)) q; push_modules g all q
  end.

(** Places for the gates of a queue, from [cnt] on. *)
Fixpoint set_places (cmp : addr -> addr -> bool) (fuel : nat) (q : list addr) (cnt : nat) (places : gmap addr nat) : option (nat * gmap addr nat) :=
  match top q with
  | None => Some (cnt, places)
  | Some x =>
      match fuel with
      | O => None
      | S fuel => q ← pop cmp q; set_places cmp fuel q (cnt + 1) (<[x := cnt]> places)
      end
  end.

Definition SetUniqueGateIdx (all : list addr) (tg : task_graph) : option task_graph :=
  '(oq, iq, _) ← push_modules (gr tg) all ([], [], ∅);
  '(cnt, ip) ← set_places (IGateGreater (gr tg)) (length iq) iq 0 (ig_index_ tg);
  '(cnt, op) ← set_places ogate_less (length oq) oq cnt (og_index_ tg);
  Some (TaskGraph (gr tg) (parent_tasks_ tg) ip op cnt (changes_made_ tg) (task_states tg)).

(** ** The update *)

(** [workers]: whether there is a worker, for each number. *)
Definition ConfigureTasks (workers : list bool) (tg : task_graph) : task_graph :=
  TaskGraph (gr tg) (parent_tasks_ tg) (ig_index_ tg) (og_index_ tg) (gate_cnt_ tg) (changes_made_ tg)
    (foldl (fun l (w : bool) => if w then UpdatePerGateBatch (gate_cnt_ tg) <$> l else l) (task_states tg) workers).

Definition CleanTaskGraph (tasks : list addr) (parents : gmap addr (list addr)) : gmap addr (list addr) :=
  foldl (fun h t => <[t := []]> h) parents tasks.

Fixpoint update_tasks (fuel : nat) (tasks : list addr) (g : graph) (parents : gmap addr (list addr)) : option (graph * gmap addr (list addr)) :=
  match tasks with
  | [] => Some (g, parents)
  | t :: tasks =>
      parents ← UpdateSingleTaskGraph g fuel t parents;
      g ← SetIGatePriority fuel t g;
      update_tasks fuel tasks g parents
  end.

Definition UpdateTaskGraph (fuel : nat) (workers : list bool) (all tasks : list addr) (tg : task_graph) : option task_graph :=
  if changes_made_ tg then
    '(g, parents) ← update_tasks fuel tasks (gr tg) (CleanTaskGraph tasks (parent_tasks_ tg));
    tg ← SetUniqueGateIdx all (TaskGraph g parents (ig_index_ tg) (og_index_ tg) (gate_cnt_ tg) true (task_states tg));
    let tg := ConfigureTasks workers tg in
    Some (TaskGraph (gr tg) (parent_tasks_ tg) (ig_index_ tg) (og_index_ tg) (gate_cnt_ tg) false (task_states tg))
  else Some tg.

End TaskGraph.
