(* ===== verification/TaskGraphProps.v ===== *)
(** * The graph of tasks: proofs

    An update gives each task the tasks it feeds on, each gate a place of its own,
    and, when the graph has no cycle and priorities start at 0, each input gate the
    length of the longest way to it from a task ([task_graph_updated]).  The places
    are as runs of tasks rely on ([DataplaneProps.indexed]). *)

From stdpp Require Import strings gmap.
From S2P Require Import Prelude Pool PrioQueue Gates GateProps Dataplane DataplaneProps TaskGraph.

(** ** Ways in the graph *)

(** An output gate of [m] leads to input gate [i]. *)
Definition leads (g : graph) (m i : addr) : Prop := exists og o, ogs g !! og = Some o /\ og_module o = m /\ igate_ o = Some i.
Definition child (g : graph) (m x : addr) : Prop := exists i r, leads g m i /\ igs g !! i = Some r /\ ig_module r = x.

Lemma leads_igate g m i : gates_ok g -> leads g m i -> exists r, igs g !! i = Some r /\ is_Some (mods g !! ig_module r).
Proof.
  intros K (og & o & Ho & _ & Hi). destruct (k_up g K og o Ho) as (i' & r & Hi' & Hr & _). assert (i' = i) as -> by congruence.
  exists r. split; [done|]. destruct (k_ig g K i r Hr) as (c & -> & _). done.
Qed.

Lemma next_igates_ok g m : gates_ok g -> is_Some (mods g !! m) -> exists l, next_igates g m = Some l /\ forall i, i ∈ l <-> leads g m i.
Proof.
  intros K [c Hc]. unfold next_igates. rewrite Hc, bind_some.
  assert (Hl : forall og, og ∈ omap id (ogates_ c) <-> exists o, ogs g !! og = Some o /\ og_module o = m).
  { intros og. rewrite list_elem_of_omap. split.
    - intros (x & [k Hk]%list_elem_of_lookup & E). cbn in E. subst x. destruct (k_slot g K m k og) as (o & Ho & Hm & _); [by exists c|]. by exists o.
    - intros (o & Ho & Hm). destruct (k_og g K og o Ho) as (c' & Hc' & Hk). rewrite Hm, Hc in Hc'. injection Hc' as <-. exists (Some og).
      split; [by eapply list_elem_of_lookup_2|done]. }
  assert (HL : forall os, (forall og, og ∈ os -> exists o, ogs g !! og = Some o /\ og_module o = m) ->
    exists l, mapM (fun og => o ← ogs g !! og; igate_ o) os = Some l /\ forall i, i ∈ l <-> exists og o, og ∈ os /\ ogs g !! og = Some o /\ igate_ o = Some i).
  { induction os as [|og os IH]; intros Hos.
    - exists []. split; [done|]. intros i. split; [by intros ?%elem_of_nil|by intros (? & ? & ?%elem_of_nil & _)].
    - destruct (Hos og ltac:(by constructor)) as (o & Ho & _). destruct (k_up g K og o Ho) as (j & _ & Hj & _).
      destruct (IH (fun x Hx => Hos x ltac:(by constructor))) as (l & E & Hl'). exists (j :: l). cbn. rewrite Ho. cbn. rewrite Hj. cbn. cbn in E. rewrite E. split; [done|].
      intros i. rewrite elem_of_cons, Hl'. split.
      + intros [->|(og' & o' & Hin & H2)]; [exists og, o; split; [by constructor|done]|exists og', o'; split; [by constructor|done]].
      + intros (og' & o' & [->|Hin]%elem_of_cons & H2 & H3); [left; congruence|right; by exists og', o']. }
  destruct (HL (omap id (ogates_ c)) (fun og H => proj1 (Hl og) H)) as (l & -> & Hi). exists l. split; [done|]. intros i. rewrite Hi. split.
  - intros (og & o & Hin & Ho & E). apply Hl in Hin as (o' & Ho' & Hm). assert (o' = o) as -> by congruence. by exists og, o.
  - intros (og & o & Ho & Hm & E). exists og, o. split; [apply Hl; by exists o|done].
Qed.

Section Spec.
Context (is_task : addr -> bool).

(** ** Parents *)

(** [x] is reached from [t] through modules that are not tasks. *)
Inductive below (g : graph) (t : addr) : addr -> Prop :=
  | below_child x : child g t x -> below g t x
  | below_step x y : below g t x -> is_task x = false -> child g x y -> below g t y.

Section Parents.
Context (g : graph) (K : gates_ok g) (t : addr).

Definition unvisited (V : gset addr) : nat := base.size (dom (mods g) ∖ V).

Lemma unvisited_le (V V' : gset addr) : V ⊆ V' -> (unvisited V' <= unvisited V)%nat.
Proof. intros H. unfold unvisited. apply subseteq_size. set_solver. Qed.

Lemma unvisited_lt (V : gset addr) m : is_Some (mods g !! m) -> m ∉ V -> (unvisited ({[m]} ∪ V) < unvisited V)%nat.
Proof. intros Hm HV. unfold unvisited. apply subset_size. apply elem_of_dom in Hm. split; [set_solver|]. intros H. specialize (H m). set_solver. Qed.

Record visited_ok (V V' : gset addr) (H H' : gmap addr (list addr)) : Prop := {
  d_sub : V ⊆ V';
  d_new : forall x, x ∈ V' -> x ∉ V -> below g t x;
  d_closed : forall x y, x ∈ V' -> x ∉ V -> is_task x = false -> child g x y -> y ∈ V';
  d_parents : forall x, H' !! x = if decide (x ∈ V' /\ (x ∉ V) /\ is_task x = true) then Some (default [] (H !! x) ++ [t]) else H !! x
}.

Lemma visited_refl V H : visited_ok V V H H.
Proof. split; [done|done|done|]. intros x. by rewrite decide_False by tauto. Qed.

Lemma visited_trans V1 V2 V3 H1 H2 H3 : visited_ok V1 V2 H1 H2 -> visited_ok V2 V3 H2 H3 -> visited_ok V1 V3 H1 H3.
Proof.
  intros [A1 A2 A3 A4] [B1 B2 B3 B4]. split; [set_solver| | |].
  - intros x Hx Hn. destruct (decide (x ∈ V2)); [by apply A2|by apply B2].
  - intros x y Hx Hn Ht Hc. destruct (decide (x ∈ V2)); [apply B1; by apply (A3 x)|by apply (B3 x)].
  - intros x. rewrite B4, A4. destruct (decide (x ∈ V2)) as [Hx|Hx].
    + rewrite (decide_False (P := x ∈ V3 /\ _)) by tauto. destruct (decide (x ∈ V2 /\ (x ∉ V1) /\ is_task x = true)) as [E|E];
        [rewrite decide_True by (split; [set_solver|tauto])|rewrite decide_False by tauto]; done.
    + rewrite (decide_False (P := x ∈ V2 /\ _)) by tauto. assert (x ∉ V1) by set_solver.
      destruct (decide (x ∈ V3 /\ (x ∉ V2) /\ is_task x = true)); [rewrite decide_True by tauto|rewrite decide_False by tauto]; done.
Qed.

Lemma visit_ok n (f : addr -> gset addr * gmap addr (list addr) -> option (gset addr * gmap addr (list addr))) :
  (forall m V H, is_Some (mods g !! m) -> m ∉ V -> below g t m -> (unvisited V <= n)%nat -> exists V' H', f m (V, H) = Some (V', H') /\ m ∈ V' /\ visited_ok V V' H H') ->
  forall l V H, (forall i, i ∈ l -> exists r, igs g !! i = Some r /\ is_Some (mods g !! ig_module r) /\ below g t (ig_module r)) -> (unvisited V <= n)%nat ->
  exists V' H', visit_children g f l (V, H) = Some (V', H') /\ visited_ok V V' H H' /\ forall i r, i ∈ l -> igs g !! i = Some r -> ig_module r ∈ V'.
Proof.
  intros Hf. induction l as [|i l IH]; intros V H Hl HV; cbn [visit_children].
  - exists V, H. split; [done|]. split; [apply visited_refl|]. by intros ? ? ?%elem_of_nil.
  - destruct (Hl i ltac:(by constructor)) as (r & Hr & Hm & Hb). rewrite Hr, bind_some. cbn [fst].
    assert (H1 : exists V1 H1, (if decide (ig_module r ∈ V) then Some (V, H) else f (ig_module r) (V, H)) = Some (V1, H1) /\ ig_module r ∈ V1 /\ visited_ok V V1 H H1).
    { case_decide as Hin; [exists V, H; split; [done|]; split; [done|apply visited_refl]|by apply Hf]. }
    destruct H1 as (V1 & H1 & -> & Hin & D1). rewrite bind_some.
    destruct (IH V1 H1 (fun j Hj => Hl j ltac:(by constructor)) ltac:(etransitivity; [apply unvisited_le, (d_sub _ _ _ _ D1)|done])) as (V2 & H2 & -> & D2 & Hall).
    exists V2, H2. split; [done|]. split; [by eapply visited_trans|]. intros j s [->|Hj]%elem_of_cons Hs; [|by apply (Hall j)].
    assert (s = r) as -> by congruence. by apply (d_sub _ _ _ _ D2).
Qed.

Lemma children_below m l : next_igates g m = Some l -> (forall i, i ∈ l <-> leads g m i) -> (forall x, child g m x -> below g t x) ->
  forall i, i ∈ l -> exists r, igs g !! i = Some r /\ is_Some (mods g !! ig_module r) /\ below g t (ig_module r).
Proof.
  intros E Hl Hb i Hi. apply Hl in Hi. destruct (leads_igate g m i K Hi) as (r & Hr & Hm). exists r. split; [done|]. split; [done|]. apply Hb. by exists i, r.
Qed.

Lemma update_parents_ok fuel : forall m V H, is_Some (mods g !! m) -> m ∉ V -> below g t m -> (unvisited V <= fuel)%nat ->
  exists V' H', UpdateParentsAs is_task g fuel t m (V, H) = Some (V', H') /\ m ∈ V' /\ visited_ok V V' H H'.
Proof.
  induction fuel as [|fuel IH]; intros m V H Hm HV Hb Hle; pose proof (unvisited_lt V m Hm HV) as Hlt; [lia|]. cbn [UpdateParentsAs fst snd].
  destruct (is_task m) eqn:Et.
  - eexists _, _. split; [done|]. split; [set_solver|]. split; [set_solver| | |].
    + intros x Hx Hn. assert (x = m) as -> by set_solver. done.
    + intros x y Hx Hn Ht. assert (x = m) as -> by set_solver. congruence.
    + intros x. unfold AddParentTask. destruct (decide (x = m)) as [->|Hne].
      * rewrite lookup_insert_eq, decide_True by (split; [set_solver|done]). done.
      * rewrite lookup_insert_ne, decide_False by (try done; set_solver). done.
  - destruct (next_igates_ok g m K Hm) as (l & El & Hl). rewrite El, bind_some.
    destruct (visit_ok fuel (UpdateParentsAs is_task g fuel t) IH l ({[m]} ∪ V) H) as (V' & H' & -> & [D1 D2 D3 D4] & Hall); [|lia|].
    { apply (children_below m l El Hl). intros x Hx. by apply (below_step g t m). }
    exists V', H'. split; [done|]. split; [set_solver|]. split; [set_solver| | |].
    + intros x Hx Hn. destruct (decide (x = m)) as [->|]; [done|]. apply D2; [done|set_solver].
    + intros x y Hx Hn Ht Hc. destruct (decide (x = m)) as [->|]; [|apply (D3 x); [done|set_solver|done|done]].
      destruct Hc as (i & r & Hi & Hr & <-). by apply (Hall i r); [apply Hl|].
    + intros x. rewrite D4. destruct (decide (x = m)) as [->|]; [|].
      { rewrite decide_False by (intros (_ & Hn & _); apply Hn, elem_of_union_l, elem_of_singleton_2; done). by rewrite decide_False by (intros (_ & _ & E); congruence). }
      assert (Ex : x ∉ {[m]} ∪ V <-> x ∉ V) by (rewrite not_elem_of_union, not_elem_of_singleton; tauto).
      destruct (decide (x ∈ V' /\ (x ∉ {[m]} ∪ V) /\ is_task x = true)); [rewrite decide_True by tauto|rewrite decide_False by tauto]; done.
Qed.

(** The parents that [t] becomes. *)
Lemma update_single_ok fuel H : is_Some (mods g !! t) -> (base.size (mods g) <= fuel)%nat ->
  exists H', UpdateSingleTaskGraph is_task g fuel t H = Some H' /\ forall x,
    (x <> t /\ is_task x = true /\ below g t x /\ H' !! x = Some (default [] (H !! x) ++ [t])) \/ (~ (x <> t /\ is_task x = true /\ below g t x) /\ H' !! x = H !! x).
Proof.
  intros Ht Hf. unfold UpdateSingleTaskGraph. destruct (next_igates_ok g t K Ht) as (l & El & Hl). rewrite El, bind_some.
  destruct (visit_ok fuel (UpdateParentsAs is_task g fuel t) (update_parents_ok fuel) l {[t]} H) as (V & H' & -> & [D1 D2 D3 D4] & Hall).
  { apply (children_below t l El Hl). intros x Hx. by constructor. }
  { etransitivity; [apply (unvisited_le ∅), empty_subseteq|]. unfold unvisited. rewrite difference_empty_L, size_dom. done. }
  exists H'. split; [done|]. assert (HB : forall x, below g t x -> x ∈ V).
  { intros x Hx. induction Hx as [x (i & r & Hi & Hr & <-)|x y Hx IH Hn Hc]; [by apply (Hall i r); [apply Hl|]|].
    destruct (decide (x = t)) as [->|Hne]; [destruct Hc as (i & r & Hi & Hr & <-); by apply (Hall i r); [apply Hl|]|]. apply (D3 x); [done|set_solver|done|done]. }
  intros x. rewrite D4. case_decide as E.
  - left. destruct E as (E1 & E2 & E3). split; [set_solver|]. split; [done|]. split; [by apply D2|done].
  - right. split; [|done]. intros (E1 & E2 & E3). apply E. split; [by apply HB|]. split; [set_solver|done].
Qed.

End Parents.
(** ** Priorities *)

(** Nothing but priorities differs. *)
Record same_but (g g' : graph) : Prop := {
  b_mods : mods g' = mods g;
  b_ogs : ogs g' = ogs g;
  b_igs : forall i, SetPriority 0 <$> igs g' !! i = SetPriority 0 <$> igs g !! i
}.

Lemma same_but_refl g : same_but g g.
Proof. by split. Qed.

Lemma same_but_trans g1 g2 g3 : same_but g1 g2 -> same_but g2 g3 -> same_but g1 g3.
Proof. intros [A1 A2 A3] [B1 B2 B3]. split; [congruence|congruence|]. intros i. by rewrite B3. Qed.

Lemma same_but_sym g1 g2 : same_but g1 g2 -> same_but g2 g1.
Proof. intros [A1 A2 A3]. by split. Qed.

Lemma same_igate g g' i r : same_but g g' -> igs g !! i = Some r -> exists r', igs g' !! i = Some r' /\ ig_module r' = ig_module r /\ ig_idx r' = ig_idx r /\
  ogates_upstream r' = ogates_upstream r /\ mergeable_ r' = mergeable_ r.
Proof.
  intros [_ _ B] Hr. specialize (B i). rewrite Hr in B. destruct (igs g' !! i) as [r'|]; [|done]. exists r'. apply (inj Some) in B. unfold SetPriority in B. by injection B as ? ? ? ? ?.
Qed.

Lemma same_gates_ok g g' : same_but g g' -> gates_ok g -> gates_ok g'.
Proof.
  intros B [K1 K2 K3 K4 K5 K6 K7]. pose proof (same_igate g' g) as S1. specialize (fun i r => S1 i r (same_but_sym _ _ B)). pose proof (fun i r => same_igate g g' i r B) as S2.
  destruct B as [E1 E2 _], g as [m0 i0 o0], g' as [m1 i1 o1]. cbn in E1, E2, S1, S2. subst m1 o1. split; [exact K1|exact K2|..]; cbn [igs ogs].
  - intros og o Ho. destruct (K3 og o Ho) as (i & r & Hi & Hr & Hin & H1 & H2). destruct (S2 i r Hr) as (r' & Hr' & M1 & M2 & M3 & _). exists i, r'.
    rewrite M1, M2, M3. done.
  - intros i r og Hr Hin. destruct (S1 i r Hr) as (r' & Hr' & M1 & M2 & M3 & _). apply (K4 i r' og Hr'). by rewrite M3.
  - intros m k i Hk. destruct (K5 m k i Hk) as (r & Hr & <- & <-). destruct (S2 i r Hr) as (r' & Hr' & M1 & M2 & _). by exists r'.
  - intros i r Hr. destruct (S1 i r Hr) as (r' & Hr' & <- & <- & _). by apply K6.
  - intros i r Hr. destruct (S1 i r Hr) as (r' & Hr' & _ & _ & <- & <-). by apply (K7 i).
Qed.

Lemma same_leads g g' m i : same_but g g' -> leads g' m i <-> leads g m i.
Proof. intros [_ E _]. unfold leads. by rewrite E. Qed.

Lemma same_next g g' m : same_but g g' -> next_igates g' m = next_igates g m.
Proof. intros [E1 E2 _]. unfold next_igates. by rewrite E1, E2. Qed.

Lemma same_child g g' m x : same_but g g' -> child g m x -> child g' m x.
Proof.
  intros B (i & r & Hl & Hr & <-). destruct (same_igate g g' i r B Hr) as (r' & Hr' & <- & _). exists i, r'. split; [by apply (same_leads g)|done].
Qed.

Lemma same_below g g' t x : same_but g g' -> below g t x -> below g' t x.
Proof. intros B H. induction H as [x Hc|x y _ IH Hn Hc]; [apply below_child|apply (below_step g' t x)]; eauto using same_child. Qed.

Lemma set_priority_ok g g' i p : same_but g g' -> is_Some (igs g !! i) ->
  exists g2, upd_ig i (SetPriority p) g' = Some g2 /\ same_but g g2 /\ forall j, igate_prio g2 j = if decide (j = i) then p else igate_prio g' j.
Proof.
  intros B [r Hr]. destruct (same_igate g g' i r B Hr) as (r' & Hr' & _). unfold upd_ig. rewrite Hr', bind_some. eexists. split; [done|]. destruct B as [B1 B2 B3]. split.
  - split; [done|done|]. intros j. cbn. destruct (decide (j = i)) as [->|Hne]; [|by rewrite lookup_insert_ne].
    rewrite lookup_insert_eq, <- B3, Hr'. done.
  - intros j. unfold igate_prio. cbn. destruct (decide (j = i)) as [->|Hne]; [by rewrite lookup_insert_eq|by rewrite lookup_insert_ne].
Qed.

Section Priorities.
Context (g : graph) (K : gates_ok g).

(** The recursion ends, whatever the graph. *)
Definition unseen (V : gset addr) : nat := base.size (dom (igs g) ∖ V).

Lemma unseen_lt (V : gset addr) i : is_Some (igs g !! i) -> i ∉ V -> (unseen ({[i]} ∪ V) < unseen V)%nat.
Proof. intros Hm HV. unfold unseen. apply subset_size. apply elem_of_dom in Hm. split; [set_solver|]. intros H. specialize (H i). set_solver. Qed.

Lemma raise_total (f : addr -> graph -> option graph) V p : (forall i g', i ∉ V -> same_but g g' -> is_Some (igs g !! i) -> exists g2, f i g' = Some g2 /\ same_but g g2) ->
  forall l g', same_but g g' -> (forall i, i ∈ l -> is_Some (igs g !! i)) -> exists g2, raise_all f V p l g' = Some g2 /\ same_but g g2.
Proof.
  intros Hf. induction l as [|i l IH]; intros g' B Hl; cbn [raise_all]; [by exists g'|]. destruct (Hl i ltac:(by constructor)) as [r Hr].
  destruct (same_igate g g' i r B Hr) as (r' & Hr' & _). rewrite Hr', bind_some. case_decide as E; [rewrite bind_some; apply IH; [done|]; intros j Hj; apply Hl; by constructor|].
  destruct (set_priority_ok g g' i p B ltac:(eauto)) as (g1 & -> & B1 & _). rewrite bind_some. destruct (Hf i g1) as (g2 & -> & B2); [tauto|done|eauto|].
  rewrite bind_some. apply IH; [done|]. intros j Hj. apply Hl. by constructor.
Qed.

Lemma leads_igates m (l : list addr) : (forall i, i ∈ l <-> leads g m i) -> forall i, i ∈ l -> is_Some (igs g !! i).
Proof. intros Hl i Hi. apply Hl in Hi. destruct (leads_igate g m i K Hi) as (r & -> & _). done. Qed.

Lemma next_same m g' : same_but g g' -> is_Some (mods g !! m) -> exists l, next_igates g' m = Some l /\ forall i, i ∈ l <-> leads g m i.
Proof. intros B Hm. rewrite (same_next g g' m B). by apply next_igates_ok. Qed.

Lemma propagate_total fuel : forall i V p g', same_but g g' -> is_Some (igs g !! i) -> (unseen V < fuel)%nat ->
  exists g2, PropagateIGatePriority is_task fuel i V p g' = Some g2 /\ same_but g g2.
Proof.
  induction fuel as [|fuel IH]; intros i V p g' B [r Hr] Hlt; [lia|]. cbn [PropagateIGatePriority]. destruct (same_igate g g' i r B Hr) as (r' & Hr' & E & _).
  rewrite Hr', bind_some, E. destruct (is_task (ig_module r)); [by exists g'|]. destruct (k_ig g K i r Hr) as (c & Hc & _).
  destruct (next_same (ig_module r) g' B ltac:(eauto)) as (l & -> & Hl). rewrite bind_some. apply raise_total; [|done|by apply (leads_igates (ig_module r))].
  intros j g1 Hj B1 Hs. apply IH; [done|done|]. pose proof (unseen_lt V j Hs Hj). lia.
Qed.

Lemma set_igate_priority_total fuel t g' : same_but g g' -> is_Some (mods g !! t) -> (base.size (igs g) < fuel)%nat ->
  exists g2, SetIGatePriority is_task fuel t g' = Some g2 /\ same_but g g2.
Proof.
  intros B Ht Hlt. unfold SetIGatePriority. destruct (next_same t g' B Ht) as (l & -> & Hl). rewrite bind_some. apply raise_total; [|done|by apply (leads_igates t)].
  intros j g1 _ B1 Hs. apply propagate_total; [done|done|]. unfold unseen. apply Nat.le_lt_trans with (base.size (igs g)); [|done]. rewrite <- size_dom. apply subseteq_size. set_solver.
Qed.

(** In a graph with layers. *)
Context (rank : addr -> nat) (M : nat) (HL : layered g rank M) (HM : Z.of_nat M + 3 < 2 ^ 32).
Context (F : addr -> Z -> Prop).
Context (F_step : forall x r n y, F x n -> igs g !! x = Some r -> is_task (ig_module r) = false -> leads g (ig_module r) y -> F y (n + 1)).

(** What [x] leads to is above it. *)
Definition closed (g' : graph) (x : addr) : Prop :=
  forall r y, igs g !! x = Some r -> is_task (ig_module r) = false -> leads g (ig_module r) y -> igate_prio g' x + 1 <= igate_prio g' y.

(** From [g1] to [g2] priorities rise. *)
Record rise (g1 g2 : graph) : Prop := {
  u_mono : forall x, igate_prio g1 x <= igate_prio g2 x;
  u_closed : forall x, igate_prio g2 x <> igate_prio g1 x -> closed g2 x;
  u_far : forall x, igate_prio g2 x <> igate_prio g1 x -> F x (igate_prio g2 x)
}.

Lemma rise_refl g1 : rise g1 g1.
Proof. by split. Qed.

Lemma rise_trans g1 g2 g3 : rise g1 g2 -> rise g2 g3 -> rise g1 g3.
Proof.
  intros [A1 A2 A3] [B1 B2 B3]. split.
  - intros x. specialize (A1 x). specialize (B1 x). lia.
  - intros x Hx. destruct (decide (igate_prio g3 x = igate_prio g2 x)) as [E|E]; [|by apply B2]. intros r y Hr Ht Hy. rewrite E in Hx |- *.
    specialize (A2 x Hx r y Hr Ht Hy). specialize (B1 y). lia.
  - intros x Hx. destruct (decide (igate_prio g3 x = igate_prio g2 x)) as [E|E]; [|by apply B3]. rewrite E in Hx |- *. by apply A3.
Qed.

Lemma leads_lower i r y : igs g !! i = Some r -> leads g (ig_module r) y -> (rank y < rank i)%nat.
Proof. intros Hr (og & o & Ho & Hm & Hy). by apply (proj2 HL i r og o y). Qed.

Lemma leads_bounded m y : leads g m y -> (rank y <= M)%nat.
Proof. intros Hy. destruct (leads_igate g m y K Hy) as (r & Hr & _). apply (proj1 HL). eauto. Qed.

Lemma raise_rise (f : addr -> graph -> option graph) V p n : 1 <= p ->
  (forall y g1 g2, same_but g g1 -> is_Some (igs g !! y) -> (forall v, v ∈ V -> (rank y < rank v)%nat) -> p + 1 + Z.of_nat (rank y) <= Z.of_nat M + 2 -> F y p ->
    f y g1 = Some g2 -> same_but g g2 /\ rise g1 g2 /\ (forall x, igate_prio g2 x <> igate_prio g1 x -> (rank x < rank y)%nat) /\
      forall r z, igs g !! y = Some r -> is_task (ig_module r) = false -> leads g (ig_module r) z -> p + 1 <= igate_prio g2 z) ->
  forall l g1 g2, same_but g g1 ->
    (forall y, y ∈ l -> is_Some (igs g !! y) /\ (forall v, v ∈ V -> (rank y < rank v)%nat) /\ p + 1 + Z.of_nat (rank y) <= Z.of_nat M + 2 /\ F y p /\ (rank y < n)%nat) ->
    raise_all f V p l g1 = Some g2 ->
    same_but g g2 /\ rise g1 g2 /\ (forall x, igate_prio g2 x <> igate_prio g1 x -> (rank x < n)%nat) /\ forall y, y ∈ l -> p <= igate_prio g2 y.
Proof.
  intros Hp Hf. induction l as [|y l IH]; intros g1 g2 B Hl; cbn [raise_all].
  { intros [= <-]. split; [done|]. split; [apply rise_refl|]. split; [done|]. by intros ? ?%elem_of_nil. }
  destruct (Hl y ltac:(by constructor)) as ([r Hr] & HV & HR & HF & Hn). destruct (same_igate g g1 y r B Hr) as (r1 & Hr1 & _). rewrite Hr1, bind_some.
  assert (Ep : ig_priority r1 = igate_prio g1 y) by (unfold igate_prio; by rewrite Hr1).
  assert (Hy : forall g3, (if decide (y ∈ V \/ p <= ig_priority r1) then Some g1 else g ← upd_ig y (SetPriority p) g1; f y g) = Some g3 ->
    same_but g g3 /\ rise g1 g3 /\ (forall x, igate_prio g3 x <> igate_prio g1 x -> (rank x < n)%nat) /\ p <= igate_prio g3 y).
  { intros g3. case_decide as E.
    - intros [= <-]. split; [done|]. split; [apply rise_refl|]. split; [done|]. destruct E as [E|E]; [specialize (HV y E); lia|lia].
    - destruct (set_priority_ok g g1 y p B ltac:(eauto)) as (g' & -> & B' & Hset). rewrite bind_some. intros Ef.
      destruct (Hf y g' g3 B' ltac:(eauto) HV HR HF Ef) as (B3 & [U1 U2 U3] & HD & HN).
      assert (Ey : igate_prio g3 y = p).
      { destruct (decide (igate_prio g3 y = igate_prio g' y)) as [->|Hne]; [by rewrite Hset, decide_True|specialize (HD y Hne); lia]. }
      assert (Ex : forall x, x <> y -> igate_prio g' x = igate_prio g1 x) by (intros x Hx; by rewrite Hset, decide_False).
      split; [done|]. split; [split|split].
      + intros x. destruct (decide (x = y)) as [->|Hx]; [lia|]. rewrite <- (Ex x Hx). apply U1.
      + intros x Hx. destruct (decide (x = y)) as [->|Hne]; [|apply U2; by rewrite Ex]. intros r' z Hr' Ht Hz. rewrite Ey. by apply (HN r').
      + intros x Hx. destruct (decide (x = y)) as [->|Hne]; [by rewrite Ey|apply U3; by rewrite Ex].
      + intros x Hx. destruct (decide (x = y)) as [->|Hne]; [done|]. etransitivity; [apply HD; by rewrite Ex|done].
      + lia. }
  destruct (if decide _ then _ else _) as [g3|] eqn:E3; [|done]. rewrite bind_some. intros E2. destruct (Hy g3 eq_refl) as (B3 & R3 & D3 & P3).
  destruct (IH g3 g2 B3 (fun x Hx => Hl x ltac:(by constructor)) E2) as (B2 & R2 & D2 & P2). split; [done|]. split; [by eapply rise_trans|]. split.
  - intros x Hx. destruct (decide (igate_prio g3 x = igate_prio g1 x)) as [E|E]; [apply D2; by rewrite E|by apply D3].
  - intros x [->|Hx]%elem_of_cons; [|by apply P2]. pose proof (u_mono _ _ R2 y). lia.
Qed.

Lemma propagate_rise fuel : forall i V p g1 g2 r, 2 <= p -> same_but g g1 -> igs g !! i = Some r -> (forall v, v ∈ V -> (rank i <= rank v)%nat) ->
  p + Z.of_nat (rank i) <= Z.of_nat M + 2 -> F i (p - 1) -> PropagateIGatePriority is_task fuel i V p g1 = Some g2 ->
  same_but g g2 /\ rise g1 g2 /\ (forall x, igate_prio g2 x <> igate_prio g1 x -> (rank x < rank i)%nat) /\
    (is_task (ig_module r) = false -> forall z, leads g (ig_module r) z -> p <= igate_prio g2 z).
Proof.
  induction fuel as [|fuel IH]; intros i V p g1 g2 r Hp B Hr HV HR HF; [done|]. cbn [PropagateIGatePriority]. destruct (same_igate g g1 i r B Hr) as (r1 & -> & E & _).
  rewrite bind_some, E. destruct (is_task (ig_module r)) eqn:Et; [intros [= <-]; split; [done|]; split; [apply rise_refl|done]|].
  destruct (k_ig g K i r Hr) as (c & Hc & _). destruct (next_same (ig_module r) g1 B ltac:(eauto)) as (l & -> & Hl). rewrite bind_some. intros Ea.
  assert (Eu : u32 (p + 1) = p + 1) by (apply wrap_small; lia). rewrite Eu in Ea.
  edestruct (raise_rise (fun j => PropagateIGatePriority is_task fuel j ({[j]} ∪ V) (p + 1)) V p (rank i)) as (B2 & R2 & D2 & P2); [lia| |exact B| |exact Ea|].
  - intros y h1 h2 Bh [s Hs] HV' HR' HF' Eh. destruct (IH y ({[y]} ∪ V) (p + 1) h1 h2 s) as (H1 & H2 & H3 & H4); [lia|done|done| |lia| |done|].
    + intros v [->%elem_of_singleton|Hv]%elem_of_union; [done|]. specialize (HV' v Hv). lia.
    + by replace (p + 1 - 1) with p by lia.
    + split; [done|]. split; [done|]. split; [done|]. intros s' z Hs' Ht Hz. assert (s' = s) as -> by congruence. by apply H4.
  - intros y Hy%Hl. pose proof (leads_lower i r y Hr Hy). destruct (leads_igate g _ y K Hy) as (s & Hs & _). split; [eauto|].
    split; [intros v Hv; specialize (HV v Hv); lia|]. split; [lia|]. split; [|done]. replace p with (p - 1 + 1) by lia. by apply (F_step i r).
  - split; [done|]. split; [done|]. split; [done|]. intros _ z Hz. by apply P2, Hl.
Qed.

Lemma set_igate_priority_rise fuel t g1 g2 : same_but g g1 -> is_Some (mods g !! t) -> (forall y, leads g t y -> F y 1) ->
  SetIGatePriority is_task fuel t g1 = Some g2 -> same_but g g2 /\ rise g1 g2 /\ forall y, leads g t y -> 1 <= igate_prio g2 y.
Proof.
  intros B Ht HF. unfold SetIGatePriority. destruct (next_same t g1 B Ht) as (l & -> & Hl). rewrite bind_some. intros Ea.
  edestruct (raise_rise (fun j => PropagateIGatePriority is_task fuel j {[j]} 2) ∅ 1 (Datatypes.S M)) as (B2 & R2 & D2 & P2); [lia| |exact B| |exact Ea|].
  - intros y h1 h2 Bh [s Hs] _ HR' HF' Eh. destruct (propagate_rise fuel y {[y]} 2 h1 h2 s) as (H1 & H2 & H3 & H4); [lia|done|done| |lia|done|done|].
    + by intros v ->%elem_of_singleton.
    + split; [done|]. split; [done|]. split; [done|]. intros s' z Hs' Htk Hz. assert (s' = s) as -> by congruence. by apply H4.
  - intros y Hy%Hl. pose proof (leads_bounded t y Hy). destruct (leads_igate g _ y K Hy) as (s & Hs & _). split; [eauto|]. split; [by intros v ?%elem_of_empty|].
    split; [lia|]. split; [by apply HF|lia].
  - split; [done|]. split; [done|]. intros y Hy. by apply P2, Hl.
Qed.

End Priorities.
(** [t] reaches input gate [x] over [n] gates. *)
Inductive far (g : graph) (t : addr) : addr -> Z -> Prop :=
  | far_first x : leads g t x -> far g t x 1
  | far_step x r n y : far g t x n -> igs g !! x = Some r -> is_task (ig_module r) = false -> leads g (ig_module r) y -> far g t y (n + 1).

Lemma far_pos g t x n : far g t x n -> 1 <= n.
Proof. induction 1; lia. Qed.

(** ** All tasks *)

Lemma update_tasks_ok g fuel : gates_ok g -> (base.size (mods g) <= fuel)%nat -> (base.size (igs g) < fuel)%nat ->
  forall tasks g1 H, same_but g g1 -> (forall t, t ∈ tasks -> is_Some (mods g !! t)) ->
  exists g2 H2, update_tasks is_task fuel tasks g1 H = Some (g2, H2) /\ same_but g g2 /\
    forall x, exists L, default [] (H2 !! x) = default [] (H !! x) ++ L /\ sublist L tasks /\
      forall t, t ∈ L <-> t ∈ tasks /\ x <> t /\ is_task x = true /\ below g t x.
Proof.
  intros K F1 F2. induction tasks as [|t tasks IH]; intros g1 H B Ht; cbn [update_tasks].
  { exists g1, H. split; [done|]. split; [done|]. intros x. exists []. rewrite app_nil_r. split; [done|]. split; [done|]. intros t. rewrite !elem_of_nil. tauto. }
  assert (K1 : gates_ok g1) by (by eapply same_gates_ok). pose proof (Ht t ltac:(constructor)) as Hm.
  assert (Hm1 : is_Some (mods g1 !! t)) by (by rewrite (b_mods _ _ B)).
  destruct (update_single_ok g1 K1 t fuel H Hm1 ltac:(by rewrite (b_mods _ _ B))) as (H1 & -> & HP). rewrite bind_some.
  destruct (set_igate_priority_total g K fuel t g1 B Hm F2) as (g2 & -> & B2). rewrite bind_some.
  destruct (IH g2 H1 B2 (fun u Hu => Ht u ltac:(by constructor))) as (g3 & H3 & -> & B3 & HL). exists g3, H3. split; [done|]. split; [done|].
  intros x. destruct (HL x) as (L & EL & SL & ML). assert (HB : below g1 t x <-> below g t x) by (split; apply same_below; [by apply same_but_sym|done]).
  destruct (HP x) as [(P1 & P2 & P3 & P4)|[P1 P4]]; rewrite P4 in EL.
  - exists (t :: L). cbn [default from_option] in EL. split; [rewrite EL; unfold id; by rewrite <- app_assoc|]. split; [by constructor|].
    intros u. rewrite !elem_of_cons, ML. split; [intros [->|Hu]|tauto]; [|tauto]. split; [by left|]. split; [done|]. split; [done|]. by apply HB.
  - exists L. split; [done|]. split; [by constructor|]. intros u. rewrite elem_of_cons, ML. split; [tauto|]. intros ([->|Hu] & H2); [|tauto].
    exfalso. apply P1. rewrite HB. tauto.
Qed.

Lemma update_tasks_rise g rank M fuel F : gates_ok g -> layered g rank M -> Z.of_nat M + 3 < 2 ^ 32 ->
  (forall x r n y, F x n -> igs g !! x = Some r -> is_task (ig_module r) = false -> leads g (ig_module r) y -> F y (n + 1)) ->
  forall tasks g1 H g2 H2, same_but g g1 -> (forall t, t ∈ tasks -> is_Some (mods g !! t) /\ forall y, leads g t y -> F y 1) ->
  update_tasks is_task fuel tasks g1 H = Some (g2, H2) -> same_but g g2 /\ rise g F g1 g2 /\ forall t y, t ∈ tasks -> leads g t y -> 1 <= igate_prio g2 y.
Proof.
  intros K HL HM HF. induction tasks as [|t tasks IH]; intros g1 H g2 H2 B Ht; cbn [update_tasks].
  { intros [= <- <-]. split; [done|]. split; [apply rise_refl|]. by intros ? ? ?%elem_of_nil. }
  destruct (UpdateSingleTaskGraph _ _ _ _ _) as [H1|]; [|done]. rewrite bind_some. destruct (Ht t ltac:(constructor)) as [Hm Hf].
  destruct (SetIGatePriority _ _ _ _) as [g3|] eqn:E3; [|done]. rewrite bind_some. intros E2.
  destruct (set_igate_priority_rise g K rank M HL HM F HF fuel t g1 g3 B Hm Hf E3) as (B3 & R3 & P3).
  destruct (IH g3 H1 g2 H2 B3 (fun u Hu => Ht u ltac:(by constructor)) E2) as (B2 & R2 & P2). split; [done|]. split; [by eapply rise_trans|].
  intros u y [->|Hu]%elem_of_cons Hy; [|by apply (P2 u)]. pose proof (u_mono _ _ _ _ R2 y). specialize (P3 y Hy). lia.
Qed.

(** The longest way. *)
Lemma longest_way g rank M fuel tasks H g2 H2 : gates_ok g -> layered g rank M -> Z.of_nat M + 3 < 2 ^ 32 -> (forall t, t ∈ tasks -> is_Some (mods g !! t)) ->
  (forall x, igate_prio g x = 0) -> update_tasks is_task fuel tasks g H = Some (g2, H2) -> forall x,
  (forall t n, t ∈ tasks -> far g t x n -> n <= igate_prio g2 x) /\ (igate_prio g2 x = 0 \/ exists t, t ∈ tasks /\ far g t x (igate_prio g2 x)).
Proof.
  intros K HL HM Ht H0 E. set (F := fun (x : addr) n => exists t, t ∈ tasks /\ far g t x n).
  assert (FS : forall x r n y, F x n -> igs g !! x = Some r -> is_task (ig_module r) = false -> leads g (ig_module r) y -> F y (n + 1)).
  { intros x r n y (t & Hin & Hf) Hr Hk Hy. exists t. split; [done|]. by eapply far_step. }
  assert (F1 : forall t, t ∈ tasks -> is_Some (mods g !! t) /\ forall y, leads g t y -> F y 1).
  { intros t Hin. split; [by apply Ht|]. intros y Hy. exists t. split; [done|]. by constructor. }
  destruct (update_tasks_rise g rank M fuel F K HL HM FS tasks g H g2 H2 (same_but_refl g) F1 E) as (B & [U1 U2 U3] & HN).
  intros x. split; [|rewrite <- (H0 x) at 1; destruct (decide (igate_prio g2 x = igate_prio g x)); [by left|right; by apply U3]].
  intros t n Hin Hf. induction Hf as [x Hx|x r n y Hf IH Hr Hk Hy]; [by apply (HN t)|]. pose proof (far_pos _ _ _ _ Hf).
  assert (Hne : igate_prio g2 x <> igate_prio g x) by (rewrite H0; lia). specialize (U2 x Hne r y Hr Hk Hy). lia.
Qed.

End Spec.

(** ** Places *)

Fixpoint place (cnt : nat) (l : list addr) (h : gmap addr nat) : gmap addr nat :=
  match l with [] => h | x :: l => place (cnt + 1) l (<[x := cnt]> h) end.

Lemma place_other l : forall cnt h x, x ∉ l -> place cnt l h !! x = h !! x.
Proof.
  induction l as [|y l IH]; intros cnt h x Hx; [done|]. apply not_elem_of_cons in Hx as [Hne Hx]. cbn. rewrite IH by done. by rewrite lookup_insert_ne by done.
Qed.

Lemma place_at l : forall cnt h k x, NoDup l -> l !! k = Some x -> place cnt l h !! x = Some (cnt + k)%nat.
Proof.
  induction l as [|y l IH]; intros cnt h k x Hn Hk; [done|]. apply NoDup_cons in Hn as [Hy Hn]. cbn. destruct k as [|k].
  - injection Hk as ->. rewrite place_other by done. rewrite lookup_insert_eq. f_equal. lia.
  - cbn in Hk. rewrite (IH _ _ k x Hn Hk). f_equal. lia.
Qed.

Lemma set_places_ok cmp `{!WeakOrder cmp} fuel : forall q cnt h, heap cmp q -> (length q <= fuel)%nat ->
  exists l, l ≡ₚ q /\ set_places cmp fuel q cnt h = Some ((cnt + length q)%nat, place cnt l h) /\
    forall j k x y, l !! j = Some x -> l !! k = Some y -> (j < k)%nat -> cmp x y = false.
Proof.
  induction fuel as [|fuel IH]; intros q cnt h Hq Hle.
  - destruct q; [|cbn in Hle; lia]. exists []. cbn. rewrite Nat.add_0_r. done.
  - destruct q as [|x v]; [exists []; cbn; rewrite Nat.add_0_r; done|]. destruct (pop_ok cmp x v Hq) as (q & E & Hh & Pq).
    pose proof (top_max cmp x v Hq) as Ht. destruct (IH q (cnt + 1)%nat (<[x := cnt]> h) Hh) as (l & Pl & El & Hs); [rewrite Pq; cbn in Hle; lia|].
    exists (x :: l). split; [by rewrite Pl, Pq|]. split.
    + cbn [set_places top head]. rewrite E, bind_some, El, Pq. cbn [place length]. do 2 f_equal. lia.
    + intros [|j] k y z Hy Hz Hlt; destruct k as [|k]; try lia; cbn in Hy, Hz; [|apply (Hs j k y z Hy Hz); lia]. injection Hy as <-.
      apply Ht. rewrite <- Pq, <- Pl. by eapply list_elem_of_lookup_2.
Qed.

#[export] Instance igate_order g : WeakOrder (IGateGreater g).
Proof. split; unfold IGateGreater; intros; lia. Qed.

#[export] Instance addr_order : WeakOrder ogate_less.
Proof. split; unfold ogate_less; intros *; rewrite ?Pos.ltb_lt, ?Pos.ltb_ge; unfold addr in *; lia. Qed.

Section Places.
Context (g : graph) (K : gates_ok g).

Definition outs (m : addr) : list addr := match mods g !! m with Some c => omap id (ogates_ c) | None => [] end.

Lemma outs_spec m og : og ∈ outs m <-> exists o, ogs g !! og = Some o /\ og_module o = m.
Proof.
  unfold outs. split.
  - destruct (mods g !! m) as [c|] eqn:Hc; [|by intros ?%elem_of_nil]. intros (x & [k Hk]%list_elem_of_lookup & E)%list_elem_of_omap. cbn in E. subst x.
    destruct (k_slot g K m k og) as (o & Ho & Hm & _); [by exists c|]. by exists o.
  - intros (o & Ho & <-). destruct (k_og g K og o Ho) as (c & -> & Hk). apply list_elem_of_omap. exists (Some og). split; [by eapply list_elem_of_lookup_2|done].
Qed.

Lemma outs_nodup m : NoDup (outs m).
Proof.
  unfold outs. destruct (mods g !! m) as [c|] eqn:Hc; [|apply NoDup_nil_2].
  assert (HI : forall j k og, ogates_ c !! j = Some (Some og) -> ogates_ c !! k = Some (Some og) -> j = k).
  { intros j k og Hj Hk. destruct (k_slot g K m j og) as (o & Ho & _ & <-); [by exists c|]. destruct (k_slot g K m k og) as (o' & Ho' & _ & <-); [by exists c|]. congruence. }
  clear Hc. induction (ogates_ c) as [|[og|] l IH]; [apply NoDup_nil_2| |].
  - cbn. apply NoDup_cons. split.
    + intros (x & [k Hk]%list_elem_of_lookup & E)%list_elem_of_omap. cbn in E. subst x. by specialize (HI 0%nat (Datatypes.S k) og eq_refl Hk).
    + apply IH. intros j k v Hj Hk. by injection (HI (Datatypes.S j) (Datatypes.S k) v Hj Hk).
  - cbn. apply IH. intros j k v Hj Hk. by injection (HI (Datatypes.S j) (Datatypes.S k) v Hj Hk).
Qed.

Lemma all_outs all : NoDup all -> (forall m, m ∈ all <-> is_Some (mods g !! m)) -> NoDup (all ≫= outs) /\ forall og, og ∈ (all ≫= outs) <-> is_Some (ogs g !! og).
Proof.
  intros Hn Ha. split.
  - apply NoDup_bind; [|by intros; apply outs_nodup|done]. intros m m' og _ _ (o & Ho & <-)%outs_spec (o' & Ho' & <-)%outs_spec. congruence.
  - intros og. rewrite list_elem_of_bind. split; [by intros (m & (o & -> & _)%outs_spec & _)|]. intros [o Ho]. exists (og_module o). split; [apply outs_spec; by exists o|].
    apply Ha. destruct (k_og g K og o Ho) as (c & -> & _). done.
Qed.

(** The queues hold the output gates [L], and the input gates they lead to, once each. *)
Record queues_ok (L : list addr) (q : queues) : Prop := {
  q_oheap : heap ogate_less q.1.1;
  q_ogates : q.1.1 ≡ₚ L;
  q_iheap : heap (IGateGreater g) q.1.2;
  q_once : NoDup q.1.2;
  q_pushed : forall i, i ∈ q.1.2 <-> i ∈ q.2;
  q_igates : forall i, i ∈ q.2 <-> exists og o, og ∈ L /\ ogs g !! og = Some o /\ igate_ o = Some i
}.

Lemma push_gates_ok l : forall L q, queues_ok L q -> (forall og, og ∈ l -> is_Some (ogs g !! og)) -> exists q', push_gates g l q = Some q' /\ queues_ok (l ++ L) q'.
Proof.
  induction l as [|og l IH]; intros L [[oq iq] pushed] [Q1 Q2 Q3 Q4 Q5 Q6] Hl; cbn [push_gates fst snd] in *.
  { eexists. split; [done|]. by split. }
  destruct (push_ok ogate_less og oq Q1) as (oq' & -> & H1 & P1). rewrite bind_some. destruct (Hl og ltac:(by constructor)) as [o Ho].
  rewrite Ho, bind_some. destruct (k_up g K og o Ho) as (i & r & Hi & Hr & _). rewrite Hi, bind_some.
  match goal with |- exists _, ?x ≫= _ = _ /\ _ => set (e := x) end.
  assert (Hq : exists q1, e = Some q1 /\ queues_ok (og :: L) q1).
  { unfold e. clear e. assert (HG : forall j, (exists v o', v ∈ og :: L /\ ogs g !! v = Some o' /\ igate_ o' = Some j) <-> j = i \/ j ∈ pushed).
    { intros j. rewrite Q6. split.
      - intros (v & o' & [->|Hv]%elem_of_cons & H2 & H3); [left; congruence|right; by exists v, o'].
      - intros [->|(v & o' & Hv & H2)]; [exists og, o; split; [by constructor|done]|exists v, o'; split; [by constructor|done]]. }
    case_decide as E.
    - eexists. split; [done|]. split; cbn [fst snd]; try done; [by rewrite P1, Q2|]. intros j. rewrite HG. set_solver.
    - destruct (push_ok (IGateGreater g) i iq Q3) as (iq' & -> & H2 & P2). rewrite bind_some. eexists. split; [done|]. split; cbn [fst snd]; try done; [by rewrite P1, Q2|..].
      + rewrite P2. apply NoDup_cons. split; [by rewrite Q5|done].
      + intros j. rewrite P2, elem_of_cons, Q5. set_solver.
      + intros j. rewrite HG. set_solver. }
  destruct Hq as (q1 & -> & HQ). rewrite bind_some. destruct (IH (og :: L) q1 HQ (fun v Hv => Hl v ltac:(by constructor))) as (q' & -> & [R1 R2 R3 R4 R5 R6]). exists q'. split; [done|].
  assert (PL : l ++ og :: L ≡ₚ (og :: l) ++ L) by (by rewrite <- Permutation_middle). split; try done; [by rewrite R2, PL|]. intros j. rewrite R6. by setoid_rewrite PL.
Qed.

Lemma push_modules_ok all : forall L q, queues_ok L q -> (forall m, m ∈ all -> is_Some (mods g !! m)) ->
  exists q' L', push_modules g all q = Some q' /\ queues_ok L' q' /\ L' ≡ₚ (all ≫= outs) ++ L.
Proof.
  induction all as [|m all IH]; intros L q Q Hm; cbn [push_modules].
  { exists q, L. split; [done|]. by split. }
  destruct (Hm m ltac:(by constructor)) as [c Hc]. rewrite Hc, bind_some.
  assert (Eo : omap id (ogates_ c) = outs m) by (unfold outs; by rewrite Hc). rewrite Eo.
  destruct (push_gates_ok (outs m) L q Q) as (q1 & -> & Q1); [by intros og (o & -> & _)%outs_spec|]. rewrite bind_some.
  destruct (IH (outs m ++ L) q1 Q1 (fun x Hx => Hm x ltac:(by constructor))) as (q2 & L2 & -> & Q2 & P2). exists q2, L2. split; [done|]. split; [done|].
  rewrite P2, app_assoc. apply Permutation_app_tail, Permutation_app_comm.
Qed.

End Places.

Definition ig_at (tg : task_graph) (i : addr) : nat := default 0%nat (ig_index_ tg !! i).
Definition og_at (tg : task_graph) (o : addr) : nat := default 0%nat (og_index_ tg !! o).

Lemma keys_length {A} (h : gmap addr A) (l : list addr) : NoDup l -> (forall i, i ∈ l <-> is_Some (h !! i)) -> length l = base.size h.
Proof.
  intros Hn Hl. rewrite <- length_map_to_list, <- (length_fmap fst). apply Permutation_length, NoDup_Permutation; [done|apply NoDup_fst_map_to_list|].
  intros i. rewrite Hl, list_elem_of_fmap. split.
  - intros [x Hx]. exists (i, x). split; [done|]. by apply elem_of_map_to_list.
  - intros ([j x] & -> & Hx%elem_of_map_to_list). by exists x.
Qed.

Lemma set_unique_ok all tg : gates_ok (gr tg) -> NoDup all -> (forall m, m ∈ all <-> is_Some (mods (gr tg) !! m)) ->
  exists tg', SetUniqueGateIdx all tg = Some tg' /\ gr tg' = gr tg /\ parent_tasks_ tg' = parent_tasks_ tg /\ task_states tg' = task_states tg /\
    gate_cnt_ tg' = (base.size (igs (gr tg)) + base.size (ogs (gr tg)))%nat /\ indexed (gr tg) (ig_at tg') (og_at tg') (gate_cnt_ tg') /\
    forall i j, is_Some (igs (gr tg) !! i) -> is_Some (igs (gr tg) !! j) -> igate_prio (gr tg) i < igate_prio (gr tg) j -> (ig_at tg' i < ig_at tg' j)%nat.
Proof.
  intros K Hn Ha. set (g := gr tg) in *. unfold SetUniqueGateIdx. fold g.
  assert (Q0 : queues_ok g [] ([], [], ∅)).
  { split; cbn; try done; try apply NoDup_nil_2; try (by intros ? ? ? ?).
    - intros i. set_solver.
    - intros i. split; [set_solver|]. by intros (? & ? & ?%elem_of_nil & _). }
  destruct (push_modules_ok g K all [] _ Q0 (fun m Hm => proj1 (Ha m) Hm)) as ([[oq iq] pushed] & L & -> & [Q1 Q2 Q3 Q4 Q5 Q6] & PL). cbn [fst snd] in *. rewrite bind_some.
  rewrite app_nil_r in PL. destruct (all_outs g K all Hn Ha) as [HN HE]. 
  assert (Hi : forall i, i ∈ iq <-> is_Some (igs g !! i)).
  { intros i. rewrite Q5, Q6. split.
    - intros (og & o & _ & Ho & Hi). destruct (k_up g K og o Ho) as (i' & r & Hi' & Hr & _). assert (i' = i) as -> by congruence. eauto.
    - intros [r Hr]. destruct (k_list g K i r Hr) as (_ & Hne & _). destruct (ogates_upstream r) as [|og us] eqn:Eu; [done|].
      destruct (k_down g K i r og Hr) as (o & Ho & Hio); [rewrite Eu; by constructor|]. exists og, o. split; [|done]. rewrite PL. apply HE. eauto. }
  assert (Ho : forall og, og ∈ oq <-> is_Some (ogs g !! og)) by (intros og; by rewrite Q2, PL).
  destruct (set_places_ok (IGateGreater g) (length iq) iq 0 (ig_index_ tg) Q3 (Nat.le_refl _)) as (li & Pi & -> & Si). rewrite bind_some.
  destruct (set_places_ok ogate_less (length oq) oq (0 + length iq) (og_index_ tg) Q1 (Nat.le_refl _)) as (lo & Po & -> & _). rewrite bind_some.
  assert (Ni : NoDup li) by (by rewrite Pi). assert (No : NoDup lo) by (by rewrite Po, Q2, PL).
  assert (Ai : forall i, is_Some (igs g !! i) -> exists k, li !! k = Some i /\ default 0%nat (place 0 li (ig_index_ tg) !! i) = k /\ (k < length iq)%nat).
  { intros i H. apply Hi in H. rewrite <- Pi in H. apply list_elem_of_lookup in H as [k Hk]. exists k. split; [done|]. rewrite (place_at li 0 _ k i Ni Hk). split; [done|].
    rewrite <- Pi. by apply lookup_lt_Some in Hk. }
  assert (Ao : forall o, is_Some (ogs g !! o) -> exists k, lo !! k = Some o /\ default 0%nat (place (0 + length iq) lo (og_index_ tg) !! o) = (length iq + k)%nat /\ (k < length oq)%nat).
  { intros i H. apply Ho in H. rewrite <- Po in H. apply list_elem_of_lookup in H as [k Hk]. exists k. split; [done|]. rewrite (place_at lo _ _ k i No Hk). split; [done|].
    rewrite <- Po. by apply lookup_lt_Some in Hk. }
  eexists. split; [done|]. do 3 (split; [done|]). unfold ig_at, og_at. cbn [gate_cnt_ ig_index_ og_index_]. split.
  { rewrite (keys_length (igs g) iq Q4 Hi), (keys_length (ogs g) oq); [done|by rewrite <- Po|done]. }
  split; [split|].
  - intros i r Hr. destruct (Ai i ltac:(eauto)) as (k & _ & -> & Hk). lia.
  - intros o r Hr. destruct (Ao o ltac:(eauto)) as (k & _ & -> & Hk). lia.
  - intros i j r s Hr Hs. destruct (Ai i ltac:(eauto)) as (k & Hk & -> & _). destruct (Ai j ltac:(eauto)) as (l & Hl & -> & _). congruence.
  - intros i j r s Hr Hs. destruct (Ao i ltac:(eauto)) as (k & Hk & -> & _). destruct (Ao j ltac:(eauto)) as (l & Hl & -> & _). intros E.
    assert (k = l) by lia. congruence.
  - intros i o r s Hr Hs. destruct (Ai i ltac:(eauto)) as (k & Hk & -> & Hlt). destruct (Ao o ltac:(eauto)) as (l & Hl & -> & _). lia.
  - intros i j Hr Hs Hlt. destruct (Ai i Hr) as (k & Hk & -> & _). destruct (Ai j Hs) as (l & Hl & -> & _).
    destruct (Nat.lt_trichotomy k l) as [H|[H|H]]; [done| |].
    + exfalso. assert (i = j) as -> by congruence. lia.
    + specialize (Si l k j i Hl Hk H). unfold IGateGreater in Si. lia.
Qed.

(** ** The update *)

Lemma room_twice n t : UpdatePerGateBatch n (UpdatePerGateBatch n t) = UpdatePerGateBatch n t.
Proof.
  unfold UpdatePerGateBatch at 1. rewrite decide_False; [done|]. unfold UpdatePerGateBatch. case_decide; [|done]. cbn. rewrite length_resize. lia.
Qed.

Lemma configure_ok n workers : forall l : list TaskState, foldl (fun l (w : bool) => if w then UpdatePerGateBatch n <$> l else l) l workers =
  if existsb id workers then UpdatePerGateBatch n <$> l else l.
Proof.
  induction workers as [|[|] ws IH]; intros l; [done| |exact (IH l)]. cbn [foldl existsb id orb]. rewrite IH. destruct (existsb id ws); [|done].
  rewrite <- list_fmap_compose. apply list_fmap_ext. intros ? t _. apply room_twice.
Qed.

Lemma room_made n t : (n <= length (gate_batch_ (UpdatePerGateBatch n t)))%nat.
Proof. unfold UpdatePerGateBatch. case_decide; cbn; [rewrite length_resize|]; lia. Qed.

Lemma clean_ok tasks : forall h t, t ∈ tasks -> default [] (CleanTaskGraph tasks h !! t) = [].
Proof.
  assert (H : forall us h t, default [] (h !! t) = [] -> default [] (CleanTaskGraph us h !! t) = []).
  { induction us as [|u us IH]; intros h t E; [exact E|]. cbn. apply IH. destruct (decide (t = u)) as [->|Hne]; [by rewrite lookup_insert_eq|by rewrite lookup_insert_ne by done]. }
  induction tasks as [|u us IH]; intros h t Hin; [by apply elem_of_nil in Hin|]. cbn. apply elem_of_cons in Hin as [->|Hin]; [|by apply IH].
  apply H. by rewrite lookup_insert_eq.
Qed.

(** C21. The update of the graph of tasks ends in any graph, cycles included, and
    changes nothing of it but priorities.  Each task then knows, once each, the
    other tasks that feed it through modules that are not tasks; each gate has its
    own place, below [gate_cnt_], with input gates in the order of their
    priorities, and if there is a worker each task has room for all of them.  In
    a graph with layers whose priorities were 0, an input gate has the length of
    the longest way to it from a task, or 0 if there is none. *)
Theorem task_graph_updated is_task tg workers all tasks fuel : gates_ok (gr tg) -> NoDup all -> (forall m, m ∈ all <-> is_Some (mods (gr tg) !! m)) ->
  NoDup tasks -> (forall t, t ∈ tasks <-> t ∈ all /\ is_task t = true) -> changes_made_ tg = true -> (base.size (mods (gr tg)) <= fuel)%nat -> (base.size (igs (gr tg)) < fuel)%nat ->
  exists tg', UpdateTaskGraph is_task fuel workers all tasks tg = Some tg' /\ changes_made_ tg' = false /\ same_but (gr tg) (gr tg') /\
    (forall m, m ∈ tasks -> NoDup (default [] (parent_tasks_ tg' !! m)) /\
      forall t, t ∈ default [] (parent_tasks_ tg' !! m) <-> t ∈ tasks /\ m <> t /\ below is_task (gr tg) t m) /\
    gate_cnt_ tg' = (base.size (igs (gr tg)) + base.size (ogs (gr tg)))%nat /\ indexed (gr tg') (ig_at tg') (og_at tg') (gate_cnt_ tg') /\
    (forall i j, is_Some (igs (gr tg') !! i) -> is_Some (igs (gr tg') !! j) -> igate_prio (gr tg') i < igate_prio (gr tg') j -> (ig_at tg' i < ig_at tg' j)%nat) /\
    task_states tg' = (if existsb id workers then UpdatePerGateBatch (gate_cnt_ tg') <$> task_states tg else task_states tg) /\
    forall rank M, layered (gr tg) rank M -> Z.of_nat M + 3 < 2 ^ 32 -> (forall x, igate_prio (gr tg) x = 0) -> forall x,
      (forall t n, t ∈ tasks -> far is_task (gr tg) t x n -> n <= igate_prio (gr tg') x) /\
      (igate_prio (gr tg') x = 0 \/ exists t, t ∈ tasks /\ far is_task (gr tg) t x (igate_prio (gr tg') x)).
Proof.
  intros K Hn Ha Nt Ht Hc F1 F2. unfold UpdateTaskGraph. rewrite Hc.
  assert (Hm : forall t, t ∈ tasks -> is_Some (mods (gr tg) !! t)) by (intros t [Hin _]%Ht; by apply Ha).
  destruct (update_tasks_ok is_task (gr tg) fuel K F1 F2 tasks (gr tg) (CleanTaskGraph tasks (parent_tasks_ tg)) (same_but_refl _) Hm) as (g2 & H2 & E2 & B2 & HP).
  rewrite E2, bind_some. set (t2 := TaskGraph g2 _ _ _ _ _ _).
  assert (K2 : gates_ok (gr t2)) by (by eapply same_gates_ok). assert (Ha2 : forall m, m ∈ all <-> is_Some (mods (gr t2) !! m)) by (intros m; cbn; by rewrite (b_mods _ _ B2)).
  destruct (set_unique_ok all t2 K2 Hn Ha2) as (t3 & E3 & Eg & Ep & Es & Ec & HX & HO). rewrite E3, bind_some. eexists. split; [done|]. unfold ig_at, og_at in *.
  cbn [changes_made_ gr parent_tasks_ gate_cnt_ ig_index_ og_index_ task_states ConfigureTasks]. rewrite Eg, Ep, Es. split; [done|]. split; [done|]. split; [|split; [|split; [done|split; [done|split]]]].
  - intros m Hin. cbn [t2 parent_tasks_]. destruct (HP m) as (L & EL & SL & HL). rewrite EL, (clean_ok tasks _ m Hin). cbn [app].
    split; [by apply (sublist_NoDup L tasks)|]. intros t. rewrite HL. apply Ht in Hin as [_ Hk]. tauto.
  - rewrite Ec. cbn [t2 gr]. rewrite (b_ogs _ _ B2). f_equal. rewrite <- !(size_dom (D := gset addr)). f_equal. apply set_eq. intros i. rewrite !elem_of_dom.
    pose proof (b_igs _ _ B2 i) as E. by destruct (igs g2 !! i), (igs (gr tg) !! i).
  - cbn [t2 task_states]. by rewrite configure_ok.
  - intros rank M HL HM H0. cbn [t2 gr]. by apply (longest_way is_task (gr tg) rank M fuel tasks (CleanTaskGraph tasks (parent_tasks_ tg)) g2 H2).
Qed.

(** ** On concrete modules *)

Definition ends_only (m : addr) : bool := bool_decide (m <> 2%positive).
Definition before : task_graph := TaskGraph line ∅ ∅ ∅ 0 true [Task ∅ 0 [] None [] []].

Lemma line_modules m : m ∈ [1; 2; 3]%positive <-> is_Some (mods line !! m).
Proof.
  split; [intros [->|[->|[->|?%elem_of_nil]%elem_of_cons]%elem_of_cons]%elem_of_cons; [vm_compute; eauto..|done]|]. intros [c Hc].
  assert (H : map_Forall (fun m _ => m ∈ [1; 2; 3]%positive) (mods line)) by (apply (bool_decide_unpack _); vm_compute; exact I). by apply (H m c).
Qed.

Lemma line_tasks t : t ∈ [1; 3]%positive <-> t ∈ [1; 2; 3]%positive /\ ends_only t = true.
Proof. unfold ends_only. rewrite !elem_of_cons, elem_of_nil, bool_decide_eq_true. unfold addr in *. lia. Qed.

(** From module 1 over 2 to 3, where 1 and 3 have tasks. *)
Lemma task_graph_updated_witness : exists tg', UpdateTaskGraph ends_only 10 [true] [1; 2; 3]%positive [1; 3]%positive before = Some tg' /\
  default [] (parent_tasks_ tg' !! 3%positive) = [1%positive] /\ igate_prio (gr tg') 20%positive = 1 /\ igate_prio (gr tg') 21%positive = 2 /\
  gate_cnt_ tg' = 4%nat /\ (ig_at tg' 20%positive < ig_at tg' 21%positive)%nat /\ indexed (gr tg') (ig_at tg') (og_at tg') 4.
Proof.
  destruct (task_graph_updated ends_only before [true] [1; 2; 3]%positive [1; 3]%positive 10 line_ok) as (tg' & E & _ & HB & _ & Ec & HX & HO & _ & _).
  - by apply (bool_decide_unpack _).
  - apply line_modules.
  - by apply (bool_decide_unpack _).
  - apply line_tasks.
  - done.
  - vm_compute. lia.
  - vm_compute. lia.
  - assert (Ev : ((fun tg => (default [] (parent_tasks_ tg !! 3%positive), igate_prio (gr tg) 20%positive, igate_prio (gr tg) 21%positive)) <$>
      UpdateTaskGraph ends_only 10 [true] [1; 2; 3]%positive [1; 3]%positive before) = Some ([1%positive], 1, 2)) by (vm_compute; reflexivity).
    rewrite E in Ev. cbn [fmap option_fmap option_map] in Ev. injection Ev as E1 E2 E3. change (gate_cnt_ tg' = 4%nat) in Ec. exists tg'. split; [exact E|]. rewrite E1, E2, E3, <- Ec.
    split; [reflexivity|]. split; [reflexivity|]. split; [reflexivity|]. split; [reflexivity|]. split; [|exact HX]. apply HO; [| |rewrite E2, E3; lia].
    + destruct (same_igate line (gr tg') 20%positive (IG 2%positive 0 [10%positive] 0 false []) HB eq_refl) as (r & -> & _). eauto.
    + destruct (same_igate line (gr tg') 21%positive (IG 3%positive 0 [11%positive] 0 false []) HB eq_refl) as (r & -> & _). eauto.
Defined.

(** A gate that is connected after its module has got a priority gets none: it is
    served before the gates it is fed from. *)
Lemma stale_priority :
  (tg ← UpdateTaskGraph ends_only 10 [true] [1; 2; 3]%positive [1; 3]%positive (TaskGraph (connected [(10, 20, 1, 0%nat, 2)]%positive) ∅ ∅ ∅ 0 true []);
   '(g, _) ← ConnectModules 11%positive 21%positive 2%positive 1 3%positive 0 (gr tg);
   tg ← UpdateTaskGraph ends_only 10 [true] [1; 2; 3]%positive [1; 3]%positive (TaskGraph g (parent_tasks_ tg) (ig_index_ tg) (og_index_ tg) (gate_cnt_ tg) true []);
   Some (igate_prio (gr tg) 20%positive, igate_prio (gr tg) 21%positive, ig_at tg 20%positive, ig_at tg 21%positive)) = Some (1, 0, 1%nat, 0%nat).
Proof. by vm_compute. Qed.

(** Places and room are as runs of tasks rely on. *)
Lemma indexed_mono g a b N N' : indexed g a b N -> (N <= N')%nat -> indexed g a b N'.
Proof. intros [X1 X2 X3 X4 X5] Hle. split; try done; [intros i r Hr; specialize (X1 i r Hr); lia|intros o r Hr; specialize (X2 o r Hr); lia]. Qed.

Lemma room_rest {S} n N (s : state S) : at_rest N s -> at_rest (Nat.max N n) (set_task (UpdatePerGateBatch n (task s)) s).
Proof.
  intros [Q1 Q2 Q3 Q4 Q5 Q6 Q7]. unfold UpdatePerGateBatch. case_decide as E; split; cbn [task ctx set_task set_gates gate_batch_ next_gate_ igates_to_run_ dead_batch_]; try done.
  - rewrite length_resize. lia.
  - intros i b Hb. destruct (decide (i < length (gate_batch_ (task s)))%nat) as [Hi|Hi].
    + rewrite lookup_resize in Hb by lia. by apply (Q2 i).
    + rewrite lookup_resize_new in Hb by (apply lookup_lt_Some in Hb; rewrite length_resize in Hb; lia). congruence.
  - lia.
Qed.
