(* ===== verification/Metadata.v ===== *)
(** * Metadata: [metadata.h] and [metadata.cc]

    Modules declare attributes that they write to or read from the metadata of a
    packet.  For each attribute the code finds the parts of the graph of modules
    through which a value travels from its writers to its readers (scope
    components), and gives each component an offset in the 128 bytes of metadata,
    so that components which share a module should not share bytes.

    The state is the graph of modules and the pipeline.  [None] is a null or
    dangling pointer, an index out of range, [back] of an empty vector, or running
    out of fuel.  [std::sort] leaves the order of equal elements open: the sort is
    an argument. *)

From stdpp Require Import strings gmap.
From S2P Require Import Prelude Pool PrioQueue Gates.

(** ** Data *)

Definition kMetadataAttrMaxSize : Z := 32.
Definition kMaxAttrsPerModule : nat := 16.
Definition kMetadataTotalSize : Z := 128.

Definition kMetadataOffsetNoWrite : Z := -1.
Definition kMetadataOffsetNoRead : Z := -2.
Definition kMetadataOffsetNoSpace : Z := -3.

Definition IsValidOffset (offset : Z) : bool := 0 <=? offset.

Record ScopeComponent := SC {
  attr_id_ : string;
  size_ : Z;
  offset_ : Z;
  scope_id_ : Z;
  assigned_ : bool;
  invalid_ : bool;
  modules_ : gset addr;
  degree_ : Z
}.

Record Pipeline := Pipe {
  gr : graph;
  scope_components_ : list ScopeComponent;
  module_scopes_ : gmap addr Z;
  module_components_ : gmap addr (list Z);
  registered_attrs_ : gmap string (Z * Z)
}.

Definition set_gr (g : graph) (p : Pipeline) : Pipeline :=
  Pipe g (scope_components_ p) (module_scopes_ p) (module_components_ p) (registered_attrs_ p).
Definition set_components (l : list ScopeComponent) (p : Pipeline) : Pipeline :=
  Pipe (gr p) l (module_scopes_ p) (module_components_ p) (registered_attrs_ p).
Definition set_scopes (s : gmap addr Z) (p : Pipeline) : Pipeline :=
  Pipe (gr p) (scope_components_ p) s (module_components_ p) (registered_attrs_ p).
Definition set_arrays (s : gmap addr (list Z)) (p : Pipeline) : Pipeline :=
  Pipe (gr p) (scope_components_ p) (module_scopes_ p) s (registered_attrs_ p).
Definition set_registered (r : gmap string (Z * Z)) (p : Pipeline) : Pipeline :=
  Pipe (gr p) (scope_components_ p) (module_scopes_ p) (module_components_ p) r.

Definition empty_component : ScopeComponent := SC "" 0 0 0 false false ∅ 0.

Definition set_offset (o : Z) (c : ScopeComponent) : ScopeComponent :=
  SC (attr_id_ c) (size_ c) o (scope_id_ c) (assigned_ c) (invalid_ c) (modules_ c) (degree_ c).
Definition set_assigned (b : bool) (c : ScopeComponent) : ScopeComponent :=
  SC (attr_id_ c) (size_ c) (offset_ c) (scope_id_ c) b (invalid_ c) (modules_ c) (degree_ c).
Definition set_invalid (b : bool) (c : ScopeComponent) : ScopeComponent :=
  SC (attr_id_ c) (size_ c) (offset_ c) (scope_id_ c) (assigned_ c) b (modules_ c) (degree_ c).
Definition set_scope_id (i : Z) (c : ScopeComponent) : ScopeComponent :=
  SC (attr_id_ c) (size_ c) (offset_ c) i (assigned_ c) (invalid_ c) (modules_ c) (degree_ c).
Definition add_module (m : addr) (c : ScopeComponent) : ScopeComponent :=
  SC (attr_id_ c) (size_ c) (offset_ c) (scope_id_ c) (assigned_ c) (invalid_ c) ({[ m ]} ∪ modules_ c) (degree_ c).
Definition set_kind (id : string) (size : Z) (c : ScopeComponent) : ScopeComponent :=
  SC id size (offset_ c) (scope_id_ c) (assigned_ c) (invalid_ c) (modules_ c) (degree_ c).
Definition incr_degree (c : ScopeComponent) : ScopeComponent :=
  SC (attr_id_ c) (size_ c) (offset_ c) (scope_id_ c) (assigned_ c) (invalid_ c) (modules_ c) (degree_ c + 1).

Definition DisjointFrom (x y : ScopeComponent) : bool := bool_decide (modules_ x ∩ modules_ y = ∅).

(** ** Offsets *)

Definition align_floor (v align : Z) : Z := u64 (v - v mod align).
Definition align_ceil (v align : Z) : Z := align_floor (u64 (u64 (v + align) - 1)) align.

Definition align_ceil_pow2 (v : Z) : Z :=
  let v := u64 (v - 1) in
  let v := Z.lor v (Z.shiftr v 1) in
  let v := Z.lor v (Z.shiftr v 2) in
  let v := Z.lor v (Z.shiftr v 4) in
  let v := Z.lor v (Z.shiftr v 8) in
  let v := Z.lor v (Z.shiftr v 16) in
  let v := Z.lor v (Z.shiftr v 32) in
  u64 (v + 1).

Definition i8 (x : Z) : Z := to_signed 8 x.

(** The remainder by 0 is undefined. *)
Definition ComputeNextOffset (curr_offset size : Z) : option Z :=
  let rounded_size := i8 (align_ceil_pow2 (u64 size)) in
  guard (rounded_size <> 0);;
  let curr_offset := if Z.rem curr_offset rounded_size =? 0 then curr_offset else i8 (align_ceil (u64 curr_offset) (u64 rounded_size)) in
  let overflow := u32 (u32 curr_offset + u32 size) in
  Some (if kMetadataTotalSize <? overflow then kMetadataOffsetNoSpace else curr_offset).

(** ** Scope components *)

(** [back]. *)
Definition upd_back (f : ScopeComponent -> ScopeComponent) (p : Pipeline) : option Pipeline :=
  c ← last (scope_components_ p);
  Some (set_components (removelast (scope_components_ p) ++ [f c]) p).

(** The number of the current component, as the marks hold it, and as it is. *)
Definition current (p : Pipeline) : Z := to_signed 32 (Z.of_nat (length (scope_components_ p))).
Definition current_mark (p : Pipeline) : Z := to_signed 16 (current p).

Definition scope_of (m : addr) (p : Pipeline) : Z := default 0 (module_scopes_ p !! m).
Definition set_scope (m : addr) (s : Z) (p : Pipeline) : Pipeline := set_scopes (<[m := s]> (module_scopes_ p)) p.

Definition AddModuleToComponent (m : addr) (attr : Attribute) (p : Pipeline) : option Pipeline :=
  c ← last (scope_components_ p);
  if decide (m ∈ modules_ c) then Some p
  else upd_back (fun c => add_module m (if decide (modules_ c = ∅) then set_kind (a_name attr) (a_size attr) c else c)) p.

(** The attribute of [m] with the name of [attr], and where it is. *)
Definition FindAttr (m : addr) (attr : Attribute) (p : Pipeline) : option (option (nat * Attribute)) :=
  c ← mods (gr p) !! m; Some (list_find (fun it => a_name it = a_name attr) (attrs_ c)).

Definition set_attr_scope (s : Z) (a : Attribute) : Attribute := Attr (a_name a) (a_size a) (mode a) s.

(** [attr->scope_id = s] for attribute [i] of [m]. *)
Definition put_scope_id (m : addr) (i : nat) (s : Z) (p : Pipeline) : option Pipeline :=
  g ← upd_mod m (fun c => set_attrs (alter (set_attr_scope s) i (attrs_ c)) c) (gr p); Some (set_gr g p).

(** The modules at the other ends of the gates. *)
Fixpoint upstream_of (g : graph) (l : list (option addr)) : option (list addr) :=
  match l with
  | [] => Some []
  | None :: l => upstream_of g l
  | Some i :: l =>
      r ← igs g !! i;
      ms ← mapM (fun og => o ← ogs g !! og; Some (og_module o)) (ogates_upstream r);
      ms' ← upstream_of g l; Some (ms ++ ms')
  end.

Fixpoint downstream_of (g : graph) (l : list (option addr)) : option (list addr) :=
  match l with
  | [] => Some []
  | None :: l => downstream_of g l
  | Some og :: l =>
      o ← ogs g !! og; i ← igate_ o; r ← igs g !! i;
      ms ← downstream_of g l; Some (ig_module r :: ms)
  end.

Definition prev_modules (m : addr) (p : Pipeline) : option (list addr) := c ← mods (gr p) !! m; upstream_of (gr p) (igates_ c).
Definition next_modules (m : addr) (p : Pipeline) : option (list addr) := c ← mods (gr p) !! m; downstream_of (gr p) (ogates_ c).

Fixpoint each {S : Type} (f : addr -> S -> option S) (l : list addr) (s : S) : option S :=
  match l with
  | [] => Some s
  | x :: l => s ← f x s; each f l s
  end.

Definition writes (found : option (nat * Attribute)) : bool :=
  match found with Some (_, a) => bool_decide (mode a = kWrite) | None => false end.

(** The traversals call each other.  That of the modules downstream answers
    whether the module belongs to the component. *)
Fixpoint TraverseUpstream (fuel : nat) (m : addr) (attr : Attribute) (p : Pipeline) : option Pipeline :=
  match fuel with
  | O => None
  | S fuel =>
      p ← AddModuleToComponent m attr p;
      found_attr ← FindAttr m attr p;
      if writes found_attr then
        match found_attr with
        | Some (i, a) => if scope_id a =? -1 then IdentifyScopeComponent fuel m i a p else Some p
        | None => None
        end
      else if scope_of m p =? current p then Some p
      else
        let p := set_scope m (current_mark p) p in
        prev ← prev_modules m p;
        p ← each (fun x p => TraverseUpstream fuel x attr p) prev p;
        c ← mods (gr p) !! m;
        if decide (igates_ c = []) then upd_back (set_invalid true) p else Some p
  end
with TraverseDownstream (fuel : nat) (m : addr) (attr : Attribute) (p : Pipeline) : option (Pipeline * bool) :=
  match fuel with
  | O => None
  | S fuel =>
      if scope_of m p =? current p then Some (p, false)
      else
        let p := set_scope m (current_mark p) p in
        found_attr ← FindAttr m attr p;
        next ← next_modules m p;
        match found_attr with
        | Some (i, a) =>
            if decide (mode a = kWrite) then Some (set_scope m (-1) p, false)
            else
              p ← AddModuleToComponent m a p;
              p ← put_scope_id m i (current p) p;
              p ← each (fun x p => '(p, _) ← TraverseDownstream fuel x attr p; Some p) next p;
              p ← TraverseUpstream fuel m attr (set_scope m (-1) p);
              Some (p, true)
        | None =>
            '(p, in_scope) ← each (fun x st =>
              '(p, r) ← TraverseDownstream fuel x attr (st.1 : Pipeline); Some (p, st.2 || r)) next (p, false);
            if in_scope : bool then
              p ← AddModuleToComponent m attr p;
              p ← TraverseUpstream fuel m attr (set_scope m (-1) p);
              Some (p, true)
            else Some (p, false)
        end
  end
with IdentifyScopeComponent (fuel : nat) (m : addr) (i : nat) (attr : Attribute) (p : Pipeline) : option Pipeline :=
  match fuel with
  | O => None
  | S fuel =>
      p ← AddModuleToComponent m attr p;
      p ← put_scope_id m i (current p) p;
      let p := set_scope m (current_mark p) p in
      next ← next_modules m p;
      each (fun x p => '(p, _) ← TraverseDownstream fuel x attr p; Some p) next p
  end.

Definition IdentifySingleScopeComponent (fuel : nat) (m : addr) (i : nat) (attr : Attribute) (p : Pipeline) : option Pipeline :=
  p ← IdentifyScopeComponent fuel m i attr (set_components (scope_components_ p ++ [empty_component]) p);
  upd_back (set_scope_id (current_mark p)) p.

(** ** Assigning offsets *)

Definition degree_step (i j : nat) (l : list ScopeComponent) : list ScopeComponent :=
  match l !! i, l !! j with
  | Some x, Some y => if DisjointFrom x y then l else alter incr_degree j (alter incr_degree i l)
  | _, _ => l
  end.

Definition ComputeScopeDegrees (l : list ScopeComponent) : list ScopeComponent :=
  let n := length l in
  foldl (fun l i => foldl (fun l j => degree_step i j l) l (seq (S i) (n - S i))) l (seq 0 n).

(** The heap has the component of the least offset on top. *)
Definition offset_lt (x y : ScopeComponent) : bool := offset_ y <? offset_ x.

Definition no_offset (o : Z) : bool :=
  (o =? kMetadataOffsetNoRead) || (o =? kMetadataOffsetNoWrite) || (o =? kMetadataOffsetNoSpace).

(** The loop that takes the heap apart; it pops once in each of at most [n] rounds. *)
Fixpoint find_space (n : nat) (size offset : Z) (h : list ScopeComponent) : option Z :=
  match top h with
  | None => Some offset
  | Some c =>
      match n with
      | O => None
      | S n =>
          h ← pop offset_lt h;
          if no_offset (offset_ c) then find_space n size offset h
          else if offset_ c <? offset + size then
            offset ← ComputeNextOffset (i8 (offset_ c + size_ c)) (i8 size); find_space n size offset h
          else Some offset
      end
  end.

(** The assigned components that share a module with [c], which is number [i]. *)
Fixpoint gather (i : nat) (c : ScopeComponent) (j : nat) (l h : list ScopeComponent) : option (list ScopeComponent) :=
  match l with
  | [] => Some h
  | d :: l =>
      if decide (i <> j) then
        if negb (DisjointFrom c d) && assigned_ d then h ← push offset_lt d h; gather i c (S j) l h
        else gather i c (S j) l h
      else gather i c (S j) l h
  end.

Definition assign_one (i : nat) (l : list ScopeComponent) : option (list ScopeComponent) :=
  c ← l !! i;
  if invalid_ c then Some (<[i := set_assigned true (set_offset kMetadataOffsetNoRead c)]> l)
  else if assigned_ c || bool_decide (base.size (modules_ c) = 1%nat) then Some l
  else
    h ← gather i c 0 l [];
    offset ← find_space (length h) (size_ c) 0 h;
    Some (<[i := set_assigned true (set_offset (i8 offset) c)]> l).

Fixpoint assign_all (js : list nat) (l : list ScopeComponent) : option (list ScopeComponent) :=
  match js with
  | [] => Some l
  | i :: js => l ← assign_one i l; assign_all js l
  end.

(** The first attribute of [m] with the name gets the offset. *)
Definition set_attr_offset (idx : nat) (offset : Z) (c : Module) : Module :=
  if decide (idx < kMaxAttrsPerModule)%nat then set_offsets (<[idx := offset]> (attr_offsets_ c)) c else c.

Definition fill_attr (id : string) (invalid : bool) (offset : Z) (c : Module) : Module :=
  match list_find (fun it => a_name it = id) (attrs_ c) with
  | Some (k, a) =>
      set_attr_offset k
        (if invalid then if decide (mode a = kRead) then kMetadataOffsetNoRead else kMetadataOffsetNoWrite else offset) c
  | None => c
  end.

(** [arr[offset + l] = i] for [l] below [size]. *)
Fixpoint fill_bytes (size : nat) (offset i : Z) (arr : list Z) : option (list Z) :=
  match size with
  | O => Some arr
  | S size => guard (0 <= offset < Z.of_nat (length arr));; fill_bytes size (offset + 1) i (<[Z.to_nat offset := i]> arr)
  end.

Definition fill_module (i : nat) (c : ScopeComponent) (offset : Z) (m : addr) (p : Pipeline) : option Pipeline :=
  g ← upd_mod m (fill_attr (attr_id_ c) (invalid_ c) offset) (gr p);
  if negb (invalid_ c) && (0 <=? offset) then
    arr ← module_components_ p !! m;
    arr ← fill_bytes (Z.to_nat (size_ c)) offset (to_signed 16 (Z.of_nat i)) arr;
    Some (set_arrays (<[m := arr]> (module_components_ p)) (set_gr g p))
  else Some (set_gr g p).

Definition fill_one (i : nat) (p : Pipeline) : option Pipeline :=
  c ← scope_components_ p !! i;
  let c := if decide (base.size (modules_ c) = 1%nat) then set_offset kMetadataOffsetNoWrite c else c in
  each (fill_module i c (offset_ c)) (elements (modules_ c)) (set_components (<[i := c]> (scope_components_ p)) p).

Fixpoint fill_all (js : list nat) (p : Pipeline) : option Pipeline :=
  match js with
  | [] => Some p
  | i :: js => p ← fill_one i p; fill_all js p
  end.

Definition FillOffsetArrays (p : Pipeline) : option Pipeline := fill_all (seq 0 (length (scope_components_ p))) p.

Definition AssignOffsets (p : Pipeline) : option Pipeline :=
  l ← assign_all (seq 0 (length (scope_components_ p))) (scope_components_ p);
  FillOffsetArrays (set_components l p).

(** ** The whole computation, for the modules [all] *)

Definition prepare_one (m : addr) (p : Pipeline) : option Pipeline :=
  g ← upd_mod m (fun c => set_attrs (map (set_attr_scope (-1)) (attrs_ c)) c) (gr p);
  Some (set_arrays (<[m := replicate (Z.to_nat kMetadataTotalSize) (-1)]> (module_components_ p)) (set_scope m (-1) (set_gr g p))).

Definition PrepareMetadataComputation (all : list addr) (p : Pipeline) : option Pipeline := each prepare_one all p.

Definition CleanupMetadataComputation (p : Pipeline) : Pipeline := set_components [] (set_scopes ∅ (set_arrays ∅ p)).

(** The loop over the attributes of [m], from number [i]. *)
Fixpoint scan_attrs (fuel : nat) (m : addr) (n i : nat) (p : Pipeline) : option Pipeline :=
  match n with
  | O => Some p
  | S n =>
      c ← mods (gr p) !! m;
      a ← attrs_ c !! i;
      g ← upd_mod m (set_attr_offset i (if decide (mode a = kWrite) then kMetadataOffsetNoWrite else kMetadataOffsetNoRead)) (gr p);
      let p := set_gr g p in
      p ← (if decide (mode a = kWrite) then if scope_id a =? -1 then IdentifySingleScopeComponent fuel m i a p else Some p else Some p);
      scan_attrs fuel m n (S i) p
  end.

Definition scan_module (fuel : nat) (m : addr) (p : Pipeline) : option Pipeline :=
  c ← mods (gr p) !! m; scan_attrs fuel m (length (attrs_ c)) 0 p.

Definition ComputeMetadataOffsets (sort : list ScopeComponent -> list ScopeComponent) (fuel : nat) (all : list addr) (p : Pipeline) :
    option Pipeline :=
  p ← PrepareMetadataComputation all p;
  p ← each (scan_module fuel) all p;
  p ← AssignOffsets (set_components (sort (ComputeScopeDegrees (scope_components_ p))) p);
  Some (CleanupMetadataComputation p).

(** ** Attributes *)

Definition RegisterAttribute (attr_name : string) (size : Z) (p : Pipeline) : Pipeline * Z :=
  match registered_attrs_ p !! attr_name with
  | None => (set_registered (<[attr_name := (size, 1)]> (registered_attrs_ p)) p, 0)
  | Some (registered_size, count) =>
      if registered_size =? size then (set_registered (<[attr_name := (registered_size, to_signed 32 (count + 1))]> (registered_attrs_ p)) p, 0)
      else (p, - EINVAL)
  end.

Definition DeregisterAttribute (attr_name : string) (p : Pipeline) : Pipeline :=
  match registered_attrs_ p !! attr_name with
  | None => p
  | Some (size, count) =>
      let count := to_signed 32 (count - 1) in
      if count =? 0 then set_registered (delete attr_name (registered_attrs_ p)) p
      else set_registered (<[attr_name := (size, count)]> (registered_attrs_ p)) p
  end.

Definition AddMetadataAttr (m : addr) (name : string) (size : Z) (md : AccessMode) (p : Pipeline) : option (Pipeline * Z) :=
  c ← mods (gr p) !! m;
  if decide (kMaxAttrsPerModule <= length (attrs_ c))%nat then Some (p, - ENOSPC)
  else if String.eqb name "" then Some (p, - EINVAL)
  else if (size <? 1) || (kMetadataAttrMaxSize <? size) then Some (p, - EINVAL)
  else if existsb (fun it => String.eqb (a_name it) name) (attrs_ c) then Some (p, - EEXIST)
  else
    let '(p, ret) := RegisterAttribute name size p in
    if negb (ret =? 0) then Some (p, ret)
    else
      g ← upd_mod m (fun c => set_attrs (attrs_ c ++ [Attr name size md (-1)]) c) (gr p);
      Some (set_gr g p, Z.of_nat (length (attrs_ c))).

Definition DeregisterAllAttributes (m : addr) (p : Pipeline) : option Pipeline :=
  c ← mods (gr p) !! m; Some (foldl (fun p it => DeregisterAttribute (a_name it) p) p (attrs_ c)).
