(* ===== verification/MetaOffsets.v ===== *)
(** * Offsets of metadata: specification and proofs

    Components that share a module get bytes that do not overlap, if any two
    neighbours of a component are of the same size or share a module themselves
    ([crowded]); without that the search takes back what it has skipped
    ([overlapping_offsets]). *)

From stdpp Require Import strings gmap.
From S2P Require Import Prelude Pool PrioQueue Gates Metadata.

(** ** The next offset *)

Definition round_up (e size : Z) : Z := let r := align_ceil_pow2 size in r * ((e + r - 1) / r).

Definition next_offset (e size : Z) : Z :=
  if kMetadataTotalSize <? round_up e size + size then kMetadataOffsetNoSpace else round_up e size.

Definition upto (n : nat) : list Z := Z.of_nat <$> seq 1 n.

Lemma upto_spec n x : 1 <= x <= Z.of_nat n -> x ∈ upto n.
Proof. intros Hx. apply list_elem_of_fmap. exists (Z.to_nat x). rewrite elem_of_seq. lia. Qed.

(** All cases. *)
Lemma next_offset_all :
  forallb (fun e => forallb (fun size =>
    bool_decide (ComputeNextOffset (i8 e) (i8 size) = Some (next_offset e size)) && (e <=? round_up e size) &&
    (round_up e size mod align_ceil_pow2 size =? 0) && (size <=? align_ceil_pow2 size) && (i8 (next_offset e size) =? next_offset e size))
    (upto 32)) (upto 128) = true.
Proof. by vm_compute. Qed.

Lemma next_offset_ok e size : 1 <= e <= 128 -> 1 <= size <= 32 ->
  ComputeNextOffset (i8 e) (i8 size) = Some (next_offset e size) /\ e <= round_up e size /\
  round_up e size mod align_ceil_pow2 size = 0 /\ i8 (next_offset e size) = next_offset e size.
Proof.
  intros He Hs. pose proof next_offset_all as H. rewrite forallb_forall in H.
  specialize (H e (proj1 (list_elem_of_In _ _) (upto_spec 128 e He))). rewrite forallb_forall in H.
  specialize (H size (proj1 (list_elem_of_In _ _) (upto_spec 32 size Hs))). rewrite !andb_true_iff in H.
  destruct H as ((((H1%bool_decide_eq_true & H2) & H3) & _) & H4). split; [done|]. lia.
Qed.

#[local] Opaque ComputeNextOffset align_ceil_pow2 round_up.

#[export] Instance offset_order : WeakOrder offset_lt.
Proof. split; unfold offset_lt; intros; lia. Qed.

(** ** Placing components *)

Definition ends (c : ScopeComponent) : Z := offset_ c + size_ c.

(** The component has bytes. *)
Definition placed (c : ScopeComponent) : Prop := assigned_ c = true /\ 0 <= offset_ c.

Definition apart (c d : ScopeComponent) : Prop := ends c <= offset_ d \/ ends d <= offset_ c.

Definition share (c d : ScopeComponent) : Prop := DisjointFrom c d = false.

Lemma share_sym c d : share c d -> share d c.
Proof. unfold share, DisjointFrom. by rewrite (intersection_comm_L (modules_ c)). Qed.

(** An offset as the code assigns it. *)
Definition offset_ok (c : ScopeComponent) : Prop :=
  (offset_ c = kMetadataOffsetNoSpace \/ offset_ c = kMetadataOffsetNoRead \/ 0 <= offset_ c) /\
  (0 <= offset_ c -> ends c <= kMetadataTotalSize /\ offset_ c mod align_ceil_pow2 (size_ c) = 0).

Definition size_ok (c : ScopeComponent) : Prop := 1 <= size_ c <= kMetadataAttrMaxSize.

Section Search.
Context (size : Z) (Hsize : 1 <= size <= kMetadataAttrMaxSize).

(** The answer of the search among [l]: the first byte, or where a neighbour
    ends, rounded up. *)
Definition found_in (l : list ScopeComponent) (o : Z) : Prop :=
  o = 0 \/ exists d, d ∈ l /\ 0 <= offset_ d /\ o = next_offset (ends d) size.

Definition clear_of (o : Z) (d : ScopeComponent) : Prop := 0 <= offset_ d -> o + size <= offset_ d \/ ends d <= o.

(** Intervals that begin in order end in order. *)
Definition ends_in_order (l : list ScopeComponent) : Prop :=
  forall d e, d ∈ l -> e ∈ l -> 0 <= offset_ d <= offset_ e -> ends d <= ends e.

Lemma find_space_ok all : forall n h past o,
  heap offset_lt h -> length h = n -> past ++ h ≡ₚ all ->
  (forall d, d ∈ all -> offset_ok d /\ size_ok d) ->
  (forall d e, d ∈ past -> e ∈ h -> offset_ d <= offset_ e) ->
  found_in all o -> (ends_in_order all -> 0 <= o -> forall d, d ∈ past -> 0 <= offset_ d -> ends d <= o) ->
  exists o', find_space n size o h = Some o' /\ found_in all o' /\ (ends_in_order all -> 0 <= o' -> forall d, d ∈ all -> clear_of o' d).
Proof.
  induction n as [|n IH]; intros h past o Hh Hl P Hok Hle Hf Hpast.
  { destruct h; [|done]. exists o. split; [done|]. split; [done|]. intros Hmono Ho d Hd Hd0. right. apply Hpast; [done|done| |done].
    rewrite <- P, app_nil_r in Hd. done. }
  destruct h as [|c h]; [done|]. cbn [find_space top head]. destruct (pop_ok offset_lt c h Hh) as (h' & -> & Hh' & P'). rewrite bind_some.
  assert (Hc : c ∈ all) by (rewrite <- P; apply elem_of_app; right; constructor).
  assert (Hmin : forall d, d ∈ h -> offset_ c <= offset_ d).
  { intros d Hd. pose proof (top_max offset_lt c h Hh d Hd) as E. unfold offset_lt in E. lia. }
  assert (Hnext : forall o2, found_in all o2 -> (ends_in_order all -> 0 <= o2 -> forall d, d ∈ past ++ [c] -> 0 <= offset_ d -> ends d <= o2) ->
    exists o', find_space n size o2 h' = Some o' /\ found_in all o' /\ (ends_in_order all -> 0 <= o' -> forall d, d ∈ all -> clear_of o' d)).
  { intros o2 Hf2 Hp2. apply (IH h' (past ++ [c]) o2); try done.
    - by rewrite P'; injection Hl.
    - rewrite P', <- P, <- app_assoc. done.
    - intros d e [Hd| ->%list_elem_of_singleton]%elem_of_app He; rewrite P' in He; [|by apply Hmin].
      apply Hle; [done|by constructor]. }
  destruct (Hok c Hc) as [[Hcase Hbound] Hsz]. unfold size_ok, kMetadataAttrMaxSize, kMetadataTotalSize in *.
  destruct (no_offset (offset_ c)) eqn:Eno.
  { apply Hnext; [done|]. intros Hmono Ho d [Hd| ->%list_elem_of_singleton]%elem_of_app Hd0; [by apply Hpast|].
    unfold no_offset, kMetadataOffsetNoRead, kMetadataOffsetNoWrite, kMetadataOffsetNoSpace in Eno. lia. }
  assert (Hc0 : 0 <= offset_ c).
  { unfold no_offset in Eno. destruct Hcase as [E|[E|E]]; [rewrite E in Eno; done|rewrite E in Eno; done|done]. }
  specialize (Hbound Hc0) as [Hend _]. unfold ends in Hend.
  destruct (offset_ c <? o + size) eqn:Elt.
  - destruct (next_offset_ok (offset_ c + size_ c) size ltac:(lia) ltac:(lia)) as (-> & Hr & _ & _). rewrite bind_some.
    apply Hnext; [right; by exists c|]. intros Hmono Ho d Hd Hd0. unfold next_offset in *. unfold kMetadataOffsetNoSpace in Ho.
    destruct (kMetadataTotalSize <? _); [lia|]. etrans; [|exact Hr]. change (ends d <= ends c).
    apply elem_of_app in Hd as [Hd| ->%list_elem_of_singleton]; [|done]. apply Hmono; [rewrite <- P; apply elem_of_app; by left|done|].
    split; [done|]. apply Hle; [done|constructor].
  - exists o. split; [done|]. split; [done|]. intros Hmono Ho d Hd Hd0. rewrite <- P in Hd. apply elem_of_app in Hd as [Hd|Hd]; [right; by apply Hpast|left].
    apply elem_of_cons in Hd as [->|Hd]; [lia|]. specialize (Hmin d Hd). lia.
Qed.

End Search.

(** The neighbours of [c] that have been assigned. *)
Lemma gather_ok i c : forall l j h, heap offset_lt h ->
  exists h', gather i c j l h = Some h' /\ heap offset_lt h' /\
    (forall d, d ∈ h' <-> d ∈ h \/ exists k, l !! k = Some d /\ (j + k)%nat <> i /\ share c d /\ assigned_ d = true).
Proof.
  induction l as [|d l IH]; intros j h Hh; cbn [gather].
  { exists h. split; [done|]. split; [done|]. intros e. split; [by left|]. by intros [|(k & ? & _)]. }
  assert (Hskip : (~ (j <> i /\ share c d /\ assigned_ d = true)) -> exists h', gather i c (S j) l h = Some h' /\ heap offset_lt h' /\
    (forall e, e ∈ h' <-> e ∈ h \/ exists k, (d :: l) !! k = Some e /\ (j + k)%nat <> i /\ share c e /\ assigned_ e = true)).
  { intros Hno. destruct (IH (S j) h Hh) as (h' & -> & Hh' & Hin). exists h'. split; [done|]. split; [done|]. intros e. rewrite Hin. split.
    - intros [?|(k & Hk & Hne & Hs)]; [by left|right]. exists (S k). split; [done|]. split; [lia|done].
    - intros [?|([|k] & Hk & Hne & Hs)]; [by left| |right; exists k; split; [done|]; split; [lia|done]].
      injection Hk as <-. destruct Hno. split; [lia|done]. }
  destruct (decide (i <> j)) as [Hij|Hij]; [|apply Hskip; intros [? _]; lia].
  destruct (negb (DisjointFrom c d) && assigned_ d) eqn:Eb; [|apply Hskip; intros (_ & Hs & Ha); unfold share in Hs; by rewrite Hs, Ha in Eb].
  apply andb_true_iff in Eb as [Es%negb_true_iff Ea]. destruct (push_ok offset_lt d h Hh) as (h1 & -> & Hh1 & P). rewrite bind_some.
  destruct (IH (S j) h1 Hh1) as (h' & -> & Hh' & Hin). exists h'. split; [done|]. split; [done|]. intros e. rewrite Hin, P, elem_of_cons. split.
  - intros [[->|?]|(k & Hk & Hne & Hs)]; [right; exists O; split; [done|]; split; [lia|done]|by left|right; exists (S k); split; [done|]; split; [lia|done]].
  - intros [?|([|k] & Hk & Hne & Hs)]; [left; by right|injection Hk as <-; left; by left|right; exists k; split; [done|]; split; [lia|done]].
Qed.

(** All but the offset. *)
Definition same_kind (c d : ScopeComponent) : Prop :=
  attr_id_ d = attr_id_ c /\ size_ d = size_ c /\ modules_ d = modules_ c /\ invalid_ d = invalid_ c.

Lemma same_share c d c' d' : same_kind c c' -> same_kind d d' -> share c' d' <-> share c d.
Proof. intros (_ & _ & E1 & _) (_ & _ & E2 & _). unfold share, DisjointFrom. by rewrite E1, E2. Qed.

(** Neighbours of a component are of the same size or neighbours themselves. *)
Definition crowded (l : list ScopeComponent) : Prop :=
  forall i j k c d e, l !! i = Some c -> l !! j = Some d -> l !! k = Some e -> i <> j -> i <> k -> j <> k ->
    share c d -> share c e -> size_ d = size_ e \/ share d e.

(** A component that is read somewhere. *)
Definition needs_bytes (c : ScopeComponent) : Prop := invalid_ c = false /\ base.size (modules_ c) <> 1%nat.

(** The components after those before number [n] have been assigned. *)
Record packed (l0 l : list ScopeComponent) (n : nat) : Prop := {
  p_kind : Forall2 same_kind l0 l;
  p_later : forall k c, l !! k = Some c -> (n <= k)%nat -> assigned_ c = false;
  p_offset : forall k c, l !! k = Some c -> (k < n)%nat -> invalid_ c = true -> offset_ c = kMetadataOffsetNoRead;
  p_single : forall k c, l !! k = Some c -> invalid_ c = false -> base.size (modules_ c) = 1%nat -> assigned_ c = false;
  p_done : forall k c, l !! k = Some c -> (k < n)%nat -> needs_bytes c -> assigned_ c = true;
  p_ok : forall k c, l !! k = Some c -> assigned_ c = true -> offset_ c = kMetadataOffsetNoRead \/ offset_ok c;
  p_space : forall k c, l !! k = Some c -> needs_bytes c -> assigned_ c = true -> offset_ c < 0 ->
    exists j d, l !! j = Some d /\ j <> k /\ share c d /\ placed d /\ kMetadataTotalSize < round_up (ends d) (size_ c) + size_ c;
  p_apart : crowded l0 -> forall j k c d, l !! j = Some c -> l !! k = Some d -> j <> k -> placed c -> placed d -> share c d -> apart c d
}.

(** Where intervals of neighbours begin in order, they end in order. *)
Lemma ends_order c d : size_ok c -> size_ok d -> (size_ c = size_ d \/ apart c d) -> offset_ c <= offset_ d -> ends c <= ends d.
Proof. unfold size_ok, apart, ends. lia. Qed.

(** Assigning an offset to component [n]. *)
Lemma packed_step l0 l n c o :
  packed l0 l n -> l !! n = Some c ->
  (invalid_ c = true -> o = kMetadataOffsetNoRead) -> (needs_bytes c \/ invalid_ c = true) ->
  let c' := set_assigned true (set_offset o c) in
  (o = kMetadataOffsetNoRead \/ offset_ok c') ->
  (needs_bytes c -> o < 0 -> exists j d, l !! j = Some d /\ j <> n /\ share c d /\ placed d /\ kMetadataTotalSize < round_up (ends d) (size_ c) + size_ c) ->
  (crowded l0 -> 0 <= o -> forall j d, l !! j = Some d -> j <> n -> placed d -> share c d -> apart c' d) ->
  packed l0 (<[n := c']> l) (S n).
Proof.
  intros [Kk Kl Ko K1 Kd Kok Ks Ka] Hn Hinv Hnb c' Hok Hsp Hap. pose proof (lookup_lt_Some _ _ _ Hn) as Hlt.
  assert (Hin : forall k x, <[n := c']> l !! k = Some x -> (k = n /\ x = c') \/ (k <> n /\ l !! k = Some x)).
  { intros k x. destruct (decide (n = k)) as [<-|]; [rewrite list_lookup_insert_eq by done; intros [= <-]; by left|].
    rewrite list_lookup_insert_ne by done. right. split; [by intros ->|done]. }
  assert (Hout : forall k x, k <> n -> l !! k = Some x -> <[n := c']> l !! k = Some x) by (intros; by rewrite list_lookup_insert_ne).
  split.
  - destruct (Forall2_lookup_r _ _ _ _ _ Kk Hn) as (c0 & Hc0 & Hs). rewrite <- (list_insert_id l0 n c0) by done. by apply Forall2_insert.
  - intros k x [[-> ->]|[Hk Hx]]%Hin Hle; [lia|]. apply (Kl k x Hx). lia.
  - intros k x [[-> ->]|[Hk Hx]]%Hin Hle Hi; [by apply Hinv|]. apply (Ko k x Hx); [lia|done].
  - intros k x [[-> ->]|[Hk Hx]]%Hin Hi H1; [cbn in *; destruct Hnb as [[_ ?]|?]; [done|congruence]|]. by apply (K1 k x Hx).
  - intros k x [[-> ->]|[Hk Hx]]%Hin Hle Hi; [done|]. apply (Kd k x Hx); [lia|done].
  - intros k x [[-> ->]|[Hk Hx]]%Hin Ha; [done|]. by apply (Kok k x Hx).
  - intros k x [[-> ->]|[Hk Hx]]%Hin Hnd Ha Ho.
    + destruct (Hsp Hnd Ho) as (j & d & Hj & Hne & Hs). exists j, d. split; [by apply Hout|]. split; [done|exact Hs].
    + destruct (Ks k x Hx Hnd Ha Ho) as (j & d & Hj & Hne & Hs & Hp & Hr). exists j, d. split; [|done]. apply Hout; [|done].
      intros ->. rewrite Hn in Hj. injection Hj as <-. destruct Hp as [Hp _]. rewrite (Kl n c Hn) in Hp by lia. done.
  - intros Hcr j k x y [[-> ->]|[Hj Hx]]%Hin [[-> ->]|[Hk Hy]]%Hin Hne Hpx Hpy Hs; [done| | |by apply (Ka Hcr j k)].
    + apply (Hap Hcr (proj2 Hpx) k); done.
    + destruct (Hap Hcr (proj2 Hpy) j x) as [?|?]; [done|done|done|by apply share_sym|by right|by left].
Qed.

Lemma packed_skip l0 l n c :
  packed l0 l n -> l !! n = Some c -> invalid_ c = false -> base.size (modules_ c) = 1%nat -> packed l0 l (S n).
Proof.
  intros [Kk Kl Ko K1 Kd Kok Ks Ka] Hn Hi Hs. split; try done.
  - intros k x Hx Hle. apply (Kl k x Hx). lia.
  - intros k x Hx Hle Hix. destruct (decide (k = n)) as [->|]; [rewrite Hn in Hx; injection Hx as <-; congruence|]. apply (Ko k x Hx); [lia|done].
  - intros k x Hx Hle Hnd. destruct (decide (k = n)) as [->|]; [rewrite Hn in Hx; injection Hx as <-; by destruct Hnd|]. apply (Kd k x Hx); [lia|done].
Qed.

Lemma kind_back l0 l k c : Forall2 same_kind l0 l -> l !! k = Some c -> exists c0, l0 !! k = Some c0 /\ same_kind c0 c.
Proof. intros F Hk. destruct (Forall2_lookup_r _ _ _ _ _ F Hk) as (c0 & ? & ?). eauto. Qed.

(** What an offset found among neighbours is. *)
Lemma found_ok size h o :
  1 <= size <= 32 -> (forall d, d ∈ h -> 0 <= offset_ d -> size_ok d /\ ends d <= kMetadataTotalSize) -> found_in size h o ->
  i8 o = o /\ (o = kMetadataOffsetNoSpace \/ 0 <= o /\ o + size <= kMetadataTotalSize /\ o mod align_ceil_pow2 size = 0) /\
  (o < 0 -> exists d, d ∈ h /\ 0 <= offset_ d /\ kMetadataTotalSize < round_up (ends d) size + size).
Proof.
  intros Hs Hok [->|(d & Hd & Hd0 & ->)].
  - unfold kMetadataTotalSize. split; [done|]. split; [right; split; [done|]; split; [lia|done]|lia].
  - destruct (Hok d Hd Hd0) as [Hsd Hend]. unfold size_ok, kMetadataAttrMaxSize in Hsd.
    assert (He : 1 <= ends d <= 128) by (unfold ends, kMetadataTotalSize in *; lia).
    destruct (next_offset_ok (ends d) size He Hs) as (_ & Hr & Hm & Hi8). split; [exact Hi8|].
    unfold next_offset in *. destruct (kMetadataTotalSize <? round_up (ends d) size + size) eqn:El.
    + split; [by left|]. intros _. exists d. split; [done|]. split; [done|]. by apply Z.ltb_lt.
    + apply Z.ltb_ge in El. split; [right; split; [lia|]; by split|lia].
Qed.

(** The search for component [n] among its neighbours. *)
Lemma search_ok l0 l n c0 c h :
  (forall c, c ∈ l0 -> size_ok c) -> packed l0 l n -> l0 !! n = Some c0 -> l !! n = Some c -> heap offset_lt h ->
  (forall d, d ∈ h -> exists k, l !! k = Some d /\ k <> n /\ share c d /\ assigned_ d = true) ->
  exists o, find_space (length h) (size_ c) 0 h = Some o /\ found_in (size_ c) h o /\ (crowded l0 -> 0 <= o -> forall d, d ∈ h -> clear_of (size_ c) o d) /\
    (forall d, d ∈ h -> 0 <= offset_ d -> size_ok d /\ ends d <= kMetadataTotalSize).
Proof.
  intros Hsz K Hn0 Hn Hh Hnb. pose proof (p_kind _ _ _ K) as Kk.
  assert (Hsizes : forall k x, l !! k = Some x -> size_ok x).
  { intros k x Hx. destruct (kind_back _ _ _ _ Kk Hx) as (x0 & Hx0 & E). unfold size_ok. destruct E as (_ & -> & _). apply Hsz. by eapply list_elem_of_lookup_2. }
  assert (Hok : forall d, d ∈ h -> offset_ok d /\ size_ok d).
  { intros d Hd. destruct (Hnb d Hd) as (k & Hk & _ & _ & Had). split; [|by eapply Hsizes].
    destruct (p_ok _ _ _ K k d Hk Had) as [E|E]; [|done]. unfold offset_ok. rewrite E. unfold kMetadataOffsetNoRead. split; [auto|lia]. }
  destruct (find_space_ok (size_ c) (Hsizes n c Hn) h (length h) h [] 0 Hh eq_refl ltac:(done) Hok) as (o & Eo & Hf & Hclear).
  2: { by left. }
  { by intros d e ?%elem_of_nil. }
  { by intros _ _ d ?%elem_of_nil. }
  exists o. split; [done|]. split; [done|]. split.
  - intros Hcr. apply Hclear. intros d e Hd He [Hd0 Hde]. destruct (Hnb d Hd) as (j & Hj & Hjn & Hjs & Hja). destruct (Hnb e He) as (k & Hk & Hkn & Hks & Hka).
    destruct (decide (j = k)) as [->|Hjk]; [rewrite Hj in Hk; by injection Hk as ->|].
    apply ends_order; [by eapply Hsizes..| |done].
    destruct (kind_back _ _ _ _ Kk Hn) as (c1 & Hc1 & Hk0). rewrite Hn0 in Hc1. injection Hc1 as <-.
    destruct (kind_back _ _ _ _ Kk Hj) as (d0 & Hd00 & Ed). destruct (kind_back _ _ _ _ Kk Hk) as (e0 & He00 & Ee).
    destruct (Hcr n j k c0 d0 e0 Hn0 Hd00 He00) as [E|E]; [congruence..|by apply (same_share _ _ _ _ Hk0 Ed)|by apply (same_share _ _ _ _ Hk0 Ee)| |].
    + left. destruct Ed as (_ & -> & _), Ee as (_ & -> & _). done.
    + right. apply (p_apart _ _ _ K Hcr j k d e Hj Hk Hjk); [by split|split; [done|lia]|by apply (same_share _ _ _ _ Ed Ee)].
  - intros d Hd Hd0. destruct (Hok d Hd) as [[_ Hb] Hs]. split; [done|]. by apply Hb.
Qed.

Lemma assign_one_ok l0 l n c0 :
  (forall c, c ∈ l0 -> size_ok c) -> packed l0 l n -> l0 !! n = Some c0 ->
  exists l', assign_one n l = Some l' /\ packed l0 l' (S n).
Proof.
  intros Hsz K Hn0. destruct (Forall2_lookup_l _ _ _ _ _ (p_kind _ _ _ K) Hn0) as (c & Hn & Hk0).
  unfold assign_one. rewrite Hn, bind_some. destruct (invalid_ c) eqn:Einv.
  { eexists. split; [done|]. apply (packed_step l0 l n c); try done; [by right|by left|intros [? _]; congruence]. }
  rewrite (p_later _ _ _ K n c Hn) by lia. cbn [orb]. case_bool_decide as Es.
  { exists l. split; [done|]. by apply (packed_skip l0 l n c). }
  destruct (gather_ok n c l 0 [] (heap_nil offset_lt)) as (h & -> & Hh & Hin). rewrite bind_some.
  assert (Hnb : forall d, d ∈ h -> exists k, l !! k = Some d /\ k <> n /\ share c d /\ assigned_ d = true).
  { intros d Hd. apply Hin in Hd as [Hd|(k & Hk & Hne & Hs)]; [by apply elem_of_nil in Hd|]. by exists k. }
  destruct (search_ok l0 l n c0 c h Hsz K Hn0 Hn Hh Hnb) as (o & -> & Hf & Hclear & Hends). rewrite bind_some.
  assert (Hsc : 1 <= size_ c <= 32) by (destruct Hk0 as (_ & -> & _); apply Hsz; by eapply list_elem_of_lookup_2).
  destruct (found_ok (size_ c) h o Hsc Hends Hf) as (-> & Hcase & Hwhy). eexists. split; [done|].
  apply (packed_step l0 l n c); [done|done|congruence|by left| | |].
  - right. split; cbn; [destruct Hcase as [?|[? _]]; auto|]. intros H0. unfold ends. cbn. destruct Hcase as [E|[_ Hc]]; [by rewrite E in H0|done].
  - intros _ Hneg. destruct (Hwhy Hneg) as (d & Hd & Hd0 & Hr). destruct (Hnb d Hd) as (k & Hk & Hkn & Hks & Hka). exists k, d. by split_and!.
  - intros Hcr H0 k d Hk Hkn [Hda Hd0] Hs. destruct (Hclear Hcr H0 d) with (2 := Hd0) as [E|E]; [apply Hin; right; by exists k|by left|by right].
Qed.

Lemma assign_all_ok l0 : (forall c, c ∈ l0 -> size_ok c) -> forall js n l,
  js = seq n (length l0 - n) -> (n <= length l0)%nat -> packed l0 l n ->
  exists l', assign_all js l = Some l' /\ packed l0 l' (length l0).
Proof.
  intros Hsz. induction js as [|j js IH]; intros n l Ej Hn K.
  - assert (n = length l0) as -> by (destruct (length l0 - n)%nat eqn:E; [lia|done]). by exists l.
  - destruct (length l0 - n)%nat as [|r] eqn:Er; [done|]. injection Ej as -> ->. cbn [assign_all].
    destruct (lookup_lt_is_Some_2 l0 n ltac:(lia)) as [c0 Hc0].
    destruct (assign_one_ok l0 l n c0 Hsz K Hc0) as (l1 & -> & K1). rewrite bind_some.
    apply (IH (S n)); [f_equal; lia|lia|done].
Qed.

Lemma packed_start l0 : (forall c, c ∈ l0 -> assigned_ c = false) -> packed l0 l0 0.
Proof.
  intros H. assert (Hk : forall k c, l0 !! k = Some c -> assigned_ c = false) by (intros k c Hc; apply H; by eapply list_elem_of_lookup_2).
  split; try lia.
  - apply Forall2_same_length_lookup. split; [done|]. intros i c d Hc Hd. rewrite Hc in Hd. by injection Hd as ->.
  - intros k c Hc _. by apply (Hk k).
  - intros k c Hc _ _. by apply (Hk k).
  - intros k c Hc Ha. by rewrite (Hk k c Hc) in Ha.
  - intros k c Hc _ Ha. by rewrite (Hk k c Hc) in Ha.
  - intros _ j k c d Hc _ _ [Ha _]. by rewrite (Hk j c Hc) in Ha.
Qed.

(** ** Filling in the offsets *)

(** The component as [FillOffsetArrays] sees it: one that nothing reads has no offset. *)
Definition final (c : ScopeComponent) : ScopeComponent :=
  if decide (base.size (modules_ c) = 1%nat) then set_offset kMetadataOffsetNoWrite c else c.

(** Module [m] after component [d] has been filled in. *)
Definition fill_with (m : addr) (c : Module) (d : ScopeComponent) : Module :=
  if decide (m ∈ modules_ d) then fill_attr (attr_id_ d) (invalid_ d) (offset_ d) c else c.

(** Modules and arrays exist for the modules of [l]. *)
Definition ready (l : list ScopeComponent) (p : Pipeline) : Prop :=
  forall d m, d ∈ l -> m ∈ modules_ d -> is_Some (mods (gr p) !! m) /\
    exists arr, module_components_ p !! m = Some arr /\ length arr = Z.to_nat kMetadataTotalSize.

(** The same gates, and the same modules but for their offsets. *)
Definition same_wires (p q : Pipeline) : Prop :=
  igs (gr q) = igs (gr p) /\ ogs (gr q) = ogs (gr p) /\ registered_attrs_ q = registered_attrs_ p.

Lemma same_wires_trans p q r : same_wires p q -> same_wires q r -> same_wires p r.
Proof. intros (A1 & A2 & A3) (B1 & B2 & B3). split_and!; congruence. Qed.

Lemma fill_bytes_ok i : forall size offset arr, 0 <= offset -> offset + Z.of_nat size <= Z.of_nat (length arr) ->
  exists arr', fill_bytes size offset i arr = Some arr' /\ length arr' = length arr.
Proof.
  induction size as [|size IH]; intros offset arr H0 Hle; cbn [fill_bytes]; [by exists arr|].
  rewrite option_guard_True by lia. destruct (IH (offset + 1) (<[Z.to_nat offset := i]> arr)) as (arr' & -> & E).
  - lia.
  - rewrite length_insert. lia.
  - exists arr'. by rewrite length_insert in E.
Qed.

Lemma fill_module_ok l i c m p :
  ready l p -> c ∈ l -> m ∈ modules_ c -> (invalid_ c = false -> 0 <= offset_ c -> ends c <= kMetadataTotalSize /\ 0 <= size_ c) ->
  exists p', fill_module i c (offset_ c) m p = Some p' /\ ready l p' /\ same_wires p p' /\ scope_components_ p' = scope_components_ p /\
    (forall x, mods (gr p') !! x = (if decide (x = m) then fill_attr (attr_id_ c) (invalid_ c) (offset_ c) else id) <$> mods (gr p) !! x).
Proof.
  intros R Hc Hm Hb. unfold fill_module, upd_mod. destruct (R c m Hc Hm) as ([x Hx] & arr & Harr & Hlen). rewrite Hx, !bind_some.
  set (g := with_mods _ _). assert (Hg : forall y, mods g !! y = (if decide (y = m) then fill_attr (attr_id_ c) (invalid_ c) (offset_ c) else id) <$> mods (gr p) !! y).
  { intros y. cbn. destruct (decide (y = m)) as [->|]; [by rewrite lookup_insert_eq, Hx|]. rewrite lookup_insert_ne by done. by destruct (mods (gr p) !! y). }
  assert (Rg : forall y, is_Some (mods g !! y) <-> is_Some (mods (gr p) !! y)) by (intros y; by rewrite Hg, fmap_is_Some).
  destruct (negb (invalid_ c) && (0 <=? offset_ c)) eqn:E.
  - apply andb_true_iff in E as [Ei%negb_true_iff Eo%Z.leb_le]. destruct (Hb Ei Eo) as [He Hs]. rewrite Harr, bind_some.
    destruct (fill_bytes_ok (to_signed 16 (Z.of_nat i)) (Z.to_nat (size_ c)) (offset_ c) arr Eo) as (arr' & -> & Hl').
    { unfold ends in He. rewrite Hlen. lia. }
    rewrite bind_some. eexists. split; [done|]. split; [|by split_and!]. intros d y Hd Hy. destruct (R d y Hd Hy) as (Hs' & arr2 & Harr2 & Hl2).
    split; [by apply Rg|]. cbn. destruct (decide (m = y)) as [->|]; [exists arr'; by rewrite lookup_insert_eq, Hl'|exists arr2; by rewrite lookup_insert_ne].
  - eexists. split; [done|]. split; [|by split_and!]. intros d y Hd Hy. destruct (R d y Hd Hy) as [Hs' Harr2]. split; [by apply Rg|done].
Qed.

Lemma fill_modules_ok l i c : forall ms p,
  ready l p -> c ∈ l -> (forall m, m ∈ ms -> m ∈ modules_ c) -> NoDup ms ->
  (invalid_ c = false -> 0 <= offset_ c -> ends c <= kMetadataTotalSize /\ 0 <= size_ c) ->
  exists p', each (fill_module i c (offset_ c)) ms p = Some p' /\ ready l p' /\ same_wires p p' /\ scope_components_ p' = scope_components_ p /\
    (forall x, mods (gr p') !! x = (if decide (x ∈ ms) then fill_attr (attr_id_ c) (invalid_ c) (offset_ c) else id) <$> mods (gr p) !! x).
Proof.
  induction ms as [|m ms IH]; intros p R Hc Hms Hnd Hb; cbn [each].
  { exists p. split; [done|]. split; [done|]. split; [done|]. split; [done|]. intros x. rewrite decide_False by apply not_elem_of_nil. by destruct (mods (gr p) !! x). }
  apply NoDup_cons in Hnd as [Hno Hnd].
  destruct (fill_module_ok l i c m p R Hc (Hms m ltac:(by constructor)) Hb) as (p1 & -> & R1 & W1 & E1 & M1). rewrite bind_some.
  destruct (IH p1 R1 Hc (fun x Hx => Hms x ltac:(by constructor)) Hnd Hb) as (p' & -> & R' & W' & E' & M').
  exists p'. split; [done|]. split; [done|]. split; [by apply (same_wires_trans _ p1)|]. split; [by rewrite E'|]. intros x. rewrite M', M1.
  destruct (decide (x = m)) as [->|Hx].
  - rewrite decide_False by done. rewrite decide_True by constructor. by destruct (mods (gr p) !! m).
  - destruct (decide (x ∈ ms)); [rewrite decide_True by (by constructor)|rewrite decide_False by (by intros [?|?]%elem_of_cons)]; by destruct (mods (gr p) !! x).
Qed.

(** The components keep their modules. *)
Lemma final_kind c : same_kind c (final c) /\ assigned_ (final c) = assigned_ c.
Proof. unfold final. by case_decide. Qed.

Lemma fill_all_ok l0 : forall js n l p,
  js = seq n (length l - n) -> (n <= length l)%nat -> scope_components_ p = l -> ready l0 p ->
  (forall d, d ∈ drop n l -> final d ∈ l0) ->
  (forall d, d ∈ drop n l -> invalid_ (final d) = false -> 0 <= offset_ (final d) -> ends (final d) <= kMetadataTotalSize /\ 0 <= size_ (final d)) ->
  exists p', fill_all js p = Some p' /\ ready l0 p' /\ same_wires p p' /\ scope_components_ p' = take n l ++ (final <$> drop n l) /\
    (forall x, mods (gr p') !! x = (fun c => foldl (fill_with x) c (final <$> drop n l)) <$> mods (gr p) !! x).
Proof.
  induction js as [|j js IH]; intros n l p Ej Hn Ep R Hl0 Hb.
  - assert (n = length l) as -> by (destruct (length l - n)%nat eqn:E; [lia|done]). exists p. split; [done|]. split; [done|]. split; [done|].
    rewrite drop_all, take_ge, app_nil_r by lia. split; [done|]. intros x. cbn. by destruct (mods (gr p) !! x).
  - destruct (length l - n)%nat as [|r] eqn:Er; [done|]. injection Ej as -> ->. cbn [fill_all].
    destruct (lookup_lt_is_Some_2 l n ltac:(lia)) as [c Hc]. pose proof (drop_S l c n Hc) as Ed. rewrite Ed in Hl0, Hb.
    unfold fill_one. rewrite Ep, Hc, bind_some. fold (final c). set (l1 := <[n := final c]> l).
    assert (E1 : drop (S n) l1 = drop (S n) l) by (unfold l1; apply drop_insert_lt; lia).
    assert (T1 : take (S n) l1 = take n l ++ [final c]).
    { unfold l1. rewrite (take_S_r _ _ (final c)) by (apply list_lookup_insert_eq; lia). by rewrite take_insert_ge by lia. }
    destruct (fill_modules_ok l0 n (final c) (elements (modules_ (final c))) (set_components l1 p)) as (p1 & E & R1 & W1 & C1 & M1).
    + exact R.
    + apply Hl0. by constructor.
    + intros m. by rewrite elem_of_elements.
    + apply NoDup_elements.
    + apply Hb. by constructor.
    + rewrite E, bind_some. cbn [scope_components_ set_components] in C1.
      destruct (IH (S n) l1 p1) as (p' & -> & R' & W' & C' & M'); [unfold l1; rewrite length_insert; f_equal; lia|unfold l1; rewrite length_insert; lia|done|done| | |].
      * intros d Hd. rewrite E1 in Hd. apply Hl0. by constructor.
      * intros d Hd. rewrite E1 in Hd. apply Hb. by constructor.
      * exists p'. split; [done|]. split; [done|]. split; [by apply (same_wires_trans _ p1)|]. rewrite E1 in *. split; [rewrite C', T1, Ed; cbn; by rewrite <- app_assoc|].
        intros x. rewrite M', M1, Ed. cbn [fmap list_fmap foldl]. cbn [gr set_components]. destruct (mods (gr p) !! x) as [cx|]; [|done]. cbn. f_equal. f_equal.
        unfold fill_with. destruct (decide (x ∈ modules_ (final c))) as [H|H]; [rewrite decide_True by (by apply elem_of_elements)|rewrite decide_False by (by rewrite elem_of_elements)]; done.
Qed.

(** What a component gives to an attribute. *)
Definition given (d : ScopeComponent) (a : Attribute) : Z :=
  if invalid_ d then if decide (mode a = kRead) then kMetadataOffsetNoRead else kMetadataOffsetNoWrite else offset_ d.

(** The names of the attributes of a module are different, and there is room for the offsets. *)
Definition attrs_ok (c : Module) : Prop :=
  NoDup (a_name <$> attrs_ c) /\ (length (attrs_ c) <= kMaxAttrsPerModule)%nat /\ length (attr_offsets_ c) = kMaxAttrsPerModule.

Lemma find_attr_ok c k a : attrs_ok c -> attrs_ c !! k = Some a ->
  list_find (fun it => a_name it = a_name a) (attrs_ c) = Some (k, a).
Proof.
  intros (Hnd & _ & _) Hk. apply list_find_Some. split; [done|]. split; [done|]. intros j b Hj Hlt E.
  assert (j = k); [|lia]. apply (NoDup_lookup _ _ _ (a_name a) Hnd); rewrite list_lookup_fmap; [by rewrite Hj, <- E|by rewrite Hk].
Qed.

Lemma fill_attr_ok c id inv o : attrs_ok c -> attrs_ (fill_attr id inv o c) = attrs_ c /\ attrs_ok (fill_attr id inv o c).
Proof.
  intros H. unfold fill_attr, set_attr_offset. destruct (list_find _ _) as [[k a]|]; [|done]. case_decide; [|done]. split; [done|].
  destruct H as (H1 & H2 & H3). split; [done|]. split; [done|]. cbn. by rewrite length_insert.
Qed.

Lemma fill_with_ok m c d k a o0 :
  attrs_ok c -> attrs_ c !! k = Some a -> attr_offsets_ c !! k = Some o0 ->
  attrs_ (fill_with m c d) = attrs_ c /\ attrs_ok (fill_with m c d) /\
  attr_offsets_ (fill_with m c d) !! k = Some (if decide (m ∈ modules_ d /\ attr_id_ d = a_name a) then given d a else o0).
Proof.
  intros Hok Ha Ho. unfold fill_with. destruct (decide (m ∈ modules_ d)) as [Hm|Hm].
  2: { split; [done|]. split; [done|]. by rewrite decide_False by (by intros [? _]). }
  destruct (fill_attr_ok c (attr_id_ d) (invalid_ d) (offset_ d) Hok) as [E1 E2]. split; [done|]. split; [done|].
  destruct (decide (m ∈ modules_ d /\ attr_id_ d = a_name a)) as [[_ E]|E].
  - unfold fill_attr. rewrite E, (find_attr_ok c k a Hok Ha). unfold set_attr_offset.
    destruct Hok as (_ & Hl & Hl2). pose proof (lookup_lt_Some _ _ _ Ha). rewrite decide_True by lia. cbn. rewrite list_lookup_insert_eq by lia. done.
  - unfold fill_attr. destruct (list_find _ _) as [[j b]|] eqn:Ef; [|done]. apply list_find_Some in Ef as (Hj & Eb & _).
    unfold set_attr_offset. case_decide; [|done]. cbn. rewrite list_lookup_insert_ne; [done|]. intros ->. destruct E. split; [done|].
    rewrite Ha in Hj. by injection Hj as ->.
Qed.

(** The offset of an attribute comes from the last component of that name with the module. *)
Definition last_of (m : addr) (name : string) (ds : list ScopeComponent) (i : nat) (d : ScopeComponent) : Prop :=
  ds !! i = Some d /\ m ∈ modules_ d /\ attr_id_ d = name /\
  forall j e, (i < j)%nat -> ds !! j = Some e -> ~ (m ∈ modules_ e /\ attr_id_ e = name).

Lemma last_of_inj m name ds i j d e : last_of m name ds i d -> last_of m name ds j e -> d = e.
Proof.
  intros (Hi & Hmi & Ei & Hli) (Hj & Hmj & Ej & Hlj). destruct (decide (i = j)) as [->|Hne]; [congruence|].
  destruct (decide (i < j)%nat); [by destruct (Hli j e)|destruct (Hlj i d); [lia|done|done]].
Qed.

Lemma filled_ok m c k a o0 ds :
  attrs_ok c -> attrs_ c !! k = Some a -> attr_offsets_ c !! k = Some o0 ->
  let c' := foldl (fill_with m) c ds in
  attrs_ c' = attrs_ c /\ attrs_ok c' /\
  ((forall d, d ∈ ds -> ~ (m ∈ modules_ d /\ attr_id_ d = a_name a)) /\ attr_offsets_ c' !! k = Some o0 \/
   exists i d, last_of m (a_name a) ds i d /\ attr_offsets_ c' !! k = Some (given d a)).
Proof.
  intros Hok Ha Ho. induction ds as [|d ds IH] using rev_ind; cbn.
  { split; [done|]. split; [done|]. left. split; [|done]. by intros d ?%elem_of_nil. }
  rewrite foldl_app. cbn [foldl]. set (c1 := foldl (fill_with m) c ds) in *. destruct IH as (E1 & Hok1 & Hcase).
  assert (Ha1 : attrs_ c1 !! k = Some a) by (by rewrite E1).
  assert (Hv : exists v, attr_offsets_ c1 !! k = Some v) by (destruct Hcase as [[_ ?]|(? & ? & _ & ?)]; eauto). destruct Hv as [v Hv].
  destruct (fill_with_ok m c1 d k a v Hok1 Ha1 Hv) as (E2 & Hok2 & Eo). split; [by rewrite E2|]. split; [done|]. rewrite Eo.
  destruct (decide (m ∈ modules_ d /\ attr_id_ d = a_name a)) as [Hd|Hd].
  - right. exists (length ds), d. split; [|done]. split; [by apply list_lookup_middle|]. split; [by apply Hd|]. split; [by apply Hd|].
    intros j e Hj He. apply lookup_lt_Some in He. rewrite length_app in He. cbn in He. lia.
  - destruct Hcase as [[Hno Ev]|(i & e & (Hi & Hm & En & Hlast) & Ev)]; rewrite Hv in Ev.
    + left. split; [|exact Ev]. intros e [He| ->%list_elem_of_singleton]%elem_of_app; [by apply Hno|done].
    + right. exists i, e. split; [|exact Ev]. split; [apply lookup_app_l_Some; done|]. split; [done|]. split; [done|].
      intros j e' Hj He'. apply lookup_app_Some in He' as [He'|[Hlen He']]; [by apply (Hlast j)|].
      apply list_lookup_singleton_Some in He' as [_ <-]. done.
Qed.

(** ** What [AssignOffsets] promises *)

(** Modules are there, with attributes of the sizes of their components, and no
    attribute has an offset yet. *)
Definition fillable (l : list ScopeComponent) (p : Pipeline) : Prop :=
  ready l p /\ forall m c, mods (gr p) !! m = Some c -> attrs_ok c /\
    (forall a d, a ∈ attrs_ c -> d ∈ l -> m ∈ modules_ d -> attr_id_ d = a_name a -> size_ d = a_size a) /\
    (forall k a, attrs_ c !! k = Some a -> exists o, attr_offsets_ c !! k = Some o /\ o < 0).

(** A component that has been assigned, as it is filled in. *)
Lemma final_ok l0 l k c : (forall c, c ∈ l0 -> size_ok c) -> packed l0 l (length l0) -> l !! k = Some c ->
  size_ok (final c) /\ (invalid_ (final c) = false -> 0 <= offset_ (final c) -> placed c /\ final c = c /\ offset_ok c).
Proof.
  intros Hsz K Hk. destruct (kind_back _ _ _ _ (p_kind _ _ _ K) Hk) as (c0 & Hc0 & E).
  assert (Hs : size_ok c) by (unfold size_ok; destruct E as (_ & -> & _); apply Hsz; by eapply list_elem_of_lookup_2).
  unfold final. case_decide as E1; [split; [exact Hs|]; cbn; unfold kMetadataOffsetNoWrite; lia|]. split; [done|]. intros Hi Ho.
  assert (Ha : assigned_ c = true).
  { apply (p_done _ _ _ K k c Hk); [|by split]. apply lookup_lt_Some in Hk. by rewrite (Forall2_length _ _ _ (p_kind _ _ _ K)). }
  split; [by split|]. split; [done|]. destruct (p_ok _ _ _ K k c Hk Ha) as [E2|]; [rewrite E2 in Ho; done|done].
Qed.

Lemma assign_ok p :
  let l := scope_components_ p in
  (forall c, c ∈ l -> assigned_ c = false /\ size_ok c) -> fillable l p ->
  exists l1 p', AssignOffsets p = Some p' /\ packed l l1 (length l) /\ same_wires p p' /\ scope_components_ p' = final <$> l1 /\
    (forall x, mods (gr p') !! x = (fun c => foldl (fill_with x) c (final <$> l1)) <$> mods (gr p) !! x).
Proof.
  intros l Hl [R _]. assert (Hsz : forall c, c ∈ l -> size_ok c) by (intros c Hc; by apply Hl).
  destruct (assign_all_ok l Hsz (seq 0 (length l)) 0 l) as (l1 & E & K); [f_equal; lia|lia|apply packed_start; intros c Hc; by apply Hl|].
  pose proof (p_kind _ _ _ K) as Kk. pose proof (Forall2_length _ _ _ Kk) as Hlen.
  destruct (fill_all_ok (final <$> l1) (seq 0 (length l1)) 0 l1 (set_components l1 p)) as (p' & E' & _ & W' & C' & M'); [f_equal; lia|lia|done| | | |].
  - intros d m Hd Hm. apply list_elem_of_fmap in Hd as (c & -> & Hc). apply list_elem_of_lookup in Hc as [k Hk].
    destruct (kind_back _ _ _ _ Kk Hk) as (c0 & Hc0 & (_ & _ & Em & _)). destruct (final_kind c) as [(_ & _ & Ef & _) _].
    apply (R c0 m); [by eapply list_elem_of_lookup_2|by rewrite <- Em, <- Ef].
  - intros d Hd. apply list_elem_of_fmap. eauto.
  - intros d Hd Hi Ho. rewrite drop_0 in Hd. apply list_elem_of_lookup in Hd as [k Hk].
    destruct (final_ok l l1 k d Hsz K Hk) as [Hs Hf]. destruct (Hf Hi Ho) as (_ & Ef & [_ Hb]). rewrite Ef in *.
    split; [by apply Hb|]. unfold size_ok in Hs. lia.
  - exists l1, p'. unfold AssignOffsets. fold l. rewrite E, bind_some. unfold FillOffsetArrays. cbn [scope_components_ set_components].
    split; [done|]. split; [done|]. split; [exact W'|]. rewrite drop_0 in C', M'. cbn [take app] in C'. split; [done|]. intros x. by rewrite M'.
Qed.

(** Nothing but offsets changes. *)
Definition only_offsets (c c' : Module) : Prop :=
  c' = set_offsets (attr_offsets_ c') c /\ length (attr_offsets_ c') = length (attr_offsets_ c).

Lemma only_offsets_refl c : only_offsets c c.
Proof. split; [by destruct c|done]. Qed.

Lemma only_offsets_trans c d e : only_offsets c d -> only_offsets d e -> only_offsets c e.
Proof. intros [E1 L1] [E2 L2]. split; [|congruence]. rewrite E2, E1. done. Qed.

Lemma only_offsets_set k o c : only_offsets c (set_attr_offset k o c).
Proof. unfold set_attr_offset. case_decide; [split; [done|]; cbn; by rewrite length_insert|apply only_offsets_refl]. Qed.

Lemma fill_keeps m c ds : only_offsets c (foldl (fill_with m) c ds).
Proof.
  induction ds as [|d ds IH] using rev_ind; [apply only_offsets_refl|]. rewrite foldl_app. apply (only_offsets_trans _ _ _ IH).
  cbn [foldl]. unfold fill_with. case_decide; [|apply only_offsets_refl]. unfold fill_attr.
  destruct (list_find _ _) as [[j b]|]; [apply only_offsets_set|apply only_offsets_refl].
Qed.

Lemma only_offsets_attrs c c' : only_offsets c c' -> attrs_ c' = attrs_ c.
Proof. intros [-> _]. done. Qed.

(** Where a valid offset comes from. *)
Lemma from_component p l l1 m c c' k a o :
  fillable l p -> (forall c, c ∈ l -> size_ok c) -> packed l l1 (length l) -> mods (gr p) !! m = Some c ->
  c' = foldl (fill_with m) c (final <$> l1) -> attrs_ c' !! k = Some a -> attr_offsets_ c' !! k = Some o -> 0 <= o ->
  exists i d, last_of m (a_name a) (final <$> l1) i d /\ l1 !! i = Some d /\ placed d /\ offset_ok d /\ o = offset_ d /\ size_ d = a_size a /\
    m ∈ modules_ d /\ attr_id_ d = a_name a /\ needs_bytes d.
Proof.
  intros [R F] Hsz K Hm -> Ha Ho H0. destruct (F m c Hm) as (Hok & Hsize & Hneg).
  rewrite (only_offsets_attrs _ _ (fill_keeps m c _)) in Ha. destruct (Hneg k a Ha) as (o0 & Ho0 & Hlt).
  destruct (filled_ok m c k a o0 (final <$> l1) Hok Ha Ho0) as (_ & _ & [[_ E]|(i & d & Hlast & E)]); [rewrite E in Ho; injection Ho as <-; lia|].
  rewrite E in Ho. injection Ho as <-. pose proof Hlast as (Hi & Hmd & En & _). rewrite list_lookup_fmap in Hi.
  destruct (l1 !! i) as [d1|] eqn:Hd1; [|done]. injection Hi as <-. destruct (final_ok l l1 i d1 Hsz K Hd1) as [_ Hf].
  unfold given in *. destruct (invalid_ (final d1)) eqn:Ei; [case_decide; done|]. destruct (Hf eq_refl H0) as (Hp & Ef & Hof).
  assert (Hnb : needs_bytes d1).
  { split; [by rewrite Ef in Ei|]. intros E1. unfold final in H0. rewrite decide_True in H0 by done. done. }
  rewrite Ef in *. exists i, d1. split; [done|]. split; [done|]. split; [done|]. split; [done|]. split; [done|]. split; [|done].
  destruct (kind_back _ _ _ _ (p_kind _ _ _ K) Hd1) as (d0 & Hd0 & (E1 & E2 & E3 & _)). rewrite E2. apply (Hsize a d0).
  - by eapply list_elem_of_lookup_2.
  - by eapply list_elem_of_lookup_2.
  - by rewrite <- E3.
  - by rewrite <- E1.
Qed.

(** A component without space does not fit behind a neighbour. *)
Lemma space_reason l l1 k c :
  packed l l1 (length l) -> (final <$> l1) !! k = Some c -> needs_bytes c -> 0 <= offset_ c \/
  exists j d, (final <$> l1) !! j = Some d /\ j <> k /\ share c d /\ 0 <= offset_ d /\ kMetadataTotalSize < round_up (ends d) (size_ c) + size_ c.
Proof.
  intros K Hk Hnb. pose proof (p_kind _ _ _ K) as Kk. rewrite list_lookup_fmap in Hk. destruct (l1 !! k) as [c1|] eqn:Hc1; [|done]. injection Hk as <-.
  assert (Ef : final c1 = c1).
  { unfold final in *. destruct (decide (base.size (modules_ c1) = 1%nat)) as [E1|]; [|done]. by destruct Hnb as [_ []]. }
  rewrite Ef in *. destruct (decide (0 <= offset_ c1)) as [|Hneg]; [by left|right].
  assert (Ha : assigned_ c1 = true).
  { apply (p_done _ _ _ K k c1 Hc1); [|done]. apply lookup_lt_Some in Hc1. by rewrite (Forall2_length _ _ _ Kk). }
  destruct (p_space _ _ _ K k c1 Hc1 Hnb Ha ltac:(lia)) as (j & d & Hd & Hne & Hs & [Hpa Hp0] & Hr).
  assert (Efd : final d = d).
  { unfold final. case_decide as E1; [|done]. destruct (invalid_ d) eqn:Ei.
    - assert (Hj : (j < length l)%nat) by (apply lookup_lt_Some in Hd; by rewrite (Forall2_length _ _ _ Kk)).
      rewrite (p_offset _ _ _ K j d Hd Hj Ei) in Hp0. done.
    - by rewrite (p_single _ _ _ K j d Hd Ei E1) in Hpa. }
  exists j, d. rewrite list_lookup_fmap, Hd. cbn. rewrite Efd. done.
Qed.

(** The offset of attribute [a], which is number [k] of [c], where [ds] are the components. *)
Record offset_spec (ds : list ScopeComponent) (m : addr) (c : Module) (k : nat) (a : Attribute) (o : Z) : Prop := {
  o_bounds : 0 <= o -> o + a_size a <= kMetadataTotalSize /\ o mod align_ceil_pow2 (a_size a) = 0;
  o_apart : crowded ds -> forall j b o', j <> k -> attrs_ c !! j = Some b -> attr_offsets_ c !! j = Some o' -> 0 <= o -> 0 <= o' ->
    o + a_size a <= o' \/ o' + a_size b <= o;
  o_component : forall i d, last_of m (a_name a) ds i d -> needs_bytes d -> o = offset_ d;
  o_valid : 0 <= o -> exists i d, last_of m (a_name a) ds i d /\ needs_bytes d
}.

Lemma crowded_kind l l' : Forall2 same_kind l l' -> crowded l' -> crowded l.
Proof.
  intros F H i j k c d e Hc Hd He Hij Hik Hjk S1 S2.
  destruct (Forall2_lookup_l _ _ _ _ _ F Hc) as (c' & Hc' & Ec), (Forall2_lookup_l _ _ _ _ _ F Hd) as (d' & Hd' & Ed), (Forall2_lookup_l _ _ _ _ _ F He) as (e' & He' & Ee).
  destruct (H i j k c' d' e') as [E|E]; try done; [by apply (same_share c d)|by apply (same_share c e)|left|right; by apply (same_share d e) in E].
  destruct Ed as (_ & <- & _), Ee as (_ & <- & _). done.
Qed.

(** [AssignOffsets] as a whole. *)
Lemma offsets_apart p :
  let l := scope_components_ p in
  (forall c, c ∈ l -> assigned_ c = false /\ size_ok c) -> fillable l p ->
  exists p', AssignOffsets p = Some p' /\ Forall2 same_kind l (scope_components_ p') /\ same_wires p p' /\
    (forall m, is_Some (mods (gr p') !! m) <-> is_Some (mods (gr p) !! m)) /\
    (forall m c', mods (gr p') !! m = Some c' -> exists c, mods (gr p) !! m = Some c /\ only_offsets c c' /\
      forall k a, attrs_ c' !! k = Some a -> exists o, attr_offsets_ c' !! k = Some o /\ offset_spec (scope_components_ p') m c' k a o) /\
    (forall k c, scope_components_ p' !! k = Some c -> needs_bytes c -> 0 <= offset_ c \/
      exists j d, scope_components_ p' !! j = Some d /\ j <> k /\ share c d /\ 0 <= offset_ d /\
        kMetadataTotalSize < round_up (ends d) (size_ c) + size_ c).
Proof.
  intros l Hl F. destruct (assign_ok p Hl F) as (l1 & p' & E & K & W & C & M). exists p'. split; [done|].
  assert (Hsz : forall c, c ∈ l -> size_ok c) by (intros c Hc; by apply Hl). pose proof (p_kind _ _ _ K) as Kk. fold l in K, Kk.
  assert (F2 : Forall2 same_kind l (scope_components_ p')).
  { rewrite C. apply Forall2_fmap_r. eapply Forall2_impl; [exact Kk|]. intros c d (E1 & E2 & E3 & E4).
    destruct (final_kind d) as [(F1 & F2 & F3 & F4) _]. split; [congruence|]. split; [congruence|]. split; congruence. }
  split; [exact F2|]. split; [exact W|]. split; [intros m; by rewrite M, fmap_is_Some|]. split; [|rewrite C; intros k c; by apply (space_reason l)].
  intros m c' Hc'. rewrite M in Hc'. destruct (mods (gr p) !! m) as [c|] eqn:Hm; [|done]. injection Hc' as Hc'.
  destruct (proj2 F m c Hm) as (Hok & _ & Hneg).
  assert (Ho1 : only_offsets c c') by (rewrite <- Hc'; apply fill_keeps). pose proof (only_offsets_attrs _ _ Ho1) as Ea.
  exists c. split; [done|]. split; [done|]. intros k a Ha.
  assert (Hoff : exists o, attr_offsets_ c' !! k = Some o /\ (forall i d, last_of m (a_name a) (scope_components_ p') i d -> o = given d a)).
  { rewrite Ea in Ha. destruct (Hneg k a Ha) as (o0 & Ho0 & _).
    destruct (filled_ok m c k a o0 (final <$> l1) Hok Ha Ho0) as (_ & _ & Hcase). rewrite Hc' in Hcase. rewrite C.
    destruct Hcase as [[Hno Ev]|(i & d & Hlast & Ev)]; eexists; (split; [exact Ev|]); intros j e Hj.
    - destruct (Hno e); [eapply list_elem_of_lookup_2; apply Hj|split; apply Hj].
    - by rewrite (last_of_inj _ _ _ _ _ _ _ Hlast Hj). }
  destruct Hoff as (o & Ho & Hgiven). exists o. split; [done|].
  pose proof (fun H0 => from_component p l l1 m c c' k a o F Hsz K Hm (eq_sym Hc') Ha Ho H0) as From. split.
  - intros H0. destruct (From H0) as (i & d & _ & _ & _ & [_ Hb] & -> & <- & _). by apply Hb.
  - intros Hcr%(crowded_kind _ _ F2) j b o' Hjk Hb Ho' H0 H0'. destruct (From H0) as (i & d & _ & Hd & Hpd & _ & -> & <- & Hmd & En & _).
    destruct (from_component p l l1 m c c' j b o' F Hsz K Hm (eq_sym Hc') Hb Ho' H0') as (i' & e & _ & He & Hpe & _ & -> & <- & Hme & En' & _).
    assert (Hne : i <> i').
    { intros <-. rewrite Hd in He. injection He as <-. apply Hjk. rewrite Ea in Ha, Hb. destruct Hok as (Hnd & _).
      apply (NoDup_lookup _ _ _ (a_name a) Hnd); rewrite list_lookup_fmap; [rewrite Hb; cbn; congruence|by rewrite Ha]. }
    apply (p_apart _ _ _ K Hcr i i' d e Hd He Hne Hpd Hpe). unfold share, DisjointFrom. apply bool_decide_eq_false.
    intros Hx. assert (m ∈ modules_ d ∩ modules_ e) as Hin by (by apply elem_of_intersection). rewrite Hx in Hin. by apply elem_of_empty in Hin.
  - intros i d Hlast [Hi _]. rewrite (Hgiven i d Hlast). unfold given. by rewrite Hi.
  - intros H0. destruct (From H0) as (i & d & Hlast & _ & _ & _ & _ & _ & _ & _ & Hnb). exists i, d. by rewrite C.
Qed.

(** ** On concrete graphs *)

(** A pipeline with the modules [ms] and their attributes, and connections [es]. *)
Definition build (ms : list (addr * list (string * Z * AccessMode))) (es : list (addr * nat * addr * nat)) : option Pipeline :=
  let g := Graph (list_to_map (map (fun '(a, _) => (a, Mod "" 8 8 [] (replicate 16 0) [] [])) ms)) ∅ ∅ in
  '(g, _) ← foldl (fun st '(m, k, n, j) => '(g, f) ← st; '(g, _) ← ConnectModules f f m k n j g; Some (g, Pos.succ f))
    (Some (g, 1%positive)) es;
  foldl (fun p '(a, l) => foldl (fun p '(n, s, md) => p ← p; '(p, _) ← AddMetadataAttr a n s md p; Some p) p l) (Some (Pipe g [] ∅ ∅ ∅)) ms.

(** A sort by degree. *)
Fixpoint insert_degree (c : ScopeComponent) (l : list ScopeComponent) : list ScopeComponent :=
  match l with
  | [] => [c]
  | d :: l => if degree_ d <? degree_ c then c :: d :: l else d :: insert_degree c l
  end.

Definition sort_degree (l : list ScopeComponent) : list ScopeComponent := foldl (fun l c => insert_degree c l) [] l.

(** The offsets of the attributes of each module. *)
Definition offsets_of (ms : list (addr * list (string * Z * AccessMode))) (es : list (addr * nat * addr * nat)) : option (list (list Z)) :=
  p ← build ms es; p ← ComputeMetadataOffsets sort_degree 100 (map fst ms) p;
  mapM (fun m => c ← mods (gr p) !! m; Some (take (length (attrs_ c)) (attr_offsets_ c))) (map fst ms).

(** Six modules in a row: the third reads attribute A of 8 bytes at 0 and writes C at 6.
    The neighbours of C are A, B1 at 0 and B2 at 4; the search steps over A and then goes
    back to the end of B2. *)
Lemma overlapping_offsets :
  offsets_of
    [(1%positive, [("d1", 1, kWrite); ("d2", 1, kWrite); ("d3", 1, kWrite)]);
     (2%positive, [("A", 8, kWrite); ("d1", 1, kRead); ("d2", 1, kRead); ("d3", 1, kRead)]);
     (3%positive, [("A", 8, kRead); ("C", 1, kWrite)]);
     (4%positive, [("B1", 4, kWrite); ("B2", 2, kWrite); ("C", 1, kRead)]);
     (5%positive, [("B1", 4, kRead); ("B2", 2, kRead); ("e1", 1, kWrite); ("e2", 1, kWrite)]);
     (6%positive, [("e1", 1, kRead); ("e2", 1, kRead)])]
    [(1%positive, 0%nat, 2%positive, 0%nat); (2%positive, 0%nat, 3%positive, 0%nat); (3%positive, 0%nat, 4%positive, 0%nat);
     (4%positive, 0%nat, 5%positive, 0%nat); (5%positive, 0%nat, 6%positive, 0%nat)]
  = Some [[8; 9; 10]; [0; 8; 9; 10]; [0; 6]; [0; 4; 6]; [0; 4; 6; 7]; [6; 7]].
Proof. by vm_compute. Qed.
