(* ===== verification/MetaScopes.v ===== *)
(** * Scope components: the traversals end

    Whatever the graph of modules, cycles included, the traversals come to an end,
    since each of them first marks a module, or identifies a writer, that was not
    before; and they add only modules that carry the attribute.  They do not find
    all of these (MetaProps.v). *)

From stdpp Require Import strings gmap.
From S2P Require Import Prelude Pool PrioQueue Gates GateProps Metadata MetaOffsets.

(** ** What the traversals leave alone *)

(** A module without the marks of its attributes. *)
Definition strip (c : Module) : Module := set_attrs (map (set_attr_scope 0) (attrs_ c)) c.

(** The same modules, gates and arrays. *)
Definition alike (p q : Pipeline) : Prop :=
  igs (gr q) = igs (gr p) /\ ogs (gr q) = ogs (gr p) /\ module_components_ q = module_components_ p /\
  registered_attrs_ q = registered_attrs_ p /\ forall m, strip <$> mods (gr q) !! m = strip <$> mods (gr p) !! m.

Lemma alike_refl p : alike p p.
Proof. by split_and!. Qed.

Lemma alike_trans p q r : alike p q -> alike q r -> alike p r.
Proof. intros (A1 & A2 & A3 & A4 & A5) (B1 & B2 & B3 & B4 & B5). split_and!; congruence. Qed.

Lemma alike_some p q m c : alike p q -> mods (gr p) !! m = Some c -> exists d, mods (gr q) !! m = Some d /\ strip d = strip c.
Proof.
  intros (_ & _ & _ & _ & A) Hc. specialize (A m). rewrite Hc in A. destruct (mods (gr q) !! m) as [d|]; [|done].
  exists d. split; [done|]. by apply (inj Some) in A.
Qed.

Lemma strip_gates c d : strip d = strip c -> igates_ d = igates_ c /\ ogates_ d = ogates_ c /\ attr_offsets_ d = attr_offsets_ c /\
  map (set_attr_scope 0) (attrs_ d) = map (set_attr_scope 0) (attrs_ c).
Proof. intros E. unfold strip, set_attrs in E. by injection E as _ _ _ ? ? ? ?. Qed.

Lemma alike_upstream p q l : alike p q -> upstream_of (gr q) l = upstream_of (gr p) l.
Proof. intros (A1 & A2 & _). induction l as [|[i|] l IH]; [done| |exact IH]. cbn. by rewrite A1, A2, IH. Qed.

Lemma alike_downstream p q l : alike p q -> downstream_of (gr q) l = downstream_of (gr p) l.
Proof. intros (A1 & A2 & _). induction l as [|[i|] l IH]; [done| |exact IH]. cbn. by rewrite A1, A2, IH. Qed.

Lemma alike_prev p q m : alike p q -> prev_modules m q = prev_modules m p.
Proof.
  intros A. unfold prev_modules. destruct (mods (gr p) !! m) as [c|] eqn:Hc.
  - destruct (alike_some p q m c A Hc) as (d & -> & (E & _)%strip_gates). rewrite !bind_some, E. by apply alike_upstream.
  - pose proof A as (_ & _ & _ & _ & A5). specialize (A5 m). rewrite Hc in A5. by destruct (mods (gr q) !! m).
Qed.

Lemma alike_next p q m : alike p q -> next_modules m q = next_modules m p.
Proof.
  intros A. unfold next_modules. destruct (mods (gr p) !! m) as [c|] eqn:Hc.
  - destruct (alike_some p q m c A Hc) as (d & -> & (_ & E & _)%strip_gates). rewrite !bind_some, E. by apply alike_downstream.
  - pose proof A as (_ & _ & _ & _ & A5). specialize (A5 m). rewrite Hc in A5. by destruct (mods (gr q) !! m).
Qed.

(** The attribute of a name in a list: where it is, and how it is used. *)
Definition role_in (X : string) (l : list Attribute) : option (nat * AccessMode) :=
  '(i, a) ← list_find (fun it => a_name it = X) l; Some (i, mode a).

Lemma role_strip X l : role_in X (map (set_attr_scope 0) l) = role_in X l.
Proof.
  unfold role_in. change (map (set_attr_scope 0) l) with (set_attr_scope 0 <$> l). rewrite list_find_fmap.
  change (list_find _ l) with (list_find (fun it => a_name it = X) l) at 1. by destruct (list_find _ l) as [[i a]|].
Qed.

Lemma alike_role X c d : strip d = strip c -> role_in X (attrs_ d) = role_in X (attrs_ c).
Proof. intros (_ & _ & _ & E)%strip_gates. by rewrite <- role_strip, E, role_strip. Qed.

(** ** The graph *)

Lemma upstream_ok g l : gates_ok g -> (forall i, Some i ∈ l -> is_Some (igs g !! i)) ->
  exists ms, upstream_of g l = Some ms /\ forall x, x ∈ ms ->
    exists i r og o, Some i ∈ l /\ igs g !! i = Some r /\ og ∈ ogates_upstream r /\ ogs g !! og = Some o /\ x = og_module o.
Proof.
  intros K. induction l as [|[i|] l IH]; intros Hl.
  - exists []. split; [done|]. by intros x ?%elem_of_nil.
  - destruct (Hl i ltac:(by constructor)) as [r Hr]. destruct (IH (fun j Hj => Hl j ltac:(by constructor))) as (ms & E & Hms).
    assert (Hm : exists l', mapM (fun og => o ← ogs g !! og; Some (og_module o)) (ogates_upstream r) = Some l' /\
      forall x, x ∈ l' -> exists og o, og ∈ ogates_upstream r /\ ogs g !! og = Some o /\ x = og_module o).
    { pose proof (fun og => k_down _ K i r og Hr) as Hd. induction (ogates_upstream r) as [|og us IHu]; [exists []; split; [done|]; by intros x ?%elem_of_nil|].
      destruct (Hd og ltac:(by constructor)) as (o & Ho & _). destruct (IHu (fun v Hv => Hd v ltac:(by constructor))) as (l' & E' & Hl').
      exists (og_module o :: l'). cbn. rewrite Ho. cbn. cbn in E'. rewrite E'. split; [done|]. intros x [->|Hx]%elem_of_cons.
      - exists og, o. split; [by constructor|done].
      - destruct (Hl' x Hx) as (v & o' & Hv & Hr'). exists v, o'. split; [by constructor|done]. }
    destruct Hm as (l' & E' & Hl'). exists (l' ++ ms). cbn [upstream_of]. rewrite Hr, bind_some, E', bind_some, E, bind_some. split; [done|].
    intros x [Hx|Hx]%elem_of_app.
    + destruct (Hl' x Hx) as (og & o & H1 & H2 & H3). exists i, r, og, o. split; [by constructor|done].
    + destruct (Hms x Hx) as (j & r' & og & o & Hj & H2). exists j, r', og, o. split; [by constructor|done].
  - destruct (IH (fun j Hj => Hl j ltac:(by constructor))) as (ms & E & Hms). exists ms. split; [done|]. intros x Hx.
    destruct (Hms x Hx) as (j & r' & og & o & Hj & H2). exists j, r', og, o. split; [by constructor|done].
Qed.

Lemma downstream_ok g l : gates_ok g -> (forall og, Some og ∈ l -> is_Some (ogs g !! og)) ->
  exists ms, downstream_of g l = Some ms /\ forall x, x ∈ ms <->
    exists og o i r, Some og ∈ l /\ ogs g !! og = Some o /\ igate_ o = Some i /\ igs g !! i = Some r /\ x = ig_module r.
Proof.
  intros K. induction l as [|[og|] l IH]; intros Hl.
  - exists []. split; [done|]. intros x. split; [by intros ?%elem_of_nil|]. by intros (? & ? & ? & ? & ?%elem_of_nil & _).
  - destruct (Hl og ltac:(by constructor)) as [o Ho]. destruct (IH (fun j Hj => Hl j ltac:(by constructor))) as (ms & E & Hms).
    destruct (k_up _ K og o Ho) as (i & r & Hi & Hr & _). exists (ig_module r :: ms). cbn [downstream_of].
    rewrite Ho, bind_some, Hi, bind_some, Hr, bind_some, E, bind_some. split; [done|]. intros x. rewrite elem_of_cons, Hms. split.
    + intros [->|(v & o' & i' & r' & Hv & H2)]; [exists og, o, i, r; split; [by constructor|done]|exists v, o', i', r'; split; [by constructor|done]].
    + intros (v & o' & i' & r' & [[= ->]|Hv]%elem_of_cons & H2 & H3 & H4 & ->); [left; congruence|right; by exists v, o', i', r'].
  - destruct (IH (fun j Hj => Hl j ltac:(by constructor))) as (ms & E & Hms). exists ms. split; [done|]. intros x. rewrite Hms. split.
    + intros (v & o' & i' & r' & Hv & H2). exists v, o', i', r'. split; [by constructor|done].
    + intros (v & o' & i' & r' & [?|Hv]%elem_of_cons & H2); [done|by exists v, o', i', r'].
Qed.

Definition prevs (p : Pipeline) (m : addr) : list addr := default [] (prev_modules m p).
Definition nexts (p : Pipeline) (m : addr) : list addr := default [] (next_modules m p).

Lemma nexts_ok p m c : gates_ok (gr p) -> mods (gr p) !! m = Some c ->
  next_modules m p = Some (nexts p m) /\ forall x, x ∈ nexts p m -> is_Some (mods (gr p) !! x).
Proof.
  intros K Hc. unfold nexts, next_modules. rewrite Hc, bind_some. destruct (downstream_ok (gr p) (ogates_ c) K) as (ms & -> & Hms).
  { intros og [k Hk]%list_elem_of_lookup. destruct (k_slot _ K m k og) as (o & Ho & _); [by exists c|]. eauto. }
  cbn. split; [done|]. intros x (og & o & i & r & _ & _ & _ & Hr & ->)%Hms. destruct (k_ig _ K i r Hr) as (d & Hd & _). eauto.
Qed.

Lemma prevs_ok p m c : gates_ok (gr p) -> mods (gr p) !! m = Some c ->
  prev_modules m p = Some (prevs p m) /\ forall x, x ∈ prevs p m -> is_Some (mods (gr p) !! x) /\ m ∈ nexts p x.
Proof.
  intros K Hc. unfold prevs, prev_modules. rewrite Hc, bind_some. destruct (upstream_ok (gr p) (igates_ c) K) as (ms & -> & Hms).
  { intros i [k Hk]%list_elem_of_lookup. destruct (k_islot _ K m k i) as (r & Hr & _); [by exists c|]. eauto. }
  cbn. split; [done|]. intros x Hx. destruct (Hms x Hx) as (i & r & og & o & [k Hk]%list_elem_of_lookup & Hr & Hin & Ho & ->).
  destruct (k_og _ K og o Ho) as (d & Hd & Hog). split; [by eauto|]. unfold nexts, next_modules. rewrite Hd, bind_some.
  destruct (downstream_ok (gr p) (ogates_ d) K) as (ns & -> & Hns).
  { intros v [j Hj]%list_elem_of_lookup. destruct (k_slot _ K (og_module o) j v) as (o' & Ho' & _); [by exists d|]. eauto. }
  cbn. apply Hns. destruct (k_down _ K i r og Hr Hin) as (o' & Ho' & Hi). assert (o' = o) as -> by congruence.
  exists og, o, i, r. split; [by eapply list_elem_of_lookup_2|]. split; [done|]. split; [done|]. split; [done|].
  destruct (k_islot _ K m k i) as (r' & Hr' & E & _); [by exists c|]. congruence.
Qed.

(** ** One component *)

Section Traversal.
Context (p0 : Pipeline) (X : string) (sz : Z) (pre : list ScopeComponent) (K : gates_ok (gr p0)).
Context (HN : Z.of_nat (S (length pre)) < 2 ^ 15).
Context (Hsz : forall m c a, mods (gr p0) !! m = Some c -> a ∈ attrs_ c -> a_name a = X -> a_size a = sz).

Definition role (m : addr) : option (nat * AccessMode) := c ← mods (gr p0) !! m; role_in X (attrs_ c).
Definition writer (m : addr) : bool := match role m with Some (_, kWrite) => true | _ => false end.

(** A value of the attribute that enters the module will be read, there or further on. *)
Inductive live : addr -> Prop :=
  | live_reads m i md : role m = Some (i, md) -> md <> kWrite -> live m
  | live_next m x : role m = None -> x ∈ nexts p0 m -> live x -> live m.

Definition carries (m : addr) : Prop := writer m = true \/ live m.

(** The state within a traversal. *)
Definition good (p : Pipeline) : Prop :=
  alike p0 p /\ exists c, scope_components_ p = pre ++ [c] /\ assigned_ c = false /\ degree_ c = 0 /\
    (modules_ c <> ∅ /\ attr_id_ c = X /\ size_ c = sz) /\ forall x, x ∈ modules_ c -> is_Some (mods (gr p0) !! x) /\ carries x.

Definition ident (p : Pipeline) (m : addr) : Z :=
  default 0 (c ← mods (gr p) !! m; '(_, a) ← list_find (fun it => a_name it = X) (attrs_ c); Some (scope_id a)).

(** What has not been visited: a writer that has no component, or another module without the mark. *)
Definition todo (p : Pipeline) (m : addr) : bool :=
  if writer m then ident p m =? -1 else negb (scope_of m p =? Z.of_nat (S (length pre))).

Definition work (p : Pipeline) : nat := 3 * length (filter (fun m => todo p m = true) (elements (dom (mods (gr p0))))).

Definition less (q p : Pipeline) : Prop := forall x, todo q x = true -> todo p x = true.

Lemma less_trans p q r : less r q -> less q p -> less r p.
Proof. unfold less. auto. Qed.

Lemma filter_length_le (P Q : addr -> bool) l : (forall x, Q x = true -> P x = true) ->
  (length (filter (fun m => Q m = true) l) <= length (filter (fun m => P m = true) l))%nat.
Proof.
  intros H. induction l as [|x l IH]; [done|]. rewrite !filter_cons. destruct (decide (Q x = true)) as [E|E].
  - rewrite decide_True by (by apply H). cbn. lia.
  - destruct (decide (P x = true)); cbn; lia.
Qed.

Lemma filter_length_lt (P Q : addr -> bool) l m : (forall x, Q x = true -> P x = true) -> m ∈ l -> P m = true -> Q m = false ->
  (length (filter (fun m => Q m = true) l) < length (filter (fun m => P m = true) l))%nat.
Proof.
  intros H Hin Hp Hq. induction l as [|x l IH]; [by apply elem_of_nil in Hin|]. rewrite !filter_cons. apply elem_of_cons in Hin as [<-|Hin].
  - rewrite (decide_True (P := P m = true)) by done. rewrite decide_False by congruence. cbn. pose proof (filter_length_le P Q l H). lia.
  - specialize (IH Hin). destruct (decide (Q x = true)) as [E|E]; [rewrite (decide_True (P := P x = true)) by (by apply H); cbn; lia|].
    destruct (decide (P x = true)); cbn; lia.
Qed.

Lemma work_le p q : less q p -> (work q <= work p)%nat.
Proof. intros H. unfold work. pose proof (filter_length_le (todo p) (todo q) (elements (dom (mods (gr p0)))) H). lia. Qed.

Lemma work_lt p q m : less q p -> is_Some (mods (gr p0) !! m) -> todo p m = true -> todo q m = false -> (work q + 3 <= work p)%nat.
Proof.
  intros H Hm Hp Hq. unfold work.
  pose proof (filter_length_lt (todo p) (todo q) (elements (dom (mods (gr p0)))) m H ltac:(by apply elem_of_elements, elem_of_dom) Hp Hq). lia.
Qed.

(** *** The steps *)

Lemma good_current p : good p -> current p = Z.of_nat (S (length pre)) /\ current_mark p = Z.of_nat (S (length pre)).
Proof.
  intros (_ & c & E & _). unfold current_mark, current. rewrite E, length_app. cbn [length].
  replace (length pre + 1)%nat with (S (length pre)) by lia. unfold to_signed. rewrite !wrap_small by lia.
  rewrite !(proj2 (Z.ltb_lt _ _)) by lia. rewrite wrap_small by lia. by rewrite !(proj2 (Z.ltb_lt _ _)) by lia.
Qed.

Lemma good_back p f : good p ->
  (forall c, assigned_ (f c) = assigned_ c /\ degree_ (f c) = degree_ c /\ modules_ (f c) = modules_ c /\ attr_id_ (f c) = attr_id_ c /\ size_ (f c) = size_ c) ->
  exists q, upd_back f p = Some q /\ good q /\ gr q = gr p /\ module_scopes_ q = module_scopes_ p.
Proof.
  intros (A & c & E & H1 & H2 & H3 & H4) Hf. unfold upd_back. rewrite E, last_snoc, bind_some, removelast_last. eexists. split; [done|].
  split; [|done]. split; [exact A|]. exists (f c). destruct (Hf c) as (-> & -> & -> & -> & ->). done.
Qed.

Lemma good_add p m attr : good p -> is_Some (mods (gr p0) !! m) -> carries m -> a_name attr = X -> a_size attr = sz ->
  exists q, AddModuleToComponent m attr p = Some q /\ good q /\ gr q = gr p /\ module_scopes_ q = module_scopes_ p.
Proof.
  intros (A & c & E & H1 & H2 & H3 & H4) Hm Hc En Es. unfold AddModuleToComponent. rewrite E, last_snoc, bind_some.
  assert (Hg : good p) by (split; [done|by exists c]). destruct (decide (m ∈ modules_ c)); [by exists p|].
  unfold upd_back. rewrite E, last_snoc, bind_some, removelast_last. eexists. split; [done|]. split; [|done]. split; [exact A|]. eexists. split; [done|].
  assert (Hmods : forall x, x ∈ {[m]} ∪ modules_ c -> is_Some (mods (gr p0) !! x) /\ carries x).
  { intros x [->%elem_of_singleton|Hx]%elem_of_union; [done|by apply H4]. }
  destruct H3 as (Hne & H3). rewrite decide_False by done. cbn. split; [done|]. split; [done|]. split; [|done]. split; [set_solver|done].
Qed.

Lemma good_scope p m s : good p -> good (set_scope m s p).
Proof. intros (A & c & E & H). split; [exact A|]. by exists c. Qed.

Lemma good_find p m attr : good p -> is_Some (mods (gr p0) !! m) -> a_name attr = X ->
  exists found, FindAttr m attr p = Some found /\
    match found with
    | Some (i, a) => role m = Some (i, mode a) /\ a_name a = X /\ a_size a = sz /\ scope_id a = ident p m
    | None => role m = None
    end.
Proof.
  intros (A & _) [c Hc] En. destruct (alike_some p0 p m c A Hc) as (d & Hd & Es). unfold FindAttr. rewrite Hd, bind_some, En. eexists. split; [done|].
  unfold role, ident. rewrite Hc, Hd. cbn [mbind option_bind]. rewrite <- (alike_role X c d Es). unfold role_in.
  destruct (list_find _ (attrs_ d)) as [[i a]|] eqn:Ef; [|done]. cbn. apply list_find_Some in Ef as (Hi & Ea & _).
  split; [done|]. split; [done|]. split; [|done]. apply strip_gates in Es as (_ & _ & _ & Es).
  assert (Hin : set_attr_scope 0 a ∈ map (set_attr_scope 0) (attrs_ c)).
  { rewrite <- Es. apply list_elem_of_fmap. exists a. split; [done|]. by eapply list_elem_of_lookup_2. }
  apply list_elem_of_fmap in Hin as (b & Eb & Hb). assert (a_size b = sz) as <-; [|unfold set_attr_scope in Eb; congruence].
  apply (Hsz m c b Hc Hb). unfold set_attr_scope in Eb. congruence.
Qed.

Lemma good_put p m i md s : good p -> role m = Some (i, md) ->
  exists q, put_scope_id m i s p = Some q /\ good q /\ module_scopes_ q = module_scopes_ p /\ ident q m = s /\ forall x, x <> m -> ident q x = ident p x.
Proof.
  intros (A & H) Hr. unfold role in Hr. destruct (mods (gr p0) !! m) as [c|] eqn:Hc; [|done]. cbn in Hr.
  destruct (alike_some p0 p m c A Hc) as (d & Hd & Es). unfold put_scope_id, upd_mod. rewrite Hd, !bind_some. eexists. split; [done|].
  split; [split; [|exact H]|split; [done|]].
  - apply (alike_trans _ p); [done|]. split_and!; try done. intros x. cbn. destruct (decide (x = m)) as [->|]; [|by rewrite lookup_insert_ne].
    rewrite lookup_insert_eq, Hd. cbn. unfold strip. cbn. f_equal. unfold set_attrs. cbn. f_equal.
    change (map (set_attr_scope 0) (alter (set_attr_scope s) i (attrs_ d))) with (set_attr_scope 0 <$> alter (set_attr_scope s) i (attrs_ d)).
    apply list_eq. intros j. change (map (set_attr_scope 0) (attrs_ d)) with (set_attr_scope 0 <$> attrs_ d).
    rewrite !list_lookup_fmap. destruct (decide (i = j)) as [->|]; [rewrite list_lookup_alter_eq; by destruct (attrs_ d !! j)|by rewrite list_lookup_alter_ne].
  - rewrite <- (alike_role X c d Es) in Hr. unfold role_in in Hr. destruct (list_find _ (attrs_ d)) as [[j a]|] eqn:Ef; [|done]. injection Hr as -> _.
    apply list_find_Some in Ef as (Hi & Ea & Hlt). unfold ident. cbn. split.
    + rewrite lookup_insert_eq. cbn. assert (list_find (fun it => a_name it = X) (alter (set_attr_scope s) i (attrs_ d)) = Some (i, set_attr_scope s a)) as ->; [|done].
      apply list_find_Some. split; [by rewrite list_lookup_alter_eq, Hi|]. split; [done|]. intros j b Hj Hlt2. rewrite list_lookup_alter_ne in Hj by lia. by apply (Hlt j b).
    + intros x Hx. by rewrite lookup_insert_ne.
Qed.

Lemma todo_same p q : (forall x, ident q x = ident p x) -> module_scopes_ q = module_scopes_ p -> forall x, todo q x = todo p x.
Proof. intros Hi Hs x. unfold todo, scope_of. by rewrite Hi, Hs. Qed.

Lemma todo_scope p m s x :
  todo (set_scope m s p) x = if decide (x = m /\ writer m = false) then negb (s =? Z.of_nat (S (length pre))) else todo p x.
Proof.
  unfold todo, scope_of. cbn [module_scopes_ set_scope set_scopes]. change (ident (set_scope m s p) x) with (ident p x). destruct (decide (x = m)) as [->|Hx].
  - rewrite lookup_insert_eq. cbn. destruct (writer m); [by rewrite decide_False by (by intros [_ ?])|by rewrite decide_True].
  - rewrite lookup_insert_ne by done. by rewrite decide_False by (by intros [? _]).
Qed.

(** A mark can only take something off the list, and a mark can be taken back where it was on the list. *)
Lemma less_mark p m : less (set_scope m (Z.of_nat (S (length pre))) p) p.
Proof. intros x. rewrite todo_scope. case_decide; [|done]. by rewrite Z.eqb_refl. Qed.

Lemma less_unmark p q m s : less q p -> (writer m = false -> todo p m = true) -> less (set_scope m s q) p.
Proof. intros H Hm x. rewrite todo_scope. destruct (decide (x = m /\ writer m = false)) as [[-> E]|]; [intros _; by apply Hm|apply H]. Qed.

Lemma less_eq p q : (forall x, todo q x = todo p x) -> less q p.
Proof. intros H x. by rewrite H. Qed.

Lemma good_next p m : good p -> is_Some (mods (gr p0) !! m) -> next_modules m p = Some (nexts p0 m) /\ forall x, x ∈ nexts p0 m -> is_Some (mods (gr p0) !! x).
Proof. intros (A & _) [c Hc]. rewrite (alike_next p0 p m A). by apply (nexts_ok p0 m c). Qed.

Lemma good_prev p m : good p -> is_Some (mods (gr p0) !! m) -> prev_modules m p = Some (prevs p0 m) /\
  forall x, x ∈ prevs p0 m -> is_Some (mods (gr p0) !! x) /\ m ∈ nexts p0 x.
Proof. intros (A & _) [c Hc]. rewrite (alike_prev p0 p m A). by apply (prevs_ok p0 m c). Qed.

(** What feeds a module that carries the attribute carries it too. *)
Lemma carries_prev m x : live m -> m ∈ nexts p0 x -> carries x.
Proof.
  intros Hm Hx. unfold carries, writer. destruct (role x) as [[i md]|] eqn:Er; [|right; by apply (live_next x m)].
  destruct md; [right; by apply (live_reads x i kRead)|by left|right; by apply (live_reads x i kUpdate)].
Qed.

Lemma each_good {T} (proj : T -> Pipeline) (f : addr -> T -> option T) w : forall l s,
  good (proj s) -> (work (proj s) <= w)%nat ->
  (forall x s, x ∈ l -> good (proj s) -> (work (proj s) <= w)%nat ->
    exists s', f x s = Some s' /\ good (proj s') /\ less (proj s') (proj s)) ->
  exists s', each f l s = Some s' /\ good (proj s') /\ less (proj s') (proj s).
Proof.
  induction l as [|x l IH]; intros s Hg Hw Hf; cbn [each]; [exists s; split; [done|]; split; [done|]; by intros y|].
  destruct (Hf x s ltac:(by constructor) Hg Hw) as (s1 & -> & Hg1 & L1). rewrite bind_some.
  destruct (IH s1 Hg1) as (s' & -> & Hg' & L').
  - pose proof (work_le _ _ L1). lia.
  - intros y s2 Hy. apply Hf. by constructor.
  - exists s'. split; [done|]. split; [done|]. by apply (less_trans _ (proj s1)).
Qed.

(** *** The traversals *)

Definition up_ok (fuel : nat) : Prop := forall m attr p,
  good p -> is_Some (mods (gr p0) !! m) -> carries m -> a_name attr = X -> a_size attr = sz -> (work p + 1 <= fuel)%nat ->
  exists q, TraverseUpstream fuel m attr p = Some q /\ good q /\ less q p.

Definition down_ok (fuel : nat) : Prop := forall m attr p,
  good p -> is_Some (mods (gr p0) !! m) -> a_name attr = X -> a_size attr = sz -> (work p + 2 <= fuel)%nat ->
  exists q b, TraverseDownstream fuel m attr p = Some (q, b) /\ good q /\ less q p /\ (b = true -> live m).

Definition identify_ok (fuel : nat) : Prop := forall m i attr p,
  good p -> is_Some (mods (gr p0) !! m) -> role m = Some (i, kWrite) -> a_name attr = X -> a_size attr = sz ->
  todo p m = true -> (work p <= fuel)%nat ->
  exists q, IdentifyScopeComponent fuel m i attr p = Some q /\ good q /\ less q p /\ todo q m = false.

Lemma writer_role m i : role m = Some (i, kWrite) -> writer m = true.
Proof. unfold writer. by intros ->. Qed.

(** The loop over the modules downstream. *)
Lemma down_each fuel m attr p : down_ok fuel -> good p -> is_Some (mods (gr p0) !! m) -> a_name attr = X -> a_size attr = sz -> (work p + 2 <= fuel)%nat ->
  exists q, each (fun x p => '(p, _) ← TraverseDownstream fuel x attr p; Some p) (nexts p0 m) p = Some q /\ good q /\ less q p.
Proof.
  intros D Hg Hm En Es Hw. apply (each_good id _ (work p)); [done|done|]. intros x s Hx Hgs Hws. destruct (good_next p m Hg Hm) as [_ Hn].
  destruct (D x attr s Hgs (Hn x Hx) En Es ltac:(unfold id in *; lia)) as (q & b & -> & Hq & L & _). by exists q.
Qed.

Lemma identify_step fuel : down_ok fuel -> identify_ok (S fuel).
Proof.
  intros D m i attr p Hg Hm Hr En Es Ht Hw. cbn [IdentifyScopeComponent].
  destruct (good_add p m attr Hg Hm (or_introl (writer_role _ _ Hr)) En Es) as (p1 & -> & Hg1 & Egr & Esc). rewrite bind_some.
  destruct (good_put p1 m i kWrite (current p1) Hg1 Hr) as (p2 & -> & Hg2 & Esc2 & Ei & Eo). rewrite bind_some.
  destruct (good_current p1 Hg1) as [Ec _]. destruct (good_current p2 Hg2) as [_ Em2]. rewrite Em2.
  set (p3 := set_scope m _ p2). assert (Hg3 : good p3) by (by apply good_scope).
  assert (T1 : forall x, todo p1 x = todo p x) by (apply todo_same; [intros x; unfold ident; by rewrite Egr|done]).
  assert (T3 : todo p3 m = false /\ less p3 p).
  { split.
    - unfold p3. rewrite todo_scope. rewrite decide_False by (intros [_ E]; rewrite (writer_role _ _ Hr) in E; done).
      unfold todo. rewrite (writer_role _ _ Hr), Ei, Ec. apply Z.eqb_neq. lia.
    - apply (less_trans _ p2); [apply less_mark|]. intros x. destruct (decide (x = m)) as [->|Hx]; [by rewrite Ht|].
      rewrite <- T1. unfold todo, scope_of. by rewrite Esc2, Eo. }
  destruct T3 as [Hm3 L3]. destruct (good_next p3 m Hg3 Hm) as [-> _]. rewrite bind_some.
  pose proof (work_lt p p3 m L3 Hm Ht Hm3).
  destruct (down_each fuel m attr p3 D Hg3 Hm En Es ltac:(lia)) as (q & -> & Hq & L). exists q. split; [done|]. split; [done|].
  split; [by apply (less_trans _ p3)|]. destruct (todo q m) eqn:E; [|done]. apply L in E. congruence.
Qed.

Lemma up_step fuel : up_ok fuel -> identify_ok fuel -> up_ok (S fuel).
Proof.
  intros U I m attr p Hg Hm Hc En Es Hw. cbn [TraverseUpstream].
  destruct (good_add p m attr Hg Hm Hc En Es) as (p1 & -> & Hg1 & Egr & Esc). rewrite bind_some.
  assert (T1 : forall x, todo p1 x = todo p x) by (apply todo_same; [intros x; unfold ident; by rewrite Egr|done]).
  destruct (good_find p1 m attr Hg1 Hm En) as (found & -> & Hf). rewrite bind_some.
  assert (Ew : writes found = writer m).
  { unfold writes, writer. destruct found as [[i a]|]; [|by rewrite Hf]. destruct Hf as (-> & _). by destruct (mode a). }
  rewrite Ew. destruct (writer m) eqn:Ewr.
  - destruct found as [[i a]|]; [|done]. destruct Hf as (Hr & Ean & Eas & Eid). rewrite Eid. destruct (ident p1 m =? -1) eqn:Et.
    2: { exists p1. split; [done|]. split; [done|]. by apply less_eq. }
    assert (Hmode : mode a = kWrite) by (unfold writer in Ewr; rewrite Hr in Ewr; by destruct (mode a)). rewrite Hmode in Hr.
    assert (Htodo : todo p1 m = true) by (unfold todo; by rewrite Ewr). pose proof (work_le _ _ (less_eq p p1 T1)).
    destruct (I m i a p1 Hg1 Hm Hr Ean Eas Htodo ltac:(lia)) as (q & -> & Hq & L & _). exists q. split; [done|]. split; [done|].
    apply (less_trans _ p1); [done|by apply less_eq].
  - destruct (good_current p1 Hg1) as [Ec Em]. rewrite Ec, Em. destruct (scope_of m p1 =? _) eqn:Esm; [exists p1; split; [done|]; split; [done|]; by apply less_eq|].
    set (p2 := set_scope m _ p1). assert (Hg2 : good p2) by (by apply good_scope).
    assert (L2 : less p2 p) by (apply (less_trans _ p1); [apply less_mark|by apply less_eq]).
    assert (Htodo : todo p m = true) by (rewrite <- T1; unfold todo; by rewrite Ewr, Esm).
    assert (Hdone : todo p2 m = false) by (unfold p2; rewrite todo_scope, decide_True by done; by rewrite Z.eqb_refl).
    pose proof (work_lt p p2 m L2 Hm Htodo Hdone). destruct (good_prev p2 m Hg2 Hm) as [-> Hp]. rewrite bind_some.
    destruct (each_good id (fun x p => TraverseUpstream fuel x attr p) (work p2) (prevs p0 m) p2) as (p3 & -> & Hg3 & L3); [done|done| |].
    { intros x s Hx Hgs Hws. destruct (Hp x Hx) as [Hxs Hxn]. unfold id in *. apply U; try done; [|lia].
      apply (carries_prev m); [|done]. destruct Hc as [Hc|Hc]; [congruence|done]. }
    rewrite bind_some. unfold id in Hg3, L3. destruct Hg3 as [A3 B3]. pose proof (conj A3 B3 : good p3) as Hg3. destruct Hm as [c0 Hc0].
    destruct (alike_some p0 p3 m c0 A3 Hc0) as (d & Hd & _). rewrite Hd, bind_some. case_decide.
    + destruct (good_back p3 (set_invalid true) Hg3 ltac:(by intros c; split_and!)) as (q & -> & Hq & Eq1 & Eq2). exists q. split; [done|]. split; [done|].
      apply (less_trans _ p3); [|by apply (less_trans _ p2)]. apply less_eq. apply todo_same; [intros x; unfold ident; by rewrite Eq1|done].
    + exists p3. split; [done|]. split; [done|]. by apply (less_trans _ p2).
Qed.

(** The end of the visit of a module that belongs to the component. *)
Lemma down_finish fuel m attr p p1 :
  up_ok fuel -> good p1 -> less p1 p -> (writer m = false -> todo p m = true) -> is_Some (mods (gr p0) !! m) -> live m ->
  a_name attr = X -> a_size attr = sz -> (work p + 1 <= fuel)%nat ->
  exists q, TraverseUpstream fuel m attr (set_scope m (-1) p1) = Some q /\ good q /\ less q p.
Proof.
  intros U Hg L Ht Hm Hl En Es Hw. set (p2 := set_scope m (-1) p1). assert (L2 : less p2 p) by (by apply less_unmark).
  destruct (U m attr p2 (good_scope p1 m (-1) Hg) Hm (or_intror Hl) En Es) as (q & -> & Hq & Lq); [pose proof (work_le _ _ L2); lia|].
  exists q. split; [done|]. split; [done|]. by apply (less_trans _ p2).
Qed.

Lemma down_step fuel : up_ok fuel -> down_ok fuel -> down_ok (S fuel).
Proof.
  intros U D m attr p Hg Hm En Es Hw. cbn [TraverseDownstream]. destruct (good_current p Hg) as [Ec Em]. rewrite Ec, Em.
  destruct (scope_of m p =? _) eqn:Esm; [exists p, false; split; [done|]; split; [done|]; split; [by intros x|done]|].
  set (p1 := set_scope m _ p). assert (Hg1 : good p1) by (by apply good_scope). assert (L1 : less p1 p) by apply less_mark.
  destruct (good_find p1 m attr Hg1 Hm En) as (found & -> & Hf). rewrite bind_some.
  destruct (good_next p1 m Hg1 Hm) as [-> Hn]. rewrite bind_some.
  assert (Hstep : writer m = false -> todo p m = true /\ (work p1 + 3 <= work p)%nat).
  { intros Hw0. assert (Ht : todo p m = true) by (unfold todo; by rewrite Hw0, Esm). split; [done|]. apply (work_lt p p1 m L1 Hm Ht).
    unfold p1. by rewrite todo_scope, decide_True, Z.eqb_refl. }
  destruct found as [[i a]|].
  - destruct Hf as (Hr & Ean & Eas & _). case_decide as Emd.
    + exists (set_scope m (-1) p1), false. split; [done|]. split; [by apply good_scope|]. split; [|done].
      apply less_unmark; [done|]. rewrite Emd in Hr. by rewrite (writer_role _ _ Hr).
    + assert (Hl : live m) by (by apply (live_reads m i (mode a))).
      assert (Hw0 : writer m = false) by (unfold writer; rewrite Hr; by destruct (mode a)). destruct (Hstep Hw0) as [Ht Hwork].
      destruct (good_add p1 m a Hg1 Hm (or_intror Hl) Ean Eas) as (p2 & -> & Hg2 & Egr & Esc). rewrite bind_some.
      destruct (good_put p2 m i (mode a) (current p2) Hg2 Hr) as (p3 & -> & Hg3 & Esc3 & Ei & Eo). rewrite bind_some.
      assert (L3 : less p3 p1).
      { intros x. unfold todo, scope_of. rewrite Esc3, Esc. destruct (decide (x = m)) as [->|Hx]; [by rewrite Hw0|].
        rewrite Eo by done. unfold ident. by rewrite Egr. }
      pose proof (work_le _ _ L3). destruct (down_each fuel m attr p3 D Hg3 Hm En Es ltac:(lia)) as (p4 & -> & Hg4 & L4). rewrite bind_some.
      destruct (down_finish fuel m attr p p4 U Hg4) as (q & -> & Hq & Lq); try done; [|lia|].
      * apply (less_trans _ p1); [|done]. by apply (less_trans _ p3).
      * rewrite bind_some. exists q, true. done.
  - assert (Hw0 : writer m = false) by (unfold writer; by rewrite Hf). destruct (Hstep Hw0) as [Ht Hwork].
    assert (He : exists st, each (fun x st => '(p, r) ← TraverseDownstream fuel x attr (st.1 : Pipeline); Some (p, st.2 || r)) (nexts p0 m) (p1, false) = Some st /\
      good st.1 /\ less st.1 p1 /\ (st.2 = true -> live m)).
    { assert (Hgen : forall l st, (forall x, x ∈ l -> x ∈ nexts p0 m) -> good st.1 -> (work st.1 <= work p1)%nat -> (st.2 = true -> live m) ->
        exists st', each (fun x st => '(p, r) ← TraverseDownstream fuel x attr (st.1 : Pipeline); Some (p, st.2 || r)) l st = Some st' /\
          good st'.1 /\ less st'.1 st.1 /\ (st'.2 = true -> live m)).
      { induction l as [|x l IH]; intros st Hin Hgs Hws Hl; cbn [each]; [exists st; split; [done|]; split; [done|]; split; [by intros y|done]|].
        assert (Hx : x ∈ nexts p0 m) by (apply Hin; by constructor).
        destruct (D x attr st.1 Hgs (Hn x Hx) En Es ltac:(lia)) as (q & b & -> & Hq & Lq & Hb). rewrite !bind_some.
        destruct (IH (q, st.2 || b)) as (st' & -> & Hg' & L' & Hl'); [intros y Hy; apply Hin; by constructor|done| | |].
        - cbn [fst]. pose proof (work_le _ _ Lq). lia.
        - cbn. intros [Hs|Hs]%orb_true_iff; [by apply Hl|]. apply (live_next m x); [done|done|by apply Hb].
        - exists st'. split; [done|]. split; [done|]. split; [|done]. by apply (less_trans _ q). }
      apply (Hgen (nexts p0 m) (p1, false)); [done|done|done|done]. }
    destruct He as ([p2 b] & -> & Hg2 & L2 & Hb). cbn [fst snd] in *. rewrite bind_some. destruct b.
    + pose proof (Hb eq_refl) as Hl. destruct (good_add p2 m attr Hg2 Hm (or_intror Hl) En Es) as (p3 & -> & Hg3 & Egr & Esc). rewrite bind_some.
      assert (T3 : less p3 p2) by (apply less_eq, todo_same; [intros x; unfold ident; by rewrite Egr|done]).
      destruct (down_finish fuel m attr p p3 U Hg3) as (q & -> & Hq & Lq); try done; [|lia|].
      * apply (less_trans _ p1); [|done]. by apply (less_trans _ p2).
      * rewrite bind_some. exists q, true. done.
    + exists p2, false. split; [done|]. split; [done|]. split; [|done]. by apply (less_trans _ p1).
Qed.

Lemma traverse_ok fuel : up_ok fuel /\ down_ok fuel /\ identify_ok fuel.
Proof.
  induction fuel as [|fuel (U & D & I)].
  - split; [|split]; [intros m attr p _ _ _ _ _ H; lia|intros m attr p _ _ _ _ H; lia|]. intros m i attr p Hg Hm _ _ _ Ht H.
    exfalso. unfold work in H. assert (Hin : m ∈ filter (fun m => todo p m = true) (elements (dom (mods (gr p0))))).
    { apply list_elem_of_filter. split; [done|]. by apply elem_of_elements, elem_of_dom. }
    destruct (filter _ _) as [|y l] eqn:E; [by apply elem_of_nil in Hin|]. cbn in H. lia.
  - split; [by apply up_step|]. split; [by apply down_step|by apply identify_step].
Qed.

End Traversal.

(** *** A whole component *)

Lemma identify_single_ok p X sz m c i a fuel :
  gates_ok (gr p) -> Z.of_nat (S (length (scope_components_ p))) < 2 ^ 15 ->
  (forall m c a, mods (gr p) !! m = Some c -> a ∈ attrs_ c -> a_name a = X -> a_size a = sz) ->
  mods (gr p) !! m = Some c -> list_find (fun it => a_name it = X) (attrs_ c) = Some (i, a) -> mode a = kWrite -> scope_id a = -1 ->
  (3 * base.size (mods (gr p)) <= fuel)%nat ->
  exists q d, IdentifySingleScopeComponent fuel m i a p = Some q /\ alike p q /\ scope_components_ q = scope_components_ p ++ [d] /\
    assigned_ d = false /\ degree_ d = 0 /\ modules_ d <> ∅ /\ attr_id_ d = X /\ size_ d = sz /\
    forall x, x ∈ modules_ d -> is_Some (mods (gr p) !! x) /\ carries p X x.
Proof.
  intros K HN Hsz Hm Hf Hmd Hid Hfuel. set (pre := scope_components_ p) in *.
  pose proof Hf as (Hi & Ean & _)%list_find_Some. assert (Eas : a_size a = sz) by (apply (Hsz m c a Hm); [by eapply list_elem_of_lookup_2|done]).
  assert (Hr : role p X m = Some (i, kWrite)) by (unfold role, role_in; rewrite Hm; cbn; rewrite Hf; cbn; by rewrite Hmd).
  set (e := add_module m (set_kind (a_name a) (a_size a) empty_component)). set (p1 := set_components (pre ++ [e]) p).
  assert (Hg1 : good p X sz pre p1).
  { split; [by split_and!|]. exists e. split; [done|]. split; [done|]. split; [done|]. split; [split; [cbn; set_solver|done]|].
    intros x Hx. assert (x = m) as -> by (cbn in Hx; set_solver). split; [by eauto|]. left. by apply (writer_role p X m i). }
  assert (E1 : IdentifyScopeComponent fuel m i a (set_components (pre ++ [empty_component]) p) = IdentifyScopeComponent fuel m i a p1).
  { destruct fuel as [|fuel]; [done|]. cbn [IdentifyScopeComponent]. f_equal. unfold AddModuleToComponent, upd_back. cbn [scope_components_ set_components p1].
    rewrite !last_snoc, !bind_some, removelast_last. rewrite decide_False by (cbn; apply not_elem_of_empty).
    rewrite (decide_True (P := m ∈ modules_ e)) by (cbn; set_solver). by rewrite decide_True. }
  destruct (traverse_ok p X sz pre K HN Hsz fuel) as (_ & _ & I).
  destruct (I m i a p1 Hg1 ltac:(eauto) Hr Ean Eas) as (q & Eq & Hq & _ & _).
  { unfold todo. rewrite (writer_role p X m i Hr). unfold ident. cbn [gr p1 set_components]. rewrite Hm. cbn. rewrite Hf. cbn. by rewrite Hid. }
  { etrans; [|exact Hfuel]. unfold work. apply Nat.mul_le_mono_l. etrans; [apply length_filter|].
    rewrite <- size_dom. unfold base.size, set_size. cbn. lia. }
  destruct (good_back p X sz pre q (set_scope_id (current_mark q)) Hq ltac:(by intros d; split_and!)) as (q' & Eq' & Hq' & _).
  destruct Hq' as (A & d & E & H1 & H2 & (H3 & H4 & H5) & H6). exists q', d. unfold IdentifySingleScopeComponent.
  fold pre. rewrite E1, Eq, bind_some. split; [exact Eq'|]. by split_and!.
Qed.
