(* ===== verification/MetaCover.v ===== *)
(** * Scope components: what the traversals find

    [MetaScopes] shows that the traversals end and add only modules that carry the
    attribute; here, what they do not leave out: a module that writes an attribute is in
    a component of it together with every module after it that reads the attribute.
    (Modules on longer ways may be left out, see MetaProps.v.) *)

From stdpp Require Import strings gmap.
From S2P Require Import Prelude Pool PrioQueue Gates GateProps Metadata MetaOffsets MetaScopes.

(** The modules of the current component. *)
Definition mods_of (p : Pipeline) : gset addr := match last (scope_components_ p) with Some c => modules_ c | None => ∅ end.

(** The module reads the attribute [X], and perhaps updates it. *)
Definition reader (p0 : Pipeline) (X : string) (m : addr) : Prop := exists i md, role p0 X m = Some (i, md) /\ md <> kWrite.

(** No mark of the modules [all] is above [n]. *)
Definition marks_below (all : list addr) (p : Pipeline) (n : Z) : Prop :=
  (forall x, x ∈ all -> scope_of x p <= n) /\ (forall X x, ident X p x <= n).

Lemma list_find_scope Y i s (l : list Attribute) a : l !! i = Some a -> a_name a <> Y ->
  list_find (fun it => a_name it = Y) (alter (set_attr_scope s) i l) = list_find (fun it => a_name it = Y) l.
Proof.
  revert i. induction l as [|b l IH]; intros [|i]; [done|done| |]; cbn.
  - intros [= ->] Hn. cbn. by rewrite !decide_False.
  - intros Hi Hn. case_decide; [done|]. by rewrite IH.
Qed.

Section Cover.
Context (all : list addr) (p0 : Pipeline) (X : string) (pre : list ScopeComponent).
Context (HN : Z.of_nat (S (length pre)) < 2 ^ 15).
Notation N := (Z.of_nat (S (length pre))).

(** The state within the traversals for one component. *)
Record fine (p : Pipeline) : Prop := {
  f_alike : alike p0 p;
  f_back : exists c, scope_components_ p = pre ++ [c];
  f_marks : marks_below all p N;
  f_ident : forall x, ident X p x = N \/ ident X p x = ident X p0 x;
  f_other : forall Y x, Y <> X -> ident Y p x = ident Y p0 x
}.

Definition named (p : Pipeline) (x : addr) : Prop := writer p0 X x = true /\ ident X p x = N.

(** What is marked is in the component. *)
Definition cov (p : Pipeline) : Prop :=
  (forall x, reader p0 X x -> scope_of x p = N -> x ∈ mods_of p) /\ (forall x, named p x -> x ∈ mods_of p).

(** With a writer, the readers after it. *)
Definition full (p : Pipeline) (x : addr) : Prop := forall y, y ∈ nexts p0 x -> reader p0 X y -> y ∈ mods_of p.

Definition ext (p q : Pipeline) : Prop :=
  mods_of p ⊆ mods_of q /\ (forall x, named p x -> named q x) /\
  (cov p -> cov q /\ forall x, named q x -> named p x \/ full q x).

Lemma ext_refl p : ext p p.
Proof. split; [done|]. split; [done|]. intros C. split; [done|]. by left. Qed.

Lemma full_mono p q x : mods_of p ⊆ mods_of q -> full p x -> full q x.
Proof. intros S F y Hy Hr. by apply S, F. Qed.

Lemma ext_trans p r q : ext p r -> ext r q -> ext p q.
Proof.
  intros (S1 & N1 & E1) (S2 & N2 & E2). split; [by etrans|]. split; [auto|]. intros C. destruct (E1 C) as [C1 F1]. destruct (E2 C1) as [C2 F2]. split; [done|].
  intros x Hx. destruct (F2 x Hx) as [Hr|]; [|by right]. destruct (F1 x Hr) as [|Hf]; [by left|right]. by apply (full_mono r).
Qed.

(** A step that keeps the marks and names, or adds only those of modules in the component. *)
Lemma ext_step p q : mods_of p ⊆ mods_of q ->
  (forall x, reader p0 X x -> scope_of x q = N -> scope_of x p = N \/ x ∈ mods_of q) ->
  (forall x, named q x <-> named p x) -> ext p q.
Proof.
  intros S M Nm. split; [done|]. split; [intros x; apply Nm|]. intros [C1 C2]. split; [split|].
  - intros x Hr Hx. destruct (M x Hr Hx); [by apply S, C1|done].
  - intros x Hx. by apply S, C2, Nm.
  - intros x Hx. left. by apply Nm.
Qed.

Lemma fine_current p : fine p -> current p = N /\ current_mark p = N.
Proof.
  intros [_ [c E] _ _ _]. unfold current_mark, current. rewrite E, length_app. cbn [length].
  replace (length pre + 1)%nat with (S (length pre)) by lia. unfold to_signed. rewrite !wrap_small by lia.
  rewrite !(proj2 (Z.ltb_lt _ _)) by lia. rewrite wrap_small by lia. by rewrite !(proj2 (Z.ltb_lt _ _)) by lia.
Qed.

Lemma writer_not_reader m : reader p0 X m -> writer p0 X m = false.
Proof. intros (i & md & E & Hne). unfold writer. rewrite E. by destruct md. Qed.

Lemma fine_find p m attr found : fine p -> a_name attr = X -> FindAttr m attr p = Some found ->
  match found with
  | Some (i, a) => role p0 X m = Some (i, mode a) /\ a_name a = X /\ scope_id a = ident X p m
  | None => role p0 X m = None
  end.
Proof.
  intros F En. unfold FindAttr. destruct (mods (gr p) !! m) as [d|] eqn:Hd; [|done]. rewrite bind_some, En. intros [= <-].
  pose proof (f_alike _ F) as (_ & _ & _ & _ & A). specialize (A m). rewrite Hd in A. destruct (mods (gr p0) !! m) as [c|] eqn:Hc; [|done].
  cbn in A. apply (inj Some) in A as Es. unfold role, ident. rewrite Hc, Hd. cbn [mbind option_bind]. rewrite <- (alike_role X c d Es). unfold role_in.
  destruct (list_find _ (attrs_ d)) as [[i a]|] eqn:Ef; [|done]. cbn. apply list_find_Some in Ef as (_ & Ea & _). done.
Qed.

Lemma fine_next p m l : fine p -> next_modules m p = Some l -> l = nexts p0 m.
Proof. intros F E. rewrite (alike_next p0 p m (f_alike _ F)) in E. unfold nexts. by rewrite E. Qed.

(** *** The steps *)

Lemma mods_snoc p c : scope_components_ p = pre ++ [c] -> mods_of p = modules_ c.
Proof. intros E. unfold mods_of. by rewrite E, last_snoc. Qed.

Lemma fine_back p f q : fine p -> (forall c, modules_ c ⊆ modules_ (f c)) -> upd_back f p = Some q ->
  fine q /\ ext p q /\ (exists c, scope_components_ p = pre ++ [c] /\ mods_of q = modules_ (f c)) /\ gr q = gr p /\ module_scopes_ q = module_scopes_ p.
Proof.
  intros [A [c E] Mk I O] Hf. unfold upd_back. rewrite E, last_snoc, bind_some, removelast_last. intros [= <-].
  assert (Eq : mods_of (set_components (pre ++ [f c]) p) = modules_ (f c)) by (apply mods_snoc; done).
  split; [split; [done|by exists (f c)|done|done|done]|]. split; [|split; [by exists c|done]].
  apply ext_step; [rewrite Eq, (mods_snoc p c E); apply Hf|by left|done].
Qed.

Lemma fine_add p m attr q : fine p -> AddModuleToComponent m attr p = Some q ->
  fine q /\ ext p q /\ m ∈ mods_of q /\ gr q = gr p /\ module_scopes_ q = module_scopes_ p.
Proof.
  intros F. pose proof (f_back _ F) as [c E]. unfold AddModuleToComponent. rewrite E, last_snoc, bind_some. case_decide as Hin.
  - intros [= <-]. split; [done|]. split; [apply ext_refl|]. split; [by rewrite (mods_snoc p c E)|done].
  - set (f := fun d => _). intros Eq. assert (Hf : forall d, modules_ (f d) = {[m]} ∪ modules_ d) by (intros d; unfold f; by case_decide).
    destruct (fine_back p f q F ltac:(intros d; rewrite Hf; set_solver) Eq) as (Fq & X1 & (c' & _ & Em) & G).
    do 2 (split; [done|]). split; [|done]. rewrite Em, Hf. set_solver.
Qed.

Lemma fine_scope p m s : fine p -> s = N \/ s = -1 -> fine (set_scope m s p).
Proof.
  intros [A B [M1 M2] I O] Hs. split; [done|done| |done|done]. split; [|done]. intros x Hx. unfold scope_of. cbn.
  destruct (decide (m = x)) as [->|]; [rewrite lookup_insert_eq; cbn; lia|rewrite lookup_insert_ne by done; by apply M1].
Qed.

Lemma ext_scope p m s : s <> N \/ ~ reader p0 X m \/ m ∈ mods_of p -> ext p (set_scope m s p).
Proof.
  intros H. apply ext_step; [done| |done]. intros x Hr. unfold scope_of. cbn. destruct (decide (m = x)) as [->|]; [|rewrite lookup_insert_ne by done; by left].
  rewrite lookup_insert_eq. cbn. intros ->. destruct H as [|[|]]; [done|done|by right].
Qed.

(** The mark of a reader, followed by its joining the component. *)
Lemma ext_mark_add p m s attr q : fine p -> s = N \/ s = -1 -> AddModuleToComponent m attr (set_scope m s p) = Some q ->
  fine q /\ ext p q /\ m ∈ mods_of q.
Proof.
  intros F Hs E. destruct (fine_add _ m attr q (fine_scope p m s F Hs) E) as (Fq & (S1 & _) & Hm & Eg & Es). split; [done|]. split; [|done].
  apply ext_step; [exact S1| |].
  - intros x _. unfold scope_of. rewrite Es. cbn. destruct (decide (m = x)) as [->|]; [by right|]. rewrite lookup_insert_ne by done. by left.
  - intros x. unfold named, ident. by rewrite Eg.
Qed.

Lemma fine_put p m i md s q : fine p -> role p0 X m = Some (i, md) -> s = N -> put_scope_id m i s p = Some q ->
  fine q /\ mods_of q = mods_of p /\ module_scopes_ q = module_scopes_ p /\ ident X q m = s /\ forall x, x <> m -> ident X q x = ident X p x.
Proof.
  intros [A B [M1 M2] I O] Hr Hs. unfold role in Hr. destruct (mods (gr p0) !! m) as [c|] eqn:Hc; [|done]. cbn in Hr.
  destruct (alike_some p0 p m c A Hc) as (d & Hd & Es). unfold put_scope_id, upd_mod. rewrite Hd, !bind_some. intros [= <-].
  rewrite <- (alike_role X c d Es) in Hr. unfold role_in in Hr. destruct (list_find _ (attrs_ d)) as [[j a]|] eqn:Ef; [|done]. injection Hr as -> _.
  apply list_find_Some in Ef as (Hi & Ea & Hlt). set (q := set_gr _ p).
  assert (Im : ident X q m = s).
  { unfold ident, q. cbn. rewrite lookup_insert_eq. cbn.
    assert (list_find (fun it => a_name it = X) (alter (set_attr_scope s) i (attrs_ d)) = Some (i, set_attr_scope s a)) as ->; [|done].
    apply list_find_Some. split; [by rewrite list_lookup_alter_eq, Hi|]. split; [done|]. intros j b Hj Hlt2. rewrite list_lookup_alter_ne in Hj by lia. by apply (Hlt j b). }
  assert (Io : forall Y x, x <> m \/ Y <> X -> ident Y q x = ident Y p x).
  { intros Y x Hor. unfold ident, q. cbn. destruct (decide (m = x)) as [<-|]; [|by rewrite lookup_insert_ne]. rewrite lookup_insert_eq, Hd. cbn.
    rewrite (list_find_scope Y i s _ a Hi); [done|]. destruct Hor as [|]; [done|congruence]. }
  split; [|split; [done|split; [done|split; [done|intros; apply Io; by left]]]]. split; [|done| | |].
  - apply (alike_trans _ p); [done|]. split_and!; try done. intros x. cbn. destruct (decide (x = m)) as [->|]; [|by rewrite lookup_insert_ne].
    rewrite lookup_insert_eq, Hd. cbn. unfold strip, set_attrs. cbn. f_equal. f_equal. apply list_eq. intros j.
    change (map (set_attr_scope 0) (attrs_ d)) with (set_attr_scope 0 <$> attrs_ d).
    change (map (set_attr_scope 0) (alter (set_attr_scope s) i (attrs_ d))) with (set_attr_scope 0 <$> alter (set_attr_scope s) i (attrs_ d)).
    rewrite !list_lookup_fmap. destruct (decide (i = j)) as [->|]; [rewrite list_lookup_alter_eq; by destruct (attrs_ d !! j)|by rewrite list_lookup_alter_ne].
  - split; [done|]. intros Y x. destruct (decide (x = m /\ Y = X)) as [[-> ->]|]; [rewrite Im; lia|]. rewrite Io by (destruct (decide (x = m)), (decide (Y = X)); tauto). apply M2.
  - intros x. destruct (decide (x = m)) as [->|]; [by left; rewrite Im|]. rewrite Io by (by left). apply I.
  - intros Y x HY. rewrite Io by (by right). by apply O.
Qed.

(** *** The loops *)

Lemma each_ext {T} (proj : T -> Pipeline) (f : addr -> T -> option T) : forall l s s',
  (forall x s s', x ∈ l -> fine (proj s) -> f x s = Some s' ->
     fine (proj s') /\ ext (proj s) (proj s') /\ (cov (proj s) -> reader p0 X x -> x ∈ mods_of (proj s'))) ->
  fine (proj s) -> each f l s = Some s' ->
  fine (proj s') /\ ext (proj s) (proj s') /\ (cov (proj s) -> forall x, x ∈ l -> reader p0 X x -> x ∈ mods_of (proj s')).
Proof.
  induction l as [|x l IH]; intros s s' Hf F; cbn [each].
  - intros [= <-]. split; [done|]. split; [apply ext_refl|]. by intros _ x ?%elem_of_nil.
  - destruct (f x s) as [s1|] eqn:E; [|done]. rewrite bind_some. intros E'.
    destruct (Hf x s s1 ltac:(by constructor) F E) as (F1 & X1 & R1).
    destruct (IH s1 s') as (F2 & X2 & R2); [intros y t t' Hy; apply Hf; by constructor|done|done|].
    split; [done|]. split; [by eapply ext_trans|]. intros C y [->|Hy]%elem_of_cons Hr; [by apply (proj1 X2), R1|]. apply R2; [by apply X1|done|done].
Qed.

(** *** The traversals *)

Definition up_ext (fuel : nat) : Prop := forall m attr p q,
  fine p -> a_name attr = X -> TraverseUpstream fuel m attr p = Some q -> fine q /\ ext p q.

Definition down_ext (fuel : nat) : Prop := forall m attr p q b,
  fine p -> a_name attr = X -> TraverseDownstream fuel m attr p = Some (q, b) ->
  fine q /\ ext p q /\ (cov p -> reader p0 X m -> m ∈ mods_of q).

Definition identify_ext (fuel : nat) : Prop := forall m i attr p q,
  fine p -> role p0 X m = Some (i, kWrite) -> a_name attr = X -> IdentifyScopeComponent fuel m i attr p = Some q ->
  fine q /\ ext p q /\ ident X q m = N /\ (cov p -> full q m).

Lemma down_loop fuel attr l p q : down_ext fuel -> fine p -> a_name attr = X ->
  each (fun x p => '(p, _) ← TraverseDownstream fuel x attr p; Some p) l p = Some q ->
  fine q /\ ext p q /\ (cov p -> forall x, x ∈ l -> reader p0 X x -> x ∈ mods_of q).
Proof.
  intros D F En. apply (each_ext (fun p => p)); [|done]. intros x s s' _ Fs.
  destruct (TraverseDownstream fuel x attr s) as [[s1 b]|] eqn:Et; [|done]. rewrite bind_some. intros [= <-].
  by apply (D x attr s s1 b Fs En Et).
Qed.

Lemma down_loop_or fuel attr l (p q : Pipeline * bool) : down_ext fuel -> fine p.1 -> a_name attr = X ->
  each (fun x st => '(p, r) ← TraverseDownstream fuel x attr (st.1 : Pipeline); Some (p, st.2 || r)) l p = Some q ->
  fine q.1 /\ ext p.1 q.1.
Proof.
  intros D F En E. set (f := fun (x : addr) (st : Pipeline * bool) => _) in E.
  enough (Hf : forall x s s', x ∈ l -> fine s.1 -> f x s = Some s' ->
    fine s'.1 /\ ext s.1 s'.1 /\ (cov s.1 -> reader p0 X x -> x ∈ mods_of s'.1)).
  { by destruct (each_ext fst f l p q Hf F E) as (? & ? & _). }
  unfold f. intros x s s' _ Fs.
  destruct (TraverseDownstream fuel x attr s.1) as [[s1 b]|] eqn:Et; [|done]. rewrite bind_some. intros [= <-]. cbn [fst].
  by apply (D x attr s.1 s1 b Fs En Et).
Qed.

Lemma up_loop fuel attr l p q : up_ext fuel -> fine p -> a_name attr = X ->
  each (fun x p => TraverseUpstream fuel x attr p) l p = Some q -> fine q /\ ext p q.
Proof.
  intros U F En. revert p F. induction l as [|x l IH]; intros p F; cbn [each].
  - intros [= <-]. split; [done|apply ext_refl].
  - destruct (TraverseUpstream fuel x attr p) as [s|] eqn:Es; [|done]. rewrite bind_some. intros E. destruct (U x attr p s F En Es) as [Fs Xs].
    destruct (IH s Fs E) as [F3 X3]. split; [done|]. by apply (ext_trans _ s).
Qed.

Lemma identify_ext_step fuel : down_ext fuel -> identify_ext (S fuel).
Proof.
  intros D m i attr p q F Hr En. cbn [IdentifyScopeComponent].
  destruct (AddModuleToComponent m attr p) as [p1|] eqn:E1; [|done]. rewrite bind_some.
  destruct (fine_add p m attr p1 F E1) as (F1 & X1 & Hm1 & Eg1 & _). destruct (fine_current p1 F1) as [Ec _]. rewrite Ec.
  destruct (put_scope_id m i N p1) as [p2|] eqn:E2; [|done]. rewrite bind_some.
  destruct (fine_put p1 m i kWrite N p2 F1 Hr eq_refl E2) as (F2 & Em2 & Es2 & Ei2 & Eo2). destruct (fine_current p2 F2) as [_ Ecm]. rewrite Ecm.
  set (p3 := set_scope m N p2). assert (F3 : fine p3) by (apply fine_scope; auto).
  destruct (next_modules m p3) as [l|] eqn:En3; [|done]. rewrite bind_some. rewrite (fine_next p3 m l F3 En3). intros E.
  assert (Hw : writer p0 X m = true) by (unfold writer; by rewrite Hr).
  assert (Hnr : ~ reader p0 X m) by (intros H%writer_not_reader; congruence).
  destruct (down_loop fuel attr _ p3 q D F3 En E) as (Fq & (Sq & Nq & Cq) & Rq).
  assert (N3 : forall x, named p3 x <-> named p x \/ x = m).
  { intros x. unfold named. change (ident X p3 x) with (ident X p2 x). assert (I1 : ident X p1 x = ident X p x) by (unfold ident; by rewrite Eg1).
    destruct (decide (x = m)) as [->|Hx]; [rewrite Ei2; tauto|]. rewrite Eo2, I1 by done. tauto. }
  assert (C3 : cov p -> cov p3).
  { intros C. destruct (proj2 (proj2 X1) C) as [[C1 C2] _]. split.
    - intros x Hx. unfold scope_of, p3. cbn. destruct (decide (m = x)) as [->|Hne]; [done|]. rewrite lookup_insert_ne by done. rewrite Es2.
      intros Hs. change (x ∈ mods_of p2). rewrite Em2. by apply C1.
    - intros x [Hx| ->]%N3; change (mods_of p3) with (mods_of p2); rewrite Em2; [|done]. by apply C2, X1. }
  split; [done|]. split; [split; [|split]|split].
  - etrans; [apply X1|]. rewrite <- Em2. exact Sq.
  - intros x Hx. apply Nq, N3. by left.
  - intros C. destruct (Cq (C3 C)) as [Cq' Fq']. split; [done|]. intros x Hx. destruct (Fq' x Hx) as [[H| ->]%N3|H]; [by left| |by right].
    right. intros y Hy Hry. by apply Rq; [apply C3|..].
  - apply Nq. apply N3. by right.
  - intros C y Hy Hry. by apply Rq; [apply C3|..].
Qed.

Lemma up_ext_step fuel : up_ext fuel -> identify_ext fuel -> up_ext (S fuel).
Proof.
  intros U I m attr p q F En. cbn [TraverseUpstream].
  destruct (AddModuleToComponent m attr p) as [p1|] eqn:E1; [|done]. rewrite bind_some.
  destruct (fine_add p m attr p1 F E1) as (F1 & X1 & Hm1 & _ & _).
  destruct (FindAttr m attr p1) as [found|] eqn:Ef; [|done]. rewrite bind_some. pose proof (fine_find p1 m attr found F1 En Ef) as Hf.
  destruct (writes found) eqn:Ew.
  - destruct found as [[i a]|]; [|done]. destruct Hf as (Hr & Ea & _). cbn in Ew. apply bool_decide_eq_true in Ew. rewrite Ew in Hr.
    destruct (scope_id a =? -1); [|intros [= <-]; done]. intros E. destruct (I m i a p1 q F1 Hr Ea E) as (Fq & Xq & _). split; [done|].
    by apply (ext_trans _ p1).
  - destruct (fine_current p1 F1) as [Ec Em]. rewrite Ec, Em. destruct (scope_of m p1 =? N); [intros [= <-]; done|].
    set (p2 := set_scope m N p1). assert (F2 : fine p2) by (apply fine_scope; auto). assert (X2 : ext p p2) by (apply (ext_trans _ p1); [done|apply ext_scope; auto]).
    destruct (prev_modules m p2) as [l|]; [|done]. rewrite bind_some.
    destruct (each (fun x p => TraverseUpstream fuel x attr p) l p2) as [p3|] eqn:E3; [|done]. rewrite bind_some.
    pose proof (up_loop fuel attr l p2 p3 U F2 En E3) as H3.
    destruct H3 as [F3 X3]. destruct (mods (gr p3) !! m) as [c|]; [|done]. rewrite bind_some.
    assert (X13 : ext p p3) by (by apply (ext_trans _ p2)). case_decide; [|intros [= <-]; done].
    intros E. destruct (fine_back p3 (set_invalid true) q F3 ltac:(done) E) as (Fq & Xq & _). split; [done|]. by apply (ext_trans _ p3).
Qed.

Lemma down_ext_step fuel : up_ext fuel -> down_ext fuel -> down_ext (S fuel).
Proof.
  intros U D m attr p q b F En. cbn [TraverseDownstream]. destruct (fine_current p F) as [Ec Em]. rewrite Ec, Em.
  destruct (scope_of m p =? N) eqn:Es.
  { intros [= <- <-]. split; [done|]. split; [apply ext_refl|]. intros [C _] Hr. apply C; [done|]. by apply Z.eqb_eq. }
  set (p1 := set_scope m N p). assert (F1 : fine p1) by (apply fine_scope; auto).
  destruct (FindAttr m attr p1) as [found|] eqn:Ef; [|done]. rewrite bind_some. pose proof (fine_find p1 m attr found F1 En Ef) as Hf.
  destruct (next_modules m p1) as [l|] eqn:El; [|done]. rewrite bind_some.
  assert (Hfin : forall s t, fine s -> ext p s -> TraverseUpstream fuel m attr (set_scope m (-1) s) = Some t -> fine t /\ ext p t).
  { intros s t Fs Xs E. destruct (U m attr (set_scope m (-1) s) t) as [Ft Xt]; [apply fine_scope; auto|done|done|]. split; [done|].
    apply (ext_trans _ s); [done|]. apply (ext_trans _ (set_scope m (-1) s)); [|done]. apply ext_scope. left. lia. }
  destruct found as [[i a]|].
  - destruct Hf as (Hr & Ea & _). destruct (decide (mode a = kWrite)) as [Hmd|Hmd].
    + intros [= <- <-]. assert (Hnr : ~ reader p0 X m) by (intros (j & md & E & Hne); rewrite Hr in E; congruence).
      split; [apply fine_scope; auto|]. split; [|done]. apply (ext_trans _ p1); apply ext_scope; [by right; left|left; lia].
    + destruct (AddModuleToComponent m a p1) as [p2|] eqn:E2; [|done]. rewrite bind_some.
      destruct (ext_mark_add p m N a p2 F ltac:(by left) E2) as (F2 & X2 & Hm2). destruct (fine_current p2 F2) as [Ec2 _]. rewrite Ec2.
      destruct (put_scope_id m i N p2) as [p3|] eqn:E3; [|done]. rewrite bind_some.
      destruct (fine_put p2 m i (mode a) N p3 F2 Hr eq_refl E3) as (F3 & Em3 & Es3 & _ & Eo3).
      assert (X3 : ext p2 p3).
      { apply ext_step; [by rewrite Em3| |].
        - intros x _. unfold scope_of. rewrite Es3. by left.
        - intros x. unfold named. destruct (decide (x = m)) as [->|Hx]; [|by rewrite Eo3]. unfold writer. rewrite Hr. destruct (mode a); intuition congruence. }
      destruct (each _ l p3) as [p4|] eqn:E4; [|done]. rewrite bind_some.
      destruct (down_loop fuel attr l p3 p4 D F3 En E4) as (F4 & X4 & _).
      destruct (TraverseUpstream fuel m attr (set_scope m (-1) p4)) as [p5|] eqn:E5; [|done]. rewrite bind_some. intros [= <- <-].
      assert (X24 : ext p2 p4) by (by apply (ext_trans _ p3)).
      destruct (Hfin p4 p5 F4 ltac:(by apply (ext_trans _ p2)) E5) as [F5 X5]. split; [done|]. split; [done|]. intros _ _.
      destruct (U m attr (set_scope m (-1) p4) p5) as [_ (S5 & _)]; [apply fine_scope; auto|done|done|]. apply S5. change (m ∈ mods_of p4). by apply (proj1 X24).
  - destruct (each _ l (p1, false)) as [[p2 in_scope]|] eqn:E2; [|done]. rewrite bind_some.
    assert (Hnr : ~ reader p0 X m) by (intros (j & md & E & _); congruence).
    destruct (down_loop_or fuel attr l (p1, false) (p2, in_scope) D F1 En E2) as (F2 & X2). cbn [fst] in F2, X2.
    assert (X12 : ext p p2) by (apply (ext_trans _ p1); [apply ext_scope; by right; left|done]).
    destruct in_scope; [|intros [= <- <-]; done].
    destruct (AddModuleToComponent m attr p2) as [p3|] eqn:E3; [|done]. rewrite bind_some. destruct (fine_add p2 m attr p3 F2 E3) as (F3 & X3 & _).
    destruct (TraverseUpstream fuel m attr (set_scope m (-1) p3)) as [p4|] eqn:E4; [|done]. rewrite bind_some. intros [= <- <-].
    destruct (Hfin p3 p4 F3 ltac:(by apply (ext_trans _ p2)) E4) as [F4 X4]. done.
Qed.

Lemma traverse_ext fuel : up_ext fuel /\ down_ext fuel /\ identify_ext fuel.
Proof.
  induction fuel as [|fuel (U & D & I)]; [by split_and!|]. split; [by apply up_ext_step|]. split; [by apply down_ext_step|by apply identify_ext_step].
Qed.

End Cover.

(** A whole component. *)
Lemma identify_single_cover all p X m i a fuel q :
  let n := Z.of_nat (S (length (scope_components_ p))) in
  n < 2 ^ 15 -> (forall x, is_Some (mods (gr p) !! x) -> x ∈ all) -> marks_below all p (Z.of_nat (length (scope_components_ p))) ->
  role p X m = Some (i, kWrite) -> a_name a = X -> IdentifySingleScopeComponent fuel m i a p = Some q ->
  exists d, scope_components_ q = scope_components_ p ++ [d] /\ marks_below all q n /\
    (forall Y x, ident Y q x = ident Y p x \/ Y = X /\ ident X q x = n) /\ ident X q m = n /\
    (forall x, writer p X x = true -> ident X q x = n ->
      x ∈ modules_ d /\ forall y, y ∈ nexts p x -> reader p X y -> y ∈ modules_ d).
Proof.
  intros n HN Hall [M1 M2] Hr En. set (pre := scope_components_ p) in *. unfold IdentifySingleScopeComponent. fold pre.
  set (p1 := set_components (pre ++ [empty_component]) p).
  destruct (IdentifyScopeComponent fuel m i a p1) as [q1|] eqn:E1; [|done]. rewrite bind_some. intros E2.
  assert (F1 : fine all p X pre p1).
  { split; [by split_and!|by eexists| |by right|done]. split; [intros x Hx; specialize (M1 x Hx)|intros Y x; specialize (M2 Y x)].
    - change (scope_of x p1) with (scope_of x p). lia.
    - change (ident Y p1 x) with (ident Y p x). lia. }
  assert (C1 : cov p X pre p1).
  { split.
    - intros x (j & md & Hx & _) Hs. change (scope_of x p1) with (scope_of x p) in Hs. unfold role in Hx.
      destruct (mods (gr p) !! x) as [c|] eqn:Hc; [|done]. specialize (M1 x (Hall x ltac:(eauto))). lia.
    - intros x [_ Hs]. change (ident X p1 x) with (ident X p x) in Hs. specialize (M2 X x). lia. }
  destruct (traverse_ext all p X pre HN fuel) as (_ & _ & I). destruct (I m i a p1 q1 F1 Hr En E1) as (Fq & (_ & _ & Xq) & Im & _).
  destruct (Xq C1) as [[_ Cq] Fl]. destruct (fine_back all p X pre q1 (set_scope_id (current_mark q1)) q Fq ltac:(done) E2) as (F2 & _ & (c & Ec & Em) & Eg & Es).
  destruct (f_back _ _ _ _ _ F2) as [d Ed]. assert (Edm : modules_ d = mods_of q1).
  { rewrite <- (mods_snoc pre q d Ed), Em. by rewrite (mods_snoc pre q1 c Ec). }
  assert (Ei : forall Y x, ident Y q x = ident Y q1 x) by (intros; unfold ident; by rewrite Eg).
  exists d. split; [done|]. split; [apply F2|]. split; [|split; [by rewrite Ei|]].
  - intros Y x. destruct (decide (Y = X)) as [->|HY]; [|left; by apply F2]. destruct (f_ident _ _ _ _ _ F2 x); [by right|by left].
  - intros x Hw Hx. rewrite Ei in Hx. assert (Hn : named p X pre q1 x) by done. rewrite Edm. split; [by apply Cq|].
    destruct (Fl x Hn) as [[_ H]|H]; [|exact H]. change (ident X p1 x) with (ident X p x) in H. specialize (M2 X x). lia.
Qed.
