(* ===== verification/MetaProps.v ===== *)
(** * Metadata, from attributes to offsets

    [ComputeMetadataOffsets] on any graph of modules whose attributes have been
    declared with [AddMetadataAttr]: it returns, changes nothing but marks and offsets,
    and the offsets are as [offset_spec] says. *)

From stdpp Require Import strings gmap.
From S2P Require Import Prelude Pool PrioQueue Gates GateProps Metadata MetaOffsets MetaScopes MetaCover.

(** ** What the computation leaves alone *)

(** A module without the marks of its attributes and their offsets. *)
Definition bare (c : Module) : Module := set_offsets (replicate (length (attr_offsets_ c)) 0) (strip c).

(** The same modules and gates, but for scopes and offsets. *)
Definition kin (p q : Pipeline) : Prop :=
  igs (gr q) = igs (gr p) /\ ogs (gr q) = ogs (gr p) /\ registered_attrs_ q = registered_attrs_ p /\
  forall m, bare <$> mods (gr q) !! m = bare <$> mods (gr p) !! m.

Lemma kin_refl p : kin p p.
Proof. by split_and!. Qed.

Lemma kin_trans p q r : kin p q -> kin q r -> kin p r.
Proof. intros (A1 & A2 & A3 & A4) (B1 & B2 & B3 & B4). split_and!; congruence. Qed.

Lemma strip_bare c d : strip c = strip d -> bare c = bare d.
Proof. intros E. unfold bare. rewrite E. apply strip_gates in E as (_ & _ & -> & _). done. Qed.

Lemma alike_kin p q : alike p q -> kin p q.
Proof.
  intros (A1 & A2 & A3 & A4 & A5). split_and!; try done. intros m. specialize (A5 m).
  destruct (mods (gr q) !! m) as [c|], (mods (gr p) !! m) as [d|]; try done. cbn in *. f_equal. apply (inj Some) in A5. by apply strip_bare.
Qed.

Lemma kin_some p q m c : kin p q -> mods (gr p) !! m = Some c -> exists d, mods (gr q) !! m = Some d /\ bare d = bare c.
Proof.
  intros (_ & _ & _ & A) Hc. specialize (A m). rewrite Hc in A. destruct (mods (gr q) !! m) as [d|]; [|done].
  exists d. split; [done|]. by apply (inj Some) in A.
Qed.

Lemma kin_back p q m d : kin p q -> mods (gr q) !! m = Some d -> exists c, mods (gr p) !! m = Some c /\ bare d = bare c.
Proof.
  intros (_ & _ & _ & A) Hd. specialize (A m). rewrite Hd in A. destruct (mods (gr p) !! m) as [c|]; [|done].
  exists c. split; [done|]. by apply (inj Some) in A.
Qed.

Lemma bare_parts c d : bare d = bare c -> igates_ d = igates_ c /\ ogates_ d = ogates_ c /\ length (attr_offsets_ d) = length (attr_offsets_ c) /\
  map (set_attr_scope 0) (attrs_ d) = map (set_attr_scope 0) (attrs_ c).
Proof.
  intros E. unfold bare, strip, set_offsets, set_attrs in E. cbn in E. injection E as _ _ _ E1 E2 E3 E4. split_and!; try done.
  apply (f_equal length) in E2. by rewrite !length_replicate in E2.
Qed.

(** Modules with the same gates. *)
Definition wires (c : Module) : list (option addr) * list (option addr) := (igates_ c, ogates_ c).

Lemma gates_wires g g' : igs g' = igs g -> ogs g' = ogs g -> (forall m, wires <$> mods g' !! m = wires <$> mods g !! m) -> gates_ok g -> gates_ok g'.
Proof.
  intros E1 E2 M [H1 H2 H3 H4 H5 H6 H7].
  assert (So : forall m k og, oslot g' m k og <-> oslot g m k og).
  { intros m k og. unfold oslot. specialize (M m). destruct (mods g' !! m) as [d|], (mods g !! m) as [c|]; try done.
    injection M as _ E. split; intros (? & [= <-] & Hs); eexists; (split; [done|]); congruence. }
  assert (Si : forall m k i, islot g' m k i <-> islot g m k i).
  { intros m k i. unfold islot. specialize (M m). destruct (mods g' !! m) as [d|], (mods g !! m) as [c|]; try done.
    injection M as E _. split; intros (? & [= <-] & Hs); eexists; (split; [done|]); congruence. }
  split; rewrite ?E1, ?E2; try done.
  - intros m k og Hs%So. by apply H1.
  - intros og o Ho. apply So. by apply H2.
  - intros m k i Hs%Si. by apply H5.
  - intros i r Hr. apply Si. by apply H6.
Qed.

Lemma gates_kin p q : kin p q -> gates_ok (gr p) -> gates_ok (gr q).
Proof.
  intros (E1 & E2 & _ & M). apply gates_wires; [done|done|]. intros m. specialize (M m).
  destruct (mods (gr q) !! m) as [d|], (mods (gr p) !! m) as [c|]; try done. apply (inj Some) in M. apply bare_parts in M as (Ei & Eo & _). cbn. unfold wires. by rewrite Ei, Eo.
Qed.

(** An attribute of one of two related modules is one of the other, but for the scope. *)
Lemma bare_attr c d k a : bare d = bare c -> attrs_ d !! k = Some a ->
  exists b, attrs_ c !! k = Some b /\ a_name b = a_name a /\ a_size b = a_size a /\ mode b = mode a.
Proof.
  intros (_ & _ & _ & E)%bare_parts Ha. apply (f_equal (.!! k)) in E.
  change (map (set_attr_scope 0) (attrs_ d)) with (set_attr_scope 0 <$> attrs_ d) in E.
  change (map (set_attr_scope 0) (attrs_ c)) with (set_attr_scope 0 <$> attrs_ c) in E. rewrite !list_lookup_fmap, Ha in E.
  destruct (attrs_ c !! k) as [b|]; [|done]. cbn in E. injection E as E1 E2 E3. exists b. by rewrite E1, E2, E3.
Qed.

Lemma bare_names c d : bare d = bare c -> a_name <$> attrs_ d = a_name <$> attrs_ c /\ length (attrs_ d) = length (attrs_ c).
Proof.
  intros (_ & _ & _ & E)%bare_parts. split.
  - apply (f_equal (fmap (M := list) a_name)) in E. rewrite <- !list_fmap_compose in E. exact E.
  - apply (f_equal length) in E. by rewrite !length_map in E.
Qed.

Lemma attrs_ok_bare c d : bare d = bare c -> attrs_ok c -> attrs_ok d.
Proof.
  intros E (H1 & H2 & H3). destruct (bare_names c d E) as [En El]. apply bare_parts in E as (_ & _ & E3 & _).
  unfold attrs_ok. rewrite En, El, E3. done.
Qed.

(** Relatives have the same attributes and the same connections. *)
Lemma bare_role X c d : bare d = bare c -> role_in X (attrs_ d) = role_in X (attrs_ c).
Proof. intros (_ & _ & _ & E)%bare_parts. by rewrite <- role_strip, E, role_strip. Qed.

Lemma role_kin p q X m : kin p q -> role q X m = role p X m.
Proof.
  intros A. unfold role. destruct (mods (gr p) !! m) as [c|] eqn:Hc.
  - destruct (kin_some p q m c A Hc) as (d & -> & E). cbn. by apply bare_role.
  - destruct (mods (gr q) !! m) as [d|] eqn:Hd; [|done]. destruct (kin_back p q m d A Hd) as (c & Hc' & _). congruence.
Qed.

Lemma nexts_kin p q m : kin p q -> nexts q m = nexts p m.
Proof.
  intros A. unfold nexts, next_modules. pose proof A as (E1 & E2 & _).
  assert (D : forall l, downstream_of (gr q) l = downstream_of (gr p) l).
  { induction l as [|[i|] l IH]; [done| |exact IH]. cbn. by rewrite E1, E2, IH. }
  destruct (mods (gr p) !! m) as [c|] eqn:Hc.
  - destruct (kin_some p q m c A Hc) as (d & -> & (_ & E & _)%bare_parts). rewrite !bind_some, E. by rewrite D.
  - destruct (mods (gr q) !! m) as [d|] eqn:Hd; [|done]. destruct (kin_back p q m d A Hd) as (c & Hc' & _). congruence.
Qed.

Lemma carries_kin p q X m : kin p q -> carries q X m -> carries p X m.
Proof.
  intros A [H|H]; [left|right].
  - unfold writer in *. by rewrite <- (role_kin p q X m A).
  - induction H as [m i md Hr|m x Hr Hx _ IH].
    + apply (live_reads p X m i md); [by rewrite <- (role_kin p q X m A)|done].
    + apply (live_next p X m x); [by rewrite <- (role_kin p q X m A)|by rewrite <- (nexts_kin p q m A)|done].
Qed.

(** A change of one module that keeps the rest. *)
Lemma kin_upd p m f c : mods (gr p) !! m = Some c -> bare (f c) = bare c ->
  exists g, upd_mod m f (gr p) = Some g /\ kin p (set_gr g p) /\ mods g !! m = Some (f c) /\ forall x, x <> m -> mods g !! x = mods (gr p) !! x.
Proof.
  intros Hm E. destruct (upd_mod_some m f (gr p) c Hm) as (g & -> & E1 & E2 & M). exists g. split; [done|].
  assert (Hg : mods g !! m = Some (f c)) by (by rewrite M, Hm, decide_True).
  assert (Ho : forall x, x <> m -> mods g !! x = mods (gr p) !! x) by (intros x Hx; rewrite M, decide_False by done; by destruct (mods (gr p) !! x)).
  split; [|by split]. split; [done|]. split; [done|]. split; [done|]. intros x. cbn.
  destruct (decide (x = m)) as [->|Hx]; [rewrite Hg, Hm; cbn; by rewrite E|by rewrite Ho].
Qed.

Lemma bare_only_offsets c d : only_offsets c d -> bare d = bare c.
Proof. intros [E El]. unfold bare. rewrite El, E. done. Qed.

(** ** The declarations *)

Definition size_of (p : Pipeline) (X : string) : Z := match registered_attrs_ p !! X with Some (s, _) => s | None => 0 end.

(** The modules are [all], and their attributes are of the sizes registered. *)
Record pipeline_ok (all : list addr) (p : Pipeline) : Prop := {
  pl_gates : graph_ok (gr p);
  pl_all : forall m, m ∈ all <-> is_Some (mods (gr p) !! m);
  pl_attrs : forall m c, mods (gr p) !! m = Some c -> attrs_ok c;
  pl_sizes : forall m c a, mods (gr p) !! m = Some c -> a ∈ attrs_ c ->
    is_Some (registered_attrs_ p !! a_name a) /\ a_size a = size_of p (a_name a) /\ 1 <= a_size a <= kMetadataAttrMaxSize;
  pl_start : scope_components_ p = []
}.

Lemma graph_kin p q : kin p q -> graph_ok (gr p) -> graph_ok (gr q).
Proof.
  intros A [K B]. split; [by apply (gates_kin p)|]. intros m d Hd. destruct (kin_back p q m d A Hd) as (c & Hc & E).
  pose proof (bare_parts c d E) as (-> & _). unfold bare, strip, set_offsets, set_attrs in E. injection E as _ -> _ _ _ _ _. by apply (B m).
Qed.

Lemma pipeline_kin all p q : pipeline_ok all p -> kin p q -> scope_components_ q = [] -> pipeline_ok all q.
Proof.
  intros P A Es. pose proof A as (_ & _ & Er & _). split; [by apply (graph_kin p), P| | | |done].
  - intros m. rewrite (pl_all _ _ P). split; intros [c Hc].
    + destruct (kin_some p q m c A Hc) as (d & ? & _). eauto.
    + destruct (kin_back p q m c A Hc) as (d & ? & _). eauto.
  - intros m d Hd. destruct (kin_back p q m d A Hd) as (c & Hc & E). apply (attrs_ok_bare c); [done|by apply (pl_attrs _ _ P m)].
  - intros m d a Hd [k Ha]%list_elem_of_lookup. destruct (kin_back p q m d A Hd) as (c & Hc & E).
    destruct (bare_attr c d k a E Ha) as (b & Hb & En & Ez & _). unfold size_of. rewrite Er, <- En, <- Ez.
    apply (pl_sizes _ _ P m c b); [done|by eapply list_elem_of_lookup_2].
Qed.

Section Whole.
Context (p0 : Pipeline) (all : list addr) (P : pipeline_ok all p0).

Definition comp_ok (d : ScopeComponent) : Prop :=
  assigned_ d = false /\ size_ d = size_of p0 (attr_id_ d) /\ size_ok d /\
  forall x, x ∈ modules_ d -> is_Some (mods (gr p0) !! x) /\ carries p0 (attr_id_ d) x.

(** The writer [x] of [X] and the readers after it are in a component of [ds]. *)
Definition covers (ds : list ScopeComponent) (X : string) (x : addr) : Prop :=
  exists d, d ∈ ds /\ attr_id_ d = X /\ x ∈ modules_ d /\ forall y, y ∈ nexts p0 x -> reader p0 X y -> y ∈ modules_ d.

(** Writers with a mark are in a component. *)
Definition covered (p : Pipeline) : Prop :=
  marks_below all p (Z.of_nat (length (scope_components_ p))) /\
  forall X x, writer p0 X x = true -> ident X p x <> -1 -> covers (scope_components_ p) X x.

(** The state between the steps of the computation. *)
Definition scanned (p : Pipeline) : Prop :=
  kin p0 p /\ (forall m, m ∈ all -> exists arr, module_components_ p !! m = Some arr /\ length arr = Z.to_nat kMetadataTotalSize) /\
  (forall d, d ∈ scope_components_ p -> comp_ok d) /\ covered p.

Definition cleared (p : Pipeline) (m : addr) (k : nat) : Prop :=
  exists c o, mods (gr p) !! m = Some c /\ attr_offsets_ c !! k = Some o /\ o < 0.

(** Attribute [k] of the module, if it is written, has been given a mark. *)
Definition marked (p : Pipeline) (m : addr) (k : nat) : Prop :=
  forall c a, mods (gr p0) !! m = Some c -> attrs_ c !! k = Some a -> mode a = kWrite -> ident (a_name a) p m <> -1.

Definition clear_at (p : Pipeline) (m : addr) (k : nat) : Prop := cleared p m k /\ marked p m k.

(** The module has no mark. *)
Definition unmarked (p : Pipeline) (m : addr) : Prop :=
  scope_of m p = -1 /\ forall X, ident X p m = -1 \/ role p0 X m = None /\ ident X p m = 0.

Lemma prepare_one_ok m p : kin p0 p -> m ∈ all ->
  exists q, prepare_one m p = Some q /\ kin p0 q /\ scope_components_ q = scope_components_ p /\
    (forall x, x = m \/ unmarked p x -> unmarked q x) /\
    forall x, module_components_ q !! x = if decide (x = m) then Some (replicate (Z.to_nat kMetadataTotalSize) (-1)) else module_components_ p !! x.
Proof.
  intros A [c0 Hc0]%(pl_all _ _ P). destruct (kin_some p0 p m c0 A Hc0) as (c & Hc & _). unfold prepare_one.
  destruct (kin_upd p m (fun c => set_attrs (map (set_attr_scope (-1)) (attrs_ c)) c) c Hc) as (g & -> & Hk & Hgm & Ho).
  { unfold bare, strip, set_offsets, set_attrs. cbn. f_equal. rewrite map_map. by apply map_ext. }
  rewrite bind_some. eexists. split; [done|]. split; [|split; [done|split]].
  - apply (kin_trans _ p); [done|]. destruct Hk as (K1 & K2 & K3 & K4). by split_and!.
  - intros x Hx. destruct (decide (x = m)) as [->|Hne].
    + split; [unfold scope_of; cbn; by rewrite lookup_insert_eq|]. intros X. unfold ident. cbn. rewrite Hgm. cbn.
      rewrite <- (role_kin p0 p X m A). unfold role. rewrite Hc. cbn. unfold role_in.
      change (map (set_attr_scope (-1)) (attrs_ c)) with (set_attr_scope (-1) <$> attrs_ c). rewrite list_find_fmap.
      change (list_find ((fun it => a_name it = X) ∘ set_attr_scope (-1)) (attrs_ c)) with (list_find (fun it => a_name it = X) (attrs_ c)).
      destruct (list_find (fun it => a_name it = X) (attrs_ c)) as [[j b]|]; [by left|by right].
    + destruct Hx as [|[H1 H2]]; [done|]. split; [unfold scope_of; cbn; by rewrite lookup_insert_ne|]. intros X. specialize (H2 X).
      unfold ident in *. cbn. by rewrite Ho.
  - intros x. cbn. case_decide as E; [by rewrite E, lookup_insert_eq|by rewrite lookup_insert_ne].
Qed.

Lemma prepare_ok : exists q, PrepareMetadataComputation all p0 = Some q /\ scanned q /\ scope_components_ q = [].
Proof.
  unfold PrepareMetadataComputation.
  assert (H : forall l p, (forall m, m ∈ l -> m ∈ all) -> kin p0 p -> exists q, each prepare_one l p = Some q /\ kin p0 q /\
    scope_components_ q = scope_components_ p /\ (forall x, x ∈ l \/ unmarked p x -> unmarked q x) /\
    forall x, module_components_ q !! x = if decide (x ∈ l) then Some (replicate (Z.to_nat kMetadataTotalSize) (-1)) else module_components_ p !! x).
  { induction l as [|m l IH]; intros p Hl A; cbn [each].
    - exists p. do 3 (split; [done|]). split; [by intros x [?%elem_of_nil|]|]. intros x. rewrite decide_False; [done|apply not_elem_of_nil].
    - destruct (prepare_one_ok m p A (Hl m ltac:(by constructor))) as (p1 & -> & A1 & E1 & U1 & M1). rewrite bind_some.
      destruct (IH p1 (fun x Hx => Hl x ltac:(by constructor)) A1) as (q & -> & A' & E' & U' & M'). exists q. split; [done|]. split; [done|].
      split; [congruence|]. split; [intros x [[->|Hx]%elem_of_cons|Hx]; apply U'; auto|]. intros x. rewrite M'. destruct (decide (x ∈ l)); [by rewrite decide_True by (by constructor)|]. rewrite M1.
      destruct (decide (x = m)) as [->|]; [by rewrite decide_True by constructor|]. rewrite decide_False; [done|]. by intros [?|?]%elem_of_cons. }
  destruct (H all p0 (fun _ Hx => Hx) (kin_refl p0)) as (q & E & A & Es & U & M). exists q. split; [done|]. rewrite Es, (pl_start _ _ P).
  split; [|done]. split; [done|]. rewrite Es, (pl_start _ _ P). split; [|split; [by intros d ?%elem_of_nil|]].
  2: { assert (Hi : forall X x, ident X q x = -1 \/ role p0 X x = None /\ ident X q x = 0).
       { intros X x. destruct (decide (x ∈ all)) as [Hx|Hx]; [by apply U; left|right]. unfold role, ident.
         destruct (mods (gr p0) !! x) as [c|] eqn:Hc; [destruct Hx; apply (pl_all _ _ P); eauto|].
         destruct (mods (gr q) !! x) as [d|] eqn:Hd; [|done]. destruct (kin_back p0 q x d A Hd) as (c & Hc' & _). congruence. }
       split; [rewrite Es, (pl_start _ _ P); split|].
       - intros x Hx. destruct (U x (or_introl Hx)) as [-> _]. done.
       - intros X x. destruct (Hi X x) as [->|[_ ->]]; done.
       - intros X x Hw Hne. destruct (Hi X x) as [|[Hr _]]; [done|]. unfold writer in Hw. by rewrite Hr in Hw. }
  intros m Hm. rewrite M, decide_True by done. eexists. split; [done|]. by rewrite length_replicate.
Qed.

Lemma modules_few : (base.size (mods (gr p0)) <= length all)%nat.
Proof.
  rewrite <- size_dom. unfold base.size, set_size. cbn. apply submseteq_length, NoDup_submseteq; [apply NoDup_elements|].
  intros m Hm%elem_of_elements%elem_of_dom. by apply (pl_all _ _ P).
Qed.

Lemma cleared_kept p q : (forall m c, mods (gr p) !! m = Some c -> exists d, mods (gr q) !! m = Some d /\ attr_offsets_ d = attr_offsets_ c) ->
  forall m k, cleared p m k -> cleared q m k.
Proof. intros H m k (c & o & Hc & Ho & Hneg). destruct (H m c Hc) as (d & Hd & E). exists d, o. by rewrite E. Qed.

Lemma clear_kept p q : (forall m c, mods (gr p) !! m = Some c -> exists d, mods (gr q) !! m = Some d /\ attr_offsets_ d = attr_offsets_ c) ->
  (forall X x, ident X p x <> -1 -> ident X q x <> -1) -> forall m k, clear_at p m k -> clear_at q m k.
Proof.
  intros H HI m k [Hcl Hmk]. split.
  - by apply (cleared_kept p).
  - intros c0 a Hc0 Ha Hw. by apply HI, (Hmk c0).
Qed.

Lemma writer_kin p X m : kin p0 p -> writer p X m = writer p0 X m.
Proof. intros A. unfold writer. by rewrite (role_kin p0 p X m A). Qed.

Lemma reader_kin p X m : kin p0 p -> reader p X m <-> reader p0 X m.
Proof. intros A. unfold reader. by rewrite (role_kin p0 p X m A). Qed.

Lemma covered_same p q : scope_components_ q = scope_components_ p -> (forall x, scope_of x q = scope_of x p) ->
  (forall X x, ident X q x = ident X p x) -> covered p -> covered q.
Proof.
  intros Es Esc Ei [[M1 M2] C]. rewrite <- Es in *. split; [split|].
  - intros x Hx. rewrite Esc. by apply M1.
  - intros X x. by rewrite Ei.
  - intros X x. rewrite Ei. by apply C.
Qed.

(** A new component, from an attribute that has none. *)
Lemma identify_scanned fuel p m c i a :
  scanned p -> (3 * length all <= fuel)%nat -> Z.of_nat (S (length (scope_components_ p))) < 2 ^ 15 ->
  mods (gr p) !! m = Some c -> attrs_ c !! i = Some a -> mode a = kWrite -> scope_id a = -1 ->
  exists q, IdentifySingleScopeComponent fuel m i a p = Some q /\ scanned q /\ length (scope_components_ q) = S (length (scope_components_ p)) /\
    ident (a_name a) q m <> -1 /\ (forall x k, cleared p x k -> cleared q x k) /\ forall x k, clear_at p x k -> clear_at q x k.
Proof.
  intros (A & Harr & Hd & Cv) Hfuel HN Hc Ha Hmd Hid. destruct (kin_back p0 p m c A Hc) as (c0 & Hc0 & Ec).
  assert (Hattr : forall x c b, mods (gr p) !! x = Some c -> b ∈ attrs_ c ->
    a_size b = size_of p0 (a_name b) /\ 1 <= a_size b <= kMetadataAttrMaxSize).
  { intros x d b Hx [k Hk]%list_elem_of_lookup. destruct (kin_back p0 p x d A Hx) as (d0 & Hd0 & Ed).
    destruct (bare_attr d0 d k b Ed Hk) as (b0 & Hb0 & En & Es & _). destruct (pl_sizes _ _ P x d0 b0 Hd0) as (_ & H); [by eapply list_elem_of_lookup_2|].
    by rewrite En, Es in H. }
  assert (Hok : attrs_ok c) by (apply (attrs_ok_bare c0); [done|by apply (pl_attrs _ _ P m)]).
  destruct (identify_single_ok p (a_name a) (a_size a) m c i a fuel) as (q & d & E & A2 & C & D1 & D2 & D3 & D4 & D5 & D6).
  - apply (gates_kin p0); [done|apply (pl_gates _ _ P)].
  - done.
  - intros x e b Hx Hb En. destruct (Hattr x e b Hx Hb) as [-> _], (Hattr m c a Hc) as [-> _]; [by eapply list_elem_of_lookup_2|]. by rewrite En.
  - done.
  - by apply find_attr_ok.
  - done.
  - done.
  - etrans; [|exact Hfuel]. apply Nat.mul_le_mono_l. etrans; [|apply modules_few].
    rewrite <- !size_dom. apply subseteq_size. intros x [e He]%elem_of_dom. apply elem_of_dom. destruct (kin_back p0 p x e A He) as (e0 & ? & _). eauto.
  - exists q. split; [done|]. destruct (Hattr m c a Hc) as [Esz Hsz]; [by eapply list_elem_of_lookup_2|].
    assert (Hro : role p (a_name a) m = Some (i, kWrite)).
    { unfold role. rewrite Hc. cbn. unfold role_in. rewrite (find_attr_ok c i a Hok Ha). cbn. by rewrite Hmd. }
    destruct (identify_single_cover all p (a_name a) m i a fuel q HN) as (d' & C' & MB & Ids & Im & Cov); [|apply Cv|done|done|done|].
    { intros x [e He]. destruct (kin_back p0 p x e A He) as (e0 & He0 & _). apply (pl_all _ _ P). eauto. }
    assert (d' = d) as -> by (rewrite C in C'; apply app_inj_tail in C' as [_ ?]; done).
    assert (Hstay : forall Y x, ident Y p x <> -1 -> ident Y q x <> -1).
    { intros Y x Hx. destruct (Ids Y x) as [->|[-> ->]]; [done|lia]. }
    split; [|split; [rewrite C, length_app; cbn; lia|split; [rewrite Im; lia|]]].
    + split; [by apply (kin_trans _ p), alike_kin|]. pose proof A2 as (_ & _ & E3 & _). rewrite E3. split; [done|]. rewrite C.
      split; [|split].
      2: { rewrite C, length_app. cbn [length]. replace (length (scope_components_ p) + 1)%nat with (S (length (scope_components_ p))) by lia. exact MB. }
      2: { rewrite C. intros Y x Hw Hx. destruct (decide (ident Y p x = -1)) as [E1|E1].
           - destruct (Ids Y x) as [E2|[-> EN]]; [congruence|]. destruct (Cov x) as [Hx1 Hx2]; [by rewrite (writer_kin p)|done|].
             exists d. split; [apply elem_of_app; right; by apply list_elem_of_singleton|]. split; [done|]. split; [done|].
             intros y Hy Hr. apply Hx2; [by rewrite (nexts_kin p0 p x A)|by apply (reader_kin p)].
           - destruct (proj2 Cv Y x Hw E1) as (e & He & H1). exists e. split; [apply elem_of_app; by left|done]. }
      intros e [He|He%list_elem_of_singleton]%elem_of_app; [by apply Hd|]. subst e. split; [done|]. rewrite D4, D5. split; [done|].
      split; [unfold size_ok; by rewrite D5|]. intros x Hx. destruct (D6 x Hx) as [[e He] Hx2]. split; [|by apply (carries_kin p0 p)].
      destruct (kin_back p0 p x e A He) as (e0 & ? & _). eauto.
    + assert (Hoff : forall x e, mods (gr p) !! x = Some e -> exists e2, mods (gr q) !! x = Some e2 /\ attr_offsets_ e2 = attr_offsets_ e).
      { intros x e He. destruct (alike_some p q x e A2 He) as (e2 & He2 & (_ & _ & Eo & _)%strip_gates). eauto. }
      split; [by apply cleared_kept|by apply clear_kept].
Qed.

(** One round of the loop over the attributes of a module. *)
Lemma scan_step fuel m n i p c0 :
  scanned p -> (3 * length all <= fuel)%nat -> Z.of_nat (S (length (scope_components_ p))) < 2 ^ 15 ->
  mods (gr p0) !! m = Some c0 -> (i < length (attrs_ c0))%nat ->
  exists q, scan_attrs fuel m (S n) i p = scan_attrs fuel m n (S i) q /\ scanned q /\
    (length (scope_components_ q) <= S (length (scope_components_ p)))%nat /\ (forall x k, clear_at p x k -> clear_at q x k) /\ clear_at q m i.
Proof.
  intros (A & Harr & Hd & Cv) Hfuel HN Hc0 Hi. destruct (kin_some p0 p m c0 A Hc0) as (c & Hc & Ec). destruct (bare_names c0 c Ec) as [_ El].
  destruct (lookup_lt_is_Some_2 (attrs_ c) i ltac:(lia)) as [a Ha]. cbn [scan_attrs]. rewrite Hc, bind_some, Ha, bind_some.
  set (v := if decide (mode a = kWrite) then _ else _). assert (Hv : v < 0) by (unfold v; by case_decide).
  destruct (kin_upd p m (set_attr_offset i v) c Hc) as (g & -> & Hk & Hg & Ho); [apply bare_only_offsets, only_offsets_set|]. rewrite bind_some.
  assert (Hok : attrs_ok c) by (apply (attrs_ok_bare c0); [done|by apply (pl_attrs _ _ P m)]). pose proof Hok as (_ & H16 & Hlen).
  set (p1 := set_gr g p).
  assert (Ip : forall X x, ident X p1 x = ident X p x).
  { intros X x. unfold ident. cbn. destruct (decide (x = m)) as [->|]; [|by rewrite Ho]. rewrite Hg, Hc. cbn.
    by rewrite (only_offsets_attrs c) by apply only_offsets_set. }
  assert (S1 : scanned p1) by (split; [by apply (kin_trans _ p)|split; [done|split; [done|by apply (covered_same p)]]]).
  assert (Hmark : forall q, (mode a = kWrite -> ident (a_name a) q m <> -1) -> marked q m i).
  { intros q Hq c1 b Hc1 Hb Hmd. assert (c1 = c0) as -> by congruence. destruct (bare_attr c0 c i a Ec Ha) as (b' & Hb' & En & _ & Em).
    assert (b' = b) as -> by congruence. rewrite En. apply Hq. congruence. }
  assert (Es : set_attr_offset i v c = set_offsets (<[i := v]> (attr_offsets_ c)) c) by (unfold set_attr_offset; rewrite decide_True by lia; done).
  assert (C1 : cleared p1 m i).
  { exists (set_attr_offset i v c), v. split; [exact Hg|]. rewrite Es. split; [|done]. cbn. apply list_lookup_insert_eq. lia. }
  assert (Ck : forall x k, clear_at p x k -> clear_at p1 x k).
  { intros x k [(e & o & He & Hek & Hneg) Hmk]. split; [|intros c1 b Hc1 Hb Hmd; rewrite Ip; by apply (Hmk c1)].
    destruct (decide (x = m)) as [->|Hx]; [|exists e, o; cbn; by rewrite Ho].
    rewrite Hc in He. injection He as <-. destruct (decide (k = i)) as [->|Hki]; [done|]. exists (set_attr_offset i v c), o. split; [exact Hg|].
    rewrite Es. cbn. by rewrite list_lookup_insert_ne. }
  assert (Hstop : (mode a = kWrite -> scope_id a <> -1) -> scanned p1 /\ (length (scope_components_ p1) <= S (length (scope_components_ p)))%nat /\
    (forall x k, clear_at p x k -> clear_at p1 x k) /\ clear_at p1 m i).
  { intros Hid. split; [done|]. split; [cbn; lia|]. split; [done|]. split; [done|]. apply Hmark. intros Hmd. rewrite Ip. unfold ident. rewrite Hc. cbn.
    rewrite (find_attr_ok c i a Hok Ha). cbn. by apply Hid. }
  destruct (decide (mode a = kWrite)) as [Hmd|]; [|rewrite bind_some; exists p1; split; [done|]; by apply Hstop].
  destruct (scope_id a =? -1) eqn:Eid; [|rewrite bind_some; exists p1; split; [done|]; apply Hstop; intros _; by apply Z.eqb_neq].
  destruct (identify_scanned fuel p1 m (set_attr_offset i v c) i a S1 Hfuel HN Hg) as (q & -> & Sq & Lq & Iq & Kq & Cq); [|done|lia|].
  { by rewrite (only_offsets_attrs c) by apply only_offsets_set. }
  rewrite bind_some. exists q. split; [done|]. split; [done|]. split; [cbn in Lq; lia|]. split; [intros; by apply Cq, Ck|].
  split; [by apply Kq|by apply Hmark].
Qed.

Lemma scan_attrs_ok fuel m c0 : (3 * length all <= fuel)%nat -> mods (gr p0) !! m = Some c0 -> forall n i p,
  scanned p -> (i + n = length (attrs_ c0))%nat -> Z.of_nat (length (scope_components_ p) + n) < 2 ^ 15 ->
  exists q, scan_attrs fuel m n i p = Some q /\ scanned q /\ (length (scope_components_ q) <= length (scope_components_ p) + n)%nat /\
    (forall x k, clear_at p x k -> clear_at q x k) /\ forall k, (i <= k < i + n)%nat -> clear_at q m k.
Proof.
  intros Hfuel Hc0. induction n as [|n IH]; intros i p Hs Hi HN.
  { exists p. split; [done|]. split; [done|]. split; [lia|]. split; [done|]. intros. lia. }
  destruct (scan_step fuel m n i p c0 Hs Hfuel ltac:(lia) Hc0 ltac:(lia)) as (p1 & -> & S1 & L1 & K1 & C1).
  destruct (IH (S i) p1 S1 ltac:(lia) ltac:(lia)) as (q & E & Sq & Lq & Kq & Cq). exists q. split; [done|]. split; [done|]. split; [lia|].
  split; [intros; by apply Kq, K1|]. intros k Hk. destruct (decide (k = i)) as [->|]; [by apply Kq|]. apply Cq. lia.
Qed.

Lemma scan_all_ok fuel : (3 * length all <= fuel)%nat -> forall l p,
  (forall m, m ∈ l -> m ∈ all) -> scanned p -> Z.of_nat (length (scope_components_ p) + kMaxAttrsPerModule * length l) < 2 ^ 15 ->
  exists q, each (scan_module fuel) l p = Some q /\ scanned q /\ (forall x k, clear_at p x k -> clear_at q x k) /\
    forall m c k, m ∈ l -> mods (gr p0) !! m = Some c -> (k < length (attrs_ c))%nat -> clear_at q m k.
Proof.
  intros Hfuel. induction l as [|m l IH]; intros p Hl Hs HN; cbn [each].
  { exists p. split; [done|]. split; [done|]. split; [done|]. by intros m c k ?%elem_of_nil. }
  destruct (proj1 (pl_all _ _ P m) (Hl m ltac:(by constructor))) as [c0 Hc0]. destruct (pl_attrs _ _ P m c0 Hc0) as (_ & H16 & _).
  pose proof (proj1 Hs) as A. destruct (kin_some p0 p m c0 A Hc0) as (c & Hc & Ec). destruct (bare_names c0 c Ec) as [_ El].
  assert (Esm : scan_module fuel m p = scan_attrs fuel m (length (attrs_ c0)) 0 p) by (unfold scan_module; by rewrite Hc, bind_some, El).
  rewrite Esm. cbn [length] in HN.
  destruct (scan_attrs_ok fuel m c0 Hfuel Hc0 (length (attrs_ c0)) 0 p Hs ltac:(lia) ltac:(lia)) as (p1 & -> & S1 & L1 & K1 & C1). rewrite bind_some.
  destruct (IH p1 (fun x Hx => Hl x ltac:(by constructor)) S1 ltac:(lia)) as (q & -> & Sq & Kq & Cq). exists q. split; [done|]. split; [done|].
  split; [intros; by apply Kq, K1|]. intros x c' k [->|Hx]%elem_of_cons Hc' Hk; [|by apply (Cq x c')].
  apply Kq, C1. rewrite Hc0 in Hc'. injection Hc' as <-. lia.
Qed.

(** *** Degrees and sorting *)

Lemma degrees_forall (Q : ScopeComponent -> Prop) l : (forall c, Q c -> Q (incr_degree c)) -> Forall Q l -> Forall Q (ComputeScopeDegrees l).
Proof.
  intros H. unfold ComputeScopeDegrees. assert (Hstep : forall i j l, Forall Q l -> Forall Q (degree_step i j l)).
  { intros i j k F. unfold degree_step. destruct (k !! i), (k !! j); try done. case_match; [done|].
    apply Forall_alter; [apply Forall_alter; [done|]|]; intros x _; apply H. }
  generalize (length l). intros n. generalize (seq 0 n). intros is0. revert l. induction is0 as [|i is0 IH]; intros l F; cbn; [done|].
  apply IH. clear IH. generalize (seq (S i) (n - S i)). intros js. revert l F. induction js as [|j js IH]; intros l F; cbn; [done|]. by apply IH, Hstep.
Qed.

Lemma degrees_exists (Q : ScopeComponent -> Prop) l d : (forall c, Q c -> Q (incr_degree c)) -> d ∈ l -> Q d ->
  exists e, e ∈ ComputeScopeDegrees l /\ Q e.
Proof.
  intros H Hd Hq. unfold ComputeScopeDegrees. set (E := fun l : list ScopeComponent => exists e, e ∈ l /\ Q e). change (E (ComputeScopeDegrees l)).
  assert (Ha : forall i l, E l -> E (alter incr_degree i l)).
  { intros i k (e & [j Hj]%list_elem_of_lookup & He). destruct (decide (i = j)) as [->|Hij].
    - exists (incr_degree e). split; [|by apply H]. apply (list_elem_of_lookup_2 _ j). by rewrite list_lookup_alter_eq, Hj.
    - exists e. split; [|done]. apply (list_elem_of_lookup_2 _ j). by rewrite list_lookup_alter_ne. }
  assert (Hstep : forall i j l, E l -> E (degree_step i j l)).
  { intros i j k F. unfold degree_step. destruct (k !! i), (k !! j); try done. case_match; [done|]. by apply Ha, Ha. }
  assert (E0 : E l) by (by exists d). clear Hd Hq. unfold ComputeScopeDegrees.
  generalize (length l). intros n. generalize (seq 0 n). intros is0. revert l E0. induction is0 as [|i is0 IH]; intros l F; cbn; [done|].
  apply IH. clear IH. generalize (seq (S i) (n - S i)). intros js. revert l F. induction js as [|j js IH]; intros l F; cbn; [done|]. by apply IH, Hstep.
Qed.

Lemma comp_ok_degree c : comp_ok c -> comp_ok (incr_degree c).
Proof. done. Qed.

(** What is given to [AssignOffsets]. *)
Lemma scanned_fillable sort p :
  (forall l, sort l ≡ₚ l) -> scanned p -> (forall m c k, m ∈ all -> mods (gr p0) !! m = Some c -> (k < length (attrs_ c))%nat -> clear_at p m k) ->
  let l := sort (ComputeScopeDegrees (scope_components_ p)) in
  (forall c, c ∈ l -> comp_ok c) /\ fillable l (set_components l p) /\ forall X x, writer p0 X x = true -> covers l X x.
Proof.
  intros Hsort (A & Harr & Hd & Cv) Hclear l.
  assert (Hl : forall c, c ∈ l -> comp_ok c).
  { intros c Hc. unfold l in Hc. rewrite Hsort in Hc. revert c Hc. apply Forall_forall, degrees_forall; [exact comp_ok_degree|by apply Forall_forall]. }
  split; [done|]. split; [split|].
  3: { intros X x Hw. assert (Hr : exists i, role p0 X x = Some (i, kWrite)).
       { unfold writer in Hw. destruct (role p0 X x) as [[i []]|]; eauto; done. }
       destruct Hr as [i Hr]. pose proof Hr as Hr0. unfold role in Hr. destruct (mods (gr p0) !! x) as [c|] eqn:Hc; [|done]. cbn in Hr.
       unfold role_in in Hr. destruct (list_find _ (attrs_ c)) as [[j a]|] eqn:Ef; [|done]. injection Hr as -> Hmd.
       apply list_find_Some in Ef as (Ha & En & _). destruct (Hclear x c i) as [_ Hmk]; [apply (pl_all _ _ P); eauto|done|by eapply lookup_lt_Some|].
       destruct (proj2 Cv X x Hw) as (d & Hdin & Hdq); [rewrite <- En; by apply (Hmk c a)|].
       destruct (degrees_exists (fun d => attr_id_ d = X /\ x ∈ modules_ d /\ forall y, y ∈ nexts p0 x -> reader p0 X y -> y ∈ modules_ d)
         (scope_components_ p) d) as (e & He & Heq); [done|done|exact Hdq|]. exists e. unfold l. by rewrite Hsort. }
  - intros d m Hdl Hm. destruct (Hl d Hdl) as (_ & _ & _ & H). destruct (H m Hm) as [Hx _]. split; [|apply Harr; by apply (pl_all _ _ P)].
    destruct Hx as [c Hc]. destruct (kin_some p0 p m c A Hc) as (e & He & _). cbn. eauto.
  - intros m c Hc. cbn in Hc. destruct (kin_back p0 p m c A Hc) as (c0 & Hc0 & Ec). destruct (bare_names c0 c Ec) as [_ El].
    split; [apply (attrs_ok_bare c0); [done|by apply (pl_attrs _ _ P m)]|]. split.
    + intros a d [k Ha]%list_elem_of_lookup Hdl _ En. destruct (Hl d Hdl) as (_ & -> & _ & _).
      destruct (bare_attr c0 c k a Ec Ha) as (b & Hb & Eb & Es & _). destruct (pl_sizes _ _ P m c0 b Hc0) as (_ & Hz & _); [by eapply list_elem_of_lookup_2|]. congruence.
    + intros k a Ha. destruct (Hclear m c0 k) as [(e & o & He & Ho & Hneg) _]; [apply (pl_all _ _ P); eauto|done|apply lookup_lt_Some in Ha; lia|].
      exists o. cbn in He. split; [|done]. congruence.
Qed.

(** The components as [ComputeMetadataOffsets] has them when it is about to clean up. *)
Definition final_components (sort : list ScopeComponent -> list ScopeComponent) (fuel : nat) (p : Pipeline) : option (list ScopeComponent) :=
  p ← PrepareMetadataComputation all p;
  p ← each (scan_module fuel) all p;
  p ← AssignOffsets (set_components (sort (ComputeScopeDegrees (scope_components_ p))) p);
  Some (scope_components_ p).

(** The whole, as the theorem below states it. *)
Lemma compute_ok sort fuel :
  (forall l, sort l ≡ₚ l) -> (length all < 2048)%nat -> (3 * length all <= fuel)%nat ->
  exists q ds, ComputeMetadataOffsets sort fuel all p0 = Some q /\ final_components sort fuel p0 = Some ds /\ pipeline_ok all q /\ kin p0 q /\
    (forall d, d ∈ ds -> forall m, m ∈ modules_ d -> carries p0 (attr_id_ d) m) /\
    (forall X m, writer p0 X m = true -> covers ds X m) /\
    (forall m c k a, mods (gr q) !! m = Some c -> attrs_ c !! k = Some a -> exists o, attr_offsets_ c !! k = Some o /\ offset_spec ds m c k a o) /\
    (forall k c, ds !! k = Some c -> needs_bytes c -> 0 <= offset_ c \/
      exists j d, ds !! j = Some d /\ j <> k /\ share c d /\ 0 <= offset_ d /\ kMetadataTotalSize < round_up (ends d) (size_ c) + size_ c).
Proof.
  intros Hsort Hfew Hfuel. unfold ComputeMetadataOffsets, final_components. destruct prepare_ok as (p1 & -> & S1 & E1). rewrite !bind_some.
  destruct (scan_all_ok fuel Hfuel all p1 (fun _ H => H) S1) as (p2 & -> & S2 & _ & C2); [rewrite E1; unfold kMaxAttrsPerModule; cbn [length]; lia|]. rewrite !bind_some.
  destruct (scanned_fillable sort p2 Hsort S2 C2) as (Hl & F & Hcov). set (l := sort _) in *.
  destruct (offsets_apart (set_components l p2)) as (p3 & -> & Kd & W & Hm & Ho & Hs); [intros c Hc; destruct (Hl c Hc) as (? & _ & ? & _); done|exact F|].
  rewrite !bind_some. exists (CleanupMetadataComputation p3), (scope_components_ p3). do 2 (split; [done|]). cbn [gr CleanupMetadataComputation set_components set_scopes set_arrays].
  assert (A : kin p0 (CleanupMetadataComputation p3)).
  { apply (kin_trans _ (set_components l p2)); [by destruct S2|]. destruct W as (W1 & W2 & W3). split; [done|]. split; [done|]. split; [done|]. intros m.
    cbn. destruct (mods (gr p3) !! m) as [c'|] eqn:Hc'.
    - destruct (Ho m c' Hc') as (c & Hc & Hoo & _). cbn in Hc. rewrite Hc. cbn. f_equal. by apply bare_only_offsets.
    - destruct (mods (gr p2) !! m) as [c|] eqn:Hc; [|done]. destruct (proj2 (Hm m)) as [? ?]; [cbn; eauto|congruence]. }
  split; [|split; [done|split; [|split; [|split; [|exact Hs]]]]].
  - by apply (pipeline_kin all p0).
  - intros d [k Hk]%list_elem_of_lookup m Hmd. destruct (Forall2_lookup_r _ _ _ _ _ Kd Hk) as (c & Hc & (-> & _ & E & _)).
    destruct (Hl c) as (_ & _ & _ & H); [by eapply list_elem_of_lookup_2|]. apply H. by rewrite <- E.
  - intros X m Hw. destruct (Hcov X m Hw) as (d & [k Hk]%list_elem_of_lookup & En & Hm1 & Hm2).
    destruct (Forall2_lookup_l _ _ _ _ _ Kd Hk) as (e & He & (F1 & _ & F3 & _)). exists e. rewrite F1, F3.
    split; [by eapply list_elem_of_lookup_2|done].
  - intros m c' k a Hc' Ha. destruct (Ho m c' Hc') as (c & _ & _ & H). by apply H.
Qed.

End Whole.

(** ** Declarations and connections keep a pipeline in order *)

(** The answer of [AddMetadataAttr]. *)
Definition refused (c : Module) (name : string) (size : Z) (p : Pipeline) : option Z :=
  if decide (kMaxAttrsPerModule <= length (attrs_ c))%nat then Some (- ENOSPC)
  else if decide (name = EmptyString \/ ~ 1 <= size <= kMetadataAttrMaxSize) then Some (- EINVAL)
  else if decide (name ∈ a_name <$> attrs_ c) then Some (- EEXIST)
  else match registered_attrs_ p !! name with Some (s, _) => if decide (s = size) then None else Some (- EINVAL) | None => None end.

Lemma register_ok name size p : exists r ret, RegisterAttribute name size p = (set_registered r p, ret) /\
  match registered_attrs_ p !! name with
  | Some (s, _) => if decide (s = size) then ret = 0 else ret = - EINVAL /\ r = registered_attrs_ p
  | None => ret = 0
  end /\
  (ret = 0 -> exists n, r !! name = Some (size, n)) /\ (forall X, X <> name -> r !! X = registered_attrs_ p !! X).
Proof.
  unfold RegisterAttribute. destruct (registered_attrs_ p !! name) as [[s n]|] eqn:E.
  - destruct (s =? size) eqn:Es; [apply Z.eqb_eq in Es as ->|apply Z.eqb_neq in Es].
    + eexists _, 0. split; [done|]. rewrite decide_True by done. split; [done|]. split; [intros _; rewrite lookup_insert_eq; eauto|]. intros X HX. by rewrite lookup_insert_ne.
    + exists (registered_attrs_ p), (- EINVAL). split; [by destruct p|]. rewrite decide_False by done. split; [done|]. split; [done|done].
  - eexists _, 0. split; [done|]. split; [done|]. split; [intros _; rewrite lookup_insert_eq; eauto|]. intros X HX. by rewrite lookup_insert_ne.
Qed.

Lemma existsb_names name l : existsb (fun it => String.eqb (a_name it) name) l = bool_decide (name ∈ a_name <$> l).
Proof.
  apply eq_true_iff_eq. rewrite bool_decide_eq_true, existsb_exists, list_elem_of_fmap. split.
  - intros (a & Ha & E%String.eqb_eq). exists a. split; [done|]. by apply list_elem_of_In.
  - intros (a & -> & Ha%list_elem_of_In). exists a. split; [done|]. by apply String.eqb_eq.
Qed.

(** A module with one more attribute, whose name is registered. *)
Lemma pipeline_add all p m c r name size md :
  pipeline_ok all p -> mods (gr p) !! m = Some c -> (length (attrs_ c) < kMaxAttrsPerModule)%nat -> 1 <= size <= kMetadataAttrMaxSize ->
  name ∉ a_name <$> attrs_ c -> (forall s n, registered_attrs_ p !! name = Some (s, n) -> s = size) ->
  (exists n, r !! name = Some (size, n)) -> (forall X, X <> name -> r !! X = registered_attrs_ p !! X) ->
  exists g, upd_mod m (fun c => set_attrs (attrs_ c ++ [Attr name size md (-1)]) c) (gr p) = Some g /\
    pipeline_ok all (set_gr g (set_registered r p)) /\ mods g !! m = Some (set_attrs (attrs_ c ++ [Attr name size md (-1)]) c) /\
    forall x, x <> m -> mods g !! x = mods (gr p) !! x.
Proof.
  intros P Hm Hlen Hsz Hnew Hreg [cnt Hr] Hrest. set (f := fun c => set_attrs _ c).
  destruct (upd_mod_some m f (gr p) c Hm) as (g & -> & E1 & E2 & M). exists g. split; [done|].
  assert (Hg : mods g !! m = Some (f c)) by (by rewrite M, Hm, decide_True).
  assert (Ho : forall x, x <> m -> mods g !! x = mods (gr p) !! x) by (intros x Hx; rewrite M, decide_False by done; by destruct (mods (gr p) !! x)).
  assert (Hold : forall x d a, mods (gr p) !! x = Some d -> a ∈ attrs_ d -> is_Some (r !! a_name a) /\ a_size a = match r !! a_name a with Some (s, _) => s | None => 0 end /\
    1 <= a_size a <= kMetadataAttrMaxSize).
  { intros x d a Hd Ha. destruct (pl_sizes _ _ P x d a Hd Ha) as ([[s k] Hs] & E & Hb). unfold size_of in E. rewrite Hs in E. split_and!; [| |by apply Hb..].
    - destruct (decide (a_name a = name)) as [->|]; [eauto|]. rewrite Hrest by done. eauto.
    - destruct (decide (a_name a = name)) as [En|]; [|by rewrite Hrest, Hs by done]. rewrite En in Hs |- *. rewrite Hr, E. by apply (Hreg s k). }
  split; [|by split]. destruct (pl_gates _ _ P) as [K B]. split.
  - split.
    + apply (gates_wires (gr p)); [done|done| |done]. intros x. cbn. destruct (decide (x = m)) as [->|Hx]; [by rewrite Hg, Hm|by rewrite Ho].
    + intros x d Hd. cbn in Hd. destruct (decide (x = m)) as [->|Hx]; [|rewrite Ho in Hd by done; by apply (B x)]. rewrite Hg in Hd. injection Hd as <-. by apply (B m c).
  - intros x. cbn. rewrite (pl_all _ _ P). destruct (decide (x = m)) as [->|Hx]; [rewrite Hg, Hm; split; eauto|by rewrite Ho].
  - intros x d Hd. cbn in Hd. destruct (decide (x = m)) as [->|Hx]; [|rewrite Ho in Hd by done; by apply (pl_attrs _ _ P x)]. rewrite Hg in Hd. injection Hd as <-.
    destruct (pl_attrs _ _ P m c Hm) as (N1 & N2 & N3). unfold attrs_ok. cbn. rewrite fmap_app, length_app. cbn. split; [|split; [lia|done]].
    apply NoDup_app. split; [done|]. split; [|apply NoDup_singleton]. by intros y Hy ->%list_elem_of_singleton.
  - intros x d a Hd Ha. cbn in Hd. unfold size_of. cbn [registered_attrs_ set_gr set_registered].
    destruct (decide (x = m)) as [->|Hx]; [|rewrite Ho in Hd by done; by apply (Hold x d)]. rewrite Hg in Hd. injection Hd as <-.
    apply elem_of_app in Ha as [Ha| ->%list_elem_of_singleton]; [by apply (Hold m c)|]. cbn. rewrite Hr. split; [eauto|done].
  - exact (pl_start _ _ P).
Qed.

Lemma add_attr_ok all m name size md p c : pipeline_ok all p -> mods (gr p) !! m = Some c ->
  exists q ret, AddMetadataAttr m name size md p = Some (q, ret) /\ pipeline_ok all q /\
    match refused c name size p with
    | Some e => ret = e /\ q = p
    | None => ret = Z.of_nat (length (attrs_ c)) /\ mods (gr q) !! m = Some (set_attrs (attrs_ c ++ [Attr name size md (-1)]) c) /\
        (forall x, x <> m -> mods (gr q) !! x = mods (gr p) !! x)
    end.
Proof.
  intros P Hm. unfold AddMetadataAttr, refused. rewrite Hm, bind_some.
  destruct (decide (kMaxAttrsPerModule <= length (attrs_ c))%nat) as [|Hroom]; [by exists p, (- ENOSPC)|].
  destruct (decide (name = EmptyString \/ ~ 1 <= size <= kMetadataAttrMaxSize)) as [Hbad|Hbad].
  { exists p, (- EINVAL). destruct (String.eqb name "") eqn:E; [done|]. apply String.eqb_neq in E.
    replace ((size <? 1) || (kMetadataAttrMaxSize <? size)) with true by (destruct Hbad; [done|lia]). done. }
  rewrite (proj2 (String.eqb_neq name "")) by tauto.
  replace ((size <? 1) || (kMetadataAttrMaxSize <? size)) with false by lia. rewrite existsb_names.
  destruct (decide (name ∈ a_name <$> attrs_ c)) as [Hin|Hin]; [rewrite bool_decide_true by done; by exists p, (- EEXIST)|]. rewrite bool_decide_false by done.
  destruct (register_ok name size p) as (r & ret & -> & Hret & Hr & Hrest).
  destruct (decide (ret = 0)) as [->|Hne].
  - cbn [negb Z.eqb]. assert (Hreg : forall s n, registered_attrs_ p !! name = Some (s, n) -> s = size).
    { intros s cnt E. rewrite E in Hret. case_decide as Es; [done|]. by destruct Hret. }
    destruct (pipeline_add all p m c r name size md P Hm) as (g & Eg & P' & Hg & Ho); [lia|lia|done|done|by apply Hr|done|].
    change (gr (set_registered r p)) with (gr p). rewrite Eg, bind_some. eexists _, _. split; [done|]. split; [exact P'|].
    destruct (registered_attrs_ p !! name) as [[s n]|]; [|by split_and!]. rewrite decide_True by (by eapply Hreg). by split_and!.
  - rewrite (proj2 (Z.eqb_neq ret 0)) by done. cbn [negb]. destruct (registered_attrs_ p !! name) as [[s n]|]; [|done].
    case_decide; [done|]. destruct Hret as [-> ->]. exists p, (- EINVAL). split; [by destruct p|]. done.
Qed.

Lemma connect_pipeline all p og ig m k n j : pipeline_ok all p -> m ∈ all -> n ∈ all -> ogs (gr p) !! og = None -> igs (gr p) !! ig = None ->
  exists g ret, ConnectModules og ig m k n j (gr p) = Some (g, ret) /\ pipeline_ok all (set_gr g p).
Proof.
  intros P [c Hc]%(pl_all _ _ P) [d Hd]%(pl_all _ _ P) Ho Hi.
  destruct (connect_modules_ok (gr p) og ig m k n j c d (pl_gates _ _ P) Hc Hd Ho Hi) as (g & ret & E & G & M & _).
  assert (Hmod : forall x e, mods g !! x = Some e -> exists e0, mods (gr p) !! x = Some e0 /\ attrs_ e = attrs_ e0 /\ attr_offsets_ e = attr_offsets_ e0).
  { intros x e He. specialize (M x). unfold grown in M. rewrite He in M. destruct (mods (gr p) !! x) as [e0|]; [|done].
    exists e0. split; [done|]. split; apply M. }
  exists g, ret. split; [done|]. split; [exact G| | | |exact (pl_start _ _ P)].
  - intros x. rewrite (pl_all _ _ P). cbn. specialize (M x). unfold grown in M. destruct (mods (gr p) !! x), (mods g !! x); try done; split; eauto.
  - intros x e (e0 & He0 & E1 & E2)%Hmod. unfold attrs_ok. rewrite E1, E2. by apply (pl_attrs _ _ P x).
  - intros x e a (e0 & He0 & E1 & E2)%Hmod. rewrite E1. by apply (pl_sizes _ _ P x).
Qed.

(** C23. A pipeline whose modules are connected with [ConnectModules] and whose attributes
    are declared with [AddMetadataAttr] stays in order, and [AddMetadataAttr] answers as it
    should, refusing without a change.  For up to 2,047 modules in any graph, cycles included,
    [ComputeMetadataOffsets] returns, with any sort; it keeps the modules, their attributes
    and connections.  The components it has computed ([final_components]) consist of modules
    that carry the attribute: write it, or
    lie on a way to a reader on which nothing overwrites it; each writer is in one with all
    readers directly after it (readers further on may be missed, [reader_missed]).  An offset is within the
    metadata, aligned to the size, and that of the last component of the attribute with the
    module; when any two neighbours of a component are of the same size or share a module
    ([crowded]; without it there are overlaps, [overlapping_offsets]),
    the attributes of a module do not overlap; a component gets no space only if it does not
    fit behind a neighbour. *)
Theorem metadata_computed all p : pipeline_ok all p ->
  (forall og ig m k n j, m ∈ all -> n ∈ all -> ogs (gr p) !! og = None -> igs (gr p) !! ig = None ->
    exists g ret, ConnectModules og ig m k n j (gr p) = Some (g, ret) /\ pipeline_ok all (set_gr g p)) /\
  (forall m name size md c, mods (gr p) !! m = Some c ->
    exists q ret, AddMetadataAttr m name size md p = Some (q, ret) /\ pipeline_ok all q /\
      match refused c name size p with
      | Some e => ret = e /\ q = p
      | None => ret = Z.of_nat (length (attrs_ c)) /\ mods (gr q) !! m = Some (set_attrs (attrs_ c ++ [Attr name size md (-1)]) c) /\
          (forall x, x <> m -> mods (gr q) !! x = mods (gr p) !! x)
      end) /\
  (forall sort fuel, (forall l, sort l ≡ₚ l) -> (length all < 2048)%nat -> (3 * length all <= fuel)%nat ->
    exists q ds, ComputeMetadataOffsets sort fuel all p = Some q /\ final_components all sort fuel p = Some ds /\ pipeline_ok all q /\ kin p q /\
      (forall d, d ∈ ds -> forall m, m ∈ modules_ d -> carries p (attr_id_ d) m) /\
      (forall X m, writer p X m = true -> covers p ds X m) /\
      (forall m c k a, mods (gr q) !! m = Some c -> attrs_ c !! k = Some a -> exists o, attr_offsets_ c !! k = Some o /\ offset_spec ds m c k a o) /\
      (forall k c, ds !! k = Some c -> needs_bytes c -> 0 <= offset_ c \/
        exists j d, ds !! j = Some d /\ j <> k /\ share c d /\ 0 <= offset_ d /\ kMetadataTotalSize < round_up (ends d) (size_ c) + size_ c)).
Proof.
  intros P. split; [intros; by apply connect_pipeline|]. split; [intros; by apply add_attr_ok|]. intros sort fuel. by apply compute_ok.
Qed.

(** *** Two modules *)

Definition start : Pipeline := Pipe two_modules [] ∅ ∅ ∅.
Definition two : list addr := [1%positive; 2%positive].

Lemma start_ok : pipeline_ok two start.
Proof.
  assert (H : forall x c, mods two_modules !! x = Some c -> attrs_ c = [] /\ length (attr_offsets_ c) = 16%nat).
  { intros x c. unfold two_modules. cbn [mods]. intros [[_ <-]|[_ [_ <-]%lookup_singleton_Some]]%lookup_insert_Some; done. }
  split; [exact two_modules_ok| | | |done].
  - intros m. unfold start, two, two_modules. cbn [gr mods]. rewrite !elem_of_cons, elem_of_nil, lookup_insert_is_Some, lookup_singleton_is_Some.
    destruct (decide (m = 1%positive)) as [->|]; naive_solver.
  - intros m c [E El]%H. unfold attrs_ok. rewrite E. cbn. split; [constructor|]. split; [unfold kMaxAttrsPerModule; lia|exact El].
  - intros m c a [E _]%H. rewrite E. by intros ?%elem_of_nil.
Qed.

(** The first writes "a", which the second reads. *)
Definition connected_pair : option (graph * Z) := ConnectModules 10%positive 20%positive 1%positive 0 2%positive 0 (gr start).
Definition declared_pair : option Pipeline :=
  '(g, _) ← connected_pair; '(p, _) ← AddMetadataAttr 1%positive "a" 4 kWrite (set_gr g start);
  '(p, _) ← AddMetadataAttr 2%positive "a" 4 kRead p; Some p.

Lemma metadata_computed_witness : exists p q c,
  declared_pair = Some p /\ pipeline_ok two p /\ ComputeMetadataOffsets (fun l => l) 6 two p = Some q /\ pipeline_ok two q /\
  mods (gr q) !! 2%positive = Some c /\ attr_offsets_ c !! 0%nat = Some 0 /\ (0 <= 0 -> 0 + 4 <= kMetadataTotalSize).
Proof.
  destruct (proj1 (metadata_computed two start start_ok) 10%positive 20%positive 1%positive 0%nat 2%positive 0%nat) as (g & r1 & E1 & P1);
    [apply elem_of_cons; by left|apply elem_of_cons; right; by apply list_elem_of_singleton|done|done|].
  assert (H1 : exists c, mods g !! 1%positive = Some c) by (vm_compute in E1; injection E1 as <- _; eexists; reflexivity). destruct H1 as [c1 H1].
  destruct (proj1 (proj2 (metadata_computed _ _ P1)) 1%positive "a" 4 kWrite c1 H1) as (p1 & r2 & E2 & P2 & _).
  assert (H2 : exists c, mods (gr p1) !! 2%positive = Some c).
  { vm_compute in E1. injection E1 as <- _. vm_compute in E2. injection E2 as <- _. eexists. reflexivity. }
  destruct H2 as [c2 H2].
  destruct (proj1 (proj2 (metadata_computed _ _ P2)) 2%positive "a" 4 kRead c2 H2) as (p2 & r3 & E3 & P3 & _).
  destruct (proj2 (proj2 (metadata_computed _ _ P3)) (fun l => l) 6%nat) as (q & ds & E4 & _ & P4 & _ & _ & _ & Ho & _); [done|cbn; lia|cbn; lia|].
  assert (Ed : declared_pair = Some p2) by (unfold declared_pair, connected_pair; rewrite E1, bind_some, E2, bind_some, E3; done).
  assert (Hq : exists c, mods (gr q) !! 2%positive = Some c /\ attrs_ c !! 0%nat = Some (Attr "a" 4 kRead 1) /\ attr_offsets_ c !! 0%nat = Some 0).
  { assert (Eq : (p ← declared_pair; q ← ComputeMetadataOffsets (fun l => l) 6 two p; c ← mods (gr q) !! 2%positive; a ← attrs_ c !! 0%nat;
      o ← attr_offsets_ c !! 0%nat; Some (a, o)) = Some (Attr "a" 4 kRead 1, 0)) by (by vm_compute).
    rewrite Ed, bind_some, E4, bind_some in Eq. destruct (mods (gr q) !! 2%positive) as [c|]; [|done]. exists c. split; [done|].
    rewrite bind_some in Eq. destruct (attrs_ c !! 0%nat); [|done]. destruct (attr_offsets_ c !! 0%nat); [|done]. by injection Eq as -> ->. }
  destruct Hq as (c & Hc & Ha & Hz). exists p2, q, c. do 6 (split; [done|]).
  destruct (Ho 2%positive c 0%nat _ Hc Ha) as (o & Hoo & Hspec). rewrite Hz in Hoo. injection Hoo as <-. intros H0. apply (o_bounds _ _ _ _ _ _ Hspec H0).
Defined.

(** ** What the traversals miss *)

(** A diamond: module 1 writes X and sends to 2 and 4, both send to 3, which reads X, and 4
    sends also to 5, which reads X.  The last gets no offset: 4 is marked when it is visited
    upstream of 3, so that the visit downstream of 1 stops there. *)
Lemma reader_missed :
  offsets_of
    [(1%positive, [("X", 4, kWrite)]); (2%positive, []); (3%positive, [("X", 4, kRead)]);
     (4%positive, []); (5%positive, [("X", 4, kRead)])]
    [(1%positive, 0%nat, 2%positive, 0%nat); (2%positive, 0%nat, 3%positive, 0%nat); (1%positive, 1%nat, 4%positive, 0%nat);
     (4%positive, 0%nat, 3%positive, 0%nat); (4%positive, 1%nat, 5%positive, 0%nat)]
  = Some [[0]; []; [0]; []; [-2]].
Proof. by vm_compute. Qed.

(** Module 4 writes an X that 3 reads directly, and also at the end of 4, 5, 6, 7, 2, 3.  The
    component of X does not get 5, 6 and 7, so that the Y of 5 and 6 gets the bytes of X, and
    5 overwrites the X on its way. *)
Lemma module_missed :
  offsets_of
    [(1%positive, [("X", 4, kWrite)]); (2%positive, []); (3%positive, [("X", 4, kRead)]); (4%positive, [("X", 4, kWrite)]);
     (5%positive, [("Y", 4, kWrite)]); (6%positive, [("Y", 4, kRead)]); (7%positive, [])]
    [(1%positive, 0%nat, 2%positive, 0%nat); (2%positive, 0%nat, 3%positive, 0%nat); (4%positive, 0%nat, 3%positive, 0%nat);
     (4%positive, 1%nat, 5%positive, 0%nat); (5%positive, 0%nat, 6%positive, 0%nat); (6%positive, 0%nat, 7%positive, 0%nat);
     (7%positive, 0%nat, 2%positive, 0%nat)]
  = Some [[0]; []; [0]; [0]; [0]; [0]; []].
Proof. by vm_compute. Qed.
