(* ===== verification/Checksum.v ===== *)
(** * Internet checksums: [checksum.h]

    The memory at a pointer is the list of bytes from there to the end of the
    buffer; a load beyond it is [None].  Machine integers are [N].  The flags
    [avx2] and [x86] are the macros that choose the code paths. *)

From Stdlib Require Import NArith Strings.Byte.
From S2P Require Import Prelude.


Open Scope N_scope.

(** ** Loads *)

(** The little-endian integer of some bytes. *)
Fixpoint le (l : list byte) : N :=
  match l with [] => 0 | b :: l => Byte.to_N b + 256 * le l end.

Definition slice (off n : nat) (p : list byte) : option (list byte) :=
  guard (off + n <= length p)%nat;; Some (take n (drop off p)).

Definition load (n off : nat) (p : list byte) : option N := le <$> slice off n p.

(** [k] integers of [n] bytes each. *)
Fixpoint loads (n k : nat) (p : list byte) : list N :=
  match k with O => [] | S k => le (take n p) :: loads n k (drop n p) end.

(** [while (len >= n) { s = f(s, buf); len -= n; buf += n }] *)
Fixpoint chunks {T} (n : nat) (f : T -> list byte -> T) (fuel : nat) (s : T) (p : list byte) : T * list byte :=
  match fuel with
  | O => (s, p)
  | S fuel => if decide (length p < n)%nat then (s, p) else chunks n f fuel (f s (take n p)) (drop n p)
  end.

(** ** Sums *)

(** [add; adc; ...; adc $0] on registers of [w] bits. *)
Fixpoint adc (w sum carry : N) (us : list N) : N :=
  match us with
  | [] => (sum + carry) mod 2 ^ w
  | u :: us => let s := sum + u + carry in adc w (s mod 2 ^ w) (s / 2 ^ w) us
  end.

Definition adds (w sum : N) (us : list N) : N := adc w sum 0 us.

Definition wadd (x y : N) : N := (x + y) mod 2 ^ 64.

(** A 256-bit register: eight words of 32 bits, or four lanes of 64 bits. *)
Definition load256 (p : list byte) : list N := loads 4 8 p.
Definition unpackhi (a : list N) : list N := take 2 (drop 2 a) ++ drop 6 a.
Definition unpacklo (a : list N) : list N := take 2 a ++ take 2 (drop 4 a).
Definition add_epi64 : list N -> list N -> list N := zip_with wadd.

(** The sums [a_hi], [a_lo], [b_hi], [b_lo]. *)
Record avx_sums := AvxSums { a_hi : list N; a_lo : list N; b_hi : list N; b_lo : list N }.

Definition avx_load (p : list byte) : avx_sums :=
  let a := load256 p in
  let b := load256 (drop 32 p) in
  AvxSums (unpackhi a) (unpacklo a) (unpackhi b) (unpacklo b).

Definition avx_step (s : avx_sums) (p : list byte) : avx_sums :=
  let x := avx_load p in
  AvxSums (add_epi64 (a_hi s) (a_hi x)) (add_epi64 (a_lo s) (a_lo x))
    (add_epi64 (b_hi s) (b_hi x)) (add_epi64 (b_lo s) (b_lo x)).

Definition avx_fold (s : avx_sums) : N :=
  let sum256 := add_epi64 (add_epi64 (a_hi s) (a_lo s)) (add_epi64 (b_hi s) (b_lo s)) in
  foldr wadd 0 (add_epi64 (take 2 sum256) (drop 2 sum256)).

(** [sum64 = (sum64 >> 32) + (sum64 & 0xFFFFFFFF)] *)
Definition reduce (sum : N) : N := N.shiftr sum 32 + N.land sum (2 ^ 32 - 1).

Definition sum_avx (avx2 : bool) (p : list byte) : N * list byte :=
  if avx2 && bool_decide (128 <= length p)%nat then
    let '(s, p) := chunks 64 avx_step (length p) (avx_load (take 64 p)) (drop 64 p) in (avx_fold s, p)
  else (0, p).

Definition sum_words (x86 : bool) (sum : N) (p : list byte) : N * list byte :=
  if x86 then
    let '(sum, p) := chunks 64 (fun s c => adds 64 s (loads 8 8 c)) (length p) sum p in
    let '(sum, p) := chunks 16 (fun s c => adds 64 s (loads 8 2 c)) (length p) sum p in
    (reduce sum, p)
  else chunks 8 (fun s c => foldl wadd s (loads 2 4 c)) (length p) sum p.

(** Of all the bytes of [p]. *)
Definition CalculateSum (avx2 x86 : bool) (p : list byte) : option N :=
  let '(sum, q) := sum_avx avx2 p in
  let '(sum, q) := sum_words x86 sum q in
  let '(sum, q) := chunks 2 (fun s c => wadd s (le c)) (length q) sum q in
  sum ← (if Nat.odd (length p) then b ← head q; Some (wadd sum (Byte.to_N b)) else Some sum);
  let sum := reduce sum in
  Some ((sum + N.shiftr sum 32) mod 2 ^ 32).

Definition FoldChecksum (cksum : N) : N :=
  let cksum := N.shiftr cksum 16 + N.land cksum (2 ^ 16 - 1) in
  let cksum := (cksum + N.shiftr cksum 16) mod 2 ^ 16 in
  2 ^ 16 - 1 - cksum.

Definition CalculateGenericChecksum (avx2 x86 : bool) (p : list byte) : option N :=
  FoldChecksum <$> CalculateSum avx2 x86 p.

Definition VerifyGenericChecksum (avx2 x86 : bool) (p : list byte) (cksum : N) : option bool :=
  ret ← CalculateGenericChecksum avx2 x86 p; Some (ret =? cksum).

(** ** Headers *)

Definition load32s (k off : nat) (p : list byte) : option (list N) := loads 4 k <$> slice off (4 * k) p.

Definition byte_of (v : N) : byte := default x00 (Byte.of_N (v mod 256)).

(** What a 16-bit field holds after [v] has been stored. *)
Definition store16 (off : nat) (v : N) (p : list byte) : list byte :=
  take off p ++ [byte_of v; byte_of (v / 256)] ++ drop (off + 2) p.

Definition VerifyIpv4NoOptChecksum (iph : list byte) : option bool :=
  us ← load32s 5 0 iph;
  match us with u0 :: us => Some (FoldChecksum (adds 32 u0 us) =? 0) | [] => None end.

Definition CalculateIpv4NoOptChecksum (iph : list byte) : option N :=
  us ← load32s 5 0 iph;
  match us with
  | [u0; u1; u2; u3; u4] => Some (FoldChecksum (adds 32 u0 [u1; N.land u2 65535; u3; u4]))
  | _ => None
  end.

(** [header_length << 2] *)
Definition ip_header_len (iph : list byte) : option nat :=
  b ← head iph; Some (4 * N.to_nat (Byte.to_N b mod 16))%nat.

Definition VerifyIpv4Checksum (avx2 x86 : bool) (iph : list byte) : option bool :=
  n ← ip_header_len iph;
  if decide (n = 20)%nat then VerifyIpv4NoOptChecksum iph
  else if decide (n < 20)%nat then Some false
  else
    options ← slice 20 (n - 20) iph;
    sum ← CalculateSum avx2 x86 options;
    us ← load32s 5 0 iph;
    Some (FoldChecksum (adds 32 sum us) =? 0).

Definition CalculateIpv4Checksum (avx2 x86 : bool) (iph : list byte) : option N :=
  n ← ip_header_len iph;
  if decide (n = 20)%nat then CalculateIpv4NoOptChecksum iph
  else if decide (n < 20)%nat then Some 0
  else
    options ← slice 20 (n - 20) iph;
    sum ← CalculateSum avx2 x86 options;
    us ← load32s 5 0 iph;
    match us with
    | [u0; u1; u2; u3; u4] => Some (FoldChecksum (adds 32 sum [u0; u1; N.land u2 65535; u3; u4]))
    | _ => None
    end.

Definition bswap16 (x : N) : N := 256 * (x mod 256) + x / 256.

(** What follows the header; with fewer bytes than the header has the length
    wraps around, and the sum reads far beyond the buffer. *)
Definition payload (header : nat) (len : N) (p : list byte) : option (list byte) :=
  guard (header <= N.to_nat len)%nat;; slice header (N.to_nat len - header) p.

(** The addresses as they are in memory, the length in host order. *)
Definition VerifyIpv4UdpChecksum (avx2 x86 : bool) (udph : list byte) (src dst udp_len : N) : option bool :=
  cksum ← load 2 6 udph;
  if cksum =? 0 then Some true
  else
    data ← payload 8 udp_len udph;
    sum ← CalculateSum avx2 x86 data;
    us ← load32s 2 0 udph;
    Some (FoldChecksum (adds 32 sum (us ++ [src; dst; bswap16 udp_len; 0x1100])) =? 0).

Definition CalculateIpv4UdpChecksum (avx2 x86 : bool) (udph : list byte) (src dst udp_len : N) : option N :=
  data ← payload 8 udp_len udph;
  sum ← CalculateSum avx2 x86 data;
  us ← load32s 2 0 udph;
  match us with
  | [u0; u1] =>
      let c := FoldChecksum (adds 32 sum [u0; N.land u1 65535; src; dst; bswap16 udp_len; 0x1100]) in
      Some (if c =? 0 then 65535 else c)
  | _ => None
  end.

(** The same with the addresses of the IP header. *)
Definition VerifyUdp (avx2 x86 : bool) (iph udph : list byte) : option bool :=
  len ← load 2 4 udph;
  if bswap16 len <? 8 then Some false
  else src ← load 4 12 iph; dst ← load 4 16 iph; VerifyIpv4UdpChecksum avx2 x86 udph src dst (bswap16 len).

Definition CalculateUdp (avx2 x86 : bool) (iph udph : list byte) : option N :=
  len ← load 2 4 udph;
  if bswap16 len <? 8 then Some 0
  else src ← load 4 12 iph; dst ← load 4 16 iph; CalculateIpv4UdpChecksum avx2 x86 udph src dst (bswap16 len).

Definition VerifyIpv4TcpChecksum (avx2 x86 : bool) (tcph : list byte) (src dst tcp_len : N) : option bool :=
  data ← payload 20 tcp_len tcph;
  sum ← CalculateSum avx2 x86 data;
  us ← load32s 5 0 tcph;
  Some (FoldChecksum (adds 32 sum (us ++ [src; dst; bswap16 tcp_len; 0x0600])) =? 0).

Definition CalculateIpv4TcpChecksum (avx2 x86 : bool) (tcph : list byte) (src dst tcp_len : N) : option N :=
  data ← payload 20 tcp_len tcph;
  sum ← CalculateSum avx2 x86 data;
  us ← load32s 5 0 tcph;
  match us with
  | [u0; u1; u2; u3; u4] =>
      Some (FoldChecksum (adds 32 sum [u0; u1; u2; u3; N.shiftr u4 16; src; dst; bswap16 tcp_len; 0x0600]))
  | _ => None
  end.

(** The length of the segment is what the IP header leaves of the packet. *)
Definition tcp_length (iph : list byte) : option (option N) :=
  len ← load 2 2 iph;
  n ← ip_header_len iph;
  Some (if decide (N.to_nat (bswap16 len) < n + 20)%nat then None else Some (bswap16 len - N.of_nat n)).

Definition VerifyTcp (avx2 x86 : bool) (iph tcph : list byte) : option bool :=
  len ← tcp_length iph;
  match len with
  | None => Some false
  | Some len => src ← load 4 12 iph; dst ← load 4 16 iph; VerifyIpv4TcpChecksum avx2 x86 tcph src dst len
  end.

Definition CalculateTcp (avx2 x86 : bool) (iph tcph : list byte) : option N :=
  len ← tcp_length iph;
  match len with
  | None => Some 0
  | Some len => src ← load 4 12 iph; dst ← load 4 16 iph; CalculateIpv4TcpChecksum avx2 x86 tcph src dst len
  end.

(** ** Incremental update *)

(** On 32 bits, as [~x] is. *)
Definition not32 (x : N) : N := 2 ^ 32 - 1 - x.

Definition ChecksumIncrement32 (old_value new_value : N) : N :=
  let sum := (N.shiftr (not32 old_value) 16 + N.land (not32 old_value) 65535) mod 2 ^ 32 in
  (sum + (N.shiftr new_value 16 + N.land new_value 65535)) mod 2 ^ 32.

Definition ChecksumIncrement16 (old_value new_value : N) : N := N.land (not32 old_value) 65535 + new_value.

Definition UpdateChecksumWithIncrement (old_checksum increment : N) : N :=
  FoldChecksum ((N.land (not32 old_checksum) 65535 + increment) mod 2 ^ 32).

Definition UpdateChecksum32 (old_checksum old_value new_value : N) : N :=
  UpdateChecksumWithIncrement old_checksum (ChecksumIncrement32 old_value new_value).

Definition UpdateChecksum16 (old_checksum old_value new_value : N) : N :=
  UpdateChecksumWithIncrement old_checksum (ChecksumIncrement16 old_value new_value).

(** ** The reference: the one's complement sum of the 16-bit words, the last one
    padded with a zero byte *)

Fixpoint words (l : list byte) : list N :=
  match l with
  | a :: b :: l => Byte.to_N a + 256 * Byte.to_N b :: words l
  | [a] => [Byte.to_N a]
  | [] => []
  end.

Definition oc_add (x y : N) : N := if x + y <? 2 ^ 16 then x + y else x + y - (2 ^ 16 - 1).

Definition ones_words (ws : list N) : N := foldr oc_add 0 ws.

Definition ones_sum (l : list byte) : N := ones_words (words l).

Definition checksum_of (l : list byte) : N := 2 ^ 16 - 1 - ones_sum l.

(** ** Sums up to end-around carries *)

(** The same one's complement sum: [0] is the sum of zeroes only. *)
Definition oc_eq (x y : N) : Prop := x mod 65535 = y mod 65535 /\ (x = 0 <-> y = 0).

Infix "≅" := oc_eq (at level 70).

#[export] Instance oc_eq_equiv : Equivalence oc_eq.
Proof.
  split; unfold oc_eq.
  - done.
  - intros x y [H1 H2]. split; [done|tauto].
  - intros x y z [H1 H2] [H3 H4]. split; [congruence|tauto].
Qed.

#[export] Instance add_oc_eq : Proper (oc_eq ==> oc_eq ==> oc_eq) N.add.
Proof.
  intros x x' [H1 H2] y y' [H3 H4]. split; [|lia].
  rewrite (N.Div0.add_mod x y), (N.Div0.add_mod x' y'). by rewrite H1, H3.
Qed.

#[export] Instance sum_oc_eq : Proper (Forall2 oc_eq ==> oc_eq) (foldr N.add 0).
Proof. intros l l' H. induction H as [|x y l l' Hxy Hl IH]; [done|]. simpl. by rewrite Hxy, IH. Qed.

Ltac nlia := zify; Z.to_euclidean_division_equations; lia.

Lemma oc_eq_carry w x : 2 ^ w mod 65535 = 1 -> x mod 2 ^ w + x / 2 ^ w ≅ x.
Proof.
  intros Hw. assert (H0 : 2 ^ w <> 0) by (apply N.pow_nonzero; lia).
  pose proof (N.div_mod' x (2 ^ w)) as E. pose proof (N.div_mod' (2 ^ w) 65535) as Ew. rewrite Hw in Ew.
  set (q := x / 2 ^ w) in *. set (r := x mod 2 ^ w) in *. set (k := 2 ^ w / 65535) in *. split.
  - rewrite E, Ew. replace ((65535 * k + 1) * q + r) with (r + q + k * q * 65535) by lia. by rewrite N.Div0.mod_add.
  - split; intros H; [|nia]. rewrite E. nia.
Qed.

Lemma oc_eq_shift x : 65536 * x ≅ x.
Proof. split; [|lia]. replace (65536 * x) with (x + x * 65535) by lia. by rewrite N.Div0.mod_add. Qed.

(** On 16 bits the sum is determined. *)
Lemma oc_eq_unique x y : x < 65536 -> y < 65536 -> x ≅ y -> x = y.
Proof. intros Hx Hy [H1 H2]. nlia. Qed.

Lemma oc_eq_full x : x < 65536 -> x ≅ 65535 -> x = 65535.
Proof. intros. by apply oc_eq_unique. Qed.

(** ** Lemmas on words and loads *)

Definition total (l : list byte) : N := foldr N.add 0 (words l).

Lemma byte_lt b : Byte.to_N b < 256.
Proof. pose proof (Byte.to_N_bounded b). lia. Qed.

Lemma two_ind (P : list byte -> Prop) :
  P [] -> (forall a, P [a]) -> (forall a b l, P l -> P (a :: b :: l)) -> forall l, P l.
Proof.
  intros H0 H1 H2 l. enough (P l /\ forall a, P (a :: l)) by tauto.
  induction l as [|a l [IH1 IH2]]; auto.
Qed.

Lemma words_lt l : Forall (fun x => x < 65536) (words l).
Proof.
  induction l as [|a|a b l IH] using two_ind; cbn [words]; [constructor|constructor; [|constructor]|constructor; [|done]];
    pose proof (byte_lt a); [|pose proof (byte_lt b)]; lia.
Qed.

Lemma ones_words_ok ws : Forall (fun x => x < 65536) ws -> ones_words ws < 65536 /\ ones_words ws ≅ foldr N.add 0 ws.
Proof.
  unfold ones_words. induction 1 as [|x ws Hx H [IH1 IH2]]; cbn [foldr]; [done|]. rewrite <- IH2.
  set (y := foldr oc_add 0 ws) in *.
  unfold oc_add. change (2 ^ 16) with 65536. destruct (N.ltb_spec (x + y) 65536) as [Hl|Hl]; [done|].
  split; [lia|]. split; [|lia]. rewrite <- (N.Div0.mod_add (_ - _) 1). f_equal. lia.
Qed.

Lemma le_total l : le l ≅ total l.
Proof.
  induction l as [|a|a b l IH] using two_ind; [done|unfold total; simpl; by rewrite N.mul_0_r|].
  unfold total in *. simpl. rewrite <- IH.
  replace (Byte.to_N a + 256 * (Byte.to_N b + 256 * le l)) with (Byte.to_N a + 256 * Byte.to_N b + 65536 * le l) by lia.
  by rewrite oc_eq_shift.
Qed.

Lemma le_lt l : le l < 256 ^ N.of_nat (length l).
Proof.
  induction l as [|a l IH]; [done|]. cbn [le length]. rewrite Nat2N.inj_succ, N.pow_succ_r'.
  pose proof (byte_lt a). lia.
Qed.

Lemma total_app l1 l2 : Nat.even (length l1) = true -> total (l1 ++ l2) = total l1 + total l2.
Proof.
  unfold total. induction l1 as [|a|a b l IH] using two_ind; simpl; [done..|]. intros H. rewrite IH by done. lia.
Qed.

Lemma total_le l : 2 * total l <= 65536 * N.of_nat (S (length l)).
Proof.
  unfold total. induction l as [|a|a b l IH] using two_ind; simpl; [lia|pose proof (byte_lt a); lia|].
  pose proof (byte_lt a). pose proof (byte_lt b). lia.
Qed.

Lemma loads_ok n k p :
  Nat.even n = true -> (n * k <= length p)%nat ->
  foldr N.add 0 (loads n k p) ≅ total (take (n * k) p) /\ Forall (fun x => x < 256 ^ N.of_nat n) (loads n k p) /\
  length (loads n k p) = k.
Proof.
  intros Hn. revert p. induction k as [|k IH]; intros p Hp.
  { rewrite Nat.mul_0_r, take_0. split; [done|]. by split; [constructor|]. }
  destruct (IH (drop n p)) as (H1 & H2 & H3); [rewrite length_drop; lia|].
  assert (Hlen : length (take n p) = n) by (rewrite length_take; lia).
  cbn [loads foldr length]. split; [|split; [constructor|by rewrite H3]].
  - rewrite H1, le_total. replace (n * S k)%nat with (n + n * k)%nat by lia.
    rewrite <- take_take_drop, total_app by by rewrite Hlen. done.
  - rewrite <- Hlen at 2. apply le_lt.
  - done.
Qed.

(** ** Lemmas on sums *)

Lemma adc_ok w us : forall sum carry,
  2 ^ w mod 65535 = 1 -> sum < 2 ^ w -> Forall (fun u => u < 2 ^ w) us ->
  carry = 0 \/ carry = 1 /\ sum + 1 < 2 ^ w ->
  adc w sum carry us < 2 ^ w /\ adc w sum carry us ≅ sum + carry + foldr N.add 0 us.
Proof.
  induction us as [|u us IH]; intros sum carry Hw Hs Hu Hc; cbn [adc foldr].
  - rewrite N.mod_small by lia. split; [lia|]. by rewrite N.add_0_r.
  - apply Forall_cons in Hu as [Hu Hus].
    assert (Hdiv : (sum + u + carry) / 2 ^ w = 0 \/
      (sum + u + carry) / 2 ^ w = 1 /\ (sum + u + carry) mod 2 ^ w + 1 < 2 ^ w).
    { destruct (N.lt_ge_cases (sum + u + carry) (2 ^ w)) as [Hlt|Hge]; [left; by apply N.div_small|right].
      assert (E : (sum + u + carry) / 2 ^ w = 1).
      { symmetry. apply (N.div_unique _ _ 1 (sum + u + carry - 2 ^ w)); lia. }
      split; [done|]. pose proof (N.div_mod' (sum + u + carry) (2 ^ w)) as D. rewrite E in D. lia. }
    destruct (IH ((sum + u + carry) mod 2 ^ w) ((sum + u + carry) / 2 ^ w)) as [H1 H2]; [done| |done|done|].
    { apply N.mod_lt. lia. }
    split; [done|]. rewrite H2, (oc_eq_carry w) by done. apply reflexive_eq. lia.
Qed.

Lemma adds_ok w sum us :
  2 ^ w mod 65535 = 1 -> sum < 2 ^ w -> Forall (fun u => u < 2 ^ w) us ->
  adds w sum us < 2 ^ w /\ adds w sum us ≅ sum + foldr N.add 0 us.
Proof. intros Hw Hs Hu. destruct (adc_ok w us sum 0 Hw Hs Hu) as [H1 H2]; [by left|]. by rewrite N.add_0_r in H2. Qed.

Lemma wadd_small x y : x + y < 2 ^ 64 -> wadd x y = x + y.
Proof. apply N.mod_small. Qed.

(** The loop over chunks; [done] is what lies before them. *)
Lemma chunks_ok {T} (I : T -> list byte -> Prop) n (f : T -> list byte -> T) fuel : forall s p before,
  (0 < n)%nat -> (length p <= fuel)%nat -> I s before ->
  (forall s c d, I s c -> length d = n -> (length (c ++ d) <= length (before ++ p))%nat -> I (f s d) (c ++ d)) ->
  let '(s', q) := chunks n f fuel s p in
  exists d, p = d ++ q /\ I s' (before ++ d) /\ (length q < n)%nat /\ (n | length d)%nat.
Proof.
  induction fuel as [|fuel IH]; intros s p before Hn Hp Hs Hf; cbn [chunks].
  { exists []. rewrite app_nil_r. destruct p; [|simpl in Hp; lia]. split; [done|]. split; [done|]. split; [simpl; lia|].
    apply Nat.divide_0_r. }
  destruct (decide (length p < n)%nat) as [Hlt|Hge].
  { exists []. rewrite app_nil_r. split; [done|]. split; [done|]. split; [lia|]. apply Nat.divide_0_r. }
  assert (Hl : length (take n p) = n) by (rewrite length_take; lia).
  specialize (IH (f s (take n p)) (drop n p) (before ++ take n p) Hn).
  destruct (chunks n f fuel (f s (take n p)) (drop n p)) as [s' q].
  destruct IH as (d & E & HI & Hq & Hd).
  - rewrite length_drop. lia.
  - apply Hf; [done|done|]. rewrite !length_app. lia.
  - intros s1 c d. rewrite <- app_assoc, take_drop. apply Hf.
  - exists (take n p ++ d). split; [by rewrite <- app_assoc, <- E, take_drop|].
    split; [by rewrite app_assoc|]. split; [done|]. rewrite length_app, Hl. apply Nat.divide_add_r; [apply Nat.divide_refl|done].
Qed.

(** ** The sum of a buffer *)

Lemma shiftr_div x k : N.shiftr x k = x / 2 ^ k.
Proof. apply N.shiftr_div_pow2. Qed.

Lemma land_mod x k : N.land x (2 ^ k - 1) = x mod 2 ^ k.
Proof. rewrite <- N.land_ones, N.ones_equiv, N.pred_sub. done. Qed.

(** Two rounds of end-around carry leave [w] bits of [2 w]. *)
Lemma fold_twice w x :
  2 ^ w mod 65535 = 1 -> x < 2 ^ w * 2 ^ w ->
  let y := N.shiftr x w + N.land x (2 ^ w - 1) in
  (y + N.shiftr y w) mod 2 ^ w < 2 ^ w /\ (y + N.shiftr y w) mod 2 ^ w ≅ x.
Proof.
  intros Hw Hx. cbn zeta. rewrite !shiftr_div, land_mod. set (y := x / 2 ^ w + x mod 2 ^ w).
  assert (Hp : 2 ^ w <> 0) by (apply N.pow_nonzero; lia).
  assert (Hy : y ≅ x) by (unfold y; rewrite N.add_comm; by apply oc_eq_carry).
  assert (Hlt : y <= 2 * 2 ^ w - 2).
  { unfold y. pose proof (N.mod_lt x (2 ^ w) Hp). pose proof (N.Div0.div_lt_upper_bound x (2 ^ w) (2 ^ w) Hx). lia. }
  split; [by apply N.mod_lt|]. destruct (N.lt_ge_cases y (2 ^ w)) as [Hs|Hb].
  - rewrite (N.div_small y) by done. rewrite N.add_0_r, N.mod_small by done. done.
  - assert (E : y / 2 ^ w = 1) by (symmetry; apply (N.div_unique _ _ 1 (y - 2 ^ w)); lia).
    pose proof (N.div_mod' y (2 ^ w)) as D. rewrite E in D.
    rewrite E. transitivity y; [|done]. rewrite <- (oc_eq_carry w y Hw) at 2. rewrite E.
    replace ((y + 1) mod 2 ^ w) with (y mod 2 ^ w + 1); [done|].
    rewrite <- (N.mod_small (y mod 2 ^ w + 1) (2 ^ w)) by lia. rewrite N.Div0.add_mod_idemp_l. done.
Qed.

(** The lanes of the vector sums. *)
Definition lanes (s : avx_sums) : N :=
  foldr N.add 0 (a_hi s) + foldr N.add 0 (a_lo s) + (foldr N.add 0 (b_hi s) + foldr N.add 0 (b_lo s)).

Definition four (s : avx_sums) : Prop :=
  length (a_hi s) = 4%nat /\ length (a_lo s) = 4%nat /\ length (b_hi s) = 4%nat /\ length (b_lo s) = 4%nat.

Lemma add_epi64_ok x : forall y,
  length x = length y -> foldr N.add 0 x + foldr N.add 0 y < 2 ^ 64 ->
  length (add_epi64 x y) = length x /\ foldr N.add 0 (add_epi64 x y) = foldr N.add 0 x + foldr N.add 0 y.
Proof.
  induction x as [|a x IH]; intros [|b y] Hl Hs; try done. 
  change (add_epi64 (a :: x) (b :: y)) with (wadd a b :: add_epi64 x y). cbn [foldr length] in *.
  destruct (IH y ltac:(lia) ltac:(lia)) as [-> ->]. rewrite wadd_small by lia. split; lia.
Qed.

Lemma unpack_ok a :
  length a = 8%nat ->
  length (unpackhi a) = 4%nat /\ length (unpacklo a) = 4%nat /\
  foldr N.add 0 (unpackhi a) + foldr N.add 0 (unpacklo a) = foldr N.add 0 a.
Proof. intros H. do 9 (destruct a as [|? a]; try done). simpl. split; [done|]. split; [done|]. lia. Qed.

Lemma sum_lt b l : Forall (fun x => x < b) l -> foldr N.add 0 l <= b * N.of_nat (length l).
Proof. induction 1; simpl; lia. Qed.

Lemma avx_load_ok p :
  length p = 64%nat -> four (avx_load p) /\ lanes (avx_load p) ≅ total p /\ lanes (avx_load p) <= 2 ^ 32 * 16.
Proof.
  intros Hp. destruct (loads_ok 4 8 p) as (A1 & A2 & A3); [done|lia|].
  destruct (loads_ok 4 8 (drop 32 p)) as (B1 & B2 & B3); [done|rewrite length_drop; lia|].
  unfold avx_load, load256, four, lanes. cbn [a_hi a_lo b_hi b_lo].
  destruct (unpack_ok _ A3) as (U1 & U2 & U3). destruct (unpack_ok _ B3) as (V1 & V2 & V3).
  split; [done|]. rewrite U3, V3. apply sum_lt in A2, B2. rewrite A3 in A2. rewrite B3 in B2. split.
  - rewrite A1, B1. change (4 * 8)%nat with 32%nat. rewrite <- total_app by (rewrite length_take; by replace (32 `min` length p)%nat with 32%nat by lia).
    rewrite (take_ge (drop 32 p)) by (rewrite length_drop; lia). by rewrite take_drop.
  - change (256 ^ N.of_nat 4) with (2 ^ 32) in *. lia.
Qed.

Lemma avx_step_ok s p :
  four s -> length p = 64%nat -> lanes s + 2 ^ 32 * 16 < 2 ^ 64 ->
  four (avx_step s p) /\ lanes (avx_step s p) = lanes s + lanes (avx_load p).
Proof.
  intros (F1 & F2 & F3 & F4) Hp Hs. destruct (avx_load_ok p Hp) as ((G1 & G2 & G3 & G4) & _ & Hb).
  unfold avx_step, four, lanes in *. cbn [a_hi a_lo b_hi b_lo] in *. set (x := avx_load p) in *.
  destruct (add_epi64_ok (a_hi s) (a_hi x)) as [-> ->]; [congruence|lia|].
  destruct (add_epi64_ok (a_lo s) (a_lo x)) as [-> ->]; [congruence|lia|].
  destruct (add_epi64_ok (b_hi s) (b_hi x)) as [-> ->]; [congruence|lia|].
  destruct (add_epi64_ok (b_lo s) (b_lo x)) as [-> ->]; [congruence|lia|]. split; [done|lia].
Qed.

Lemma avx_fold_ok s : four s -> lanes s < 2 ^ 64 -> avx_fold s = lanes s.
Proof.
  intros (F1 & F2 & F3 & F4) Hs. unfold avx_fold, lanes in *.
  destruct (add_epi64_ok (a_hi s) (a_lo s)) as [L1 E1]; [congruence|lia|].
  destruct (add_epi64_ok (b_hi s) (b_lo s)) as [L2 E2]; [congruence|lia|].
  destruct (add_epi64_ok (add_epi64 (a_hi s) (a_lo s)) (add_epi64 (b_hi s) (b_lo s))) as [L3 E3]; [congruence|lia|].
  set (v := add_epi64 (add_epi64 (a_hi s) (a_lo s)) _) in *. rewrite L1, F1 in L3. rewrite E1, E2 in E3. rewrite <- E3 in *.
  clearbody v.
  destruct v as [|a [|b [|c [|d [|e v]]]]]; try done. simpl in Hs |- *.
  rewrite (wadd_small a c), (wadd_small b d), (wadd_small (b + d) 0), wadd_small by lia. lia.
Qed.

Lemma even_multiple n k : Nat.even n = true -> (n | k)%nat -> Nat.even k = true.
Proof. intros Hn [m ->]. by rewrite Nat.even_mul, Hn, orb_true_r. Qed.

(** What is left to do after a prefix [d] of even length. *)
Definition summed (s0 s : N) (p q : list byte) : Prop :=
  exists d, p = d ++ q /\ Nat.even (length d) = true /\ s ≅ s0 + total d /\ s <= s0 + 2 ^ 30 * N.of_nat (length d).

Lemma sum_avx_ok avx2 p :
  N.of_nat (length p) < 2 ^ 33 -> let '(s, q) := sum_avx avx2 p in summed 0 s p q.
Proof.
  intros Hp. unfold sum_avx. destruct (avx2 && bool_decide _) eqn:E.
  2: { exists []. split; [done|]. split; [done|]. by split. }
  apply andb_true_iff in E as [_ E]. apply bool_decide_eq_true in E.
  assert (Hl : length (take 64 p) = 64%nat) by (rewrite length_take; lia).
  pose (I := fun (s : avx_sums) (c : list byte) => four s /\ Nat.even (length c) = true /\ lanes s ≅ total c /\
    lanes s <= 2 ^ 30 * N.of_nat (length c)).
  pose proof (chunks_ok I 64 avx_step (length p) (avx_load (take 64 p)) (drop 64 p) (take 64 p)) as C.
  destruct (chunks 64 avx_step (length p) (avx_load (take 64 p)) (drop 64 p)) as [s q].
  destruct C as (d & Ed & (HF & He & HE & HB) & Hq & Hd).
  - lia.
  - rewrite length_drop. lia.
  - destruct (avx_load_ok (take 64 p) Hl) as (? & ? & ?). unfold I. rewrite Hl. split; [done|]. split; [done|].
    split; [done|lia].
  - intros s1 c d (F & Hev & HE & HB) Hd Hlen. rewrite take_drop in Hlen. rewrite length_app in Hlen.
    destruct (avx_step_ok s1 d F Hd) as [F' EL]; [lia|]. destruct (avx_load_ok d Hd) as (_ & A & B). unfold I. rewrite EL.
    split; [done|]. split; [by rewrite length_app, Nat.even_add, Hev, Hd|].
    split; [by rewrite HE, A, total_app|]. rewrite length_app, Hd. lia.
  - exists (take 64 p ++ d). rewrite <- app_assoc, <- Ed, take_drop. split; [done|]. split; [done|].
    assert (Hlen : (length (take 64 p ++ d) <= length p)%nat).
    { rewrite <- (take_drop 64 p) at 2. rewrite Ed, !length_app. lia. }
    rewrite avx_fold_ok by (done || lia). split; [done|lia].
Qed.

Lemma foldl_wadd us : forall s, s + foldr N.add 0 us < 2 ^ 64 -> foldl wadd s us = s + foldr N.add 0 us.
Proof.
  induction us as [|u us IH]; intros s Hs; cbn [foldl foldr] in *; [lia|].
  rewrite (wadd_small s u) by lia. rewrite IH; lia.
Qed.

(** A loop whose rounds add the sum of a chunk and lose nothing. *)
Lemma chunk_sums n (f : N -> list byte -> N) s0 p :
  (0 < n)%nat -> Nat.even n = true ->
  (forall s c, length c = n -> s + 2 ^ 30 * N.of_nat n < 2 ^ 64 -> f s c ≅ s + total c /\ f s c <= s + 2 ^ 30 * N.of_nat n) ->
  s0 + 2 ^ 30 * N.of_nat (length p) < 2 ^ 64 ->
  let '(s, q) := chunks n f (length p) s0 p in summed s0 s p q /\ (length q < n)%nat.
Proof.
  intros Hn He Hf Hp.
  pose (I := fun (s : N) (c : list byte) => Nat.even (length c) = true /\ s ≅ s0 + total c /\ s <= s0 + 2 ^ 30 * N.of_nat (length c)).
  pose proof (chunks_ok I n f (length p) s0 p []) as C. destruct (chunks n f (length p) s0 p) as [s q].
  destruct C as (d & Ed & (H1 & H2 & H3) & Hq & Hd); [done|done| | |by split; [exists d|]].
  - split; [done|]. unfold total. simpl. rewrite N.add_0_r. split; [done|lia].
  - intros s1 c d1 (Hc & HE & HB) Hd1 Hlen. rewrite app_nil_l, length_app in Hlen.
    destruct (Hf s1 d1 Hd1) as [E1 E2]; [lia|]. unfold I. rewrite length_app, Hd1, Nat.even_add, Hc, He. split; [done|].
    split; [|lia]. rewrite E1, HE, total_app by done. by rewrite N.add_assoc.
Qed.

(** The same for the loops that keep 64 bits with end-around carries. *)
Lemma chunk_adds n k s0 p :
  n = (8 * k)%nat -> (0 < k)%nat -> s0 < 2 ^ 64 ->
  let '(s, q) := chunks n (fun s c => adds 64 s (loads 8 k c)) (length p) s0 p in
  s < 2 ^ 64 /\ (length q < n)%nat /\ exists d, p = d ++ q /\ Nat.even (length d) = true /\ s ≅ s0 + total d.
Proof.
  intros -> Hk Hs.
  pose (I := fun (s : N) (c : list byte) => s < 2 ^ 64 /\ Nat.even (length c) = true /\ s ≅ s0 + total c).
  assert (He : Nat.even (8 * k) = true) by (by rewrite Nat.even_mul).
  pose proof (chunks_ok I (8 * k) (fun s c => adds 64 s (loads 8 k c)) (length p) s0 p []) as C.
  destruct (chunks (8 * k) _ (length p) s0 p) as [s q].
  destruct C as (d & Ed & (H1 & H2 & H3) & Hq & Hd); [lia|done| | |by eauto 10].
  - split; [done|]. split; [done|]. unfold total. simpl. by rewrite N.add_0_r.
  - intros s1 c d1 (Hb & Hc & HE) Hd1 _. destruct (loads_ok 8 k d1) as (L1 & L2 & _); [done|lia|].
    rewrite take_ge in L1 by lia.
    destruct (adds_ok 64 s1 (loads 8 k d1)) as [A1 A2]; [done|done|done|]. unfold I.
    split; [done|]. rewrite length_app, Hd1, Nat.even_add, Hc, He. split; [done|].
    rewrite A2, L1, HE, total_app by done. by rewrite N.add_assoc.
Qed.

Lemma reduce_ok s : s < 2 ^ 64 -> reduce s ≅ s /\ reduce s < 2 ^ 33.
Proof.
  intros Hs. unfold reduce. rewrite shiftr_div, land_mod. split; [rewrite N.add_comm; by apply oc_eq_carry|].
  pose proof (N.mod_lt s (2 ^ 32) ltac:(done)). pose proof (N.Div0.div_lt_upper_bound s (2 ^ 32) (2 ^ 32)). lia.
Qed.

Lemma sum_words_ok x86 s0 p :
  s0 <= 2 ^ 63 -> N.of_nat (length p) < 2 ^ 33 ->
  let '(s, q) := sum_words x86 s0 p in
  exists d, p = d ++ q /\ Nat.even (length d) = true /\ s ≅ s0 + total d /\
    s + 2 ^ 30 * N.of_nat (length q) + 256 < 2 ^ 64.
Proof.
  intros Hs Hp. unfold sum_words. destruct x86.
  - pose proof (chunk_adds 64 8 s0 p) as C1. destruct (chunks 64 _ (length p) s0 p) as [s1 q1].
    destruct C1 as (B1 & _ & d1 & E1 & V1 & S1); [done|lia|lia|].
    pose proof (chunk_adds 16 2 s1 q1) as C2. destruct (chunks 16 _ (length q1) s1 q1) as [s2 q2].
    destruct C2 as (B2 & Hq & d2 & E2 & V2 & S2); [done|lia|done|].
    destruct (reduce_ok s2 B2) as [R1 R2]. exists (d1 ++ d2). rewrite <- app_assoc, <- E2. split; [done|].
    rewrite length_app, Nat.even_add, V1, V2. split; [done|]. split; [|lia].
    rewrite R1, S2, S1, total_app by done. by rewrite N.add_assoc.
  - pose proof (chunk_sums 8 (fun s c => foldl wadd s (loads 2 4 c)) s0 p) as C.
    destruct (chunks 8 _ (length p) s0 p) as [s q].
    destruct C as ((d & E & V & S & B) & Hq); [lia|done| |lia|].
    + intros s1 c Hc Hb. destruct (loads_ok 2 4 c) as (L1 & L2 & L3); [done|lia|].
      rewrite take_ge in L1 by lia. apply sum_lt in L2. rewrite L3 in L2. change (256 ^ N.of_nat 2) with 65536 in L2.
      rewrite foldl_wadd by lia. split; [by rewrite L1|lia].
    + exists d. do 3 (split; [done|]). assert (length p = (length d + length q)%nat) by (by rewrite E, length_app). lia.
Qed.

Lemma CalculateSum_ok avx2 x86 p :
  N.of_nat (length p) < 2 ^ 33 ->
  exists s, CalculateSum avx2 x86 p = Some s /\ s < 2 ^ 32 /\ s ≅ total p.
Proof.
  intros Hp. unfold CalculateSum.
  pose proof (sum_avx_ok avx2 p Hp) as A. destruct (sum_avx avx2 p) as [s1 q1]. destruct A as (d1 & E1 & V1 & S1 & B1).
  assert (L1 : length p = (length d1 + length q1)%nat) by (by rewrite E1, length_app).
  pose proof (sum_words_ok x86 s1 q1 ltac:(lia) ltac:(lia)) as W. destruct (sum_words x86 s1 q1) as [s2 q2].
  destruct W as (d2 & E2 & V2 & S2 & B2).
  assert (L2 : length q1 = (length d2 + length q2)%nat) by (by rewrite E2, length_app).
  pose proof (chunk_sums 2 (fun s c => wadd s (le c)) s2 q2) as C. destruct (chunks 2 _ (length q2) s2 q2) as [s3 q3].
  destruct C as ((d3 & E3 & V3 & S3 & B3) & Hq3); [lia|done| |lia|].
  { intros s c Hc Hb. pose proof (le_lt c) as Hle. rewrite Hc in Hle. change (256 ^ N.of_nat 2) with 65536 in Hle.
    rewrite wadd_small by lia. split; [by rewrite le_total|lia]. }
  assert (L3 : length q2 = (length d3 + length q3)%nat) by (by rewrite E3, length_app).
  assert (Hodd : Nat.odd (length p) = Nat.odd (length q3)).
  { rewrite L1, L2, L3, !Nat.odd_add, <- !Nat.negb_even, V1, V2, V3. by destruct (Nat.even (length q3)). }
  assert (exists s4, (if Nat.odd (length p) then b ← head q3; Some (wadd s3 (Byte.to_N b)) else Some s3) = Some s4 /\
    s4 ≅ s3 + total q3 /\ s4 < 2 ^ 64) as (s4 & -> & S4 & B4).
  { rewrite Hodd. destruct q3 as [|b [|b' q3]]; simpl in Hq3 |- *; [| |lia].
    - exists s3. unfold total. simpl. rewrite N.add_0_r. split; [done|]. split; [done|lia].
    - pose proof (byte_lt b). exists (s3 + Byte.to_N b). unfold total. simpl.
      rewrite wadd_small, N.add_0_r by (simpl in L3; lia). split; [done|]. split; [done|simpl in L3; lia]. }
  cbn [mbind option_bind]. destruct (fold_twice 32 s4) as [F1 F2]; [done|lia|].
  eexists. split; [reflexivity|]. split; [exact F1|]. unfold reduce. rewrite F2, S4, S3, S2, S1, E1, E2, E3.
  rewrite !total_app by done. apply reflexive_eq. lia.
Qed.

Lemma FoldChecksum_ok x ws :
  x < 2 ^ 32 -> Forall (fun x => x < 65536) ws -> x ≅ foldr N.add 0 ws -> FoldChecksum x = 2 ^ 16 - 1 - ones_words ws.
Proof.
  intros Hx Hw Hl. unfold FoldChecksum. destruct (fold_twice 16 x) as [F1 F2]; [done|lia|].
  destruct (ones_words_ok ws Hw) as [O1 O2]. f_equal. apply oc_eq_unique; [done|done|]. by rewrite F2, Hl, O2.
Qed.

(** ** Lemmas on headers *)

Lemma load32s_ok k off p :
  (off + 4 * k <= length p)%nat ->
  exists us, load32s k off p = Some us /\ us = loads 4 k (drop off p) /\ length us = k /\ Forall (fun u => u < 2 ^ 32) us /\
    foldr N.add 0 us ≅ total (take (4 * k) (drop off p)).
Proof.
  intros Hp. unfold load32s, slice. rewrite option_guard_True by done. cbn [mbind option_bind fmap option_fmap option_map].
  destruct (loads_ok 4 k (drop off p)) as (L1 & L2 & L3); [done|rewrite length_drop; lia|].
  destruct (loads_ok 4 k (take (4 * k) (drop off p))) as (M1 & M2 & M3); [done|rewrite length_take, length_drop; lia|].
  eexists. split; [reflexivity|]. rewrite take_take, Nat.min_id in M1. split; [|done].
  clear -Hp. revert off p Hp. induction k as [|k IH]; intros off p Hp; [done|]. cbn [loads].
  rewrite take_take, (Nat.min_l 4 _) by lia. f_equal. rewrite skipn_firstn_comm.
  replace (4 * S k - 4)%nat with (4 * k)%nat by lia. rewrite drop_drop. apply IH. lia.
Qed.

Lemma byte_of_ok v : Byte.to_N (byte_of v) = v mod 256.
Proof.
  unfold byte_of. pose proof (N.mod_lt v 256 ltac:(done)).
  destruct (Byte.of_N (v mod 256)) as [b|] eqn:E; [by apply Byte.to_of_N|].
  apply Byte.of_N_None_iff in E. lia.
Qed.

Lemma total_store16 off v p :
  Nat.even off = true -> (off + 2 <= length p)%nat -> v < 65536 ->
  total (store16 off v p) = total (take off p) + v + total (drop (off + 2) p).
Proof.
  intros He Hl Hv. unfold store16. rewrite total_app by (by rewrite length_take; replace (off `min` length p)%nat with off by lia).
  rewrite total_app by done. unfold total at 2. simpl. rewrite !byte_of_ok. nlia.
Qed.

Lemma store16_length off v p : (off + 2 <= length p)%nat -> length (store16 off v p) = length p.
Proof. intros H. unfold store16. rewrite !length_app, length_take, length_drop. simpl. lia. Qed.

Lemma store16_take off v n p : (off + 2 <= n <= length p)%nat -> take n (store16 off v p) = store16 off v (take n p).
Proof.
  intros H. unfold store16. rewrite take_app, length_take, take_take, take_app. simpl length.
  rewrite (take_ge [_; _]) by (simpl; lia). rewrite take_drop_commute, take_take.
  repeat (f_equal; try lia).
Qed.

Lemma CalculateGeneric_ok avx2 x86 p :
  N.of_nat (length p) < 2 ^ 33 -> CalculateGenericChecksum avx2 x86 p = Some (checksum_of p).
Proof.
  intros Hp. unfold CalculateGenericChecksum. destruct (CalculateSum_ok avx2 x86 p Hp) as (s & -> & Hs & E).
  cbn [fmap option_fmap option_map]. f_equal. apply FoldChecksum_ok; [done|apply words_lt|done].
Qed.

(** A header and what was summed before it. *)
Lemma fold_adds sum us ws :
  sum < 2 ^ 32 -> Forall (fun u => u < 2 ^ 32) us -> Forall (fun x => x < 65536) ws ->
  sum + foldr N.add 0 us ≅ foldr N.add 0 ws -> FoldChecksum (adds 32 sum us) = 2 ^ 16 - 1 - ones_words ws.
Proof.
  intros Hs Hu Hw E. destruct (adds_ok 32 sum us) as [A1 A2]; [done|done|done|].
  apply FoldChecksum_ok; [done|done|]. by rewrite A2, E.
Qed.

Lemma verify_zero ws : Forall (fun x => x < 65536) ws -> (2 ^ 16 - 1 - ones_words ws =? 0) = bool_decide (ones_words ws = 65535).
Proof.
  intros Hw. destruct (ones_words_ok ws Hw) as [H _]. apply eq_bool_prop_intro. rewrite Is_true_true, N.eqb_eq.
  rewrite bool_decide_spec. lia.
Qed.

Lemma low16 a b x : N.land (Byte.to_N a + 256 * (Byte.to_N b + 256 * x)) 65535 = Byte.to_N a + 256 * Byte.to_N b.
Proof.
  change 65535 with (2 ^ 16 - 1). rewrite land_mod. pose proof (byte_lt a). pose proof (byte_lt b).
  change (2 ^ 16) with 65536. nlia.
Qed.

Lemma high16 a b x : N.shiftr (Byte.to_N a + 256 * (Byte.to_N b + 256 * x)) 16 = x.
Proof. rewrite shiftr_div. pose proof (byte_lt a). pose proof (byte_lt b). change (2 ^ 16) with 65536. nlia. Qed.

(** The sum of a header whose checksum field is skipped is that of the header
    with zeroes there. *)
Lemma skip_ip p :
  (20 <= length p)%nat ->
  exists u0 u1 u2 u3 u4, load32s 5 0 p = Some [u0; u1; u2; u3; u4] /\
    loads 4 5 (store16 10 0 p) = [u0; u1; N.land u2 65535; u3; u4].
Proof.
  intros Hp. destruct (load32s_ok 5 0 p) as (us & E & Eus & _); [lia|]. rewrite E. subst us. rewrite drop_0.
  do 20 (destruct p as [|? p]; [simpl in Hp; lia|]). cbn [loads take]. do 5 eexists. split; [reflexivity|].
  unfold store16. cbn [take drop app loads Nat.add le]. rewrite !byte_of_ok. repeat f_equal. rewrite low16, ?drop_0, ?take_0. cbn [le]. nlia.
Qed.

Lemma skip_udp p :
  (8 <= length p)%nat ->
  exists u0 u1, load32s 2 0 p = Some [u0; u1] /\ loads 4 2 (store16 6 0 p) = [u0; N.land u1 65535].
Proof.
  intros Hp. destruct (load32s_ok 2 0 p) as (us & E & Eus & _); [lia|]. rewrite E. subst us. rewrite drop_0.
  do 8 (destruct p as [|? p]; [simpl in Hp; lia|]). cbn [loads take]. do 2 eexists. split; [reflexivity|].
  unfold store16. cbn [take drop app loads Nat.add le]. rewrite !byte_of_ok. repeat f_equal. rewrite low16, ?drop_0, ?take_0. cbn [le]. nlia.
Qed.

Lemma skip_tcp p :
  (20 <= length p)%nat ->
  exists u0 u1 u2 u3 u4, load32s 5 0 p = Some [u0; u1; u2; u3; u4] /\
    Forall (fun u => u < 2 ^ 32) [u0; u1; u2; u3; N.shiftr u4 16] /\
    foldr N.add 0 [u0; u1; u2; u3; N.shiftr u4 16] ≅ total (store16 16 0 (take 20 p)).
Proof.
  intros Hp. destruct (load32s_ok 5 0 p) as (us & E & Eus & _ & HF & _); [lia|]. rewrite E.
  destruct (load32s_ok 5 0 (store16 16 0 (take 20 p))) as (vs & _ & Evs & _ & _ & HE).
  { rewrite store16_length; rewrite length_take; lia. }
  rewrite drop_0 in *. rewrite take_ge in HE by (rewrite store16_length; rewrite length_take; lia).
  do 20 (destruct p as [|? p]; [simpl in Hp; lia|]). subst us vs.
  cbn [loads take drop] in *. do 5 eexists. split; [reflexivity|].
  repeat (apply Forall_cons in HF as [? HF]). rewrite <- HE. clear HE. unfold store16.
  cbn [take drop app loads Nat.add le foldr]. rewrite !byte_of_ok, high16, ?drop_0, ?take_0. cbn [le]. rewrite !N.mul_0_r. split.
  { repeat (apply Forall_cons; split; [done|]). apply Forall_cons; split; [|constructor].
    pose proof (byte_lt b17). pose proof (byte_lt b18). lia. }
  do 4 (apply add_oc_eq; [done|]). rewrite !N.add_0_r. change (0 mod 256) with 0. change ((0 / 256) mod 256) with 0.
  rewrite !N.add_0_l, N.mul_assoc. change (256 * 256) with 65536. by rewrite oc_eq_shift.
Qed.

Lemma store16_app off v a b : (off + 2 <= length a)%nat -> store16 off v (a ++ b) = store16 off v a ++ b.
Proof.
  intros H. unfold store16. rewrite take_app_le by lia. rewrite drop_app_le by lia. by rewrite <- !app_assoc.
Qed.

Lemma take_split h n (p : list byte) : (h <= n)%nat -> take n p = take h p ++ take (n - h) (drop h p).
Proof. intros H. rewrite take_take_drop. f_equal. lia. Qed.

(** The words of the pseudo header. *)
Definition pseudo (src dst proto len : N) : list N :=
  [src mod 65536; src / 65536; dst mod 65536; dst / 65536; 256 * proto; bswap16 len].

Lemma sum_app a b : foldr N.add 0 (a ++ b) = foldr N.add 0 a + foldr N.add 0 b.
Proof. induction a as [|x a IH]; simpl; [done|]. rewrite IH. lia. Qed.

Lemma pseudo_ok src dst proto len :
  src < 2 ^ 32 -> dst < 2 ^ 32 -> proto < 256 -> len < 65536 ->
  Forall (fun x => x < 65536) (pseudo src dst proto len) /\ bswap16 len < 65536 /\
  src + (dst + (bswap16 len + (256 * proto + 0))) ≅ foldr N.add 0 (pseudo src dst proto len).
Proof.
  intros Hs Hd Hp Hl. unfold pseudo, bswap16. split; [|split].
  - repeat (apply Forall_cons; split); try constructor; try nlia.
  - nlia.
  - cbn [foldr]. pose proof (oc_eq_carry 16 src ltac:(done)) as Es. pose proof (oc_eq_carry 16 dst ltac:(done)) as Ed.
    change (2 ^ 16) with 65536 in *. etransitivity.
    + apply add_oc_eq; [symmetry; exact Es|]. apply add_oc_eq; [symmetry; exact Ed|reflexivity].
    + apply reflexive_eq. lia.
Qed.

(** The value that completes the sum, stored into the field that was skipped. *)
Lemma stored_ok ws off q c :
  Forall (fun x => x < 65536) ws -> Nat.even off = true -> (off + 2 <= length q)%nat -> c < 65536 ->
  c + ones_words (ws ++ words (store16 off 0 q)) ≅ 65535 -> ones_words (ws ++ words (store16 off c q)) = 65535.
Proof.
  intros Hw He Hl Hc E.
  assert (F : forall l, Forall (fun x => x < 65536) (ws ++ words l)) by (intros; apply Forall_app; split; [done|apply words_lt]).
  destruct (ones_words_ok _ (F (store16 off c q))) as [B1 S1]. destruct (ones_words_ok _ (F (store16 off 0 q))) as [_ S0].
  apply oc_eq_full; [done|]. rewrite S1, <- E, S0, !sum_app. fold (total (store16 off c q)) (total (store16 off 0 q)).
  rewrite !total_store16 by done. apply reflexive_eq. lia.
Qed.

Lemma field_stored off c q : (off + 2 <= length q)%nat -> c < 65536 -> load 2 off (store16 off c q) = Some c.
Proof.
  intros Hl Hc. unfold load, slice. rewrite option_guard_True by (rewrite store16_length; lia).
  cbn [mbind option_bind fmap option_fmap option_map]. f_equal. unfold store16.
  rewrite drop_app_length' by (rewrite length_take; lia). simpl. rewrite !byte_of_ok. nlia.
Qed.

Lemma total_store_le ws : Forall (fun x => x < 65536) ws -> 2 ^ 16 - 1 - ones_words ws + ones_words ws ≅ 65535.
Proof. intros H. destruct (ones_words_ok ws H) as [? _]. apply reflexive_eq. lia. Qed.

(** * Properties *)

(** C39. The optimised sum is the one's complement sum of RFC 1071: for every
    buffer, whichever of its paths is compiled in, [CalculateGenericChecksum] is
    the complement of the sum of the 16-bit words with end-around carries, and
    [VerifyGenericChecksum] compares with it. *)
Theorem checksum_reference avx2 x86 p cksum :
  N.of_nat (length p) < 2 ^ 33 ->
  CalculateGenericChecksum avx2 x86 p = Some (checksum_of p) /\
  VerifyGenericChecksum avx2 x86 p cksum = Some (bool_decide (cksum = checksum_of p)) /\
  VerifyGenericChecksum avx2 x86 p 0 = Some (bool_decide (ones_sum p = 65535)).
Proof.
  intros Hp. unfold VerifyGenericChecksum. rewrite (CalculateGeneric_ok avx2 x86 p Hp). cbn [mbind option_bind].
  split; [done|]. split; f_equal.
  - apply eq_bool_prop_intro. rewrite Is_true_true, N.eqb_eq, bool_decide_spec. split; congruence.
  - apply verify_zero, words_lt.
Qed.

Lemma ip_parts n p :
  (20 <= n <= length p)%nat -> (n <= 60)%nat ->
  let options := take (n - 20) (drop 20 p) in
  slice 20 (n - 20) p = Some options /\ N.of_nat (length options) < 2 ^ 33 /\
  total (take n p) = total (take 20 p) + total options /\
  total (store16 10 0 (take n p)) = total (store16 10 0 (take 20 p)) + total options.
Proof.
  intros Hn H60. cbn zeta. unfold slice. rewrite option_guard_True by lia. split; [done|].
  split; [rewrite length_take, length_drop; lia|]. rewrite (take_split 20 n) by lia.
  assert (L : length (take 20 p) = 20%nat) by (rewrite length_take; lia).
  split; [by rewrite total_app by by rewrite L|].
  rewrite store16_app by lia. rewrite total_app; [done|]. rewrite store16_length by lia. by rewrite L.
Qed.

Lemma ip_verify avx2 x86 p n :
  ip_header_len p = Some n -> (20 <= length p)%nat -> (n <= length p)%nat ->
  VerifyIpv4Checksum avx2 x86 p = Some (bool_decide ((20 <= n)%nat /\ ones_sum (take n p) = 65535)).
Proof.
  intros En H20 Hn. unfold VerifyIpv4Checksum. rewrite En. cbn [mbind option_bind].
  assert (H60 : (n <= 60)%nat).
  { unfold ip_header_len in En. destruct (head p) as [b|]; [|done]. injection En as <-.
    pose proof (N.mod_lt (Byte.to_N b) 16 ltac:(done)). lia. }
  destruct (load32s_ok 5 0 p) as (us & Eus & _ & Hlen & HF & HE); [lia|]. rewrite drop_0 in HE.
  destruct (decide (n = 20)%nat) as [->|H1]; [|destruct (decide (n < 20)%nat) as [H2|H2]].
  - unfold VerifyIpv4NoOptChecksum. rewrite Eus. cbn [mbind option_bind]. destruct us as [|u0 us]; [done|]. f_equal.
    apply Forall_cons in HF as [H0 HF].
    rewrite (fold_adds u0 us (words (take 20 p))) by (done || apply words_lt). rewrite verify_zero by apply words_lt.
    apply bool_decide_ext. unfold ones_sum. split; [done|by intros [_ ?]].
  - f_equal. symmetry. apply bool_decide_eq_false. lia.
  - destruct (ip_parts n p ltac:(lia) H60) as (-> & Ho & Et & _). cbn [mbind option_bind].
    destruct (CalculateSum_ok avx2 x86 _ Ho) as (s & -> & Hs & Es). cbn [mbind option_bind]. rewrite Eus.
    cbn [mbind option_bind]. f_equal.
    rewrite (fold_adds s us (words (take n p))); [|done|done|apply words_lt|].
    + rewrite verify_zero by apply words_lt. apply bool_decide_ext. unfold ones_sum. split; [intros ?; split; [lia|done]|by intros [_ ?]].
    + fold (total (take n p)). rewrite Et, Es, HE. apply reflexive_eq. change (4 * 5)%nat with 20%nat. lia.
Qed.

Lemma ip_calculate avx2 x86 p n :
  ip_header_len p = Some n -> (20 <= length p)%nat -> (n <= length p)%nat ->
  CalculateIpv4Checksum avx2 x86 p = Some (if decide (20 <= n)%nat then checksum_of (store16 10 0 (take n p)) else 0).
Proof.
  intros En H20 Hn. unfold CalculateIpv4Checksum. rewrite En. cbn [mbind option_bind].
  assert (H60 : (n <= 60)%nat).
  { unfold ip_header_len in En. destruct (head p) as [b|]; [|done]. injection En as <-.
    pose proof (N.mod_lt (Byte.to_N b) 16 ltac:(done)). lia. }
  destruct (skip_ip p H20) as (u0 & u1 & u2 & u3 & u4 & Eus & El).
  destruct (loads_ok 4 5 (store16 10 0 p)) as (HE & HF & _); [done|rewrite store16_length; lia|].
  rewrite El in HE, HF. rewrite store16_take in HE by lia. change (4 * 5)%nat with 20%nat in HE.
  destruct (decide (n = 20)%nat) as [->|H1]; [|destruct (decide (n < 20)%nat) as [H2|H2]].
  - unfold CalculateIpv4NoOptChecksum. rewrite Eus. cbn [mbind option_bind]. rewrite decide_True by lia. f_equal.
    apply Forall_cons in HF as [H0 HF]. by rewrite (fold_adds u0 _ (words (store16 10 0 (take 20 p)))) by (done || apply words_lt).
  - rewrite decide_False by lia. done.
  - destruct (ip_parts n p ltac:(lia) H60) as (-> & Ho & _ & Et). cbn [mbind option_bind].
    destruct (CalculateSum_ok avx2 x86 _ Ho) as (s & -> & Hs & Es). cbn [mbind option_bind]. rewrite Eus.
    cbn [mbind option_bind]. rewrite decide_True by lia. f_equal.
    rewrite (fold_adds s _ (words (store16 10 0 (take n p)))); [done|done|done|apply words_lt|].
    fold (total (store16 10 0 (take n p))). rewrite Et, Es, HE. apply reflexive_eq. lia.
Qed.

Lemma payload_parts h off len p :
  let n := N.to_nat len in
  (h <= n <= length p)%nat -> len < 65536 -> Nat.even h = true -> (off + 2 <= h)%nat ->
  let data := take (n - h) (drop h p) in
  payload h len p = Some data /\ N.of_nat (length data) < 2 ^ 33 /\
  total (take n p) = total (take h p) + total data /\
  total (store16 off 0 (take n p)) = total (store16 off 0 (take h p)) + total data.
Proof.
  cbn zeta. intros Hn Hlen He Ho. unfold payload, slice. rewrite option_guard_True by lia. cbn [mbind option_bind].
  rewrite option_guard_True by lia. split; [done|]. split; [rewrite length_take, length_drop; lia|].
  rewrite (take_split h (N.to_nat len)) by lia. assert (L : length (take h p) = h) by (rewrite length_take; lia).
  split; [by rewrite total_app by by rewrite L|].
  rewrite store16_app by lia. rewrite total_app; [done|]. rewrite store16_length by lia. by rewrite L.
Qed.

(** The sum of a segment: payload, words of the header, words of the pseudo
    header. *)
Lemma segment_sum sum us src dst proto len t hd d :
  src < 2 ^ 32 -> dst < 2 ^ 32 -> proto < 256 -> len < 65536 -> sum < 2 ^ 32 -> Forall (fun u => u < 2 ^ 32) us ->
  sum ≅ total d -> foldr N.add 0 us ≅ total hd -> total t = total hd + total d ->
  FoldChecksum (adds 32 sum (us ++ [src; dst; bswap16 len; 256 * proto])) =
    2 ^ 16 - 1 - ones_words (pseudo src dst proto len ++ words t).
Proof.
  intros Hs Hd Hp Hl Hsum Hus Es Eu Et. destruct (pseudo_ok src dst proto len Hs Hd Hp Hl) as (P1 & P2 & P3).
  apply fold_adds; [done| |apply Forall_app; split; [done|apply words_lt]|].
  - apply Forall_app. split; [done|]. do 4 (apply Forall_cons; split; [lia|]). constructor.
  - rewrite !sum_app. fold (total t). rewrite Et, <- P3, Es, Eu. cbn [foldr]. apply reflexive_eq. lia.
Qed.

Section segment.
Context (avx2 x86 : bool) (src dst len : N) (p : list byte).
Context (Hsrc : src < 2 ^ 32) (Hdst : dst < 2 ^ 32) (Hlen : len < 65536) (Hp : (N.to_nat len <= length p)%nat).
Let seg := take (N.to_nat len) p.

Lemma udp_verify :
  8 <= len ->
  VerifyIpv4UdpChecksum avx2 x86 p src dst len =
    Some (bool_decide (load 2 6 p = Some 0 \/ ones_words (pseudo src dst 17 len ++ words seg) = 65535)).
Proof.
  intros H8. unfold VerifyIpv4UdpChecksum. assert (Hl : exists v, load 2 6 p = Some v).
  { unfold load, slice. rewrite option_guard_True by lia. eauto. }
  destruct Hl as [v Ev]. rewrite Ev. cbn [mbind option_bind]. destruct (N.eqb_spec v 0) as [->|Hv].
  { rewrite bool_decide_true; [done|by left]. }
  destruct (payload_parts 8 6 len p) as (-> & Hd & Et & _); [lia|lia|done|lia|]. cbn [mbind option_bind].
  destruct (CalculateSum_ok avx2 x86 _ Hd) as (s & -> & Hs & Es). cbn [mbind option_bind].
  destruct (load32s_ok 2 0 p) as (us & -> & _ & _ & HF & HE); [lia|]. rewrite drop_0 in HE. cbn [mbind option_bind].
  f_equal. change 0x1100 with (256 * 17).
  rewrite (segment_sum s us src dst 17 len seg (take 8 p) (take (N.to_nat len - 8) (drop 8 p))) by done.
  rewrite verify_zero by (apply Forall_app; split; [by apply pseudo_ok|apply words_lt]).
  apply bool_decide_ext. split; [by right|intros [?|?]; [congruence|done]].
Qed.

Lemma udp_calculate :
  8 <= len ->
  CalculateIpv4UdpChecksum avx2 x86 p src dst len =
    let c := 2 ^ 16 - 1 - ones_words (pseudo src dst 17 len ++ words (store16 6 0 seg)) in
    Some (if c =? 0 then 65535 else c).
Proof.
  intros H8. unfold CalculateIpv4UdpChecksum.
  destruct (payload_parts 8 6 len p) as (-> & Hd & _ & Et); [lia|lia|done|lia|]. cbn [mbind option_bind].
  destruct (CalculateSum_ok avx2 x86 _ Hd) as (s & -> & Hs & Es). cbn [mbind option_bind].
  destruct (skip_udp p) as (u0 & u1 & -> & El); [lia|].
  destruct (loads_ok 4 2 (store16 6 0 p)) as (HE & HF & _); [done|rewrite store16_length; lia|].
  rewrite El in HE, HF. rewrite store16_take in HE by lia. cbn [mbind option_bind]. change 0x1100 with (256 * 17).
  pose proof (segment_sum s [u0; N.land u1 65535] src dst 17 len (store16 6 0 seg) (store16 6 0 (take 8 p))
    (take (N.to_nat len - 8) (drop 8 p))) as E. cbn [app] in E. by rewrite E.
Qed.

Lemma tcp_verify :
  20 <= len ->
  VerifyIpv4TcpChecksum avx2 x86 p src dst len =
    Some (bool_decide (ones_words (pseudo src dst 6 len ++ words seg) = 65535)).
Proof.
  intros H8. unfold VerifyIpv4TcpChecksum.
  destruct (payload_parts 20 16 len p) as (-> & Hd & Et & _); [lia|lia|done|lia|]. cbn [mbind option_bind].
  destruct (CalculateSum_ok avx2 x86 _ Hd) as (s & -> & Hs & Es). cbn [mbind option_bind].
  destruct (load32s_ok 5 0 p) as (us & -> & _ & _ & HF & HE); [lia|]. rewrite drop_0 in HE. cbn [mbind option_bind].
  f_equal. change 0x0600 with (256 * 6).
  rewrite (segment_sum s us src dst 6 len seg (take 20 p) (take (N.to_nat len - 20) (drop 20 p))) by done.
  apply verify_zero. apply Forall_app; split; [by apply pseudo_ok|apply words_lt].
Qed.

Lemma tcp_calculate :
  20 <= len ->
  CalculateIpv4TcpChecksum avx2 x86 p src dst len =
    Some (2 ^ 16 - 1 - ones_words (pseudo src dst 6 len ++ words (store16 16 0 seg))).
Proof.
  intros H8. unfold CalculateIpv4TcpChecksum.
  destruct (payload_parts 20 16 len p) as (-> & Hd & _ & Et); [lia|lia|done|lia|]. cbn [mbind option_bind].
  destruct (CalculateSum_ok avx2 x86 _ Hd) as (s & -> & Hs & Es). cbn [mbind option_bind].
  destruct (skip_tcp p) as (u0 & u1 & u2 & u3 & u4 & -> & HF & HE); [lia|]. cbn [mbind option_bind].
  change 0x0600 with (256 * 6).
  pose proof (segment_sum s [u0; u1; u2; u3; N.shiftr u4 16] src dst 6 len (store16 16 0 seg)
    (store16 16 0 (take 20 p)) (take (N.to_nat len - 20) (drop 20 p))) as E. cbn [app] in E. by rewrite E.
Qed.

End segment.

(** The IP header: [VerifyIpv4Checksum] accepts exactly the headers of at
    least five words, options included, whose one's complement sum is all ones;
    [CalculateIpv4Checksum] is the complement of the sum with zero in the
    checksum field; a header in which it has been stored is accepted. *)
Theorem ipv4_checksum avx2 x86 iph n :
  ip_header_len iph = Some n -> (20 <= length iph)%nat -> (n <= length iph)%nat ->
  VerifyIpv4Checksum avx2 x86 iph = Some (bool_decide ((20 <= n)%nat /\ ones_sum (take n iph) = 65535)) /\
  CalculateIpv4Checksum avx2 x86 iph =
    Some (if decide (20 <= n)%nat then checksum_of (store16 10 0 (take n iph)) else 0) /\
  ((20 <= n)%nat -> forall c, CalculateIpv4Checksum avx2 x86 iph = Some c ->
    VerifyIpv4Checksum avx2 x86 (store16 10 c iph) = Some true).
Proof.
  intros En H20 Hn. split; [by apply ip_verify|]. split; [by apply ip_calculate|]. intros Hge c Hc.
  rewrite (ip_calculate avx2 x86 iph n En H20 Hn), decide_True in Hc by done. injection Hc as <-.
  set (c := checksum_of _). assert (Hc : c < 65536) by (unfold c, checksum_of; lia).
  assert (En' : ip_header_len (store16 10 c iph) = Some n) by (by destruct iph as [|b iph]).
  rewrite (ip_verify avx2 x86 _ n En') by (rewrite store16_length; lia). f_equal. apply bool_decide_eq_true.
  split; [done|]. rewrite store16_take by lia. unfold ones_sum.
  apply (stored_ok [] 10 (take n iph) c); [constructor|done|rewrite length_take; lia|done|].
  apply total_store_le, words_lt.
Qed.

(** UDP and TCP over IPv4: [Verify...] accepts exactly the segments whose one's
    complement sum with the pseudo header is all ones - or, for UDP, that carry no
    checksum -; [Calculate...] is the complement of the sum with zero in the
    checksum field, which for UDP is never zero; and a segment in which it has been
    stored is accepted. *)
Theorem transport_checksum avx2 x86 src dst len p :
  src < 2 ^ 32 -> dst < 2 ^ 32 -> len < 65536 -> (N.to_nat len <= length p)%nat ->
  let seg := take (N.to_nat len) p in
  (8 <= len ->
    VerifyIpv4UdpChecksum avx2 x86 p src dst len =
      Some (bool_decide (load 2 6 p = Some 0 \/ ones_words (pseudo src dst 17 len ++ words seg) = 65535)) /\
    exists c, CalculateIpv4UdpChecksum avx2 x86 p src dst len = Some c /\ 0 < c < 65536 /\
      (c < 65535 -> c = 2 ^ 16 - 1 - ones_words (pseudo src dst 17 len ++ words (store16 6 0 seg))) /\
      VerifyIpv4UdpChecksum avx2 x86 (store16 6 c p) src dst len = Some true) /\
  (20 <= len ->
    VerifyIpv4TcpChecksum avx2 x86 p src dst len =
      Some (bool_decide (ones_words (pseudo src dst 6 len ++ words seg) = 65535)) /\
    exists c, CalculateIpv4TcpChecksum avx2 x86 p src dst len = Some c /\
      c = 2 ^ 16 - 1 - ones_words (pseudo src dst 6 len ++ words (store16 16 0 seg)) /\
      VerifyIpv4TcpChecksum avx2 x86 (store16 16 c p) src dst len = Some true).
Proof.
  intros Hs Hd Hl Hp. cbn zeta. split; intros Hmin.
  - split; [by apply udp_verify|]. rewrite udp_calculate by done. cbn zeta.
    set (ws := pseudo src dst 17 len ++ words _).
    assert (Hw : Forall (fun x => x < 65536) ws) by (apply Forall_app; split; [by apply pseudo_ok|apply words_lt]).
    destruct (ones_words_ok ws Hw) as [B _]. eexists. split; [reflexivity|].
    destruct (N.eqb_spec (2 ^ 16 - 1 - ones_words ws) 0) as [E|E]; (split; [lia|]; split; [lia|]).
    all: rewrite udp_verify by (done || (rewrite store16_length; lia)); f_equal; apply bool_decide_eq_true; right;
      rewrite store16_take by lia;
      (apply stored_ok; [by apply pseudo_ok|done|rewrite length_take; lia|lia|]).
    + fold ws. replace (ones_words ws) with 65535 by lia. by split.
    + fold ws. by apply total_store_le.
  - split; [by apply tcp_verify|]. rewrite tcp_calculate by done. set (ws := pseudo src dst 6 len ++ words _).
    assert (Hw : Forall (fun x => x < 65536) ws) by (apply Forall_app; split; [by apply pseudo_ok|apply words_lt]).
    eexists. split; [reflexivity|]. split; [done|].
    rewrite tcp_verify by (done || (rewrite store16_length; lia)). f_equal. apply bool_decide_eq_true.
    rewrite store16_take by lia.
    apply stored_ok; [by apply pseudo_ok|done|rewrite length_take; lia|lia|]. by apply total_store_le.
Qed.

(** ** Incremental update *)

Definition store32 (off : nat) (v : N) (p : list byte) : list byte :=
  take off p ++ [byte_of v; byte_of (v / 256); byte_of (v / 65536); byte_of (v / 16777216)] ++ drop (off + 4) p.

(** A buffer around a field. *)
Lemma field_split n off p v :
  load n off p = Some v -> exists a f b, p = a ++ f ++ b /\ length a = off /\ length f = n /\ v = le f.
Proof.
  unfold load, slice. case_guard as G; [|done]. cbn [mbind option_bind fmap option_fmap option_map]. intros [= <-].
  exists (take off p), (take n (drop off p)), (drop n (drop off p)). rewrite !take_drop.
  rewrite !length_take, length_drop. split; [done|]. split; [lia|]. by split; [lia|].
Qed.

Lemma not32_low x : x < 2 ^ 32 -> N.land (not32 x) 65535 = 65535 - x mod 65536.
Proof.
  intros H. change 65535 with (2 ^ 16 - 1) at 1. rewrite land_mod. unfold not32. change (2 ^ 16) with 65536.
  change (2 ^ 32) with 4294967296 in *. nlia.
Qed.

Lemma not32_high x : x < 2 ^ 32 -> N.shiftr (not32 x) 16 = 65535 - x / 65536.
Proof.
  intros H. rewrite shiftr_div. unfold not32. change (2 ^ 16) with 65536.
  change (2 ^ 32) with 4294967296 in *. nlia.
Qed.

(** An increment that amounts to the change of the sum. *)
Lemma update_increment l l' inc :
  inc < 2 ^ 20 -> (exists k, total l + inc = total l' + k * 65535 /\ 0 < k) ->
  UpdateChecksumWithIncrement (checksum_of l) inc = if decide (ones_sum l' = 0) then 0 else checksum_of l'.
Proof.
  intros Hinc (k & E & Hk). unfold UpdateChecksumWithIncrement.
  destruct (ones_words_ok (words l) (words_lt l)) as [B S]. fold (ones_sum l) in *. fold (total l) in S.
  destruct (ones_words_ok (words l') (words_lt l')) as [B' S']. fold (ones_sum l') in *. fold (total l') in S'.
  rewrite not32_low by (unfold checksum_of; lia). unfold checksum_of. rewrite (N.mod_small (_ - _)) by lia.
  replace (65535 - (2 ^ 16 - 1 - ones_sum l)) with (ones_sum l) by lia. rewrite N.mod_small by lia.
  set (x := ones_sum l + inc).
  assert (Hx : x ≅ (if decide (ones_sum l' = 0) then 65535 else ones_sum l')).
  { assert (x ≅ total l' + k * 65535) as -> by (unfold x; rewrite S, <- E; reflexivity).
    case_decide as Hz.
    - rewrite Hz in S'. destruct S' as [_ S']. replace (total l') with 0 by (symmetry; by apply S').
      split; [by rewrite N.add_0_l, N.Div0.mod_mul|lia].
    - rewrite <- S'. split; [by rewrite N.Div0.mod_add|lia]. }
  case_decide.
  - rewrite (FoldChecksum_ok x [65535]); [done|unfold x; lia|by constructor|exact Hx].
  - rewrite (FoldChecksum_ok x [ones_sum l']); [|unfold x; lia|by constructor|simpl; by rewrite N.add_0_r].
    f_equal. unfold ones_words. simpl. unfold oc_add. rewrite N.add_0_r. by rewrite (proj2 (N.ltb_lt _ _)).
Qed.

Lemma total_mid a f b : Nat.even (length a) = true -> Nat.even (length f) = true -> total (a ++ f ++ b) = total a + total f + total b.
Proof. intros Ha Hf. rewrite !total_app by done. lia. Qed.

(** The incremental updates of RFC 1624 give the checksum of the changed
    buffer, for a 16-bit or a 32-bit field at any even offset, except that they
    give 0 and not all ones when every byte has become zero. *)
Theorem checksum_update l off new :
  Nat.even off = true ->
  (forall old, load 2 off l = Some old -> new < 2 ^ 16 ->
    UpdateChecksum16 (checksum_of l) old new =
      if decide (ones_sum (store16 off new l) = 0) then 0 else checksum_of (store16 off new l)) /\
  (forall old, load 4 off l = Some old -> new < 2 ^ 32 ->
    UpdateChecksum32 (checksum_of l) old new =
      if decide (ones_sum (store32 off new l) = 0) then 0 else checksum_of (store32 off new l)).
Proof.
  intros He. split; intros old Hold Hnew; destruct (field_split _ _ _ _ Hold) as (a & f & b & -> & <- & Hf & Eold).
  - assert (Es : store16 (length a) new (a ++ f ++ b) = a ++ [byte_of new; byte_of (new / 256)] ++ b).
    { unfold store16. rewrite take_app_length. do 2 f_equal. rewrite app_assoc, drop_app_length' by (rewrite length_app; lia). done. }
    rewrite Es. do 3 (destruct f as [|? f]; try done). unfold UpdateChecksum16, ChecksumIncrement16.
    pose proof (byte_lt b0). pose proof (byte_lt b1). simpl in Eold.
    rewrite not32_low by lia. rewrite (N.mod_small old) by lia.
    apply update_increment; [lia|]. exists 1. rewrite !total_mid by done. unfold total at 2 5. simpl. rewrite !byte_of_ok.
    change (2 ^ 16) with 65536 in Hnew. split; [nlia|lia].
  - assert (Es : store32 (length a) new (a ++ f ++ b) =
      a ++ [byte_of new; byte_of (new / 256); byte_of (new / 65536); byte_of (new / 16777216)] ++ b).
    { unfold store32. rewrite take_app_length. do 2 f_equal. rewrite app_assoc, drop_app_length' by (rewrite length_app; lia). done. }
    rewrite Es. do 5 (destruct f as [|? f]; try done). unfold UpdateChecksum32, ChecksumIncrement32.
    pose proof (byte_lt b0). pose proof (byte_lt b1). pose proof (byte_lt b2). pose proof (byte_lt b3). simpl in Eold.
    assert (Hold' : old < 4294967296) by lia. change (2 ^ 32) with 4294967296 in *.
    rewrite not32_low, not32_high by done. rewrite shiftr_div. change 65535 with (2 ^ 16 - 1) at 3. rewrite land_mod.
    change (2 ^ 16) with 65536. assert (new / 65536 < 65536) by nlia. assert (new mod 65536 < 65536) by nlia.
    rewrite !(N.mod_small _ 4294967296) by nlia. apply update_increment; [nlia|]. exists 2.
    rewrite !total_mid by done. unfold total at 2 5. simpl. rewrite !byte_of_ok.
    assert (old / 65536 = Byte.to_N b2 + 256 * Byte.to_N b3) by nlia.
    assert (old mod 65536 = Byte.to_N b0 + 256 * Byte.to_N b1) by nlia.
    split; [|lia]. assert (new mod 256 + 256 * ((new / 256) mod 256) = new mod 65536) by nlia.
    assert ((new / 65536) mod 256 + 256 * ((new / 16777216) mod 256) = new / 65536) by nlia. lia.
Qed.

(** ** Examples *)

Definition demo_ip : list byte :=
  [x45; x00; x00; x73; x00; x00; x40; x00; x40; x11; xb8; x61; xc0; xa8; x00; x01; xc0; xa8; x00; xc7]%byte.

Lemma checksum_reference_witness :
  CalculateGenericChecksum true true demo_ip = Some (checksum_of demo_ip) /\
  VerifyGenericChecksum true true demo_ip 1 = Some (bool_decide (1 = checksum_of demo_ip)) /\
  VerifyGenericChecksum true true demo_ip 0 = Some (bool_decide (ones_sum demo_ip = 65535)).
Proof. apply (checksum_reference true true demo_ip 1). reflexivity. Defined.

Lemma ipv4_checksum_witness :
  VerifyIpv4Checksum true true demo_ip = Some (bool_decide ((20 <= 20)%nat /\ ones_sum (take 20 demo_ip) = 65535)) /\
  CalculateIpv4Checksum true true demo_ip = Some 25016.
Proof.
  destruct (ipv4_checksum true true demo_ip 20) as (H1 & H2 & _); [reflexivity|simpl; lia|simpl; lia|].
  split; [exact H1|]. rewrite H2. reflexivity.
Defined.

Definition demo_udp : list byte := [x04; xd2; x16; x2e; x00; x0a; x00; x00; x68; x69]%byte.

Lemma transport_checksum_witness :
  exists c, CalculateIpv4UdpChecksum true true demo_udp 1 2 10 = Some c /\
    VerifyIpv4UdpChecksum true true (store16 6 c demo_udp) 1 2 10 = Some true.
Proof.
  destruct (transport_checksum true true 1 2 10 demo_udp) as [H _]; [reflexivity|reflexivity|reflexivity|simpl; lia|].
  destruct H as [_ (c & H1 & _ & _ & H2)]; [lia|]. exists c. split; [exact H1|exact H2].
Defined.

Lemma checksum_update_witness :
  UpdateChecksum16 (checksum_of demo_ip) 0x7300 0x7400 = checksum_of (store16 2 0x7400 demo_ip).
Proof.
  destruct (checksum_update demo_ip 2 0x7400) as [H _]; [reflexivity|].
  rewrite (H 0x7300); [reflexivity|reflexivity|reflexivity].
Defined.
