(* ===== verification/Addresses.v ===== *)
(** * IPv4 addresses and prefixes: [utils/ip.cc], [ip.h], [utils/bits.h], [endian.h]

    An address is the 32-bit number that is in memory, with its first byte lowest;
    [bswap32] gives its value.  Text is read with [sscanf] and written with [snprintf]
    of the C library. *)

From Stdlib Require Import NArith Ascii DecimalString.
From stdpp Require Import strings.
From S2P Require Import Prelude.

#[local] Open Scope N_scope.

(** ** Byte order *)

(** [value()] and the constructor of [be32_t], on a little-endian machine. *)
Definition bswap32 (x : N) : N :=
  16777216 * (x mod 256) + 65536 * ((x / 256) mod 256) + 256 * ((x / 65536) mod 256) + x / 16777216.

(** The operations of [be32_t] go through the values. *)
Definition be_and (x y : N) : N := bswap32 (N.land (bswap32 x) (bswap32 y)).

(** ** Reading *)

Definition white (c : ascii) : bool := let n := N_of_ascii c in (n =? 32) || ((9 <=? n) && (n <=? 13)).

Fixpoint skip_white (s : string) : string :=
  match s with
  | String c s' => if white c then skip_white s' else s
  | EmptyString => s
  end.

Definition digit (c : ascii) : option N := let n := N_of_ascii c in if (48 <=? n) && (n <=? 57) then Some (n - 48) else None.

(** The decimal number that [s] starts with, after [v]. *)
Fixpoint scan_digits (v : N) (s : string) : N * string :=
  match s with
  | String c s' => match digit c with Some d => scan_digits (10 * v + d) s' | None => (v, s) end
  | EmptyString => (v, s)
  end.

(** [%u]: an unsigned long, or all ones if it is too large, cut to 32 bits. *)
Definition scan_u (s : string) : option (N * string) :=
  let '(neg, s) := match skip_white s with
    | String c s' => if Ascii.eqb c "-"%char then (true, s') else if Ascii.eqb c "+"%char then (false, s') else (false, String c s')
    | EmptyString => (false, EmptyString)
    end in
  match s with
  | String c _ =>
      _ ← digit c;
      let '(v, rest) := scan_digits 0 s in
      let v := if v <? 2 ^ 64 then if (neg : bool) then (2 ^ 64 - v) mod 2 ^ 64 else v else 2 ^ 64 - 1 in
      Some (v mod 2 ^ 32, rest)
  | EmptyString => None
  end.

Definition scan_dot (s : string) : option string :=
  match s with String c s => if Ascii.eqb c "."%char then Some s else None | EmptyString => None end.

Definition ParseIpv4Address (str : string) : option N :=
  '(a, s) ← scan_u str;
  s ← scan_dot s;
  '(b, s) ← scan_u s;
  s ← scan_dot s;
  '(c, s) ← scan_u s;
  s ← scan_dot s;
  '(d, _) ← scan_u s;
  if (256 <=? a) || (256 <=? b) || (256 <=? c) || (256 <=? d) then None
  else Some (bswap32 (N.lor (N.lor (N.lor (N.shiftl a 24) (N.shiftl b 16)) (N.shiftl c 8)) d)).

(** ** Writing *)

(** [%hhu] *)
Definition print_u (n : N) : string := NilEmpty.string_of_uint (N.to_uint n).

Definition byte_at (i a : N) : N := (a / 2 ^ (8 * i)) mod 256.

Definition ToIpv4Address (a : N) : string :=
  (print_u (byte_at 0 a) +:+ "." +:+ print_u (byte_at 1 a) +:+ "." +:+ print_u (byte_at 2 a) +:+ "." +:+ print_u (byte_at 3 a))%string.

(** ** Prefixes *)

(** [T{1} << n] minus 1, of 32 bits. *)
Definition SetBitsHigh_ (n : N) : N := 2 ^ n - 1.
Definition SetBitsHigh (n : N) : N := if n =? 0 then 0 else if 32 <=? n then 2 ^ 32 - 1 else SetBitsHigh_ n.
Definition SetBitsLow (n : N) : N := if n =? 0 then 0 else if 32 <=? n then 2 ^ 32 - 1 else 2 ^ 32 - 1 - SetBitsHigh_ (32 - n).

(** The text before and after the first slash. *)
Fixpoint split_slash (s : string) : option (string * string) :=
  match s with
  | EmptyString => None
  | String c s =>
      if Ascii.eqb c "/"%char then Some (EmptyString, s)
      else match split_slash s with Some (a, b) => Some (String c a, b) | None => None end
  end.

(** [std::stoi], converted to [size_t]: white space, a sign, digits; an exception if
    there are none, or the number is not an [int]. *)
Definition stoi (s : string) : option N :=
  let '(neg, s) := match skip_white s with
    | String c s' => if Ascii.eqb c "-"%char then (true, s') else if Ascii.eqb c "+"%char then (false, s') else (false, String c s')
    | EmptyString => (false, EmptyString)
    end in
  match s with
  | String c _ =>
      _ ← digit c;
      let '(v, _) := scan_digits 0 s in
      if (neg : bool) then guard (v <= 2 ^ 31);; Some ((2 ^ 64 - v) mod 2 ^ 64) else guard (v < 2 ^ 31);; Some v
  | EmptyString => None
  end.

Record Ipv4Prefix := Prefix { addr : N; mask : N }.

(** The constructor; [None] is an exception.  An address that cannot be read is 0. *)
Definition new_prefix (s : string) : option Ipv4Prefix :=
  match split_slash s with
  | None => Some (Prefix 0 0)
  | Some (a, l) => len ← stoi l; Some (Prefix (default 0 (ParseIpv4Address a)) (bswap32 (SetBitsLow len)))
  end.

Definition Match (p : Ipv4Prefix) (ip : N) : bool := be_and (addr p) (mask p) =? be_and ip (mask p).

(** [__builtin_ctz] *)
Fixpoint ctz (p : positive) : N := match p with xO p => N.succ (ctz p) | _ => 0 end.
Definition prefix_length (p : Ipv4Prefix) : N := match bswap32 (mask p) with 0 => 0 | Npos q => 32 - ctz q end.

(** ** Correctness *)

Lemma small_ind (P : N -> Prop) n : (forall k, (k < n)%nat -> P (N.of_nat k)) -> forall x, x < N.of_nat n -> P x.
Proof. intros H x Hx. rewrite <- (N2Nat.id x). apply H. lia. Qed.

(** The four bytes of an address, and its value. *)
Lemma bytes_of x : x < 2 ^ 32 ->
  x = byte_at 0 x + 256 * (byte_at 1 x + 256 * (byte_at 2 x + 256 * byte_at 3 x)) /\
  bswap32 x = byte_at 3 x + 256 * (byte_at 2 x + 256 * (byte_at 1 x + 256 * byte_at 0 x)).
Proof.
  intros Hx. change (2 ^ 32) with 4294967296 in Hx. unfold byte_at, bswap32. change (2 ^ (8 * 0)) with 1. change (2 ^ (8 * 1)) with 256.
  change (2 ^ (8 * 2)) with 65536. change (2 ^ (8 * 3)) with 16777216. rewrite N.div_1_r.
  assert (E1 : x / 65536 = x / 256 / 256) by (by rewrite N.Div0.div_div). assert (E2 : x / 16777216 = x / 256 / 256 / 256) by (by rewrite !N.Div0.div_div).
  rewrite E1, E2. pose proof (N.div_mod' x 256). pose proof (N.div_mod' (x / 256) 256). pose proof (N.div_mod' (x / 256 / 256) 256).
  assert (H3 : x / 256 / 256 / 256 < 256) by (rewrite !N.Div0.div_div; by apply N.Div0.div_lt_upper_bound).
  rewrite (N.mod_small _ 256 H3). split; lia.
Qed.

Lemma byte_at_lt i x : byte_at i x < 256.
Proof. by apply N.mod_lt. Qed.

Lemma bswap32_lt x : x < 2 ^ 32 -> bswap32 x < 2 ^ 32.
Proof.
  intros Hx. rewrite (proj2 (bytes_of x Hx)). pose proof (byte_at_lt 0 x). pose proof (byte_at_lt 1 x). pose proof (byte_at_lt 2 x).
  pose proof (byte_at_lt 3 x). change (2 ^ 32) with 4294967296. lia.
Qed.

Lemma bytes_to a b c d : a < 256 -> b < 256 -> c < 256 -> d < 256 ->
  let x := a + 256 * (b + 256 * (c + 256 * d)) in x < 2 ^ 32 /\ byte_at 0 x = a /\ byte_at 1 x = b /\ byte_at 2 x = c /\ byte_at 3 x = d.
Proof.
  intros Ha Hb Hc Hd x. unfold byte_at. change (2 ^ 32) with 4294967296. change (2 ^ (8 * 0)) with 1. change (2 ^ (8 * 1)) with 256.
  change (2 ^ (8 * 2)) with (256 * 256). change (2 ^ (8 * 3)) with (256 * 256 * 256). rewrite N.div_1_r, <- !N.Div0.div_div.
  assert (Hd' : forall y z, y < 256 -> (y + 256 * z) / 256 = z /\ (y + 256 * z) mod 256 = y).
  { intros y z Hy. rewrite (N.mul_comm 256), N.div_add, N.Div0.mod_add, N.div_small, N.mod_small by lia. lia. }
  split; [unfold x; lia|]. unfold x. destruct (Hd' a (b + 256 * (c + 256 * d)) Ha) as [-> ->]. destruct (Hd' b (c + 256 * d) Hb) as [-> ->].
  destruct (Hd' c d Hc) as [-> ->]. by rewrite N.mod_small.
Qed.

Lemma bswap32_involutive x : x < 2 ^ 32 -> bswap32 (bswap32 x) = x.
Proof.
  intros Hx. destruct (bytes_of x Hx) as [Ex Es]. rewrite (proj2 (bytes_of _ (bswap32_lt x Hx))).
  pose proof (bytes_to (byte_at 3 x) (byte_at 2 x) (byte_at 1 x) (byte_at 0 x)) as H. cbn zeta in H. rewrite <- Es in H.
  destruct H as (_ & -> & -> & -> & ->); try apply byte_at_lt. by rewrite Ex at 5.
Qed.

(** Reading what was written. *)
Lemma scan_print_dot b r : b < 256 -> scan_u (print_u b +:+ String "." r) = Some (b, String "." r).
Proof.
  revert b. apply (small_ind _ 256). intros k Hk. do 256 (destruct k as [|k]; [reflexivity|]). lia.
Qed.

Lemma scan_print b : b < 256 -> scan_u (print_u b) = Some (b, EmptyString).
Proof.
  revert b. apply (small_ind _ 256). intros k Hk. do 256 (destruct k as [|k]; [reflexivity|]). lia.
Qed.

Lemma lor_add a b k : b < 2 ^ k -> N.lor (N.shiftl a k) b = a * 2 ^ k + b.
Proof.
  intros Hb. rewrite <- N.shiftl_mul_pow2. rewrite <- N.lxor_lor, <- N.add_nocarry_lxor; trivial.
  all: apply N.bits_inj; intros i; rewrite N.land_spec, N.bits_0; destruct (N.le_gt_cases k i).
  2,4: rewrite N.shiftl_spec_low by done; done.
  all: destruct (N.eq_dec b 0) as [->|]; [rewrite N.bits_0; apply andb_false_r|].
  all: rewrite (N.bits_above_log2 b i); [apply andb_false_r|]; apply N.lt_le_trans with k; [|done]; apply N.log2_lt_pow2; lia.
Qed.

(** The four numbers of a dotted address give its value. *)
Lemma dotted_value a b c d : b < 256 -> c < 256 -> d < 256 ->
  N.lor (N.lor (N.lor (N.shiftl a 24) (N.shiftl b 16)) (N.shiftl c 8)) d = d + 256 * (c + 256 * (b + 256 * a)).
Proof.
  intros Hb Hc Hd. rewrite (lor_add a (N.shiftl b 16) 24) by (rewrite N.shiftl_mul_pow2; change (2 ^ 24) with (256 * 2 ^ 16); by apply N.mul_lt_mono_pos_r).
  replace (a * 2 ^ 24 + N.shiftl b 16) with (N.shiftl (a * 256 + b) 16) by (rewrite !N.shiftl_mul_pow2; change (2 ^ 24) with (256 * 2 ^ 16); lia).
  rewrite (lor_add _ (N.shiftl c 8) 16) by (rewrite N.shiftl_mul_pow2; change (2 ^ 16) with (256 * 2 ^ 8); by apply N.mul_lt_mono_pos_r).
  replace ((a * 256 + b) * 2 ^ 16 + N.shiftl c 8) with (N.shiftl ((a * 256 + b) * 256 + c) 8)
    by (rewrite !N.shiftl_mul_pow2; change (2 ^ 16) with (256 * 2 ^ 8); lia).
  rewrite (lor_add _ d 8) by done. change (2 ^ 8) with 256. lia.
Qed.

Lemma ParseIpv4Address_lt str a : ParseIpv4Address str = Some a -> a < 2 ^ 32.
Proof.
  unfold ParseIpv4Address. destruct (scan_u str) as [[w s1]|]; [|done]. cbn [mbind option_bind].
  destruct (scan_dot s1) as [s2|]; [|done]. cbn [mbind option_bind]. destruct (scan_u s2) as [[x s3]|]; [|done]. cbn [mbind option_bind].
  destruct (scan_dot s3) as [s4|]; [|done]. cbn [mbind option_bind]. destruct (scan_u s4) as [[y s5]|]; [|done]. cbn [mbind option_bind].
  destruct (scan_dot s5) as [s6|]; [|done]. cbn [mbind option_bind]. destruct (scan_u s6) as [[z s7]|]; [|done]. cbn [mbind option_bind].
  destruct (_ || _ || _ || _) eqn:E; [done|]. rewrite !orb_false_iff, !N.leb_gt in E. destruct E as [[[? ?] ?] ?].
  intros [= <-]. apply bswap32_lt. rewrite dotted_value by done. change (2 ^ 32) with 4294967296. lia.
Qed.

(** An address is read as it was written. *)
Lemma parse_print x : x < 2 ^ 32 -> ParseIpv4Address (ToIpv4Address x) = Some x.
Proof.
  intros Hx. unfold ParseIpv4Address, ToIpv4Address.
  assert (Hdot : forall r, ("." +:+ r)%string = String "."%char r) by done. rewrite !Hdot.
  rewrite (scan_print_dot (byte_at 0 x)) by apply byte_at_lt. cbn [mbind option_bind scan_dot Ascii.eqb Bool.eqb].
  rewrite (scan_print_dot (byte_at 1 x)) by apply byte_at_lt. cbn [mbind option_bind scan_dot Ascii.eqb Bool.eqb].
  rewrite (scan_print_dot (byte_at 2 x)) by apply byte_at_lt. cbn [mbind option_bind scan_dot Ascii.eqb Bool.eqb].
  rewrite (scan_print (byte_at 3 x)) by apply byte_at_lt. cbn [mbind option_bind].
  rewrite !(proj2 (N.leb_gt _ _)) by apply byte_at_lt. cbn [orb]. rewrite dotted_value by apply byte_at_lt.
  rewrite <- (proj2 (bytes_of x Hx)). by rewrite bswap32_involutive.
Qed.

(** The masks: [SetBitsLow] sets the first [n] bits, [SetBitsHigh] the last. *)
Lemma bit_masks n : n <= 32 -> SetBitsLow n = 2 ^ 32 - 2 ^ (32 - n) /\ SetBitsHigh n = 2 ^ n - 1.
Proof.
  intros Hn. unfold SetBitsLow, SetBitsHigh, SetBitsHigh_. destruct (N.eqb_spec n 0) as [->|H0]; [done|].
  destruct (N.leb_spec 32 n) as [H32|H32]; [assert (n = 32) as -> by lia; done|]. split; [|done].
  pose proof (N.neq_0_lt_0 (2 ^ (32 - n))) as Hp. pose proof (N.pow_nonzero 2 (32 - n) ltac:(done)). lia.
Qed.

Lemma split_slash_ok a b : split_slash a = None -> split_slash (a +:+ String "/" b) = Some (a, b).
Proof.
  induction a as [|c a IH]; simpl; [done|]. destruct (Ascii.eqb c "/"%char) eqn:E; [done|].
  destruct (split_slash a) as [[]|]; [done|]. intros _. by rewrite IH.
Qed.

Lemma no_slash_app a b : split_slash a = None -> split_slash b = None -> split_slash (a +:+ b) = None.
Proof.
  induction a as [|c a IH]; simpl; [done|]. destruct (Ascii.eqb c "/"%char); [done|]. destruct (split_slash a) as [[]|]; [done|].
  intros _ Hb. by rewrite IH.
Qed.

Lemma print_no_slash b : b < 256 -> split_slash (print_u b) = None.
Proof. revert b. apply (small_ind _ 256). intros k Hk. do 256 (destruct k as [|k]; [reflexivity|]). lia. Qed.

Lemma stoi_print n : n < 256 -> stoi (print_u n) = Some n.
Proof. revert n. apply (small_ind _ 256). intros k Hk. do 256 (destruct k as [|k]; [reflexivity|]). lia. Qed.

Lemma land_mask n x : n <= 32 -> x < 2 ^ 32 -> N.land x (2 ^ 32 - 2 ^ (32 - n)) = x / 2 ^ (32 - n) * 2 ^ (32 - n).
Proof.
  intros Hn Hx. assert (Em : 2 ^ 32 - 2 ^ (32 - n) = N.shiftl (N.ones n) (32 - n)).
  { rewrite N.shiftl_mul_pow2, N.ones_equiv, N.pred_sub, N.mul_sub_distr_r, <- N.pow_add_r, N.mul_1_l. do 2 f_equal. lia. }
  rewrite Em. rewrite <- N.shiftr_div_pow2, <- N.shiftl_mul_pow2.
  replace (N.land x (N.shiftl (N.ones n) (32 - n))) with (N.shiftl (N.land (N.shiftr x (32 - n)) (N.ones n)) (32 - n)).
  - rewrite N.land_ones, N.mod_small; [done|]. rewrite N.shiftr_div_pow2. apply N.Div0.div_lt_upper_bound.
    rewrite <- N.pow_add_r. by replace (32 - n + n) with 32 by lia.
  - apply N.bits_inj. intros i. rewrite N.land_spec. destruct (N.le_gt_cases (32 - n) i) as [Hi|Hi].
    + rewrite !N.shiftl_spec_high' by done. rewrite N.land_spec, N.shiftr_spec'. by replace (i - (32 - n) + (32 - n)) with i by lia.
    + rewrite !N.shiftl_spec_low by done. by rewrite andb_false_r.
Qed.

(** A prefix: written as an address, a slash and a length, it matches the addresses
    that agree with it in so many first bits. *)
Lemma prefix_ok a n : a < 2 ^ 32 -> n <= 32 ->
  exists p, new_prefix (ToIpv4Address a +:+ "/" +:+ print_u n) = Some p /\ prefix_length p = n /\
    forall ip, ip < 2 ^ 32 -> Match p ip = bool_decide (bswap32 a / 2 ^ (32 - n) = bswap32 ip / 2 ^ (32 - n)).
Proof.
  intros Ha Hn. exists (Prefix a (bswap32 (SetBitsLow n))). split; [|split].
  - unfold new_prefix. change ("/" +:+ print_u n)%string with (String "/" (print_u n)). rewrite split_slash_ok.
    + rewrite stoi_print by lia. cbn [mbind option_bind]. by rewrite parse_print.
    + unfold ToIpv4Address. repeat (apply no_slash_app; [done || (apply print_no_slash, byte_at_lt)|]). apply print_no_slash, byte_at_lt.
  - clear -Hn. assert (Hn' : n < N.of_nat 33) by (simpl; lia). clear Hn. revert n Hn'. apply small_ind. intros k Hk. do 33 (destruct k as [|k]; [reflexivity|]). lia.
  - intros ip Hip. unfold Match, be_and. cbn [addr mask]. destruct (bit_masks n Hn) as [Em _]. rewrite Em.
    assert (H0 : 2 ^ (32 - n) <> 0) by (by apply N.pow_nonzero). assert (Hm : 2 ^ 32 - 2 ^ (32 - n) < 2 ^ 32) by lia.
    rewrite bswap32_involutive by done. rewrite !land_mask by (done || by apply bswap32_lt).
    set (d := 2 ^ (32 - n)) in *. pose proof (bswap32_lt a Ha) as Ba. pose proof (bswap32_lt ip Hip) as Bi.
    assert (Hd : forall x, x / d * d <= x) by (intros x; rewrite N.mul_comm; by apply N.Div0.mul_div_le).
    pose proof (Hd (bswap32 a)) as D1. pose proof (Hd (bswap32 ip)) as D2.
    apply eq_bool_prop_intro. rewrite Is_true_true, N.eqb_eq, bool_decide_spec. split; [|by intros ->].
    intros E. apply (f_equal bswap32) in E. rewrite !bswap32_involutive in E by lia. by apply N.mul_cancel_r in E.
Qed.

(** The names and the comments of [SetBitsHigh] and [SetBitsLow] are exchanged. *)
Lemma set_bits_exchanged : SetBitsHigh 9 = 0x000001ff /\ SetBitsLow 9 = 0xff800000.
Proof. done. Qed.

(** A prefix whose address cannot be read is one of address 0. *)
Lemma bad_prefix : new_prefix "10.0.0.256/8" = Some (Prefix 0 (bswap32 0xff000000)).
Proof. reflexivity. Qed.
