(* ===== verification/Cuckoo.v ===== *)
(** * The hash table of [utils/cuckoo_map.h]

    Cuckoo hashing with four slots per bucket: an entry is in one of two buckets,
    given by the primary and the secondary hash of its key, and insertion moves
    entries to their other bucket to make space.  The refinement is to a finite
    map.  [None] is a fault of the C++ code (an index out of a vector, the top of
    an empty stack) or, for [DoEmplace] only, tables nested deeper than [n]. *)

From S2P Require Import Prelude.

(** [hash_values[i]] and [entry_indices[i]] of a bucket. *)
Definition slot : Type := Z * Z.

Definition kEntriesPerBucket : Z := 4.
Definition kMaxCuckooPath : nat := 3.
Definition kInitNumBucket : Z := 4.
Definition kInitNumEntries : Z := 16.
Definition kInvalidEntryIdx : Z := 2 ^ 32 - 1.
Definition slots : list Z := [0; 1; 2; 3].

Definition HashSecondary (primary : Z) : Z :=
  Z.lxor primary (u32 (u32 (Z.shiftr primary 12 + 1) * 1540483477)).

(** A vector of buckets is a function and its size. *)
Record CuckooMap (K V : Type) := Cuckoo {
  bucket_mask : Z;
  num_entries : Z;
  num_buckets : Z;
  buckets : Z -> Z -> slot;
  entries : list (K * V);
  free_entry_indices : list Z
}.
Arguments Cuckoo {K V}.
Arguments bucket_mask {K V}.
Arguments num_entries {K V}.
Arguments num_buckets {K V}.
Arguments buckets {K V}.
Arguments entries {K V}.
Arguments free_entry_indices {K V}.

(** The slots as one array. *)
Definition at_slot (S : Z -> Z -> slot) (p : Z * Z) : slot := S (fst p) (snd p).
Definition put_slot (p : Z * Z) (x : slot) (S : Z -> Z -> slot) : Z -> Z -> slot :=
  <[fst p := <[snd p := x]> (S (fst p))]> S.

(** The entry at [p] moves to [q]; [p] keeps its index but not its hash. *)
Definition move (p q : Z * Z) (S : Z -> Z -> slot) : Z -> Z -> slot :=
  let S := put_slot q (at_slot S p) S in put_slot p (0, snd (at_slot S p)) S.

Definition FindEmptySlot (bucket : Z -> slot) : Z :=
  match filter (fun i => fst (bucket i) = 0) slots with i :: _ => i | [] => -1 end.

Section cuckoo.
Context {K V : Type} `{EqDecision K} (hasher : K -> Z) (default_entry : K * V) (moved_from : V -> V).

Definition set_buckets (S : Z -> Z -> slot) (m : CuckooMap K V) : CuckooMap K V :=
  Cuckoo (bucket_mask m) (num_entries m) (num_buckets m) S (entries m) (free_entry_indices m).
Definition set_entries (es : list (K * V)) (m : CuckooMap K V) : CuckooMap K V :=
  Cuckoo (bucket_mask m) (num_entries m) (num_buckets m) (buckets m) es (free_entry_indices m).

Definition Hash (key : K) : Z := Z.lor (u32 (hasher key)) (2 ^ 31).

Definition entry_at (m : CuckooMap K V) (idx : Z) : option (K * V) :=
  guard (0 <= idx);; entries m !! Z.to_nat idx.
Definition bucket_at (m : CuckooMap K V) (b : Z) : option (Z -> slot) :=
  guard (0 <= b < num_buckets m);; Some (buckets m b).

(** The constructor, with sizes that are powers of two: otherwise it aborts. *)
Definition new_cuckoo (reserve_buckets reserve_entries : Z) : CuckooMap K V :=
  Cuckoo (u32 (reserve_buckets - 1)) 0 reserve_buckets (fun _ _ => (0, 0)) (repeat default_entry (Z.to_nat reserve_entries))
    (seqZ 0 reserve_entries).

Definition Clear (m : CuckooMap K V) : CuckooMap K V := new_cuckoo kInitNumBucket kInitNumEntries.

Definition Count (m : CuckooMap K V) : Z := num_entries m.

(** ** Looking up *)

Fixpoint find_slot (m : CuckooMap K V) (bucket : Z -> slot) (primary : Z) (key : K) (js : list Z) : option Z :=
  match js with
  | [] => Some (-1)
  | i :: js =>
      let '(h, idx) := bucket i in
      if h =? primary then
        e ← entry_at m idx;
        if decide (fst e = key) then Some i else find_slot m bucket primary key js
      else find_slot m bucket primary key js
  end.

Definition FindSlot (m : CuckooMap K V) (bucket : Z -> slot) (primary : Z) (key : K) : option Z :=
  find_slot m bucket primary key slots.

Definition GetFromBucket (m : CuckooMap K V) (primary b : Z) (key : K) : option Z :=
  bk ← bucket_at m b;
  i ← FindSlot m bk primary key;
  Some (if i =? -1 then kInvalidEntryIdx else snd (bk i)).

Definition FindWithHash (m : CuckooMap K V) (primary : Z) (key : K) : option Z :=
  ret ← GetFromBucket m primary (Z.land primary (bucket_mask m)) key;
  if negb (ret =? kInvalidEntryIdx) then Some ret
  else GetFromBucket m primary (Z.land (HashSecondary primary) (bucket_mask m)) key.

Definition Find (m : CuckooMap K V) (key : K) : option (option (K * V)) :=
  idx ← FindWithHash m (Hash key) key;
  if idx =? kInvalidEntryIdx then Some None else e ← entry_at m idx; Some (Some e).

(** ** Removing *)

Definition RemoveFromBucket (m : CuckooMap K V) (primary b : Z) (key : K) : option (bool * CuckooMap K V) :=
  bk ← bucket_at m b;
  i ← FindSlot m bk primary key;
  if i =? -1 then Some (false, m)
  else
    let idx := snd (bk i) in
    guard (0 <= idx < Z.of_nat (length (entries m)));;
    Some (true, Cuckoo (bucket_mask m) (u64 (num_entries m - 1)) (num_buckets m)
                  (put_slot (b, i) (0, idx) (buckets m)) (<[Z.to_nat idx := default_entry]> (entries m))
                  (idx :: free_entry_indices m)).

Definition Remove (m : CuckooMap K V) (key : K) : option (bool * CuckooMap K V) :=
  let pri := Hash key in
  '(r, m) ← RemoveFromBucket m pri (Z.land pri (bucket_mask m)) key;
  if (r : bool) then Some (true, m)
  else RemoveFromBucket m pri (Z.land (HashSecondary pri) (bucket_mask m)) key.

(** ** Inserting *)

(** The loop over 32-bit indices does not end for an empty vector, and does
    nothing for one of 2^32 entries or more. *)
Definition ExpandEntries (m : CuckooMap K V) : option (CuckooMap K V) :=
  let old_size := Z.of_nat (length (entries m)) in
  let new_size := old_size + old_size / 2 in
  guard (0 < old_size /\ new_size < 2 ^ 32);;
  Some (Cuckoo (bucket_mask m) (num_entries m) (num_buckets m) (buckets m)
    (entries m ++ repeat default_entry (Z.to_nat (old_size / 2)))
    (seqZ old_size (new_size - old_size) ++ free_entry_indices m)).

Definition PopFreeEntryIndex (m : CuckooMap K V) : option (Z * CuckooMap K V) :=
  m ← match free_entry_indices m with [] => ExpandEntries m | _ => Some m end;
  match free_entry_indices m with
  | [] => None
  | idx :: l => Some (idx, Cuckoo (bucket_mask m) (num_entries m) (num_buckets m) (buckets m) (entries m) l)
  end.

(** The index of the new entry, [-1] for NULL. *)
Definition EmplaceInBucket (m : CuckooMap K V) (b : Z) (key : K) (v : V) : option (Z * CuckooMap K V) :=
  bk ← bucket_at m b;
  let slot_idx := FindEmptySlot bk in
  if slot_idx =? -1 then Some (-1, m)
  else
    '(idx, m) ← PopFreeEntryIndex m;
    guard (0 <= idx < Z.of_nat (length (entries m)));;
    Some (idx, Cuckoo (bucket_mask m) (u64 (num_entries m + 1)) (num_buckets m)
                 (put_slot (b, slot_idx) (Hash key, idx) (buckets m)) (<[Z.to_nat idx := (key, v)]> (entries m))
                 (free_entry_indices m)).

(** The loop of [MakeSpace] over the slots of [index]; [deeper] is the recursive
    call. *)
Fixpoint make_space_slots (deeper : CuckooMap K V -> Z -> option (Z * CuckooMap K V)) (m : CuckooMap K V) (index : Z)
    (js : list Z) : option (Z * CuckooMap K V) :=
  match js with
  | [] => Some (-1, m)
  | i :: js =>
      let '(h, idx) := buckets m index i in
      e ← entry_at m idx;
      let pri := Hash (fst e) in
      let sec := HashSecondary pri in
      if (pri =? h) || (sec =? h) then
        let alt_index := Z.land (if pri =? h then sec else pri) (bucket_mask m) in
        alt ← bucket_at m alt_index;
        '(j, m) ← (let j := FindEmptySlot alt in if j =? -1 then deeper m alt_index else Some (j, m));
        if j >=? 0 then Some (i, set_buckets (move (index, i) (alt_index, j) (buckets m)) m)
        else make_space_slots deeper m index js
      else Some (-1, m)
  end.

(** [r] is [kMaxCuckooPath - depth]. *)
Fixpoint MakeSpace (r : nat) (m : CuckooMap K V) (index : Z) : option (Z * CuckooMap K V) :=
  match r with
  | O => Some (-1, m)
  | S r => bucket_at m index ;; make_space_slots (MakeSpace r) m index slots
  end.

(** From the label [again] on. *)
Definition emplace_step (path : nat) (primary secondary : Z) (key : K) (v : V) (m : CuckooMap K V) :
    CuckooMap K V + option (Z * CuckooMap K V) :=
  let p := Z.land primary (bucket_mask m) in
  let s := Z.land secondary (bucket_mask m) in
  match EmplaceInBucket m p key v with
  | None => inr None
  | Some (e, m) =>
      if negb (e =? -1) then inr (Some (e, m))
      else
        match EmplaceInBucket m s key v with
        | None => inr None
        | Some (e, m) =>
            if negb (e =? -1) then inr (Some (e, m))
            else
              match MakeSpace path m p with
              | None => inr None
              | Some (i, m) =>
                  if i >=? 0 then inl m
                  else
                    match MakeSpace path m s with
                    | None => inr None
                    | Some (i, m) => if i >=? 0 then inl m else inr (Some (-1, m))
                    end
              end
        end
  end.

Definition EmplaceEntry (m : CuckooMap K V) (primary secondary : Z) (key : K) (v : V) : option (Z * CuckooMap K V) :=
  match iter_until fuel64 (emplace_step kMaxCuckooPath primary secondary key v) m with
  | inr r => r
  | inl _ => None
  end.

(** The iterator visits the slots in use, bucket by bucket. *)
Definition live_slots (m : CuckooMap K V) : list (Z * Z) :=
  filter (fun p => fst (at_slot (buckets m) p) <> 0) (b ← seqZ 0 (num_buckets m); i ← slots; [(b, i)]).

(** The entries are moved to [bigger], in the order of the iterator; when one
    does not fit, those before it have been moved already. *)
Fixpoint move_entries (emplace : CuckooMap K V -> K -> V -> option (Z * CuckooMap K V)) (m bigger : CuckooMap K V)
    (ps : list (Z * Z)) : option (CuckooMap K V) :=
  match ps with
  | [] => Some bigger
  | p :: ps =>
      let idx := snd (at_slot (buckets m) p) in
      e ← entry_at m idx;
      '(ret, bigger) ← emplace bigger (fst e) (snd e);
      if ret =? -1 then Some m
      else move_entries emplace (set_entries (<[Z.to_nat idx := (fst e, moved_from (snd e))]> (entries m)) m) bigger ps
  end.

Definition ExpandBuckets (emplace : CuckooMap K V -> K -> V -> option (Z * CuckooMap K V)) (m : CuckooMap K V) :
    option (CuckooMap K V) :=
  move_entries emplace m (new_cuckoo (2 * num_buckets m) (Z.of_nat (length (entries m)))) (live_slots m).

(** The [while] loop of [DoEmplace]; [tries], of three, attempts are left. *)
Fixpoint emplace_tries (emplace : CuckooMap K V -> K -> V -> option (Z * CuckooMap K V)) (tries : nat) (m : CuckooMap K V)
    (primary secondary : Z) (key : K) (v : V) : option (Z * CuckooMap K V) :=
  '(e, m) ← EmplaceEntry m primary secondary key v;
  if negb (e =? -1) then Some (e, m)
  else
    match tries with
    | S (S _ as t) => m ← ExpandBuckets emplace m; emplace_tries emplace t m primary secondary key v
    | _ => Some (-1, m)
    end.

Fixpoint DoEmplace (n : nat) (m : CuckooMap K V) (key : K) (v : V) : option (Z * CuckooMap K V) :=
  match n with
  | O => None
  | S n =>
      let primary := Hash key in
      idx ← FindWithHash m primary key;
      if negb (idx =? kInvalidEntryIdx) then
        e ← entry_at m idx; Some (idx, set_entries (<[Z.to_nat idx := (fst e, v)]> (entries m)) m)
      else emplace_tries (DoEmplace n) 3 m primary (HashSecondary primary) key v
  end.

(** [Insert] and [Emplace] are [DoEmplace]. *)
Definition Insert := DoEmplace.

End cuckoo.

(** * Specification *)

Section spec.
Context {K V : Type} `{Countable K} (hasher : K -> Z) (default_entry : K * V) (moved_from : V -> V).
Implicit Types (m : CuckooMap K V) (M : gmap K V) (S : Z -> Z -> slot) (p q : Z * Z).

Definition in_table m p : Prop := 0 <= fst p < num_buckets m /\ 0 <= snd p < 4.

(** [x] holds a key one of whose two buckets is [b]. *)
Definition good m (x : slot) (b : Z) : Prop :=
  exists e, entry_at m (snd x) = Some e /\ fst x = Hash hasher (fst e) /\
    (b = Z.land (Hash hasher (fst e)) (bucket_mask m) \/ b = Z.land (HashSecondary (Hash hasher (fst e))) (bucket_mask m)).

(** Every entry in use is in one of its buckets, and in one slot. *)
Record arranged m S : Prop := {
  a_good : forall p, in_table m p -> fst (at_slot S p) <> 0 -> good m (at_slot S p) (fst p);
  a_once : forall p q, in_table m p -> in_table m q -> fst (at_slot S p) <> 0 -> fst (at_slot S q) <> 0 ->
    snd (at_slot S p) = snd (at_slot S q) -> p = q
}.

Definition holds_slot m S (x : slot) : Prop := exists p, in_table m p /\ at_slot S p = x /\ fst x <> 0.

(** The table represents the map [M]. *)
Record cuckoo_ok m M : Prop := {
  k_size : exists e, 0 <= e /\ num_buckets m = 2 ^ e /\ bucket_mask m = u32 (2 ^ e - 1);
  k_arranged : arranged m (buckets m);
  k_map : forall key v, M !! key = Some v <-> exists x, holds_slot m (buckets m) x /\ entry_at m (snd x) = Some (key, v);
  k_keys : forall x y e f, holds_slot m (buckets m) x -> holds_slot m (buckets m) y ->
    entry_at m (snd x) = Some e -> entry_at m (snd y) = Some f -> fst e = fst f -> snd x = snd y;
  k_free : NoDup (free_entry_indices m) /\ forall idx, idx ∈ free_entry_indices m <->
    0 <= idx < Z.of_nat (length (entries m)) /\ ~ exists x, holds_slot m (buckets m) x /\ snd x = idx;
  k_count : num_entries m = Z.of_nat (size M);
  k_len : 2 <= Z.of_nat (length (entries m)) < 2 ^ 32
}.

(** ** Slots *)

Lemma at_put p q x S : at_slot (put_slot p x S) q = if decide (p = q) then x else at_slot S q.
Proof.
  destruct p as [b i], q as [c j]. unfold at_slot, put_slot. simpl. destruct (decide (b = c)) as [->|Hb].
  - rewrite fn_insert_eq. destruct (decide (i = j)) as [->|Hi]; [rewrite decide_True by done; by rewrite fn_insert_eq|].
    rewrite decide_False by congruence. by rewrite fn_insert_ne.
  - rewrite decide_False by congruence. by rewrite fn_insert_ne.
Qed.

Lemma at_move p q S x :
  at_slot (move p q S) x = if decide (p = x) then (0, snd (at_slot S p)) else if decide (q = x) then at_slot S p else at_slot S x.
Proof.
  unfold move. rewrite !at_put. destruct (decide (p = x)) as [->|Hp]; [|done].
  destruct (decide (q = x)); done.
Qed.

Lemma hash_nonzero key : Hash hasher key <> 0.
Proof.
  unfold Hash. intros E. apply Z.lor_eq_0_iff in E as [_ E]. discriminate E.
Qed.

Lemma hash_range key : 0 <= Hash hasher key < 2 ^ 32.
Proof.
  unfold Hash. pose proof (wrap_range 32 (hasher key) ltac:(lia)) as Hr.
  assert (H0 : 0 <= Z.lor (u32 (hasher key)) (2 ^ 31)) by (apply Z.lor_nonneg; lia). split; [done|].
  pose proof (hash_nonzero key) as Hn. unfold Hash in Hn. apply Z.log2_lt_pow2; [lia|].
  rewrite Z.log2_lor by lia. rewrite Z.log2_pow2 by lia.
  assert (Z.log2 (u32 (hasher key)) < 32); [|lia]. destruct (decide (u32 (hasher key) = 0)) as [->|]; [done|].
  apply Z.log2_lt_pow2; lia.
Qed.

Lemma in_slots i : i ∈ slots <-> 0 <= i < 4.
Proof. unfold slots. rewrite !elem_of_cons, elem_of_nil. lia. Qed.

Lemma find_empty_spec (bk : Z -> slot) :
  (FindEmptySlot bk = -1 /\ forall i, 0 <= i < 4 -> fst (bk i) <> 0) \/
  (0 <= FindEmptySlot bk < 4 /\ fst (bk (FindEmptySlot bk)) = 0).
Proof.
  unfold FindEmptySlot. destruct (filter _ slots) as [|i l] eqn:E.
  - left. split; [done|]. intros i Hi. by eapply (filter_nil_not (fun i => fst (bk i) = 0)), in_slots.
  - right. assert (Hin : i ∈ filter (fun i => fst (bk i) = 0) slots) by (rewrite E; by left).
    apply list_elem_of_filter in Hin as [? Hs]. by apply in_slots in Hs.
Qed.

Definition full S (b : Z) : Prop := forall i, 0 <= i < 4 -> fst (S b i) <> 0.

(** ** Moving an entry *)

Lemma move_arranged m S p q :
  arranged m S -> in_table m p -> in_table m q -> fst (at_slot S q) = 0 ->
  (fst (at_slot S p) <> 0 -> good m (at_slot S p) (fst q)) ->
  arranged m (move p q S) /\ (forall x, holds_slot m (move p q S) x <-> holds_slot m S x).
Proof.
  intros [Ag Ao] Hp Hq Hz Hg.
  assert (Hlive : forall x, in_table m x -> fst (at_slot (move p q S) x) <> 0 ->
    exists y, in_table m y /\ at_slot S y = at_slot (move p q S) x /\ (x = q /\ y = p \/ x <> q /\ x <> p /\ y = x)).
  { intros x Hx Hl. rewrite at_move in *. destruct (decide (p = x)) as [->|]; [done|].
    destruct (decide (q = x)) as [->|]; [by exists p; auto|]. exists x. naive_solver. }
  split; [split|].
  - intros x Hx Hl. destruct (Hlive x Hx Hl) as (y & Hy & E & Hc). rewrite <- E in *.
    destruct Hc as [[-> ->]|(_ & _ & ->)]; [by apply Hg|by apply Ag].
  - intros x y Hx Hy Hlx Hly E. destruct (Hlive x Hx Hlx) as (x' & Hx' & Ex & Hcx), (Hlive y Hy Hly) as (y' & Hy' & Ey & Hcy).
    rewrite <- Ex, <- Ey in *. pose proof (Ao x' y' Hx' Hy' Hlx Hly E). naive_solver.
  - intros x. split.
    + intros (y & Hy & <- & Hl). destruct (Hlive y Hy Hl) as (y' & Hy' & E & _). exists y'. by rewrite E.
    + intros (y & Hy & <- & Hl). destruct (decide (y = p)) as [->|Hne].
      * exists q. split; [done|]. split; [|done]. rewrite at_move. destruct (decide (p = q)) as [->|]; [done|].
        by rewrite decide_True.
      * exists y. split; [done|]. split; [|done]. rewrite at_move, !decide_False by congruence. done.
Qed.

(** ** Making space

    What a successful [MakeSpace] of bucket [b] does to other full buckets: a
    chain of [path] moves leaves them as they are ([strict]), or puts entries of
    [b] in them ([kept]).  The entry that the caller then moves from such a
    bucket to [b] has [b] among its buckets.  With longer paths it may not. *)

Definition effect : Type := CuckooMap K V -> (Z -> Z -> slot) -> Z -> (Z -> Z -> slot) -> Prop.

Definition strict : effect := fun m S b S' =>
  forall p, in_table m p -> full S (fst p) -> fst (at_slot S' p) <> 0 -> at_slot S' p = at_slot S p.

Definition kept : effect := fun m S b S' =>
  forall p, in_table m p -> full S (fst p) -> fst p <> b -> fst (at_slot S' p) <> 0 ->
    at_slot S' p = at_slot S p \/ good m (at_slot S' p) b.

(** The effect of one more move, from bucket [b] to a bucket [a] in which space
    was found or made. *)
Definition next (P : effect) : effect := fun m S b S' =>
  exists i a j S1, 0 <= i < 4 /\ in_table m (a, j) /\ good m (at_slot S (b, i)) a /\ fst (S1 a j) = 0 /\
    ((S1 = S) \/ (full S a /\ P m S a S1)) /\ S' = move (b, i) (a, j) S1.

Definition none : effect := fun _ _ _ _ => False.

Lemma next_strict m S b S' : in_table m (b, 0) -> full S b -> next none m S b S' -> strict m S b S'.
Proof.
  intros Hb Hf (i & a & j & S1 & Hi & Ha & _ & Hz & [->|[_ []]] & ->) p Hp Hfp Hl.
  rewrite at_move in *. destruct (decide ((b, i) = p)) as [<-|_]; [done|].
  destruct (decide ((a, j) = p)) as [<-|_]; [|done]. exfalso. by apply (Hfp j (proj2 Ha)).
Qed.

Lemma next_kept m S b S' :
  arranged m S -> in_table m (b, 0) -> full S b -> next strict m S b S' -> kept m S b S'.
Proof.
  intros [Ag _] Hb Hf (i & a & j & S1 & Hi & Ha & Hg & Hz & HS1 & ->) p Hp Hfp Hne Hl.
  assert (Hbi : in_table m (b, i)) by (split; [apply Hb|done]).
  rewrite at_move in *. destruct (decide ((b, i) = p)) as [<-|_]; [done|].
  destruct (decide ((a, j) = p)) as [<-|Hpa].
  - right. destruct HS1 as [->|[Hfa HP]]; [exfalso; by apply (Hfp j (proj2 Ha))|].
    rewrite (HP (b, i)) in * by done. by apply (Ag (b, i)).
  - left. destruct HS1 as [->|[Hfa HP]]; [done|by apply HP].
Qed.

Lemma strict_kept m S b S' : strict m S b S' -> kept m S b S'.
Proof. intros HS p Hp Hf _ Hl. left. by apply HS. Qed.

(** What [MakeSpace] answers when its effect is [P]. *)
Definition makes_space (P : effect) (f : CuckooMap K V -> Z -> option (Z * CuckooMap K V)) : Prop :=
  forall m b, arranged m (buckets m) -> in_table m (b, 0) -> full (buckets m) b ->
    (forall k, 0 <= Z.land k (bucket_mask m) < num_buckets m) ->
    exists i S, f m b = Some (i, set_buckets S m) /\
      ((i = -1 /\ S = buckets m) \/
       (0 <= i < 4 /\ arranged m S /\ (forall x, holds_slot m S x <-> holds_slot m (buckets m) x) /\
        fst (S b i) = 0 /\ P m (buckets m) b S)).

Lemma same_buckets m : set_buckets (buckets m) m = m.
Proof. by destruct m. Qed.

Lemma slots_make_space P deeper :
  makes_space P deeper -> (forall m S b S', in_table m (b, 0) -> full S b -> arranged m S -> P m S b S' -> kept m S b S') ->
  forall js m b, (forall i, i ∈ js -> 0 <= i < 4) -> arranged m (buckets m) -> in_table m (b, 0) -> full (buckets m) b ->
    (forall k, 0 <= Z.land k (bucket_mask m) < num_buckets m) ->
    exists i S, make_space_slots hasher deeper m b js = Some (i, set_buckets S m) /\
      ((i = -1 /\ S = buckets m) \/
       (0 <= i < 4 /\ arranged m S /\ (forall x, holds_slot m S x <-> holds_slot m (buckets m) x) /\
        fst (S b i) = 0 /\ next P m (buckets m) b S)).
Proof.
  intros Hd Hk js. induction js as [|i js IH]; intros m b Hjs A Hb Hf Hm; cbn [make_space_slots].
  { exists (-1), (buckets m). rewrite same_buckets. auto. }
  assert (Hi : 0 <= i < 4) by (apply Hjs; by left). assert (Hbi : in_table m (b, i)) by (split; [apply Hb|done]).
  destruct (a_good m _ A (b, i) Hbi (Hf i Hi)) as (e & Ee & Eh & _).
  unfold at_slot in Ee, Eh. cbn [fst snd] in Ee, Eh. destruct (buckets m b i) as [h idx] eqn:Ebi. simpl in Ee, Eh. subst h.
  rewrite Ee. cbn [mbind option_bind]. rewrite Z.eqb_refl. cbn [orb].
  set (a := Z.land (HashSecondary (Hash hasher (fst e))) (bucket_mask m)).
  assert (Ha : 0 <= a < num_buckets m) by apply Hm. unfold bucket_at. rewrite option_guard_True by done. cbn [mbind option_bind].
  assert (Hgood : good m (at_slot (buckets m) (b, i)) a).
  { unfold at_slot. cbn [fst snd]. rewrite Ebi. exists e. simpl. auto. }
  assert (Hspace : exists j S1, (if FindEmptySlot (buckets m a) =? -1 then deeper m a else Some (FindEmptySlot (buckets m a), m)) =
      Some (j, set_buckets S1 m) /\
      ((j = -1 /\ S1 = buckets m) \/
       (0 <= j < 4 /\ arranged m S1 /\ (forall x, holds_slot m S1 x <-> holds_slot m (buckets m) x) /\ fst (S1 a j) = 0 /\
        (S1 = buckets m \/ (full (buckets m) a /\ P m (buckets m) a S1))))).
  { destruct (find_empty_spec (buckets m a)) as [[E Hfull]|[Hj Hz]].
    - rewrite E. cbn [Z.eqb]. destruct (Hd m a A) as (j & S1 & Ed & Hc); [split; simpl; lia|done|done|].
      exists j, S1. split; [done|]. naive_solver.
    - destruct (Z.eqb_spec (FindEmptySlot (buckets m a)) (-1)); [lia|].
      exists (FindEmptySlot (buckets m a)), (buckets m). rewrite same_buckets. naive_solver. }
  destruct Hspace as (j & S1 & Ej & Hc). rewrite Ej. cbn [mbind option_bind].
  destruct Hc as [[-> ->]|(Hj & A1 & Hs1 & Hz & HP)].
  { rewrite same_buckets. destruct (Z.geb_spec (-1) 0); [lia|]. apply IH; auto. intros x Hx. apply Hjs. by right. }
  destruct (Z.geb_spec j 0); [|lia]. exists i, (move (b, i) (a, j) S1). split; [done|]. right. split; [done|].
  assert (Haj : in_table m (a, j)) by done.
  destruct (move_arranged m S1 (b, i) (a, j) A1 Hbi Haj Hz) as [A2 Hs2].
  { intros Hl. destruct HP as [->|[Hfa HP]]; [done|]. destruct (decide (b = a)) as [<-|Hne]; [by apply (a_good m S1 A1 (b, i))|].
    assert (Ha0 : in_table m (a, 0)) by (split; simpl; lia).
    destruct (Hk m (buckets m) a S1 Ha0 Hfa A HP (b, i) Hbi Hf Hne Hl) as [->|?]; done. }
  split; [exact A2|]. split; [intros x; by rewrite Hs2, Hs1|]. split.
  - change (fst (at_slot (move (b, i) (a, j) S1) (b, i)) = 0). rewrite at_move, decide_True by done. done.
  - exists i, a, j, S1. auto 10.
Qed.

Lemma make_space_level (P : effect) r :
  makes_space P (MakeSpace hasher r) ->
  (forall m S b S', in_table m (b, 0) -> full S b -> arranged m S -> P m S b S' -> kept m S b S') ->
  makes_space (next P) (MakeSpace hasher (Datatypes.S r)).
Proof.
  intros HP Hk m b A Hb Hf Hm. cbn [MakeSpace]. unfold bucket_at. rewrite option_guard_True by apply Hb. cbn [mbind option_bind].
  apply (slots_make_space P _ HP Hk slots m b); auto. intros i. apply in_slots.
Qed.

Lemma makes_space_mono (P P' : effect) f :
  (forall m S b S', arranged m S -> in_table m (b, 0) -> full S b -> P m S b S' -> P' m S b S') ->
  makes_space P f -> makes_space P' f.
Proof.
  intros Hi HP m b A Hb Hf Hm. destruct (HP m b A Hb Hf Hm) as (i & S & E & Hc). exists i, S. split; [done|]. naive_solver.
Qed.

(** Three levels are as many as [kMaxCuckooPath] allows. *)
Lemma make_space_ok : makes_space (next kept) (MakeSpace hasher kMaxCuckooPath).
Proof.
  apply make_space_level; [|intros m S b S' _ _ _ HS; exact HS].
  apply (makes_space_mono (next strict)); [intros; by apply next_kept|].
  apply make_space_level; [|intros; by apply strict_kept].
  apply (makes_space_mono (next none)); [intros; by apply next_strict|].
  apply make_space_level; [|intros m S b S' _ _ _ []].
  intros m b _ _ _ _. exists (-1), (buckets m). rewrite same_buckets. auto.
Qed.

(** ** The table and the map *)

Lemma entry_range m idx e : entry_at m idx = Some e -> 0 <= idx < Z.of_nat (length (entries m)).
Proof.
  unfold entry_at. intros E. destruct (decide (0 <= idx)) as [Hi|Hi].
  - rewrite option_guard_True in E by done. cbn [mbind option_bind] in E. apply lookup_lt_Some in E. lia.
  - rewrite option_guard_False in E by done. done.
Qed.

Lemma held_entry m S x : arranged m S -> holds_slot m S x -> exists e, entry_at m (snd x) = Some e /\ fst x = Hash hasher (fst e).
Proof. intros A (p & Hp & <- & Hl). destruct (a_good m S A p Hp Hl) as (e & E & Eh & _). eauto. Qed.

Lemma mask_range m M k : cuckoo_ok m M -> 0 <= Z.land k (bucket_mask m) < num_buckets m.
Proof.
  intros Ok. destruct (k_size _ _ Ok) as (e & He & -> & ->).
  assert (Hc : exists f, 0 <= f <= e /\ u32 (2 ^ e - 1) = 2 ^ f - 1).
  { destruct (Z.le_gt_cases e 32).
    - exists e. split; [lia|]. pose proof (pow2_pos e He). pose proof (pow2_mono e 32). apply wrap_small. lia.
    - exists 32. split; [lia|]. unfold wrap. replace (2 ^ e - 1) with (2 ^ 32 - 1 + (2 ^ (e - 32) - 1) * 2 ^ 32).
      + rewrite Z.mod_add by lia. by rewrite Z.mod_small by lia.
      + pose proof (pow2_split 32 e ltac:(lia)). lia. }
  destruct Hc as (f & Hf & ->). rewrite land_ones_mod by lia. pose proof (pow2_pos f ltac:(lia)).
  pose proof (pow2_mono f e ltac:(lia)). pose proof (Z.mod_pos_bound k (2 ^ f)). lia.
Qed.

Lemma cuckoo_set_buckets m M S :
  cuckoo_ok m M -> arranged m S -> (forall x, holds_slot m S x <-> holds_slot m (buckets m) x) -> cuckoo_ok (set_buckets S m) M.
Proof.
  intros [K1 K2 K3 K4 K5 K6 K7] A Hs.
  assert (Hs' : forall x, holds_slot (set_buckets S m) S x <-> holds_slot m (buckets m) x) by exact Hs.
  split; try done; [destruct A; by split| | |].
  - intros key v. rewrite K3. cbn [buckets set_buckets]. by setoid_rewrite Hs'.
  - intros x y e f Hx Hy. apply Hs' in Hx, Hy. by apply K4.
  - destruct K5 as [Hn Hf]. split; [done|]. intros idx. rewrite Hf. cbn [buckets set_buckets]. by setoid_rewrite Hs'.
Qed.

(** [m'] is [m] with slots rearranged. *)
Definition rearranged m m' : Prop :=
  exists S, m' = set_buckets S m.

Lemma make_space_table m M b :
  cuckoo_ok m M -> 0 <= b < num_buckets m -> full (buckets m) b ->
  exists i m', MakeSpace hasher kMaxCuckooPath m b = Some (i, m') /\ cuckoo_ok m' M /\ rearranged m m' /\
    ((i = -1 /\ m' = m) \/ (0 <= i < 4 /\ fst (buckets m' b i) = 0)).
Proof.
  intros Ok Hb Hf. destruct (make_space_ok m b (k_arranged _ _ Ok)) as (i & S & E & Hc);
    [split; simpl; lia|done|intros k; by eapply mask_range|].
  exists i, (set_buckets S m). split; [done|]. destruct Hc as [[-> ->]|(Hi & A & Hs & Hz & _)].
  - rewrite same_buckets. split; [done|]. split; [|by left]. exists (buckets m). by rewrite same_buckets.
  - split; [by apply cuckoo_set_buckets|]. split; [by exists S|]. by right.
Qed.

(** The entries may be stored in a longer vector, with other free indices. *)
Lemma cuckoo_grow m M m' :
  cuckoo_ok m M -> bucket_mask m' = bucket_mask m -> num_entries m' = num_entries m -> num_buckets m' = num_buckets m ->
  buckets m' = buckets m -> (exists l, entries m' = entries m ++ l) ->
  NoDup (free_entry_indices m') ->
  (forall idx, idx ∈ free_entry_indices m' <->
     idx ∈ free_entry_indices m \/ Z.of_nat (length (entries m)) <= idx < Z.of_nat (length (entries m'))) ->
  Z.of_nat (length (entries m')) < 2 ^ 32 -> cuckoo_ok m' M.
Proof.
  intros [K1 K2 K3 K4 [K5 K5'] K6 K7] E1 E2 E3 E4 [l El] Hnd Hfree Hlen.
  assert (Hent : forall i e, entry_at m i = Some e -> entry_at m' i = Some e).
  { intros i e He. pose proof (entry_range _ _ _ He). unfold entry_at in *. rewrite option_guard_True in * by lia.
    cbn [mbind option_bind] in *. rewrite El. by apply lookup_app_l_Some. }
  assert (Hent' : forall i e x, holds_slot m (buckets m) x -> snd x = i -> entry_at m' i = Some e -> entry_at m i = Some e).
  { intros i e x Hx <- He. destruct (held_entry m _ x K2 Hx) as (e' & He' & _). rewrite (Hent _ _ He') in He. congruence. }
  assert (Hs : forall x, holds_slot m' (buckets m') x <-> holds_slot m (buckets m) x).
  { intros x. unfold holds_slot, in_table. by rewrite E3, E4. }
  split.
  - by rewrite E1, E3.
  - rewrite E4. destruct K2 as [Ag Ao]. split; unfold in_table; rewrite E3; [|exact Ao]. intros p Hp Hl.
    destruct (Ag p Hp Hl) as (e & He & Eh & Hh). exists e. rewrite E1. auto.
  - intros key v. rewrite K3. setoid_rewrite Hs. split; intros (x & Hx & He); exists x; (split; [done|]); eauto.
  - intros x y e f Hx Hy He Hf. apply Hs in Hx, Hy. eapply K4; eauto.
  - split; [done|]. intros idx. rewrite Hfree, K5'. setoid_rewrite Hs. rewrite El, length_app. split.
    + intros [[? ?]|Hi]; [split; [lia|done]|]. split; [lia|]. intros (x & Hx & <-).
      destruct (held_entry m _ x K2 Hx) as (e & He & _). apply entry_range in He. lia.
    + intros [Hi Hn]. destruct (Z.lt_ge_cases idx (Z.of_nat (length (entries m)))); [left; auto with lia|right; lia].
  - by rewrite E2.
  - rewrite El, length_app in *. lia.
Qed.

Lemma expand_entries_ok m M :
  cuckoo_ok m M -> free_entry_indices m = [] -> Z.of_nat (length (entries m)) < 2 ^ 31 ->
  exists m', ExpandEntries default_entry m = Some m' /\ cuckoo_ok m' M /\ free_entry_indices m' <> [] /\
    bucket_mask m' = bucket_mask m /\ num_buckets m' = num_buckets m /\ buckets m' = buckets m /\
    (length (entries m') <= 2 * length (entries m))%nat.
Proof.
  intros Ok Hf Hlen. pose proof (k_len _ _ Ok) as Hl. unfold ExpandEntries.
  set (n := Z.of_nat (length (entries m))) in *. assert (Hh : 1 <= n / 2 <= n) by dlia.
  rewrite option_guard_True by lia. cbn [mbind option_bind]. rewrite Hf, app_nil_r.
  replace (n + n / 2 - n) with (n / 2) by lia. eexists. split; [reflexivity|].
  assert (El : Z.of_nat (length (entries m ++ repeat default_entry (Z.to_nat (n / 2)))) = n + n / 2).
  { rewrite length_app, repeat_length. lia. }
  split; [|split; [|do 3 (split; [done|])]].
  - apply (cuckoo_grow m M); try done; cbn [entries free_entry_indices].
    + eauto.
    + apply NoDup_seqZ.
    + intros idx. rewrite elem_of_seqZ, El, Hf, elem_of_nil. fold n. lia.
    + lia.
  - cbn [free_entry_indices]. replace (n / 2) with (Z.succ (n / 2 - 1)) by lia. rewrite seqZ_cons by lia. done.
  - cbn [entries]. lia.
Qed.

Lemma map_size m M : cuckoo_ok m M -> (size M <= length (entries m))%nat.
Proof.
  intros Ok. rewrite <- size_dom. etransitivity; [|rewrite <- (length_fmap fst); apply size_of_list].
  apply subseteq_size. intros key Hk. apply elem_of_dom in Hk as [v Hv]. apply (k_map _ _ Ok) in Hv as (x & _ & E).
  apply elem_of_list_to_set, list_elem_of_fmap. exists (key, v). split; [done|].
  unfold entry_at in E. destruct (decide (0 <= snd x)); [|by rewrite option_guard_False in E].
  rewrite option_guard_True in E by done. by eapply list_elem_of_lookup_2.
Qed.

Lemma entry_put es m idx e i S n nb l :
  0 <= idx < Z.of_nat (length es) -> entries m = es ->
  entry_at (Cuckoo (bucket_mask m) n nb S (<[Z.to_nat idx := e]> es) l) i = if decide (idx = i) then Some e else entry_at m i.
Proof.
  intros Hi <-. unfold entry_at. cbn [entries]. destruct (decide (idx = i)) as [<-|Hne].
  - rewrite option_guard_True by lia. cbn [mbind option_bind]. by rewrite list_lookup_insert_eq by lia.
  - destruct (decide (0 <= i)); [|by rewrite !option_guard_False]. rewrite !option_guard_True by done. cbn [mbind option_bind].
    by rewrite list_lookup_insert_ne by lia.
Qed.

(** Filling an empty slot [p] with a free entry. *)
Lemma fill_slot m M p key v idx l :
  cuckoo_ok m M -> M !! key = None -> in_table m p -> fst (at_slot (buckets m) p) = 0 ->
  (fst p = Z.land (Hash hasher key) (bucket_mask m) \/ fst p = Z.land (HashSecondary (Hash hasher key)) (bucket_mask m)) ->
  free_entry_indices m = idx :: l ->
  0 <= idx < Z.of_nat (length (entries m)) /\
  cuckoo_ok (Cuckoo (bucket_mask m) (u64 (num_entries m + 1)) (num_buckets m) (put_slot p (Hash hasher key, idx) (buckets m))
               (<[Z.to_nat idx := (key, v)]> (entries m)) l) (<[key := v]> M).
Proof.
  intros Ok Hk Hp Hz Hb Hf. pose proof (map_size m M Ok) as Hsize. destruct Ok as [K1 K2 K3 K4 [K5 K5'] K6 K7].
  rewrite Hf in *. apply NoDup_cons in K5 as [Hnl Hndl].
  destruct (proj1 (K5' idx)) as [Hidx Hfree]; [by left|]. split; [done|].
  set (m' := Cuckoo _ _ _ _ _ _).
  assert (Hent : forall i, entry_at m' i = if decide (idx = i) then Some (key, v) else entry_at m i) by (intros; by apply entry_put).
  set (x0 := (Hash hasher key, idx) : slot).
  assert (Hs : forall x, holds_slot m' (buckets m') x <-> x = x0 \/ holds_slot m (buckets m) x).
  { intros x. split.
    - intros (q & Hq & <- & Hl). cbn [buckets m'] in *. rewrite at_put in *. destruct (decide (p = q)); [by left|]. right. by exists q.
    - intros [->|(q & Hq & <- & Hl)]; [|].
      + exists p. cbn [buckets m']. rewrite at_put, decide_True by done. split; [done|]. split; [done|apply hash_nonzero].
      + exists q. cbn [buckets m']. rewrite at_put, decide_False; [done|]. intros ->. done. }
  assert (Hold : forall x, holds_slot m (buckets m) x -> snd x <> idx) by (intros x Hx <-; apply Hfree; eauto).
  assert (Heq : forall x, holds_slot m (buckets m) x -> entry_at m' (snd x) = entry_at m (snd x)).
  { intros x Hx. rewrite Hent, decide_False; [done|]. intros E. by apply (Hold x Hx). }
  split; [done| | | | | |].
  - destruct K2 as [Ag Ao]. split.
    + intros q Hq Hl. cbn [buckets m'] in *. rewrite at_put in *. destruct (decide (p = q)) as [<-|Hne].
      * exists (key, v). split; [rewrite Hent, decide_True; done|]. done.
      * destruct (Ag q Hq Hl) as (e & He & Eh & Hh). exists e. split; [|done]. rewrite Heq; [done|]. by exists q.
    + intros q r Hq Hr. cbn [buckets m']. rewrite !at_put. intros Hlq Hlr.
      destruct (decide (p = q)) as [<-|Hq'], (decide (p = r)) as [<-|Hr']; [done| | |by apply Ao].
      * simpl. intros E. exfalso. apply (Hold (at_slot (buckets m) r)); [by exists r|done].
      * simpl. intros E. exfalso. apply (Hold (at_slot (buckets m) q)); [by exists q|done].
  - intros k w. setoid_rewrite Hs. destruct (decide (k = key)) as [->|Hne].
    + rewrite lookup_insert_eq. split.
      * intros [= <-]. exists x0. split; [by left|]. simpl. by rewrite Hent, decide_True.
      * intros (x & [->|Hx] & E); [simpl in E; rewrite Hent, decide_True in E by done; congruence|].
        exfalso. rewrite Heq in E by done. assert (M !! key = Some w); [|congruence]. apply K3. eauto.
    + rewrite lookup_insert_ne by done. rewrite K3. split.
      * intros (x & Hx & E). exists x. split; [by right|]. by rewrite Heq.
      * intros (x & [->|Hx] & E); [simpl in E; rewrite Hent, decide_True in E by done; congruence|].
        exists x. by rewrite Heq in E.
  - assert (Hnew : forall x e, holds_slot m (buckets m) x -> entry_at m (snd x) = Some e -> fst e <> key).
    { intros x [k w] Hx E <-. assert (M !! k = Some w); [|simpl in Hk; congruence]. apply K3. eauto. }
    assert (Hx0 : entry_at m' (snd x0) = Some (key, v)) by (simpl; by rewrite Hent, decide_True).
    intros x y e f Hx Hy. apply Hs in Hx as [->|Hx], Hy as [->|Hy]; [done| | |].
    + rewrite Hx0, (Heq y Hy). intros [= <-] Ef E. by destruct (Hnew y f Hy Ef).
    + rewrite Hx0, (Heq x Hx). intros Ee [= <-] E. by destruct (Hnew x e Hx Ee).
    + rewrite (Heq x Hx), (Heq y Hy). by apply K4.
  - split; [done|]. intros i. cbn [free_entry_indices entries m']. rewrite length_insert. setoid_rewrite Hs. split.
    + intros Hi. destruct (proj1 (K5' i)) as [Hr Hn]; [by right|]. split; [done|].
      intros (x & [->|Hx] & E); [simpl in E; by subst i|]. apply Hn. eauto.
    + intros [Hr Hn]. assert (Hin : i ∈ idx :: l).
      { apply K5'. split; [done|]. intros (x & Hx & E). apply Hn. eauto. }
      apply elem_of_cons in Hin as [->|?]; [|done]. exfalso. apply Hn. exists x0. auto.
  - cbn [num_entries m']. rewrite K6, map_size_insert_None by done. rewrite wrap_small by lia. lia.
  - cbn [entries m']. by rewrite length_insert.
Qed.

(** Clearing the slot [p] of a key. *)
Lemma clear_slot m M p key v idx :
  cuckoo_ok m M -> in_table m p -> at_slot (buckets m) p = (Hash hasher key, idx) -> entry_at m idx = Some (key, v) ->
  cuckoo_ok (Cuckoo (bucket_mask m) (u64 (num_entries m - 1)) (num_buckets m) (put_slot p (0, idx) (buckets m))
               (<[Z.to_nat idx := default_entry]> (entries m)) (idx :: free_entry_indices m)) (delete key M).
Proof.
  intros Ok Hp Ep He. pose proof (map_size m M Ok) as Hsize. pose proof (entry_range _ _ _ He) as Hidx.
  destruct Ok as [K1 K2 K3 K4 [K5 K5'] K6 K7]. pose proof (hash_nonzero key) as Hnz.
  set (m' := Cuckoo _ _ _ _ _ _).
  assert (Hent : forall i, entry_at m' i = if decide (idx = i) then Some default_entry else entry_at m i) by (intros; by apply entry_put).
  assert (Hheld : holds_slot m (buckets m) (Hash hasher key, idx)) by (exists p; auto).
  assert (Hs : forall x, holds_slot m' (buckets m') x <-> holds_slot m (buckets m) x /\ snd x <> idx).
  { intros x. split.
    - intros (q & Hq & <- & Hl). cbn [buckets m'] in *. rewrite at_put in *. destruct (decide (p = q)) as [<-|Hne]; [done|].
      split; [by exists q|]. intros E. apply Hne. apply (a_once _ _ K2); try done; rewrite Ep; done.
    - intros ((q & Hq & <- & Hl) & Hne). exists q. cbn [buckets m']. rewrite at_put, decide_False; [done|].
      intros ->. by rewrite Ep in Hne. }
  assert (Heq : forall x : slot, snd x <> idx -> entry_at m' (snd x) = entry_at m (snd x)).
  { intros x Hx. by rewrite Hent, decide_False. }
  assert (Hv : M !! key = Some v) by (apply K3; eauto).
  split; [done| | | | | |].
  - destruct K2 as [Ag Ao]. split.
    + intros q Hq. cbn [buckets m']. rewrite at_put. destruct (decide (p = q)) as [<-|Hne]; [done|]. intros Hl.
      destruct (Ag q Hq Hl) as (e & Hee & Eh & Hh). exists e. split; [|done]. rewrite Heq; [done|]. intros E. apply Hne.
      apply Ao; try done; rewrite Ep; done.
    + intros q r Hq Hr. cbn [buckets m']. rewrite !at_put.
      destruct (decide (p = q)) as [<-|Hq'], (decide (p = r)) as [<-|Hr']; try done. by apply Ao.
  - intros k w. setoid_rewrite Hs. rewrite lookup_delete_Some, K3. split.
    + intros (Hne & x & Hx & E). exists x. assert (snd x <> idx) by (intros E2; rewrite E2 in E; congruence).
      split; [done|]. by rewrite Heq.
    + intros (x & [Hx Hn] & E). rewrite Heq in E by done. split; [|eauto]. intros <-.
      apply Hn. by apply (K4 x (Hash hasher key, idx) (key, w) (key, v)).
  - intros x y e f Hx Hy. apply Hs in Hx as [Hx Hnx], Hy as [Hy Hny]. rewrite !Heq by done. by apply K4.
  - split.
    + cbn [free_entry_indices m']. apply NoDup_cons. split; [|done]. intros Hin. apply K5' in Hin as [_ Hn]. apply Hn. eauto.
    + intros i. cbn [free_entry_indices entries m']. rewrite length_insert, elem_of_cons, K5'. setoid_rewrite Hs. split.
      * intros [->|[Hr Hn]]; [split; [done|]; by intros (x & [_ Hx] & E)|]. split; [done|]. intros (x & [Hx _] & E). eauto.
      * intros [Hr Hn]. destruct (decide (i = idx)) as [->|Hne]; [by left|]. right. split; [done|].
        intros (x & Hx & <-). apply Hn. eauto.
  - cbn [num_entries m']. rewrite K6, map_size_delete_Some by eauto.
    assert (size M <> 0%nat) by (apply map_size_ne_0_lookup; eauto). rewrite wrap_small by lia. lia.
  - cbn [entries m']. by rewrite length_insert.
Qed.

(** ** Looking up *)

(** The entry of a slot in use with the hash of [key]. *)
Lemma slot_entry m M b i :
  cuckoo_ok m M -> in_table m (b, i) -> fst (buckets m b i) <> 0 ->
  exists e, entry_at m (snd (buckets m b i)) = Some e /\ fst (buckets m b i) = Hash hasher (fst e).
Proof.
  intros Ok Hp Hl. destruct (a_good _ _ (k_arranged _ _ Ok) (b, i) Hp Hl) as (e & E & Eh & _). by exists e.
Qed.

Lemma find_slot_ok m M b key js :
  cuckoo_ok m M -> 0 <= b < num_buckets m -> (forall i, i ∈ js -> 0 <= i < 4) ->
  exists i, find_slot m (buckets m b) (Hash hasher key) key js = Some i /\
    ((i = -1 /\ forall j e, j ∈ js -> fst (buckets m b j) <> 0 -> entry_at m (snd (buckets m b j)) = Some e -> fst e <> key) \/
     (0 <= i < 4 /\ fst (buckets m b i) = Hash hasher key /\ exists v, entry_at m (snd (buckets m b i)) = Some (key, v))).
Proof.
  intros Ok Hb. induction js as [|i js IH]; intros Hjs.
  { exists (-1). split; [done|]. left. split; [done|]. intros j e Hj. by apply not_elem_of_nil in Hj. }
  destruct IH as (r & Er & Hr); [intros; apply Hjs; by right|]. cbn [find_slot].
  assert (Hi : in_table m (b, i)) by (split; [done|apply Hjs; by left]).
  assert (Hskip : (forall e, fst (buckets m b i) <> 0 -> entry_at m (snd (buckets m b i)) = Some e -> fst e <> key) ->
    exists i0, Some r = Some i0 /\
      ((i0 = -1 /\ forall j e, j ∈ i :: js -> fst (buckets m b j) <> 0 -> entry_at m (snd (buckets m b j)) = Some e -> fst e <> key) \/
       (0 <= i0 < 4 /\ fst (buckets m b i0) = Hash hasher key /\ exists v, entry_at m (snd (buckets m b i0)) = Some (key, v)))).
  { intros Hn. exists r. split; [done|]. destruct Hr as [[-> Hr]|Hr]; [left|by right]. split; [done|].
    intros j e [->|Hj]%elem_of_cons; eauto. }
  pose proof (slot_entry m M b i Ok Hi) as Hse. destruct (buckets m b i) as [h idx] eqn:Ebi. cbn [fst snd] in *.
  destruct (Z.eqb_spec h (Hash hasher key)) as [->|Hne].
  - destruct Hse as (e & Ee & _); [apply hash_nonzero|]. rewrite Ee. cbn [mbind option_bind].
    destruct (decide (fst e = key)) as [<-|Hk].
    + exists i. split; [done|]. right. rewrite Ebi. split; [apply Hi|]. split; [done|]. exists (snd e). by destruct e.
    + rewrite Er. apply Hskip. intros e' _ E'. congruence.
  - rewrite Er. apply Hskip. intros e Hl E <-. destruct (Hse Hl) as (e' & E' & Eh). congruence.
Qed.

(** Where a key is. *)
Lemma key_in_slot m M key v :
  cuckoo_ok m M -> M !! key = Some v ->
  exists b i, in_table m (b, i) /\ fst (buckets m b i) = Hash hasher key /\ entry_at m (snd (buckets m b i)) = Some (key, v) /\
    (b = Z.land (Hash hasher key) (bucket_mask m) \/ b = Z.land (HashSecondary (Hash hasher key)) (bucket_mask m)).
Proof.
  intros Ok Hv. apply (k_map _ _ Ok) in Hv as (x & ([b i] & Hp & <- & Hl) & E). exists b, i. split; [done|].
  destruct (a_good _ _ (k_arranged _ _ Ok) (b, i) Hp Hl) as (e & E' & Eh & Hh). rewrite E in E'. injection E' as <-. done.
Qed.

Lemma get_bucket_ok m M b key :
  cuckoo_ok m M -> 0 <= b < num_buckets m ->
  exists idx, GetFromBucket m (Hash hasher key) b key = Some idx /\
    ((idx = kInvalidEntryIdx /\ forall j e, 0 <= j < 4 -> fst (buckets m b j) <> 0 -> entry_at m (snd (buckets m b j)) = Some e -> fst e <> key) \/
     (idx <> kInvalidEntryIdx /\ exists v, entry_at m idx = Some (key, v) /\ M !! key = Some v /\
        exists x, holds_slot m (buckets m) x /\ snd x = idx)).
Proof.
  intros Ok Hb. unfold GetFromBucket, bucket_at, FindSlot. rewrite option_guard_True by done. cbn [mbind option_bind].
  destruct (find_slot_ok m M b key slots Ok Hb) as (i & -> & Hi); [by intros i; apply in_slots|]. cbn [mbind option_bind].
  destruct Hi as [[-> Hn]|(Hi & Eh & v & Ev)].
  - exists kInvalidEntryIdx. split; [done|]. left. split; [done|]. intros j e Hj. by apply Hn, in_slots.
  - destruct (Z.eqb_spec i (-1)); [lia|]. eexists. split; [reflexivity|]. right.
    pose proof (entry_range _ _ _ Ev). pose proof (k_len _ _ Ok). split; [unfold kInvalidEntryIdx; lia|]. exists v.
    assert (Hh : holds_slot m (buckets m) (buckets m b i)).
    { exists (b, i). split; [done|]. split; [done|]. rewrite Eh. apply hash_nonzero. }
    split; [done|]. split; [|by exists (buckets m b i)]. apply (k_map _ _ Ok). by exists (buckets m b i).
Qed.

Lemma find_hash_ok m M key :
  cuckoo_ok m M ->
  exists idx, FindWithHash m (Hash hasher key) key = Some idx /\
    match M !! key with
    | None => idx = kInvalidEntryIdx
    | Some v => idx <> kInvalidEntryIdx /\ entry_at m idx = Some (key, v) /\ exists x, holds_slot m (buckets m) x /\ snd x = idx
    end.
Proof.
  intros Ok. unfold FindWithHash.
  destruct (get_bucket_ok m M (Z.land (Hash hasher key) (bucket_mask m)) key Ok) as (i1 & -> & H1); [by eapply mask_range|].
  destruct (get_bucket_ok m M (Z.land (HashSecondary (Hash hasher key)) (bucket_mask m)) key Ok) as (i2 & -> & H2); [by eapply mask_range|].
  cbn [mbind option_bind]. destruct H1 as [[-> H1]|(Hn1 & v & Ev & -> & Hx)].
  2:{ destruct (Z.eqb_spec i1 kInvalidEntryIdx); [done|]. exists i1. done. }
  rewrite Z.eqb_refl. cbn [negb]. exists i2. split; [done|]. destruct H2 as [[-> H2]|(Hn2 & v & Ev & -> & Hx)]; [|done].
  destruct (M !! key) as [v|] eqn:Ev; [|done]. exfalso.
  destruct (key_in_slot m M key v Ok Ev) as (b & i & Hp & Eh & Ee & [->| ->]).
  - apply (H1 i (key, v)); [apply Hp|rewrite Eh; apply hash_nonzero|done|done].
  - apply (H2 i (key, v)); [apply Hp|rewrite Eh; apply hash_nonzero|done|done].
Qed.

(** ** Removing *)

Lemma remove_bucket_ok m M b key :
  cuckoo_ok m M -> 0 <= b < num_buckets m ->
  exists r m', RemoveFromBucket default_entry m (Hash hasher key) b key = Some (r, m') /\
    if r : bool then is_Some (M !! key) /\ cuckoo_ok m' (delete key M)
    else m' = m /\ forall j e, 0 <= j < 4 -> fst (buckets m b j) <> 0 -> entry_at m (snd (buckets m b j)) = Some e -> fst e <> key.
Proof.
  intros Ok Hb. unfold RemoveFromBucket, bucket_at, FindSlot. rewrite option_guard_True by done. cbn [mbind option_bind].
  destruct (find_slot_ok m M b key slots Ok Hb) as (i & -> & Hi); [by intros i; apply in_slots|]. cbn [mbind option_bind].
  destruct Hi as [[-> Hn]|(Hi & Eh & v & Ev)].
  - exists false, m. split; [done|]. split; [done|]. intros j e Hj. by apply Hn, in_slots.
  - destruct (Z.eqb_spec i (-1)); [lia|]. cbn zeta. rewrite option_guard_True by (by eapply entry_range). cbn [mbind option_bind].
    eexists true, _. split; [reflexivity|]. split.
    + exists v. apply (k_map _ _ Ok). exists (buckets m b i). split; [|done]. exists (b, i). split; [done|]. split; [done|].
      rewrite Eh. apply hash_nonzero.
    + apply (clear_slot m M (b, i) key v); [done|done| |done]. unfold at_slot. cbn [fst snd].
      destruct (buckets m b i) as [h idx]. simpl in *. by subst h.
Qed.

Lemma remove_ok m M key :
  cuckoo_ok m M ->
  exists r m', Remove hasher default_entry m key = Some (r, m') /\ (r = true <-> is_Some (M !! key)) /\ cuckoo_ok m' (delete key M).
Proof.
  intros Ok. unfold Remove.
  destruct (remove_bucket_ok m M (Z.land (Hash hasher key) (bucket_mask m)) key Ok) as (r1 & m1 & -> & H1); [by eapply mask_range|].
  cbn [mbind option_bind]. destruct r1.
  { exists true, m1. destruct H1 as [H1 H1']. done. }
  destruct H1 as [-> H1].
  destruct (remove_bucket_ok m M (Z.land (HashSecondary (Hash hasher key)) (bucket_mask m)) key Ok) as (r2 & m2 & -> & H2); [by eapply mask_range|].
  exists r2, m2. split; [done|]. destruct r2; [by destruct H2|]. destruct H2 as [-> H2].
  assert (Hnone : M !! key = None).
  { destruct (M !! key) as [v|] eqn:Ev; [|done]. exfalso.
    destruct (key_in_slot m M key v Ok Ev) as (b & i & Hp & Eh & Ee & [->| ->]).
    - apply (H1 i (key, v)); [apply Hp|rewrite Eh; apply hash_nonzero|done|done].
    - apply (H2 i (key, v)); [apply Hp|rewrite Eh; apply hash_nonzero|done|done]. }
  rewrite Hnone, delete_id by done. split; [|done]. split; [done|]. intros [? ?]. done.
Qed.

(** ** Inserting *)

Lemma elem_live m p : p ∈ live_slots m <-> in_table m p /\ fst (at_slot (buckets m) p) <> 0.
Proof.
  unfold live_slots. rewrite list_elem_of_filter, list_elem_of_bind. split.
  - intros (Hl & b & Hp & Hb). apply list_elem_of_bind in Hp as (i & Hp & Hi). apply list_elem_of_singleton in Hp as ->.
    apply elem_of_seqZ in Hb. apply in_slots in Hi. split; [|done]. split; simpl; lia.
  - intros ([Hb Hi] & Hl). split; [done|]. exists (fst p). split; [|apply elem_of_seqZ; lia].
    apply list_elem_of_bind. exists (snd p). split; [|by apply in_slots]. apply list_elem_of_singleton. by destruct p.
Qed.

(** Without a free index every entry is in use. *)
Lemma no_free m M : cuckoo_ok m M -> free_entry_indices m = [] -> (length (entries m) <= size M)%nat.
Proof.
  intros Ok Hf. destruct (k_free _ _ Ok) as [_ Hfree]. rewrite Hf in Hfree.
  assert (Hall : forall i e, entries m !! i = Some e ->
    M !! fst e = Some (snd e) /\ exists x, holds_slot m (buckets m) x /\ snd x = Z.of_nat i).
  { intros i e He. assert (Hi : (i < length (entries m))%nat) by (by eapply lookup_lt_Some).
    assert (Hx : exists x, holds_slot m (buckets m) x /\ snd x = Z.of_nat i).
    { destruct (decide (Exists (fun p => snd (at_slot (buckets m) p) = Z.of_nat i) (live_slots m))) as [Hx|Hn].
      - apply list.Exists_exists in Hx as (p & Hp & E). apply elem_live in Hp as [Hp Hl]. exists (at_slot (buckets m) p).
        split; [|done]. by exists p.
      - exfalso. apply (not_elem_of_nil (Z.of_nat i)), Hfree. split; [lia|]. intros (x & (p & Hp & <- & Hl) & E).
        apply Hn, list.Exists_exists. exists p. split; [by apply elem_live|done]. }
    split; [|done]. destruct Hx as (x & Hx & E). apply (k_map _ _ Ok). exists x. split; [done|]. unfold entry_at.
    rewrite option_guard_True by lia. cbn [mbind option_bind]. rewrite E, Nat2Z.id, He. by destruct e. }
  assert (Hnd : NoDup (entries m).*1).
  { apply NoDup_alt. intros i j k Hi Hj. rewrite list_lookup_fmap in Hi, Hj.
    destruct (entries m !! i) as [e|] eqn:Ei; [|done]. destruct (entries m !! j) as [f|] eqn:Ej; [|done].
    simpl in Hi, Hj. destruct (Hall i e Ei) as (_ & x & Hx & Exi), (Hall j f Ej) as (_ & y & Hy & Eyj).
    assert (snd x = snd y); [|lia]. apply (k_keys _ _ Ok x y e f Hx Hy); unfold entry_at.
    - rewrite option_guard_True by lia. cbn [mbind option_bind]. by rewrite Exi, Nat2Z.id.
    - rewrite option_guard_True by lia. cbn [mbind option_bind]. by rewrite Eyj, Nat2Z.id.
    - congruence. }
  rewrite <- size_dom, <- (length_fmap fst), <- (size_list_to_set (C := gset K) _ Hnd). apply subseteq_size.
  intros k Hk. apply elem_of_list_to_set, list_elem_of_fmap in Hk as (e & -> & He).
  apply list_elem_of_lookup in He as [i He]. apply elem_of_dom. exists (snd e). by apply (Hall i e).
Qed.

(** How the vector of entries grows. *)
Definition grown m M m' : Prop :=
  length (entries m') = length (entries m) \/
  ((length (entries m) <= size M)%nat /\ (length (entries m') <= 2 * length (entries m))%nat).

Lemma emplace_bucket_ok m M b key v :
  cuckoo_ok m M -> M !! key = None -> 0 <= b < num_buckets m -> Z.of_nat (length (entries m)) < 2 ^ 31 ->
  (b = Z.land (Hash hasher key) (bucket_mask m) \/ b = Z.land (HashSecondary (Hash hasher key)) (bucket_mask m)) ->
  exists e m', EmplaceInBucket hasher default_entry m b key v = Some (e, m') /\ grown m M m' /\
    ((e = -1 /\ m' = m /\ full (buckets m) b) \/
     (0 <= e < kInvalidEntryIdx /\ cuckoo_ok m' (<[key := v]> M) /\ entry_at m' e = Some (key, v) /\ ~ full (buckets m) b)).
Proof.
  intros Ok Hk Hb Hlen Hh. unfold EmplaceInBucket, bucket_at. rewrite option_guard_True by done. cbn [mbind option_bind].
  destruct (find_empty_spec (buckets m b)) as [[-> Hf]|[Hj Hz]].
  { exists (-1), m. split; [done|]. split; [by left|]. by left. }
  set (j := FindEmptySlot (buckets m b)) in *. destruct (Z.eqb_spec j (-1)); [lia|].
  assert (Hm : exists m1 idx l, match free_entry_indices m with [] => ExpandEntries default_entry m | _ => Some m end = Some m1 /\
    cuckoo_ok m1 M /\ free_entry_indices m1 = idx :: l /\ bucket_mask m1 = bucket_mask m /\ num_buckets m1 = num_buckets m /\
    buckets m1 = buckets m /\ grown m M m1).
  { destruct (free_entry_indices m) as [|idx l] eqn:Ef.
    - destruct (expand_entries_ok m M Ok Ef Hlen) as (m1 & -> & Ok1 & Hne & E1 & E2 & E3 & E4).
      destruct (free_entry_indices m1) as [|idx l] eqn:Ef1; [done|]. exists m1, idx, l. do 6 (split; [done|]). right.
      split; [by apply no_free|done].
    - exists m, idx, l. do 6 (split; [done|]). by left. }
  destruct Hm as (m1 & idx & l & E & Ok1 & Ef & E1 & E2 & E3 & Hg). unfold PopFreeEntryIndex. rewrite E. cbn [mbind option_bind].
  rewrite Ef. cbn [mbind option_bind entries bucket_mask num_buckets num_entries buckets free_entry_indices].
  destruct (fill_slot m1 M (b, j) key v idx l Ok1 Hk) as [Hidx Ok2].
  - split; simpl; [lia|done].
  - unfold at_slot. simpl. by rewrite E3.
  - by rewrite E1.
  - done.
  - rewrite option_guard_True by done. cbn [mbind option_bind]. eexists idx, _. split; [reflexivity|].
    pose proof (k_len _ _ Ok1). split; [unfold grown in *; cbn [entries]; by rewrite length_insert|]. right.
    split; [unfold kInvalidEntryIdx; lia|]. split; [exact Ok2|]. split.
    + rewrite (entry_put (entries m1) m1) by done. by rewrite decide_True.
    + intros Hf. by apply (Hf j Hj).
Qed.

Lemma full_search (bk : Z -> slot) S b : bk = S b -> (FindEmptySlot bk =? -1) = true <-> full S b.
Proof.
  intros ->. destruct (find_empty_spec (S b)) as [[-> Hf]|[Hj Hz]]; [done|].
  destruct (Z.eqb_spec (FindEmptySlot (S b)) (-1)); [lia|]. split; [done|]. intros Hf. exfalso. by apply (Hf _ Hj).
Qed.

(** Whether both buckets of a key are full. *)
Definition crowded m key : bool :=
  (FindEmptySlot (buckets m (Z.land (Hash hasher key) (bucket_mask m))) =? -1) &&
  (FindEmptySlot (buckets m (Z.land (HashSecondary (Hash hasher key)) (bucket_mask m))) =? -1).

(** [EmplaceEntry] always returns: once space has been made it finds it. *)
Lemma emplace_entry_ok m M key v :
  cuckoo_ok m M -> M !! key = None -> Z.of_nat (length (entries m)) < 2 ^ 31 ->
  exists e m', EmplaceEntry hasher default_entry m (Hash hasher key) (HashSecondary (Hash hasher key)) key v = Some (e, m') /\
    grown m M m' /\
    ((e = -1 /\ cuckoo_ok m' M /\ crowded m key = true /\ entries m' = entries m) \/
     (0 <= e < kInvalidEntryIdx /\ cuckoo_ok m' (<[key := v]> M) /\ entry_at m' e = Some (key, v))).
Proof.
  intros Ok0 Hk Hlen.
  destruct (iter_until_total (fun m1 => cuckoo_ok m1 M /\ entries m1 = entries m /\ (m1 = m \/ crowded m key = true))
    (fun r => exists e m', r = Some (e, m') /\ grown m M m' /\
      ((e = -1 /\ cuckoo_ok m' M /\ crowded m key = true /\ entries m' = entries m) \/
       (0 <= e < kInvalidEntryIdx /\ cuckoo_ok m' (<[key := v]> M) /\ entry_at m' e = Some (key, v))))
    (fun m1 => if crowded m1 key then 1 else 0) fuel64
    (emplace_step hasher default_entry kMaxCuckooPath (Hash hasher key) (HashSecondary (Hash hasher key)) key v) m)
    as (r & E & e & m' & -> & H1).
  - intros m1 (Ok & Ees & Hm1). set (p := Z.land (Hash hasher key) (bucket_mask m1)).
    set (q := Z.land (HashSecondary (Hash hasher key)) (bucket_mask m1)).
    assert (Hp : 0 <= p < num_buckets m1) by (by eapply mask_range). assert (Hq : 0 <= q < num_buckets m1) by (by eapply mask_range).
    assert (Hgrown : forall m2, grown m1 M m2 -> grown m M m2) by (unfold grown; by rewrite Ees).
    unfold emplace_step. fold p q.
    destruct (emplace_bucket_ok m1 M p key v Ok Hk Hp) as (e1 & m2 & -> & Hg1 & H1); [by rewrite Ees|by left|].
    destruct H1 as [(-> & -> & Hfp)|(He & Ok2 & Hent & _)].
    2:{ destruct (Z.eqb_spec e1 (-1)); [lia|]. cbn [negb]. exists e1, m2. split; [done|]. split; [by apply Hgrown|]. by right. }
    cbn [Z.eqb negb Pos.eqb].
    destruct (emplace_bucket_ok m1 M q key v Ok Hk Hq) as (e1 & m2 & -> & Hg2 & H2); [by rewrite Ees|by right|].
    destruct H2 as [(-> & -> & Hfq)|(He & Ok2 & Hent & _)].
    2:{ destruct (Z.eqb_spec e1 (-1)); [lia|]. cbn [negb]. exists e1, m2. split; [done|]. split; [by apply Hgrown|]. by right. }
    cbn [Z.eqb negb Pos.eqb].
    assert (Hcrowd : crowded m1 key = true).
    { unfold crowded. fold p q. by rewrite (proj2 (full_search _ (buckets m1) p eq_refl)), (proj2 (full_search _ (buckets m1) q eq_refl)). }
    assert (Hc0 : crowded m key = true) by (destruct Hm1 as [<-|]; done).
    assert (Hspace : forall m2 b i, cuckoo_ok m2 M -> rearranged m1 m2 -> 0 <= i < 4 -> fst (buckets m2 b i) = 0 -> b = p \/ b = q ->
      (cuckoo_ok m2 M /\ entries m2 = entries m /\ (m2 = m \/ crowded m key = true)) /\
      0 <= (if crowded m2 key then 1 else 0) < (if crowded m1 key then 1 else 0)).
    { intros m2 b i Ok2 [S ->] Hi Hz Hb. split; [by auto|]. rewrite Hcrowd.
      assert (Hn : crowded (set_buckets S m1) key = false); [|rewrite Hn; lia].
      unfold crowded. cbn [buckets bucket_mask set_buckets]. fold p q.
      assert (Hb' : (FindEmptySlot (S b) =? -1) = false).
      { apply not_true_iff_false. intros Hf. apply (full_search _ S b eq_refl) in Hf. by apply (Hf i Hi). }
      apply andb_false_iff. destruct Hb as [->| ->]; auto. }
    destruct (make_space_table m1 M p Ok Hp Hfp) as (i & m2 & -> & Ok2 & Hre & Hi).
    destruct Hi as [[-> ->]|[Hi Hz]].
    + destruct (Z.geb_spec (-1) 0); [lia|].
      destruct (make_space_table m1 M q Ok Hq Hfq) as (i & m2 & -> & Ok3 & Hre2 & Hi).
      destruct Hi as [[-> ->]|[Hi Hz]].
      * destruct (Z.geb_spec (-1) 0); [lia|]. exists (-1), m1. split; [done|]. split; [left; by rewrite Ees|]. left. done.
      * destruct (Z.geb_spec i 0); [|lia]. eapply (Hspace m2 q i); auto.
    + destruct (Z.geb_spec i 0); [|lia]. eapply (Hspace m2 p i); auto.
  - auto.
  - unfold fuel64. destruct (crowded m key); lia.
  - exists e, m'. unfold EmplaceEntry. rewrite E. auto.
Qed.

(** A new value for a key in the table. *)
Lemma update_value m M key v0 v x :
  cuckoo_ok m M -> M !! key = Some v0 -> holds_slot m (buckets m) x -> entry_at m (snd x) = Some (key, v0) ->
  cuckoo_ok (set_entries (<[Z.to_nat (snd x) := (key, v)]> (entries m)) m) (<[key := v]> M).
Proof.
  intros Ok Hv Hx Ex. pose proof (entry_range _ _ _ Ex) as Hr. destruct Ok as [K1 K2 K3 K4 K5 K6 K7].
  set (m' := set_entries _ m).
  assert (Hent : forall i, entry_at m' i = if decide (snd x = i) then Some (key, v) else entry_at m i).
  { intros i. unfold m', set_entries. by apply entry_put. }
  assert (Hs : forall y, holds_slot m' (buckets m') y <-> holds_slot m (buckets m) y) by done.
  assert (Hfst : forall i e, entry_at m' i = Some e -> exists w, entry_at m i = Some (fst e, w)).
  { intros i e. rewrite Hent. case_decide as E; [|intros E'; exists (snd e); by destruct e]. intros [= <-]. exists v0. simpl. by rewrite <- E. }
  split; [done| |intros k w|intros y z e f Hy Hz Ee Ef E| | |].
  - destruct K2 as [Ag Ao]. split; [|exact Ao]. intros p Hp Hl. destruct (Ag p Hp Hl) as (e & Ee & Eh).
    destruct (decide (snd x = snd (at_slot (buckets m) p))) as [E|Hn].
    + exists (key, v). rewrite Hent, decide_True by done. rewrite <- E, Ex in Ee. injection Ee as <-. done.
    + exists e. rewrite Hent, decide_False by done. done.
  - destruct (decide (k = key)) as [->|Hne].
    + rewrite lookup_insert_eq. split.
      * intros [= <-]. exists x. split; [done|]. by rewrite Hent, decide_True.
      * intros (y & Hy & Ey). destruct (Hfst _ _ Ey) as [w' Ew].
        assert (E : snd y = snd x) by (eapply (K4 y x); eauto). rewrite Hent, decide_True in Ey by done. congruence.
    + rewrite lookup_insert_ne, K3 by done. split; intros (y & Hy & Ey); exists y; (split; [done|]).
      * rewrite Hent. case_decide as E; [|done]. rewrite <- E, Ex in Ey. congruence.
      * rewrite Hent in Ey. case_decide; [congruence|done].
  - destruct (Hfst _ _ Ee) as [w Ew], (Hfst _ _ Ef) as [w' Ew']. by eapply (K4 y z _ _ Hy Hz Ew Ew').
  - destruct K5 as [K5 K5']. split; [done|]. intros i. cbn [entries m' set_entries]. rewrite length_insert. apply K5'.
  - cbn [num_entries m' set_entries]. rewrite K6, map_size_insert_Some by eauto. done.
  - cbn [entries m' set_entries]. by rewrite length_insert.
Qed.

Lemma new_ok nb n e :
  nb = 2 ^ e -> 0 <= e -> 2 <= n < 2 ^ 32 -> cuckoo_ok (new_cuckoo default_entry nb n) ∅.
Proof.
  intros -> He Hn. set (m := new_cuckoo _ _ _). assert (Hs : forall x, ~ holds_slot m (buckets m) x).
  { intros x (p & _ & <- & Hl). done. }
  split.
  - exists e. done.
  - split; [intros p _ Hl; done|]. intros p q _ _ Hl. done.
  - intros key v. rewrite lookup_empty. split; [done|]. intros (x & Hx & _). by destruct (Hs x).
  - intros x y ? ? Hx. by destruct (Hs x).
  - cbn [free_entry_indices entries m new_cuckoo]. rewrite repeat_length. split; [apply NoDup_seqZ|]. intros i. rewrite elem_of_seqZ.
    split; [intros Hi; split; [lia|]; intros (x & Hx & _); by destruct (Hs x)|lia].
  - done.
  - cbn [entries m new_cuckoo]. rewrite repeat_length. lia.
Qed.

Section emplace.
(** Values are copied: what is left of one that has been moved is itself. *)
Context (Hmoved : forall v, moved_from v = v).

Definition emplaced m M key v (e : Z) m' : Prop :=
  (length (entries m') = length (entries m) \/
    (M !! key = None /\ (length (entries m) <= size M)%nat /\ (length (entries m') <= 2 * length (entries m))%nat)) /\
  ((0 <= e < kInvalidEntryIdx /\ cuckoo_ok m' (<[key := v]> M) /\ entry_at m' e = Some (key, v)) \/
   (e = -1 /\ M !! key = None /\ cuckoo_ok m' M)).

Definition emplaces (f : CuckooMap K V -> K -> V -> option (Z * CuckooMap K V)) : Prop :=
  forall m M key v e m', cuckoo_ok m M -> Z.of_nat (length (entries m)) < 2 ^ 31 -> f m key v = Some (e, m') -> emplaced m M key v e m'.

Lemma move_entries_ok f m M : forall ps bigger N m',
  emplaces f -> cuckoo_ok m M -> Z.of_nat (length (entries m)) < 2 ^ 31 -> cuckoo_ok bigger N -> N ⊆ M ->
  length (entries bigger) = length (entries m) -> (forall p, p ∈ ps -> p ∈ live_slots m) ->
  (forall p e, p ∈ live_slots m -> p ∉ ps -> entry_at m (snd (at_slot (buckets m) p)) = Some e -> N !! fst e = Some (snd e)) ->
  move_entries moved_from f m bigger ps = Some m' -> cuckoo_ok m' M /\ length (entries m') = length (entries m).
Proof.
  intros ps. induction ps as [|p ps IH]; intros bigger N m' Hf Ok Hlen Okb Hsub Hlb Hps Hdone; cbn [move_entries].
  { intros [= <-]. split; [|done]. replace M with N; [done|]. apply map_eq. intros key. destruct (M !! key) as [v|] eqn:Ev.
    - apply (k_map _ _ Ok) in Ev as (x & (p & Hp & <- & Hl) & E). apply (Hdone p (key, v)); [by apply elem_live|by apply not_elem_of_nil|done].
    - destruct (N !! key) as [v|] eqn:En; [|done]. rewrite map_subseteq_spec in Hsub. rewrite (Hsub _ _ En) in Ev. done. }
  assert (Hp : p ∈ live_slots m) by (apply Hps; by left). pose proof Hp as Hp'. apply elem_live in Hp' as [Hpt Hpl].
  destruct (a_good _ _ (k_arranged _ _ Ok) p Hpt Hpl) as ([key v] & Ee & _ & _). rewrite Ee. cbn [mbind option_bind fst snd].
  assert (HM : M !! key = Some v) by (apply (k_map _ _ Ok); exists (at_slot (buckets m) p); split; [by exists p|done]).
  assert (Esame : set_entries (<[Z.to_nat (snd (at_slot (buckets m) p)) := (key, moved_from v)]> (entries m)) m = m).
  { rewrite Hmoved. pose proof (entry_range _ _ _ Ee). unfold entry_at in Ee. rewrite option_guard_True in Ee by lia.
    unfold set_entries. rewrite list_insert_id by exact Ee. by destruct m. }
  destruct (f bigger key v) as [[ret b2]|] eqn:Ef; [|done]. cbn [mbind option_bind].
  destruct (Hf bigger N key v ret b2 Okb) as [Hg Hr]; [by rewrite Hlb|done|].
  assert (HsubM : <[key := v]> N ⊆ M) by (by apply insert_subseteq_l).
  destruct Hr as [(Hr & Ok2 & _)|(-> & _ & _)].
  2:{ cbn [Z.eqb Pos.eqb]. intros [= <-]. done. }
  destruct (Z.eqb_spec ret (-1)); [lia|]. rewrite Esame. apply (IH b2 (<[key := v]> N)); try done.
  - destruct Hg as [->|(Hn & Hfull & _)]; [done|]. exfalso.
    pose proof (map_subseteq_size _ _ HsubM) as Hsz. rewrite map_size_insert_None in Hsz by done.
    pose proof (map_size m M Ok). lia.
  - intros q Hq. apply Hps. by right.
  - intros q e Hq Hnq Eq. destruct (decide (q = p)) as [->|Hne].
    + rewrite Ee in Eq. injection Eq as <-. simpl. by rewrite lookup_insert_eq.
    + destruct e as [k w]. simpl. destruct (decide (k = key)) as [->|Hk].
      * assert (M !! key = Some w); [|rewrite lookup_insert_eq; congruence]. apply (k_map _ _ Ok).
        apply elem_live in Hq as [Hqt Hql]. exists (at_slot (buckets m) q). split; [by exists q|done].
      * rewrite lookup_insert_ne by done. apply (Hdone q (k, w) Hq); [|done]. rewrite elem_of_cons. intros [?|?]; done.
Qed.

Lemma expand_ok f m M m' :
  emplaces f -> cuckoo_ok m M -> Z.of_nat (length (entries m)) < 2 ^ 31 -> ExpandBuckets default_entry moved_from f m = Some m' ->
  cuckoo_ok m' M /\ length (entries m') = length (entries m).
Proof.
  intros Hf Ok Hlen. destruct (k_size _ _ Ok) as (e & He & Enb & _). pose proof (k_len _ _ Ok).
  apply (move_entries_ok f m M (live_slots m) _ ∅); try done.
  - apply (new_ok _ _ (e + 1)); [rewrite Enb, Z.pow_add_r by lia; lia|lia|lia].
  - apply map_empty_subseteq.
  - cbn [entries new_cuckoo]. rewrite repeat_length. lia.
Qed.

Lemma emplace_tries_ok f tries : forall m M key v e m',
  emplaces f -> cuckoo_ok m M -> M !! key = None -> Z.of_nat (length (entries m)) < 2 ^ 31 ->
  emplace_tries hasher default_entry moved_from f tries m (Hash hasher key) (HashSecondary (Hash hasher key)) key v = Some (e, m') ->
  emplaced m M key v e m'.
Proof.
  induction tries as [|tries IH]; intros m M key v e m' Hf Ok Hk Hlen; cbn [emplace_tries];
    destruct (emplace_entry_ok m M key v Ok Hk Hlen) as (e1 & m1 & -> & Hg & H1); cbn [mbind option_bind];
    (destruct H1 as [(-> & Ok1 & _ & Ees)|(He & Ok1 & Hent)];
      [cbn [Z.eqb Pos.eqb negb]|destruct (Z.eqb_spec e1 (-1)); [lia|]; intros [= <- <-]; split; [destruct Hg; auto|left; done]]).
  - intros [= <- <-]. split; [destruct Hg; auto|by right].
  - destruct tries as [|t]; [intros [= <- <-]; split; [destruct Hg; auto|by right]|].
    destruct (ExpandBuckets default_entry moved_from f m1) as [m2|] eqn:Ex; [|done]. cbn [mbind option_bind]. intros E.
    destruct (expand_ok f m1 M m2 Hf Ok1) as [Ok2 El]; [by rewrite Ees|done|]. rewrite Ees in El.
    destruct (IH m2 M key v e m' Hf Ok2 Hk) as [Hl Hr]; [by rewrite El|done|]. unfold emplaced. rewrite <- El. done.
Qed.

Lemma DoEmplace_ok n : emplaces (DoEmplace hasher default_entry moved_from n).
Proof.
  induction n as [|n IH]; intros m M key v e m' Ok Hlen; cbn [DoEmplace]; [done|].
  destruct (find_hash_ok m M key Ok) as (idx & -> & Hidx). cbn [mbind option_bind]. destruct (M !! key) as [v0|] eqn:Hk.
  - destruct Hidx as (Hn & E & x & Hx & <-). destruct (Z.eqb_spec (snd x) kInvalidEntryIdx); [done|]. cbn [negb].
    rewrite E. cbn [mbind option_bind fst]. intros [= <- <-]. pose proof (entry_range _ _ _ E). pose proof (k_len _ _ Ok).
    split; [left; cbn [entries set_entries]; by rewrite length_insert|]. left. split; [unfold kInvalidEntryIdx in *; lia|].
    split; [by apply (update_value m M key v0 v x)|]. unfold set_entries. rewrite (entry_put (entries m) m) by done.
    by rewrite decide_True.
  - subst idx. rewrite Z.eqb_refl. cbn [negb]. intros E. by apply (emplace_tries_ok (DoEmplace hasher default_entry moved_from n) 3).
Qed.
End emplace.

(** More depth gives the same answer. *)
Definition below (f g : CuckooMap K V -> K -> V -> option (Z * CuckooMap K V)) : Prop :=
  forall m key v r, f m key v = Some r -> g m key v = Some r.

Lemma move_entries_below f g : below f g -> forall ps m bigger m',
  move_entries moved_from f m bigger ps = Some m' -> move_entries moved_from g m bigger ps = Some m'.
Proof.
  intros B. induction ps as [|p ps IH]; intros m bigger m'; cbn [move_entries]; [done|].
  destruct (entry_at m (snd (at_slot (buckets m) p))) as [e|]; [|done]. cbn [mbind option_bind].
  destruct (f bigger (fst e) (snd e)) as [[ret b]|] eqn:E; [|done]. rewrite (B _ _ _ _ E). cbn [mbind option_bind].
  destruct (ret =? -1); [done|]. apply IH.
Qed.

Lemma emplace_tries_below f g : below f g -> forall tries m h1 h2 key v r,
  emplace_tries hasher default_entry moved_from f tries m h1 h2 key v = Some r ->
  emplace_tries hasher default_entry moved_from g tries m h1 h2 key v = Some r.
Proof.
  intros B. induction tries as [|tries IH]; intros m h1 h2 key v r; cbn [emplace_tries];
    (destruct (EmplaceEntry hasher default_entry m h1 h2 key v) as [[e m1]|]; [|done]); cbn [mbind option_bind]; [done|].
  destruct (negb (e =? -1)); [done|]. destruct tries as [|t]; [done|]. unfold ExpandBuckets.
  destruct (move_entries moved_from f m1 _ (live_slots m1)) as [m2|] eqn:E; [|done]. rewrite (move_entries_below f g B _ _ _ _ E).
  cbn [mbind option_bind]. apply IH.
Qed.

Lemma DoEmplace_deeper k n : below (DoEmplace hasher default_entry moved_from n) (DoEmplace hasher default_entry moved_from (n + k)).
Proof.
  induction n as [|n IH]; intros m key v r; cbn [DoEmplace Nat.add]; [done|].
  destruct (FindWithHash m (Hash hasher key) key) as [idx|]; [|done]. cbn [mbind option_bind].
  destruct (negb (idx =? kInvalidEntryIdx)); [done|]. by apply emplace_tries_below.
Qed.

(** With a free slot in one of its two buckets, or the key in the table, no
    table is nested. *)
Lemma DoEmplace_returns n m M key v :
  cuckoo_ok m M -> Z.of_nat (length (entries m)) < 2 ^ 31 -> (crowded m key = false \/ is_Some (M !! key)) ->
  exists e m', DoEmplace hasher default_entry moved_from (Datatypes.S n) m key v = Some (e, m') /\ e <> -1.
Proof.
  intros Ok Hlen Hc. cbn [DoEmplace]. destruct (find_hash_ok m M key Ok) as (idx & -> & Hidx). cbn [mbind option_bind].
  destruct (M !! key) as [v0|] eqn:Hk.
  - destruct Hidx as (Hn & E & x & Hx & <-). destruct (Z.eqb_spec (snd x) kInvalidEntryIdx); [done|]. cbn [negb].
    rewrite E. cbn [mbind option_bind fst]. eexists _, _. split; [reflexivity|]. apply entry_range in E. lia.
  - subst idx. rewrite Z.eqb_refl. cbn [negb emplace_tries].
    destruct (emplace_entry_ok m M key v Ok Hk Hlen) as (e1 & m1 & -> & _ & H1). cbn [mbind option_bind].
    destruct H1 as [(-> & _ & Hcr & _)|(He & _)]; [exfalso; destruct Hc as [Hc|[? ?]]; congruence|].
    destruct (Z.eqb_spec e1 (-1)); [lia|]. cbn [negb]. exists e1, m1. done.
Qed.
End spec.

(** * Properties *)

(** C32. [Insert] refines the update of a finite map, for values of which a move leaves the
    original as it was: when it returns, either the
    table holds the map with the new value, found at the index returned, or
    it returns NULL for a new key and holds the map it held.  It does return
    an entry when the key is in the table, and otherwise whenever the search
    for a place, which always ends, finds one, as it does when one of the two buckets has a free slot.
    Only when it finds none are tables nested, [n] deep at most here: with more depth
    the answer stays the same once there is one, but no depth need be enough, since the code
    nests tables without bound for keys that collide; this case is not covered, nor is the
    loss of values that are moved for good. *)
Theorem cuckoo_insert {K V} `{Countable K} (hasher : K -> Z) (default_entry : K * V) n (m : CuckooMap K V) M key v :
  cuckoo_ok hasher m M -> Z.of_nat (length (entries m)) < 2 ^ 31 ->
  let insert n := Insert hasher default_entry (fun v => v) n m key v in
  (forall e m', insert n = Some (e, m') ->
     (0 <= e /\ entry_at m' e = Some (key, v) /\ cuckoo_ok hasher m' (<[key := v]> M)) \/
     (e = -1 /\ M !! key = None /\ cuckoo_ok hasher m' M)) /\
  (0 < Z.of_nat n -> is_Some (M !! key) -> exists e m', insert n = Some (e, m') /\ e <> -1) /\
  (0 < Z.of_nat n -> M !! key = None -> exists e m',
     EmplaceEntry hasher default_entry m (Hash hasher key) (HashSecondary (Hash hasher key)) key v = Some (e, m') /\
     (crowded hasher m key = false -> e <> -1) /\ (e <> -1 -> insert n = Some (e, m'))) /\
  (forall k r, insert n = Some r -> insert (n + k)%nat = Some r).
Proof.
  intros Ok Hlen insert. split; [|split; [|split]].
  - intros e m' E. destruct (DoEmplace_ok hasher default_entry (fun v => v) ltac:(done) n m M key v e m' Ok Hlen E)
      as [_ [(He & Ok' & Ee)|Hr]]; [left|by right]. split; [lia|done].
  - intros Hn Hk. destruct n as [|n]; [done|]. apply (DoEmplace_returns hasher default_entry (fun v => v) n m M); auto.
  - intros Hn Hk. destruct n as [|n]; [done|].
    destruct (emplace_entry_ok hasher default_entry m M key v Ok Hk Hlen) as (e & m' & E & _ & Hr). exists e, m'.
    split; [done|]. split.
    + intros Hc. destruct Hr as [(_ & _ & Hc' & _)|(He & _)]; [congruence|lia].
    + intros He. unfold insert, Insert. cbn [DoEmplace]. destruct (find_hash_ok hasher m M key Ok) as (idx & -> & Hidx).
      rewrite Hk in Hidx. subst idx. cbn [mbind option_bind emplace_tries]. rewrite Z.eqb_refl. cbn [negb].
      rewrite E. cbn [mbind option_bind]. by rewrite (proj2 (Z.eqb_neq e (-1)) He).
  - intros k r E. by apply (DoEmplace_deeper hasher default_entry (fun v => v) k n).
Qed.

(** The search for a place ends: whatever the table, [EmplaceEntry] returns,
    after at most [kMaxCuckooPath] levels of [MakeSpace] and one more round from
    the label [again]; the entry is added, or both its buckets were full and the
    table holds the same map, no entry having been moved to a wrong bucket. *)
Theorem cuckoo_emplace_returns {K V} `{Countable K} (hasher : K -> Z) (default_entry : K * V) (m : CuckooMap K V) M key v :
  cuckoo_ok hasher m M -> M !! key = None -> Z.of_nat (length (entries m)) < 2 ^ 31 ->
  exists e m', EmplaceEntry hasher default_entry m (Hash hasher key) (HashSecondary (Hash hasher key)) key v = Some (e, m') /\
    ((e = -1 /\ cuckoo_ok hasher m' M /\ crowded hasher m key = true) \/
     (0 <= e /\ entry_at m' e = Some (key, v) /\ cuckoo_ok hasher m' (<[key := v]> M))).
Proof.
  intros Ok Hk Hlen. destruct (emplace_entry_ok hasher default_entry m M key v Ok Hk Hlen) as (e & m' & E & _ & Hr).
  exists e, m'. split; [done|]. destruct Hr as [(-> & Ok' & Hc & _)|(He & Ok' & Ee)]; [by left|right]. split; [lia|done].
Qed.

(** C33. On a table that holds [M], [Find] is the lookup of [M], [Remove] deletes
    the key and tells whether it was there, [Count] is the size of [M], and the
    iterator visits one slot for each entry of [M]. *)
Theorem cuckoo_lookup_remove {K V} `{Countable K} (hasher : K -> Z) (default_entry : K * V) (m : CuckooMap K V) M key :
  cuckoo_ok hasher m M ->
  Find hasher m key = Some ((fun v => (key, v)) <$> M !! key) /\
  (exists m', Remove hasher default_entry m key = Some (bool_decide (is_Some (M !! key)), m') /\ cuckoo_ok hasher m' (delete key M)) /\
  Count m = Z.of_nat (size M) /\
  (forall k v, M !! k = Some v <-> exists p, p ∈ live_slots m /\ entry_at m (snd (at_slot (buckets m) p)) = Some (k, v)) /\
  (forall p q e f, p ∈ live_slots m -> q ∈ live_slots m -> entry_at m (snd (at_slot (buckets m) p)) = Some e ->
     entry_at m (snd (at_slot (buckets m) q)) = Some f -> fst e = fst f -> p = q).
Proof.
  intros Ok. split; [|split; [|split; [apply (k_count _ _ _ Ok)|split]]].
  - unfold Find. destruct (find_hash_ok hasher m M key Ok) as (idx & -> & Hidx). cbn [mbind option_bind].
    destruct (M !! key) as [v|]; [|by subst idx]. destruct Hidx as (Hn & E & _).
    destruct (Z.eqb_spec idx kInvalidEntryIdx); [done|]. by rewrite E.
  - destruct (remove_ok hasher default_entry m M key Ok) as (r & m' & E & Hr & Ok'). exists m'. split; [|done]. rewrite E.
    do 2 f_equal. destruct r; [by rewrite bool_decide_eq_true_2 by tauto|]. rewrite bool_decide_eq_false_2; [done|]. intros Hs.
    by apply Hr in Hs.
  - intros k v. rewrite (k_map _ _ _ Ok). split.
    + intros (x & (p & Hp & <- & Hl) & E). exists p. split; [by apply elem_live|done].
    + intros (p & Hp & E). apply elem_live in Hp as [Hp Hl]. exists (at_slot (buckets m) p). split; [by exists p|done].
  - intros p q e f Hp Hq Ep Eq E. apply elem_live in Hp as [Hp Hlp], Hq as [Hq Hlq].
    apply (a_once _ _ _ (k_arranged _ _ _ Ok)); try done.
    apply (k_keys _ _ _ Ok (at_slot (buckets m) p) (at_slot (buckets m) q) e f); [by exists p|by exists q|done..].
Qed.

(** ** Runs *)

(** A table of numbers that are their own hash. *)
Definition demo_new : CuckooMap Z Z := new_cuckoo (0, 0) 4 16.

Fixpoint demo_insert (keys : list Z) (m : CuckooMap Z Z) : option (CuckooMap Z Z) :=
  match keys with
  | [] => Some m
  | k :: keys => '(_, m) ← Insert id (0, 0) id 2 m k (10 * k); demo_insert keys m
  end.

Fixpoint demo_remove (keys : list Z) (m : CuckooMap Z Z) : option (CuckooMap Z Z) :=
  match keys with
  | [] => Some m
  | k :: keys => '(_, m) ← Remove id (0, 0) m k; demo_remove keys m
  end.

(** The keys that are not found after [MakeSpace], with paths of length [path], in
    bucket 0 of a table of four buckets of which the last is empty. *)
Definition demo_keys : list Z := [0; 12288; 12292; 12296; 8193; 4097; 12289; 12293; 4098; 12290; 12294; 12298].
Definition demo_found (path : nat) : option (list Z) :=
  m ← demo_insert demo_keys demo_new;
  '(_, m) ← MakeSpace id path m 0;
  Some (filter (fun k => Find id m k <> Some (Some (k, 10 * k))) demo_keys).

(** Three corners of the hash table.  The bound on the paths is not only one
    of speed: with [kMaxCuckooPath] = 5 an entry on a path that comes back to its
    bucket is moved to a bucket that is not its own, and is lost.  An entry in its
    secondary bucket is never moved back: [MakeSpace] gives up although its primary
    bucket is empty.  And nine keys with one hash are refused after the table has
    been enlarged twice. *)
Theorem cuckoo_corners :
  demo_found 3 = Some [] /\ demo_found 5 = Some [4098] /\
  (m ← demo_insert (map (fun i => 4 * i) (seqZ 0 8)) demo_new;
   m ← demo_remove (map (fun i => 4 * i) (seqZ 0 4)) m;
   '(i, _) ← MakeSpace id kMaxCuckooPath m 1; Some (i, FindEmptySlot (buckets m 0))) = Some (-1, 0) /\
  (m ← demo_insert (map (fun i => i * 2 ^ 32) (seqZ 0 9)) demo_new; Some (Count m, num_buckets m)) = Some (8, 16).
Proof. repeat split; vm_compute; reflexivity. Qed.

(** ** Witnesses *)

Lemma demo_new_ok : cuckoo_ok id demo_new ∅.
Proof. apply (new_ok id (0, 0) 4 16 2); [reflexivity|lia|lia]. Qed.

Lemma cuckoo_insert_witness : exists e m', Insert id (0, 0) (fun v => v) 1 demo_new 7 70 = Some (e, m') /\ e <> -1.
Proof.
  destruct (cuckoo_insert id (0, 0) 1 demo_new ∅ 7 70 demo_new_ok) as (_ & _ & Hr & _); [vm_compute; reflexivity|].
  destruct Hr as (e & m' & _ & Hc & Hi); [lia|reflexivity|]. assert (He : e <> -1) by (apply Hc; vm_compute; reflexivity).
  exists e, m'. split; [by apply Hi|exact He].
Defined.

Lemma cuckoo_emplace_returns_witness : exists e m',
  EmplaceEntry id (0, 0) demo_new (Hash id 7) (HashSecondary (Hash id 7)) 7 70 = Some (e, m').
Proof.
  destruct (cuckoo_emplace_returns id (0, 0) demo_new ∅ 7 70 demo_new_ok) as (e & m' & E & _);
    [reflexivity|vm_compute; reflexivity|]. exists e, m'. exact E.
Defined.

Lemma cuckoo_lookup_remove_witness : exists m' r m2,
  Insert id (0, 0) id 1 demo_new 7 70 = Some (0, m') /\ Find id m' 7 = Some (Some (7, 70)) /\
  Remove id (0, 0) m' 7 = Some (r, m2) /\ cuckoo_ok id m2 ∅.
Proof.
  destruct (Insert id (0, 0) id 1 demo_new 7 70) as [[e m']|] eqn:E; [|vm_compute in E; discriminate E].
  assert (He : e = 0) by (vm_compute in E; injection E as <- _; reflexivity). subst e.
  destruct (DoEmplace_ok id (0, 0) id ltac:(done) 1 demo_new ∅ 7 70 0 m' demo_new_ok ltac:(vm_compute; reflexivity) E)
    as [_ [(_ & Ok & _)|(Hbad & _)]]; [|discriminate Hbad].
  destruct (cuckoo_lookup_remove id (0, 0) m' _ 7 Ok) as (Ef & (m2 & Er & Ok2) & _).
  exists m', (bool_decide (is_Some ((<[7 := 70]> ∅ : gmap Z Z) !! 7))), m2. split; [reflexivity|]. split; [rewrite Ef; reflexivity|].
  split; [exact Er|]. rewrite delete_insert_eq, delete_empty in Ok2. exact Ok2.
Defined.
