(* ===== verification/Llring.v ===== *)
(** * The lock-free ring of [kmod/llring.h]

    A ring of a power-of-two number of cells with 32-bit heads and tails that run
    freely and wrap around.  This file is the code run by one thread at a time,
    for single and for multiple producers and consumers, and its refinement to a
    bounded queue; [LlringShared.v] interleaves threads.  [None] is an access
    outside an array or a wait that never ends. *)

From S2P Require Import Prelude.

Definition LLRING_ERR_NOBUF : Z := 1.
Definition LLRING_ERR_QUOT : Z := 2.
Definition LLRING_ERR_NOENT : Z := 3.
Definition LLRING_ERR_NOPOW2 : Z := 4.
Definition LLRING_ERR_INVAL : Z := 5.
Definition RING_QUOT_EXCEED : Z := 2 ^ 31.

Inductive llring_queue_behavior := LLRING_QUEUE_FIXED | LLRING_QUEUE_VARIABLE.

Record llring (A : Type) := Llring {
  r_slots : Z; r_mask : Z; sp_enqueue : bool; sc_dequeue : bool; watermark : Z;
  prod_head : Z; prod_tail : Z; cons_head : Z; cons_tail : Z;
  cells : list A
}.
Arguments Llring {A}.
Arguments r_slots {A}. Arguments r_mask {A}. Arguments sp_enqueue {A}. Arguments sc_dequeue {A}.
Arguments watermark {A}. Arguments prod_head {A}. Arguments prod_tail {A}. Arguments cons_head {A}.
Arguments cons_tail {A}. Arguments cells {A}.

(** [llring_bytes_with_slots]: the status, producer and consumer lines of 64 bytes
    each, as many of padding, and a pointer per slot; the result is an [int]. *)
Definition sizeof_llring : Z := 256.
Definition llring_bytes_with_slots (slots : Z) : Z := to_signed 32 (wrap 64 (sizeof_llring + 8 * slots)).

Section Ring.
Context {A : Type} (null : A).
Implicit Types (r : llring A) (objs ring : list A).

(** ** Initialisation *)

(** The memory has room for [slots] cells, which are zeroed. *)
Definition llring_init (slots : Z) (sp sc : bool) : Z * option (llring A) :=
  if negb (Z.land slots (wrap 32 (slots - 1)) =? 0) then (- LLRING_ERR_NOPOW2, None)
  else (0, Some (Llring slots (wrap 32 (slots - 1)) sp sc slots 0 0 0 0 (replicate (Z.to_nat slots) null))).

Definition llring_set_water_mark r (count : Z) : Z * llring A :=
  if r_slots r <=? count then (- LLRING_ERR_INVAL, r)
  else
    let count := if count =? 0 then r_slots r else count in
    (0, Llring (r_slots r) (r_mask r) (sp_enqueue r) (sc_dequeue r) count
          (prod_head r) (prod_tail r) (cons_head r) (cons_tail r) (cells r)).

Definition set_prod r (head tail : Z) ring : llring A :=
  Llring (r_slots r) (r_mask r) (sp_enqueue r) (sc_dequeue r) (watermark r) head tail (cons_head r) (cons_tail r) ring.
Definition set_cons r (head tail : Z) : llring A :=
  Llring (r_slots r) (r_mask r) (sp_enqueue r) (sc_dequeue r) (watermark r) (prod_head r) (prod_tail r) head tail (cells r).

(** ** Copying objects to and from the cells *)

Definition store ring (idx : Z) (x : A) : option (list A) :=
  if decide (0 <= idx < Z.of_nat (length ring)) then Some (<[Z.to_nat idx := x]> ring) else None.

Definition load ring (idx : Z) : option A := if decide (0 <= idx) then ring !! Z.to_nat idx else None.

(** [k] stores, [r->ring[idx++] = obj_table[i++]]. *)
Fixpoint put_run (k : nat) (i idx : Z) objs ring : option (list A) :=
  match k with
  | O => Some ring
  | S k => x ← load objs i; ring ← store ring idx x; put_run k (i + 1) (idx + 1) objs ring
  end.

(** The loop unrolled by four: [k] rounds. *)
Fixpoint put_fours (k : nat) (i idx : Z) objs ring : option (list A) :=
  match k with
  | O => Some ring
  | S k => ring ← put_run 4 i idx objs ring; put_fours k (i + 4) (idx + 4) objs ring
  end.

Definition LLRING_ENQUEUE_PTRS r (head n : Z) objs : option (list A) :=
  let slots := r_slots r in
  let idx := Z.land head (r_mask r) in
  if wrap 32 (idx + n) <? slots then
    let rounds := n / 4 in
    ring ← put_fours (Z.to_nat rounds) 0 idx objs (cells r);
    put_run (Z.to_nat (Z.land n 3)) (4 * rounds) (idx + 4 * rounds) objs ring
  else
    let i := slots - idx in
    ring ← put_run (Z.to_nat i) 0 idx objs (cells r);
    put_run (Z.to_nat (n - i)) i 0 objs ring.

(** [k] loads, [obj_table[i++] = r->ring[idx++]]: the table is what is loaded. *)
Fixpoint get_run (k : nat) (idx : Z) ring : option (list A) :=
  match k with
  | O => Some []
  | S k => x ← load ring idx; l ← get_run k (idx + 1) ring; Some (x :: l)
  end.

Fixpoint get_fours (k : nat) (idx : Z) ring : option (list A) :=
  match k with
  | O => Some []
  | S k => l4 ← get_run 4 idx ring; l ← get_fours k (idx + 4) ring; Some (l4 ++ l)
  end.

Definition LLRING_DEQUEUE_PTRS r (head n : Z) : option (list A) :=
  let slots := r_slots r in
  let idx := Z.land head (r_mask r) in
  if wrap 32 (idx + n) <? slots then
    let rounds := n / 4 in
    l ← get_fours (Z.to_nat rounds) idx (cells r);
    l' ← get_run (Z.to_nat (Z.land n 3)) (idx + 4 * rounds) (cells r);
    Some (l ++ l')
  else
    let i := slots - idx in
    l ← get_run (Z.to_nat i) idx (cells r);
    l' ← get_run (Z.to_nat (n - i)) 0 (cells r);
    Some (l ++ l').

(** ** What is decided from the head and the tail *)

Definition free_entries r (head tail : Z) : Z := wrap 32 (r_mask r + tail - head).
Definition used_entries (tail head : Z) : Z := wrap 32 (tail - head).

(** How many objects are moved, or what is returned when none is: [free] cells
    for [n] objects, or [n] objects wanted of [entries]. *)
Definition enqueue_room (n free : Z) (behavior : llring_queue_behavior) : Z + Z :=
  if free <? n then
    match behavior with
    | LLRING_QUEUE_FIXED => inl (- LLRING_ERR_NOBUF)
    | LLRING_QUEUE_VARIABLE => if free =? 0 then inl 0 else inr free
    end
  else inr n.

Definition dequeue_room (n entries : Z) (behavior : llring_queue_behavior) : Z + Z :=
  if entries <? n then
    match behavior with
    | LLRING_QUEUE_FIXED => inl (- LLRING_ERR_NOENT)
    | LLRING_QUEUE_VARIABLE => if entries =? 0 then inl 0 else inr entries
    end
  else inr n.

Definition enqueue_ret r (free n : Z) (behavior : llring_queue_behavior) : Z :=
  if watermark r <? wrap 32 (r_mask r + 1 - free + n) then
    match behavior with
    | LLRING_QUEUE_FIXED => - LLRING_ERR_QUOT
    | LLRING_QUEUE_VARIABLE => to_signed 32 (Z.lor n RING_QUOT_EXCEED)
    end
  else
    match behavior with LLRING_QUEUE_FIXED => 0 | LLRING_QUEUE_VARIABLE => n end.

Definition dequeue_ret (n : Z) (behavior : llring_queue_behavior) : Z :=
  match behavior with LLRING_QUEUE_FIXED => 0 | LLRING_QUEUE_VARIABLE => n end.

(** ** One producer, one consumer *)

Definition llring_sp_do_enqueue r objs (n : Z) (behavior : llring_queue_behavior) : option (Z * llring A) :=
  let head := prod_head r in
  let free := free_entries r head (cons_tail r) in
  match enqueue_room n free behavior with
  | inl ret => Some (ret, r)
  | inr n =>
      let prod_next := wrap 32 (head + n) in
      let r := set_prod r prod_next (prod_tail r) (cells r) in
      ring ← LLRING_ENQUEUE_PTRS r head n objs;
      Some (enqueue_ret r free n behavior, set_prod r prod_next prod_next ring)
  end.

Definition llring_sc_do_dequeue r (n : Z) (behavior : llring_queue_behavior) : option (Z * list A * llring A) :=
  let head := cons_head r in
  let entries := used_entries (prod_tail r) head in
  match dequeue_room n entries behavior with
  | inl ret => Some (ret, [], r)
  | inr n =>
      let cons_next := wrap 32 (head + n) in
      let r := set_cons r cons_next (cons_tail r) in
      objs ← LLRING_DEQUEUE_PTRS r head n;
      Some (dequeue_ret n behavior, objs, set_cons r cons_next cons_next)
  end.

(** ** Several producers, several consumers *)

(** [__sync_bool_compare_and_swap]. *)
Definition llring_atomic32_cmpset (dst exp src : Z) : bool * Z :=
  if dst =? exp then (true, src) else (false, dst).

Definition mp_reserve r (max : Z) (behavior : llring_queue_behavior) (_ : unit)
  : unit + (Z + (Z * Z * Z * llring A)) :=
  let head := prod_head r in
  let free := free_entries r head (cons_tail r) in
  match enqueue_room max free behavior with
  | inl ret => inr (inl ret)
  | inr n =>
      let '(success, head') := llring_atomic32_cmpset (prod_head r) head (wrap 32 (head + n)) in
      if success then inr (inr (head, free, n, set_prod r head' (prod_tail r) (cells r))) else inl tt
  end.

Definition llring_mp_do_enqueue r objs (n : Z) (behavior : llring_queue_behavior) : option (Z * llring A) :=
  match iter_until fuel64 (mp_reserve r n behavior) tt with
  | inl _ => None
  | inr (inl ret) => Some (ret, r)
  | inr (inr (head, free, n, r)) =>
      ring ← LLRING_ENQUEUE_PTRS r head n objs;
      let ret := enqueue_ret r free n behavior in
      if prod_tail r =? head then Some (ret, set_prod r (prod_head r) (wrap 32 (head + n)) ring) else None
  end.

Definition mc_reserve r (max : Z) (behavior : llring_queue_behavior) (_ : unit)
  : unit + (Z + (Z * Z * llring A)) :=
  let head := cons_head r in
  let entries := used_entries (prod_tail r) head in
  match dequeue_room max entries behavior with
  | inl ret => inr (inl ret)
  | inr n =>
      let '(success, head') := llring_atomic32_cmpset (cons_head r) head (wrap 32 (head + n)) in
      if success then inr (inr (head, n, set_cons r head' (cons_tail r))) else inl tt
  end.

Definition llring_mc_do_dequeue r (n : Z) (behavior : llring_queue_behavior) : option (Z * list A * llring A) :=
  match iter_until fuel64 (mc_reserve r n behavior) tt with
  | inl _ => None
  | inr (inl ret) => Some (ret, [], r)
  | inr (inr (head, n, r)) =>
      objs ← LLRING_DEQUEUE_PTRS r head n;
      if cons_tail r =? head then Some (dequeue_ret n behavior, objs, set_cons r (cons_head r) (wrap 32 (head + n)))
      else None
  end.

(** ** The entry points *)

Definition llring_mp_enqueue_bulk r objs n := llring_mp_do_enqueue r objs n LLRING_QUEUE_FIXED.
Definition llring_sp_enqueue_bulk r objs n := llring_sp_do_enqueue r objs n LLRING_QUEUE_FIXED.
Definition llring_enqueue_bulk r objs n :=
  if sp_enqueue r then llring_sp_enqueue_bulk r objs n else llring_mp_enqueue_bulk r objs n.
Definition llring_mp_enqueue r obj := llring_mp_enqueue_bulk r [obj] 1.
Definition llring_sp_enqueue r obj := llring_sp_enqueue_bulk r [obj] 1.
Definition llring_enqueue r obj := if sp_enqueue r then llring_sp_enqueue r obj else llring_mp_enqueue r obj.
Definition llring_mc_dequeue_bulk r n := llring_mc_do_dequeue r n LLRING_QUEUE_FIXED.
Definition llring_sc_dequeue_bulk r n := llring_sc_do_dequeue r n LLRING_QUEUE_FIXED.
Definition llring_dequeue_bulk r n :=
  if sc_dequeue r then llring_sc_dequeue_bulk r n else llring_mc_dequeue_bulk r n.
Definition llring_mc_dequeue r := llring_mc_dequeue_bulk r 1.
Definition llring_sc_dequeue r := llring_sc_dequeue_bulk r 1.
Definition llring_dequeue r := if sc_dequeue r then llring_sc_dequeue r else llring_mc_dequeue r.
Definition llring_mp_enqueue_burst r objs n := llring_mp_do_enqueue r objs n LLRING_QUEUE_VARIABLE.
Definition llring_sp_enqueue_burst r objs n := llring_sp_do_enqueue r objs n LLRING_QUEUE_VARIABLE.
Definition llring_enqueue_burst r objs n :=
  if sp_enqueue r then llring_sp_enqueue_burst r objs n else llring_mp_enqueue_burst r objs n.
Definition llring_mc_dequeue_burst r n := llring_mc_do_dequeue r n LLRING_QUEUE_VARIABLE.
Definition llring_sc_dequeue_burst r n := llring_sc_do_dequeue r n LLRING_QUEUE_VARIABLE.
Definition llring_dequeue_burst r n :=
  if sc_dequeue r then llring_sc_dequeue_burst r n else llring_mc_dequeue_burst r n.

Definition llring_full r : bool := Z.land (wrap 32 (cons_tail r - prod_tail r - 1)) (r_mask r) =? 0.
Definition llring_empty r : bool := cons_tail r =? prod_tail r.
Definition llring_count r : Z := Z.land (wrap 32 (prod_tail r - cons_tail r)) (r_mask r).
Definition llring_free_count r : Z := Z.land (wrap 32 (cons_tail r - prod_tail r - 1)) (r_mask r).

End Ring.

(** ** Specification: a bounded queue

    [fifo_enqueue cap wm Q objs n b] is the value returned and the queue after:
    all the [n] first objects, or none when the behaviour is fixed, or those for
    which there is room. *)

Definition fifo_enqueue {A} (cap wm : Z) (Q objs : list A) (n : Z) (behavior : llring_queue_behavior) : Z * list A :=
  let room := cap - Z.of_nat (length Q) in
  let m := Z.min n room in
  let above := wm <=? Z.of_nat (length Q) + m in
  match behavior with
  | LLRING_QUEUE_FIXED =>
      if room <? n then (- LLRING_ERR_NOBUF, Q)
      else (if above then - LLRING_ERR_QUOT else 0, Q ++ take (Z.to_nat n) objs)
  | LLRING_QUEUE_VARIABLE =>
      if (room <? n) && (room =? 0) then (0, Q)
      else (if above then to_signed 32 (Z.lor m RING_QUOT_EXCEED) else m, Q ++ take (Z.to_nat m) objs)
  end.

Definition fifo_dequeue {A} (Q : list A) (n : Z) (behavior : llring_queue_behavior) : Z * list A * list A :=
  let m := Z.min n (Z.of_nat (length Q)) in
  match behavior with
  | LLRING_QUEUE_FIXED =>
      if Z.of_nat (length Q) <? n then (- LLRING_ERR_NOENT, [], Q)
      else (0, take (Z.to_nat n) Q, drop (Z.to_nat n) Q)
  | LLRING_QUEUE_VARIABLE => (m, take (Z.to_nat m) Q, drop (Z.to_nat m) Q)
  end.

Section Proofs.
Context {A : Type}.
Implicit Types (r : llring A) (objs ring Q : list A).

(** ** The copies *)

Lemma store_ok ring idx x :
  0 <= idx < Z.of_nat (length ring) -> store ring idx x = Some (<[Z.to_nat idx := x]> ring).
Proof. intros. unfold store. by rewrite decide_True. Qed.

Lemma load_ok ring idx : 0 <= idx -> load ring idx = ring !! Z.to_nat idx.
Proof. intros. unfold load. by rewrite decide_True. Qed.

Lemma put_run_app a b i idx objs ring :
  put_run (a + b) i idx objs ring =
  put_run a i idx objs ring ≫= put_run b (i + Z.of_nat a) (idx + Z.of_nat a) objs.
Proof.
  revert i idx ring; induction a as [|a IH]; intros i idx ring.
  - simpl. by rewrite !Z.add_0_r.
  - cbn [Nat.add put_run]. destruct (load objs i) as [x|]; [|done]. cbn [mbind option_bind].
    destruct (store ring idx x) as [ring1|]; [|done]. cbn [mbind option_bind].
    rewrite IH. replace (i + 1 + Z.of_nat a) with (i + Z.of_nat (S a)) by lia.
    by replace (idx + 1 + Z.of_nat a) with (idx + Z.of_nat (S a)) by lia.
Qed.

Lemma put_fours_run k i idx objs ring : put_fours k i idx objs ring = put_run (4 * k) i idx objs ring.
Proof.
  revert i idx ring; induction k as [|k IH]; intros i idx ring; [done|].
  replace (4 * S k)%nat with (4 + 4 * k)%nat by lia. rewrite put_run_app. cbn [put_fours].
  destruct (put_run 4 i idx objs ring) as [ring1|]; [|done]. cbn [mbind option_bind]. apply IH.
Qed.

Lemma put_run_ok k i idx objs ring :
  0 <= i -> 0 <= idx -> i + Z.of_nat k <= Z.of_nat (length objs) -> idx + Z.of_nat k <= Z.of_nat (length ring) ->
  exists ring', put_run k i idx objs ring = Some ring' /\ length ring' = length ring /\
    forall j, 0 <= j ->
      ring' !! Z.to_nat j =
        if decide (idx <= j < idx + Z.of_nat k) then objs !! Z.to_nat (i + j - idx) else ring !! Z.to_nat j.
Proof.
  revert i idx ring; induction k as [|k IH]; intros i idx ring Hi Hx Ho Hr.
  - exists ring. split_and!; [done..|]. intros j Hj. by rewrite decide_False by lia.
  - cbn [put_run]. rewrite load_ok by done.
    destruct (lookup_lt_is_Some_2 objs (Z.to_nat i) ltac:(lia)) as (x & Ex). rewrite Ex. cbn [mbind option_bind].
    rewrite store_ok by lia. cbn [mbind option_bind].
    destruct (IH (i + 1) (idx + 1) (<[Z.to_nat idx := x]> ring)) as (ring' & -> & Hl & Hj); [lia|lia|lia| |].
    { rewrite length_insert. lia. }
    rewrite length_insert in Hl. exists ring'. split_and!; [done..|]. intros j Hj0. rewrite Hj by done.
    destruct (decide (j = idx)) as [->|Hne].
    + rewrite decide_False by lia. rewrite list_lookup_insert_eq by lia. rewrite decide_True by lia.
      by replace (i + idx - idx) with i by lia.
    + rewrite list_lookup_insert_ne by lia.
      destruct (decide (idx <= j < idx + Z.of_nat (S k))) as [Hin|Hin].
      * rewrite decide_True by lia. f_equal. lia.
      * by rewrite decide_False by lia.
Qed.

Lemma get_run_app a b idx ring :
  get_run (a + b) idx ring =
  (l ← get_run a idx ring; l' ← get_run b (idx + Z.of_nat a) ring; Some (l ++ l')).
Proof.
  revert idx; induction a as [|a IH]; intros idx.
  - simpl. rewrite Z.add_0_r. by destruct (get_run b idx ring).
  - cbn [Nat.add get_run]. destruct (load ring idx) as [x|]; [|done]. cbn [mbind option_bind].
    rewrite IH. replace (idx + 1 + Z.of_nat a) with (idx + Z.of_nat (S a)) by lia.
    destruct (get_run a (idx + 1) ring) as [l|]; [|done]. cbn [mbind option_bind].
    by destruct (get_run b (idx + Z.of_nat (S a)) ring).
Qed.

Lemma get_fours_run k idx ring : get_fours k idx ring = get_run (4 * k) idx ring.
Proof.
  revert idx; induction k as [|k IH]; intros idx; [done|].
  replace (4 * S k)%nat with (4 + 4 * k)%nat by lia. rewrite get_run_app. cbn [get_fours].
  destruct (get_run 4 idx ring) as [l|]; [|done]. cbn [mbind option_bind].
  replace (idx + Z.of_nat 4) with (idx + 4) by lia. by rewrite IH.
Qed.

Lemma get_run_ok k idx ring :
  0 <= idx -> idx + Z.of_nat k <= Z.of_nat (length ring) ->
  get_run k idx ring = Some (take k (drop (Z.to_nat idx) ring)).
Proof.
  revert idx; induction k as [|k IH]; intros idx Hx Hr; [done|].
  cbn [get_run]. rewrite load_ok by done.
  destruct (lookup_lt_is_Some_2 ring (Z.to_nat idx) ltac:(lia)) as (x & Ex). rewrite Ex. cbn [mbind option_bind].
  rewrite IH by lia. cbn [mbind option_bind].
  rewrite (drop_S ring x (Z.to_nat idx) Ex). by replace (Z.to_nat (idx + 1)) with (S (Z.to_nat idx)) by lia.
Qed.

(** ** A ring of [2^k] cells *)

Record ring_ok r (k : Z) : Prop := {
  ok_k : 0 <= k <= 31;
  ok_slots : r_slots r = 2 ^ k;
  ok_mask : r_mask r = 2 ^ k - 1;
  ok_cells : Z.of_nat (length (cells r)) = 2 ^ k
}.

Lemma ring_pow k : 0 <= k <= 31 -> 1 <= 2 ^ k <= 2 ^ 31.
Proof.
  intros. pose proof (pow2_pos k ltac:(lia)). pose proof (pow2_mono k 31 ltac:(lia)). lia.
Qed.

Lemma mod_shift m h t :
  0 < m -> 0 <= t < m ->
  (h + t) mod m = if decide (h mod m + t < m) then h mod m + t else h mod m + t - m.
Proof.
  intros Hm Ht. rewrite <- (Zplus_mod_idemp_l h t m). pose proof (Z.mod_pos_bound h m Hm).
  destruct (decide (h mod m + t < m)).
  - apply Z.mod_small. lia.
  - symmetry. apply (Z.mod_unique_pos _ _ 1); lia.
Qed.

(** The unrolled loops and the two halves of a copy that wraps around are one
    copy to consecutive cells, modulo their number. *)
Lemma enqueue_ptrs_ok r k head n objs :
  ring_ok r k -> 0 <= head -> 0 <= n < 2 ^ k -> n <= Z.of_nat (length objs) ->
  exists ring', LLRING_ENQUEUE_PTRS r head n objs = Some ring' /\ length ring' = length (cells r) /\
    forall t, 0 <= t < 2 ^ k ->
      ring' !! Z.to_nat ((head + t) mod 2 ^ k) =
        if decide (t < n) then objs !! Z.to_nat t else cells r !! Z.to_nat ((head + t) mod 2 ^ k).
Proof.
  intros [Hk Es Em El] Hh Hn Ho. pose proof (ring_pow k Hk) as Hp.
  unfold LLRING_ENQUEUE_PTRS. rewrite Es, Em, land_ones_mod by lia.
  pose proof (Z.mod_pos_bound head (2 ^ k) ltac:(lia)) as Hx. set (idx := head mod 2 ^ k) in *.
  rewrite wrap_small by lia. destruct (Z.ltb_spec (idx + n) (2 ^ k)) as [Hf|Hf].
  - replace (Z.land n 3) with (n mod 4) by (symmetry; apply (land_ones_mod n 2); lia).
    rewrite put_fours_run.
    assert (E : put_run (Z.to_nat n) 0 idx objs (cells r) =
                (ring ← put_run (4 * Z.to_nat (n / 4)) 0 idx objs (cells r);
                 put_run (Z.to_nat (n mod 4)) (4 * (n / 4)) (idx + 4 * (n / 4)) objs ring)).
    { replace (Z.to_nat n) with (4 * Z.to_nat (n / 4) + Z.to_nat (n mod 4))%nat by dlia.
      rewrite put_run_app. repeat f_equal; dlia. }
    rewrite <- E.
    destruct (put_run_ok (Z.to_nat n) 0 idx objs (cells r)) as (ring' & -> & Hl & Hj); [lia..|].
    exists ring'. split_and!; [done..|]. intros t Ht. rewrite Hj by (apply Z.mod_pos_bound; lia).
    rewrite mod_shift by lia. fold idx. repeat case_decide; try lia; f_equal; lia.
  - destruct (put_run_ok (Z.to_nat (2 ^ k - idx)) 0 idx objs (cells r)) as (ring1 & -> & Hl1 & Hj1); [lia..|].
    cbn [mbind option_bind].
    destruct (put_run_ok (Z.to_nat (n - (2 ^ k - idx))) (2 ^ k - idx) 0 objs ring1) as (ring' & -> & Hl & Hj); [lia..|].
    exists ring'. split_and!; [done|congruence|]. intros t Ht. rewrite Hj by (apply Z.mod_pos_bound; lia).
    rewrite Hj1 by (apply Z.mod_pos_bound; lia).
    rewrite mod_shift by lia. fold idx. repeat case_decide; try lia; f_equal; lia.
Qed.

Lemma dequeue_ptrs_ok r k head n :
  ring_ok r k -> 0 <= head -> 0 <= n < 2 ^ k ->
  exists l, LLRING_DEQUEUE_PTRS r head n = Some l /\ Z.of_nat (length l) = n /\
    forall t, 0 <= t < n -> l !! Z.to_nat t = cells r !! Z.to_nat ((head + t) mod 2 ^ k).
Proof.
  intros [Hk Es Em El] Hh Hn. pose proof (ring_pow k Hk) as Hp.
  unfold LLRING_DEQUEUE_PTRS. rewrite Es, Em, land_ones_mod by lia.
  pose proof (Z.mod_pos_bound head (2 ^ k) ltac:(lia)) as Hx. set (idx := head mod 2 ^ k) in *.
  rewrite wrap_small by lia. destruct (Z.ltb_spec (idx + n) (2 ^ k)) as [Hf|Hf].
  - replace (Z.land n 3) with (n mod 4) by (symmetry; apply (land_ones_mod n 2); lia).
    rewrite get_fours_run.
    assert (E : get_run (Z.to_nat n) idx (cells r) =
                (l ← get_run (4 * Z.to_nat (n / 4)) idx (cells r);
                 l' ← get_run (Z.to_nat (n mod 4)) (idx + 4 * (n / 4)) (cells r); Some (l ++ l'))).
    { replace (Z.to_nat n) with (4 * Z.to_nat (n / 4) + Z.to_nat (n mod 4))%nat by dlia.
      rewrite get_run_app. replace (Z.of_nat (4 * Z.to_nat (n / 4))) with (4 * (n / 4)) by dlia. done. }
    rewrite <- E. rewrite get_run_ok by lia. eexists. split; [done|].
    rewrite length_take, length_drop. split; [lia|]. intros t Ht.
    rewrite lookup_take_lt by lia. rewrite lookup_drop. f_equal.
    rewrite mod_shift by lia. fold idx. rewrite decide_True by lia. lia.
  - rewrite !get_run_ok by lia. cbn [mbind option_bind]. eexists. split; [done|].
    rewrite length_app, !length_take, !length_drop. split; [lia|]. intros t Ht.
    rewrite mod_shift by lia. fold idx. destruct (decide (idx + t < 2 ^ k)).
    + rewrite lookup_app_l by (rewrite length_take, length_drop; lia).
      rewrite lookup_take_lt by lia. rewrite lookup_drop. f_equal. lia.
    + rewrite lookup_app_r by (rewrite length_take, length_drop; lia).
      rewrite length_take, length_drop. rewrite lookup_take_lt by lia. rewrite lookup_drop. f_equal. lia.
Qed.

(** ** The ring at rest holds a queue *)

Record holds r (k : Z) Q : Prop := {
  h_ok : ring_ok r k;
  h_prod : prod_tail r = prod_head r;
  h_cons : cons_tail r = cons_head r;
  h_range : 0 <= cons_head r < 2 ^ 32;
  h_len : Z.of_nat (length Q) <= 2 ^ k - 1;
  h_head : prod_head r = wrap 32 (cons_head r + Z.of_nat (length Q));
  h_cells : forall i, 0 <= i < Z.of_nat (length Q) ->
    cells r !! Z.to_nat ((cons_head r + i) mod 2 ^ k) = Q !! Z.to_nat i
}.

(** The flags and the watermark do not change. *)
Definition same_config r r' : Prop :=
  sp_enqueue r' = sp_enqueue r /\ sc_dequeue r' = sc_dequeue r /\ watermark r' = watermark r.

Lemma mod_wrap k a b : 0 <= k <= 31 -> (wrap 32 a + b) mod 2 ^ k = (a + b) mod 2 ^ k.
Proof.
  intros Hk. unfold wrap. rewrite <- (Zplus_mod_idemp_l (a mod 2 ^ 32)), <- (Zplus_mod_idemp_l a). f_equal. f_equal.
  apply Z.mod_mod_divide, pow2_divide. lia.
Qed.

Lemma wrap_diff a n : 0 <= n < 2 ^ 32 -> wrap 32 (wrap 32 (a + n) - a) = n.
Proof.
  intros Hn. unfold wrap. rewrite Zminus_mod_idemp_l. rewrite <- (Z.mod_small n (2 ^ 32)) at 2 by lia. f_equal. lia.
Qed.

Lemma ring_free_ok r k Q : holds r k Q -> free_entries r (prod_head r) (cons_tail r) = 2 ^ k - 1 - Z.of_nat (length Q).
Proof.
  intros [[Hk Es Em El] Ep Ec Hr Hl Eh Hc]. pose proof (ring_pow k Hk).
  unfold free_entries. rewrite Em, Ec, Eh. unfold wrap. rewrite Zminus_mod_idemp_r.
  rewrite <- (Z.mod_small (2 ^ k - 1 - Z.of_nat (length Q)) (2 ^ 32)) by lia. f_equal. lia.
Qed.

Lemma ring_used_ok r k Q : holds r k Q -> used_entries (prod_tail r) (cons_head r) = Z.of_nat (length Q).
Proof.
  intros [[Hk Es Em El] Ep Ec Hr Hl Eh Hc]. pose proof (ring_pow k Hk).
  unfold used_entries. rewrite Ep, Eh. apply wrap_diff. lia.
Qed.

Lemma enqueue_moved r k Q objs m :
  holds r k Q -> 0 <= m <= Z.of_nat (length objs) -> m <= 2 ^ k - 1 - Z.of_nat (length Q) ->
  exists ring', LLRING_ENQUEUE_PTRS r (prod_head r) m objs = Some ring' /\
    let head' := wrap 32 (prod_head r + m) in
    holds (set_prod r head' head' ring') k (Q ++ take (Z.to_nat m) objs).
Proof.
  intros H Hm Hroom. pose proof H as [Ok Ep Ec Hr Hl Eh Hc]. pose proof Ok as [Hk Es Em El].
  pose proof (ring_pow k Hk).
  destruct (enqueue_ptrs_ok r k (prod_head r) m objs Ok) as (ring' & E & Hlen & Ht); [rewrite Eh; apply wrap_range; lia|lia..|].
  exists ring'. split; [done|]. intros head'.
  assert (Hl' : Z.of_nat (length (Q ++ take (Z.to_nat m) objs)) = Z.of_nat (length Q) + m).
  { rewrite length_app, length_take. lia. }
  split; cbn; try done.
  - constructor; cbn; [done..|congruence].
  - rewrite Hl'. lia.
  - rewrite Hl'. subst head'. rewrite Eh. unfold wrap. rewrite Zplus_mod_idemp_l. f_equal. lia.
  - intros i Hi. rewrite Hl' in Hi. destruct (decide (i < Z.of_nat (length Q))) as [Hlt|Hge].
    + rewrite lookup_app_l by lia. rewrite <- Hc by lia.
      replace ((cons_head r + i) mod 2 ^ k) with
        ((prod_head r + (i - Z.of_nat (length Q) + 2 ^ k)) mod 2 ^ k).
      { rewrite Ht by lia. by rewrite decide_False by lia. }
      rewrite Eh, mod_wrap by done.
      replace (cons_head r + Z.of_nat (length Q) + (i - Z.of_nat (length Q) + 2 ^ k)) with (cons_head r + i + 1 * 2 ^ k) by lia.
      apply Z.mod_add. lia.
    + rewrite lookup_app_r by lia. rewrite lookup_take_lt by lia.
      replace ((cons_head r + i) mod 2 ^ k) with ((prod_head r + (i - Z.of_nat (length Q))) mod 2 ^ k).
      { rewrite Ht by lia. rewrite decide_True by lia. f_equal. lia. }
      rewrite Eh, mod_wrap by done. f_equal. lia.
Qed.

Lemma dequeue_moved r k Q m :
  holds r k Q -> 0 <= m <= Z.of_nat (length Q) ->
  LLRING_DEQUEUE_PTRS r (cons_head r) m = Some (take (Z.to_nat m) Q) /\
  let head' := wrap 32 (cons_head r + m) in
  holds (set_cons r head' head') k (drop (Z.to_nat m) Q).
Proof.
  intros H Hm. pose proof H as [Ok Ep Ec Hr Hl Eh Hc]. pose proof Ok as [Hk Es Em El].
  pose proof (ring_pow k Hk).
  destruct (dequeue_ptrs_ok r k (cons_head r) m Ok) as (l & -> & Hlen & Ht); [lia..|].
  split.
  - f_equal. apply list_eq_same_length with (n := Z.to_nat m); [rewrite length_take; lia|lia|].
    intros i x y Hi Hx Hy. pose proof (Ht (Z.of_nat i) ltac:(lia)) as E. rewrite Nat2Z.id in E.
    rewrite E, Hc in Hx by lia. rewrite Nat2Z.id in Hx. rewrite lookup_take_lt in Hy by lia. congruence.
  - intros head'. assert (Hl' : Z.of_nat (length (drop (Z.to_nat m) Q)) = Z.of_nat (length Q) - m).
    { rewrite length_drop. lia. }
    assert (Hh : 0 <= head' < 2 ^ 32) by (apply wrap_range; lia).
    split; cbn; try done.
    + rewrite Hl'. lia.
    + rewrite Hl', Eh. subst head'. unfold wrap. rewrite Zplus_mod_idemp_l. f_equal. lia.
    + intros i Hi. rewrite Hl' in Hi. rewrite lookup_drop. subst head'. rewrite mod_wrap by done.
      rewrite <- Z.add_assoc, Hc by lia. f_equal. lia.
Qed.

(** ** The operations *)

Lemma enqueue_ret_ok r k Q m b :
  holds r k Q -> 0 <= m <= 2 ^ k - 1 - Z.of_nat (length Q) ->
  enqueue_ret r (2 ^ k - 1 - Z.of_nat (length Q)) m b =
  if watermark r <=? Z.of_nat (length Q) + m then
    match b with LLRING_QUEUE_FIXED => - LLRING_ERR_QUOT | LLRING_QUEUE_VARIABLE => to_signed 32 (Z.lor m RING_QUOT_EXCEED) end
  else match b with LLRING_QUEUE_FIXED => 0 | LLRING_QUEUE_VARIABLE => m end.
Proof.
  intros H Hm. pose proof (ok_mask _ _ (h_ok _ _ _ H)) as Em. pose proof (ring_pow k (ok_k _ _ (h_ok _ _ _ H))).
  unfold enqueue_ret. rewrite Em, wrap_small by lia.
  replace (2 ^ k - 1 + 1 - (2 ^ k - 1 - Z.of_nat (length Q)) + m) with (Z.of_nat (length Q) + m + 1) by lia.
  by destruct (Z.ltb_spec (watermark r) (Z.of_nat (length Q) + m + 1)), (Z.leb_spec (watermark r) (Z.of_nat (length Q) + m));
    try lia.
Qed.

Lemma sp_enqueue_holds r k Q objs n b :
  holds r k Q -> 0 <= n <= Z.of_nat (length objs) ->
  let spec := fifo_enqueue (2 ^ k - 1) (watermark r) Q objs n b in
  exists r', llring_sp_do_enqueue r objs n b = Some (spec.1, r') /\ holds r' k spec.2 /\ same_config r r'.
Proof.
  intros H Hn. unfold llring_sp_do_enqueue, enqueue_room, fifo_enqueue.
  assert (Moved : forall m, 0 <= m <= Z.of_nat (length objs) -> m <= 2 ^ k - 1 - Z.of_nat (length Q) ->
    exists r', (ring ← LLRING_ENQUEUE_PTRS r (prod_head r) m objs;
       Some (enqueue_ret r (free_entries r (prod_head r) (cons_tail r)) m b,
         set_prod r (wrap 32 (prod_head r + m)) (wrap 32 (prod_head r + m)) ring)) =
      Some (enqueue_ret r (free_entries r (prod_head r) (cons_tail r)) m b, r') /\
      holds r' k (Q ++ take (Z.to_nat m) objs) /\ same_config r r').
  { intros m Hm Hr. destruct (enqueue_moved r k Q objs m H Hm Hr) as (ring' & -> & H').
    eexists. split; [done|]. split; [exact H'|done]. }
  rewrite (ring_free_ok r k Q H) in *. pose proof (h_len _ _ _ H) as Hl.
  set (room := 2 ^ k - 1 - Z.of_nat (length Q)) in *.
  destruct (Z.ltb_spec room n) as [Hlt|Hge].
  - destruct b; [exists r; done|]. destruct (Z.eqb_spec room 0) as [E0|E0]; [exists r; done|].
    rewrite Z.min_r by lia. destruct (Moved room) as (r' & E & H' & S'); [lia..|].
    exists r'. split; [|done]. etrans; [exact E|]. do 2 f_equal.
    exact (enqueue_ret_ok r k Q room LLRING_QUEUE_VARIABLE H ltac:(lia)).
  - rewrite Z.min_l by lia. destruct (Moved n) as (r' & E & H' & S'); [lia..|].
    pose proof (enqueue_ret_ok r k Q n b H ltac:(lia)) as Er. fold room in Er.
    exists r'. destruct b; (split; [etrans; [exact E|by rewrite Er]|done]).
Qed.

Lemma mp_enqueue_alone r k Q objs n b :
  holds r k Q -> llring_mp_do_enqueue r objs n b = llring_sp_do_enqueue r objs n b.
Proof.
  intros H. unfold llring_mp_do_enqueue, llring_sp_do_enqueue.
  destruct (enqueue_room n (free_entries r (prod_head r) (cons_tail r)) b) as [ret|m] eqn:E.
  - by rewrite (iter_until_now _ _ _ (inl ret)) by (unfold mp_reserve; by rewrite E).
  - erewrite iter_until_now by (unfold mp_reserve, llring_atomic32_cmpset; rewrite E, Z.eqb_refl; done).
    cbn [prod_tail set_prod]. by rewrite (h_prod _ _ _ H), Z.eqb_refl.
Qed.

Lemma sc_dequeue_holds r k Q n b :
  holds r k Q -> 0 <= n ->
  let spec := fifo_dequeue Q n b in
  exists r', llring_sc_do_dequeue r n b = Some (spec.1, r') /\ holds r' k spec.2 /\ same_config r r'.
Proof.
  intros H Hn. unfold llring_sc_do_dequeue, dequeue_room, fifo_dequeue. rewrite (ring_used_ok r k Q H).
  assert (Moved : forall m, 0 <= m <= Z.of_nat (length Q) ->
    exists r', (objs ← LLRING_DEQUEUE_PTRS r (cons_head r) m;
       Some (dequeue_ret m b, objs, set_cons r (wrap 32 (cons_head r + m)) (wrap 32 (cons_head r + m)))) =
      Some (dequeue_ret m b, take (Z.to_nat m) Q, r') /\
      holds r' k (drop (Z.to_nat m) Q) /\ same_config r r').
  { intros m Hm. destruct (dequeue_moved r k Q m H Hm) as (-> & H').
    eexists. split; [done|]. split; [exact H'|done]. }
  destruct (Z.ltb_spec (Z.of_nat (length Q)) n) as [Hlt|Hge].
  - destruct b; [exists r; done|]. rewrite Z.min_r by lia.
    destruct (Z.eqb_spec (Z.of_nat (length Q)) 0) as [E0|E0].
    + rewrite E0. exists r. destruct Q; done.
    + destruct (Moved (Z.of_nat (length Q))) as (r' & E & H' & S'); [lia|]. by exists r'.
  - destruct (Moved n) as (r' & E & H' & S'); [lia|]. exists r'. rewrite Z.min_l by lia. by destruct b.
Qed.

Lemma mc_dequeue_alone r k Q n b :
  holds r k Q -> llring_mc_do_dequeue r n b = llring_sc_do_dequeue r n b.
Proof.
  intros H. unfold llring_mc_do_dequeue, llring_sc_do_dequeue.
  destruct (dequeue_room n (used_entries (prod_tail r) (cons_head r)) b) as [ret|m] eqn:E.
  - by rewrite (iter_until_now _ _ _ (inl ret)) by (unfold mc_reserve; by rewrite E).
  - erewrite iter_until_now by (unfold mc_reserve, llring_atomic32_cmpset; rewrite E, Z.eqb_refl; done).
    cbn [cons_tail set_cons]. by rewrite (h_cons _ _ _ H), Z.eqb_refl.
Qed.

Lemma counts_ok r k Q :
  holds r k Q ->
  llring_count r = Z.of_nat (length Q) /\ llring_free_count r = 2 ^ k - 1 - Z.of_nat (length Q) /\
  llring_full r = (Z.of_nat (length Q) =? 2 ^ k - 1) /\ llring_empty r = (Z.of_nat (length Q) =? 0).
Proof.
  intros H. pose proof H as [[Hk Es Em El] Ep Ec Hr Hl Eh Hc]. pose proof (ring_pow k Hk).
  assert (E1 : llring_count r = Z.of_nat (length Q)).
  { unfold llring_count. rewrite Em, land_ones_mod by lia. rewrite Ep, Eh, Ec, wrap_diff by lia. apply Z.mod_small. lia. }
  assert (E2 : llring_free_count r = 2 ^ k - 1 - Z.of_nat (length Q)).
  { unfold llring_free_count. rewrite Em, land_ones_mod by lia. rewrite Ep, Eh, Ec.
    rewrite <- (Z.add_0_r (wrap 32 _)), mod_wrap by done.
    replace (cons_head r - wrap 32 (cons_head r + Z.of_nat (length Q)) - 1 + 0) with
      (- wrap 32 (cons_head r + Z.of_nat (length Q)) + (cons_head r - 1)) by lia.
    rewrite <- Zplus_mod_idemp_l, <- Z.sub_0_l, <- (Zminus_mod_idemp_r 0), <- (Z.add_0_r (wrap 32 _)), mod_wrap by done.
    rewrite Zminus_mod_idemp_r, Zplus_mod_idemp_l.
    symmetry. apply (Z.mod_unique_pos _ _ (-1)); lia. }
  split_and!; [done..| |].
  - unfold llring_full. fold (llring_free_count r). rewrite E2.
    destruct (Z.eqb_spec (2 ^ k - 1 - Z.of_nat (length Q)) 0), (Z.eqb_spec (Z.of_nat (length Q)) (2 ^ k - 1)); lia.
  - unfold llring_empty. rewrite Ep, Eh, Ec.
    pose proof (wrap_diff (cons_head r) (Z.of_nat (length Q)) ltac:(lia)) as W.
    destruct (Z.eqb_spec (cons_head r) (wrap 32 (cons_head r + Z.of_nat (length Q)))) as [E|E].
    + rewrite <- E, Z.sub_diag in W. change (wrap 32 0) with 0 in W. symmetry. apply Z.eqb_eq. lia.
    + symmetry. apply Z.eqb_neq. intros E0. apply E. rewrite E0, Z.add_0_r. symmetry. by apply wrap_small.
Qed.

Lemma init_holds (null : A) k sp sc :
  0 <= k <= 31 ->
  exists r, llring_init null (2 ^ k) sp sc = (0, Some r) /\ holds r k [] /\
    sp_enqueue r = sp /\ sc_dequeue r = sc /\ watermark r = 2 ^ k.
Proof.
  intros Hk. pose proof (ring_pow k Hk). unfold llring_init.
  rewrite (wrap_small 32 (2 ^ k - 1)), land_ones_mod, Z.mod_same by lia. eexists. split; [done|].
  split; [|done]. split; cbn; try done; [|lia|lia].
  constructor; cbn; [done..|]. rewrite length_replicate. lia.
Qed.

(** ** What a client sees: one object at a time, on a ring without a watermark *)

Record ring_for r (k : Z) Q : Prop := {
  rf_holds : holds r k Q;
  rf_mark : watermark r = 2 ^ k
}.

Definition room_of (k : Z) Q : Z := 2 ^ k - 1 - Z.of_nat (length Q).

Lemma ring_count r k Q : ring_for r k Q -> llring_count r = Z.of_nat (length Q).
Proof. intros [H _]. apply (counts_ok r k Q H). Qed.

Lemma get_one r k Q :
  ring_for r k Q ->
  match Q with
  | [] => exists r', llring_sc_dequeue r = Some (- LLRING_ERR_NOENT, [], r')
  | p :: Q' => exists r', llring_sc_dequeue r = Some (0, [p], r') /\ ring_for r' k Q'
  end.
Proof.
  intros [H W]. unfold llring_sc_dequeue, llring_sc_dequeue_bulk.
  destruct (sc_dequeue_holds r k Q 1 LLRING_QUEUE_FIXED H ltac:(lia)) as (r' & E & H' & _ & _ & Hw).
  rewrite E. unfold fifo_dequeue in *. destruct Q as [|p Q]; simpl in *.
  - by exists r'.
  - exists r'. rewrite (proj2 (Z.ltb_ge _ _)) in * by lia. simpl in *. rewrite drop_0 in H'.
    split; [by rewrite take_0|]. split; [done|congruence].
Qed.

Lemma put_one r k Q p :
  ring_for r k Q ->
  if room_of k Q =? 0 then llring_sp_enqueue r p = Some (- LLRING_ERR_NOBUF, r)
  else exists r', llring_sp_enqueue r p = Some (0, r') /\ ring_for r' k (Q ++ [p]).
Proof.
  intros [H W]. unfold llring_sp_enqueue, llring_sp_enqueue_bulk. pose proof (h_len _ _ _ H) as Hl.
  destruct (Z.eqb_spec (room_of k Q) 0) as [E0|E0].
  - unfold llring_sp_do_enqueue. rewrite (ring_free_ok r k Q H). fold (room_of k Q). by rewrite E0.
  - destruct (sp_enqueue_holds r k Q [p] 1 LLRING_QUEUE_FIXED H ltac:(simpl; lia)) as (r' & E & H' & _ & _ & Hw).
    exists r'. rewrite E. unfold fifo_enqueue in *. fold (room_of k Q) in *.
    rewrite (proj2 (Z.ltb_ge _ _)) in * by (unfold room_of in *; lia). simpl in *. split.
    + rewrite (proj2 (Z.leb_gt _ _)); [done|]. rewrite W. unfold room_of in *. lia.
    + split; [done|congruence].
Qed.
End Proofs.

(** * What the operations do *)

(** The queue does not depend on the watermark, nor does the value returned on which
    side of exactly [wm] objects the quota is said to begin, as long as the queue does
    not end at [wm] objects. *)
Lemma fifo_watermark {A} cap wm (Q objs : list A) n b :
  Z.of_nat (length Q) <= cap -> 0 <= n <= Z.of_nat (length objs) ->
  let spec := fifo_enqueue cap (wm + 1) Q objs n b in
  (fifo_enqueue cap wm Q objs n b).2 = spec.2 /\
  (Z.of_nat (length spec.2) <> wm -> (fifo_enqueue cap wm Q objs n b).1 = spec.1).
Proof.
  intros Hl Hn. unfold fifo_enqueue. destruct b.
  - destruct (Z.ltb_spec (cap - Z.of_nat (length Q)) n); [done|]. cbn. split; [done|]. rewrite length_app, length_take.
    intros Hne. rewrite Z.min_l by lia. destruct (Z.leb_spec wm (Z.of_nat (length Q) + n)), (Z.leb_spec (wm + 1) (Z.of_nat (length Q) + n)); lia || done.
  - destruct (_ && _); [done|]. cbn. split; [done|]. rewrite length_app, length_take. set (m := Z.min n (cap - Z.of_nat (length Q))). intros Hne.
    destruct (Z.leb_spec wm (Z.of_nat (length Q) + m)), (Z.leb_spec (wm + 1) (Z.of_nat (length Q) + m)); lia || done.
Qed.

(** C25. On a ring of [2^k] cells that holds the queue [Q], run by one thread, the
    functions for one and for several producers and consumers are the operations
    of a queue bounded by [2^k - 1], and the counts
    are those of [Q]; heads and tails that wrap around make no difference.  The value
    an enqueue returns is the documented one, by which the quota begins above [watermark]
    objects, unless the call brings the queue to exactly [watermark] objects: about that case,
    in which the code and its documentation differ, nothing is said here
    ([quota_begins_early] shows what the code does). *)
Theorem llring_fifo {A} (r : llring A) k Q :
  holds r k Q ->
  (forall objs n b, 0 <= n <= Z.of_nat (length objs) ->
    let spec := fifo_enqueue (2 ^ k - 1) (watermark r + 1) Q objs n b in
    exists ret r', llring_sp_do_enqueue r objs n b = Some (ret, r') /\
      llring_mp_do_enqueue r objs n b = Some (ret, r') /\ holds r' k spec.2 /\ same_config r r' /\
      (Z.of_nat (length spec.2) <> watermark r -> ret = spec.1)) /\
  (forall n b, 0 <= n ->
    let spec := fifo_dequeue Q n b in
    exists r', llring_sc_do_dequeue r n b = Some (spec.1, r') /\
      llring_mc_do_dequeue r n b = Some (spec.1, r') /\ holds r' k spec.2 /\ same_config r r') /\
  llring_count r = Z.of_nat (length Q) /\ llring_free_count r = 2 ^ k - 1 - Z.of_nat (length Q) /\
  llring_full r = (Z.of_nat (length Q) =? 2 ^ k - 1) /\ llring_empty r = (Z.of_nat (length Q) =? 0).
Proof.
  intros H. split; [|split; [|by apply (counts_ok r k)]].
  - intros objs n b Hn spec. destruct (sp_enqueue_holds r k Q objs n b H Hn) as (r' & E & H' & S').
    destruct (fifo_watermark (2 ^ k - 1) (watermark r) Q objs n b (h_len _ _ _ H) Hn) as [E2 E1]. rewrite E2 in H'.
    eexists _, r'. split; [exact E|]. split; [by rewrite (mp_enqueue_alone r k Q)|done].
  - intros n b Hn spec. destruct (sc_dequeue_holds r k Q n b H Hn) as (r' & E & H' & S').
    exists r'. split; [exact E|]. split; [|done]. by rewrite (mc_dequeue_alone r k Q).
Qed.

(** The heads are about to wrap around, and so are the cells. *)
Definition wrapping : llring Z :=
  Llring 4 3 true true 4 (2 ^ 32 - 1) (2 ^ 32 - 1) (2 ^ 32 - 2) (2 ^ 32 - 2) [0; 0; 7; 0].

Lemma wrapping_holds : holds wrapping 2 [7].
Proof.
  split; [by constructor|done|done|cbn; lia|cbn; lia|done|]. intros i Hi. simpl in Hi. by replace i with 0 by lia.
Qed.

Lemma llring_fifo_witness :
  (exists r', llring_enqueue_burst wrapping [8; 9; 10] 3 = Some (2, r') /\ holds r' 2 [7; 8; 9]) /\
  (exists r', llring_dequeue wrapping = Some (0, [7], r') /\ holds r' 2 []).
Proof.
  destruct (llring_fifo wrapping 2 [7] wrapping_holds) as (He & Hd & _). split.
  - destruct (He [8; 9; 10] 3 LLRING_QUEUE_VARIABLE ltac:(simpl; lia)) as (ret & r' & E & _ & H & _ & Er). exists r'. rewrite Er in E by done. split; [exact E|exact H].
  - destruct (Hd 1 LLRING_QUEUE_FIXED ltac:(lia)) as (r' & E & _ & H & _). exists r'. split; [exact E|exact H].
Defined.

(** A call that brings the ring to exactly [watermark] objects is told that it exceeds the
    quota, against the documentation. *)
Lemma quota_begins_early {A} (r : llring A) k Q objs :
  holds r k Q -> Z.of_nat (length Q) + Z.of_nat (length objs) = watermark r -> watermark r <= 2 ^ k - 1 ->
  exists r', llring_sp_do_enqueue r objs (Z.of_nat (length objs)) LLRING_QUEUE_FIXED = Some (- LLRING_ERR_QUOT, r').
Proof.
  intros H E Hw. destruct (sp_enqueue_holds r k Q objs (Z.of_nat (length objs)) LLRING_QUEUE_FIXED H ltac:(lia)) as (r' & Er & _).
  exists r'. rewrite Er. unfold fifo_enqueue. rewrite (proj2 (Z.ltb_ge _ _)), (proj2 (Z.leb_le _ _)) by lia. done.
Qed.

(** A ring of no cells passes for a power of two, and the first object is stored
    outside its memory; a watermark is reached by one object less than its
    documentation says: the call that brings the ring to [watermark] objects, and
    not above, is told that it exceeds the quota. *)
Lemma llring_corners :
  (exists r, llring_init 0 0 true true = (0, Some r) /\ llring_enqueue r 5 = None) /\
  (forall r, snd (llring_init 0 4 true true) = Some r ->
    fst <$> llring_enqueue_bulk (snd (llring_set_water_mark r 2)) [5; 6] 2 = Some (- LLRING_ERR_QUOT)).
Proof.
  split.
  - eexists. split; [reflexivity|]. vm_compute. reflexivity.
  - intros r [= <-]. vm_compute. reflexivity.
Qed.
