(* ===== verification/LlringShared.v ===== *)
(** * The ring of [kmod/llring.h] shared by threads

    Threads enqueue and dequeue on one ring at the same time.  A step is one
    access to shared memory: a read of a head or of a tail, a compare-and-swap of
    a head, a store to or a load from a cell, the store of a tail.  Accesses take
    effect in the order of the steps, as the volatile heads and tails and the
    compiler barriers intend on x86.  Each rule names the lines it stands for.

    [issued] and [claimed] count the objects for which cells have been reserved;
    the program has no such counters, which do not wrap: they serve to say when a
    thread was suspended for so long that 32-bit heads come back to the same
    value. *)

From S2P Require Import Prelude Llring.

(** What a thread is about to do.  The values read so far are kept: [head] and
    [free] or [n]; [seen] is [issued] or [claimed] when [head] was read. *)
Inductive pc (A : Type) :=
  | Idle
  | EStart (objs : list A) (b : llring_queue_behavior)
  | EHead (objs : list A) (b : llring_queue_behavior) (head seen : Z)
  | ECas (objs : list A) (b : llring_queue_behavior) (head seen n free : Z)
  | EWrite (objs : list A) (b : llring_queue_behavior) (head seen n free i : Z)
  | DStart (max : Z) (b : llring_queue_behavior)
  | DHead (max : Z) (b : llring_queue_behavior) (head seen : Z)
  | DCas (max : Z) (b : llring_queue_behavior) (head seen n : Z)
  | DRead (b : llring_queue_behavior) (head seen n : Z) (acc : list A).
Arguments Idle {A}. Arguments EStart {A}. Arguments EHead {A}. Arguments ECas {A}. Arguments EWrite {A}.
Arguments DStart {A}. Arguments DHead {A}. Arguments DCas {A}. Arguments DRead {A}.

Inductive event (A : Type) :=
  | Tau
  | Enqueued (ret : Z) (l : list A)
  | Dequeued (ret : Z) (l : list A).
Arguments Tau {A}. Arguments Enqueued {A}. Arguments Dequeued {A}.

Record sys (A : Type) := Sys { rg : llring A; threads : nat -> pc A; issued : Z; claimed : Z }.
Arguments Sys {A}. Arguments rg {A}. Arguments threads {A}. Arguments issued {A}. Arguments claimed {A}.

Section Shared.
Context {A : Type}.
Implicit Types (s : sys A) (r : llring A) (objs : list A) (p : pc A) (b : llring_queue_behavior).

Definition at_pc s (i : nat) p : sys A := Sys (rg s) (<[i := p]> (threads s)) (issued s) (claimed s).

Definition producing p : bool :=
  match p with EStart _ _ | EHead _ _ _ _ | ECas _ _ _ _ _ _ | EWrite _ _ _ _ _ _ _ => true | _ => false end.
Definition consuming p : bool :=
  match p with DStart _ _ | DHead _ _ _ _ | DCas _ _ _ _ _ | DRead _ _ _ _ _ => true | _ => false end.

(** The cell of the [i]th object of a copy that starts at [head]. *)
Definition cell_of r (head i : Z) : Z := Z.land (wrap 32 (head + i)) (r_mask r).

(** A thread may only start to enqueue on a ring set up for one producer when no
    other thread is enqueuing; the same for consumers. *)
Inductive step : sys A -> event A -> sys A -> Prop :=
  | enq_start s i objs b :
      threads s i = Idle ->
      (sp_enqueue (rg s) = true -> forall j, producing (threads s j) = false) ->
      step s Tau (at_pc s i (EStart objs b))
  | enq_read_head s i objs b :
      threads s i = EStart objs b ->
      step s Tau (at_pc s i (EHead objs b (prod_head (rg s)) (issued s)))
  | enq_refuse s i objs b head seen ret :
      threads s i = EHead objs b head seen ->
      enqueue_room (Z.of_nat (length objs)) (free_entries (rg s) head (cons_tail (rg s))) b = inl ret ->
      step s (Enqueued ret []) (at_pc s i Idle)
  | enq_read_tail s i objs b head seen n :
      threads s i = EHead objs b head seen ->
      let free := free_entries (rg s) head (cons_tail (rg s)) in
      enqueue_room (Z.of_nat (length objs)) free b = inr n ->
      step s Tau (at_pc s i (ECas objs b head seen n free))
  | enq_reserve s i objs b head seen n free :
      threads s i = ECas objs b head seen n free ->
      (sp_enqueue (rg s) = true \/ prod_head (rg s) = head) ->
      step s Tau (Sys (set_prod (rg s) (wrap 32 (head + n)) (prod_tail (rg s)) (cells (rg s)))
                    (<[i := EWrite objs b head seen n free 0]> (threads s)) (issued s + n) (claimed s))
  | enq_retry s i objs b head seen n free :
      threads s i = ECas objs b head seen n free ->
      sp_enqueue (rg s) = false -> prod_head (rg s) <> head ->
      step s Tau (at_pc s i (EStart objs b))
  | enq_write s i objs b head seen n free j x ring :
      threads s i = EWrite objs b head seen n free j -> j < n ->
      load objs j = Some x -> store (cells (rg s)) (cell_of (rg s) head j) x = Some ring ->
      step s Tau (Sys (set_prod (rg s) (prod_head (rg s)) (prod_tail (rg s)) ring)
                    (<[i := EWrite objs b head seen n free (j + 1)]> (threads s)) (issued s) (claimed s))
  | enq_commit s i objs b head seen n free :
      threads s i = EWrite objs b head seen n free n ->
      (sp_enqueue (rg s) = true \/ prod_tail (rg s) = head) ->
      step s (Enqueued (enqueue_ret (rg s) free n b) (take (Z.to_nat n) objs))
        (Sys (set_prod (rg s) (prod_head (rg s)) (wrap 32 (head + n)) (cells (rg s)))
           (<[i := Idle]> (threads s)) (issued s) (claimed s))
  | deq_start s i max b :
      threads s i = Idle ->
      (sc_dequeue (rg s) = true -> forall j, consuming (threads s j) = false) ->
      step s Tau (at_pc s i (DStart max b))
  | deq_read_head s i max b :
      threads s i = DStart max b ->
      step s Tau (at_pc s i (DHead max b (cons_head (rg s)) (claimed s)))
  | deq_refuse s i max b head seen ret :
      threads s i = DHead max b head seen ->
      dequeue_room max (used_entries (prod_tail (rg s)) head) b = inl ret ->
      step s (Dequeued ret []) (at_pc s i Idle)
  | deq_read_tail s i max b head seen n :
      threads s i = DHead max b head seen ->
      dequeue_room max (used_entries (prod_tail (rg s)) head) b = inr n ->
      step s Tau (at_pc s i (DCas max b head seen n))
  | deq_reserve s i max b head seen n :
      threads s i = DCas max b head seen n ->
      (sc_dequeue (rg s) = true \/ cons_head (rg s) = head) ->
      step s Tau (Sys (set_cons (rg s) (wrap 32 (head + n)) (cons_tail (rg s)))
                    (<[i := DRead b head seen n []]> (threads s)) (issued s) (claimed s + n))
  | deq_retry s i max b head seen n :
      threads s i = DCas max b head seen n ->
      sc_dequeue (rg s) = false -> cons_head (rg s) <> head ->
      step s Tau (at_pc s i (DStart max b))
  | deq_read s i b head seen n acc x :
      threads s i = DRead b head seen n acc -> Z.of_nat (length acc) < n ->
      load (cells (rg s)) (cell_of (rg s) head (Z.of_nat (length acc))) = Some x ->
      step s Tau (at_pc s i (DRead b head seen n (acc ++ [x])))
  | deq_commit s i b head seen n acc :
      threads s i = DRead b head seen n acc -> Z.of_nat (length acc) = n ->
      (sc_dequeue (rg s) = true \/ cons_tail (rg s) = head) ->
      step s (Dequeued (dequeue_ret n b) acc)
        (Sys (set_cons (rg s) (cons_head (rg s)) (wrap 32 (head + n)))
           (<[i := Idle]> (threads s)) (issued s) (claimed s)).

(** Every call moves at least one object, and no thread that has read a head was
    suspended while [2^32] objects went by. *)
Definition timely_pc s p : Prop :=
  match p with
  | EStart objs _ => objs <> []
  | EHead objs _ _ seen | ECas objs _ _ seen _ _ => objs <> [] /\ issued s - seen < 2 ^ 32
  | DStart max _ => 0 < max
  | DHead max _ _ seen | DCas max _ _ seen _ => 0 < max /\ claimed s - seen < 2 ^ 32
  | _ => True
  end.
Definition timely s : Prop := forall i, timely_pc s (threads s i).

(** Runs from [s0] through states that satisfy [ok], newest event first. *)
Inductive run (ok : sys A -> Prop) (s0 : sys A) : list (event A) -> sys A -> Prop :=
  | run_nil : run ok s0 [] s0
  | run_cons tr s e s' : run ok s0 tr s -> step s e s' -> ok s' -> run ok s0 (e :: tr) s'.

(** Thread [i] is in a call and can go on. *)
Definition goes_on s (i : nat) : Prop :=
  threads s i <> Idle /\ exists e s', step s e s' /\ threads s' i <> threads s i.

(** The objects enqueued and dequeued, in the order in which the calls ended. *)
Definition enqueued (tr : list (event A)) : list A :=
  concat (omap (fun e => match e with Enqueued _ l => Some l | _ => None end) (reverse tr)).
Definition dequeued (tr : list (event A)) : list A :=
  concat (omap (fun e => match e with Dequeued _ l => Some l | _ => None end) (reverse tr)).

End Shared.

(** ** One producer, one consumer

    When a ring is set up for one producer, only one thread enqueues, its head is
    the current one, and nothing is reserved when nobody enqueues. *)

Section Alone.
Context {A : Type} (act : pc A -> bool) (here : Z -> Z -> pc A -> Prop).
Hypothesis here_inactive : forall hd tl p, act p = false -> here hd tl p.
Implicit Types (thr : nat -> pc A).

Definition alone (on : bool) (hd tl : Z) thr : Prop :=
  on = true ->
  (forall i j, act (thr i) = true -> act (thr j) = true -> i = j) /\
  (forall i, here hd tl (thr i)) /\
  ((forall i, act (thr i) = false) -> tl = hd).

Lemma alone_update on hd tl hd' tl' thr i p :
  alone on hd tl thr ->
  (act p = true -> act (thr i) = true \/ (on = true -> forall j, act (thr j) = false)) ->
  (on = true -> here hd tl (thr i) -> ((forall j, act (thr j) = false) -> tl = hd) ->
    here hd' tl' p /\ (act p = false -> act (thr i) = true -> tl' = hd')) ->
  act (thr i) = true \/ (hd' = hd /\ tl' = tl) ->
  alone on hd' tl' (<[i := p]> thr).
Proof.
  intros H H1 H2 H3 On. destruct (H On) as (Hu & Hh & Hn). destruct (H2 On (Hh i) Hn) as (Hp & Hend).
  assert (Oth : forall j, j <> i -> act (thr j) = true -> act p = true \/ act (thr i) = true -> False).
  { intros j Hj Ha [Hb|Hb]; [destruct (H1 Hb) as [Hc|Hc]|].
    - apply Hj. by apply Hu.
    - by rewrite (Hc On) in Ha.
    - apply Hj. by apply Hu. }
  split_and!.
  - intros j j' Hj Hj'. destruct (decide (j = i)) as [->|Hne], (decide (j' = i)) as [->|Hne']; [done| | |].
    + rewrite fn_insert_eq in Hj. rewrite fn_insert_ne in Hj' by done. destruct (Oth j'); auto.
    + rewrite fn_insert_eq in Hj'. rewrite fn_insert_ne in Hj by done. destruct (Oth j); auto.
    + rewrite fn_insert_ne in Hj, Hj' by done. by apply Hu.
  - intros j. destruct (decide (j = i)) as [->|Hne]; [by rewrite fn_insert_eq|].
    rewrite fn_insert_ne by done. destruct (act (thr j)) eqn:Ea; [|by apply here_inactive].
    destruct H3 as [Hi|[-> ->]]; [destruct (Oth j Hne Ea); auto|apply Hh].
  - intros Hall. pose proof (Hall i) as Hi. rewrite fn_insert_eq in Hi.
    destruct (act (thr i)) eqn:Ea; [by apply Hend|].
    destruct H3 as [Hc|[-> ->]]; [done|]. apply Hn. intros j.
    destruct (decide (j = i)) as [->|Hne]; [done|]. specialize (Hall j). by rewrite fn_insert_ne in Hall.
Qed.

End Alone.

Section Inv.
Context {A : Type}.
Implicit Types (s : sys A) (r : llring A) (objs log : list A) (p q : pc A) (b : llring_queue_behavior).

Definition prod_here (hd tl : Z) p : Prop :=
  match p with
  | EStart _ _ => tl = hd
  | EHead _ _ _ seen | ECas _ _ _ seen _ _ => seen = hd /\ tl = hd
  | EWrite _ _ _ seen n _ _ => seen = tl /\ seen + n = hd
  | _ => True
  end.
Definition cons_here (hd tl : Z) p : Prop :=
  match p with
  | DStart _ _ => tl = hd
  | DHead _ _ _ seen | DCas _ _ _ seen _ => seen = hd /\ tl = hd
  | DRead _ _ seen n _ => seen = tl /\ seen + n = hd
  | _ => True
  end.

(** ** The invariant

    [log] holds every object for which a cell was reserved, in order of
    reservation: the [t]th is the object with ticket [t].  Tickets below [PT] are
    published and those below [CT] released. *)

Definition pc_ok (k : Z) (cl : list A) log (I C PT CT : Z) p : Prop :=
  match p with
  | Idle | EStart _ _ | DStart _ _ => True
  | EHead _ _ head seen => head = wrap 32 seen /\ 0 <= seen <= I
  | ECas objs _ head seen n free =>
      head = wrap 32 seen /\ 0 <= seen <= I /\ 0 < n <= Z.of_nat (length objs) /\
      (seen = I -> n <= CT + (2 ^ k - 1) - I)
  | EWrite objs _ head seen n free i =>
      head = wrap 32 seen /\ PT <= seen /\ seen + n <= I /\ 0 < n <= Z.of_nat (length objs) /\ 0 <= i <= n /\
      (forall j, 0 <= j < n -> log !! Z.to_nat (seen + j) = objs !! Z.to_nat j) /\
      (forall j, 0 <= j < i -> cl !! Z.to_nat ((seen + j) mod 2 ^ k) = objs !! Z.to_nat j)
  | DHead _ _ head seen => head = wrap 32 seen /\ 0 <= seen <= C
  | DCas _ _ head seen n => head = wrap 32 seen /\ 0 <= seen <= C /\ 0 < n /\ (seen = C -> n <= PT - C)
  | DRead _ head seen n acc =>
      head = wrap 32 seen /\ CT <= seen /\ seen + n <= C /\ 0 < n /\ Z.of_nat (length acc) <= n /\
      (forall j, 0 <= j < Z.of_nat (length acc) -> acc !! Z.to_nat j = log !! Z.to_nat (seen + j))
  end.

Definition apart p q : Prop :=
  match p, q with
  | EWrite _ _ _ seen n _ _, EWrite _ _ _ seen' n' _ _ => seen + n <= seen' \/ seen' + n' <= seen
  | DRead _ _ seen n _, DRead _ _ seen' n' _ => seen + n <= seen' \/ seen' + n' <= seen
  | _, _ => True
  end.

(** The tickets a thread is writing, and those it is reading. *)
Definition writes p (t : Z) : Prop :=
  match p with EWrite _ _ _ seen n _ _ => seen <= t < seen + n | _ => False end.
Definition reads p (t : Z) : Prop :=
  match p with DRead _ _ seen n _ => seen <= t < seen + n | _ => False end.

Record inv (k : Z) s (tr : list (event A)) log (PT CT : Z) : Prop := {
  i_ring : ring_ok (rg s) k;
  i_ph : prod_head (rg s) = wrap 32 (issued s);
  i_pt : prod_tail (rg s) = wrap 32 PT;
  i_ch : cons_head (rg s) = wrap 32 (claimed s);
  i_ct : cons_tail (rg s) = wrap 32 CT;
  i_order : 0 <= CT <= claimed s /\ claimed s <= PT <= issued s /\ issued s <= CT + (2 ^ k - 1);
  i_log : Z.of_nat (length log) = issued s;
  i_enq : enqueued tr = take (Z.to_nat PT) log;
  i_deq : dequeued tr = take (Z.to_nat CT) log;
  i_cells : forall t, CT <= t < PT -> cells (rg s) !! Z.to_nat (t mod 2 ^ k) = log !! Z.to_nat t;
  i_thread : forall i, pc_ok k (cells (rg s)) log (issued s) (claimed s) PT CT (threads s i);
  i_apart : forall i j, i <> j -> apart (threads s i) (threads s j);
  i_writers : forall t, PT <= t < issued s -> exists i, writes (threads s i) t;
  i_readers : forall t, CT <= t < claimed s -> exists i, reads (threads s i) t;
  i_sp : alone producing prod_here (sp_enqueue (rg s)) (issued s) PT (threads s);
  i_sc : alone consuming cons_here (sc_dequeue (rg s)) (claimed s) CT (threads s)
}.

Lemma apart_sym p q : apart p q -> apart q p.
Proof. destruct p, q; simpl; tauto. Qed.

Lemma pc_ok_mono k cl cl' log log' I I' C C' PT PT' CT CT' p :
  pc_ok k cl log I C PT CT p ->
  I <= I' -> C <= C' -> PT <= PT' -> CT <= CT' ->
  Z.of_nat (length log) = I -> C <= I -> log `prefix_of` log' ->
  match p with
  | EWrite _ _ _ seen _ _ i =>
      PT' <= seen /\ forall j, 0 <= j < i ->
        cl' !! Z.to_nat ((seen + j) mod 2 ^ k) = cl !! Z.to_nat ((seen + j) mod 2 ^ k)
  | DRead _ _ seen _ _ => CT' <= seen
  | _ => True
  end ->
  0 <= CT -> 0 <= PT ->
  pc_ok k cl' log' I' C' PT' CT' p.
Proof.
  intros H HI HC HP HT Hl HCI Hpre Hp HCT HPT.
  assert (Ext : forall t, 0 <= t < I -> log' !! Z.to_nat t = log !! Z.to_nat t).
  { intros t Ht. destruct (lookup_lt_is_Some_2 log (Z.to_nat t) ltac:(lia)) as (x & Ex).
    rewrite Ex. by eapply prefix_lookup_Some. }
  destruct p; simpl in *; try done.
  - lia.
  - destruct H as (-> & Hs & Hn & Hf). split_and!; [done|lia..|]. intros ->. lia.
  - destruct H as (-> & Hs & Hn & Hn' & Hi & Hlog & Hcl), Hp as [Hp1 Hp2]. split_and!; [done|lia..| |].
    + intros j Hj. rewrite Ext by lia. by apply Hlog.
    + intros j Hj. rewrite Hp2 by done. by apply Hcl.
  - lia.
  - destruct H as (-> & Hs & Hn & Hf). split_and!; [done|lia..].
  - destruct H as (-> & Hs & Hn & Hn' & Ha & Hlog). split_and!; [done|lia..|].
    intros j Hj. rewrite Ext by lia. by apply Hlog.
Qed.

Lemma insert_all (P : pc A -> Prop) (thr : nat -> pc A) i p :
  (forall j, j <> i -> P (thr j)) -> P p -> forall j, P (<[i := p]> thr j).
Proof.
  intros Hj Hp j. destruct (decide (j = i)) as [->|]; [by rewrite fn_insert_eq|].
  rewrite fn_insert_ne by done. by apply Hj.
Qed.

Lemma insert_keep (P : pc A -> Prop) (thr : nat -> pc A) i p j :
  P (thr j) -> (P (thr i) -> P p) -> P (<[i := p]> thr j).
Proof.
  intros Hj Hp. destruct (decide (j = i)) as [->|]; [by rewrite fn_insert_eq; apply Hp|by rewrite fn_insert_ne].
Qed.

Lemma insert_new (P : pc A -> Prop) (thr : nat -> pc A) i p :
  P p -> exists j, P (<[i := p]> thr j).
Proof. intros Hp. exists i. by rewrite fn_insert_eq. Qed.

(** Every reserved ticket stays with some thread. *)
Lemma cover_other (P : pc A -> Z -> Prop) (thr : nat -> pc A) i p lo hi :
  (forall t, lo <= t < hi -> exists j, P (thr j) t) ->
  (forall t, P (thr i) t -> P p t) ->
  forall t, lo <= t < hi -> exists j, P (<[i := p]> thr j) t.
Proof.
  intros H Hp t Ht. destruct (H t Ht) as (j & Hj). exists j. apply (insert_keep (fun p => P p t)); auto.
Qed.

Lemma cover_release (P : pc A -> Z -> Prop) (thr : nat -> pc A) i p lo mid hi :
  (forall t, lo <= t < hi -> exists j, P (thr j) t) -> lo <= mid ->
  (forall t, P (thr i) t -> t < mid) ->
  forall t, mid <= t < hi -> exists j, P (<[i := p]> thr j) t.
Proof.
  intros H Hm Hi t Ht. destruct (H t ltac:(lia)) as (j & Hj). exists j. apply (insert_keep (fun p => P p t)); auto.
  intros Hc. apply Hi in Hc. lia.
Qed.

Lemma apart_update (thr : nat -> pc A) i p :
  (forall i j, i <> j -> apart (thr i) (thr j)) -> (forall j, j <> i -> apart p (thr j)) ->
  forall j j', j <> j' -> apart (<[i := p]> thr j) (<[i := p]> thr j').
Proof.
  intros H Hp j j' Hne. destruct (decide (j = i)) as [->|Hj], (decide (j' = i)) as [->|Hj']; [done| | |].
  - rewrite fn_insert_eq, fn_insert_ne by done. by apply Hp.
  - rewrite fn_insert_eq, fn_insert_ne by done. apply apart_sym. by apply Hp.
  - rewrite !fn_insert_ne by done. by apply H.
Qed.

Lemma enqueued_cons e (tr : list (event A)) :
  enqueued (e :: tr) = enqueued tr ++ match e with Enqueued _ l => l | _ => [] end.
Proof.
  unfold enqueued. rewrite reverse_cons, omap_app, concat_app. f_equal. destruct e; simpl; [done| |done].
  by rewrite app_nil_r.
Qed.

Lemma dequeued_cons e (tr : list (event A)) :
  dequeued (e :: tr) = dequeued tr ++ match e with Dequeued _ l => l | _ => [] end.
Proof.
  unfold dequeued. rewrite reverse_cons, omap_app, concat_app. f_equal. destruct e; simpl; [done|done|].
  by rewrite app_nil_r.
Qed.

Definition quiet (e : event A) : Prop := match e with Enqueued _ l | Dequeued _ l => l = [] | Tau => True end.

Lemma quiet_cons e (tr : list (event A)) :
  quiet e -> enqueued (e :: tr) = enqueued tr /\ dequeued (e :: tr) = dequeued tr.
Proof.
  intros He. rewrite enqueued_cons, dequeued_cons.
  destruct e; simpl in He; subst; by rewrite !app_nil_r.
Qed.

Lemma prod_here_inactive hd tl p : producing p = false -> prod_here hd tl p.
Proof. by destruct p. Qed.
Lemma cons_here_inactive hd tl p : consuming p = false -> cons_here hd tl p.
Proof. by destruct p. Qed.

(** A step that only changes what a thread is about to do. *)
Lemma inv_at k s tr e log PT CT i p :
  inv k s tr log PT CT -> quiet e ->
  pc_ok k (cells (rg s)) log (issued s) (claimed s) PT CT p ->
  (forall q, apart (threads s i) q -> apart p q) ->
  (forall t, writes (threads s i) t -> writes p t) -> (forall t, reads (threads s i) t -> reads p t) ->
  (producing p = true -> producing (threads s i) = true \/ (sp_enqueue (rg s) = true -> forall j, producing (threads s j) = false)) ->
  (sp_enqueue (rg s) = true -> prod_here (issued s) PT (threads s i) ->
   ((forall j, producing (threads s j) = false) -> PT = issued s) ->
    prod_here (issued s) PT p /\ (producing p = false -> producing (threads s i) = true -> PT = issued s)) ->
  (consuming p = true -> consuming (threads s i) = true \/ (sc_dequeue (rg s) = true -> forall j, consuming (threads s j) = false)) ->
  (sc_dequeue (rg s) = true -> cons_here (claimed s) CT (threads s i) ->
   ((forall j, consuming (threads s j) = false) -> CT = claimed s) ->
    cons_here (claimed s) CT p /\ (consuming p = false -> consuming (threads s i) = true -> CT = claimed s)) ->
  inv k (at_pc s i p) (e :: tr) log PT CT.
Proof.
  intros [] He Hp Hap Hw Hd P1 P2 C1 C2. destruct (quiet_cons e tr He) as [E1 E2].
  split; cbn [at_pc rg threads issued claimed]; rewrite ?E1, ?E2; try done.
  - apply insert_all; auto.
  - apply apart_update; auto.
  - by apply cover_other.
  - by apply cover_other.
  - apply (alone_update _ _ prod_here_inactive _ (issued s) PT); auto.
  - apply (alone_update _ _ cons_here_inactive _ (claimed s) CT); auto.
Qed.

Ltac at_step E :=
  apply inv_at; rewrite ?E; cbn [producing consuming quiet prod_here cons_here apart pc_ok];
  [done|done|try done|done || tauto|done || tauto|done || tauto|intros; intuition congruence..].

Lemma enqueue_room_some n free b m :
  enqueue_room n free b = inr m -> 0 < n -> 0 <= free -> 0 < m <= n /\ m <= free.
Proof.
  unfold enqueue_room. destruct (Z.ltb_spec free n); [destruct b; [done|]; destruct (Z.eqb_spec free 0); [done|]|];
    intros [= <-]; lia.
Qed.

Lemma dequeue_room_some n entries b m :
  dequeue_room n entries b = inr m -> 0 < n -> 0 <= entries -> 0 < m <= n /\ m <= entries.
Proof.
  unfold dequeue_room. destruct (Z.ltb_spec entries n); [destruct b; [done|]; destruct (Z.eqb_spec entries 0); [done|]|];
    intros [= <-]; lia.
Qed.

Lemma wrap_sub_small a c n : wrap 32 (a - c) = wrap 32 n -> 0 <= n < 2 ^ 32 -> wrap 32 (wrap 32 a - wrap 32 c) = n.
Proof.
  intros E Hn. unfold wrap in *. rewrite Zminus_mod_idemp_l, Zminus_mod_idemp_r, E. by apply Z.mod_small.
Qed.

Lemma free_at k s tr log PT CT :
  inv k s tr log PT CT -> free_entries (rg s) (wrap 32 (issued s)) (cons_tail (rg s)) = CT + (2 ^ k - 1) - issued s.
Proof.
  intros H. pose proof (i_order _ _ _ _ _ _ H). pose proof (i_ring _ _ _ _ _ _ H) as Hr.
  pose proof (ring_pow k (ok_k _ _ Hr)). unfold free_entries. rewrite (ok_mask _ _ Hr), (i_ct _ _ _ _ _ _ H).
  replace (2 ^ k - 1 + wrap 32 CT - wrap 32 (issued s)) with (wrap 32 CT + (2 ^ k - 1 - wrap 32 (issued s))) by lia.
  unfold wrap at 1 2. rewrite Zplus_mod_idemp_l.
  replace (CT + (2 ^ k - 1 - wrap 32 (issued s))) with (CT + (2 ^ k - 1) - wrap 32 (issued s)) by lia.
  unfold wrap. rewrite Zminus_mod_idemp_r. apply Z.mod_small. lia.
Qed.

Lemma used_at k s tr log PT CT :
  inv k s tr log PT CT -> used_entries (prod_tail (rg s)) (wrap 32 (claimed s)) = PT - claimed s.
Proof.
  intros H. pose proof (i_order _ _ _ _ _ _ H). pose proof (i_ring _ _ _ _ _ _ H) as Hr.
  pose proof (ring_pow k (ok_k _ _ Hr)). unfold used_entries. rewrite (i_pt _ _ _ _ _ _ H).
  apply wrap_sub_small; [done|lia].
Qed.

Lemma mod_near m a c : 0 < m -> - m < a - c < m -> a mod m = c mod m -> a = c.
Proof.
  intros Hm Hd E. pose proof (Z.div_mod a m ltac:(lia)). pose proof (Z.div_mod c m ltac:(lia)).
  assert (a / m - c / m = 0) by nia. nia.
Qed.

Lemma wrap_add a n : wrap 32 (wrap 32 a + n) = wrap 32 (a + n).
Proof. unfold wrap. by rewrite Zplus_mod_idemp_l. Qed.

(** Two counters less than [2^32] apart with the same 32-bit value are equal. *)
Lemma wrap_inj a c : wrap 32 a = wrap 32 c -> 0 <= a - c < 2 ^ 32 -> a = c.
Proof. unfold wrap. intros. dlia. Qed.

Lemma alone_other (act : pc A -> bool) here on hd tl thr i p :
  (forall hd tl p, act p = false -> here hd tl p) ->
  alone act here on hd tl thr -> act (thr i) = false -> act p = false -> alone act here on hd tl (<[i := p]> thr).
Proof.
  intros Hin H Ei Ep. apply (alone_update act here Hin on hd tl); [done|congruence| |by right].
  intros. split; [by apply Hin|congruence].
Qed.

Lemma inv_reserve k s tr log PT CT i objs b head seen n free :
  inv k s tr log PT CT -> timely s -> threads s i = ECas objs b head seen n free ->
  (sp_enqueue (rg s) = true \/ prod_head (rg s) = head) ->
  inv k (Sys (set_prod (rg s) (wrap 32 (head + n)) (prod_tail (rg s)) (cells (rg s)))
           (<[i := EWrite objs b head seen n free 0]> (threads s)) (issued s + n) (claimed s))
    (Tau :: tr) (log ++ take (Z.to_nat n) objs) PT CT.
Proof.
  intros H Ts E G. pose proof (Ts i) as Ti. rewrite E in Ti. destruct Ti as [_ Ti].
  pose proof (i_thread _ _ _ _ _ _ H i) as Hp. rewrite E in Hp. destruct Hp as (Eh & Hs & Hn & Hf).
  assert (Es : seen = issued s).
  { destruct G as [G|G].
    - destruct (i_sp _ _ _ _ _ _ H G) as (_ & Hh & _). specialize (Hh i). rewrite E in Hh. by destruct Hh.
    - rewrite (i_ph _ _ _ _ _ _ H), Eh in G. symmetry. apply (wrap_inj _ _ G). lia. }
  specialize (Hf Es). pose proof (i_order _ _ _ _ _ _ H) as Ho. pose proof (i_log _ _ _ _ _ _ H) as Hl.
  assert (Hpre : log `prefix_of` log ++ take (Z.to_nat n) objs) by by apply prefix_app_r.
  pose proof (length_take objs (Z.to_nat n)) as Ht.
  destruct H. split; cbn [rg threads issued claimed]; rewrite ?enqueued_cons, ?dequeued_cons, ?app_nil_r;
    try done.
  - by destruct i_ring0.
  - cbn. by rewrite Eh, Es, wrap_add.
  - lia.
  - rewrite length_app. lia.
  - rewrite take_app_le by lia. done.
  - rewrite take_app_le by lia. done.
  - intros t Htt. rewrite lookup_app_l by lia. by apply i_cells0.
  - apply insert_all.
    + intros j Hj. apply (pc_ok_mono k (cells (rg s)) _ log _ (issued s) _ (claimed s) _ PT _ CT); [by apply i_thread0|lia..|done| |lia|lia].
      specialize (i_thread0 j). destruct (threads s j); try done; simpl in i_thread0; intuition lia.
    + simpl. subst seen. split_and!; [done|lia..| |lia].
      intros j Hj. rewrite lookup_app_r by lia. rewrite lookup_take_lt by lia. f_equal. lia.
  - apply apart_update; [done|]. intros j Hj. specialize (i_thread0 j).
    destruct (threads s j); try done; simpl in *. right. lia.
  - intros t Htt. destruct (decide (t < issued s)) as [Hlt|Hge].
    + by apply (cover_other writes _ _ _ PT (issued s)); [|rewrite E|lia].
    + apply (insert_new (fun p => writes p t)). simpl. lia.
  - by apply cover_other; [|rewrite E].
  - apply (alone_update _ _ prod_here_inactive _ (issued s) PT); [done|rewrite E; auto| |rewrite E; by left].
    rewrite E. intros _ [E1 E2] _. split; [simpl; lia|done].
  - apply alone_other; [apply cons_here_inactive|done|by rewrite E|done].
Qed.

Lemma inv_write k s tr log PT CT i objs b head seen n free j x ring :
  inv k s tr log PT CT -> threads s i = EWrite objs b head seen n free j -> j < n ->
  load objs j = Some x -> store (cells (rg s)) (cell_of (rg s) head j) x = Some ring ->
  inv k (Sys (set_prod (rg s) (prod_head (rg s)) (prod_tail (rg s)) ring)
           (<[i := EWrite objs b head seen n free (j + 1)]> (threads s)) (issued s) (claimed s))
    (Tau :: tr) log PT CT.
Proof.
  intros H E Hj Hx Hst. pose proof (i_thread _ _ _ _ _ _ H i) as Hp. rewrite E in Hp.
  destruct Hp as (Eh & Hs & Hsn & Hn & Hj0 & Hlog & Hcl).
  pose proof (i_order _ _ _ _ _ _ H) as Ho. pose proof (i_ring _ _ _ _ _ _ H) as Hr.
  pose proof (ring_pow k (ok_k _ _ Hr)) as Hk.
  assert (Ec : cell_of (rg s) head j = (seen + j) mod 2 ^ k).
  { unfold cell_of. destruct Hr as [Hkk _ Em _]. rewrite Em, land_ones_mod by lia.
    rewrite <- (Z.add_0_r (wrap 32 (head + j))), mod_wrap, Z.add_0_r by done. rewrite Eh. by apply mod_wrap. }
  rewrite Ec in Hst. unfold store in Hst. destruct (decide _) as [Hrange|]; [|done]. injection Hst as <-.
  assert (Keep : forall t, CT <= t < issued s -> t <> seen + j ->
    <[Z.to_nat ((seen + j) mod 2 ^ k) := x]> (cells (rg s)) !! Z.to_nat (t mod 2 ^ k) = cells (rg s) !! Z.to_nat (t mod 2 ^ k)).
  { intros t Ht Hne. apply list_lookup_insert_ne. intros Em.
    pose proof (Z.mod_pos_bound t (2 ^ k) ltac:(lia)). apply Z2Nat.inj in Em; [|lia..].
    apply Hne. apply (mod_near (2 ^ k)); [lia|lia|by symmetry]. }
  destruct H. split; cbn [rg threads issued claimed]; rewrite ?enqueued_cons, ?dequeued_cons, ?app_nil_r;
    try done.
  - destruct Hr. constructor; cbn; try done. by rewrite length_insert.
  - intros t Ht. cbn. rewrite Keep by lia. by apply i_cells0.
  - apply insert_all.
    + intros j' Hj'. apply (pc_ok_mono k (cells (rg s)) _ log _ (issued s) _ (claimed s) _ PT _ CT); [by apply i_thread0|lia..|done| |lia|lia].
      specialize (i_thread0 j'). specialize (i_apart0 i j' ltac:(done)). rewrite E in i_apart0.
      destruct (threads s j'); try done; simpl in *; [|lia]. split; [lia|].
      intros t Ht. apply Keep; lia.
    + simpl. split_and!; [done|lia..|done|]. intros t Ht. destruct (decide (t = j)) as [->|Hne].
      * rewrite list_lookup_insert_eq by lia. rewrite load_ok in Hx by lia. done.
      * rewrite Keep by lia. apply Hcl. lia.
  - apply apart_update; [done|]. intros j' Hj'. specialize (i_apart0 i j' ltac:(done)). by rewrite E in i_apart0.
  - by apply cover_other; [|rewrite E].
  - by apply cover_other; [|rewrite E].
  - apply (alone_update _ _ prod_here_inactive _ (issued s) PT); [done|rewrite E; auto| |rewrite E; by left].
    rewrite E. intros _ E1 _. by split.
  - apply alone_other; [apply cons_here_inactive|done|by rewrite E|done].
Qed.

Lemma take_slice (l l' : list A) (a n : Z) :
  0 <= a -> 0 <= n -> (forall j, 0 <= j < n -> l !! Z.to_nat (a + j) = l' !! Z.to_nat j) ->
  take (Z.to_nat (a + n)) l = take (Z.to_nat a) l ++ take (Z.to_nat n) l'.
Proof.
  intros Ha Hn H. replace (Z.to_nat (a + n)) with (Z.to_nat a + Z.to_nat n)%nat by lia.
  rewrite <- take_take_drop. f_equal. apply list_eq. intros j.
  destruct (decide (j < Z.to_nat n)%nat) as [Hj|Hj].
  - rewrite !lookup_take_lt, lookup_drop by done. specialize (H (Z.of_nat j) ltac:(lia)).
    rewrite Nat2Z.id in H. rewrite <- H. f_equal. lia.
  - by rewrite !lookup_take_ge by lia.
Qed.

Lemma inv_commit k s tr log PT CT i objs b head seen n free ret :
  inv k s tr log PT CT -> threads s i = EWrite objs b head seen n free n ->
  (sp_enqueue (rg s) = true \/ prod_tail (rg s) = head) ->
  inv k (Sys (set_prod (rg s) (prod_head (rg s)) (wrap 32 (head + n)) (cells (rg s)))
           (<[i := Idle]> (threads s)) (issued s) (claimed s))
    (Enqueued ret (take (Z.to_nat n) objs) :: tr) log (seen + n) CT.
Proof.
  intros H E G. pose proof (i_thread _ _ _ _ _ _ H i) as Hp. rewrite E in Hp.
  destruct Hp as (Eh & Hs & Hsn & Hn & Hj0 & Hlog & Hcl).
  pose proof (i_order _ _ _ _ _ _ H) as Ho. pose proof (ring_pow k (ok_k _ _ (i_ring _ _ _ _ _ _ H))) as Hk.
  assert (Es : seen = PT).
  { destruct G as [G|G].
    - destruct (i_sp _ _ _ _ _ _ H G) as (_ & Hh & _). specialize (Hh i). rewrite E in Hh. by destruct Hh.
    - rewrite (i_pt _ _ _ _ _ _ H), Eh in G. apply wrap_inj; [done|lia]. }
  subst seen.
  destruct H. split; cbn [rg threads issued claimed]; rewrite ?enqueued_cons, ?dequeued_cons, ?app_nil_r;
    try done.
  - by destruct i_ring0.
  - cbn. by rewrite Eh, wrap_add.
  - lia.
  - rewrite i_enq0. symmetry. apply take_slice; [lia..|done].
  - intros t Ht. cbn. destruct (decide (t < PT)) as [Hlt|Hge]; [apply i_cells0; lia|].
    replace t with (PT + (t - PT)) by lia. rewrite Hcl by lia. symmetry. apply Hlog. lia.
  - apply insert_all; [|done]. intros j' Hj'.
    apply (pc_ok_mono k (cells (rg s)) _ log _ (issued s) _ (claimed s) _ PT _ CT); [by apply i_thread0|lia..|done| |lia|lia].
    specialize (i_thread0 j'). specialize (i_apart0 i j' ltac:(done)). rewrite E in i_apart0.
    destruct (threads s j'); try done; simpl in *; [|lia]. split; [lia|done].
  - by apply apart_update.
  - apply (cover_release writes _ _ _ PT); [done|lia|]. rewrite E. simpl. lia.
  - by apply cover_other; [|rewrite E].
  - apply (alone_update _ _ prod_here_inactive _ (issued s) PT); [done|done| |rewrite E; by left].
    rewrite E. intros _ [_ E1] _. by split.
  - apply alone_other; [apply cons_here_inactive|done|by rewrite E|done].
Qed.

Lemma inv_claim k s tr log PT CT i max b head seen n :
  inv k s tr log PT CT -> timely s -> threads s i = DCas max b head seen n ->
  (sc_dequeue (rg s) = true \/ cons_head (rg s) = head) ->
  inv k (Sys (set_cons (rg s) (wrap 32 (head + n)) (cons_tail (rg s)))
           (<[i := DRead b head seen n []]> (threads s)) (issued s) (claimed s + n))
    (Tau :: tr) log PT CT.
Proof.
  intros H Ts E G. pose proof (Ts i) as Ti. rewrite E in Ti. destruct Ti as [_ Ti].
  pose proof (i_thread _ _ _ _ _ _ H i) as Hp. rewrite E in Hp. destruct Hp as (Eh & Hs & Hn & Hf).
  assert (Es : seen = claimed s).
  { destruct G as [G|G].
    - destruct (i_sc _ _ _ _ _ _ H G) as (_ & Hh & _). specialize (Hh i). rewrite E in Hh. by destruct Hh.
    - rewrite (i_ch _ _ _ _ _ _ H), Eh in G. symmetry. apply (wrap_inj _ _ G). lia. }
  specialize (Hf Es). pose proof (i_order _ _ _ _ _ _ H) as Ho. pose proof (i_log _ _ _ _ _ _ H) as Hl.
  destruct H. split; cbn [rg threads issued claimed]; rewrite ?enqueued_cons, ?dequeued_cons, ?app_nil_r;
    try done.
  - by destruct i_ring0.
  - cbn. by rewrite Eh, Es, wrap_add.
  - lia.
  - apply insert_all.
    + intros j Hj. apply (pc_ok_mono k (cells (rg s)) _ log _ (issued s) _ (claimed s) _ PT _ CT); [by apply i_thread0|lia..|done| |lia|lia].
      specialize (i_thread0 j). destruct (threads s j); try done; simpl in i_thread0; intuition lia.
    + simpl. subst seen. split_and!; [done|lia..|]. intros j Hj. lia.
  - apply apart_update; [done|]. intros j Hj. specialize (i_thread0 j).
    destruct (threads s j); try done; simpl in *. right. lia.
  - by apply cover_other; [|rewrite E].
  - intros t Ht. destruct (decide (t < claimed s)) as [Hlt|Hge].
    + by apply (cover_other reads _ _ _ CT (claimed s)); [|rewrite E|lia].
    + apply (insert_new (fun p => reads p t)). simpl. lia.
  - apply alone_other; [apply prod_here_inactive|done|by rewrite E|done].
  - apply (alone_update _ _ cons_here_inactive _ (claimed s) CT); [done|rewrite E; auto| |rewrite E; by left].
    rewrite E. intros _ [E1 E2] _. split; [simpl; lia|done].
Qed.

Lemma inv_release k s tr log PT CT i b head seen n acc ret :
  inv k s tr log PT CT -> threads s i = DRead b head seen n acc -> Z.of_nat (length acc) = n ->
  (sc_dequeue (rg s) = true \/ cons_tail (rg s) = head) ->
  inv k (Sys (set_cons (rg s) (cons_head (rg s)) (wrap 32 (head + n)))
           (<[i := Idle]> (threads s)) (issued s) (claimed s))
    (Dequeued ret acc :: tr) log PT (seen + n).
Proof.
  intros H E Ha G. pose proof (i_thread _ _ _ _ _ _ H i) as Hp. rewrite E in Hp.
  destruct Hp as (Eh & Hs & Hsn & Hn & Hl & Hacc).
  pose proof (i_order _ _ _ _ _ _ H) as Ho. pose proof (ring_pow k (ok_k _ _ (i_ring _ _ _ _ _ _ H))) as Hk.
  assert (Es : seen = CT).
  { destruct G as [G|G].
    - destruct (i_sc _ _ _ _ _ _ H G) as (_ & Hh & _). specialize (Hh i). rewrite E in Hh. by destruct Hh.
    - rewrite (i_ct _ _ _ _ _ _ H), Eh in G. apply wrap_inj; [done|lia]. }
  subst seen.
  destruct H. split; cbn [rg threads issued claimed]; rewrite ?enqueued_cons, ?dequeued_cons, ?app_nil_r;
    try done.
  - by destruct i_ring0.
  - cbn. by rewrite Eh, wrap_add.
  - lia.
  - rewrite i_deq0. rewrite (take_slice log acc) by (first [lia|intros j Hj; symmetry; apply Hacc; lia]).
    f_equal. symmetry. apply take_ge. lia.
  - intros t Ht. apply i_cells0. lia.
  - apply insert_all; [|done]. intros j' Hj'.
    apply (pc_ok_mono k (cells (rg s)) _ log _ (issued s) _ (claimed s) _ PT _ CT); [by apply i_thread0|lia..|done| |lia|lia].
    specialize (i_thread0 j'). specialize (i_apart0 i j' ltac:(done)). rewrite E in i_apart0.
    destruct (threads s j'); try done; simpl in *; [|lia]. split; [lia|done].
  - by apply apart_update.
  - by apply cover_other; [|rewrite E].
  - apply (cover_release reads _ _ _ CT); [done|lia|]. rewrite E. simpl. lia.
  - apply alone_other; [apply prod_here_inactive|done|by rewrite E|done].
  - apply (alone_update _ _ cons_here_inactive _ (claimed s) CT); [done|done| |rewrite E; by left].
    rewrite E. intros _ [_ E1] _. by split.
Qed.

Lemma step_inv k s e s' tr log PT CT :
  inv k s tr log PT CT -> timely s -> timely s' -> step s e s' ->
  exists log' PT' CT', inv k s' (e :: tr) log' PT' CT'.
Proof.
  intros H Ts Ts' St.
  pose proof (i_order _ _ _ _ _ _ H) as Ho. pose proof (i_ring _ _ _ _ _ _ H) as Hr.
  pose proof (ring_pow k (ok_k _ _ Hr)) as Hk.
  assert (Ok : forall i, pc_ok k (cells (rg s)) log (issued s) (claimed s) PT CT (threads s i)) by apply H.
  destruct St as [s i objs b E G|s i objs b E|s i objs b head seen ret E Er|s i objs b head seen n E free Er
    |s i objs b head seen n free E G|s i objs b head seen n free E Ef G|s i objs b head seen n free j x ring E Hj Hx Hst
    |s i objs b head seen n free E G|s i max b E G|s i max b E|s i max b head seen ret E Er
    |s i max b head seen n E Er|s i max b head seen n E G|s i max b head seen n E Ef G
    |s i b head seen n acc x E Ha Hx|s i b head seen n acc E Ha G];
    specialize (Ok i); rewrite E in Ok; simpl in Ok;
    lazymatch goal with
    | |- context [EWrite objs b head seen n free 0] => eexists _, PT, CT; by apply inv_reserve
    | |- context [EWrite objs b head seen n free (_ + 1)] => exists log, PT, CT; by eapply inv_write
    | |- context [enqueue_ret] => exists log, (seen + n), CT; by eapply inv_commit
    | |- context [DRead b head seen n []] => exists log, PT, CT; by eapply inv_claim
    | |- context [dequeue_ret] => exists log, PT, (seen + n); by eapply inv_release
    | _ => exists log, PT, CT
    end.
  - at_step E.
  - at_step E. pose proof (i_ph _ _ _ _ _ _ H). lia.
  - at_step E.
  - at_step E. specialize (Ts' i). cbn in Ts'. rewrite fn_insert_eq in Ts'. destruct Ts' as [Hne _], Ok as [-> Hs].
    assert (0 < Z.of_nat (length objs)) by (destruct objs; [done|simpl; lia]).
    assert (0 <= free) by (apply wrap_range; lia).
    destruct (enqueue_room_some _ _ _ _ Er) as [Hn Hf]; [lia..|]. split_and!; [done|lia..|].
    intros ->. unfold free in Hf. rewrite (free_at k s tr log PT CT H) in Hf. lia.
  - at_step E.
  - at_step E.
  - at_step E. pose proof (i_ch _ _ _ _ _ _ H). lia.
  - at_step E.
  - at_step E. specialize (Ts' i). cbn in Ts'. rewrite fn_insert_eq in Ts'. destruct Ts' as [Hne _], Ok as [-> Hs].
    assert (0 <= used_entries (prod_tail (rg s)) (wrap 32 seen)) by (apply wrap_range; lia).
    destruct (dequeue_room_some _ _ _ _ Er) as [Hn Hf]; [lia..|]. split_and!; [done|lia..|].
    intros ->. rewrite (used_at k s tr log PT CT H) in Hf. lia.
  - at_step E.
  - at_step E. destruct Ok as (-> & Hs & Hsn & Hn & Hl & Hacc). rewrite length_app. cbn [length].
    split_and!; [done|lia..|]. intros t Ht. destruct (decide (t < Z.of_nat (length acc))) as [Hlt|Hge].
    + rewrite lookup_app_l by lia. apply Hacc. lia.
    + replace t with (Z.of_nat (length acc)) by lia. rewrite lookup_app_r by lia.
      replace (Z.to_nat (Z.of_nat (length acc)) - length acc)%nat with O by lia. simpl.
      unfold cell_of in Hx. destruct Hr as [Hkk _ Em _]. rewrite Em, land_ones_mod in Hx by lia.
      rewrite <- (Z.add_0_r (wrap 32 _)), mod_wrap, Z.add_0_r, mod_wrap, load_ok in Hx by (first [done|apply Z.mod_pos_bound; lia]).
      rewrite <- Hx. apply (i_cells _ _ _ _ _ _ H). lia.
Qed.

(** ** Runs from a new ring *)

Definition start_sys r : sys A := Sys r (fun _ => Idle) 0 0.

Lemma inv_start (null : A) k sp sc r :
  0 <= k <= 31 -> llring_init null (2 ^ k) sp sc = (0, Some r) -> inv k (start_sys r) [] [] 0 0.
Proof.
  intros Hk Hi. destruct (init_holds null k sp sc Hk) as (r' & Hi' & H & _). rewrite Hi in Hi'. injection Hi' as <-.
  assert (Er : r = Llring (2 ^ k) (wrap 32 (2 ^ k - 1)) sp sc (2 ^ k) 0 0 0 0 (replicate (Z.to_nat (2 ^ k)) null)).
  { unfold llring_init in Hi. destruct (negb _); [done|]. by injection Hi. }
  pose proof (ring_pow k Hk). split; cbn [start_sys rg threads issued claimed]; try done; try lia.
  - apply H.
  - by rewrite Er.
  - by rewrite Er.
  - by rewrite Er.
  - by rewrite Er.
Qed.

Lemma run_inv (null : A) k sp sc r tr s :
  0 <= k <= 31 -> llring_init null (2 ^ k) sp sc = (0, Some r) -> run timely (start_sys r) tr s ->
  timely s /\ exists log PT CT, inv k s tr log PT CT.
Proof.
  intros Hk Hi R. induction R as [|tr s e s' R (Ts & log & PT & CT & H) St Ts'].
  - split; [by intros i|]. exists [], 0, 0. by eapply inv_start.
  - split; [done|]. by apply (step_inv k s e s' tr log PT CT).
Qed.

(** When no call is under way the ring holds the queue. *)
Lemma inv_quiet k s tr log PT CT :
  inv k s tr log PT CT -> (forall i, threads s i = Idle) ->
  holds (rg s) k (drop (length (dequeued tr)) (enqueued tr)).
Proof.
  intros H Q. destruct H.
  assert (EP : PT = issued s).
  { destruct (decide (PT = issued s)) as [|Hne]; [done|]. destruct (i_writers0 PT ltac:(lia)) as (i & Hi). by rewrite Q in Hi. }
  assert (EC : CT = claimed s).
  { destruct (decide (CT = claimed s)) as [|Hne]; [done|]. destruct (i_readers0 CT ltac:(lia)) as (i & Hi). by rewrite Q in Hi. }
  assert (Ed : length (dequeued tr) = Z.to_nat CT) by (rewrite i_deq0, length_take; lia).
  assert (Ee : enqueued tr = log) by (rewrite i_enq0; apply take_ge; lia).
  rewrite Ee, Ed. pose proof (length_drop log (Z.to_nat CT)) as Hl.
  pose proof (ring_pow k (ok_k _ _ i_ring0)) as Hk.
  split; [done|congruence|congruence| |lia| |].
  - rewrite i_ch0. apply wrap_range. lia.
  - rewrite i_ph0, i_ch0, wrap_add. f_equal. lia.
  - intros j Hj. rewrite i_ch0, mod_wrap, lookup_drop by apply i_ring0. rewrite i_cells0 by lia. f_equal. lia.
Qed.

(** The thread that holds the oldest ticket is never blocked. *)
Lemma going s i e s' p :
  threads s i <> Idle -> step s e s' -> threads s' = <[i := p]> (threads s) -> p <> threads s i -> goes_on s i.
Proof. intros Hi St Et Hp. split; [done|]. exists e, s'. split; [done|]. by rewrite Et, fn_insert_eq. Qed.

Lemma cell_access r k head t :
  ring_ok r k -> exists x, load (cells r) (cell_of r head t) = Some x /\
    forall y, is_Some (store (cells r) (cell_of r head t) y).
Proof.
  intros [Hk _ Em El]. pose proof (ring_pow k Hk). unfold cell_of. rewrite Em, land_ones_mod by lia.
  pose proof (Z.mod_pos_bound (wrap 32 (head + t)) (2 ^ k) ltac:(lia)) as Hb.
  rewrite load_ok by lia.
  destruct (lookup_lt_is_Some_2 (cells r) (Z.to_nat (wrap 32 (head + t) mod 2 ^ k)) ltac:(lia)) as (x & Ex).
  exists x. split; [done|]. intros y. rewrite store_ok by lia. by eexists.
Qed.

Lemma writer_goes k s tr log PT CT i objs b head seen n free m :
  inv k s tr log PT CT -> threads s i = EWrite objs b head seen n free m -> m < n \/ PT = seen -> goes_on s i.
Proof.
  intros H E Hm. pose proof (i_thread _ _ _ _ _ _ H i) as Hp. rewrite E in Hp.
  destruct Hp as (Eh & _ & _ & Hn & Hm0 & _). destruct (decide (m < n)) as [Hlt|Hge].
  - destruct (cell_access _ k head m (i_ring _ _ _ _ _ _ H)) as (_ & _ & Hst).
    destruct (lookup_lt_is_Some_2 objs (Z.to_nat m) ltac:(lia)) as (x & Ex).
    destruct (Hst x) as (ring & Er).
    eapply going; [by rewrite E|eapply enq_write; [done|done|by rewrite load_ok by lia|done]|done|].
    rewrite E. intros [=]. lia.
  - replace m with n in E by lia. destruct Hm as [Hm|Hm]; [lia|]. subst seen.
    eapply going; [by rewrite E|eapply enq_commit; [done|]|done|by rewrite E].
    right. by rewrite Eh, (i_pt _ _ _ _ _ _ H).
Qed.

Lemma reader_goes k s tr log PT CT i b head seen n acc :
  inv k s tr log PT CT -> threads s i = DRead b head seen n acc -> Z.of_nat (length acc) < n \/ CT = seen -> goes_on s i.
Proof.
  intros H E Hm. pose proof (i_thread _ _ _ _ _ _ H i) as Hp. rewrite E in Hp.
  destruct Hp as (Eh & _ & _ & Hn & Hm0 & _). destruct (decide (Z.of_nat (length acc) < n)) as [Hlt|Hge].
  - destruct (cell_access _ k head (Z.of_nat (length acc)) (i_ring _ _ _ _ _ _ H)) as (x & Ex & _).
    eapply going; [by rewrite E|eapply deq_read; done|done|]. rewrite E. intros [= Ea].
    apply (f_equal length) in Ea. rewrite length_app in Ea. simpl in Ea. lia.
  - destruct Hm as [Hm|Hm]; [lia|]. subst seen.
    eapply going; [by rewrite E|eapply deq_commit; [done|lia|]|done|by rewrite E].
    right. by rewrite Eh, (i_ct _ _ _ _ _ _ H).
Qed.

Lemma inv_progress k s tr log PT CT i :
  inv k s tr log PT CT -> threads s i <> Idle -> exists j, goes_on s j.
Proof.
  intros H Hi. pose proof (i_thread _ _ _ _ _ _ H i) as Hp.
  destruct (threads s i) as [|objs b|objs b head seen|objs b head seen n free|objs b head seen n free m
    |max b|max b head seen|max b head seen n|b head seen n acc] eqn:E; [done| | | | | | | |].
  - exists i. eapply going; [by rewrite E|by eapply enq_read_head|done|by rewrite E].
  - exists i. destruct (enqueue_room (Z.of_nat (length objs)) (free_entries (rg s) head (cons_tail (rg s))) b) eqn:Er.
    + eapply going; [by rewrite E|by eapply enq_refuse|done|by rewrite E].
    + eapply going; [by rewrite E|by eapply enq_read_tail|done|by rewrite E].
  - exists i. destruct (decide (sp_enqueue (rg s) = true \/ prod_head (rg s) = head)) as [G|G].
    + eapply going; [by rewrite E|by eapply enq_reserve|done|by rewrite E].
    + eapply going; [by rewrite E|eapply enq_retry; [done|destruct (sp_enqueue (rg s)); tauto|tauto]|done|by rewrite E].
  - simpl in Hp. destruct (i_writers _ _ _ _ _ _ H PT) as (j & Hj); [lia|].
    pose proof (i_thread _ _ _ _ _ _ H j) as Hpj.
    destruct (threads s j) as [|?|?|?|objs' b' head' seen' n' free' m'| | | |] eqn:Ej; try done. simpl in Hj, Hpj.
    exists j. eapply writer_goes; [exact H|exact Ej|right; lia].
  - exists i. eapply going; [by rewrite E|by eapply deq_read_head|done|by rewrite E].
  - exists i. destruct (dequeue_room max (used_entries (prod_tail (rg s)) head) b) eqn:Er.
    + eapply going; [by rewrite E|by eapply deq_refuse|done|by rewrite E].
    + eapply going; [by rewrite E|by eapply deq_read_tail|done|by rewrite E].
  - exists i. destruct (decide (sc_dequeue (rg s) = true \/ cons_head (rg s) = head)) as [G|G].
    + eapply going; [by rewrite E|by eapply deq_reserve|done|by rewrite E].
    + eapply going; [by rewrite E|eapply deq_retry; [done|destruct (sc_dequeue (rg s)); tauto|tauto]|done|by rewrite E].
  - simpl in Hp. destruct (i_readers _ _ _ _ _ _ H CT) as (j & Hj); [lia|].
    pose proof (i_thread _ _ _ _ _ _ H j) as Hpj.
    destruct (threads s j) as [| | | | | | | |b' head' seen' n' acc'] eqn:Ej; try done. simpl in Hj, Hpj.
    exists j. eapply reader_goes; [exact H|exact Ej|right; lia].
Qed.

(** ** One thread alone

    A call that no other thread interrupts does what the function of
    [Llring.v] computes. *)

Definition anything s : Prop := True.

Lemma run_trans ok s0 tr s tr' s' : run ok s0 tr s -> run ok s tr' s' -> run ok s0 (tr' ++ tr) s'.
Proof. intros R R'. induction R'; [done|]. simpl. by eapply run_cons. Qed.

Lemma run_step ok s e s' : step s e s' -> ok s' -> run ok s [e] s'.
Proof. intros St Hs. eapply run_cons; [apply run_nil|done|done]. Qed.

(** The cells after [j] stores. *)
Definition wrote (k : Z) r (head : Z) objs (j : Z) (ring : list A) : Prop :=
  length ring = length (cells r) /\
  forall t, 0 <= t < 2 ^ k ->
    ring !! Z.to_nat ((head + t) mod 2 ^ k) =
      if decide (t < j) then objs !! Z.to_nat t else cells r !! Z.to_nat ((head + t) mod 2 ^ k).

Lemma wrote_unique k r head objs j ring ring' :
  ring_ok r k -> wrote k r head objs j ring -> wrote k r head objs j ring' -> ring = ring'.
Proof.
  intros [Hk _ _ El] [Hl H] [Hl' H']. pose proof (ring_pow k Hk). apply list_eq. intros u.
  destruct (decide (Z.of_nat u < 2 ^ k)) as [Hu|Hu].
  - assert (Eu : u = Z.to_nat ((head + (Z.of_nat u - head) mod 2 ^ k) mod 2 ^ k)).
    { rewrite Zplus_mod_idemp_r. replace (head + (Z.of_nat u - head)) with (Z.of_nat u) by lia.
      rewrite Z.mod_small by lia. by rewrite Nat2Z.id. }
    rewrite Eu, H, H' by (apply Z.mod_pos_bound; lia). done.
  - rewrite !lookup_ge_None_2; [done|lia..].
Qed.

(** State [s'] is [s] with another ring and thread [i] at [p]. *)
Definition but s i s' r' p : Prop :=
  rg s' = r' /\ threads s' i = p /\ (forall j, j <> i -> threads s' j = threads s j) /\ claimed s' = claimed s.

Lemma writes_run k s i objs b head seen n free (m : nat) :
  ring_ok (rg s) k -> 0 <= head -> n < 2 ^ k -> n <= Z.of_nat (length objs) ->
  threads s i = EWrite objs b head seen n free 0 -> Z.of_nat m <= n ->
  exists tr s' ring, run anything s tr s' /\ enqueued tr = [] /\ dequeued tr = [] /\
    wrote k (rg s) head objs (Z.of_nat m) ring /\
    but s i s' (set_prod (rg s) (prod_head (rg s)) (prod_tail (rg s)) ring) (EWrite objs b head seen n free (Z.of_nat m)).
Proof.
  intros Hr Hh Hn Ho E. pose proof Hr as [Hk Es Em El]. pose proof (ring_pow k Hk) as Hp.
  induction m as [|m IH]; intros Hm.
  - exists [], s, (cells (rg s)). split_and!; [constructor|done|done| |].
    + split; [done|]. intros t Ht. by rewrite decide_False by lia.
    + split_and!; [by destruct (rg s)|done..].
  - destruct IH as (tr & s1 & ring1 & R & E1 & E2 & [Hl Hw] & (Er & Ei & Eo & Ec)); [lia|].
    destruct (lookup_lt_is_Some_2 objs m ltac:(lia)) as (x & Ex).
    assert (Ecell : cell_of (rg s1) head (Z.of_nat m) = (head + Z.of_nat m) mod 2 ^ k).
    { unfold cell_of. rewrite Er. cbn. rewrite Em, land_ones_mod by lia.
      by rewrite <- (Z.add_0_r (wrap 32 _)), mod_wrap, Z.add_0_r. }
    pose proof (Z.mod_pos_bound (head + Z.of_nat m) (2 ^ k) ltac:(lia)) as Hb.
    eexists (Tau :: tr), _, (<[Z.to_nat ((head + Z.of_nat m) mod 2 ^ k) := x]> ring1).
    split; [|split; [by rewrite enqueued_cons, E1|split; [by rewrite dequeued_cons, E2|split]]].
    + eapply run_cons; [done| |done]. eapply enq_write; [done|lia|rewrite load_ok, Nat2Z.id by lia; done|].
      rewrite Ecell, Er. cbn. apply store_ok. lia.
    + split; [by rewrite length_insert|]. intros t Ht. destruct (decide (t = Z.of_nat m)) as [->|Hne].
      * rewrite list_lookup_insert_eq by lia. rewrite decide_True, Nat2Z.id by lia. done.
      * rewrite list_lookup_insert_ne.
        { rewrite Hw by done. by repeat case_decide; try lia. }
        intros Heq. apply Z2Nat.inj in Heq; [|apply Z.mod_pos_bound; lia..].
        apply mod_near in Heq; lia.
    + split_and!.
      * rewrite Er. done.
      * cbn. rewrite fn_insert_eq. f_equal. lia.
      * intros j Hj. cbn. rewrite fn_insert_ne by done. by apply Eo.
      * done.
Qed.

Lemma reads_run k s i b head seen n (m : nat) :
  ring_ok (rg s) k -> 0 <= head -> n < 2 ^ k ->
  threads s i = DRead b head seen n [] -> Z.of_nat m <= n ->
  exists tr s' acc, run anything s tr s' /\ enqueued tr = [] /\ dequeued tr = [] /\
    length acc = m /\
    (forall t, 0 <= t < Z.of_nat m -> acc !! Z.to_nat t = cells (rg s) !! Z.to_nat ((head + t) mod 2 ^ k)) /\
    but s i s' (rg s) (DRead b head seen n acc).
Proof.
  intros Hr Hh Hn E. pose proof Hr as [Hk Es Em El]. pose proof (ring_pow k Hk) as Hp.
  induction m as [|m IH]; intros Hm.
  - exists [], s, []. split_and!; [constructor|done|done|done|lia|done].
  - destruct IH as (tr & s1 & acc & R & E1 & E2 & Hl & Ha & (Er & Ei & Eo & Ec)); [lia|].
    destruct (cell_access (rg s1) k head (Z.of_nat (length acc))) as (x & Ex & _); [by rewrite Er|].
    eexists (Tau :: tr), _, (acc ++ [x]).
    split; [|split; [by rewrite enqueued_cons, E1|split; [by rewrite dequeued_cons, E2|split; [rewrite length_app; simpl; lia|split]]]].
    + eapply run_cons; [done| |done]. eapply deq_read; [done|lia|done].
    + intros t Ht. destruct (decide (t < Z.of_nat m)) as [Hlt|Hge].
      * rewrite lookup_app_l by lia. apply Ha. lia.
      * replace t with (Z.of_nat m) by lia. rewrite lookup_app_r by lia.
        replace (Z.to_nat (Z.of_nat m) - length acc)%nat with O by lia. simpl. rewrite <- Ex.
        unfold cell_of. rewrite Er, Em, land_ones_mod by lia.
        rewrite <- (Z.add_0_r (wrap 32 _)), mod_wrap, Z.add_0_r, load_ok by (first [done|apply Z.mod_pos_bound; lia]).
        by rewrite Hl.
    + split_and!; [done|cbn; by rewrite fn_insert_eq| |done]. intros j Hj. cbn. rewrite fn_insert_ne by done. by apply Eo.
Qed.

Lemma but_at s0 i s r p p' : but s0 i s r p -> but s0 i (at_pc s i p') r p'.
Proof.
  intros (Er & Ei & Eo & Ec). split_and!; [done|cbn; by rewrite fn_insert_eq| |done].
  intros j Hj. cbn. rewrite fn_insert_ne by done. by apply Eo.
Qed.

Lemma run_last ok s0 tr s e s' : run ok s0 tr s -> step s e s' -> ok s' -> run ok s0 (e :: tr) s'.
Proof. apply run_cons. Qed.

Lemma but_self s i p : threads s i = p -> but s i s (rg s) p.
Proof. done. Qed.

(** The first accesses of a call: what the head and the other side's tail are. *)
Lemma alone_looks_p s i objs b :
  threads s i = Idle -> (sp_enqueue (rg s) = true -> forall j, producing (threads s j) = false) ->
  exists s', run anything s [Tau; Tau] s' /\
    but s i s' (rg s) (EHead objs b (prod_head (rg s)) (issued s)) /\ issued s' = issued s.
Proof.
  intros E G. exists (at_pc (at_pc s i (EStart objs b)) i (EHead objs b (prod_head (rg s)) (issued s))).
  split; [|split; [|done]].
  - eapply run_last; [apply run_step; [by apply enq_start|done]| |done].
    apply (enq_read_head (at_pc s i (EStart objs b)) i objs b). cbn. by rewrite fn_insert_eq.
  - do 2 eapply but_at. by apply but_self.
Qed.

Lemma alone_looks_c s i max b :
  threads s i = Idle -> (sc_dequeue (rg s) = true -> forall j, consuming (threads s j) = false) ->
  exists s', run anything s [Tau; Tau] s' /\
    but s i s' (rg s) (DHead max b (cons_head (rg s)) (claimed s)) /\ issued s' = issued s.
Proof.
  intros E G. exists (at_pc (at_pc s i (DStart max b)) i (DHead max b (cons_head (rg s)) (claimed s))).
  split; [|split; [|done]].
  - eapply run_last; [apply run_step; [by apply deq_start|done]| |done].
    apply (deq_read_head (at_pc s i (DStart max b)) i max b). cbn. by rewrite fn_insert_eq.
  - do 2 eapply but_at. by apply but_self.
Qed.

(** The cells are reserved at once, since the head cannot have moved. *)
Lemma alone_reserves s i objs b n :
  threads s i = Idle -> (sp_enqueue (rg s) = true -> forall j, producing (threads s j) = false) ->
  let head := prod_head (rg s) in
  let free := free_entries (rg s) head (cons_tail (rg s)) in
  enqueue_room (Z.of_nat (length objs)) free b = inr n ->
  exists s', run anything s [Tau; Tau; Tau; Tau] s' /\
    but s i s' (set_prod (rg s) (wrap 32 (head + n)) (prod_tail (rg s)) (cells (rg s)))
      (EWrite objs b head (issued s) n free 0).
Proof.
  intros E G head free Er.
  destruct (alone_looks_p s i objs b E G) as (s2 & R2 & B2 & I2). pose proof B2 as (Er2 & Ei2 & Eo2 & Ec2).
  set (s3 := at_pc s2 i (ECas objs b head (issued s) n free)).
  assert (R3 : run anything s [Tau; Tau; Tau] s3).
  { eapply run_last; [exact R2| |done].
    pose proof (enq_read_tail s2 i objs b head (issued s) n Ei2) as St. cbn zeta in St. rewrite Er2 in St. exact (St Er). }
  eexists. split.
  - eapply run_last; [exact R3|eapply enq_reserve|done].
    + cbn. by rewrite fn_insert_eq.
    + right. cbn. by rewrite Er2.
  - split_and!.
    + cbn. by rewrite Er2.
    + cbn. by rewrite fn_insert_eq.
    + intros j Hj. cbn. rewrite !fn_insert_ne by done. by apply Eo2.
    + done.
Qed.

Lemma alone_claims s i max b n :
  threads s i = Idle -> (sc_dequeue (rg s) = true -> forall j, consuming (threads s j) = false) ->
  let head := cons_head (rg s) in
  dequeue_room max (used_entries (prod_tail (rg s)) head) b = inr n ->
  exists s', run anything s [Tau; Tau; Tau; Tau] s' /\
    rg s' = set_cons (rg s) (wrap 32 (head + n)) (cons_tail (rg s)) /\
    threads s' i = DRead b head (claimed s) n [] /\ (forall j, j <> i -> threads s' j = threads s j).
Proof.
  intros E G head Er.
  destruct (alone_looks_c s i max b E G) as (s2 & R2 & B2 & I2). pose proof B2 as (Er2 & Ei2 & Eo2 & Ec2).
  set (s3 := at_pc s2 i (DCas max b head (claimed s) n)).
  assert (R3 : run anything s [Tau; Tau; Tau] s3).
  { eapply run_last; [exact R2| |done]. eapply deq_read_tail; [done|]. by rewrite Er2. }
  eexists. split.
  - eapply run_last; [exact R3|eapply deq_reserve|done].
    + cbn. by rewrite fn_insert_eq.
    + right. cbn. by rewrite Er2.
  - split_and!.
    + cbn. by rewrite Er2.
    + cbn. by rewrite fn_insert_eq.
    + intros j Hj. cbn. rewrite !fn_insert_ne by done. by apply Eo2.
Qed.

Lemma moved_room r k Q n m b :
  holds r k Q -> enqueue_room n (free_entries r (prod_head r) (cons_tail r)) b = inr m -> 0 <= n ->
  0 <= m <= n /\ m <= 2 ^ k - 1.
Proof.
  intros H. pose proof (h_len _ _ _ H). rewrite (ring_free_ok r k Q H). unfold enqueue_room.
  destruct (Z.ltb_spec (2 ^ k - 1 - Z.of_nat (length Q)) n);
    [destruct b; [done|]; destruct (2 ^ k - 1 - Z.of_nat (length Q) =? 0); [done|]|]; intros [= <-]; lia.
Qed.

Lemma taken_room r k Q n m b :
  holds r k Q -> dequeue_room n (used_entries (prod_tail r) (cons_head r)) b = inr m -> 0 <= n ->
  0 <= m <= Z.of_nat (length Q).
Proof.
  intros H. rewrite (ring_used_ok r k Q H). unfold dequeue_room.
  destruct (Z.ltb_spec (Z.of_nat (length Q)) n); [destruct b; [done|]; destruct (Z.of_nat (length Q) =? 0); [done|]|];
    intros [= <-]; lia.
Qed.

Lemma silent_app (tr tr' : list (event A)) :
  enqueued tr = [] -> dequeued tr = [] -> enqueued tr' = [] -> dequeued tr' = [] ->
  enqueued (tr ++ tr') = [] /\ dequeued (tr ++ tr') = [].
Proof.
  unfold enqueued, dequeued. intros. rewrite reverse_app, !omap_app, !concat_app. by split; apply app_nil.
Qed.

Lemma alone_enqueue k s Q i objs b :
  holds (rg s) k Q -> threads s i = Idle ->
  (sp_enqueue (rg s) = true -> forall j, producing (threads s j) = false) ->
  exists ret r' tr s' l,
    llring_mp_do_enqueue (rg s) objs (Z.of_nat (length objs)) b = Some (ret, r') /\
    run anything s (Enqueued ret l :: tr) s' /\ but s i s' r' Idle /\ enqueued tr = [] /\ dequeued tr = [].
Proof.
  intros H E G. rewrite (mp_enqueue_alone _ k Q) by done. unfold llring_sp_do_enqueue.
  pose proof (h_ok _ _ _ H) as Hr. pose proof (ring_pow k (ok_k _ _ Hr)) as Hp.
  destruct (enqueue_room (Z.of_nat (length objs)) (free_entries (rg s) (prod_head (rg s)) (cons_tail (rg s))) b)
    as [ret|n] eqn:Er.
  - destruct (alone_looks_p s i objs b E G) as (s2 & R2 & B2 & I2). pose proof B2 as (Er2 & Ei2 & _).
    exists ret, (rg s), [Tau; Tau], (at_pc s2 i Idle), []. split_and!; [done| |by eapply but_at|done|done].
    eapply run_last; [exact R2|eapply enq_refuse; [done|by rewrite Er2]|done].
  - destruct (moved_room _ k Q _ _ _ H Er) as [Hn Hn']; [lia|].
    destruct (alone_reserves s i objs b n E G Er) as (s4 & R4 & (E4 & I4 & O4 & C4)).
    assert (Hh : 0 <= prod_head (rg s)) by (rewrite (h_head _ _ _ H); apply wrap_range; lia).
    destruct (writes_run k s4 i objs b (prod_head (rg s)) (issued s) n (free_entries (rg s) (prod_head (rg s)) (cons_tail (rg s))) (Z.to_nat n))
      as (tr & s5 & ring & R5 & T1 & T2 & W & (E5 & I5 & O5 & C5)); [rewrite E4; by destruct Hr|lia|lia|lia|exact I4|lia|].
    rewrite Z2Nat.id in I5, W by lia.
    destruct (enqueue_ptrs_ok (rg s) k (prod_head (rg s)) n objs Hr) as (ring' & Ep & W'); [lia..|].
    assert (ring' = ring) as -> by (eapply (wrote_unique k (rg s)); [done|exact W'|by rewrite E4 in W]).
    change (LLRING_ENQUEUE_PTRS (set_prod _ _ _ _) (prod_head (rg s)) n objs) with
      (LLRING_ENQUEUE_PTRS (rg s) (prod_head (rg s)) n objs).
    rewrite Ep. cbn [mbind option_bind]. eexists _, _, (tr ++ [Tau; Tau; Tau; Tau]), _, _. split; [done|].
    split; [|split; [|by apply silent_app]].
    + eapply run_last; [by eapply run_trans| |done].
      change (enqueue_ret (set_prod _ _ _ _) ?f n b) with (enqueue_ret (rg s) f n b).
      replace (enqueue_ret (rg s)) with (enqueue_ret (rg s5)) by by rewrite E5, E4.
      eapply enq_commit; [done|]. right. rewrite E5, E4. cbn. apply (h_prod _ _ _ H).
    + split_and!; [cbn; by rewrite E5, E4|cbn; by rewrite fn_insert_eq| |cbn; by rewrite C5].
      intros j Hj. cbn. rewrite fn_insert_ne by done. by rewrite O5, O4.
Qed.

Lemma alone_dequeue k s Q i max b :
  holds (rg s) k Q -> threads s i = Idle -> 0 <= max ->
  (sc_dequeue (rg s) = true -> forall j, consuming (threads s j) = false) ->
  exists ret r' tr s' l,
    llring_mc_do_dequeue (rg s) max b = Some (ret, l, r') /\
    run anything s (Dequeued ret l :: tr) s' /\ rg s' = r' /\ threads s' i = Idle /\
    (forall j, j <> i -> threads s' j = threads s j) /\ enqueued tr = [] /\ dequeued tr = [].
Proof.
  intros H E Hm G. rewrite (mc_dequeue_alone _ k Q) by done. unfold llring_sc_do_dequeue.
  pose proof (h_ok _ _ _ H) as Hr. pose proof (ring_pow k (ok_k _ _ Hr)) as Hp. pose proof (h_len _ _ _ H) as Hl.
  destruct (dequeue_room max (used_entries (prod_tail (rg s)) (cons_head (rg s))) b) as [ret|n] eqn:Er.
  - destruct (alone_looks_c s i max b E G) as (s2 & R2 & (Er2 & Ei2 & Eo2 & _) & I2).
    exists ret, (rg s), [Tau; Tau], (at_pc s2 i Idle), []. split_and!; [done| |done|cbn; by rewrite fn_insert_eq| |done|done].
    + eapply run_last; [exact R2|eapply deq_refuse; [done|by rewrite Er2]|done].
    + intros j Hj. cbn. rewrite fn_insert_ne by done. by apply Eo2.
  - pose proof (taken_room _ k Q _ _ _ H Er Hm) as Hn.
    destruct (alone_claims s i max b n E G Er) as (s4 & R4 & E4 & I4 & O4).
    pose proof (h_range _ _ _ H) as Hh.
    destruct (reads_run k s4 i b (cons_head (rg s)) (claimed s) n (Z.to_nat n))
      as (tr & s5 & acc & R5 & T1 & T2 & La & W & (E5 & I5 & O5 & C5)); [rewrite E4; by destruct Hr|lia|lia|exact I4|lia|].
    destruct (dequeue_ptrs_ok (rg s) k (cons_head (rg s)) n Hr) as (l & Ep & Ll & W'); [lia..|].
    assert (l = acc) as ->.
    { apply list_eq_same_length with (n := Z.to_nat n); [lia|lia|]. intros t x y Ht Hx Hy.
      pose proof (W (Z.of_nat t) ltac:(lia)) as W1. rewrite E4 in W1. cbn in W1.
      rewrite <- W', !Nat2Z.id in W1 by lia. congruence. }
    change (LLRING_DEQUEUE_PTRS (set_cons _ _ _) (cons_head (rg s)) n) with (LLRING_DEQUEUE_PTRS (rg s) (cons_head (rg s)) n).
    rewrite Ep. cbn [mbind option_bind]. eexists _, _, (tr ++ [Tau; Tau; Tau; Tau]), _, _. split; [done|].
    split; [|split; [|split; [|split; [|by apply silent_app]]]].
    + eapply run_last; [by eapply run_trans| |done]. eapply deq_commit; [done|lia|].
      right. rewrite E5, E4. cbn. apply (h_cons _ _ _ H).
    + cbn. by rewrite E5, E4.
    + cbn. by rewrite fn_insert_eq.
    + intros j Hj. cbn. rewrite fn_insert_ne by done. by rewrite O5, O4.
Qed.

End Inv.

(** ** Executable schedules

    [next s i] is the step of a thread in a call, when it can go on. *)

Section Exec.
Context {A : Type}.
Implicit Types (s : sys A).

Definition next s (i : nat) : option (event A * sys A) :=
  let r := rg s in
  match threads s i with
  | Idle => None
  | EStart objs b => Some (Tau, at_pc s i (EHead objs b (prod_head r) (issued s)))
  | EHead objs b head seen =>
      let free := free_entries r head (cons_tail r) in
      match enqueue_room (Z.of_nat (length objs)) free b with
      | inl ret => Some (Enqueued ret [], at_pc s i Idle)
      | inr n => Some (Tau, at_pc s i (ECas objs b head seen n free))
      end
  | ECas objs b head seen n free =>
      if sp_enqueue r || (prod_head r =? head) then
        Some (Tau, Sys (set_prod r (wrap 32 (head + n)) (prod_tail r) (cells r))
                     (<[i := EWrite objs b head seen n free 0]> (threads s)) (issued s + n) (claimed s))
      else Some (Tau, at_pc s i (EStart objs b))
  | EWrite objs b head seen n free j =>
      if j <? n then
        x ← load objs j;
        ring ← store (cells r) (cell_of r head j) x;
        Some (Tau, Sys (set_prod r (prod_head r) (prod_tail r) ring)
                     (<[i := EWrite objs b head seen n free (j + 1)]> (threads s)) (issued s) (claimed s))
      else if (j =? n) && (sp_enqueue r || (prod_tail r =? head)) then
        Some (Enqueued (enqueue_ret r free n b) (take (Z.to_nat n) objs),
          Sys (set_prod r (prod_head r) (wrap 32 (head + n)) (cells r)) (<[i := Idle]> (threads s)) (issued s) (claimed s))
      else None
  | DStart max b => Some (Tau, at_pc s i (DHead max b (cons_head r) (claimed s)))
  | DHead max b head seen =>
      match dequeue_room max (used_entries (prod_tail r) head) b with
      | inl ret => Some (Dequeued ret [], at_pc s i Idle)
      | inr n => Some (Tau, at_pc s i (DCas max b head seen n))
      end
  | DCas max b head seen n =>
      if sc_dequeue r || (cons_head r =? head) then
        Some (Tau, Sys (set_cons r (wrap 32 (head + n)) (cons_tail r))
                     (<[i := DRead b head seen n []]> (threads s)) (issued s) (claimed s + n))
      else Some (Tau, at_pc s i (DStart max b))
  | DRead b head seen n acc =>
      if Z.of_nat (length acc) <? n then
        x ← load (cells r) (cell_of r head (Z.of_nat (length acc)));
        Some (Tau, at_pc s i (DRead b head seen n (acc ++ [x])))
      else if (Z.of_nat (length acc) =? n) && (sc_dequeue r || (cons_tail r =? head)) then
        Some (Dequeued (dequeue_ret n b) acc,
          Sys (set_cons r (cons_head r) (wrap 32 (head + n))) (<[i := Idle]> (threads s)) (issued s) (claimed s))
      else None
  end.

Lemma flag_or (f : bool) x y : f || (x =? y) = true -> f = true \/ x = y.
Proof. destruct f; [by left|]. intros H%Z.eqb_eq. by right. Qed.

Lemma flag_nor (f : bool) x y : f || (x =? y) = false -> f = false /\ x <> y.
Proof. destruct f; [done|]. by intros H%Z.eqb_neq. Qed.

(** The relation and the function agree on the steps of a thread in a call. *)
Lemma next_step s i e s' : next s i = Some (e, s') -> step s e s'.
Proof.
  unfold next. destruct (threads s i) as [|objs b|objs b head seen|objs b head seen n free|objs b head seen n free m
    |max b|max b head seen|max b head seen n|b head seen n acc] eqn:E; [done| | | | | | | |].
  - intros [= <- <-]. by apply enq_read_head.
  - destruct (enqueue_room _ _ _) as [ret|n] eqn:Er; intros [= <- <-]; [by eapply enq_refuse|by eapply enq_read_tail].
  - destruct (sp_enqueue (rg s) || (prod_head (rg s) =? head)) eqn:Eg; intros [= <- <-].
    + by apply flag_or in Eg; eapply enq_reserve.
    + by apply flag_nor in Eg as [G1 G2]; eapply enq_retry.
  - destruct (Z.ltb_spec m n) as [Hm|Hm].
    + destruct (load objs m) as [x|] eqn:Ex; [|done]. cbn [mbind option_bind].
      destruct (store _ _ _) as [ring|] eqn:Es; [|done]. intros [= <- <-]. by eapply enq_write.
    + destruct (Z.eqb_spec m n) as [->|]; [|done]. simpl.
      destruct (sp_enqueue (rg s) || (prod_tail (rg s) =? head)) eqn:Eg; intros [= <- <-].
      eapply enq_commit; [done|]. by apply flag_or.
  - intros [= <- <-]. by apply deq_read_head.
  - destruct (dequeue_room _ _ _) as [ret|n] eqn:Er; intros [= <- <-]; [by eapply deq_refuse|by eapply deq_read_tail].
  - destruct (sc_dequeue (rg s) || (cons_head (rg s) =? head)) eqn:Eg; intros [= <- <-].
    + by apply flag_or in Eg; eapply deq_reserve.
    + by apply flag_nor in Eg as [G1 G2]; eapply deq_retry.
  - destruct (Z.ltb_spec (Z.of_nat (length acc)) n) as [Hm|Hm].
    + destruct (load _ _) as [x|] eqn:Ex; [|done]. intros [= <- <-]. by eapply deq_read.
    + destruct (Z.eqb_spec (Z.of_nat (length acc)) n) as [Hn|]; [|done]. simpl.
      destruct (sc_dequeue (rg s) || (cons_tail (rg s) =? head)) eqn:Eg; intros [= <- <-].
      eapply deq_commit; [done|done|]. by apply flag_or.
Qed.

(** A schedule: calls begin and threads go on. *)
Inductive action := Enq (i : nat) (objs : list A) (b : llring_queue_behavior)
  | Deq (i : nat) (max : Z) (b : llring_queue_behavior) | Go (i : nat).

(** On rings for several producers and consumers. *)
Definition act s (a : action) : option (event A * sys A) :=
  match a with
  | Enq i objs b => match threads s i with Idle => Some (Tau, at_pc s i (EStart objs b)) | _ => None end
  | Deq i max b => match threads s i with Idle => Some (Tau, at_pc s i (DStart max b)) | _ => None end
  | Go i => next s i
  end.

Definition timely_pcb s (p : pc A) : bool :=
  match p with
  | EStart objs _ => negb (Nat.eqb (length objs) 0)
  | EHead objs _ _ seen | ECas objs _ _ seen _ _ => negb (Nat.eqb (length objs) 0) && (issued s - seen <? 2 ^ 32)
  | DStart max _ => 0 <? max
  | DHead max _ _ seen | DCas max _ _ seen _ => (0 <? max) && (claimed s - seen <? 2 ^ 32)
  | _ => true
  end.

Definition action_thread (a : action) : nat := match a with Enq i _ _ | Deq i _ _ | Go i => i end.

(** Run a schedule of the first [N] threads through states that pass [check]. *)
Fixpoint exec (N : nat) (check : sys A -> bool) s (l : list action) (tr : list (event A)) : option (list (event A) * sys A) :=
  match l with
  | [] => Some (tr, s)
  | a :: l =>
      if Nat.ltb (action_thread a) N then
        '(e, s') ← act s a;
        if check s' then exec N check s' l (e :: tr) else None
      else None
  end.

Definition all_timely (N : nat) s : bool := forallb (fun i => timely_pcb s (threads s i)) (seq 0 N).

Lemma step_flags s e s' :
  step s e s' -> sp_enqueue (rg s') = sp_enqueue (rg s) /\ sc_dequeue (rg s') = sc_dequeue (rg s).
Proof. by destruct 1. Qed.

Lemma next_other s i e s' j : next s i = Some (e, s') -> j <> i -> threads s' j = threads s j.
Proof.
  unfold next. intros H Hj.
  destruct (threads s i); simplify_option_eq; repeat case_match; simplify_option_eq; cbn; by rewrite ?fn_insert_ne.
Qed.

Lemma act_step s a e s' :
  sp_enqueue (rg s) = false -> sc_dequeue (rg s) = false -> act s a = Some (e, s') ->
  step s e s' /\ forall j, j <> action_thread a -> threads s' j = threads s j.
Proof.
  intros F1 F2. destruct a as [i objs b|i max b|i]; simpl.
  - destruct (threads s i) eqn:E; try done. intros [= <- <-].
    split; [apply enq_start; [done|congruence]|]. intros j Hj. cbn. by rewrite fn_insert_ne.
  - destruct (threads s i) eqn:E; try done. intros [= <- <-].
    split; [apply deq_start; [done|congruence]|]. intros j Hj. cbn. by rewrite fn_insert_ne.
  - intros H. split; [by eapply next_step|]. intros j Hj. by eapply next_other.
Qed.

Lemma exec_run N check (ok : sys A -> Prop) s0 s l tr tr' s' :
  (forall s, (forall j, (N <= j)%nat -> threads s j = Idle) -> check s = true -> ok s) ->
  sp_enqueue (rg s) = false -> sc_dequeue (rg s) = false ->
  (forall j, (N <= j)%nat -> threads s j = Idle) ->
  run ok s0 tr s -> exec N check s l tr = Some (tr', s') ->
  run ok s0 tr' s' /\ forall j, (N <= j)%nat -> threads s' j = Idle.
Proof.
  intros Hok. revert s tr; induction l as [|a l IH]; intros s tr F1 F2 Id R; simpl.
  - intros [= <- <-]. done.
  - destruct (Nat.ltb_spec (action_thread a) N) as [Hlt|]; [|done].
    destruct (act s a) as [[e s1]|] eqn:Ea; [|done]. cbn [mbind option_bind].
    destruct (check s1) eqn:Ec; [|done].
    destruct (act_step s a e s1 F1 F2 Ea) as [St Oth]. destruct (step_flags _ _ _ St) as [G1 G2].
    assert (Id1 : forall j, (N <= j)%nat -> threads s1 j = Idle) by (intros j Hj; rewrite Oth by lia; by apply Id).
    apply IH; [congruence|congruence|done|]. eapply run_cons; [done|done|]. by apply Hok.
Qed.

Lemma all_timely_ok N s : (forall j, (N <= j)%nat -> threads s j = Idle) -> all_timely N s = true -> timely s.
Proof.
  intros Id H i. destruct (Nat.lt_ge_cases i N) as [Hi|Hi]; [|by rewrite Id].
  unfold all_timely in H. rewrite forallb_forall in H. specialize (H i).
  assert (Hin : In i (seq 0 N)) by (apply in_seq; lia). specialize (H Hin).
  destruct (threads s i) as [|[]|[]|[]| | | | |]; simpl in *; try done;
    repeat (apply andb_prop in H as [? H]); lia || (split; [done|]) || idtac; try lia; apply Z.ltb_lt in H; lia.
Qed.

End Exec.
Arguments action : clear implicits.

(** * What the ring guarantees *)

(** C24. Whatever way the calls of any number of producers and consumers are
    interleaved, as long as the run is [timely] (every call moves at least one object, and
    no thread is suspended between reading a head and its compare-and-swap
    while [2^32] objects go by), the objects dequeued are the objects enqueued, in the order in
    which the calls end, never more of them, each once; the ring never holds more
    than its capacity; and when no call is under way it is at rest and holds what
    was enqueued and not dequeued. *)
Theorem shared_fifo {A} (null : A) k sp sc r tr s :
  0 <= k <= 31 -> llring_init null (2 ^ k) sp sc = (0, Some r) -> run timely (start_sys r) tr s ->
  dequeued tr `prefix_of` enqueued tr /\
  Z.of_nat (length (enqueued tr)) <= Z.of_nat (length (dequeued tr)) + (2 ^ k - 1) /\
  ((forall i, threads s i = Idle) -> holds (rg s) k (drop (length (dequeued tr)) (enqueued tr))).
Proof.
  intros Hk Hi R. destruct (run_inv null k sp sc r tr s Hk Hi R) as (Ts & log & PT & CT & H).
  split_and!; [| |by eapply inv_quiet].
  - destruct H. rewrite i_enq0, i_deq0. exists (drop (Z.to_nat CT) (take (Z.to_nat PT) log)).
    rewrite <- (take_drop (Z.to_nat CT) (take (Z.to_nat PT) log)) at 1. f_equal.
    rewrite take_take. f_equal. lia.
  - destruct H. rewrite i_enq0, i_deq0, !length_take. lia.
Qed.

(** C26. In a [timely] run (no call is empty, and no thread is suspended while [2^32] objects
    go by), as long as some call is under way some thread in a call can go on: the
    waits for the tail of another thread never form a cycle, and no access is
    outside the arrays.  Without that an empty call may wait forever
    ([empty_enqueue_hangs]). *)
Theorem shared_progress {A} (null : A) k sp sc r tr s i :
  0 <= k <= 31 -> llring_init null (2 ^ k) sp sc = (0, Some r) -> run timely (start_sys r) tr s ->
  threads s i <> Idle -> exists j, goes_on s j.
Proof.
  intros Hk Hi R. destruct (run_inv null k sp sc r tr s Hk Hi R) as (Ts & log & PT & CT & H).
  by eapply inv_progress.
Qed.

(** The steps are those of the code: a call made on a ring at rest, which no
    other thread interrupts, returns what the function for several producers or
    consumers returns and leaves the ring as the function leaves it. *)
Theorem shared_alone {A} (s : sys A) k Q i b :
  holds (rg s) k Q -> threads s i = Idle ->
  (forall objs, (sp_enqueue (rg s) = true -> forall j, producing (threads s j) = false) ->
    exists ret r' tr s' l,
      llring_mp_do_enqueue (rg s) objs (Z.of_nat (length objs)) b = Some (ret, r') /\
      run anything s (Enqueued ret l :: tr) s' /\ but s i s' r' Idle) /\
  (forall max, 0 <= max -> (sc_dequeue (rg s) = true -> forall j, consuming (threads s j) = false) ->
    exists ret r' tr s' l,
      llring_mc_do_dequeue (rg s) max b = Some (ret, l, r') /\
      run anything s (Dequeued ret l :: tr) s' /\ rg s' = r' /\ threads s' i = Idle).
Proof.
  intros H E. split.
  - intros objs G. destruct (alone_enqueue k s Q i objs b H E G) as (ret & r' & tr & s' & l & E1 & R & B & _).
    by exists ret, r', tr, s', l.
  - intros max Hm G. destruct (alone_dequeue k s Q i max b H E Hm G) as (ret & r' & tr & s' & l & E1 & R & E2 & E3 & _).
    by exists ret, r', tr, s', l.
Qed.

(** ** Examples *)

Definition demo_ring : llring nat := Llring 4 3 false false 4 0 0 0 0 [0; 0; 0; 0]%nat.

Definition gos (l : list nat) : list (action nat) := Go <$> l.

(** Two producers race for the first cell and the second one loses; the consumer
    takes one object before the second producer is done. *)
Definition demo_race : list (action nat) :=
  [Enq 0 [7%nat] LLRING_QUEUE_FIXED; Enq 1 [8%nat; 9%nat] LLRING_QUEUE_FIXED] ++
  gos [0; 1; 0; 1; 0; 1; 1; 1; 1; 0; 1; 0]%nat ++ [Deq 0 2 LLRING_QUEUE_VARIABLE] ++
  gos [0; 0; 0; 1; 0; 0; 1]%nat.

Definition demo_end {B} (f : list (event nat) -> sys nat -> B) : option B :=
  '(tr, s) ← exec 2 (all_timely 2) (start_sys demo_ring) demo_race []; Some (f tr s).

Example demo_race_ends :
  demo_end (fun tr s => (enqueued tr, dequeued tr, bool_decide (length (cells (rg s)) = 4%nat))) =
  Some ([7; 8; 9], [7], true)%nat.
Proof. vm_compute. reflexivity. Qed.

Lemma demo_race_run :
  exists tr s, run timely (start_sys demo_ring) tr s /\ enqueued tr = [7; 8; 9]%nat /\ dequeued tr = [7]%nat /\
    forall i, threads s i = Idle.
Proof.
  destruct (exec 2 (all_timely 2) (start_sys demo_ring) demo_race []) as [[tr s]|] eqn:E.
  2: { pose proof demo_race_ends as D. unfold demo_end in D. by rewrite E in D. }
  assert (D : forall B (f : list (event nat) -> sys nat -> B) b, demo_end f = Some b -> f tr s = b).
  { intros B f b. unfold demo_end. rewrite E. by intros [= ->]. }
  pose proof (D _ _ _ demo_race_ends) as D1.
  assert (Hr : run timely (start_sys demo_ring) tr s /\ forall j, (2 <= j)%nat -> threads s j = Idle).
  { eapply (exec_run 2 (all_timely 2) timely (start_sys demo_ring) (start_sys demo_ring) demo_race []);
      [apply all_timely_ok|done|done|done|apply run_nil|exact E]. }
  destruct Hr as [R Id]. exists tr, s. injection D1 as D1 D1' _. split; [exact R|split; [exact D1|split; [exact D1'|]]].
  assert (D2 : (match threads s 0 with Idle => true | _ => false end, match threads s 1 with Idle => true | _ => false end) = (true, true)).
  { apply (D _ (fun tr s => (match threads s 0 with Idle => true | _ => false end, match threads s 1 with Idle => true | _ => false end))).
    vm_compute. reflexivity. }
  clear E D. injection D2 as D2 D3.
  intros [|[|i]]; [by destruct (threads s 0)|by destruct (threads s 1)|apply Id; lia].
Qed.

Lemma demo_ring_init : llring_init 0%nat (2 ^ 2) false false = (0, Some demo_ring).
Proof. reflexivity. Qed.

Lemma shared_fifo_witness : exists s, holds (rg s) 2 [8; 9]%nat.
Proof.
  destruct demo_race_run as (tr & s & R & E1 & E2 & Id). exists s.
  destruct (shared_fifo 0%nat 2 false false demo_ring tr s ltac:(lia) demo_ring_init R) as (_ & _ & H).
  specialize (H Id). by rewrite E1, E2 in H.
Defined.

(** Thread 0 has reserved a cell that thread 1 waits for. *)
Definition demo_wait : list (action nat) :=
  [Enq 0 [7%nat] LLRING_QUEUE_FIXED; Enq 1 [8%nat] LLRING_QUEUE_FIXED] ++ gos [0; 0; 0; 1; 1; 1; 1]%nat.

Lemma exec_some {A} (P : list (event A) * sys A -> bool) N check s l :
  (match exec N check s l [] with Some ts => P ts | None => false end) = true ->
  exists tr s', exec N check s l [] = Some (tr, s') /\ P (tr, s') = true.
Proof. destruct (exec N check s l []) as [[tr s']|]; [|done]. by exists tr, s'. Qed.

Definition is_idle {A} (p : pc A) : bool := match p with Idle => true | _ => false end.
Definition is_writing {A} (p : pc A) : bool := match p with EWrite _ _ _ _ _ _ _ => true | _ => false end.

Lemma shared_progress_witness :
  exists s, threads s 0 <> Idle /\ threads s 1 <> @Idle nat /\ exists j, goes_on s j.
Proof.
  destruct (exec_some (fun ts => negb (is_idle (threads ts.2 0)) && negb (is_idle (threads ts.2 1)))
    2 (all_timely 2) (start_sys demo_ring) demo_wait ltac:(vm_compute; reflexivity)) as (tr & s & E & P).
  apply andb_prop in P as [P0 P1].
  destruct (exec_run 2 (all_timely 2) timely (start_sys demo_ring) (start_sys demo_ring) demo_wait [] tr s)
    as [R _]; [apply all_timely_ok|reflexivity|reflexivity|reflexivity|apply run_nil|exact E|].
  clear E. exists s. simpl in P0, P1.
  assert (N0 : threads s 0 <> Idle) by (intros E0; rewrite E0 in P0; discriminate).
  split; [exact N0|]. split; [intros E1; rewrite E1 in P1; discriminate|].
  exact (shared_progress 0%nat 2 false false demo_ring tr s 0%nat ltac:(lia) demo_ring_init R N0).
Defined.

Lemma shared_alone_witness :
  exists ret r' tr s' l, llring_mp_do_enqueue demo_ring [5; 6]%nat 2 LLRING_QUEUE_FIXED = Some (ret, r') /\
    run anything (start_sys demo_ring) (Enqueued ret l :: tr) s' /\ rg s' = r'.
Proof.
  destruct (shared_alone (start_sys demo_ring) 2 [] 0%nat LLRING_QUEUE_FIXED) as [H _].
  - destruct (init_holds 0%nat 2 false false ltac:(lia)) as (r & Hi & Hr & _).
    rewrite demo_ring_init in Hi. injection Hi as <-. exact Hr.
  - reflexivity.
  - destruct (H [5; 6]%nat) as (ret & r' & tr & s' & l & E & R & B & _); [discriminate|].
    exists ret, r', tr, s', l. exact (conj E (conj R B)).
Defined.

(** Thread 0 enqueues nothing; thread 1 reserves and fills a cell before thread 0
    looks at the tail. *)
Definition demo_empty : list (action nat) :=
  [Enq 0 [] LLRING_QUEUE_FIXED; Enq 1 [8%nat] LLRING_QUEUE_FIXED] ++ gos [0; 0; 0; 1; 1; 1; 1; 1]%nat.

Definition is_eight (l : list nat) : bool := bool_decide (l = [8%nat]).
Definition waits_empty (p : pc nat) : bool :=
  match p with EWrite _ _ head _ n _ j => (head =? 0) && (n =? 0) && (j =? 0) | _ => false end.

Lemma waits_empty_stuck (s : sys nat) :
  waits_empty (threads s 0) = true -> sp_enqueue (rg s) = false -> prod_tail (rg s) = 1 ->
  forall e s', step s e s' -> threads s' 0 = threads s 0.
Proof.
  intros W Sp Pt e s' St.
  assert (Oth : forall i p, i <> O -> <[i := p]> (threads s) O = threads s O) by (intros i p Hi; by rewrite fn_insert_ne).
  destruct St as [? i|? i|? i|? i|? i|? i|? i objs b head seen n free j x ring E Hj|? i objs b head seen n free E G
    |? i|? i|? i|? i|? i|? i|? i|? i]; cbn; (destruct (decide (i = O)) as [->|Hi]; [|by apply Oth]);
    lazymatch goal with H : threads _ 0 = _ |- _ => rewrite H in W end; try discriminate W;
    simpl in W; apply andb_prop in W as [W W3]; apply andb_prop in W as [W1 W2];
    apply Z.eqb_eq in W1, W2, W3; subst.
  - lia.
  - destruct G; congruence.
Qed.

(** A call with no object on a ring for several producers may never return:
    when another call moves the tail first, the tail it waits for is gone, and
    no step of the system lets the thread go on. *)
Theorem empty_enqueue_hangs :
  exists tr s, run anything (start_sys demo_ring) tr s /\ enqueued tr = [8%nat] /\
    threads s 1 = Idle /\ threads s 0 <> Idle /\
    forall e s', step s e s' -> threads s' 0 = threads s 0.
Proof.
  destruct (exec_some (fun ts => waits_empty (threads ts.2 0) && is_idle (threads ts.2 1) &&
      is_eight (enqueued ts.1) && (prod_tail (rg ts.2) =? 1) && negb (sp_enqueue (rg ts.2)))
    2 (fun _ => true) (start_sys demo_ring) demo_empty ltac:(vm_compute; reflexivity)) as (tr & s & E & P).
  destruct (exec_run 2 (fun _ => true) anything (start_sys demo_ring) (start_sys demo_ring) demo_empty [] tr s)
    as [R _]; [done|reflexivity|reflexivity|reflexivity|apply run_nil|exact E|].
  clear E. simpl in P.
  apply andb_prop in P as [P P5]. apply andb_prop in P as [P P4]. apply andb_prop in P as [P P3].
  apply andb_prop in P as [P1 P2]. apply bool_decide_eq_true in P3. apply Z.eqb_eq in P4. apply negb_true_iff in P5.
  exists tr, s. split; [exact R|]. split; [exact P3|].
  split; [by destruct (threads s 1)|]. split; [intros E0; by rewrite E0 in P1|].
  by apply waits_empty_stuck.
Qed.
