(* ===== verification/QueueModule.v ===== *)
(** * The queue module: [modules/queue.cc]

    A queue between two tasks: the upstream tasks put batches in a ring
    ([Llring.v]), the task of the module takes them out.  With backpressure it
    tells the upstream tasks to stop when the ring fills and to go on when it
    empties ([Module::SignalOverload]).  A packet is its address, with its length
    given by [len]; [alloc] says whether the allocator grants so many bytes.
    [None] is a fault of the ring. *)

From Stdlib Require Import SpecFloat.
From S2P Require Import Prelude Ledger Shapers Llring Tasks.

Record Queue := MkQueue {
  queue_ : option (llring Z);
  prefetch_ : bool; backpressure_ : bool;
  burst_ : Z; size_ : Z; high_water_ : Z; low_water_ : Z;
  q_enqueued : Z; q_dequeued : Z; q_dropped : Z;
  overload_ : bool;
  parents : list Z;               (* children_overload_ of the parent tasks *)
  children_overload_ : Z;
  init_arg_ : Z * bool * bool
}.

Record QueueArg := MkQueueArg { a_size : Z; a_prefetch : bool; a_backpressure : bool }.

Definition DEFAULT_QUEUE_SIZE : Z := 1024.
Definition queue_burst_max : Z := 32.      (* PacketBatch::kMaxBurst *)
Definition pkt_overhead : Z := 24.

Definition new_queue (ps : list Z) : Queue := MkQueue None false false 0 0 0 0 0 0 0 false ps 0 (0, false, false).

Section Queue.
Context (alloc : Z -> bool) (len : Z -> Z).
Implicit Types (m : Queue) (r : llring Z).

Definition set_ring r m : Queue :=
  MkQueue (Some r) (prefetch_ m) (backpressure_ m) (burst_ m) (size_ m) (high_water_ m) (low_water_ m)
    (q_enqueued m) (q_dequeued m) (q_dropped m) (overload_ m) (parents m) (children_overload_ m) (init_arg_ m).
Definition set_ring_size r n m : Queue :=
  MkQueue (Some r) (prefetch_ m) (backpressure_ m) (burst_ m) n (high_water_ m) (low_water_ m)
    (q_enqueued m) (q_dequeued m) (q_dropped m) (overload_ m) (parents m) (children_overload_ m) (init_arg_ m).
Definition set_levels hi lo m : Queue :=
  MkQueue (queue_ m) (prefetch_ m) (backpressure_ m) (burst_ m) (size_ m) hi lo
    (q_enqueued m) (q_dequeued m) (q_dropped m) (overload_ m) (parents m) (children_overload_ m) (init_arg_ m).
Definition set_switches pf bp m : Queue :=
  MkQueue (queue_ m) pf bp (burst_ m) (size_ m) (high_water_ m) (low_water_ m)
    (q_enqueued m) (q_dequeued m) (q_dropped m) (overload_ m) (parents m) (children_overload_ m) (init_arg_ m).
Definition set_burst b m : Queue :=
  MkQueue (queue_ m) (prefetch_ m) (backpressure_ m) b (size_ m) (high_water_ m) (low_water_ m)
    (q_enqueued m) (q_dequeued m) (q_dropped m) (overload_ m) (parents m) (children_overload_ m) (init_arg_ m).
Definition set_stats e d x m : Queue :=
  MkQueue (queue_ m) (prefetch_ m) (backpressure_ m) (burst_ m) (size_ m) (high_water_ m) (low_water_ m)
    (u64 e) (u64 d) (u64 x) (overload_ m) (parents m) (children_overload_ m) (init_arg_ m).
Definition set_overload o ps m : Queue :=
  MkQueue (queue_ m) (prefetch_ m) (backpressure_ m) (burst_ m) (size_ m) (high_water_ m) (low_water_ m)
    (q_enqueued m) (q_dequeued m) (q_dropped m) o ps (children_overload_ m) (init_arg_ m).
Definition set_init_arg a m : Queue :=
  MkQueue (queue_ m) (prefetch_ m) (backpressure_ m) (burst_ m) (size_ m) (high_water_ m) (low_water_ m)
    (q_enqueued m) (q_dequeued m) (q_dropped m) (overload_ m) (parents m) (children_overload_ m) a.

(** ** Backpressure *)

Definition SignalOverload m : Queue :=
  if overload_ m then m else set_overload true ((fun c => c + 1) <$> parents m) m.

Definition SignalUnderload m : Queue :=
  if negb (overload_ m) then m else set_overload false ((fun c => c - 1) <$> parents m) m.

(** The literals 0.90 and 0.15. *)
Definition kHighWaterRatio : spec_float := binary_normalize 53 1024 8106479329266893 (-53) false.
Definition kLowWaterRatio : spec_float := binary_normalize 53 1024 5404319552844595 (-55) false.

Definition AdjustWaterLevels m : option Queue :=
  hi ← to_u64 (dbl_mul (of_u64 (size_ m)) kHighWaterRatio);
  lo ← to_u64 (dbl_mul (of_u64 (size_ m)) kLowWaterRatio);
  Some (set_levels hi lo m).

(** ** Sizes *)

(** One packet of the old ring to the new one; [NOBUF] frees it. *)
Definition migrate_step (st : llring Z * llring Z * list Z) :
    (llring Z * llring Z * list Z) + option (llring Z * list Z) :=
  let '(old, new, freed) := st in
  match llring_sc_dequeue old with
  | Some (0, [pkt], old) =>
      match llring_sp_enqueue new pkt with
      | Some (ret, new) =>
          inl (old, new, if ret =? - LLRING_ERR_NOBUF then freed ++ [pkt] else freed)
      | None => inr None
      end
  | Some _ => inr (Some (new, freed))
  | None => inr None
  end.

Definition migrate (old new : llring Z) : option (llring Z * list Z) :=
  match iter_until fuel64 migrate_step (old, new, []) with inr o => o | inl _ => None end.

(** The value returned, the module and the packets freed. *)
Definition Resize (slots : Z) m : option (Z * Queue * list Z) :=
  if negb (alloc (llring_bytes_with_slots slots)) then Some (- ENOMEM, m, [])
  else
    match llring_init 0 slots false true with
    | (_, None) => Some (- EINVAL, m, [])
    | (_, Some new) =>
        '(new, freed) ← match queue_ m with Some old => migrate old new | None => Some (new, []) end;
        let m := set_ring_size new slots m in
        m ← (if backpressure_ m then AdjustWaterLevels m else Some m);
        Some (0, m, freed)
    end.

Definition SetSize (size : Z) m : option (CommandResponse * Queue * list Z) :=
  if (size <? 4) || (16384 <? size) then Some (CommandFailure EINVAL, m, [])
  else if negb (Z.land size (size - 1) =? 0) then Some (CommandFailure EINVAL, m, [])
  else
    '(ret, m, freed) ← Resize size m;
    Some (if ret =? 0 then CommandSuccess else CommandFailure (- ret), m, freed).

Definition is_success (c : CommandResponse) : bool := match c with CommandSuccess => true | _ => false end.

(** [tid_ok]: [RegisterTask] gives a task. *)
Definition Init (tid_ok : bool) (arg : QueueArg) m : option (CommandResponse * Queue) :=
  if negb tid_ok then Some (CommandFailure ENOMEM, m)
  else
    let m := set_burst queue_burst_max m in
    let m := if a_backpressure arg then set_switches (prefetch_ m) true m else m in
    '(res, m) ←
      (if negb (a_size arg =? 0) then '(res, m, _) ← SetSize (a_size arg) m; Some (res, m)
       else
         '(ret, m, _) ← Resize DEFAULT_QUEUE_SIZE m;
         Some (if ret =? 0 then CommandSuccess else CommandFailure (- ret), m));
    if negb (is_success res) then Some (res, m)
    else
      let m := if a_prefetch arg then set_switches true (backpressure_ m) m else m in
      Some (CommandSuccess, set_init_arg (a_size arg, a_prefetch arg, a_backpressure arg) m).

Definition GetInitialArg m : Z * bool * bool := init_arg_ m.
Definition GetRuntimeConfig m : QueueArg := MkQueueArg (size_ m) (prefetch_ m) (backpressure_ m).

Definition SetRuntimeConfig (arg : QueueArg) m : option (CommandResponse * Queue * list Z) :=
  '(res, m, freed) ←
    (if negb (size_ m =? a_size arg) && negb (a_size arg =? 0) then SetSize (a_size arg) m
     else Some (CommandSuccess, m, []));
  if negb (is_success res) then Some (res, m, freed)
  else Some (CommandSuccess, set_switches (a_prefetch arg) (a_backpressure arg) m, freed).

Definition CommandSetBurst (burst : Z) m : CommandResponse * Queue :=
  if queue_burst_max <? burst then (CommandFailure EINVAL, m) else (CommandSuccess, set_burst burst m).

Definition CommandSetSize := SetSize.

Definition CommandGetStatus m : option (Z * Z * Z * Z * Z) :=
  r ← queue_ m; Some (llring_count r, size_ m, q_enqueued m, q_dequeued m, q_dropped m).

Definition GetDesc m : option (Z * Z) := r ← queue_ m; Some (llring_count r, r_slots r).

(** The packets freed when the module goes. *)
Definition drain_step (st : llring Z * list Z) : (llring Z * list Z) + option (list Z) :=
  match llring_sc_dequeue st.1 with
  | Some (0, [pkt], r) => inl (r, st.2 ++ [pkt])
  | Some _ => inr (Some st.2)
  | None => inr None
  end.

Definition DeInit m : option (list Z) :=
  match queue_ m with
  | None => Some []
  | Some r => match iter_until fuel64 drain_step (r, []) with inr o => o | inl _ => None end
  end.

(** ** Packets *)

(** What follows the call of the ring, which took [queued] packets. *)
Definition after_enqueue (batch : list Z) (queued : Z) r m : Queue * list Z :=
  let cnt := Z.of_nat (length batch) in
  let m := set_ring r m in
  let m := if backpressure_ m && (high_water_ m <? llring_count r) then SignalOverload m else m in
  let m := set_stats (q_enqueued m + queued) (q_dequeued m) (q_dropped m) m in
  if queued <? cnt then
    (set_stats (q_enqueued m) (q_dequeued m) (q_dropped m + (cnt - queued)) m, drop (Z.to_nat queued) batch)
  else (m, []).

(** From upstream: the module and the packets dropped. *)
Definition ProcessBatch (batch : list Z) m : option (Queue * list Z) :=
  r ← queue_ m;
  '(queued, r) ← llring_mp_enqueue_burst r batch (Z.of_nat (length batch));
  Some (after_enqueue batch queued r m).

Fixpoint sum_len (l : list Z) : Z := match l with [] => 0 | p :: l => len p + sum_len l end.

(** What follows the call of the ring, which gave [pkts]. *)
Definition after_dequeue (cnt : Z) (pkts : list Z) r m : Queue * task_result * list Z :=
  let m := set_ring r m in
  let cnt := u32 cnt in
  if cnt =? 0 then (m, Task true 0 0, [])
  else
    let m := set_stats (q_enqueued m) (q_dequeued m + cnt) (q_dropped m) m in
    let total_bytes := u64 (sum_len pkts) in
    let m := if backpressure_ m && (llring_count r <? low_water_ m) then SignalUnderload m else m in
    (m, Task false cnt (u64 ((total_bytes + u32 (cnt * pkt_overhead)) * 8)), pkts).

(** To downstream: the module, the result and the batch sent on. *)
Definition RunTask m : option (Queue * task_result * list Z) :=
  if 0 <? children_overload_ m then Some (m, Task true 0 0, [])
  else
    r ← queue_ m;
    '(cnt, pkts, r) ← llring_sc_dequeue_burst r (burst_ m);
    Some (after_dequeue cnt pkts r m).

Inductive CheckConstraintResult := CHECK_OK | CHECK_NONFATAL_ERROR | CHECK_FATAL_ERROR.

(** From the number of tasks that reach the module and of its own. *)
Definition CheckModuleConstraints (num_active_tasks num_tasks : Z) : CheckConstraintResult :=
  let status := if u64 (num_active_tasks - num_tasks) <? 1 then CHECK_NONFATAL_ERROR else CHECK_OK in
  if 1 <? num_tasks then CHECK_FATAL_ERROR else status.

End Queue.

(** ** The module holds a queue *)

Section Proofs.
Context (alloc : Z -> bool) (len : Z -> Z).
Implicit Types (m : Queue) (r : llring Z) (Q batch : list Z).

Record queue_ok m (k : Z) Q : Prop := {
  qo_ring : exists r, queue_ m = Some r /\ ring_for r k Q;
  qo_k : 2 <= k <= 14;
  qo_size : size_ m = 2 ^ k;
  qo_burst : 0 <= burst_ m <= queue_burst_max;
  qo_stats : 0 <= q_enqueued m < 2 ^ 64 /\ 0 <= q_dequeued m < 2 ^ 64 /\ 0 <= q_dropped m < 2 ^ 64
}.

Lemma size_pow k : 2 <= k <= 14 -> 4 <= 2 ^ k <= 2 ^ 14.
Proof. intros. pose proof (pow2_mono 2 k ltac:(lia)). pose proof (pow2_mono k 14 ltac:(lia)). lia. Qed.

Lemma put_burst r k Q batch :
  ring_for r k Q ->
  let n := Z.min (Z.of_nat (length batch)) (room_of k Q) in
  exists r', llring_mp_enqueue_burst r batch (Z.of_nat (length batch)) = Some (n, r') /\
    ring_for r' k (Q ++ take (Z.to_nat n) batch).
Proof.
  intros [H W] n. unfold llring_mp_enqueue_burst. rewrite (mp_enqueue_alone r k Q) by done.
  destruct (sp_enqueue_holds r k Q batch (Z.of_nat (length batch)) LLRING_QUEUE_VARIABLE H ltac:(lia)) as (r' & E & H' & _ & _ & Hw).
  exists r'. pose proof (h_len _ _ _ H) as Hl. rewrite E. unfold fifo_enqueue in *. fold (room_of k Q) in *. fold n in H'.
  assert (En : (room_of k Q <? Z.of_nat (length batch)) && (room_of k Q =? 0) = true -> n = 0).
  { intros [E1%Z.ltb_lt E2%Z.eqb_eq]%andb_prop. unfold n. lia. }
  destruct (_ && _); simpl in *.
  - rewrite (En eq_refl), app_nil_r. split; [done|]. split; [done|congruence].
  - fold n. split.
    + rewrite (proj2 (Z.leb_gt _ _)); [done|]. rewrite W. unfold n, room_of. lia.
    + split; [done|congruence].
Qed.

Lemma take_burst r k Q n :
  ring_for r k Q -> 0 <= n ->
  let c := Z.min n (Z.of_nat (length Q)) in
  exists r', llring_sc_dequeue_burst r n = Some (c, take (Z.to_nat c) Q, r') /\ ring_for r' k (drop (Z.to_nat c) Q).
Proof.
  intros [H W] Hn c. unfold llring_sc_dequeue_burst.
  destruct (sc_dequeue_holds r k Q n LLRING_QUEUE_VARIABLE H Hn) as (r' & E & H' & _ & _ & Hw).
  exists r'. rewrite E. split; [done|]. split; [done|congruence].
Qed.

Lemma migrate_ok k k' old new Q :
  ring_for old k Q -> ring_for new k' [] ->
  exists new', migrate old new = Some (new', drop (Z.to_nat (room_of k' ([] : list Z))) Q) /\
    ring_for new' k' (take (Z.to_nat (room_of k' ([] : list Z))) Q).
Proof.
  intros Ho Hn. set (rm := Z.to_nat (room_of k' ([] : list Z))).
  set (P := fun st : llring Z * llring Z * list Z =>
    exists moved rest, Q = moved ++ rest /\ ring_for st.1.1 k rest /\
      ring_for st.1.2 k' (take rm moved) /\ st.2 = drop rm moved).
  destruct (iter_until_total P
    (fun o => exists new', o = Some (new', drop rm Q) /\ ring_for new' k' (take rm Q))
    (fun st => llring_count st.1.1) fuel64 migrate_step (old, new, [])) as (o & E & new' & -> & Hn').
  - intros [[old1 new1] freed] (moved & rest & EQ & Ho1 & Hn1 & Ef). cbn [fst snd] in *. subst freed.
    pose proof (get_one _ _ _ Ho1) as G. unfold migrate_step. destruct rest as [|p rest].
    + destruct G as (r' & ->). rewrite app_nil_r in EQ. subst moved. by exists new1.
    + destruct G as (old2 & -> & Ho2). pose proof (put_one _ _ _ p Hn1) as G.
      assert (Hm : 0 <= llring_count old2 < llring_count old1).
      { rewrite (ring_count _ _ _ Ho2), (ring_count _ _ _ Ho1). simpl. lia. }
      assert (Er : room_of k' (take rm moved) = Z.of_nat (rm - length moved)).
      { pose proof (h_len _ _ _ (rf_holds _ _ _ Hn)) as Hl. unfold room_of in *. rewrite length_take. simpl in Hl.
        unfold rm, room_of. simpl. lia. }
      assert (EQ' : Q = (moved ++ [p]) ++ rest) by by rewrite <- app_assoc.
      destruct (Z.eqb_spec (room_of k' (take rm moved)) 0) as [E0|E0].
      * rewrite G. cbn. split; [|done]. exists (moved ++ [p]), rest. cbn [fst snd].
        rewrite take_app_le, drop_app_le by lia. done.
      * destruct G as (new2 & -> & Hn2). cbn. split; [|done]. exists (moved ++ [p]), rest. cbn [fst snd].
        rewrite (take_ge (moved ++ [p])) by (rewrite length_app; simpl; lia).
        rewrite (take_ge moved) in Hn2 by lia. rewrite !drop_ge by (rewrite ?length_app; simpl; lia). done.
  - exists [], Q. cbn. by rewrite take_nil, drop_nil.
  - cbn [fst]. rewrite (ring_count _ _ _ Ho). destruct (rf_holds _ _ _ Ho) as [Hok _ _ _ Hl _ _].
    pose proof (ring_pow k (ok_k _ _ Hok)). unfold fuel64. lia.
  - exists new'. unfold migrate. by rewrite E.
Qed.

Lemma queue_drain_ok k r Q : ring_for r k Q -> iter_until fuel64 drain_step (r, []) = inr (Some Q).
Proof.
  intros Hr.
  set (P := fun st : llring Z * list Z => exists rest, Q = st.2 ++ rest /\ ring_for st.1 k rest).
  destruct (iter_until_total P (fun o => o = Some Q) (fun st => llring_count st.1) fuel64 drain_step (r, []))
    as (o & E & ->); [| | |exact E].
  - intros [r1 l] (rest & EQ & H1). cbn [fst snd] in *. pose proof (get_one _ _ _ H1) as G. unfold drain_step. cbn [fst snd].
    destruct rest as [|p rest].
    + destruct G as (r' & ->). by rewrite EQ, app_nil_r.
    + destruct G as (r2 & -> & H2). split.
      * exists rest. cbn [fst snd]. by rewrite <- app_assoc.
      * cbn [fst]. rewrite (ring_count _ _ _ H2), (ring_count _ _ _ H1). simpl. lia.
  - by exists Q.
  - cbn [fst]. rewrite (ring_count _ _ _ Hr). destruct (rf_holds _ _ _ Hr) as [Hok _ _ _ Hl _ _].
    pose proof (ring_pow k (ok_k _ _ Hok)). unfold fuel64. lia.
Qed.

(** ** The handlers *)

Lemma u64_id x : 0 <= x < 2 ^ 64 -> u64 x = x.
Proof. intros. by apply wrap_small. Qed.

Lemma u64_u64 x : u64 (u64 x) = u64 x.
Proof. apply wrap_wrap. lia. Qed.

Lemma u64_bound x : 0 <= u64 x < 2 ^ 64.
Proof. apply wrap_range. lia. Qed.

(** What [m'] shares with [m]. *)
Definition same_settings m m' : Prop :=
  children_overload_ m' = children_overload_ m /\ backpressure_ m' = backpressure_ m /\
  high_water_ m' = high_water_ m /\ low_water_ m' = low_water_ m /\ burst_ m' = burst_ m.

Lemma after_enqueue_ok m k Q batch r' n :
  queue_ok m k Q -> ring_for r' k (Q ++ take (Z.to_nat n) batch) -> 0 <= n <= Z.of_nat (length batch) ->
  let m1 := if backpressure_ m && (high_water_ m <? Z.of_nat (length Q) + n) then SignalOverload m else m in
  exists m', after_enqueue batch n r' m = (m', drop (Z.to_nat n) batch) /\
    queue_ok m' k (Q ++ take (Z.to_nat n) batch) /\ same_settings m m' /\
    overload_ m' = overload_ m1 /\ parents m' = parents m1 /\
    q_enqueued m' = u64 (q_enqueued m + n) /\ q_dequeued m' = q_dequeued m /\
    q_dropped m' = u64 (q_dropped m + (Z.of_nat (length batch) - n)).
Proof.
  intros [(r & Er & Hr) Hk Hs Hb (S1 & S2 & S3)] Hr' Hn m1.
  assert (Ec : llring_count r' = Z.of_nat (length Q) + n).
  { rewrite (ring_count _ _ _ Hr'), length_app, length_take. lia. }
  unfold after_enqueue. rewrite Ec. cbn [set_ring backpressure_ high_water_].
  subst m1. unfold SignalOverload. destruct (Z.ltb_spec n (Z.of_nat (length batch))) as [Hlt|Hge].
  - destruct (backpressure_ m && _), (overload_ m) eqn:Eo; cbn; rewrite ?Eo; cbn;
      (eexists; split; [reflexivity|]); cbn; rewrite ?u64_u64, ?(u64_id (q_dequeued m)), ?(u64_id (q_dropped m)) by done;
      (split; [|done]); split; cbn; rewrite ?u64_u64; auto using u64_bound; by exists r'.
  - assert (n = Z.of_nat (length batch)) as -> by lia. rewrite Z.sub_diag, Z.add_0_r, (drop_ge batch) by lia.
    destruct (backpressure_ m && _), (overload_ m) eqn:Eo; cbn; rewrite ?Eo; cbn;
      (eexists; split; [reflexivity|]); cbn; rewrite ?u64_u64, ?(u64_id (q_dequeued m)), ?(u64_id (q_dropped m)) by done;
      (split; [|done]); split; cbn; rewrite ?u64_u64; auto using u64_bound; by exists r'.
Qed.

Lemma process_ok m k Q batch :
  queue_ok m k Q ->
  let n := Z.min (Z.of_nat (length batch)) (room_of k Q) in
  let m1 := if backpressure_ m && (high_water_ m <? Z.of_nat (length Q) + n) then SignalOverload m else m in
  exists m', ProcessBatch batch m = Some (m', drop (Z.to_nat n) batch) /\
    queue_ok m' k (Q ++ take (Z.to_nat n) batch) /\ same_settings m m' /\
    overload_ m' = overload_ m1 /\ parents m' = parents m1 /\
    q_enqueued m' = u64 (q_enqueued m + n) /\ q_dequeued m' = q_dequeued m /\
    q_dropped m' = u64 (q_dropped m + (Z.of_nat (length batch) - n)).
Proof.
  intros H n m1. destruct (qo_ring _ _ _ H) as (r & Er & Hr).
  destruct (put_burst r k Q batch Hr) as (r' & E & Hr'). fold n in E, Hr'.
  pose proof (h_len _ _ _ (rf_holds _ _ _ Hr)) as Hl.
  destruct (after_enqueue_ok m k Q batch r' n H Hr') as (m' & E' & Rest); [unfold n, room_of; lia|].
  exists m'. split; [|exact Rest]. unfold ProcessBatch. by rewrite Er, bind_some, E, bind_some, E'.
Qed.

Lemma sum_len_bound l :
  (forall p, 0 <= len p < 2 ^ 32) -> 0 <= sum_len len l <= Z.of_nat (length l) * 2 ^ 32.
Proof. intros H. induction l as [|p l IH]; simpl sum_len; [simpl; lia|]. specialize (H p). cbn [length]. lia. Qed.

Lemma after_dequeue_ok m k Q r' n :
  queue_ok m k Q -> ring_for r' k (drop (Z.to_nat n) Q) -> 0 <= n <= Z.of_nat (length Q) -> n <= queue_burst_max ->
  (forall p, 0 <= len p < 2 ^ 32) ->
  let m1 := if backpressure_ m && (0 <? n) && (Z.of_nat (length Q) - n <? low_water_ m) then SignalUnderload m else m in
  exists m', after_dequeue len n (take (Z.to_nat n) Q) r' m =
      (m', Task (n =? 0) n ((sum_len len (take (Z.to_nat n) Q) + n * pkt_overhead) * 8), take (Z.to_nat n) Q) /\
    queue_ok m' k (drop (Z.to_nat n) Q) /\ same_settings m m' /\
    overload_ m' = overload_ m1 /\ parents m' = parents m1 /\
    q_enqueued m' = q_enqueued m /\ q_dequeued m' = u64 (q_dequeued m + n) /\ q_dropped m' = q_dropped m.
Proof.
  intros [(r & Er & Hr) Hk Hs Hb (S1 & S2 & S3)] Hr' Hn Hmax Hlen m1. unfold queue_burst_max in Hmax.
  assert (Ec : llring_count r' = Z.of_nat (length Q) - n).
  { rewrite (ring_count _ _ _ Hr'), length_drop. lia. }
  pose proof (sum_len_bound (take (Z.to_nat n) Q) Hlen) as Hsum. rewrite length_take in Hsum.
  unfold after_dequeue. rewrite Ec. cbn [set_ring backpressure_ low_water_].
  rewrite (wrap_small 32 n) by lia. subst m1. unfold SignalUnderload. destruct (Z.eqb_spec n 0) as [->|Hne].
  - rewrite andb_false_r. change (Z.to_nat 0) with O in *. rewrite take_0, drop_0 in *. simpl sum_len. exists (set_ring r' m).
    split; [done|]. split; [split; cbn; auto; by exists r'|]. rewrite Z.add_0_r, u64_id by done. done.
  - rewrite (proj2 (Z.ltb_lt 0 n)) by lia. rewrite andb_true_r. unfold pkt_overhead.
    rewrite (wrap_small 32 (n * 24)), (u64_id (sum_len _ _)), (u64_id ((_ + _) * 8)) by lia.
    cbn [set_stats set_ring backpressure_ low_water_ overload_ parents].
    destruct (backpressure_ m && (Z.of_nat (length Q) - n <? low_water_ m)), (overload_ m) eqn:Eo; cbn; rewrite ?Eo; cbn;
      (eexists; split; [reflexivity|]); cbn; rewrite ?u64_u64, ?(u64_id (q_enqueued m)), ?(u64_id (q_dropped m)) by done;
      (split; [|done]); split; cbn; rewrite ?u64_u64; auto using u64_bound; by exists r'.
Qed.

Lemma run_ok m k Q :
  queue_ok m k Q -> children_overload_ m <= 0 -> (forall p, 0 <= len p < 2 ^ 32) ->
  let n := Z.min (burst_ m) (Z.of_nat (length Q)) in
  let m1 := if backpressure_ m && (0 <? n) && (Z.of_nat (length Q) - n <? low_water_ m) then SignalUnderload m else m in
  exists m', RunTask len m =
      Some (m', Task (n =? 0) n ((sum_len len (take (Z.to_nat n) Q) + n * pkt_overhead) * 8), take (Z.to_nat n) Q) /\
    queue_ok m' k (drop (Z.to_nat n) Q) /\ same_settings m m' /\
    overload_ m' = overload_ m1 /\ parents m' = parents m1 /\
    q_enqueued m' = q_enqueued m /\ q_dequeued m' = u64 (q_dequeued m + n) /\ q_dropped m' = q_dropped m.
Proof.
  intros H Hc Hlen n m1. destruct (qo_ring _ _ _ H) as (r & Er & Hr). pose proof (qo_burst _ _ _ H) as Hb.
  destruct (take_burst r k Q (burst_ m) Hr) as (r' & E & Hr'); [lia|]. fold n in E, Hr'.
  destruct (after_dequeue_ok m k Q r' n H Hr') as (m' & E' & Rest); [lia|lia|done|].
  exists m'. split; [|exact Rest]. unfold RunTask. rewrite (proj2 (Z.ltb_ge 0 _)) by done.
  by rewrite Er, bind_some, E, bind_some, E'.
Qed.

(** ** Sizes *)

Lemma land_pred x : 0 < x -> Z.land x (x - 1) = 0 <-> exists j, 0 <= j /\ x = 2 ^ j.
Proof.
  intros Hx. pose proof (Z.log2_spec x Hx) as Hl. pose proof (Z.log2_nonneg x) as H0. split.
  - intros E. exists (Z.log2 x). split; [done|]. destruct (decide (x = 2 ^ Z.log2 x)) as [|Hne]; [done|].
    assert (B : Z.testbit (Z.land x (x - 1)) (Z.log2 x) = true).
    { assert (El : Z.log2 (x - 1) = Z.log2 x) by (apply Z.log2_unique; lia).
      rewrite Z.land_spec, Z.bit_log2 by done. rewrite <- El. apply Z.bit_log2. lia. }
    by rewrite E, Z.bits_0 in B.
  - intros (j & Hj & ->). rewrite land_ones_mod by done. apply Z.mod_same. lia.
Qed.

Lemma levels_ok m k :
  2 <= k <= 14 -> size_ m = 2 ^ k -> AdjustWaterLevels m = Some (set_levels (2 ^ k * 9 / 10) (2 ^ k * 15 / 100) m).
Proof.
  intros Hk Hs. unfold AdjustWaterLevels. rewrite Hs.
  assert (Hc : k = 2 \/ k = 3 \/ k = 4 \/ k = 5 \/ k = 6 \/ k = 7 \/ k = 8 \/ k = 9 \/ k = 10 \/ k = 11 \/ k = 12 \/ k = 13 \/ k = 14) by lia.
  repeat (destruct Hc as [->|Hc]; [reflexivity|]). by subst k.
Qed.

Lemma bytes_ok k : 2 <= k <= 14 -> llring_bytes_with_slots (2 ^ k) = 256 + 8 * 2 ^ k.
Proof.
  intros Hk. pose proof (size_pow k Hk). unfold llring_bytes_with_slots, sizeof_llring, to_signed.
  rewrite (wrap_small 64) by lia. rewrite (wrap_small 32) by lia. change (2 ^ (32 - 1)) with (2 ^ 31).
  by rewrite (proj2 (Z.ltb_lt _ _)) by lia.
Qed.

(** The new ring holds what fits of the old one, oldest first; the rest is freed. *)
Lemma resize_ok m k Q j :
  queue_ok m k Q -> 2 <= j <= 14 -> alloc (256 + 8 * 2 ^ j) = true ->
  let c := Z.to_nat (2 ^ j - 1) in
  exists m', Resize alloc (2 ^ j) m = Some (0, m', drop c Q) /\ queue_ok m' j (take c Q) /\
    overload_ m' = overload_ m /\ parents m' = parents m /\ children_overload_ m' = children_overload_ m /\
    backpressure_ m' = backpressure_ m /\ burst_ m' = burst_ m /\
    (high_water_ m', low_water_ m') =
      (if backpressure_ m then (2 ^ j * 9 / 10, 2 ^ j * 15 / 100) else (high_water_ m, low_water_ m)).
Proof.
  intros [(r & Er & Hr) Hk Hs Hb Hst] Hj Ha c. pose proof (size_pow j Hj).
  unfold Resize. rewrite bytes_ok, Ha by done. cbn [negb].
  destruct (init_holds 0 j false true ltac:(lia)) as (new & -> & Hn & _ & _ & Hw). rewrite Er.
  destruct (migrate_ok k j r new Q Hr) as (new' & E & Hn'); [by split|]. rewrite E, bind_some.
  assert (Ec : Z.to_nat (room_of j ([] : list Z)) = c) by (unfold room_of, c; f_equal; simpl; lia).
  rewrite Ec in *. cbn [backpressure_ set_ring_size].
  assert (Ok : forall m', (exists r, queue_ m' = Some r /\ ring_for r j (take c Q)) -> size_ m' = 2 ^ j -> burst_ m' = burst_ m ->
    q_enqueued m' = q_enqueued m -> q_dequeued m' = q_dequeued m -> q_dropped m' = q_dropped m -> queue_ok m' j (take c Q)).
  { intros m' R S B S1 S2 S3. split; [done|done|done|by rewrite B|by rewrite S1, S2, S3]. }
  destruct (backpressure_ m) eqn:Ebp.
  - rewrite (levels_ok _ j), bind_some by done. eexists. split; [reflexivity|].
    split; [apply Ok; cbn; try done; by exists new'|]. cbn. by rewrite Ebp.
  - rewrite bind_some. eexists. split; [reflexivity|].
    split; [apply Ok; cbn; try done; by exists new'|]. cbn. by rewrite Ebp.
Qed.

(** The answers of [SetSize]: invalid sizes change nothing. *)
Lemma set_size_invalid m size :
  size < 4 \/ 16384 < size \/ ~ (exists j, 0 <= j /\ size = 2 ^ j) ->
  SetSize alloc size m = Some (CommandFailure EINVAL, m, []).
Proof.
  intros H. unfold SetSize. destruct (Z.ltb_spec size 4); [done|]. destruct (Z.ltb_spec 16384 size); [done|].
  cbn [orb]. destruct (Z.eqb_spec (Z.land size (size - 1)) 0) as [E|E]; [|done].
  apply land_pred in E; [|lia]. destruct H as [H|[H|H]]; [lia|lia|done].
Qed.

Lemma set_size_ok m k Q j :
  queue_ok m k Q -> 2 <= j <= 14 -> alloc (256 + 8 * 2 ^ j) = true ->
  exists m', SetSize alloc (2 ^ j) m = Some (CommandSuccess, m', drop (Z.to_nat (2 ^ j - 1)) Q) /\
    Resize alloc (2 ^ j) m = Some (0, m', drop (Z.to_nat (2 ^ j - 1)) Q).
Proof.
  intros H Hj Ha. pose proof (size_pow j Hj). destruct (resize_ok m k Q j H Hj Ha) as (m' & E & _).
  exists m'. split; [|done]. unfold SetSize. rewrite (proj2 (Z.ltb_ge (2 ^ j) 4)), (proj2 (Z.ltb_ge 16384 (2 ^ j))) by lia. cbn [orb].
  rewrite (proj2 (land_pred (2 ^ j) ltac:(lia))) by (exists j; lia). cbn [Z.eqb negb]. by rewrite E, bind_some.
Qed.

(** ** Runs of the task and histories *)

Fixpoint runs (n : nat) m : option Queue :=
  match n with
  | O => Some m
  | S n => '(m, _, _) ← RunTask len m; runs n m
  end.

Lemma released_ok k (n : nat) : forall m Q,
  queue_ok m k Q -> (forall p, 0 <= len p < 2 ^ 32) -> children_overload_ m <= 0 ->
  backpressure_ m = true -> overload_ m = true -> 0 < low_water_ m -> 0 < burst_ m ->
  (0 < length Q <= n)%nat ->
  exists c m', (c <= n)%nat /\ runs c m = Some m' /\ overload_ m' = false /\
    parents m' = (fun x => x - 1) <$> parents m.
Proof.
  induction n as [|n IH]; intros m Q H Hlen Hc Hbp Ho Hlow Hb Hn; [lia|].
  destruct (run_ok m k Q H Hc Hlen) as (m1 & E & H1 & (S1 & S2 & S3 & S4 & S5) & Eo & Ep & _).
  set (d := Z.min (burst_ m) (Z.of_nat (length Q))) in *.
  rewrite Hbp, (proj2 (Z.ltb_lt 0 d)) in Eo, Ep by lia. cbn [andb] in Eo, Ep.
  destruct (Z.ltb_spec (Z.of_nat (length Q) - d) (low_water_ m)) as [Hlt|Hge].
  - unfold SignalUnderload in Eo, Ep. rewrite Ho in Eo, Ep. cbn in Eo, Ep.
    exists 1%nat, m1. split; [lia|]. split; [|done]. cbn [runs]. by rewrite E, bind_some.
  - destruct (IH m1 (drop (Z.to_nat d) Q)) as (c & m' & Hc' & E' & Eo' & Ep');
      [done|done|congruence|congruence|congruence|congruence|congruence|rewrite length_drop; lia|].
    exists (S c), m'. split; [lia|]. cbn [runs]. rewrite E, bind_some. rewrite <- Ep. done.
Qed.

Inductive qop := OpBatch (batch : list Z) | OpRun | OpBurst (burst : Z).

Definition qstep (op : qop) m : option Queue :=
  match op with
  | OpBatch batch => fst <$> ProcessBatch batch m
  | OpRun => '(m, _, _) ← RunTask len m; Some m
  | OpBurst burst => Some (CommandSetBurst burst m).2
  end.

Fixpoint qsteps (ops : list qop) m : option Queue :=
  match ops with [] => Some m | op :: ops => m ← qstep op m; qsteps ops m end.

(** Overloaded, with nothing left that could end it. *)
Definition stuck m : Prop := overload_ m = true /\ (backpressure_ m = false \/ low_water_ m <= 0).

Lemma count_nonneg r : 0 <= llring_count r.
Proof. unfold llring_count. apply Z.land_nonneg. left. apply wrap_range. lia. Qed.

Lemma stuck_step op m m' : stuck m -> qstep op m = Some m' -> stuck m' /\ parents m' = parents m.
Proof.
  intros [Ho Hs]. destruct op as [batch| |burst]; cbn [qstep].
  - unfold ProcessBatch. destruct (queue_ m) as [r|]; [|done]. rewrite bind_some.
    destruct (llring_mp_enqueue_burst r batch (Z.of_nat (length batch))) as [[n r']|]; [|done]. rewrite bind_some.
    unfold after_enqueue, SignalOverload. cbn [set_ring backpressure_ high_water_ overload_]. rewrite Ho.
    destruct (backpressure_ m && _), (n <? _); cbn; intros [= <-]; by split.
  - unfold RunTask. destruct (0 <? children_overload_ m); [rewrite bind_some; by intros [= <-]|].
    destruct (queue_ m) as [r|]; [|done]. rewrite bind_some.
    destruct (llring_sc_dequeue_burst r (burst_ m)) as [[[n l] r']|]; [|done]. rewrite bind_some.
    unfold after_dequeue. destruct (u32 n =? 0); [rewrite bind_some; by intros [= <-]|].
    cbn [set_stats set_ring backpressure_ low_water_].
    replace (backpressure_ m && (llring_count r' <? low_water_ m)) with false; [rewrite bind_some; by intros [= <-]|].
    pose proof (count_nonneg r'). destruct Hs as [->|Hs]; [done|].
    rewrite (proj2 (Z.ltb_ge _ _)) by lia. by rewrite andb_false_r.
  - unfold CommandSetBurst. destruct (_ <? _); intros [= <-]; by split.
Qed.

Lemma stuck_steps ops m m' : stuck m -> qsteps ops m = Some m' -> stuck m' /\ parents m' = parents m.
Proof.
  revert m; induction ops as [|op ops IH]; intros m Hs; cbn [qsteps].
  - by intros [= <-].
  - destruct (qstep op m) as [m1|] eqn:E; [|done]. rewrite bind_some.
    destruct (stuck_step op m m1 Hs E) as [H1 <-]. by apply IH.
Qed.

End Proofs.

(** * What the module does *)

(** C31. The module is a bounded queue between its neighbours: a batch is queued in order, all
    of it as long as fewer packets than [size_] are held then, and packets are dropped, and counted,
    only with [size_ - 1] at least in the queue; a run of the task takes the
    oldest packets, at most a burst, and reports their number and bits, unless
    downstream is overloaded; a change to [size] keeps the oldest [size - 1] packets at
    least, and a size that is
    not a power of two from 4 to 16384 is refused.  Whether the queue holds [size_]
    packets, as its documentation has it, is left open here: it does not
    ([queue_holds_one_less]). *)
Theorem queue_transfers alloc len m k Q :
  queue_ok m k Q -> (forall p, 0 <= len p < 2 ^ 32) ->
  (forall batch, let held := Z.of_nat (length Q) in let arrived := Z.of_nat (length batch) in
    exists n m', 0 <= n <= arrived /\ ProcessBatch batch m = Some (m', drop (Z.to_nat n) batch) /\
      queue_ok m' k (Q ++ take (Z.to_nat n) batch) /\ q_enqueued m' = u64 (q_enqueued m + n) /\
      q_dropped m' = u64 (q_dropped m + (arrived - n)) /\
      (held + arrived < size_ m -> n = arrived) /\ (n < arrived -> size_ m - 1 <= held + n)) /\
  (0 < children_overload_ m -> RunTask len m = Some (m, Task true 0 0, [])) /\
  (children_overload_ m <= 0 -> let n := Z.min (burst_ m) (Z.of_nat (length Q)) in
    exists m', RunTask len m =
        Some (m', Task (n =? 0) n ((sum_len len (take (Z.to_nat n) Q) + n * pkt_overhead) * 8), take (Z.to_nat n) Q) /\
      queue_ok m' k (drop (Z.to_nat n) Q) /\ q_dequeued m' = u64 (q_dequeued m + n)) /\
  (forall j, 2 <= j <= 14 -> alloc (256 + 8 * 2 ^ j) = true ->
    exists c m', SetSize alloc (2 ^ j) m = Some (CommandSuccess, m', drop c Q) /\ queue_ok m' j (take c Q) /\
      2 ^ j - 1 <= Z.of_nat c) /\
  (forall size, size < 4 \/ 16384 < size \/ ~ (exists j, 0 <= j /\ size = 2 ^ j) ->
    SetSize alloc size m = Some (CommandFailure EINVAL, m, [])).
Proof.
  intros H Hlen. split_and!.
  - intros batch held arrived. destruct (process_ok m k Q batch H) as (m' & E & H' & _ & _ & _ & E1 & _ & E2).
    destruct (qo_ring _ _ _ H) as (r & _ & Hr & _). pose proof (h_len _ _ _ Hr) as Hl. pose proof (qo_size _ _ _ H).
    eexists _, m'. split; [|do 4 (split; [done|])]; unfold held, arrived, room_of; lia.
  - intros Hc. unfold RunTask. by rewrite (proj2 (Z.ltb_lt 0 _) Hc).
  - intros Hc n. destruct (run_ok len m k Q H Hc Hlen) as (m' & E & H' & _ & _ & _ & _ & E1 & _). by exists m'.
  - intros j Hj Ha. destruct (set_size_ok alloc m k Q j H Hj Ha) as (m' & E & E').
    destruct (resize_ok alloc m k Q j H Hj Ha) as (m'' & E'' & H'' & _). eexists _, m'. split; [exact E|].
    rewrite E' in E''. injection E'' as <-. split; [done|]. pose proof (size_pow j Hj). lia.
  - apply set_size_invalid.
Qed.

(** With [size_ - 1] packets in the queue every other packet is dropped. *)
Lemma queue_holds_one_less m k Q p :
  queue_ok m k Q -> Z.of_nat (length Q) = size_ m - 1 ->
  exists m', ProcessBatch [p] m = Some (m', [p]) /\ queue_ok m' k Q.
Proof.
  intros H Hl. destruct (process_ok m k Q [p] H) as (m' & E & H' & _). exists m'.
  rewrite (qo_size _ _ _ H) in Hl. replace (Z.min _ _) with 0 in E, H' by (unfold room_of; simpl; lia).
  simpl in *. by rewrite app_nil_r in H'.
Qed.

(** Backpressure ends: from an overloaded module that holds packets, with a low
    mark and a burst above 0, the overload is taken back after at most as many runs
    of the task as there are packets, once for each parent task. *)
Theorem queue_released len m k Q :
  queue_ok m k Q -> (forall p, 0 <= len p < 2 ^ 32) -> children_overload_ m <= 0 ->
  backpressure_ m = true -> overload_ m = true -> 0 < low_water_ m -> 0 < burst_ m -> (0 < length Q)%nat ->
  exists c m', (c <= length Q)%nat /\ runs len c m = Some m' /\ overload_ m' = false /\
    parents m' = (fun x => x - 1) <$> parents m.
Proof. intros H Hl Hc Hb Ho Hlow Hbu Hq. apply (released_ok len k (length Q) m Q); auto. Qed.

(** Backpressure may never end: once the switch is turned off while the module
    is overloaded, or while the low mark is 0, which is where it stays when the
    switch is turned on at run time, no batch, run of the task or change of burst
    takes the overload back, and the parent tasks stay blocked. *)
Theorem queue_stays_overloaded len ops m m' :
  stuck m -> qsteps len ops m = Some m' -> overload_ m' = true /\ parents m' = parents m.
Proof. intros H E. destruct (stuck_steps len ops m m' H E) as [[Ho _] Hp]. done. Qed.

(** ** Examples *)

(** A queue of 16 with backpressure and one parent task. *)
Definition demo_queue : option Queue :=
  snd <$> Init (fun _ => true) true (MkQueueArg 16 false true) (new_queue [0]).

Definition packets (n : nat) : list Z := Z.of_nat <$> seq 1 n.

(** It is filled with 15 packets. *)
Definition demo_full : option Queue := m ← demo_queue; fst <$> ProcessBatch (packets 15) m.

Definition ring_list (m : Queue) : Z * Z * Z * list Z :=
  match queue_ m with Some r => (prod_head r, cons_head r, r_mask r, cells r) | None => (0, 0, 0, []) end.

Definition queue_view (m : Queue) : Z * Z * Z * Z * bool * list Z :=
  (size_ m, burst_ m, high_water_ m, low_water_ m, overload_ m, parents m).

Lemma demo_full_view :
  (fun m => (queue_view m, ring_list m)) <$> demo_full =
  Some ((16, 32, 14, 2, true, [1]), (15, 0, 15, packets 15 ++ [0])).
Proof. vm_compute. reflexivity. Qed.

Lemma demo_queue_ok :
  exists m, demo_queue = Some m /\ queue_ok m 4 [] /\ children_overload_ m = 0 /\ backpressure_ m = true /\ low_water_ m = 2.
Proof.
  assert (V : (fun m => (m, match queue_ m with Some r => r | None => Llring 0 0 true true 0 0 0 0 0 [] end)) <$> demo_queue =
    Some (MkQueue (Some (Llring 16 15 false true 16 0 0 0 0 (replicate 16 0))) false true 32 16 14 2 0 0 0 false [0] 0 (16, false, true),
      Llring 16 15 false true 16 0 0 0 0 (replicate 16 0))) by (vm_compute; reflexivity).
  destruct demo_queue as [m|]; [|done]. simpl in V. injection V as -> _. eexists. split; [done|].
  split; [|done]. split; [|lia|done|cbn; unfold queue_burst_max; lia|cbn; lia].
  eexists. split; [reflexivity|]. split; [|done]. split; [by constructor|done|done|cbn; lia|simpl; lia|done|simpl; lia].
Qed.

Lemma queue_transfers_witness :
  exists m n m', demo_queue = Some m /\ ProcessBatch (packets 20) m = Some (m', drop (Z.to_nat n) (packets 20)) /\ 15 <= n /\
    queue_ok m' 4 (take (Z.to_nat n) (packets 20)).
Proof.
  destruct demo_queue_ok as (m & E & H & _).
  destruct (queue_transfers (fun _ => true) (fun _ => 60) m 4 [] H ltac:(intros; lia)) as (Hp & _).
  destruct (Hp (packets 20)) as (n & m' & Hn & E' & H' & _ & _ & _ & Hd). exists m, n, m'. split; [exact E|]. split; [exact E'|].
  split; [|exact H']. rewrite (qo_size _ _ _ H) in Hd. change (length (packets 20)) with 20%nat in *. simpl in Hd. lia.
Defined.

Lemma demo_full_ok :
  exists m, demo_full = Some m /\ queue_ok m 4 (packets 15) /\ children_overload_ m = 0 /\ backpressure_ m = true /\
    overload_ m = true /\ low_water_ m = 2 /\ burst_ m = 32 /\ parents m = [1].
Proof.
  destruct demo_queue_ok as (m & E & H & Hc & Hb & Hl).
  destruct (process_ok m 4 [] (packets 15) H) as (m' & E' & H' & (S1 & S2 & S3 & S4 & S5) & _).
  pose proof demo_full_view as V. unfold demo_full in *. rewrite E in *. rewrite bind_some in *. rewrite E' in *.
  exists m'. split; [done|]. split; [exact H'|].
  simpl in V. injection V as _ V2 _ V3 V4 V5 _.
  split; [congruence|]. split; [congruence|]. done.
Qed.

Lemma queue_released_witness :
  exists m c m', demo_full = Some m /\ (c <= 15)%nat /\ runs (fun _ => 60) c m = Some m' /\ overload_ m' = false /\ parents m' = [0].
Proof.
  destruct demo_full_ok as (m & E & H & Hc & Hb & Ho & Hl & Hbu & Hp).
  destruct (queue_released (fun _ => 60) m 4 (packets 15) H ltac:(intros; lia) ltac:(lia) Hb Ho ltac:(lia) ltac:(lia) ltac:(simpl; lia))
    as (c & m' & Hcl & E' & Eo & Ep).
  exists m, c, m'. rewrite Hp in Ep. split; [exact E|]. split; [exact Hcl|]. split; [exact E'|]. split; [exact Eo|exact Ep].
Defined.

(** The switch is turned off when the queue is full, and then all packets leave. *)
Lemma queue_stays_overloaded_witness :
  exists m m1 m2 ops, demo_full = Some m /\
    SetRuntimeConfig (fun _ => true) (MkQueueArg 16 false false) m = Some (CommandSuccess, m1, []) /\
    qsteps (fun _ => 60) ops m1 = Some m2 /\ llring_count <$> queue_ m2 = Some 0 /\ overload_ m2 = true.
Proof.
  destruct demo_full_ok as (m & E & H & Hc & Hb & Ho & Hl & Hbu & Hp).
  pose proof (qo_size _ _ _ H) as Hs. change (2 ^ 4) with 16 in Hs.
  exists m, (set_switches false false m).
  destruct (run_ok (fun _ => 60) (set_switches false false m) 4 (packets 15)) as (m2 & E2 & H2 & _);
    [by destruct H|cbn; lia|intros; lia|].
  exists m2, [OpRun]. split; [exact E|]. split.
  { unfold SetRuntimeConfig. rewrite Hs. done. }
  assert (Q2 : qsteps (fun _ => 60) [OpRun] (set_switches false false m) = Some m2).
  { cbn [qsteps qstep]. by rewrite E2, !bind_some. }
  split; [exact Q2|]. split.
  - destruct (qo_ring _ _ _ H2) as (r & -> & Hr). cbn [burst_ set_switches] in Hr. rewrite Hbu in Hr.
    simpl. f_equal. apply (ring_count _ _ _ Hr).
  - apply (queue_stays_overloaded (fun _ => 60) [OpRun] (set_switches false false m) m2); [|exact Q2].
    split; [exact Ho|left; reflexivity].
Defined.
