(* ===== verification/Trie.v ===== *)
(** * Prefix tables: [utils/trie.h]

    A string is the list of its bytes.  [char] is signed on the platforms BESS
    runs on, and the code uses it as an index of [children[256]] through
    [size_t], so that a byte from 128 on is an index out of range: [None].  The
    reference is a finite map from keys to a value and a flag, with exact matches
    and longest prefixes. *)

From stdpp Require Import sorting.
From S2P Require Import Prelude.

#[local] Unset Elimination Schemes.

Inductive Node (T : Type) := MkNode (leaf prefix : bool) (val : T) (children : Z -> option (Node T)).
Arguments MkNode {T}.

Section Trie.
Context {T : Type} (dflt : T).       (* T() *)
Implicit Types (n : Node T) (key : list Z).

Definition leaf n : bool := match n with MkNode l _ _ _ => l end.
Definition prefix n : bool := match n with MkNode _ p _ _ => p end.
Definition val n : T := match n with MkNode _ _ v _ => v end.
Definition children n : Z -> option (Node T) := match n with MkNode _ _ _ c => c end.

Definition new_node : Node T := MkNode false false dflt (fun _ => None).

(** [size_t idx = c], as an index of [children]. *)
Definition child_index (c : Z) : option Z :=
  let idx := wrap 64 (to_signed 8 c) in if idx <? 256 then Some idx else None.

(** ** Copies *)

Definition indices : list Z := seqZ 0 256.

(** The copy constructor. *)
Fixpoint copy_node n : Node T :=
  match n with
  | MkNode l p v ch =>
      MkNode l p v (fun i => if bool_decide (0 <= i < 256) then match ch i with Some c => Some (copy_node c) | None => None end else None)
  end.

(** [operator=]: a child that [other] lacks is left as it is. *)
Definition assign_node n other : Node T :=
  MkNode (leaf other) (prefix other) (val other)
    (fun i => if bool_decide (0 <= i < 256) then
                match children other i with Some c => Some (copy_node c) | None => children n i end
              else children n i).

(** ** Insertion *)

Fixpoint insert_at n key (v : T) (p : bool) {struct key} : option (Node T) :=
  match key with
  | [] => Some (MkNode true p v (children n))
  | c :: key =>
      idx ← child_index c;
      let child := match children n idx with Some child => child | None => new_node end in
      child ← insert_at child key v p;
      Some (MkNode (leaf n) (prefix n) (val n) (<[idx := Some child]> (children n)))
  end.

Definition Insert (root : Node T) key v p : option (Node T) := insert_at root key v p.
Definition InsertExact (root : Node T) key v : option (Node T) := Insert root key v false.

(** ** Search *)

(** The loops of the three searches, from node [cur]. *)
Fixpoint match_from cur key {struct key} : option bool :=
  match key with
  | [] => Some (leaf cur)
  | c :: key =>
      idx ← child_index c;
      match children cur idx with
      | None => Some false
      | Some cur => if prefix cur then Some true else match_from cur key
      end
  end.

Definition Match (root : Node T) key : option bool := if prefix root then Some true else match_from root key.

Fixpoint match_prefix_from cur key {struct key} : option bool :=
  match key with
  | [] => Some true
  | c :: key =>
      idx ← child_index c;
      match children cur idx with
      | None => Some false
      | Some cur => if prefix cur then Some true else match_prefix_from cur key
      end
  end.

Definition MatchPrefix (root : Node T) key : option bool :=
  if prefix root then Some true else match_prefix_from root key.

(** [pm] is [prefix_match]; a pair [{false, T()}] is [None] inside. *)
Fixpoint lookup_from cur (pm : option (Node T)) key {struct key} : option (option T) :=
  match key with
  | [] =>
      Some (if leaf cur then Some (val cur) else match pm with Some m => Some (val m) | None => None end)
  | c :: key =>
      idx ← child_index c;
      match children cur idx with
      | None => Some (match pm with Some m => Some (val m) | None => None end)
      | Some cur => lookup_from cur (if prefix cur then Some cur else pm) key
      end
  end.

Definition Lookup (root : Node T) key : option (option T) :=
  lookup_from root (if prefix root then Some root else None) key.

(** ** Listing *)

Fixpoint RecursiveDump n (prelude : list Z) : list (list Z * T * bool) :=
  match n with
  | MkNode l p v ch =>
      (if l || p then [(prelude, v, p)] else []) ++
      concat (map (fun i => match ch i with Some c => RecursiveDump c (prelude ++ [i]) | None => [] end) indices)
  end.

Definition Dump (root : Node T) : list (list Z * T * bool) := RecursiveDump root [].

(** ** Reference *)

(** The longest prefix of [done ++ key], from [done] on, that is a prefix entry. *)
Fixpoint longest (M : gmap (list Z) (T * bool)) (done key : list Z) (best : option T) : option T :=
  let best := match M !! done with Some (v, true) => Some v | _ => best end in
  match key with
  | [] => best
  | c :: key => longest M (done ++ [c]) key best
  end.

Definition ref_lookup (M : gmap (list Z) (T * bool)) key : option T :=
  match M !! key with Some (v, _) => Some v | None => longest M [] key None end.

End Trie.

(** ** What a trie holds *)

Section Proofs.
Context {T : Type} (dflt : T).
Implicit Types (n ch cur : Node T) (key : list Z).

Lemma Node_induction (P : Node T -> Prop) :
  (forall l p v c, (forall i ch, c i = Some ch -> P ch) -> P (MkNode l p v c)) -> forall n, P n.
Proof.
  intros H. fix IH 1. intros [l p v c]. apply H. intros i. destruct (c i) as [ch|].
  - intros ch' [= <-]. apply IH.
  - discriminate.
Qed.

Fixpoint node_at n key {struct key} : option (Node T) :=
  match key with
  | [] => Some n
  | c :: key => ch ← children n c; node_at ch key
  end.

Definition entry n key : option (T * bool) :=
  n' ← node_at n key; if leaf n' then Some (val n', prefix n') else None.

Definition ascii key : Prop := Forall (fun c => 0 <= c < 128) key.

(** A prefix entry is an entry, every node below the root leads to an entry, and
    children are those of ASCII bytes. *)
Definition wf n : Prop := forall key n', node_at n key = Some n' -> prefix n' = true -> leaf n' = true.
Definition alive n : Prop := exists ext, is_Some (entry n ext).
Definition live n : Prop := forall i key n', node_at n (i :: key) = Some n' -> alive n' /\ ascii (i :: key).

Record rep n (M : gmap (list Z) (T * bool)) : Prop := {
  rep_entry : forall key, M !! key = entry n key;
  rep_wf : wf n;
  rep_live : live n
}.

Lemma entry_nil n : entry n [] = if leaf n then Some (val n, prefix n) else None.
Proof. reflexivity. Qed.

Lemma entry_cons n c key : entry n (c :: key) = (ch ← children n c; entry ch key).
Proof. unfold entry. simpl. by destruct (children n c). Qed.

Lemma node_at_app n key key' : node_at n (key ++ key') = (n' ← node_at n key; node_at n' key').
Proof.
  revert n; induction key as [|c key IH]; intros n; [done|]. simpl. destruct (children n c) as [ch|]; [|done].
  apply IH.
Qed.

Lemma entry_app n key key' : entry n (key ++ key') = (n' ← node_at n key; entry n' key').
Proof. unfold entry. rewrite node_at_app. by destruct (node_at n key). Qed.

Lemma child_index_ascii c : 0 <= c < 128 -> child_index c = Some c.
Proof.
  intros Hc. unfold child_index, to_signed. rewrite (wrap_small 8) by lia. change (2 ^ (8 - 1)) with 128.
  rewrite (proj2 (Z.ltb_lt c 128)), wrap_small by lia. by rewrite (proj2 (Z.ltb_lt c 256)) by lia.
Qed.

Lemma wf_child n i ch : wf n -> children n i = Some ch -> wf ch.
Proof. intros H E key n' Hn. apply (H (i :: key)). simpl. by rewrite E. Qed.

Lemma wf_intro n :
  (prefix n = true -> leaf n = true) -> (forall i ch, children n i = Some ch -> wf ch) -> wf n.
Proof.
  intros H0 H [|i key] n'; simpl; [by intros [= <-]|].
  destruct (children n i) as [ch|] eqn:E; [|done]. simpl. by apply (H i).
Qed.

Lemma live_child n i ch : live n -> children n i = Some ch -> live ch /\ alive ch /\ 0 <= i < 128.
Proof.
  intros H E. split_and!.
  - intros j key n' Hn. destruct (H i (j :: key) n') as [Ha Hs]; [cbn [node_at]; by rewrite E|].
    split; [done|]. by inversion Hs.
  - by apply (H i [] ch); simpl; rewrite E.
  - destruct (H i [] ch) as [_ Hs]; [simpl; by rewrite E|]. inversion Hs; lia.
  - destruct (H i [] ch) as [_ Hs]; [simpl; by rewrite E|]. inversion Hs; lia.
Qed.

Lemma live_intro n :
  (forall i ch, children n i = Some ch -> live ch /\ alive ch /\ 0 <= i < 128) -> live n.
Proof.
  intros H i key n'. simpl. destruct (children n i) as [ch|] eqn:E; [|done]. simpl.
  destruct (H i ch E) as (Hl & Ha & Hi). destruct key as [|j key].
  - intros [= <-]. split; [done|]. constructor; [done|constructor].
  - intros Hn. destruct (Hl j key n' Hn) as [Ha' Hs]. split; [done|]. by constructor.
Qed.

(** ** Insertion *)

Lemma insert_ok key v p : forall n,
  ascii key -> wf n -> live n ->
  exists n', insert_at dflt n key v p = Some n' /\
    (forall key', entry n' key' = if decide (key' = key) then Some (v, p) else entry n key') /\ wf n' /\ live n'.
Proof.
  induction key as [|c key IH]; intros n Hs Hw Hl; cbn [insert_at].
  - eexists. split; [done|]. split_and!.
    + intros [|i key']; [done|]. rewrite decide_False by done. by rewrite !entry_cons.
    + apply wf_intro; [done|]. intros i ch. cbn. by apply (wf_child n).
    + apply live_intro. intros i ch. cbn. by apply (live_child n).
  - inversion Hs as [|? ? Hc Hk]; subst. rewrite child_index_ascii by done. cbn [mbind option_bind].
    set (child := match children n c with Some child => child | None => new_node dflt end).
    assert (Hcw : wf child /\ live child).
    { subst child. destruct (children n c) as [ch|] eqn:E.
      - split; [by eapply wf_child|by eapply live_child].
      - split; [by apply wf_intro|by apply live_intro]. }
    assert (Ee : forall key', entry child key' = entry n (c :: key')).
    { intros key'. rewrite entry_cons. subst child. destruct (children n c) as [ch|] eqn:E; [done|].
      by destruct key'. }
    destruct (IH child Hk (proj1 Hcw) (proj2 Hcw)) as (child' & -> & He & Hw' & Hl'). cbn [mbind option_bind].
    eexists. split; [done|]. split_and!.
    + intros [|i key']; [by rewrite decide_False by done|]. rewrite entry_cons. cbn [children].
      destruct (decide (i = c)) as [->|Hne].
      * rewrite fn_insert_eq. cbn [mbind option_bind]. rewrite He, Ee.
        destruct (decide (key' = key)) as [->|]; [by rewrite decide_True|]. by rewrite decide_False by congruence.
      * rewrite fn_insert_ne by done. rewrite decide_False by congruence. by rewrite entry_cons.
    + apply wf_intro; [by apply (Hw [] n)|]. intros i ch. cbn [children].
      destruct (decide (i = c)) as [->|Hne]; [rewrite fn_insert_eq; by intros [= <-]|].
      rewrite fn_insert_ne by done. by apply (wf_child n).
    + apply live_intro. intros i ch. cbn [children].
      destruct (decide (i = c)) as [->|Hne]; [|rewrite fn_insert_ne by done; by apply (live_child n)].
      rewrite fn_insert_eq. intros [= <-]. split_and!; [done| |lia|lia].
      exists key. by rewrite He, decide_True.
Qed.

Lemma rep_new : rep (new_node dflt) ∅.
Proof.
  split; [by intros [|c key]|by apply wf_intro|by apply live_intro].
Qed.

Lemma rep_insert n M key v p :
  rep n M -> ascii key -> exists n', Insert dflt n key v p = Some n' /\ rep n' (<[key := (v, p)]> M).
Proof.
  intros [He Hw Hl] Hs. destruct (insert_ok key v p n Hs Hw Hl) as (n' & E & He' & Hw' & Hl').
  exists n'. split; [done|]. split; [|done|done]. intros key'. rewrite He'.
  destruct (decide (key' = key)) as [->|Hne]; [by rewrite lookup_insert_eq|]. by rewrite lookup_insert_ne, He.
Qed.

(** ** Search *)

Lemma longest_none (M : gmap (list Z) (T * bool)) key : forall done best,
  (forall ext, M !! (done ++ ext) = None) -> longest M done key best = best.
Proof.
  induction key as [|c key IH]; intros done best H; simpl.
  - pose proof (H []) as E. rewrite app_nil_r in E. by rewrite E.
  - pose proof (H []) as E. rewrite app_nil_r in E. rewrite E. apply IH. intros ext. rewrite <- app_assoc. apply H.
Qed.

Definition upd_best (o : option (T * bool)) (best : option T) : option T :=
  match o with Some (v, true) => Some v | _ => best end.

Lemma longest_upd (M : gmap (list Z) (T * bool)) done key best :
  longest M done key best =
  match key with [] => upd_best (M !! done) best | c :: key => longest M (done ++ [c]) key (upd_best (M !! done) best) end.
Proof. by destruct key. Qed.

Lemma lookup_from_ok n M key : forall done cur pm best,
  rep n M -> node_at n done = Some cur -> ascii key -> val <$> pm = upd_best (M !! done) best ->
  lookup_from cur pm key =
    Some (match M !! (done ++ key) with Some (v, _) => Some v | None => longest M done key best end).
Proof.
  induction key as [|c key IH]; intros done cur pm best R Hn Hs Hpm; cbn [lookup_from]; rewrite longest_upd.
  - rewrite app_nil_r. rewrite (rep_entry _ _ R). unfold entry. rewrite Hn. cbn [mbind option_bind].
    destruct (leaf cur) eqn:El; [done|]. rewrite (rep_entry _ _ R) in Hpm. unfold entry in Hpm. rewrite Hn in Hpm.
    simpl in Hpm. rewrite El in Hpm. simpl in Hpm. f_equal. rewrite <- Hpm. by destruct pm.
  - inversion Hs as [|? ? Hc Hk]; subst. rewrite child_index_ascii by done. cbn [mbind option_bind].
    destruct (children cur c) as [cur'|] eqn:Ec.
    + assert (Hn' : node_at n (done ++ [c]) = Some cur').
      { rewrite node_at_app, Hn. simpl. by rewrite Ec. }
      rewrite (IH (done ++ [c]) cur' _ (upd_best (M !! done) best) R Hn' Hk).
      * by rewrite <- app_assoc.
      * rewrite (rep_entry _ _ R (done ++ [c])). unfold entry. rewrite Hn'. cbn [mbind option_bind].
        destruct (prefix cur') eqn:Ep.
        -- by rewrite (rep_wf _ _ R (done ++ [c]) cur' Hn' Ep).
        -- destruct (leaf cur'); done.
    + assert (HN : forall ext, M !! ((done ++ [c]) ++ ext) = None).
      { intros ext. rewrite (rep_entry _ _ R), <- app_assoc, entry_app, Hn. cbn [mbind option_bind app].
        by rewrite entry_cons, Ec. }
      pose proof (HN key) as E0. rewrite <- app_assoc in E0. cbn [app] in E0. rewrite E0.
      rewrite longest_none by done. f_equal. rewrite <- Hpm. by destruct pm.
Qed.

Lemma lookup_ok n M key : rep n M -> ascii key -> Lookup n key = Some (ref_lookup M key).
Proof.
  intros R Hs. unfold Lookup. rewrite (lookup_from_ok n M key [] n _ None R eq_refl Hs); [done|].
  rewrite (rep_entry _ _ R []). rewrite entry_nil. destruct (prefix n) eqn:Ep.
  - by rewrite (rep_wf _ _ R [] n eq_refl Ep).
  - by destruct (leaf n).
Qed.

Lemma lookup_pm key : forall cur m, ascii key -> exists v, lookup_from cur (Some m) key = Some (Some v).
Proof.
  induction key as [|c key IH]; intros cur m Hs; cbn [lookup_from].
  - destruct (leaf cur); by eexists.
  - inversion Hs; subst. rewrite child_index_ascii by done. cbn [mbind option_bind].
    destruct (children cur c) as [cur'|]; [|by eexists]. destruct (prefix cur'); by apply IH.
Qed.

Definition is_some {U} (o : option U) : bool := match o with Some _ => true | None => false end.

Lemma match_from_lookup key : forall cur, ascii key -> match_from cur key = is_some <$> lookup_from cur None key.
Proof.
  induction key as [|c key IH]; intros cur Hs; cbn [match_from lookup_from].
  - by destruct (leaf cur).
  - inversion Hs; subst. rewrite child_index_ascii by done. cbn [mbind option_bind].
    destruct (children cur c) as [cur'|]; [|done]. destruct (prefix cur'); [|by apply IH].
    by destruct (lookup_pm key cur' cur') as (v & ->).
Qed.

Lemma match_lookup n key : ascii key -> Match n key = is_some <$> Lookup n key.
Proof.
  intros Hs. unfold Match, Lookup. destruct (prefix n); [|by apply match_from_lookup].
  by destruct (lookup_pm key n n) as (v & ->).
Qed.

(** The longest entry of a key: itself, or else its longest prefix entry. *)
Definition best_prefix (M : gmap (list Z) (T * bool)) key (v : T) : Prop :=
  exists k1 k2, key = k1 ++ k2 /\ M !! k1 = Some (v, true) /\
    forall k3 k4 w, key = k3 ++ k4 -> (length k1 < length k3)%nat -> M !! k3 <> Some (w, true).

Lemma longest_found (M : gmap (list Z) (T * bool)) key : forall done best v,
  longest M done key best = Some v ->
  (exists k1 k2, key = k1 ++ k2 /\ M !! (done ++ k1) = Some (v, true) /\
    forall k3 k4 w, key = k3 ++ k4 -> (length k1 < length k3)%nat -> M !! (done ++ k3) <> Some (w, true)) \/
  (best = Some v /\ forall k3 k4 w, key = k3 ++ k4 -> M !! (done ++ k3) <> Some (w, true)).
Proof.
  induction key as [|c key IH]; intros done best v; rewrite longest_upd.
  - destruct (M !! done) as [[w []]|] eqn:E; simpl; intros H.
    + left. exists [], []. rewrite (app_nil_r done). split_and!; [done|congruence|]. intros k3 k4 u E3. symmetry in E3.
      apply app_nil in E3 as [-> _]. simpl. lia.
    + right. split; [done|]. intros k3 k4 u E3. symmetry in E3. apply app_nil in E3 as [-> _]. rewrite app_nil_r. congruence.
    + right. split; [done|]. intros k3 k4 u E3. symmetry in E3. apply app_nil in E3 as [-> _]. rewrite app_nil_r. congruence.
  - intros H. apply IH in H as [(k1 & k2 & -> & E1 & Hmax)|[Hb Hmax]].
    + left. exists (c :: k1), k2. rewrite <- app_assoc in E1. split_and!; [done|done|].
      intros [|c' k3] k4 w E3 Hlt; simpl in *; [lia|]. injection E3 as <- E3. specialize (Hmax k3 k4 w E3 ltac:(lia)).
      by rewrite <- app_assoc in Hmax.
    + assert (Hmax' : forall k3 k4 w, c :: key = k3 ++ k4 -> (0 < length k3)%nat -> M !! (done ++ k3) <> Some (w, true)).
      { intros [|c' k3] k4 w E3 Hlt; simpl in *; [lia|]. injection E3 as <- E3. specialize (Hmax k3 k4 w E3).
        by rewrite <- app_assoc in Hmax. }
      destruct (M !! done) as [[w []]|] eqn:E; simpl in Hb.
      * left. exists [], (c :: key). rewrite (app_nil_r done). split_and!; [done|congruence|]. exact Hmax'.
      * right. split; [done|]. intros [|c' k3] k4 u E3; [rewrite app_nil_r; congruence|]. apply (Hmax' _ k4); [done|simpl; lia].
      * right. split; [done|]. intros [|c' k3] k4 u E3; [rewrite app_nil_r; congruence|]. apply (Hmax' _ k4); [done|simpl; lia].
Qed.

Lemma longest_missed (M : gmap (list Z) (T * bool)) key : forall done best,
  longest M done key best = None ->
  best = None /\ forall k3 k4 w, key = k3 ++ k4 -> M !! (done ++ k3) <> Some (w, true).
Proof.
  induction key as [|c key IH]; intros done best; rewrite longest_upd.
  - intros H. assert (best = None /\ forall w, M !! done <> Some (w, true)) as [Hb Hd].
    { destruct (M !! done) as [[w []]|]; simpl in H; split; congruence. }
    split; [done|]. intros k3 k4 w E3. symmetry in E3. apply app_nil in E3 as [-> _]. by rewrite app_nil_r.
  - intros H. apply IH in H as [Hu Hmax].
    assert (best = None /\ forall w, M !! done <> Some (w, true)) as [Hb Hd].
    { destruct (M !! done) as [[w []]|]; simpl in Hu; split; congruence. }
    split; [done|]. intros [|c' k3] k4 w E3; [by rewrite app_nil_r|]. injection E3 as <- E3.
    specialize (Hmax k3 k4 w E3). by rewrite <- app_assoc in Hmax.
Qed.

Lemma ref_lookup_spec (M : gmap (list Z) (T * bool)) key v :
  ref_lookup M key = Some v <-> (exists p, M !! key = Some (v, p)) \/ (M !! key = None /\ best_prefix M key v).
Proof.
  unfold ref_lookup. destruct (M !! key) as [[u p]|] eqn:E.
  - split; [intros [= ->]; left; by exists p|]. intros [(q & Eq)|[? _]]; congruence.
  - split.
    + intros H. right. split; [done|]. apply longest_found in H as [(k1 & k2 & -> & E1 & Hm)|[? _]]; [|done].
      by exists k1, k2.
    + intros [(q & ?)|[_ (k1 & k2 & -> & E1 & Hm)]]; [done|].
      destruct (longest M [] (k1 ++ k2) None) as [w|] eqn:El.
      * apply longest_found in El as [(k1' & k2' & Ek & E1' & Hm')|[? _]]; [|done]. simpl in E1', Hm'.
        destruct (lt_eq_lt_dec (length k1) (length k1')) as [[Hlt|Heq]|Hgt].
        -- by destruct (Hm k1' k2' w Ek Hlt).
        -- apply app_inj_1 in Ek as [-> _]; [congruence|done].
        -- by destruct (Hm' k1 k2 v eq_refl Hgt).
      * apply longest_missed in El as [_ Hno]. by destruct (Hno k1 k2 v eq_refl).
Qed.

Lemma match_prefix_from_ok key : forall cur, ascii key -> wf cur ->
  exists b, match_prefix_from cur key = Some b /\
    (b = true <-> is_Some (node_at cur key) \/ exists c k1 k2 v, key = c :: k1 ++ k2 /\ entry cur (c :: k1) = Some (v, true)).
Proof.
  induction key as [|c key IH]; intros cur Hs Hw; cbn [match_prefix_from].
  - exists true. split; [done|]. split; [|done]. intros _. left. by eexists.
  - inversion Hs; subst. rewrite child_index_ascii by done. cbn [mbind option_bind node_at].
    destruct (children cur c) as [cur'|] eqn:Ec.
    + pose proof (wf_child _ _ _ Hw Ec) as Hw'. destruct (prefix cur') eqn:Ep.
      * exists true. split; [done|]. split; [|done]. intros _. right. exists c, [], key, (val cur'). split; [done|].
        rewrite entry_cons, Ec. cbn [mbind option_bind]. by rewrite entry_nil, (Hw' [] cur' eq_refl Ep), Ep.
      * destruct (IH cur' ltac:(done) Hw') as (b & E & Hb). exists b. split; [done|]. rewrite Hb. cbn [mbind option_bind].
        split; (intros [?|Hex]; [by left|right]).
        -- destruct Hex as (c' & k1 & k2 & v & -> & Ev). exists c, (c' :: k1), k2, v. split; [done|].
           by rewrite entry_cons, Ec.
        -- destruct Hex as (c0 & k1 & k2 & v & [= <- ->] & Ev). rewrite entry_cons, Ec in Ev. cbn [mbind option_bind] in Ev.
           destruct k1 as [|c' k1]; [|by exists c', k1, k2, v].
           rewrite entry_nil, Ep in Ev. by destruct (leaf cur').
    + exists false. split; [done|]. split; [done|]. intros [[? ?]|(c0 & k1 & k2 & v & [= <- ->] & Ev)]; [done|].
      by rewrite entry_cons, Ec in Ev.
Qed.

Lemma match_prefix_ok n M q :
  rep n M -> ascii q ->
  exists b, MatchPrefix n q = Some b /\
    (b = true <-> q = [] \/ (exists ext, is_Some (M !! (q ++ ext))) \/ exists k1 k2 v, q = k1 ++ k2 /\ M !! k1 = Some (v, true)).
Proof.
  intros R Hs. unfold MatchPrefix. destruct (prefix n) eqn:Ep.
  - exists true. split; [done|]. split; [|done]. intros _. right. right. exists [], q, (val n). split; [done|].
    by rewrite (rep_entry _ _ R), entry_nil, (rep_wf _ _ R [] n eq_refl Ep), Ep.
  - destruct (match_prefix_from_ok q n Hs (rep_wf _ _ R)) as (b & E & Hb). exists b. split; [done|]. rewrite Hb. split.
    + intros [[n' Hn]|(c & k1 & k2 & v & -> & Ev)].
      * destruct q as [|c q]; [by left|]. right. left. destruct (rep_live _ _ R c q n' Hn) as [(ext & He) _].
        exists ext. by rewrite (rep_entry _ _ R), entry_app, Hn.
      * right. right. exists (c :: k1), k2, v. by rewrite (rep_entry _ _ R).
    + intros [->|[(ext & He)|(k1 & k2 & v & -> & Ev)]].
      * left. by eexists.
      * left. rewrite (rep_entry _ _ R), entry_app in He. destruct (node_at n q); [by eexists|]. by destruct He.
      * rewrite (rep_entry _ _ R) in Ev. destruct k1 as [|c k1]; [|by right; exists c, k1, k2, v].
        rewrite entry_nil, Ep in Ev. by destruct (leaf n).
Qed.

(** ** Listing *)

Lemma dump_unfold n prelude :
  RecursiveDump n prelude =
  (if leaf n || prefix n then [(prelude, val n, prefix n)] else []) ++
  concat (map (fun i => match children n i with Some c => RecursiveDump c (prelude ++ [i]) | None => [] end) indices).
Proof. by destruct n. Qed.

Lemma elem_indices i : i ∈ indices <-> 0 <= i < 256.
Proof. unfold indices. rewrite elem_of_seqZ. lia. Qed.

Lemma elem_concat_map {U V} (f : U -> list V) l y : y ∈ concat (map f l) <-> exists x, x ∈ l /\ y ∈ f x.
Proof.
  induction l as [|x l IH]; simpl.
  - split; [by intros ?%elem_of_nil|intros (x & ?%elem_of_nil & _); done].
  - rewrite elem_of_app, IH. split.
    + intros [H|(z & Hz & H)]; [exists x|exists z]; split; try done; by constructor.
    + intros (z & [->|Hz]%elem_of_cons & H); [by left|right; by exists z].
Qed.

Lemma dump_elem n : forall prelude k v p,
  wf n -> live n ->
  (k, v, p) ∈ RecursiveDump n prelude <-> exists key, k = prelude ++ key /\ entry n key = Some (v, p).
Proof.
  induction n as [l q w c IH] using Node_induction. intros prelude k v p Hw Hl.
  rewrite dump_unfold, elem_of_app, elem_concat_map. cbn [leaf prefix val children].
  assert (Hq : q = true -> l = true) by apply (Hw [] _ eq_refl). split.
  - intros [H|(i & Hi & H)].
    + exists []. rewrite app_nil_r, entry_nil. cbn [leaf val prefix]. destruct l.
      * simpl in H. apply list_elem_of_singleton in H. by injection H as -> -> ->.
      * destruct q; [by discriminate Hq|]. by apply elem_of_nil in H.
    + destruct (c i) as [ch|] eqn:Ec; [|by apply elem_of_nil in H].
      destruct (live_child _ i ch Hl Ec) as (Hl' & _ & _).
      apply (IH i ch Ec (prelude ++ [i]) k v p (wf_child _ i ch Hw Ec) Hl') in H as (key & -> & He).
      exists (i :: key). rewrite <- app_assoc, entry_cons. cbn [children]. by rewrite Ec.
  - intros ([|i key] & -> & He).
    + left. rewrite entry_nil in He. cbn in He. rewrite app_nil_r. destruct l; [|done]. simpl. injection He as <- <-.
      by apply list_elem_of_singleton.
    + right. rewrite entry_cons in He. cbn [children] in He. destruct (c i) as [ch|] eqn:Ec; [|done].
      destruct (live_child _ i ch Hl Ec) as (Hl' & _ & Hi). exists i. split; [apply elem_indices; lia|]. rewrite Ec.
      apply (IH i ch Ec _ _ _ _ (wf_child _ i ch Hw Ec) Hl'). exists key. by rewrite <- app_assoc.
Qed.

(** Lexicographic order, a prefix first. *)
Fixpoint lex (a b : list Z) : Prop :=
  match a, b with
  | _, [] => False
  | [], _ => True
  | x :: a, y :: b => x < y \/ (x = y /\ lex a b)
  end.

Lemma lex_prefix l a b : lex (l ++ a) (l ++ b) <-> lex a b.
Proof. induction l as [|x l IH]; [done|]. simpl. rewrite IH. split; [intros [?|[_ ?]]; [lia|done]|by right]. Qed.

Lemma lex_irrefl a : ~ lex a a.
Proof. induction a as [|x a IH]; simpl; [tauto|]. intros [?|[_ ?]]; [lia|done]. Qed.

Lemma lex_asym a b : lex a b -> ~ lex b a.
Proof.
  revert b; induction a as [|x a IH]; intros [|y b]; simpl; try tauto.
  intros [?|[-> H]] [?|[E H']]; try lia. by apply (IH b).
Qed.

Definition before (x y : list Z * T * bool) : Prop := lex x.1.1 y.1.1.

Lemma sorted_app (R : (list Z * T * bool) -> (list Z * T * bool) -> Prop) l1 l2 :
  StronglySorted R l1 -> StronglySorted R l2 -> (forall x y, x ∈ l1 -> y ∈ l2 -> R x y) -> StronglySorted R (l1 ++ l2).
Proof.
  intros H1 H2 H. induction H1 as [|x l1 S IH F]; simpl; [done|]. constructor.
  - apply IH. intros y z Hy Hz. apply H; [by constructor|done].
  - apply Forall_app. split; [done|]. apply Forall_forall. intros y Hy. apply H; [by constructor|done].
Qed.

Lemma sorted_concat_map (f : Z -> list (list Z * T * bool)) l :
  StronglySorted Z.lt l -> (forall i, i ∈ l -> StronglySorted before (f i)) ->
  (forall i j x y, i < j -> x ∈ f i -> y ∈ f j -> before x y) ->
  StronglySorted before (concat (map f l)).
Proof.
  intros S Hf Hlt. induction S as [|i l S IH F]; simpl; [constructor|]. apply sorted_app.
  - apply Hf. by constructor.
  - apply IH. intros j Hj. apply Hf. by constructor.
  - intros x y Hx (j & Hj & Hy)%elem_concat_map. apply (Hlt i j); [|done|done].
    rewrite Forall_forall in F. by apply F.
Qed.

Lemma sorted_seqZ k : forall m, StronglySorted Z.lt (seqZ m (Z.of_nat k)).
Proof.
  induction k as [|k IH]; intros m; [constructor|]. rewrite seqZ_cons by lia.
  replace (Z.pred (Z.of_nat (S k))) with (Z.of_nat k) by lia. constructor; [apply IH|].
  apply Forall_forall. intros i Hi%elem_of_seqZ. lia.
Qed.

Lemma indices_sorted : StronglySorted Z.lt indices.
Proof. apply (sorted_seqZ 256). Qed.

Lemma dump_sorted n : forall prelude, wf n -> live n -> StronglySorted before (RecursiveDump n prelude).
Proof.
  induction n as [l q w c IH] using Node_induction. intros prelude Hw Hl. rewrite dump_unfold. cbn [leaf prefix val children].
  assert (Kids : forall i x, x ∈ (match c i with Some ch => RecursiveDump ch (prelude ++ [i]) | None => [] end) ->
    exists key, x.1.1 = prelude ++ i :: key).
  { intros i [[k v] p] Hx. destruct (c i) as [ch|] eqn:Ec; [|by apply elem_of_nil in Hx].
    destruct (live_child _ i ch Hl Ec) as (Hl' & _ & _).
    apply (dump_elem ch (prelude ++ [i]) k v p (wf_child _ i ch Hw Ec) Hl') in Hx as (key & -> & _).
    exists key. by rewrite <- app_assoc. }
  apply sorted_app.
  - destruct (l || q); repeat constructor.
  - apply sorted_concat_map; [apply indices_sorted| |].
    + intros i _. destruct (c i) as [ch|] eqn:Ec; [|constructor]. destruct (live_child _ i ch Hl Ec) as (Hl' & _ & _).
      apply (IH i ch Ec); [by apply (wf_child _ i ch Hw)|done].
    + intros i j x y Hij Hx Hy. destruct (Kids i x Hx) as (k & Ek), (Kids j y Hy) as (k' & Ek').
      unfold before. rewrite Ek, Ek', lex_prefix. simpl. by left.
  - intros x y Hx (i & _ & Hy)%elem_concat_map. destruct (Kids i y Hy) as (k & Ek).
    assert (Ex : x.1.1 = prelude ++ []).
    { rewrite app_nil_r. destruct (l || q); [|by apply elem_of_nil in Hx]. by apply list_elem_of_singleton in Hx as ->. }
    unfold before. by rewrite Ek, Ex, lex_prefix.
Qed.

Lemma sorted_nodup l : StronglySorted before l -> NoDup l.
Proof.
  induction 1 as [|x l S IH F]; constructor; [|done]. intros Hx. rewrite Forall_forall in F.
  by apply (lex_irrefl x.1.1), F.
Qed.

(** Two tries that hold the same table are listed alike. *)
Lemma dump_unique n n' M : rep n M -> rep n' M -> Dump n = Dump n'.
Proof.
  intros [He Hw Hl] [He' Hw' Hl']. apply (StronglySorted_unique_strong before).
  - intros x y _ _ H1 H2. by destruct (lex_asym _ _ H1).
  - by apply dump_sorted.
  - by apply dump_sorted.
  - apply NoDup_Permutation.
    + by apply sorted_nodup, dump_sorted.
    + by apply sorted_nodup, dump_sorted.
    + intros [[k v] p]. unfold Dump. rewrite !dump_elem by done. split; intros (key & -> & H); exists key; split; try done.
      * by rewrite <- He', He.
      * by rewrite <- He, He'.
Qed.

Fixpoint insert_all (l : list (list Z * T * bool)) n : option (Node T) :=
  match l with [] => Some n | (k, v, p) :: l => n ← Insert dflt n k v p; insert_all l n end.

Definition table_of (l : list (list Z * T * bool)) (M : gmap (list Z) (T * bool)) : gmap (list Z) (T * bool) :=
  fold_left (fun M e => <[e.1.1 := (e.1.2, e.2)]> M) l M.

Lemma insert_all_ok l : forall n M,
  rep n M -> (forall e, e ∈ l -> ascii e.1.1) -> exists n', insert_all l n = Some n' /\ rep n' (table_of l M).
Proof.
  induction l as [|[[k v] p] l IH]; intros n M R Hs; cbn [insert_all].
  - by exists n.
  - destruct (rep_insert n M k v p R) as (n1 & -> & R1); [apply (Hs (k, v, p)); by constructor|]. cbn [mbind option_bind].
    destruct (IH n1 _ R1) as (n' & E & R'); [intros e He; apply Hs; by constructor|]. by exists n'.
Qed.

(** Inserting entries whose keys determine them leaves exactly those entries,
    besides the ones that were there. *)
Lemma table_of_lookup (M : gmap (list Z) (T * bool)) l : forall M0,
  (forall e, e ∈ l -> M !! e.1.1 = Some (e.1.2, e.2)) ->
  forall key, ((exists e, e ∈ l /\ e.1.1 = key) -> table_of l M0 !! key = M !! key) /\
    ((forall e, e ∈ l -> e.1.1 <> key) -> table_of l M0 !! key = M0 !! key).
Proof.
  unfold table_of. induction l as [|e l IH]; intros M0 H key; simpl.
  - split; [|done]. by intros (e & ?%elem_of_nil & _).
  - assert (H' : forall e, e ∈ l -> M !! e.1.1 = Some (e.1.2, e.2)) by (intros e' He; apply H; by constructor).
    destruct (IH (<[e.1.1 := (e.1.2, e.2)]> M0) H' key) as [Hin Hout].
    destruct (decide (Exists (fun e' => e'.1.1 = key) l)) as [Hl|Hl].
    + apply Exists_exists in Hl as (e' & He' & Ek). split; [intros _; apply Hin; by exists e'|].
      intros Hn. destruct (Hn e'); [by constructor|done].
    + rewrite Hout by (intros e' He' Ek; destruct Hl; apply Exists_exists; by exists e'). split.
      * intros (e' & [->|He']%elem_of_cons & <-); [|destruct Hl; apply Exists_exists; by exists e'].
        rewrite lookup_insert_eq. symmetry. apply H. by constructor.
      * intros Hn. rewrite lookup_insert_ne; [done|]. apply Hn. by constructor.
Qed.

Lemma dump_entry n M k v p : rep n M -> (k, v, p) ∈ Dump n <-> M !! k = Some (v, p).
Proof.
  intros [He Hw Hl]. unfold Dump. rewrite dump_elem by done. rewrite He. split; [by intros (key & -> & H)|].
  intros H. by exists k.
Qed.

Lemma entry_ascii n M k : rep n M -> is_Some (M !! k) -> ascii k.
Proof.
  intros [He Hw Hl] [e E]. rewrite He in E. destruct k as [|i k]; [constructor|].
  unfold entry in E. destruct (node_at n (i :: k)) as [n'|] eqn:En; [|done]. by destruct (Hl i k n' En).
Qed.

(** The listing, inserted into a trie that has none of its keys, rebuilds it. *)
Lemma reinsert n M : rep n M -> exists n', insert_all (Dump n) (new_node dflt) = Some n' /\ rep n' M.
Proof.
  intros R. destruct (insert_all_ok (Dump n) (new_node dflt) ∅ rep_new) as (n' & E & R').
  - intros [[k v] p] He. apply (entry_ascii n M k R). apply (dump_entry n M k v p R) in He. by rewrite He.
  - exists n'. split; [done|]. enough (table_of (Dump n) ∅ = M) as <- by done. apply map_eq. intros key.
    assert (HM : forall e, e ∈ Dump n -> M !! e.1.1 = Some (e.1.2, e.2)).
    { intros [[k v] p] He. by apply (dump_entry n M). }
    destruct (table_of_lookup M (Dump n) ∅ HM key) as [Hin Hout].
    destruct (M !! key) as [[v p]|] eqn:Ek.
    + apply Hin. exists (key, v, p). split; [by apply (dump_entry n M)|done].
    + rewrite Hout; [done|]. intros [[k v] p] He <-. apply (dump_entry n M) in He; [|done]. simpl in Ek. congruence.
Qed.

End Proofs.

(** ** Copies *)

Section Copies.
Context {T : Type}.
Implicit Types (n cur other : Node T) (key : list Z).

Lemma copy_fields n :
  leaf (copy_node n) = leaf n /\ prefix (copy_node n) = prefix n /\ val (copy_node n) = val n /\
  forall i, children (copy_node n) i = if bool_decide (0 <= i < 256) then copy_node <$> children n i else None.
Proof. by destruct n. Qed.

Lemma child_index_range c i : child_index c = Some i -> 0 <= i < 256.
Proof.
  unfold child_index. destruct (wrap 64 (to_signed 8 c) <? 256) eqn:E; [|done]. intros [= <-].
  apply Z.ltb_lt in E. pose proof (wrap_range 64 (to_signed 8 c) ltac:(lia)). lia.
Qed.

Lemma copy_child n c i : child_index c = Some i -> children (copy_node n) i = copy_node <$> children n i.
Proof.
  intros H%child_index_range. destruct (copy_fields n) as (_ & _ & _ & ->). by rewrite bool_decide_true.
Qed.

Lemma copy_lookup key : forall n pm, lookup_from (copy_node n) (copy_node <$> pm) key = lookup_from n pm key.
Proof.
  induction key as [|c key IH]; intros n pm; cbn [lookup_from].
  - destruct (copy_fields n) as (-> & _ & -> & _). destruct (leaf n), pm as [m|]; try done. cbn.
    by destruct (copy_fields m) as (_ & _ & -> & _).
  - destruct (child_index c) as [i|] eqn:Ei; [|done]. cbn [mbind option_bind].
    rewrite (copy_child n c i Ei). destruct (children n i) as [ch|]; cbn [fmap option_fmap option_map].
    + destruct (copy_fields ch) as (_ & -> & _ & _). destruct (prefix ch); [apply (IH ch (Some ch))|apply IH].
    + destruct pm as [m|]; [|done]. cbn. by destruct (copy_fields m) as (_ & _ & -> & _).
Qed.

Lemma copy_match key : forall n, match_from (copy_node n) key = match_from n key.
Proof.
  induction key as [|c key IH]; intros n; cbn [match_from].
  - by destruct (copy_fields n) as (-> & _).
  - destruct (child_index c) as [i|] eqn:Ei; [|done]. cbn [mbind option_bind].
    rewrite (copy_child n c i Ei). destruct (children n i) as [ch|]; [|done]. cbn [fmap option_fmap option_map].
    destruct (copy_fields ch) as (_ & -> & _ & _). by rewrite IH.
Qed.

Lemma copy_match_prefix key : forall n, match_prefix_from (copy_node n) key = match_prefix_from n key.
Proof.
  induction key as [|c key IH]; intros n; cbn [match_prefix_from]; [done|].
  destruct (child_index c) as [i|] eqn:Ei; [|done]. cbn [mbind option_bind].
  rewrite (copy_child n c i Ei). destruct (children n i) as [ch|]; [|done]. cbn [fmap option_fmap option_map].
  destruct (copy_fields ch) as (_ & -> & _ & _). by rewrite IH.
Qed.

Lemma copy_dump n : forall prelude, RecursiveDump (copy_node n) prelude = RecursiveDump n prelude.
Proof.
  induction n as [l p v c IH] using Node_induction. intros prelude. rewrite !dump_unfold.
  destruct (copy_fields (MkNode l p v c)) as (-> & -> & -> & Hc). f_equal. f_equal. apply map_ext_in.
  intros i Hi%list_elem_of_In%elem_indices. rewrite Hc, bool_decide_true by done. cbn [children].
  destruct (c i) as [ch|] eqn:Ec; [|done]. apply (IH i ch Ec).
Qed.

(** A copy answers every search as the original and is listed alike. *)
Lemma copy_same n key :
  Lookup (copy_node n) key = Lookup n key /\ Match (copy_node n) key = Match n key /\
  MatchPrefix (copy_node n) key = MatchPrefix n key /\ Dump (copy_node n) = Dump n.
Proof.
  unfold Lookup, Match, MatchPrefix, Dump. destruct (copy_fields n) as (_ & -> & _ & _).
  split_and!; [|by rewrite copy_match|by rewrite copy_match_prefix|apply copy_dump].
  destruct (prefix n); [apply (copy_lookup key n (Some n))|apply (copy_lookup key n None)].
Qed.

(** [operator=] leaves what [other] has no child for. *)
Lemma assign_keeps n other c i key :
  child_index c = Some i -> children other i = None -> prefix n = prefix other -> prefix n = false ->
  Lookup (assign_node n other) (c :: key) = Lookup n (c :: key).
Proof.
  intros Ei Eo Ep En. unfold Lookup. replace (prefix (assign_node n other)) with (prefix other) by done.
  rewrite <- Ep, En. cbn [lookup_from]. rewrite Ei. cbn [mbind option_bind assign_node children].
  rewrite bool_decide_true by (by apply child_index_range in Ei). by rewrite Eo.
Qed.

End Copies.

(** ** The table of a trie *)

(** C36. A trie that holds any list of ASCII entries, inserted one after the
    other, is the finite map of the last value and flag of each key: [Lookup]
    finds the entry of the key or else its longest prefix entry, and [Match] says
    whether it finds one.  [MatchPrefix] is true if some key begins with the
    string, and, as long as the string is not empty and does not itself begin with a prefix
    entry, only then; in the two cases left out it is true whatever the keys
    ([match_prefix_more]), against its documentation. *)
Theorem trie_search {T} (dflt : T) l :
  Forall (fun e => ascii e.1.1) l ->
  exists root, insert_all dflt l (new_node dflt) = Some root /\
    let M := table_of l ∅ in
    forall key, ascii key ->
    exists r b, Lookup root key = Some r /\
      (forall v, r = Some v <-> (exists p, M !! key = Some (v, p)) \/ (M !! key = None /\ best_prefix M key v)) /\
      Match root key = Some (is_some r) /\
      MatchPrefix root key = Some b /\
      ((exists ext, is_Some (M !! (key ++ ext))) -> b = true) /\
      (b = true -> key <> [] -> (forall k1 k2 v, key = k1 ++ k2 -> M !! k1 <> Some (v, true)) ->
        exists ext, is_Some (M !! (key ++ ext))).
Proof.
  rewrite Forall_forall. intros Hl. destruct (insert_all_ok dflt l _ _ (rep_new dflt) Hl) as (root & E & R).
  exists root. split; [done|]. intros M key Hs. destruct (match_prefix_ok root M key R Hs) as (b & Eb & Hb).
  exists (ref_lookup M key), b. rewrite match_lookup, (lookup_ok root M) by done.
  split_and!; [done|apply ref_lookup_spec|done|done|intros He; apply Hb; auto|].
  intros Ht Hne Hno. apply Hb in Ht as [?|[?|(k1 & k2 & v & E1 & E2)]]; [done|done|]. by destruct (Hno k1 k2 v E1).
Qed.

(** [MatchPrefix] is also true of the empty string, be the trie empty, and of a string that a
    prefix entry begins, although no key need begin with either. *)
Lemma match_prefix_more {T} (root : Node T) M key :
  rep root M -> ascii key -> key = [] \/ (exists k1 k2 v, key = k1 ++ k2 /\ M !! k1 = Some (v, true)) -> MatchPrefix root key = Some true.
Proof.
  intros R Hs Hc. destruct (match_prefix_ok root M key R Hs) as (b & -> & Hb). f_equal. apply Hb. tauto.
Qed.

Definition ex_entries : list (list Z * Z * bool) :=
  [([97; 98], 1, true); ([97; 98; 99; 100], 2, false); ([97], 3, true); ([98; 99], 4, false); ([97], 5, true)].

Lemma trie_search_witness :
  exists root, insert_all 0 ex_entries (new_node 0) = Some root /\
    let M := table_of ex_entries ∅ in
    forall key, ascii key ->
    exists r b, Lookup root key = Some r /\
      (forall v, r = Some v <-> (exists p, M !! key = Some (v, p)) \/ (M !! key = None /\ best_prefix M key v)) /\
      Match root key = Some (is_some r) /\
      MatchPrefix root key = Some b /\
      ((exists ext, is_Some (M !! (key ++ ext))) -> b = true) /\
      (b = true -> key <> [] -> (forall k1 k2 v, key = k1 ++ k2 -> M !! k1 <> Some (v, true)) ->
        exists ext, is_Some (M !! (key ++ ext))).
Proof. apply (trie_search 0 ex_entries). unfold ascii. repeat constructor; simpl; lia. Defined.

(** [Dump] lists the entries of a trie, each once, in lexicographic order
    with a prefix before its extensions; inserting the list into a new trie gives
    a trie with the same list and the same answers, and so does a copy. *)
Theorem trie_dump {T} (dflt : T) l :
  Forall (fun e => ascii e.1.1) l ->
  exists root, insert_all dflt l (new_node dflt) = Some root /\
    StronglySorted before (Dump root) /\
    (forall k v p, (k, v, p) ∈ Dump root <-> table_of l ∅ !! k = Some (v, p)) /\
    Dump (copy_node root) = Dump root /\
    exists root', insert_all dflt (Dump root) (new_node dflt) = Some root' /\ Dump root' = Dump root /\
      forall key, ascii key -> Lookup root' key = Lookup root key /\ Lookup (copy_node root) key = Lookup root key.
Proof.
  rewrite Forall_forall. intros Hl. destruct (insert_all_ok dflt l _ _ (rep_new dflt) Hl) as (root & E & R).
  exists root. split; [done|]. split; [apply dump_sorted; by destruct R|]. split; [intros; by apply dump_entry|].
  split; [apply copy_dump|]. destruct (reinsert dflt root _ R) as (root' & E' & R'). exists root'. split; [done|].
  split; [by apply (dump_unique _ _ _ R' R)|]. intros key Hs.
  rewrite (lookup_ok root' _ key R' Hs), (lookup_ok root _ key R Hs). split; [done|].
  destruct (copy_same root key) as (-> & _). by apply lookup_ok.
Qed.

Lemma trie_dump_witness :
  exists root, insert_all 0 ex_entries (new_node 0) = Some root /\
    StronglySorted before (Dump root) /\
    (forall k v p, (k, v, p) ∈ Dump root <-> table_of ex_entries ∅ !! k = Some (v, p)) /\
    Dump (copy_node root) = Dump root /\
    exists root', insert_all 0 (Dump root) (new_node 0) = Some root' /\ Dump root' = Dump root /\
      forall key, ascii key -> Lookup root' key = Lookup root key /\ Lookup (copy_node root) key = Lookup root key.
Proof. apply (trie_dump 0 ex_entries). unfold ascii. repeat constructor; simpl; lia. Defined.

(** A byte from 128 on indexes outside of [children], and [operator=] keeps the
    children that the assigned trie lacks: after assigning an empty trie, the
    old keys are still found. *)
Lemma trie_corners {T} (dflt : T) (root : Node T) c key v p :
  128 <= c < 256 ->
  Insert dflt root (c :: key) v p = None /\ Lookup root (c :: key) = None /\
  (prefix root = false -> MatchPrefix root (c :: key) = None) /\
  (forall i rest, child_index i <> None -> prefix root = false ->
     Lookup (assign_node root (new_node dflt)) (i :: rest) = Lookup root (i :: rest)) /\
  MatchPrefix (new_node dflt) [] = Some true /\ Match (new_node dflt) [] = Some false.
Proof.
  intros Hc. assert (Ei : child_index c = None).
  { unfold child_index, to_signed. rewrite (wrap_small 8) by lia. change (2 ^ (8 - 1)) with 128.
    rewrite (proj2 (Z.ltb_ge c 128)) by lia. unfold wrap. rewrite <- (Z_mod_plus_full _ 1 (2 ^ 64)).
    change (2 ^ 8) with 256. rewrite Z.mod_small by lia. by rewrite (proj2 (Z.ltb_ge _ 256)) by lia. }
  split_and!; try done.
  - unfold Insert. cbn [insert_at]. by rewrite Ei.
  - unfold Lookup. cbn [lookup_from]. by rewrite Ei.
  - intros Hp. unfold MatchPrefix. rewrite Hp. cbn [match_prefix_from]. by rewrite Ei.
  - intros i rest Hi Hp. destruct (child_index i) as [j|] eqn:Ej; [|done]. by apply (assign_keeps root _ i j).
Qed.
