(* ===== verification/Drr.v ===== *)
(** * Deficit round robin: [modules/drr.h] and [modules/drr.cc]

    A queue for each flow (5-tuple), served in turn: at its turn a flow is
    credited with a quantum of bytes and gives the packets its credit pays for.
    The flows are objects in a store; the table that finds them ([CuckooMap]) is
    used through the interface [FlowTable], and the ring of flows and the queues
    are those of [Llring.v].  A packet is its address, with its length given by
    [len] and its bytes by [head]; the clock is read as often as the code reads
    it ([ticks]); [alloc] says whether the allocator grants so many bytes.  The
    assertions are compiled out, as in a release build.  [None] is a fault: a NULL or
    dangling pointer, a read beyond a packet, a signed overflow, a fault of the
    ring or of the table. *)

From Stdlib Require Import SpecFloat.
From S2P Require Import Prelude Ledger Shapers Tasks Cuckoo Llring.

(** ** Flows *)

Record FlowId := MkFlowId { src_ip : Z; dst_ip : Z; src_port : Z; dst_port : Z; protocol : Z }.

(** [EqualTo]. *)
#[global] Instance FlowId_eq_dec : EqDecision FlowId.
Proof. solve_decision. Defined.
#[global] Instance FlowId_countable : Countable FlowId :=
  inj_countable' (fun i => (src_ip i, dst_ip i, src_port i, dst_port i, protocol i))
    (fun '(a, b, c, d, e) => MkFlowId a b c d e) ltac:(by intros []).

Record Flow := MkFlow {
  deficit : Z;
  timer : spec_float;
  fid : FlowId;
  fqueue : option (llring Z);
  next_packet : option Z
}.

Definition set_credit (c : Z) (f : Flow) : Flow := MkFlow c (timer f) (fid f) (fqueue f) (next_packet f).
Definition set_timer (t : spec_float) (f : Flow) : Flow := MkFlow (deficit f) t (fid f) (fqueue f) (next_packet f).
Definition set_fqueue (q : option (llring Z)) (f : Flow) : Flow := MkFlow (deficit f) (timer f) (fid f) q (next_packet f).
Definition set_next (p : option Z) (f : Flow) : Flow := MkFlow (deficit f) (timer f) (fid f) (fqueue f) p.

(** ** The table of flows *)

Class FlowTable (T : Type) := {
  t_find : T -> FlowId -> option (option Z);
  t_insert : T -> FlowId -> Z -> option T;
  t_remove : T -> FlowId -> option T
}.

(** What the module relies on; [t_room]: there is a place for the key. *)
Class FlowTableLaws (T : Type) `{FlowTable T} := {
  t_rep : T -> gmap FlowId Z -> Prop;
  t_room : T -> FlowId -> Prop;
  t_find_ok : forall t M k, t_rep t M -> t_find t k = Some (M !! k);
  t_insert_ok : forall t M k v, t_rep t M -> t_room t k -> exists t', t_insert t k v = Some t' /\ t_rep t' (<[k := v]> M);
  t_remove_ok : forall t M k, t_rep t M -> exists t', t_remove t k = Some t' /\ t_rep t' (delete k M)
}.

(** *** [CuckooMap<FlowId, Flow *, Hash, EqualTo>] *)

Section Table.
Context (std_hash : Z -> Z).     (* std::hash<unsigned int> *)

Definition combine (hash val : Z) : Z :=
  Z.lxor hash (u64 (std_hash val + 0x9e3779b9 + Z.shiftl hash 6 + Z.shiftr hash 2)).

Definition flow_hash (id : FlowId) : Z :=
  combine (combine (combine (combine (combine 0 (src_ip id)) (dst_ip id)) (src_port id)) (dst_port id)) (protocol id).

Definition no_entry : FlowId * Z := (MkFlowId 0 0 0 0 0, 0).

Definition FlowMap : Type := CuckooMap FlowId Z.

(** The result of [Insert] is ignored; [n] bounds how deep tables are nested. *)
Definition cuckoo_flows (n : nat) : FlowTable FlowMap := {|
  t_find (m : FlowMap) k := match Find flow_hash m k with Some (Some e) => Some (Some e.2) | Some None => Some None | None => None end;
  t_insert (m : FlowMap) k v := '(_, m) ← Insert flow_hash no_entry (fun v => v) n m k v; Some m;
  t_remove (m : FlowMap) k := '(_, m) ← Remove flow_hash no_entry m k; Some m
|}.

End Table.

(** ** The module *)

Record DRR (T : Type) := MkDRR {
  quantum_ : Z; max_queue_size_ : Z; max_number_flows_ : Z;
  flows_ : T;
  flow_ring_ : option (llring Z);      (* of pointers to flows *)
  current_flow_ : option Z;
  overload : Z;                        (* children_overload_ *)
  heap : gmap Z Flow;
  fresh : Z;                           (* the next object made by new *)
  ticks : nat
}.
Arguments MkDRR {T}.
Arguments quantum_ {T}. Arguments max_queue_size_ {T}. Arguments max_number_flows_ {T}. Arguments flows_ {T}.
Arguments flow_ring_ {T}. Arguments current_flow_ {T}. Arguments overload {T}. Arguments heap {T}.
Arguments fresh {T}. Arguments ticks {T}.

Definition kDefaultNumFlows : Z := 4096.
Definition kFlowQueueSize : Z := 2048.
Definition kQueueGrowthFactor : Z := 2.
Definition kFlowQueueMax : Z := 8192.
Definition kTtl : Z := 300.
Definition kDefaultQuantum : Z := 1500.
Definition kPacketOverhead : Z := 24.
Definition drr_max_burst : nat := 32.    (* PacketBatch::kMaxBurst *)

Definition RoundToPowerTwo (v : Z) : Z :=
  let v := u32 (v - 1) in
  let v := Z.lor v (Z.shiftr v 1) in
  let v := Z.lor v (Z.shiftr v 2) in
  let v := Z.lor v (Z.shiftr v 4) in
  let v := Z.lor v (Z.shiftr v 8) in
  let v := Z.lor v (Z.shiftr v 16) in
  u32 (v + 1).

Section DRR.
Context {T : Type} `{FlowTable T} (alloc : Z -> bool) (len : Z -> Z) (head : Z -> list Z) (get_epoch_time : nat -> spec_float).
Implicit Types (d : DRR T) (f : Flow) (fp pkt err : Z).

Definition new_DRR (t : T) : DRR T :=
  MkDRR kDefaultQuantum kFlowQueueMax kDefaultNumFlows t None None 0 ∅ 1 0.

Definition set_flow fp f d : DRR T :=
  MkDRR (quantum_ d) (max_queue_size_ d) (max_number_flows_ d) (flows_ d) (flow_ring_ d) (current_flow_ d) (overload d)
    (<[fp := f]> (heap d)) (fresh d) (ticks d).
Definition set_flow_ring r d : DRR T :=
  MkDRR (quantum_ d) (max_queue_size_ d) (max_number_flows_ d) (flows_ d) r (current_flow_ d) (overload d)
    (heap d) (fresh d) (ticks d).
Definition set_current c d : DRR T :=
  MkDRR (quantum_ d) (max_queue_size_ d) (max_number_flows_ d) (flows_ d) (flow_ring_ d) c (overload d)
    (heap d) (fresh d) (ticks d).
Definition set_flows t d : DRR T :=
  MkDRR (quantum_ d) (max_queue_size_ d) (max_number_flows_ d) t (flow_ring_ d) (current_flow_ d) (overload d)
    (heap d) (fresh d) (ticks d).
Definition new_flow f d : DRR T :=
  MkDRR (quantum_ d) (max_queue_size_ d) (max_number_flows_ d) (flows_ d) (flow_ring_ d) (current_flow_ d) (overload d)
    (<[fresh d := f]> (heap d)) (fresh d + 1) (ticks d).
Definition free_flow fp d : DRR T :=
  MkDRR (quantum_ d) (max_queue_size_ d) (max_number_flows_ d) (flows_ d) (flow_ring_ d) (current_flow_ d) (overload d)
    (delete fp (heap d)) (fresh d) (ticks d).
Definition tick d : DRR T :=
  MkDRR (quantum_ d) (max_queue_size_ d) (max_number_flows_ d) (flows_ d) (flow_ring_ d) (current_flow_ d) (overload d)
    (heap d) (fresh d) (S (ticks d)).
Definition set_limits q m n d : DRR T :=
  MkDRR q m n (flows_ d) (flow_ring_ d) (current_flow_ d) (overload d) (heap d) (fresh d) (ticks d).

(** ** Settings *)

Definition SetQuantumSize (size : Z) d : CommandResponse * DRR T :=
  if size =? 0 then (CommandFailure EINVAL, d)
  else (CommandSuccess, set_limits size (max_queue_size_ d) (max_number_flows_ d) d).

Definition SetMaxFlowQueueSize (queue_size : Z) d : CommandResponse * DRR T :=
  if queue_size =? 0 then (CommandFailure EINVAL, d)
  else (CommandSuccess, set_limits (quantum_ d) queue_size (max_number_flows_ d) d).

Definition CommandQuantumSize := SetQuantumSize.
Definition CommandMaxFlowQueueSize := SetMaxFlowQueueSize.

(** ** Queues *)

(** The queue, or NULL, and [err]. *)
Definition AddQueue (slots err : Z) : option (llring Z) * Z :=
  if negb (alloc (llring_bytes_with_slots slots)) then (None, - ENOMEM)
  else match llring_init 0 slots true true with
       | (_, Some queue) => (Some queue, err)
       | (_, None) => (None, - EINVAL)
       end.

Definition resize_step (st : llring Z * llring Z * list Z * Z) :
    (llring Z * llring Z * list Z * Z) + option (option (llring Z) * Z * list Z) :=
  let '(old, new, freed, err) := st in
  match llring_dequeue old with
  | Some (0, [pkt], old) =>
      match llring_enqueue new pkt with
      | Some (ret, new) =>
          if ret =? - LLRING_ERR_NOBUF then inl (old, new, freed ++ [pkt], 0)
          else if negb (ret =? 0) then inr (Some (None, ret, freed))
          else inl (old, new, freed, ret)
      | None => inr None
      end
  | Some _ => inr (Some (Some new, err, freed))
  | None => inr None
  end.

(** The new queue, or NULL, [err] and the packets freed. *)
Definition ResizeQueue (old_queue : option (llring Z)) (new_size err : Z) : option (option (llring Z) * Z * list Z) :=
  let '(new_queue, err) := AddQueue new_size err in
  if negb (err =? 0) then Some (None, err, [])
  else match old_queue, new_queue with
       | None, _ => Some (new_queue, err, [])
       | Some old, Some new =>
           match iter_until fuel64 resize_step (old, new, [], err) with inr o => o | inl _ => None end
       | Some _, None => None
       end.

(** The queue is grown when full; [err] tells whether to go on. *)
Definition make_room f (q : llring Z) err : option (Flow * Z * list Z) :=
  if llring_full q then
    let slots := RoundToPowerTwo (u32 (llring_count q * kQueueGrowthFactor)) in
    '(q', err, freed) ← ResizeQueue (Some q) slots err;
    Some (set_fqueue q' f, err, freed)
  else Some (f, 0, []).

Definition Enqueue fp pkt err d : option (DRR T * Z * list Z) :=
  f ← heap d !! fp;
  q ← fqueue f;
  if max_queue_size_ d <=? llring_count q then Some (d, err, [pkt])
  else
    '(f, e, freed) ← make_room f q err;
    if negb (e =? 0) then Some (set_flow fp f d, e, freed ++ [pkt])
    else
      q ← fqueue f;
      '(ret, q) ← llring_enqueue q pkt;
      let f := set_fqueue (Some q) f in
      if ret =? 0 then
        Some (set_flow fp (set_timer (get_epoch_time (ticks d)) f) (tick d), ret, freed)
      else Some (set_flow fp f d, ret, freed ++ [pkt]).

(** ** Adding and removing flows *)

(** The allocation fails after the flow was made, which is lost then. *)
Definition AddNewFlow pkt (id : FlowId) err d : option (DRR T * Z * list Z) :=
  let fp := fresh d in
  let '(q, err) := AddQueue kFlowQueueSize err in
  let d := new_flow (MkFlow 0 (S754_zero false) id q None) d in
  if negb (err =? 0) then Some (d, err, [])
  else
    t ← t_insert (flows_ d) id fp;
    '(d, err, freed) ← Enqueue fp pkt err (set_flows t d);
    if negb (err =? 0) then Some (d, err, freed)
    else
      r ← flow_ring_ d;
      '(ret, r) ← llring_enqueue r fp;
      Some (set_flow_ring (Some r) d, ret, freed).

Definition drain_flow (st : llring Z * list Z) : (llring Z * list Z) + option (list Z) :=
  match llring_sc_dequeue st.1 with
  | Some (0, [pkt], q) => inl (q, st.2 ++ [pkt])
  | Some _ => inr (Some st.2)
  | None => inr None
  end.

(** [~Flow]: the packets freed. *)
Definition delete_flow f : option (list Z) :=
  freed ← match fqueue f with
          | Some q => match iter_until fuel64 drain_flow (q, []) with inr o => o | inl _ => None end
          | None => Some []
          end;
  Some (freed ++ match next_packet f with Some p => [p] | None => [] end).

Definition RemoveFlow fp d : option (DRR T * list Z) :=
  f ← heap d !! fp;
  let d := if decide (current_flow_ d = Some fp) then set_current None d else d in
  t ← t_remove (flows_ d) (fid f);
  freed ← delete_flow f;
  Some (free_flow fp (set_flows t d), freed).

(** ** Packets in *)

Definition be16 (l : list Z) (i : nat) : option Z := a ← l !! i; b ← l !! S i; Some (256 * a + b).
Definition be32 (l : list Z) (i : nat) : option Z := a ← be16 l i; b ← be16 l (i + 2); Some (65536 * a + b).

(** The IP header follows the 14 bytes of the Ethernet header. *)
Definition GetId pkt : option FlowId :=
  let l := head pkt in
  ihl ← l !! 14%nat;
  let ip_bytes := Z.shiftl (Z.land ihl 15) 2 in
  let udp := (14 + Z.to_nat ip_bytes)%nat in
  src ← be32 l 26; dst ← be32 l 30; sp ← be16 l udp; dp ← be16 l (udp + 2); proto ← l !! 23%nat;
  Some (MkFlowId src dst sp dp proto).

Definition process_one pkt err d : option (DRR T * Z * list Z) :=
  id ← GetId pkt;
  it ← t_find (flows_ d) id;
  match it with
  | None =>
      r ← flow_ring_ d;
      if llring_full r then Some (d, err, [pkt]) else AddNewFlow pkt id err d
  | Some fp => Enqueue fp pkt err d
  end.

(** The module, [err] and the packets freed. *)
Fixpoint process_batch (pkts : list Z) err d : option (DRR T * Z * list Z) :=
  match pkts with
  | [] => Some (d, err, [])
  | pkt :: pkts =>
      '(d, err, freed) ← process_one pkt err d;
      '(d, err, freed') ← process_batch pkts err d;
      Some (d, err, freed ++ freed')
  end.

Definition ProcessBatch (batch : list Z) d : option (DRR T * Z * list Z) := process_batch batch 0 d.

(** ** Packets out *)

(** [now - f->timer > kTtl]. *)
Definition expired (now t : spec_float) : bool := SFltb (of_u64 kTtl) (dbl_sub now t).

(** Has the flow nothing to send? *)
Definition flow_empty f (q : llring Z) : bool := llring_empty q && match next_packet f with None => true | Some _ => false end.

(** The flow or NULL, [err], the module, and the packets freed. *)
Definition GetNextFlow d : option (option Z * Z * DRR T * list Z) :=
  let now := get_epoch_time (ticks d) in
  let d := tick d in
  match current_flow_ d with
  | Some fp => Some (Some fp, 0, set_current None d, [])
  | None =>
      r ← flow_ring_ d;
      '(ret, fps, r) ← llring_dequeue r;
      let d := set_flow_ring (Some r) d in
      if ret <? 0 then Some (None, ret, d, [])
      else
        fp ← fps !! 0%nat;
        f ← heap d !! fp;
        q ← fqueue f;
        if flow_empty f q then
          if expired now (timer f) then '(d, freed) ← RemoveFlow fp d; Some (None, ret, d, freed)
          else
            '(ret, r) ← llring_enqueue r fp;
            Some (None, ret, set_flow_ring (Some r) d, [])
        else Some (Some fp, ret, set_flow fp (set_credit (to_signed 32 (wrap 32 (deficit f + quantum_ d))) f) d, [])
  end.

(** The result of an [int] subtraction. *)
Definition int_sub (a b : Z) : option Z := guard (- 2 ^ 31 <= a - b < 2 ^ 31);; Some (a - b).

Definition full (batch : list Z) : bool := (length batch =? drr_max_burst)%nat.

(** The loop: the flow, the batch, the bytes and [err]. *)
Definition next_packets_step (st : Flow * list Z * Z) : (Flow * list Z * Z) + option (Flow * list Z * Z * Z) :=
  let '(f, batch, total_bytes) := st in
  match fqueue f with
  | None => inr None
  | Some q =>
      if full batch || flow_empty f q then inr (Some (f, batch, total_bytes, 0))
      else
        match next_packet f with
        | None =>
            match llring_dequeue q with
            | Some (0, [pkt], q) =>
                let f := set_fqueue (Some q) f in
                if deficit f <? len pkt then inr (Some (set_next (Some pkt) f, batch, total_bytes, 0))
                else match int_sub (deficit f) (len pkt) with
                     | Some c => inl (set_credit c f, batch ++ [pkt], u32 (total_bytes + len pkt))
                     | None => inr None
                     end
            | Some (ret, _, q) => inr (Some (set_fqueue (Some q) f, batch, total_bytes, ret))
            | None => inr None
            end
        | Some pkt =>
            let f := set_next None f in
            if deficit f <? len pkt then inr (Some (set_next (Some pkt) f, batch, total_bytes, 0))
            else match int_sub (deficit f) (len pkt) with
                 | Some c => inl (set_credit c f, batch ++ [pkt], u32 (total_bytes + len pkt))
                 | None => inr None
                 end
        end
  end.

(** The module, the batch, the bytes and [err]. *)
Definition GetNextPackets (batch : list Z) fp d : option (DRR T * list Z * Z * Z) :=
  f ← heap d !! fp;
  '(f, batch, total_bytes, err) ← match iter_until fuel64 next_packets_step (f, batch, 0) with inr o => o | inl _ => None end;
  Some (set_flow fp f d, batch, total_bytes, err).

(** What a turn leaves when the flow still has its place in the ring: the module,
    and [err]. *)
Definition end_turn fp d : option (DRR T * Z) :=
  f ← heap d !! fp;
  q ← fqueue f;
  let f := if flow_empty f q then set_credit 0 f else f in
  let d := set_flow fp f d in
  if match next_packet f with None => true | Some p => deficit f <? len p end then
    r ← flow_ring_ d;
    '(ret, r) ← llring_enqueue r fp;
    Some (set_flow_ring (Some r) d, ret)
  else Some (set_current (Some fp) d, 0).

Record batch_state := MkBatch {
  b_drr : DRR T; b_batch : list Z; b_bytes : Z; b_count : Z; b_size : Z; b_freed : list Z
}.

(** The module, the batch, the bytes, [err] and the packets freed. *)
Definition batch_result : Type := DRR T * list Z * Z * Z * list Z.

Definition next_batch_step (s : batch_state) : batch_state + option batch_result :=
  let '(MkBatch d batch total count size freed) := s in
  if full batch then inr (Some (d, batch, total, 0, freed))
  else
    let cnt := Z.of_nat (length batch) in
    if (count =? 0) && (size =? cnt) then inr (Some (d, batch, total, 0, freed))
    else
      match (if count =? 0 then llring_count <$> flow_ring_ d else Some count) with
      | None => inr None
      | Some count' =>
          let size := if count =? 0 then cnt else size in
          let count := u32 (count' - 1) in
          match GetNextFlow d with
          | None => inr None
          | Some (f, err, d, freed') =>
              let freed := freed ++ freed' in
              if negb (err =? 0) then inr (Some (d, batch, total, err, freed))
              else
                match f with
                | None => inl (MkBatch d batch total count size freed)
                | Some fp =>
                    match GetNextPackets batch fp d with
                    | None => inr None
                    | Some (d, batch, bytes, err) =>
                        let total := u32 (total + bytes) in
                        if negb (err =? 0) then inr (Some (d, batch, total, err, freed))
                        else
                          match end_turn fp d with
                          | None => inr None
                          | Some (d, err) =>
                              if negb (err =? 0) then inr (Some (d, batch, total, err, freed))
                              else inl (MkBatch d batch total count size freed)
                          end
                    end
                end
          end
      end.

Definition GetNextBatch d : option batch_result :=
  r ← flow_ring_ d;
  let count := match current_flow_ d with Some _ => u32 (llring_count r + 1) | None => llring_count r end in
  match iter_until fuel64 next_batch_step (MkBatch d [] 0 count 0 []) with inr o => o | inl _ => None end.

(** The module, the result, the batch sent on (if any), and the packets freed. *)
Definition RunTask d : option (DRR T * task_result * option (list Z) * list Z) :=
  if 0 <? overload d then Some (d, Task true 0 0, None, [])
  else
    '(d, batch, total_bytes, _, freed) ←
      match flow_ring_ d with Some _ => GetNextBatch d | None => Some (d, [], 0, 0, []) end;
    let cnt := Z.of_nat (length batch) in
    Some (d, Task (cnt =? 0) cnt (u32 (u32 (total_bytes + cnt * kPacketOverhead) * 8)),
      if 0 <? total_bytes then Some batch else None, freed).

(** ** Initialisation *)

Record DRRArg := MkDRRArg { a_num_flows : Z; a_max_flow_queue_size : Z; a_quantum : Z }.

Definition succeeded (c : CommandResponse) : bool := match c with CommandSuccess => true | _ => false end.

(** [tid_ok]: [RegisterTask] gives a task. *)
Definition Init (tid_ok : bool) (arg : DRRArg) d : CommandResponse * DRR T :=
  let d := if negb (a_num_flows arg =? 0) then
             set_limits (quantum_ d) (max_queue_size_ d) (RoundToPowerTwo (u32 (a_num_flows arg + 1))) d
           else d in
  let '(err, d) := if negb (a_max_flow_queue_size arg =? 0) then SetMaxFlowQueueSize (a_max_flow_queue_size arg) d
                   else (CommandSuccess, d) in
  if negb (succeeded err) then (err, d)
  else
    let '(err, d) := if negb (a_quantum arg =? 0) then SetQuantumSize (a_quantum arg) d else (CommandSuccess, d) in
    if negb (succeeded err) then (err, d)
    else if negb tid_ok then (CommandFailure ENOMEM, d)
    else
      let '(r, err_num) := AddQueue (max_number_flows_ d) 0 in
      let d := set_flow_ring r d in
      if negb (err_num =? 0) then (CommandFailure (- err_num), d) else (CommandSuccess, d).

End DRR.
