(* ===== verification/DrrTurns.v ===== *)
(** * Deficit round robin: the specification

    The flows as a list in the order of the ring, one turn at a time ([aturn]),
    and the fairness of the turns: whatever the batches, two flows that have
    packets all the time are given as many bytes, up to a quantum and two packets,
    unless a full batch cuts a turn short. *)

From Stdlib Require Import SpecFloat.
From S2P Require Import Prelude Ledger Shapers Tasks Cuckoo Llring Drr.

(** ** Specification *)

Record aflow := AFlow { a_id : FlowId; a_deficit : Z; a_timer : spec_float; a_next : option Z; a_queue : list Z }.

Definition backlog (a : aflow) : list Z := match a_next a with Some p => p :: a_queue a | None => a_queue a end.

(** Logged: whose turn it was, and the packets given. *)
Record astate := AState {
  s_ticks : nat; s_flows : list aflow; s_log : list (FlowId * list Z);
  s_room : nat;          (* in the batch *)
  s_cut : bool           (* has a full batch cut a turn short? *)
}.

Section Spec.
Context (len : Z -> Z) (clock : nat -> spec_float) (quantum : Z).

(** The packets that the room and the credit [c] allow, the credit left and the
    packets left. *)
Fixpoint serve (room : nat) (c : Z) (pkts : list Z) : list Z * Z * list Z :=
  match room, pkts with
  | S room, p :: rest =>
      if c <? len p then ([], c, pkts)
      else let '(g, c, rest) := serve room (c - len p) rest in (p :: g, c, rest)
  | _, _ => ([], c, pkts)
  end.

(** What a flow keeps: a packet that was too expensive is set aside. *)
Definition keep (room : nat) (a : aflow) (gcr : list Z * Z * list Z) : aflow :=
  let '(g, c, rest) := gcr in
  match rest with
  | [] => AFlow (a_id a) 0 (a_timer a) None []
  | p :: q => if (length g <? room)%nat then AFlow (a_id a) c (a_timer a) (Some p) q
              else AFlow (a_id a) c (a_timer a) None (p :: q)
  end.

Definition credit (a : aflow) : Z := to_signed 32 (wrap 32 (a_deficit a + quantum)).

Definition is_nil {A} (l : list A) : bool := match l with [] => true | _ => false end.

Definition aturn (s : astate) : astate :=
  match s_flows s with
  | [] => s
  | a :: fs =>
      if is_nil (backlog a) then
        AState (S (s_ticks s)) (if expired (clock (s_ticks s)) (a_timer a) then fs else fs ++ [a])
          (s_log s ++ [(a_id a, [])]) (s_room s) (s_cut s)
      else
        let '(g, c, rest) := serve (s_room s) (credit a) (backlog a) in
        AState (S (s_ticks s)) (fs ++ [keep (s_room s) a (g, c, rest)]) (s_log s ++ [(a_id a, g)])
          (s_room s - length g) (s_cut s || ((length g =? s_room s)%nat && negb (is_nil rest)))
  end.

(** A new batch. *)
Definition new_batch (s : astate) : astate := AState (s_ticks s) (s_flows s) (s_log s) drr_max_burst (s_cut s).

Definition given (s : astate) : list Z := concat (snd <$> s_log s).

(** Nothing to give, or too little credit for the first packet. *)
Definition stuck (a : aflow) : Prop := match backlog a with [] => True | p :: _ => a_deficit a < len p end.

Definition bytes_of (l : list Z) : Z := fold_right (fun p s => len p + s) 0 l.

Lemma bytes_app l1 l2 : bytes_of (l1 ++ l2) = bytes_of l1 + bytes_of l2.
Proof. induction l1 as [|p l1 IH]; simpl; [done|]. rewrite IH. lia. Qed.

Lemma serve_spec room : forall c pkts,
  let '(g, c', rest) := serve room c pkts in
  pkts = g ++ rest /\ c = c' + bytes_of g /\ (length g <= room)%nat /\
  ((length g < room)%nat -> match rest with [] => True | p :: _ => c' < len p end) /\
  ((0 < room)%nat -> g = [] -> match rest with [] => True | p :: _ => c' < len p end).
Proof.
  induction room as [|room IH]; intros c [|p rest]; simpl; try (split_and!; simpl; lia || done).
  destruct (Z.ltb_spec c (len p)); [split_and!; simpl; lia || done|].
  specialize (IH (c - len p) rest). destruct (serve room (c - len p) rest) as [[g c'] rest'].
  destruct IH as (-> & ? & ? & H1 & _). simpl. split_and!; [done|lia|lia| |done]. intros ?. apply H1. lia.
Qed.

Lemma serve_credit room : forall c pkts,
  (forall p, 0 <= len p) -> 0 <= c -> let '(g, c', rest) := serve room c pkts in 0 <= c' <= c.
Proof.
  intros c pkts Hl. revert c pkts. induction room as [|room IH]; intros c [|p rest] Hc; simpl; try lia.
  destruct (Z.ltb_spec c (len p)); [lia|]. specialize (IH (c - len p) rest ltac:(lia)).
  destruct (serve room (c - len p) rest) as [[g c'] rest']. specialize (Hl p). lia.
Qed.

End Spec.

(** ** Fairness of the turns *)

Lemma nodup_inj {A B} (f : A -> B) l x y : NoDup (f <$> l) -> x ∈ l -> y ∈ l -> f x = f y -> x = y.
Proof.
  induction l as [|z l IH]; cbn; [by intros _ ?%elem_of_nil|].
  intros [Hn Hd]%NoDup_cons [->|Hx]%elem_of_cons [->|Hy]%elem_of_cons E; [done| | |by apply IH].
  - destruct Hn. rewrite E. apply list_elem_of_fmap. by exists y.
  - destruct Hn. rewrite <- E. apply list_elem_of_fmap. by exists x.
Qed.

Section Fair.
Context (len : Z -> Z) (clock : nat -> spec_float) (quantum L : Z).
Context (Hlen : forall p, 0 <= len p <= L) (Hq : 0 < quantum) (Hmax : L + quantum < 2 ^ 31).
Implicit Types (s : astate) (a : aflow) (fs : list aflow) (i : FlowId).

(** A turn, or the start of another batch. *)
Definition astep s s' : Prop := s' = aturn len clock quantum s \/ s' = new_batch s.

Definition turns_of i s : Z := Z.of_nat (length (filter (fun e => e.1 = i) (s_log s))).
Definition sent i s : list Z := concat (snd <$> filter (fun e => e.1 = i) (s_log s)).

Lemma turns_snoc i s t fs j g room cut :
  turns_of i (AState t fs (s_log s ++ [(j, g)]) room cut) = turns_of i s + if decide (j = i) then 1 else 0.
Proof.
  unfold turns_of. cbn. rewrite filter_app, length_app. destruct (decide (j = i)) as [->|Hne].
  - rewrite filter_cons_True by done. cbn. lia.
  - rewrite filter_cons_False by done. cbn. lia.
Qed.

Lemma sent_snoc i s t fs j g room cut :
  sent i (AState t fs (s_log s ++ [(j, g)]) room cut) = sent i s ++ if decide (j = i) then g else [].
Proof.
  unfold sent. cbn. rewrite filter_app, fmap_app, concat_app. f_equal. destruct (decide (j = i)) as [->|Hne].
  - rewrite filter_cons_True by done. cbn. by rewrite app_nil_r.
  - by rewrite filter_cons_False by done.
Qed.

Lemma backlog_keep room a g c rest : backlog (keep room a (g, c, rest)) = rest.
Proof. destruct rest as [|p q]; cbn; [done|]. by destruct room; [|destruct (length g <=? room)%nat]. Qed.

Lemma id_keep room a gcr : a_id (keep room a gcr) = a_id a.
Proof. destruct gcr as [[g c] [|p q]]; unfold keep; [done|]. by destruct (length g <? room)%nat. Qed.

Lemma deficit_keep room a g c rest : a_deficit (keep room a (g, c, rest)) = if is_nil rest then 0 else c.
Proof. destruct rest as [|p q]; unfold keep; [done|]. by destruct (length g <? room)%nat. Qed.

(** What has become of the flow [a]. *)
Definition progress s a a' : Prop :=
  a_id a' = a_id a /\ backlog a = sent (a_id a) s ++ backlog a' /\
  (s_cut s = false -> 0 <= a_deficit a' <= L /\
     (backlog a' <> [] -> bytes_of len (sent (a_id a) s) + a_deficit a' = a_deficit a + turns_of (a_id a) s * quantum)).

Record fair_inv fs s : Prop := {
  fi_ids : NoDup (a_id <$> s_flows s);
  fi_old : forall a', a' ∈ s_flows s -> exists a, a ∈ fs /\ progress s a a';
  fi_gone : forall a, a ∈ fs -> (exists a', a' ∈ s_flows s /\ a_id a' = a_id a) \/ backlog a = sent (a_id a) s;
  fi_turns : exists front back m, s_flows s = front ++ back /\
    (forall a, a ∈ front -> turns_of (a_id a) s = m) /\ (forall a, a ∈ back -> turns_of (a_id a) s = m + 1)
}.

Lemma credit_small a : 0 <= a_deficit a <= L -> credit quantum a = a_deficit a + quantum.
Proof.
  intros Hd. unfold credit, to_signed. rewrite wrap_wrap, (wrap_small 32 (_ + _)) by lia.
  by rewrite (proj2 (Z.ltb_lt _ (2 ^ (32 - 1)))) by lia.
Qed.

(** A flow whose turn it is. *)
Lemma progress_turn s a a1 fs :
  s_flows s = a1 :: fs -> is_nil (backlog a1) = false -> progress s a a1 ->
  let '(g, c, rest) := serve len (s_room s) (credit quantum a1) (backlog a1) in
  progress (aturn len clock quantum s) a (keep (s_room s) a1 (g, c, rest)).
Proof.
  intros E En (Ei & Eb & Hd). unfold aturn. rewrite E, En.
  pose proof (serve_spec len (s_room s) (credit quantum a1) (backlog a1)) as Sp.
  pose proof (serve_credit len (s_room s) (credit quantum a1) (backlog a1) (fun p => proj1 (Hlen p))) as Sc.
  destruct (serve len (s_room s) (credit quantum a1) (backlog a1)) as [[g c] rest].
  destruct Sp as (E1 & E2 & Hg & Hlt & _). unfold progress. rewrite id_keep, backlog_keep, sent_snoc, turns_snoc, !decide_True by done.
  split; [done|]. split; [by rewrite Eb, E1, app_assoc|]. cbn [s_cut]. intros [Hcut Hc]%orb_false_iff.
  destruct (Hd Hcut) as [Hd1 Hd2]. rewrite (credit_small a1 Hd1) in *. specialize (Sc ltac:(lia)). rewrite deficit_keep.
  assert (Hb : backlog a1 <> []) by (by destruct (backlog a1)). specialize (Hd2 Hb).
  destruct rest as [|p rest]; cbn [is_nil] in *; [split; [pose proof (Hlen 0); lia|done]|].
  rewrite andb_true_r in Hc. apply Nat.eqb_neq in Hc. specialize (Hlt ltac:(lia)). pose proof (Hlen p).
  split; [lia|]. intros _. rewrite bytes_app, Z.mul_add_distr_r, Z.mul_1_l. lia.
Qed.

(** The others, and a flow that has nothing. *)
Lemma progress_kept s s' a a' :
  progress s a a' -> sent (a_id a) s' = sent (a_id a) s -> (turns_of (a_id a) s' = turns_of (a_id a) s \/ backlog a' = []) ->
  (s_cut s' = false -> s_cut s = false) -> progress s' a a'.
Proof.
  intros (Ei & Eb & Hd) Es Et Hc. split; [done|]. rewrite Es. split; [done|]. intros H'. destruct (Hd (Hc H')) as [H1 H2].
  split; [done|]. intros Hb. destruct Et as [->|?]; [by apply H2|done].
Qed.

Lemma aturn_shape s a1 fs :
  s_flows s = a1 :: fs ->
  exists g room cut fs', aturn len clock quantum s = AState (S (s_ticks s)) fs' (s_log s ++ [(a_id a1, g)]) room cut /\
    (cut = false -> s_cut s = false) /\
    ((fs' = fs /\ g = [] /\ backlog a1 = []) \/
     (exists a', fs' = fs ++ [a'] /\ a_id a' = a_id a1 /\
        forall a, progress s a a1 -> progress (aturn len clock quantum s) a a')).
Proof.
  intros E. destruct (is_nil (backlog a1)) eqn:En.
  - assert (Eb : backlog a1 = []) by (by destruct (backlog a1)).
    unfold aturn at 1. rewrite E, En. do 4 eexists. split; [reflexivity|]. split; [done|].
    destruct (expired (clock (s_ticks s)) (a_timer a1)) eqn:Ex; [by left|right]. exists a1. split; [done|]. split; [done|].
    intros a Hp. apply (progress_kept s); [done| | |]; unfold aturn; rewrite E, En.
    + rewrite sent_snoc. destruct (decide _); by rewrite app_nil_r.
    + by right.
    + done.
  - pose proof (fun a => progress_turn s a a1 fs E En) as Hp. unfold aturn at 1. rewrite E, En.
    destruct (serve len (s_room s) (credit quantum a1) (backlog a1)) as [[g c] rest]. do 4 eexists. split; [reflexivity|].
    split; [by intros [? _]%orb_false_iff|]. right. eexists. split; [done|]. split; [apply id_keep|]. done.
Qed.

Lemma fair_turn fs s : NoDup (a_id <$> fs) -> fair_inv fs s -> fair_inv fs (aturn len clock quantum s).
Proof.
  intros Hfs [Hids Hold Hgone (front & back & m & E & Hf & Hb)]. destruct (s_flows s) as [|a1 rest] eqn:El.
  { assert (aturn len clock quantum s = s) as -> by (unfold aturn; by rewrite El). split; rewrite ?El; try done. by exists front, back, m. }
  destruct (aturn_shape s a1 rest El) as (g & room & cut & fs' & Et & Hcut & Hshape).
  cbn in Hids. apply NoDup_cons in Hids as [Hn1 Hids].
  assert (Hother : forall i, i <> a_id a1 -> sent i (aturn len clock quantum s) = sent i s /\ turns_of i (aturn len clock quantum s) = turns_of i s).
  { intros i Hi. rewrite Et, sent_snoc, turns_snoc, !decide_False by congruence. by rewrite app_nil_r, Z.add_0_r. }
  assert (Hrest : forall a, a ∈ rest -> a_id a <> a_id a1).
  { intros a Ha Ei. apply Hn1. rewrite <- Ei. apply list_elem_of_fmap. by exists a. }
  assert (Hturn : turns_of (a_id a1) (aturn len clock quantum s) = turns_of (a_id a1) s + 1).
  { by rewrite Et, turns_snoc, decide_True. }
  assert (Ef : s_flows (aturn len clock quantum s) = fs') by (by rewrite Et).
  assert (Hfs' : forall a, a ∈ fs' -> a ∈ rest \/ (exists a', a = a' /\ fs' = rest ++ [a'] /\ a_id a' = a_id a1 /\
      forall a0, progress s a0 a1 -> progress (aturn len clock quantum s) a0 a')).
  { intros a Ha. destruct Hshape as [(-> & _)|(a' & -> & Ei & Hp)]; [by left|].
    apply elem_of_app in Ha as [Ha|Ha%list_elem_of_singleton]; [by left|right]. exists a'. by rewrite Ha. }
  split; rewrite ?Ef.
  - destruct Hshape as [(-> & _)|(a' & -> & Ei & Hp)]; [done|]. rewrite fmap_app. apply NoDup_app. split; [done|]. split.
    + intros i Hi Hx%list_elem_of_singleton. subst i. by rewrite Ei in Hi.
    + apply NoDup_singleton.
  - intros a Ha. destruct (Hfs' a Ha) as [Hr|(a' & -> & _ & Ei & Hp)].
    + destruct (Hold a) as (a0 & Ha0 & Hp0); [by constructor|]. exists a0. split; [done|].
      destruct (Hother (a_id a0)) as [H1 H2]; [rewrite <- (proj1 Hp0); by apply Hrest|].
      apply (progress_kept s); [done|done|by left|]. rewrite Et. apply Hcut.
    + destruct (Hold a1) as (a0 & Ha0 & Hp0); [by constructor|]. exists a0. split; [done|]. by apply Hp.
  - intros a Ha. destruct (decide (a_id a = a_id a1)) as [Ei|Hne].
    + destruct Hshape as [(-> & -> & Hb1)|(a' & -> & Ei' & Hp)].
      * right. destruct (Hold a1) as (a0 & Ha0 & Hp0 & Eb0 & _); [by constructor|].
        assert (a0 = a) as -> by (apply (nodup_inj a_id fs); [done|done|done|congruence]).
        rewrite Et, sent_snoc, Eb0, Hb1. destruct (decide _); done.
      * left. exists a'. split; [|congruence]. apply elem_of_app. right. by constructor.
    + destruct (Hother _ Hne) as [-> _]. destruct (Hgone a Ha) as [(a' & Ha' & Ei)|?]; [left|by right].
      apply elem_of_cons in Ha' as [->|Ha']; [congruence|]. exists a'. split; [|done].
      destruct Hshape as [(-> & _)|(a2 & -> & _)]; [done|]. apply elem_of_app. by left.
  - assert (exists front' back' m', rest = front' ++ back' /\ turns_of (a_id a1) s = m' /\
      (forall a, a ∈ front' -> turns_of (a_id a) s = m') /\ (forall a, a ∈ back' -> turns_of (a_id a) s = m' + 1))
      as (front' & back' & m' & Er & H1 & Hf' & Hb').
    { destruct front as [|a front].
      - exists rest, [], (m + 1). rewrite app_nil_r. simpl in E. subst back. split; [done|]. split; [apply Hb; by constructor|].
        split; [intros a Ha; apply Hb; by constructor|by intros a ?%elem_of_nil].
      - injection E as -> E. exists front, back, m. split; [done|]. split; [apply Hf; by constructor|].
        split; [intros a' Ha; apply Hf; by constructor|done]. }
    assert (Hkeep : forall a m, a ∈ rest -> turns_of (a_id a) s = m -> turns_of (a_id a) (aturn len clock quantum s) = m).
    { intros a n Ha <-. by destruct (Hother (a_id a) (Hrest a Ha)) as [_ ->]. }
    destruct Hshape as [(-> & _)|(a' & -> & Ei & _)].
    + exists front', back', m'. split; [done|]. split; intros a Ha; apply Hkeep; try (rewrite Er; apply elem_of_app); auto.
    + exists front', (back' ++ [a']), m'. split; [by rewrite Er, app_assoc|]. split.
      * intros a Ha. apply Hkeep; [rewrite Er; apply elem_of_app|]; auto.
      * intros a [Ha| ->%list_elem_of_singleton]%elem_of_app.
        -- apply Hkeep; [rewrite Er; apply elem_of_app|]; auto.
        -- by rewrite Ei, Hturn, H1.
Qed.

Lemma fair_steps fs s s' : NoDup (a_id <$> fs) -> rtc astep s s' -> fair_inv fs s -> fair_inv fs s'.
Proof.
  intros Hfs Hr. induction Hr as [|s s1 s2 [->| ->] _ IH]; [done| |]; intros Hi; apply IH.
  - by apply fair_turn.
  - destruct Hi as [H1 H2 H3 H4]. by split.
Qed.

Lemma fair_start t fs room :
  NoDup (a_id <$> fs) -> (forall a, a ∈ fs -> 0 <= a_deficit a <= L) -> fair_inv fs (AState t fs [] room false).
Proof.
  intros Hn Hd. split; cbn.
  - done.
  - intros a Ha. exists a. split; [done|]. split; [done|]. split; [done|]. intros _. split; [by apply Hd|].
    intros _. unfold sent, turns_of. cbn. lia.
  - intros a Ha. left. by exists a.
  - exists fs, [], 0. rewrite app_nil_r. split; [done|]. split; [done|]. by intros a ?%elem_of_nil.
Qed.

Lemma turns_near fs s a b : fair_inv fs s -> a ∈ s_flows s -> b ∈ s_flows s -> turns_of (a_id a) s - turns_of (a_id b) s <= 1.
Proof.
  intros [_ _ _ (front & back & m & -> & Hf & Hb)] [Ha|Ha]%elem_of_app [Hb'|Hb']%elem_of_app;
    repeat match goal with H : _ ∈ front |- _ => apply Hf in H | H : _ ∈ back |- _ => apply Hb in H end; lia.
Qed.

(** Two flows that still have packets were given as much, up to a quantum and
    two packets. *)
Lemma sent_near fs t room s a b a' b' :
  NoDup (a_id <$> fs) -> (forall a, a ∈ fs -> 0 <= a_deficit a <= L) ->
  rtc astep (AState t fs [] room false) s -> s_cut s = false ->
  a ∈ fs -> b ∈ fs -> a' ∈ s_flows s -> b' ∈ s_flows s -> a_id a' = a_id a -> a_id b' = a_id b ->
  backlog a' <> [] -> backlog b' <> [] ->
  bytes_of len (sent (a_id a) s) - bytes_of len (sent (a_id b) s) <= quantum + 2 * L.
Proof.
  intros Hn Hd Hr Hcut Ha Hb Ha' Hb' Ea Eb Na Nb.
  pose proof (fair_steps fs _ s Hn Hr (fair_start t fs room Hn Hd)) as Hi.
  assert (Hone : forall x x', x ∈ fs -> x' ∈ s_flows s -> a_id x' = a_id x -> backlog x' <> [] ->
    0 <= a_deficit x' <= L /\ bytes_of len (sent (a_id x) s) + a_deficit x' = a_deficit x + turns_of (a_id x) s * quantum).
  { intros x x' Hx Hx' Ex Nx. destruct (fi_old _ _ Hi x' Hx') as (x0 & Hx0 & Ex0 & _ & Hp).
    assert (x0 = x) as -> by (apply (nodup_inj a_id fs); [done|done|done|congruence]).
    destruct (Hp Hcut) as [H1 H2]. split; [done|by apply H2]. }
  destruct (Hone a a' Ha Ha' Ea Na) as [A1 A2], (Hone b b' Hb Hb' Eb Nb) as [B1 B2].
  pose proof (turns_near fs s a' b' Hi Ha' Hb') as Ht. rewrite Ea, Eb in Ht. pose proof (Hd a Ha). pose proof (Hd b Hb). nia.
Qed.

End Fair.

(** ** Sequences of batches *)

Section Runs.
Context (len : Z -> Z) (clock : nat -> spec_float) (quantum : Z).
Implicit Types (s : astate).

Definition prepend (l : list (FlowId * list Z)) (cut : bool) s : astate :=
  AState (s_ticks s) (s_flows s) (l ++ s_log s) (s_room s) (cut || s_cut s).

Lemma aturn_prepend l cut s : aturn len clock quantum (prepend l cut s) = prepend l cut (aturn len clock quantum s).
Proof.
  destruct s as [t [|a fs] log room c]; unfold aturn, prepend; cbn [s_flows s_ticks s_log s_room s_cut]; [done|].
  destruct (is_nil (backlog a)); cbn [s_flows s_ticks s_log s_room s_cut]; [by rewrite app_assoc|].
  destruct (serve _ _ _ _) as [[g e] rest]. cbn [s_flows s_ticks s_log s_room s_cut]. by rewrite app_assoc, orb_assoc.
Qed.

Lemma turns_prepend n l cut s :
  Nat.iter n (aturn len clock quantum) (prepend l cut s) = prepend l cut (Nat.iter n (aturn len clock quantum) s).
Proof. induction n as [|n IH]; [done|]. rewrite ?Nat.iter_succ. by rewrite IH, aturn_prepend. Qed.

Lemma turns_steps n s : rtc (astep len clock quantum) s (Nat.iter n (aturn len clock quantum) s).
Proof. induction n as [|n IH]; [done|]. eapply rtc_r; [exact IH|]. by left. Qed.

(** A turn is cut short only when the batch is full. *)
Lemma turns_uncut n s :
  s_cut s = false -> (0 < s_room (Nat.iter n (aturn len clock quantum) s))%nat ->
  s_cut (Nat.iter n (aturn len clock quantum) s) = false.
Proof.
  intros Hc. induction n as [|n IH]; [done|]. rewrite ?Nat.iter_succ.
  set (s1 := Nat.iter n (aturn len clock quantum) s) in *. intros Hr. unfold aturn in *.
  destruct (s_flows s1) as [|a fs]; [by apply IH|]. destruct (is_nil (backlog a)); [by apply IH|].
  pose proof (serve_spec len (s_room s1) (credit quantum a) (backlog a)) as Sp.
  destruct (serve _ _ _ _) as [[g c] rest]. cbn [s_room s_cut] in *.
  rewrite IH by lia. by rewrite (proj2 (Nat.eqb_neq (length g) (s_room s1))) by lia.
Qed.

(** The room left counts what was given. *)
Lemma turns_room n s :
  (length (given s) + s_room s)%nat =
  (length (given (Nat.iter n (aturn len clock quantum) s)) + s_room (Nat.iter n (aturn len clock quantum) s))%nat.
Proof.
  induction n as [|n IH]; [done|]. rewrite ?Nat.iter_succ. rewrite IH.
  set (s1 := Nat.iter n (aturn len clock quantum) s). unfold aturn, given. destruct (s_flows s1) as [|a fs]; [done|].
  destruct (is_nil (backlog a)); cbn [s_room s_log].
  - rewrite fmap_app, concat_app. cbn. by rewrite app_nil_r.
  - pose proof (serve_spec len (s_room s1) (credit quantum a) (backlog a)) as Sp.
    destruct (serve _ _ _ _) as [[g c] rest]. cbn [s_room s_log]. rewrite fmap_app, concat_app, length_app. cbn.
    rewrite app_nil_r. lia.
Qed.

Lemma given_prepend l cut s : given (prepend l cut s) = concat (snd <$> l) ++ given s.
Proof. unfold given, prepend. cbn [s_log]. by rewrite fmap_app, concat_app. Qed.

End Runs.
