(* ===== verification/DrrProps.v ===== *)
(** * Deficit round robin: the module refines its specification

    [drr_ok] relates the module to a list of flows; a run of the task is a number
    of turns ([DrrTurns.v]), until the batch is full or no flow can pay for its
    first packet, and a batch of arrivals is [joins]. *)

From Stdlib Require Import SpecFloat.
From S2P Require Import Prelude Ledger Shapers Tasks Cuckoo Llring Drr DrrTurns.

(** ** Rings of the module *)

Record sring {A} (r : llring A) (k : Z) (Q : list A) : Prop := {
  sr_ring : ring_for r k Q;
  sr_sp : sp_enqueue r = true;
  sr_sc : sc_dequeue r = true
}.

Lemma sring_get {A} (r : llring A) k x Q :
  sring r k (x :: Q) -> exists r', llring_dequeue r = Some (0, [x], r') /\ sring r' k Q.
Proof.
  intros [[H W] Hp Hc]. unfold llring_dequeue. rewrite Hc. unfold llring_sc_dequeue, llring_sc_dequeue_bulk.
  destruct (sc_dequeue_holds r k (x :: Q) 1 LLRING_QUEUE_FIXED H ltac:(lia)) as (r' & E & H' & E1 & E2 & E3).
  rewrite E. unfold fifo_dequeue in *. rewrite (proj2 (Z.ltb_ge _ _)) in * by (simpl; lia). simpl in *.
  rewrite drop_0 in H'. exists r'. rewrite take_0. split; [done|]. split; [|congruence..]. split; [done|congruence].
Qed.

Lemma sring_get_nil {A} (r : llring A) k :
  sring r k [] -> exists r', llring_dequeue r = Some (- LLRING_ERR_NOENT, [], r').
Proof.
  intros [Hr Hp Hc]. unfold llring_dequeue. rewrite Hc. apply (get_one r k [] Hr).
Qed.

Lemma sring_put {A} (r : llring A) k Q x :
  sring r k Q -> Z.of_nat (length Q) < 2 ^ k - 1 ->
  exists r', llring_enqueue r x = Some (0, r') /\ sring r' k (Q ++ [x]).
Proof.
  intros [[H W] Hp Hc] Hl. unfold llring_enqueue. rewrite Hp. unfold llring_sp_enqueue, llring_sp_enqueue_bulk.
  destruct (sp_enqueue_holds r k Q [x] 1 LLRING_QUEUE_FIXED H ltac:(simpl; lia)) as (r' & E & H' & E1 & E2 & E3).
  exists r'. rewrite E. unfold fifo_enqueue in *. rewrite (proj2 (Z.ltb_ge _ _)) in * by lia. simpl in *. split.
  - rewrite (proj2 (Z.leb_gt _ _)); [done|]. rewrite W. lia.
  - split; [|congruence..]. split; [done|congruence].
Qed.

Lemma sring_put_full {A} (r : llring A) k Q x :
  sring r k Q -> Z.of_nat (length Q) = 2 ^ k - 1 -> llring_enqueue r x = Some (- LLRING_ERR_NOBUF, r).
Proof.
  intros [Hr Hp Hc] Hl. unfold llring_enqueue. rewrite Hp. pose proof (put_one r k Q x Hr) as G.
  rewrite (proj2 (Z.eqb_eq (room_of k Q) 0)) in G by (unfold room_of; lia). done.
Qed.

Lemma sring_counts {A} (r : llring A) k Q :
  sring r k Q ->
  llring_count r = Z.of_nat (length Q) /\ llring_full r = (Z.of_nat (length Q) =? 2 ^ k - 1) /\
  llring_empty r = is_nil Q /\ 0 <= k <= 31 /\ Z.of_nat (length Q) <= 2 ^ k - 1.
Proof.
  intros [[H W] _ _]. destruct (counts_ok r k Q H) as (-> & _ & -> & ->). pose proof (ok_k _ _ (h_ok _ _ _ H)).
  pose proof (h_len _ _ _ H). split_and!; try lia. by destruct Q.
Qed.

Lemma sring_init {A} (null : A) k :
  0 <= k <= 31 -> exists r, llring_init null (2 ^ k) true true = (0, Some r) /\ sring r k [].
Proof.
  intros Hk. destruct (init_holds null k true true Hk) as (r & E & H & H1 & H2 & H3). exists r. split; [done|].
  split; [by split|done|done].
Qed.

(** ** Rounding up to a power of two *)

(** The bits of [x] are those of [v] and of what is up to [n] places above. *)
Definition spread (n v x : Z) : Prop :=
  forall i, 0 <= i -> Z.testbit x i = true <-> exists j, 0 <= j < n /\ Z.testbit v (i + j) = true.

Lemma spread_one v : spread 1 v v.
Proof.
  intros i Hi. split.
  - intros Hb. exists 0. by rewrite Z.add_0_r.
  - intros (j & Hj & Hb). by replace (i + j) with i in Hb by lia.
Qed.

Lemma spread_twice n v x : 0 <= n -> spread n v x -> spread (n + n) v (Z.lor x (Z.shiftr x n)).
Proof.
  intros Hn Hx i Hi. rewrite Z.lor_spec, Z.shiftr_spec, orb_true_iff, (Hx i), (Hx (i + n)) by lia. split.
  - intros [(j & Hj & Hb)|(j & Hj & Hb)]; [exists j|exists (n + j)]; (split; [lia|]); [done|]. by rewrite Z.add_assoc.
  - intros (j & Hj & Hb). destruct (decide (j < n)); [left; exists j; split; [lia|done]|right].
    exists (j - n). split; [lia|]. by replace (i + n + (j - n)) with (i + j) by lia.
Qed.

Lemma spread_all v x : 0 < v < 2 ^ 32 -> spread 32 v x -> 0 <= x -> x = 2 ^ (Z.log2 v + 1) - 1.
Proof.
  intros Hv Hx Hx0. pose proof (Z.log2_nonneg v). 
  assert (Hlog : Z.log2 v < 32) by (apply Z.log2_lt_pow2; lia).
  replace (2 ^ (Z.log2 v + 1) - 1) with (Z.ones (Z.log2 v + 1)) by (rewrite Z.ones_equiv; lia).
  apply Z.bits_inj'. intros i Hi. apply Bool.eq_iff_eq_true. rewrite (Hx i Hi), Z.ones_spec_iff by lia. split.
  - intros (j & Hj & Hb). destruct (decide (Z.log2 v < i + j)); [by rewrite Z.bits_above_log2 in Hb by lia|lia].
  - intros Hlt. exists (Z.log2 v - i). split; [lia|]. replace (i + (Z.log2 v - i)) with (Z.log2 v) by lia.
    apply Z.bit_log2. lia.
Qed.

Lemma round_pow2 v : 1 <= v <= 2 ^ 31 -> RoundToPowerTwo v = 2 ^ Z.log2_up v.
Proof.
  intros Hv. destruct (decide (v = 1)) as [->|Hne]; [reflexivity|].
  unfold RoundToPowerTwo. rewrite (wrap_small 32 (v - 1)) by lia.
  set (w := v - 1). assert (Hw : 1 <= w < 2 ^ 31) by lia.
  pose proof (spread_twice 1 w _ ltac:(lia) (spread_one w)) as S1. change (1 + 1) with 2 in S1.
  pose proof (spread_twice 2 w _ ltac:(lia) S1) as S2. change (2 + 2) with 4 in S2.
  pose proof (spread_twice 4 w _ ltac:(lia) S2) as S3. change (4 + 4) with 8 in S3.
  pose proof (spread_twice 8 w _ ltac:(lia) S3) as S4. change (8 + 8) with 16 in S4.
  pose proof (spread_twice 16 w _ ltac:(lia) S4) as S5. change (16 + 16) with 32 in S5.
  rewrite (spread_all w _ ltac:(lia) S5); clear S1 S2 S3 S4 S5.
  - assert (Hlog : Z.log2 w < 31) by (apply Z.log2_lt_pow2; lia). pose proof (Z.log2_nonneg w).
    replace (2 ^ (Z.log2 w + 1) - 1 + 1) with (2 ^ (Z.log2 w + 1)) by lia.
    rewrite wrap_small by (pose proof (pow2_mono (Z.log2 w + 1) 31 ltac:(lia)); pose proof (pow2_pos (Z.log2 w + 1) ltac:(lia)); lia).
    rewrite Z.log2_up_eqn by lia. by rewrite <- Z.sub_1_r.
  - repeat first [apply Z.lor_nonneg; split|apply Z.shiftr_nonneg]; lia.
Qed.

Lemma round_double j : 2 <= j <= 30 -> RoundToPowerTwo (u32 ((2 ^ j - 1) * kQueueGrowthFactor)) = 2 ^ (j + 1).
Proof.
  intros Hj. unfold kQueueGrowthFactor. pose proof (pow2_mono 2 j ltac:(lia)). pose proof (pow2_mono j 30 ltac:(lia)).
  assert (E1 : 2 ^ (j + 1) = 2 * 2 ^ j) by (rewrite Z.pow_add_r by lia; lia).
  rewrite wrap_small by lia. rewrite round_pow2 by lia. f_equal.
  apply Z.log2_up_unique; [lia|]. replace (Z.pred (j + 1)) with j by lia. lia.
Qed.

(** ** The packets of one turn *)

Section Turn.
Context (len : Z -> Z) (Hlen : forall p, 0 <= len p < 2 ^ 31).
Implicit Types (f : Flow) (a : aflow) (batch Q g : list Z).

(** The flow [f] is [a], with a queue in a ring. *)
Definition flow_rep f a : Prop :=
  exists q k, f = MkFlow (a_deficit a) (a_timer a) (a_id a) (Some q) (a_next a) /\ sring q k (a_queue a) /\ 2 <= k.

Lemma flow_empty_ok q k Q f : sring q k Q -> flow_empty f q = is_nil (match next_packet f with Some p => p :: Q | None => Q end).
Proof.
  intros Hq. unfold flow_empty. destruct (sring_counts q k Q Hq) as (_ & _ & -> & _).
  destruct (next_packet f); [by rewrite andb_false_r|by rewrite andb_true_r].
Qed.

Definition int (z : Z) : Prop := - 2 ^ 31 <= z < 2 ^ 31.

(** The first packet of a flow: taken from where it was set aside, or from the queue. *)
Lemma next_packets_step_ok f a batch total :
  flow_rep f a -> int (a_deficit a) -> (length batch <= 32)%nat ->
  match backlog a with
  | [] => next_packets_step len (f, batch, total) = inr (Some (f, batch, total, 0))
  | p :: rest =>
      if (length batch =? 32)%nat then next_packets_step len (f, batch, total) = inr (Some (f, batch, total, 0))
      else if a_deficit a <? len p then
        exists f', next_packets_step len (f, batch, total) = inr (Some (f', batch, total, 0)) /\
          flow_rep f' (AFlow (a_id a) (a_deficit a) (a_timer a) (Some p) rest)
      else
        exists f', next_packets_step len (f, batch, total) = inl (f', batch ++ [p], u32 (total + len p)) /\
          flow_rep f' (AFlow (a_id a) (a_deficit a - len p) (a_timer a) None rest)
  end.
Proof.
  intros (q & k & -> & Hq & Hk) Hc Hb. unfold next_packets_step. cbn [fqueue].
  rewrite (flow_empty_ok q k (a_queue a)) by done. cbn [next_packet]. fold (backlog a).
  assert (Hsub : forall p, (a_deficit a <? len p) = false -> int_sub (a_deficit a) (len p) = Some (a_deficit a - len p)).
  { intros p Hp%Z.ltb_ge. specialize (Hlen p). unfold int_sub. rewrite option_guard_True; [done|]. unfold int in Hc. lia. }
  unfold full, drr_max_burst. destruct (backlog a) as [|p rest] eqn:Eb; [by rewrite orb_true_r|].
  destruct (length batch =? 32)%nat; [done|]. cbn [orb is_nil]. unfold backlog in Eb. destruct (a_next a) as [p'|] eqn:En.
  - injection Eb as -> Eb. rewrite Eb in Hq. cbn [set_next deficit]. destruct (a_deficit a <? len p) eqn:Ec.
    + eexists. split; [reflexivity|]. by exists q, k.
    + rewrite Hsub by done. eexists. split; [reflexivity|]. by exists q, k.
  - rewrite Eb in Hq. destruct (sring_get q k p rest Hq) as (q' & -> & Hq'). cbn [set_fqueue deficit].
    destruct (a_deficit a <? len p) eqn:Ec.
    + eexists. split; [reflexivity|]. by exists q', k.
    + rewrite Hsub by done. eexists. split; [reflexivity|]. by exists q', k.
Qed.

Lemma u32_add_l (x y : Z) : u32 (u32 x + y) = u32 (x + y).
Proof. unfold wrap. by rewrite Zplus_mod_idemp_l. Qed.

(** The flow after its packets were given, before the end of its turn. *)
Definition served (room : nat) a (gcr : list Z * Z * list Z) : aflow :=
  let '(g, c, rest) := gcr in
  match rest with
  | [] => AFlow (a_id a) c (a_timer a) None []
  | p :: q => if (length g <? room)%nat then AFlow (a_id a) c (a_timer a) (Some p) q
              else AFlow (a_id a) c (a_timer a) None (p :: q)
  end.

Lemma next_packets_ok room : forall f a batch total fuel,
  flow_rep f a -> int (a_deficit a) -> (length batch + room = 32)%nat -> (room = O -> a_next a = None) -> (room < fuel)%nat ->
  let '(g, c, rest) := serve len room (a_deficit a) (backlog a) in
  exists f', iter_nat fuel (next_packets_step len) (f, batch, u32 total) =
      inr (Some (f', batch ++ g, u32 (total + bytes_of len g), 0)) /\
    flow_rep f' (served room a (g, c, rest)).
Proof.
  induction room as [|room IH]; intros f a batch total fuel Hf Hc Hb Hn Hfuel; (destruct fuel as [|fuel]; [lia|]);
    cbn [iter_nat]; pose proof (next_packets_step_ok f a batch (u32 total) Hf Hc ltac:(lia)) as Hs.
  - specialize (Hn eq_refl). cbn [serve]. assert (Hkeep : served 0 a ([], a_deficit a, backlog a) = a).
    { unfold served, backlog. rewrite Hn. destruct a as [i c t n Q]; cbn in *; subst n. by destruct Q. }
    destruct (backlog a) as [|p rest] eqn:Eb.
    + rewrite Hs. exists f. by rewrite app_nil_r, Z.add_0_r, Hkeep.
    + rewrite (proj2 (Nat.eqb_eq (length batch) 32)) in Hs by lia. rewrite Hs. exists f.
      by rewrite app_nil_r, Z.add_0_r, Hkeep.
  - cbn [serve]. destruct (backlog a) as [|p rest] eqn:Eb.
    + rewrite Hs. exists f. rewrite app_nil_r, Z.add_0_r. split; [done|]. cbn.
      unfold backlog in Eb. destruct a as [i c t [?|] Q]; cbn in *; [done|by subst Q].
    + rewrite (proj2 (Nat.eqb_neq (length batch) 32)) in Hs by lia. destruct (a_deficit a <? len p) eqn:Ec.
      * destruct Hs as (f' & -> & Hf'). exists f'. by rewrite app_nil_r, Z.add_0_r.
      * destruct Hs as (f' & -> & Hf'). apply Z.ltb_ge in Ec.
        set (a' := AFlow (a_id a) (a_deficit a - len p) (a_timer a) None rest) in *.
        assert (Hc' : int (a_deficit a')) by (pose proof (Hlen p); unfold int in *; cbn; lia).
        specialize (IH f' a' (batch ++ [p]) (u32 total + len p) fuel Hf' Hc' ltac:(rewrite length_app; simpl; lia) ltac:(done) ltac:(lia)).
        cbn [a_deficit a' backlog a_next a_queue] in IH.
        destruct (serve len room (a_deficit a - len p) rest) as [[g c] rest'] eqn:Es.
        destruct IH as (f2 & E & Hf2). exists f2. split.
        -- rewrite E, <- app_assoc, <- Z.add_assoc, u32_add_l. done.
        -- destruct rest' as [|p' q']; done.
Qed.

End Turn.

(** ** The module holds the flows of a list *)

Section Module.
Context {T : Type} `{FlowTableLaws T} (len : Z -> Z) (clock : nat -> spec_float).
Context (Hlen : forall p, 0 <= len p < 2 ^ 31).
Implicit Types (d : DRR T) (ps : list (Z * aflow)) (a : aflow) (f : Flow).

Definition table ps : gmap FlowId Z := list_to_map ((fun x => (a_id x.2, x.1)) <$> ps).

(** The flows [ps] with their addresses, of which the ring holds [ring]. *)
Record reps d ps (ring : list Z) (k : Z) : Prop := {
  o_ring : exists r, flow_ring_ d = Some r /\ sring r k ring;
  o_cur : current_flow_ d = None;
  o_ptrs : NoDup (fst <$> ps);
  o_ids : NoDup ((fun x => a_id x.2) <$> ps);
  o_flows : forall p a, (p, a) ∈ ps -> exists f, heap d !! p = Some f /\ flow_rep f a;
  o_range : forall p a, (p, a) ∈ ps -> p < fresh d /\ int (a_deficit a);
  o_tab : t_rep (flows_ d) (table ps)
}.

Definition drr_ok d (fs : list aflow) (k : Z) : Prop := exists ps, fs = snd <$> ps /\ reps d ps (fst <$> ps) k.

(** The fields a turn leaves alone. *)
Definition same_limits d d' : Prop :=
  quantum_ d' = quantum_ d /\ max_queue_size_ d' = max_queue_size_ d /\ overload d' = overload d.

Lemma table_fst ps : (fun x => (a_id x.2, x.1)) <$> ps = zip ((fun x => a_id x.2) <$> ps) (fst <$> ps).
Proof. induction ps as [|x ps IH]; [done|]. cbn. by f_equal. Qed.

Lemma table_nodup ps : NoDup ((fun x => a_id x.2) <$> ps) -> NoDup ((fun x : Z * aflow => (a_id x.2, x.1)) <$> ps).*1.
Proof. by rewrite <- list_fmap_compose. Qed.

Lemma table_perm ps ps' : NoDup ((fun x => a_id x.2) <$> ps) -> ps ≡ₚ ps' -> table ps = table ps'.
Proof.
  intros Hn Hp. apply list_to_map_proper; [by apply table_nodup|]. by apply fmap_Permutation.
Qed.

Lemma reps_perm d ps ps' ring k : ps ≡ₚ ps' -> reps d ps ring k -> reps d ps' ring k.
Proof.
  intros Hp [H1 H2 H3 H4 H5 H6 H7]. split; [done|done| | | | |].
  - by rewrite <- Hp.
  - by rewrite <- Hp.
  - intros p a. rewrite <- Hp. apply H5.
  - intros p a. rewrite <- Hp. apply H6.
  - by rewrite <- (table_perm ps ps').
Qed.

Lemma reps_tick d ps ring k : reps d ps ring k -> reps (tick d) ps ring k.
Proof. by intros []. Qed.

Lemma reps_ring d ps ring ring' k r : sring r k ring' -> reps d ps ring k -> reps (set_flow_ring (Some r) d) ps ring' k.
Proof. intros Hr [H1 H2 H3 H4 H5 H6 H7]. split; try done. by exists r. Qed.

Lemma reps_flow d p a a' f' ps ring k :
  reps d ((p, a) :: ps) ring k -> flow_rep f' a' -> a_id a' = a_id a -> int (a_deficit a') ->
  reps (set_flow p f' d) ((p, a') :: ps) ring k.
Proof.
  intros [H1 H2 H3 H4 H5 H6 H7] Hf Hi Hd. split; try done.
  - cbn in *. by rewrite Hi.
  - intros p1 a1 [[= -> ->]|Hx]%elem_of_cons; cbn.
    + rewrite lookup_insert_eq. by exists f'.
    + rewrite lookup_insert_ne; [apply H5; by constructor|]. intros <-. cbn in H3. apply NoDup_cons in H3 as [H3 _].
      apply H3, list_elem_of_fmap. by exists (p, a1).
  - intros p1 a1 [[= -> ->]|Hx]%elem_of_cons; cbn.
    + split; [|done]. apply (H6 p a). by constructor.
    + apply H6. by constructor.
  - unfold table in *. cbn in *. by rewrite Hi.
Qed.

Lemma to_signed_int z : int (to_signed 32 (wrap 32 z)).
Proof.
  unfold int, to_signed. pose proof (wrap_range 32 (wrap 32 z) ltac:(lia)).
  destruct (Z.ltb_spec (wrap 32 (wrap 32 z)) (2 ^ (32 - 1))); lia.
Qed.

(** *** A flow leaves *)

Definition next_list (o : option Z) : list Z := match o with Some p => [p] | None => [] end.

Lemma drain_flow_ok q k Q : sring q k Q -> iter_until fuel64 drain_flow (q, []) = inr (Some Q).
Proof.
  intros Hq. rewrite iter_until_nat. assert (Hf : (length Q < Pos.to_nat fuel64)%nat).
  { destruct (sring_counts q k Q Hq) as (_ & _ & _ & Hk & Hl). pose proof (pow2_mono k 31 ltac:(lia)). unfold fuel64. lia. }
  revert Hf. generalize (Pos.to_nat fuel64) as fuel. change Q with ([] ++ Q) at 2. generalize (@nil Z) as l.
  revert q Hq. induction Q as [|p Q IH]; intros q Hq l fuel Hf; (destruct fuel as [|fuel]; [simpl in Hf; lia|]);
    cbn [iter_nat]; unfold drain_flow at 1; cbn [fst snd].
  - destruct (get_one q k [] (sr_ring _ _ _ Hq)) as (r' & ->). by rewrite app_nil_r.
  - destruct (sring_get q k p Q Hq) as (q' & E & Hq'). unfold llring_dequeue in E. rewrite (sr_sc _ _ _ Hq) in E. rewrite E.
    rewrite (IH q' Hq'); [by rewrite <- app_assoc|simpl in Hf; lia].
Qed.

Lemma delete_flow_ok f a : flow_rep f a -> delete_flow f = Some (a_queue a ++ next_list (a_next a)).
Proof.
  intros (q & k & -> & Hq & _). unfold delete_flow. cbn [fqueue next_packet].
  rewrite (drain_flow_ok q k (a_queue a) Hq). by rewrite bind_some.
Qed.

Lemma remove_flow_ok d p a ps ring k :
  reps d ((p, a) :: ps) ring k ->
  exists d', RemoveFlow p d = Some (d', a_queue a ++ next_list (a_next a)) /\
    reps d' ps ring k /\ same_limits d d' /\ ticks d' = ticks d.
Proof.
  intros R. pose proof R as [H1 H2 H3 H4 H5 H6 H7]. destruct (H5 p a) as (f & Ef & Hf); [by constructor|].
  unfold RemoveFlow. rewrite Ef, bind_some, H2, decide_False by done. replace (fid f) with (a_id a) by (by destruct Hf as (q & j & -> & _)).
  destruct (t_remove_ok (flows_ d) _ (a_id a) H7) as (t' & -> & Ht). rewrite bind_some, (delete_flow_ok f a Hf), bind_some.
  eexists. split; [reflexivity|]. split; [|done]. cbn in H3, H4. apply NoDup_cons in H3 as [H3 H3'], H4 as [H4 H4'].
  split; try done.
  - intros p1 a1 Hx. cbn. rewrite lookup_delete_ne; [apply H5; by constructor|]. intros <-. apply H3, list_elem_of_fmap.
    by exists (p, a1).
  - intros p1 a1 Hx. apply H6. by constructor.
  - cbn. unfold table in *. cbn in Ht. rewrite delete_insert_id in Ht; [done|].
    apply not_elem_of_list_to_map_1. by rewrite <- list_fmap_compose.
Qed.

(** *** Whose turn it is *)

Lemma is_nil_backlog a : is_nil (match a_next a with Some p => p :: a_queue a | None => a_queue a end) = is_nil (backlog a).
Proof. done. Qed.

Lemma get_next_flow_ok d p a ps k :
  reps d ((p, a) :: ps) (p :: (fst <$> ps)) k ->
  exists r d', GetNextFlow clock d = Some (r, 0, d', []) /\ same_limits d d' /\ ticks d' = S (ticks d) /\
    if is_nil (backlog a) then
      r = None /\
      if expired (clock (ticks d)) (a_timer a) then reps d' ps (fst <$> ps) k
      else reps d' (ps ++ [(p, a)]) (fst <$> (ps ++ [(p, a)])) k
    else
      r = Some p /\
      reps d' ((p, AFlow (a_id a) (credit (quantum_ d) a) (a_timer a) (a_next a) (a_queue a)) :: ps) (fst <$> ps) k.
Proof.
  intros R. pose proof R as [(r & Er & Hr) H2 H3 H4 H5 H6 H7]. unfold GetNextFlow. cbn [tick current_flow_ flow_ring_].
  rewrite H2, Er. cbn [mbind option_bind]. destruct (sring_get r k p (fst <$> ps) Hr) as (r1 & -> & Hr1). cbn [mbind option_bind].
  pose proof (reps_tick _ _ _ _ R) as Rt. pose proof (reps_ring _ _ _ _ _ _ Hr1 Rt) as R1.
  cbn [Z.ltb Z.compare lookup list_lookup]. rewrite bind_some. cbn [set_flow_ring heap tick].
  destruct (H5 p a) as (f & Ef & q & j & -> & Hq & Hj); [by constructor|]. rewrite Ef, bind_some. cbn [fqueue]. rewrite bind_some.
  rewrite (flow_empty_ok q j (a_queue a)) by done. cbn [next_packet]. rewrite is_nil_backlog.
  destruct (is_nil (backlog a)) eqn:Enil.
  - cbn [timer]. destruct (expired (clock (ticks d)) (a_timer a)).
    + destruct (remove_flow_ok _ _ _ _ _ _ R1) as (d' & E & Rd & Hs & Ht). rewrite E, bind_some.
      exists None, d'. assert (Hb : a_queue a ++ next_list (a_next a) = []).
      { unfold backlog in Enil. destruct (a_next a); [done|]. by destruct (a_queue a). }
      rewrite Hb. split_and!; try done. all: apply Hs.
    + destruct (sring_put r1 k (fst <$> ps) p Hr1) as (r2 & E & Hr2).
      { destruct (sring_counts r k _ Hr) as (_ & _ & _ & _ & Hl). simpl in Hl. lia. }
      rewrite E, bind_some. eexists None, _. split; [reflexivity|]. split; [done|]. split; [done|].
      split; [done|]. apply (reps_perm _ ((p, a) :: ps)); [by rewrite Permutation_app_comm|].
      rewrite fmap_app. by apply (reps_ring _ _ (fst <$> ps) _ k r2 Hr2).
  - eexists (Some p), _. split; [reflexivity|]. split; [done|]. split; [done|]. split; [done|].
    apply (reps_flow _ p a); [done| |done|apply to_signed_int]. by exists q, j.
Qed.

(** *** A turn *)

Lemma serve_int room : forall c pkts, int c -> let '(g, c', rest) := serve len room c pkts in int c'.
Proof.
  induction room as [|room IH]; intros c [|p rest] Hc; simpl; try done.
  destruct (Z.ltb_spec c (len p)); [done|]. assert (Hc' : int (c - len p)) by (pose proof (Hlen p); unfold int in *; lia).
  specialize (IH (c - len p) rest Hc'). by destruct (serve len room (c - len p) rest) as [[g c'] rest'].
Qed.

Lemma get_next_packets_ok d p a ps ring k batch room :
  reps d ((p, a) :: ps) ring k -> (length batch + room = 32)%nat -> (0 < room)%nat ->
  let '(g, c, rest) := serve len room (a_deficit a) (backlog a) in
  exists d', GetNextPackets len batch p d = Some (d', batch ++ g, u32 (bytes_of len g), 0) /\
    reps d' ((p, served room a (g, c, rest)) :: ps) ring k /\ same_limits d d' /\ ticks d' = ticks d.
Proof.
  intros R Hb Hr. pose proof (serve_int room (a_deficit a) (backlog a)) as Hi.
  destruct (o_flows _ _ _ _ R p a) as (f & Ef & Hf); [by constructor|].
  destruct (o_range _ _ _ _ R p a) as [_ Hd]; [by constructor|].
  assert (Hfuel : (room < Pos.to_nat fuel64)%nat) by (unfold fuel64; lia).
  pose proof (next_packets_ok len Hlen room f a batch 0 _ Hf Hd Hb ltac:(lia) Hfuel) as Hs.
  destruct (serve len room (a_deficit a) (backlog a)) as [[g c] rest]. destruct Hs as (f' & E & Hf').
  unfold GetNextPackets. rewrite Ef, bind_some, iter_until_nat. change (u32 0) with 0 in E. rewrite E, bind_some.
  eexists. split; [reflexivity|]. clear E Hfuel. split; [|done]. apply (reps_flow _ p a); [done|done| |].
  - unfold served. destruct rest; [done|]. by destruct (length g <? room)%nat.
  - specialize (Hi Hd). unfold served. destruct rest; [done|]. by destruct (length g <? room)%nat.
Qed.

Definition zeroed a : aflow := if is_nil (backlog a) then AFlow (a_id a) 0 (a_timer a) None [] else a.

Lemma end_turn_ok d p a ps k :
  reps d ((p, a) :: ps) (fst <$> ps) k -> Z.of_nat (length ps) < 2 ^ k - 1 ->
  (forall x, a_next a = Some x -> a_deficit a < len x) ->
  exists d', end_turn len p d = Some (d', 0) /\
    reps d' (ps ++ [(p, zeroed a)]) (fst <$> (ps ++ [(p, zeroed a)])) k /\ same_limits d d' /\ ticks d' = ticks d.
Proof.
  intros R Hl Hx. destruct (o_flows _ _ _ _ R p a) as (f & Ef & q & j & -> & Hq & Hj); [by constructor|].
  destruct (o_range _ _ _ _ R p a) as [_ Hd]; [by constructor|].
  unfold end_turn. rewrite Ef, bind_some. cbn [fqueue]. rewrite bind_some.
  rewrite (flow_empty_ok q j (a_queue a)) by done. cbn [next_packet]. rewrite is_nil_backlog.
  set (f := if is_nil (backlog a) then _ else _).
  assert (Hf : flow_rep f (zeroed a)).
  { unfold f, zeroed, backlog. destruct (a_next a) as [x|] eqn:En; cbn.
    - exists q, j. rewrite En. done.
    - destruct (a_queue a) as [|x Q] eqn:EQ; cbn; exists q, j; cbn; rewrite ?En, ?EQ; done. }
  assert (Hn : next_packet f = a_next a) by (unfold f; by destruct (is_nil (backlog a))).
  assert (Hc : match a_next a with None => true | Some p => deficit f <? len p end = true).
  { destruct (a_next a) as [x|] eqn:En; [|done]. apply Z.ltb_lt. unfold f, backlog. rewrite En. cbn. by apply Hx. }
  rewrite Hn, Hc. pose proof (reps_flow _ p a (zeroed a) f ps _ k R Hf) as R1.
  assert (R2 : reps (set_flow p f d) ((p, zeroed a) :: ps) (fst <$> ps) k).
  { apply R1; unfold zeroed; by destruct (is_nil (backlog a)). }
  destruct (o_ring _ _ _ _ R2) as (r & Er & Hr). rewrite Er, bind_some.
  destruct (sring_put r k (fst <$> ps) p Hr) as (r' & -> & Hr'); [by rewrite length_fmap|]. rewrite bind_some.
  eexists. split; [reflexivity|]. split; [|done]. apply (reps_perm _ ((p, zeroed a) :: ps)); [by rewrite Permutation_app_comm|].
  rewrite fmap_app. by apply (reps_ring _ _ (fst <$> ps) _ k r').
Qed.

Lemma zeroed_served room a gcr : zeroed (served room a gcr) = keep room a gcr.
Proof.
  destruct gcr as [[g c] [|p q]]; unfold served, keep; [done|]. by destruct (length g <? room)%nat.
Qed.

(** One turn of the module is one of the specification. *)
Lemma turn_ok d p a ps k batch log cut :
  reps d ((p, a) :: ps) (p :: (fst <$> ps)) k -> (length batch < 32)%nat ->
  let S := AState (ticks d) (a :: (snd <$> ps)) log (32 - length batch) cut in
  exists r d1, GetNextFlow clock d = Some (r, 0, d1, []) /\
    match r with
    | None => exists ps', reps d1 ps' (fst <$> ps') k /\ same_limits d d1 /\
        aturn len clock (quantum_ d) S = AState (ticks d1) (snd <$> ps') (log ++ [(a_id a, [])]) (32 - length batch) cut /\
        (ps' = ps \/ ps' = ps ++ [(p, a)] /\ stuck len a)
    | Some fp => exists d2 g d3 a' cut', GetNextPackets len batch fp d1 = Some (d2, batch ++ g, u32 (bytes_of len g), 0) /\
        end_turn len fp d2 = Some (d3, 0) /\ reps d3 (ps ++ [(p, a')]) (fst <$> (ps ++ [(p, a')])) k /\ same_limits d d3 /\
        aturn len clock (quantum_ d) S =
          AState (ticks d3) (snd <$> (ps ++ [(p, a')])) (log ++ [(a_id a, g)]) (32 - length (batch ++ g)) cut' /\
        (g = [] -> stuck len a') /\ (length (batch ++ g) <= 32)%nat
    end.
Proof.
  intros R Hb S. destruct (get_next_flow_ok d p a ps k R) as (r & d1 & E1 & L1 & T1 & C). exists r, d1. split; [done|].
  unfold S, aturn. cbn [s_flows s_ticks s_log s_room s_cut]. destruct (is_nil (backlog a)) eqn:En.
  - destruct C as [-> C]. rewrite <- T1. destruct (expired (clock (ticks d)) (a_timer a)).
    + exists ps. split; [done|]. split; [exact L1|]. split; [done|]. by left.
    + exists (ps ++ [(p, a)]). split; [done|]. split; [exact L1|]. split; [by rewrite fmap_app|].
      right. split; [done|]. unfold stuck. by destruct (backlog a).
  - destruct C as [-> R1]. set (a1 := AFlow _ _ _ _ _) in R1.
    pose proof (get_next_packets_ok d1 p a1 ps _ k batch (32 - length batch) R1 ltac:(lia) ltac:(lia)) as G.
    change (backlog a1) with (backlog a) in G. change (a_deficit a1) with (credit (quantum_ d) a) in G.
    pose proof (serve_spec len (32 - length batch) (credit (quantum_ d) a) (backlog a)) as Sp.
    destruct (serve len (32 - length batch) (credit (quantum_ d) a) (backlog a)) as [[g c] rest].
    destruct G as (d2 & E2 & R2 & L2 & T2). destruct Sp as (Eb & _ & Hg & Hlt & Hgn).
    destruct (end_turn_ok d2 p (served (32 - length batch) a1 (g, c, rest)) ps k R2) as (d3 & E3 & R3 & L3 & T3).
    { destruct (o_ring _ _ _ _ R) as (r & _ & Hr). destruct (sring_counts _ _ _ Hr) as (_ & _ & _ & _ & Hl).
      simpl in Hl. rewrite length_fmap in Hl. lia. }
    { intros x. unfold served. destruct rest as [|y rest]; [done|].
      destruct (Nat.ltb_spec (length g) (32 - length batch)); cbn; [|done]. intros [= <-]. by apply Hlt. }
    rewrite zeroed_served in R3.
    exists d2, g, d3, (keep (32 - length batch) a1 (g, c, rest)). eexists. split; [exact E2|]. split; [exact E3|]. split; [exact R3|].
    split; [by destruct L1 as (? & ? & ?), L2 as (? & ? & ?), L3 as (? & ? & ?); split_and!; congruence|].
    split; [|split].
    + rewrite T3, T2, T1, fmap_app, length_app. replace (32 - (length batch + length g))%nat with (32 - length batch - length g)%nat by lia.
      reflexivity.
    + intros ->. unfold stuck, keep. destruct rest as [|y rest]; [done|]. simpl length.
      rewrite (proj2 (Nat.ltb_lt 0 (32 - length batch))) by lia. cbn. apply Hgn; [lia|done].
    + rewrite length_app. lia.
Qed.

(** *** A batch *)

Section Batch.
Context (d0 : DRR T) (s0 : astate) (k : Z) (Hlog : s_log s0 = []).

(** After some turns of the specification, the module is in [d] with [batch]. *)
Definition after_turns d ps (batch : list Z) : Prop :=
  exists n log cut, Nat.iter n (aturn len clock (quantum_ d0)) s0 = AState (ticks d) (snd <$> ps) log (32 - length batch) cut /\
    batch = concat (snd <$> log) /\ reps d ps (fst <$> ps) k /\ same_limits d0 d /\ (length batch <= 32)%nat.

(** [count] flows of the present pass are left; those that had their turn are
    stuck, unless one of them gave something. *)
Definition batch_inv (s : batch_state (T := T)) : Prop :=
  exists front back, after_turns (b_drr s) (front ++ back) (b_batch s) /\
    b_bytes s = u32 (bytes_of len (b_batch s)) /\ b_freed s = [] /\
    b_count s = Z.of_nat (length front) /\ 0 <= b_size s <= Z.of_nat (length (b_batch s)) /\
    if decide (b_size s = Z.of_nat (length (b_batch s))) then Forall (stuck len) (snd <$> back) else back <> [].

Definition batch_done (o : option (batch_result (T := T))) : Prop :=
  exists d ps batch, o = Some (d, batch, u32 (bytes_of len batch), 0, []) /\ after_turns d ps batch /\
    (length batch = 32%nat \/ Forall (stuck len) (snd <$> ps)).

Definition batch_measure (s : batch_state (T := T)) : Z := (32 - b_size s) * 2 ^ 32 + b_count s.

Lemma batch_turn d p a front back batch size :
  after_turns d (((p, a) :: front) ++ back) batch -> (length batch < 32)%nat -> 0 <= size <= Z.of_nat (length batch) ->
  (if decide (size = Z.of_nat (length batch)) then Forall (stuck len) (snd <$> back) else back <> []) ->
  exists r d1, GetNextFlow clock d = Some (r, 0, d1, []) /\
    match r with
    | None => batch_inv (MkBatch d1 batch (u32 (bytes_of len batch)) (Z.of_nat (length front)) size [])
    | Some fp => exists d2 g d3, GetNextPackets len batch fp d1 = Some (d2, batch ++ g, u32 (bytes_of len g), 0) /\
        end_turn len fp d2 = Some (d3, 0) /\
        batch_inv (MkBatch d3 (batch ++ g) (u32 (bytes_of len (batch ++ g))) (Z.of_nat (length front)) size [])
    end.
Proof.
  intros (n & log & cut & En & Eb & R & L & _) Hb Hs Hback. cbn [app fmap list_fmap fst snd] in R, En.
  destruct (turn_ok d p a (front ++ back) k batch log cut R Hb) as (r & d1 & E1 & C). exists r, d1. split; [done|].
  rewrite (proj1 L) in C. rewrite <- En in C. destruct r as [fp|].
  - destruct C as (d2 & g & d3 & a' & cut' & E2 & E3 & R3 & L3 & Et & Hst & Hlen'). exists d2, g, d3. split; [done|]. split; [done|].
    exists front, (back ++ [(p, a')]). cbn [b_drr b_batch b_bytes b_freed b_count b_size]. rewrite app_assoc. split_and!; try done; try lia.
    + exists (S n), (log ++ [(a_id a, g)]), cut'. split; [exact Et|]. split; [|split; [done|split; [|done]]].
      * by rewrite fmap_app, concat_app, <- Eb; simpl; rewrite app_nil_r.
      * destruct L as (? & ? & ?), L3 as (? & ? & ?). split_and!; congruence.
    + rewrite length_app. lia.
    + destruct (decide (size = Z.of_nat (length (batch ++ g)))) as [E|E]; [|by intros [_ ?]%app_nil].
      assert (g = []) as ->. { apply length_zero_iff_nil. rewrite length_app in E. lia. }
      rewrite app_nil_r in E. rewrite decide_True in Hback by lia. rewrite fmap_app. apply Forall_app. split; [done|].
      constructor; [by apply Hst|constructor].
  - destruct C as (ps' & R1 & L1 & Et & Hps).
    assert (Ha : after_turns d1 ps' batch).
    { exists (S n), (log ++ [(a_id a, [])]), cut. split; [exact Et|]. split; [|split; [done|split; [|lia]]].
      - by rewrite fmap_app, concat_app, <- Eb; simpl; rewrite app_nil_r.
      - destruct L as (? & ? & ?), L1 as (? & ? & ?). split_and!; congruence. }
    destruct Hps as [->|[-> Hst]].
    + exists front, back. split_and!; done || (simpl; lia).
    + exists front, (back ++ [(p, a)]). cbn [b_drr b_batch b_bytes b_freed b_count b_size]. rewrite app_assoc. split_and!; try done; try lia.
      destruct (decide _); [|by intros [_ ?]%app_nil]. rewrite fmap_app. apply Forall_app. split; [done|]. by constructor.
Qed.

Lemma u32_add_both x y : u32 (u32 x + u32 y) = u32 (x + y).
Proof. unfold wrap. by rewrite <- Z.add_mod. Qed.

Lemma batch_pass d p a front back batch size :
  after_turns d (((p, a) :: front) ++ back) batch -> (length batch < 32)%nat -> 0 <= size <= Z.of_nat (length batch) ->
  (if decide (size = Z.of_nat (length batch)) then Forall (stuck len) (snd <$> back) else back <> []) ->
  exists s', next_batch_step len clock (MkBatch d batch (u32 (bytes_of len batch)) (Z.of_nat (length ((p, a) :: front))) size []) = inl s' /\
    batch_inv s' /\ b_count s' = Z.of_nat (length front) /\ b_size s' = size.
Proof.
  intros Ha Hb Hs Hback. destruct (batch_turn d p a front back batch size Ha Hb Hs Hback) as (r & d1 & E1 & C).
  assert (Hc : Z.of_nat (length ((p, a) :: front)) < 2 ^ 32).
  { destruct Ha as (n & log & cut & _ & _ & R & _). destruct (o_ring _ _ _ _ R) as (r' & _ & Hr).
    destruct (sring_counts _ _ _ Hr) as (_ & _ & _ & Hk & Hl). rewrite length_fmap, length_app in Hl.
    pose proof (pow2_mono k 31 ltac:(lia)). lia. }
  unfold next_batch_step, full, drr_max_burst. rewrite (proj2 (Nat.eqb_neq (length batch) 32)) by lia.
  rewrite (proj2 (Z.eqb_neq (Z.of_nat (length ((p, a) :: front))) 0)) by (simpl; lia). cbn [andb].
  rewrite E1. cbn [Z.eqb negb app]. replace (u32 (Z.of_nat (length ((p, a) :: front)) - 1)) with (Z.of_nat (length front)).
  2:{ rewrite wrap_small; simpl length; simpl length in Hc; lia. }
  destruct r as [fp|].
  - destruct C as (d2 & g & d3 & -> & -> & Hi). cbn [Z.eqb negb]. rewrite u32_add_both, <- bytes_app. by eexists.
  - by eexists.
Qed.

Lemma batch_step s :
  batch_inv s ->
  match next_batch_step len clock s with
  | inl s' => batch_inv s' /\ 0 <= batch_measure s' < batch_measure s
  | inr o => batch_done o
  end.
Proof.
  intros (front & back & Ha & E1 & E2 & E3 & Hs & Hback). destruct s as [d batch total count size freed].
  cbn [b_drr b_batch b_bytes b_freed b_count b_size] in *. subst total freed count.
  pose proof Ha as (n & log & cut & _ & _ & R & _ & Hb). destruct (o_ring _ _ _ _ R) as (r & Er & Hr).
  destruct (sring_counts _ _ _ Hr) as (Ec & _ & _ & Hk & Hl). rewrite length_fmap in Ec, Hl. pose proof (pow2_mono k 31 ltac:(lia)).
  destruct (decide (length batch = 32%nat)) as [Ef|Ef].
  { unfold next_batch_step, full, drr_max_burst. rewrite (proj2 (Nat.eqb_eq _ _) Ef). exists d, (front ++ back), batch. tauto. }
  assert (Hpass : forall p a front' back' size',
    front ++ back = ((p, a) :: front') ++ back' -> 0 <= size' <= Z.of_nat (length batch) ->
    (if decide (size' = Z.of_nat (length batch)) then Forall (stuck len) (snd <$> back') else back' <> []) ->
    (32 - size') * 2 ^ 32 + Z.of_nat (length front') < (32 - size) * 2 ^ 32 + Z.of_nat (length front) ->
    next_batch_step len clock (MkBatch d batch (u32 (bytes_of len batch)) (Z.of_nat (length front)) size []) =
      next_batch_step len clock (MkBatch d batch (u32 (bytes_of len batch)) (Z.of_nat (length ((p, a) :: front'))) size' []) ->
    match next_batch_step len clock (MkBatch d batch (u32 (bytes_of len batch)) (Z.of_nat (length front)) size []) with
    | inl s' => batch_inv s' /\ 0 <= batch_measure s' < (32 - size) * 2 ^ 32 + Z.of_nat (length front)
    | inr o => batch_done o
    end).
  { intros p a front' back' size' E Hs' Hb' Hm ->. rewrite E in Ha.
    destruct (batch_pass d p a front' back' batch size' Ha ltac:(lia) Hs' Hb') as (s' & -> & Hi & Hc & Hz).
    split; [done|]. unfold batch_measure. rewrite Hc, Hz. lia. }
  unfold batch_measure. cbn [b_size b_count]. destruct front as [|[p a] front].
  - destruct (decide (size = Z.of_nat (length batch))) as [Ez|Ez].
    + unfold next_batch_step, full, drr_max_burst. rewrite (proj2 (Nat.eqb_neq _ _) Ef).
      rewrite (proj2 (Z.eqb_eq size _) Ez). exists d, back, batch. tauto.
    + destruct back as [|[p a] back]; [done|].
      apply (Hpass p a back [] (Z.of_nat (length batch))); [by rewrite app_nil_r|lia|by rewrite decide_True| |].
      * simpl in Hl, Ec. simpl length. lia.
      * unfold next_batch_step. destruct (full batch); [done|]. rewrite (proj2 (Z.eqb_neq size _) Ez), Er.
        rewrite (proj2 (Z.eqb_neq (Z.of_nat (length ((p, a) :: back))) 0)) by (simpl; lia).
        cbn [length Z.of_nat Z.eqb andb fmap option_fmap option_map]. rewrite Ec. done.
  - apply (Hpass p a front back size); [done|done|done|simpl length; lia|done].
Qed.

End Batch.

(** *** A run of the task *)

Lemma run_task_ok d fs k :
  drr_ok d fs k -> overload d <= 0 ->
  exists n d', let s := Nat.iter n (aturn len clock (quantum_ d)) (AState (ticks d) fs [] drr_max_burst false) in
    let cnt := Z.of_nat (length (given s)) in
    RunTask len clock d =
      Some (d', Task (cnt =? 0) cnt (u32 ((bytes_of len (given s) + cnt * kPacketOverhead) * 8)),
        if 0 <? u32 (bytes_of len (given s)) then Some (given s) else None, []) /\
    drr_ok d' (s_flows s) k /\ same_limits d d' /\ ticks d' = s_ticks s /\ (length (given s) <= 32)%nat /\
    (length (given s) = 32%nat \/ Forall (stuck len) (s_flows s)).
Proof.
  intros (ps & -> & R) Ho. destruct (o_ring _ _ _ _ R) as (r & Er & Hr).
  destruct (sring_counts _ _ _ Hr) as (Ec & _ & _ & Hk & Hl). rewrite length_fmap in Ec, Hl. pose proof (pow2_mono k 31 ltac:(lia)).
  set (s0 := AState (ticks d) (snd <$> ps) [] drr_max_burst false).
  set (b0 := MkBatch d [] 0 (llring_count r) 0 []).
  destruct (iter_until_total (batch_inv d s0 k) (batch_done d s0 k) batch_measure fuel64 (next_batch_step len clock) b0)
    as (o & E & d' & ps' & batch & -> & (n & log & cut & En & Eb & R' & L & Hb) & Hstop).
  - intros s Hs. by apply batch_step.
  - exists ps, []. rewrite app_nil_r. cbn [b_drr b_batch b_bytes b_freed b_count b_size b0]. split.
    { exists O, [], false. by split_and!; try done; simpl; lia. }
    split_and!; try done. rewrite decide_True by done. constructor.
  - unfold batch_measure. cbn [b_size b_count b0]. rewrite Ec. unfold fuel64. lia.
  - exists n, d'. fold s0. rewrite En. unfold given. cbn [s_log s_flows s_ticks]. rewrite <- Eb. split.
    { unfold RunTask. rewrite (proj2 (Z.ltb_ge 0 _)) by done. rewrite Er. unfold GetNextBatch. rewrite Er, bind_some, (o_cur _ _ _ _ R).
      fold b0. rewrite E, bind_some. do 4 f_equal. unfold wrap.
      by rewrite Zplus_mod_idemp_l, Zmult_mod_idemp_l. }
    split; [by exists ps'|done].
Qed.

End Module.

(** ** Arrivals *)

(** The packet joins the queue of its flow, unless [max] packets wait there. *)
Definition aenqueue (max : Z) (now : spec_float) (pkt : Z) (a : aflow) : aflow * list Z :=
  if max <=? Z.of_nat (length (a_queue a)) then (a, [pkt])
  else (AFlow (a_id a) (a_deficit a) now (a_next a) (a_queue a ++ [pkt]), []).

(** A packet of flow [id]: the flow is the first so named, or a new one, if
    there are fewer than [cap].  What is returned besides are the packets freed. *)
Fixpoint join (max cap : Z) (now : spec_float) (id : FlowId) (pkt : Z) (fs : list aflow) : list aflow * list Z :=
  match fs with
  | [] => if cap <=? 0 then ([], [pkt]) else ([AFlow id 0 now None [pkt]], [])
  | a :: fs =>
      if decide (a_id a = id) then let '(a, freed) := aenqueue max now pkt a in (a :: fs, freed)
      else let '(fs, freed) := join max (cap - 1) now id pkt fs in (a :: fs, freed)
  end.

Lemma join_old max cap now id pkt l a r :
  (forall x, x ∈ l -> a_id x <> id) -> a_id a = id ->
  join max cap now id pkt (l ++ a :: r) = (l ++ (aenqueue max now pkt a).1 :: r, (aenqueue max now pkt a).2).
Proof.
  intros Hl Ha. revert cap. induction l as [|x l IH]; intros cap; cbn [app join].
  - rewrite decide_True by done. by destruct (aenqueue max now pkt a).
  - rewrite decide_False by (apply Hl; by constructor). rewrite IH; [done|]. intros y Hy. apply Hl. by constructor.
Qed.

Lemma join_new max now id pkt fs : forall cap,
  (forall x, x ∈ fs -> a_id x <> id) ->
  join max cap now id pkt fs =
    if cap <=? Z.of_nat (length fs) then (fs, [pkt]) else (fs ++ [AFlow id 0 now None [pkt]], []).
Proof.
  induction fs as [|x fs IH]; intros cap Hx; cbn [join length app]; [change (Z.of_nat 0) with 0; by destruct (cap <=? 0)|].
  rewrite decide_False by (apply Hx; by constructor). rewrite IH by (intros y Hy; apply Hx; by constructor).
  cbn [length]. destruct (Z.leb_spec (cap - 1) (Z.of_nat (length fs))), (Z.leb_spec cap (Z.of_nat (S (length fs)))); lia || done.
Qed.

(** A batch: the packets with their flows, one after the other. *)
Fixpoint joins (clock : nat -> spec_float) (max cap : Z) (l : list (FlowId * Z)) (t : nat) (fs : list aflow) :
    nat * list aflow * list Z :=
  match l with
  | [] => (t, fs, [])
  | (id, pkt) :: l =>
      let '(fs, freed) := join max cap (clock t) id pkt fs in
      let '(t, fs, freed') := joins clock max cap l (if is_nil freed then S t else t) fs in
      (t, fs, freed ++ freed')
  end.

Section Arrivals.
Context {T : Type} `{FlowTableLaws T} (alloc : Z -> bool) (head : Z -> list Z) (clock : nat -> spec_float).
Context (Halloc : forall b, 0 < b -> alloc b = true).
Implicit Types (d : DRR T) (ps : list (Z * aflow)) (a : aflow) (f : Flow).

Lemma add_queue_ok j err :
  2 <= j <= 27 -> exists q, AddQueue alloc (2 ^ j) err = (Some q, err) /\ sring q j [].
Proof.
  intros Hj. pose proof (pow2_mono j 27 ltac:(lia)). pose proof (pow2_pos j ltac:(lia)).
  unfold AddQueue. rewrite Halloc.
  - destruct (sring_init 0 j ltac:(lia)) as (q & -> & Hq). by exists q.
  - unfold llring_bytes_with_slots, sizeof_llring, to_signed.
    rewrite (wrap_small 64 (_ + _)) by lia. rewrite wrap_small by lia. rewrite (proj2 (Z.ltb_lt _ (2 ^ (32 - 1)))) by lia. lia.
Qed.

Lemma resize_loop j j' Q : forall old new M fuel,
  sring old j Q -> sring new j' M -> Z.of_nat (length (M ++ Q)) <= 2 ^ j' - 1 -> (length Q < fuel)%nat ->
  exists new', iter_nat fuel resize_step (old, new, [], 0) = inr (Some (Some new', 0, [])) /\ sring new' j' (M ++ Q).
Proof.
  induction Q as [|p Q IH]; intros old new M fuel Ho Hn Hl Hf; (destruct fuel as [|fuel]; [simpl in Hf; lia|]);
    cbn [iter_nat]; unfold resize_step at 1.
  - destruct (sring_get_nil old j Ho) as (r' & ->). exists new. by rewrite app_nil_r.
  - destruct (sring_get old j p Q Ho) as (old' & -> & Ho'). rewrite length_app in Hl. simpl in Hl, Hf.
    destruct (sring_put new j' M p Hn ltac:(lia)) as (new' & -> & Hn'). cbn [Z.eqb Z.opp LLRING_ERR_NOBUF negb].
    destruct (IH old' new' (M ++ [p]) fuel Ho' Hn') as (n2 & E & H2); [rewrite !length_app; simpl; lia|lia|].
    exists n2. rewrite <- app_assoc in H2. done.
Qed.

Lemma resize_queue_ok old j new j' Q :
  sring old j Q -> sring new j' [] -> Z.of_nat (length Q) <= 2 ^ j' - 1 ->
  exists new', iter_until fuel64 resize_step (old, new, [], 0) = inr (Some (Some new', 0, [])) /\ sring new' j' Q.
Proof.
  intros Ho Hn Hl. rewrite iter_until_nat. apply (resize_loop j j' Q old new []); [done|done|done|].
  destruct (sring_counts old j Q Ho) as (_ & _ & _ & Hj & Hlo). pose proof (pow2_mono j 31 ltac:(lia)). unfold fuel64. lia.
Qed.

Lemma make_room_ok f a q j max :
  f = MkFlow (a_deficit a) (a_timer a) (a_id a) (Some q) (a_next a) -> sring q j (a_queue a) -> 2 <= j ->
  Z.of_nat (length (a_queue a)) < max -> max < 2 ^ 27 ->
  exists q' j', make_room alloc f q 0 = Some (set_fqueue (Some q') f, 0, []) /\ sring q' j' (a_queue a) /\ 2 <= j' /\
    Z.of_nat (length (a_queue a)) < 2 ^ j' - 1.
Proof.
  intros -> Hq Hj Hmax Hm. unfold make_room. destruct (sring_counts q j _ Hq) as (Ec & -> & _ & Hj' & Hl).
  destruct (Z.eqb_spec (Z.of_nat (length (a_queue a))) (2 ^ j - 1)) as [E|E].
  - assert (Hj2 : j <= 26).
    { destruct (decide (j <= 26)); [done|]. pose proof (pow2_mono 27 j ltac:(lia)). lia. }
    rewrite Ec, E, round_double by lia. unfold ResizeQueue.
    destruct (add_queue_ok (j + 1) 0 ltac:(lia)) as (new & -> & Hn). cbn [Z.eqb negb].
    pose proof (pow2_mono j (j + 1) ltac:(lia)).
    destruct (resize_queue_ok q j new (j + 1) _ Hq Hn) as (q' & -> & Hq'); [lia|]. rewrite bind_some.
    exists q', (j + 1). split; [done|]. split; [done|]. split; [lia|]. rewrite Z.pow_add_r by lia. pose proof (pow2_pos j ltac:(lia)). lia.
  - exists q, j. split_and!; done || lia.
Qed.

Lemma enqueue_flow_ok d p a ps ring k pkt :
  reps d ((p, a) :: ps) ring k -> max_queue_size_ d < 2 ^ 27 ->
  let '(a', freed) := aenqueue (max_queue_size_ d) (clock (ticks d)) pkt a in
  exists d', Enqueue alloc clock p pkt 0 d = Some (d', 0, freed) /\ reps d' ((p, a') :: ps) ring k /\ same_limits d d' /\
    ticks d' = (ticks d + if (max_queue_size_ d <=? Z.of_nat (length (a_queue a)))%Z then 0 else 1)%nat.
Proof.
  intros R Hm. destruct (o_flows _ _ _ _ R p a) as (f & Ef & q & j & Eq & Hq & Hj); [by constructor|].
  destruct (o_range _ _ _ _ R p a) as [_ Hd]; [by constructor|].
  unfold Enqueue, aenqueue. rewrite Ef, bind_some. subst f. cbn [fqueue]. rewrite bind_some.
  destruct (sring_counts q j _ Hq) as (-> & _ & _ & _ & Hl).
  destruct (Z.leb_spec (max_queue_size_ d) (Z.of_nat (length (a_queue a)))) as [Hle|Hlt].
  - exists d. by rewrite Nat.add_0_r.
  - destruct (make_room_ok _ a q j _ eq_refl Hq Hj Hlt Hm) as (q' & j' & -> & Hq' & Hj' & Hl'). rewrite bind_some.
    cbn [Z.eqb negb set_fqueue fqueue deficit timer fid next_packet]. rewrite bind_some.
    destruct (sring_put q' j' _ pkt Hq' Hl') as (q2 & -> & Hq2). rewrite bind_some. cbn [Z.eqb].
    eexists. split; [reflexivity|]. split; [|split; [done|cbn; lia]].
    apply (reps_flow (tick d) p a); [by apply reps_tick| |done|done]. by exists q2, j'.
Qed.

(** *** A flow comes *)

Lemma table_lookup ps id p :
  NoDup ((fun x => a_id x.2) <$> ps) -> table ps !! id = Some p <-> exists a, (p, a) ∈ ps /\ a_id a = id.
Proof.
  intros Hn. unfold table. rewrite <- elem_of_list_to_map by (by apply table_nodup). rewrite list_elem_of_fmap. split.
  - intros ([p' a] & [= -> ->] & Hx). by exists a.
  - intros (a & Hx & <-). by exists (p, a).
Qed.

Lemma add_new_flow_ok d ps k pkt id :
  reps d ps (fst <$> ps) k -> 0 < max_queue_size_ d < 2 ^ 27 -> Z.of_nat (length ps) < 2 ^ k - 1 ->
  table ps !! id = None -> t_room (flows_ d) id ->
  exists d', AddNewFlow alloc clock pkt id 0 d = Some (d', 0, []) /\
    drr_ok d' ((snd <$> ps) ++ [AFlow id 0 (clock (ticks d)) None [pkt]]) k /\ same_limits d d' /\ ticks d' = S (ticks d).
Proof.
  intros R Hm Hl Hid Hroom. unfold AddNewFlow. destruct (add_queue_ok 11 0 ltac:(lia)) as (q & E & Hq).
  change (2 ^ 11) with kFlowQueueSize in E. rewrite E. cbn [Z.eqb negb]. cbn [new_flow flows_].
  destruct (t_insert_ok (flows_ d) _ id (fresh d) (o_tab _ _ _ _ R) Hroom) as (t' & -> & Ht). rewrite bind_some.
  set (a0 := AFlow id 0 (S754_zero false) None []).
  set (d1 := set_flows t' _).
  assert (R1 : reps d1 ((fresh d, a0) :: ps) (fst <$> ps) k).
  { destruct R as [H1 H2 H3 H4 H5 H6 H7]. assert (Hp : forall a, (fresh d, a) ∉ ps) by (intros a Hx; apply H6 in Hx; lia).
    split; try done.
    - cbn. apply NoDup_cons. split; [|done]. intros ([p a] & E1 & Hx)%list_elem_of_fmap. cbn in E1. subst p. by apply (Hp a).
    - cbn. apply NoDup_cons. split; [|done]. intros ([p a] & -> & Hx)%list_elem_of_fmap. cbn in Hid.
      assert (table ps !! a_id a = Some p) by (apply table_lookup; [done|]; by exists a). congruence.
    - intros p a [[= -> ->]|Hx]%elem_of_cons; cbn; [rewrite lookup_insert_eq|].
      + eexists. split; [reflexivity|]. by exists q, 11.
      + rewrite lookup_insert_ne; [by apply H5|]. intros <-. by apply (Hp a).
    - intros p a [[= -> ->]|Hx]%elem_of_cons; cbn; [split; [lia|by vm_compute]|]. destruct (H6 p a Hx). split; [lia|done]. }
  pose proof (enqueue_flow_ok d1 (fresh d) a0 ps _ k pkt R1 ltac:(cbn; lia)) as En. unfold aenqueue in En. cbn [a_queue a0 length] in En.
  rewrite (proj2 (Z.leb_gt (max_queue_size_ d1) (Z.of_nat 0))) in En by (cbn; lia).
  destruct En as (d2 & -> & R2 & L2 & T2). rewrite bind_some. cbn [Z.eqb negb].
  destruct (o_ring _ _ _ _ R2) as (r & -> & Hr). rewrite bind_some.
  destruct (sring_put r k _ (fresh d) Hr) as (r' & -> & Hr'); [by rewrite length_fmap|]. rewrite bind_some.
  eexists. split; [reflexivity|]. split; [|split; [done|cbn; rewrite T2; cbn; lia]].
  exists (ps ++ [(fresh d, AFlow id 0 (clock (ticks d)) None [pkt])]). split; [by rewrite fmap_app|].
  apply (reps_perm _ ((fresh d, AFlow id 0 (clock (ticks d)) None [pkt]) :: ps)); [by rewrite Permutation_app_comm|].
  rewrite fmap_app. by apply (reps_ring _ _ (fst <$> ps) _ k r').
Qed.

(** The table has a place for every flow that is new. *)
Fixpoint placed (pkts : list Z) d : Prop :=
  match pkts with
  | [] => True
  | pkt :: pkts =>
      (forall id r, GetId head pkt = Some id -> t_find (flows_ d) id = Some None -> flow_ring_ d = Some r ->
         llring_full r = false -> t_room (flows_ d) id) /\
      (forall d' e freed, process_one alloc head clock pkt 0 d = Some (d', e, freed) -> placed pkts d')
  end.

Lemma process_one_ok d fs k pkt id :
  drr_ok d fs k -> 0 < max_queue_size_ d < 2 ^ 27 -> GetId head pkt = Some id -> placed [pkt] d ->
  let '(fs', freed) := join (max_queue_size_ d) (2 ^ k - 1) (clock (ticks d)) id pkt fs in
  exists d', process_one alloc head clock pkt 0 d = Some (d', 0, freed) /\ drr_ok d' fs' k /\ same_limits d d' /\
    ticks d' = if is_nil freed then S (ticks d) else ticks d.
Proof.
  intros (ps & -> & R) Hm Hid [Hroom _]. unfold process_one. rewrite Hid, bind_some.
  specialize (Hroom id). rewrite (t_find_ok _ _ id (o_tab _ _ _ _ R)) in *. rewrite bind_some.
  destruct (table ps !! id) as [p|] eqn:Et.
  - apply table_lookup in Et as (a & Hx & Ea); [|apply R]. apply list_elem_of_split in Hx as (l & r & ->).
    assert (R1 : reps d ((p, a) :: l ++ r) (fst <$> (l ++ (p, a) :: r)) k).
    { apply (reps_perm _ (l ++ (p, a) :: r)); [|done]. by rewrite Permutation_middle. }
    pose proof (enqueue_flow_ok d p a (l ++ r) _ k pkt R1 ltac:(lia)) as En.
    rewrite fmap_app, fmap_cons, join_old; [|intros x ([p' x'] & -> & Hx)%list_elem_of_fmap E|done].
    2:{ pose proof (o_ids _ _ _ _ R1) as Hn. cbn in Hn. apply NoDup_cons in Hn as [Hn _]. apply Hn, list_elem_of_fmap.
        exists (p', x'). split; [cbn in *; congruence|]. apply elem_of_app. by left. }
    destruct (aenqueue (max_queue_size_ d) (clock (ticks d)) pkt a) as [a' freed] eqn:Ee. destruct En as (d' & -> & R' & L & Ht).
    cbn [snd]. rewrite Ee. cbn [fst snd]. exists d'. split; [done|]. split; [|split; [done|]].
    + exists (l ++ (p, a') :: r). split; [by rewrite fmap_app|]. apply (reps_perm _ ((p, a') :: l ++ r)); [by rewrite Permutation_middle|].
      by rewrite fmap_app, fmap_cons in *.
    + rewrite Ht. unfold aenqueue in Ee. destruct (_ <=? _); injection Ee as <- <-; cbn; lia.
  - destruct (o_ring _ _ _ _ R) as (r & Er & Hr). rewrite Er in *. rewrite bind_some.
    destruct (sring_counts _ _ _ Hr) as (_ & Ef & _ & _ & Hl). rewrite length_fmap in *.
    rewrite join_new.
    2:{ intros x ([p x'] & -> & Hx)%list_elem_of_fmap E. assert (table ps !! id = Some p); [|congruence].
        apply table_lookup; [apply R|]. by exists x'. }
    rewrite length_fmap, Ef in *. destruct (Z.eqb_spec (Z.of_nat (length ps)) (2 ^ k - 1)) as [E|E].
    + rewrite (proj2 (Z.leb_le _ _)) by lia. exists d. split; [done|]. split; [by exists ps|done].
    + rewrite (proj2 (Z.leb_gt _ _)) by lia. apply add_new_flow_ok; [done|done|lia|done|]. by apply (Hroom r).
Qed.

Lemma process_batch_ok pkts : forall ids d fs k,
  drr_ok d fs k -> 0 < max_queue_size_ d < 2 ^ 27 -> Forall2 (fun pkt id => GetId head pkt = Some id) pkts ids -> placed pkts d ->
  let '(t, fs', freed) := joins clock (max_queue_size_ d) (2 ^ k - 1) (zip ids pkts) (ticks d) fs in
  exists d', process_batch alloc head clock pkts 0 d = Some (d', 0, freed) /\ drr_ok d' fs' k /\ same_limits d d' /\ ticks d' = t.
Proof.
  induction pkts as [|pkt pkts IH]; intros ids d fs k Ok Hm Hids Hp; inversion Hids as [|? id ? ids' Hid Hids']; subst; cbn [zip zip_with joins process_batch].
  - by exists d.
  - destruct Hp as [Hp1 Hp2]. pose proof (process_one_ok d fs k pkt id Ok Hm Hid ltac:(done)) as H1.
    destruct (join _ _ _ id pkt fs) as [fs1 freed1]. destruct H1 as (d1 & E1 & Ok1 & L1 & T1). rewrite E1, bind_some.
    specialize (IH ids' d1 fs1 k Ok1). rewrite (proj1 (proj2 L1)), T1 in IH. specialize (IH Hm Hids' (Hp2 _ _ _ E1)).
    destruct (joins _ _ _ _ _ fs1) as [[t fs2] freed2]. destruct IH as (d2 & -> & Ok2 & L2 & T2). rewrite bind_some.
    exists d2. split; [done|]. split; [done|]. split; [|done]. destruct L1 as (? & ? & ?), L2 as (? & ? & ?). split_and!; congruence.
Qed.

End Arrivals.

(** ** The table of flows keeps its promises *)

#[global] Instance cuckoo_flows_ok (std_hash : Z -> Z) (n : nat) : @FlowTableLaws FlowMap (cuckoo_flows std_hash (S n)).
Proof.
  refine (@Build_FlowTableLaws FlowMap (cuckoo_flows std_hash (S n))
    (fun t M => cuckoo_ok (flow_hash std_hash) t M)
    (fun t k => Z.of_nat (length (entries t)) < 2 ^ 31 /\ crowded (flow_hash std_hash) t k = false) _ _ _).
  - intros t M k Hr. unfold t_find, cuckoo_flows, Find. destruct (find_hash_ok _ t M k Hr) as (idx & -> & Hi).
    rewrite bind_some. destruct (M !! k) as [v|].
    + destruct Hi as (Hn & E & _). rewrite (proj2 (Z.eqb_neq _ _) Hn), E. done.
    + subst idx. rewrite Z.eqb_refl. done.
  - intros t M k v Hr [Hl Hc]. unfold t_insert, cuckoo_flows, Insert.
    destruct (DoEmplace_returns (flow_hash std_hash) no_entry (fun v => v) n t M k v Hr Hl (or_introl Hc)) as (e & t' & E & He).
    destruct (DoEmplace_ok (flow_hash std_hash) no_entry (fun v => v) ltac:(done) (S n) t M k v e t' Hr Hl E) as (_ & [(_ & Hr' & _)|(-> & _)]); [|done].
    rewrite E, bind_some. by exists t'.
  - intros t M k Hr. unfold t_remove, cuckoo_flows. destruct (remove_ok _ no_entry t M k Hr) as (r & t' & -> & _ & Hr').
    rewrite bind_some. by exists t'.
Defined.

(** ** Initialisation *)

Section Init.
Context {T : Type} `{FlowTableLaws T} (alloc : Z -> bool).
Context (Halloc : forall b, 0 < b -> alloc b = true).

(** A new module has a ring for as many flows as were asked for. *)
Lemma init_ok (t : T) arg :
  t_rep t ∅ -> 4 <= a_num_flows arg + 1 <= 2 ^ 27 -> 0 < a_max_flow_queue_size arg -> 0 < a_quantum arg ->
  exists d, Init alloc true arg (new_DRR t) = (CommandSuccess, d) /\ drr_ok d [] (Z.log2_up (a_num_flows arg + 1)) /\
    quantum_ d = a_quantum arg /\ max_queue_size_ d = a_max_flow_queue_size arg /\ overload d = 0 /\ ticks d = O /\ flows_ d = t.
Proof.
  intros Ht Hn Hm Hq. set (k := Z.log2_up (a_num_flows arg + 1)).
  assert (Hk : 2 <= k <= 27).
  { pose proof (Z.log2_up_le_mono 4 _ (proj1 Hn)) as H4. pose proof (Z.log2_up_le_mono _ _ (proj2 Hn)) as H27.
    rewrite Z.log2_up_pow2 in H27 by lia. change (Z.log2_up 4) with 2 in H4. done. }
  assert (En : (a_num_flows arg =? 0) = false) by lia. assert (Em : (a_max_flow_queue_size arg =? 0) = false) by lia.
  assert (Eq : (a_quantum arg =? 0) = false) by lia.
  unfold Init, SetMaxFlowQueueSize, SetQuantumSize. rewrite En, Em, Eq. cbn [negb succeeded set_limits max_number_flows_].
  rewrite (wrap_small 32 (_ + 1)), round_pow2 by lia. fold k.
  destruct (add_queue_ok alloc Halloc k 0 Hk) as (r & -> & Hr). cbn [Z.eqb negb].
  eexists. split; [reflexivity|]. split; [|done]. exists []. split; [done|].
  split; [by exists r|done|constructor|constructor| | |done]; by intros p a ?%elem_of_nil.
Qed.

End Init.

(** ** Theorems *)

(** A run of the task ends and never faults: it serves the flows in the order of
    the ring, each with its credit and a quantum, until the batch is full or,
    after a whole pass without a packet, every flow is empty or cannot pay for
    its first packet; it frees nothing and reports the bits of what it gave. *)
Theorem drr_batch {T} `{FlowTableLaws T} (len : Z -> Z) (clock : nat -> spec_float) (d : DRR T) fs k :
  (forall p, 0 <= len p < 2 ^ 31) -> drr_ok d fs k -> overload d <= 0 ->
  exists n d', let s := Nat.iter n (aturn len clock (quantum_ d)) (AState (ticks d) fs [] drr_max_burst false) in
    let cnt := Z.of_nat (length (given s)) in
    RunTask len clock d =
      Some (d', Task (cnt =? 0) cnt (u32 ((bytes_of len (given s) + cnt * kPacketOverhead) * 8)),
        if 0 <? u32 (bytes_of len (given s)) then Some (given s) else None, []) /\
    drr_ok d' (s_flows s) k /\ same_limits d d' /\ ticks d' = s_ticks s /\ (length (given s) <= 32)%nat /\
    (length (given s) = 32%nat \/ Forall (stuck len) (s_flows s)).
Proof. intros Hlen Ok Ho. by apply run_task_ok. Qed.

(** A batch of arrivals: every packet joins the queue of its flow, which grows
    as needed, or starts a new flow at the end of the ring; it is freed when
    [max_queue_size_] packets of the flow wait or the ring of flows is full; no
    error is met as long as memory and the table last. *)
Theorem drr_arrivals {T} `{FlowTableLaws T} (alloc : Z -> bool) (head : Z -> list Z) (clock : nat -> spec_float)
    (d : DRR T) fs k pkts ids :
  (forall b, 0 < b -> alloc b = true) -> drr_ok d fs k -> 0 < max_queue_size_ d < 2 ^ 27 ->
  Forall2 (fun pkt id => GetId head pkt = Some id) pkts ids -> placed alloc head clock pkts d ->
  let '(t, fs', freed) := joins clock (max_queue_size_ d) (2 ^ k - 1) (zip ids pkts) (ticks d) fs in
  exists d', ProcessBatch alloc head clock pkts d = Some (d', 0, freed) /\ drr_ok d' fs' k /\ same_limits d d' /\ ticks d' = t.
Proof. intros Ha Ok Hm Hids Hp. by apply process_batch_ok. Qed.

(** Runs of the task, one after the other, and the batches sent on. *)
Fixpoint runs {T} `{FlowTable T} (len : Z -> Z) (clock : nat -> spec_float) (m : nat) (d : DRR T) :
    option (DRR T * list (list Z)) :=
  match m with
  | O => Some (d, [])
  | S m =>
      '(d, _, batch, _) ← RunTask len clock d;
      '(d, batches) ← runs len clock m d;
      Some (d, default [] batch :: batches)
  end.

Section Runs.
Context {T : Type} `{FlowTableLaws T} (len : Z -> Z) (clock : nat -> spec_float) (L : Z).
Context (Hlen : forall p, 0 < len p <= L) (HL : L < 2 ^ 26).

Lemma bytes_bound l : Z.of_nat (length l) <= bytes_of len l <= Z.of_nat (length l) * L.
Proof. induction l as [|p l IH]; simpl bytes_of; [simpl; lia|]. pose proof (Hlen p). cbn [length]. lia. Qed.

(** What [RunTask] sends is what was given. *)
Lemma sent_on l : (length l <= 32)%nat -> default [] (if 0 <? u32 (bytes_of len l) then Some l else None) = l.
Proof.
  intros Hl. pose proof (bytes_bound l). rewrite wrap_small by nia.
  destruct (Z.ltb_spec 0 (bytes_of len l)); [done|]. destruct l; [done|]. simpl length in *. lia.
Qed.

Lemma runs_ok m : forall (d : DRR T) fs k,
  drr_ok d fs k -> overload d <= 0 ->
  exists d' batches s, runs len clock m d = Some (d', batches) /\ drr_ok d' (s_flows s) k /\
    rtc (astep len clock (quantum_ d)) (AState (ticks d) fs [] drr_max_burst false) s /\ concat batches = given s /\
    (Forall (fun b => (length b < 32)%nat) batches -> s_cut s = false).
Proof.
  induction m as [|m IH]; intros d fs k Ok Ho; cbn [runs].
  { exists d, [], (AState (ticks d) fs [] drr_max_burst false). split_and!; done. }
  assert (Hlen' : forall p, 0 <= len p < 2 ^ 31) by (intros p; pose proof (Hlen p); lia).
  destruct (run_task_ok len clock Hlen' d fs k Ok Ho)
    as (n & d1 & Er & Ok1 & (Lq & Lm & Lo) & Ht & Hn & _).
  set (s1 := Nat.iter n _ _) in *. rewrite Er, bind_some. rewrite sent_on by done.
  destruct (IH d1 (s_flows s1) k Ok1 ltac:(lia)) as (d2 & bs & s2 & E2 & Ok2 & R2 & Hg & Hc). rewrite E2, bind_some.
  exists d2, (given s1 :: bs), (prepend (s_log s1) (s_cut s1) s2). split; [done|]. split; [done|].
  rewrite Lq, Ht in R2. split; [|split].
  - etrans; [apply (turns_steps len clock (quantum_ d) n)|]. fold s1.
    apply (rtc_l _ _ (new_batch s1)); [by right|].
    replace (new_batch s1) with (prepend (s_log s1) (s_cut s1) (AState (s_ticks s1) (s_flows s1) [] drr_max_burst false)).
    2:{ unfold prepend, new_batch. cbn. by rewrite app_nil_r, orb_false_r. }
    clear -R2. induction R2 as [|x y z [-> | ->] _ IH]; [done| |].
    + eapply rtc_l; [left; done|]. by rewrite aturn_prepend.
    + eapply rtc_l; [right; done|]. done.
  - by rewrite given_prepend, <- Hg.
  - intros [Hs Hb]%Forall_cons. cbn. rewrite (Hc Hb), orb_false_r. apply (turns_uncut len clock (quantum_ d) n); [done|].
    fold s1. pose proof (turns_room len clock (quantum_ d) n (AState (ticks d) fs [] drr_max_burst false)) as Hroom.
    fold s1 in Hroom. cbn in Hroom. unfold drr_max_burst in *. lia.
Qed.

End Runs.

(** C30. Over any number of runs, what is sent of each flow is a prefix of what it
    had queued, in order; and when no batch was filled, any two flows that still
    have packets were given the same number of bytes, up to a quantum and two
    packets of the largest length. *)
Theorem drr_fair {T} `{FlowTableLaws T} (len : Z -> Z) (clock : nat -> spec_float) (L : Z) (d : DRR T) fs k m :
  (forall p, 0 < len p <= L) -> L < 2 ^ 26 -> 0 < quantum_ d -> L + quantum_ d < 2 ^ 31 ->
  drr_ok d fs k -> overload d <= 0 -> (forall a, a ∈ fs -> 0 <= a_deficit a <= L) ->
  exists d' batches s, runs len clock m d = Some (d', batches) /\ drr_ok d' (s_flows s) k /\ concat batches = given s /\
    (forall a, a ∈ fs -> exists rest, backlog a = sent (a_id a) s ++ rest) /\
    (Forall (fun b => (length b < 32)%nat) batches ->
     forall a b a' b', a ∈ fs -> b ∈ fs -> a' ∈ s_flows s -> b' ∈ s_flows s -> a_id a' = a_id a -> a_id b' = a_id b ->
       backlog a' <> [] -> backlog b' <> [] ->
       Z.abs (bytes_of len (sent (a_id a) s) - bytes_of len (sent (a_id b) s)) <= quantum_ d + 2 * L).
Proof.
  intros Hlen HL Hq Hmax Ok Ho Hd.
  assert (Hn : NoDup (a_id <$> fs)).
  { destruct Ok as (ps & -> & R). rewrite <- list_fmap_compose. exact (o_ids _ _ _ _ R). }
  destruct (runs_ok len clock L Hlen HL m d fs k Ok Ho) as (d' & bs & s & E & Ok' & R & Hg & Hc).
  assert (Hlen' : forall p, 0 <= len p <= L) by (intros p; pose proof (Hlen p); lia).
  exists d', bs, s. split; [done|]. split; [done|]. split; [done|]. split.
  - pose proof (fair_steps len clock _ L Hlen' Hq Hmax fs _ s Hn R (fair_start len _ L _ fs _ Hn Hd)) as Hi.
    intros a Ha. destruct (fi_gone _ _ _ _ _ Hi a Ha) as [(a' & Ha' & Ei)|Eb]; [|exists []; by rewrite app_nil_r].
    destruct (fi_old _ _ _ _ _ Hi a' Ha') as (a0 & Ha0 & E0 & Eb & _). exists (backlog a').
    assert (a0 = a) as -> by (apply (nodup_inj a_id fs); [done|done|done|congruence]). done.
  - intros Hb a b a' b' Ha Hb0 Ha' Hb' Ea Eb Na Nb.
    pose proof (sent_near len clock _ L Hlen' Hq Hmax fs _ _ s a b a' b' Hn Hd R (Hc Hb) Ha Hb0 Ha' Hb' Ea Eb Na Nb).
    pose proof (sent_near len clock _ L Hlen' Hq Hmax fs _ _ s b a b' a' Hn Hd R (Hc Hb) Hb0 Ha Hb' Ha' Eb Ea Nb Na). lia.
Qed.

(** ** Where the code departs from deficit round robin *)

(** A flow cut short by a full batch goes to the back of the ring with the credit
    it had left, and gets another quantum at its next turn: with a quantum larger
    than a batch its credit grows at every turn, [current_flow_], meant to keep
    such a flow at the front, being set nowhere. *)
Lemma drr_hoards (len : Z -> Z) (clock : nat -> spec_float) (quantum l : Z) t a log cut :
  (forall p, len p = l) -> 0 <= l -> 32 * l <= a_deficit a + quantum < 2 ^ 31 -> 0 <= a_deficit a + quantum ->
  a_next a = None -> (32 < length (a_queue a))%nat ->
  let s := aturn len clock quantum (AState t [a] log drr_max_burst cut) in
  s_room s = O /\ s_cut s = true /\
  s_flows s = [AFlow (a_id a) (a_deficit a + quantum - 32 * l) (a_timer a) None (drop 32 (a_queue a))].
Proof.
  intros Hl Hl0 Hc Hc0 Hn Hq s.
  assert (Hs : forall room c pkts, 0 <= c -> Z.of_nat room * l <= c -> (room < length pkts)%nat ->
    serve len room c pkts = (take room pkts, c - Z.of_nat room * l, drop room pkts)).
  { induction room as [|room IH]; intros c [|p pkts] H0 H1 H2; simpl in H2; try lia; cbn [serve take drop].
    - do 2 f_equal. lia.
    - rewrite Hl, (proj2 (Z.ltb_ge c l)) by lia. rewrite IH by lia. do 2 f_equal. lia. }
  unfold s, aturn. cbn [s_flows s_ticks s_log s_room s_cut]. unfold backlog. rewrite Hn.
  destruct (a_queue a) as [|p q] eqn:Eq; [simpl in Hq; lia|]. cbn [is_nil]. rewrite <- Eq in *.
  unfold credit, to_signed. rewrite wrap_wrap, (wrap_small 32 (_ + _)) by lia.
  rewrite (proj2 (Z.ltb_lt _ (2 ^ (32 - 1)))) by lia. unfold drr_max_burst. rewrite Hs by lia. cbn [s_room s_cut s_flows app].
  pose proof (length_take_le (a_queue a) 32 ltac:(lia)) as Ht. rewrite Ht. split; [done|]. unfold keep. rewrite Ht.
  destruct (drop 32 (a_queue a)) as [|p' q'] eqn:Ed.
  { apply (f_equal length) in Ed. rewrite length_drop in Ed. simpl in Ed. lia. }
  split; [by rewrite orb_true_r|]. done.
Qed.

(** When memory runs out as a queue is to grow, the queue is lost: the next packet
    of the flow goes through a NULL pointer. *)
Lemma drr_loses_queue {T} `{FlowTable T} (alloc : Z -> bool) (clock : nat -> spec_float) (d : DRR T) p f q pkt pkt' :
  (forall b, alloc b = false) -> heap d !! p = Some f -> fqueue f = Some q -> llring_full q = true ->
  llring_count q < max_queue_size_ d ->
  exists d', Enqueue alloc clock p pkt 0 d = Some (d', - ENOMEM, [pkt]) /\ Enqueue alloc clock p pkt' 0 d' = None.
Proof.
  intros Ha Ef Eq Hfull Hc. unfold Enqueue at 1. rewrite Ef, bind_some, Eq, bind_some, (proj2 (Z.leb_gt _ _)) by done.
  unfold make_room, ResizeQueue, AddQueue. rewrite Hfull, Ha. cbn [negb]. eexists. split; [reflexivity|].
  unfold Enqueue. cbn. by rewrite lookup_insert_eq.
Qed.

(** The largest number of flows is rounded up to a ring of no cells. *)
Lemma drr_no_cells {T} (t : T) quantum :
  0 < quantum ->
  exists d r, Init (fun _ => true) true (MkDRRArg (2 ^ 32 - 1) 0 quantum) (new_DRR t) = (CommandSuccess, d) /\
    flow_ring_ d = Some r /\ llring_enqueue r 5 = None.
Proof.
  intros Hq. unfold Init, SetQuantumSize. cbn [a_num_flows a_max_flow_queue_size a_quantum].
  rewrite (proj2 (Z.eqb_neq quantum 0)) by lia. cbn [negb]. eexists _, _. split; [reflexivity|]. split; [reflexivity|].
  vm_compute. reflexivity.
Qed.

(** ** Witnesses *)

(** A table with room for every flow. *)
Definition plain_flows : FlowTable (gmap FlowId Z) := {|
  t_find m k := Some (m !! k); t_insert m k v := Some (<[k := v]> m); t_remove m k := Some (delete k m)
|}.
Definition plain_flows_ok : @FlowTableLaws (gmap FlowId Z) plain_flows.
Proof.
  refine (@Build_FlowTableLaws _ plain_flows (fun t M => t = M) (fun _ _ => True) _ _ _).
  - by intros t M k ->.
  - intros t M k v -> _. by eexists.
  - intros t M k ->. by eexists.
Defined.

(** Packet 1000 f + n is one of flow f. *)
Definition demo_head (p : Z) : list Z :=
  replicate 14 0 ++ [69; 0; 0; 0; 0; 0; 0; 0; 64; 17; 0; 0; 10; 0; 0; p / 1000; 10; 0; 0; 9; 0; 1; 0; 2].
Definition demo_id (f : Z) : FlowId := MkFlowId (2 ^ 24 * 10 + f) (2 ^ 24 * 10 + 9) 1 2 17.
Definition demo_arg : DRRArg := MkDRRArg 3 100 500.
Definition demo_clock (n : nat) : spec_float := of_u64 (Z.of_nat n).
Definition demo_queued : list aflow :=
  [AFlow (demo_id 1) 0 (demo_clock 1) None [1000; 1001]; AFlow (demo_id 2) 0 (demo_clock 2) None [2000]].

Lemma demo_state :
  exists d : DRR (gmap FlowId Z), @drr_ok _ plain_flows plain_flows_ok d demo_queued 2 /\ quantum_ d = 500 /\ overload d = 0.
Proof.
  pose proof plain_flows_ok as Laws.
  destruct (@init_ok _ plain_flows plain_flows_ok (fun _ => true) ltac:(done) ∅ demo_arg) as (d0 & _ & Ok & Eq & Em & Eo & Et & _);
    [done|cbn; lia|cbn; lia|cbn; lia|].
  pose proof (@process_batch_ok _ plain_flows plain_flows_ok (fun _ => true) demo_head demo_clock ltac:(done)
    [1000; 1001; 2000] [demo_id 1; demo_id 1; demo_id 2] d0 [] 2 Ok) as Hp.
  rewrite Em, Et in Hp. specialize (Hp ltac:(cbn; lia) ltac:(repeat constructor)).
  destruct Hp as (d & _ & Ok' & (Lq & _ & Lo) & _).
  - cbn [placed]. repeat (split; [done|intros]). done.
  - exists d. rewrite Lq, Lo. split; [exact Ok'|by rewrite Eq].
Qed.

Lemma drr_batch_witness :
  exists (d : DRR (gmap FlowId Z)) n d', let s := Nat.iter n (aturn (fun _ => 300) demo_clock (quantum_ d)) (AState (ticks d) demo_queued [] drr_max_burst false) in
    RunTask (H := plain_flows) (fun _ => 300) demo_clock d =
      Some (d', Task (Z.of_nat (length (given s)) =? 0) (Z.of_nat (length (given s)))
        (u32 ((bytes_of (fun _ => 300) (given s) + Z.of_nat (length (given s)) * kPacketOverhead) * 8)),
        if 0 <? u32 (bytes_of (fun _ => 300) (given s)) then Some (given s) else None, []).
Proof.
  destruct demo_state as (d & Ok & Eq & Eo).
  destruct (@drr_batch _ plain_flows plain_flows_ok (fun _ => 300) demo_clock d demo_queued 2 ltac:(intros; lia) Ok ltac:(lia)) as (n & d' & E & _).
  exists d, n, d'. exact E.
Defined.

Lemma drr_arrivals_witness :
  exists (d d' : DRR FlowMap),
    ProcessBatch (H := cuckoo_flows id 1) (fun _ => true) demo_head demo_clock [1000] d = Some (d', 0, []) /\
    @drr_ok _ (cuckoo_flows id 1) (cuckoo_flows_ok id 0) d' [AFlow (demo_id 1) 0 (demo_clock 0) None [1000]] 2.
Proof.
  assert (Hnew : cuckoo_ok (flow_hash id) (new_cuckoo no_entry 4 16) ∅) by (apply (new_ok _ _ 4 16 2); [done|lia|lia]).
  destruct (@init_ok _ (cuckoo_flows id 1) (cuckoo_flows_ok id 0) (fun _ => true) ltac:(done) (new_cuckoo no_entry 4 16) demo_arg Hnew)
    as (d0 & _ & Ok & Eq & Em & Eo & Et & Ef); [cbn; lia|cbn; lia|cbn; lia|].
  pose proof (@drr_arrivals _ (cuckoo_flows id 1) (cuckoo_flows_ok id 0) (fun _ => true) demo_head demo_clock d0 [] 2 [1000] [demo_id 1]
    ltac:(done) Ok) as Hp.
  rewrite Em, Et in Hp. specialize (Hp ltac:(cbn; lia) ltac:(repeat constructor)).
  destruct Hp as (d & E & Ok' & _); [|exists d0, d; by split].
  cbn [placed]. split; [|done]. intros i r [= <-] _ _ _. rewrite Ef. split; by vm_compute.
Defined.

Lemma drr_fair_witness :
  exists (d d' : DRR (gmap FlowId Z)) batches s, runs (H := plain_flows) (fun _ => 300) demo_clock 3 d = Some (d', batches) /\
    concat batches = given s /\
    (forall a, a ∈ demo_queued -> exists rest, backlog a = sent (a_id a) s ++ rest).
Proof.
  destruct demo_state as (d & Ok & Eq & Eo).
  destruct (@drr_fair _ plain_flows plain_flows_ok (fun _ => 300) demo_clock 300 d demo_queued 2 3) as (d' & bs & s & E & _ & Hg & Hs & _);
    [intros; lia|lia|lia|lia|exact Ok|lia| |].
  - intros a Ha. unfold demo_queued in Ha. set_unfold in Ha. by destruct Ha as [->|[->|[]]].
  - exists d, d', bs, s. done.
Defined.
