(* ===== verification/L2Forward.v ===== *)
(** * Forwarding by MAC address: [modules/l2_forward.cc]

    A table of [size] buckets of [bucket] slots.  An address belongs to the bucket
    of its hash, or, when an entry has to give way, to the alternate bucket.  A
    slot is a 64-bit word (address, gate, bit that says it is taken) that is
    aligned to 32 bytes: [new] zeroes the 24 bytes of padding, and nothing writes
    them.  [None] is a null pointer, an index out of range, an undefined shift or
    division.  The hash is that of DPDK ([rte_hash_crc_8byte]), an argument. *)

From Stdlib Require Import Ascii.
From stdpp Require Import strings.
From S2P Require Import Prelude.

Definition ENOENT : Z := 2.
Definition ENOMEM : Z := 12.
Definition EEXIST : Z := 17.
Definition EINVAL : Z := 22.

Definition DROP_GATE : Z := 8192.
Definition MAX_TABLE_SIZE : Z := 1048576 * 64.
Definition DEFAULT_TABLE_SIZE : Z := 1024.
Definition MAX_BUCKET_SIZE : Z := 4.

(** ** The table *)

Record l2_entry := Entry { addr : Z; gate : Z; occupied : bool }.

Record l2_table := Table {
  table : option (list l2_entry);
  tsize : Z;
  size_power : Z;
  bucket : Z;
  count : Z
}.

Definition no_entry : l2_entry := Entry 0 0 false.

(** What an assignment to the bit fields keeps. *)
Definition entry_of (a g : Z) : l2_entry := Entry (wrap 48 a) (wrap 15 g) true.

Definition with_slots (l : list l2_entry) (t : l2_table) : l2_table :=
  Table (Some l) (tsize t) (size_power t) (bucket t) (count t).
Definition with_count (c : Z) (t : l2_table) : l2_table :=
  Table (table t) (tsize t) (size_power t) (bucket t) c.

Definition is_power_of_2 (n : Z) : bool := negb (n =? 0) && (Z.land n (u64 (n - 1)) =? 0).

(** The loop that computes the logarithm, for an [int]. *)
Fixpoint log2_loop (n : nat) (size power : Z) : Z :=
  match n with
  | O => power
  | S n => if 1 <? size then log2_loop n (Z.shiftr size 1) (power + 1) else power
  end.

(** [alloc]: the allocation succeeds. *)
Definition l2_init (alloc : bool) (size buckets : Z) (t : l2_table) : l2_table * Z :=
  if (size <=? 0) || (MAX_TABLE_SIZE <? size) || negb (is_power_of_2 size) then (t, - EINVAL)
  else if (buckets <=? 0) || (MAX_BUCKET_SIZE <? buckets) || negb (is_power_of_2 buckets) then (t, - EINVAL)
  else if negb alloc then (Table None (tsize t) (size_power t) (bucket t) (count t), - ENOMEM)
  else (Table (Some (replicate (Z.to_nat (size * buckets)) no_entry)) size (log2_loop 31 size 0) buckets (count t), 0).

Definition l2_deinit (t : l2_table) : l2_table * Z :=
  if bool_decide (table t = None) || (tsize t =? 0) || (bucket t =? 0) then (t, - EINVAL)
  else (Table None 0 0 0 0, 0).

(** ** Places *)

Definition l2_ib_to_offset (t : l2_table) (index j : Z) : Z := u32 (index * bucket t + j).

Definition l2_hash_to_index (hash size : Z) : Z := Z.land hash (u32 (size - 1)).

Definition l2_alt_index (hash power index : Z) : option Z :=
  guard (power < 32);;
  guard (1 <= power);;
  let tag := u32 (Z.shiftr hash power + 1) in
  let tag := u64 (tag * 1540483477) in
  Some (u32 (Z.land (Z.lxor index tag) (u64 (Z.shiftl 1 (power - 1) - 1)))).

(** ** Looking into a bucket of four *)

Definition entry_word (e : l2_entry) : Z :=
  Z.lor (addr e) (Z.lor (Z.shiftl (gate e) 48) (Z.shiftl (b2z (occupied e)) 63)).

(** Four words from a slot on: itself and its padding. *)
Definition words_of (e : l2_entry) : list Z := [entry_word e; 0; 0; 0].

Definition key_mask : Z := 9223653511831486463.  (* 0x8000ffffFFFFffff *)

(** Equality of two [double]s, given by their bits. *)
Definition is_nan (x : Z) : bool := (Z.land (Z.shiftr x 52) 2047 =? 2047) && negb (x mod 2 ^ 52 =? 0).
Definition double_eq (x y : Z) : bool :=
  negb (is_nan x) && negb (is_nan y) && ((x =? y) || ((x mod 2 ^ 63 =? 0) && (y mod 2 ^ 63 =? 0))).

(** [eq]: how words are compared. *)
Fixpoint find_word (eq : Z -> Z -> bool) (key : Z) (i : Z) (words : list Z) : Z :=
  match words with
  | [] => 0
  | w :: words => if eq key (Z.land w key_mask) then i + 1 else find_word eq key (i + 1) words
  end.

Definition find_index_avx (a : Z) (words : list Z) : Z := find_word double_eq (Z.lor a (2 ^ 63)) 0 words.
Definition find_index_basic (a : Z) (words : list Z) : Z := find_word Z.eqb (Z.lor a (2 ^ 63)) 0 words.
Definition find_index (avx : bool) (a : Z) (words : list Z) : Z :=
  if avx then find_index_avx a words else find_index_basic a words.

(** ** Looking into a bucket slot by slot *)

Fixpoint search_bucket (n : nat) (tbl : list l2_entry) (a offset : Z) : option (option Z) :=
  match n with
  | O => Some None
  | S n =>
      e ← tbl !! Z.to_nat offset;
      if occupied e && (a =? addr e) then Some (Some offset) else search_bucket n tbl a (u32 (offset + 1))
  end.

(** The gate, if the bucket from [offset] on has [a]. *)
Definition find_in (avx : bool) (t : l2_table) (tbl : list l2_entry) (a offset : Z) : option (option Z) :=
  if bucket t =? 4 then
    e ← tbl !! Z.to_nat offset;
    let tmp := find_index avx a (words_of e) in
    if tmp =? 0 then Some None
    else e ← tbl !! Z.to_nat (u32 (offset + tmp - 1)); Some (Some (gate e))
  else
    r ← search_bucket (Z.to_nat (bucket t)) tbl a offset;
    match r with
    | Some o => e ← tbl !! Z.to_nat o; Some (Some (gate e))
    | None => Some None
    end.

Section Table.
Context (crc : Z -> Z) (avx : bool).

Definition l2_hash (a : Z) : Z := crc a.

(** The inner [None] is [-ENOENT]. *)
Definition l2_find (t : l2_table) (a : Z) : option (option Z) :=
  tbl ← table t;
  let hash := l2_hash a in
  let idx1 := l2_hash_to_index hash (tsize t) in
  r ← find_in avx t tbl a (l2_ib_to_offset t idx1 0);
  match r with
  | Some g => Some (Some g)
  | None =>
      idx1 ← l2_alt_index hash (size_power t) idx1;
      find_in avx t tbl a (l2_ib_to_offset t idx1 0)
  end.

Definition l2_find_offset (t : l2_table) (a : Z) : option (option Z) :=
  tbl ← table t;
  let hash := l2_hash a in
  let idx1 := l2_hash_to_index hash (tsize t) in
  r ← search_bucket (Z.to_nat (bucket t)) tbl a (l2_ib_to_offset t idx1 0);
  match r with
  | Some o => Some (Some o)
  | None =>
      idx1 ← l2_alt_index hash (size_power t) idx1;
      search_bucket (Z.to_nat (bucket t)) tbl a (l2_ib_to_offset t idx1 0)
  end.

(** The first free slot of bucket [idx] among the last [n]. *)
Fixpoint free_slot (n : nat) (t : l2_table) (tbl : list l2_entry) (idx j : Z) : option (option Z) :=
  match n with
  | O => Some None
  | S n =>
      e ← tbl !! Z.to_nat (l2_ib_to_offset t idx j);
      if negb (occupied e) then Some (Some j) else free_slot n t tbl idx (j + 1)
  end.

Definition clear_occupied (e : l2_entry) : l2_entry := Entry (addr e) (gate e) false.

(** Moving the first entry that has room in its alternate bucket. *)
Fixpoint try_moving (n : nat) (t : l2_table) (tbl : list l2_entry) (idx1 i : Z) : option (option (list l2_entry)) :=
  match n with
  | O => Some None
  | S n =>
      let offset1 := l2_ib_to_offset t idx1 i in
      e ← tbl !! Z.to_nat offset1;
      let hash := l2_hash (addr e) in
      let idx_v1 := l2_hash_to_index hash (tsize t) in
      idx_v2 ← l2_alt_index hash (size_power t) idx_v1;
      if (idx_v1 =? idx_v2) || (idx1 =? idx_v2) then Some None
      else
        r ← free_slot (Z.to_nat (bucket t)) t tbl idx_v2 0;
        match r with
        | Some j =>
            let offset2 := l2_ib_to_offset t idx_v2 j in
            Some (Some (<[Z.to_nat offset1 := clear_occupied e]> (<[Z.to_nat offset2 := e]> tbl)))
        | None => try_moving n t tbl idx1 (i + 1)
        end
  end.

(** The slots after a move, the bucket and the slot in it; [None] is [-ENOMEM]. *)
Definition l2_find_slot (t : l2_table) (a : Z) : option (option (list l2_entry * Z * Z)) :=
  tbl ← table t;
  let idx1 := l2_hash_to_index (l2_hash a) (tsize t) in
  r ← free_slot (Z.to_nat (bucket t)) t tbl idx1 0;
  match r with
  | Some i => Some (Some (tbl, idx1, i))
  | None =>
      m ← try_moving (Z.to_nat (bucket t)) t tbl idx1 0;
      match m with
      | Some tbl => Some (Some (tbl, idx1, 0))
      | None => Some None
      end
  end.

Definition l2_add_entry (t : l2_table) (a g : Z) : option (l2_table * Z) :=
  found ← l2_find t a;
  match found with
  | Some _ => Some (t, - EEXIST)
  | None =>
      slot ← l2_find_slot t a;
      match slot with
      | None => Some (t, - ENOMEM)
      | Some (tbl, index, j) =>
          let offset := Z.to_nat (l2_ib_to_offset t index j) in
          guard (offset < length tbl)%nat;;
          Some (with_count (u64 (count t + 1)) (with_slots (<[offset := entry_of a g]> tbl) t), 0)
      end
  end.

Definition l2_del_entry (t : l2_table) (a : Z) : option (l2_table * Z) :=
  found ← l2_find_offset t a;
  match found with
  | None => Some (t, - ENOENT)
  | Some offset =>
      tbl ← table t;
      Some (with_count (u64 (count t - 1)) (with_slots (<[Z.to_nat offset := no_entry]> tbl) t), 0)
  end.

Definition l2_flush (t : l2_table) : l2_table * Z :=
  match table t with
  | None => (t, - EINVAL)
  | Some tbl => (with_slots (replicate (length tbl) no_entry) t, 0)
  end.

(** ** Addresses as text *)

Definition is_space (c : Ascii.ascii) : bool :=
  let n := Z.of_N (Ascii.N_of_ascii c) in (n =? 32) || ((9 <=? n) && (n <=? 13)).

Definition hex_digit (c : Ascii.ascii) : option Z :=
  let n := Z.of_N (Ascii.N_of_ascii c) in
  if (48 <=? n) && (n <=? 57) then Some (n - 48)
  else if (65 <=? n) && (n <=? 70) then Some (n - 55)
  else if (97 <=? n) && (n <=? 102) then Some (n - 87)
  else None.

Fixpoint skip_space (s : string) : string :=
  match s with
  | String c s' => if is_space c then skip_space s' else s
  | EmptyString => s
  end.

(** [%2hhx]: a digit, two digits, or a sign and a digit, after any white space. *)
Definition scan_hhx (s : string) : option (Z * string) :=
  match skip_space s with
  | String c s1 =>
      match hex_digit c with
      | Some d =>
          match s1 with
          | String c2 s2 =>
              match hex_digit c2 with
              | Some d2 => Some (16 * d + d2, s2)
              | None =>
                  if (d =? 0) && ((Ascii.eqb c2 "x"%char) || (Ascii.eqb c2 "X"%char)) then None else Some (d, s1)
              end
          | EmptyString => Some (d, s1)
          end
      | None =>
          if Ascii.eqb c "+"%char || Ascii.eqb c "-"%char then
            match s1 with
            | String c2 s2 => d ← hex_digit c2; Some (if Ascii.eqb c "-"%char then u8 (- d) else d, s2)
            | EmptyString => None
            end
          else None
      end
  | EmptyString => None
  end.

(** [n] bytes with colons between them. *)
Fixpoint scan_bytes (n : nat) (s : string) : option (list Z) :=
  match n with
  | O => Some []
  | S n =>
      '(b, s) ← scan_hhx s;
      match n with
      | O => Some [b]
      | S _ =>
          match s with
          | String c s => guard (c = ":"%char);; l ← scan_bytes n s; Some (b :: l)
          | EmptyString => None
          end
      end
  end.

(** [None] is [-EINVAL]. *)
Definition parse_mac_addr (s : string) : option (list Z) := scan_bytes 6 s.

(** The value of bytes, the first the least significant. *)
Fixpoint le_value (l : list Z) : Z :=
  match l with
  | [] => 0
  | b :: l => b + 256 * le_value l
  end.

Definition l2_addr_to_u64 (l : list Z) : Z :=
  Z.lor (le_value (take 4 l)) (Z.shiftl (le_value (take 2 (drop 4 l))) 32).

Fixpoint le_bytes (n : nat) (x : Z) : list Z :=
  match n with
  | O => []
  | S n => x mod 256 :: le_bytes n (x / 256)
  end.

(** [be64_t::swap]. *)
Definition swap64 (x : Z) : Z := le_value (rev (le_bytes 8 x)).

(** ** The module *)

Record L2Forward := L2 { l2_table_ : l2_table; default_gate_ : Z }.

Definition set_table (t : l2_table) (m : L2Forward) : L2Forward := L2 t (default_gate_ m).

(** A response: the error code, 0 for success. *)
Definition L2Forward_Init (alloc : bool) (size buckets : Z) (m : L2Forward) : L2Forward * Z :=
  let size := to_signed 32 size in
  let buckets := to_signed 32 buckets in
  let size := if size =? 0 then DEFAULT_TABLE_SIZE else size in
  let buckets := if buckets =? 0 then MAX_BUCKET_SIZE else buckets in
  let '(t, ret) := l2_init alloc size buckets (l2_table_ m) in
  (L2 t DROP_GATE, - ret).

Definition L2Forward_DeInit (m : L2Forward) : L2Forward := set_table (l2_deinit (l2_table_ m)).1 m.

(** The gate of each packet of a batch, given by its first 8 bytes. *)
Fixpoint ProcessBatch (m : L2Forward) (batch : list Z) : option (list Z) :=
  match batch with
  | [] => Some []
  | head_data :: batch =>
      r ← l2_find (l2_table_ m) (Z.land head_data 281474976710655);
      l ← ProcessBatch m batch;
      Some ((match r with Some out_gate => out_gate | None => default_gate_ m end) :: l)
  end.

Fixpoint CommandAdd (entries : list (string * Z)) (m : L2Forward) : option (L2Forward * Z) :=
  match entries with
  | [] => Some (m, 0)
  | (s, g) :: entries =>
      if String.eqb s "" then Some (m, EINVAL)
      else
        match parse_mac_addr s with
        | None => Some (m, EINVAL)
        | Some bytes =>
            '(t, r) ← l2_add_entry (l2_table_ m) (l2_addr_to_u64 bytes) (u16 g);
            if r =? 0 then CommandAdd entries (set_table t m) else Some (set_table t m, - r)
        end
  end.

Fixpoint CommandDelete (addrs : list string) (m : L2Forward) : option (L2Forward * Z) :=
  match addrs with
  | [] => Some (m, 0)
  | s :: addrs =>
      if String.eqb s "" then Some (m, EINVAL)
      else
        match parse_mac_addr s with
        | None => Some (m, EINVAL)
        | Some bytes =>
            '(t, r) ← l2_del_entry (l2_table_ m) (l2_addr_to_u64 bytes);
            if r =? 0 then CommandDelete addrs (set_table t m)
            else Some (set_table t m, if r =? - ENOENT then ENOENT else EINVAL)
        end
  end.

Definition CommandSetDefaultGate (g : Z) (m : L2Forward) : L2Forward := L2 (l2_table_ m) (u16 g).

(** The gates, or an error code. *)
Fixpoint CommandLookup (addrs : list string) (m : L2Forward) : option (list Z + Z) :=
  match addrs with
  | [] => Some (inl [])
  | s :: addrs =>
      if String.eqb s "" then Some (inr EINVAL)
      else
        match parse_mac_addr s with
        | None => Some (inr EINVAL)
        | Some bytes =>
            r ← l2_find (l2_table_ m) (l2_addr_to_u64 bytes);
            match r with
            | None => Some (inr ENOENT)
            | Some g => l ← CommandLookup addrs m; Some (match l with inl gs => inl (g :: gs) | inr e => inr e end)
            end
        end
  end.

(** The loop of [CommandPopulate]; answers of [l2_add_entry] are ignored. *)
Fixpoint populate (n : nat) (i base gate_cnt : Z) (t : l2_table) : option l2_table :=
  match n with
  | O => Some t
  | S n =>
      guard (gate_cnt <> 0);;
      '(t, _) ← l2_add_entry t (swap64 (u64 (Z.shiftl base 16))) (u16 (Z.rem i gate_cnt));
      populate n (i + 1) (u64 (base + 1)) gate_cnt t
  end.

Definition CommandPopulate (base : string) (cnt gate_cnt : Z) (m : L2Forward) : option (L2Forward * Z) :=
  if String.eqb base "" then Some (m, EINVAL)
  else
    match parse_mac_addr base with
    | None => Some (m, EINVAL)
    | Some bytes =>
        let base_u64 := Z.shiftr (swap64 (l2_addr_to_u64 bytes)) 16 in
        let base_u64 := Z.shiftr base_u64 16 in
        t ← populate (Z.to_nat (to_signed 32 cnt)) 0 base_u64 (to_signed 32 gate_cnt) (l2_table_ m);
        Some (set_table t m, 0)
    end.

End Table.
