(* ===== verification/L2Props.v ===== *)
(** * Forwarding by MAC address: specification and proofs

    With one or two slots a bucket the table is a finite map from addresses to
    gates, of which an insertion may lose an entry when there are two
    ([l2_table_refines]); with four, the default, only the first slot of a bucket
    is ever found ([find_four], [second_slot_unseen]). *)

From Stdlib Require Import Ascii.
From stdpp Require Import strings.
From S2P Require Import Prelude L2Forward.

(** ** Creating a table *)

Lemma power_of_2_spec n : 0 < n < 2 ^ 64 -> is_power_of_2 n = true <-> n = 2 ^ Z.log2 n.
Proof.
  intros Hn. unfold is_power_of_2. rewrite (proj2 (Z.eqb_neq n 0)) by lia. cbn [negb andb]. rewrite wrap_small by lia.
  pose proof (Z.log2_spec n ltac:(lia)) as [Hlo Hhi]. pose proof (Z.log2_nonneg n) as H0. split.
  - intros E%Z.eqb_eq. destruct (decide (n = 2 ^ Z.log2 n)) as [|Hne]; [done|exfalso].
    assert (El : Z.log2 (n - 1) = Z.log2 n) by (apply Z.log2_unique; lia).
    apply (f_equal (fun x => Z.testbit x (Z.log2 n))) in E. rewrite Z.land_spec, Z.bits_0, Z.bit_log2 in E by lia.
    rewrite <- El in E at 1. rewrite Z.bit_log2 in E by lia. done.
  - intros E. apply Z.eqb_eq. rewrite E. rewrite land_ones_mod by lia. apply Z.mod_same. lia.
Qed.

Lemma log2_loop_ok k : forall n power, (k <= n)%nat -> log2_loop n (2 ^ Z.of_nat k) power = power + Z.of_nat k.
Proof.
  induction k as [|k IH]; intros n power Hn; [destruct n; cbn [log2_loop]; change (2 ^ Z.of_nat 0) with 1; cbn; lia|]. destruct n as [|n]; [lia|]. cbn [log2_loop].
  assert (E : 2 ^ Z.of_nat (S k) = 2 * 2 ^ Z.of_nat k) by (rewrite Nat2Z.inj_succ, Z.pow_succ_r by lia; lia).
  pose proof (pow2_pos (Z.of_nat k) ltac:(lia)). rewrite (proj2 (Z.ltb_lt 1 _)) by lia. rewrite shiftr_pow2 by lia. change (2 ^ 1) with 2.
  rewrite E, Z.mul_comm, Z.div_mul by lia. rewrite IH by lia. lia.
Qed.

Lemma lor_shift a b n : 0 <= n -> 0 <= a < 2 ^ n -> Z.lor a (Z.shiftl b n) = a + b * 2 ^ n.
Proof.
  intros Hn Ha. rewrite <- shiftl_pow2 by done. assert (E : Z.land a (Z.shiftl b n) = 0).
  { apply Z.bits_inj'. intros i Hi. rewrite Z.land_spec, Z.bits_0. destruct (Z_lt_le_dec i n); [rewrite (Z.shiftl_spec_low b n i) by lia; apply andb_false_r|].
    destruct (decide (a = 0)) as [->|]; [by rewrite Z.bits_0|]. rewrite (Z.bits_above_log2 a i); [done|lia|]. pose proof (Z.log2_lt_pow2 a n). lia. }
  by rewrite <- (Z.lxor_lor _ _ E), Z.add_nocarry_lxor.
Qed.

Section Spec.
Context (crc : Z -> Z) (avx : bool).

(** ** The state *)

(** The buckets an address may be in. *)
Definition primary (t : l2_table) (a : Z) : Z := l2_hash_to_index (crc a) (tsize t).
Definition alternate (t : l2_table) (a : Z) : option Z := l2_alt_index (crc a) (size_power t) (primary t a).
Definition home (t : l2_table) (a b : Z) : Prop := b = primary t a \/ alternate t a = Some b.

Definition has (l : list l2_entry) (i : nat) (e : l2_entry) : Prop := l !! i = Some e /\ occupied e = true.

(** The bit fields of a word. *)
Definition word_ok (e : l2_entry) : Prop := 0 <= addr e < 2 ^ 48 /\ 0 <= gate e < 2 ^ 15.

Record table_ok (t : l2_table) (l : list l2_entry) : Prop := {
  k_table : table t = Some l;
  k_size : tsize t = 2 ^ size_power t;
  k_power : 1 <= size_power t <= 26;
  k_bucket : bucket t = 1 \/ bucket t = 2 \/ bucket t = 4;
  k_length : Z.of_nat (length l) = tsize t * bucket t;
  k_word : Forall word_ok l;
  k_entry : forall i e, has l i e -> home t (addr e) (Z.of_nat i / bucket t)
}.

(** An address is in the table once. *)
Definition keys_unique (l : list l2_entry) : Prop := forall i j e f, has l i e -> has l j f -> addr e = addr f -> i = j.

(** The map that the slots hold. *)
Definition holds (l : list l2_entry) (m : gmap Z Z) : Prop :=
  forall a g, m !! a = Some g <-> exists i e, has l i e /\ addr e = a /\ gate e = g.

Lemma l2_init_ok alloc size buckets t :
  let '(t', ret) := l2_init alloc size buckets t in
  if decide ((0 < size <= MAX_TABLE_SIZE /\ size = 2 ^ Z.log2 size) /\ (buckets = 1 \/ buckets = 2 \/ buckets = 4)) then
    if alloc then ret = 0 /\ (1 < size -> exists l, table_ok t' l /\ keys_unique l /\ holds l ∅) else ret = - ENOMEM
  else ret = - EINVAL /\ t' = t.
Proof.
  unfold l2_init, MAX_TABLE_SIZE, MAX_BUCKET_SIZE.
  destruct ((size <=? 0) || (1048576 * 64 <? size) || negb (is_power_of_2 size)) eqn:E1.
  { rewrite decide_False; [done|]. intros [[Hs Hp] _]. rewrite (proj2 (power_of_2_spec size ltac:(lia)) Hp) in E1. cbn in E1. lia. }
  destruct ((buckets <=? 0) || (4 <? buckets) || negb (is_power_of_2 buckets)) eqn:E2.
  { rewrite decide_False; [done|]. intros [_ [->|[->| ->]]]; done. }
  apply orb_false_iff in E1 as [E1 E1p%negb_false_iff]. apply orb_false_iff in E2 as [E2 E2p%negb_false_iff].
  assert (Hp : size = 2 ^ Z.log2 size) by (apply power_of_2_spec; [lia|done]).
  assert (Hb : buckets = 1 \/ buckets = 2 \/ buckets = 4).
  { assert (buckets = 1 \/ buckets = 2 \/ buckets = 3 \/ buckets = 4) as [|[|[->|]]] by lia; auto. done. }
  destruct alloc; cbn [negb]; (rewrite decide_True by (split; [split; [lia|done]|done])); [|done]. split; [done|]. intros H1.
  assert (Hl : 1 <= Z.log2 size <= 26).
  { split; [by apply Z.log2_le_pow2; lia|]. apply Z.lt_succ_r, Z.log2_lt_pow2; [lia|]. change (2 ^ Z.succ 26) with (2 * (1048576 * 64)). lia. }
  assert (Hno : forall i e, ~ has (replicate (Z.to_nat (size * buckets)) no_entry) i e) by (intros i e [[-> _]%lookup_replicate ?]; done).
  assert (Elog : log2_loop 31 size 0 = Z.log2 size).
  { rewrite Hp at 1. replace (Z.log2 size) with (Z.of_nat (Z.to_nat (Z.log2 size))) at 1 by lia. rewrite log2_loop_ok by lia. lia. }
  exists (replicate (Z.to_nat (size * buckets)) no_entry). split; [|split].
  - split; cbn [table tsize size_power bucket]; rewrite ?Elog; [done|exact Hp|exact Hl|exact Hb|rewrite length_replicate; nia|by apply Forall_replicate|]. by intros i e ?%Hno.
  - by intros i j e f ?%Hno.
  - intros a g. rewrite lookup_empty. split; [done|]. by intros (i & e & ?%Hno & _).
Qed.

Section Table.
Context (t : l2_table) (l : list l2_entry) (K : table_ok t l).

Lemma primary_range a : 0 <= primary t a < tsize t.
Proof.
  pose proof (k_power _ _ K) as Hp. unfold primary, l2_hash_to_index. rewrite (k_size _ _ K).
  pose proof (pow2_pos (size_power t) ltac:(lia)). assert (2 ^ size_power t <= 2 ^ 26) by (apply pow2_mono; lia).
  rewrite wrap_small by (change (2 ^ 26) with 67108864 in *; lia). rewrite land_ones_mod by lia. apply Z.mod_pos_bound. lia.
Qed.

Lemma alternate_ok a : exists b, alternate t a = Some b /\ 0 <= b < tsize t.
Proof.
  pose proof (k_power _ _ K) as Hp. unfold alternate, l2_alt_index. rewrite option_guard_True by lia. rewrite option_guard_True by lia.
  eexists. split; [done|]. rewrite (k_size _ _ K). set (x := Z.lxor _ _).
  pose proof (pow2_pos (size_power t - 1) ltac:(lia)). assert (Hm : 2 ^ (size_power t - 1) <= 2 ^ 25) by (apply pow2_mono; lia).
  rewrite shiftl_pow2, Z.mul_1_l, (wrap_small 64) by (change (2 ^ 25) with 33554432 in *; lia). rewrite land_ones_mod by lia.
  pose proof (Z.mod_pos_bound x (2 ^ (size_power t - 1)) ltac:(lia)). rewrite wrap_small by (change (2 ^ 25) with 33554432 in *; lia).
  assert (2 ^ (size_power t - 1) <= 2 ^ size_power t) by (apply pow2_mono; lia). lia.
Qed.

Lemma bucket_pos : 1 <= bucket t <= 4.
Proof. destruct (k_bucket _ _ K) as [->|[->| ->]]; lia. Qed.

Lemma length_small : Z.of_nat (length l) <= 2 ^ 28.
Proof.
  pose proof (k_power _ _ K). rewrite (k_length _ _ K), (k_size _ _ K). assert (2 ^ size_power t <= 2 ^ 26) by (apply pow2_mono; lia).
  pose proof bucket_pos. pose proof (pow2_pos (size_power t) ltac:(lia)). change (2 ^ 28) with (2 ^ 26 * 4). nia.
Qed.

(** Where slot [j] of bucket [b] is. *)
Lemma offset_ok b j : 0 <= b < tsize t -> 0 <= j < bucket t ->
  l2_ib_to_offset t b j = b * bucket t + j /\ 0 <= b * bucket t + j < Z.of_nat (length l) /\ (b * bucket t + j) / bucket t = b.
Proof.
  intros Hb Hj. pose proof length_small as Hl. rewrite (k_length _ _ K) in *. change (2 ^ 28) with 268435456 in Hl. unfold l2_ib_to_offset.
  rewrite wrap_small by nia. split; [done|]. split; [nia|]. rewrite Z.div_add_l by lia. rewrite Z.div_small by lia. lia.
Qed.

Lemma slot_some b j : 0 <= b < tsize t -> 0 <= j < bucket t -> exists e, l !! Z.to_nat (l2_ib_to_offset t b j) = Some e.
Proof. intros Hb Hj. destruct (offset_ok b j Hb Hj) as (-> & Hr & _). apply lookup_lt_is_Some_2. lia. Qed.

(** ** Searching *)

Lemma l2_search_ok a : forall n offset, 0 <= offset -> offset + Z.of_nat n <= Z.of_nat (length l) ->
  exists r, search_bucket n l a offset = Some r /\
    match r with
    | Some o => offset <= o < offset + Z.of_nat n /\ exists e, has l (Z.to_nat o) e /\ addr e = a
    | None => forall i e, offset <= Z.of_nat i < offset + Z.of_nat n -> has l i e -> addr e <> a
    end.
Proof.
  pose proof length_small as Hl. change (2 ^ 28) with 268435456 in Hl.
  induction n as [|n IH]; intros offset H0 Hle; cbn [search_bucket]; [exists None; split; [done|]; lia|].
  destruct (lookup_lt_is_Some_2 l (Z.to_nat offset) ltac:(lia)) as [e He]. rewrite He, bind_some.
  destruct (occupied e && (a =? addr e)) eqn:E.
  - apply andb_true_iff in E as [Eo Ea%Z.eqb_eq]. exists (Some offset). split; [done|]. split; [lia|]. exists e. by split_and!.
  - rewrite wrap_small by lia. destruct (IH (offset + 1)) as (r & -> & Hr); [lia|lia|]. exists r. split; [done|]. destruct r as [o|].
    + destruct Hr as [Ho Hh]. split; [lia|done].
    + intros i f Hi Hf Ea. destruct (decide (Z.of_nat i = offset)) as [Eo|]; [|by apply (Hr i f); [lia|..]].
      destruct Hf as [Hf Hof]. rewrite <- Eo, Nat2Z.id in He. rewrite He in Hf. injection Hf as <-. rewrite Hof, Ea, Z.eqb_refl in E. done.
Qed.

(** Bucket [b] has [a] at [o], or not at all. *)
Definition in_bucket (b a : Z) (r : option Z) : Prop :=
  match r with
  | Some o => Z.of_nat (Z.to_nat o) / bucket t = b /\ exists e, has l (Z.to_nat o) e /\ addr e = a
  | None => forall i e, Z.of_nat i / bucket t = b -> has l i e -> addr e <> a
  end.

Lemma search_bucket_ok a b : 0 <= b < tsize t ->
  exists r, search_bucket (Z.to_nat (bucket t)) l a (l2_ib_to_offset t b 0) = Some r /\ in_bucket b a r.
Proof.
  intros Hb. pose proof bucket_pos as HB. destruct (offset_ok b 0 Hb ltac:(lia)) as (-> & Hr & _).
  destruct (l2_search_ok a (Z.to_nat (bucket t)) (b * bucket t + 0)) as (r & -> & Hs); [lia|rewrite (k_length _ _ K) in *; nia|].
  exists r. split; [done|]. rewrite Z2Nat.id in Hs by lia. destruct r as [o|].
  - destruct Hs as [Ho Hh]. split; [|done]. rewrite Z2Nat.id by lia. symmetry. apply (Z.div_unique_pos _ _ _ (o - b * bucket t)); lia.
  - intros i e Hi. apply Hs. pose proof (Z.div_mod (Z.of_nat i) (bucket t) ltac:(lia)). pose proof (Z.mod_pos_bound (Z.of_nat i) (bucket t) ltac:(lia)). nia.
Qed.

Lemma find_offset_ok a : exists r, l2_find_offset crc t a = Some r /\
  match r with Some o => exists e, has l (Z.to_nat o) e /\ addr e = a | None => forall i e, has l i e -> addr e <> a end.
Proof.
  unfold l2_find_offset. rewrite (k_table _ _ K), bind_some. unfold l2_hash. fold (primary t a).
  destruct (search_bucket_ok a (primary t a) (primary_range a)) as (r & -> & Hr). rewrite bind_some. destruct r as [o|]; [exists (Some o); split; [done|apply Hr]|].
  fold (alternate t a). destruct (alternate_ok a) as (b & Eb & Hb). rewrite Eb, bind_some.
  destruct (search_bucket_ok a b Hb) as (r & -> & Hr2). exists r. split; [done|]. destruct r as [o|]; [apply Hr2|].
  intros i e Hi Ea. destruct (k_entry _ _ K i e Hi) as [E|E]; rewrite Ea in E; [by apply (Hr i e)|]. rewrite Eb in E. injection E as E.
  by apply (Hr2 i e).
Qed.

(** ** Changing a slot *)

(** The table with other slots. *)
Lemma table_ok_slots c l' : length l' = length l -> Forall word_ok l' ->
  (forall i e, has l' i e -> home t (addr e) (Z.of_nat i / bucket t)) ->
  table_ok (with_count c (with_slots l' t)) l'.
Proof. intros Hl Hw He. destruct K as [_ K2 K3 K4 K5 _ _]. split; try done. by rewrite Hl. Qed.

Lemma has_insert p e k x : (p < length l)%nat -> has (<[p := e]> l) k x <-> (k = p /\ x = e /\ occupied e = true) \/ (k <> p /\ has l k x).
Proof.
  intros Hp. unfold has. destruct (decide (k = p)) as [->|Hk].
  - rewrite list_lookup_insert_eq by done. split; [intros [[= ->] Ho]; by left|]. intros [(_ & -> & Ho)|[? _]]; done.
  - rewrite list_lookup_insert_ne by done. split; [by right|]. intros [[? _]|[_ ?]]; done.
Qed.

(** Writing a new entry, over what was there. *)
Lemma l2_put_ok m p a g : keys_unique l -> holds l m -> (p < length l)%nat -> 0 <= a < 2 ^ 48 -> home t a (Z.of_nat p / bucket t) -> m !! a = None ->
  let l' := <[p := entry_of a g]> l in
  (forall c, table_ok (with_count c (with_slots l' t)) l') /\ keys_unique l' /\
  exists lost, holds l' (<[a := wrap 15 g]> (from_option (fun x => delete x m) m lost)) /\
    match lost with Some x => exists e, has l p e /\ addr e = x | None => forall e, ~ has l p e end.
Proof.
  intros U H Hp Ha Hh Hm l'. assert (Eh : forall k x, has l' k x <-> (k = p /\ x = entry_of a g) \/ (k <> p /\ has l k x)).
  { intros k x. unfold l'. rewrite has_insert by done. cbn. naive_solver. }
  assert (Hfresh : forall i e, has l i e -> addr e <> a).
  { intros i e Hi Ea. assert (m !! a = Some (gate e)) by (apply H; eauto). congruence. }
  assert (Ea : addr (entry_of a g) = a) by (cbn; by rewrite wrap_small).
  split; [|split].
  - intros c. apply table_ok_slots; [apply length_insert| |].
    + apply Forall_insert; [apply (k_word _ _ K)|]. split; apply wrap_range; lia.
    + intros k x [[-> ->]|[_ Hx]]%Eh; [by rewrite Ea|by apply (k_entry _ _ K)].
  - intros i j e f [[-> ->]|[Hi He]]%Eh [[-> ->]|[Hj Hf]]%Eh; [done| | |by apply U]; rewrite Ea; [intros E|intros E]; by destruct (Hfresh _ _ ltac:(eassumption)).
  - assert (Hlost : exists lost, match lost with Some x => exists e, has l p e /\ addr e = x | None => forall e, ~ has l p e end).
    { destruct (lookup_lt_is_Some_2 l p Hp) as [e He]. destruct (occupied e) eqn:Eo; [exists (Some (addr e)); exists e; by split|].
      exists None. intros f [Hf Hof]. congruence. }
    destruct Hlost as [lost Hl]. exists lost. split; [|done]. intros b v. destruct (decide (b = a)) as [->|Hb].
    + rewrite lookup_insert_eq. split.
      * intros [= <-]. exists p, (entry_of a g). split; [apply Eh; by left|]. split; [done|by cbn].
      * intros (i & e & [[-> ->]|[Hi He]]%Eh & E1 & E2); [cbn in E2; by rewrite E2|by destruct (Hfresh i e He)].
    + rewrite lookup_insert_ne by done. assert (Hrest : (exists i e, has l' i e /\ addr e = b /\ gate e = v) <-> (exists i e, i <> p /\ has l i e /\ addr e = b /\ gate e = v)).
      { split; [intros (i & e & [[-> ->]|[Hi He]]%Eh & E1 & E2); [congruence|by exists i, e]|]. intros (i & e & Hi & He & E). exists i, e. split; [apply Eh; by right|done]. }
      rewrite Hrest. destruct lost as [x|]; cbn [from_option].
      * destruct Hl as (e0 & He0 & <-). destruct (decide (b = addr e0)) as [->|Hb2].
        -- rewrite lookup_delete_eq. split; [done|]. intros (i & e & Hi & He & E & _). destruct Hi. by apply (U i p e e0).
        -- rewrite lookup_delete_ne by done. rewrite (H b v). split; [|by intros (i & e & _ & He & E); exists i, e]. intros (i & e & He & E & E2). exists i, e.
           split; [|done]. intros ->. destruct He as [He _], He0 as [He0 _]. congruence.
      * rewrite (H b v). split; [|by intros (i & e & _ & He & E); exists i, e]. intros (i & e & He & E). exists i, e. split; [|done]. intros ->. by destruct (Hl e).
Qed.

(** Moving an entry to a free slot that it may be in. *)
Lemma move_ok m p q e f : keys_unique l -> holds l m -> has l p e -> l !! q = Some f -> occupied f = false -> home t (addr e) (Z.of_nat q / bucket t) ->
  let l' := <[p := clear_occupied e]> (<[q := e]> l) in
  table_ok (with_slots l' t) l' /\ keys_unique l' /\ holds l' m /\
  forall k x, has l' k x <-> (k = q /\ x = e) \/ (k <> p /\ k <> q /\ has l k x).
Proof.
  intros U H Hpe Hq Hf Hh l'. assert (Hpq : p <> q) by (intros ->; destruct Hpe as [Hpe ?]; congruence).
  pose proof (lookup_lt_Some _ _ _ (proj1 Hpe)) as Hp. pose proof (lookup_lt_Some _ _ _ Hq) as Hql.
  assert (Eh : forall k x, has l' k x <-> (k = q /\ x = e) \/ (k <> p /\ k <> q /\ has l k x)).
  { intros k x. unfold l', has. destruct (decide (k = p)) as [->|Hkp].
    - rewrite list_lookup_insert_eq by (by rewrite length_insert). split; [intros [[= <-] Ho]; done|]. by intros [[? _]|[? _]].
    - rewrite list_lookup_insert_ne by done. destruct (decide (k = q)) as [->|Hkq].
      + rewrite list_lookup_insert_eq by done. split; [intros [[= <-] Ho]; by left|]. intros [[_ ->]|(_ & ? & _)]; [split; [done|apply Hpe]|done].
      + rewrite list_lookup_insert_ne by done. split; [intros Hx; right; split; [done|]; split; done|]. by intros [[? _]|(_ & _ & ?)]. }
  split; [|split; [|split; [|done]]].
  - apply (table_ok_slots (count t)); [by unfold l'; rewrite !length_insert| |].
    + assert (We : word_ok e) by (by apply (Forall_lookup_1 _ _ _ _ (k_word _ _ K) (proj1 Hpe))).
      apply Forall_insert; [apply Forall_insert; [apply (k_word _ _ K)|done]|exact We].
    + intros k x [[-> ->]|(_ & _ & Hx)]%Eh; [done|by apply (k_entry _ _ K)].
  - intros i j x y [[-> ->]|(Hi & Hi2 & Hx)]%Eh [[-> ->]|(Hj & Hj2 & Hy)]%Eh E; [done| | |by apply (U i j x y)].
    + by destruct Hj; apply (U j p y e).
    + by destruct Hi; apply (U i p x e).
  - intros a g. rewrite (H a g). split; intros (i & x & Hx & E).
    + destruct (decide (i = p)) as [->|Hi].
      * assert (x = e) as -> by (destruct Hx, Hpe; congruence). exists q, e. split; [apply Eh; by left|done].
      * exists i, x. split; [|done]. apply Eh. right. split; [done|]. split; [|done]. intros ->. destruct Hx. congruence.
    + apply Eh in Hx as [[-> ->]|(_ & _ & Hx)]; [by exists p, e|by exists i, x].
Qed.

(** Taking an entry out. *)
Lemma drop_ok m p e : keys_unique l -> holds l m -> has l p e ->
  let l' := <[p := no_entry]> l in
  (forall c, table_ok (with_count c (with_slots l' t)) l') /\ keys_unique l' /\ holds l' (delete (addr e) m).
Proof.
  intros U H Hp l'. assert (Eh : forall k x, has l' k x <-> k <> p /\ has l k x).
  { intros k x. unfold l'. rewrite has_insert by (apply (lookup_lt_Some _ _ _ (proj1 Hp))). cbn. naive_solver. }
  split; [|split].
  - intros c. apply table_ok_slots; [apply length_insert|by apply Forall_insert; [apply (k_word _ _ K)|]|]. intros k x [_ Hx]%Eh. by apply (k_entry _ _ K).
  - intros i j x y [_ Hx]%Eh [_ Hy]%Eh. by apply U.
  - intros b v. destruct (decide (b = addr e)) as [->|Hb].
    + rewrite lookup_delete_eq. split; [done|]. intros (i & x & [Hi Hx]%Eh & E & _). destruct Hi. by apply (U i p x e).
    + rewrite lookup_delete_ne by done. rewrite (H b v). split; intros (i & x & Hx & E & E2).
      * exists i, x. split; [|done]. apply Eh. split; [|done]. intros ->. destruct Hx, Hp. congruence.
      * apply Eh in Hx as [_ Hx]. by exists i, x.
Qed.

(** ** Looking for a slot *)

Definition slot (b j : Z) : nat := Z.to_nat (l2_ib_to_offset t b j).

Lemma slot_bucket b j : 0 <= b < tsize t -> 0 <= j < bucket t -> (slot b j < length l)%nat /\ Z.of_nat (slot b j) / bucket t = b.
Proof. intros Hb Hj. unfold slot. destruct (offset_ok b j Hb Hj) as (-> & Hr & Hd). rewrite Z2Nat.id by lia. split; [lia|done]. Qed.

Lemma slot_inj b j b' j' : 0 <= b < tsize t -> 0 <= j < bucket t -> 0 <= b' < tsize t -> 0 <= j' < bucket t -> slot b j = slot b' j' -> b = b' /\ j = j'.
Proof.
  intros Hb Hj Hb' Hj' E. destruct (slot_bucket b j Hb Hj) as [_ E1], (slot_bucket b' j' Hb' Hj') as [_ E2].
  assert (Eb : b = b') by congruence. split; [done|]. unfold slot in E. destruct (offset_ok b j Hb Hj) as (E3 & R & _), (offset_ok b' j' Hb' Hj') as (E4 & R' & _).
  rewrite E3, E4 in E. subst b'. lia.
Qed.

(** All slots of bucket [b] are taken. *)
Definition full (b : Z) : Prop := forall j, 0 <= j < bucket t -> exists e, has l (slot b j) e.

Lemma free_slot_ok b : 0 <= b < tsize t -> forall n j, 0 <= j -> j + Z.of_nat n = bucket t ->
  exists r, free_slot n t l b j = Some r /\
    match r with
    | Some i => j <= i < bucket t /\ exists e, l !! slot b i = Some e /\ occupied e = false
    | None => forall i, j <= i < bucket t -> exists e, has l (slot b i) e
    end.
Proof.
  intros Hb. induction n as [|n IH]; intros j H0 Hj; cbn [free_slot]; [exists None; split; [done|]; lia|].
  destruct (slot_some b j Hb ltac:(lia)) as [e He]. rewrite He, bind_some. destruct (occupied e) eqn:Eo; cbn [negb].
  - destruct (IH (j + 1)) as (r & -> & Hr); [lia|lia|]. exists r. split; [done|]. destruct r as [i|]; [split; [lia|apply Hr]|].
    intros i Hi. destruct (decide (i = j)) as [->|]; [exists e; by split|]. apply Hr. lia.
  - exists (Some j). split; [done|]. split; [lia|]. by exists e.
Qed.

Lemma free_bucket_ok b : 0 <= b < tsize t ->
  exists r, free_slot (Z.to_nat (bucket t)) t l b 0 = Some r /\
    match r with Some i => 0 <= i < bucket t /\ exists e, l !! slot b i = Some e /\ occupied e = false | None => full b end.
Proof. intros Hb. pose proof bucket_pos. apply (free_slot_ok b Hb); lia. Qed.

(** What is moved: entry [i] of bucket [b], to another bucket it may be in. *)
Definition moves (b i : Z) (l' : list l2_entry) : Prop :=
  0 <= i < bucket t /\ exists e q f, has l (slot b i) e /\ l !! q = Some f /\ occupied f = false /\
    home t (addr e) (Z.of_nat q / bucket t) /\ l' = <[slot b i := clear_occupied e]> (<[q := e]> l).

Lemma try_moving_ok b : 0 <= b < tsize t -> full b -> forall n i, 0 <= i -> i + Z.of_nat n = bucket t ->
  exists r, try_moving crc n t l b i = Some r /\ match r with Some l' => exists k, i <= k /\ moves b k l' | None => True end.
Proof.
  intros Hb Hfull. induction n as [|n IH]; intros i H0 Hi; cbn [try_moving]; [by exists None|].
  destruct (Hfull i ltac:(lia)) as (e & He & Ho). unfold slot in He. rewrite He, bind_some. unfold l2_hash. fold (primary t (addr e)). fold (alternate t (addr e)).
  destruct (alternate_ok (addr e)) as (v & Ev & Hv). rewrite Ev, bind_some. destruct (_ || _); [by exists None|].
  destruct (free_bucket_ok v Hv) as (r & -> & Hr). rewrite bind_some. destruct r as [j|].
  - destruct Hr as (Hj & f & Hf & Hof). eexists (Some _). split; [done|]. exists i. split; [lia|]. split; [lia|]. exists e, (slot v j), f.
    split; [by split|]. split; [done|]. split; [done|]. split; [|done]. destruct (slot_bucket v j Hv Hj) as [_ ->]. by right.
  - destruct (IH (i + 1)) as (r & -> & Hr'); [lia|lia|]. exists r. split; [done|]. destruct r as [l'|]; [|done]. destruct Hr' as (k & Hk & Hm). exists k. split; [lia|done].
Qed.

(** [l2_find_slot]: a free slot, none, or slot 0 after a move. *)
Lemma l2_find_slot_ok a : exists r, l2_find_slot crc t a = Some r /\
  match r with
  | None => full (primary t a)
  | Some (l', b, j) => b = primary t a /\
      ((l' = l /\ 0 <= j < bucket t /\ forall e, ~ has l (slot b j) e) \/ (j = 0 /\ full b /\ exists k, moves b k l'))
  end.
Proof.
  unfold l2_find_slot. rewrite (k_table _ _ K), bind_some. unfold l2_hash. fold (primary t a). pose proof (primary_range a) as Hb.
  destruct (free_bucket_ok (primary t a) Hb) as (r & -> & Hr). rewrite bind_some. destruct r as [j|].
  - eexists. split; [done|]. split; [done|]. left. split; [done|]. destruct Hr as (Hj & e & He & Ho). split; [done|]. intros f [Hf Hof]. congruence.
  - pose proof bucket_pos. destruct (try_moving_ok (primary t a) Hb Hr (Z.to_nat (bucket t)) 0) as (r & -> & Hm); [lia|lia|]. rewrite bind_some.
    destruct r as [l'|]; eexists; (split; [done|]); [|exact Hr]. split; [done|]. right. split; [done|]. split; [done|]. destruct Hm as (k & _ & Hm). by exists k.
Qed.

(** ** Finding an address *)

Lemma find_ok m a : keys_unique l -> holds l m -> bucket t <> 4 -> l2_find crc avx t a = Some (m !! a).
Proof.
  intros U H H4. unfold l2_find. rewrite (k_table _ _ K), bind_some. unfold l2_hash. fold (primary t a). unfold find_in. rewrite (proj2 (Z.eqb_neq _ 4) H4).
  assert (Hin : forall o, (exists e, has l (Z.to_nat o) e /\ addr e = a) -> (e ← l !! Z.to_nat o; Some (Some (gate e))) = Some (m !! a)).
  { intros o (e & He & Ea). rewrite (proj1 He), bind_some. f_equal. symmetry. apply H. eauto. }
  destruct (search_bucket_ok a (primary t a) (primary_range a)) as (r & -> & Hr). rewrite bind_some. destruct r as [o|].
  - destruct Hr as [_ Hr]. pose proof (Hin o Hr) as E. destruct Hr as (e & [He _] & _). rewrite He, bind_some in *. by injection E as <-.
  - rewrite bind_some. fold (alternate t a). destruct (alternate_ok a) as (b & Eb & Hb). rewrite Eb, bind_some.
    destruct (search_bucket_ok a b Hb) as (r & -> & Hr2). rewrite bind_some. destruct r as [o|]; [apply Hin, Hr2|]. f_equal. symmetry.
    apply eq_None_not_Some. intros [g (i & e & Hi & Ea & _)%H]. destruct (k_entry _ _ K i e Hi) as [E|E]; rewrite Ea in E; [by apply (Hr i e)|].
    rewrite Eb in E. injection E as E. by apply (Hr2 i e).
Qed.

(** *** Four slots *)

Lemma word_key e : 0 <= addr e < 2 ^ 48 -> 0 <= gate e < 2 ^ 15 -> Z.land (entry_word e) key_mask = addr e + 2 ^ 63 * b2z (occupied e).
Proof.
  intros Ha Hg. unfold entry_word. assert (Hs : forall b, Z.shiftl (b2z b) 63 = 2 ^ 63 * b2z b) by (by intros []).
  change key_mask with (Z.lor (2 ^ 48 - 1) (Z.shiftl 1 63)).
  rewrite (Z.lor_comm (Z.shiftl (gate e) 48)), Z.lor_assoc, (Z.land_lor_distr_l _ (Z.shiftl (gate e) 48)), (Z.land_lor_distr_l (addr e)).
  assert (E1 : Z.land (addr e) (Z.lor (2 ^ 48 - 1) (Z.shiftl 1 63)) = addr e).
  { rewrite Z.land_lor_distr_r, land_ones_mod, Z.mod_small by lia. rewrite Z.shiftl_1_l. apply Z.bits_inj'. intros n Hn. rewrite Z.lor_spec, Z.land_spec, Z.pow2_bits_eqb by lia.
    destruct (Z.eqb_spec 63 n) as [<-|]; [|by rewrite andb_false_r, orb_false_r]. rewrite andb_true_r. by destruct (Z.testbit (addr e) 63). }
  assert (E2 : Z.land (Z.shiftl (gate e) 48) (Z.lor (2 ^ 48 - 1) (Z.shiftl 1 63)) = 0).
  { rewrite Z.land_lor_distr_r, land_ones_mod by lia. rewrite shiftl_pow2, Z.mod_mul by lia. rewrite Z.lor_0_l. rewrite <- shiftl_pow2 by lia.
    change (Z.shiftl 1 63) with (Z.shiftl (2 ^ 15) 48). rewrite <- Z.shiftl_land. rewrite <- Z.shiftl_1_l at 1. apply Z.shiftl_eq_0_iff; [lia|]. apply Z.bits_inj'.
    intros n Hn. rewrite Z.land_spec, Z.shiftl_1_l, Z.pow2_bits_eqb, Z.bits_0 by lia. destruct (Z.eqb_spec 15 n) as [<-|]; [|apply andb_false_r]. rewrite andb_true_r.
    destruct (decide (gate e = 0)) as [->|]; [done|]. apply Z.bits_above_log2; [lia|]. apply Z.log2_lt_pow2; lia. }
  rewrite E1, E2, Z.lor_0_r, Hs. destruct (occupied e); cbn [b2z]; [|by rewrite Z.mul_0_r, Z.land_0_l, Z.lor_0_r, Z.add_0_r].
  change (Z.land (2 ^ 63 * 1) (Z.lor (2 ^ 48 - 1) (Z.shiftl 1 63))) with (Z.shiftl 1 63). by rewrite lor_shift by lia.
Qed.

Lemma double_small x y : 0 <= x < 2 ^ 48 -> x <> 0 -> 0 <= y < 2 ^ 48 -> forall b, double_eq (x + 2 ^ 63) (y + 2 ^ 63 * b2z b) = b && (x =? y).
Proof.
  intros Hx Hx0 Hy b. unfold double_eq. assert (Hn : forall z b, 0 <= z < 2 ^ 48 -> is_nan (z + 2 ^ 63 * b2z b) = false).
  { intros z b' Hz. unfold is_nan. rewrite shiftr_pow2 by lia. replace ((z + 2 ^ 63 * b2z b') / 2 ^ 52) with (2048 * b2z b') by (destruct b'; cbn [b2z]; dlia). by destruct b'. }
  rewrite (Hn y b Hy). pose proof (Hn x true Hx) as E. change (2 ^ 63 * b2z true) with (2 ^ 63) in E. rewrite E. cbn [negb andb].
  assert (Hm : (x + 2 ^ 63) mod 2 ^ 63 = x) by dlia. rewrite Hm, (proj2 (Z.eqb_neq x 0)) by done. cbn [andb]. rewrite orb_false_r.
  destruct b; cbn [b2z andb]; lia.
Qed.

(** Of a bucket of four, [find_index] sees the first slot. *)
Lemma find_first e a : 0 <= addr e < 2 ^ 48 -> 0 <= gate e < 2 ^ 15 -> 0 <= a < 2 ^ 48 -> avx = false \/ a <> 0 ->
  find_index avx a (words_of e) = if occupied e && (a =? addr e) then 1 else 0.
Proof.
  intros Hae Hge Ha Hz. unfold find_index, find_index_avx, find_index_basic, words_of. cbn [find_word]. rewrite word_key by done.
  assert (El : Z.lor a (2 ^ 63) = a + 2 ^ 63) by (change (2 ^ 63) with (Z.shiftl 1 63) at 1; rewrite lor_shift by lia; lia).
  rewrite !El, !Z.land_0_l. destruct avx.
  - destruct Hz as [?|Hz]; [done|]. rewrite double_small by done. destruct (_ && _); [done|].
    pose proof (double_small a 0 Ha Hz ltac:(lia) false) as E. cbn [b2z andb] in E. change (0 + 2 ^ 63 * 0) with 0 in E. by rewrite E.
  - rewrite (proj2 (Z.eqb_neq (a + 2 ^ 63) 0)) by lia. destruct (occupied e); cbn [b2z andb].
    + destruct (Z.eqb_spec a (addr e)); [rewrite (proj2 (Z.eqb_eq _ _)) by lia; done|]. by rewrite (proj2 (Z.eqb_neq _ _)) by lia.
    + by rewrite (proj2 (Z.eqb_neq _ _)) by lia.
Qed.

Lemma find_four a : bucket t = 4 -> 0 <= a < 2 ^ 48 -> avx = false \/ a <> 0 ->
  exists r, l2_find crc avx t a = Some r /\
    match r with
    | Some g => exists b e, home t a b /\ has l (slot b 0) e /\ addr e = a /\ gate e = g
    | None => forall b e, home t a b -> has l (slot b 0) e -> addr e <> a
    end.
Proof.
  intros H4 Ha Hz. assert (Hin : forall b, 0 <= b < tsize t -> exists r, find_in avx t l a (l2_ib_to_offset t b 0) = Some r /\
    match r with Some g => exists e, has l (slot b 0) e /\ addr e = a /\ gate e = g | None => forall e, has l (slot b 0) e -> addr e <> a end).
  { intros b Hb. unfold find_in. rewrite (proj2 (Z.eqb_eq _ 4) H4). destruct (slot_some b 0 Hb ltac:(lia)) as [e He]. fold (slot b 0) in *. rewrite He, bind_some.
    pose proof (Forall_lookup_1 _ _ _ _ (k_word _ _ K) He) as [W1 W2]. rewrite find_first by done. destruct (offset_ok b 0 Hb ltac:(lia)) as (Eo & R & _).
    pose proof length_small as Hl. change (2 ^ 28) with 268435456 in Hl. destruct (occupied e && (a =? addr e)) eqn:E.
    - apply andb_true_iff in E as [Eocc Ea%Z.eqb_eq]. cbn [Z.eqb]. rewrite wrap_small by lia. replace (l2_ib_to_offset t b 0 + 1 - 1) with (l2_ib_to_offset t b 0) by lia.
      fold (slot b 0). rewrite He, bind_some. eexists. split; [done|]. exists e. split; [by split|done].
    - exists None. split; [done|]. intros f [Hf Hof] Ea. rewrite He in Hf. injection Hf as <-. rewrite Hof, Ea, Z.eqb_refl in E. done. }
  unfold l2_find. rewrite (k_table _ _ K), bind_some. unfold l2_hash. fold (primary t a).
  destruct (Hin (primary t a) (primary_range a)) as (r & -> & Hr). rewrite bind_some. destruct r as [g|].
  - exists (Some g). split; [done|]. destruct Hr as (e & He). exists (primary t a), e. split; [by left|done].
  - fold (alternate t a). destruct (alternate_ok a) as (b & Eb & Hb). rewrite Eb, bind_some. destruct (Hin b Hb) as (r & -> & Hr2). exists r. split; [done|]. destruct r as [g|].
    + destruct Hr2 as (e & He). exists b, e. split; [by right|done].
    + intros b' e [->|E] He; [by apply Hr|]. rewrite Eb in E. injection E as <-. by apply Hr2.
Qed.

End Table.

(** What an insertion does to the map, when the address is not there: nothing for want of
    room; an entry more; or, with two slots, an entry more for one lost. *)
Definition added (t : l2_table) (l : list l2_entry) (m : gmap Z Z) (a g : Z) (t' : l2_table) (ret : Z) : Prop :=
  (ret = - ENOMEM /\ t' = t /\ full t l (primary t a)) \/
  (ret = 0 /\ exists l' lost, table_ok t' l' /\ keys_unique l' /\
    holds l' (<[a := wrap 15 g]> (from_option (fun x => delete x m) m lost)) /\ tsize t' = tsize t /\ bucket t' = bucket t /\
    match lost with Some x => bucket t <> 1 /\ full t l (primary t a) /\ exists e, has l (slot t (primary t a) 0) e /\ addr e = x | None => True end).

Lemma add_entry_ok t l m a g : table_ok t l -> keys_unique l -> holds l m -> 0 <= a < 2 ^ 48 -> m !! a = None ->
  l2_find crc avx t a = Some None ->
  exists t' ret, l2_add_entry crc avx t a g = Some (t', ret) /\ added t l m a g t' ret.
Proof.
  intros K U H Ha Hm Hf. unfold l2_add_entry. rewrite Hf, bind_some. destruct (l2_find_slot_ok t l K a) as (r & -> & Hr). rewrite bind_some.
  destruct r as [[[l' b] j]|]; [|exists t, (- ENOMEM); split; [done|]; by left]. destruct Hr as [-> Hr]. pose proof (primary_range t l K a) as Hb.
  pose proof (bucket_pos t l K) as HB. change (Z.to_nat (l2_ib_to_offset t (primary t a) j)) with (slot t (primary t a) j).
  destruct Hr as [(-> & Hj & Hfree)|(-> & Hfull & k & Hk & e & q & f & Hpe & Hq & Hof & Hh & ->)].
  - destruct (slot_bucket t l K (primary t a) j Hb Hj) as [Hp Ed]. rewrite option_guard_True by done. eexists _, 0. split; [done|]. right. split; [done|].
    destruct (l2_put_ok t l K m (slot t (primary t a) j) a g U H Hp Ha) as (K' & U' & lost & H' & Hl); [by left|done|].
    destruct lost as [x|]; [destruct Hl as (e & He & _); by destruct (Hfree e)|]. eexists _, None. split; [apply K'|]. done.
  - destruct (slot_bucket t l K (primary t a) 0 Hb ltac:(lia)) as [Hp Ed].
    destruct (move_ok t l K m (slot t (primary t a) k) q e f U H Hpe Hq Hof Hh) as (K1 & U1 & H1 & Eh). set (l1 := <[_ := clear_occupied e]> _) in *.
    assert (Hp1 : (slot t (primary t a) 0 < length l1)%nat) by (unfold l1; rewrite !length_insert; done).
    rewrite option_guard_True by done. eexists _, 0. split; [done|]. right. split; [done|].
    destruct (l2_put_ok (with_slots l1 t) l1 K1 m (slot t (primary t a) 0) a g U1 H1 Hp1 Ha) as (K' & U' & lost & H' & Hl); [left; exact Ed|done|].
    eexists _, lost. split; [apply K'|]. split; [done|]. split; [done|]. split; [done|]. split; [done|]. destruct lost as [x|]; [|done].
    destruct Hl as (e' & He' & Ex). apply Eh in He' as [[Eq _]|(Hne & _ & He')].
    + exfalso. destruct (Hfull 0 ltac:(lia)) as (e2 & He2 & Ho2). rewrite Eq in He2. congruence.
    + split; [|split; [done|by exists e']]. intros HB1. apply Hne. f_equal. lia.
Qed.

Lemma del_entry_ok t l m a : table_ok t l -> keys_unique l -> holds l m ->
  exists t' ret, l2_del_entry crc t a = Some (t', ret) /\
    if decide (is_Some (m !! a)) then ret = 0 /\ exists l', table_ok t' l' /\ keys_unique l' /\ holds l' (delete a m) /\ tsize t' = tsize t /\ bucket t' = bucket t
    else ret = - ENOENT /\ t' = t.
Proof.
  intros K U H. unfold l2_del_entry. destruct (find_offset_ok t l K a) as (r & -> & Hr). rewrite bind_some. destruct r as [o|].
  - destruct Hr as (e & He & <-). rewrite (k_table _ _ K), bind_some. eexists _, 0. split; [done|].
    rewrite decide_True by (exists (gate e); apply H; eauto). split; [done|].
    destruct (drop_ok t l K m (Z.to_nat o) e U H He) as (K' & U' & H'). eexists. split; [apply K'|]. done.
  - exists t, (- ENOENT). split; [done|]. rewrite decide_False; [done|]. intros [g (i & e & Hi & Ea & _)%H]. by apply (Hr i e).
Qed.

Lemma flush_ok t l : table_ok t l -> exists t' l', l2_flush t = (t', 0) /\ table_ok t' l' /\ keys_unique l' /\ holds l' ∅ /\ tsize t' = tsize t /\ bucket t' = bucket t /\ count t' = count t.
Proof.
  intros K. unfold l2_flush. rewrite (k_table _ _ K). assert (Hno : forall i e, ~ has (replicate (length l) no_entry) i e) by (intros i e [[-> _]%lookup_replicate ?]; done).
  eexists _, _. split; [done|]. split; [apply (table_ok_slots t l K (count t)); [apply length_replicate|by apply Forall_replicate|by intros i e ?%Hno]|].
  split; [by intros i j e f ?%Hno|]. split; [|done]. intros a g. rewrite lookup_empty. split; [done|]. by intros (i & e & ?%Hno & _).
Qed.

Lemma l2_process_ok t l m dg batch : table_ok t l -> keys_unique l -> holds l m -> bucket t <> 4 ->
  ProcessBatch crc avx (L2 t dg) batch = Some ((fun head => default dg (m !! Z.land head 281474976710655)) <$> batch).
Proof.
  intros K U H H4. induction batch as [|x batch IH]; [done|]. cbn [ProcessBatch l2_table_]. rewrite (find_ok t l K m _ U H H4), bind_some, IH, bind_some. done.
Qed.

(** ** Addresses as text *)

Definition hex_char (d : Z) : Ascii.ascii := Ascii.ascii_of_N (Z.to_N (if d <? 10 then 48 + d else 87 + d)).
Definition byte_string (b : Z) : string := String (hex_char (b / 16)) (String (hex_char (b mod 16)) "").

(** The bytes with colons between them. *)
Fixpoint mac_string (l : list Z) : string :=
  match l with
  | [] => ""
  | [b] => byte_string b
  | b :: l => (byte_string b +:+ String ":"%char (mac_string l))%string
  end.

Definition bytes_ok (l : list Z) : Prop := Forall (fun b => 0 <= b < 256) l.

Lemma hex_ok d : 0 <= d < 16 -> hex_digit (hex_char d) = Some d /\ is_space (hex_char d) = false.
Proof.
  intros Hd. assert (H : forallb (fun d => bool_decide (hex_digit (hex_char d) = Some d) && negb (is_space (hex_char d))) (Z.of_nat <$> seq 0 16) = true) by (by vm_compute).
  rewrite forallb_forall in H. specialize (H d). rewrite <- list_elem_of_In, list_elem_of_fmap in H.
  assert (E : bool_decide (hex_digit (hex_char d) = Some d) && negb (is_space (hex_char d)) = true).
  { apply H. exists (Z.to_nat d). rewrite elem_of_seq. lia. }
  apply andb_true_iff in E as [E1%bool_decide_eq_true E2%negb_true_iff]. done.
Qed.

Lemma scan_byte b s : 0 <= b < 256 -> scan_hhx (byte_string b +:+ s)%string = Some (b, s).
Proof.
  intros Hb. assert (Hd : 0 <= b / 16 < 16) by dlia. assert (Hm : 0 <= b mod 16 < 16) by dlia.
  destruct (hex_ok _ Hd) as [E1 E2], (hex_ok _ Hm) as [E3 _]. change (byte_string b +:+ s)%string with (String (hex_char (b / 16)) (String (hex_char (b mod 16)) s)).
  unfold scan_hhx. cbn [skip_space]. rewrite E2, E1, E3.
  repeat f_equal. dlia.
Qed.

Lemma scan_bytes_cons n s : scan_bytes (S (S n)) s = '(b, s) ← scan_hhx s;
  match s with String c s => guard (c = ":"%char);; l ← scan_bytes (S n) s; Some (b :: l) | EmptyString => None end.
Proof. done. Qed.

Lemma scan_bytes_ok : forall l, l <> [] -> bytes_ok l -> scan_bytes (length l) (mac_string l) = Some l.
Proof.
  induction l as [|b l IH]; [done|]. intros _ [Hb Hl]%Forall_cons. destruct l as [|b' l].
  - cbn [length scan_bytes mac_string]. replace (byte_string b) with (byte_string b +:+ "")%string by done. by rewrite scan_byte.
  - change (mac_string (b :: b' :: l)) with (byte_string b +:+ String ":"%char (mac_string (b' :: l)))%string. cbn [length].
    rewrite scan_bytes_cons, scan_byte by done. rewrite bind_some, option_guard_True by done. change (S (length l)) with (length (b' :: l)).
    by rewrite IH by done.
Qed.

Lemma le_value_range l : bytes_ok l -> 0 <= le_value l < 256 ^ Z.of_nat (length l).
Proof.
  induction 1 as [|b l Hb Hl IH]; [cbn; lia|]. cbn [le_value length]. rewrite Nat2Z.inj_succ, Z.pow_succ_r by lia. lia.
Qed.

Lemma le_value_app l k : le_value (l ++ k) = le_value l + 256 ^ Z.of_nat (length l) * le_value k.
Proof. induction l as [|b l IH]; [cbn [app le_value length]; lia|]. cbn [app le_value length]. rewrite IH, Nat2Z.inj_succ, Z.pow_succ_r by lia. lia. Qed.

Lemma addr_value l : length l = 6%nat -> bytes_ok l -> l2_addr_to_u64 l = le_value l /\ 0 <= le_value l < 2 ^ 48.
Proof.
  intros El Hl. split; [|pose proof (le_value_range l Hl) as H; rewrite El in H; exact H]. unfold l2_addr_to_u64.
  assert (H4 : bytes_ok (take 4 l)) by (by apply Forall_take). pose proof (le_value_range _ H4) as R. rewrite length_take, El in R.
  rewrite lor_shift; [|lia|exact R]. rewrite <- (take_drop 4 l) at 3. rewrite le_value_app, length_take, El.
  rewrite (take_ge (drop 4 l)) by (rewrite length_drop; lia). change (256 ^ Z.of_nat (4 `min` 6)) with (2 ^ 32). lia.
Qed.

(** The address of a packet, the first six of its bytes. *)
Lemma head_value l rest : length l = 6%nat -> bytes_ok l -> 0 <= rest -> Z.land (le_value l + 2 ^ 48 * rest) 281474976710655 = le_value l.
Proof.
  intros El Hl Hr. destruct (addr_value l El Hl) as [_ R]. change 281474976710655 with (2 ^ 48 - 1). rewrite land_ones_mod by lia.
  rewrite Z.mul_comm, Z.mod_add by lia. by apply Z.mod_small.
Qed.

Lemma command_add_ok t dg l g : length l = 6%nat -> bytes_ok l ->
  CommandAdd crc avx [(mac_string l, g)] (L2 t dg) = ('(t', r) ← l2_add_entry crc avx t (le_value l) (u16 g); Some (L2 t' dg, - r)).
Proof.
  intros El Hl. cbn [CommandAdd]. assert (E0 : String.eqb (mac_string l) "" = false) by (destruct l as [|b [|b' l]]; done). rewrite E0.
  assert (Ep : parse_mac_addr (mac_string l) = Some l).
  { unfold parse_mac_addr. rewrite <- El. apply scan_bytes_ok; [|done]. by destruct l. }
  rewrite Ep. destruct (addr_value l El Hl) as [-> _]. destruct (l2_add_entry _ _ _ _ _) as [[t' r]|]; [|done]. rewrite !bind_some.
  destruct (r =? 0) eqn:Er; [|done]. apply Z.eqb_eq in Er as ->. done.
Qed.

(** C34. With one or two slots a bucket, the table that holds a finite map answers lookups as
    the map, whatever the hash function.  [l2_add_entry] refuses an address that is there;
    for another it fails only if the bucket is full and then changes nothing, or the table
    holds the updated map, less, with two slots, the entry in the first slot when another was
    moved; [l2_del_entry] and [l2_flush] are deletion and clearing; every packet of a batch
    leaves by the gate of its address or the default gate.  An address added as text is that
    of the packets that begin with its bytes. *)
Theorem l2_table_refines t l m : table_ok t l -> keys_unique l -> holds l m -> bucket t <> 4 ->
  (forall a, l2_find crc avx t a = Some (m !! a)) /\
  (forall a g, 0 <= a < 2 ^ 48 -> exists t' ret, l2_add_entry crc avx t a g = Some (t', ret) /\
    if decide (is_Some (m !! a)) then ret = - EEXIST /\ t' = t else added t l m a g t' ret) /\
  (forall a, exists t' ret, l2_del_entry crc t a = Some (t', ret) /\
    if decide (is_Some (m !! a)) then ret = 0 /\ exists l', table_ok t' l' /\ keys_unique l' /\ holds l' (delete a m) /\ tsize t' = tsize t /\ bucket t' = bucket t
    else ret = - ENOENT /\ t' = t) /\
  (exists t' l', l2_flush t = (t', 0) /\ table_ok t' l' /\ keys_unique l' /\ holds l' ∅ /\ tsize t' = tsize t /\ bucket t' = bucket t /\ count t' = count t) /\
  (forall dg batch, ProcessBatch crc avx (L2 t dg) batch = Some ((fun head => default dg (m !! Z.land head 281474976710655)) <$> batch)) /\
  (forall bytes g dg mod', length bytes = 6%nat -> bytes_ok bytes -> CommandAdd crc avx [(mac_string bytes, g)] (L2 t dg) = Some (mod', 0) ->
    forall rest, 0 <= rest -> ProcessBatch crc avx mod' [le_value bytes + 2 ^ 48 * rest] = Some [wrap 15 (u16 g)]).
Proof.
  intros K U H H4.
  assert (Hadd : forall a g, 0 <= a < 2 ^ 48 -> exists t' ret, l2_add_entry crc avx t a g = Some (t', ret) /\
    if decide (is_Some (m !! a)) then ret = - EEXIST /\ t' = t else added t l m a g t' ret).
  { intros a g Ha. pose proof (find_ok t l K m a U H H4) as Hf. destruct (decide (is_Some (m !! a))) as [[v Hv]|Hv].
    - exists t, (- EEXIST). unfold l2_add_entry. by rewrite Hf, Hv, bind_some.
    - apply eq_None_not_Some in Hv. rewrite Hv in Hf. by apply add_entry_ok. }
  split; [intros a; by apply (find_ok t l)|]. split; [exact Hadd|]. split; [intros a; by apply (del_entry_ok t l)|]. split; [by apply (flush_ok t l)|].
  split; [intros dg batch; by apply (l2_process_ok t l)|]. intros bytes g dg mod' El Hl Hc rest Hr. rewrite command_add_ok in Hc by done.
  destruct (Hadd (le_value bytes) (u16 g)) as (t' & ret & Ha & Hcase); [by apply addr_value|]. rewrite Ha, bind_some in Hc. injection Hc as <- Hret.
  destruct (decide (is_Some (m !! le_value bytes))); [destruct Hcase as [-> _]; done|]. destruct Hcase as [[-> _]|(_ & l' & lost & K' & U' & H' & _ & Eb & _)]; [done|].
  rewrite (l2_process_ok t' l' _ dg _ K' U' H') by congruence. cbn [fmap list_fmap]. rewrite head_value by done. by rewrite lookup_insert_eq.
Qed.

End Spec.

(** ** On concrete tables *)

Definition demo_crc (a : Z) : Z := u32 a.
Definition blank : l2_table := Table None 0 0 0 0.
Definition demo_table (size buckets : Z) : l2_table := (l2_init true size buckets blank).1.

Lemma demo_ok : exists l, table_ok demo_crc (demo_table 4 2) l /\ keys_unique l /\ holds l ∅.
Proof. pose proof (l2_init_ok demo_crc true 4 2 blank) as [_ H]. apply H. lia. Qed.

(** A new table of 4 buckets of two slots: nothing is found, an address can be added and deleted. *)
Lemma l2_table_refines_witness :
  l2_find demo_crc true (demo_table 4 2) 7 = Some None /\
  (exists t', l2_add_entry demo_crc true (demo_table 4 2) 7 5 = Some (t', 0) /\ exists l', table_ok demo_crc t' l' /\ holds l' {[ 7 := 5 ]}) /\
  l2_del_entry demo_crc (demo_table 4 2) 7 = Some (demo_table 4 2, - ENOENT).
Proof.
  destruct demo_ok as (l & K & U & H). destruct (l2_table_refines demo_crc true (demo_table 4 2) l ∅ K U H) as (F & A & D & _); [done|].
  split; [by rewrite F|]. split.
  - destruct (A 7 5 ltac:(lia)) as (t' & ret & E & Hc). assert (Hr : ret = 0) by (vm_compute in E; by injection E as _ <-). subst ret.
    rewrite decide_False in Hc by (rewrite lookup_empty; by intros []). exists t'. split; [exact E|].
    destruct Hc as [[? _]|(_ & l' & lost & K' & _ & H' & _ & _ & Hlost)]; [done|]. exists l'. split; [done|].
    destruct lost as [x|]; [|exact H']. exfalso. destruct Hlost as (_ & _ & e & [He Ho] & _). pose proof (k_table _ _ _ K) as Kt.
    vm_compute in Kt. injection Kt as <-. vm_compute in He. injection He as <-. done.
  - destruct (D 7) as (t' & ret & E & Hc). rewrite decide_False in Hc by (rewrite lookup_empty; by intros []). destruct Hc as [-> ->]. exact E.
Defined.

(** The addresses and gates of the slots that are taken. *)
Definition taken (t : l2_table) : list (Z * Z) :=
  match table t with Some l => (fun e => (addr e, gate e)) <$> filter (fun e => occupied e = true) l | None => [] end.

Definition added_all (t : l2_table) (l : list (Z * Z)) : option (l2_table * list Z) :=
  foldl (fun st '(a, g) => '(t, rs) ← st; '(t, r) ← l2_add_entry demo_crc false t a g; Some (t, rs ++ [r])) (Some (t, [])) l.

(** Four slots, the default: the second address of a bucket is added but not found, and can
    be added again. *)
Lemma second_slot_unseen :
  ('(t, rs) ← added_all (demo_table 4 4) [(1, 10); (5, 20); (5, 30)]; r ← l2_find demo_crc false t 5; Some (rs, r, taken t)) =
  Some ([0; 0; 0], None, [(1, 10); (5, 20); (5, 30)]).
Proof. by vm_compute. Qed.

(** With AVX the address 0 is found in an empty table of four slots: -0.0 equals 0.0. *)
Lemma zero_found : l2_find demo_crc true (demo_table 4 4) 0 = Some (Some 0) /\ l2_find demo_crc false (demo_table 4 4) 0 = Some None.
Proof. by vm_compute. Qed.

(** A table of a single bucket is accepted, and an address that is not there leads to a shift by -1. *)
Lemma one_bucket_undefined : (l2_init true 1 1 blank).2 = 0 /\ l2_find demo_crc false (demo_table 1 1) 1 = None.
Proof. by vm_compute. Qed.

(** Two slots: 3 cannot give way, 7 is moved, and 11 is written over 3. *)
Lemma entry_lost :
  ('(t, rs) ← added_all (demo_table 4 2) [(4, 1); (8, 2); (3, 3); (7, 4); (11, 5)]; r ← l2_find demo_crc false t 3; Some (rs, r, taken t, count t)) =
  Some ([0; 0; 0; 0; 0], None, [(4, 1); (8, 2); (7, 4); (11, 5)], 5).
Proof. by vm_compute. Qed.

(** [populate] from aa:bb:cc:dd:ee:ff adds 00:00:aa:bb:cc:dd; with no gates it divides by zero. *)
Lemma populate_shifted :
  ('(m, r) ← CommandPopulate demo_crc false "aa:bb:cc:dd:ee:ff" 1 1 (L2 (demo_table 4 2) 0); Some (taken (l2_table_ m), r)) =
  Some ([(le_value [0; 0; 170; 187; 204; 221], 0)], 0) /\
  CommandPopulate demo_crc false "aa:bb:cc:dd:ee:ff" 1 0 (L2 (demo_table 4 2) 0) = None.
Proof. by vm_compute. Qed.
