(* ===== verification/NatModule.v ===== *)
(** * Network address translation: [modules/nat.cc], [modules/nat.h]

    A table maps internal endpoints (address, port, protocol) to external ones and
    back.  A packet that leaves has its source replaced by the external endpoint,
    a new one if need be; a packet that comes in has its destination replaced.

    A packet is the list of its bytes from the IP header on; addresses and ports
    are as they are in memory, and [bswap16] gives the value of a port.  The table
    is reached through [NatTable], which the hash table of [Cuckoo.v] implements.
    The hash of addresses is that of DPDK ([rte_hash_crc]), an argument.  A fault
    is [Null] (a null pointer, or an access behind the packet) or [Refused]
    (the table has no place for an entry). *)

From Stdlib Require Import NArith Strings.Byte Ascii.
From stdpp Require Import strings gmap.
From S2P Require Import Prelude Cuckoo Checksum Addresses.

#[local] Open Scope N_scope.

(** ** Endpoints *)

Record Endpoint := EP { e_addr : N; e_port : N; e_proto : N }.
Record NatEntry := NE { endpoint : Endpoint; last_refresh : N }.
Record PortRange := PR { p_begin : N; p_end : N; suspended : bool }.

#[export] Instance Endpoint_eq_dec : EqDecision Endpoint.
Proof. solve_decision. Defined.
#[export] Instance Endpoint_countable : Countable Endpoint :=
  inj_countable' (fun e => (e_addr e, e_port e, e_proto e)) (fun '(a, p, k) => EP a p k) ltac:(by intros []).

Definition kTcp : N := 6.
Definition kUdp : N := 17.
Definition kIcmp : N := 1.
Definition kTimeOutNs : N := 300 * 1000 * 1000 * 1000.
Definition kMaxTrials : nat := 128.

(** How many insertions gave a null pointer, which the module looks at for one of
    the two entries of a mapping only, and the value unless there was a fault: a
    null pointer used, bytes behind the packet, a table beyond its bounds. *)
Definition nres (A : Type) : Type := nat * option A.
Definition nret {A} (a : A) : nres A := (O, Some a).
Definition nbind {A B} (f : A -> nres B) (x : nres A) : nres B :=
  match x with
  | (n, Some a) => let '(m, r) := f a in ((n + m)%nat, r)
  | (n, None) => (n, None)
  end.
Definition deref {A} (x : option A) : nres A := (O, x).

Declare Scope nat_res_scope.
Notation "x ←? e ; f" := (nbind (fun x => f) e) (at level 20, e at level 100, f at level 200, only parsing) : nat_res_scope.
Notation "' pat ←? e ; f" := (nbind (fun x => match x with pat => f end) e)
  (at level 20, pat pattern, e at level 100, f at level 200, only parsing) : nat_res_scope.
#[local] Open Scope nat_res_scope.

(** ** The table *)

Class NatTable (T : Type) := {
  n_find : T -> Endpoint -> option (option NatEntry);
  n_insert : T -> Endpoint -> NatEntry -> option (bool * T);
  n_remove : T -> Endpoint -> option T;
  n_set : T -> Endpoint -> NatEntry -> option T
}.

(** What the module relies on; [n_insert] says whether it had a place for the entry. *)
Class NatTableLaws (T : Type) `{NatTable T} := {
  n_rep : T -> gmap Endpoint NatEntry -> Prop;
  n_find_ok : forall t M k, n_rep t M -> n_find t k = Some (M !! k);
  n_insert_ok : forall t M k v t', n_rep t M -> n_insert t k v = Some (true, t') -> n_rep t' (<[k := v]> M);
  n_remove_ok : forall t M k, n_rep t M -> exists t', n_remove t k = Some t' /\ n_rep t' (delete k M);
  n_set_ok : forall t M k v, n_rep t M -> is_Some (M !! k) -> exists t', n_set t k v = Some t' /\ n_rep t' (<[k := v]> M)
}.

(** [CuckooMap<Endpoint, NatEntry, Endpoint::Hash, Endpoint::EqualTo>]; [n] bounds how
    deep tables are nested, 2^31 how many entries there are, and [n_set] writes
    through the pointer that [Find] gives. *)
Section Table.
Context (crc64 : Z -> Z).     (* crc32c_sse42_u64(_, 0) *)

Definition endpoint_hash (e : Endpoint) : Z :=
  crc64 (Z.lor (Z.lor (Z.shiftl (Z.of_N (e_addr e)) 32) (Z.shiftl (Z.of_N (e_port e)) 16)) (Z.of_N (e_proto e))).

Definition no_endpoint : Endpoint := EP 0 0 0.
Definition NatMap : Type := CuckooMap Endpoint NatEntry.

Definition no_nat_entry : Endpoint * NatEntry := (no_endpoint, NE no_endpoint 0).

Definition set_value (m : NatMap) (k : Endpoint) (v : NatEntry) : option NatMap :=
  i ← FindWithHash m (Hash endpoint_hash k) k;
  e ← entry_at m i;
  Some (set_entries (<[Z.to_nat i := (e.1, v)]> (entries m)) m).

Definition cuckoo_nat (n : nat) : NatTable NatMap := {|
  n_find (m : NatMap) k := match Find endpoint_hash m k with Some (Some e) => Some (Some e.2) | Some None => Some None | None => None end;
  n_insert (m : NatMap) k v :=
    guard (Z.of_nat (length (entries m)) < 2 ^ 31)%Z;;
    '(e, m) ← Insert endpoint_hash no_nat_entry (fun v => v) n m k v;
    Some (negb (e =? -1)%Z, m);
  n_remove (m : NatMap) k := match Remove endpoint_hash no_nat_entry m k with Some (_, m) => Some m | None => None end;
  n_set := set_value
|}.
End Table.

(** ** Random numbers: [random.h] *)

(** A number in double precision: 53 bits, the nearest, in doubt the even one. *)
Definition round53 (x : N) : N :=
  let k := N.size x - 53 in
  if k =? 0 then x
  else
    let q := x / 2 ^ k in let r := x mod 2 ^ k in let half := 2 ^ (k - 1) in
    (if (r <? half) || ((r =? half) && N.even q) then q else q + 1) * 2 ^ k.

(** The double [1.(b0)(b1)...] minus 1, times [range], truncated. *)
Definition GetRange (range seed : N) : N * N :=
  let seed := (seed * 1103515245 + 12345) mod 2 ^ 64 in
  (round53 (N.shiftr seed 12 * range) / 2 ^ 52, seed).

(** ** The module *)

Record nat_state (T : Type) := NatState { map_ : T; rng_ : N }.
Arguments NatState {T}. Arguments map_ {T}. Arguments rng_ {T}.

Inductive Direction := kForward | kReverse.

(** ** Initialisation *)

(** [NATArg]: addresses with the ranges of their ports. *)
Definition nat_arg : Type := list (string * list (N * N * bool)).

Definition EINVAL : Z := 22.

Definition malformed (r : N * N * bool) : bool :=
  let '(b, e, _) := r in (e <=? b) || (65535 <? b) || (65535 <? e).

Definition port_list (ranges : list (N * N * bool)) : list PortRange :=
  (match ranges with [] => [PR 0 65535 false] | _ => [] end) ++ map (fun '(b, e, s) => PR b e s) ranges.

(** Sorted by value: [std::sort] with [BigEndian::operator<]. *)
Fixpoint insert_addr (a : N) (l : list N) : list N :=
  match l with
  | [] => [a]
  | b :: l' => if bswap32 b <? bswap32 a then b :: insert_addr a l' else a :: l
  end.
Definition sort_addrs (l : list N) : list N := foldr insert_addr [] l.

(** [ext_addrs_] and [port_ranges_], or an error. *)
Fixpoint read_ranges (arg : nat_arg) : Z + (list N * list (list PortRange)) :=
  match arg with
  | [] => inr ([], [])
  | (a, ranges) :: arg =>
      match ParseIpv4Address a with
      | None => inl EINVAL
      | Some x => match read_ranges arg with inl e => inl e | inr (xs, rs) => inr (x :: xs, port_list ranges :: rs) end
      end
  end.

Definition Init (arg : nat_arg) : Z + (list N * list (list PortRange)) :=
  if existsb (fun x => existsb malformed x.2) arg then inl EINVAL
  else
    match read_ranges arg with
    | inl e => inl e
    | inr ([], _) => inl EINVAL
    | inr (xs, rs) => inr (sort_addrs xs, rs)
    end.

Definition GetInitialArg (ext_addrs_ : list N) (port_ranges_ : list (list PortRange)) : option nat_arg :=
  mapM (fun '(i, a) => l ← port_ranges_ !! i; Some (ToIpv4Address a, map (fun r => (p_begin r, p_end r, suspended r)) l))
    (imap pair ext_addrs_).

Definition GetDesc (m : NatMap) : string := (print_u (Z.to_N (Count m) / 2) +:+ " entries")%string.

(** ** Packets *)

Definition put16 (off : nat) (v : N) (p : list byte) : option (list byte) := guard (off + 2 <= length p)%nat;; Some (store16 off v p).
Definition put32 (off : nat) (v : N) (p : list byte) : option (list byte) := guard (off + 4 <= length p)%nat;; Some (store32 off v p).

(** Where an address and a port are, for a direction. *)
Definition addr_at (dir : Direction) : nat := match dir with kForward => 12 | kReverse => 16 end.
Definition port_at (dir : Direction) : nat := match dir with kForward => 0 | kReverse => 2 end.

Definition echo_like (type : N) : bool := (type =? 0) || (type =? 8) || (type =? 13) || (type =? 15) || (type =? 16).

(** [None] inside: not a protocol that is translated. *)
Definition ExtractEndpoint (ip : list byte) (l4 : nat) (dir : Direction) : option (option Endpoint) :=
  proto ← load 1 9 ip;
  if (proto =? kTcp) || (proto =? kUdp) then
    a ← load 4 (addr_at dir) ip;
    p ← load 2 (l4 + port_at dir) ip;
    Some (Some (EP a p proto))
  else if proto =? kIcmp then
    type ← load 1 l4 ip;
    if echo_like type then
      a ← load 4 (addr_at dir) ip;
      p ← load 2 (l4 + 4) ip;
      Some (Some (EP a p kIcmp))
    else Some None
  else Some None.

Definition Stamp (dir : Direction) (ip : list byte) (l4 : nat) (before after : Endpoint) : option (list byte) :=
  proto ← load 1 9 ip;
  ip ← put32 (addr_at dir) (e_addr after) ip;
  let l3_increment := ChecksumIncrement32 (e_addr before) (e_addr after) in
  c ← load 2 10 ip;
  ip ← put16 10 (UpdateChecksumWithIncrement c l3_increment) ip;
  let l4_increment := (l3_increment + ChecksumIncrement16 (e_port before) (e_port after)) mod 2 ^ 32 in
  if (proto =? kTcp) || (proto =? kUdp) then
    ip ← put16 (l4 + port_at dir) (e_port after) ip;
    if proto =? kTcp then
      c ← load 2 (l4 + 16) ip;
      put16 (l4 + 16) (UpdateChecksumWithIncrement c l4_increment) ip
    else
      c ← load 2 (l4 + 6) ip;
      if c =? 0 then Some ip
      else let u := UpdateChecksumWithIncrement c l4_increment in put16 (l4 + 6) (if u =? 0 then 65535 else u) ip
  else
    ip ← put16 (l4 + 4) (e_port after) ip;
    c ← load 2 (l4 + 2) ip;
    put16 (l4 + 2) (UpdateChecksum16 c (e_port before) (e_port after)) ip.

(** ** Translation *)

Section Translation.
Context {T : Type} `{NatTable T} (crc : N -> N) (garbage : Endpoint -> N).
Context (ext_addrs_ : list N) (port_ranges_ : list (list PortRange)).
Implicit Types (t : T).

(** Ports to try in a range: give up, try the next range, or [range] ports from [min] on. *)
Inductive choice := Ignore | Skip | Use (min range : N).

Definition choose_range (internal : Endpoint) (r : PortRange) : choice :=
  if suspended r then Skip
  else if e_proto internal =? kIcmp then Use (p_begin r) ((p_end r + 2 ^ 16 - p_begin r) mod 2 ^ 16)
  else if e_port internal =? 0 then Ignore
  else if negb (N.land (bswap16 (e_port internal)) (65535 - 1023) =? 0) then
    if p_end r <=? 1024 then Skip
    else let min := N.max 1024 (p_begin r) in Use min ((p_end r + 2 ^ 16 - min + 1) mod 2 ^ 16)
  else if 1023 <=? p_begin r then Skip
  else Use (p_begin r) ((N.min 1023 (p_end r) + 2 ^ 16 - p_begin r) mod 2 ^ 16).

Definition expired (now : N) (e : NatEntry) : bool := kTimeOutNs <? (now + 2 ^ 64 - last_refresh e) mod 2 ^ 64.

Definition Insert_ (k : Endpoint) (v : NatEntry) t : nres (bool * T) :=
  match n_insert t k v with
  | Some (true, t) => nret (true, t)
  | Some (false, t) => (1%nat, Some (false, t))
  | None => (1%nat, None)
  end.

(** Both entries, with no time yet, from the label [found] on. *)
Definition install (internal external : Endpoint) t : nres (option NatEntry * T) :=
  '(_, t) ←? Insert_ external (NE internal (garbage external)) t;
  '(b, t) ←? Insert_ internal (NE external (garbage internal)) t;
  nret (if (b : bool) then Some (NE external (garbage internal)) else None, t).

(** The ports from [port] on, [n] of them at most, until [start] comes again; [None]
    is the next range, [Some] what the function returns. *)
Fixpoint probe (n : nat) (internal : Endpoint) (addr min range start port now : N) t : nres (option (option NatEntry) * T) :=
  match n with
  | O => nret (None, t)
  | S n =>
      let external := EP addr (bswap16 port) (e_proto internal) in
      f ←? deref (n_find t external);
      match f with
      | None => '(e, t) ←? install internal external t; nret (Some e, t)
      | Some reverse =>
          g ←? deref (n_find t (endpoint reverse));
          forward ←? deref g;
          if expired now forward then
            t ←? deref (n_remove t (endpoint reverse));
            t ←? deref (n_remove t external);
            '(e, t) ←? install internal external t;
            nret (Some e, t)
          else
            let port := (port + 1) mod 2 ^ 16 in
            let port := if (port =? 0) || (min + range <=? port) then min else port in
            if port =? start then nret (None, t) else probe n internal addr min range start port now t
      end
  end.

Fixpoint try_ranges (ranges : list PortRange) (internal : Endpoint) (addr now : N) (s : nat_state T) : nres (option NatEntry * nat_state T) :=
  match ranges with
  | [] => nret (None, s)
  | r :: ranges =>
      match choose_range internal r with
      | Ignore => nret (None, s)
      | Skip => try_ranges ranges internal addr now s
      | Use min range =>
          let '(k, seed) := GetRange range (rng_ s) in
          let start := (min + k) mod 2 ^ 16 in
          '(e, t) ←? probe kMaxTrials internal addr min range start start now (map_ s);
          match e with
          | Some e => nret (e, NatState t seed)
          | None => try_ranges ranges internal addr now (NatState t seed)
          end
      end
  end.

Definition CreateNewEntry (internal : Endpoint) (now : N) (s : nat_state T) : nres (option NatEntry * nat_state T) :=
  let hashed := crc (e_addr internal) in
  let i := N.to_nat (hashed mod N.of_nat (length ext_addrs_)) in
  addr ←? deref (ext_addrs_ !! i);
  ranges ←? deref (port_ranges_ !! i);
  try_ranges ranges internal addr now s.

(** The body of the loop: the packet, and whether it is emitted or dropped. *)
Definition process_one (dir : Direction) (now : N) (ip : list byte) (s : nat_state T) : nres (list byte * bool * nat_state T) :=
  l4 ←? deref (ip_header_len ip);
  ep ←? deref (ExtractEndpoint ip l4 dir);
  match ep with
  | None => nret (ip, false, s)
  | Some before =>
      f ←? deref (n_find (map_ s) before);
      '(item, s) ←?
        match f, dir with
        | Some e, _ => nret (Some e, s)
        | None, kForward => CreateNewEntry before now s
        | None, kReverse => nret (None, s)
        end;
      match item with
      | None => nret (ip, false, s)
      | Some e =>
          s ←? match dir with
            | kForward => t ←? deref (n_set (map_ s) before (NE (endpoint e) now)); nret (NatState t (rng_ s))
            | kReverse => nret s
            end;
          ip ←? deref (Stamp dir ip l4 before (endpoint e));
          nret (ip, true, s)
      end
  end.

Fixpoint DoProcessBatch (dir : Direction) (now : N) (batch : list (list byte)) (s : nat_state T) : nres (list (list byte * bool) * nat_state T) :=
  match batch with
  | [] => nret ([], s)
  | ip :: batch =>
      '(ip, emitted, s) ←? process_one dir now ip s;
      '(l, s) ←? DoProcessBatch dir now batch s;
      nret ((ip, emitted) :: l, s)
  end.

(** The packets with the gates they go to. *)
Definition ProcessBatch (incoming_gate : nat) (now : N) (batch : list (list byte)) (s : nat_state T) : nres (list (list byte * option nat) * nat_state T) :=
  let dir := if decide (incoming_gate = 0)%nat then kForward else kReverse in
  let ogate := match dir with kForward => 1%nat | kReverse => 0%nat end in
  '(l, s) ←? DoProcessBatch dir now batch s;
  nret ((fun x : list byte * bool => (x.1, if x.2 then Some ogate else None)) <$> l, s).

End Translation.
