(* ===== verification/NatPackets.v ===== *)
(** * What the translation of [NatModule.v] does to a packet

    [Stamp] replaces an address and a port, and updates the checksums by the
    difference.  A packet is split into the IP header and what follows. *)

From Stdlib Require Import NArith Strings.Byte.
From S2P Require Import Prelude Cuckoo Checksum NatModule.

#[local] Open Scope N_scope.
Implicit Types (p h g : list byte).

(** ** Fields *)

(** The bytes [l] at [off]. *)
Definition splice (off : nat) (l p : list byte) : list byte := take off p ++ l ++ drop (off + length l) p.

Lemma splice_length off l p : (off + length l <= length p)%nat -> length (splice off l p) = length p.
Proof. intros H. unfold splice. rewrite !length_app, length_take, length_drop. lia. Qed.

Lemma drop_take_app o n p q : (o + n <= length p)%nat -> take n (drop o (p ++ q)) = take n (drop o p).
Proof. intros H. rewrite drop_app_le by lia. rewrite take_app_le; [done|]. rewrite length_drop. lia. Qed.

Lemma slice_splice_ne n o off l p :
  (off + length l <= length p)%nat -> (o + n <= off \/ off + length l <= o)%nat -> slice o n (splice off l p) = slice o n p.
Proof.
  intros Hl Ho. unfold slice. rewrite splice_length by done. enough (E : take n (drop o (splice off l p)) = take n (drop o p)) by by rewrite E.
  unfold splice. destruct Ho as [Ho|Ho].
  - rewrite drop_take_app by (rewrite length_take; lia). rewrite !take_drop_commute, take_take. do 2 f_equal. lia.
  - rewrite app_assoc, drop_app_ge by (rewrite length_app, length_take; lia). rewrite length_app, length_take, drop_drop.
    do 2 f_equal. lia.
Qed.

Lemma load_splice_ne n o off l p :
  (off + length l <= length p)%nat -> (o + n <= off \/ off + length l <= o)%nat -> load n o (splice off l p) = load n o p.
Proof. intros Hl Ho. unfold load. by rewrite slice_splice_ne. Qed.

Lemma load_splice_eq off l p : (off + length l <= length p)%nat -> load (length l) off (splice off l p) = Some (le l).
Proof.
  intros Hl. unfold load, slice. rewrite splice_length by done. rewrite option_guard_True by lia.
  cbn [mbind option_bind fmap option_fmap option_map]. unfold splice. rewrite drop_app_length' by (rewrite length_take; lia).
  by rewrite take_app_length.
Qed.

Lemma load_some n off p : (off + n <= length p)%nat -> exists v, load n off p = Some v /\ v < 256 ^ N.of_nat n.
Proof.
  intros Hl. unfold load, slice. rewrite option_guard_True by lia. eexists. split; [reflexivity|].
  eapply N.lt_le_trans; [apply le_lt|]. apply N.pow_le_mono_r; [done|]. rewrite length_take, length_drop. lia.
Qed.

Lemma load_length n off p v : load n off p = Some v -> (off + n <= length p)%nat.
Proof. unfold load, slice. case_guard; [done|]. done. Qed.

(** What a field of two or four bytes holds. *)
Definition bytes16 (v : N) : list byte := [byte_of v; byte_of (v / 256)].
Definition bytes32 (v : N) : list byte := [byte_of v; byte_of (v / 256); byte_of (v / 65536); byte_of (v / 16777216)].

Lemma le_bytes16 v : v < 65536 -> le (bytes16 v) = v.
Proof. intros Hv. unfold bytes16. simpl. rewrite !byte_of_ok. nlia. Qed.

Lemma le_bytes32 v : v < 2 ^ 32 -> le (bytes32 v) = v.
Proof. intros Hv. unfold bytes32. simpl. rewrite !byte_of_ok. change (2 ^ 32) with 4294967296 in Hv. nlia. Qed.

Lemma store16_splice off v p : store16 off v p = splice off (bytes16 v) p.
Proof. done. Qed.

Lemma store32_splice off v p : store32 off v p = splice off (bytes32 v) p.
Proof. done. Qed.

Lemma put16_ok off v p : (off + 2 <= length p)%nat -> put16 off v p = Some (store16 off v p).
Proof. intros. unfold put16. by rewrite option_guard_True. Qed.

Lemma put32_ok off v p : (off + 4 <= length p)%nat -> put32 off v p = Some (store32 off v p).
Proof. intros. unfold put32. by rewrite option_guard_True. Qed.

(** A field of the first part, of the second part. *)
Lemma load_left n o h g : (o + n <= length h)%nat -> load n o (h ++ g) = load n o h.
Proof.
  intros Hl. unfold load, slice. rewrite length_app, !option_guard_True by lia. cbn [mbind option_bind]. by rewrite drop_take_app.
Qed.

Lemma load_right n o h g : load n (length h + o) (h ++ g) = load n o g.
Proof.
  unfold load, slice. rewrite drop_app_add. rewrite length_app.
  case_guard as C1; case_guard as C2; (done || (exfalso; lia)).
Qed.

Lemma splice_left off l h g : (off + length l <= length h)%nat -> splice off l (h ++ g) = splice off l h ++ g.
Proof. intros Hl. unfold splice. rewrite take_app_le by lia. rewrite drop_app_le by lia. by rewrite <- !app_assoc. Qed.

Lemma splice_right off l h g : splice (length h + off) l (h ++ g) = h ++ splice off l g.
Proof.
  unfold splice. rewrite take_app_add, <- Nat.add_assoc, drop_app_add. by rewrite <- app_assoc.
Qed.

Lemma header_len_left h g : h <> [] -> ip_header_len (h ++ g) = ip_header_len h.
Proof. by destruct h. Qed.

Lemma header_len_splice off l h : (0 < off)%nat -> (off < length h)%nat -> ip_header_len (splice off l h) = ip_header_len h.
Proof. intros H0 Hl. destruct h as [|b h]; [simpl in Hl; lia|]. destruct off; [lia|]. done. Qed.

(** ** The packet after [Stamp] *)

Definition l3_diff (before after : Endpoint) : N := ChecksumIncrement32 (e_addr before) (e_addr after).
Definition l4_diff (before after : Endpoint) : N := (l3_diff before after + ChecksumIncrement16 (e_port before) (e_port after)) mod 2 ^ 32.

Definition l4_size (proto : N) : nat := if proto =? kTcp then 20 else 8.

(** An IP header [h] of at least 20 bytes, and a transport header for its protocol. *)
Record parted (h g : list byte) (proto : N) : Prop := {
  h_len : ip_header_len h = Some (length h);
  h_min : (20 <= length h)%nat;
  h_proto : load 1 9 h = Some proto;
  g_min : (l4_size proto <= length g)%nat
}.

(** What the two headers become. *)
Definition new_header (dir : Direction) (before after : Endpoint) (c : N) (h : list byte) : list byte :=
  store16 10 (UpdateChecksumWithIncrement c (l3_diff before after)) (store32 (addr_at dir) (e_addr after) h).
Definition new_tcp (dir : Direction) (before after : Endpoint) (c : N) (g : list byte) : list byte :=
  store16 16 (UpdateChecksumWithIncrement c (l4_diff before after)) (store16 (port_at dir) (e_port after) g).
Definition new_udp (dir : Direction) (before after : Endpoint) (c : N) (g : list byte) : list byte :=
  let g := store16 (port_at dir) (e_port after) g in
  if c =? 0 then g
  else let u := UpdateChecksumWithIncrement c (l4_diff before after) in store16 6 (if u =? 0 then 65535 else u) g.
Definition new_icmp (before after : Endpoint) (c : N) (g : list byte) : list byte :=
  store16 2 (UpdateChecksum16 c (e_port before) (e_port after)) (store16 4 (e_port after) g).

(** Where the transport checksum is. *)
Definition sum_at (proto : N) : nat := if proto =? kTcp then 16 else if proto =? kUdp then 6 else 2.

Definition new_segment (proto : N) (dir : Direction) (before after : Endpoint) (c : N) (g : list byte) : list byte :=
  if proto =? kTcp then new_tcp dir before after c g
  else if proto =? kUdp then new_udp dir before after c g else new_icmp before after c g.

Lemma store32_length off v p : (off + 4 <= length p)%nat -> length (store32 off v p) = length p.
Proof. intros. rewrite store32_splice. by apply splice_length. Qed.

Lemma addr_at_range dir : addr_at dir = 12%nat \/ addr_at dir = 16%nat.
Proof. destruct dir; auto. Qed.

Lemma port_at_range dir : port_at dir = 0%nat \/ port_at dir = 2%nat.
Proof. destruct dir; auto. Qed.

Lemma stamp_ok dir h g proto before after :
  parted h g proto -> exists c c4, load 2 10 h = Some c /\ load 2 (sum_at proto) g = Some c4 /\ c < 65536 /\ c4 < 65536 /\
    Stamp dir (h ++ g) (length h) before after = Some (new_header dir before after c h ++ new_segment proto dir before after c4 g).
Proof.
  intros [Hl Hmin Hp Hg]. destruct (load_some 2 10 h) as (c & Ec & Bc); [lia|].
  assert (Hs : (sum_at proto + 2 <= length g)%nat).
  { unfold sum_at, l4_size in *. destruct (proto =? kTcp), (proto =? kUdp); lia. }
  assert (H8 : (8 <= length g)%nat) by (unfold l4_size in Hg; destruct (proto =? kTcp); lia).
  destruct (load_some 2 (sum_at proto) g Hs) as (c4 & Ec4 & Bc4). exists c, c4. do 4 (split; [done|]).
  pose proof (addr_at_range dir) as Ha. pose proof (port_at_range dir) as Hpo.
  assert (Hsum : load 2 (sum_at proto) (store16 (if (proto =? kTcp) || (proto =? kUdp) then port_at dir else 4) (e_port after) g) = Some c4).
  { rewrite store16_splice, load_splice_ne; [done|simpl|simpl]; unfold sum_at; destruct (proto =? kTcp), (proto =? kUdp); cbn [orb]; lia. }
  unfold Stamp. rewrite load_left by lia. rewrite Hp. cbn [mbind option_bind].
  rewrite put32_ok by (rewrite length_app; lia). rewrite store32_splice, splice_left by (simpl; lia). rewrite <- store32_splice. cbn [mbind option_bind].
  assert (L32 : length (store32 (addr_at dir) (e_addr after) h) = length h) by (apply store32_length; lia).
  rewrite load_left by (rewrite L32; lia). rewrite store32_splice, load_splice_ne by (simpl; lia). rewrite <- store32_splice.
  rewrite Ec. cbn [mbind option_bind]. rewrite put16_ok by (rewrite length_app; lia). rewrite store16_app by (rewrite L32; lia).
  fold (l3_diff before after). fold (new_header dir before after c h). fold (l4_diff before after).
  assert (Lh : length (new_header dir before after c h) = length h) by (unfold new_header; rewrite store16_length by lia; done).
  cbn [mbind option_bind]. set (h' := new_header _ _ _ _ _) in *. clearbody h'. rewrite <- Lh.
  assert (Hput : forall o v g', (o + 2 <= length g')%nat -> put16 (length h' + o) v (h' ++ g') = Some (h' ++ store16 o v g')).
  { intros o v g' Ho. rewrite put16_ok by (rewrite length_app; lia). by rewrite store16_splice, splice_right. }
  unfold new_segment, sum_at, new_tcp, new_udp, new_icmp in *. destruct (proto =? kTcp); [|destruct (proto =? kUdp)]; cbn [orb] in *;
    rewrite Hput by lia; cbn [mbind option_bind]; rewrite load_right, Hsum; cbn [mbind option_bind].
  - by rewrite Hput by (rewrite store16_length; lia).
  - destruct (c4 =? 0); [done|]. by rewrite Hput by (rewrite store16_length; lia).
  - by rewrite Hput by (rewrite store16_length; lia).
Qed.

Definition ep_ok (e : Endpoint) : Prop := e_addr e < 2 ^ 32 /\ e_port e < 65536.

(** A load after the stores at other places; the last store at its own place. *)
Ltac load_stores :=
  rewrite ?store16_splice, ?store32_splice;
  repeat (rewrite load_splice_ne by (rewrite ?splice_length by (simpl; lia); simpl; lia)).

Lemma new_header_length dir before after c h : (20 <= length h)%nat -> length (new_header dir before after c h) = length h.
Proof.
  intros Hh. pose proof (addr_at_range dir). unfold new_header. rewrite store16_length; rewrite store32_length; lia.
Qed.

Lemma new_segment_length proto dir before after c g : (l4_size proto <= length g)%nat -> length (new_segment proto dir before after c g) = length g.
Proof.
  intros Hg. pose proof (port_at_range dir). unfold new_segment, new_tcp, new_udp, new_icmp, l4_size in *.
  destruct (proto =? kTcp); [|destruct (proto =? kUdp); [destruct (c =? 0)|]]; rewrite ?store16_length; rewrite ?store16_length; lia.
Qed.

Lemma new_header_loads dir before after c h :
  (20 <= length h)%nat -> e_addr after < 2 ^ 32 -> let h' := new_header dir before after c h in
  load 4 (addr_at dir) h' = Some (e_addr after) /\
  (forall n o, (o + n <= 10 \/ (12 <= o /\ (o + n <= addr_at dir \/ addr_at dir + 4 <= o)))%nat -> load n o h' = load n o h) /\
  ip_header_len h' = ip_header_len h.
Proof.
  intros Hh Ha. cbn zeta. unfold new_header. pose proof (addr_at_range dir) as Hr. split; [|split].
  - rewrite store16_splice, store32_splice, load_splice_ne by (rewrite ?splice_length by (simpl; lia); simpl; lia).
    change 4%nat with (length (bytes32 (e_addr after))). rewrite load_splice_eq by (simpl; lia). by rewrite le_bytes32.
  - intros n o Ho. by load_stores.
  - rewrite store16_splice, store32_splice. rewrite !header_len_splice; try done; rewrite ?splice_length by (simpl; lia); lia.
Qed.

(** Where the port is. *)
Definition l4_port (proto : N) (dir : Direction) : nat := if (proto =? kTcp) || (proto =? kUdp) then port_at dir else 4.

Lemma new_segment_loads proto dir before after c g :
  (l4_size proto <= length g)%nat -> e_port after < 65536 -> let g' := new_segment proto dir before after c g in
  load 2 (l4_port proto dir) g' = Some (e_port after) /\
  (forall n o, (o + n <= l4_port proto dir \/ l4_port proto dir + 2 <= o)%nat -> (o + n <= sum_at proto \/ sum_at proto + 2 <= o)%nat ->
    load n o g' = load n o g).
Proof.
  intros Hg Hp. cbn zeta. pose proof (port_at_range dir) as Hr. unfold new_segment, new_tcp, new_udp, new_icmp, l4_size, l4_port, sum_at in *.
  destruct (proto =? kTcp); [|destruct (proto =? kUdp); [destruct (c =? 0)|]]; cbn [orb]; rewrite !store16_splice;
    (split; [|intros n o Ho Hs; by load_stores]); try (rewrite load_splice_ne by (rewrite ?splice_length by (simpl; lia); simpl; lia));
    change 2%nat with (length (bytes16 (e_port after))) at 1; rewrite load_splice_eq by (simpl; lia); by rewrite le_bytes16.
Qed.

(** The endpoint of a packet. *)
Lemma extract_parts h g proto dir :
  parted h g proto ->
  ExtractEndpoint (h ++ g) (length h) dir =
    (if (proto =? kTcp) || (proto =? kUdp) || (proto =? kIcmp) && match load 1 0 g with Some t => echo_like t | None => false end
     then a ← load 4 (addr_at dir) h; p ← load 2 (l4_port proto dir) g; Some (Some (EP a p proto)) else Some None).
Proof.
  intros [Hl Hmin Hp Hg]. pose proof (addr_at_range dir) as Ha. pose proof (port_at_range dir) as Hpo.
  unfold ExtractEndpoint, l4_port. rewrite (load_left 1 9), !(load_left 4) by lia. rewrite Hp. cbn [mbind option_bind].
  assert (H8 : (8 <= length g)%nat) by (unfold l4_size in Hg; destruct (proto =? kTcp); lia).
  destruct ((proto =? kTcp) || (proto =? kUdp)) eqn:Et; cbn [orb].
  - by rewrite load_right.
  - destruct (N.eqb_spec proto kIcmp) as [->|]; cbn [andb]; [|done].
    replace (length h) with (length h + 0)%nat at 1 by lia. rewrite !load_right. destruct (load_some 1 0 g) as (t & -> & _); [lia|].
    cbn [mbind option_bind]. by destruct (echo_like t).
Qed.

Lemma extract_ok h g proto dir before :
  parted h g proto -> ExtractEndpoint (h ++ g) (length h) dir = Some (Some before) ->
  e_proto before = proto /\ ep_ok before /\ load 4 (addr_at dir) h = Some (e_addr before) /\ load 2 (l4_port proto dir) g = Some (e_port before).
Proof.
  intros Hp. rewrite (extract_parts h g proto dir Hp). case_match; [|done].
  destruct (load 4 (addr_at dir) h) as [a|] eqn:Ea; [|done]. destruct (load 2 (l4_port proto dir) g) as [q|] eqn:Eq; [|done].
  intros [= <-]. simpl. split; [done|]. split; [|done]. pose proof (load_length _ _ _ _ Ea) as La. pose proof (load_length _ _ _ _ Eq) as Lq.
  destruct (load_some _ _ _ La) as (a' & ? & ?). destruct (load_some _ _ _ Lq) as (q' & ? & ?). simplify_eq. done.
Qed.

Lemma parted_stamped h g proto dir before after c c4 :
  parted h g proto -> e_addr after < 2 ^ 32 -> parted (new_header dir before after c h) (new_segment proto dir before after c4 g) proto.
Proof.
  intros [Hl Hmin Hp Hg] Ha. destruct (new_header_loads dir before after c h Hmin Ha) as (_ & Hloads & Hlen).
  split; rewrite ?new_header_length, ?new_segment_length by done; [by rewrite Hlen|done| |done]. rewrite Hloads; [done|left; lia].
Qed.

(** The packet shows the new endpoint, and the same one on the other side unless that is
    the identifier of an ICMP message. *)
Lemma stamped_endpoint h g proto dir before after c c4 :
  parted h g proto -> ExtractEndpoint (h ++ g) (length h) dir = Some (Some before) -> ep_ok after -> e_proto after = e_proto before ->
  let h' := new_header dir before after c h in let g' := new_segment proto dir before after c4 g in
  ExtractEndpoint (h' ++ g') (length h) dir = Some (Some after).
Proof.
  intros Hp He [Wa Wp] Eproto. cbn zeta. destruct (extract_ok _ _ _ _ _ Hp He) as (Ep & _ & Ea & Eq).
  pose proof (parted_stamped h g proto dir before after c c4 Hp Wa) as Hp'. pose proof Hp as [Hl Hmin Hpr Hg].
  rewrite <- (new_header_length dir before after c h Hmin). rewrite (extract_parts _ _ _ _ Hp').
  rewrite (extract_parts _ _ _ _ Hp) in He.
  destruct (new_header_loads dir before after c h Hmin Wa) as (-> & _ & _).
  destruct (new_segment_loads proto dir before after c4 g Hg Wp) as (-> & Hloads). cbn [mbind option_bind].
  replace (load 1 0 (new_segment proto dir before after c4 g)) with (if (proto =? kTcp) || (proto =? kUdp) then load 1 0 (new_segment proto dir before after c4 g) else load 1 0 g).
  2:{ unfold l4_port, sum_at in Hloads. destruct (proto =? kTcp), (proto =? kUdp); cbn [orb] in *; try done. rewrite Hloads by lia. done. }
  destruct ((proto =? kTcp) || (proto =? kUdp)); cbn [orb] in *; [by destruct after; simpl in *; subst|].
  case_match; [|done]. destruct after; simpl in *; by subst.
Qed.

(** ** Checksums *)

(** The two words of an address. *)
Definition halves (v : N) : N := v mod 65536 + v / 65536.

Lemma total_splice off l p : Nat.even off = true -> Nat.even (length l) = true -> (off + length l <= length p)%nat ->
  total (splice off l p) = total (take off p) + total l + total (drop (off + length l) p).
Proof. intros He Hl Ho. apply total_mid; [rewrite length_take, Nat.min_l by lia|]; done. Qed.

Lemma total_slice off n p l : Nat.even off = true -> Nat.even n = true -> slice off n p = Some l ->
  total p = total (take off p) + total l + total (drop (off + n) p).
Proof.
  unfold slice. case_guard as G; [|done]. cbn [mbind option_bind]. intros He Hn [= <-]. rewrite <- drop_drop.
  rewrite <- total_mid; [by rewrite !take_drop|rewrite length_take, Nat.min_l by lia; done|].
  rewrite length_take, length_drop, Nat.min_l by lia. done.
Qed.

Lemma total_two a b : total [a; b] = Byte.to_N a + 256 * Byte.to_N b.
Proof. unfold total. simpl. lia. Qed.

Lemma total_four a b c d : total [a; b; c; d] = Byte.to_N a + 256 * Byte.to_N b + (Byte.to_N c + 256 * Byte.to_N d).
Proof. unfold total. simpl. lia. Qed.

Lemma total_change16 off v c p : Nat.even off = true -> load 2 off p = Some c -> v < 65536 -> total (store16 off v p) + c = total p + v.
Proof.
  intros He Hc Hv. pose proof (load_length _ _ _ _ Hc) as Hl. unfold load in Hc. destruct (slice off 2 p) as [l|] eqn:El; [|done].
  injection Hc as <-. rewrite (total_slice off 2 p l He eq_refl El). rewrite total_store16 by done.
  unfold slice in El. revert El. case_guard; [|done]. cbn [mbind option_bind]. intros [= El].
  assert (H2 : length l = 2%nat) by (rewrite <- El, length_take, length_drop; lia).
  destruct l as [|a [|b []]]; try done. rewrite total_two. simpl. lia.
Qed.

Lemma total_change32 off v a p : Nat.even off = true -> load 4 off p = Some a -> v < 2 ^ 32 -> total (store32 off v p) + halves a = total p + halves v.
Proof.
  intros He Hc Hv. pose proof (load_length _ _ _ _ Hc) as Hl. unfold load in Hc. destruct (slice off 4 p) as [l|] eqn:El; [|done].
  injection Hc as <-. rewrite (total_slice off 4 p l He eq_refl El). rewrite store32_splice, total_splice by (try done; simpl; lia).
  unfold slice in El. revert El. case_guard; [|done]. cbn [mbind option_bind]. intros [= El].
  assert (H4 : length l = 4%nat) by (rewrite <- El, length_take, length_drop; lia).
  destruct l as [|b0 [|b1 [|b2 [|b3 []]]]]; try done. unfold bytes32. cbn [length].
  change (2 ^ 32) with 4294967296 in Hv. rewrite !total_four. simpl le. unfold halves. rewrite !byte_of_ok.
  pose proof (byte_lt b0). pose proof (byte_lt b1). pose proof (byte_lt b2). pose proof (byte_lt b3).
  assert (v mod 256 + 256 * ((v / 256) mod 256) = v mod 65536) by nlia.
  assert ((v / 65536) mod 256 + 256 * ((v / 16777216) mod 256) = v / 65536) by nlia.
  set (x0 := Byte.to_N b0) in *. set (x1 := Byte.to_N b1) in *. set (x2 := Byte.to_N b2) in *. set (x3 := Byte.to_N b3) in *.
  replace (x0 + 256 * (x1 + 256 * (x2 + 256 * (x3 + 256 * 0)))) with (x0 + 256 * x1 + (x2 + 256 * x3) * 65536) by lia.
  rewrite N.Div0.mod_add, N.div_add, (N.mod_small (x0 + _)), (N.div_small (x0 + _)) by lia. lia.
Qed.

(** The increments, and what an update does modulo 65535. *)
Lemma increment32_ok a b : a < 2 ^ 32 -> b < 2 ^ 32 -> ChecksumIncrement32 a b + halves a = 131070 + halves b /\ halves a <= 131070.
Proof.
  intros Ha Hb. unfold ChecksumIncrement32, halves. rewrite not32_low, not32_high by done. rewrite shiftr_div.
  change 65535 with (2 ^ 16 - 1) at 3. rewrite land_mod. change (2 ^ 16) with 65536. change (2 ^ 32) with 4294967296 in *.
  assert (a mod 65536 < 65536) by nlia. assert (b mod 65536 < 65536) by nlia. assert (a / 65536 < 65536) by nlia. assert (b / 65536 < 65536) by nlia.
  generalize dependent (a mod 65536). generalize dependent (b mod 65536). generalize dependent (a / 65536). generalize dependent (b / 65536).
  clear. intros b1 Hb1 a1 Ha1 b0 Hb0 a0 Ha0. rewrite (N.mod_small (65535 - _ + _)), N.mod_small by lia. lia.
Qed.

Lemma increment16_ok a b : a < 65536 -> ChecksumIncrement16 a b + a = 65535 + b.
Proof. intros Ha. unfold ChecksumIncrement16. rewrite not32_low, N.mod_small by (change (2 ^ 32) with 4294967296; lia). lia. Qed.

Lemma update_mod c inc : c < 65536 -> inc < 2 ^ 20 ->
  UpdateChecksumWithIncrement c inc < 65536 /\ (UpdateChecksumWithIncrement c inc + inc) mod 65535 = c mod 65535.
Proof.
  intros Hc Hi. unfold UpdateChecksumWithIncrement. change (2 ^ 20) with 1048576 in Hi.
  rewrite not32_low, (N.mod_small c) by (change (2 ^ 32) with 4294967296; lia).
  rewrite N.mod_small by (change (2 ^ 32) with 4294967296; lia). unfold FoldChecksum. set (x := 65535 - c + inc).
  destruct (fold_twice 16 x) as [F1 F2]; [done|unfold x; change (2 ^ 16) with 65536; lia|].
  set (y := (_ + _) mod 2 ^ 16) in *. change (2 ^ 16) with 65536 in *. split; [lia|].
  destruct F2 as [F2 _]. unfold x in F2. nlia.
Qed.

(** A sum of words is all ones. *)
Lemma ones_full ws : Forall (fun x => x < 65536) ws -> ones_words ws = 65535 <-> foldr N.add 0 ws mod 65535 = 0 /\ foldr N.add 0 ws <> 0.
Proof.
  intros Hw. destruct (ones_words_ok ws Hw) as [B [S1 S2]]. split.
  - intros E. rewrite E in *. split; [by rewrite <- S1|]. intros E0. by apply S2 in E0.
  - intros [E1 E2]. rewrite E1 in S1. assert (ones_words ws <> 0) by (intros E; apply E2; by apply S2). nlia.
Qed.

Lemma cancel_mod x c k t z : x + c + 65535 * k = t + z -> z mod 65535 = c mod 65535 -> x mod 65535 = t mod 65535.
Proof. intros E M. nlia. Qed.

Lemma total_head b l : Byte.to_N b <> 0 -> total (b :: l) <> 0.
Proof. intros Hb. unfold total. destruct l; simpl; lia. Qed.

Lemma l3_diff_ok before after :
  ep_ok before -> ep_ok after ->
  l3_diff before after + halves (e_addr before) = 131070 + halves (e_addr after) /\ l3_diff before after <= 262140.
Proof.
  intros [Hb _] [Ha _]. unfold l3_diff. destruct (increment32_ok _ _ Hb Ha) as [E L]. destruct (increment32_ok _ _ Ha Ha) as [_ L']. split; lia.
Qed.

Lemma l4_diff_ok before after :
  ep_ok before -> ep_ok after ->
  l4_diff before after + halves (e_addr before) + e_port before = 65535 * 3 + halves (e_addr after) + e_port after /\ l4_diff before after < 2 ^ 20.
Proof.
  intros Hb Ha. destruct (l3_diff_ok _ _ Hb Ha) as [E L]. pose proof (increment16_ok (e_port before) (e_port after) (proj2 Hb)) as E'.
  pose proof (proj2 Ha). unfold l4_diff. change (2 ^ 32) with 4294967296. change (2 ^ 20) with 1048576. rewrite N.mod_small by lia. split; lia.
Qed.

(** The sum of the header is the same. *)
Lemma header_total dir before after c h :
  (20 <= length h)%nat -> ep_ok before -> ep_ok after -> load 4 (addr_at dir) h = Some (e_addr before) -> load 2 10 h = Some c -> c < 65536 ->
  total (new_header dir before after c h) mod 65535 = total h mod 65535.
Proof.
  intros Hh Hb Ha Ea Ec Hc. destruct (l3_diff_ok _ _ Hb Ha) as [E L].
  destruct (update_mod c (l3_diff before after) Hc) as [By My]; [change (2 ^ 20) with 1048576; lia|].
  unfold new_header. set (y := UpdateChecksumWithIncrement _ _) in *. pose proof (addr_at_range dir) as Hr.
  assert (E10 : load 2 10 (store32 (addr_at dir) (e_addr after) h) = Some c).
  { rewrite store32_splice, load_splice_ne by (simpl; lia). done. }
  pose proof (total_change16 10 y c _ eq_refl E10 By) as T1.
  pose proof (total_change32 (addr_at dir) (e_addr after) _ h ltac:(by destruct dir) Ea (proj1 Ha)) as T2.
  apply (cancel_mod _ c 2 _ (y + l3_diff before after)); [lia|done].
Qed.

Lemma header_nonzero h : ip_header_len h = Some (length h) -> (20 <= length h)%nat -> total h <> 0.
Proof.
  destruct h as [|b h]; [done|]. unfold ip_header_len. cbn [head mbind option_bind]. intros [= E] Hl. apply total_head. intros E0.
  rewrite E0 in E. simpl in E, Hl. lia.
Qed.

(** The sum of the segment and the address is the same. *)
Lemma segment_total proto dir before after c g :
  (l4_size proto <= length g)%nat -> ep_ok before -> ep_ok after -> load 2 (l4_port proto dir) g = Some (e_port before) ->
  load 2 (sum_at proto) g = Some c -> c < 65536 -> let g' := new_segment proto dir before after c g in
  (proto = kTcp \/ (proto = kUdp /\ c <> 0) -> (total g' + halves (e_addr after)) mod 65535 = (total g + halves (e_addr before)) mod 65535) /\
  (proto <> kTcp -> proto <> kUdp -> total g' mod 65535 = total g mod 65535).
Proof.
  intros Hg Hb Ha Ep Ec Hc. cbn zeta. destruct (l4_diff_ok _ _ Hb Ha) as [E L].
  destruct (update_mod c (l4_diff before after) Hc L) as [By My]. pose proof (port_at_range dir) as Hr.
  assert (Esum : load 2 (sum_at proto) (store16 (l4_port proto dir) (e_port after) g) = Some c).
  { unfold l4_port, l4_size, sum_at in *. rewrite store16_splice. destruct (proto =? kTcp), (proto =? kUdp); cbn [orb] in *; rewrite load_splice_ne; done || (simpl; lia). }
  assert (T2 : total (store16 (l4_port proto dir) (e_port after) g) + e_port before = total g + e_port after).
  { apply total_change16; [|done|by destruct Ha]. unfold l4_port. by destruct (_ || _), dir. }
  assert (T1 : forall y, y < 65536 -> total (store16 (sum_at proto) y (store16 (l4_port proto dir) (e_port after) g)) + c =
    total (store16 (l4_port proto dir) (e_port after) g) + y).
  { intros y Hy. apply total_change16; [|done|done]. unfold sum_at. by destruct (proto =? kTcp), (proto =? kUdp). }
  split.
  - intros Hp. set (y := if proto =? kTcp then UpdateChecksumWithIncrement c (l4_diff before after)
      else if UpdateChecksumWithIncrement c (l4_diff before after) =? 0 then 65535 else UpdateChecksumWithIncrement c (l4_diff before after)).
    assert (Hy : y < 65536 /\ (y + l4_diff before after) mod 65535 = c mod 65535).
    { unfold y. destruct (proto =? kTcp); [done|]. destruct (N.eqb_spec (UpdateChecksumWithIncrement c (l4_diff before after)) 0) as [E0|]; [|done].
      rewrite E0 in My. split; [done|]. rewrite <- My. nlia. }
    assert (Eg : new_segment proto dir before after c g = store16 (sum_at proto) y (store16 (l4_port proto dir) (e_port after) g)).
    { unfold new_segment, new_tcp, new_udp, l4_port, sum_at, y. destruct Hp as [->|[-> Hc0]]; cbn; [done|].
      by rewrite (proj2 (N.eqb_neq c 0)). }
    rewrite Eg. pose proof (T1 y (proj1 Hy)) as T.
    apply (cancel_mod _ c 3 _ (y + l4_diff before after)); [lia|apply Hy].
  - intros H1 H2. apply N.eqb_neq in H1, H2. pose proof (increment16_ok (e_port before) (e_port after) (proj2 Hb)) as E16.
    pose proof (proj2 Ha) as Hap.
    destruct (update_mod c (ChecksumIncrement16 (e_port before) (e_port after)) Hc) as [By' My']; [change (2 ^ 20) with 1048576; lia|].
    unfold new_segment, new_icmp, UpdateChecksum16, l4_port, sum_at in *. rewrite H1, H2 in *. cbn [orb] in *. pose proof (T1 _ By') as T.
    apply (cancel_mod _ c 1 _ (UpdateChecksumWithIncrement c (ChecksumIncrement16 (e_port before) (e_port after)) + ChecksumIncrement16 (e_port before) (e_port after)));
      [lia|done].
Qed.

Lemma new_segment_take proto dir before after c n g :
  (l4_size proto <= n <= length g)%nat -> take n (new_segment proto dir before after c g) = new_segment proto dir before after c (take n g).
Proof.
  intros Hn. pose proof (port_at_range dir) as Hr. unfold new_segment, new_tcp, new_udp, new_icmp, l4_size in *.
  destruct (proto =? kTcp); [|destruct (proto =? kUdp); [destruct (c =? 0)|]];
    rewrite ?store16_take; rewrite ?store16_take; try done; rewrite ?store16_length; lia.
Qed.

Lemma load_take n o m p : (o + n <= m)%nat -> load n o (take m p) = load n o p.
Proof.
  intros Hm. unfold load, slice. rewrite length_take.
  assert (E : take n (drop o (take m p)) = take n (drop o p)) by (rewrite !take_drop_commute, take_take; do 2 f_equal; lia).
  rewrite E. case_guard as C1; case_guard as C2; (done || (exfalso; lia)).
Qed.

Lemma pseudo_sum src dst proto len : foldr N.add 0 (pseudo src dst proto len) = halves src + halves dst + 256 * proto + bswap16 len.
Proof. unfold pseudo, halves. simpl. lia. Qed.

Lemma payload_short k len p : (length p < N.to_nat len)%nat -> payload k len p = None.
Proof.
  intros Hl. unfold payload, slice. destruct (decide (k <= N.to_nat len)%nat).
  - rewrite (option_guard_True (k <= N.to_nat len)%nat) by done. cbn [mbind option_bind]. by rewrite option_guard_False by lia.
  - by rewrite (option_guard_False (k <= N.to_nat len)%nat) by done.
Qed.

Section Stamped.
Context (avx2 x86 : bool) (dir : Direction) (h g : list byte) (proto c c4 : N) (before after : Endpoint).
Context (Hp : parted h g proto) (Hbefore : ExtractEndpoint (h ++ g) (length h) dir = Some (Some before)) (Ha : ep_ok after).
Context (Ec : load 2 10 h = Some c) (Hc : c < 65536) (Ec4 : load 2 (sum_at proto) g = Some c4) (Hc4 : c4 < 65536).
Let h' := new_header dir before after c h.
Let g' := new_segment proto dir before after c4 g.

Lemma stamped_ip : VerifyIpv4Checksum avx2 x86 (h ++ g) = Some true -> VerifyIpv4Checksum avx2 x86 (h' ++ g') = Some true.
Proof.
  destruct (extract_ok _ _ _ _ _ Hp Hbefore) as (_ & Hb & Ea & _). pose proof Hp as [Hl Hmin Hpr Hg].
  destruct (new_header_loads dir before after c h Hmin (proj1 Ha)) as (_ & _ & Hl'). fold h' in Hl'.
  assert (Lh : length h' = length h) by (by apply new_header_length).
  assert (Hne : forall l : list byte, (20 <= length l)%nat -> l <> []) by (intros [|] Hn; simpl in Hn; [lia|done]).
  rewrite (ip_verify _ _ _ (length h)) by (rewrite ?header_len_left by auto; rewrite ?length_app; done || lia).
  rewrite (ip_verify _ _ (h' ++ g') (length h')) by (rewrite ?header_len_left by auto with lia; rewrite ?length_app; congruence || lia).
  rewrite !take_app_length. intros [= [_ E]%bool_decide_eq_true]. f_equal. apply bool_decide_eq_true. split; [lia|].
  apply ones_full in E as [E _]; [|apply words_lt]. apply ones_full; [apply words_lt|]. fold (total h) in E. fold (total h').
  split; [|apply header_nonzero; congruence || lia]. rewrite <- E. by apply header_total.
Qed.

(** The addresses in the new header. *)
Lemma stamped_addrs src dst :
  load 4 12 h = Some src -> load 4 16 h = Some dst ->
  exists src' dst', load 4 12 h' = Some src' /\ load 4 16 h' = Some dst' /\ src < 2 ^ 32 /\ dst < 2 ^ 32 /\ src' < 2 ^ 32 /\ dst' < 2 ^ 32 /\
    halves src + halves dst + halves (e_addr after) = halves src' + halves dst' + halves (e_addr before).
Proof.
  intros Es Ed. destruct (extract_ok _ _ _ _ _ Hp Hbefore) as (_ & Hb & Ea & _). pose proof Hp as [Hl Hmin Hpr Hg].
  destruct (new_header_loads dir before after c h Hmin (proj1 Ha)) as (Hn & Ho & _). fold h' in Hn, Ho.
  destruct (load_some 4 12 h) as (s & Es' & Bs); [lia|]. destruct (load_some 4 16 h) as (d & Ed' & Bd); [lia|].
  assert (s = src) as -> by congruence. assert (d = dst) as -> by congruence.
  change (256 ^ N.of_nat 4) with (2 ^ 32) in *. pose proof (proj1 Ha) as Baft. destruct dir; simpl addr_at in *.
  - exists (e_addr after), dst. rewrite (Ho 4 16)%nat by lia. assert (e_addr before = src) as -> by congruence. repeat (split; [done|]). lia.
  - exists src, (e_addr after). rewrite (Ho 4 12)%nat by lia. assert (e_addr before = dst) as -> by congruence. repeat (split; [done|]). lia.
Qed.

(** The sum of the segment with its pseudo header stays all ones. *)
Lemma stamped_ones src dst src' dst' len n :
  src < 2 ^ 32 -> dst < 2 ^ 32 -> src' < 2 ^ 32 -> dst' < 2 ^ 32 -> len < 65536 -> (l4_size proto <= n <= length g)%nat ->
  halves src + halves dst + halves (e_addr after) = halves src' + halves dst' + halves (e_addr before) ->
  proto = kTcp \/ (proto = kUdp /\ c4 <> 0) ->
  ones_words (pseudo src dst proto len ++ words (take n g)) = 65535 -> ones_words (pseudo src' dst' proto len ++ words (take n g')) = 65535.
Proof.
  intros B1 B2 B3 B4 Bl Hn Hsum Hproto. destruct (extract_ok _ _ _ _ _ Hp Hbefore) as (_ & Hb & _ & Eq).
  assert (B256 : 0 < proto < 256) by (by destruct Hproto as [->|[-> _]]).
  assert (F : forall s d l, s < 2 ^ 32 -> d < 2 ^ 32 -> Forall (fun x => x < 65536) (pseudo s d proto len ++ words l)).
  { intros. apply Forall_app. split; [apply pseudo_ok; (done || lia)|apply words_lt]. }
  intros E. apply ones_full in E as [E _]; [|by apply F]. apply ones_full; [by apply F|].
  rewrite sum_app, pseudo_sum in *. fold (total (take n g)) in E. fold (total (take n g')). split; [|lia].
  unfold g'. rewrite new_segment_take by done.
  destruct (segment_total proto dir before after c4 (take n g)) as [T _]; [rewrite length_take; lia|done|done| | |done|].
  - rewrite load_take; [done|]. unfold l4_port, l4_size in *. pose proof (port_at_range dir).
    destruct (proto =? kTcp), (proto =? kUdp); cbn [orb]; lia.
  - rewrite load_take; [done|]. unfold sum_at, l4_size in *. destruct (proto =? kTcp), (proto =? kUdp); lia.
  - specialize (T Hproto). set (t' := total (new_segment _ _ _ _ _ _)) in *. set (t := total (take n g)) in *.
    set (x := halves (e_addr before)) in *. set (y := halves (e_addr after)) in *.
    assert (E2 : (halves src' + halves dst' + 256 * proto + bswap16 len + t' + (x + y)) mod 65535 = (x + y) mod 65535).
    { replace (halves src' + halves dst' + 256 * proto + bswap16 len + t' + (x + y))
        with (halves src + halves dst + 256 * proto + bswap16 len + y + (t' + y)) by lia.
      rewrite N.Div0.add_mod, T, <- N.Div0.add_mod.
      replace (halves src + halves dst + 256 * proto + bswap16 len + y + (t + x))
        with (halves src + halves dst + 256 * proto + bswap16 len + t + (x + y)) by lia.
      by rewrite N.Div0.add_mod, E, N.add_0_l, N.Div0.mod_mod. }
    clear - E2. set (u := halves src' + _ + _ + _ + t') in *. set (v := x + y) in *. clearbody u v. nlia.
Qed.

Lemma stamped_lengths : length h' = length h /\ length g' = length g.
Proof. destruct Hp as [_ Hmin _ Hg]. split; [by apply new_header_length|by apply new_segment_length]. Qed.

Lemma stamped_tcp : proto = kTcp -> VerifyTcp avx2 x86 (h ++ g) g = Some true -> VerifyTcp avx2 x86 (h' ++ g') g' = Some true.
Proof.
  intros Et. destruct stamped_lengths as [Lh Lg]. pose proof Hp as [Hl Hmin Hpr Hg].
  destruct (new_header_loads dir before after c h Hmin (proj1 Ha)) as (_ & Ho & Hl'). fold h' in Ho, Hl'.
  assert (Etl : tcp_length (h' ++ g') = tcp_length (h ++ g)).
  { unfold tcp_length. rewrite !load_left by lia. rewrite (Ho 2 2)%nat by (left; lia).
    by rewrite !header_len_left, Hl' by (intros E; rewrite E in *; simpl in *; lia). }
  unfold VerifyTcp. rewrite Etl. destruct (tcp_length (h ++ g)) as [[len|]|] eqn:El; cbn [mbind option_bind]; try done.
  rewrite !load_left by lia. destruct (load_some 4 12 h) as (src & Es & _); [lia|]. destruct (load_some 4 16 h) as (dst & Ed & _); [lia|].
  destruct (stamped_addrs src dst Es Ed) as (src' & dst' & -> & -> & B1 & B2 & B3 & B4 & Hsum). rewrite Es, Ed. cbn [mbind option_bind].
  assert (Hlen : 20 <= len < 65536).
  { unfold tcp_length in El. rewrite load_left, header_len_left, Hl in El by (lia || (intros E; rewrite E in Hmin; simpl in Hmin; lia)).
    destruct (load_some 2 2 h) as (v & Ev & Bv); [lia|]. rewrite Ev in El. cbn [mbind option_bind] in El. case_decide; [done|].
    injection El as <-. change (256 ^ N.of_nat 2) with 65536 in Bv. pose proof (N.lt_le_trans _ _ 65536 Bv ltac:(done)) as Bv'.
    assert (bswap16 v < 65536) by (unfold bswap16; nlia). lia. }
  destruct (decide (N.to_nat len <= length g)%nat) as [Hle|Hgt].
  2:{ unfold VerifyIpv4TcpChecksum. by rewrite payload_short by lia. }
  rewrite !tcp_verify by (done || lia). intros [= E%bool_decide_eq_true]. f_equal. apply bool_decide_eq_true.
  revert E. change 6 with kTcp. rewrite <- Et. apply stamped_ones; try done; [lia| |by left].
  rewrite Et. unfold l4_size. simpl. lia.
Qed.

Lemma stamped_udp : proto = kUdp -> VerifyUdp avx2 x86 (h ++ g) g = Some true -> VerifyUdp avx2 x86 (h' ++ g') g' = Some true.
Proof.
  intros Eu. destruct stamped_lengths as [Lh Lg]. pose proof Hp as [Hl Hmin Hpr Hg]. rewrite Eu in Hg. unfold l4_size in Hg. simpl in Hg.
  destruct (new_segment_loads proto dir before after c4 g) as (_ & Ho); [rewrite Eu; done|apply Ha|]. fold g' in Ho.
  unfold VerifyUdp. rewrite (Ho 2 4)%nat by (rewrite Eu; unfold l4_port, sum_at; cbn; pose proof (port_at_range dir); lia).
  destruct (load_some 2 4 g) as (v & Ev & Bv); [lia|]. rewrite Ev. cbn [mbind option_bind].
  destruct (N.ltb_spec (bswap16 v) 8) as [|H8]; [done|].
  assert (Hlen : bswap16 v < 65536) by (change (256 ^ N.of_nat 2) with 65536 in Bv; unfold bswap16; nlia). set (len := bswap16 v) in *.
  rewrite !load_left by lia. destruct (load_some 4 12 h) as (src & Es & _); [lia|]. destruct (load_some 4 16 h) as (dst & Ed & _); [lia|].
  destruct (stamped_addrs src dst Es Ed) as (src' & dst' & -> & -> & B1 & B2 & B3 & B4 & Hsum). rewrite Es, Ed. cbn [mbind option_bind].
  assert (Ec6 : load 2 6 g = Some c4) by (rewrite <- Ec4; unfold sum_at; by rewrite Eu).
  destruct (decide (c4 = 0)) as [E0|E0].
  { intros _. unfold VerifyIpv4UdpChecksum. replace (load 2 6 g') with (Some 0); [done|]. symmetry. unfold g', new_segment, new_udp. rewrite Eu.
    cbn -[load]. rewrite E0. cbn -[load]. pose proof (port_at_range dir). load_stores. congruence. }
  destruct (decide (N.to_nat len <= length g)%nat) as [Hle|Hgt].
  2:{ unfold VerifyIpv4UdpChecksum. rewrite Ec6. cbn [mbind option_bind]. rewrite (proj2 (N.eqb_neq c4 0)) by done.
      by rewrite payload_short by lia. }
  rewrite !udp_verify by (done || lia). intros [= [E|E]%bool_decide_eq_true]; [congruence|]. f_equal. apply bool_decide_eq_true. right.
  revert E. change 17 with kUdp. rewrite <- Eu. apply stamped_ones; try done; [|by right].
  rewrite Eu. unfold l4_size. simpl. lia.
Qed.

Lemma stamped_icmp n :
  proto = kIcmp -> (8 <= n <= length g)%nat -> e_port after <> 0 -> ones_sum (take n g) = 65535 -> ones_sum (take n g') = 65535.
Proof.
  intros Ei Hn H0 E. apply ones_full in E as [E _]; [|apply words_lt]. apply ones_full; [apply words_lt|]. fold (total (take n g)) in E.
  fold (total (take n g')). destruct (extract_ok _ _ _ _ _ Hp Hbefore) as (_ & Hb & _ & Eq).
  assert (H8 : (l4_size proto <= n <= length g)%nat) by (by rewrite Ei).
  assert (El : load 2 (l4_port proto dir) (take n g) = Some (e_port before)) by (rewrite load_take; [done|rewrite Ei; simpl; lia]).
  unfold g'. rewrite new_segment_take by done. split.
  - rewrite <- E. apply (segment_total proto dir before after c4 (take n g)); try done; [rewrite length_take; lia| |by rewrite Ei|by rewrite Ei].
    rewrite load_take; [done|]. rewrite Ei. simpl. lia.
  - destruct (new_segment_loads proto dir before after c4 (take n g)) as (Hport & _); [rewrite length_take; lia|apply Ha|].
    set (s := new_segment proto dir before after c4 (take n g)) in *. unfold load in Hport. destruct (slice (l4_port proto dir) 2 s) as [l|] eqn:Es; [|done].
    injection Hport as Hport. rewrite (total_slice (l4_port proto dir) 2 s l ltac:(rewrite Ei; reflexivity) eq_refl Es). rewrite <- Hport in H0.
    intros Hz. apply H0. destruct (le_total l) as [_ Hle]. apply Hle. lia.
Qed.
End Stamped.

(** C29. The checksums stay valid: when a packet shows the endpoint [before] and gets
    [after], of the same protocol, it shows [after] then; if the checksum of its IP
    header was valid it is so still, with any options, and so is that of its TCP
    segment, of its UDP datagram (one without a checksum stays without one), and of its
    ICMP message unless the identifier becomes 0; no other byte changes. *)
Theorem nat_checksums avx2 x86 dir h g proto before after :
  parted h g proto -> ExtractEndpoint (h ++ g) (length h) dir = Some (Some before) -> ep_ok after -> e_proto after = e_proto before ->
  exists h' g', Stamp dir (h ++ g) (length h) before after = Some (h' ++ g') /\ parted h' g' proto /\
    length h' = length h /\ length g' = length g /\
    ExtractEndpoint (h' ++ g') (length h') dir = Some (Some after) /\
    (VerifyIpv4Checksum avx2 x86 (h ++ g) = Some true -> VerifyIpv4Checksum avx2 x86 (h' ++ g') = Some true) /\
    (proto = kTcp -> VerifyTcp avx2 x86 (h ++ g) g = Some true -> VerifyTcp avx2 x86 (h' ++ g') g' = Some true) /\
    (proto = kUdp -> VerifyUdp avx2 x86 (h ++ g) g = Some true -> VerifyUdp avx2 x86 (h' ++ g') g' = Some true) /\
    (forall n, proto = kIcmp -> (8 <= n <= length g)%nat -> e_port after <> 0 -> ones_sum (take n g) = 65535 -> ones_sum (take n g') = 65535) /\
    (forall i, (i < 10 \/ (12 <= i /\ (i < addr_at dir \/ addr_at dir + 4 <= i)))%nat -> load 1 i h' = load 1 i h) /\
    (forall i, (i < l4_port proto dir \/ l4_port proto dir + 2 <= i)%nat -> (i < sum_at proto \/ sum_at proto + 2 <= i)%nat ->
      load 1 i g' = load 1 i g).
Proof.
  intros Hp He Ha Eproto. destruct (stamp_ok dir h g proto before after Hp) as (c & c4 & Ec & Ec4 & Hc & Hc4 & Es).
  destruct (stamped_lengths dir h g proto c c4 before after Hp) as [Lh Lg]. pose proof Hp as [Hl Hmin Hpr Hg].
  eexists _, _. split; [exact Es|]. split; [apply parted_stamped; [done|apply Ha]|]. split; [done|]. split; [done|].
  split; [rewrite Lh; by apply stamped_endpoint|]. split; [by eapply stamped_ip|]. split; [by eapply stamped_tcp|]. split; [by eapply stamped_udp|].
  split; [intros n; by eapply stamped_icmp|]. split; intros i.
  - intros Hi. destruct (new_header_loads dir before after c h Hmin (proj1 Ha)) as (_ & Ho & _). apply Ho. lia.
  - intros Hi Hi'. destruct (new_segment_loads proto dir before after c4 g Hg (proj2 Ha)) as (_ & Ho). apply Ho; lia.
Qed.

(** ** Witness *)

Definition demo_packet : list byte :=
  [x45; x00; x00; x1e; x00; x00; x40; x00; x40; x11; xb8; x61; x0a; x00; x00; x01; x08; x08; x08; x08;
   x13; x88; x00; x35; x00; x0a; x12; x34; x68; x69]%byte.

Definition demo_internal : Endpoint := EP 0x0100000a 0x8813 kUdp.

Lemma demo_parted : parted (take 20 demo_packet) (drop 20 demo_packet) kUdp.
Proof. split; [reflexivity|apply Nat.leb_le; reflexivity|reflexivity|apply Nat.leb_le; reflexivity]. Qed.

Lemma nat_checksums_witness :
  exists h' g', Stamp kForward demo_packet 20 demo_internal (EP 7 99 kUdp) = Some (h' ++ g') /\ parted h' g' kUdp.
Proof.
  destruct (nat_checksums true true kForward (take 20 demo_packet) (drop 20 demo_packet) kUdp demo_internal (EP 7 99 kUdp))
    as (h' & g' & E & Hp & _); [exact demo_parted|reflexivity|split; reflexivity|reflexivity|]. by exists h', g'.
Defined.
