(* ===== verification/NatProps.v ===== *)
(** * Correctness of the translation of [NatModule.v]

    The table is a finite map that pairs internal endpoints with external ones:
    the theorems say that batches keep it so, that mappings in use stay, that a
    reply finds the way back, and that checksums stay valid. *)

From Stdlib Require Import NArith Strings.Byte Sorted.
From stdpp Require Import strings gmap.
From S2P Require Import Prelude Cuckoo Checksum Addresses NatModule NatPackets.

#[local] Open Scope N_scope.

(** ** Postconditions *)

(** Unless an insertion gave a null pointer there is a value, with [Q]. *)
Definition post {A} (x : nres A) (Q : A -> Prop) : Prop := x.1 = O -> exists a, x.2 = Some a /\ Q a.

Lemma quiet_some {A} (x : nres A) (a : A) : x.1 = O -> x.2 = Some a -> x = (O, Some a).
Proof. destruct x. simpl. by intros -> ->. Qed.

Lemma post_ret {A} (a : A) Q : Q a -> post (nret a) Q.
Proof. by exists a. Qed.

Lemma post_bind {A B} (f : A -> nres B) x Q : post x (fun a => post (f a) Q) -> post (nbind f x) Q.
Proof.
  unfold post. destruct x as [n [a|]]; simpl.
  - intros H. destruct (f a) as [m r] eqn:E. simpl. intros Hn. destruct H as (a' & [= <-] & H); [lia|].
    rewrite E in H. simpl in H. apply H. lia.
  - intros H Hn. destruct (H Hn) as (? & ? & _). done.
Qed.

Lemma post_deref {A} (x : option A) a (Q : A -> Prop) : x = Some a -> Q a -> post (deref x) Q.
Proof. intros -> H _. by exists a. Qed.

Lemma post_mono {A} (x : nres A) (P Q : A -> Prop) : post x P -> (forall a, P a -> Q a) -> post x Q.
Proof. intros H HPQ Hn. destruct (H Hn) as (a & E & Ha). exists a. auto. Qed.

(** ** Numbers *)

Lemma round53_le x : round53 x <= x + x / 2 ^ 53.
Proof.
  unfold round53. remember (N.size x - 53) as k eqn:Dk. destruct (N.eqb_spec k 0) as [_|Hk]; [apply N.le_add_r|]. cbn match zeta.
  assert (Hx : x <> 0) by (intros ->; by vm_compute in Dk). pose proof (N.size_log2 x Hx) as Hs.
  pose proof (N.log2_spec x ltac:(lia)) as [Hlo _].
  assert (Ek : 2 ^ k = 2 * 2 ^ (k - 1)) by (rewrite <- N.pow_succ_r'; f_equal; lia).
  assert (Hpow : 2 ^ (k - 1) <= x / 2 ^ 53).
  { apply N.div_le_lower_bound; [done|]. rewrite <- N.pow_add_r. replace (53 + (k - 1)) with (N.log2 x) by lia. done. }
  pose proof (N.div_mod' x (2 ^ k)) as E. assert (H0 : 0 < 2 ^ (k - 1)) by (apply N.neq_0_lt_0, N.pow_nonzero; lia).
  set (q := x / 2 ^ k) in *. set (r := x mod 2 ^ k) in *. set (h := 2 ^ (k - 1)) in *.
  destruct ((r <? h) || ((r =? h) && N.even q)) eqn:C; [nia|].
  assert (h <= r) by (destruct (N.ltb_spec r h); [done|lia]). nia.
Qed.

(** The random number is below the range. *)
Lemma GetRange_lt range seed : 0 < range < 2 ^ 52 -> (GetRange range seed).1 < range.
Proof.
  intros Hr. unfold GetRange. cbn zeta. set (sd := (seed * _ + _) mod 2 ^ 64). cbn [fst].
  assert (Hs : N.shiftr sd 12 < 2 ^ 52).
  { rewrite N.shiftr_div_pow2. apply N.Div0.div_lt_upper_bound. change (2 ^ 12 * 2 ^ 52) with (2 ^ 64). by apply N.mod_lt. }
  set (m := N.shiftr sd 12) in *. apply N.Div0.div_lt_upper_bound.
  pose proof (round53_le (m * range)) as H. assert (Hd : (m * range) / 2 ^ 53 < range); [|nia].
  apply N.Div0.div_lt_upper_bound. nia.
Qed.

Lemma bswap16_lt x : x < 65536 -> bswap16 x < 65536.
Proof. unfold bswap16. intros. nlia. Qed.

Lemma bswap16_involutive x : x < 65536 -> bswap16 (bswap16 x) = x.
Proof. unfold bswap16. intros. nlia. Qed.

Lemma land_high x : x < 65536 -> N.land x (65535 - 1023) = 0 <-> x < 1024.
Proof.
  intros Hx.  change (65535 - 1023) with (N.shiftl (N.ones 6) 10).
  assert (E : N.land x (N.shiftl (N.ones 6) 10) = N.shiftl (N.land (N.shiftr x 10) (N.ones 6)) 10).
  { apply N.bits_inj. intros i. rewrite N.land_spec. destruct (N.le_gt_cases 10 i) as [Hi|Hi].
    - rewrite !N.shiftl_spec_high' by done. rewrite N.land_spec, N.shiftr_spec'. by replace (i - 10 + 10) with i by lia.
    - rewrite !N.shiftl_spec_low by done. apply andb_false_r. }
  rewrite E, N.land_ones, N.shiftl_mul_pow2, N.shiftr_div_pow2. change (2 ^ 10) with 1024. change (2 ^ 6) with 64.
  assert (x / 1024 < 64) by (apply N.Div0.div_lt_upper_bound; lia). rewrite N.mod_small by done.
  pose proof (N.div_mod' x 1024). pose proof (N.mod_lt x 1024 ltac:(done)). split; intros; [|rewrite N.div_small by done]; nia.
Qed.

(** ** The map *)

Section Translation.
Context {T : Type} `{NatTableLaws T} (crc : N -> N) (garbage : Endpoint -> N).
Context (ext_addrs_ : list N) (port_ranges_ : list (list PortRange)).
Implicit Types (t : T) (M : gmap Endpoint NatEntry) (k internal external : Endpoint) (v : NatEntry).

Lemma post_find t M k (Q : option NatEntry -> Prop) : n_rep t M -> Q (M !! k) -> post (deref (n_find t k)) Q.
Proof. intros Hr. by apply post_deref, n_find_ok. Qed.

Lemma post_insert t M k v (Q : bool * T -> Prop) :
  n_rep t M -> (forall t', n_rep t' (<[k := v]> M) -> Q (true, t')) -> post (Insert_ k v t) Q.
Proof.
  intros Hr HQ. unfold Insert_. destruct (n_insert t k v) as [[[] t']|] eqn:E; [|done..].
  apply post_ret, HQ. by eapply n_insert_ok.
Qed.

Lemma post_remove t M k (Q : T -> Prop) : n_rep t M -> (forall t', n_rep t' (delete k M) -> Q t') -> post (deref (n_remove t k)) Q.
Proof. intros Hr HQ. destruct (n_remove_ok t M k Hr) as (t' & E & Hr'). eapply post_deref; [exact E|auto]. Qed.

(** The addresses and the ranges of ports as [Init] leaves them. *)
Definition range_ok (r : PortRange) : Prop := p_begin r < p_end r <= 65535.
Definition config_ok : Prop :=
  ext_addrs_ <> [] /\ Forall (fun a => a < 2 ^ 32) ext_addrs_ /\ length port_ranges_ = length ext_addrs_ /\ Forall (Forall range_ok) port_ranges_.

(** The index of an internal address. *)
Definition pool internal : nat := N.to_nat (crc (e_addr internal) mod N.of_nat (length ext_addrs_)).

(** The external endpoint that an internal one may have: its address is the one
    that the internal address determines, its port in a range for ports of its kind. *)
Definition allotted internal external : Prop :=
  e_proto external = e_proto internal /\ e_port external < 65536 /\
  exists ranges r min range,
    ext_addrs_ !! pool internal = Some (e_addr external) /\ port_ranges_ !! pool internal = Some ranges /\ r ∈ ranges /\
    choose_range internal r = Use min range /\ min <= bswap16 (e_port external) < min + range.

(** Entries come in pairs of an internal and an external endpoint. *)
Record nat_ok M : Prop := {
  m_pair : forall k v, M !! k = Some v -> e_proto (endpoint v) = e_proto k /\ exists w, M !! endpoint v = Some w /\ endpoint w = k;
  m_side : forall k v, M !! k = Some v -> (e_addr k ∈ ext_addrs_ <-> e_addr (endpoint v) ∉ ext_addrs_);
  m_allotted : forall k v, M !! k = Some v -> e_addr k ∉ ext_addrs_ -> allotted k (endpoint v);
  m_width : forall k v, M !! k = Some v -> ep_ok k
}.

(** Mappings of internal endpoints stay while they are in use. *)
Definition kept (now : N) M M' : Prop :=
  forall k v, M !! k = Some v -> e_addr k ∉ ext_addrs_ -> expired now v = false ->
    (exists v', M' !! k = Some v' /\ endpoint v' = endpoint v /\ (last_refresh v' = last_refresh v \/ last_refresh v' = now)) /\
    M' !! endpoint v = M !! endpoint v.

Lemma expired_now now v : now < 2 ^ 64 -> last_refresh v = now -> expired now v = false.
Proof.
  intros Hn E. unfold expired. rewrite E. replace (now + 2 ^ 64 - now) with (2 ^ 64) by lia. done.
Qed.

#[local] Instance kept_refl now : Reflexive (kept now).
Proof. intros M k v Hv _ _. split; [|done]. exists v. auto. Qed.

Lemma kept_trans now M1 M2 M3 : now < 2 ^ 64 -> kept now M1 M2 -> kept now M2 M3 -> kept now M1 M3.
Proof.
  intros Hn H12 H23 k v Hv Hk Hx. destruct (H12 k v Hv Hk Hx) as [(v2 & Hv2 & E2 & L2) R2].
  assert (Hx2 : expired now v2 = false).
  { destruct L2 as [L2|L2]; [|by apply expired_now]. unfold expired in *. by rewrite L2. }
  destruct (H23 k v2 Hv2 Hk Hx2) as [(v3 & Hv3 & E3 & L3) R3]. rewrite E2 in *. split; [|congruence].
  exists v3. split; [done|]. split; [done|]. destruct L2, L3; (left; congruence) || (right; congruence).
Qed.

Lemma nat_ok_install M internal external g1 g2 :
  nat_ok M -> M !! internal = None -> M !! external = None -> e_addr internal ∉ ext_addrs_ -> allotted internal external ->
  ep_ok internal -> ep_ok external ->
  nat_ok (<[internal := NE external g2]> (<[external := NE internal g1]> M)).
Proof.
  intros [P S A W] Hi He Hint Ha Wi We. assert (Hext : e_addr external ∈ ext_addrs_).
  { destruct Ha as (_ & _ & ? & ? & ? & ? & E & _). by eapply list_elem_of_lookup_2. }
  assert (Hne : internal <> external) by congruence. pose proof (proj1 Ha) as Hproto.
  assert (Hfresh : forall k v, M !! k = Some v -> endpoint v <> internal /\ endpoint v <> external).
  { intros k v Hv. destruct (P k v Hv) as (_ & w & Hw & _). split; congruence. }
  split; intros k v.
  - rewrite lookup_insert_Some. intros [[<- <-]|[Hk Hv]]; simpl.
    { split; [done|]. rewrite lookup_insert_ne, lookup_insert_eq by done. by eexists. }
    revert Hv. rewrite lookup_insert_Some. intros [[<- <-]|[Hk' Hv]]; simpl.
    { split; [done|]. rewrite lookup_insert_eq. by eexists. }
    destruct (Hfresh k v Hv). rewrite !lookup_insert_ne by done. by apply P.
  - rewrite lookup_insert_Some. intros [[<- <-]|[Hk Hv]]; simpl; [by split|].
    revert Hv. rewrite lookup_insert_Some. intros [[<- <-]|[Hk' Hv]]; simpl; [by split|]. by apply S.
  - rewrite lookup_insert_Some. intros [[<- <-]|[Hk Hv]]; simpl; [done|].
    revert Hv. rewrite lookup_insert_Some. intros [[<- <-]|[Hk' Hv]]; simpl; [done|]. by apply A.
  - rewrite !lookup_insert_Some. intros [[<- _]|[_ [[<- _]|[_ Hv]]]]; [done|done|]. by eapply W.
Qed.

(** Both entries of a pair are removed. *)
Lemma nat_ok_evict M external v : nat_ok M -> M !! external = Some v -> nat_ok (delete external (delete (endpoint v) M)).
Proof.
  intros [P S A W] Hv. destruct (P _ _ Hv) as (_ & w & Hw & Ew).
  assert (Hsub : forall k u, delete external (delete (endpoint v) M) !! k = Some u -> M !! k = Some u /\ k <> external /\ k <> endpoint v).
  { intros k u. rewrite !lookup_delete_Some. intros (? & ? & ?). auto. }
  split; intros k u Hu; apply Hsub in Hu as (Hu & H1 & H2); [|by apply S|by apply A|by eapply W].
  destruct (P _ _ Hu) as (E & x & Hx & Ex). split; [done|]. exists x. split; [|done].
  rewrite !lookup_delete_ne; [done|intros E'|intros E']; [rewrite <- E' in Hx|rewrite <- E' in Hx].
  - apply H1. congruence.
  - apply H2. congruence.
Qed.

Lemma kept_install now M internal external e1 e2 :
  nat_ok M -> M !! internal = None -> M !! external = None ->
  kept now M (<[internal := e2]> (<[external := e1]> M)).
Proof.
  intros [P S A W] Hi He k v Hv Hk Hx. destruct (P k v Hv) as (_ & w & Hw & _).
  rewrite !lookup_insert_ne by congruence. split; [|done]. exists v. auto.
Qed.

Lemma kept_evict now M external v w :
  nat_ok M -> e_addr external ∈ ext_addrs_ -> M !! external = Some v -> M !! endpoint v = Some w -> expired now w = true ->
  kept now M (delete external (delete (endpoint v) M)).
Proof.
  intros [P S A W] Hext Hv Hw Hexp k u Hu Hk Hx. destruct (P _ _ Hv) as (_ & w' & Hw' & Ew).
  assert (w' = w) as -> by congruence. destruct (P _ _ Hu) as (_ & x & Hx' & Ex).
  assert (H1 : k <> external) by congruence. assert (H2 : k <> endpoint v) by congruence.
  assert (H3 : endpoint u <> external) by congruence.
  assert (H4 : endpoint u <> endpoint v).
  { intros E. pose proof (S _ _ Hu) as Su. pose proof (S _ _ Hv) as Sv. rewrite E in Su. tauto. }
  rewrite !lookup_delete_ne by done. split; [|done]. exists u. auto.
Qed.

(** An external endpoint with a mapping in use. *)
Definition taken (now : N) M external : Prop :=
  exists v w, M !! external = Some v /\ M !! endpoint v = Some w /\ expired now w = false.

(** The port [i] after [start], which starts again after the last. *)
Definition nth_port (min range start i : N) : N := min + (start - min + i) mod range.

Lemma next_port min range start i :
  0 < range -> min + range <= 65536 -> min <= start < min + range ->
  let port := (nth_port min range start i + 1) mod 2 ^ 16 in
  (if (port =? 0) || (min + range <=? port) then min else port) = nth_port min range start (i + 1).
Proof.
  intros Hr Hm Hs. unfold nth_port. cbn zeta. set (x := start - min + i).
  replace (start - min + (i + 1)) with (x + 1) by (unfold x; lia). rewrite <- (N.Div0.add_mod_idemp_l x 1 range).
  pose proof (N.mod_lt x range ltac:(lia)) as Hx. set (y := x mod range) in *. change (2 ^ 16) with 65536.
  destruct (decide (y + 1 = range)) as [E|E].
  - rewrite E, N.Div0.mod_same. destruct (decide (min + y + 1 = 65536)) as [E'|E'].
    + rewrite E', N.add_0_r. reflexivity.
    + rewrite N.mod_small by lia. rewrite (proj2 (N.leb_le _ _)), orb_true_r by lia. lia.
  - rewrite (N.mod_small (y + 1)), (N.mod_small (min + y + 1)) by lia.
    rewrite (proj2 (N.eqb_neq _ _)), (proj2 (N.leb_gt _ _)) by lia. cbn. lia.
Qed.

Lemma nth_port_range min range start i : 0 < range -> min <= nth_port min range start i < min + range.
Proof. intros Hr. unfold nth_port. pose proof (N.mod_lt (start - min + i) range ltac:(lia)). split; [apply N.le_add_r|by apply N.add_lt_mono_l]. Qed.

(** The port comes back to [start] after a whole round. *)
Lemma nth_port_back min range start i :
  0 < range -> min <= start < min + range -> nth_port min range start i = start -> (range | i).
Proof.
  unfold nth_port. intros Hr Hs E. set (a := start - min) in *. assert (Ha : a < range) by (unfold a; lia).
  assert (Ea : (a + i) mod range = a) by (unfold a in *; lia). pose proof (N.div_mod' (a + i) range) as D. rewrite Ea in D.
  exists ((a + i) / range). nia.
Qed.

(** The mapping that [CreateNewEntry] makes, and what else it does. *)
Definition created now internal M M' (e : NatEntry) : Prop :=
  nat_ok M' /\ kept now M M' /\ M' !! internal = Some e.

Lemma install_ok now t M internal external (Q : option NatEntry * T -> Prop) :
  n_rep t M -> nat_ok M -> M !! internal = None -> M !! external = None -> e_addr internal ∉ ext_addrs_ -> allotted internal external ->
  ep_ok internal -> ep_ok external ->
  (forall t' M' e, n_rep t' M' -> created now internal M M' e -> Q (Some e, t')) ->
  post (install garbage internal external t) Q.
Proof.
  intros Hr Ok Hi He Hint Ha Wi We HQ. apply post_bind, (post_insert _ M); [done|]. intros t1 H1.
  apply post_bind, (post_insert _ _ _ _ _ H1). intros t2 H2. apply post_ret. eapply HQ; [exact H2|].
  split; [by apply nat_ok_install|]. split; [by apply kept_install|]. by rewrite lookup_insert_eq.
Qed.

Section Probe.
Context (now : N) (internal : Endpoint) (addr min range start : N).
Context (Hnow : now < 2 ^ 64) (Hint : e_addr internal ∉ ext_addrs_) (Hrange : 0 < range) (Hmax : min + range <= 65536) (Hstart : min <= start < min + range).

Definition candidate (i : N) : Endpoint := EP addr (bswap16 (nth_port min range start i)) (e_proto internal).

Context (Hallot : forall i, allotted internal (candidate i)) (Wi : ep_ok internal) (We : forall i, ep_ok (candidate i)).

(** Either a mapping is made or the ports that were tried are taken: 128 of them, or
    all of the range. *)
Lemma probe_ok t M :
  n_rep t M -> nat_ok M -> M !! internal = None ->
  forall n i, (forall j, j < i -> taken now M (candidate j)) ->
  post (probe garbage n internal addr min range start (nth_port min range start i) now t) (fun '(o, t') =>
    match o with
    | None => n_rep t' M /\ forall j, j < N.min (i + N.of_nat n) range -> taken now M (candidate j)
    | Some o => exists M' e, o = Some e /\ n_rep t' M' /\ created now internal M M' e
    end).
Proof.
  intros Hr Ok Hi. induction n as [|n IH]; intros i Htaken; cbn [probe].
  { apply post_ret. split; [done|]. intros j Hj. apply Htaken. lia. }
  fold (candidate i). assert (Hext : e_addr (candidate i) ∈ ext_addrs_).
  { destruct (Hallot i) as (_ & _ & ? & ? & ? & ? & E & _). by eapply list_elem_of_lookup_2. }
  apply post_bind, (post_find _ M); [done|]. destruct (M !! candidate i) as [v|] eqn:Hv.
  2:{ apply post_bind. apply (install_ok now t M); auto. intros t' M' e Hr' He. apply post_ret. by exists M', e. }
  apply post_bind, (post_find _ M); [done|]. destruct (m_pair M Ok _ _ Hv) as (Hp & w & Hw & Ew).
  apply post_bind, (post_deref _ w); [done|]. destruct (expired now w) eqn:Hx.
  - apply post_bind, (post_remove _ M); [done|]. intros t1 H1. apply post_bind, (post_remove _ _ _ _ H1). intros t2 H2.
    pose proof (kept_evict now M _ v w Ok Hext Hv Hw Hx) as Hkeep. apply post_bind.
    eapply (install_ok now t2 _ internal (candidate i)); [exact H2|by apply nat_ok_evict| |by rewrite lookup_delete_eq|done|done|done|done|].
    + rewrite !lookup_delete_None. auto.
    + intros t' M' e Hr' (Ok' & Hk' & He). apply post_ret. exists M', e. split; [done|]. split; [done|]. split; [done|].
      split; [by eapply kept_trans|done].
  - assert (Ht : forall j, j < i + 1 -> taken now M (candidate j)).
    { intros j Hj. destruct (decide (j = i)) as [->|Hne]; [by exists v, w|apply Htaken; lia]. }
    rewrite (next_port min range start i) by done. case_match eqn:Eb.
    + apply N.eqb_eq, nth_port_back in Eb; [|done|done]. apply N.divide_pos_le in Eb; [|lia].
      apply post_ret. split; [done|]. intros j Hj. apply Ht. lia.
    + eapply post_mono; [apply (IH (i + 1) Ht)|]. intros [[o|] t']; [done|]. intros [Hr' Hall]. split; [done|].
      intros j Hj. apply Hall. lia.
Qed.

End Probe.

Lemma wrap_sub a b : b <= a -> a - b < 65536 -> (a + 65536 - b) mod 65536 = a - b.
Proof.
  intros Hb Ha. replace (a + 65536 - b) with (a - b + 1 * 65536) by lia. rewrite N.Div0.mod_add. by apply N.mod_small.
Qed.

Lemma choose_range_ok internal r min range :
  range_ok r -> choose_range internal r = Use min range -> 0 < range /\ min + range <= 65536.
Proof.
  unfold range_ok, choose_range. intros Hr. change (2 ^ 16) with 65536. case_match; [done|]. case_match.
  { intros [= <- <-]. rewrite wrap_sub by lia. lia. }
  case_match; [done|]. case_match; (case_match eqn:E; [done|]); apply N.leb_gt in E; intros [= <- <-].
  - set (m := N.max 1024 (p_begin r)). assert (Hm : m = 1024 \/ m = p_begin r) by (unfold m; lia).
    replace (p_end r + 65536 - m + 1) with (p_end r + 1 + 65536 - m) by lia. rewrite wrap_sub by lia. lia.
  - set (m := N.min 1023 (p_end r)). assert (Hm : p_begin r < m <= 65535) by (unfold m; lia). rewrite wrap_sub by lia. lia.
Qed.

(** Ports below 1024 are mapped to ports below 1024, the others to others. *)
Lemma allotted_class internal external :
  config_ok -> allotted internal external -> e_proto internal <> kIcmp -> e_port internal < 65536 ->
  (1024 <= bswap16 (e_port internal) <-> 1024 <= bswap16 (e_port external)).
Proof.
  intros (_ & _ & _ & Hall) (_ & _ & ranges & r & min & range & _ & Hrs & Hr & Hc & Hp) Hi Hw.
  assert (Hok : range_ok r) by (rewrite Forall_lookup in Hall; apply Hall in Hrs; rewrite Forall_forall in Hrs; auto). unfold range_ok in Hok.
  apply N.eqb_neq in Hi.
  pose proof (land_high _ (bswap16_lt _ Hw)) as Hl. unfold choose_range in Hc. rewrite Hi in Hc.
  case_match; [done|]. case_match; [done|]. case_match eqn:Eh.
  - case_match; [done|]. injection Hc as <- _. apply negb_true_iff, N.eqb_neq in Eh. lia.
  - case_match eqn:Eb; [done|]. injection Hc as <- <-. apply negb_false_iff, N.eqb_eq in Eh. apply N.leb_gt in Eb.
    set (m := N.min 1023 (p_end r)) in *. assert (Hm : p_begin r < m <= 1023) by (unfold m; lia).
    rewrite wrap_sub in Hp by lia. lia.
Qed.

Lemma choose_ignore internal r : choose_range internal r = Ignore -> e_proto internal <> kIcmp /\ e_port internal = 0.
Proof.
  unfold choose_range. case_match; [done|]. case_match eqn:Ep; [done|]. apply N.eqb_neq in Ep. case_match eqn:Eq.
  { apply N.eqb_eq in Eq. done. }
  case_match; by case_match.
Qed.

(** The ports of [r] that are tried are taken. *)
Definition range_taken now M internal (addr : N) (r : PortRange) : Prop :=
  forall min range, choose_range internal r = Use min range ->
    exists start, min <= start < min + range /\ forall j, j < N.min 128 range -> taken now M (candidate internal addr min range start j).

Definition no_port now M internal (addr : N) (all : list PortRange) : Prop :=
  (e_proto internal <> kIcmp /\ e_port internal = 0) \/ Forall (range_taken now M internal addr) all.

Lemma try_ranges_ok now internal M addr all :
  now < 2 ^ 64 -> nat_ok M -> M !! internal = None -> e_addr internal ∉ ext_addrs_ -> ep_ok internal -> addr < 2 ^ 32 ->
  ext_addrs_ !! pool internal = Some addr -> port_ranges_ !! pool internal = Some all -> Forall range_ok all ->
  forall ranges tried s, all = tried ++ ranges -> Forall (range_taken now M internal addr) tried -> n_rep (map_ s) M ->
  post (try_ranges garbage ranges internal addr now s) (fun '(o, s') => exists M', n_rep (map_ s') M' /\
    match o with None => M' = M /\ no_port now M internal addr all | Some e => created now internal M M' e end).
Proof.
  intros Hnow Ok Hi Hint Wi Wa Ea Eall Hall. induction ranges as [|r ranges IH]; intros tried s Etried Htried Hr; cbn [try_ranges].
  { apply post_ret. exists M. rewrite app_nil_r in Etried. subst. split; [done|]. split; [done|]. by right. }
  destruct (choose_range internal r) as [| |min range] eqn:Ec.
  - apply post_ret. exists M. split; [done|]. split; [done|]. left. by eapply choose_ignore.
  - apply (IH (tried ++ [r])); [by rewrite <- app_assoc| |done]. apply Forall_app. split; [done|]. apply Forall_singleton. intros ? ?. congruence.
  - assert (Hrin : r ∈ all) by (rewrite Etried; set_solver).
    destruct (choose_range_ok internal r min range) as [H0' Hmax]; [by rewrite Forall_forall in Hall; apply Hall|done|].
    pose proof (GetRange_lt range (rng_ s) ltac:(change (2 ^ 52) with 4503599627370496; lia)) as Hk.
    destruct (GetRange range (rng_ s)) as [d seed]. simpl in Hk. set (start := (min + d) mod 2 ^ 16).
    assert (Hs : start = min + d) by (unfold start; apply N.mod_small; change (2 ^ 16) with 65536; lia).
    assert (Hstart : min <= start < min + range) by lia.
    assert (Ha : forall j, allotted internal (candidate internal addr min range start j)).
    { intros j. pose proof (nth_port_range min range start j H0'). split; [done|]. split; [apply bswap16_lt; simpl; lia|].
      exists all, r, min, range. simpl. rewrite bswap16_involutive by lia. done. }
    assert (We : forall j, ep_ok (candidate internal addr min range start j)) by (intros j; split; [done|apply Ha]).
    apply post_bind. eapply post_mono.
    { pose proof (probe_ok now internal addr min range start Hnow Hint H0' Hmax Hstart Ha Wi We _ M Hr Ok Hi kMaxTrials 0) as Hp.
      replace (nth_port min range start 0) with start in Hp; [apply Hp; lia|].
      unfold nth_port. rewrite N.add_0_r, N.mod_small by lia. lia. }
    intros [[o|] t'].
    + intros (M' & e & -> & Hr' & Hc). apply post_ret. by exists M'.
    + intros [Hr' Ht]. apply (IH (tried ++ [r])); [by rewrite <- app_assoc| |done]. apply Forall_app. split; [done|].
      apply Forall_singleton. intros min' range' Hc. rewrite Ec in Hc. injection Hc as <- <-. by exists start.
Qed.

(** A mapping is made, or there is no port. *)
Lemma nat_create_ok now internal s M :
  now < 2 ^ 64 -> config_ok -> n_rep (map_ s) M -> nat_ok M -> M !! internal = None -> e_addr internal ∉ ext_addrs_ -> ep_ok internal ->
  post (CreateNewEntry crc garbage ext_addrs_ port_ranges_ internal now s) (fun '(o, s') => exists M', n_rep (map_ s') M' /\
    match o with
    | None => M' = M /\ exists addr all, ext_addrs_ !! pool internal = Some addr /\ port_ranges_ !! pool internal = Some all /\
        no_port now M internal addr all
    | Some e => created now internal M M' e
    end).
Proof.
  intros Hnow (Hne & Haddrs & Hlen & Hranges) Hr Ok Hi Hint Wi. unfold CreateNewEntry. cbn zeta. fold (pool internal).
  assert (Hil : (pool internal < length ext_addrs_)%nat).
  { unfold pool. assert (length ext_addrs_ <> 0%nat) by (by destruct ext_addrs_).
    pose proof (N.mod_lt (crc (e_addr internal)) (N.of_nat (length ext_addrs_)) ltac:(lia)). lia. }
  destruct (lookup_lt_is_Some_2 _ _ Hil) as [addr Ea]. destruct (lookup_lt_is_Some_2 port_ranges_ (pool internal)) as [all Eall]; [lia|].
  apply post_bind, (post_deref _ addr); [done|]. apply post_bind, (post_deref _ all); [done|]. rewrite Forall_lookup in Hranges. rewrite Forall_lookup in Haddrs.
  eapply post_mono; [apply (try_ranges_ok now internal M addr all Hnow Ok Hi Hint Wi ltac:(eauto) Ea Eall ltac:(eauto) _ []); done|]. intros [[e|] s'] (M' & Hr' & HM); exists M'; (split; [done|]); [done|].
  destruct HM as [-> Hno]. eauto 6.
Qed.

(** ** Packets *)

(** A packet with room for its headers. *)
Definition packet_ok (ip : list byte) : Prop := exists h g proto, ip = h ++ g /\ parted h g proto.

(** The endpoint that is translated; [None] is a fault, [Some None] another protocol. *)
Definition shown (dir : Direction) (ip : list byte) : option (option Endpoint) := l4 ← ip_header_len ip; ExtractEndpoint ip l4 dir.

(** Packets to gate 0 come from internal addresses. *)
Definition inside (dir : Direction) (ip : list byte) : Prop :=
  dir = kForward -> forall e, shown dir ip = Some (Some e) -> e_addr e ∉ ext_addrs_.

(** What becomes of a packet, with the map after it.  One that is emitted has the
    endpoint of the map, which is as fresh as the packet; one that is dropped is of
    another protocol or had no mapping, and there was no port for one. *)
Definition served (dir : Direction) (now : N) M' (ip : list byte) (out : list byte * bool) : Prop :=
  if out.2 then
    exists l4 before e, ip_header_len ip = Some l4 /\ ExtractEndpoint ip l4 dir = Some (Some before) /\ M' !! before = Some e /\
      (dir = kForward -> last_refresh e = now) /\ Stamp dir ip l4 before (endpoint e) = Some out.1 /\
      shown dir out.1 = Some (Some (endpoint e))
  else
    out.1 = ip /\ (shown dir ip = Some None \/ exists before M1, shown dir ip = Some (Some before) /\ M1 !! before = None /\ kept now M1 M' /\
      (dir = kReverse -> M1 = M') /\
      (dir = kForward -> exists addr all, ext_addrs_ !! pool before = Some addr /\ port_ranges_ !! pool before = Some all /\
        no_port now M1 before addr all)).

Lemma served_later dir now M1 M2 ip out :
  now < 2 ^ 64 -> inside dir ip -> kept now M1 M2 -> (dir = kReverse -> M2 = M1) -> served dir now M1 ip out -> served dir now M2 ip out.
Proof.
  intros Hnow Hin Hk Hr. unfold served. destruct dir; [|by rewrite (Hr eq_refl)]. destruct out.2.
  - intros (l4 & before & e & El & Eb & He & Hl & Es & Ho). exists l4, before.
    assert (Hb : e_addr before ∉ ext_addrs_) by (apply Hin; [done|]; unfold shown; by rewrite El).
    destruct (Hk before e He Hb (expired_now now e Hnow (Hl eq_refl))) as [(e' & He' & Ee & L) _]. exists e'. rewrite Ee.
    split; [done|]. split; [done|]. split; [done|]. split; [|done]. intros _. destruct L as [->|]; auto.
  - intros (-> & [Ho|(before & M0 & Eb & Hn & Hk0 & _ & Hp)]); split; auto. right. exists before, M0.
    split; [done|]. split; [done|]. split; [by eapply kept_trans|]. by split.
Qed.

(** The time of a mapping is renewed. *)
Lemma nat_ok_refresh M k v now : nat_ok M -> M !! k = Some v -> nat_ok (<[k := NE (endpoint v) now]> M).
Proof.
  intros [P S A W] Hv. split; intros k' u; rewrite lookup_insert_Some; intros [[<- <-]|[Hne Hu]]; eauto; cbn [endpoint].
  - destruct (P _ _ Hv) as (E & w & Hw & Ew). split; [done|]. destruct (decide (k = endpoint v)) as [E'|E'].
    + rewrite <- E', lookup_insert_eq. eexists. split; [done|]. simpl. rewrite <- E' in Hw. congruence.
    + rewrite lookup_insert_ne by done. eauto.
  - destruct (P _ _ Hu) as (E & w & Hw & Ew). split; [done|]. destruct (decide (k = endpoint u)) as [E'|E'].
    + rewrite <- E', lookup_insert_eq. eexists. split; [done|]. simpl. rewrite <- E' in Hw. congruence.
    + rewrite lookup_insert_ne by done. eauto.
  - by apply S.
  - by apply A.
Qed.

Lemma kept_refresh M k v now : nat_ok M -> M !! k = Some v -> e_addr k ∉ ext_addrs_ -> kept now M (<[k := NE (endpoint v) now]> M).
Proof.
  intros Ok Hv Hk k' u Hu Hk' Hx. split.
  - destruct (decide (k = k')) as [<-|Hne].
    + assert (u = v) as -> by congruence. rewrite lookup_insert_eq. eexists. split; [done|]. auto.
    + rewrite lookup_insert_ne by done. eauto.
  - apply lookup_insert_ne. intros ->. destruct (m_side M Ok _ _ Hu) as [_ Hs]. tauto.
Qed.

(** ** The module *)

(** What the translation of a packet needs of its parts. *)
Lemma packet_parts dir ip before :
  packet_ok ip -> shown dir ip = Some (Some before) ->
  exists l4, ip_header_len ip = Some l4 /\ ExtractEndpoint ip l4 dir = Some (Some before) /\ ep_ok before /\
    forall after, ep_ok after -> e_proto after = e_proto before -> exists ip', Stamp dir ip l4 before after = Some ip' /\
      packet_ok ip' /\ shown dir ip' = Some (Some after).
Proof.
  intros (h & g & proto & -> & Hp) Hs. assert (Hne : forall l : list byte, (20 <= length l)%nat -> l <> []) by (intros [|] Hn; simpl in Hn; [lia|done]).
  assert (El : forall h g proto, parted h g proto -> ip_header_len (h ++ g) = Some (length h)).
  { intros h1 g1 p1 [Hl Hmin _ _]. by rewrite header_len_left by auto. }
  unfold shown in *. rewrite (El _ _ _ Hp) in *. cbn [mbind option_bind] in Hs. exists (length h). split; [done|]. split; [done|].
  destruct (extract_ok _ _ _ _ _ Hp Hs) as (_ & Hb & _). split; [done|]. intros after Ha Eproto.
  destruct (stamp_ok dir h g proto before after Hp) as (c & c4 & _ & _ & _ & _ & E). eexists. split; [exact E|].
  pose proof (parted_stamped h g proto dir before after c c4 Hp (proj1 Ha)) as Hp'. split; [by eexists _, _, _|].
  rewrite (El _ _ _ Hp'). cbn [mbind option_bind]. rewrite new_header_length by apply Hp. by eapply stamped_endpoint.
Qed.

Lemma shown_some dir ip : packet_ok ip -> exists l4 o, ip_header_len ip = Some l4 /\ ExtractEndpoint ip l4 dir = Some o /\ shown dir ip = Some o.
Proof.
  intros (h & g & proto & -> & Hp). pose proof Hp as [Hl Hmin Hpr Hg].
  assert (El : ip_header_len (h ++ g) = Some (length h)) by (destruct h; [simpl in Hmin; lia|done]).
  assert (Eo : exists o, ExtractEndpoint (h ++ g) (length h) dir = Some o).
  { rewrite (extract_parts _ _ _ dir Hp). case_match; [|eauto]. pose proof (addr_at_range dir) as Ha. pose proof (port_at_range dir) as Hpo.
    destruct (load_some 4 (addr_at dir) h) as (a & -> & _); [lia|].
    destruct (load_some 2 (l4_port proto dir) g) as (q & -> & _); [|cbn; eauto].
    unfold l4_port, l4_size in *. destruct (proto =? kTcp), (proto =? kUdp); cbn [orb]; lia. }
  destruct Eo as [o Eo]. exists (length h), o. split; [done|]. split; [done|]. unfold shown. by rewrite El.
Qed.

Lemma nat_one_ok dir now ip s M :
  now < 2 ^ 64 -> config_ok -> n_rep (map_ s) M -> nat_ok M -> packet_ok ip -> inside dir ip ->
  post (process_one crc garbage ext_addrs_ port_ranges_ dir now ip s) (fun '(ip', b, s') => exists M', n_rep (map_ s') M' /\
    nat_ok M' /\ kept now M M' /\ (dir = kReverse -> M' = M) /\ served dir now M' ip (ip', b) /\
    (forall before e, shown dir ip = Some (Some before) -> M !! before = Some e ->
       b = true /\ exists e', M' !! before = Some e' /\ endpoint e' = endpoint e)).
Proof.
  intros Hnow Hc Hr Ok Hpk Hin. destruct (shown_some dir ip Hpk) as (l4 & o & El & Eo & Es). unfold process_one.
  apply post_bind, (post_deref _ l4); [done|]. apply post_bind, (post_deref _ o); [done|]. destruct o as [before|].
  2:{ apply post_ret. exists M. do 4 (split; [done|]). split; [by split; [|left]|]. intros before e E. congruence. }
  destruct (packet_parts dir ip before Hpk Es) as (l4' & El' & _ & Wb & Hstamp). assert (l4' = l4) as -> by congruence.
  assert (Hib : dir = kForward -> e_addr before ∉ ext_addrs_) by (intros E; by apply (Hin E)).
  apply post_bind, (post_find _ M); [done|]. apply post_bind.
  eapply (post_mono _ (fun '(item, s1) => exists M1, n_rep (map_ s1) M1 /\ nat_ok M1 /\ kept now M M1 /\ (dir = kReverse -> M1 = M) /\
    match item with
    | Some e => M1 !! before = Some e /\ forall e0, M !! before = Some e0 -> e0 = e
    | None => M1 = M /\ M !! before = None /\ served dir now M ip (ip, false)
    end)).
  - destruct (M !! before) as [e|] eqn:Hb.
    { apply post_ret. exists M. do 4 (split; [done|]). split; [done|]. by intros ? [= <-]. }
    destruct dir.
    + eapply post_mono; [apply (nat_create_ok now before s M); auto|]. intros [[e|] s1] (M1 & Hr1 & HM); exists M1; (split; [done|]).
      * destruct HM as (Ok1 & Hk1 & He). by do 4 (split; [done|]).
      * destruct HM as [-> (addr & all & Ea & Eall & Hno)]. do 6 (split; [done|]). right. exists before, M.
        split; [done|]. split; [done|]. split; [done|]. split; [done|]. by exists addr, all.
    + apply post_ret. exists M. do 7 (split; [done|]). right. exists before, M. by repeat (split; [done|]).
  - intros [[e|] s1] (M1 & Hr1 & Ok1 & Hk1 & HM1 & He).
    2:{ destruct He as (-> & Hno & Hsv). apply post_ret. exists M. do 5 (split; [done|]). intros b' e' Es'. congruence. }
    destruct He as [He Hold].
    destruct (m_pair _ Ok1 _ _ He) as (Ep & w & Hw & _).
    destruct (Hstamp (endpoint e) (m_width _ Ok1 _ _ Hw) Ep) as (ip' & Eip & _ & Esh). apply post_bind.
    eapply (post_mono _ (fun s2 => exists M2 e2, n_rep (map_ s2) M2 /\ nat_ok M2 /\ kept now M M2 /\ (dir = kReverse -> M2 = M) /\
      M2 !! before = Some e2 /\ endpoint e2 = endpoint e /\ (dir = kForward -> last_refresh e2 = now))).
    + destruct dir; [|apply post_ret; by exists M1, e].
      destruct (n_set_ok (map_ s1) M1 before (NE (endpoint e) now) Hr1) as (t & Et & Hrt); [by exists e|].
      apply post_bind, (post_deref _ t); [done|]. apply post_ret. exists (<[before := NE (endpoint e) now]> M1), (NE (endpoint e) now).
      split; [done|]. split; [by apply nat_ok_refresh|]. split; [|by rewrite lookup_insert_eq].
      eapply kept_trans; [done|exact Hk1|]. apply kept_refresh; auto.
    + intros s2 (M2 & e2 & Hr2 & Ok2 & Hk2 & HM2 & He2 & Ee2 & L2). apply post_bind, (post_deref _ ip'); [done|]. apply post_ret.
      exists M2. do 4 (split; [done|]). split; [exists l4, before, e2; rewrite Ee2; by repeat (split; [done|])|].
      intros b0 e0 Eb0 He0. assert (b0 = before) as -> by congruence. rewrite (Hold e0 He0). split; [done|]. by exists e2.
Qed.

Lemma nat_batch_ok dir now batch :
  now < 2 ^ 64 -> config_ok -> forall s M, n_rep (map_ s) M -> nat_ok M -> Forall packet_ok batch -> Forall (inside dir) batch ->
  post (DoProcessBatch crc garbage ext_addrs_ port_ranges_ dir now batch s) (fun '(out, s') => exists M', n_rep (map_ s') M' /\
    nat_ok M' /\ kept now M M' /\ (dir = kReverse -> M' = M) /\ Forall2 (served dir now M') batch out).
Proof.
  intros Hnow Hc. induction batch as [|ip batch IH]; intros s M Hr Ok Hp Hin; cbn [DoProcessBatch].
  { apply post_ret. exists M. by do 4 (split; [done|]). }
  apply Forall_cons in Hp as [Hp Hps], Hin as [Hin Hins]. apply post_bind.
  eapply post_mono; [by apply (nat_one_ok dir now ip s M)|]. intros [[ip' b] s1] (M1 & Hr1 & Ok1 & Hk1 & HM1 & Hs1 & _).
  apply post_bind. eapply post_mono; [by apply (IH s1 M1)|]. intros [out s2] (M2 & Hr2 & Ok2 & Hk2 & HM2 & Hs2). apply post_ret.
  exists M2. do 2 (split; [done|]). split; [by eapply kept_trans|]. split; [intros E; by rewrite HM2, HM1|].
  constructor; [by eapply served_later|done].
Qed.

End Translation.

(** ** Theorems *)

(** C27. A batch, on either gate, keeps the table a pairing of internal and external
    endpoints: unless the table refuses an entry there is no fault; mappings that were
    used in the last five minutes stay; with packets to gate 0 from internal addresses, every packet is translated by the map or
    dropped, and a packet of a new flow is dropped only when in each range of its
    address all ports that were tried, 128 or the whole range, are taken. *)
Theorem nat_batch {T} `{NatTableLaws T} crc garbage ext_addrs_ port_ranges_ igate now batch (s : nat_state T) M :
  now < 2 ^ 64 -> config_ok ext_addrs_ port_ranges_ -> n_rep (map_ s) M -> nat_ok crc ext_addrs_ port_ranges_ M ->
  let dir := if decide (igate = 0)%nat then kForward else kReverse in
  Forall packet_ok batch -> Forall (inside ext_addrs_ dir) batch ->
  post (ProcessBatch crc garbage ext_addrs_ port_ranges_ igate now batch s) (fun '(out, s') => exists M', n_rep (map_ s') M' /\
    nat_ok crc ext_addrs_ port_ranges_ M' /\ kept ext_addrs_ now M M' /\ (dir = kReverse -> M' = M) /\
    Forall2 (fun ip o => (o.2 = None \/ o.2 = Some (if decide (igate = 0)%nat then 1%nat else 0%nat)) /\
      served crc ext_addrs_ port_ranges_ dir now M' ip (o.1, bool_decide (is_Some o.2))) batch out).
Proof.
  intros Hnow Hc Hr Ok dir Hp Hin. unfold ProcessBatch. fold dir. apply post_bind.
  eapply post_mono; [by apply (nat_batch_ok crc garbage ext_addrs_ port_ranges_ dir now batch Hnow Hc s M)|].
  intros [out s'] (M' & Hr' & Ok' & Hk & HM & Hs). apply post_ret. exists M'. do 4 (split; [done|]).
  apply Forall2_fmap_r. eapply Forall2_impl; [exact Hs|]. intros ip [ip' b] Hb. cbn [fst snd]. split.
  - unfold dir. destruct b; [right|by left]. by destruct (decide _).
  - by destruct b.
Qed.

(** No entry is made for a packet whose endpoint has one. *)
Lemma no_entry_made {T} `{NatTable T} crc garbage ext_addrs_ port_ranges_ dir now ip (s : nat_state T) before e :
  shown dir ip = Some (Some before) -> n_find (map_ s) before = Some (Some e) ->
  (process_one crc garbage ext_addrs_ port_ranges_ dir now ip s).1 = O.
Proof.
  unfold shown, process_one. destruct (ip_header_len ip) as [l4|]; [|done]. cbn [mbind option_bind]. intros E Ef.
  cbn. rewrite E. cbn. rewrite Ef. cbn. destruct dir; cbn.
  - destruct (n_set (map_ s) before (NE (endpoint e) now)) as [t|]; [|done]. cbn. by destruct (Stamp _ _ _ _ _).
  - by destruct (Stamp _ _ _ _ _).
Qed.

(** C28. Replies find the way back: when a packet from an internal endpoint has been
    emitted with an external one, then, after any further batch within five minutes,
    every packet to the external endpoint is emitted to the internal one, and every
    packet of the internal endpoint, to whatever destination, gets the same external one;
    no entry has to be made for them.  Privileged ports get privileged ports.  The table
    must not have refused an entry, neither for the first packet nor in the batch (the code
    does not look at the answer of the insertion for the way back, without which replies
    are dropped), and packets that come to gate 0 are from internal addresses. *)
Theorem nat_reply {T} `{NatTableLaws T} crc garbage ext_addrs_ port_ranges_ now ip (s : nat_state T) M internal :
  now < 2 ^ 64 -> config_ok ext_addrs_ port_ranges_ -> n_rep (map_ s) M -> nat_ok crc ext_addrs_ port_ranges_ M ->
  packet_ok ip -> inside ext_addrs_ kForward ip -> shown kForward ip = Some (Some internal) ->
  let one := process_one crc garbage ext_addrs_ port_ranges_ in
  (one kForward now ip s).1 = O ->
  exists ip' b s1, one kForward now ip s = (O, Some (ip', b, s1)) /\ (b = true -> exists external,
    shown kForward ip' = Some (Some external) /\ e_addr external ∈ ext_addrs_ /\ allotted crc ext_addrs_ port_ranges_ internal external /\
    (e_proto internal <> kIcmp -> 1024 <= bswap16 (e_port internal) <-> 1024 <= bswap16 (e_port external)) /\
    forall dir now1 batch, now1 < 2 ^ 64 -> (now1 + 2 ^ 64 - now) mod 2 ^ 64 <= kTimeOutNs ->
      Forall packet_ok batch -> Forall (inside ext_addrs_ dir) batch ->
      let further := DoProcessBatch crc garbage ext_addrs_ port_ranges_ dir now1 batch s1 in further.1 = O ->
    exists out s2, further = (O, Some (out, s2)) /\ forall now2 ip2, now2 < 2 ^ 64 -> packet_ok ip2 ->
      (shown kReverse ip2 = Some (Some external) -> exists ip3 s3,
        one kReverse now2 ip2 s2 = (O, Some (ip3, true, s3)) /\ shown kReverse ip3 = Some (Some internal)) /\
      (shown kForward ip2 = Some (Some internal) -> exists ip3 s3,
        one kForward now2 ip2 s2 = (O, Some (ip3, true, s3)) /\ shown kForward ip3 = Some (Some external))).
Proof.
  intros Hnow Hc Hr Ok Hp Hin Hs one. assert (Hint : e_addr internal ∉ ext_addrs_) by (by apply (Hin eq_refl)).
  intros Hno. destruct (nat_one_ok crc garbage ext_addrs_ port_ranges_ kForward now ip s M Hnow Hc Hr Ok Hp Hin Hno)
    as ([[ip' b] s1] & E1 & M1 & Hr1 & Ok1 & _ & _ & Hserved & _).
  exists ip', b, s1. split; [by apply quiet_some|]. intros ->.
  destruct Hserved as (l4 & before & e & El & Eb & He & Hl & _ & Hs'). unfold shown in Hs. rewrite El in Hs. cbn [mbind option_bind] in Hs.
  assert (before = internal) as -> by congruence. specialize (Hl eq_refl). cbn [fst] in Hs'. exists (endpoint e). split; [done|].
  pose proof (m_side _ _ _ _ Ok1 _ _ He) as Hside. split.
  { destruct (decide (e_addr (endpoint e) ∈ ext_addrs_)) as [|Hne]; [done|]. by apply Hside in Hne. }
  pose proof (m_allotted _ _ _ _ Ok1 _ _ He Hint) as Hal. split; [done|].
  split; [intros Hni; eapply allotted_class; eauto; apply (m_width _ _ _ _ Ok1 _ _ He)|]. intros dir now1 batch Hnow1 Hage Hps Hins further Hno2.
  destruct (nat_batch_ok crc garbage ext_addrs_ port_ranges_ dir now1 batch Hnow1 Hc s1 M1 Hr1 Ok1 Hps Hins Hno2)
    as ([out s2] & E2 & M2 & Hr2 & Ok2 & Hk & _ & _).
  exists out, s2. split; [by apply quiet_some|]. intros now2 ip2 Hnow2 Hp2.
  assert (Hx : expired now1 e = false) by (unfold expired; rewrite Hl; by apply N.ltb_ge).
  destruct (Hk internal e He Hint Hx) as [(e2 & He2 & Ee2 & _) Hw2].
  destruct (m_pair _ _ _ _ Ok1 _ _ He) as (_ & w & Hw & Ew). rewrite Hw in Hw2. split; intros Hs2.
  - assert (Hq : (one kReverse now2 ip2 s2).1 = O).
    { eapply (no_entry_made _ _ _ _ _ _ _ _ _ _ Hs2). rewrite (n_find_ok _ _ _ Hr2), Hw2. reflexivity. }
    destruct (nat_one_ok crc garbage ext_addrs_ port_ranges_ kReverse now2 ip2 s2 M2 Hnow2 Hc Hr2 Ok2 Hp2 ltac:(done) Hq)
      as ([[ip3 b3] s3] & E3 & M3 & _ & _ & _ & _ & Hsv & Hfound).
    destruct (Hfound _ _ Hs2 Hw2) as (-> & w3 & Hw3 & Ew3). exists ip3, s3. split; [by apply quiet_some|].
    destruct Hsv as (l & bf & e3 & Elen & Ebf & He3 & _ & _ & Hs3). unfold shown in Hs2. rewrite Elen in Hs2. cbn [mbind option_bind] in Hs2.
    assert (bf = endpoint e) as -> by congruence. cbn [fst] in Hs3. rewrite Hs3. congruence.
  - assert (Hq : (one kForward now2 ip2 s2).1 = O).
    { eapply (no_entry_made _ _ _ _ _ _ _ _ _ _ Hs2). rewrite (n_find_ok _ _ _ Hr2), He2. reflexivity. }
    assert (Hin2 : inside ext_addrs_ kForward ip2) by (intros _ x; rewrite Hs2; by intros [= <-]).
    destruct (nat_one_ok crc garbage ext_addrs_ port_ranges_ kForward now2 ip2 s2 M2 Hnow2 Hc Hr2 Ok2 Hp2 Hin2 Hq)
      as ([[ip3 b3] s3] & E3 & M3 & _ & _ & _ & _ & Hsv & Hfound).
    destruct (Hfound _ _ Hs2 He2) as (-> & w3 & Hw3 & Ew3). exists ip3, s3. split; [by apply quiet_some|].
    destruct Hsv as (l & bf & e3 & Elen & Ebf & He3 & _ & _ & Hs3). unfold shown in Hs2. rewrite Elen in Hs2. cbn [mbind option_bind] in Hs2.
    assert (bf = internal) as -> by congruence. cbn [fst] in Hs3. rewrite Hs3. congruence.
Qed.

(** ** The hash table keeps its promises *)

#[global] Instance cuckoo_nat_ok (crc64 : Z -> Z) (n : nat) : @NatTableLaws NatMap (cuckoo_nat crc64 n).
Proof.
  refine (@Build_NatTableLaws NatMap (cuckoo_nat crc64 n) (fun t M => cuckoo_ok (endpoint_hash crc64) t M) _ _ _ _).
  - intros t M k Hr. unfold n_find, cuckoo_nat, Find. destruct (find_hash_ok _ t M k Hr) as (idx & -> & Hi).
    cbn [mbind option_bind]. destruct (M !! k) as [v|].
    + destruct Hi as (Hn & E & _). rewrite (proj2 (Z.eqb_neq _ _) Hn), E. done.
    + subst idx. by rewrite Z.eqb_refl.
  - intros t M k v t' Hr. unfold n_insert, cuckoo_nat. case_guard as Hl; [|done]. cbn [mbind option_bind].
    destruct (Insert _ _ _ n t k v) as [[e m]|] eqn:E; [|done]. cbn [mbind option_bind]. intros [= He <-].
    apply negb_true_iff, Z.eqb_neq in He.
    destruct (DoEmplace_ok (endpoint_hash crc64) no_nat_entry (fun v => v) ltac:(done) n t M k v e m Hr Hl E) as (_ & [(_ & Hr' & _)|(-> & _)]); done.
  - intros t M k Hr. unfold n_remove, cuckoo_nat. destruct (remove_ok _ no_nat_entry t M k Hr) as (r & t' & -> & _ & Hr'). by exists t'.
  - intros t M k v Hr [v0 Hv]. unfold n_set, cuckoo_nat, set_value. destruct (find_hash_ok _ t M k Hr) as (idx & -> & Hi).
    rewrite Hv in Hi. destruct Hi as (Hn & E & x & Hx & <-). cbn [mbind option_bind]. rewrite E. cbn [mbind option_bind fst].
    eexists. split; [reflexivity|]. by apply (update_value _ t M k v0 v x).
Defined.

(** ** Initialisation *)

Lemma insert_addr_perm a l : insert_addr a l ≡ₚ a :: l.
Proof. induction l as [|b l IH]; simpl; [done|]. case_match; [|done]. rewrite IH. apply Permutation_swap. Qed.

Lemma sort_addrs_perm l : sort_addrs l ≡ₚ l.
Proof. induction l as [|a l IH]; simpl; [done|]. by rewrite insert_addr_perm, IH. Qed.

Lemma insert_addr_sorted a l : Sorted (fun x y => bswap32 x <= bswap32 y) l -> Sorted (fun x y => bswap32 x <= bswap32 y) (insert_addr a l).
Proof.
  induction 1 as [|b l Hs IH Hd]; simpl; [by repeat constructor|]. destruct (N.ltb_spec (bswap32 b) (bswap32 a)) as [Hl|Hl].
  - constructor; [done|]. destruct l as [|c l]; simpl; [constructor; lia|]. inversion Hd; subst. case_match; constructor; lia.
  - constructor; [by constructor|constructor; lia].
Qed.

(** What [Init] accepts is a configuration for the theorems: the addresses that were
    given, in the order of their values, the ranges in the order they were given. *)
Lemma nat_init_ok arg xs rs :
  NatModule.Init arg = inr (xs, rs) ->
  config_ok xs rs /\ Sorted (fun x y => bswap32 x <= bswap32 y) xs /\ rs = map (fun x => port_list x.2) arg /\
  exists ys, mapM (fun x => ParseIpv4Address x.1) arg = Some ys /\ xs ≡ₚ ys.
Proof.
  unfold NatModule.Init. destruct (existsb _ arg) eqn:Em; [done|].
  assert (Hread : forall xs rs, read_ranges arg = inr (xs, rs) -> mapM (fun x => ParseIpv4Address x.1) arg = Some xs /\
    rs = map (fun x => port_list x.2) arg /\ Forall (fun a => a < 2 ^ 32) xs /\ length rs = length xs /\ Forall (Forall range_ok) rs).
  { clear xs rs. induction arg as [|[a ranges] arg IH]; simpl; intros xs rs; [by intros [= <- <-]|].
    simpl in Em. apply orb_false_iff in Em as [Em1 Em2].
    destruct (ParseIpv4Address a) as [x|] eqn:Ea; [|done]. destruct (read_ranges arg) as [|[ys ss]]; [done|]. intros [= <- <-].
    destruct (IH Em2 _ _ eq_refl) as (E1 & -> & H1 & H2 & H3). cbn [mbind option_bind]. rewrite E1. split; [done|]. split; [done|].
    split; [constructor; [by eapply ParseIpv4Address_lt|done]|]. split; [simpl; congruence|]. constructor; [|done].
    unfold port_list. apply Forall_app. split; [destruct ranges; repeat constructor; unfold range_ok; simpl; lia|].
    apply Forall_map, Forall_forall. intros [[b e] sus] Hin. assert (Hm : malformed (b, e, sus) = false).
    { apply not_true_iff_false. intros Ht. apply not_true_iff_false in Em1. apply Em1, existsb_exists. exists (b, e, sus).
      split; [by apply list_elem_of_In|done]. }
    unfold malformed in Hm. rewrite !orb_false_iff, N.leb_gt, !N.ltb_ge in Hm. unfold range_ok. simpl. lia. }
  destruct (read_ranges arg) as [|[[|y ys] ss]]; [done|done|]. intros E0. assert (xs = sort_addrs (y :: ys)) as -> by congruence. assert (ss = rs) as -> by congruence. clear E0.
  destruct (Hread _ _ eq_refl) as (E1 & E2 & H1 & H2 & H3). pose proof (sort_addrs_perm (y :: ys)) as Hperm.
  split.
  - split; [intros E; apply Permutation_length in Hperm; rewrite E in Hperm; done|]. split; [by rewrite Hperm|].
    split; [by rewrite H2, Hperm|done].
  - split; [clear; induction (y :: ys) as [|a l IH]; simpl; [constructor|by apply insert_addr_sorted]|]. split; [done|].
    by exists (y :: ys).
Qed.

Lemma sort_sorted l : Sorted (fun x y => bswap32 x <= bswap32 y) l -> sort_addrs l = l.
Proof.
  induction 1 as [|a l Hs IH Hd]; simpl; [done|]. rewrite IH. destruct Hd as [|b l Hb]; simpl; [done|]. by rewrite (proj2 (N.ltb_ge _ _)).
Qed.

(** [GetInitialArg] gives an argument for which [Init] comes to the same state. *)
Lemma initial_arg arg xs rs :
  NatModule.Init arg = inr (xs, rs) -> exists arg', GetInitialArg xs rs = Some arg' /\ NatModule.Init arg' = inr (xs, rs).
Proof.
  intros Hi. destruct (nat_init_ok arg xs rs Hi) as ((Hne & Hx & Hlen & Hr) & Hsort & Hrs & _).
  assert (Hfull : Forall (fun l => l <> []) rs).
  { rewrite Hrs. apply Forall_map, Forall_forall. intros [x [|r l]] _; done. }
  set (back := zip_with (fun a l => (ToIpv4Address a, map (fun r => (p_begin r, p_end r, suspended r)) l))).
  exists (back xs rs). split.
  - clear - Hlen. unfold GetInitialArg.
    enough (Hoff : forall pre, mapM (fun '(i, a) => l ← (pre ++ rs) !! i; Some (ToIpv4Address a, map (fun r => (p_begin r, p_end r, suspended r)) l))
      (imap (fun i a => (length pre + i, a)%nat) xs) = Some (back xs rs)) by exact (Hoff []).
    revert rs Hlen. induction xs as [|x xs IH]; intros [|l rs] Hlen pre; try done. cbn [imap mapM back zip_with].
    rewrite lookup_app_r, Nat.add_0_r, Nat.sub_diag by lia. cbn [lookup list_lookup mbind option_bind].
    specialize (IH rs ltac:(simpl in Hlen; lia) (pre ++ [l])). rewrite <- app_assoc in IH. cbn [app] in IH.
    rewrite (imap_ext _ (fun i a => (length (pre ++ [l]) + i, a)%nat)) by (intros; rewrite length_app; simpl; f_equal; lia).
    by rewrite IH.
  - unfold NatModule.Init.
    assert (Em : existsb (fun x => existsb malformed x.2) (back xs rs) = false /\ read_ranges (back xs rs) = inr (xs, rs)).
    { clear - Hlen Hr Hx Hfull. unfold back. revert rs Hlen Hr Hfull. induction Hx as [|x xs Hx Hxs IH]; intros [|l rs] Hlen Hr Hfull; try done.
      apply Forall_cons in Hr as [Hl Hr], Hfull as [Hf Hfull]. destruct (IH rs ltac:(simpl in Hlen; lia) Hr Hfull) as [E1 E2].
      cbn [zip_with existsb read_ranges snd]. rewrite E1, E2, parse_print by done. split.
      - rewrite orb_false_r. apply not_true_iff_false. rewrite existsb_exists. intros (z & Hz & Ez).
        apply in_map_iff in Hz as (r & <- & Hin). apply list_elem_of_In in Hin. rewrite Forall_forall in Hl. apply Hl in Hin.
        unfold range_ok in Hin. unfold malformed in Ez. rewrite !orb_true_iff, N.leb_le, !N.ltb_lt in Ez. lia.
      - do 3 f_equal. unfold port_list. rewrite map_map. destruct l as [|r l]; [done|]. cbn [map app].
        f_equal; [by destruct r|]. rewrite <- (map_id l) at 2. apply map_ext. by intros []. }
    destruct Em as [-> ->]. destruct xs as [|x xs]; [done|]. by rewrite sort_sorted.
Qed.

(** ** Corners *)

(** The addresses are sorted and the ranges are not, so that an address has the ranges
    of another; a range gives its end too, which [nat.h] excludes; a privileged port may
    be mapped to port 0. *)
Definition demo_range (r : PortRange) (port seed : N) : option Endpoint :=
  match (CreateNewEntry (H := cuckoo_nat id 1) (fun _ => 0) (fun _ => 0) [7] [[r]] (EP 9 (bswap16 port) kTcp) 0
           (NatState (new_cuckoo no_nat_entry 4 16) seed)).2 with
  | Some (Some e, _) => Some (endpoint e)
  | _ => None
  end.

Lemma nat_corners :
  NatModule.Init [("10.0.0.2"%string, [(1000, 2000, false)]); ("10.0.0.1"%string, [(3000, 4000, false)])] =
    inr ([bswap32 0x0a000001; bswap32 0x0a000002], [[PR 1000 2000 false]; [PR 3000 4000 false]]) /\
  demo_range (PR 2000 2001 false) 5000 (2 ^ 63) = Some (EP 7 (bswap16 2001) kTcp) /\
  demo_range (PR 0 65535 false) 22 0 = Some (EP 7 0 kTcp).
Proof. repeat split; vm_compute; reflexivity. Qed.

(** ** Witnesses *)

Definition demo_nat : nat_state NatMap := NatState (new_cuckoo no_nat_entry 4 16) 1.
Lemma demo_packet_ok : packet_ok demo_packet.
Proof. exists (take 20 demo_packet), (drop 20 demo_packet), kUdp. split; [reflexivity|apply demo_parted]. Qed.

Lemma demo_inside dir : inside [7] dir demo_packet.
Proof. intros -> e E. vm_compute in E. injection E as <-. cbn. intros H. apply list_elem_of_singleton in H. discriminate H. Qed.

Lemma demo_config : config_ok [7] [[PR 0 65535 false]].
Proof. split; [done|]. split; [by repeat constructor|]. split; [done|]. by repeat constructor. Qed.

Lemma demo_table : cuckoo_ok (endpoint_hash id) (map_ demo_nat) ∅.
Proof. apply (new_ok _ _ 4 16 2); [done|lia|lia]. Qed.

Lemma demo_nat_ok : nat_ok (fun _ => 0) [7] [[PR 0 65535 false]] ∅.
Proof. split; intros k v; by rewrite lookup_empty. Qed.

Lemma nat_batch_witness :
  exists out s' M', (ProcessBatch (H := cuckoo_nat id 1) (fun _ => 0) (fun _ => 0) [7] [[PR 0 65535 false]] 0 1000 [demo_packet] demo_nat).2 = Some (out, s') /\
    cuckoo_ok (endpoint_hash id) (map_ s') M' /\ nat_ok (fun _ => 0) [7] [[PR 0 65535 false]] M' /\ length out = 1%nat.
Proof.
  destruct (@nat_batch NatMap (cuckoo_nat id 1) (cuckoo_nat_ok id 1) (fun _ => 0) (fun _ => 0) [7] [[PR 0 65535 false]] 0 1000 [demo_packet] demo_nat ∅)
    as ([out s'] & E & M' & Hr & Ok & _ & _ & Hout); [reflexivity|exact demo_config|exact demo_table|exact demo_nat_ok| | |vm_compute; reflexivity|].
  - repeat constructor. apply demo_packet_ok.
  - constructor; [apply demo_inside|constructor].
  - exists out, s', M'. split; [exact E|]. split; [exact Hr|]. split; [exact Ok|]. symmetry. exact (Forall2_length _ _ _ Hout).
Defined.

Lemma nat_reply_witness :
  exists ip' b s1, (process_one (H := cuckoo_nat id 1) (fun _ => 0) (fun _ => 0) [7] [[PR 0 65535 false]] kForward 1000 demo_packet demo_nat).2 = Some (ip', b, s1) /\
    (b = true -> exists external, shown kForward ip' = Some (Some external) /\ e_addr external ∈ [7]).
Proof.
  destruct (@nat_reply NatMap (cuckoo_nat id 1) (cuckoo_nat_ok id 1) (fun _ => 0) (fun _ => 0) [7] [[PR 0 65535 false]] 1000 demo_packet demo_nat ∅ demo_internal)
    as (ip' & b & s1 & E & Hb); [reflexivity|exact demo_config|exact demo_table|exact demo_nat_ok|exact demo_packet_ok|apply demo_inside|reflexivity|vm_compute; reflexivity|].
  exists ip', b, s1. split; [by rewrite E|]. intros Eb. destruct (Hb Eb) as (external & H1 & H2 & _). exists external. split; [exact H1|exact H2].
Defined.
